(* ===== verification/_CoqProject ===== *)
-Q . S2P
Prelude.v
IntervalArith.v
WindowArith.v
Types.v
PermUtil.v
Shape.v
ShapeProofs.v
ShapeInfer.v
SliceProofs.v
ConcatProofs.v
Radix.v
Layouts.v
IndexProofs.v
TilingProofs.v
UntileProofs.v
LayoutCorrect.v
Places.v
Bitcasts.v
BitcastProofs.v
TransposeProofs.v
BitcastCorrect.v
Align.v
FactorProofs.v
FactorCorrect.v
Arrays.v
ArrayProofs.v
TileAssign.v
TileValue.v
TileCanonical.v
TileTranspose.v
TileFactors.v
TileRefine.v
TileAxes.v
MeshAxes.v
NamedShard.v
MeshCorrect.v
Sharding.v
ShardOps.v
ShardTiles.v
ShardGroups.v
ShardCorrect.v
ShardConvert.v
ShardProto.v
ExecGraph.v
ExecBuild.v
ExecReduce.v
ExecCreate.v
ExecCorrect.v
ThunkQueues.v
ThunkExec.v
ThunkCore.v
ThunkInv.v
ThunkMoves.v
ThunkRuns.v
ThunkCorrect.v
HeapTree.v
HeapFinder.v
HeapSim.v
HeapColoc.v
HeapFree.v
HeapRun.v
HeapCorrect.v
HeapChunks.v
HeapLimit.v
HeapMulti.v
HeapTimes.v
HeapLimitCorrect.v
GraphCycles.v
GraphProofs.v
GraphInsert.v
GraphContract.v
GraphCorrect.v
BfcState.v
BfcOps.v
BfcInv.v
BfcProofs.v
BfcFind.v
BfcExtend.v
BfcAlloc.v
BfcCorrect.v
