(* ===== verification/Prelude.v ===== *)
(** * A verification library for XLA

    XLA compiles graphs of array operations and runs them on accelerators and on the CPU.
    This library models the parts of it that decide where data lies and in which order
    work happens, and proves what they promise: the shapes and layouts of arrays, the
    memory allocator and the compile-time packing of buffers, the graphs that order
    operations, the executor that runs them, and the assignment of devices to the tiles of
    sharded arrays.  All paths below are under [src/].

    ** The parts and how they meet

    A compiler pass gives every value a shape ([xla/shape.h], inferred by
    [xla/service/shape_inference.cc]) and a layout ([xla/layout.h]), which fixes the place
    of every element ([xla/index_util.cc], tiles in [xla/layout_util.cc]).  Where a reshape
    or transpose moves no element it is a bitcast ([xla/shape_util.cc]).  Buffers of known
    lifetimes are packed into one heap at compile time ([xla/service/heap_simulator]); at
    run time memory comes from the BFC allocator ([xla/tsl/framework/bfc_allocator.cc]).
    Which operations may run at once follows from the buffers and resources they use
    ([xla/runtime/execution_graph.cc]); the CPU runtime executes that graph with many
    threads ([xla/backends/cpu/runtime/thunk_executor.cc]).  Cycles are detected
    incrementally where passes fuse or cluster ([xla/service/graphcycles]).  The indexing
    analysis bounds indices by intervals ([xla/hlo/analysis/interval.cc]).  Shardings say
    which device holds which tile: as assignments of devices to tiles
    ([xla/hlo/ir/hlo_sharding.cc] over [xla/hlo/ir/tile_assignment.cc] and the dense arrays of
    [xla/array.h]), or as the axes of a mesh of devices that shard each dimension
    ([xla/hlo/ir/named_sharding.cc] over [xla/hlo/ir/mesh_and_axis.cc]).

    ** Conventions

    Code that can fail returns [res]: [Ok], or [Fail] with the status it returns
    ([InvalidArgument], ...), [CheckFailed] for a [CHECK] or [LOG(FATAL)] that aborts, or
    [Undefined] for what C++ leaves undefined: a vector access out of range, a signed
    overflow ([s64], [s32]), a division by zero.  Debug checks are left out, so that a theorem
    also covers builds without them.  Integers are [Z]; unsigned ones wrap explicitly
    ([wrap_u64]).  [absl] and standard containers are lists, sorted lists, [gmap] or
    [gset]; where the code mutates shared objects the model threads a state.  A loop that
    is not structural has fuel and fails with [NoFuel]; every theorem about a fuelled
    function says that the fuel given is enough, or names when it is not.  A file named
    [X] holds the module [X], and some hold further modules of lemmas before or after it,
    named with the file below; models come first, files with lemmas after, and the
    properties a client relies on in the last file of a group.

    ** The files

    - [Prelude]: outcomes, their monad, machine integers, generic lemmas and tactics.

    - Intervals.  [IntervalArith] ([Interval] of [interval.h] and [.cc]): comparisons, sums,
      products, minimum and maximum with saturation.  [gamma] is the set of integers an
      interval stands for; every operation is sound for it.

    - Integers, types, permutations.  [WindowArith] ([overflow_util.h], [math_util.h],
      [window_util.cc]), [Types] ([primitive_util.h], with the facts about native types as
      the class [NativeTypes]), [PermUtil] ([permutation_util.h] and [.cc]).

    - Shapes.  [Shape] ([shape.h], [shape.cc], [shape_util]) and [ShapeProofs]: validation is
      exact and the number of elements does not overflow.  [ShapeInfer]
      ([shape_inference.cc]: [InferSliceShape], [InferPadShape], [InferConcatOpShape],
      windows, transposes, dynamic slices, dimension sizes), [SliceProofs], [ConcatProofs].

    - Layouts and bitcasts.  [Radix] is the arithmetic of mixed radix numbers.  [Layouts]
      ([layout.h], [layout_util.cc], [index_util.h] and [.cc]), with [IndexProofs],
      [TilingProofs], [UntileProofs] (also [FlatTiles] and [UntiledProofs]) and the properties
      in [LayoutCorrect] (also [LayoutProofs]): linear indices and nested tiles are undone exactly.
      [Bitcasts] ([ReshapeIsBitcast], [TransposeIsBitcast], [DecomposeBitcast], ... of
      [shape_util.cc]) with [Places], [BitcastProofs], [TransposeProofs]
      (also [DecomposeProofs]), [BitcastCorrect]: a reshape is called a bitcast exactly when no
      element moves, and decompositions never fail their checks.  [Align]
      ([CommonFactors] of [util.cc], [AlignLayouts] and the analyses of reshapes of
      [shape_util.cc]) with [FactorProofs] and [FactorCorrect] (also [UnmodifiedProofs]).

    - Arrays and tile assignments.  [Arrays] ([Array] of [array.h]) with [ArrayProofs]
      (also [ArrayTranspose]): both transposing loops move every element to its permuted index.
      [TileAssign] ([IotaTileAssignment], [TileAssignment], [ExtractCommonFactorSequence],
      [GetOrderedSubDims], [AnalyzeTileAssignment]).  [TileValue] defines [flat], the device
      of an iota at a linear index; [TileCanonical] shows that canonicalization keeps it
      and has one result; [TileTranspose] and [TileFactors] (also [TilePrimes] and [TileGroups])
      that [Transpose] permutes it, through the grouping of prime factors; [TileRefine]
      (also [TileCorrect]) states the contract: [contents] is the array an assignment stands for,
      in either format, and every operation is the one on this array.  [TileAxes] is about
      common factorizations and sub-dimensions.

    - Meshes and named shardings.  [MeshAxes] ([mesh_and_axis.h] and [.cc]: [Mesh], [AxisRef],
      [MergeAxes], [TruncateAxesByRemovingOverlaps], ...), [NamedShard] ([named_sharding.h] and
      [.cc]: [DimensionSharding], [NamedSharding], [VerifyNamedSharding], ...).  [MeshCorrect]
      reads a list of axes as a mixed radix number, the [position] of a device among the
      tiles these axes make: merging keeps it, slicing splits it, and prefixes without an
      overlap are the longest.

    - Shardings.  [Sharding] (the data of [HloSharding], its constructors with the
      normalizations of [PartialTile] and [Subgroup], and the conversion of a named sharding)
      and [ShardOps] (the rest of [hlo_sharding.h] and [.cc]: predicates, tiles of devices,
      validation, tuples, equality, protos, the conversion to named shardings).
      [ShardTiles] is about the tiles of a tiled sharding, [ShardGroups] about sorting the
      devices that hold the same tile; [ShardCorrect] holds the properties: the tiles
      partition the array, the ways to find them agree, validation is exact, replicas are
      sorted.  [ShardConvert] is about [V3ToV2Sharding]: the tiles of a verified named sharding
      are those that its axes say (shown for shardings without manual and unreduced axes,
      on fewer than 46339 * 46339 devices, where factoring sizes needs no wider integers).
      [ShardProto] is about [ToProto] and [FromProto]: writing and reading back keeps every
      field and the devices (shown for at most one subgroup type and for tiles of more than
      one device).

    - Execution graphs.  [ExecGraph] ([buffer_use], [resource_use], [execution_graph]), with
      [ExecBuild] (also [ExecDeps]), [ExecReduce] (also [ExecPaths] and [ExecLoops]), [ExecCreate]
      and the properties in [ExecCorrect]: the schedules that follow the reduced graph are those
      that keep the order of conflicting operations.

    - The thunk executor.  [ThunkQueues] (the three ready queues as instances of one class),
      [ThunkExec] ([ThunkExecutor::Execute] as a relation [step] whose steps are the atomic
      operations of any number of threads, and [ExecuteSequential]).  [ThunkCore],
      [ThunkInv], [ThunkMoves] (also [ThunkSteps]), [ThunkRuns] (also [ThunkGraph]) establish the
      invariant of the reachable states; [ThunkCorrect] (also [ThunkSequence]) holds the
      properties: order, progress, termination, outcome, absence of failures.

    - The heap simulator.  [HeapTree] ([BufferIntervalTree]), [HeapFinder]
      ([SlicedAllocationFinder]), [HeapSim] ([GlobalDecreasingSizeBestFitHeap]), with
      [HeapColoc], [HeapFree], [HeapRun] (also [HeapPlace]) and [HeapCorrect]: chunks are aligned,
      inside of the heap, shared by colocated buffers and disjoint for buffers live at a
      common time.  [HeapChunks] ([FreeChunksManager]) refines the set of its free
      addresses.  [HeapLimit] ([ConstrainedGlobalDecreasingSizeBestFitHeap],
      [ChooseBestHeapAlgorithm], [HeapAlgorithmWithFallback]) with [HeapMulti],
      [HeapTimes], [HeapLimitCorrect] (also [HeapAlgoCorrect]).

    - Incremental cycle detection.  [GraphCycles] ([graphcycles.cc], [ordered_set.h]) with
      [GraphProofs], [GraphInsert] (also [GraphOps]), [GraphContract] and [GraphCorrect]: edges
      increase ranks, insertion refuses exactly the edges that close a cycle, contraction
      gives the quotient graph.

    - The BFC allocator.  [BfcState] (chunks, bins, regions of [bfc_allocator.h]), [BfcOps]
      ([bfc_allocator.cc] in a state and failure monad), [BfcInv] (the invariant),
      [BfcProofs], [BfcFind], [BfcExtend], [BfcAlloc] and [BfcCorrect]: the allocator
      refines a finite map from addresses to blocks, with their sizes and numbers.

    ** Interfaces

    [SubAllocator] (the memory source of the BFC allocator, with what it promises in
    [BfcAlloc]), [NativeTypes] and the class of LLVM's integer helpers in [IntervalArith] stand
    for code outside of the repository; witnesses instantiate each.  [ReadyQueue] in
    [ThunkQueues], with its laws [QueueLaws], and [HeapAlgorithm] in [HeapLimit] are
    interfaces of the code itself: the executor and the choice between algorithms are
    proved against the class, and each implementation is an instance.

    ** Fuel and bounds

    Structural recursion is used wherever the code walks a list or tree.  The fuel of the
    other loops is computed from the input: the number of dimensions plus one for the
    canonicalization of an iota, the number of sizes plus one for
    [ExtractCommonFactorSequence], the square root of a dimension for its odd factors, the number of devices
    plus one for the enumeration of tiles and the number of devices for sorting replicas,
    the number of nodes for the searches of graphs, the sizes of both shapes for [CommonFactors], 64 steps for loops that halve a 64-bit
    number; the theorems about these functions include that they do not run out.  The BFC
    allocator is the exception: [Extend] retries with sizes that shrink by a tenth and can
    loop for ever at nine slots of 256 bytes ([Extend_hangs]), so its fuel is a parameter;
    [backpedal_smaller] shows that larger sizes shrink, and [serve_refines] that with
    [big_fuel] every request returns for which [returns] holds.
    Executions of the thunk executor have a bound on the number of steps instead.

    Theorems about sizes ask that products of dimensions fit in 64 bits where the code
    multiplies; those about tile assignments that there are fewer than [2^31] devices, and
    fewer than [46339^2] to transpose, because trial division squares an [int]; those about
    slicing dimensions that they have fewer than [2^31] shards, because the product is kept
    in an [int].

    ** What is not modelled

    The instruction graph ([xla/hlo/ir] apart from shardings), its parser, evaluator,
    analyses and transformations: a pointer structure whose passes are correct with
    respect to a semantics the repository gives only in prose and in native floating point
    arithmetic.  Memory space assignment and buffer assignment, which read that graph.
    Cost models, which are heuristics in floating point.  Backends, code generation, PJRT,
    stream executors and profiling, which drive LLVM, MLIR, vendor libraries, devices and
    the operating system.  Of the components above: printing, hashing, the protos except those of shardings, logging,
    tracing and debug renderings; mutexes, each operation that holds one being a single
    step; the clock of the allocator's retries; repacking and mutable sliced intervals in
    the heap simulator; shape inference beyond the operations named; the shapes of tuples
    with layouts; and the random fills of arrays. *)
From stdpp Require Export base option list numbers decidable sorting gmap.
From Stdlib Require Export ZArith Lia.

#[global] Open Scope Z_scope.

(** ** Outcomes of fallible code *)

(** The ways a C++ routine of the modelled sources can fail to return a value:
    an [absl::Status] error it returns to its caller, a [CHECK]/[LOG(FATAL)]
    that aborts the process, or a behaviour the C++ standard leaves undefined
    (an out of range vector access).  [NoFuel] is the model's own outcome for
    a loop that used up the fuel it was given. *)
Inductive failure :=
  | InvalidArgument
  | Unimplemented
  | Internal
  | ResourceExhausted
  | CheckFailed
  | Undefined
  | NoFuel.

Inductive res (A : Type) :=
  | Ok (a : A)
  | Fail (e : failure).
Arguments Ok {A} _.
Arguments Fail {A} _.

#[export] Instance failure_eq_dec : EqDecision failure.
Proof. solve_decision. Defined.

#[export] Instance res_eq_dec {A} `{EqDecision A} : EqDecision (res A).
Proof. solve_decision. Defined.

#[export] Instance res_ret : MRet res := @Ok.
#[export] Instance res_bind : MBind res := λ A B f m,
  match m with Ok a => f a | Fail e => Fail e end.
#[export] Instance res_fmap : FMap res := λ A B f m,
  match m with Ok a => Ok (f a) | Fail e => Fail e end.

(** [guard_res b e]: the early return [if (!b) return e;]. *)
Definition guard_res (b : bool) (e : failure) : res unit :=
  if b then Ok tt else Fail e.

(** An element read at an index the C++ code does not check. *)
Definition at_res {A} (l : list A) (i : nat) : res A :=
  match l !! i with Some x => Ok x | None => Fail Undefined end.

(** The same for an index that may be negative. *)
Definition at_z {A} (l : list A) (i : Z) : res A :=
  if i <? 0 then Fail Undefined else at_res l (Z.to_nat i).

Lemma bind_ok {A B} (m : res A) (f : A → res B) (b : B) :
  m ≫= f = Ok b ↔ ∃ a, m = Ok a ∧ f a = Ok b.
Proof. destruct m; simpl; split; naive_solver. Qed.

Lemma mapM_res_ok {A B} (f : A → res B) l k :
  mapM f l = Ok k ↔ Forall2 (λ x y, f x = Ok y) l k.
Proof.
  revert k. induction l as [| x l IH]; intros k; simpl.
  - split; [intros [= <-]; constructor | intros H; by inversion H].
  - rewrite bind_ok. setoid_rewrite bind_ok. setoid_rewrite IH. split.
    + intros (y & Hy & k' & Hk & [= <-]). by constructor.
    + intros H. inversion H; subst. eauto.
Qed.

Lemma mapM_total {A B} (f : A → res B) l :
  (∀ x, x ∈ l → ∃ y, f x = Ok y) → ∃ k, mapM f l = Ok k.
Proof.
  induction l as [| x l IH]; intros H; simpl; [by eexists |].
  destruct (H x) as [y Hy]; [by left |]. rewrite Hy. simpl.
  destruct IH as [k Hk]; [intros; apply H; by right |]. rewrite Hk. by eexists.
Qed.

Lemma mapM_pure {A B} (f : A → res B) (g : A → B) l :
  (∀ x, x ∈ l → f x = Ok (g x)) → mapM f l = Ok (g <$> l).
Proof.
  induction l as [| x l IH]; intros H; [done |]. simpl. rewrite (H x) by left. cbn [mbind res_bind].
  rewrite IH; [done |]. intros y Hy. apply H. by right.
Qed.

Lemma bind_fail {A B} (m : res A) (f : A → res B) (e : failure) :
  m ≫= f = Fail e ↔ m = Fail e ∨ ∃ a, m = Ok a ∧ f a = Fail e.
Proof. destruct m; simpl; split; naive_solver. Qed.

Lemma guard_res_ok b e u : guard_res b e = Ok u ↔ b = true.
Proof. destruct b, u; simpl; split; naive_solver. Qed.

Lemma at_res_ok {A} (l : list A) i x : at_res l i = Ok x ↔ l !! i = Some x.
Proof. unfold at_res. destruct (l !! i); split; naive_solver. Qed.

Lemma at_z_ok {A} (l : list A) i x : at_z l i = Ok x ↔ 0 ≤ i ∧ l !! Z.to_nat i = Some x.
Proof.
  unfold at_z. destruct (Z.ltb_spec i 0); [split; [done | lia] |].
  rewrite at_res_ok. naive_solver.
Qed.

(** Take a successful run of a monadic body apart, one bind at a time. *)
Ltac res_inv :=
  repeat match goal with
  | H : (_ ≫= _) = Ok _ |- _ =>
      apply bind_ok in H; destruct H as (? & ? & ?)
  | H : guard_res _ _ = Ok _ |- _ => apply guard_res_ok in H
  | H : at_res _ _ = Ok _ |- _ => apply at_res_ok in H
  | H : Ok _ = Ok _ |- _ => injection H as H; subst
  | H : Fail _ = Ok _ |- _ => discriminate H
  | H : mret _ = Ok _ |- _ => injection H as H; subst
  end.

(** Options that agree through [f]. *)
Lemma fmap_agree {A B} (f : A → B) (o1 o2 : option A) x :
  f <$> o1 = f <$> o2 → o1 = Some x → ∃ y, o2 = Some y ∧ f x = f y.
Proof. intros E ->. destruct o2; simplify_eq/=; eauto. Qed.

Lemma fmap_coarsen {A B C} (f : A → B) (g : A → C) (o1 o2 : option A) :
  (∀ x y, f x = f y → g x = g y) → f <$> o1 = f <$> o2 → g <$> o1 = g <$> o2.
Proof. intros H E. destruct o1, o2; simplify_eq/=; f_equal; eauto. Qed.

(** A filter that keeps everything. *)
Lemma list_filter_all {A} (P : A → Prop) `{∀ x, Decision (P x)} l : Forall P l → filter P l = l.
Proof.
  induction 1 as [| x l Hx _ IH]; [done |]. rewrite filter_cons, decide_True by done. by rewrite IH.
Qed.

(** ** Machine integers *)

Definition int64_min : Z := Eval cbv in - 2 ^ 63.
Definition int64_max : Z := Eval cbv in 2 ^ 63 - 1.
Definition uint64_size : Z := Eval cbv in 2 ^ 64.
Definition uint64_max : Z := Eval cbv in 2 ^ 64 - 1.

(** Two's complement reading of an integer modulo 2^64. *)
Definition wrap_u64 (z : Z) : Z := z mod uint64_size.
Definition wrap_s64 (z : Z) : Z :=
  let u := wrap_u64 z in if u <? 2 ^ 63 then u else u - uint64_size.

Definition in_int64 (z : Z) : Prop := int64_min ≤ z ≤ int64_max.
Definition in_uint64 (z : Z) : Prop := 0 ≤ z < uint64_size.

#[export] Instance in_int64_dec z : Decision (in_int64 z).
Proof. unfold in_int64. apply _. Defined.
#[export] Instance in_uint64_dec z : Decision (in_uint64 z).
Proof. unfold in_uint64. apply _. Defined.

(** Expose the numerals behind the machine-integer constants to [lia]. *)
Ltac int_unfold :=
  unfold in_int64, in_uint64, int64_min, int64_max, uint64_size, uint64_max in *.
Ltac int_lia := int_unfold; lia.
Ltac int_nia := int_unfold; nia.

Lemma wrap_u64_range z : in_uint64 (wrap_u64 z).
Proof. unfold wrap_u64. int_unfold. apply Z.mod_pos_bound. lia. Qed.

Lemma wrap_s64_range z : in_int64 (wrap_s64 z).
Proof.
  pose proof (wrap_u64_range z) as H. unfold wrap_s64.
  destruct (Z.ltb_spec (wrap_u64 z) (2 ^ 63)); int_lia.
Qed.

Lemma wrap_u64_id z : in_uint64 z → wrap_u64 z = z.
Proof. intros H. unfold wrap_u64. apply Z.mod_small. int_lia. Qed.

Lemma wrap_s64_id z : in_int64 z → wrap_s64 z = z.
Proof.
  intros H. unfold wrap_s64, wrap_u64. destruct (decide (0 ≤ z)).
  - rewrite Z.mod_small by int_lia.
    destruct (Z.ltb_spec z (2 ^ 63)); int_lia.
  - replace (z mod uint64_size) with (z + uint64_size).
    + destruct (Z.ltb_spec (z + uint64_size) (2 ^ 63)); int_lia.
    + symmetry. rewrite <- (Z.mod_add _ 1) by int_lia.
      rewrite Z.mod_small; int_lia.
Qed.

(** A signed 64-bit result; an overflow is undefined behaviour in C++. *)
Definition s64 (z : Z) : res Z := if decide (in_int64 z) then Ok z else Fail Undefined.

Lemma s64_ok z r : s64 z = Ok r ↔ r = z ∧ in_int64 z.
Proof. unfold s64. case_decide; split; naive_solver. Qed.
Lemma s64_in z : in_int64 z → s64 z = Ok z.
Proof. intros H. unfold s64. by rewrite decide_True. Qed.

(** The same for an [int]. *)
Definition s32 (z : Z) : res Z :=
  if decide (- 2 ^ 31 ≤ z ≤ 2 ^ 31 - 1) then Ok z else Fail Undefined.

Lemma s32_in z : - 2 ^ 31 ≤ z ≤ 2 ^ 31 - 1 → s32 z = Ok z.
Proof. intros H. unfold s32. by rewrite decide_True. Qed.

Create HintDb xla_int.
Create Rewrite HintDb xla_int.
#[export] Hint Resolve wrap_u64_range wrap_s64_range : xla_int.
#[export] Hint Rewrite wrap_u64_id wrap_s64_id using int_lia : xla_int.
