(* ===== verification/IntervalArith.v ===== *)
(** * Closed integer intervals with saturating arithmetic

    Models [xla/hlo/analysis/interval.h] and [interval.cc]: the [Interval]
    struct over [int64_t] bounds used by the indexing analysis, its comparisons
    (which answer true, false or "unknown"), and its saturating arithmetic.  A
    bound equal to the smallest or largest [int64_t] stands for "possibly
    saturated", that is for no bound at all; [gamma] is that meaning, and the
    theorems show each operation sound for it. *)
From S2P Require Import Prelude.

(** The LLVM support routines the code calls.  LLVM is not part of the
    repository; the class records what its documentation promises. *)
Class LlvmMath := {
  AddOverflow : Z → Z → bool * Z;
  MulOverflow : Z → Z → bool * Z;
  divideFloorSigned : Z → Z → Z
}.

Class LlvmMathSpec (M : LlvmMath) : Prop := {
  AddOverflow_spec x y : in_int64 x → in_int64 y →
    AddOverflow x y = (negb (bool_decide (in_int64 (x + y))), wrap_s64 (x + y));
  MulOverflow_spec x y : in_int64 x → in_int64 y →
    MulOverflow x y = (negb (bool_decide (in_int64 (x * y))), wrap_s64 (x * y));
  divideFloorSigned_spec x y : in_int64 x → in_int64 y → y ≠ 0 →
    ¬ (x = int64_min ∧ y = -1) → divideFloorSigned x y = x / y
}.

(** A concrete implementation meeting the specification. *)
Definition reference_llvm : LlvmMath := {|
  AddOverflow x y := (negb (bool_decide (in_int64 (x + y))), wrap_s64 (x + y));
  MulOverflow x y := (negb (bool_decide (in_int64 (x * y))), wrap_s64 (x * y));
  divideFloorSigned x y := x / y
|}.

#[export] Instance reference_llvm_spec : LlvmMathSpec reference_llvm.
Proof. split; reflexivity. Qed.

Module Interval.

Record t := Mk { lower : Z; upper : Z }.

#[export] Instance t_eq_dec : EqDecision t.
Proof. solve_decision. Defined.

Definition wf (i : t) : Prop := in_int64 (lower i) ∧ in_int64 (upper i).

Definition IsPoint (i : t) : bool := lower i =? upper i.
Definition IsFeasible (i : t) : bool := lower i <=? upper i.

(** [upper - lower + 1] is computed in [int64_t]. *)
Definition GetLoopTripCount (i : t) : Z :=
  if negb (IsFeasible i) then 0
  else wrap_s64 (wrap_s64 (upper i - lower i) + 1).

Definition Contains (i : t) (value : Z) : bool :=
  (value >=? lower i) && (value <=? upper i).

(** The normalisation [result.lower - 1] of an empty intersection is an
    [int64_t] subtraction. *)
Definition Intersect (i rhs : t) : t :=
  let l := Z.max (lower i) (lower rhs) in
  let u := Z.min (upper i) (upper rhs) in
  if u <? l then Mk l (wrap_s64 (l - 1)) else Mk l u.

Definition eqb (i rhs : t) : bool :=
  (lower i =? lower rhs) && (upper i =? upper rhs).

Definition ContainsInterval (i other : t) : bool := eqb (Intersect i other) other.

Definition Union (i rhs : t) : t :=
  Mk (Z.min (lower i) (lower rhs)) (Z.max (upper i) (upper rhs)).

Definition min (i rhs : t) : t :=
  Mk (Z.min (lower i) (lower rhs)) (Z.min (upper i) (upper rhs)).

Definition max (i rhs : t) : t :=
  Mk (Z.max (lower i) (lower rhs)) (Z.max (upper i) (upper rhs)).

(** [ComparisonResult]: [None] is "may be either". *)
Definition ComparisonResult := option bool.

Definition cr_not (r : ComparisonResult) : ComparisonResult :=
  match r with Some b => Some (negb b) | None => r end.

Definition Gt (i b : t) : ComparisonResult :=
  if negb (IsFeasible i) || negb (IsFeasible b) then None
  else if lower i >? upper b then Some true
  else if upper i <=? lower b then Some false
  else None.

Definition Lt (i b : t) : ComparisonResult := Gt b i.
Definition Ge (i b : t) : ComparisonResult := cr_not (Gt b i).
Definition Le (i b : t) : ComparisonResult := cr_not (Gt i b).

Definition Eq (i b : t) : ComparisonResult :=
  let intersection := Intersect i b in
  if negb (IsFeasible intersection) then Some false
  else if IsPoint intersection && IsPoint i && IsPoint b then Some true
  else None.

Definition Ne (i b : t) : ComparisonResult := cr_not (Eq i b).

Section Arith.
Context `{M : LlvmMath}.

Definition add (i rhs : t) : t :=
  let kMin := int64_min in
  let kMax := int64_max in
  let '(lower_overflow, out_lower) := AddOverflow (lower i) (lower rhs) in
  let '(upper_overflow, out_upper) := AddOverflow (upper i) (upper rhs) in
  let '(out_lower, out_upper) :=
    if lower_overflow || (lower i =? kMin) || (lower rhs =? kMin) then
      if (lower i <? 0) || (lower rhs <? 0) then (kMin, out_upper)
      else (kMax, kMax)
    else (out_lower, out_upper) in
  let '(out_lower, out_upper) :=
    if upper_overflow || (upper i =? kMax) || (upper rhs =? kMax) then
      if (upper i >? 0) || (upper rhs >? 0) then (out_lower, kMax)
      else (kMin, kMin)
    else (out_lower, out_upper) in
  Mk out_lower out_upper.

(** The lambda [mul] of [operator*]. *)
Definition mul1 (i : t) (p : Z) : t :=
  let kMin := int64_min in
  let kMax := int64_max in
  let '(l, u) := if p <? 0 then (upper i, lower i) else (lower i, upper i) in
  let '(l_overflow, out_lower) := MulOverflow l p in
  let out_lower :=
    if l_overflow || ((p =? -1) && (l =? kMax)) then kMin else out_lower in
  let '(u_overflow, out_upper) := MulOverflow u p in
  let out_upper := if u_overflow then kMax else out_upper in
  Mk out_lower out_upper.

Definition mul (i rhs : t) : t :=
  Union (mul1 i (lower rhs)) (mul1 i (upper rhs)).

(** [-upper] overflows when [upper] is the smallest [int64_t]; the model takes
    the two's complement result. *)
Definition neg (i : t) : t :=
  let ub := if lower i =? int64_min then int64_max else wrap_s64 (- lower i) in
  let lb := if upper i =? int64_max then int64_min else wrap_s64 (- upper i) in
  Mk lb ub.

Definition sub (i rhs : t) : t := add i (neg rhs).

Definition saturate_div (lhs rhs : Z) : Z :=
  if lhs =? int64_min then (if rhs >? 0 then int64_min else int64_max)
  else if lhs =? int64_max then (if rhs >? 0 then int64_max else int64_min)
  else divideFloorSigned lhs rhs.

Definition FloorDiv (i : t) (rhs : Z) : t :=
  let a := saturate_div (lower i) rhs in
  let b := saturate_div (upper i) rhs in
  Mk (Z.min a b) (Z.max a b).

End Arith.

(** ** Meaning of an interval *)

(** [gamma i x]: [x] may be a value of an expression whose range is [i]; a
    saturated bound constrains nothing. *)
Definition gamma (i : t) (x : Z) : Prop :=
  (lower i = int64_min ∨ lower i ≤ x) ∧ (upper i = int64_max ∨ x ≤ upper i).

Lemma Contains_spec i v : Contains i v = true ↔ lower i ≤ v ≤ upper i.
Proof. unfold Contains. rewrite andb_true_iff, Z.geb_le, Z.leb_le. tauto. Qed.

Lemma IsFeasible_spec i : IsFeasible i = true ↔ lower i ≤ upper i.
Proof. apply Z.leb_le. Qed.

Lemma eqb_eq i j : eqb i j = true ↔ i = j.
Proof.
  destruct i, j. unfold eqb; simpl. rewrite andb_true_iff, !Z.eqb_eq.
  split; [intros [-> ->]; done | intros [= -> ->]; done].
Qed.

(** The bounds of [Intersect] when it is not empty. *)
Lemma Intersect_feasible i j :
  Z.max (lower i) (lower j) ≤ Z.min (upper i) (upper j) →
  Intersect i j = Mk (Z.max (lower i) (lower j)) (Z.min (upper i) (upper j)).
Proof.
  intros H. unfold Intersect.
  destruct (Z.ltb_spec (Z.min (upper i) (upper j)) (Z.max (lower i) (lower j)));
    [lia | done].
Qed.

Lemma Intersect_infeasible i j :
  wf i → wf j →
  Z.min (upper i) (upper j) < Z.max (lower i) (lower j) →
  lower (Intersect i j) = Z.max (lower i) (lower j) ∧
  upper (Intersect i j) = Z.max (lower i) (lower j) - 1.
Proof.
  intros [Hi1 Hi2] [Hj1 Hj2] H. unfold Intersect.
  destruct (Z.ltb_spec (Z.min (upper i) (upper j)) (Z.max (lower i) (lower j)));
    [simpl | lia].
  split; [done | apply wrap_s64_id; int_lia].
Qed.

(** ** Soundness of the saturating arithmetic *)

Ltac bool_cases :=
  repeat match goal with
  | |- context [if ?b then _ else _] =>
      let E := fresh "E" in destruct b eqn:E
  end;
  repeat match goal with
  | H : (_ || _) = true |- _ => apply orb_true_iff in H; destruct H as [H | H]
  | H : (_ || _) = false |- _ => apply orb_false_iff in H; destruct H
  | H : (_ && _) = true |- _ => apply andb_true_iff in H; destruct H
  | H : (_ && _) = false |- _ => apply andb_false_iff in H; destruct H as [H | H]
  | H : (_ =? _) = true |- _ => apply Z.eqb_eq in H
  | H : (_ =? _) = false |- _ => apply Z.eqb_neq in H
  | H : (_ <? _) = true |- _ => apply Z.ltb_lt in H
  | H : (_ <? _) = false |- _ => apply Z.ltb_ge in H
  | H : (_ >? _) = true |- _ => apply Z.gtb_lt in H
  | H : (_ >? _) = false |- _ => rewrite Z.gtb_ltb in H; apply Z.ltb_ge in H
  | H : (_ <=? _) = true |- _ => apply Z.leb_le in H
  | H : (_ <=? _) = false |- _ => apply Z.leb_gt in H
  | H : negb _ = true |- _ => apply negb_true_iff in H
  | H : negb _ = false |- _ => apply negb_false_iff in H
  | H : bool_decide _ = true |- _ => apply bool_decide_eq_true in H
  | H : bool_decide _ = false |- _ => apply bool_decide_eq_false in H
  end.

Section Sound.
Context `{M : LlvmMath} `{!LlvmMathSpec M}.

(** What one [MulOverflow] call contributes to an interval bound. *)
Lemma mul_overflow_cases l p :
  in_int64 l → in_int64 p →
  (MulOverflow l p = (false, l * p) ∧ in_int64 (l * p)) ∨
  (fst (MulOverflow l p) = true ∧ ¬ in_int64 (l * p)).
Proof.
  intros Hl Hp. rewrite MulOverflow_spec by done.
  destruct (bool_decide_reflect (in_int64 (l * p))); simpl.
  - left. by rewrite wrap_s64_id.
  - right. done.
Qed.

Lemma add_overflow_cases l p :
  in_int64 l → in_int64 p →
  (AddOverflow l p = (false, l + p) ∧ in_int64 (l + p)) ∨
  (∃ r, AddOverflow l p = (true, r) ∧ ¬ in_int64 (l + p)).
Proof.
  intros Hl Hp. rewrite AddOverflow_spec by done.
  destruct (bool_decide_reflect (in_int64 (l + p))); simpl.
  - left. by rewrite wrap_s64_id.
  - right. eauto.
Qed.

Lemma add_gamma i j x y :
  wf i → wf j → gamma i x → gamma j y → gamma (add i j) (x + y).
Proof.
  intros [? ?] [? ?] [Hxl Hxu] [Hyl Hyu]. unfold add.
  destruct (add_overflow_cases (lower i) (lower j)) as [[-> ?] | (rl & -> & ?)];
    [done | done | |];
  (destruct (add_overflow_cases (upper i) (upper j)) as [[-> ?] | (ru & -> & ?)];
    [done | done | |]);
  simpl; bool_cases; unfold gamma; simpl; int_lia.
Qed.

Lemma wrap_neg z :
  in_int64 z → wrap_s64 (- z) = if z =? int64_min then int64_min else - z.
Proof.
  intros H. destruct (Z.eqb_spec z int64_min) as [-> |]; [reflexivity |].
  apply wrap_s64_id. int_lia.
Qed.

Lemma neg_gamma i x : wf i → gamma i x → gamma (neg i) (- x).
Proof.
  intros [? ?] [Hl Hu]. unfold neg, gamma in *. rewrite !wrap_neg by done. simpl.
  bool_cases; int_lia.
Qed.

Lemma neg_wf i : wf i → wf (neg i).
Proof.
  intros [? ?]. unfold neg, wf in *. rewrite !wrap_neg by done. simpl.
  bool_cases; int_lia.
Qed.

(** The two end points of one factor, [mul], bound every product with it. *)
Lemma mul1_lower i p x :
  wf i → in_int64 p → gamma i x →
  lower (mul1 i p) = int64_min ∨
  (lower (mul1 i p) ≤ x * p ∧ (p = int64_min → x ≤ 0) ∧
   (p = int64_max → 0 ≤ x ∨ lower i = -1)).
Proof.
  destruct i as [l u]. intros [Hl Hu] Hp [Hxl Hxu]. unfold mul1. simpl in *.
  destruct (Z.ltb_spec p 0).
  - destruct (mul_overflow_cases u p) as [[-> Hin] | [Hov ?]]; [done | done | |];
      destruct (MulOverflow l p) as [? ?]; simpl.
    + bool_cases; [by left | |];
      (destruct Hxu as [-> | Hxu]; [exfalso; int_lia |]);
      (destruct (decide (u * p = int64_min)); [by left | right]);
      repeat split; int_nia.
    + destruct (MulOverflow u p). simpl in *. subst. by left.
  - destruct (mul_overflow_cases l p) as [[-> Hin] | [Hov ?]]; [done | done | |];
      destruct (MulOverflow u p) as [? ?]; simpl.
    + bool_cases; [by left | |];
      (destruct Hxl as [-> | Hxl];
         [destruct (decide (p = 0)) as [-> |]; [right; int_lia | left; int_lia]
         | destruct (decide (l * p = int64_min)); [by left | right];
           repeat split; int_nia]).
    + destruct (MulOverflow l p). simpl in *. subst. by left.
Qed.

Lemma mul1_upper i p x :
  wf i → in_int64 p → gamma i x →
  upper (mul1 i p) = int64_max ∨
  (x * p ≤ upper (mul1 i p) ∧ (p = int64_min → 0 ≤ x) ∧ (p = int64_max → x ≤ 0)).
Proof.
  destruct i as [l u]. intros [Hl Hu] Hp [Hxl Hxu]. unfold mul1. simpl in *.
  destruct (Z.ltb_spec p 0).
  - destruct (MulOverflow u p) as [? ?].
    destruct (mul_overflow_cases l p) as [[-> Hin] | [Hov ?]]; [done | done | |]; simpl.
    + destruct (decide (l * p = int64_max)); [by left | right].
      destruct Hxl as [-> | Hxl]; [exfalso; int_lia | repeat split; int_nia].
    + destruct (MulOverflow l p). simpl in *. subst. by left.
  - destruct (MulOverflow l p) as [? ?].
    destruct (mul_overflow_cases u p) as [[-> Hin] | [Hov ?]]; [done | done | |]; simpl.
    + destruct (decide (u * p = int64_max)); [by left | right].
      destruct Hxu as [-> | Hxu];
        [destruct (decide (p = 0)) as [-> |]; [int_lia | exfalso; int_lia]
        | repeat split; int_nia].
    + destruct (MulOverflow u p). simpl in *. subst. by left.
Qed.

Lemma mul1_wf i p : wf i → in_int64 p → wf (mul1 i p).
Proof.
  intros [? ?] Hp. unfold mul1.
  destruct (p <? 0); rewrite !MulOverflow_spec by done;
    unfold wf; simpl; split; bool_cases; try apply wrap_s64_range; int_lia.
Qed.

Lemma Union_wf i j : wf i → wf j → wf (Union i j).
Proof. unfold wf, Union. simpl. int_lia. Qed.

(** A product with a factor between two bounds lies between the products with
    the bounds; an absent bound needs the sign of the other factor. *)
Lemma between_lower x y rl ru a b :
  a ≤ x * rl → b ≤ x * ru →
  (rl ≤ y ∨ x ≤ 0) → (y ≤ ru ∨ 0 ≤ x) → Z.min a b ≤ x * y.
Proof.
  intros Ha Hb H1 H2. destruct (Z.le_gt_cases 0 x) as [Hx | Hx].
  - assert (x * rl ≤ x * y); [| lia].
    destruct H1; [by apply Z.mul_le_mono_nonneg_l | replace x with 0 by lia; lia].
  - assert (x * ru ≤ x * y); [| lia].
    destruct H2; [apply Z.mul_le_mono_nonpos_l; lia | lia].
Qed.

Lemma between_upper x y rl ru a b :
  x * rl ≤ a → x * ru ≤ b →
  (rl ≤ y ∨ 0 ≤ x) → (y ≤ ru ∨ x ≤ 0) → x * y ≤ Z.max a b.
Proof.
  intros Ha Hb H1 H2.
  pose proof (between_lower (- x) y rl ru (- a) (- b)). lia.
Qed.

Lemma mul_gamma i j x y :
  wf i → wf j → ¬ (lower i = -1 ∧ upper j = int64_max) →
  gamma i x → gamma j y → gamma (mul i j) (x * y).
Proof.
  intros Hi [Hj1 Hj2] Hedge Hx [Hyl Hyu].
  pose proof (mul1_lower i (lower j) x Hi Hj1 Hx) as L1.
  pose proof (mul1_lower i (upper j) x Hi Hj2 Hx) as L2.
  pose proof (mul1_upper i (lower j) x Hi Hj1 Hx) as U1.
  pose proof (mul1_upper i (upper j) x Hi Hj2 Hx) as U2.
  pose proof (mul1_wf i (lower j) Hi Hj1) as [? ?].
  pose proof (mul1_wf i (upper j) Hi Hj2) as [? ?].
  unfold mul, Union.
  generalize dependent (mul1 i (lower j)). generalize dependent (mul1 i (upper j)).
  intros m2 L2 U2 ? ? m1 L1 U1 ? ?. unfold gamma; simpl. split.
  - destruct L1 as [L1 | (L1 & L1m & _)]; [left; int_lia |].
    destruct L2 as [L2 | (L2 & _ & L2p)]; [left; int_lia |].
    right. apply (between_lower x y (lower j) (upper j)); [done | done | |].
    + destruct Hyl; [by right; apply L1m | by left].
    + destruct Hyu as [Hyu |]; [right; destruct (L2p Hyu); tauto | by left].
  - destruct U1 as [U1 | (U1 & U1m & _)]; [left; int_lia |].
    destruct U2 as [U2 | (U2 & _ & U2p)]; [left; int_lia |].
    right. apply (between_upper x y (lower j) (upper j)); [done | done | |].
    + destruct Hyl; [by right; apply U1m | by left].
    + destruct Hyu; [by right; apply U2p | by left].
Qed.

Lemma saturate_div_pos a rhs :
  in_int64 a → in_int64 rhs → 0 < rhs →
  saturate_div a rhs =
    if (a =? int64_min) || (a =? int64_max) then a else a / rhs.
Proof.
  intros Ha Hr Hp. unfold saturate_div.
  destruct (Z.eqb_spec a int64_min) as [-> |]; simpl;
    [destruct (Z.gtb_spec rhs 0); [done | lia] |].
  destruct (Z.eqb_spec a int64_max) as [-> |]; simpl;
    [destruct (Z.gtb_spec rhs 0); [done | lia] |].
  apply divideFloorSigned_spec; int_lia.
Qed.

Lemma saturate_div_neg a rhs :
  in_int64 a → in_int64 rhs → rhs < 0 →
  saturate_div a rhs =
    if a =? int64_min then int64_max
    else if a =? int64_max then int64_min else a / rhs.
Proof.
  intros Ha Hr Hp. unfold saturate_div.
  destruct (Z.eqb_spec a int64_min) as [-> |]; simpl;
    [destruct (Z.gtb_spec rhs 0); [lia | done] |].
  destruct (Z.eqb_spec a int64_max) as [-> |]; simpl;
    [destruct (Z.gtb_spec rhs 0); [lia | done] |].
  apply divideFloorSigned_spec; int_lia.
Qed.

Lemma div_le_mono_neg a b c : c < 0 → a ≤ b → b / c ≤ a / c.
Proof.
  intros Hc Hab. rewrite <- (Z.div_opp_opp a), <- (Z.div_opp_opp b) by lia.
  apply Z.div_le_mono; lia.
Qed.

Lemma div_range a c : in_int64 a → c ≠ 0 → a ≠ int64_min → in_int64 (a / c).
Proof.
  intros Ha Hc Hn. pose proof (Z.div_mod a c Hc). 
  destruct (decide (0 < c)).
  - pose proof (Z.mod_pos_bound a c). split; int_nia.
  - pose proof (Z.mod_neg_bound a c). split; int_nia.
Qed.

Lemma FloorDiv_gamma i rhs x :
  wf i → in_int64 rhs → rhs ≠ 0 → lower i ≠ int64_max → upper i ≠ int64_min →
  gamma i x → gamma (FloorDiv i rhs) (x / rhs).
Proof.
  intros [? ?] Hr Hn Hnl Hnu [Hl Hu]. unfold FloorDiv, gamma in *. simpl.
  pose proof (div_range (lower i) rhs). pose proof (div_range (upper i) rhs).
  destruct (decide (0 < rhs)) as [Hp | Hp].
  - rewrite !saturate_div_pos by done.
    assert (lower i ≤ x → lower i / rhs ≤ x / rhs) by (intros; apply Z.div_le_mono; lia).
    assert (x ≤ upper i → x / rhs ≤ upper i / rhs) by (intros; apply Z.div_le_mono; lia).
    bool_cases; int_lia.
  - rewrite !saturate_div_neg by (done || lia).
    assert (lower i ≤ x → x / rhs ≤ lower i / rhs) by (intros; apply div_le_mono_neg; lia).
    assert (x ≤ upper i → upper i / rhs ≤ x / rhs) by (intros; apply div_le_mono_neg; lia).
    bool_cases; int_lia.
Qed.

(** Addition is sound under the saturating reading (the sum of a member of
    each operand is a member of the sum) and exact when nothing saturates: with
    no bound at an [int64_t] limit and both sums in range, the bounds of the
    result are the sums of the bounds. *)
Theorem add_sound_exact i j :
  wf i → wf j →
  (∀ x y, gamma i x → gamma j y → gamma (add i j) (x + y)) ∧
  (lower i ≠ int64_min → lower j ≠ int64_min →
   upper i ≠ int64_max → upper j ≠ int64_max →
   in_int64 (lower i + lower j) → in_int64 (upper i + upper j) →
   add i j = Mk (lower i + lower j) (upper i + upper j)).
Proof.
  intros Hi Hj. split; [intros; by apply add_gamma |].
  intros. destruct Hi, Hj. unfold add.
  rewrite !AddOverflow_spec, !bool_decide_true, !wrap_s64_id by done. simpl.
  by rewrite !(proj2 (Z.eqb_neq _ _)) by done.
Qed.

(** C39: Multiplication is sound under the saturating reading, except when the
    left operand starts at -1 and the right operand has no upper bound (see
    [mul_not_commutative]). *)
Theorem mul_sound i j x y :
  wf i → wf j → ¬ (lower i = -1 ∧ upper j = int64_max) →
  gamma i x → gamma j y → gamma (mul i j) (x * y).
Proof. apply mul_gamma. Qed.

(** Negation and subtraction are sound under the saturating reading, and
    the result of a negation is again a pair of [int64_t] bounds. *)
Theorem sub_sound i j x y :
  wf i → wf j → gamma i x → gamma j y →
  wf (neg j) ∧ gamma (neg j) (- y) ∧ gamma (sub i j) (x - y).
Proof.
  intros Hi Hj Hx Hy. split; [by apply neg_wf |]. split; [by apply neg_gamma |].
  unfold sub. rewrite <- Z.add_opp_r.
  apply add_gamma; auto using neg_wf, neg_gamma.
Qed.

(** Division by a non-zero constant is sound: the floor of the quotient of
    a member is a member of the result, for an operand that is not saturated on
    the wrong side. *)
Theorem FloorDiv_sound i rhs x :
  wf i → in_int64 rhs → rhs ≠ 0 → lower i ≠ int64_max → upper i ≠ int64_min →
  gamma i x → gamma (FloorDiv i rhs) (x / rhs).
Proof. apply FloorDiv_gamma. Qed.
End Sound.

(** ** Comparisons *)

(** The pairs drawn from two intervals all satisfy [P]. *)
Definition all_pairs (i j : t) (P : Z → Z → Prop) : Prop :=
  ∀ x y, Contains i x = true → Contains j y = true → P x y.

Lemma all_pairs_bounds i j P :
  all_pairs i j P ↔
  ∀ x y, lower i ≤ x ≤ upper i → lower j ≤ y ≤ upper j → P x y.
Proof. unfold all_pairs. by setoid_rewrite Contains_spec. Qed.

Lemma Gt_decides i j :
  IsFeasible i = true → IsFeasible j = true →
  (Gt i j = Some true ↔ all_pairs i j (λ x y, x > y)) ∧
  (Gt i j = Some false ↔ all_pairs i j (λ x y, ¬ x > y)).
Proof.
  intros Hi Hj. unfold Gt. rewrite Hi, Hj. simpl.
  apply IsFeasible_spec in Hi, Hj. rewrite !all_pairs_bounds.
  split; split.
  - bool_cases; intros [=]; lia.
  - intros H. pose proof (H (lower i) (upper j)). bool_cases; done || lia.
  - bool_cases; intros [=]; lia.
  - intros H. pose proof (H (upper i) (lower j)). bool_cases; done || lia.
Qed.

Lemma Eq_decides i j :
  wf i → wf j → IsFeasible i = true → IsFeasible j = true →
  (Eq i j = Some true ↔ all_pairs i j (λ x y, x = y)) ∧
  (Eq i j = Some false ↔ all_pairs i j (λ x y, x ≠ y)).
Proof.
  intros Wi Wj Hi Hj. apply IsFeasible_spec in Hi, Hj. rewrite !all_pairs_bounds.
  unfold Eq, IsFeasible, IsPoint.
  destruct (decide (Z.max (lower i) (lower j) ≤ Z.min (upper i) (upper j))) as [H | H].
  - rewrite Intersect_feasible by done. simpl.
    split; split; intros E.
    + revert E. bool_cases; intros [=]; lia.
    + pose proof (E (lower i) (lower j)). pose proof (E (lower i) (upper j)).
      pose proof (E (upper i) (lower j)). bool_cases; done || lia.
    + revert E. bool_cases; intros [=]; lia.
    + pose proof (E (Z.max (lower i) (lower j)) (Z.max (lower i) (lower j))).
      bool_cases; done || lia.
  - destruct (Intersect_infeasible i j Wi Wj) as [-> ->]; [lia |].
    split; split; intros E.
    + revert E. bool_cases; intros [=]; lia.
    + pose proof (E (lower i) (lower j)). pose proof (E (upper i) (upper j)).
      bool_cases; done || lia.
    + revert E. bool_cases; intros [=]; lia.
    + bool_cases; done || lia.
Qed.

(** The comparisons answer exactly when the answer is known: on feasible
    intervals [Gt], [Le] and [Eq] return true iff the relation holds for every
    pair of members, false iff it fails for every pair, and "unknown" in the
    remaining cases only. *)
Theorem comparisons_decide i j :
  wf i → wf j → IsFeasible i = true → IsFeasible j = true →
  (Gt i j = Some true ↔ all_pairs i j (λ x y, x > y)) ∧
  (Gt i j = Some false ↔ all_pairs i j (λ x y, ¬ x > y)) ∧
  (Le i j = Some true ↔ all_pairs i j (λ x y, ¬ x > y)) ∧
  (Eq i j = Some true ↔ all_pairs i j (λ x y, x = y)) ∧
  (Eq i j = Some false ↔ all_pairs i j (λ x y, x ≠ y)).
Proof.
  intros Wi Wj Hi Hj.
  destruct (Gt_decides i j Hi Hj) as [G1 G2], (Eq_decides i j Wi Wj Hi Hj) as [E1 E2].
  repeat split; try apply G1; try apply G2; try apply E1; try apply E2;
    unfold Le; destruct (Gt i j) as [[] |] eqn:E; simpl; try done;
    rewrite <- G2 in *; done.
Qed.

(** [Intersect] computes the set intersection and [ContainsInterval] decides
    inclusion of a feasible interval. *)
Theorem Intersect_correct i j :
  wf i → wf j →
  (∀ v, Contains (Intersect i j) v = Contains i v && Contains j v) ∧
  (IsFeasible j = true →
   (ContainsInterval i j = true ↔ ∀ v, Contains j v = true → Contains i v = true)).
Proof.
  intros Wi Wj.
  assert (Hc : ∀ v, Contains (Intersect i j) v = true ↔
                    Contains i v = true ∧ Contains j v = true).
  { intros v. rewrite !Contains_spec.
    destruct (decide (Z.max (lower i) (lower j) ≤ Z.min (upper i) (upper j))).
    - rewrite Intersect_feasible by done. simpl. lia.
    - destruct (Intersect_infeasible i j Wi Wj) as [-> ->]; lia. }
  split.
  - intros v. apply eq_true_iff_eq. by rewrite andb_true_iff.
  - intros Hj. apply IsFeasible_spec in Hj. unfold ContainsInterval.
    rewrite eqb_eq. split.
    + intros E v Hv. rewrite <- E in Hv. by apply Hc in Hv as [? _].
    + intros Hv. pose proof (Hv (lower j)) as H1. pose proof (Hv (upper j)) as H2.
      rewrite !Contains_spec in H1, H2.
      rewrite Intersect_feasible by lia. destruct j; simpl in *. f_equal; lia.
Qed.

(** Multiplication treats a saturated upper bound asymmetrically: -1 times
    [0, +inf) has a saturated lower bound, [0, +inf) times -1 does not, and the
    latter misses the product of -1 and a value beyond [int64_t]. *)
Lemma mul_not_commutative :
  let a := Mk (-1) (-1) in
  let b := Mk 0 int64_max in
  mul (M := reference_llvm) b a = Mk int64_min 0 ∧
  mul (M := reference_llvm) a b = Mk (int64_min + 1) 0 ∧
  gamma a (-1) ∧ gamma b (int64_max + 2) ∧
  ¬ gamma (mul (M := reference_llvm) a b) (-1 * (int64_max + 2)).
Proof.
  split; [vm_compute; reflexivity |]. split; [vm_compute; reflexivity |].
  replace (mul (M := reference_llvm) _ _) with (Mk (int64_min + 1) 0)
    by (vm_compute; reflexivity).
  unfold gamma; simpl. int_lia.
Qed.

(** ** Witnesses *)

Lemma add_sound_exact_witness :
  add (M := reference_llvm) (Mk 1 5) (Mk 10 20) = Mk 11 25 ∧
  gamma (add (M := reference_llvm) (Mk int64_min 0) (Mk 42 42)) 17.
Proof.
  split.
  - apply (add_sound_exact (M := reference_llvm) (Mk 1 5) (Mk 10 20));
      unfold wf; simpl; int_lia.
  - apply (add_sound_exact (M := reference_llvm) (Mk int64_min 0) (Mk 42 42))
      with (x := -25) (y := 42); unfold wf, gamma; simpl; int_lia.
Defined.

Lemma mul_sound_witness :
  gamma (mul (M := reference_llvm) (Mk (-3) 5) (Mk 2 int64_max)) 40.
Proof.
  apply (mul_sound (M := reference_llvm) (Mk (-3) 5) (Mk 2 int64_max) 4 10);
    unfold wf, gamma; simpl; int_lia.
Defined.

Lemma sub_sound_witness :
  gamma (sub (M := reference_llvm) (Mk 3 5) (Mk int64_min 7)) 103.
Proof.
  apply (sub_sound (M := reference_llvm) (Mk 3 5) (Mk int64_min 7) 3 (-100));
    unfold wf, gamma; simpl; int_lia.
Defined.

Lemma FloorDiv_sound_witness :
  gamma (FloorDiv (M := reference_llvm) (Mk (-7) int64_max) (-2)) (-4).
Proof.
  apply (FloorDiv_sound (M := reference_llvm) (Mk (-7) int64_max) (-2) 7);
    unfold wf, gamma; simpl; int_lia.
Defined.

Lemma comparisons_decide_witness :
  Gt (Mk 5 9) (Mk 1 4) = Some true ∧ Eq (Mk 1 4) (Mk 4 9) = None.
Proof.
  split; [| reflexivity].
  apply (comparisons_decide (Mk 5 9) (Mk 1 4)); unfold wf; simpl;
    [int_lia | int_lia | done | done |].
  intros x y Hx Hy. apply Contains_spec in Hx, Hy. simpl in *. lia.
Defined.

Lemma Intersect_correct_witness :
  Contains (Intersect (Mk 1 6) (Mk 4 9)) 5 = true ∧
  Contains (Intersect (Mk 1 3) (Mk 5 9)) 4 = false.
Proof.
  split.
  - rewrite (proj1 (Intersect_correct (Mk 1 6) (Mk 4 9) ltac:(unfold wf; simpl; int_lia)
      ltac:(unfold wf; simpl; int_lia)) 5). reflexivity.
  - rewrite (proj1 (Intersect_correct (Mk 1 3) (Mk 5 9) ltac:(unfold wf; simpl; int_lia)
      ltac:(unfold wf; simpl; int_lia)) 4). reflexivity.
Defined.
End Interval.
