(* ===== verification/WindowArith.v ===== *)
(** * Overflow-safe arithmetic and window bounds

    Models [xla/overflow_util.h], the integer ratios and the greatest common
    divisor of [xla/tsl/lib/math/math_util.h] and the bound computations of
    [xla/window_util.cc]. *)
From S2P Require Import Prelude.

Module WindowArith.

(** ** [xla/overflow_util.h] *)

(** [OverflowSafeMultiply] with [__builtin_mul_overflow]. *)
Definition OverflowSafeMultiply (x y : Z) : Z * bool :=
  (wrap_s64 (x * y), negb (bool_decide (in_int64 (x * y))) || (x <? 0) || (y <? 0)).

(** The branch for compilers without the builtin. *)
Definition OverflowSafeMultiply_portable (x y : Z) : Z * bool :=
  let ux := wrap_u64 x in
  let uy := wrap_u64 y in
  let uxy := wrap_u64 (ux * uy) in
  let result := wrap_s64 uxy in
  let bad := result <? 0 in
  if negb (Z.shiftr (Z.lor ux uy) 32 =? 0) then
    if (x <? 0) || (y <? 0) then (result, true)
    else if negb (ux =? 0) && negb (uxy / ux =? uy) then (result, true)
    else (result, bad)
  else (result, bad).

(** [OverflowSafeAdd<int64_t>], with [__builtin_add_overflow] and without. *)
Definition OverflowSafeAdd (x y : Z) : option Z :=
  if decide (in_int64 (x + y)) then Some (x + y) else None.

Definition OverflowSafeAdd_portable (x y : Z) : option Z :=
  let usum := wrap_u64 (wrap_u64 x + wrap_u64 y) in
  let sum := wrap_s64 usum in
  if Bool.eqb (x >=? 0) (y >=? 0) && negb (Bool.eqb (sum >=? 0) (x >=? 0)) then None
  else Some sum.

(** ** [xla/tsl/lib/math/math_util.h] *)

(** [CeilOrFloorOfRatio<int64_t, ceil>]; every intermediate result is a signed
    64-bit integer. *)
Definition CeilOrFloorOfRatio (ceil : bool) (numerator denominator : Z) : res Z :=
  guard_res (negb (denominator =? 0)) Undefined;;
  rounded_toward_zero ← s64 (Z.quot numerator denominator);
  intermediate_product ← s64 (rounded_toward_zero * denominator);
  if ceil then
    let needs_adjustment :=
      (rounded_toward_zero >=? 0) &&
      (((denominator >? 0) && (numerator >? intermediate_product)) ||
       ((denominator <? 0) && (numerator <? intermediate_product))) in
    s64 (rounded_toward_zero + Z.b2z needs_adjustment)
  else
    let needs_adjustment :=
      (rounded_toward_zero <=? 0) &&
      (((denominator >? 0) && (numerator <? intermediate_product)) ||
       ((denominator <? 0) && (numerator >? intermediate_product))) in
    s64 (rounded_toward_zero - Z.b2z needs_adjustment).

Definition CeilOfRatio : Z → Z → res Z := CeilOrFloorOfRatio true.
Definition FloorOfRatio : Z → Z → res Z := CeilOrFloorOfRatio false.

(** [GCD<uint64_t>]: Euclid's loop. *)
Fixpoint GCD_loop (fuel : nat) (x y : Z) : res Z :=
  if y =? 0 then Ok x
  else match fuel with O => Fail NoFuel | S fuel => GCD_loop fuel y (x mod y) end.

(** The remainders at least halve every two rounds. *)
Definition GCD (x y : Z) : res Z := GCD_loop (2 * 64 + 2) x y.

(** ** [xla/window_util.cc] *)

Definition DilatedBound (bound dilation : Z) : res Z :=
  guard_res (0 <=? bound) CheckFailed;;
  guard_res (1 <=? dilation) CheckFailed;;
  if bound =? 0 then Ok 0
  else
    let '(product, overflow) := OverflowSafeMultiply (bound - 1) dilation in
    guard_res (negb overflow) CheckFailed;;
    s64 (product + 1).

Definition StridedBound (bound window_size stride : Z) : res Z :=
  guard_res (0 <=? window_size) CheckFailed;;
  guard_res (0 <=? bound) CheckFailed;;
  guard_res (1 <=? stride) CheckFailed;;
  if (bound =? 0) || (window_size >? bound) then Ok 0
  else s64 (Z.quot (bound - window_size) stride + 1).

(** ** Lemmas *)

Lemma mul_safe x y :
  0 ≤ x → 0 ≤ y → x * y ≤ int64_max → OverflowSafeMultiply x y = (x * y, false).
Proof.
  intros Hx Hy H. unfold OverflowSafeMultiply.
  assert (in_int64 (x * y)) by (split; [int_nia | done]).
  rewrite wrap_s64_id by done. f_equal. rewrite bool_decide_true by done. simpl.
  apply orb_false_iff. split; lia.
Qed.

Lemma mul_overflow x y p :
  OverflowSafeMultiply x y = (p, false) → 0 ≤ x ∧ 0 ≤ y ∧ p = x * y ∧ x * y ≤ int64_max.
Proof.
  unfold OverflowSafeMultiply. intros [= <- H].
  apply orb_false_iff in H as [[Hb Hx]%orb_false_iff Hy].
  apply negb_false_iff, bool_decide_eq_true in Hb. rewrite wrap_s64_id by done.
  unfold in_int64 in Hb. lia.
Qed.

Lemma wrap_u64_congr a b : a mod uint64_size = b mod uint64_size → wrap_s64 a = wrap_s64 b.
Proof. intros H. unfold wrap_s64, wrap_u64. by rewrite H. Qed.

Lemma wrap_u64_mul x y : wrap_s64 (wrap_u64 (wrap_u64 x * wrap_u64 y)) = wrap_s64 (x * y).
Proof.
  apply wrap_u64_congr. unfold wrap_u64.
  rewrite Z.mod_mod by done. by rewrite <- Z.mul_mod.
Qed.

Lemma small_or ux uy :
  in_uint64 ux → in_uint64 uy → Z.shiftr (Z.lor ux uy) 32 = 0 → ux < 2 ^ 32 ∧ uy < 2 ^ 32.
Proof.
  intros Hx Hy. rewrite Z.shiftr_lor, Z.lor_eq_0_iff, !Z.shiftr_div_pow2 by done.
  unfold in_uint64 in *. intros [H1 H2]. split; apply Z.div_small_iff in H1, H2; lia.
Qed.

Lemma wrap_s64_neg z : 0 ≤ z < uint64_size → (wrap_s64 z <? 0) = negb (bool_decide (in_int64 z)).
Proof.
  intros H. unfold wrap_s64. rewrite wrap_u64_id by done.
  case_bool_decide as Hb; destruct (Z.ltb_spec z (2 ^ 63)); int_lia.
Qed.

(** When the product of two unsigned numbers wraps, division does not give the
    factor back. *)
Lemma wrapped_div a b :
  0 < a → in_uint64 b → (wrap_u64 (a * b) / a =? b) = bool_decide (a * b < uint64_size).
Proof.
  intros Ha Hb. pose proof (wrap_u64_range (a * b)) as Hr.
  case_bool_decide as H.
  - rewrite wrap_u64_id by (split; [unfold in_uint64 in Hb; nia | done]).
    rewrite Z.mul_comm, Z.div_mul by lia. apply Z.eqb_refl.
  - apply Z.eqb_neq. intros E.
    pose proof (Z.mul_div_le (wrap_u64 (a * b)) a Ha). unfold in_uint64 in *.
    pose proof (Z.mod_pos_bound (wrap_u64 (a * b)) a Ha).
    rewrite E in H0. lia.
Qed.

Lemma u64_nonneg x : in_int64 x → 0 ≤ x → wrap_u64 x = x.
Proof. intros H H0. apply wrap_u64_id. int_lia. Qed.

Lemma u64_neg x : in_int64 x → x < 0 → wrap_u64 x = x + uint64_size.
Proof.
  intros H H0. unfold wrap_u64. rewrite <- (Z.mod_add _ 1) by done.
  rewrite Z.mod_small; int_lia.
Qed.

(** A negative factor is large as an unsigned number. *)
Lemma negative_is_large x y :
  in_int64 x → in_int64 y → x < 0 ∨ y < 0 → Z.shiftr (Z.lor (wrap_u64 x) (wrap_u64 y)) 32 ≠ 0.
Proof.
  intros Hx Hy H E. apply small_or in E as [E1 E2]; [| apply wrap_u64_range..].
  destruct H as [H | H]; [rewrite u64_neg in E1 by done | rewrite u64_neg in E2 by done]; int_lia.
Qed.

Lemma DilatedBound_ok n d :
  0 ≤ n → 1 ≤ d → (n - 1) * d < int64_max →
  DilatedBound n d = Ok (if n =? 0 then 0 else (n - 1) * d + 1).
Proof.
  intros Hn Hd H. unfold DilatedBound, guard_res.
  rewrite !(proj2 (Z.leb_le _ _)) by lia. cbn [mbind res_bind].
  destruct (Z.eqb_spec n 0); [done |].
  rewrite mul_safe by (lia || int_lia). simpl. apply s64_in. int_nia.
Qed.

Lemma StridedBound_ok b w st :
  0 ≤ b ≤ int64_max → 0 ≤ w → 1 ≤ st → (0 < w ∨ b < int64_max) →
  StridedBound b w st = Ok (if (b =? 0) || (w >? b) then 0 else (b - w) / st + 1).
Proof.
  intros Hb Hw Hs Hlt. unfold StridedBound, guard_res.
  rewrite !(proj2 (Z.leb_le _ _)) by lia. simpl.
  destruct ((b =? 0) || (w >? b)) eqn:E; [done |].
  apply orb_false_iff in E as [E1 E2]. rewrite Z.quot_div_nonneg by lia. apply s64_in.
  assert (0 ≤ (b - w) / st) by (apply Z.div_pos; lia).
  assert ((b - w) / st ≤ b - w) by (apply Z.div_le_upper_bound; nia). int_lia.
Qed.

(** ** Properties *)

(** The two implementations of [OverflowSafeMultiply] agree on all 64-bit
    arguments, in the wrapped product and in the flag: the portable test by
    division and by the top halves finds exactly the products that do not fit
    and the negative arguments. *)
Theorem OverflowSafeMultiply_agree x y :
  in_int64 x → in_int64 y → OverflowSafeMultiply_portable x y = OverflowSafeMultiply x y.
Proof.
  intros Hx Hy. unfold OverflowSafeMultiply_portable, OverflowSafeMultiply. cbv zeta.
  rewrite wrap_u64_mul.
  assert (Hneg : (x <? 0) || (y <? 0) = true →
    negb (Z.shiftr (Z.lor (wrap_u64 x) (wrap_u64 y)) 32 =? 0) = true).
  { intros H. apply negb_true_iff, Z.eqb_neq, negative_is_large; [done.. |].
    apply orb_true_iff in H. lia. }
  destruct ((x <? 0) || (y <? 0)) eqn:En.
  { rewrite Hneg by done. f_equal. rewrite <- orb_assoc, En. by rewrite orb_true_r. }
  clear Hneg. rewrite <- orb_assoc, En, orb_false_r. apply orb_false_iff in En as [Ex Ey].
  apply Z.ltb_ge in Ex, Ey. rewrite !u64_nonneg by done.
  assert (Hfit : x * y < uint64_size →
    (wrap_s64 (x * y) <? 0) = negb (bool_decide (in_int64 (x * y)))).
  { intros H. apply wrap_s64_neg. int_nia. }
  destruct (Z.eqb_spec (Z.shiftr (Z.lor x y) 32) 0) as [Es | Es]; simpl.
  - apply small_or in Es as [Ex' Ey']; [| int_lia..]. f_equal. apply Hfit. int_nia.
  - destruct (Z.eqb_spec x 0) as [-> |]; simpl; [f_equal; by apply Hfit |].
    rewrite wrapped_div by int_lia. destruct (decide (x * y < uint64_size)) as [Hlt | Hlt].
    + rewrite (bool_decide_true (_ < _)) by done. simpl. f_equal. by apply Hfit.
    + rewrite (bool_decide_false (_ < _)) by done. simpl. f_equal.
      rewrite bool_decide_false; [done |]. int_lia.
Qed.

Lemma OverflowSafeMultiply_agree_witness :
  OverflowSafeMultiply_portable (2 ^ 40) (2 ^ 23) = OverflowSafeMultiply (2 ^ 40) (2 ^ 23) ∧
  OverflowSafeMultiply (2 ^ 40) (2 ^ 23) = (int64_min, true).
Proof.
  split; [apply OverflowSafeMultiply_agree; int_lia | vm_compute; reflexivity].
Defined.

(** Both implementations of [OverflowSafeAdd] return the sum of two 64-bit
    numbers when it is one, and nothing otherwise. *)
Theorem OverflowSafeAdd_exact x y :
  in_int64 x → in_int64 y →
  OverflowSafeAdd_portable x y = OverflowSafeAdd x y ∧
  ∀ z, OverflowSafeAdd x y = Some z ↔ z = x + y ∧ in_int64 z.
Proof.
  intros Hx Hy. split.
  - unfold OverflowSafeAdd_portable, OverflowSafeAdd. cbv zeta.
    assert (E : wrap_s64 (wrap_u64 (wrap_u64 x + wrap_u64 y)) = wrap_s64 (x + y)).
    { apply wrap_u64_congr. unfold wrap_u64. rewrite Z.mod_mod by done.
      by rewrite <- Z.add_mod. }
    rewrite E. case_decide as H.
    + rewrite wrap_s64_id by done.
      destruct (Z.geb_spec x 0), (Z.geb_spec y 0), (Z.geb_spec (x + y) 0); simpl; done || lia.
    + assert (Hw : wrap_s64 (x + y) = if 0 <=? x then x + y - uint64_size else x + y + uint64_size).
      { rewrite (wrap_u64_congr (x + y) (if 0 <=? x then x + y - uint64_size else x + y + uint64_size)).
        - apply wrap_s64_id. destruct (Z.leb_spec 0 x); int_lia.
        - destruct (0 <=? x).
          + rewrite <- (Z.mod_add (x + y - uint64_size) 1) by done. f_equal. lia.
          + rewrite <- (Z.mod_add (x + y) 1) by done. do 2 f_equal. }
      rewrite Hw.
      destruct (Z.geb_spec x 0), (Z.geb_spec y 0), (Z.leb_spec 0 x);
        try (exfalso; int_lia);
        match goal with |- context [?s >=? 0] => destruct (Z.geb_spec s 0) end;
        simpl; try done; int_lia.
  - intros z. unfold OverflowSafeAdd. case_decide; split; naive_solver.
Qed.

Lemma OverflowSafeAdd_exact_witness :
  OverflowSafeAdd_portable int64_max 1 = OverflowSafeAdd int64_max 1.
Proof. apply (OverflowSafeAdd_exact int64_max 1); int_lia. Defined.

(** The ratio, its truncation and the remainder. *)
Lemma quot_facts n d :
  d ≠ 0 → n = Z.quot n d * d + Z.rem n d ∧ Z.abs (Z.rem n d) < Z.abs d ∧
  (0 ≤ n → 0 ≤ Z.rem n d) ∧ (n ≤ 0 → Z.rem n d ≤ 0).
Proof.
  intros Hd. pose proof (Z.quot_rem n d Hd). pose proof (Z.rem_bound_abs n d Hd).
  split; [lia |]. split; [done |]. split; intros H1.
  - by apply Z.rem_nonneg.
  - by apply Z.rem_nonpos.
Qed.

Lemma quot_range n d :
  in_int64 n → in_int64 d → d ≠ 0 → ¬ (n = int64_min ∧ d = -1) →
  in_int64 (Z.quot n d) ∧ in_int64 (Z.quot n d * d).
Proof.
  intros Hn Hdd Hd Hx. destruct (quot_facts n d Hd) as (E & Hr & Hr1 & Hr2).
  set (q := Z.quot n d) in *. set (r := Z.rem n d) in *.
  assert (in_int64 (q * d)) by (destruct (decide (0 ≤ n)); int_lia).
  split; [| done]. destruct (decide (d = -1)) as [-> |]; [int_lia |].
  destruct (decide (d = 1)) as [-> |]; [int_lia |].
  int_unfold. split; nia.
Qed.

Lemma ceil_adjusts n d :
  d ≠ 0 →
  Z.quot n d + Z.b2z ((Z.quot n d >=? 0) &&
    (((d >? 0) && (n >? Z.quot n d * d)) || ((d <? 0) && (n <? Z.quot n d * d)))) = - (- n / d).
Proof.
  intros Hd. destruct (quot_facts n d Hd) as (E & Hr & Hr1 & Hr2).
  set (q := Z.quot n d) in *. set (r := Z.rem n d) in *.
  match goal with |- context [Z.b2z ?b] => destruct b eqn:Eb end; simpl.
  - apply andb_true_iff in Eb as [Eq Eb]. rewrite orb_true_iff, !andb_true_iff in Eb.
    enough (- (q + 1) = - n / d) by lia. apply (Z.div_unique _ _ _ (d - r)); [| lia].
    destruct Eb as [[??] | [??]]; lia.
  - enough (- q = - n / d) by lia. apply (Z.div_unique _ _ _ (- r)); [| lia].
    rewrite andb_false_iff, orb_false_iff, !andb_false_iff in Eb.
    destruct (decide (r = 0)); [lia |]. destruct Eb as [Eb | [E1 E2]]; [| lia].
    assert (q < 0) by lia. destruct (decide (0 ≤ n)); nia.
Qed.

Lemma floor_adjusts n d :
  d ≠ 0 →
  Z.quot n d - Z.b2z ((Z.quot n d <=? 0) &&
    (((d >? 0) && (n <? Z.quot n d * d)) || ((d <? 0) && (n >? Z.quot n d * d)))) = n / d.
Proof.
  intros Hd. destruct (quot_facts n d Hd) as (E & Hr & Hr1 & Hr2).
  set (q := Z.quot n d) in *. set (r := Z.rem n d) in *.
  match goal with |- context [Z.b2z ?b] => destruct b eqn:Eb end; simpl.
  - apply andb_true_iff in Eb as [Eq Eb]. rewrite orb_true_iff, !andb_true_iff in Eb.
    apply (Z.div_unique _ _ _ (d + r)); [| lia]. destruct Eb as [[??] | [??]]; lia.
  - rewrite Z.sub_0_r. apply (Z.div_unique _ _ _ r); [| lia].
    rewrite andb_false_iff, orb_false_iff, !andb_false_iff in Eb.
    destruct (decide (r = 0)); [lia |]. destruct Eb as [Eb | [E1 E2]]; [| lia].
    assert (0 < q) by lia. destruct (decide (0 ≤ n)); nia.
Qed.

Lemma floor_range n d :
  in_int64 n → in_int64 d → d ≠ 0 → ¬ (n = int64_min ∧ d = -1) → in_int64 (n / d).
Proof.
  intros Hn Hdd Hd Hx. destruct (quot_range n d) as [Hq Hp]; [done.. |].
  pose proof (Z.div_mod n d Hd). destruct (decide (0 < d)).
  - pose proof (Z.mod_pos_bound n d ltac:(lia)). int_unfold. split; nia.
  - pose proof (Z.mod_neg_bound n d ltac:(lia)). destruct (decide (d = -1)) as [-> |]; [int_lia |].
    int_unfold. split; nia.
Qed.

Lemma ceil_range n d :
  in_int64 n → in_int64 d → d ≠ 0 → ¬ (n = int64_min ∧ d = -1) → in_int64 (- (- n / d)).
Proof.
  intros Hn Hdd Hd Hx. pose proof (Z.div_mod (- n) d Hd). destruct (decide (0 < d)).
  - pose proof (Z.mod_pos_bound (- n) d ltac:(lia)). int_unfold. split; nia.
  - pose proof (Z.mod_neg_bound (- n) d ltac:(lia)).
    destruct (decide (d = -1)) as [-> |]; [int_lia |]. int_unfold. split; nia.
Qed.

Lemma CeilOrFloorOfRatio_spec ceil n d :
  in_int64 n → in_int64 d → d ≠ 0 → ¬ (n = int64_min ∧ d = -1) →
  CeilOrFloorOfRatio ceil n d = Ok (if ceil then - (- n / d) else n / d).
Proof.
  intros Hn Hdd Hd Hx. unfold CeilOrFloorOfRatio.
  rewrite (proj2 (Z.eqb_neq d 0)) by done. cbn [negb guard_res mbind res_bind].
  destruct (quot_range n d) as [Hq Hp]; [done.. |].
  rewrite (s64_in (Z.quot n d)) by done. cbn [mbind res_bind].
  rewrite (s64_in (Z.quot n d * d)) by done. cbn [mbind res_bind].
  destruct ceil.
  - rewrite ceil_adjusts by done. apply s64_in. by apply ceil_range.
  - rewrite floor_adjusts by done. apply s64_in. by apply floor_range.
Qed.

(** [CeilOfRatio] and [FloorOfRatio] are exact for all signs of their
    arguments and none of their intermediate results overflows, except for the
    one quotient that is no 64-bit integer: the ceiling is the least integer
    whose product with the denominator reaches the numerator, the floor the
    greatest one that does not pass it. *)
Theorem CeilOrFloorOfRatio_exact ceil n d :
  in_int64 n → in_int64 d → d ≠ 0 → ¬ (n = int64_min ∧ d = -1) →
  CeilOrFloorOfRatio ceil n d = Ok (if ceil then - (- n / d) else n / d).
Proof. apply CeilOrFloorOfRatio_spec. Qed.

Lemma CeilOrFloorOfRatio_exact_witness :
  CeilOfRatio (-7) 2 = Ok (-3) ∧ FloorOfRatio (-7) 2 = Ok (-4).
Proof. split; apply CeilOrFloorOfRatio_exact; int_lia. Defined.

Lemma GCD_loop_S fuel x y :
  GCD_loop (S fuel) x y = if y =? 0 then Ok x else GCD_loop fuel y (x mod y).
Proof. done. Qed.

(** Each round at least halves the product of the two numbers. *)
Lemma GCD_loop_ok fuel x y :
  0 ≤ y ≤ x → x * y < 2 ^ Z.of_nat fuel → GCD_loop fuel x y = Ok (Z.gcd x y).
Proof.
  revert x y. induction fuel as [| fuel IH]; intros x y Hy Hf; simpl;
    destruct (Z.eqb_spec y 0) as [-> |];
    try (rewrite Z.gcd_0_r; f_equal; lia).
  - change (2 ^ Z.of_nat 0) with 1 in Hf. nia.
  - pose proof (Z.mod_pos_bound x y ltac:(lia)) as Hr. pose proof (Z.div_mod x y ltac:(lia)) as Ex.
    assert (1 ≤ x / y) by (apply Z.div_le_lower_bound; lia).
    rewrite Nat2Z.inj_succ, Z.pow_succ_r in Hf by lia.
    rewrite IH; [| lia |].
    + f_equal. rewrite Z.gcd_comm, Z.gcd_mod by lia. apply Z.gcd_comm.
    + assert (2 * (x mod y) ≤ x) by nia. nia.
Qed.

(** Euclid's loop ends within its fuel for all 64-bit arguments and returns
    the greatest common divisor. *)
Theorem GCD_terminates x y :
  in_uint64 x → in_uint64 y → GCD x y = Ok (Z.gcd x y).
Proof.
  intros Hx Hy. unfold GCD. change (2 * 64 + 2)%nat with (S 129). rewrite GCD_loop_S.
  destruct (Z.eqb_spec y 0) as [-> |]; [rewrite Z.gcd_0_r; f_equal; int_lia |].
  rewrite (GCD_loop_ok 129).
  - f_equal. rewrite Z.gcd_comm, Z.gcd_mod by done. apply Z.gcd_comm.
  - pose proof (Z.mod_pos_bound x y ltac:(int_lia)). lia.
  - pose proof (Z.mod_pos_bound x y ltac:(int_lia)) as Hr.
    apply Z.lt_trans with (2 ^ 64 * 2 ^ 64); [| reflexivity]. int_unfold. nia.
Qed.

Lemma GCD_terminates_witness : GCD 12 18 = Ok 6.
Proof. apply (GCD_terminates 12 18); int_lia. Defined.

End WindowArith.
