(* ===== verification/Types.v ===== *)
(** * Primitive types

    Models the type enumeration of [xla/xla_data.proto] and the predicates and
    the precision order of [xla/primitive_util.h].  The numeric limits of the
    native types are C++ and [ml_dtypes] library facts; they are the operations
    of the class [NativeTypes]. *)
From S2P Require Import Prelude WindowArith.

Module Types.

Inductive PrimitiveType :=
  | PRIMITIVE_TYPE_INVALID | PRED
  | S1 | S2 | S4 | S8 | S16 | S32 | S64
  | U1 | U2 | U4 | U8 | U16 | U32 | U64
  | F16 | F32 | BF16 | F64
  | F8E5M2 | F8E4M3 | F8E4M3FN | F8E4M3B11FNUZ | F8E3M4 | F8E5M2FNUZ | F8E4M3FNUZ
  | F4E2M1FN | F8E8M0FNU | F6E3M2FN | F6E2M3FN
  | C64 | C128
  | TUPLE | OPAQUE_TYPE | TOKEN | BUFFER.

(** The numbers of the enumeration. *)
Definition number (t : PrimitiveType) : Z :=
  match t with
  | PRIMITIVE_TYPE_INVALID => 0 | PRED => 1
  | S1 => 30 | S2 => 26 | S4 => 21 | S8 => 2 | S16 => 3 | S32 => 4 | S64 => 5
  | U1 => 31 | U2 => 27 | U4 => 22 | U8 => 6 | U16 => 7 | U32 => 8 | U64 => 9
  | F16 => 10 | F32 => 11 | BF16 => 16 | F64 => 12
  | F8E5M2 => 19 | F8E4M3 => 28 | F8E4M3FN => 20 | F8E4M3B11FNUZ => 23 | F8E3M4 => 29
  | F8E5M2FNUZ => 24 | F8E4M3FNUZ => 25
  | F4E2M1FN => 32 | F8E8M0FNU => 33 | F6E3M2FN => 35 | F6E2M3FN => 36
  | C64 => 15 | C128 => 18
  | TUPLE => 13 | OPAQUE_TYPE => 14 | TOKEN => 17 | BUFFER => 34
  end.

Definition of_number (z : Z) : PrimitiveType :=
  match z with
  | 1 => PRED
  | 30 => S1 | 26 => S2 | 21 => S4 | 2 => S8 | 3 => S16 | 4 => S32 | 5 => S64
  | 31 => U1 | 27 => U2 | 22 => U4 | 6 => U8 | 7 => U16 | 8 => U32 | 9 => U64
  | 10 => F16 | 11 => F32 | 16 => BF16 | 12 => F64
  | 19 => F8E5M2 | 28 => F8E4M3 | 20 => F8E4M3FN | 23 => F8E4M3B11FNUZ | 29 => F8E3M4
  | 24 => F8E5M2FNUZ | 25 => F8E4M3FNUZ
  | 32 => F4E2M1FN | 33 => F8E8M0FNU | 35 => F6E3M2FN | 36 => F6E2M3FN
  | 15 => C64 | 18 => C128
  | 13 => TUPLE | 14 => OPAQUE_TYPE | 17 => TOKEN | 34 => BUFFER
  | _ => PRIMITIVE_TYPE_INVALID
  end.

Lemma of_number_number t : of_number (number t) = t.
Proof. by destruct t. Qed.

#[export] Instance number_inj : Inj (=) (=) number.
Proof. intros a b H. by rewrite <- (of_number_number a), H, of_number_number. Qed.

#[export] Instance PrimitiveType_eq_dec : EqDecision PrimitiveType.
Proof.
  intros a b. destruct (decide (number a = number b)) as [H | H].
  - left. by apply (inj number).
  - right. by intros ->.
Defined.

(** ** Predicates *)

Definition IsMXType (type : PrimitiveType) : bool :=
  match type with F4E2M1FN | F8E8M0FNU => true | _ => false end.

Definition IsF6Type (type : PrimitiveType) : bool :=
  match type with F6E3M2FN | F6E2M3FN => true | _ => false end.

Definition IsF8Type (type : PrimitiveType) : bool :=
  match type with
  | F8E5M2 | F8E4M3 | F8E4M3FN | F8E4M3B11FNUZ | F8E5M2FNUZ | F8E4M3FNUZ | F8E3M4
  | F8E8M0FNU => true
  | _ => false
  end.

Definition IsFloatingPointType (type : PrimitiveType) : bool :=
  match type with F16 | F32 | F64 | BF16 => true | _ => false end
  || IsF8Type type || IsF6Type type || IsMXType type.

Definition IsComplexType (type : PrimitiveType) : bool :=
  match type with C64 | C128 => true | _ => false end.

Definition IsSignedIntegralType (type : PrimitiveType) : bool :=
  match type with S1 | S2 | S4 | S8 | S16 | S32 | S64 => true | _ => false end.

Definition IsUnsignedIntegralType (type : PrimitiveType) : bool :=
  match type with U1 | U2 | U4 | U8 | U16 | U32 | U64 => true | _ => false end.

Definition IsIntegralType (type : PrimitiveType) : bool :=
  IsUnsignedIntegralType type || IsSignedIntegralType type.

Definition Is8BitIntegralType (type : PrimitiveType) : bool :=
  match type with S8 | U8 => true | _ => false end.

Definition IsArrayType (type : PrimitiveType) : bool :=
  match type with PRED => true | _ => false end
  || IsIntegralType type || IsFloatingPointType type || IsComplexType type.

(** ** Widths *)

(** [std::numeric_limits<NativeT>::digits] and [max_exponent], [sizeof] in bytes
    and [NativeT::kBits] of the native type of each array type. *)
Class NativeTypes := {
  native_digits : PrimitiveType → Z;
  native_max_exponent : PrimitiveType → Z;
  native_sizeof : PrimitiveType → Z;
  native_kBits : PrimitiveType → Z
}.

Definition PrimitiveTypeBitWidth `{NativeTypes} (type : PrimitiveType) : Z :=
  if IsArrayType type then
    if IsIntegralType type then
      native_digits type + (if IsSignedIntegralType type then 1 else 0)
    else if bool_decide (type = PRED) then native_digits type
    else if IsMXType type then native_kBits type
    else native_sizeof type * 8
  else 0.

Definition BitWidth `{NativeTypes} (type : PrimitiveType) : res Z :=
  guard_res (IsArrayType type) CheckFailed;; Ok (PrimitiveTypeBitWidth type).

Definition ByteWidth `{NativeTypes} (type : PrimitiveType) : res Z :=
  guard_res (IsArrayType type) CheckFailed;; WindowArith.CeilOfRatio (PrimitiveTypeBitWidth type) 8.

Definition ComplexComponentType (complex_type : PrimitiveType) : res PrimitiveType :=
  match complex_type with C64 => Ok F32 | C128 => Ok F64 | _ => Fail CheckFailed end.

(** ** The precision order *)

Definition SignificandWidth `{NativeTypes} (type : PrimitiveType) : Z := native_digits type.
Definition OverflowExponent `{NativeTypes} (type : PrimitiveType) : Z :=
  native_max_exponent type.

(** The tuple that orders the types, compared from its head; [false < true]. *)
Definition type_properties `{NativeTypes} (type : PrimitiveType) : res (list Z) :=
  component_type ← (if IsComplexType type then ComplexComponentType type else Ok type);
  width ← BitWidth component_type;
  Ok [ Z.b2z (IsComplexType type);
       (if IsFloatingPointType component_type then OverflowExponent component_type else -1);
       (if IsFloatingPointType component_type then SignificandWidth component_type else -1);
       width;
       Z.b2z (IsSignedIntegralType component_type) ].

Fixpoint tuple_gt (a b : list Z) : bool :=
  match a, b with
  | x :: a', y :: b' => if y <? x then true else if x <? y then false else tuple_gt a' b'
  | _, _ => false
  end.

Definition HigherPrecisionType `{NativeTypes} (a b : PrimitiveType) : res PrimitiveType :=
  a_properties ← type_properties a;
  b_properties ← type_properties b;
  if tuple_gt a_properties b_properties then Ok a
  else if tuple_gt b_properties a_properties then Ok b
  else guard_res (bool_decide (a = b)) CheckFailed;; Ok a.

(** ** Lemmas *)

Lemma tuple_gt_irrefl l : tuple_gt l l = false.
Proof. induction l as [| x l IH]; simpl; [done |]. by rewrite Z.ltb_irrefl. Qed.

Lemma tuple_gt_asym a b : tuple_gt a b = true → tuple_gt b a = false.
Proof.
  revert b. induction a as [| x a IH]; intros [| y b]; simpl; try done.
  destruct (Z.ltb_spec y x), (Z.ltb_spec x y); try done; try lia. apply IH.
Qed.

Lemma tuple_gt_trans a b c :
  tuple_gt a b = true → tuple_gt b c = true → tuple_gt a c = true.
Proof.
  revert b c. induction a as [| x a IH]; intros [| y b] [| z c]; simpl; try done.
  destruct (Z.ltb_spec y x), (Z.ltb_spec x y), (Z.ltb_spec z y), (Z.ltb_spec y z),
    (Z.ltb_spec z x), (Z.ltb_spec x z); try done; try lia. apply IH.
Qed.

Lemma tuple_gt_total a b :
  length a = length b → tuple_gt a b = false → tuple_gt b a = false → a = b.
Proof.
  revert b. induction a as [| x a IH]; intros [| y b]; simpl; try done.
  intros [=]. destruct (Z.ltb_spec y x), (Z.ltb_spec x y); try done; try lia.
  intros. f_equal; [lia | by apply IH].
Qed.

Section Precision.
Context `{NativeTypes}.

Lemma type_properties_array t : IsArrayType t = true → ∃ l, type_properties t = Ok l.
Proof. destruct t; try done; intros _; by eexists. Qed.

Lemma type_properties_inv t l : type_properties t = Ok l → IsArrayType t = true ∧ length l = 5%nat.
Proof. destruct t; cbn; intros [= <-]; done. Qed.

Lemma HigherPrecisionType_refl t : IsArrayType t = true → HigherPrecisionType t t = Ok t.
Proof.
  intros Ht. destruct (type_properties_array t Ht) as [l E].
  unfold HigherPrecisionType. rewrite E. simpl. rewrite tuple_gt_irrefl.
  by rewrite bool_decide_true.
Qed.

Lemma HigherPrecisionType_ok a b c :
  HigherPrecisionType a b = Ok c → (c = a ∨ c = b) ∧ IsArrayType a = true ∧ IsArrayType b = true.
Proof.
  unfold HigherPrecisionType. intros (la & Ea & (lb & Eb & E)%bind_ok)%bind_ok.
  apply type_properties_inv in Ea as [Ha _], Eb as [Hb _]. split; [| done].
  destruct (tuple_gt la lb); [simplify_eq; by left |].
  destruct (tuple_gt lb la); [simplify_eq; by right |].
  apply bind_ok in E as (_ & _ & [= ->]). by left.
Qed.

Lemma HigherPrecisionType_array a b c :
  HigherPrecisionType a b = Ok c → IsArrayType c = true.
Proof. intros ([-> | ->] & ? & ?)%HigherPrecisionType_ok; done. Qed.

(** [x] is [y] or strictly before it in the order. *)
Definition ge (x y : PrimitiveType) : Prop :=
  IsArrayType x = true ∧
  (x = y ∨ ∃ lx ly, type_properties x = Ok lx ∧ type_properties y = Ok ly ∧ tuple_gt lx ly = true).

Lemma ge_trans x y z : ge x y → ge y z → ge x z.
Proof.
  intros [Hx [-> | (lx & ly & Ex & Ey & H1)]] [Hy [-> | (ly' & lz & Ey' & Ez & H2)]];
    (split; [done |]); [by left | right; eauto.. |].
  assert (ly' = ly) as -> by congruence. right. exists lx, lz. split; [done |].
  split; [done |]. by apply (tuple_gt_trans _ ly).
Qed.

Lemma ge_max x y :
  ge x y → HigherPrecisionType x y = Ok x ∧ HigherPrecisionType y x = Ok x.
Proof.
  intros [Hx [-> | (lx & ly & Ex & Ey & H1)]].
  - split; by apply HigherPrecisionType_refl.
  - unfold HigherPrecisionType. rewrite Ex, Ey. simpl.
    by rewrite H1, (tuple_gt_asym _ _ H1).
Qed.

(** Two different types on which the choice aborts. *)
Definition clash (a b : PrimitiveType) : Prop :=
  a ≠ b ∧ type_properties a = type_properties b.

Lemma ge_total x y :
  IsArrayType x = true → IsArrayType y = true → ¬ clash x y → ge x y ∨ ge y x.
Proof.
  intros Hx Hy Hc. destruct (type_properties_array x Hx) as [lx Ex],
    (type_properties_array y Hy) as [ly Ey]. unfold ge.
  destruct (tuple_gt lx ly) eqn:E1; [left; split; [done | right; eauto] |].
  destruct (tuple_gt ly lx) eqn:E2; [right; split; [done | right; eauto] |].
  destruct (decide (x = y)) as [| Hne]; [left; split; [done | by left] |].
  destruct Hc. split; [done |]. rewrite Ex, Ey. f_equal. apply tuple_gt_total; try done.
  apply type_properties_inv in Ex as [_ ->], Ey as [_ ->]. done.
Qed.

Lemma clash_fails x y :
  IsArrayType x = true → clash x y → HigherPrecisionType x y = Fail CheckFailed.
Proof.
  intros Hx [Hne E]. destruct (type_properties_array x Hx) as [l Ex].
  unfold HigherPrecisionType. rewrite <- E, Ex. simpl. rewrite tuple_gt_irrefl.
  by rewrite bool_decide_false.
Qed.

(** [HigherPrecisionType] is the join of a linear order on the array types:
    it returns one of its arguments, the same one whatever their order, and
    nested choices do not depend on the nesting.  It aborts exactly on two
    different types that agree in range, precision, width and signedness. *)
Theorem HigherPrecisionType_join a b c :
  IsArrayType a = true → IsArrayType b = true → IsArrayType c = true →
  (clash a b → HigherPrecisionType a b = Fail CheckFailed) ∧
  (¬ clash a b → ¬ clash b c → ¬ clash a c →
   ∃ ab bc abc, HigherPrecisionType a b = Ok ab ∧ HigherPrecisionType b a = Ok ab ∧
     (ab = a ∨ ab = b) ∧ HigherPrecisionType b c = Ok bc ∧
     HigherPrecisionType ab c = Ok abc ∧ HigherPrecisionType a bc = Ok abc).
Proof.
  intros Ha Hb Hc. split; [by apply clash_fails |]. intros Cab Cbc Cac.
  destruct (ge_total a b Ha Hb Cab) as [H1 | H1], (ge_total b c Hb Hc Cbc) as [H2 | H2],
    (ge_total a c Ha Hc Cac) as [H3 | H3];
    try (pose proof (ge_trans _ _ _ H1 H2) as H4; apply ge_max in H4 as [M7 M8]);
    try (pose proof (ge_trans _ _ _ H2 H1) as H4; apply ge_max in H4 as [M7 M8]);
    apply ge_max in H1 as [M1 M2], H2 as [M3 M4], H3 as [M5 M6];
    eexists _, _, _; split_and!; eauto; congruence.
Qed.
End Precision.

(** The limits of the [ml_dtypes] and native types. *)
#[export] Instance ml_dtypes : NativeTypes := {|
  native_digits t :=
    match t with
    | PRED => 1 | S1 => 0 | S2 => 1 | S4 => 3 | S8 => 7 | S16 => 15 | S32 => 31 | S64 => 63
    | U1 => 1 | U2 => 2 | U4 => 4 | U8 => 8 | U16 => 16 | U32 => 32 | U64 => 64
    | F16 => 11 | F32 => 24 | BF16 => 8 | F64 => 53
    | F8E5M2 | F8E5M2FNUZ => 3
    | F8E4M3 | F8E4M3FN | F8E4M3B11FNUZ | F8E4M3FNUZ => 4
    | F8E3M4 => 5 | F4E2M1FN => 2 | F8E8M0FNU => 1 | F6E3M2FN => 3 | F6E2M3FN => 4
    | _ => 0
    end;
  native_max_exponent t :=
    match t with
    | F16 => 16 | F32 | BF16 => 128 | F64 => 1024
    | F8E5M2 | F8E5M2FNUZ => 16 | F8E4M3 | F8E4M3FNUZ => 8 | F8E4M3FN => 9
    | F8E4M3B11FNUZ => 5 | F8E3M4 => 4 | F4E2M1FN => 3 | F8E8M0FNU => 128
    | F6E3M2FN => 5 | F6E2M3FN => 3
    | _ => 0
    end;
  native_sizeof t :=
    match t with
    | F16 | BF16 => 2 | F32 => 4 | F64 => 8 | C64 => 8 | C128 => 16 | _ => 1
    end;
  native_kBits t := match t with F4E2M1FN => 4 | F8E8M0FNU => 8 | _ => 0 end
|}.

Lemma HigherPrecisionType_join_witness :
  HigherPrecisionType BF16 F16 = Ok BF16 ∧
  HigherPrecisionType F8E5M2 F8E5M2FNUZ = Fail CheckFailed.
Proof.
  split.
  - destruct (HigherPrecisionType_join BF16 F16 F16) as [_ H]; [reflexivity.. |].
    destruct H as (ab & bc & abc & E & _);
      [intros [_ E]; discriminate E | intros [Hne _]; by apply Hne |
       intros [_ E]; discriminate E | reflexivity].
  - apply (HigherPrecisionType_join F8E5M2 F8E5M2FNUZ F16); [reflexivity.. |].
    split; [discriminate | reflexivity].
Defined.

End Types.
