(* ===== verification/PermUtil.v ===== *)
(** * Permutations

    Models [xla/permutation_util.h] and [.cc]: permutations as vectors of
    64-bit indices. *)
From S2P Require Import Prelude.

Module PermUtil.

(** ** The operations *)

Fixpoint is_permutation_loop (n : nat) (ps : list Z) (seen : list bool) : bool :=
  match ps with
  | [] => true
  | p :: ps' =>
      if (p <? 0) || (p >=? Z.of_nat n) then false
      else match seen !! Z.to_nat p with
           | Some false => is_permutation_loop n ps' (<[Z.to_nat p := true]> seen)
           | _ => false
           end
  end.

Definition IsPermutation (permutation : list Z) : bool :=
  is_permutation_loop (length permutation) permutation
    (replicate (length permutation) false).

(** [output[i] = data[permutation[i]]]. *)
Definition Permute {A} (input : list A) (permutation : list Z) : res (list A) :=
  guard_res (bool_decide (length permutation = length input)) CheckFailed;;
  guard_res (IsPermutation permutation) CheckFailed;;
  mapM (at_z input) permutation.

(** [output[permutation[i]] = input[i]]; a vector of [n] default elements. *)
Fixpoint scatter {A} (input : list A) (permutation : list Z) (output : list A)
    : res (list A) :=
  match input, permutation with
  | x :: input', p :: permutation' =>
      _ ← at_z output p;
      scatter input' permutation' (<[Z.to_nat p := x]> output)
  | _, _ => Ok output
  end.

Definition PermuteInverse {A} (default : A) (input : list A) (permutation : list Z)
    : res (list A) :=
  guard_res (bool_decide (length permutation = length input)) CheckFailed;;
  guard_res (IsPermutation permutation) CheckFailed;;
  scatter input permutation (replicate (length input) default).

Definition InversePermutation (input_permutation : list Z) : res (list Z) :=
  scatter (seqZ 0 (Z.of_nat (length input_permutation))) input_permutation
    (replicate (length input_permutation) 0).

Definition ComposePermutations (p1 p2 : list Z) : res (list Z) :=
  guard_res (bool_decide (length p1 = length p2)) CheckFailed;;
  mapM (at_z p1) p2.

Definition IsIdentityPermutation (permutation : list Z) : bool :=
  bool_decide (permutation = seqZ 0 (Z.of_nat (length permutation))).

(** ** What a permutation is *)

(** Every index below the length occurs exactly once. *)
Definition perm (p : list Z) : Prop :=
  NoDup p ∧ ∀ x, x ∈ p → 0 ≤ x < Z.of_nat (length p).

Lemma is_permutation_loop_spec n ps seen :
  length seen = n →
  is_permutation_loop n ps seen = true ↔
  NoDup ps ∧ (∀ x, x ∈ ps → 0 ≤ x < Z.of_nat n) ∧
  (∀ x, x ∈ ps → seen !! Z.to_nat x = Some false).
Proof.
  revert seen. induction ps as [| p ps IH]; intros seen Hl; simpl.
  { split; [intros _ | done]. split; [constructor |]. split; set_solver. }
  destruct ((p <? 0) || (p >=? Z.of_nat n)) eqn:Er.
  { split; [done |]. intros (_ & Hr & _). specialize (Hr p ltac:(by left)).
    apply orb_true_iff in Er. lia. }
  apply orb_false_iff in Er as [E1 E2].
  destruct (lookup_lt_is_Some_2 seen (Z.to_nat p)) as [b Hb]; [lia |]. rewrite Hb.
  destruct b.
  { split; [done |]. intros (_ & _ & Hs). specialize (Hs p ltac:(by left)). congruence. }
  rewrite IH by (by rewrite length_insert). rewrite NoDup_cons. split.
  - intros (Hn & Hr & Hs). split_and!.
    + intros Hp. specialize (Hs p Hp). by rewrite list_lookup_insert_eq in Hs by lia.
    + done.
    + intros x [-> | Hx]%elem_of_cons; [lia | by apply Hr].
    + intros x [-> | Hx]%elem_of_cons; [done |]. specialize (Hs x Hx). specialize (Hr x Hx).
      destruct (decide (x = p)) as [-> |]; [by rewrite list_lookup_insert_eq in Hs by lia |].
      by rewrite list_lookup_insert_ne in Hs by lia.
  - intros ([Hp Hn] & Hr & Hs). split_and!; [done | set_solver |].
    intros x Hx. assert (x ≠ p) by (by intros ->).
    pose proof (Hr x ltac:(by right)). pose proof (Hr p ltac:(by left)).
    rewrite list_lookup_insert_ne by lia. apply Hs. by right.
Qed.

Lemma IsPermutation_perm p : IsPermutation p = true ↔ perm p.
Proof.
  unfold IsPermutation, perm. rewrite is_permutation_loop_spec by apply length_replicate.
  split; [tauto |]. intros [Hn Hr]. split; [done |]. split; [done |].
  intros x Hx. apply lookup_replicate. split; [done |]. specialize (Hr x Hx). lia.
Qed.

(** Every index occurs. *)
Lemma perm_surj p i : perm p → 0 ≤ i < Z.of_nat (length p) → i ∈ p.
Proof.
  intros [Hn Hr] Hi.
  assert (Hsub : ∀ x, x ∈ p → x ∈ seqZ 0 (Z.of_nat (length p))).
  { intros x Hx%Hr. apply elem_of_seqZ. lia. }
  assert (Hp : p ≡ₚ seqZ 0 (Z.of_nat (length p))).
  { apply submseteq_length_Permutation.
    - by apply NoDup_submseteq.
    - rewrite length_seqZ. lia. }
  rewrite Hp. apply elem_of_seqZ. lia.
Qed.

Lemma perm_lookup p i : perm p → (i < length p)%nat → ∃ x, p !! i = Some x ∧ 0 ≤ x < Z.of_nat (length p).
Proof.
  intros [_ Hr] Hi. destruct (lookup_lt_is_Some_2 _ _ Hi) as [x Hx]. exists x.
  split; [done |]. by apply Hr, (list_elem_of_lookup_2 _ i).
Qed.

Lemma Permute_spec {A} (input : list A) p :
  perm p → length p = length input →
  ∃ out, Permute input p = Ok out ∧ length out = length input ∧
    ∀ i x, p !! i = Some x → out !! i = input !! Z.to_nat x.
Proof.
  intros Hp Hl. unfold Permute. rewrite bool_decide_true by done.
  rewrite (proj2 (IsPermutation_perm p)) by done. simpl.
  destruct (mapM_total (at_z input) p) as [out E].
  { intros x Hx. apply Hp in Hx. destruct (lookup_lt_is_Some_2 input (Z.to_nat x)) as [y Hy]; [lia |].
    exists y. apply at_z_ok. split; [lia | done]. }
  exists out. split; [done |]. apply mapM_res_ok in E. split; [by rewrite <- (Forall2_length _ _ _ E) |].
  intros i x Hx. destruct (Forall2_lookup_l _ _ _ _ _ E Hx) as (y & Hy & H).
  apply at_z_ok in H as [_ H]. congruence.
Qed.

(** The positions not yet written keep their value. *)
Lemma scatter_spec {A} (input : list A) p out :
  NoDup p → (∀ x, x ∈ p → 0 ≤ x < Z.of_nat (length out)) → length input = length p →
  ∃ out', scatter input p out = Ok out' ∧ length out' = length out ∧
    (∀ i x, p !! i = Some x → out' !! Z.to_nat x = input !! i) ∧
    (∀ j, Z.of_nat j ∉ p → out' !! j = out !! j).
Proof.
  revert p out. induction input as [| y input IH]; intros [| x p] out Hn Hr Hl; try done; simpl.
  { exists out. done. }
  apply NoDup_cons in Hn as [Hx Hn]. pose proof (Hr x ltac:(by left)) as Hrx.
  destruct (lookup_lt_is_Some_2 out (Z.to_nat x)) as [z Hz]; [lia |].
  rewrite (proj2 (at_z_ok out x z)) by (split; [lia | done]). simpl.
  destruct (IH p (<[Z.to_nat x := y]> out)) as (out' & E & Hlen & H1 & H2); [done | | by simplify_eq/= |].
  { intros w Hw. rewrite length_insert. apply Hr. by right. }
  exists out'. split; [done |]. split; [by rewrite Hlen, length_insert |]. split.
  - intros [| i] w Hw; simpl in *; [simplify_eq | by apply H1].
    rewrite H2 by (rewrite Z2Nat.id by lia; done). apply list_lookup_insert_eq. lia.
  - intros j [Hj Hj']%not_elem_of_cons. rewrite H2 by done. apply list_lookup_insert_ne. lia.
Qed.

Lemma InversePermutation_spec p :
  perm p → ∃ q, InversePermutation p = Ok q ∧ perm q ∧ length q = length p ∧
    ∀ i x, p !! i = Some x → q !! Z.to_nat x = Some (Z.of_nat i).
Proof.
  intros Hp. pose proof Hp as [Hn Hr]. unfold InversePermutation.
  destruct (scatter_spec (seqZ 0 (Z.of_nat (length p))) p (replicate (length p) 0))
    as (q & E & Hl & H1 & _); [done | by rewrite length_replicate | rewrite length_seqZ; lia |].
  rewrite length_replicate in Hl.
  assert (Hq : ∀ i x, p !! i = Some x → q !! Z.to_nat x = Some (Z.of_nat i)).
  { intros i x Hi. rewrite (H1 i x Hi). apply lookup_seqZ. apply lookup_lt_Some in Hi. lia. }
  assert (Hinv : ∀ j y, q !! j = Some y → ∃ i, y = Z.of_nat i ∧ p !! i = Some (Z.of_nat j)).
  { intros j y Hj. pose proof (lookup_lt_Some _ _ _ Hj) as Hlt.
    destruct (proj1 (list_elem_of_lookup p (Z.of_nat j))) as [i Hi].
    { apply perm_surj; [done | lia]. }
    exists i. split; [| done]. specialize (Hq i _ Hi). rewrite Nat2Z.id in Hq. congruence. }
  exists q. split; [done |]. split; [| done]. split.
  - apply NoDup_alt. intros a b y Ha Hb.
    destruct (Hinv a y Ha) as (i & -> & Hi), (Hinv b _ Hb) as (i' & E' & Hi').
    assert (i' = i) as -> by lia. assert (Z.of_nat a = Z.of_nat b) by congruence. lia.
  - intros y [j Hj]%list_elem_of_lookup. destruct (Hinv j y Hj) as (i & -> & Hi).
    apply lookup_lt_Some in Hi. lia.
Qed.

Lemma Permute_inverse_spec {A} (default : A) (input : list A) p :
  IsPermutation p = true → length p = length input →
  ∃ out back q, Permute input p = Ok out ∧ PermuteInverse default out p = Ok input ∧
    PermuteInverse default input p = Ok back ∧ Permute back p = Ok input ∧
    InversePermutation p = Ok q ∧ Permute input q = Ok back.
Proof.
  intros Hp%IsPermutation_perm Hl. pose proof Hp as [Hn Hr].
  assert (Hinvp : IsPermutation p = true) by by apply IsPermutation_perm.
  destruct (Permute_spec input p Hp Hl) as (out & E1 & L1 & H1).
  assert (Hsc : ∀ l : list A, length l = length p →
    ∃ l', PermuteInverse default l p = Ok l' ∧ length l' = length p ∧
      ∀ i x, p !! i = Some x → l' !! Z.to_nat x = l !! i).
  { intros l Hll. unfold PermuteInverse. rewrite bool_decide_true by done. rewrite Hinvp. simpl.
    destruct (scatter_spec l p (replicate (length l) default)) as (l' & E & L & H & _);
      [done | rewrite length_replicate, Hll; done | done |].
    exists l'. split; [done |]. split; [by rewrite L, length_replicate | done]. }
  assert (Hext : ∀ l l' : list A, length l = length p → length l' = length p →
    (∀ i x, p !! i = Some x → l !! Z.to_nat x = l' !! Z.to_nat x) → l = l').
  { intros l l' L L' H. apply list_eq. intros j.
    destruct (decide (j < length p)%nat) as [Hj |].
    - destruct (proj1 (list_elem_of_lookup p (Z.of_nat j))) as [i Hi];
        [apply perm_surj; [done | lia] |].
      specialize (H i _ Hi). by rewrite Nat2Z.id in H.
    - rewrite !lookup_ge_None_2 by lia. done. }
  destruct (Hsc out) as (input' & E2 & L2 & H2); [by rewrite L1 |].
  destruct (Hsc input) as (back & E3 & L3 & H3); [done |].
  destruct (Permute_spec back p Hp) as (input'' & E4 & L4 & H4); [done |].
  destruct (InversePermutation_spec p Hp) as (q & E5 & Hq & L5 & H5).
  destruct (Permute_spec input q Hq) as (back' & E6 & L6 & H6); [by rewrite L5 |].
  exists out, back, q. split_and!; try done.
  - rewrite E2. f_equal. apply Hext; [done | done |].
    intros i x Hi. by rewrite (H2 i x Hi), (H1 i x Hi).
  - rewrite E4. f_equal. apply list_eq. intros i.
    destruct (decide (i < length p)%nat) as [Hi |].
    + destruct (lookup_lt_is_Some_2 _ _ Hi) as [x Hx]. by rewrite (H4 i x Hx), (H3 i x Hx).
    + rewrite !lookup_ge_None_2 by lia. done.
  - rewrite E6. f_equal. apply Hext; [by rewrite L6 | done |].
    intros i x Hi. rewrite (H3 i x Hi), (H6 (Z.to_nat x) (Z.of_nat i)), Nat2Z.id; [done |].
    by apply H5.
Qed.

(** ** Properties *)

(** [IsPermutation] accepts exactly the reorderings of
    [0, ..., size - 1]. *)
Theorem IsPermutation_exact p :
  IsPermutation p = true ↔ p ≡ₚ seqZ 0 (Z.of_nat (length p)).
Proof.
  rewrite IsPermutation_perm. split.
  - intros [Hn Hr]. apply submseteq_length_Permutation; [| rewrite length_seqZ; lia].
    apply NoDup_submseteq; [done |]. intros x Hx%Hr. apply elem_of_seqZ. lia.
  - intros H. split.
    + rewrite H. apply NoDup_seqZ.
    + intros x. rewrite H at 1. rewrite elem_of_seqZ. lia.
Qed.

(** [PermuteInverse] undoes [Permute], both ways, and agrees with [Permute]
    by the permutation [InversePermutation] computes. *)
Theorem Permute_inverse {A} (default : A) (input : list A) p :
  IsPermutation p = true → length p = length input →
  ∃ out back q, Permute input p = Ok out ∧ PermuteInverse default out p = Ok input ∧
    PermuteInverse default input p = Ok back ∧ Permute back p = Ok input ∧
    InversePermutation p = Ok q ∧ Permute input q = Ok back.
Proof. apply Permute_inverse_spec. Qed.

Lemma Permute_inverse_witness :
  ∃ out, Permute [10; 20; 30] [2; 0; 1] = Ok out ∧ PermuteInverse 0 out [2; 0; 1] = Ok [10; 20; 30].
Proof.
  destruct (Permute_inverse 0 [10; 20; 30] [2; 0; 1]) as (out & b & q & E1 & E2 & _); [done.. |].
  exists out. split; [exact E1 | exact E2].
Defined.

(** Composition: permuting by the composition of two permutations is
    permuting by the first and then by the second. *)
Theorem ComposePermutations_permutes {A} (input : list A) p1 p2 :
  IsPermutation p1 = true → IsPermutation p2 = true →
  length p1 = length input → length p2 = length p1 →
  ∃ c mid out, ComposePermutations p1 p2 = Ok c ∧ IsPermutation c = true ∧
    Permute input p1 = Ok mid ∧ Permute mid p2 = Ok out ∧ Permute input c = Ok out.
Proof.
  intros H1%IsPermutation_perm H2%IsPermutation_perm L1 L2.
  destruct (Permute_spec p1 p2 H2) as (c & Ec & Lc & Hc); [done |].
  assert (Ec' : ComposePermutations p1 p2 = Ok c).
  { unfold Permute, ComposePermutations in *. rewrite !bool_decide_true in * by done.
    by rewrite (proj2 (IsPermutation_perm p2)) in Ec. }
  assert (Hcp : perm c).
  { split.
    - apply NoDup_alt. intros i j x Hi Hj.
      destruct (perm_lookup p2 i H2) as (a & Ha & ?); [apply lookup_lt_Some in Hi; lia |].
      destruct (perm_lookup p2 j H2) as (b & Hb & ?); [apply lookup_lt_Some in Hj; lia |].
      rewrite (Hc i a Ha) in Hi. rewrite (Hc j b Hb) in Hj.
      pose proof (NoDup_lookup _ _ _ _ (proj1 H1) Hi Hj). assert (a = b) as -> by lia.
      by apply (NoDup_lookup p2 i j b (proj1 H2)).
    - intros x [i Hi]%list_elem_of_lookup.
      destruct (perm_lookup p2 i H2) as (a & Ha & ?); [apply lookup_lt_Some in Hi; lia |].
      rewrite (Hc i a Ha) in Hi. apply list_elem_of_lookup_2, H1 in Hi. lia. }
  destruct (Permute_spec input p1 H1 L1) as (mid & Em & Lm & Hm).
  destruct (Permute_spec mid p2 H2) as (out & Eo & Lo & Ho); [lia |].
  destruct (Permute_spec input c Hcp) as (out' & Eo' & Lo' & Ho'); [lia |].
  exists c, mid, out. split_and!; try done; [by apply IsPermutation_perm |].
  rewrite Eo'. f_equal. apply list_eq. intros i.
  destruct (decide (i < length p2)%nat) as [Hi |]; [| rewrite !lookup_ge_None_2 by lia; done].
  destruct (perm_lookup p2 i H2 Hi) as (a & Ha & Hra).
  destruct (perm_lookup p1 (Z.to_nat a) H1) as (b & Hb & Hrb); [lia |].
  rewrite (Ho i a Ha), (Hm _ b Hb). apply Ho'. by rewrite (Hc i a Ha).
Qed.

Lemma ComposePermutations_permutes_witness :
  ∃ c, ComposePermutations [1; 2; 0] [2; 0; 1] = Ok c ∧ Permute [7; 8; 9] c = Ok [7; 8; 9].
Proof.
  destruct (ComposePermutations_permutes [7; 8; 9] [1; 2; 0] [2; 0; 1])
    as (c & m & o & E1 & _ & Em & Eo & E2); [done.. |].
  exists c. split; [exact E1 |]. vm_compute in Em. injection Em as <-.
  vm_compute in Eo. injection Eo as <-. exact E2.
Defined.

End PermUtil.
