(* ===== verification/Shape.v ===== *)
(** * Shapes

    Models [xla/shape.h], [xla/shape.cc] and the parts of [xla/shape_util.h] and
    [.cc] that build and compare shapes.  The two parallel vectors of an array
    state, sizes and dynamic markers, are one list of pairs: every mutator of
    [Shape] changes both in step.  Layouts are in [Layouts.v], which adds them to these
    shapes. *)
From S2P Require Import Prelude WindowArith Types PermUtil.

Module Shape.
Import Types.

(** ** The data *)

Record Dim := MkDim { size : Z; is_dynamic : bool }.

#[export] Instance Dim_eq_dec : EqDecision Dim.
Proof. solve_decision. Defined.

(** [ArrayState] with its element type. *)
Record Array := MkArray { element_type : PrimitiveType; dims : list Dim }.

#[export] Instance Array_eq_dec : EqDecision Array.
Proof. solve_decision. Defined.

Inductive Shape :=
  | ArrayShape (a : Array)
  | TupleShape (tuple_shapes : list Shape)
  | BufferShape (buffer_shape : Shape)
  | TokenShape
  | OpaqueShape
  | InvalidShape.

Definition kUnboundedSize : Z := int64_min.

Definition IsUnboundedDynamicSize (size : Z) : bool := size =? kUnboundedSize.

Definition IsValidDimensionSize (size : Z) (dynamic : bool) : bool :=
  (size >=? 0) || (dynamic && (size =? kUnboundedSize)).

Definition rank (a : Array) : nat := length (dims a).
Definition sizes (a : Array) : list Z := size <$> dims a.

Definition is_unbounded_dynamic_dimension (d : Dim) : bool := size d =? kUnboundedSize.
Definition is_bounded_dynamic_dimension (d : Dim) : bool :=
  is_dynamic d && negb (is_unbounded_dynamic_dimension d).

Definition IsArrayExcludingBuffer (s : Shape) : bool :=
  match s with ArrayShape _ => true | _ => false end.
Definition IsTuple (s : Shape) : bool := match s with TupleShape _ => true | _ => false end.
Definition IsBuffer (s : Shape) : bool := match s with BufferShape _ => true | _ => false end.
Definition IsArray (s : Shape) : bool := IsArrayExcludingBuffer s || IsBuffer s.

(** [array_state_maybe_underneath_buffer]. *)
Definition array_state (s : Shape) : res Array :=
  match s with
  | ArrayShape a | BufferShape (ArrayShape a) => Ok a
  | _ => Fail CheckFailed
  end.

Fixpoint element_type_of (s : Shape) : PrimitiveType :=
  match s with
  | ArrayShape a => element_type a
  | BufferShape b => element_type_of b
  | TupleShape _ => TUPLE
  | TokenShape => TOKEN
  | OpaqueShape => OPAQUE_TYPE
  | InvalidShape => PRIMITIVE_TYPE_INVALID
  end.

(** ** Whole-shape queries *)

Definition array_is_static (a : Array) : bool := negb (existsb is_dynamic (dims a)).
Definition array_is_unbounded_dynamic (a : Array) : bool :=
  existsb is_unbounded_dynamic_dimension (dims a).
Definition array_is_bounded_dynamic (a : Array) : bool :=
  existsb is_bounded_dynamic_dimension (dims a).

Fixpoint is_static (s : Shape) : bool :=
  match s with
  | TupleShape l => forallb is_static l
  | ArrayShape a | BufferShape (ArrayShape a) => array_is_static a
  | _ => true
  end.

Fixpoint is_unbounded_dynamic (s : Shape) : bool :=
  match s with
  | TupleShape l => existsb is_unbounded_dynamic l
  | ArrayShape a | BufferShape (ArrayShape a) => array_is_unbounded_dynamic a
  | _ => false
  end.

Fixpoint is_bounded_dynamic (s : Shape) : bool :=
  match s with
  | TupleShape l => existsb is_bounded_dynamic l
  | ArrayShape a | BufferShape (ArrayShape a) => array_is_bounded_dynamic a
  | _ => false
  end.

(** ** Mutators *)

Definition CheckDimensionSize (size : Z) (dynamic : bool) : res unit :=
  if dynamic then
    if size <? 0 then guard_res (size =? kUnboundedSize) CheckFailed else Ok tt
  else guard_res (size >=? 0) CheckFailed.

Definition add_dimensions (value : Z) (dynamic : bool) (a : Array) : res Array :=
  (if value <? 0 then
     guard_res dynamic CheckFailed;; guard_res (value =? kUnboundedSize) CheckFailed
   else Ok tt);;
  Ok (MkArray (element_type a) (dims a ++ [MkDim value dynamic])).

Definition set_dynamic_dimension (i : nat) (dynamic : bool) (a : Array) : res Array :=
  d ← at_res (dims a) i;
  CheckDimensionSize (size d) dynamic;;
  Ok (MkArray (element_type a) (<[i := MkDim (size d) dynamic]> (dims a))).

(** With the optional last argument given. *)
Definition set_dimensions (i : nat) (sz : Z) (dynamic : bool) (a : Array) : res Array :=
  _ ← at_res (dims a) i;
  CheckDimensionSize sz dynamic;;
  Ok (MkArray (element_type a) (<[i := MkDim sz dynamic]> (dims a))).

(** To another array type; the array keeps its state. *)
Definition set_element_type (t : PrimitiveType) (a : Array) : res Array :=
  guard_res (IsArrayType t) CheckFailed;; Ok (MkArray t (dims a)).

Definition DeleteDimension (dim_to_delete : Z) (a : Array) : res Array :=
  guard_res (dim_to_delete >=? 0) CheckFailed;;
  guard_res (dim_to_delete <? Z.of_nat (rank a)) CheckFailed;;
  Ok (MkArray (element_type a)
        (take (Z.to_nat dim_to_delete) (dims a) ++ drop (S (Z.to_nat dim_to_delete)) (dims a))).

(** ** Construction *)

(** [StatusOr::value]: an error status aborts. *)
Definition value {A} (m : res A) : res A :=
  match m with
  | Fail InvalidArgument | Fail Unimplemented | Fail Internal => Fail CheckFailed
  | _ => m
  end.

Definition MakeDynamicDimensions (dimensions : list Z) : list bool :=
  (λ d, d =? kUnboundedSize) <$> dimensions.

(** The loop over the dimensions: the array, the static extent and whether any
    product overflowed. *)
Fixpoint make_dims (ds : list (Z * bool)) (a : Array) (static_extent_product : Z)
    (any_overflows : bool) : res (Array * bool) :=
  match ds with
  | [] => Ok (a, any_overflows)
  | (d, dynamic) :: ds' =>
      guard_res (IsValidDimensionSize d dynamic) InvalidArgument;;
      let '(static_extent_product, any_overflows) :=
        if negb (d =? kUnboundedSize) then
          let '(p, overflow) := WindowArith.OverflowSafeMultiply static_extent_product d in
          (p, any_overflows || overflow)
        else (static_extent_product, any_overflows) in
      a ← add_dimensions d dynamic a;
      make_dims ds' a static_extent_product any_overflows
  end.

Section Make.
Context `{NativeTypes}.

Definition MakeValidatedShape (t : PrimitiveType) (dimensions : list Z)
    (dynamic_dimensions : list bool) : res Array :=
  guard_res (bool_decide (length dynamic_dimensions = length dimensions)) InvalidArgument;;
  (* A shape that is no array has no layout to change. *)
  guard_res (IsArrayType t) CheckFailed;;
  dense_shape_size ← ByteWidth t;
  '(a, any_overflows) ← make_dims (zip dimensions dynamic_dimensions) (MkArray t [])
                          dense_shape_size false;
  guard_res (negb any_overflows) InvalidArgument;;
  Ok a.

(** The overloads with the markers left out, and those that abort. *)
Definition MakeValidatedShape2 (t : PrimitiveType) (dimensions : list Z) : res Array :=
  MakeValidatedShape t dimensions (MakeDynamicDimensions dimensions).
Definition MakeShape (t : PrimitiveType) (dimensions : list Z) (dynamic_dimensions : list bool)
    : res Array :=
  value (MakeValidatedShape t dimensions dynamic_dimensions).
Definition MakeShape2 (t : PrimitiveType) (dimensions : list Z) : res Array :=
  value (MakeValidatedShape2 t dimensions).
End Make.

(** ** Comparison *)

(** The settings of [Shape::Equal] the inference uses; layouts are ignored. *)
Record EqualOptions := MkEqualOptions {
  ignore_element_type : bool;
  ignore_fp_precision : bool;
  ignore_dynamic_dimension : bool;
  ignore_dimensions : bool;
  ignore_buffer : bool
}.

Definition SameElementType (a b : Array) : bool :=
  bool_decide (element_type a = element_type b).

Definition SameElementTypeIgnoringFpPrecision (a b : Array) : bool :=
  if IsFloatingPointType (element_type a) && IsFloatingPointType (element_type b) then true
  else SameElementType a b.

Definition SameRank (a b : Array) : bool := bool_decide (rank a = rank b).

(** The part of [Equal] that compares two arrays. *)
Definition equal_dims (o : EqualOptions) (l r : Dim) : bool :=
  (size l =? size r) ||
  (ignore_dynamic_dimension o && ((size l =? kUnboundedSize) || (size r =? kUnboundedSize))).

Definition equal_arrays (o : EqualOptions) (l r : Array) : bool :=
  (ignore_element_type o ||
   (if ignore_fp_precision o then SameElementTypeIgnoringFpPrecision l r
    else SameElementType l r)) &&
  SameRank l r &&
  (ignore_dimensions o ||
   forallb (λ p : Dim * Dim, equal_dims o p.1 p.2) (zip (dims l) (dims r))) &&
  (ignore_dynamic_dimension o ||
   bool_decide (is_dynamic <$> dims l = is_dynamic <$> dims r)).

(** A left side that is no tuple and no buffer. *)
Fixpoint equal_leaf (o : EqualOptions) (lhs rhs : Shape) : bool :=
  match rhs with
  | BufferShape r => if ignore_buffer o then equal_leaf o lhs r else false
  | ArrayShape r => match lhs with ArrayShape l => equal_arrays o l r | _ => false end
  | _ =>
      match lhs with
      | ArrayShape _ => false
      | _ => bool_decide (element_type_of lhs = element_type_of rhs)
      end
  end.

Fixpoint Equal (o : EqualOptions) (lhs rhs : Shape) : bool :=
  match lhs with
  | TupleShape ls =>
      match rhs with
      | TupleShape rs =>
          (fix equal_list ls rs :=
             match ls, rs with
             | [], [] => true
             | l :: ls', r :: rs' => Equal o l r && equal_list ls' rs'
             | _, _ => false
             end) ls rs
      | _ => false
      end
  | BufferShape l =>
      if ignore_buffer o then
        match rhs with BufferShape r => Equal o l r | _ => Equal o l rhs end
      else match rhs with BufferShape r => Equal o l r | _ => false end
  | _ => equal_leaf o lhs rhs
  end.

Definition Compatible : Shape → Shape → bool :=
  Equal (MkEqualOptions false false true false false).
Definition CompatibleIgnoringElementType : Shape → Shape → bool :=
  Equal (MkEqualOptions true false true false false).
Definition CompatibleIgnoringFpPrecision : Shape → Shape → bool :=
  Equal (MkEqualOptions false true true false false).
Definition CompatibleKind (ignore_buffer : bool) : Shape → Shape → bool :=
  Equal (MkEqualOptions true false true true ignore_buffer).

Definition SameDimensions (lhs rhs : Array) : bool :=
  SameRank lhs rhs &&
  forallb (λ p : Dim * Dim,
    is_unbounded_dynamic_dimension p.1 || is_unbounded_dynamic_dimension p.2
    || (size p.1 =? size p.2)) (zip (dims lhs) (dims rhs)).

Definition IsScalar (s : Shape) : res bool :=
  if IsArray s then a ← array_state s; Ok (rank a =? 0)%nat else Ok false.

(** ** Extents *)

(** [ExtentProduct<kBoundedDynamicOk>]. *)
Fixpoint extent_product (bounded_dynamic_ok : bool) (ds : list Dim) (product : Z)
    (any_overflows : bool) : Z * bool :=
  match ds with
  | [] => (product, any_overflows)
  | d :: ds' =>
      if bounded_dynamic_ok && is_unbounded_dynamic_dimension d then
        extent_product bounded_dynamic_ok ds' product any_overflows
      else
        let '(p, overflow) := WindowArith.OverflowSafeMultiply product (size d) in
        extent_product bounded_dynamic_ok ds' p (any_overflows || overflow)
  end.

Definition ExtentProduct (bounded_dynamic_ok : bool) (a : Array) : Z * bool :=
  extent_product bounded_dynamic_ok (dims a) 1 false.

Definition ElementsIn (a : Array) : Z := (ExtentProduct false a).1.
Definition StaticExtentProduct (a : Array) : Z := (ExtentProduct true a).1.

(** ** Changed shapes *)

Section Change.
Context `{NativeTypes}.

Definition HigherPrecisionElementType (a b : Array) : res PrimitiveType :=
  HigherPrecisionType (element_type a) (element_type b).

(** [ChangeElementType] of an array. *)
Definition ChangeElementType (original : Array) (t : PrimitiveType) : res Array :=
  set_element_type t original.
End Change.

Definition PermuteDimensionsIgnoringLayout (permutation : list Z) (a : Array) : res Array :=
  permuted ← PermUtil.Permute (dims a) permutation;
  (fix add_all ds a :=
     match ds with
     | [] => Ok a
     | d :: ds' => a ← add_dimensions (size d) (is_dynamic d) a; add_all ds' a
     end) permuted (MkArray (element_type a) []).

End Shape.
