(* ===== verification/ShapeProofs.v ===== *)
(** * Valid shapes

    What [MakeValidatedShape] accepts, that the element count of what it
    accepts is exact, and the laws of the shape comparisons. *)
From S2P Require Import Prelude WindowArith Types PermUtil Shape.

Module ShapeProofs.
Import Types Shape.
#[local] Opaque WindowArith.OverflowSafeMultiply.

(** ** Valid arrays *)

Definition dim_ok (d : Dim) : Prop :=
  0 ≤ size d ≤ int64_max ∨ (is_dynamic d = true ∧ size d = kUnboundedSize).

Record array_ok (a : Array) : Prop := ArrayOk {
  ao_type : IsArrayType (element_type a) = true;
  ao_dims : Forall dim_ok (dims a)
}.

(** The sizes that count: all but the unbounded ones. *)
Definition static_sizes (ds : list Dim) : list Z :=
  filter (λ n, n ≠ kUnboundedSize) (size <$> ds).

(** No prefix of the product of [l], starting from [w], overflows. *)
Fixpoint fits (w : Z) (l : list Z) : Prop :=
  match l with [] => True | n :: l' => w * n ≤ int64_max ∧ fits (w * n) l' end.

#[export] Instance fits_dec w l : Decision (fits w l).
Proof. revert w. induction l; intros w; simpl; apply _. Defined.

Definition product (l : list Z) : Z := foldr Z.mul 1 l.

Lemma fits_le w l v k :
  0 ≤ v ≤ w → Forall2 (λ n m, 0 ≤ n ≤ m) k l → fits w l → fits v k.
Proof.
  intros Hv Hk. revert v w Hv. induction Hk as [| n m k l Hn Hk IH]; intros v w Hv H; [done |].
  simpl in *. destruct H as [H1 H2]. split; [nia |]. apply (IH _ (w * m)); [nia | done].
Qed.

Lemma fits_refl_le w l v :
  0 ≤ v ≤ w → Forall (λ n, 0 ≤ n) l → fits w l → fits v l.
Proof.
  intros Hv Hl. apply fits_le; [done |]. induction Hl; constructor; [lia | done].
Qed.

(** ** Construction *)

Lemma CheckDimensionSize_ok n b u : CheckDimensionSize n b = Ok u ↔ IsValidDimensionSize n b = true.
Proof.
  destruct u. unfold CheckDimensionSize, IsValidDimensionSize, guard_res.
  destruct b, (Z.ltb_spec n 0), (Z.geb_spec n 0), (n =? kUnboundedSize); simpl; try done; lia.
Qed.

Lemma valid_dim_ok n b : in_int64 n → IsValidDimensionSize n b = true ↔ dim_ok (MkDim n b).
Proof.
  intros Hn. unfold IsValidDimensionSize, dim_ok, kUnboundedSize. simpl.
  rewrite orb_true_iff, andb_true_iff, Z.geb_le, Z.eqb_eq. int_unfold. intuition lia.
Qed.

Lemma add_dimensions_ok n b a :
  IsValidDimensionSize n b = true →
  add_dimensions n b a = Ok (MkArray (element_type a) (dims a ++ [MkDim n b])).
Proof.
  unfold IsValidDimensionSize, add_dimensions, guard_res.
  destruct (Z.ltb_spec n 0), (Z.geb_spec n 0); try lia; simpl; [| done].
  by intros [-> ->]%andb_true_iff.
Qed.

Abbreviation to_dim := (λ p : Z * bool, MkDim p.1 p.2).
Abbreviation valid := (forallb (λ p : Z * bool, IsValidDimensionSize p.1 p.2)).

(** Once a product has overflowed, only the sizes matter. *)
Lemma make_dims_overflow ds a w :
  make_dims ds a w true =
    if valid ds then Ok (MkArray (element_type a) (dims a ++ (to_dim <$> ds)), true)
    else Fail InvalidArgument.
Proof.
  revert a w. induction ds as [| [n b] ds IH]; intros a w; simpl.
  { rewrite app_nil_r. by destruct a. }
  destruct (IsValidDimensionSize n b) eqn:Ev; simpl; [| done].
  assert (E : ∀ w, (a0 ← add_dimensions n b a; make_dims ds a0 w true) =
    if valid ds
    then Ok (MkArray (element_type a) (dims a ++ MkDim n b :: (to_dim <$> ds)), true)
    else Fail InvalidArgument).
  { intros w'. rewrite add_dimensions_ok by done. simpl. rewrite IH. simpl.
    by rewrite <- app_assoc. }
  destruct (negb (n =? kUnboundedSize)); apply E.
Qed.

Lemma make_dims_spec ds a w :
  0 ≤ w →
  make_dims ds a w false =
    if valid ds
    then Ok (MkArray (element_type a) (dims a ++ (to_dim <$> ds)),
             negb (bool_decide (fits w (static_sizes (to_dim <$> ds)))))
    else Fail InvalidArgument.
Proof.
  revert a w. induction ds as [| [n b] ds IH]; intros a w Hw; simpl.
  { rewrite app_nil_r. by destruct a. }
  destruct (IsValidDimensionSize n b) eqn:Ev; simpl; [| done].
  assert (E : ∀ w' o, (a0 ← add_dimensions n b a; make_dims ds a0 w' o) =
    make_dims ds (MkArray (element_type a) (dims a ++ [MkDim n b])) w' o).
  { intros w' o. by rewrite add_dimensions_ok. }
  unfold static_sizes. rewrite fmap_cons. cbn [size]. rewrite filter_cons.
  destruct (Z.eqb_spec n kUnboundedSize) as [-> | Hn]; cbn [negb].
  { rewrite decide_False by tauto. rewrite E, IH by done. simpl. by rewrite <- app_assoc. }
  rewrite decide_True by done.
  assert (Hn0 : 0 ≤ n).
  { unfold IsValidDimensionSize in Ev. apply orb_true_iff in Ev.
    rewrite andb_true_iff, Z.geb_le, Z.eqb_eq in Ev. tauto. }
  destruct (decide (w * n ≤ int64_max)) as [Hf | Hf].
  - rewrite WindowArith.mul_safe by done. simpl. rewrite E, IH by nia. simpl.
    rewrite <- app_assoc. simpl. destruct (valid ds); [| done]. do 3 f_equal.
    apply bool_decide_ext. tauto.
  - destruct (WindowArith.OverflowSafeMultiply w n) as [p o] eqn:Eo. destruct o.
    2: { apply WindowArith.mul_overflow in Eo. lia. }
    simpl. rewrite E, make_dims_overflow. simpl. rewrite <- app_assoc. simpl.
    rewrite bool_decide_false; [done | tauto].
Qed.

Section Make.
Context `{NativeTypes}.

(** What [MakeValidatedShape] accepts. *)
Definition shape_fits (w : Z) (ds : list Z) (dyn : list bool) : Prop :=
  length dyn = length ds ∧
  Forall (λ d, IsValidDimensionSize (size d) (is_dynamic d) = true) (zip_with MkDim ds dyn) ∧
  fits w (static_sizes (zip_with MkDim ds dyn)).

#[export] Instance shape_fits_dec w ds dyn : Decision (shape_fits w ds dyn).
Proof. unfold shape_fits. apply _. Defined.

Lemma zip_to_dim ds dyn : to_dim <$> zip ds dyn = zip_with MkDim ds dyn.
Proof. revert dyn. induction ds as [| d ds IH]; intros [| b dyn]; simpl; try done. by rewrite IH. Qed.

Lemma valid_Forall ds dyn :
  valid (zip ds dyn) = true ↔
  Forall (λ d, IsValidDimensionSize (size d) (is_dynamic d) = true) (zip_with MkDim ds dyn).
Proof.
  rewrite <- zip_to_dim, Forall_fmap. induction (zip ds dyn) as [| p l IH]; simpl.
  - split; [constructor | done].
  - rewrite andb_true_iff, IH, Forall_cons. done.
Qed.

Lemma MakeValidatedShape_spec t w ds dyn :
  ByteWidth t = Ok w → 0 ≤ w →
  MakeValidatedShape t ds dyn =
    if decide (shape_fits w ds dyn)
    then Ok (MkArray t (zip_with MkDim ds dyn)) else Fail InvalidArgument.
Proof.
  intros Hw H0. unfold MakeValidatedShape, shape_fits.
  assert (Ht : IsArrayType t = true).
  { unfold ByteWidth in Hw. by destruct (IsArrayType t). }
  destruct (decide (length dyn = length ds)) as [Hl |];
    [| rewrite bool_decide_false, decide_False by tauto; done].
  rewrite bool_decide_true by done. simpl. rewrite Ht, Hw. simpl.
  rewrite make_dims_spec by done. rewrite zip_to_dim. simpl.
  destruct (valid (zip ds dyn)) eqn:Hv; simpl.
  - apply valid_Forall in Hv.
    case_bool_decide as Hf; simpl; [rewrite decide_True | rewrite decide_False]; tauto.
  - rewrite decide_False; [done |]. intros (_ & H1%valid_Forall & _). congruence.
Qed.
Lemma MakeShape_spec t w ds dyn :
  ByteWidth t = Ok w → 0 ≤ w →
  MakeShape t ds dyn =
    if decide (shape_fits w ds dyn)
    then Ok (MkArray t (zip_with MkDim ds dyn)) else Fail CheckFailed.
Proof.
  intros Hw H0. unfold MakeShape. rewrite (MakeValidatedShape_spec t w) by done.
  by case_decide.
Qed.

Lemma MakeShape_ok t w ds dyn :
  ByteWidth t = Ok w → 0 ≤ w → shape_fits w ds dyn →
  MakeShape t ds dyn = Ok (MkArray t (zip_with MkDim ds dyn)).
Proof. intros Hw H0 Hf. rewrite (MakeShape_spec t w) by done. by rewrite decide_True. Qed.

Lemma MakeShape2_ok t w ds :
  ByteWidth t = Ok w → 0 ≤ w → Forall (λ n, 0 ≤ n) ds → fits w ds →
  MakeShape2 t ds = Ok (MkArray t ((λ n, MkDim n false) <$> ds)).
Proof.
  intros Hw H0 Hn Hf. unfold MakeShape2, MakeValidatedShape2.
  assert (Ed : MakeDynamicDimensions ds = replicate (length ds) false).
  { unfold MakeDynamicDimensions. clear Hf. induction Hn as [| n ds Hn _ IH]; simpl; [done |].
    f_equal; [| done]. apply Z.eqb_neq. unfold kUnboundedSize. int_lia. }
  assert (Ez : zip_with MkDim ds (replicate (length ds) false) = (λ n, MkDim n false) <$> ds).
  { clear. induction ds as [| n ds IH]; simpl; [done |]. by rewrite IH. }
  change (MakeShape t ds (MakeDynamicDimensions ds) = Ok (MkArray t ((λ n, MkDim n false) <$> ds))).
  rewrite Ed. rewrite (MakeShape_ok t w), Ez; [done | done | done |].
  unfold shape_fits. rewrite Ez, length_replicate. split; [done |]. split.
  - apply Forall_fmap. eapply Forall_impl; [apply Hn |]. intros n Hn'. simpl.
    unfold IsValidDimensionSize. by rewrite (proj2 (Z.geb_le n 0)).
  - unfold static_sizes. rewrite <- list_fmap_compose.
    assert (Ei : size ∘ (λ n, MkDim n false) <$> ds = ds) by apply list_fmap_id.
    rewrite Ei, list_filter_all; [done |]. eapply Forall_impl; [apply Hn |].
    intros n Hn'. simpl in Hn'. unfold kUnboundedSize. int_lia.
Qed.

Lemma ByteWidth_type t w : ByteWidth t = Ok w → IsArrayType t = true.
Proof. unfold ByteWidth. by destruct (IsArrayType t). Qed.

(** ** Extents *)

Lemma extent_product_fits ok ds p :
  0 ≤ p → Forall (λ d, 0 ≤ size d) ds → fits p (size <$> ds) →
  extent_product ok ds p false = (p * product (size <$> ds), false).
Proof.
  intros Hp Hd. revert p Hp. induction Hd as [| d ds Hd _ IH]; intros p Hp Hf; simpl.
  { f_equal. lia. }
  destruct Hf as [H1 H2]. unfold is_unbounded_dynamic_dimension.
  assert (E : (size d =? kUnboundedSize) = false).
  { apply Z.eqb_neq. unfold kUnboundedSize. int_lia. }
  rewrite E, andb_false_r, WindowArith.mul_safe by done. simpl.
  rewrite IH by (done || nia). f_equal. symmetry. apply Z.mul_assoc.
Qed.

(** [MakeValidatedShape] accepts exactly the dimensions whose sizes are
    valid for their markers and whose byte size, taken over the sizes that are
    not unbounded, never overflows on the way; what it builds has these
    dimensions. *)
Theorem MakeValidatedShape_exact t w ds dyn a :
  ByteWidth t = Ok w → 0 ≤ w →
  MakeValidatedShape t ds dyn = Ok a ↔
  shape_fits w ds dyn ∧ a = MkArray t (zip_with MkDim ds dyn).
Proof.
  intros Hw H0. rewrite (MakeValidatedShape_spec t w) by done. case_decide; naive_solver.
Qed.

(** The element count of a shape that [MakeValidatedShape] accepted, without
    unbounded dimensions, is the exact product of its sizes: the 64-bit loop of
    [ElementsIn] does not overflow. *)
Theorem ElementsIn_exact t w ds dyn a :
  ByteWidth t = Ok w → 1 ≤ w → MakeValidatedShape t ds dyn = Ok a →
  Forall (λ n, n ≠ kUnboundedSize) ds →
  ExtentProduct false a = (product ds, false) ∧ ElementsIn a = product ds.
Proof.
  intros Hw H0 Ha Hn. rewrite (MakeValidatedShape_spec t w) in Ha by (done || lia).
  case_decide as Hf; [| done]. injection Ha as <-. destruct Hf as (Hl & Hv & Hf).
  assert (Es : size <$> zip_with MkDim ds dyn = ds).
  { apply fmap_zip_with_l; [done | lia]. }
  assert (Hpos : Forall (λ d, 0 ≤ size d) (zip_with MkDim ds dyn)).
  { apply Forall_forall. intros d Hd. rewrite Forall_forall in Hv.
    specialize (Hv d Hd). pose proof (proj1 (Forall_forall _ _) Hn (size d)) as Hn'. unfold IsValidDimensionSize in Hv.
    apply orb_true_iff in Hv. rewrite andb_true_iff, Z.geb_le, Z.eqb_eq in Hv.
    destruct Hv as [| [_ Hv]]; [done |]. destruct Hn'; [| done].
    rewrite <- Es. by apply list_elem_of_fmap_2. }
  unfold static_sizes in Hf. rewrite Es, list_filter_all in Hf by done.
  assert (E : ExtentProduct false (MkArray t (zip_with MkDim ds dyn)) = (product ds, false)).
  { unfold ExtentProduct. simpl. rewrite extent_product_fits; [| done | done |].
    - rewrite Es. f_equal. lia.
    - rewrite Es. apply (fits_refl_le w); [lia | | done].
      rewrite <- Es. by apply Forall_fmap. }
  split; [done |]. unfold ElementsIn. by rewrite E.
Qed.
End Make.

Lemma MakeValidatedShape_exact_witness :
  MakeValidatedShape F32 [2; 3] [false; true] = Ok (MkArray F32 [MkDim 2 false; MkDim 3 true]).
Proof.
  apply (MakeValidatedShape_exact F32 4); [reflexivity | lia |].
  split; [| reflexivity]. apply (bool_decide_unpack _). vm_compute. exact I.
Defined.

Lemma ElementsIn_exact_witness :
  ElementsIn (MkArray F32 [MkDim 2 false; MkDim 3 true]) = 6.
Proof.
  apply (ElementsIn_exact F32 4 [2; 3] [false; true]); [reflexivity | lia | reflexivity |].
  apply (bool_decide_unpack _). vm_compute. exact I.
Defined.

End ShapeProofs.
