(* ===== verification/ShapeInfer.v ===== *)
(** * Shape inference: slices, padding, concatenation and windows

    Models the operations of [xla/service/shape_inference.cc] on the dimensions
    of one array and on lists of arrays. *)
From S2P Require Import Prelude WindowArith Types PermUtil Shape.

Module ShapeInfer.
Import Types Shape.

(** ** Helpers *)

Definition AllUnique (slice : list Z) : bool := bool_decide (NoDup slice).

Definition CompatibleDimensionSizes (size_a size_b : Z) : bool :=
  IsUnboundedDynamicSize size_a || IsUnboundedDynamicSize size_b || (size_a =? size_b).

Definition ExpectArray (s : Shape) : res Array :=
  match s with ArrayShape a => Ok a | _ => Fail InvalidArgument end.

(** [set_dynamic_dimension(i, true)] for every [i] where [test] holds. *)
Fixpoint mark_dynamic (i : nat) (tests : list bool) (a : Array) : res Array :=
  match tests with
  | [] => Ok a
  | b :: tests' =>
      a ← (if b then set_dynamic_dimension i true a else Ok a);
      mark_dynamic (S i) tests' a
  end.

Section Infer.
Context `{NativeTypes}.

(** ** Slices *)

Definition slice_size (d : Dim) (start_index limit_index stride : Z) : res Z :=
  guard_res (start_index >=? 0) InvalidArgument;;
  guard_res (is_unbounded_dynamic_dimension d || (limit_index <=? size d)) InvalidArgument;;
  guard_res (start_index <=? limit_index) InvalidArgument;;
  guard_res (stride >? 0) InvalidArgument;;
  extent ← s64 (limit_index - start_index);
  padded ← s64 (extent + stride);
  padded ← s64 (padded - 1);
  Ok (Z.quot padded stride).

Fixpoint slice_sizes (ds : list Dim) (starts limits strides : list Z) : res (list Z) :=
  match ds, starts, limits, strides with
  | d :: ds', s :: starts', l :: limits', st :: strides' =>
      n ← slice_size d s l st;
      ns ← slice_sizes ds' starts' limits' strides';
      Ok (n :: ns)
  | _, _, _, _ => Ok []
  end.

(** Slicing 1 out of a dynamic dimension makes it static. *)
Definition slice_is_dynamic (n : Z) (d : Dim) : bool :=
  if n =? 1 then false else is_bounded_dynamic_dimension d.

Definition InferSliceShape (arg : Shape) (starts limits strides : list Z) : res Array :=
  a ← ExpectArray arg;
  guard_res (bool_decide (length starts = length limits)) InvalidArgument;;
  guard_res (bool_decide (length starts = length strides)) InvalidArgument;;
  guard_res (bool_decide (length starts = rank a)) InvalidArgument;;
  ns ← slice_sizes (dims a) starts limits strides;
  MakeShape (element_type a) ns (zip_with slice_is_dynamic ns (dims a)).

(** ** Dynamic slices *)

(** The checks of the start indices, the same in [InferDynamicSliceShape] and
    [InferDynamicUpdateSliceShape]. *)
Definition check_start_indices (r : nat) (start_index_shapes : list Shape)
    (allow_scalar_indices : bool) : res unit :=
  one ← (if negb allow_scalar_indices then Ok true
         else match start_index_shapes with
              | [] => Ok false
              | s :: _ => a ← array_state s; Ok (rank a =? 1)%nat
              end);
  if (one : bool) then
    match start_index_shapes with
    | [s] =>
        a ← ExpectArray s;
        guard_res (rank a =? 1)%nat InvalidArgument;;
        guard_res (IsIntegralType (element_type a)) InvalidArgument;;
        d ← at_res (dims a) 0;
        guard_res (Z.of_nat r =? size d) InvalidArgument
    | _ => Fail InvalidArgument
    end
  else
    guard_res (r =? length start_index_shapes)%nat InvalidArgument;;
    match start_index_shapes with
    | [] => Ok tt
    | first :: _ =>
        scalar ← IsScalar first;
        guard_res scalar InvalidArgument;;
        guard_res (IsIntegralType (element_type_of first)) InvalidArgument;;
        guard_res (forallb (Compatible first) start_index_shapes) InvalidArgument
    end.

Fixpoint check_slice_sizes (ds : list Dim) (slice_sizes : list Z) : res unit :=
  match ds, slice_sizes with
  | d :: ds', n :: ns' =>
      guard_res (n >=? 0) InvalidArgument;;
      guard_res (IsUnboundedDynamicSize (size d) || (n <=? size d)) InvalidArgument;;
      check_slice_sizes ds' ns'
  | _, _ => Ok tt
  end.

Definition InferDynamicSliceShape (operand_shape : Shape) (start_index_shapes : list Shape)
    (slice_sizes : list Z) (allow_scalar_indices : bool) : res Array :=
  a ← ExpectArray operand_shape;
  check_start_indices (rank a) start_index_shapes allow_scalar_indices;;
  guard_res (length slice_sizes =? rank a)%nat InvalidArgument;;
  check_slice_sizes (dims a) slice_sizes;;
  result ← MakeShape2 (element_type a) slice_sizes;
  mark_dynamic 0
    (zip_with (λ d n, is_dynamic d && (n >? 1) && (n =? size d)) (dims a) slice_sizes) result.

Fixpoint check_update_sizes (ds us : list Dim) : res unit :=
  match ds, us with
  | d :: ds', u :: us' =>
      guard_res (IsUnboundedDynamicSize (size u) || (size u >=? 0)) InvalidArgument;;
      guard_res (size u <=? size d) InvalidArgument;;
      check_update_sizes ds' us'
  | _, _ => Ok tt
  end.

(** A copy of an array or buffer shape with its array state replaced. *)
Definition with_array_state (s : Shape) (a : Array) : Shape :=
  match s with BufferShape _ => BufferShape (ArrayShape a) | _ => ArrayShape a end.

Definition InferDynamicUpdateSliceShape (operand_shape update_shape : Shape)
    (start_index_shapes : list Shape) (allow_scalar_indices : bool) : res Shape :=
  guard_res (IsArray operand_shape) InvalidArgument;;
  u ← ExpectArray update_shape;
  a ← array_state operand_shape;
  check_start_indices (rank a) start_index_shapes allow_scalar_indices;;
  guard_res (rank u =? rank a)%nat InvalidArgument;;
  guard_res (SameElementTypeIgnoringFpPrecision a u) InvalidArgument;;
  check_update_sizes (dims a) (dims u);;
  result ← mark_dynamic 0
    (zip_with (λ d n, is_dynamic d || (is_dynamic n && (size n =? size d))) (dims a) (dims u)) a;
  Ok (with_array_state operand_shape result).

(** ** Reversal and transposition *)

Definition InferReverseShape (operand_shape : Shape) (dimensions : list Z) : res Array :=
  a ← ExpectArray operand_shape;
  guard_res (AllUnique dimensions) InvalidArgument;;
  guard_res (forallb (λ d, (0 <=? d) && (d <? Z.of_nat (rank a))) dimensions) InvalidArgument;;
  Ok a.

Definition InferTransposeShape (operand : Shape) (dimensions : list Z) : res Array :=
  a ← ExpectArray operand;
  guard_res (bool_decide (length dimensions = rank a) && PermUtil.IsPermutation dimensions)
    InvalidArgument;;
  PermuteDimensionsIgnoringLayout dimensions a.

(** ** Padding *)

Record PaddingConfigDimension := MkPadding {
  edge_padding_low : Z;
  edge_padding_high : Z;
  interior_padding : Z
}.

Definition pad_size (d : Dim) (p : PaddingConfigDimension) : res Z :=
  if is_unbounded_dynamic_dimension d then Ok kUnboundedSize
  else
    let '(product, overflow) :=
      WindowArith.OverflowSafeMultiply (Z.max (size d - 1) 0) (interior_padding p) in
    guard_res (negb overflow) InvalidArgument;;
    n ← s64 (size d + edge_padding_low p);
    n ← s64 (n + edge_padding_high p);
    n ← s64 (n + product);
    guard_res (n >=? 0) InvalidArgument;;
    Ok n.

Fixpoint pad_sizes (ds : list Dim) (config : list PaddingConfigDimension)
    : res (list Z) :=
  match ds, config with
  | d :: ds', p :: config' =>
      n ← pad_size d p;
      ns ← pad_sizes ds' config';
      Ok (n :: ns)
  | _, _ => Ok []
  end.

Definition InferPadShape (operand_shape padding_value_shape : Shape)
    (padding_config : list PaddingConfigDimension) : res Array :=
  a ← ExpectArray operand_shape;
  scalar ← IsScalar padding_value_shape;
  guard_res scalar InvalidArgument;;
  pv ← array_state padding_value_shape;
  guard_res (rank a =? length padding_config)%nat InvalidArgument;;
  guard_res (SameElementTypeIgnoringFpPrecision a pv) InvalidArgument;;
  guard_res (negb (existsb (λ p, interior_padding p <? 0) padding_config)) InvalidArgument;;
  guard_res (is_static padding_value_shape) InvalidArgument;;
  ns ← pad_sizes (dims a) padding_config;
  t ← HigherPrecisionElementType a pv;
  MakeShape t ns (is_dynamic <$> dims a).

(** ** Concatenation *)

Record DimAndBound := MkDimAndBound { dimension : Z; bound : Z }.

Definition InferConcatenatedDimAndBound (left_size right_size left_bound right_bound : Z)
    : res DimAndBound :=
  let is_left_static_dim := negb (IsUnboundedDynamicSize left_size) in
  let is_right_static_dim := negb (IsUnboundedDynamicSize right_size) in
  let is_left_static_bound := negb (IsUnboundedDynamicSize left_bound) in
  let is_right_static_bound := negb (IsUnboundedDynamicSize right_bound) in
  inferred_size ← (if is_left_static_dim && is_right_static_dim
                   then s64 (left_size + right_size) else Ok kUnboundedSize);
  inferred_bound ←
    (if is_left_static_bound || is_right_static_bound then
       let leftBoundOrSize := if is_left_static_bound then left_bound else left_size in
       let rightBoundOrSize := if is_right_static_bound then right_bound else right_size in
       if negb (IsUnboundedDynamicSize leftBoundOrSize) &&
          negb (IsUnboundedDynamicSize rightBoundOrSize)
       then s64 (leftBoundOrSize + rightBoundOrSize) else Ok kUnboundedSize
     else Ok kUnboundedSize);
  Ok (MkDimAndBound inferred_size inferred_bound).

Definition InferMostSpecificDimAndBound (left_size right_size left_bound right_bound : Z)
    : res DimAndBound :=
  let is_left_static_dim := negb (IsUnboundedDynamicSize left_size) in
  let is_right_static_dim := negb (IsUnboundedDynamicSize right_size) in
  let is_left_static_bound := negb (IsUnboundedDynamicSize left_bound) in
  let is_right_static_bound := negb (IsUnboundedDynamicSize right_bound) in
  inferred_bound ←
    (if is_left_static_bound || is_right_static_bound then
       guard_res (negb (is_left_static_bound && is_right_static_bound &&
                        negb (left_bound =? right_bound))) InvalidArgument;;
       Ok (if is_left_static_bound then left_bound else right_bound)
     else Ok kUnboundedSize);
  inferred_size ←
    (if is_left_static_dim || is_right_static_dim then
       guard_res (negb (is_left_static_dim && is_right_static_dim &&
                        negb (left_size =? right_size))) InvalidArgument;;
       let inferred_size := if is_left_static_dim then left_size else right_size in
       guard_res (negb (negb (IsUnboundedDynamicSize inferred_bound) &&
                        negb (inferred_size =? inferred_bound))) InvalidArgument;;
       Ok inferred_size
     else Ok kUnboundedSize);
  Ok (MkDimAndBound inferred_size inferred_bound).

(** The first loop of [InferConcatOpShape] over the arguments after the first:
    the element type of the result. *)
Fixpoint concat_check (arg_shape : Array) (t : PrimitiveType) (arg_shapes : list Shape)
    (axis : nat) : res PrimitiveType :=
  match arg_shapes with
  | [] => Ok t
  | s :: arg_shapes' =>
      a ← ExpectArray s;
      guard_res (rank arg_shape =? rank a)%nat InvalidArgument;;
      guard_res (SameElementTypeIgnoringFpPrecision arg_shape a) InvalidArgument;;
      guard_res
        (forallb (λ p : nat * (Dim * Dim),
           (p.1 =? axis)%nat || CompatibleDimensionSizes (size p.2.1) (size p.2.2))
           (imap pair (zip (dims arg_shape) (dims a)))) InvalidArgument;;
      t ← HigherPrecisionElementType a arg_shape;
      concat_check arg_shape t arg_shapes' axis
  end.

(** One dimension of one shape in the second loop. *)
Definition concat_dim (axis i : nat) (l : DimAndBound) (d : Dim) : res DimAndBound :=
  let right_bound := if is_dynamic d then size d else kUnboundedSize in
  if (i =? axis)%nat
  then InferConcatenatedDimAndBound (dimension l) (size d) (bound l) right_bound
  else InferMostSpecificDimAndBound (dimension l) (size d) (bound l) right_bound.

Fixpoint concat_dims (axis i : nat) (inferred : list DimAndBound) (ds : list Dim)
    : res (list DimAndBound) :=
  match inferred, ds with
  | l :: inferred', d :: ds' =>
      n ← concat_dim axis i l d;
      ns ← concat_dims axis (S i) inferred' ds';
      Ok (n :: ns)
  | _, _ => Ok []
  end.

Fixpoint concat_all (axis : nat) (inferred : list DimAndBound) (args : list Array)
    : res (list DimAndBound) :=
  match args with
  | [] => Ok inferred
  | a :: args' => inferred ← concat_dims axis 0 inferred (dims a); concat_all axis inferred args'
  end.

(** The sizes and bounds the second loop starts from. *)
Definition concat_start (axis r : nat) : list DimAndBound :=
  <[axis := MkDimAndBound 0 kUnboundedSize]>
    (replicate r (MkDimAndBound kUnboundedSize kUnboundedSize)).

Definition InferConcatOpShape (arg_shapes : list Shape) (axis : Z) : res Array :=
  match arg_shapes with
  | [] => Fail InvalidArgument
  | s :: arg_shapes' =>
      first ← array_state s;
      guard_res ((0 <=? axis) && (axis <? Z.of_nat (rank first))) InvalidArgument;;
      first ← ExpectArray s;
      t ← concat_check first (element_type first) arg_shapes' (Z.to_nat axis);
      args ← mapM ExpectArray arg_shapes;
      inferred ← concat_all (Z.to_nat axis) (concat_start (Z.to_nat axis) (rank first)) args;
      result ← MakeShape2 t (dimension <$> inferred);
      mark_dynamic 0
        ((λ n, negb (IsUnboundedDynamicSize (bound n)) || IsUnboundedDynamicSize (dimension n))
           <$> inferred) result
  end.

(** ** Windows *)

Record WindowDimension := MkWindowDimension {
  win_size : Z;
  stride : Z;
  padding_low : Z;
  padding_high : Z;
  window_dilation : Z;
  base_dilation : Z;
  window_reversal : bool
}.

Definition window_output_size (d : Dim) (w : WindowDimension) : res Z :=
  guard_res (win_size w >? 0) InvalidArgument;;
  guard_res (stride w >? 0) InvalidArgument;;
  guard_res (base_dilation w >=? 1) InvalidArgument;;
  guard_res (window_dilation w >=? 1) InvalidArgument;;
  if IsUnboundedDynamicSize (size d) then Ok kUnboundedSize
  else
    dilated_base ← WindowArith.DilatedBound (size d) (base_dilation w);
    padded ← s64 (padding_low w + dilated_base);
    padded_dilated_base ← s64 (padded + padding_high w);
    dilated_window ← WindowArith.DilatedBound (win_size w) (window_dilation w);
    WindowArith.StridedBound padded_dilated_base dilated_window (stride w).

Fixpoint window_output_sizes (ds : list Dim) (window : list WindowDimension) : res (list Z) :=
  match ds, window with
  | d :: ds', w :: window' =>
      n ← window_output_size d w;
      ns ← window_output_sizes ds' window';
      Ok (n :: ns)
  | _, _ => Ok []
  end.

Definition InferWindowOutputShape (base_shape : Array) (window : list WindowDimension)
    (t : PrimitiveType) : res Array :=
  guard_res (length window =? rank base_shape)%nat InvalidArgument;;
  ns ← window_output_sizes (dims base_shape) window;
  MakeValidatedShape t ns (is_dynamic <$> dims base_shape).

(** [None] is an optional argument left out, an empty list one given empty. *)
Definition InferWindowFromDimensions (window_dimensions window_strides : list Z)
    (padding : list (Z * Z)) (lhs_dilation rhs_dilation : list Z)
    (window_reversal : option (list bool)) : res (list WindowDimension) :=
  let verify_size (x : nat) : res unit :=
    guard_res ((x =? 0)%nat || (x =? length window_dimensions)%nat) InvalidArgument in
  verify_size (length window_strides);;
  verify_size (length padding);;
  verify_size (length lhs_dilation);;
  verify_size (length rhs_dilation);;
  (match window_reversal with Some l => verify_size (length l) | None => Ok tt end);;
  Ok (imap (λ i sz,
        MkWindowDimension sz
          (nth i window_strides 1)
          (nth i padding (0, 0)).1
          (nth i padding (0, 0)).2
          (nth i rhs_dilation 1)
          (nth i lhs_dilation 1)
          (match window_reversal with Some l => nth i l false | None => false end))
      window_dimensions).

(** ** Dimension sizes *)

Definition int32_max : Z := 2 ^ 31 - 1.

Definition InferGetDimensionSizeShape (s : Shape) (dim : Z) : res Array :=
  a ← array_state s;
  guard_res ((0 <=? dim) && (dim <? Z.of_nat (rank a))) InvalidArgument;;
  d ← at_res (dims a) (Z.to_nat dim);
  guard_res (size d <=? int32_max) InvalidArgument;;
  MakeShape2 S32 [].

Definition InferSetDimensionSizeShape (s val_shape : Shape) (dim : Z) : res Shape :=
  a ← array_state s;
  guard_res ((0 <=? dim) && (dim <? Z.of_nat (rank a))) InvalidArgument;;
  v ← array_state val_shape;
  guard_res ((rank v =? 0)%nat && bool_decide (element_type_of val_shape = S32)) InvalidArgument;;
  d ← at_res (dims a) (Z.to_nat dim);
  guard_res (size d <=? int32_max) InvalidArgument;;
  result ← set_dynamic_dimension (Z.to_nat dim) true a;
  Ok (with_array_state s result).

End Infer.
End ShapeInfer.
