(* ===== verification/SliceProofs.v ===== *)
(** * Slices, padding and windows of a shape *)
From S2P Require Import Prelude WindowArith Types PermUtil Shape ShapeProofs ShapeInfer.

Module SliceProofs.
Import WindowArith Types Shape ShapeProofs ShapeInfer.
#[local] Opaque WindowArith.OverflowSafeMultiply.

Section Infer.
Context `{NativeTypes}.

(** An array without unbounded dimensions whose byte size, at [w] bytes an
    element, is a 64-bit integer. *)
Record static_array (w : Z) (a : Array) : Prop := StaticArray {
  st_width : ByteWidth (element_type a) = Ok w;
  st_pos : 0 ≤ w;
  st_dims : Forall (λ d, 0 ≤ size d ≤ int64_max) (dims a);
  st_fits : fits w (sizes a)
}.

Lemma bounded_size d : 0 ≤ size d → is_unbounded_dynamic_dimension d = false.
Proof.
  intros H0. apply Z.eqb_neq. unfold kUnboundedSize. int_lia.
Qed.

(** Non-negative sizes that fit make a shape. *)
Lemma shape_fits_intro w ns dyn :
  length dyn = length ns → Forall (λ n, 0 ≤ n) ns → fits w ns → shape_fits w ns dyn.
Proof.
  intros Hl Hn Hf. split; [done |].
  assert (Es : size <$> zip_with MkDim ns dyn = ns) by (apply fmap_zip_with_l; [done | lia]).
  split.
  - apply Forall_forall. intros d Hd. unfold IsValidDimensionSize.
    assert (0 ≤ size d).
    { rewrite Forall_forall in Hn. apply Hn. rewrite <- Es. by apply list_elem_of_fmap_2. }
    by rewrite (proj2 (Z.geb_le _ _)).
  - unfold static_sizes. rewrite Es, list_filter_all; [done |].
    eapply Forall_impl; [apply Hn |]. intros n ?. simpl in *. unfold kUnboundedSize. int_lia.
Qed.

(** ** Slices *)

(** The bounds of one dimension: start, limit and stride. *)
Definition slice_valid (d : Dim) (b : Z * Z * Z) : Prop :=
  let '(s, l, st) := b in 0 ≤ s ≤ l ∧ l ≤ size d ∧ 0 < st ∧ l - s + st ≤ int64_max.

(** The sliced dimension holds exactly the indices [s], [s + st], ... below [l]. *)
Definition sliced (d : Dim) (b : Z * Z * Z) (e : Dim) : Prop :=
  let '(s, l, st) := b in
  0 ≤ size e ∧ (∀ k, 0 ≤ k → k < size e ↔ s + k * st < l) ∧
  is_dynamic e = (if size e =? 1 then false else is_bounded_dynamic_dimension d).

Lemma slice_size_spec d s l st :
  0 ≤ size d ≤ int64_max → slice_valid d (s, l, st) →
  ∃ n, slice_size d s l st = Ok n ∧ 0 ≤ n ≤ size d ∧ ∀ k, 0 ≤ k → k < n ↔ s + k * st < l.
Proof.
  intros Hd (Hs & Hl & Hst & Hm). unfold slice_size, guard_res.
  rewrite (bounded_size d) by lia. simpl.
  rewrite (proj2 (Z.geb_le s 0)) by lia. rewrite !(proj2 (Z.leb_le _ _)) by lia.
  rewrite (proj2 (Z.gtb_lt st 0)) by lia. simpl.
  rewrite (s64_in (l - s)) by int_lia. simpl. rewrite (s64_in (l - s + st)) by int_lia. simpl.
  rewrite (s64_in (l - s + st - 1)) by int_lia. simpl.
  rewrite Z.quot_div_nonneg by lia. eexists. split; [done |].
  assert (Hc : ∀ k, 0 ≤ k → k < (l - s + st - 1) / st ↔ s + k * st < l).
  { intros k Hk. split.
    - intros Hlt. pose proof (Z.mul_div_le (l - s + st - 1) st Hst). nia.
    - intros Hlt. apply Z.lt_le_trans with (k + 1); [lia |]. apply Z.div_le_lower_bound; nia. }
  assert (0 ≤ (l - s + st - 1) / st) by (apply Z.div_pos; lia). split; [| done].
  split; [done |]. destruct (decide ((l - s + st - 1) / st ≤ size d)) as [| Hgt]; [done |].
  specialize (Hc (size d) ltac:(lia)). nia.
Qed.

Lemma slice_sizes_spec ds bs :
  Forall (λ d, 0 ≤ size d ≤ int64_max) ds → Forall2 slice_valid ds bs →
  ∃ ns, slice_sizes ds bs.*1.*1 bs.*1.*2 bs.*2 = Ok ns ∧
    Forall2 (λ n d, 0 ≤ n ≤ size d) ns ds ∧
    Forall3 sliced ds bs (zip_with MkDim ns (zip_with slice_is_dynamic ns ds)).
Proof.
  intros Hd Hb. induction Hb as [| d [[s l] st] ds bs Hv Hb IH].
  { exists []. split; [done |]. split; constructor. }
  apply Forall_cons in Hd as [Hd0 Hd].
  destruct (slice_size_spec d s l st Hd0 Hv) as (n & E & Hn & Hc).
  destruct (IH Hd) as (ns & E' & H1 & H2). exists (n :: ns).
  rewrite !fmap_cons. cbn [fst snd slice_sizes]. rewrite E. cbn [mbind res_bind]. rewrite E'.
  split; [done |].
  split; [by constructor |]. simpl. constructor; [| done]. simpl. split; [lia | done].
Qed.

(** [InferSliceShape] on bounds within a static array keeps the element type and
    yields, in each dimension, exactly the number of indices
    [start + k * stride] below the limit; nothing overflows as long as
    [limit - start + stride] does not. *)
Theorem InferSliceShape_counts w a bs :
  static_array w a → Forall2 slice_valid (dims a) bs →
  ∃ r, InferSliceShape (ArrayShape a) bs.*1.*1 bs.*1.*2 bs.*2 = Ok r ∧
    element_type r = element_type a ∧ Forall3 sliced (dims a) bs (dims r).
Proof.
  intros [Hw Hw0 Hd Hf] Hb. unfold InferSliceShape. simpl.
  pose proof (Forall2_length _ _ _ Hb) as Hlen. rewrite !length_fmap. unfold rank.
  rewrite !bool_decide_true by (by rewrite ?Hlen). simpl.
  destruct (slice_sizes_spec (dims a) bs Hd Hb) as (ns & -> & H1 & H2). simpl.
  pose proof (Forall2_length _ _ _ H1) as Hns.
  rewrite (MakeShape_ok _ w); [| done | done |].
  - eexists. split; [done |]. done.
  - apply shape_fits_intro.
    + rewrite length_zip_with. lia.
    + clear -H1. induction H1 as [| n d ns ds Hn _ IH]; constructor; [lia | done].
    + apply (fits_le w (sizes a)); [lia | | done]. unfold sizes. clear -H1.
      induction H1; simpl; constructor; [lia | done].
Qed.

(** ** Padding *)

Definition pad_valid (d : Dim) (p : PaddingConfigDimension) : Prop :=
  0 ≤ interior_padding p ∧ 0 ≤ edge_padding_low p ∧ 0 ≤ edge_padding_high p ∧
  edge_padding_low p + size d + Z.max (size d - 1) 0 * interior_padding p + edge_padding_high p
    ≤ int64_max.

Definition padded_size (d : Dim) (p : PaddingConfigDimension) : Z :=
  edge_padding_low p + size d + Z.max (size d - 1) 0 * interior_padding p + edge_padding_high p.

Lemma pad_size_spec d p :
  0 ≤ size d → pad_valid d p → pad_size d p = Ok (padded_size d p).
Proof.
  intros Hd (Hi & Hl & Hh & Hm). unfold pad_size, padded_size in *.
  rewrite bounded_size by done.
  assert (0 ≤ Z.max (size d - 1) 0 * interior_padding p) by nia.
  rewrite WindowArith.mul_safe by lia. simpl.
  rewrite s64_in by int_lia. simpl. rewrite s64_in by int_lia. simpl. rewrite s64_in by int_lia.
  simpl. unfold guard_res. rewrite (proj2 (Z.geb_le _ _)) by lia. simpl. f_equal. lia.
Qed.

Lemma pad_sizes_spec ds ps :
  Forall (λ d, 0 ≤ size d ≤ int64_max) ds → Forall2 pad_valid ds ps →
  pad_sizes ds ps = Ok (zip_with padded_size ds ps).
Proof.
  intros Hd Hp. induction Hp as [| d p ds ps Hv _ IH]; simpl; [done |].
  apply Forall_cons in Hd as [Hd0 Hd]. rewrite pad_size_spec by (done || lia). simpl.
  by rewrite IH.
Qed.

(** The slice that takes the operand out of its padding. *)
Definition unpad (d : Dim) (p : PaddingConfigDimension) : Z * Z * Z :=
  (edge_padding_low p,
   edge_padding_low p + (if size d =? 0 then 0 else (size d - 1) * (interior_padding p + 1) + 1),
   interior_padding p + 1).

Lemma unpad_valid d p b :
  0 ≤ size d → pad_valid d p → padded_size d p + interior_padding p + 1 ≤ int64_max →
  slice_valid (MkDim (padded_size d p) b) (unpad d p).
Proof.
  intros Hd (Hi & Hl & Hh & Hm) Hb. unfold unpad, slice_valid, padded_size in *. simpl.
  destruct (Z.eqb_spec (size d) 0) as [E |]; [rewrite E in *; simpl in *; lia |].
  rewrite Z.max_l in * by lia. nia.
Qed.

Lemma unpad_size d p e e' :
  0 ≤ size d → pad_valid d p → sliced e (unpad d p) e' → size e' = size d.
Proof.
  intros Hd (Hi & Hl & Hh & Hm) (H0 & Hc & _).
  destruct (Z.eqb_spec (size d) 0) as [E |].
  - pose proof (Hc 0). lia.
  - assert (H1 : size d - 1 < size e') by (apply Hc; lia).
    destruct (decide (size d < size e')) as [Hlt |]; [| lia].
    apply Hc in Hlt; [| done]. nia.
Qed.

(** A dimension of size 1 is static after slicing. *)
Definition settled (d : Dim) : Dim := MkDim (size d) (if size d =? 1 then false else is_dynamic d).

Lemma settled_id ds : Forall (λ d, size d = 1 → is_dynamic d = false) ds → settled <$> ds = ds.
Proof.
  induction 1 as [| d ds Hd _ IH]; [done |]. rewrite fmap_cons, IH. f_equal. unfold settled.
  destruct (Z.eqb_spec (size d) 1) as [E |]; [rewrite <- (Hd E) |]; by destruct d.
Qed.

Lemma unpad_dim d p e :
  0 ≤ size d → pad_valid d p → sliced (MkDim (padded_size d p) (is_dynamic d)) (unpad d p) e → e = settled d.
Proof.
  intros Hd Hv He. pose proof (unpad_size d p _ e Hd Hv He) as Es. destruct Hv as (Hi & Hl & Hh & _), He as (_ & _ & Hdyn).
  destruct e as [n b]. unfold settled. cbn [size is_dynamic] in *. subst n. f_equal. rewrite Hdyn.
  destruct (size d =? 1); [done |]. unfold is_bounded_dynamic_dimension.
  rewrite bounded_size by (cbn [size]; unfold padded_size; nia). cbn [is_dynamic negb]. by destruct (is_dynamic d).
Qed.

(** C40: [InferPadShape] with non-negative padding computes
    [low + size + (size - 1) * interior + high] in each dimension, and
    [InferSliceShape] with the matching start, limit and stride gives the operand back,
    except that a dynamic dimension of size 1 comes back static: without one, the result
    is the operand shape itself. *)
Theorem InferPadShape_slice w a pv ps :
  static_array w a → element_type pv = element_type a → dims pv = [] →
  Forall2 pad_valid (dims a) ps → fits w (zip_with padded_size (dims a) ps) →
  Forall2 (λ d p, padded_size d p + interior_padding p + 1 ≤ int64_max) (dims a) ps →
  ∃ r r', InferPadShape (ArrayShape a) (ArrayShape pv) ps = Ok r ∧
    sizes r = zip_with padded_size (dims a) ps ∧
    is_dynamic <$> dims r = is_dynamic <$> dims a ∧
    InferSliceShape (ArrayShape r) (zip_with unpad (dims a) ps).*1.*1
      (zip_with unpad (dims a) ps).*1.*2 (zip_with unpad (dims a) ps).*2 = Ok r' ∧
    r' = MkArray (element_type a) (settled <$> dims a) ∧
    (Forall (λ d, size d = 1 → is_dynamic d = false) (dims a) → r' = a).
Proof.
  intros [Hw Hw0 Hd Hf] Ht Hpv Hp Hpf Hb. pose proof (Forall2_length _ _ _ Hp) as Hlen.
  set (ns := zip_with padded_size (dims a) ps).
  set (r := MkArray (element_type a) (zip_with MkDim ns (is_dynamic <$> dims a))).
  assert (Hnl : length ns = length (dims a)) by (unfold ns; rewrite length_zip_with; lia).
  assert (Hn0 : Forall (λ n, 0 ≤ n ≤ int64_max) ns).
  { unfold ns. clear -Hd Hp. induction Hp as [| d p ds ps (?&?&?&?) _ IH]; simpl; [constructor |].
    apply Forall_cons in Hd as [? Hd]. constructor; [unfold padded_size; nia | by apply IH]. }
  assert (Er : InferPadShape (ArrayShape a) (ArrayShape pv) ps = Ok r).
  { unfold InferPadShape, IsScalar, rank. simpl. unfold rank. rewrite Hpv. simpl.
    rewrite Hlen, Nat.eqb_refl. simpl.
    assert (E1 : SameElementTypeIgnoringFpPrecision a pv = true).
    { unfold SameElementTypeIgnoringFpPrecision, SameElementType. rewrite Ht.
      destruct (_ && _); [done |]. by apply bool_decide_eq_true. }
    rewrite E1. simpl.
    assert (E2 : existsb (λ p, interior_padding p <? 0) ps = false).
    { clear -Hp. induction Hp as [| d p ds ps (?&_) _ IH]; simpl; [done |].
      by rewrite IH, (proj2 (Z.ltb_ge _ _)). }
    rewrite E2. simpl. unfold array_is_static. rewrite Hpv. simpl.
    rewrite pad_sizes_spec by done. fold ns. simpl.
    unfold HigherPrecisionElementType. rewrite Ht, HigherPrecisionType_refl by by eapply ByteWidth_type.
    simpl. apply (MakeShape_ok _ w); [done | done |]. apply shape_fits_intro; [| | done].
    - by rewrite length_fmap.
    - eapply Forall_impl; [apply Hn0 |]. simpl. lia. }
  assert (Es : sizes r = ns).
  { unfold sizes, r. simpl. apply fmap_zip_with_l; [done | rewrite length_fmap; lia]. }
  destruct (InferSliceShape_counts w r (zip_with unpad (dims a) ps)) as (r' & E' & Et & H3).
  - split; [done | done | | by rewrite Es].
    apply Forall_fmap with (f := size) (P := λ n, 0 ≤ n ≤ int64_max).
    change (Forall (λ n, 0 ≤ n ≤ int64_max) (sizes r)). by rewrite Es.
  - unfold r, ns. simpl. clear -Hd Hp Hb. revert Hb.
    induction Hp as [| d p ds ps Hv _ IH]; intros Hb; simpl; [constructor |].
    apply Forall_cons in Hd as [? Hd]. apply Forall2_cons in Hb as [? Hb].
    constructor; [apply unpad_valid; (done || lia) | by apply IH].
  - exists r, r'. split; [done |]. split; [done |]. split.
    { unfold r. simpl. apply fmap_zip_with_r; [done | rewrite length_fmap; lia]. }
    split; [done |]. assert (Ed : dims r' = settled <$> dims a).
    { revert H3. unfold r, ns. simpl. generalize (dims r'). clear -Hd Hp.
      induction Hp as [| d p ds ps Hv _ IH]; simpl; intros l H3; inversion H3; subst; simpl; [done |].
      apply Forall_cons in Hd as [? Hd]. f_equal; [| by apply IH].
      eapply unpad_dim; [| done | done]. lia. }
    assert (Er' : r' = MkArray (element_type a) (settled <$> dims a)) by (destruct r'; cbn in *; congruence).
    split; [done |]. intros Hs. rewrite Er', settled_id by done. by destruct a.
Qed.

(** ** Windows *)

Definition window_valid (d : Dim) (w : WindowDimension) : Prop :=
  0 < win_size w ∧ 0 < stride w ∧ 1 ≤ base_dilation w ∧ 1 ≤ window_dilation w ∧
  (size d - 1) * base_dilation w < int64_max ∧
  (win_size w - 1) * window_dilation w < int64_max.

(** The extents of the dilated base with its padding, and of the dilated window. *)
Definition dilated (n d : Z) : Z := if n =? 0 then 0 else (n - 1) * d + 1.
Definition padded_base (d : Dim) (w : WindowDimension) : Z :=
  padding_low w + dilated (size d) (base_dilation w) + padding_high w.

(** For a bounded dimension and valid strides and dilations, the output size
    is the number of positions [k * stride] at which the dilated window lies
    within the padded dilated base, as long as padding leaves it a
    non-negative extent; with a negative extent the process aborts. *)
Theorem window_output_size_counts d w :
  0 ≤ size d → window_valid d w →
  in_int64 (padding_low w + dilated (size d) (base_dilation w)) →
  in_int64 (padded_base d w) →
  (padded_base d w < 0 → window_output_size d w = Fail CheckFailed) ∧
  (0 ≤ padded_base d w →
   ∃ n, window_output_size d w = Ok n ∧ 0 ≤ n ∧
     ∀ k, 0 ≤ k → k < n ↔
       k * stride w + dilated (win_size w) (window_dilation w) ≤ padded_base d w).
Proof.
  intros Hd (H1 & H2 & H3 & H4 & H5 & H6) Hp Hp'.
  assert (Hdil : 0 < dilated (win_size w) (window_dilation w)).
  { unfold dilated. destruct (Z.eqb_spec (win_size w) 0); [lia | nia]. }
  assert (Hg : window_output_size d w =
    StridedBound (padded_base d w) (dilated (win_size w) (window_dilation w)) (stride w)).
  { unfold window_output_size, guard_res.
    rewrite !(proj2 (Z.gtb_lt _ _)) by lia. rewrite !(proj2 (Z.geb_le _ _)) by lia.
    cbn [mbind res_bind]. unfold IsUnboundedDynamicSize.
    fold (is_unbounded_dynamic_dimension d). rewrite (bounded_size d Hd).
    rewrite (DilatedBound_ok (size d)) by lia. cbn [mbind res_bind].
    fold (dilated (size d) (base_dilation w)). rewrite s64_in by done. cbn [mbind res_bind].
    fold (padded_base d w). rewrite s64_in by done. cbn [mbind res_bind].
    by rewrite DilatedBound_ok by lia. }
  rewrite Hg. split.
  - intros Hneg. unfold StridedBound, guard_res.
    rewrite (proj2 (Z.leb_le 0 (dilated _ _))) by lia. cbn [mbind res_bind].
    by rewrite (proj2 (Z.leb_gt 0 (padded_base d w))).
  - intros Hpos. rewrite StridedBound_ok by (lia || (int_unfold; lia)).
    set (b := padded_base d w) in *. set (v := dilated (win_size w) (window_dilation w)) in *.
    destruct ((b =? 0) || (v >? b)) eqn:Eb.
    + exists 0. split; [done |]. split; [lia |]. intros k Hk.
      assert (b < v) by (apply orb_true_iff in Eb as [?%Z.eqb_eq | ?%Z.gtb_lt]; lia).
      split; [lia | nia].
    + apply orb_false_iff in Eb as [_ Eb]. assert (v ≤ b) by lia.
      eexists. split; [done |]. assert (0 ≤ (b - v) / stride w) by (apply Z.div_pos; lia).
      split; [lia |]. intros k Hk. split.
      * intros Hlt. pose proof (Z.mul_div_le (b - v) (stride w) H2). nia.
      * intros Hle. assert (k ≤ (b - v) / stride w) by (apply Z.div_le_lower_bound; lia). lia.
Qed.

End Infer.

(** ** Instances *)

Definition demo : Array := MkArray F32 [MkDim 10 false; MkDim 4 true].

Lemma demo_static : static_array 4 demo.
Proof.
  split; [reflexivity | lia | | ].
  - repeat constructor; simpl; int_lia.
  - apply (bool_decide_unpack _). vm_compute. exact I.
Qed.

Lemma InferSliceShape_counts_witness :
  ∃ r, InferSliceShape (ArrayShape demo) [1; 0] [9; 4] [3; 1] = Ok r ∧
    r = MkArray F32 [MkDim 3 false; MkDim 4 true].
Proof.
  destruct (InferSliceShape_counts 4 demo [(1, 9, 3); (0, 4, 1)] demo_static) as (r & E & _).
  - repeat constructor; simpl; int_lia.
  - exists r. split; [exact E |]. vm_compute in E. by injection E.
Defined.

Lemma InferPadShape_slice_witness :
  ∃ r, InferPadShape (ArrayShape demo) (ArrayShape (MkArray F32 []))
         [MkPadding 1 2 3; MkPadding 0 0 1] = Ok r ∧ sizes r = [40; 7] ∧
    InferSliceShape (ArrayShape r) [1; 0] [38; 7] [4; 2] = Ok demo.
Proof.
  destruct (InferPadShape_slice 4 demo (MkArray F32 []) [MkPadding 1 2 3; MkPadding 0 0 1])
    as (r & r' & E & Es & _ & Er & _ & Ha); [apply demo_static | reflexivity | reflexivity | | | |].
  - repeat constructor; simpl; int_lia.
  - apply (bool_decide_unpack _). vm_compute. exact I.
  - repeat constructor; vm_compute; discriminate.
  - exists r. split; [exact E |]. split; [exact Es |]. rewrite Ha in Er; [exact Er |].
    repeat constructor; cbn; discriminate.
Defined.

(** A dynamic dimension of size 1 comes back static. *)
Example pad_slice_settles :
  (r ← InferPadShape (ArrayShape (MkArray F32 [MkDim 1 true])) (ArrayShape (MkArray F32 [])) [MkPadding 1 1 0];
   InferSliceShape (ArrayShape r) [1] [2] [1]) = Ok (MkArray F32 [MkDim 1 false]).
Proof. vm_compute. reflexivity. Qed.

(** A 3-wide window with stride 2 on 10 elements, and one whose padding cuts the
    base away. *)
Lemma window_output_size_counts_witness :
  window_output_size (MkDim 10 false) (MkWindowDimension 3 2 0 0 1 1 false) = Ok 4 ∧
  window_output_size (MkDim 3 false) (MkWindowDimension 1 1 (-5) 0 1 1 false) = Fail CheckFailed.
Proof.
  split.
  - destruct (window_output_size_counts (MkDim 10 false) (MkWindowDimension 3 2 0 0 1 1 false))
      as [_ H]; [simpl; lia | repeat split; simpl; int_lia | split; vm_compute; discriminate.. |].
    destruct H as (n & E & _); [vm_compute; discriminate |]. vm_compute in E. injection E as <-.
    reflexivity.
  - destruct (window_output_size_counts (MkDim 3 false) (MkWindowDimension 1 1 (-5) 0 1 1 false))
      as [H _]; [simpl; lia | repeat split; simpl; int_lia | split; vm_compute; discriminate.. |].
    apply H. vm_compute. reflexivity.
Defined.

End SliceProofs.
