(* ===== verification/ConcatProofs.v ===== *)
(** * Concatenation, transposition and dynamic slices of shapes *)
From S2P Require Import Prelude WindowArith Types PermUtil Shape ShapeProofs ShapeInfer SliceProofs.

Module ConcatProofs.
Import Types Shape ShapeProofs ShapeInfer SliceProofs.

(** ** Marking dimensions dynamic *)

Definition marked (d : Dim) (b : bool) : Dim := MkDim (size d) (is_dynamic d || b).

Lemma mark_dynamic_spec pre ds tests t :
  length tests = length ds → Forall (λ d, 0 ≤ size d ∨ size d = kUnboundedSize) ds →
  mark_dynamic (length pre) tests (MkArray t (pre ++ ds)) =
    Ok (MkArray t (pre ++ zip_with marked ds tests)).
Proof.
  revert pre ds. induction tests as [| b tests IH]; intros pre [| d ds] Hl Hd; try done; simpl.
  apply Forall_cons in Hd as [Hd0 Hd].
  assert (E : (if b then set_dynamic_dimension (length pre) true (MkArray t (pre ++ d :: ds))
               else Ok (MkArray t (pre ++ d :: ds))) =
              Ok (MkArray t ((pre ++ [marked d b]) ++ ds))).
  { rewrite <- app_assoc. simpl. unfold marked. destruct b.
    - unfold set_dynamic_dimension, at_res. cbn [dims element_type].
      rewrite list_lookup_middle by done. cbn [mbind res_bind].
      assert (Ec : CheckDimensionSize (size d) true = Ok tt).
      { apply CheckDimensionSize_ok. unfold IsValidDimensionSize.
        destruct Hd0 as [H | ->]; [by rewrite (proj2 (Z.geb_le _ _)) | by rewrite Z.eqb_refl]. }
      rewrite Ec. simpl. do 2 f_equal. rewrite insert_app_r_alt, Nat.sub_diag by lia. simpl.
      by rewrite orb_true_r.
    - rewrite orb_false_r. by destruct d. }
  rewrite E. simpl. replace (S (length pre)) with (length (pre ++ [marked d b]))
    by (rewrite length_app; simpl; lia).
  rewrite IH; [| by simplify_eq/= | done]. by rewrite <- app_assoc.
Qed.

Lemma mark_dynamic_all tests a :
  length tests = rank a → Forall (λ d, 0 ≤ size d ∨ size d = kUnboundedSize) (dims a) →
  mark_dynamic 0 tests a = Ok (MkArray (element_type a) (zip_with marked (dims a) tests)).
Proof.
  intros Hl Hd. destruct a as [t ds]. apply (mark_dynamic_spec [] ds tests t); done.
Qed.

(** ** Concatenation *)

Section Concat.
Context `{NativeTypes}.

(** The dimensions at position [k]. *)
Definition column (k : nat) (l : list Array) : list Dim := omap (λ a, dims a !! k) l.
Definition total (ds : list Dim) : Z := foldr (λ d n, size d + n) 0 ds.

Definition common_size (ds : list Dim) : Z := match ds with [] => 0 | d :: _ => size d end.

(** Dimension [k] of the concatenation along [axis]: the sum of the sizes there,
    the common size elsewhere; dynamic when any operand is. *)
Definition cat_dim (axis : nat) (l : list Array) (k : nat) : Dim :=
  MkDim (if decide (k = axis) then total (column k l) else common_size (column k l))
        (existsb is_dynamic (column k l)).

Lemma column_snoc k l a : column k (l ++ [a]) = column k l ++ omap (λ a, dims a !! k) [a].
Proof. apply omap_app. Qed.

Lemma total_app l d : total (l ++ [d]) = total l + size d.
Proof. unfold total. induction l as [| e l IH]; simpl; [lia |]. rewrite IH. lia. Qed.

Lemma total_nonneg l : Forall (λ d, 0 ≤ size d) l → 0 ≤ total l.
Proof. induction 1 as [| d l Hd _ IH]; simpl; lia. Qed.

Lemma static_unb n : 0 ≤ n → IsUnboundedDynamicSize n = false.
Proof. intros Hn. apply Z.eqb_neq. unfold kUnboundedSize. int_lia. Qed.

Lemma unbounded_unb : IsUnboundedDynamicSize kUnboundedSize = true.
Proof. done. Qed.

(** Decide the tests of a merge of two dimensions. *)
Ltac merge_dims :=
  repeat (progress (cbn [negb andb orb mbind res_bind guard_res];
    rewrite ?unbounded_unb, ?Z.eqb_refl;
    try match goal with
        | |- context [IsUnboundedDynamicSize ?n] => rewrite (static_unb n) by lia
        | |- context [s64 ?n] => rewrite (s64_in n) by int_lia
        end)).

(** The size and the bound after the operands with the dimensions [c]. *)
Definition cat_state (axis k : nat) (c : list Dim) : DimAndBound :=
  if decide (k = axis) then
    MkDimAndBound (total c) (if existsb is_dynamic c then total c else kUnboundedSize)
  else match c with
       | [] => MkDimAndBound kUnboundedSize kUnboundedSize
       | d :: _ => MkDimAndBound (size d) (if existsb is_dynamic c then size d else kUnboundedSize)
       end.

Lemma concat_dim_axis k c d :
  Forall (λ d, 0 ≤ size d) c → 0 ≤ size d → total c + size d ≤ int64_max →
  concat_dim k k (cat_state k k c) d = Ok (cat_state k k (c ++ [d])).
Proof.
  intros Hc Hd Hm. pose proof (total_nonneg c Hc). unfold concat_dim, cat_state.
  rewrite Nat.eqb_refl, !decide_True by done. cbn [dimension bound].
  rewrite total_app, existsb_app. cbn [existsb]. rewrite orb_false_r.
  unfold InferConcatenatedDimAndBound.
  destruct (existsb is_dynamic c), (is_dynamic d); merge_dims; done.
Qed.

Lemma concat_dim_other axis k c d :
  k ≠ axis → Forall (λ e, size e = size d) c → 0 ≤ size d →
  concat_dim axis k (cat_state axis k c) d = Ok (cat_state axis k (c ++ [d])).
Proof.
  intros Hk Hc Hd. unfold concat_dim, cat_state.
  rewrite (proj2 (Nat.eqb_neq k axis)), !decide_False by done.
  unfold InferMostSpecificDimAndBound. destruct c as [| e c]; cbn [app existsb dimension bound].
  - rewrite orb_false_r. destruct (is_dynamic d); merge_dims; done.
  - apply Forall_cons in Hc as [He _]. rewrite He, existsb_app. cbn [existsb].
    rewrite orb_false_r, orb_assoc.
    destruct (is_dynamic e || existsb is_dynamic c), (is_dynamic d); merge_dims; done.
Qed.

Lemma concat_dims_spec axis j inferred ds out :
  length inferred = length ds → length out = length ds →
  (∀ k l d o, inferred !! k = Some l → ds !! k = Some d → out !! k = Some o →
     concat_dim axis (j + k) l d = Ok o) →
  concat_dims axis j inferred ds = Ok out.
Proof.
  revert j inferred out. induction ds as [| d ds IH]; intros j [| l inferred] [| o out] Hl Ho Hs;
    try done. cbn [concat_dims].
  assert (E : concat_dim axis j l d = Ok o).
  { rewrite <- (Nat.add_0_r j). by apply (Hs 0%nat). }
  rewrite E. cbn [mbind res_bind]. rewrite (IH (S j) inferred out); [done | by simplify_eq/=.. |].
  intros k l' d' o' H1 H2 H3. replace (S j + k)%nat with (j + S k)%nat by lia. by apply (Hs (S k)).
Qed.

(** Operands that agree off the axis. *)
Record alike (axis r : nat) (t : PrimitiveType) (args : list Array) : Prop := Alike {
  al_axis : (axis < r)%nat;
  al_rank a : a ∈ args → rank a = r;
  al_type a : a ∈ args → element_type a = t;
  al_dims a : a ∈ args → Forall (λ d, 0 ≤ size d ≤ int64_max) (dims a);
  al_same k : k ≠ axis → ∀ d e, d ∈ column k args → e ∈ column k args → size d = size e;
  al_total : total (column axis args) ≤ int64_max
}.

Lemma column_elem k l d : d ∈ column k l ↔ ∃ a, a ∈ l ∧ dims a !! k = Some d.
Proof. unfold column. rewrite list_elem_of_omap. done. Qed.

Lemma column_nonneg axis r t args k : alike axis r t args → Forall (λ d, 0 ≤ size d) (column k args).
Proof.
  intros Ha. apply Forall_forall. intros d (a & Hin & Hd)%column_elem.
  pose proof (al_dims _ _ _ _ Ha a Hin) as H'. rewrite Forall_lookup in H'.
  by apply (H' k).
Qed.

Lemma total_prefix pre post :
  Forall (λ d, 0 ≤ size d) post → total pre ≤ total (pre ++ post).
Proof.
  intros Hp. induction pre as [| d pre IH]; simpl; [by apply total_nonneg |]. unfold total in *. lia.
Qed.

Lemma concat_all_spec axis r t pre args :
  alike axis r t (pre ++ args) →
  concat_all axis ((λ k, cat_state axis k (column k pre)) <$> seq 0 r) args =
    Ok ((λ k, cat_state axis k (column k (pre ++ args))) <$> seq 0 r).
Proof.
  revert pre. induction args as [| a args IH]; intros pre Ha; simpl.
  { by rewrite app_nil_r. }
  assert (Hin : a ∈ pre ++ a :: args) by (apply elem_of_app; right; by left).
  assert (Hr : length (dims a) = r) by by apply (al_rank _ _ _ _ Ha).
  rewrite (concat_dims_spec axis 0 _ (dims a)
    ((λ k, cat_state axis k (column k (pre ++ [a]))) <$> seq 0 r)).
  - cbn [mbind res_bind]. rewrite IH by by rewrite <- app_assoc. by rewrite <- app_assoc.
  - by rewrite length_fmap, length_seq.
  - by rewrite length_fmap, length_seq.
  - intros k l d o Hl Hd Ho. simpl.
    apply list_lookup_fmap_Some in Hl as (x & -> & [-> Hk]%lookup_seq).
    apply list_lookup_fmap_Some in Ho as (y & -> & [-> _]%lookup_seq). simpl.
    rewrite column_snoc. simpl. rewrite Hd.
    assert (Hd0 : 0 ≤ size d).
    { pose proof (al_dims _ _ _ _ Ha a Hin) as H'. rewrite Forall_lookup in H'. by apply (H' k). }
    assert (Ecol : column k (pre ++ a :: args) = column k pre ++ d :: column k args).
    { unfold column. rewrite omap_app. simpl. by rewrite Hd. }
    pose proof (column_nonneg _ _ _ _ k Ha) as Hnn. rewrite Ecol in Hnn.
    apply Forall_app in Hnn as [Hp Hq]. apply Forall_cons in Hq as [_ Hq].
    destruct (decide (k = axis)) as [-> | Hne].
    + apply concat_dim_axis; [done | done |]. rewrite <- total_app.
      apply Z.le_trans with (total (column axis (pre ++ a :: args))); [| apply Ha].
      rewrite Ecol. replace (column axis pre ++ d :: column axis args)
        with ((column axis pre ++ [d]) ++ column axis args) by by rewrite <- app_assoc.
      by apply total_prefix.
    + apply concat_dim_other; [done | | done]. apply Forall_forall. intros e He.
      apply (al_same _ _ _ _ Ha k Hne); rewrite Ecol; set_solver.
Qed.

Lemma concat_check_spec axis r t a0 args :
  alike axis r t (a0 :: args) → IsArrayType t = true →
  concat_check a0 t (ArrayShape <$> args) axis = Ok t.
Proof.
  intros Ha Ht. assert (Hall : ∀ a, a ∈ args → a ∈ a0 :: args) by (intros; by right).
  assert (H0 : a0 ∈ a0 :: args) by by left.
  remember (a0 :: args) as all. clear Heqall. induction args as [| a args IH]; [done |].
  assert (Hin : a ∈ all) by (apply Hall; by left).
  cbn [fmap list_fmap concat_check ExpectArray mbind res_bind].
  rewrite (al_rank _ _ _ _ Ha a0 H0), (al_rank _ _ _ _ Ha a Hin), Nat.eqb_refl. cbn [guard_res mbind res_bind].
  assert (E1 : SameElementTypeIgnoringFpPrecision a0 a = true).
  { unfold SameElementTypeIgnoringFpPrecision, SameElementType.
    rewrite (al_type _ _ _ _ Ha a0 H0), (al_type _ _ _ _ Ha a Hin).
    destruct (_ && _); [done | by apply bool_decide_eq_true]. }
  rewrite E1. cbn [guard_res mbind res_bind].
  rewrite (proj2 (forallb_forall _ _)).
  2: { intros [k [d e]] Hp%list_elem_of_In. apply list_elem_of_lookup in Hp as [j Hj].
    rewrite list_lookup_imap in Hj. apply fmap_Some in Hj as ([d' e'] & Hz & E). simplify_eq.
    apply lookup_zip_Some in Hz as [Hd He]. simpl.
    destruct (Nat.eqb_spec j axis) as [| Hne]; [done |]. simpl.
    unfold CompatibleDimensionSizes. rewrite !orb_true_iff, Z.eqb_eq. right.
    apply (al_same _ _ _ _ Ha j Hne); apply column_elem; eauto. }
  cbn [guard_res mbind res_bind]. unfold HigherPrecisionElementType.
  rewrite (al_type _ _ _ _ Ha a0 H0), (al_type _ _ _ _ Ha a Hin), HigherPrecisionType_refl by done.
  cbn [mbind res_bind]. apply IH. intros b Hb. apply Hall. by right.
Qed.

Lemma mapM_Expect args : mapM ExpectArray (ArrayShape <$> args) = Ok args.
Proof.
  induction args as [| a args IH]; [done |]. rewrite fmap_cons. simpl. by rewrite IH.
Qed.

Lemma concat_start_spec axis r :
  (axis < r)%nat →
  concat_start axis r = (λ k, cat_state axis k (column k [])) <$> seq 0 r.
Proof.
  intros Hr. unfold concat_start. apply list_eq. intros k.
  destruct (decide (k < r)%nat) as [Hk |].
  - rewrite list_lookup_fmap, lookup_seq_lt by done. unfold cat_state. simpl.
    destruct (decide (k = axis)) as [-> |].
    + by rewrite list_lookup_insert_eq by by rewrite length_replicate.
    + rewrite list_lookup_insert_ne by done. by rewrite lookup_replicate_2.
  - rewrite !lookup_ge_None_2; [done | |].
    + rewrite length_fmap, length_seq. lia.
    + rewrite length_insert, length_replicate. lia.
Qed.

(** [InferConcatOpShape] of arrays of one element type and rank that agree off
    the axis has, along the axis, the sum of the sizes and elsewhere their
    common size, each dimension dynamic when it is in some operand; it returns
    whenever the sum and the byte size of the result are 64-bit integers. *)
Theorem InferConcatOpShape_sums axis r t w a0 args :
  alike axis r t (a0 :: args) → ByteWidth t = Ok w → 0 ≤ w →
  fits w (size <$> (cat_dim axis (a0 :: args) <$> seq 0 r)) →
  InferConcatOpShape (ArrayShape <$> (a0 :: args)) (Z.of_nat axis) =
    Ok (MkArray t (cat_dim axis (a0 :: args) <$> seq 0 r)).
Proof.
  intros Ha Hw H0 Hf. assert (Hin : a0 ∈ a0 :: args) by by left.
  pose proof (al_axis _ _ _ _ Ha) as Hax.
  rewrite fmap_cons. unfold InferConcatOpShape. cbn [array_state ExpectArray mbind res_bind].
  rewrite (al_rank _ _ _ _ Ha a0 Hin), (al_type _ _ _ _ Ha a0 Hin), Nat2Z.id.
  rewrite (proj2 (Z.leb_le _ _)), (proj2 (Z.ltb_lt _ _)) by lia. cbn [guard_res andb mbind res_bind].
  rewrite (concat_check_spec axis r) by (done || by eapply ByteWidth_type). cbn [mbind res_bind].
  change (ArrayShape a0 :: (ArrayShape <$> args)) with (ArrayShape <$> a0 :: args).
  rewrite mapM_Expect. cbn [mbind res_bind]. rewrite concat_start_spec by done.
  rewrite (concat_all_spec axis r t [] (a0 :: args)) by done. cbn [mbind res_bind app].
  set (st := λ k, cat_state axis k (column k (a0 :: args))).
  assert (Hst : ∀ k, (k < r)%nat → dimension (st k) = size (cat_dim axis (a0 :: args) k) ∧
    0 ≤ dimension (st k) ∧
    negb (IsUnboundedDynamicSize (bound (st k))) || IsUnboundedDynamicSize (dimension (st k)) =
      is_dynamic (cat_dim axis (a0 :: args) k)).
  { intros k Hk. pose proof (column_nonneg _ _ _ _ k Ha) as Hn. pose proof (total_nonneg _ Hn).
    unfold st, cat_state, cat_dim.
    destruct (lookup_lt_is_Some_2 (dims a0) k) as [d Hd].
    { change (length (dims a0)) with (rank a0). by rewrite (al_rank _ _ _ _ Ha a0 Hin). }
    assert (Ec : column k (a0 :: args) = d :: column k args).
    { unfold column. simpl. by rewrite Hd. }
    rewrite Ec in *. apply Forall_cons in Hn as [Hd0 _]. cbn [common_size size is_dynamic].
    destruct (decide (k = axis)); cbn [dimension bound]; (split; [done |]); (split; [lia |]);
      rewrite (static_unb (total _)) || rewrite (static_unb (size d)); try lia; rewrite orb_false_r;
      destruct (existsb is_dynamic (d :: column k args)); merge_dims; done. }
  assert (Es : dimension <$> (st <$> seq 0 r) = size <$> (cat_dim axis (a0 :: args) <$> seq 0 r)).
  { rewrite <- !list_fmap_compose. apply list_fmap_ext. intros i k [-> Hk]%lookup_seq. simpl.
    by apply Hst. }
  rewrite (MakeShape2_ok t w (dimension <$> (st <$> seq 0 r))); [| done | done | | by rewrite Es].
  2: { apply Forall_forall. intros n (m & -> & Hm)%list_elem_of_fmap.
    apply list_elem_of_fmap in Hm as (k & -> & Hk%elem_of_seq). apply Hst. lia. }
  cbn [mbind res_bind]. rewrite mark_dynamic_all; cbn [dims element_type].
  - do 2 f_equal. apply list_eq. intros k. rewrite lookup_zip_with, !list_lookup_fmap.
    destruct (decide (k < r)%nat) as [Hk |].
    + rewrite !lookup_seq_lt by done.
      cbn [fmap option_fmap option_map mbind option_bind marked size is_dynamic orb].
      unfold marked. cbn [size is_dynamic orb]. rewrite !Nat.add_0_l. destruct (Hst k Hk) as (E1 & _ & E3). by rewrite E3, E1.
    + by rewrite !lookup_seq_ge by lia.
  - unfold rank. simpl. by rewrite !length_fmap.
  - apply Forall_forall. intros d (n & -> & Hn)%list_elem_of_fmap. simpl. left.
    apply list_elem_of_fmap in Hn as (m & -> & Hm).
    apply list_elem_of_fmap in Hm as (k & -> & Hk%elem_of_seq). apply Hst. lia.
Qed.

(** ** Transposition *)

Lemma add_all_ok t pre ds :
  Forall (λ d, IsValidDimensionSize (size d) (is_dynamic d) = true) ds →
  (fix add_all ds a :=
     match ds with
     | [] => Ok a
     | d :: ds' => a ← add_dimensions (size d) (is_dynamic d) a; add_all ds' a
     end) ds (MkArray t pre) = Ok (MkArray t (pre ++ ds)).
Proof.
  revert pre. induction ds as [| d ds IH]; intros pre Hd; [by rewrite app_nil_r |].
  apply Forall_cons in Hd as [Hd0 Hd]. rewrite add_dimensions_ok by done. cbn [mbind res_bind].
  cbn [dims element_type]. rewrite IH by done. rewrite <- app_assoc. by destruct d.
Qed.

Lemma InferTransposeShape_run a p out :
  Forall (λ d, IsValidDimensionSize (size d) (is_dynamic d) = true) (dims a) →
  length p = rank a → PermUtil.IsPermutation p = true → PermUtil.Permute (dims a) p = Ok out →
  (∀ d, d ∈ out → d ∈ dims a) →
  InferTransposeShape (ArrayShape a) p = Ok (MkArray (element_type a) out).
Proof.
  intros Hv Hl Hp Ho Hin. unfold InferTransposeShape. cbn [ExpectArray mbind res_bind].
  rewrite bool_decide_true, Hp by done. cbn [andb guard_res mbind res_bind].
  unfold PermuteDimensionsIgnoringLayout. rewrite Ho. cbn [mbind res_bind].
  rewrite add_all_ok; [done |]. rewrite Forall_forall in *. auto.
Qed.

(** Transposing a shape by a permutation puts dimension [p[i]] at position
    [i], and transposing the result by the permutation that
    [InversePermutation] computes gives the shape back. *)
Theorem InferTransposeShape_inverse a p :
  Forall (λ d, IsValidDimensionSize (size d) (is_dynamic d) = true) (dims a) →
  length p = rank a → PermUtil.IsPermutation p = true →
  ∃ r q, InferTransposeShape (ArrayShape a) p = Ok r ∧
    (∀ i x, p !! i = Some x → dims r !! i = dims a !! Z.to_nat x) ∧
    PermUtil.InversePermutation p = Ok q ∧ InferTransposeShape (ArrayShape r) q = Ok a.
Proof.
  intros Hv Hl Hp. pose proof Hp as Hperm. apply PermUtil.IsPermutation_perm in Hperm.
  destruct (PermUtil.Permute_spec (dims a) p Hperm Hl) as (out & Eo & Lo & Ho).
  destruct (PermUtil.InversePermutation_spec p Hperm) as (q & Eq & Hq & Lq & Hpq).
  assert (Hin : ∀ d, d ∈ out → d ∈ dims a).
  { intros d [i Hi]%list_elem_of_lookup.
    destruct (PermUtil.perm_lookup p i Hperm) as (x & Hx & _).
    { apply lookup_lt_Some in Hi. rewrite Lo in Hi. by rewrite Hl. }
    rewrite (Ho i x Hx) in Hi. by eapply list_elem_of_lookup_2. }
  exists (MkArray (element_type a) out), q. split; [by apply InferTransposeShape_run |].
  split; [done |]. split; [done |].
  destruct (PermUtil.Permute_spec out q Hq) as (back & Eb & Lb & Hb).
  { by rewrite Lq, Lo. }
  assert (back = dims a) as ->.
  { apply list_eq. intros j. destruct (decide (j < length (dims a))%nat) as [Hj |].
    - destruct (proj1 (list_elem_of_lookup p (Z.of_nat j))) as [i Hi].
      { apply PermUtil.perm_surj; [done |]. rewrite Hl. unfold rank. lia. }
      pose proof (Hpq i _ Hi) as Hji. rewrite Nat2Z.id in Hji.
      rewrite (Hb j _ Hji), Nat2Z.id, (Ho i _ Hi). by rewrite Nat2Z.id.
    - rewrite !lookup_ge_None_2 by lia. done. }
  rewrite (InferTransposeShape_run (MkArray (element_type a) out) q (dims a)); simpl; try done.
  - by destruct a.
  - apply Forall_forall. intros d Hd. rewrite Forall_forall in Hv. by apply Hv, Hin.
  - unfold rank. simpl. by rewrite Lq, Lo.
  - by apply PermUtil.IsPermutation_perm.
  - intros d [j Hj]%list_elem_of_lookup. pose proof (lookup_lt_Some _ _ _ Hj) as Hlt.
    destruct (PermUtil.perm_lookup q j Hq) as (x & Hx & _); [rewrite Lq, Hl; done |].
    rewrite (Hb j x Hx) in Hj. by eapply list_elem_of_lookup_2.
Qed.

(** ** Dynamic slices *)

(** An update that fits into an array. *)
Definition update_valid (d u : Dim) : Prop := 0 ≤ size u ≤ size d.

Lemma check_update_sizes_ok ds us : Forall2 update_valid ds us → check_update_sizes ds us = Ok tt.
Proof.
  induction 1 as [| d u ds us Hu _ IH]; [done |]. cbn [check_update_sizes].
  unfold update_valid in Hu.
  rewrite (proj2 (Z.geb_le _ _)), orb_true_r, (proj2 (Z.leb_le _ _)) by lia. done.
Qed.

Lemma check_slice_sizes_ok ds us :
  Forall2 update_valid ds us → check_slice_sizes ds (size <$> us) = Ok tt.
Proof.
  induction 1 as [| d u ds us Hu _ IH]; [done |]. rewrite fmap_cons. cbn [check_slice_sizes].
  unfold update_valid in Hu.
  rewrite (proj2 (Z.geb_le _ _)), (proj2 (Z.leb_le _ _)), orb_true_r by lia. done.
Qed.

(** Marking dimensions dynamic leaves the sizes alone. *)
Lemma sizes_marked ds tests :
  length tests = length ds → size <$> zip_with marked ds tests = size <$> ds.
Proof.
  revert tests. induction ds as [| d ds IH]; intros [| b tests] Lt; simplify_eq/=; [done |].
  by rewrite IH.
Qed.

Lemma update_valid_marked ds us tests :
  Forall2 update_valid ds us → length tests = length ds →
  Forall2 update_valid (zip_with marked ds tests) us.
Proof.
  intros Hu. revert tests.
  induction Hu as [| d n ds us Hu _ IH]; intros [| b tests] Lt; simplify_eq/=; constructor;
    [done | by apply IH].
Qed.

(** An update that is no larger than the operand is accepted by
    [InferDynamicUpdateSliceShape], which keeps the sizes of the operand, and
    [InferDynamicSliceShape] accepts the sizes of the update at the same
    indices of the result and yields them. *)
Theorem DynamicUpdateSlice_slice w a u idx scalars :
  static_array w a → element_type u = element_type a → Forall2 update_valid (dims a) (dims u) →
  check_start_indices (rank a) idx scalars = Ok tt →
  ∃ r v, InferDynamicUpdateSliceShape (ArrayShape a) (ArrayShape u) idx scalars =
           Ok (ArrayShape r) ∧
    sizes r = sizes a ∧ element_type r = element_type a ∧
    InferDynamicSliceShape (ArrayShape r) idx (sizes u) scalars = Ok v ∧ sizes v = sizes u.
Proof.
  intros [Hw H0 Hd Hf] Ht Hu Hi. pose proof (Forall2_length _ _ _ Hu) as Hlen.
  set (tests := zip_with (λ d n, is_dynamic d || (is_dynamic n && (size n =? size d)))
                  (dims a) (dims u)).
  assert (Lt : length tests = rank a) by (unfold tests; rewrite length_zip_with; unfold rank; lia).
  set (r := MkArray (element_type a) (zip_with marked (dims a) tests)).
  assert (Sr : sizes r = sizes a).
  { by apply sizes_marked. }
  assert (Rr : rank r = rank a).
  { unfold rank. rewrite <- (length_fmap size (dims r)). change (size <$> dims r) with (sizes r).
    rewrite Sr. apply length_fmap. }
  assert (Er : InferDynamicUpdateSliceShape (ArrayShape a) (ArrayShape u) idx scalars =
    Ok (ArrayShape r)).
  { unfold InferDynamicUpdateSliceShape.
    cbn [IsArray IsArrayExcludingBuffer IsBuffer orb guard_res ExpectArray array_state mbind res_bind].
    rewrite Hi. cbn [mbind res_bind]. unfold rank. rewrite <- Hlen, Nat.eqb_refl.
    cbn [guard_res mbind res_bind].
    assert (E1 : SameElementTypeIgnoringFpPrecision a u = true).
    { unfold SameElementTypeIgnoringFpPrecision, SameElementType. rewrite Ht.
      destruct (_ && _); [done |]. by apply bool_decide_eq_true. }
    rewrite E1. cbn [guard_res mbind res_bind]. rewrite check_update_sizes_ok by done.
    cbn [mbind res_bind]. fold tests. rewrite (mark_dynamic_all tests a); [done | done |].
    eapply Forall_impl; [apply Hd |]. simpl. intros d ?. left. lia. }
  assert (Hu' : Forall2 update_valid (dims r) (dims u)).
  { by apply update_valid_marked. }
  assert (Hpos : Forall (λ n, 0 ≤ n) (sizes u)).
  { unfold sizes. clear -Hu. induction Hu as [| d n ds us [? ?] _ IH]; simpl; constructor; done. }
  assert (Hfu : fits w (sizes u)).
  { apply (fits_le w (sizes a)); [lia | | done]. unfold sizes. clear -Hu.
    induction Hu as [| d n ds us Hn _ IH]; simpl; constructor; done. }
  set (v0 := MkArray (element_type a) ((λ n, MkDim n false) <$> sizes u)).
  set (tests' := zip_with (λ d n, is_dynamic d && (n >? 1) && (n =? size d)) (dims r) (sizes u)).
  assert (Lt' : length tests' = rank v0).
  { unfold tests', v0, rank, sizes. cbn [dims]. rewrite length_zip_with, !length_fmap.
    unfold rank in Rr. lia. }
  exists r, (MkArray (element_type a) (zip_with marked (dims v0) tests')).
  split; [done |]. split; [done |]. split; [done |]. split.
  - unfold InferDynamicSliceShape. cbn [ExpectArray mbind res_bind]. rewrite Rr, Hi.
    cbn [mbind res_bind]. replace (length (sizes u)) with (rank u) by (symmetry; apply length_fmap).
    unfold rank. rewrite <- Hlen, Nat.eqb_refl. cbn [guard_res mbind res_bind].
    rewrite (check_slice_sizes_ok (dims r) (dims u) Hu' : check_slice_sizes (dims r) (sizes u) = _).
    cbn [mbind res_bind].
    change (element_type r) with (element_type a).
    rewrite (MakeShape2_ok _ w) by done. cbn [mbind res_bind]. fold v0. fold tests'.
    apply (mark_dynamic_all tests' v0); [done |]. unfold v0. simpl. apply Forall_fmap.
    eapply Forall_impl; [apply Hpos |]. simpl. intros; by left.
  - unfold sizes at 1. cbn [dims]. rewrite sizes_marked by done. unfold v0. cbn [dims].
    rewrite <- list_fmap_compose. unfold compose. cbn [size]. apply list_fmap_id.
Qed.
End Concat.

(** ** Instances *)

Lemma InferConcatOpShape_sums_witness :
  InferConcatOpShape [ArrayShape (MkArray F32 [MkDim 2 false; MkDim 3 false]);
                      ArrayShape (MkArray F32 [MkDim 5 true; MkDim 3 false])] 0 =
    Ok (MkArray F32 [MkDim 7 true; MkDim 3 false]).
Proof.
  refine (InferConcatOpShape_sums 0 2 F32 4 (MkArray F32 [MkDim 2 false; MkDim 3 false])
    [MkArray F32 [MkDim 5 true; MkDim 3 false]] _ eq_refl _ _); [| lia |].
  - split.
    + lia.
    + intros a. rewrite !elem_of_cons, elem_of_nil. by intros [-> | [-> | []]].
    + intros a. rewrite !elem_of_cons, elem_of_nil. by intros [-> | [-> | []]].
    + intros a. rewrite !elem_of_cons, elem_of_nil.
      intros [-> | [-> | []]]; repeat constructor; simpl; int_lia.
    + intros [| [| k]] Hk d e; [done | |]; cbn;
        rewrite ?elem_of_cons, ?elem_of_nil; [| by intros ?%elem_of_nil || done].
      intros [-> | [-> | []]] [-> | [-> | []]]; done.
    + vm_compute. discriminate.
  - apply (bool_decide_unpack _). vm_compute. exact I.
Defined.

Lemma InferTransposeShape_inverse_witness :
  InferTransposeShape (ArrayShape demo) [1; 0] =
    Ok (MkArray F32 [MkDim 4 true; MkDim 10 false]).
Proof.
  destruct (InferTransposeShape_inverse demo [1; 0]) as (r & q & E & _);
    [repeat constructor | reflexivity | reflexivity |].
  vm_compute in E. injection E as <-. reflexivity.
Defined.

Lemma DynamicUpdateSlice_slice_witness :
  ∃ r, InferDynamicUpdateSliceShape (ArrayShape demo)
         (ArrayShape (MkArray F32 [MkDim 3 false; MkDim 4 false]))
         [ArrayShape (MkArray S32 []); ArrayShape (MkArray S32 [])] true = Ok (ArrayShape r) ∧
       r = demo.
Proof.
  destruct (DynamicUpdateSlice_slice 4 demo (MkArray F32 [MkDim 3 false; MkDim 4 false])
    [ArrayShape (MkArray S32 []); ArrayShape (MkArray S32 [])] true) as (r & v & E & _).
  - apply demo_static.
  - reflexivity.
  - repeat constructor; simpl; lia.
  - reflexivity.
  - exists r. split; [exact E |]. vm_compute in E. by injection E.
Defined.

(** [InferConcatOpShape] takes the element type from the first and the last
    operand only: the same three operands, of mixed precision, give the low
    precision when the high one is in the middle and the high precision when
    it comes last. *)
Theorem InferConcatOpShape_drops_precision :
  let b := ArrayShape (MkArray BF16 [MkDim 2 false]) in
  let f := ArrayShape (MkArray F32 [MkDim 2 false]) in
  InferConcatOpShape [b; f; b] 0 = Ok (MkArray BF16 [MkDim 6 false]) ∧
  InferConcatOpShape [b; b; f] 0 = Ok (MkArray F32 [MkDim 6 false]).
Proof. split; vm_compute; reflexivity. Qed.

End ConcatProofs.
