(* ===== verification/Radix.v ===== *)
(** * Mixed radix numbers

    The arithmetic behind linear indices: digits of given sizes, the least
    significant one first, and sums of digits weighted by strides. *)
From stdpp Require Import relations.
From S2P Require Import Prelude.
#[local] Open Scope Z_scope.

Module Radix.

Definition prod (l : list Z) : Z := foldr Z.mul 1 l.

Lemma prod_app l1 l2 : prod (l1 ++ l2) = prod l1 * prod l2.
Proof. induction l1 as [| x l1 IH]; [simpl; lia |]. cbn [app prod foldr] in *. fold (prod l2) in *. unfold prod in *. simpl. rewrite IH. ring. Qed.

#[export] Instance prod_Permutation : Proper ((≡ₚ) ==> (=)) prod.
Proof. intros l1 l2 H. unfold prod. induction H; simpl; [done | lia | lia | congruence]. Qed.

Lemma prod_reverse l : prod (reverse l) = prod l.
Proof. by rewrite reverse_Permutation. Qed.

Lemma prod_pos l : Forall (λ d, 0 < d) l → 0 < prod l.
Proof. induction 1; simpl in *; unfold prod in *; simpl; nia. Qed.

Lemma prod_cons x l : prod (x :: l) = x * prod l.
Proof. done. Qed.

Lemma prod_singleton x : prod [x] = x.
Proof. unfold prod. simpl. lia. Qed.

Lemma zip_reverse {A B C} (f : A → B → C) l k :
  length l = length k → reverse (zip_with f l k) = zip_with f (reverse l) (reverse k).
Proof.
  revert k. induction l as [| a l IH]; intros [| b k] H; try done. cbn [zip_with].
  rewrite !reverse_cons, IH by by simplify_eq/=.
  rewrite zip_with_app by (rewrite !length_reverse; by simplify_eq/=). done.
Qed.

(** ** Digits *)

Definition in_bounds (ds xs : list Z) : Prop := Forall2 (λ d i, 0 ≤ i < d) ds xs.

Fixpoint horner (ds xs : list Z) : Z :=
  match ds, xs with
  | d :: ds, i :: xs => i + d * horner ds xs
  | _, _ => 0
  end.

Fixpoint digits (ds : list Z) (k : Z) : list Z :=
  match ds with
  | [] => []
  | d :: ds => k mod d :: digits ds (k / d)
  end.

Lemma in_bounds_pos ds xs : in_bounds ds xs → Forall (λ d, 0 < d) ds.
Proof. induction 1; constructor; [lia | done]. Qed.

Lemma in_bounds_length ds xs : in_bounds ds xs → length ds = length xs.
Proof. apply Forall2_length. Qed.

Lemma horner_bounds ds xs : in_bounds ds xs → 0 ≤ horner ds xs < prod ds.
Proof.
  induction 1 as [| d i ds xs Hi _ IH]; [unfold prod; simpl; lia |].
  cbn [horner]. rewrite prod_cons. nia.
Qed.

Lemma horner_digits ds k :
  Forall (λ d, 0 < d) ds → 0 ≤ k < prod ds → horner ds (digits ds k) = k.
Proof.
  intros H. revert k. induction H as [| d ds Hd _ IH]; intros k Hk.
  - unfold prod in Hk. simpl in *. lia.
  - cbn [horner digits]. rewrite prod_cons in Hk. rewrite IH.
    + pose proof (Z.div_mod k d). lia.
    + split; [apply Z.div_pos; lia |]. apply Z.div_lt_upper_bound; lia.
Qed.

Lemma digits_horner ds xs : in_bounds ds xs → digits ds (horner ds xs) = xs.
Proof.
  induction 1 as [| d i ds xs Hi H IH]; [done |]. cbn [horner digits].
  rewrite (Z.mul_comm d), Z.mod_add, Z.mod_small by lia.
  rewrite Z.div_add, Z.div_small by lia. by rewrite Z.add_0_l, IH.
Qed.

Lemma digits_in_bounds ds k : Forall (λ d, 0 < d) ds → in_bounds ds (digits ds k).
Proof.
  intros H. revert k. induction H as [| d ds Hd _ IH]; intros k; constructor; [| apply IH].
  by apply Z.mod_pos_bound.
Qed.

Lemma length_digits ds k : length (digits ds k) = length ds.
Proof. revert k. induction ds as [| d ds IH]; intros k; simpl; [done |]. by rewrite IH. Qed.

Lemma horner_app ds1 ds2 xs1 xs2 :
  length ds1 = length xs1 →
  horner (ds1 ++ ds2) (xs1 ++ xs2) = horner ds1 xs1 + prod ds1 * horner ds2 xs2.
Proof.
  revert xs1. induction ds1 as [| d ds1 IH]; intros [| i xs1] Hl; try done.
  - unfold prod. simpl. lia.
  - cbn [app horner]. rewrite prod_cons, IH by (simpl in Hl; lia). ring.
Qed.

Lemma horner_zero ds xs : Forall (λ e, e = 0) xs → horner ds xs = 0.
Proof.
  intros Hx. revert ds. induction Hx as [| e xs -> Hx IH]; intros [| d ds]; cbn [horner]; try done.
  rewrite IH. lia.
Qed.

Lemma horner_inj ds xs1 xs2 :
  in_bounds ds xs1 → in_bounds ds xs2 → horner ds xs1 = horner ds xs2 → xs1 = xs2.
Proof. intros H1 H2 E. rewrite <- (digits_horner ds xs1), <- (digits_horner ds xs2) by done. by rewrite E. Qed.

(** ** Weighted digits *)

(** Sizes and strides, the least significant first. *)
Fixpoint val (l : list (Z * Z)) (k : Z) : Z :=
  match l with
  | [] => 0
  | (d, t) :: l => (k mod d) * t + val l (k / d)
  end.

Definition sizes_pos (l : list (Z * Z)) : Prop := Forall (λ p, 0 < p.1) l.

Lemma val_at l1 d t l2 :
  sizes_pos (l1 ++ (d, t) :: l2) → 1 < d → val (l1 ++ (d, t) :: l2) (prod l1.*1) = t.
Proof.
  intros H Hd. induction l1 as [| [e u] l1 IH].
  - unfold prod. cbn [fmap list_fmap foldr app val]. rewrite Z.mod_1_l, Z.div_1_l by lia.
    enough (val l2 0 = 0) by lia. clear. induction l2 as [| [e u] l2 IH]; [done |]. cbn [val].
    by rewrite Zmod_0_l, Zdiv_0_l, IH.
  - cbn [app] in H. apply Forall_cons in H as [He H]. cbn [fst] in He.
    cbn [app val fmap list_fmap fst]. rewrite prod_cons.
    rewrite (Z.mul_comm e), Z.mod_mul, Z.div_mul by lia. rewrite IH by done. lia.
Qed.

(** The stride of every size above 1 is the value [h] has there. *)
Definition units (l : list (Z * Z)) (h : Z → Z) : Prop :=
  ∀ l1 d t l2, l = l1 ++ (d, t) :: l2 → 1 < d → h (prod l1.*1) = t.

Lemma units_val l : sizes_pos l → units l (val l).
Proof. intros H l1 d t l2 -> Hd. by apply val_at. Qed.

Lemma units_tail d t l h : 0 < d → units ((d, t) :: l) h → units l (λ k, h (d * k)).
Proof. intros Hd H l1 e u l2 -> He. by apply (H ((d, t) :: l1) e u l2). Qed.

(** A size of 1 has no digit. *)
Lemma val_one t l k : val ((1, t) :: l) k = val l k.
Proof. cbn [val]. rewrite Z.mod_1_r, Z.div_1_r. lia. Qed.

Lemma val_split d t l q r : 0 ≤ r < d → val ((d, t) :: l) (d * q + r) = r * t + val l q.
Proof.
  intros Hr. replace (d * q + r) with (r + q * d) by lia. cbn [val].
  rewrite Z.mod_add, Z.mod_small by lia. rewrite Z.div_add, Z.div_small by lia. by rewrite Z.add_0_l.
Qed.

Lemma val_mul d t l q : 0 < d → val ((d, t) :: l) (d * q) = val l q.
Proof. intros Hd. rewrite <- (Z.add_0_r (d * q)), val_split by lia. lia. Qed.

(** Two digits, the second in steps of the whole first one, are one digit. *)
Lemma val_merge d t e l k : 0 < d → 0 < e → val ((d, t) :: (e, d * t) :: l) k = val ((d * e, t) :: l) k.
Proof.
  intros Hd He. cbn [val]. rewrite Z.div_div by lia.
  rewrite (Z.rem_mul_r k d e) by lia. ring.
Qed.

Lemma val_zero l : val l 0 = 0.
Proof. induction l as [| [d t] l IH]; [done |]. cbn [val]. by rewrite Zmod_0_l, Zdiv_0_l, IH. Qed.

Lemma val_small d t l k : 0 ≤ k < d → val ((d, t) :: l) k = k * t.
Proof.
  intros Hk. rewrite <- (Z.add_0_l k) at 1. replace (0 + k) with (d * 0 + k) by lia.
  rewrite val_split by done. rewrite val_zero. lia.
Qed.

Lemma val_tail_ext p l1 l2 k : (∀ k, val l1 k = val l2 k) → val (p :: l1) k = val (p :: l2) k.
Proof. intros H. destruct p as [d t]. cbn [val]. by rewrite H. Qed.

Lemma units_ext l h1 h2 : (∀ k, h1 k = h2 k) → units l h1 → units l h2.
Proof. intros H Hu l1 d t l2 E Hd. rewrite <- H. by eapply Hu. Qed.

(** A first size that does not reach [e] is dropped or grows. *)
Lemma reduce d t l e : 1 < d → d < e → sizes_pos l → e ≤ d * prod l.*1 →
  (∀ e' t' l', l = (e', t') :: l' → 1 < e' → t' = d * t) →
  ∃ l', (length l' < S (length l))%nat ∧ sizes_pos l' ∧ prod l'.*1 = d * prod l.*1 ∧
    (∀ k, val l' k = val ((d, t) :: l) k) ∧ ∀ h, units ((d, t) :: l) h → units l' h.
Proof.
  intros Hd He Hl Hp Ht. destruct l as [| [e' t'] l]; [unfold prod in Hp; simpl in Hp; lia |].
  apply Forall_cons in Hl as [He' Hl]. cbn [fst] in He'. cbn [fmap list_fmap fst length] in *.
  destruct (decide (e' = 1)) as [-> | Hne].
  - exists ((d, t) :: l). cbn [fmap list_fmap fst length]. rewrite !prod_cons.
    split; [lia |]. split; [by constructor; [simpl; lia |] |]. split; [lia |]. split.
    + intros k. apply val_tail_ext. intros k'. by rewrite val_one.
    + intros h Hu [| p l1] d1 t1 l2 E H1; simplify_eq/=.
      * apply (Hu [] d1 t1 ((1, t') :: l2) eq_refl Hd).
      * rewrite <- (Hu ((d, t) :: (1, t') :: l1) d1 t1 l2 eq_refl H1).
        cbn [fmap list_fmap fst]. by rewrite !prod_cons, Z.mul_1_l.
  - rewrite (Ht e' t' l eq_refl ltac:(lia)) in *. exists ((d * e', t) :: l).
    cbn [fmap list_fmap fst length]. rewrite !prod_cons.
    split; [lia |]. split; [constructor; [simpl; lia | done] |]. split; [lia |]. split.
    + intros k. by rewrite val_merge by lia.
    + intros h Hu [| p l1] d1 t1 l2 E H1; simplify_eq/=.
      * apply (Hu [] d t1 ((e', d * t1) :: l2) eq_refl Hd).
      * rewrite <- (Hu ((d, t) :: (e', d * t) :: l1) d1 t1 l2 eq_refl H1).
        cbn [fmap list_fmap fst]. by rewrite !prod_cons, Z.mul_assoc.
Qed.

(** Two systems of sizes with the same product agree when they agree on units. *)
Lemma units_agree l1 l2 :
  sizes_pos l1 → sizes_pos l2 → prod l1.*1 = prod l2.*1 →
  units l1 (val l2) → units l2 (val l1) → ∀ k, 0 ≤ k < prod l1.*1 → val l1 k = val l2 k.
Proof.
  remember (length l1 + length l2)%nat as n eqn:En. revert l1 l2 En.
  induction n as [n IH] using lt_wf_ind. intros l1 l2 -> P1 P2 Hp U1 U2 k Hk.
  destruct l1 as [| [d t] l1].
  { unfold prod in Hk. simpl in Hk. replace k with 0 by lia. by rewrite !val_zero. }
  destruct l2 as [| [e u] l2].
  { rewrite Hp in Hk. unfold prod in Hk. simpl in Hk. replace k with 0 by lia. by rewrite !val_zero. }
  pose proof P1 as P1'. pose proof P2 as P2'.
  apply Forall_cons in P1' as [Hd P1']. apply Forall_cons in P2' as [He P2']. cbn [fst] in Hd, He.
  cbn [fmap list_fmap fst length] in *. rewrite !prod_cons in Hp. rewrite prod_cons in Hk.
  destruct (decide (d = 1)) as [-> | Hd1].
  { rewrite val_one. eapply IH; [| reflexivity | | | | | |]; try done;
      cbn [length fmap list_fmap fst]; rewrite ?prod_cons; [lia | lia | | | lia].
    - eapply units_ext; [| by apply (units_tail 1 t)]. intros j. cbn beta. by rewrite (Z.mul_1_l j).
    - eapply units_ext; [| exact U2]. intros j. apply val_one. }
  destruct (decide (e = 1)) as [-> | He1].
  { rewrite val_one. eapply IH; [| reflexivity | | | | | |]; try done;
      cbn [length fmap list_fmap fst]; rewrite ?prod_cons; [lia | lia | |].
    - eapply units_ext; [| exact U1]. intros j. apply val_one.
    - eapply units_ext; [| by apply (units_tail 1 u)]. intros j. cbn beta. by rewrite (Z.mul_1_l j). }
  assert (t = u) as ->.
  { pose proof (U1 [] d t l1 eq_refl ltac:(lia)). pose proof (units_val _ P2 [] e u l2 eq_refl ltac:(lia)).
    congruence. }
  destruct (Z.lt_trichotomy d e) as [Hlt | [-> | Hlt]].
  - destruct (reduce d u l1 e) as (l1' & Hlen & Pl & Epr & Eval & Hu); [lia | done | done | | |].
    { pose proof (prod_pos l2.*1) as Hpos. rewrite Hp. ospecialize (Hpos _); [by apply Forall_fmap | nia]. }
    { intros d' t' l' -> Hd'. rewrite <- (U1 [(d, u)] d' t' l' eq_refl Hd').
      cbn [fmap list_fmap fst]. rewrite prod_singleton. apply val_small. lia. }
    rewrite <- Eval. eapply IH; [| reflexivity | | | | | |]; try done;
      cbn [length fmap list_fmap fst]; rewrite ?prod_cons; [lia | lia | by apply Hu | | lia].
    eapply units_ext; [| exact U2]. intros j. by rewrite Eval.
  - assert (Hpr : prod l1.*1 = prod l2.*1) by nia.
    rewrite (Z.div_mod k e) by lia. pose proof (Z.mod_pos_bound k e He).
    rewrite !val_split by lia. f_equal. eapply IH; [| reflexivity | | | | | |]; try done; [lia | | |].
    + eapply units_ext; [| by apply (units_tail e u)]. intros j. by apply val_mul.
    + eapply units_ext; [| by apply (units_tail e u)]. intros j. by apply val_mul.
    + split; [apply Z.div_pos; lia | apply Z.div_lt_upper_bound; lia].
  - destruct (reduce e u l2 d) as (l2' & Hlen & Pl & Epr & Eval & Hu); [lia | done | done | | |].
    { pose proof (prod_pos l1.*1) as Hpos. rewrite <- Hp. ospecialize (Hpos _); [by apply Forall_fmap | nia]. }
    { intros d' t' l' -> Hd'. rewrite <- (U2 [(e, u)] d' t' l' eq_refl Hd').
      cbn [fmap list_fmap fst]. rewrite prod_singleton. apply val_small. lia. }
    rewrite <- Eval. eapply IH; [| reflexivity | | | | | |]; try done;
      cbn [length fmap list_fmap fst]; rewrite ?prod_cons; [lia | lia | | by apply Hu].
    eapply units_ext; [| exact U1]. intros j. by rewrite Eval.
Qed.
End Radix.
