(* ===== verification/Layouts.v ===== *)
(** * Layouts and linear indices

    Models [xla/layout.h] and [.cc], the part of [xla/layout_util.cc] that makes,
    validates and changes layouts and that computes with tiles, and
    [xla/index_util.h] and [.cc].  A shape here is an array, on its own or under a
    buffer, with an optional layout; the debug checks are left out. *)
From S2P Require Import Prelude WindowArith Types PermUtil Shape.
#[local] Open Scope Z_scope.

Module Layouts.
Import Types PermUtil Shape.

(** ** The data *)

(** A tile is the list of its dimensions. *)
Definition Tile : Type := list Z.
Definition kCombineDimension : Z := int64_min.

Record SplitConfig := MkSplitConfig { dimension : Z; split_indices : list Z }.

(** The physical shape of a sparse layout is an array with its own layout. *)
Inductive Layout := MkFullLayout {
  minor_to_major : list Z;
  tiles : list Tile;
  split_configs : list SplitConfig;
  tail_padding_alignment_in_elements : Z;
  element_size_in_bits : Z;
  index_primitive_type : PrimitiveType;
  pointer_primitive_type : PrimitiveType;
  memory_space : Z;
  dynamic_shape_metadata_prefix_bytes : Z;
  physical_shape : option (Array * option Layout)
}.

Definition has_physical_shape (l : Layout) : bool := bool_decide (physical_shape l ≠ None).

(** [MakeLayout] and the constructor, with all but the order at its default. *)
Definition MakeLayout (minor_to_major : list Z) : Layout :=
  MkFullLayout minor_to_major [] [] 1 0 PRIMITIVE_TYPE_INVALID PRIMITIVE_TYPE_INVALID 0 0 None.

Record LaidShape := MkLaid { array : Array; opt_layout : option Layout }.

Definition has_layout (s : LaidShape) : bool := bool_decide (is_Some (opt_layout s)).

(** [layout()] checks that there is one. *)
Definition layout (s : LaidShape) : res Layout :=
  match opt_layout s with Some l => Ok l | None => Fail CheckFailed end.

Definition with_minor_to_major (l : Layout) (m : list Z) : Layout :=
  MkFullLayout m (tiles l) (split_configs l) (tail_padding_alignment_in_elements l)
    (element_size_in_bits l) (index_primitive_type l) (pointer_primitive_type l) (memory_space l)
    (dynamic_shape_metadata_prefix_bytes l) (physical_shape l).

(** ** Making layouts *)

(** [n - 1, ..., 0], which is also the default. *)
Definition descending (n : nat) : list Z := reverse (seqZ 0 (Z.of_nat n)).

Definition MakeDescendingLayout (num_dims : nat) : Layout := MakeLayout (descending num_dims).
Definition MakeAscendingLayout (num_dims : nat) : Layout :=
  MakeLayout (seqZ 0 (Z.of_nat num_dims)).
Definition MakeLayoutFromMajorToMinor (major_to_minor : list Z) : Layout :=
  MakeLayout (reverse major_to_minor).
Definition GetDefaultLayoutForRank (num_dims : nat) : Layout := MakeLayout (descending num_dims).

(** [SetToDefaultLayout] of an array keeps what else the layout holds. *)
Definition SetToDefaultLayout (s : LaidShape) : LaidShape :=
  MkLaid (array s)
    (Some (with_minor_to_major (default (MakeLayout []) (opt_layout s)) (descending (rank (array s))))).

(** [is_sorted]: no element is less than the one before. *)
Fixpoint is_sorted (less : Z → Z → bool) (l : list Z) : bool :=
  match l with
  | x :: (y :: _) as l' => negb (less y x) && is_sorted less l'
  | _ => true
  end.

Definition HasDescendingLayout (l : Layout) : bool := is_sorted Z.gtb (minor_to_major l).
Definition HasAscendingLayout (l : Layout) : bool := is_sorted Z.ltb (minor_to_major l).
Definition IsMonotonicWithDim0Minor (l : Layout) : bool := is_sorted Z.ltb (minor_to_major l).
Definition IsMonotonicWithDim0Major (l : Layout) : bool := is_sorted Z.gtb (minor_to_major l).

(** ** Reading layouts *)

Definition Minor (l : Layout) (physical : Z) : res Z := at_z (minor_to_major l) physical.
Definition Major (l : Layout) (physical : Z) : res Z :=
  Minor l (Z.of_nat (length (minor_to_major l)) - 1 - physical).

(** [logical_to_physical[Major(physical)] = physical]. *)
Definition MakeLogicalToPhysical (l : Layout) : res (list Z) :=
  let n := length (minor_to_major l) in
  scatter (seqZ 0 (Z.of_nat n)) (reverse (minor_to_major l)) (replicate n 0).

(** The first position of the value, or the length. *)
Fixpoint PositionInContainer (l : list Z) (x : Z) : Z :=
  match l with
  | [] => 0
  | y :: l => if y =? x then 0 else 1 + PositionInContainer l x
  end.

(** All gaps between the sorted positions are 1. *)
Fixpoint gaps_are_one (l : list Z) : bool :=
  match l with
  | x :: (y :: _) as l' => (y - x =? 1) && gaps_are_one l'
  | _ => true
  end.

Definition AreDimensionsConsecutive (l : Layout) (dims : list Z) : bool :=
  gaps_are_one (merge_sort Z.le (PositionInContainer (minor_to_major l) <$> dims)).

(** ** Changing layouts *)

(** [back()] and [front()] of an empty vector are undefined. *)
Definition MoveDimToMajor (l : Layout) (dim : Z) : res Layout :=
  b ← (match last (minor_to_major l) with Some b => Ok b | None => Fail Undefined end);
  Ok (if dim =? b then l
      else with_minor_to_major l (filter (λ d, d ≠ dim) (minor_to_major l) ++ [dim])).

Definition MoveDimToMinor (l : Layout) (dim : Z) : res Layout :=
  f ← (match head (minor_to_major l) with Some f => Ok f | None => Fail Undefined end);
  Ok (if dim =? f then l
      else with_minor_to_major l (dim :: filter (λ d, d ≠ dim) (minor_to_major l))).

(** The deleted dimension taken out, and the ones above it renumbered. *)
Definition delete_from_order (dim_to_delete : Z) (m : list Z) : list Z :=
  (λ d, if d >? dim_to_delete then d - 1 else d) <$> filter (λ d, d ≠ dim_to_delete) m.

Definition delete_from_splits (physical : Z) (cs : list SplitConfig) : list SplitConfig :=
  (λ c, if dimension c >? physical then MkSplitConfig (dimension c - 1) (split_indices c) else c) <$>
    filter (λ c, dimension c ≠ physical) cs.

Definition DeleteLayoutDimension (dim_to_delete : Z) (l : Layout) : res Layout :=
  let m := minor_to_major l in
  guard_res (dim_to_delete >=? 0) CheckFailed;;
  guard_res (dim_to_delete <? Z.of_nat (length m)) CheckFailed;;
  guard_res (bool_decide (dim_to_delete ∈ m)) CheckFailed;;
  let deleted_physical_dim := Z.of_nat (length m) - 1 - PositionInContainer m dim_to_delete in
  Ok (MkFullLayout (delete_from_order dim_to_delete m) (tiles l)
        (delete_from_splits deleted_physical_dim (split_configs l))
        (tail_padding_alignment_in_elements l) (element_size_in_bits l)
        (index_primitive_type l) (pointer_primitive_type l) (memory_space l)
        (dynamic_shape_metadata_prefix_bytes l) (physical_shape l)).

(** ** Validation *)

(** The loop over [minor_to_major], with the dimensions seen. *)
Fixpoint validate_order (n : nat) (m : list Z) (dimensions_in_layout : list bool) : res unit :=
  match m with
  | [] => Ok tt
  | dim :: m =>
      guard_res (negb ((dim <? 0) || (dim >=? Z.of_nat n))) InvalidArgument;;
      seen ← at_z dimensions_in_layout dim;
      guard_res (negb seen) InvalidArgument;;
      validate_order n m (<[Z.to_nat dim := true]> dimensions_in_layout)
  end.

Definition valid_tile (t : Tile) : bool :=
  negb (bool_decide (t = [])) &&
  forallb (λ dim, negb ((dim <=? 0) && negb (dim =? kCombineDimension))) t.

(** The split indices, above the one before and below the size. *)
Fixpoint valid_split (dim_size last_split_index : Z) (l : list Z) : bool :=
  match l with
  | [] => true
  | split_index :: l =>
      negb (split_index <=? last_split_index) && negb (split_index >=? dim_size) &&
      valid_split dim_size split_index l
  end.

Fixpoint validate_splits (l : Layout) (ds : list Z) (cs : list SplitConfig)
    (physical_dims_in_split_config : list bool) : res unit :=
  match cs with
  | [] => Ok tt
  | config :: cs =>
      let physical_dim := dimension config in
      guard_res (negb ((physical_dim <? 0) || (physical_dim >=? Z.of_nat (length ds))))
        InvalidArgument;;
      seen ← at_z physical_dims_in_split_config physical_dim;
      guard_res (negb seen) InvalidArgument;;
      logical_dim ← Major l physical_dim;
      dim_size ← at_z ds logical_dim;
      guard_res (valid_split dim_size 0 (split_indices config)) InvalidArgument;;
      validate_splits l ds cs (<[Z.to_nat physical_dim := true]> physical_dims_in_split_config)
  end.

Definition ValidateLayoutForShape (l : Layout) (a : Array) : res unit :=
  let n := rank a in
  guard_res (bool_decide (length (minor_to_major l) = n)) InvalidArgument;;
  validate_order n (minor_to_major l) (replicate n false);;
  guard_res (negb (tail_padding_alignment_in_elements l <=? 0)) InvalidArgument;;
  guard_res (bool_decide (index_primitive_type l = PRIMITIVE_TYPE_INVALID)) InvalidArgument;;
  guard_res (bool_decide (pointer_primitive_type l = PRIMITIVE_TYPE_INVALID)) InvalidArgument;;
  guard_res (negb (has_physical_shape l)) InvalidArgument;;
  guard_res (forallb valid_tile (tiles l)) InvalidArgument;;
  guard_res (negb (element_size_in_bits l <? 0)) InvalidArgument;;
  validate_splits l (sizes a) (split_configs l) (replicate n false).

(** ** Indices *)

(** The terms of the dimensions after the most minor one. *)
Fixpoint linear_loop (ds multi_index : list Z) (prev : Z) (m : list Z) (linear_index scale : Z)
    : res Z :=
  match m with
  | [] => Ok linear_index
  | dim :: m =>
      d ← at_z ds prev;
      scale ← s64 (scale * d);
      i ← at_z multi_index dim;
      term ← s64 (scale * i);
      linear_index ← s64 (linear_index + term);
      linear_loop ds multi_index dim m linear_index scale
  end.

Definition MultidimensionalIndexToLinearIndex (ds m multi_index : list Z) : res Z :=
  match m with
  | [] => Ok 0
  | dim :: m => i ← at_z multi_index dim; linear_loop ds multi_index dim m i 1
  end.

(** The first [n] dimensions of the order. *)
Definition order (l : Layout) (n : nat) : res (list Z) :=
  mapM (at_res (minor_to_major l)) (seq 0 n).

(** [/] and [%]: undefined for a zero divisor and where the quotient overflows. *)
Definition c_div (a b : Z) : res Z := guard_res (negb (b =? 0)) Undefined;; s64 (a `quot` b).
Definition c_mod (a b : Z) : res Z := c_div a b;; Ok (a `rem` b).

Fixpoint delinear_loop (ds : list Z) (linear_index : Z) (m : list Z) (divisor : Z)
    (multi_index : list Z) : res (list Z) :=
  match m with
  | [] => Ok multi_index
  | dim :: m =>
      d ← at_z ds dim;
      q ← c_div linear_index divisor;
      i ← c_mod q d;
      divisor ← s64 (divisor * d);
      delinear_loop ds linear_index m divisor (<[Z.to_nat dim := i]> multi_index)
  end.

Definition LinearIndexToMultidimensionalIndex (ds m : list Z) (linear_index : Z) : res (list Z) :=
  delinear_loop ds linear_index m 1 (replicate (length ds) 0).

Fixpoint GetDimensionStride (ds m : list Z) (dim stride : Z) : res Z :=
  match m with
  | [] => Ok stride
  | d :: m =>
      if d =? dim then Ok stride
      else n ← at_z ds d; stride ← s64 (stride * n); GetDimensionStride ds m dim stride
  end.

Definition IndexInBounds (ds index : list Z) : bool :=
  bool_decide (length ds = length index) &&
  forallb (λ p : Z * Z, negb (p.2 >=? p.1)) (zip ds index).

Fixpoint compare_loop (lhs rhs : list Z) : Z :=
  match lhs, rhs with
  | l :: lhs, r :: rhs => if l <? r then -1 else if l >? r then 1 else compare_loop lhs rhs
  | _, _ => 0
  end.

Definition CompareIndices (lhs rhs : list Z) : res Z :=
  guard_res (bool_decide (length rhs = length lhs)) CheckFailed;; Ok (compare_loop lhs rhs).

(** From the last index on, on the reversed lists: the index bumped, and what was
    passed set to 0; nothing when no dimension has room. *)
Fixpoint bump_loop (ds indices : list Z) (passed : nat) : option (list Z) :=
  match ds, indices with
  | limit :: ds, i :: indices =>
      if i + 1 <? limit then Some (replicate passed 0 ++ (i + 1) :: indices)
      else bump_loop ds indices (S passed)
  | _, _ => None
  end.

(** Whether the indices were bumped, and the indices. *)
Definition BumpIndices (ds indices : list Z) : res (bool * list Z) :=
  guard_res (bool_decide (length indices ≤ length ds)%nat) Undefined;;
  Ok (match bump_loop (reverse (take (length indices) ds)) (reverse indices) 0 with
      | Some l => (true, reverse l)
      | None => (false, indices)
      end).

(** ** Tiles *)

(** The index with only the first tile. *)
Fixpoint linear_tile_loop (ds indices : list Z) (tile_minor_first m : list Z)
    (linear_index tile_multiplier within_tile_multiplier : Z) : res Z :=
  match m with
  | [] => Ok linear_index
  | logical_dim :: m =>
      shape_dim_size ← at_z ds logical_dim;
      index ← at_z indices logical_dim;
      match tile_minor_first with
      | tile_dim_size :: tile_minor_first =>
          q ← c_div index tile_dim_size; r ← c_mod index tile_dim_size;
          outer ← s64 (tile_multiplier * q); inner ← s64 (within_tile_multiplier * r);
          both ← s64 (outer + inner); linear_index ← s64 (linear_index + both);
          n ← WindowArith.CeilOfRatio shape_dim_size tile_dim_size;
          tile_multiplier ← s64 (tile_multiplier * n);
          within_tile_multiplier ← s64 (within_tile_multiplier * tile_dim_size);
          linear_tile_loop ds indices tile_minor_first m linear_index tile_multiplier
            within_tile_multiplier
      | [] =>
          term ← s64 (index * tile_multiplier);
          linear_index ← s64 (linear_index + term);
          tile_multiplier ← s64 (tile_multiplier * shape_dim_size);
          linear_tile_loop ds indices [] m linear_index tile_multiplier within_tile_multiplier
      end
  end.

Fixpoint product_loop (l : list Z) (acc : Z) : res Z :=
  match l with [] => Ok acc | x :: l => acc ← s64 (acc * x); product_loop l acc end.

(** [Product], and the same loop over the dimensions of a tile. *)
Definition Product (l : list Z) : res Z := product_loop l 1.

Definition LinearIndex (s : LaidShape) (indices : list Z) : res Z :=
  l ← layout s;
  let ds := sizes (array s) in
  guard_res (bool_decide (length ds = length indices)) CheckFailed;;
  match indices with
  | [] => Ok 0
  | [i] => Ok i
  | _ =>
      let tile := default [] (head (tiles l)) in
      tile_multiplier ← Product tile;
      m ← order l (length ds);
      linear_tile_loop ds indices (reverse tile) m 0 tile_multiplier 1
  end.

(** One level of tiles: sizes and indices from the most major dimension on. *)
Definition pad_front {A} (n : nat) (x : A) (l : list A) : list A := replicate (n - length l) x ++ l.

Definition split_size (p : Z * Z) : res Z := WindowArith.CeilOfRatio p.1 p.2.

Definition tile_shape (tile : Tile) (current_shape : list Z) : res (list Z) :=
  let suffix_start := (length current_shape - length tile)%nat in
  outer ← mapM split_size (zip (drop suffix_start current_shape) tile);
  Ok (take suffix_start current_shape ++ outer ++ tile).

Definition tile_indices (tile : Tile) (current_indices : list Z) : res (list Z) :=
  let suffix_start := (length current_indices - length tile)%nat in
  let suffix := zip (drop suffix_start current_indices) tile in
  outer ← mapM (λ p : Z * Z, c_div p.1 p.2) suffix;
  inner ← mapM (λ p : Z * Z, c_mod p.1 p.2) suffix;
  Ok (take suffix_start current_indices ++ outer ++ inner).

Fixpoint tile_levels (ts : list Tile) (current_shape current_indices : list Z)
    : res (list Z * list Z) :=
  match ts with
  | [] => Ok (current_shape, current_indices)
  | tile :: ts =>
      let current_shape := pad_front (length tile) 1 current_shape in
      let current_indices := pad_front (length tile) 0 current_indices in
      current_indices ← tile_indices tile current_indices;
      current_shape ← tile_shape tile current_shape;
      tile_levels ts current_shape current_indices
  end.

(** On the reversed lists. *)
Fixpoint row_major_loop (shape indices : list Z) (linear_index multiplier : Z) : res Z :=
  match shape, indices with
  | d :: shape, i :: indices =>
      term ← s64 (i * multiplier);
      linear_index ← s64 (linear_index + term);
      multiplier ← s64 (multiplier * d);
      row_major_loop shape indices linear_index multiplier
  | _, _ => Ok linear_index
  end.

(** The list in the physical order, from the most major dimension on. *)
Definition physical_order (m xs : list Z) : res (list Z) := mapM (at_z xs) (reverse m).

Definition LinearIndexForNestedTiling (s : LaidShape) (indices : list Z) : res Z :=
  l ← layout s;
  let ds := sizes (array s) in
  guard_res (bool_decide (length ds = length indices)) CheckFailed;;
  match indices with
  | [] => Ok 0
  | _ =>
      m ← order l (length ds);
      current_shape ← physical_order m ds;
      current_indices ← physical_order m indices;
      '(current_shape, current_indices) ← tile_levels (tiles l) current_shape current_indices;
      row_major_loop (reverse current_shape) (reverse current_indices) 0 1
  end.

(** The shapes before the levels, the last one first, and the final shape. *)
Fixpoint tiling_steps (ts : list Tile) (current_shape : list Z)
    (steps : list (list Z * Tile)) : res (list (list Z * Tile) * list Z) :=
  match ts with
  | [] => Ok (steps, current_shape)
  | tile :: ts =>
      let shape_before := pad_front (length tile) 1 current_shape in
      current_shape ← tile_shape tile shape_before;
      tiling_steps ts current_shape ((shape_before, tile) :: steps)
  end.

(** The digits from the last dimension on, on the reversed shape. *)
Fixpoint digits_loop (shape : list Z) (remaining_index : Z) : res (list Z) :=
  match shape with
  | [] => Ok []
  | d :: shape =>
      i ← c_mod remaining_index d;
      remaining_index ← c_div remaining_index d;
      rest ← digits_loop shape remaining_index;
      Ok (i :: rest)
  end.

(** [outer * tile + inner] for every tiled dimension. *)
Fixpoint join_indices (outer inner tile : list Z) {struct tile} : res (list Z) :=
  match tile, outer, inner with
  | [], _, _ => Ok []
  | t :: tile, o :: outer, i :: inner =>
      n ← s64 (o * t); n ← s64 (n + i); rest ← join_indices outer inner tile; Ok (n :: rest)
  | _, _, _ => Fail Undefined
  end.

Fixpoint untile_levels (steps : list (list Z * Tile)) (current_indices : list Z) : res (list Z) :=
  match steps with
  | [] => Ok current_indices
  | (shape_before, tile) :: steps =>
      let suffix_start := (length shape_before - length tile)%nat in
      joined ← join_indices (drop suffix_start current_indices)
                 (drop (suffix_start + length tile) current_indices) tile;
      untile_levels steps (take suffix_start current_indices ++ joined)
  end.

Definition DelinearizeIndexForNestedTiling (s : LaidShape) (linear_index : Z) : res (list Z) :=
  l ← layout s;
  let ds := sizes (array s) in
  match ds with
  | [] => Ok []
  | _ =>
      m ← order l (length ds);
      current_shape ← physical_order m ds;
      '(steps, current_shape) ← tiling_steps (tiles l) current_shape [];
      current_indices ← digits_loop (reverse current_shape) linear_index;
      current_indices ← untile_levels steps (reverse current_indices);
      let pad_offset := (length current_indices - length ds)%nat in
      scatter (drop pad_offset current_indices) (reverse m)
        (replicate (length ds) 0)
  end.

(** One tile: the suffix after it, unless a size is not a multiple of the tile or a
    dimension after one that is tiled has several tiles. *)
Fixpoint untiled_dims (tiled_shape : list Z) (tile : Tile) (allow_multiple_tiles : bool)
    : res (option (list Z)) :=
  match tiled_shape, tile with
  | d :: tiled_shape', t :: tile' =>
      r ← c_mod d t;
      if negb (r =? 0) then Ok None
      else
        guard_res (t >? 0) CheckFailed;;
        q ← c_div d t;
        if negb allow_multiple_tiles && negb (q =? 1) then Ok None
        else
          rest ← untiled_dims tiled_shape' tile' (allow_multiple_tiles && (t =? 1));
          Ok (option_map (cons q) rest)
  | _, _ => Ok (Some [])
  end.

Fixpoint IsUntiledLayout (ts : list Tile) (current_shape : list Z) : res bool :=
  match ts with
  | [] => Ok true
  | tile :: ts =>
      guard_res (bool_decide (length tile ≤ length current_shape)%nat) CheckFailed;;
      let suffix_start := (length current_shape - length tile)%nat in
      outer ← untiled_dims (drop suffix_start current_shape) tile true;
      match outer with
      | None => Ok false
      | Some outer => IsUntiledLayout ts (take suffix_start current_shape ++ outer ++ tile)
      end
  end.

(** ** Splits *)

(** An [int] read from an [int64_t]. *)
Definition to_int (z : Z) : Z := (z + 2 ^ 31) mod 2 ^ 32 - 2 ^ 31.

(** The largest part of a dimension that is split at the indices. *)
Fixpoint max_split (l : list Z) (last_split_index max_split_size : Z) : Z * Z :=
  match l with
  | [] => (last_split_index, max_split_size)
  | split_index :: l =>
      let split_index := to_int split_index in
      max_split l split_index (Z.max (split_index - last_split_index) max_split_size)
  end.

(** The first split of the dimension. *)
Fixpoint find_split (l : Layout) (dim : Z) (cs : list SplitConfig) : res (option SplitConfig) :=
  match cs with
  | [] => Ok None
  | config :: cs =>
      d ← Major l (dimension config);
      if d =? dim then Ok (Some config) else find_split l dim cs
  end.

Definition MaxSplitSize (s : LaidShape) (dim : Z) : res Z :=
  match opt_layout s with
  | None => at_z (sizes (array s)) dim
  | Some l =>
      split_config ← find_split l dim (split_configs l);
      d ← at_z (sizes (array s)) dim;
      match split_config with
      | Some config =>
          let '(last_split_index, max_split_size) := max_split (split_indices config) 0 0 in
          Ok (Z.max max_split_size (d - last_split_index))
      | None => Ok d
      end
  end.

Definition MaxElementsInPerSplit (s : LaidShape) : res Z :=
  ns ← mapM (λ i, MaxSplitSize s (Z.of_nat i)) (seq 0 (rank (array s)));
  Product ns.

End Layouts.
