(* ===== verification/IndexProofs.v ===== *)
(** * Linear and multidimensional indices

    A layout numbers the elements of an array without gaps, the stride of a
    dimension is the distance of neighbours along it, and bumping an index counts
    through the default order. *)
From stdpp Require Import relations.
From S2P Require Import Prelude WindowArith PermUtil Radix Layouts.
#[local] Open Scope Z_scope.

Module IndexProofs.
Import PermUtil Radix Layouts.

(** ** Lists read through an order *)

Definition sel (xs m : list Z) : list Z := (λ p, xs !!! Z.to_nat p) <$> m.

(** Every dimension once. *)
Definition valid_layout (ds m : list Z) : Prop := perm m ∧ length m = length ds.

Definition in_range (xs m : list Z) : Prop := ∀ p, p ∈ m → 0 ≤ p < Z.of_nat (length xs).

Lemma valid_layout_in_range ds m xs : valid_layout ds m → length xs = length ds → in_range xs m.
Proof. intros [[_ H] El] E p Hp. rewrite E, <- El. by apply H. Qed.

Lemma at_z_total (xs : list Z) p : 0 ≤ p < Z.of_nat (length xs) → at_z xs p = Ok (xs !!! Z.to_nat p).
Proof.
  intros Hp. apply at_z_ok. split; [lia |]. apply list_lookup_lookup_total_lt. lia.
Qed.

Lemma sel_cons xs p m : sel xs (p :: m) = xs !!! Z.to_nat p :: sel xs m.
Proof. done. Qed.

Lemma length_sel xs m : length (sel xs m) = length m.
Proof. apply length_fmap. Qed.

Lemma perm_seqZ m : perm m → m ≡ₚ seqZ 0 (Z.of_nat (length m)).
Proof. intros Hm. by apply IsPermutation_exact, IsPermutation_perm. Qed.

Lemma perm_reverse m : perm m → perm (reverse m).
Proof.
  intros [Hn Hr]. split; [by rewrite reverse_Permutation |].
  intros p. rewrite elem_of_reverse, length_reverse. apply Hr.
Qed.

Lemma sel_seqZ xs : sel xs (seqZ 0 (Z.of_nat (length xs))) = xs.
Proof.
  apply list_eq. intros i. unfold sel. rewrite list_lookup_fmap.
  destruct (decide (i < length xs)%nat) as [Hi | Hi].
  - rewrite (proj2 (lookup_seqZ 0 _ i (Z.of_nat i))) by lia. cbn [fmap option_fmap option_map].
    rewrite Nat2Z.id. symmetry. by apply list_lookup_lookup_total_lt.
  - rewrite lookup_seqZ_ge by lia. by rewrite lookup_ge_None_2 by lia.
Qed.

Lemma sel_perm xs m : valid_layout xs m → sel xs m ≡ₚ xs.
Proof.
  intros [Hm El]. rewrite <- (sel_seqZ xs) at 2. rewrite <- El. unfold sel. by rewrite <- perm_seqZ.
Qed.

Lemma sel_lookup xs m j p : m !! j = Some p → sel xs m !! j = Some (xs !!! Z.to_nat p).
Proof. intros H. unfold sel. by rewrite list_lookup_fmap, H. Qed.

Lemma sel_inj xs ys m :
  perm m → length m = length xs → length m = length ys → sel xs m = sel ys m → xs = ys.
Proof.
  intros Hm Ex Ey E. apply list_eq_same_length with (length m); [done | done |].
  intros i x y Hi Hx Hy. destruct (proj1 (list_elem_of_lookup m (Z.of_nat i))) as [j Hj].
  { apply perm_surj; [done | lia]. }
  pose proof (sel_lookup xs m j _ Hj) as H1. pose proof (sel_lookup ys m j _ Hj) as H2.
  rewrite E, H2, Nat2Z.id in H1. injection H1 as H1.
  apply list_lookup_total_correct in Hx, Hy. congruence.
Qed.

Lemma in_bounds_lookup ds xs i :
  in_bounds ds xs → (i < length ds)%nat → 0 ≤ xs !!! i < ds !!! i.
Proof.
  intros H Hi. pose proof (in_bounds_length _ _ H) as El.
  destruct (lookup_lt_is_Some_2 ds i Hi) as [d Hd].
  destruct (Forall2_lookup_l _ _ _ _ _ H Hd) as (x & Hx & Hr).
  by rewrite (list_lookup_total_correct _ _ _ Hd), (list_lookup_total_correct _ _ _ Hx).
Qed.

Lemma in_bounds_sel ds xs m : in_bounds ds xs → in_range ds m → in_bounds (sel ds m) (sel xs m).
Proof.
  intros H Hm. induction m as [| p m IH]; [constructor |]. constructor.
  - apply in_bounds_lookup; [done |]. specialize (Hm p ltac:(by left)). lia.
  - apply IH. intros q Hq. apply Hm. by right.
Qed.

Lemma sel_pos ds m : Forall (λ d, 0 < d) ds → in_range ds m → Forall (λ d, 0 < d) (sel ds m).
Proof.
  intros H Hm. apply Forall_fmap, Forall_forall. intros p Hp%Hm.
  rewrite Forall_lookup in H. apply (H (Z.to_nat p)), list_lookup_lookup_total_lt. lia.
Qed.

(** ** From an index to its number *)

Lemma prod_le_tail d l : 0 < d → Forall (λ d, 0 < d) l → d ≤ d * prod l.
Proof. intros Hd Hl. pose proof (prod_pos l Hl). nia. Qed.

Lemma linear_loop_spec ds xs rest prev linear_index scale :
  in_range ds (prev :: rest) → length xs = length ds →
  in_bounds (sel ds (prev :: rest)) (sel xs (prev :: rest)) →
  0 ≤ linear_index < scale * (ds !!! Z.to_nat prev) → 0 < scale →
  scale * prod (sel ds (prev :: rest)) ≤ int64_max →
  linear_loop ds xs prev rest linear_index scale =
    Ok (linear_index + scale * (ds !!! Z.to_nat prev) * horner (sel ds rest) (sel xs rest)).
Proof.
  intros Hr Hl Hb Hlin Hscale Hmax. revert prev linear_index scale Hr Hb Hlin Hscale Hmax.
  induction rest as [| dim rest IH]; intros prev linear_index scale Hr Hb Hlin Hscale Hmax;
    cbn [linear_loop].
  { cbn [sel fmap list_fmap horner]. f_equal. lia. }
  pose proof (in_bounds_pos _ _ Hb) as Hpos. rewrite sel_cons in Hpos.
  apply Forall_cons in Hpos as [Hd Hpos]. rewrite !(sel_cons _ prev) in Hb.
  inversion Hb as [| ? ? ? ? _ Hb']; subst.
  change (in_bounds (sel ds (dim :: rest)) (sel xs (dim :: rest))) in Hb'.
  clear Hb. rewrite !sel_cons in Hb'. inversion Hb' as [| ? ? ? ? Hi _]; subst.
  rewrite (sel_cons ds prev), prod_cons in Hmax. rewrite (sel_cons ds dim) in Hpos, Hmax.
  rewrite prod_cons in Hmax. apply Forall_cons in Hpos as [He Hpos].
  pose proof (prod_pos _ Hpos) as Hp.
  set (d := ds !!! Z.to_nat prev) in *. set (e := ds !!! Z.to_nat dim) in *.
  set (i := xs !!! Z.to_nat dim) in *. set (P := prod (sel ds rest)) in *.
  rewrite (at_z_total ds prev) by (apply Hr; by left). fold d. cbn [mbind res_bind].
  assert (H1 : scale * d * e ≤ scale * d * e * P) by nia.
  assert (H2 : scale * d ≤ scale * d * e) by nia.
  assert (H3 : scale * d * i + scale * d ≤ scale * d * e) by nia.
  rewrite s64_in by int_nia. cbn [mbind res_bind].
  rewrite (at_z_total xs dim) by (rewrite Hl; apply Hr; right; by left). fold i. cbn [mbind res_bind].
  rewrite s64_in by int_nia. cbn [mbind res_bind]. rewrite s64_in by int_nia. cbn [mbind res_bind].
  rewrite IH; try done.
  - rewrite !sel_cons. cbn [horner]. fold d e i. f_equal. ring.
  - intros p Hp'. apply Hr. by right.
  - fold e. nia.
  - nia.
  - rewrite sel_cons, prod_cons. fold e P. nia.
Qed.

Lemma MultidimensionalIndexToLinearIndex_spec ds m xs :
  valid_layout ds m → in_bounds ds xs → prod ds ≤ int64_max →
  MultidimensionalIndexToLinearIndex ds m xs = Ok (horner (sel ds m) (sel xs m)).
Proof.
  intros Hm Hb Hmax. pose proof (valid_layout_in_range ds m ds Hm eq_refl) as Hr.
  pose proof (in_bounds_length _ _ Hb) as El. pose proof (in_bounds_sel _ _ _ Hb Hr) as Hbs.
  pose proof (sel_perm _ _ Hm) as Hperm. rewrite <- Hperm in Hmax.
  destruct m as [| dim m]; [done |]. cbn [MultidimensionalIndexToLinearIndex].
  rewrite at_z_total by (rewrite <- El; apply Hr; by left). cbn [mbind res_bind].
  rewrite linear_loop_spec; try done; try lia.
  - rewrite !sel_cons. cbn [horner]. f_equal. ring.
  - rewrite !sel_cons in Hbs. inversion Hbs; subst. lia.
Qed.

(** ** From a number to its index *)

Lemma sel_insert_notin xs m p x :
  in_range xs m → 0 ≤ p → p ∉ m → sel (<[Z.to_nat p := x]> xs) m = sel xs m.
Proof.
  intros Hr Hp Hn. apply list_fmap_ext. intros i q Hq. apply list_elem_of_lookup_2 in Hq.
  pose proof (Hr q Hq). apply list_lookup_total_insert_ne. intros E. apply Hn.
  by replace p with q by lia.
Qed.

Lemma c_div_pos a b : 0 ≤ a ≤ int64_max → 0 < b → c_div a b = Ok (a / b).
Proof.
  intros Ha Hb. unfold c_div. rewrite (proj2 (Z.eqb_neq b 0)) by lia. cbn [negb guard_res mbind res_bind].
  rewrite Z.quot_div_nonneg by lia. pose proof (Z.div_pos a b). pose proof (Z.div_le_upper_bound a b a).
  apply s64_in. int_nia.
Qed.

Lemma c_mod_pos a b : 0 ≤ a ≤ int64_max → 0 < b → c_mod a b = Ok (a mod b).
Proof.
  intros Ha Hb. unfold c_mod. rewrite c_div_pos by done. cbn [mbind res_bind].
  by rewrite Z.rem_mod_nonneg by lia.
Qed.

Lemma delinear_loop_spec ds k m divisor multi :
  NoDup m → in_range ds m → Forall (λ d, 0 < d) ds → length multi = length ds →
  0 ≤ k ≤ int64_max → 0 < divisor → divisor * prod (sel ds m) ≤ int64_max →
  ∃ out, delinear_loop ds k m divisor multi = Ok out ∧ length out = length ds ∧
    sel out m = digits (sel ds m) (k / divisor) ∧
    ∀ p, 0 ≤ p → p ∉ m → out !!! Z.to_nat p = multi !!! Z.to_nat p.
Proof.
  intros Hnd Hr Hpos. revert divisor multi.
  induction Hnd as [| dim m Hdim Hnd IH]; intros divisor multi Hl Hk Hdiv Hmax; cbn [delinear_loop].
  { exists multi. done. }
  pose proof (Hr dim ltac:(by left)) as Hd. assert (Hr' : in_range ds m) by (intros q Hq; apply Hr; by right).
  pose proof (sel_pos _ _ Hpos Hr) as Hps. rewrite sel_cons in Hps. apply Forall_cons in Hps as [He Hps].
  rewrite sel_cons, prod_cons in Hmax. set (e := ds !!! Z.to_nat dim) in *.
  pose proof (prod_le_tail _ _ He Hps) as Hle. rewrite at_z_total by done. fold e. cbn [mbind res_bind].
  pose proof (Z.div_pos k divisor ltac:(lia) Hdiv). pose proof (Z.div_le_upper_bound k divisor k).
  rewrite c_div_pos by done. cbn [mbind res_bind]. rewrite c_mod_pos by nia. cbn [mbind res_bind].
  rewrite s64_in by int_nia. cbn [mbind res_bind].
  destruct (IH Hr' (divisor * e) (<[Z.to_nat dim := (k / divisor) mod e]> multi))
    as (out & E & Hlen & Hsel & Hout); [by rewrite length_insert | done | nia | nia |].
  exists out. split; [done |]. split; [done |]. split.
  - rewrite !sel_cons, Hsel. cbn [digits]. fold e. rewrite Z.div_div by lia. f_equal.
    rewrite Hout by (done || lia). apply list_lookup_total_insert_eq. lia.
  - intros p Hp Hn. rewrite Hout by (done || set_solver). apply list_lookup_total_insert_ne.
    intros E'. apply Hn. replace p with dim by lia. by left.
Qed.

Lemma LinearIndexToMultidimensionalIndex_spec ds m k :
  valid_layout ds m → Forall (λ d, 0 < d) ds → prod ds ≤ int64_max → 0 ≤ k ≤ int64_max →
  ∃ out, LinearIndexToMultidimensionalIndex ds m k = Ok out ∧ length out = length ds ∧
    sel out m = digits (sel ds m) k.
Proof.
  intros Hm Hpos Hmax Hk. pose proof (valid_layout_in_range ds m ds Hm eq_refl) as Hr.
  unfold LinearIndexToMultidimensionalIndex.
  destruct (delinear_loop_spec ds k m 1 (replicate (length ds) 0)) as (out & E & Hlen & Hsel & _);
    [apply Hm | done | done | apply length_replicate | done | lia | |].
  { rewrite sel_perm by done. lia. }
  exists out. by rewrite Z.div_1_r in Hsel.
Qed.

Lemma sel_in_bounds ds m xs :
  valid_layout ds m → length xs = length ds → in_bounds (sel ds m) (sel xs m) → in_bounds ds xs.
Proof.
  intros [Hm El] Ex Hb. apply Forall2_same_length_lookup. split; [done |]. intros i d x Hd Hx.
  destruct (proj1 (list_elem_of_lookup m (Z.of_nat i))) as [j Hj].
  { apply perm_surj; [done |]. apply lookup_lt_Some in Hd. lia. }
  pose proof (sel_lookup ds m j _ Hj) as H1. pose proof (sel_lookup xs m j _ Hj) as H2.
  rewrite Nat2Z.id in H1, H2. apply list_lookup_total_correct in Hd, Hx. subst.
  eapply Forall2_lookup_lr in Hb; [| exact H1 | exact H2]. done.
Qed.

(** ** Strides *)

(** The dimensions more minor than [dim]. *)
Fixpoint before (m : list Z) (dim : Z) : list Z :=
  match m with
  | [] => []
  | d :: m => if d =? dim then [] else d :: before m dim
  end.

Definition stride_of (ds m : list Z) (dim : Z) : Z := prod (sel ds (before m dim)).

Lemma before_split m dim : dim ∈ m → ∃ after, m = before m dim ++ dim :: after.
Proof.
  induction m as [| d m IH]; [by intros ?%elem_of_nil |]. cbn [before].
  destruct (Z.eqb_spec d dim) as [-> | Hne]; [by exists m |].
  intros [? | Hm]%elem_of_cons; [congruence |]. destruct (IH Hm) as [after E]. exists after.
  cbn [app]. by f_equal.
Qed.

Lemma before_elem m dim d : d ∈ before m dim → d ∈ m ∧ d ≠ dim.
Proof.
  induction m as [| e m IH]; cbn [before]; [by intros ?%elem_of_nil |].
  destruct (Z.eqb_spec e dim); [by intros ?%elem_of_nil |].
  intros [-> | H]%elem_of_cons; [split; [by left | done] |]. destruct (IH H). split; [by right | done].
Qed.

Lemma GetDimensionStride_spec ds m dim stride :
  in_range ds m → Forall (λ d, 0 < d) ds → 0 < stride → stride * prod (sel ds m) ≤ int64_max →
  GetDimensionStride ds m dim stride = Ok (stride * stride_of ds m dim).
Proof.
  unfold stride_of. intros Hr Hpos. revert stride. induction m as [| d m IH]; intros stride Hs Hmax;
    cbn [GetDimensionStride before].
  { unfold prod. simpl. f_equal. lia. }
  assert (Hr' : in_range ds m) by (intros q Hq; apply Hr; by right).
  pose proof (sel_pos _ _ Hpos Hr) as Hps. rewrite sel_cons in Hps. apply Forall_cons in Hps as [He Hps].
  rewrite sel_cons, prod_cons in Hmax. pose proof (prod_le_tail _ _ He Hps).
  destruct (d =? dim); [cbn [sel fmap list_fmap prod foldr]; f_equal; unfold prod; simpl; lia |].
  rewrite at_z_total by (apply Hr; by left). cbn [mbind res_bind].
  rewrite s64_in by int_nia. cbn [mbind res_bind]. rewrite IH; [| done | nia | nia].
  rewrite sel_cons, prod_cons. f_equal. ring.
Qed.

Lemma bump_dim_in_bounds ds xs dim x :
  in_bounds ds xs → xs !! dim = Some x → x + 1 < ds !!! dim → in_bounds ds (<[dim := x + 1]> xs).
Proof.
  intros Hb Hx Hlt. pose proof (in_bounds_length _ _ Hb) as El. apply lookup_lt_Some in Hx as Hl.
  destruct (lookup_lt_is_Some_2 ds dim) as [d Hd]; [lia |].
  rewrite <- (list_insert_id ds dim d) by done. apply Forall2_insert; [done |].
  destruct (Forall2_lookup_lr _ _ _ _ _ _ Hb Hd Hx). rewrite (list_lookup_total_correct _ _ _ Hd) in Hlt. lia.
Qed.

Lemma stride_step ds m xs dim x :
  valid_layout ds m → in_bounds ds xs → xs !! dim = Some x →
  horner (sel ds m) (sel (<[dim := x + 1]> xs) m) =
    horner (sel ds m) (sel xs m) + stride_of ds m (Z.of_nat dim).
Proof.
  intros Hm Hb Hx. pose proof (in_bounds_length _ _ Hb) as El. apply lookup_lt_Some in Hx as Hl.
  pose proof (valid_layout_in_range ds m xs Hm ltac:(lia)) as Hr. unfold stride_of.
  destruct Hm as [Hp Hlen]. destruct (before_split m (Z.of_nat dim)) as [after E].
  { apply perm_surj; [done | lia]. }
  set (b := before m (Z.of_nat dim)) in *. destruct Hp as [Hnd _]. rewrite E in Hnd, Hr |- *.
  apply NoDup_app in Hnd as (_ & Hnb & [Hna _]%NoDup_cons).
  assert (Hins : ∀ m', in_range xs m' → Z.of_nat dim ∉ m' → sel (<[dim := x + 1]> xs) m' = sel xs m').
  { intros m' Hr' Hn. rewrite <- (Nat2Z.id dim) at 1. apply sel_insert_notin; [done | lia | done]. }
  unfold sel at 1 2 3 4. rewrite !fmap_app, !fmap_cons. fold (sel ds b) (sel ds after) (sel xs b) (sel xs after).
  fold (sel (<[dim := x + 1]> xs) b) (sel (<[dim := x + 1]> xs) after).
  rewrite !Hins; [| | done | |].
  - rewrite !horner_app by (by rewrite !length_sel). cbn [horner]. rewrite Nat2Z.id.
    rewrite list_lookup_total_insert_eq by lia. rewrite (list_lookup_total_correct _ _ _ Hx). ring.
  - intros q Hq. apply Hr. apply elem_of_app. right. by right.
  - intros q Hq. apply Hr. apply elem_of_app. by left.
  - intros Hq. apply (Hnb _ Hq). by left.
Qed.

(** ** Both ways *)

Lemma linear_round_trip ds m xs :
  valid_layout ds m → in_bounds ds xs → prod ds ≤ int64_max →
  ∃ k, MultidimensionalIndexToLinearIndex ds m xs = Ok k ∧ 0 ≤ k < prod ds ∧
    LinearIndexToMultidimensionalIndex ds m k = Ok xs.
Proof.
  intros Hm Hb Hmax. pose proof (valid_layout_in_range ds m ds Hm eq_refl) as Hr.
  pose proof (in_bounds_sel _ _ _ Hb Hr) as Hbs. pose proof (horner_bounds _ _ Hbs) as Hk.
  assert (Ep : prod (sel ds m) = prod ds) by by rewrite (sel_perm ds m Hm).
  rewrite Ep in Hk. eexists. split; [by apply MultidimensionalIndexToLinearIndex_spec |]. split; [done |].
  destruct (LinearIndexToMultidimensionalIndex_spec ds m (horner (sel ds m) (sel xs m)))
    as (out & E & El & Es); [done | by eapply in_bounds_pos | done | lia |].
  rewrite E. f_equal. pose proof (in_bounds_length _ _ Hb). destruct Hm as [Hp Hl].
  apply (sel_inj _ _ m); [done | lia | lia |]. rewrite Es. by apply digits_horner.
Qed.

Lemma index_round_trip ds m k :
  valid_layout ds m → Forall (λ d, 0 < d) ds → prod ds ≤ int64_max → 0 ≤ k < prod ds →
  ∃ xs, LinearIndexToMultidimensionalIndex ds m k = Ok xs ∧ in_bounds ds xs ∧
    MultidimensionalIndexToLinearIndex ds m xs = Ok k.
Proof.
  intros Hm Hpos Hmax Hk. pose proof (valid_layout_in_range ds m ds Hm eq_refl) as Hr.
  destruct (LinearIndexToMultidimensionalIndex_spec ds m k) as (xs & E & El & Es); [done.. | lia |].
  assert (Hb : in_bounds ds xs).
  { apply (sel_in_bounds _ m); [done | done |]. rewrite Es. apply digits_in_bounds. by apply sel_pos. }
  exists xs. split; [done |]. split; [done |].
  rewrite MultidimensionalIndexToLinearIndex_spec, Es by done. f_equal. rewrite horner_digits.
  - done.
  - by apply sel_pos.
  - by rewrite (sel_perm ds m Hm).
Qed.

(** ** Counting in the default order *)

Lemma valid_descending ds : valid_layout ds (descending (length ds)).
Proof.
  unfold descending. split; [| rewrite length_reverse, length_seqZ; lia]. split.
  - rewrite reverse_Permutation. apply NoDup_seqZ.
  - intros p. rewrite elem_of_reverse, elem_of_seqZ, length_reverse, length_seqZ. lia.
Qed.

Lemma sel_descending n xs : length xs = n → sel xs (descending n) = reverse xs.
Proof.
  intros <-. unfold descending. rewrite <- (sel_seqZ xs) at 3. unfold sel. apply fmap_reverse.
Qed.

Lemma descending_index ds xs :
  in_bounds ds xs → prod ds ≤ int64_max →
  MultidimensionalIndexToLinearIndex ds (descending (length ds)) xs =
    Ok (horner (reverse ds) (reverse xs)).
Proof.
  intros Hb Hmax. rewrite MultidimensionalIndexToLinearIndex_spec by (done || apply valid_descending).
  pose proof (in_bounds_length _ _ Hb). by rewrite !sel_descending by done.
Qed.

Lemma bump_loop_spec ds xs passed :
  in_bounds ds xs →
  match bump_loop ds xs passed with
  | Some l => ∃ l', l = replicate passed 0 ++ l' ∧ in_bounds ds l' ∧ horner ds l' = horner ds xs + 1
  | None => horner ds xs = prod ds - 1
  end.
Proof.
  intros Hb. revert passed. induction Hb as [| d i ds xs Hi Hb IH]; intros passed; cbn [bump_loop].
  { done. }
  destruct (Z.ltb_spec (i + 1) d).
  - exists ((i + 1) :: xs). split; [done |]. split; [constructor; [lia | done] |]. cbn [horner]. lia.
  - assert (i = d - 1) as -> by lia. specialize (IH (S passed)).
    destruct (bump_loop ds xs (S passed)) as [l |].
    + destruct IH as (l' & -> & Hl & Eh). exists (0 :: l').
      split; [by rewrite replicate_S_end, <- app_assoc |]. split; [constructor; [lia | done] |].
      cbn [horner]. rewrite Eh. ring.
    + cbn [horner]. rewrite IH, prod_cons. ring.
Qed.

Lemma in_bounds_reverse ds xs : in_bounds (reverse ds) (reverse xs) ↔ in_bounds ds xs.
Proof.
  unfold in_bounds. split; [intros H%Forall2_reverse; by rewrite !reverse_involutive in H |].
  apply Forall2_reverse.
Qed.

Lemma BumpIndices_spec ds xs :
  in_bounds ds xs → prod ds ≤ int64_max →
  ∃ k, MultidimensionalIndexToLinearIndex ds (descending (length ds)) xs = Ok k ∧
    if k + 1 <? prod ds then
      ∃ ys, BumpIndices ds xs = Ok (true, ys) ∧ in_bounds ds ys ∧
        MultidimensionalIndexToLinearIndex ds (descending (length ds)) ys = Ok (k + 1)
    else BumpIndices ds xs = Ok (false, xs).
Proof.
  intros Hb Hmax. pose proof (in_bounds_length _ _ Hb) as El.
  eexists. split; [by apply descending_index |]. unfold BumpIndices.
  rewrite bool_decide_eq_true_2 by lia. cbn [guard_res mbind res_bind].
  rewrite take_ge by lia. rewrite <- in_bounds_reverse in Hb.
  pose proof (bump_loop_spec _ _ 0 Hb) as H. pose proof (horner_bounds _ _ Hb) as Hk.
  destruct (bump_loop (reverse ds) (reverse xs) 0) as [l |].
  - destruct H as (l' & -> & Hl & Eh). cbn [replicate app]. pose proof (horner_bounds _ _ Hl) as Hk'.
    rewrite prod_reverse in Hk'. rewrite (proj2 (Z.ltb_lt _ _)) by lia.
    exists (reverse l'). assert (Hl' : in_bounds ds (reverse l')).
    { by rewrite <- in_bounds_reverse, reverse_involutive. }
    split; [done |]. split; [done |]. rewrite descending_index by done.
    by rewrite reverse_involutive, Eh.
  - rewrite prod_reverse in H. rewrite (proj2 (Z.ltb_ge _ _)) by lia. done.
Qed.

(** ** Comparing in the default order *)

Lemma horner_major ds x y xs ys d :
  in_bounds ds xs → in_bounds ds ys → x < y →
  horner (ds ++ [d]) (xs ++ [x]) < horner (ds ++ [d]) (ys ++ [y]).
Proof.
  intros Hx Hy Hlt. rewrite !horner_app by by apply in_bounds_length.
  pose proof (horner_bounds _ _ Hx). pose proof (horner_bounds _ _ Hy). cbn [horner]. nia.
Qed.

Lemma compare_loop_spec ds xs ys :
  in_bounds ds xs → in_bounds ds ys →
  compare_loop xs ys = Z.sgn (horner (reverse ds) (reverse xs) - horner (reverse ds) (reverse ys)).
Proof.
  intros Hx. revert ys. induction Hx as [| d x ds xs Hd Hx IH]; intros ys Hy;
    inversion Hy as [| ? y ? ys' Hd' Hy']; subst; [done |]. cbn [compare_loop].
  rewrite !reverse_cons. pose proof (proj2 (in_bounds_reverse _ _) Hx) as Hrx.
  pose proof (proj2 (in_bounds_reverse _ _) Hy') as Hry.
  pose proof (in_bounds_length _ _ Hrx). pose proof (in_bounds_length _ _ Hry).
  rewrite Z.gtb_ltb. destruct (Z.ltb_spec x y); [| destruct (Z.ltb_spec y x)].
  - pose proof (horner_major _ x y _ _ d Hrx Hry). lia.
  - pose proof (horner_major _ y x _ _ d Hry Hrx). lia.
  - assert (x = y) as -> by lia. rewrite (IH _ Hy'), !horner_app by done. f_equal. ring.
Qed.

Lemma CompareIndices_spec ds xs ys :
  in_bounds ds xs → in_bounds ds ys →
  CompareIndices xs ys = Ok (Z.sgn (horner (reverse ds) (reverse xs) - horner (reverse ds) (reverse ys))).
Proof.
  intros Hx Hy. pose proof (in_bounds_length _ _ Hx). pose proof (in_bounds_length _ _ Hy).
  unfold CompareIndices. rewrite bool_decide_eq_true_2 by lia. cbn [guard_res mbind res_bind].
  f_equal. by apply compare_loop_spec.
Qed.

End IndexProofs.
