(* ===== verification/TilingProofs.v ===== *)
(** * Tiles

    A tile level splits the last dimensions into a quotient and a remainder; the
    levels keep the index within the bounds of the tiled shape, undoing the levels
    gives the index back, and a level that moves nothing keeps the linear index. *)
From stdpp Require Import relations.
From S2P Require Import Prelude WindowArith PermUtil Shape Radix Layouts IndexProofs.
#[local] Open Scope Z_scope.

Module TilingProofs.
Import PermUtil Radix Layouts IndexProofs.

(** ** Runs of a loop that cannot fail *)

Lemma mapM_at xs m : in_range xs m → mapM (at_z xs) m = Ok (sel xs m).
Proof. intros H. apply mapM_pure. intros p Hp. by apply at_z_total, H. Qed.

Lemma in_range_reverse xs m : in_range xs m → in_range xs (reverse m).
Proof. intros H p. rewrite elem_of_reverse. apply H. Qed.

Lemma physical_order_spec m xs : in_range xs m → physical_order m xs = Ok (reverse (sel xs m)).
Proof.
  intros H. unfold physical_order. rewrite mapM_at by by apply in_range_reverse.
  f_equal. apply fmap_reverse.
Qed.

Lemma mapM_seq (m : list Z) k l : mapM (at_res (l ++ m)) (seq (length l) k) = mapM (at_res m) (seq 0 k).
Proof.
  rewrite <- (Nat.add_0_r (length l)). generalize 0%nat as n. induction k as [| k IH]; intros n; [done |].
  simpl. rewrite <- Nat.add_succ_r, IH.
  replace (at_res (l ++ m) (length l + n)) with (at_res m n); [done |].
  unfold at_res. rewrite lookup_app_r by lia. by replace (length l + n - length l)%nat with n by lia.
Qed.

Lemma order_all l n : length (minor_to_major l) = n → order l n = Ok (minor_to_major l).
Proof.
  unfold order. intros <-. generalize (minor_to_major l) as m. induction m as [| p m IH]; [done |].
  cbn [length seq]. simpl. replace (seq 1 (length m)) with (seq (length [p]) (length m)) by done.
  change (p :: m) with ([p] ++ m). rewrite (mapM_seq m (length m) [p]), IH. done.
Qed.

Lemma scatter_sel m xs :
  perm m → length m = length xs →
  scatter (sel xs m) m (replicate (length xs) 0) = Ok xs.
Proof.
  intros Hm El. pose proof Hm as [Hn Hr].
  destruct (scatter_spec (sel xs m) m (replicate (length xs) 0)) as (out & E & Hl & H & _);
    [done | intros x Hx; rewrite length_replicate, <- El; by apply Hr | apply length_sel |].
  rewrite length_replicate in Hl. rewrite E. f_equal.
  apply (sel_inj _ _ m); [done | lia | done |].
  apply list_eq_same_length with (length m); [apply length_sel | apply length_sel |].
  intros i x y Hi Hx Hy. destruct (lookup_lt_is_Some_2 m i Hi) as [p Hp].
  specialize (H i p Hp). rewrite (sel_lookup out m i p Hp) in Hx. rewrite Hy in H.
  apply list_lookup_total_correct in H. congruence.
Qed.

(** ** One level *)

Definition ceil_div (d t : Z) : Z := - (- d / t).

Lemma ceil_div_bounds d t : 0 < d → 0 < t → 0 < ceil_div d t ∧ d ≤ ceil_div d t * t < d + t.
Proof.
  intros Hd Ht. unfold ceil_div. pose proof (Z.div_mod (- d) t ltac:(lia)).
  pose proof (Z.mod_pos_bound (- d) t Ht). nia.
Qed.

Lemma ceil_div_index d t e : 0 < t → 0 ≤ e < d → 0 ≤ e / t < ceil_div d t.
Proof.
  intros Ht He. pose proof (ceil_div_bounds d t ltac:(lia) Ht). split; [apply Z.div_pos; lia |].
  apply Z.div_lt_upper_bound; [done | lia].
Qed.

Lemma ceil_div_divides q t : 0 < t → ceil_div (t * q) t = q.
Proof. intros Ht. unfold ceil_div. rewrite <- Z.mul_opp_r, Z.mul_comm, Z.div_mul by lia. lia. Qed.

Lemma ceil_div_one d : ceil_div d 1 = d.
Proof. unfold ceil_div. rewrite Z.div_1_r. lia. Qed.

Lemma split_size_spec d t :
  0 < d ≤ int64_max → 0 < t ≤ int64_max → split_size (d, t) = Ok (ceil_div d t).
Proof.
  intros Hd Ht. unfold split_size, WindowArith.CeilOfRatio. simpl.
  rewrite WindowArith.CeilOrFloorOfRatio_spec; [done | int_lia.. |]. intros [-> ->]. lia.
Qed.

(** The sizes and the index of the tiled suffix. *)
Definition cut {A} (t : Tile) (l : list A) : nat := length l - length t.

Definition tiled (t : Tile) (sh : list Z) : list Z :=
  take (cut t sh) sh ++ zip_with ceil_div (drop (cut t sh) sh) t ++ t.
Definition tiled_index (t : Tile) (xs : list Z) : list Z :=
  take (cut t xs) xs ++ zip_with Z.div (drop (cut t xs) xs) t ++ zip_with Z.modulo (drop (cut t xs) xs) t.

Lemma length_tiled t sh : (length t ≤ length sh)%nat → length (tiled t sh) = (length sh + length t)%nat.
Proof.
  intros H. unfold tiled, cut. rewrite !length_app, length_take, length_zip_with, length_drop. lia.
Qed.

Lemma zip_in_bounds ds es t :
  in_bounds ds es → Forall (λ d, 0 < d) t → length ds = length t →
  in_bounds (zip_with ceil_div ds t ++ t) (zip_with Z.div es t ++ zip_with Z.modulo es t).
Proof.
  intros Hb Ht El. unfold in_bounds. apply Forall2_app.
  - revert t Ht El. induction Hb as [| d e ds es He Hb IH]; intros [| x t] Ht El; try done.
    apply Forall_cons in Ht as [Hx Ht]. simpl. constructor; [by apply ceil_div_index |].
    apply IH; [done | by simplify_eq/=].
  - revert t Ht El. induction Hb as [| d e ds es He Hb IH]; intros [| x t] Ht El; try done.
    apply Forall_cons in Ht as [Hx Ht]. simpl. constructor; [by apply Z.mod_pos_bound |].
    apply IH; [done | by simplify_eq/=].
Qed.

Lemma tiled_in_bounds t sh xs :
  in_bounds sh xs → Forall (λ d, 0 < d) t → (length t ≤ length sh)%nat →
  in_bounds (tiled t sh) (tiled_index t xs).
Proof.
  intros Hb Ht El. pose proof (in_bounds_length _ _ Hb) as Ex. unfold tiled, tiled_index, cut.
  rewrite <- Ex. apply Forall2_app; [by apply Forall2_take |].
  apply zip_in_bounds; [by apply Forall2_drop | done |]. rewrite length_drop. lia.
Qed.

Lemma zip_prod_le ds t :
  Forall (λ d, 0 < d) ds → Forall (λ d, 0 < d) t → length ds = length t →
  prod ds ≤ prod (zip_with ceil_div ds t ++ t).
Proof.
  intros Hd. revert t. induction Hd as [| d ds Hd Hds IH]; intros [| x t] Ht El; try done.
  apply Forall_cons in Ht as [Hx Ht]. specialize (IH t Ht ltac:(by simplify_eq/=)).
  rewrite prod_app in IH |- *. cbn [zip_with]. rewrite !prod_cons.
  pose proof (ceil_div_bounds d x Hd Hx). pose proof (prod_pos _ Hds). pose proof (prod_pos _ Ht).
  assert (0 < prod (zip_with ceil_div ds t)) by nia.
  assert (d * prod ds ≤ (ceil_div d x * x) * (prod (zip_with ceil_div ds t) * prod t))
    by (apply Z.mul_le_mono_nonneg; lia). lia.
Qed.

Lemma zip_pos ds t :
  Forall (λ d, 0 < d) ds → Forall (λ d, 0 < d) t → Forall (λ d, 0 < d) (zip_with ceil_div ds t).
Proof.
  intros Hd. revert t. induction Hd as [| d ds Hd Hds IH]; intros [| x t] Ht; try constructor.
  - apply Forall_cons in Ht as [Hx _]. by apply ceil_div_bounds.
  - apply Forall_cons in Ht as [_ Ht]. by apply IH.
Qed.

Lemma tiled_pos t sh :
  Forall (λ d, 0 < d) sh → Forall (λ d, 0 < d) t → Forall (λ d, 0 < d) (tiled t sh).
Proof.
  intros Hsh Ht. unfold tiled. apply Forall_app. split; [by apply Forall_take |].
  apply Forall_app. split; [| done]. apply zip_pos; [by apply Forall_drop | done].
Qed.

Lemma tiled_prod t sh :
  Forall (λ d, 0 < d) sh → Forall (λ d, 0 < d) t → (length t ≤ length sh)%nat →
  prod sh ≤ prod (tiled t sh) ∧ prod t ≤ prod (tiled t sh).
Proof.
  intros Hsh Ht El. unfold tiled. set (s := cut t sh).
  assert (Hz : prod (drop s sh) ≤ prod (zip_with ceil_div (drop s sh) t ++ t)).
  { apply zip_prod_le; [by apply Forall_drop | done |]. rewrite length_drop. unfold s, cut. lia. }
  pose proof (tiled_pos t sh Hsh Ht) as Hp. unfold tiled in Hp. fold s in Hp.
  apply Forall_app in Hp as [H1 [H2 H3]%Forall_app].
  apply prod_pos in H1, H2, H3.
  rewrite <- (take_drop s sh) at 1. rewrite !prod_app in *. split; [nia |].
  assert (1 ≤ prod (take s sh) * prod (zip_with ceil_div (drop s sh) t)) by nia. nia.
Qed.

Lemma elem_le_prod l x : Forall (λ d, 0 < d) l → x ∈ l → 0 < x ≤ prod l.
Proof.
  induction 1 as [| y l Hy Hl IH]; [by intros ?%elem_of_nil |]. rewrite prod_cons.
  pose proof (prod_pos _ Hl). intros [-> | Hx]%elem_of_cons; [nia |]. specialize (IH Hx). nia.
Qed.

Lemma mapM_zip_with (f : Z * Z → res Z) (g : Z → Z → Z) l1 l2 :
  (∀ a b, a ∈ l1 → b ∈ l2 → f (a, b) = Ok (g a b)) → mapM f (zip l1 l2) = Ok (zip_with g l1 l2).
Proof.
  revert l2. induction l1 as [| a l1 IH]; intros [| b l2] H; try done. simpl.
  rewrite H by left. cbn [mbind res_bind]. rewrite IH; [done |].
  intros a' b' Ha Hb. apply H; by right.
Qed.

Lemma elem_of_drop_in {A} n (l : list A) x : x ∈ drop n l → x ∈ l.
Proof. rewrite <- (take_drop n l) at 2. rewrite elem_of_app. by right. Qed.

Lemma tile_shape_spec t sh :
  Forall (λ d, 0 < d) sh → Forall (λ d, 0 < d) t → prod sh ≤ int64_max → prod t ≤ int64_max →
  tile_shape t sh = Ok (tiled t sh).
Proof.
  intros Hsh Ht Ms Mt. unfold tile_shape.
  rewrite (mapM_zip_with split_size ceil_div); [done |].
  intros d x Hd%elem_of_drop_in Hx. pose proof (elem_le_prod _ _ Hsh Hd).
  pose proof (elem_le_prod _ _ Ht Hx). apply split_size_spec; lia.
Qed.

Lemma in_bounds_elem ds xs x : in_bounds ds xs → x ∈ xs → 0 ≤ x < prod ds.
Proof.
  intros Hb [i Hi]%list_elem_of_lookup. destruct (Forall2_lookup_r _ _ _ _ _ Hb Hi) as (d & Hd & Hx).
  apply in_bounds_pos in Hb. pose proof (elem_le_prod ds d Hb (list_elem_of_lookup_2 _ _ _ Hd)). lia.
Qed.

Lemma tile_indices_spec t sh xs :
  in_bounds sh xs → Forall (λ d, 0 < d) t → prod sh ≤ int64_max →
  tile_indices t xs = Ok (tiled_index t xs).
Proof.
  intros Hb Ht Ms. unfold tile_indices.
  assert (Hx : ∀ e x, e ∈ drop (length xs - length t) xs → x ∈ t → 0 ≤ e ≤ int64_max ∧ 0 < x).
  { intros e x He%elem_of_drop_in Hx. pose proof (in_bounds_elem _ _ _ Hb He).
    rewrite Forall_forall in Ht. specialize (Ht x Hx). lia. }
  rewrite (mapM_zip_with (λ p, c_div p.1 p.2) Z.div) by (intros e x He Hi; apply c_div_pos; by apply (Hx e x)).
  cbn [mbind res_bind].
  rewrite (mapM_zip_with (λ p, c_mod p.1 p.2) Z.modulo) by (intros e x He Hi; apply c_mod_pos; by apply (Hx e x)).
  done.
Qed.

Lemma join_indices_spec ds es t rest :
  in_bounds ds es → Forall (λ d, 0 < d) t → length ds = length t → prod ds ≤ int64_max →
  join_indices (zip_with Z.div es t ++ rest) (zip_with Z.modulo es t) t = Ok es.
Proof.
  intros Hb. revert t. induction Hb as [| d e ds es He Hb IH]; intros [| x t] Ht El Mx; try done.
  apply Forall_cons in Ht as [Hx Ht]. rewrite prod_cons in Mx.
  pose proof (prod_pos _ (in_bounds_pos _ _ Hb)). pose proof (Z.div_mod e x ltac:(lia)).
  pose proof (Z.mod_pos_bound e x Hx). pose proof (Z.div_pos e x ltac:(lia) Hx).
  cbn [zip_with app join_indices]. rewrite s64_in by int_nia. cbn [mbind res_bind].
  rewrite s64_in by int_nia. cbn [mbind res_bind].
  rewrite IH; [| done | by simplify_eq/= | nia]. cbn [mbind res_bind]. do 2 f_equal. lia.
Qed.

(** ** All levels *)

Fixpoint physical_sizes (ts : list Tile) (sh : list Z) : list Z :=
  match ts with
  | [] => sh
  | t :: ts => physical_sizes ts (tiled t (pad_front (length t) 1 sh))
  end.

Fixpoint physical_index (ts : list Tile) (xs : list Z) : list Z :=
  match ts with
  | [] => xs
  | t :: ts => physical_index ts (tiled_index t (pad_front (length t) 0 xs))
  end.

Definition tiles_pos (ts : list Tile) : Prop := Forall (Forall (λ d, 0 < d)) ts.

Lemma length_pad_front {A} n (x : A) l : length (pad_front n x l) = (n `max` length l)%nat.
Proof. unfold pad_front. rewrite length_app, length_replicate. lia. Qed.

Lemma pad_in_bounds n sh xs : in_bounds sh xs → in_bounds (pad_front n 1 sh) (pad_front n 0 xs).
Proof.
  intros Hb. unfold pad_front. rewrite <- (in_bounds_length _ _ Hb). apply Forall2_app; [| done].
  apply Forall2_replicate. lia.
Qed.

Lemma pad_pos n sh : Forall (λ d, 0 < d) sh → Forall (λ d, 0 < d) (pad_front n 1 sh).
Proof. intros H. apply Forall_app. split; [apply Forall_replicate; lia | done]. Qed.

Lemma prod_pad n sh : prod (pad_front n 1 sh) = prod sh.
Proof.
  unfold pad_front. rewrite prod_app. generalize (n - length sh)%nat as k.
  induction k as [| k IH]; [unfold prod at 1; simpl; lia |]. cbn [replicate]. rewrite prod_cons. lia.
Qed.

Lemma level_prod t sh :
  Forall (λ d, 0 < d) sh → Forall (λ d, 0 < d) t →
  let sh' := tiled t (pad_front (length t) 1 sh) in
  Forall (λ d, 0 < d) sh' ∧ prod sh ≤ prod sh' ∧ prod t ≤ prod sh'.
Proof.
  intros Hsh Ht. pose proof (pad_pos (length t) _ Hsh) as Hp. split; [by apply tiled_pos |].
  rewrite <- (prod_pad (length t) sh). apply tiled_prod; [done | done |]. rewrite length_pad_front. lia.
Qed.

Lemma physical_prod ts sh :
  Forall (λ d, 0 < d) sh → tiles_pos ts →
  Forall (λ d, 0 < d) (physical_sizes ts sh) ∧ prod sh ≤ prod (physical_sizes ts sh).
Proof.
  intros Hsh Hts. revert sh Hsh. induction Hts as [| t ts Ht Hts IH]; intros sh Hsh; simpl; [done |].
  destruct (level_prod t sh Hsh Ht) as (H1 & H2 & _). destruct (IH _ H1). split; [done | lia].
Qed.

Lemma tile_levels_spec ts sh xs :
  in_bounds sh xs → tiles_pos ts → prod (physical_sizes ts sh) ≤ int64_max →
  tile_levels ts sh xs = Ok (physical_sizes ts sh, physical_index ts xs) ∧
  in_bounds (physical_sizes ts sh) (physical_index ts xs).
Proof.
  intros Hb Hts. revert sh xs Hb. induction Hts as [| t ts Ht Hts IH]; intros sh xs Hb Mx; simpl; [done |].
  cbn [physical_sizes] in Mx. pose proof (in_bounds_pos _ _ Hb) as Hsh.
  destruct (level_prod t sh Hsh Ht) as (Hpos & H1 & H2).
  pose proof (proj2 (physical_prod ts _ Hpos Hts)) as Hle.
  pose proof (pad_in_bounds (length t) _ _ Hb) as Hb'.
  rewrite (tile_indices_spec t _ _ Hb') by (done || (rewrite prod_pad; lia)). cbn [mbind res_bind].
  rewrite tile_shape_spec; [| by apply pad_pos | done | rewrite prod_pad; lia | lia].
  cbn [mbind res_bind]. apply IH; [| done]. apply tiled_in_bounds; [done | done |].
  rewrite length_pad_front. lia.
Qed.

Lemma row_major_loop_spec sh xs linear_index multiplier :
  in_bounds sh xs → 0 ≤ linear_index < multiplier → multiplier * prod sh ≤ int64_max →
  row_major_loop sh xs linear_index multiplier = Ok (linear_index + multiplier * horner sh xs).
Proof.
  intros Hb. revert linear_index multiplier.
  induction Hb as [| d i sh xs Hi Hb IH]; intros linear_index multiplier Hl Mx; cbn [row_major_loop horner].
  { f_equal. lia. }
  rewrite prod_cons in Mx. pose proof (prod_pos _ (in_bounds_pos _ _ Hb)).
  assert (0 < multiplier * d) by nia. assert (multiplier * d ≤ multiplier * d * prod sh) by nia.
  assert (multiplier * d ≤ int64_max) by lia. assert (multiplier * i + multiplier ≤ multiplier * d) by nia.
  rewrite s64_in by int_nia. cbn [mbind res_bind]. rewrite s64_in by int_nia. cbn [mbind res_bind].
  rewrite s64_in by int_nia. cbn [mbind res_bind]. rewrite IH; [f_equal; ring | nia | nia].
Qed.

(** A shape with a layout whose tiles can be applied. *)
Record tileable (s : LaidShape) (l : Layout) : Prop := {
  tileable_layout : opt_layout s = Some l;
  tileable_order : valid_layout (Shape.sizes (array s)) (minor_to_major l);
  tileable_tiles : tiles_pos (tiles l);
}.

(** The sizes and the index in the order of memory, the most major first. *)
Definition memory_sizes (s : LaidShape) (l : Layout) : list Z :=
  physical_sizes (tiles l) (reverse (sel (Shape.sizes (array s)) (minor_to_major l))).
Definition memory_index (l : Layout) (xs : list Z) : list Z :=
  physical_index (tiles l) (reverse (sel xs (minor_to_major l))).

Lemma tileable_in_bounds s l xs :
  tileable s l → in_bounds (Shape.sizes (array s)) xs →
  in_bounds (reverse (sel (Shape.sizes (array s)) (minor_to_major l))) (reverse (sel xs (minor_to_major l))).
Proof.
  intros [_ Hm _] Hb. apply in_bounds_reverse, in_bounds_sel; [done |].
  by apply (valid_layout_in_range _ _ _ Hm).
Qed.

Lemma LinearIndexForNestedTiling_spec s l xs :
  tileable s l → in_bounds (Shape.sizes (array s)) xs → prod (memory_sizes s l) ≤ int64_max →
  LinearIndexForNestedTiling s xs =
    Ok (match xs with [] => 0 | _ => horner (reverse (memory_sizes s l)) (reverse (memory_index l xs)) end) ∧
  in_bounds (memory_sizes s l) (memory_index l xs).
Proof.
  intros Ht Hb Mx. pose proof (tileable_in_bounds _ _ _ Ht Hb) as Hphys.
  destruct Ht as [El Hm Hts]. pose proof (in_bounds_length _ _ Hb) as Ex.
  destruct (tile_levels_spec (tiles l) _ _ Hphys Hts Mx) as [E Hbt].
  split; [| done]. unfold LinearIndexForNestedTiling, layout. rewrite El. cbn [mbind res_bind].
  rewrite bool_decide_eq_true_2 by lia. cbn [guard_res mbind res_bind].
  destruct xs as [| x xs]; [done |].
  rewrite order_all by apply Hm. cbn [mbind res_bind].
  rewrite !physical_order_spec by (apply (valid_layout_in_range _ _ _ Hm); done).
  cbn [mbind res_bind]. rewrite E. cbn [mbind res_bind].
  rewrite row_major_loop_spec; [f_equal; rewrite Z.mul_1_l; reflexivity | | lia |].
  - by apply in_bounds_reverse.
  - rewrite prod_reverse, Z.mul_1_l. done.
Qed.

End TilingProofs.
