(* ===== verification/UntileProofs.v ===== *)
(** * Undoing tiles

    Delinearizing undoes the levels where only the first one pads the shape;
    [LinearIndex] agrees with the nested one for one tile; and tiles that
    [IsUntiledLayout] accepts move nothing. *)
From stdpp Require Import relations.
From S2P Require Import Prelude WindowArith PermUtil Shape Radix Layouts IndexProofs TilingProofs.
#[local] Open Scope Z_scope.

Module UntileProofs.
Import PermUtil Radix Layouts IndexProofs TilingProofs.

(** ** The levels backwards *)

(** Every tile covers at most the [n] dimensions there are. *)
Fixpoint fits (ts : list Tile) (n : nat) : bool :=
  match ts with
  | [] => true
  | t :: ts => bool_decide (length t ≤ n)%nat && fits ts (n + length t)
  end.

(** Only the first tile may have more dimensions than there are. *)
Definition pads_first (ts : list Tile) (n : nat) : bool :=
  match ts with
  | [] => true
  | t :: ts => fits ts ((length t `max` n) + length t)
  end.

Fixpoint step_list (ts : list Tile) (sh : list Z) : list (list Z * Tile) :=
  match ts with
  | [] => []
  | t :: ts => let before := pad_front (length t) 1 sh in (before, t) :: step_list ts (tiled t before)
  end.

Lemma tiling_steps_spec ts sh steps :
  Forall (λ d, 0 < d) sh → tiles_pos ts → prod (physical_sizes ts sh) ≤ int64_max →
  tiling_steps ts sh steps = Ok (reverse (step_list ts sh) ++ steps, physical_sizes ts sh).
Proof.
  intros Hsh Hts. revert sh steps Hsh.
  induction Hts as [| t ts Ht Hts IH]; intros sh steps Hsh Mx; cbn [tiling_steps step_list]; [done |].
  cbn [physical_sizes] in Mx. destruct (level_prod t sh Hsh Ht) as (Hpos & H1 & H2).
  pose proof (proj2 (physical_prod ts _ Hpos Hts)) as Hle.
  rewrite tile_shape_spec; [| by apply pad_pos | done | rewrite prod_pad; lia | lia].
  cbn [mbind res_bind]. rewrite IH by done. by rewrite reverse_cons, <- app_assoc.
Qed.

Lemma digits_loop_spec sh k :
  Forall (λ d, 0 < d) sh → 0 ≤ k ≤ int64_max → digits_loop sh k = Ok (digits sh k).
Proof.
  intros Hsh. revert k. induction Hsh as [| d sh Hd Hsh IH]; intros k Hk; cbn [digits_loop digits]; [done |].
  rewrite c_mod_pos by done. cbn [mbind res_bind]. rewrite c_div_pos by done. cbn [mbind res_bind].
  pose proof (Z.div_pos k d ltac:(lia) Hd). pose proof (Z.div_le_upper_bound k d k).
  rewrite IH; [done | nia].
Qed.

Lemma untile_step t sh xs steps :
  in_bounds sh xs → Forall (λ d, 0 < d) t → (length t ≤ length sh)%nat → prod sh ≤ int64_max →
  untile_levels ((sh, t) :: steps) (tiled_index t xs) = untile_levels steps xs.
Proof.
  intros Hb Ht El Mx. pose proof (in_bounds_length _ _ Hb) as Ex. cbn [untile_levels].
  unfold tiled_index, cut. rewrite <- Ex. set (s := (length sh - length t)%nat).
  assert (Hs : length (take s xs) = s) by (rewrite length_take; lia).
  assert (Hd : length (zip_with Z.div (drop s xs) t) = length t).
  { rewrite length_zip_with, length_drop. lia. }
  rewrite (take_app_length' (take s xs)) by lia. rewrite (drop_app_length' (take s xs)) by lia.
  replace (drop (s + length t) (take s xs ++ zip_with Z.div (drop s xs) t ++ zip_with Z.modulo (drop s xs) t))
    with (zip_with Z.modulo (drop s xs) t).
  - rewrite (join_indices_spec (drop s sh)); [cbn [mbind res_bind]; by rewrite take_drop | | done | |].
    + by apply Forall2_drop.
    + rewrite length_drop. lia.
    + pose proof (in_bounds_pos _ _ Hb) as Hpos. rewrite <- (take_drop s sh) in Mx, Hpos.
      apply Forall_app in Hpos as [H1 H2]. apply prod_pos in H1, H2. rewrite prod_app in Mx. nia.
  - rewrite app_assoc. symmetry. apply drop_app_length'. rewrite length_app. lia.
Qed.

Lemma pad_front_id {A} n (x : A) l : (n ≤ length l)%nat → pad_front n x l = l.
Proof. intros H. unfold pad_front. by replace (n - length l)%nat with 0%nat by lia. Qed.

Lemma untile_spec ts sh xs steps :
  in_bounds sh xs → tiles_pos ts → fits ts (length sh) = true →
  prod (physical_sizes ts sh) ≤ int64_max →
  untile_levels (reverse (step_list ts sh) ++ steps) (physical_index ts xs) = untile_levels steps xs.
Proof.
  intros Hb Hts. revert sh xs steps Hb.
  induction Hts as [| t ts Ht Hts IH]; intros sh xs steps Hb Hf Mx; [done |].
  cbn [fits] in Hf. apply andb_true_iff in Hf as [El%bool_decide_eq_true Hf].
  pose proof (in_bounds_pos _ _ Hb) as Hsh. pose proof (in_bounds_length _ _ Hb) as Ex.
  destruct (level_prod t sh Hsh Ht) as (Hpos & H1 & H2).
  cbn [step_list physical_sizes physical_index] in *.
  pose proof (proj2 (physical_prod ts _ Hpos Hts)) as Hle.
  rewrite !pad_front_id in * by lia. rewrite reverse_cons, <- app_assoc, IH.
  - cbn [app]. apply untile_step; [done | done | done | lia].
  - by apply tiled_in_bounds.
  - by rewrite length_tiled.
  - done.
Qed.

(** What the levels leave: the index behind the zeros of the first tile. *)
Definition padded (ts : list Tile) (xs : list Z) : list Z :=
  match ts with [] => xs | t :: _ => pad_front (length t) 0 xs end.

Lemma untile_padded ts sh xs :
  in_bounds sh xs → tiles_pos ts → pads_first ts (length sh) = true →
  prod (physical_sizes ts sh) ≤ int64_max →
  untile_levels (reverse (step_list ts sh)) (physical_index ts xs) = Ok (padded ts xs).
Proof.
  intros Hb Hts Hf Mx. destruct Hts as [| t ts Ht Hts]; [done |].
  cbn [pads_first step_list physical_sizes physical_index padded] in *.
  pose proof (in_bounds_pos _ _ Hb) as Hsh. destruct (level_prod t sh Hsh Ht) as (Hpos & H1 & H2).
  pose proof (proj2 (physical_prod ts _ Hpos Hts)) as Hle.
  pose proof (pad_in_bounds (length t) _ _ Hb) as Hb'.
  assert (El : (length t ≤ length (pad_front (length t) 1%Z sh))%nat) by (rewrite length_pad_front; lia).
  rewrite reverse_cons, untile_spec.
  - rewrite untile_step; [done | done | done | done |]. rewrite prod_pad. lia.
  - by apply tiled_in_bounds.
  - done.
  - rewrite length_tiled by done. by rewrite length_pad_front.
  - done.
Qed.

Lemma drop_padded ts xs n : length xs = n → drop (length (padded ts xs) - n) (padded ts xs) = xs.
Proof.
  intros <-. destruct ts as [| t ts]; cbn [padded].
  - by rewrite Nat.sub_diag.
  - unfold pad_front. rewrite length_app, length_replicate. apply drop_app_length'.
    rewrite length_replicate. lia.
Qed.

Lemma nested_round_trip s l xs :
  tileable s l → in_bounds (Shape.sizes (array s)) xs → prod (memory_sizes s l) ≤ int64_max →
  pads_first (tiles l) (length xs) = true →
  ∃ k, LinearIndexForNestedTiling s xs = Ok k ∧ 0 ≤ k < prod (memory_sizes s l) ∧
    DelinearizeIndexForNestedTiling s k = Ok xs.
Proof.
  intros Ht Hb Mx Hf. destruct (LinearIndexForNestedTiling_spec _ _ _ Ht Hb Mx) as [E Hbm].
  pose proof (in_bounds_length _ _ Hb) as Ex. eexists. split; [exact E |].
  pose proof (proj2 (in_bounds_reverse _ _) Hbm) as Hbr.
  pose proof (horner_bounds _ _ Hbr) as Hk. rewrite prod_reverse in Hk.
  unfold DelinearizeIndexForNestedTiling, layout. pose proof Ht as [El Hm Hts].
  rewrite El. cbn [mbind res_bind].
  destruct (Shape.sizes (array s)) as [| d ds] eqn:Ed; destruct xs as [| x xs]; try done.
  { split; [lia | done]. }
  split; [done |]. rewrite <- Ed in *. clear d ds Ed. set (ds := Shape.sizes (array s)) in *.
  set (index := x :: xs) in *. pose proof (tileable_in_bounds _ _ _ Ht Hb) as Hp. fold ds in Hp.
  rewrite order_all by apply Hm. cbn [mbind res_bind].
  rewrite physical_order_spec by by apply (valid_layout_in_range _ _ _ Hm).
  cbn [mbind res_bind]. fold ds. rewrite tiling_steps_spec;
    [| by eapply in_bounds_pos | done | done].
  cbn [mbind res_bind]. rewrite app_nil_r. fold (memory_sizes s l).
  rewrite digits_loop_spec; [| apply Forall_reverse; by eapply in_bounds_pos | lia].
  cbn [mbind res_bind]. rewrite digits_horner by done. rewrite reverse_involutive.
  unfold memory_index. rewrite untile_padded; [| done | done | | done].
  - cbn [mbind res_bind]. destruct Hm as [Hperm Hlen].
    rewrite Ex. rewrite drop_padded by (rewrite length_reverse, length_sel; lia).
    unfold sel. rewrite <- fmap_reverse. apply scatter_sel; [| rewrite length_reverse; lia].
    by apply perm_reverse.
  - rewrite length_reverse, length_sel. destruct Hm as [_ Hlen]. by rewrite Hlen, Ex.
Qed.

End UntileProofs.

(** ** One tile, and tiles that move nothing

    [LinearIndex] walks the dimensions once and agrees with the nested linear index
    of a layout with at most one tile; the tiles that [IsUntiledLayout] accepts keep
    the index the order alone gives. *)
Module FlatTiles.
Import PermUtil Radix Layouts IndexProofs TilingProofs.

(** ** [LinearIndex], the most minor dimension first *)

Definition outer_sizes (t ds : list Z) : list Z := zip_with ceil_div ds t ++ drop (length t) ds.
Definition outer_index (t es : list Z) : list Z := zip_with Z.div es t ++ drop (length t) es.

Lemma outer_sizes_nil ds : outer_sizes [] ds = ds.
Proof. by destruct ds. Qed.

Lemma outer_index_nil es : outer_index [] es = es.
Proof. by destruct es. Qed.

Lemma horner_nonneg ds xs : Forall (λ d, 0 < d) ds → Forall (λ e, 0 ≤ e) xs → 0 ≤ horner ds xs.
Proof.
  intros Hd. revert xs. induction Hd as [| d ds Hd Hds IH]; intros [| e xs] Hx; cbn [horner]; try lia.
  apply Forall_cons in Hx as [He Hx]. specialize (IH xs Hx). nia.
Qed.

Lemma outer_in_bounds t ds es :
  in_bounds ds es → Forall (λ d, 0 < d) t → in_bounds (outer_sizes t ds) (outer_index t es).
Proof.
  intros Hb. revert t. induction Hb as [| d e ds es He Hb IH]; intros [| x t] Ht; try by constructor.
  apply Forall_cons in Ht as [Hx Ht]. unfold outer_sizes, outer_index. cbn [zip_with length drop app].
  constructor; [by apply ceil_div_index | by apply IH].
Qed.

Lemma inner_nonneg es t : Forall (λ d, 0 < d) t → Forall (λ e, 0 ≤ e) (zip_with Z.modulo es t).
Proof.
  intros Ht. revert es. induction Ht as [| x t Hx Ht IH]; intros [| e es]; cbn [zip_with]; constructor.
  - by apply Z.mod_pos_bound.
  - apply IH.
Qed.

Definition tile_offset (t ds es : list Z) (tm wm : Z) : Z :=
  tm * horner (outer_sizes t ds) (outer_index t es) + wm * horner t (zip_with Z.modulo es t).

Lemma tile_offset_nonneg t ds es tm wm :
  in_bounds ds es → Forall (λ d, 0 < d) t → 0 < tm → 0 < wm → 0 ≤ tile_offset t ds es tm wm.
Proof.
  intros Hb Ht Htm Hwm. pose proof (horner_bounds _ _ (outer_in_bounds t _ _ Hb Ht)).
  pose proof (horner_nonneg t _ Ht (inner_nonneg es t Ht)). unfold tile_offset. nia.
Qed.

Lemma linear_tile_loop_spec ds xs t m linear_index tm wm :
  in_range ds m → length xs = length ds → in_bounds (sel ds m) (sel xs m) → Forall (λ d, 0 < d) t →
  Forall (λ d, d ≤ int64_max) (sel ds m) → 0 ≤ linear_index → 0 < tm → 0 < wm →
  tm * prod (outer_sizes t (sel ds m)) ≤ int64_max → wm * prod t ≤ int64_max →
  linear_index + tile_offset t (sel ds m) (sel xs m) tm wm ≤ int64_max →
  linear_tile_loop ds xs t m linear_index tm wm =
    Ok (linear_index + tile_offset t (sel ds m) (sel xs m) tm wm).
Proof.
  intros Hr El. revert t linear_index tm wm.
  induction m as [| dim m IH]; intros t linear_index tm wm Hb Ht Hmax Hl Htm Hwm M1 M2 M3.
  { unfold tile_offset. destruct t; cbn; f_equal; lia. }
  assert (Hr' : in_range ds m) by (intros q Hq; apply Hr; by right).
  pose proof (Hr dim ltac:(by left)) as Hd. cbn [linear_tile_loop].
  rewrite (at_z_total ds dim) by done. rewrite (at_z_total xs dim) by lia. cbn [mbind res_bind].
  rewrite (sel_cons ds dim), (sel_cons xs dim) in Hb. rewrite (sel_cons ds dim) in Hmax, M1.
  rewrite (sel_cons ds dim), (sel_cons xs dim) in M3 |- *. apply Forall_cons in Hmax as [Hdm Hmax].
  set (d := ds !!! Z.to_nat dim) in *. set (i := xs !!! Z.to_nat dim) in *.
  inversion Hb as [| ? ? ? ? Hi Hb']; subst. change (in_bounds (sel ds m) (sel xs m)) in Hb'.
  pose proof (prod_pos _ (in_bounds_pos _ _ Hb')) as Hpd.
  destruct t as [| x t]; unfold tile_offset in M3 |- *.
  - rewrite !outer_sizes_nil in M1, M3 |- *. rewrite !outer_index_nil in M3 |- *.
    cbn [horner] in M3 |- *. rewrite prod_cons in M1. pose proof (horner_bounds _ _ Hb') as Hh.
    assert (0 < tm * d) by nia. assert (tm * d ≤ tm * (d * prod (sel ds m))) by nia.
    assert (0 ≤ tm * d * horner (sel ds m) (sel xs m)) by nia.
    rewrite s64_in by int_nia. cbn [mbind res_bind]. rewrite s64_in by int_nia. cbn [mbind res_bind].
    rewrite s64_in by int_nia. cbn [mbind res_bind].
    rewrite IH; unfold tile_offset; rewrite ?outer_sizes_nil, ?outer_index_nil; cbn [horner]; try done.
    + f_equal. ring.
    + nia.
    + lia.
    + lia.
  - unfold outer_sizes, outer_index in M1, M3 |- *. cbn [zip_with length drop app horner] in M1, M3 |- *.
    apply Forall_cons in Ht as [Hx Ht]. rewrite prod_cons in M1, M2.
    pose proof (ceil_div_bounds d x ltac:(lia) Hx) as [Hc _].
    pose proof (prod_pos _ Ht) as Hpt. pose proof (prod_pos _ (in_bounds_pos _ _ (outer_in_bounds t _ _ Hb' Ht))) as Hpo.
    unfold outer_sizes in Hpo. pose proof (Z.div_pos i x ltac:(lia) Hx) as Hq.
    pose proof (Z.mod_pos_bound i x Hx) as Hm. pose proof (ceil_div_index d x i Hx Hi) as Hqc.
    assert (0 < wm * x) by nia. assert (wm * x ≤ wm * (x * prod t)) by nia.
    assert (0 < tm * ceil_div d x) by nia.
    pose proof (tile_offset_nonneg t (sel ds m) (sel xs m) (tm * ceil_div d x) (wm * x) Hb' Ht) as Hnn.
    unfold tile_offset, outer_sizes, outer_index in Hnn. specialize (Hnn ltac:(lia) ltac:(lia)).
    set (P := prod (zip_with ceil_div (sel ds m) t ++ drop (length t) (sel ds m))) in *.
    assert (tm * ceil_div d x ≤ tm * (ceil_div d x * P)) by nia.
    set (O := horner (zip_with ceil_div (sel ds m) t ++ drop (length t) (sel ds m)) _) in *.
    set (N := horner t _) in *.
    assert (Eoff : tm * (i / x + ceil_div d x * O) + wm * (i mod x + x * N) =
      tm * (i / x) + wm * (i mod x) + (tm * ceil_div d x * O + wm * x * N)) by ring.
    assert (0 ≤ tm * (i / x)) by nia. assert (0 ≤ wm * (i mod x)) by nia.
    assert (x ≤ int64_max) by nia.
    rewrite c_div_pos by lia. cbn [mbind res_bind]. rewrite c_mod_pos by lia. cbn [mbind res_bind].
    rewrite s64_in by int_lia. cbn [mbind res_bind]. rewrite s64_in by int_lia. cbn [mbind res_bind].
    rewrite s64_in by int_lia. cbn [mbind res_bind]. rewrite s64_in by int_lia. cbn [mbind res_bind].
    pose proof (split_size_spec d x ltac:(lia) ltac:(lia)) as Es. unfold split_size in Es. simpl in Es.
    rewrite Es. cbn [mbind res_bind]. rewrite s64_in by int_lia. cbn [mbind res_bind].
    rewrite s64_in by int_lia. cbn [mbind res_bind].
    rewrite IH; unfold tile_offset, outer_sizes, outer_index; try done; fold P O N; try lia.
    f_equal. lia.
Qed.

(** ** One level, the most minor dimension first *)

Lemma zip_take {A B C} (f : A → B → C) l k : zip_with f (take (length k) l) k = zip_with f l k.
Proof. revert l. induction k as [| b k IH]; intros [| a l]; try done. cbn. by rewrite IH. Qed.

Lemma reverse_suffix (l : list Z) t : (length t ≤ length l)%nat →
  reverse (drop (cut t l) l) = take (length (reverse t)) (reverse l).
Proof.
  intros H. unfold cut. rewrite take_reverse, length_reverse. by f_equal.
Qed.

Lemma reverse_tiled t sh : (length t ≤ length sh)%nat →
  reverse (tiled t sh) = reverse t ++ outer_sizes (reverse t) (reverse sh).
Proof.
  intros H. unfold tiled, outer_sizes. rewrite !reverse_app, <- app_assoc. f_equal. f_equal.
  - rewrite zip_reverse by (rewrite length_drop; unfold cut; lia).
    by rewrite reverse_suffix, zip_take by done.
  - rewrite drop_reverse, length_reverse. done.
Qed.

Lemma reverse_tiled_index t xs : (length t ≤ length xs)%nat →
  reverse (tiled_index t xs) =
    zip_with Z.modulo (reverse xs) (reverse t) ++ outer_index (reverse t) (reverse xs).
Proof.
  intros H. unfold tiled_index, outer_index. rewrite !reverse_app, <- app_assoc.
  rewrite !zip_reverse by (rewrite length_drop; unfold cut; lia).
  rewrite !reverse_suffix, !zip_take by done. rewrite drop_reverse, length_reverse. done.
Qed.

(** The dimensions the first tile pads have index 0. *)
Lemma outer_padded t ds es k :
  length ds = length es → (length ds + k ≤ length t)%nat →
  horner (outer_sizes t (ds ++ replicate k 1)) (outer_index t (es ++ replicate k 0)) =
    horner (outer_sizes t ds) (outer_index t es).
Proof.
  revert es t. induction ds as [| d ds IH]; intros [| e es] t El Hk; try done.
  - cbn [app length] in *. rewrite (horner_zero (outer_sizes t [])).
    + apply horner_zero. unfold outer_index. rewrite drop_ge by (rewrite length_replicate; lia).
      rewrite app_nil_r. clear. revert t. induction k as [| k IH]; intros [| x t]; cbn; constructor; [| apply IH].
      apply Zdiv_0_l.
    + unfold outer_index. cbn. rewrite drop_nil. constructor.
  - destruct t as [| x t]; [cbn in Hk; lia |]. unfold outer_sizes, outer_index in *.
    cbn [zip_with app length drop horner] in *. by rewrite IH by lia.
Qed.

Lemma inner_padded t es k :
  (length es + k ≤ length t)%nat →
  horner t (zip_with Z.modulo (es ++ replicate k 0) t) = horner t (zip_with Z.modulo es t).
Proof.
  revert t. induction es as [| e es IH]; intros t Hk.
  - cbn [app zip_with]. rewrite (horner_zero t []) by constructor. apply horner_zero.
    clear Hk. revert t. induction k as [| k IH]; intros [| x t]; cbn; constructor; [| apply IH]. apply Zmod_0_l.
  - destruct t as [| x t]; [cbn in Hk; lia |]. cbn [zip_with app length horner] in *. by rewrite IH by lia.
Qed.

Lemma horner_one_level t ds es :
  length ds = length es →
  let n := length t in
  horner (reverse (tiled t (pad_front n 1 (reverse ds)))) (reverse (tiled_index t (pad_front n 0 (reverse es)))) =
    tile_offset (reverse t) ds es (prod t) 1.
Proof.
  intros El n. assert (Hl : ∀ (x : Z) l, (length t ≤ length (pad_front n x l))%nat).
  { intros x l. rewrite length_pad_front. lia. }
  rewrite reverse_tiled, reverse_tiled_index by apply Hl.
  assert (Hpad : ∀ (x : Z) l, reverse (pad_front n x (reverse l)) = l ++ replicate (n - length l) x).
  { intros x l. unfold pad_front. rewrite reverse_app, reverse_involutive, reverse_replicate, length_reverse. done. }
  rewrite !Hpad, horner_app.
  - rewrite prod_reverse. unfold tile_offset. rewrite El.
    destruct (decide (n ≤ length es)%nat) as [Hn | Hn].
    + replace (n - length es)%nat with 0%nat by lia. cbn [replicate]. rewrite !app_nil_r. lia.
    + rewrite outer_padded, inner_padded; [lia | | done |]; rewrite length_reverse; fold n; lia.
  - rewrite length_zip_with, length_app, length_replicate, length_reverse. fold n. lia.
Qed.

(** The first tile, or none. *)
Definition first_tile (l : Layout) : Tile := default [] (head (tiles l)).

Lemma tiled_nil sh : tiled [] sh = sh.
Proof. unfold tiled, cut. cbn [length]. rewrite Nat.sub_0_r, take_ge by lia. rewrite drop_ge by lia. by rewrite app_nil_r. Qed.

Lemma tiled_index_nil xs : tiled_index [] xs = xs.
Proof. unfold tiled_index, cut. cbn [length]. rewrite Nat.sub_0_r, take_ge by lia. rewrite drop_ge by lia. by rewrite app_nil_r. Qed.

Lemma one_level_sizes l sh : (length (tiles l) ≤ 1)%nat →
  physical_sizes (tiles l) sh = tiled (first_tile l) (pad_front (length (first_tile l)) 1 sh).
Proof.
  unfold first_tile. destruct (tiles l) as [| t [| ? ?]]; intros H; [| done | cbn in H; lia].
  change (sh = tiled [] sh). by rewrite tiled_nil.
Qed.

Lemma one_level_index l xs : (length (tiles l) ≤ 1)%nat →
  physical_index (tiles l) xs = tiled_index (first_tile l) (pad_front (length (first_tile l)) 0 xs).
Proof.
  unfold first_tile. destruct (tiles l) as [| t [| ? ?]]; intros H; [| done | cbn in H; lia].
  change (xs = tiled_index [] xs). by rewrite tiled_index_nil.
Qed.

Lemma product_loop_spec l acc :
  Forall (λ d, 0 < d) l → 0 < acc → acc * prod l ≤ int64_max → product_loop l acc = Ok (acc * prod l).
Proof.
  intros Hl. revert acc. induction Hl as [| x l Hx Hl IH]; intros acc Ha Mx; cbn [product_loop].
  { f_equal. unfold prod. simpl. lia. }
  rewrite prod_cons in Mx |- *. pose proof (prod_pos _ Hl).
  assert (acc * x ≤ acc * (x * prod l)) by nia. rewrite s64_in by int_nia. cbn [mbind res_bind].
  rewrite IH; [f_equal; ring | nia | lia].
Qed.

Lemma Product_spec l : Forall (λ d, 0 < d) l → prod l ≤ int64_max → Product l = Ok (prod l).
Proof. intros Hl Mx. unfold Product. rewrite product_loop_spec; [f_equal; lia | done | lia | lia]. Qed.

Lemma first_tile_pos l : tiles_pos (tiles l) → Forall (λ d, 0 < d) (first_tile l).
Proof. unfold first_tile. intros H. destruct H; [constructor | done]. Qed.

Lemma tile_offset_single t d i :
  Forall (λ d, 0 < d) t → (length t ≤ 1)%nat → tile_offset (reverse t) [d] [i] (prod t) 1 = i.
Proof.
  destruct t as [| x [| ? ?]]; intros Ht El; [| | cbn in El; lia]; unfold tile_offset.
  - cbn. lia.
  - apply Forall_cons in Ht as [Hx _]. rewrite reverse_singleton, prod_singleton.
    unfold outer_sizes, outer_index. cbn. pose proof (Z.div_mod i x ltac:(lia)). lia.
Qed.

Lemma outer_prod_pad t ds k :
  Forall (λ d, 0 < d) ds → Forall (λ d, 0 < d) t →
  prod (outer_sizes t ds) ≤ prod (outer_sizes t (ds ++ replicate k 1)).
Proof.
  intros Hd. revert t. induction Hd as [| d ds Hd Hds IH]; intros t Ht.
  - replace (prod (outer_sizes t [])) with 1.
    + assert (0 < prod (outer_sizes t (replicate k 1))); [| cbn [app]; lia].
      apply prod_pos, Forall_app. split; [apply zip_pos; [| done] | apply Forall_drop];
        apply Forall_replicate; lia.
    + unfold outer_sizes. rewrite drop_nil. done.
  - destruct t as [| x t].
    + rewrite !outer_sizes_nil, prod_app. cbn [app]. pose proof (prod_pos _ Hds).
      rewrite prod_cons. assert (0 < prod (replicate k 1)) by (apply prod_pos, Forall_replicate; lia). nia.
    + apply Forall_cons in Ht as [Hx Ht]. unfold outer_sizes in *. cbn [app zip_with length drop].
      rewrite !prod_cons. pose proof (ceil_div_bounds d x Hd Hx). specialize (IH t Ht). nia.
Qed.

Lemma LinearIndex_nested s l xs :
  tileable s l → (length (tiles l) ≤ 1)%nat → in_bounds (Shape.sizes (array s)) xs →
  prod (memory_sizes s l) ≤ int64_max →
  (length xs = 1%nat → length (first_tile l) ≤ 1)%nat →
  LinearIndex s xs = LinearIndexForNestedTiling s xs.
Proof.
  intros Ht Hone Hb Mx Hrank. destruct (LinearIndexForNestedTiling_spec _ _ _ Ht Hb Mx) as [E Hbm].
  rewrite E. clear E. pose proof (in_bounds_length _ _ Hb) as Ex. pose proof Ht as [El Hm Hts].
  unfold LinearIndex, layout. rewrite El. cbn [mbind res_bind].
  rewrite bool_decide_eq_true_2 by lia. cbn [guard_res mbind res_bind].
  set (ds := Shape.sizes (array s)) in *. set (t := first_tile l) in *.
  pose proof (first_tile_pos l Hts) as Htp. fold t in Htp.
  pose proof (valid_layout_in_range ds _ ds Hm eq_refl) as Hr.
  pose proof (in_bounds_sel _ _ _ Hb Hr) as Hbs.
  pose proof (in_bounds_length _ _ Hbs) as Els.
  assert (Eh : horner (reverse (memory_sizes s l)) (reverse (memory_index l xs)) =
    tile_offset (reverse t) (sel ds (minor_to_major l)) (sel xs (minor_to_major l)) (prod t) 1).
  { unfold memory_sizes, memory_index. rewrite one_level_sizes, one_level_index by done.
    by apply horner_one_level. }
  assert (Em : prod (memory_sizes s l) = prod t * prod (outer_sizes (reverse t)
    (sel ds (minor_to_major l) ++ replicate (length t - length (sel ds (minor_to_major l))) 1))).
  { unfold memory_sizes. rewrite one_level_sizes by done. fold ds t.
    rewrite <- prod_reverse, reverse_tiled by (rewrite length_pad_front; lia).
    rewrite prod_app, prod_reverse. do 3 f_equal.
    unfold pad_front. by rewrite reverse_app, reverse_involutive, reverse_replicate, length_reverse. }
  destruct xs as [| i xs]; [done |]. destruct xs as [| j xs].
  - rewrite Eh. f_equal. symmetry. destruct Hm as [_ Hlen]. cbn [length] in Ex.
    destruct (minor_to_major l) as [| p [| ? ?]] eqn:Emm; cbn in Hlen; try lia.
    rewrite !sel_cons. cbn [sel fmap list_fmap].
    assert (p = 0) as -> by (specialize (Hr p ltac:(by left)); lia).
    apply tile_offset_single; [done | by apply Hrank].
  - set (index := i :: j :: xs) in *. rewrite Eh.
    pose proof (horner_bounds _ _ (proj2 (in_bounds_reverse _ _) Hbm)) as Hh.
    rewrite Eh, prod_reverse in Hh.
    fold (first_tile l). fold t.
    assert (Hpo : prod (outer_sizes (reverse t) (sel ds (minor_to_major l))) ≤
      prod (outer_sizes (reverse t)
        (sel ds (minor_to_major l) ++ replicate (length t - length (sel ds (minor_to_major l))) 1))).
    { apply outer_prod_pad; [by eapply in_bounds_pos | by apply Forall_reverse]. }
    pose proof (prod_pos _ Htp) as Hpt.
    pose proof (prod_pos _ (in_bounds_pos _ _ (outer_in_bounds (reverse t) _ _ Hbs (proj2 (Forall_reverse _ _) Htp)))) as Hps.
    rewrite Product_spec by (done || nia). cbn [mbind res_bind].
    rewrite order_all by apply Hm. cbn [mbind res_bind].
    rewrite linear_tile_loop_spec; [by rewrite Z.add_0_l | done | done | done | by apply Forall_reverse | | lia | done | lia | nia | | lia].
    + apply Forall_forall. intros d Hd. pose proof (elem_le_prod _ _ (in_bounds_pos _ _ Hbs) Hd).
      pose proof (proj2 (physical_prod (tiles l) (reverse (sel ds (minor_to_major l)))
        (proj2 (Forall_reverse _ _) (in_bounds_pos _ _ Hbs)) Hts)) as Hle.
      rewrite prod_reverse in Hle. unfold memory_sizes in Mx. fold ds in Mx. lia.
    + rewrite prod_reverse. nia.
Qed.

End FlatTiles.

(** ** Tiles that move nothing

    The tiles that [IsUntiledLayout] accepts keep the index the order alone gives. *)
Module UntiledProofs.
Import PermUtil Radix Layouts IndexProofs TilingProofs.

(** ** The linear index, the most major dimension first *)

Fixpoint major (ds xs : list Z) : Z :=
  match ds, xs with
  | d :: ds, x :: xs => x * prod ds + major ds xs
  | _, _ => 0
  end.

Lemma major_horner ds xs : length ds = length xs → major ds xs = horner (reverse ds) (reverse xs).
Proof.
  revert xs. induction ds as [| d ds IH]; intros [| x xs] El; try done. cbn [major].
  rewrite !reverse_cons, horner_app by (rewrite !length_reverse; by simplify_eq/=).
  rewrite IH, prod_reverse by by simplify_eq/=. cbn [horner]. ring.
Qed.

Lemma major_app ds1 ds2 xs1 xs2 :
  length ds1 = length xs1 → major (ds1 ++ ds2) (xs1 ++ xs2) = major ds1 xs1 * prod ds2 + major ds2 xs2.
Proof.
  revert xs1. induction ds1 as [| d ds1 IH]; intros [| x xs1] El; try done.
  cbn [app major]. rewrite IH, prod_app by by simplify_eq/=. ring.
Qed.

(** ** One tile *)

Lemma untiled_step d ds t ts allow q :
  0 < d → untiled_dims (d :: ds) (t :: ts) allow = Ok (Some q) →
  ∃ q0 q', q = q0 :: q' ∧ 0 < t ∧ d = q0 * t ∧ 0 < q0 ∧ (allow = true ∨ q0 = 1) ∧
    untiled_dims ds ts (allow && (t =? 1)) = Ok (Some q').
Proof.
  intros Hd H. cbn [untiled_dims] in H. apply bind_ok in H as (r & Er & H).
  destruct (Z.eqb_spec r 0) as [-> |]; [cbn [negb] in H | done].
  apply bind_ok in H as (u & Ht & H). apply guard_res_ok in Ht. apply Z.gtb_lt in Ht.
  unfold c_mod in Er. apply bind_ok in Er as (q0 & Eq & Er). injection Er as Er.
  rewrite Eq in H. cbn [mbind res_bind] in H.
  unfold c_div in Eq. apply bind_ok in Eq as (u' & _ & Eq). apply s64_ok in Eq as [-> _].
  pose proof (Z.quot_rem d t ltac:(lia)) as Edt. rewrite Er in Edt.
  exists (d `quot` t). assert (0 < d `quot` t) by nia.
  destruct (negb allow && negb (d `quot` t =? 1)) eqn:Ea; [done |].
  apply bind_ok in H as ([q' |] & Eq' & H); [| done]. exists q'. injection H as <-.
  split; [done |]. split; [done |]. split; [lia |]. split; [done |]. split; [| done].
  destruct allow; [by left | right]. simpl in Ea. by destruct (Z.eqb_spec (d `quot` t) 1).
Qed.

Lemma div_one_tile d e : 0 ≤ e < d → e / d = 0 ∧ e mod d = e.
Proof. intros He. split; [by apply Z.div_small | by apply Z.mod_small]. Qed.

(** Once one tile is allowed only, every dimension is that tile. *)
Lemma untiled_single ds xs t q :
  in_bounds ds xs → length ds = length t → untiled_dims ds t false = Ok (Some q) →
  t = ds ∧ q = replicate (length ds) 1 ∧ zip_with Z.div xs t = replicate (length ds) 0 ∧
  zip_with Z.modulo xs t = xs ∧ Forall (λ d, 0 < d) t.
Proof.
  intros Hb. revert t q. induction Hb as [| d e ds xs He Hb IH]; intros [| x t] q El H; try done.
  { cbn in H. by simplify_eq. }
  apply untiled_step in H as (q0 & q' & -> & Hx & Ed & Hq & [? | ->] & Hrest); [done | | lia].
  destruct (IH t q') as (-> & -> & E1 & E2 & E3); [by simplify_eq/= | done |].
  assert (d = x) as -> by lia. cbn [zip_with length replicate].
  destruct (div_one_tile x e He) as [-> ->]. rewrite E1, E2. do 4 (split; [done |]). by constructor.
Qed.

Lemma major_zeros n xs ds : major (replicate n 1 ++ ds) (replicate n 0 ++ xs) = major ds xs.
Proof. induction n as [| n IH]; [done |]. cbn [replicate app major]. by rewrite IH. Qed.

Lemma prod_ones n : prod (replicate n 1) = 1.
Proof. induction n as [| n IH]; [done |]. cbn [replicate]. rewrite prod_cons, IH. done. Qed.

(** A dimension of size 1 in the middle. *)
Lemma major_insert_one ds1 ds2 xs1 xs2 :
  length ds1 = length xs1 → major (ds1 ++ 1 :: ds2) (xs1 ++ 0 :: xs2) = major (ds1 ++ ds2) (xs1 ++ xs2).
Proof. intros El. rewrite !major_app by done. cbn [major]. rewrite prod_cons. ring. Qed.

Lemma untiled_dims_spec ds xs t q :
  in_bounds ds xs → length ds = length t → untiled_dims ds t true = Ok (Some q) →
  Forall (λ d, 0 < d) t ∧ q = zip_with ceil_div ds t ∧ prod (q ++ t) = prod ds ∧
  major (q ++ t) (zip_with Z.div xs t ++ zip_with Z.modulo xs t) = major ds xs.
Proof.
  intros Hb. revert t q. induction Hb as [| d e ds xs He Hb IH]; intros [| x t] q El H; try done.
  { cbn in H. by simplify_eq. }
  apply untiled_step in H as (q0 & q' & -> & Hx & -> & Hq & _ & Hrest); [| lia].
  assert (El' : length ds = length t) by by simplify_eq/=. pose proof (in_bounds_length _ _ Hb) as Ex.
  cbn [zip_with andb] in *. rewrite (Z.mul_comm q0 x), ceil_div_divides by done.
  destruct (Z.eqb_spec x 1) as [-> | Hne].
  - destruct (IH t q' El' Hrest) as (H1 & -> & H2 & H3). rewrite Z.div_1_r, Z.mod_1_r.
    split; [by constructor |]. split; [done |]. rewrite prod_app in H2. split.
    + rewrite prod_app, !prod_cons. lia.
    + cbn [app major]. rewrite major_insert_one, H3 by (rewrite !length_zip_with; lia).
      rewrite prod_app, prod_cons, Z.mul_1_l, H2. ring.
  - destruct (untiled_single ds xs t q' Hb El' Hrest) as (-> & -> & -> & -> & H3).
    split; [by constructor |].
    assert (Eone : zip_with ceil_div ds ds = replicate (length ds) 1).
    { clear -H3. induction H3 as [| d ds Hd H3 IH]; [done |]. cbn [zip_with length replicate].
      rewrite IH. f_equal. pose proof (ceil_div_divides 1 d Hd) as E. by rewrite Z.mul_1_r in E. }
    rewrite Eone. split; [done |]. split.
    + cbn [app]. rewrite !prod_cons, prod_app, prod_cons, prod_ones. ring.
    + cbn [app major]. rewrite major_zeros, prod_app, prod_cons, prod_ones. cbn [major].
      pose proof (Z.div_mod e x ltac:(lia)). nia.
Qed.

(** ** All tiles *)

Lemma IsUntiledLayout_levels ts sh xs :
  in_bounds sh xs → IsUntiledLayout ts sh = Ok true →
  tiles_pos ts ∧ prod (physical_sizes ts sh) = prod sh ∧
  major (physical_sizes ts sh) (physical_index ts xs) = major sh xs.
Proof.
  revert sh xs. induction ts as [| t ts IH]; intros sh xs Hb H; [by repeat constructor |].
  cbn [IsUntiledLayout] in H. apply bind_ok in H as (u & Hl & H).
  apply guard_res_ok, bool_decide_eq_true in Hl. apply bind_ok in H as ([q |] & Eq & H); [| done].
  pose proof (in_bounds_length _ _ Hb) as Ex.
  set (s := (length sh - length t)%nat) in *.
  assert (Hbd : in_bounds (drop s sh) (drop s xs)) by by apply Forall2_drop.
  assert (Hld : length (drop s sh) = length t) by (rewrite length_drop; lia).
  destruct (untiled_dims_spec _ _ _ _ Hbd Hld Eq) as (Ht & -> & Hp & Hm).
  assert (Epad : ∀ (x : Z) l, length l = length sh → pad_front (length t) x l = l).
  { intros x l E. unfold pad_front. by replace (length t - length l)%nat with 0%nat by lia. }
  destruct (IH (tiled t sh) (tiled_index t xs)) as (H1 & H2 & H3).
  { by apply tiled_in_bounds. }
  { exact H. }
  cbn [physical_sizes physical_index]. rewrite !Epad, H2, H3 by lia.
  split; [by constructor |]. unfold tiled, tiled_index, cut. rewrite <- Ex. fold s. split.
  - rewrite prod_app, Hp, <- prod_app. by rewrite take_drop.
  - rewrite major_app, Hp, Hm, <- major_app by (rewrite !length_take; lia). by rewrite !take_drop.
Qed.

Lemma IsUntiledLayout_index s l xs :
  opt_layout s = Some l → valid_layout (Shape.sizes (array s)) (minor_to_major l) →
  in_bounds (Shape.sizes (array s)) xs → prod (Shape.sizes (array s)) ≤ int64_max →
  (sh ← physical_order (minor_to_major l) (Shape.sizes (array s)); IsUntiledLayout (tiles l) sh) = Ok true →
  LinearIndexForNestedTiling s xs =
    MultidimensionalIndexToLinearIndex (Shape.sizes (array s)) (minor_to_major l) xs.
Proof.
  intros El Hm Hb Mx H. set (ds := Shape.sizes (array s)) in *.
  pose proof (valid_layout_in_range ds _ ds Hm eq_refl) as Hr.
  rewrite physical_order_spec in H by done. cbn [mbind res_bind] in H.
  pose proof (proj2 (in_bounds_reverse _ _) (in_bounds_sel _ _ _ Hb Hr)) as Hbr.
  destruct (IsUntiledLayout_levels _ _ _ Hbr H) as (Hts & Hp & Hmaj).
  assert (Ht : tileable s l) by by constructor.
  assert (Emem : prod (memory_sizes s l) = prod ds).
  { unfold memory_sizes. fold ds. rewrite Hp, prod_reverse. by rewrite (sel_perm ds _ Hm). }
  destruct (LinearIndexForNestedTiling_spec s l xs Ht Hb ltac:(lia)) as [E Hbm].
  rewrite E, MultidimensionalIndexToLinearIndex_spec by done. f_equal.
  rewrite <- major_horner by by apply in_bounds_length. unfold memory_sizes, memory_index. fold ds.
  rewrite Hmaj, major_horner, !reverse_involutive by by apply in_bounds_length.
  pose proof (in_bounds_length _ _ Hb) as Ex. destruct xs as [| x xs]; [| done].
  destruct Hm as [_ Hlen]. rewrite Ex in Hlen. by destruct (minor_to_major l).
Qed.

End UntiledProofs.
