(* ===== verification/LayoutCorrect.v ===== *)
(** * Layouts that are valid

    What [ValidateLayoutForShape] accepts, the inverse of an order, and the changes of
    a layout that keep its order a permutation. *)
From stdpp Require Import relations.
From S2P Require Import Prelude WindowArith Types PermUtil Shape Radix Layouts IndexProofs TilingProofs UntileProofs.
#[local] Open Scope Z_scope.

Module LayoutProofs.
Import Types PermUtil Radix Layouts IndexProofs TilingProofs.

(** ** Validation *)

Lemma validate_order_spec n m seen :
  length seen = n →
  validate_order n m seen = if is_permutation_loop n m seen then Ok tt else Fail InvalidArgument.
Proof.
  revert seen. induction m as [| p m IH]; intros seen El; [done |]. cbn [validate_order is_permutation_loop].
  destruct ((p <? 0) || (p >=? Z.of_nat n)) eqn:Er; [done |]. cbn [negb guard_res mbind res_bind].
  apply orb_false_iff in Er as [E1 E2]. destruct (lookup_lt_is_Some_2 seen (Z.to_nat p)) as [b Hb]; [lia |].
  rewrite (proj2 (at_z_ok seen p b)) by (split; [lia | done]). rewrite Hb. cbn [mbind res_bind].
  destruct b; [done |]. cbn [negb guard_res mbind res_bind]. apply IH. by rewrite length_insert.
Qed.

Lemma validate_order_perm n m :
  length m = n →
  validate_order n m (replicate n false) = if IsPermutation m then Ok tt else Fail InvalidArgument.
Proof. intros <-. by rewrite validate_order_spec by apply length_replicate. Qed.

(** The split cuts its dimension into parts: the indices increase from above 0 to
    below the size. *)
Definition increasing (lo hi : Z) (l : list Z) : Prop :=
  StronglySorted Z.lt l ∧ ∀ x, x ∈ l → lo < x < hi.

Lemma valid_split_spec hi lo l : valid_split hi lo l = true ↔ increasing lo hi l.
Proof.
  unfold increasing. revert lo. induction l as [| x l IH]; intros lo; cbn [valid_split].
  { split; [intros _ | done]. split; [constructor |]. intros x Hx. by apply elem_of_nil in Hx. }
  rewrite !andb_true_iff, !negb_true_iff, IH. split.
  - intros [[H1 H2] [Hs Hr]]. split.
    + constructor; [done |]. apply Forall_forall. intros y Hy. apply Hr in Hy. lia.
    + intros y [-> | Hy]%elem_of_cons; [lia |]. apply Hr in Hy. lia.
  - intros [Hs Hr]. inversion Hs as [| ? ? Hs' Hx]; subst. pose proof (Hr x ltac:(by left)).
    split; [lia |]. split; [done |]. intros y Hy. rewrite Forall_forall in Hx. specialize (Hx y Hy).
    specialize (Hr y ltac:(by right)). lia.
Qed.

(** The logical dimension a split is about, and its size. *)
Definition split_of (l : Layout) (physical : Z) : Z :=
  minor_to_major l !!! Z.to_nat (Z.of_nat (length (minor_to_major l)) - 1 - physical).

Definition split_ok (l : Layout) (ds : list Z) (c : SplitConfig) : Prop :=
  0 ≤ dimension c < Z.of_nat (length ds) ∧
  valid_split (ds !!! Z.to_nat (split_of l (dimension c))) 0 (split_indices c) = true.

#[export] Instance split_ok_dec l ds c : Decision (split_ok l ds c).
Proof. unfold split_ok. apply _. Defined.

Lemma Major_spec l p :
  0 ≤ p < Z.of_nat (length (minor_to_major l)) → Major l p = Ok (split_of l p).
Proof. intros Hp. unfold Major, Minor, split_of. apply at_z_total. lia. Qed.

Lemma split_of_range l ds p :
  valid_layout ds (minor_to_major l) → 0 ≤ p < Z.of_nat (length ds) → 0 ≤ split_of l p < Z.of_nat (length ds).
Proof.
  intros [[_ Hr] El] Hp. rewrite <- El. apply Hr. unfold split_of.
  apply (list_elem_of_lookup_2 _ (Z.to_nat (Z.of_nat (length (minor_to_major l)) - 1 - p))).
  apply list_lookup_lookup_total_lt. lia.
Qed.

Definition splits_ok (l : Layout) (ds : list Z) (cs : list SplitConfig) (seen : list bool) : Prop :=
  Forall (split_ok l ds) cs ∧ NoDup (dimension <$> cs) ∧
  ∀ c, c ∈ cs → seen !! Z.to_nat (dimension c) = Some false.

Lemma validate_splits_spec l ds cs seen :
  valid_layout ds (minor_to_major l) → length seen = length ds →
  (validate_splits l ds cs seen = Ok tt ∧ splits_ok l ds cs seen) ∨
  (validate_splits l ds cs seen = Fail InvalidArgument ∧ ¬ splits_ok l ds cs seen).
Proof.
  intros Hm. revert seen. induction cs as [| c cs IH]; intros seen El; cbn [validate_splits].
  { left. split; [done |]. split; [constructor |]. split; [constructor |]. set_solver. }
  destruct ((dimension c <? 0) || (dimension c >=? Z.of_nat (length ds))) eqn:Er.
  { right. split; [done |]. intros [[[Hd _] _]%Forall_cons _]. apply orb_true_iff in Er. lia. }
  apply orb_false_iff in Er as [E1 E2]. cbn [negb guard_res mbind res_bind].
  destruct (lookup_lt_is_Some_2 seen (Z.to_nat (dimension c))) as [b Hb]; [lia |].
  rewrite (proj2 (at_z_ok seen (dimension c) b)) by (split; [lia | done]). cbn [mbind res_bind].
  destruct b; cbn [negb guard_res mbind res_bind].
  { right. split; [done |]. intros (_ & _ & Hs). specialize (Hs c ltac:(by left)). congruence. }
  assert (Hd : 0 ≤ dimension c < Z.of_nat (length ds)) by lia.
  pose proof (split_of_range l ds _ Hm Hd) as Hso.
  rewrite Major_spec by (destruct Hm as [_ ->]; lia). cbn [mbind res_bind].
  rewrite (at_z_total ds) by done. cbn [mbind res_bind].
  destruct (valid_split _ 0 (split_indices c)) eqn:Ev; cbn [guard_res mbind res_bind].
  2: { right. split; [done |]. intros [[[_ Hv] _]%Forall_cons _]. congruence. }
  assert (Hok : split_ok l ds c) by by split.
  destruct (IH (<[Z.to_nat (dimension c) := true]> seen)) as [[-> Hs] | [-> Hs]].
  { by rewrite length_insert. }
  - left. split; [done |]. destruct Hs as (H1 & H2 & H3). split; [by constructor |].
    assert (Hne : ∀ c', c' ∈ cs → dimension c' ≠ dimension c).
    { intros c' Hc' E. specialize (H3 c' Hc'). rewrite E, list_lookup_insert_eq in H3 by lia. done. }
    split.
    + rewrite fmap_cons. apply NoDup_cons. split; [| done]. intros (c' & E & Hc')%list_elem_of_fmap.
      by apply (Hne c').
    + intros c' [-> | Hc']%elem_of_cons; [done |]. specialize (H3 c' Hc'). specialize (Hne c' Hc').
      rewrite Forall_forall in H1. destruct (H1 c' Hc') as [Hr _].
      by rewrite list_lookup_insert_ne in H3 by lia.
  - right. split; [done |]. intros ([_ H1]%Forall_cons & H2 & H3). apply Hs.
    rewrite fmap_cons in H2. apply NoDup_cons in H2 as [Hn H2]. split; [done |]. split; [done |].
    intros c' Hc'. rewrite Forall_forall in H1. destruct (H1 c' Hc') as [Hr _].
    rewrite list_lookup_insert_ne; [apply H3; by right |]. intros E. apply Hn, list_elem_of_fmap.
    exists c'. split; [lia | done].
Qed.

(** What a layout of an array has to satisfy. *)
Record layout_valid (l : Layout) (ds : list Z) : Prop := {
  lv_order : valid_layout ds (minor_to_major l);
  lv_tail : 0 < tail_padding_alignment_in_elements l;
  lv_index : index_primitive_type l = PRIMITIVE_TYPE_INVALID;
  lv_pointer : pointer_primitive_type l = PRIMITIVE_TYPE_INVALID;
  lv_physical : has_physical_shape l = false;
  lv_tiles : Forall (λ t, t ≠ [] ∧ Forall (λ d, 0 < d ∨ d = kCombineDimension) t) (tiles l);
  lv_element : 0 ≤ element_size_in_bits l;
  lv_split_dims : NoDup (dimension <$> split_configs l);
  lv_splits : Forall (λ c, 0 ≤ dimension c < Z.of_nat (length ds) ∧
    increasing 0 (ds !!! Z.to_nat (split_of l (dimension c))) (split_indices c)) (split_configs l);
}.

Lemma valid_tile_spec t :
  valid_tile t = true ↔ t ≠ [] ∧ Forall (λ d, 0 < d ∨ d = kCombineDimension) t.
Proof.
  unfold valid_tile. rewrite andb_true_iff, negb_true_iff, bool_decide_eq_false, forallb_forall, Forall_forall.
  split; intros [H1 H2]; (split; [done |]); intros d Hd.
  - apply list_elem_of_In in Hd. specialize (H2 d Hd). apply negb_true_iff, andb_false_iff in H2.
    destruct H2 as [H2 | H2]; [left; lia | right; apply negb_false_iff in H2; lia].
  - apply list_elem_of_In in Hd. apply negb_true_iff, andb_false_iff.
    destruct (H2 d Hd) as [? | ?]; [left; lia | right; apply negb_false_iff; lia].
Qed.

Lemma valid_tiles_spec ts :
  forallb valid_tile ts = true ↔ Forall (λ t, t ≠ [] ∧ Forall (λ d, 0 < d ∨ d = kCombineDimension) t) ts.
Proof.
  rewrite forallb_forall, Forall_forall. setoid_rewrite list_elem_of_In.
  split; intros H t Ht; [by apply valid_tile_spec, H | by apply valid_tile_spec, H].
Qed.

(** One check of the validation. *)
Lemma guard_both b (k : res unit) (P Q : Prop) :
  (b = true ↔ P) →
  (b = true → (k = Ok tt ∧ Q) ∨ (k = Fail InvalidArgument ∧ ¬ Q)) →
  ((guard_res b InvalidArgument;; k) = Ok tt ∧ P ∧ Q) ∨
  ((guard_res b InvalidArgument;; k) = Fail InvalidArgument ∧ ¬ (P ∧ Q)).
Proof. destruct b; cbn [guard_res mbind res_bind]; naive_solver. Qed.

(** The checks in the code's order. *)
Definition in_order (l : Layout) (ds : list Z) : Prop :=
  0 < tail_padding_alignment_in_elements l ∧ index_primitive_type l = PRIMITIVE_TYPE_INVALID ∧
  pointer_primitive_type l = PRIMITIVE_TYPE_INVALID ∧ has_physical_shape l = false ∧
  Forall (λ t, t ≠ [] ∧ Forall (λ d, 0 < d ∨ d = kCombineDimension) t) (tiles l) ∧
  0 ≤ element_size_in_bits l ∧ splits_ok l ds (split_configs l) (replicate (length ds) false).

Lemma splits_ok_fresh l ds cs :
  splits_ok l ds cs (replicate (length ds) false) ↔
  NoDup (dimension <$> cs) ∧ Forall (λ c, 0 ≤ dimension c < Z.of_nat (length ds) ∧
    increasing 0 (ds !!! Z.to_nat (split_of l (dimension c))) (split_indices c)) cs.
Proof.
  unfold splits_ok, split_ok. split.
  - intros (H1 & H2 & _). split; [done |]. eapply Forall_impl; [exact H1 |].
    intros c [Hd Hv]. split; [done |]. by apply valid_split_spec.
  - intros [H1 H2]. split; [| split; [done |]].
    + eapply Forall_impl; [exact H2 |]. intros c [Hd Hv]. split; [done |]. by apply valid_split_spec.
    + intros c Hc. rewrite Forall_forall in H2. destruct (H2 c Hc) as [Hd _]. apply lookup_replicate.
      split; [done | lia].
Qed.

Lemma in_order_valid l ds :
  valid_layout ds (minor_to_major l) → in_order l ds ↔ layout_valid l ds.
Proof.
  intros Hm. unfold in_order. rewrite splits_ok_fresh. split.
  - intros (? & ? & ? & ? & ? & ? & ? & ?). by constructor.
  - intros []. by split_and!.
Qed.

Lemma ValidateLayoutForShape_spec l a :
  (ValidateLayoutForShape l a = Ok tt ∧ layout_valid l (Shape.sizes a)) ∨
  (ValidateLayoutForShape l a = Fail InvalidArgument ∧ ¬ layout_valid l (Shape.sizes a)).
Proof.
  unfold ValidateLayoutForShape.
  assert (Er : Shape.rank a = length (Shape.sizes a)).
  { unfold Shape.rank, Shape.sizes. by rewrite length_fmap. }
  rewrite Er. clear Er. generalize (Shape.sizes a) as ds. intros ds.
  destruct (decide (length (minor_to_major l) = length ds)) as [El | El].
  2: { right. rewrite (bool_decide_false (length (minor_to_major l) = length ds)) by done. split; [done |]. intros Hv. apply El, (lv_order _ _ Hv). }
  rewrite (bool_decide_true (length (minor_to_major l) = length ds)) by done. cbn [guard_res mbind res_bind].
  rewrite validate_order_perm by done. destruct (IsPermutation (minor_to_major l)) eqn:Ep; cbn [mbind res_bind].
  2: { right. split; [done |]. intros Hv. destruct (lv_order _ _ Hv) as [Hp _]. apply IsPermutation_perm in Hp. congruence. }
  apply IsPermutation_perm in Ep. assert (Hm : valid_layout ds (minor_to_major l)) by by split.
  rewrite <- in_order_valid by done. unfold in_order.
  apply guard_both; [rewrite negb_true_iff, Z.leb_gt; lia | intros _].
  apply guard_both; [apply bool_decide_eq_true | intros _].
  apply guard_both; [apply bool_decide_eq_true | intros _].
  apply guard_both; [apply negb_true_iff | intros _].
  apply guard_both; [apply valid_tiles_spec | intros _].
  apply guard_both; [rewrite negb_true_iff, Z.ltb_ge; lia | intros _].
  apply validate_splits_spec; [done | apply length_replicate].
Qed.

(** ** The inverse of an order *)

Lemma MakeLogicalToPhysical_spec l :
  perm (minor_to_major l) →
  ∃ p, MakeLogicalToPhysical l = Ok p ∧ perm p ∧ length p = length (minor_to_major l) ∧
    ∀ i, 0 ≤ i < Z.of_nat (length p) → Major l (p !!! Z.to_nat i) = Ok i ∧
      ∃ d, Major l i = Ok d ∧ p !!! Z.to_nat d = i.
Proof.
  intros Hm. unfold MakeLogicalToPhysical. set (m := minor_to_major l) in *.
  pose proof (perm_reverse m Hm) as [Hn Hr]. rewrite length_reverse in Hr.
  destruct (scatter_spec (seqZ 0 (Z.of_nat (length m))) (reverse m) (replicate (length m) 0))
    as (p & E & Hl & H & _); [done | by rewrite length_replicate | rewrite length_seqZ, length_reverse; lia |].
  rewrite length_replicate in Hl. exists p. split; [done |].
  assert (Hat : ∀ i, 0 ≤ i < Z.of_nat (length m) →
    ∃ d, Major l i = Ok d ∧ 0 ≤ d < Z.of_nat (length m) ∧ p !!! Z.to_nat d = i ∧ reverse m !! Z.to_nat i = Some d).
  { intros i Hi. exists (split_of l i). split; [by apply Major_spec |].
    assert (Hd : reverse m !! Z.to_nat i = Some (split_of l i)).
    { rewrite reverse_lookup by lia. unfold split_of. fold m.
      replace (Z.to_nat (Z.of_nat (length m) - 1 - i)) with (length m - S (Z.to_nat i))%nat by lia.
      apply list_lookup_lookup_total_lt. lia. }
    split; [apply Hr; by eapply list_elem_of_lookup_2 |]. split; [| done].
    apply list_lookup_total_correct. rewrite (H _ _ Hd). apply lookup_seqZ. lia. }
  assert (Hback : ∀ d, 0 ≤ d < Z.of_nat (length m) → ∃ i, 0 ≤ i < Z.of_nat (length m) ∧
    p !!! Z.to_nat d = i ∧ Major l i = Ok d).
  { intros d Hd. destruct (proj1 (list_elem_of_lookup (reverse m) d)) as [i Hi].
    { rewrite elem_of_reverse. by apply perm_surj. }
    pose proof (lookup_lt_Some _ _ _ Hi) as Hlt. rewrite length_reverse in Hlt.
    destruct (Hat (Z.of_nat i)) as (d' & E1 & _ & E2 & E3); [lia |]. rewrite Nat2Z.id, Hi in E3.
    injection E3 as <-. exists (Z.of_nat i). split; [lia | done]. }
  split; [| split; [done |]].
  - split.
    + apply NoDup_alt. intros a b x Ha Hb. pose proof (lookup_lt_Some _ _ _ Ha). pose proof (lookup_lt_Some _ _ _ Hb).
      destruct (Hback (Z.of_nat a)) as (i & _ & Ei & Mi); [lia |].
      destruct (Hback (Z.of_nat b)) as (j & _ & Ej & Mj); [lia |].
      rewrite Nat2Z.id in Ei, Ej. apply list_lookup_total_correct in Ha, Hb.
      assert (i = j) as -> by congruence. rewrite Mi in Mj. injection Mj as Mj. lia.
    + intros x [a Ha]%list_elem_of_lookup. pose proof (lookup_lt_Some _ _ _ Ha).
      destruct (Hback (Z.of_nat a)) as (i & Hi & Ei & _); [lia |]. rewrite Nat2Z.id in Ei.
      apply list_lookup_total_correct in Ha. rewrite Hl. congruence.
  - intros i Hi. rewrite Hl in Hi. destruct (Hback i Hi) as (j & _ & -> & Mj).
    destruct (Hat i Hi) as (d & Md & _ & Ed & _). split; [done |]. by exists d.
Qed.

(** ** Changed orders *)

Lemma perm_filter m x : perm m → x ∈ m → x :: filter (λ d, d ≠ x) m ≡ₚ m.
Proof.
  intros [Hn _] Hx. apply NoDup_Permutation; [| done |].
  - apply NoDup_cons. split; [| by apply NoDup_filter]. intros [H _]%list_elem_of_filter. done.
  - intros y. rewrite elem_of_cons, list_elem_of_filter. destruct (decide (y = x)) as [-> |]; tauto.
Qed.

Lemma perm_Permutation m1 m2 : m1 ≡ₚ m2 → perm m1 → perm m2.
Proof. intros E [Hn Hr]. split; [by rewrite <- E |]. intros x Hx. rewrite <- E. apply Hr. by rewrite E. Qed.

Lemma MoveDimToMajor_spec l dim :
  perm (minor_to_major l) → dim ∈ minor_to_major l →
  ∃ m, MoveDimToMajor l dim = Ok (with_minor_to_major l (m ++ [dim])) ∧ m ++ [dim] ≡ₚ minor_to_major l ∧
    m = filter (λ d, d ≠ dim) (minor_to_major l).
Proof.
  intros Hm Hd. unfold MoveDimToMajor. set (m := minor_to_major l) in *.
  assert (Hp : filter (λ d, d ≠ dim) m ++ [dim] ≡ₚ m).
  { rewrite <- (perm_filter m dim) at 2 by done. rewrite Permutation_app_comm. done. }
  exists (filter (λ d, d ≠ dim) m). split; [| done].
  destruct (last m) as [b |] eqn:El; cbn [mbind res_bind].
  - destruct (Z.eqb_spec dim b) as [-> |]; [| done]. f_equal.
    apply last_Some in El as [m' El]. rewrite El.
    assert (Hn : b ∉ m').
    { destruct Hm as [Hn _]. fold m in Hn. rewrite El in Hn. apply NoDup_app in Hn as (_ & Hn & _).
      intros H. apply (Hn b H). by left. }
    rewrite filter_app, list_filter_all by (apply Forall_forall; intros y Hy ->; done).
    rewrite filter_cons_False, filter_nil, app_nil_r by (intros H; by apply H).
    rewrite <- El. by destruct l.
  - apply last_None in El. rewrite El in Hd. by apply elem_of_nil in Hd.
Qed.

Lemma MoveDimToMinor_spec l dim :
  perm (minor_to_major l) → dim ∈ minor_to_major l →
  ∃ m, MoveDimToMinor l dim = Ok (with_minor_to_major l (dim :: m)) ∧ dim :: m ≡ₚ minor_to_major l ∧
    m = filter (λ d, d ≠ dim) (minor_to_major l).
Proof.
  intros Hm Hd. unfold MoveDimToMinor. set (m := minor_to_major l) in *.
  pose proof (perm_filter m dim Hm Hd) as Hp. exists (filter (λ d, d ≠ dim) m). split; [| done].
  destruct m as [| f m'] eqn:E; [by apply elem_of_nil in Hd |]. cbn [head mbind res_bind].
  destruct (Z.eqb_spec dim f) as [-> |]; [| done]. f_equal.
  destruct Hm as [Hn _]. apply NoDup_cons in Hn as [Hn _].
  rewrite filter_cons_False by (intros H; by apply H).
  rewrite list_filter_all by (apply Forall_forall; intros y Hy ->; done). destruct l; cbn in *. by subst.
Qed.

(** ** A deleted dimension *)

Definition renumber (dim d : Z) : Z := if d >? dim then d - 1 else d.

Lemma delete_from_order_perm m dim :
  perm m → dim ∈ m →
  perm (delete_from_order dim m) ∧ length (delete_from_order dim m) = pred (length m).
Proof.
  intros Hm Hd. pose proof (perm_filter m dim Hm Hd) as Hp. unfold delete_from_order.
  fold (renumber dim). apply Permutation_length in Hp as Hl. cbn [length] in Hl.
  assert (Hlen : length (renumber dim <$> filter (λ d, d ≠ dim) m) = pred (length m)).
  { rewrite length_fmap. lia. }
  split; [| exact Hlen]. split.
  - apply NoDup_fmap_2_strong; [| apply NoDup_filter, Hm]. intros x y Hx Hy E.
    apply list_elem_of_filter in Hx as [Hx _], Hy as [Hy _]. unfold renumber in E.
    destruct (Z.gtb_spec x dim), (Z.gtb_spec y dim); lia.
  - intros x. rewrite Hlen. intros (y & -> & [Hy Hym]%list_elem_of_filter)%list_elem_of_fmap.
    apply Hm in Hym as Hyr. apply Hm in Hd as Hdr. unfold renumber. destruct (Z.gtb_spec y dim); lia.
Qed.

End LayoutProofs.

(** ** Layouts, indices and tiles: the properties

    What layouts, linear indices and tiles promise, each with a concrete instance. *)
Module LayoutCorrect.
Import Types PermUtil Radix Layouts IndexProofs TilingProofs UntileProofs FlatTiles UntiledProofs.
Import LayoutProofs.

(** ** Concrete data *)

Definition demo_dims : list Z := [3; 4; 5].
Definition demo_order : list Z := [1; 2; 0].

Lemma demo_valid : valid_layout demo_dims demo_order.
Proof. split; [by apply IsPermutation_perm | done]. Qed.

Lemma demo_pos : Forall (λ d, 0 < d) demo_dims.
Proof. unfold demo_dims. repeat constructor; lia. Qed.

Lemma demo_index : in_bounds demo_dims [2; 1; 4].
Proof. unfold demo_dims. repeat constructor; lia. Qed.

Lemma demo_product : prod demo_dims ≤ int64_max.
Proof. vm_compute. by intros. Qed.

(** An array of floats with the sizes, and its layout with the order and the tiles. *)
Definition demo_array (ds : list Z) : Shape.Array := Shape.MkArray F32 ((λ d, Shape.MkDim d false) <$> ds).
Definition demo_tiled (ds m : list Z) (ts : list Tile) : LaidShape :=
  MkLaid (demo_array ds) (Some (MkFullLayout m ts [] 1 0 PRIMITIVE_TYPE_INVALID PRIMITIVE_TYPE_INVALID 0 0 None)).

Lemma sizes_demo ds : Shape.sizes (demo_array ds) = ds.
Proof. unfold Shape.sizes, demo_array. cbn. rewrite <- list_fmap_compose. apply list_fmap_id. Qed.

Lemma demo_tileable ds m ts :
  IsPermutation m = true → length m = length ds → tiles_pos ts →
  tileable (demo_tiled ds m ts) (MkFullLayout m ts [] 1 0 PRIMITIVE_TYPE_INVALID PRIMITIVE_TYPE_INVALID 0 0 None).
Proof.
  intros Hm El Ht. constructor; [done | | done]. cbn [array demo_tiled minor_to_major].
  rewrite sizes_demo. split; [by apply IsPermutation_perm | done].
Qed.

(** ** Linear indices *)

(** C34: a layout numbers the elements of an array: [MultidimensionalIndexToLinearIndex]
    maps the indices within the bounds one to one onto the numbers below the element
    count, and [LinearIndexToMultidimensionalIndex] is its inverse, without overflow. *)
Theorem linear_index_bijective ds m :
  valid_layout ds m → Forall (λ d, 0 < d) ds → prod ds ≤ int64_max →
  (∀ xs, in_bounds ds xs → ∃ k, MultidimensionalIndexToLinearIndex ds m xs = Ok k ∧
    0 ≤ k < prod ds ∧ LinearIndexToMultidimensionalIndex ds m k = Ok xs) ∧
  (∀ k, 0 ≤ k < prod ds → ∃ xs, LinearIndexToMultidimensionalIndex ds m k = Ok xs ∧
    in_bounds ds xs ∧ MultidimensionalIndexToLinearIndex ds m xs = Ok k).
Proof.
  intros Hm Hpos Mx. split.
  - intros xs Hb. by apply linear_round_trip.
  - intros k Hk. by apply index_round_trip.
Qed.

Lemma linear_index_bijective_witness :
  MultidimensionalIndexToLinearIndex demo_dims demo_order [2; 1; 4] = Ok 57 ∧
  ∃ xs, LinearIndexToMultidimensionalIndex demo_dims demo_order 57 = Ok xs ∧ in_bounds demo_dims xs.
Proof.
  split; [by vm_compute |].
  destruct (proj2 (linear_index_bijective demo_dims demo_order demo_valid demo_pos demo_product) 57)
    as (xs & H1 & H2 & _); [split; [done | by vm_compute] |].
  exists xs. by split.
Defined.

(** the stride of a dimension is the distance in the linear order of any two
    elements that are neighbours along it. *)
Theorem GetDimensionStride_steps ds m xs dim x :
  valid_layout ds m → in_bounds ds xs → prod ds ≤ int64_max →
  xs !! dim = Some x → x + 1 < ds !!! dim →
  ∃ k stride, MultidimensionalIndexToLinearIndex ds m xs = Ok k ∧
    GetDimensionStride ds m (Z.of_nat dim) 1 = Ok stride ∧
    MultidimensionalIndexToLinearIndex ds m (<[dim := x + 1]> xs) = Ok (k + stride).
Proof.
  intros Hm Hb Mx Hx Hlt. pose proof (valid_layout_in_range ds m ds Hm eq_refl) as Hr.
  pose proof (bump_dim_in_bounds _ _ _ _ Hb Hx Hlt) as Hb'.
  eexists _, _. split; [by apply MultidimensionalIndexToLinearIndex_spec |]. split.
  - apply GetDimensionStride_spec; [done | by eapply in_bounds_pos | done |].
    rewrite (sel_perm ds m Hm). lia.
  - rewrite MultidimensionalIndexToLinearIndex_spec by done. f_equal.
    rewrite Z.mul_1_l. by apply stride_step.
Qed.

Lemma GetDimensionStride_steps_witness :
  ∃ k stride, MultidimensionalIndexToLinearIndex demo_dims demo_order [1; 1; 4] = Ok k ∧
    GetDimensionStride demo_dims demo_order 0 1 = Ok stride ∧
    MultidimensionalIndexToLinearIndex demo_dims demo_order [2; 1; 4] = Ok (k + stride).
Proof.
  apply (GetDimensionStride_steps demo_dims demo_order [1; 1; 4] 0 1); [apply demo_valid | | apply demo_product | done | done].
  unfold demo_dims. repeat constructor; lia.
Defined.

(** [BumpIndices] counts through the array in the default order: it gives the index
    of the next linear index, and says that there is none exactly for the last. *)
Theorem BumpIndices_counts ds xs :
  in_bounds ds xs → prod ds ≤ int64_max →
  ∃ k, MultidimensionalIndexToLinearIndex ds (descending (length ds)) xs = Ok k ∧
    if k + 1 <? prod ds then
      ∃ ys, BumpIndices ds xs = Ok (true, ys) ∧ in_bounds ds ys ∧
        MultidimensionalIndexToLinearIndex ds (descending (length ds)) ys = Ok (k + 1)
    else BumpIndices ds xs = Ok (false, xs).
Proof. apply BumpIndices_spec. Qed.

Lemma BumpIndices_counts_witness :
  BumpIndices demo_dims [2; 1; 4] = Ok (true, [2; 2; 0]) ∧
  ∃ k, MultidimensionalIndexToLinearIndex demo_dims (descending 3) [2; 1; 4] = Ok k.
Proof.
  split; [by vm_compute |].
  destruct (BumpIndices_counts demo_dims [2; 1; 4] demo_index demo_product) as (k & Hk & _).
  exists k. exact Hk.
Defined.

(** [CompareIndices] is the order of the linear indices of the default layout. *)
Theorem CompareIndices_default_order ds xs ys :
  in_bounds ds xs → in_bounds ds ys → prod ds ≤ int64_max →
  ∃ a b, MultidimensionalIndexToLinearIndex ds (descending (length ds)) xs = Ok a ∧
    MultidimensionalIndexToLinearIndex ds (descending (length ds)) ys = Ok b ∧
    CompareIndices xs ys = Ok (Z.sgn (a - b)).
Proof.
  intros Hx Hy Mx. eexists _, _. split; [by apply descending_index |].
  split; [by apply descending_index |]. by apply CompareIndices_spec.
Qed.

(** ** Tiles *)

(** C35: with nested tiles every element has its own place within the product of the
    tiled sizes, and [DelinearizeIndexForNestedTiling] finds the element from its place,
    provided no tile but the first has more dimensions than what it is applied to. *)
Theorem NestedTiling_roundtrip s l xs :
  tileable s l → in_bounds (Shape.sizes (array s)) xs → prod (memory_sizes s l) ≤ int64_max →
  pads_first (tiles l) (length xs) = true →
  ∃ k, LinearIndexForNestedTiling s xs = Ok k ∧ 0 ≤ k < prod (memory_sizes s l) ∧
    DelinearizeIndexForNestedTiling s k = Ok xs.
Proof. apply nested_round_trip. Qed.

Lemma demo_nested_tileable :
  tileable (demo_tiled [5; 20] [1; 0] [[4; 8]; [2; 1]])
    (MkFullLayout [1; 0] [[4; 8]; [2; 1]] [] 1 0 PRIMITIVE_TYPE_INVALID PRIMITIVE_TYPE_INVALID 0 0 None).
Proof. apply demo_tileable; [done | done |]. repeat constructor; lia. Qed.

Lemma NestedTiling_roundtrip_witness :
  LinearIndexForNestedTiling (demo_tiled [5; 20] [1; 0] [[4; 8]; [2; 1]]) [3; 9] = Ok 51 ∧
  ∃ k, LinearIndexForNestedTiling (demo_tiled [5; 20] [1; 0] [[4; 8]; [2; 1]]) [3; 9] = Ok k ∧
    DelinearizeIndexForNestedTiling (demo_tiled [5; 20] [1; 0] [[4; 8]; [2; 1]]) k = Ok [3; 9].
Proof.
  split; [by vm_compute |].
  destruct (NestedTiling_roundtrip _ _ [3; 9] demo_nested_tileable) as (k & H1 & _ & H2).
  - cbn [array demo_tiled]. rewrite sizes_demo. repeat constructor; lia.
  - vm_compute. by intros.
  - done.
  - exists k. by split.
Defined.

(** A second tile that pads: the tile (4) splits 8 elements into 2 x 4, the tile
    (2, 2, 2) pads that to three dimensions, and undoing the first tile then reads the
    index of the wrong dimension. *)
Example nested_padding_lost :
  LinearIndexForNestedTiling (demo_tiled [8] [0] [[4]; [2; 2; 2]]) [4] = Ok 2 ∧
  DelinearizeIndexForNestedTiling (demo_tiled [8] [0] [[4]; [2; 2; 2]]) 2 = Ok [1].
Proof. by vm_compute. Qed.

(** for a layout with at most one tile [LinearIndex], which makes a single pass over
    the dimensions, agrees with the linear index of nested tiles, unless the array has
    one dimension and the tile more. *)
Theorem LinearIndex_one_tile s l xs :
  tileable s l → (length (tiles l) ≤ 1)%nat → in_bounds (Shape.sizes (array s)) xs →
  prod (memory_sizes s l) ≤ int64_max → (length xs = 1%nat → length (first_tile l) ≤ 1)%nat →
  LinearIndex s xs = LinearIndexForNestedTiling s xs.
Proof. apply LinearIndex_nested. Qed.

Lemma demo_flat_tileable :
  tileable (demo_tiled [5; 20] [0; 1] [[4; 8]])
    (MkFullLayout [0; 1] [[4; 8]] [] 1 0 PRIMITIVE_TYPE_INVALID PRIMITIVE_TYPE_INVALID 0 0 None).
Proof. apply demo_tileable; [done | done |]. repeat constructor; lia. Qed.

Lemma LinearIndex_one_tile_witness :
  LinearIndex (demo_tiled [5; 20] [0; 1] [[4; 8]]) [3; 9] = Ok 75 ∧
  LinearIndex (demo_tiled [5; 20] [0; 1] [[4; 8]]) [3; 9] =
    LinearIndexForNestedTiling (demo_tiled [5; 20] [0; 1] [[4; 8]]) [3; 9].
Proof.
  split; [by vm_compute |].
  apply (LinearIndex_one_tile _ _ [3; 9] demo_flat_tileable); [by cbn; lia | | | done].
  - cbn [array demo_tiled]. rewrite sizes_demo. repeat constructor; lia.
  - vm_compute. by intros.
Defined.

(** The exception: [LinearIndex] of one dimension is the index, whatever the tile. *)
Example linear_index_ignores_tile :
  LinearIndex (demo_tiled [16] [0] [[2; 8]]) [8] = Ok 8 ∧
  LinearIndexForNestedTiling (demo_tiled [16] [0] [[2; 8]]) [8] = Ok 16.
Proof. by vm_compute. Qed.

(** tiles that [IsUntiledLayout] accepts for the sizes in the order of memory move
    no element: the tiled place of an element is its linear index in the order alone. *)
Theorem IsUntiledLayout_sound s l xs :
  opt_layout s = Some l → valid_layout (Shape.sizes (array s)) (minor_to_major l) →
  in_bounds (Shape.sizes (array s)) xs → prod (Shape.sizes (array s)) ≤ int64_max →
  (sh ← physical_order (minor_to_major l) (Shape.sizes (array s)); IsUntiledLayout (tiles l) sh) = Ok true →
  LinearIndexForNestedTiling s xs =
    MultidimensionalIndexToLinearIndex (Shape.sizes (array s)) (minor_to_major l) xs.
Proof. apply IsUntiledLayout_index. Qed.

Lemma IsUntiledLayout_sound_witness :
  LinearIndexForNestedTiling (demo_tiled [6; 4] [1; 0] [[2; 4]; [1]]) [3; 2] =
    MultidimensionalIndexToLinearIndex [6; 4] [1; 0] [3; 2].
Proof.
  pose proof (IsUntiledLayout_sound (demo_tiled [6; 4] [1; 0] [[2; 4]; [1]]) _ [3; 2] eq_refl) as H.
  cbn [array demo_tiled minor_to_major tiles] in H. rewrite sizes_demo in H. apply H.
  - split; [by apply IsPermutation_perm | done].
  - repeat constructor; lia.
  - by vm_compute.
  - by vm_compute.
Defined.

(** ** Validity *)

(** C38: [ValidateLayoutForShape] accepts exactly the valid layouts - an order that is a
    permutation of the dimensions, positive tiles, splits of different dimensions at
    increasing indices inside them - and answers with an error status otherwise; no
    input makes it read out of range. *)
Theorem ValidateLayoutForShape_exact l a :
  (ValidateLayoutForShape l a = Ok tt ↔ layout_valid l (Shape.sizes a)) ∧
  (ValidateLayoutForShape l a = Fail InvalidArgument ↔ ¬ layout_valid l (Shape.sizes a)).
Proof. destruct (ValidateLayoutForShape_spec l a) as [[-> H] | [-> H]]; split; split; done. Qed.

(** [MakeLogicalToPhysical] is a permutation and inverse to [Major]. *)
Theorem MakeLogicalToPhysical_inverse l :
  perm (minor_to_major l) →
  ∃ p, MakeLogicalToPhysical l = Ok p ∧ perm p ∧ length p = length (minor_to_major l) ∧
    ∀ i, 0 ≤ i < Z.of_nat (length p) → Major l (p !!! Z.to_nat i) = Ok i ∧
      ∃ d, Major l i = Ok d ∧ p !!! Z.to_nat d = i.
Proof. apply MakeLogicalToPhysical_spec. Qed.

(** Moving a dimension to the most major or most minor place, and deleting one with
    the ones above it renumbered, keep the order a permutation; the other dimensions
    stay in their relative order. *)
Theorem layout_changes_valid l dim :
  perm (minor_to_major l) → dim ∈ minor_to_major l →
  let rest := filter (λ d, d ≠ dim) (minor_to_major l) in
  (∃ l', MoveDimToMajor l dim = Ok l' ∧ perm (minor_to_major l') ∧ minor_to_major l' = rest ++ [dim]) ∧
  (∃ l', MoveDimToMinor l dim = Ok l' ∧ perm (minor_to_major l') ∧ minor_to_major l' = dim :: rest) ∧
  (∃ l', DeleteLayoutDimension dim l = Ok l' ∧ perm (minor_to_major l') ∧
    minor_to_major l' = renumber dim <$> rest).
Proof.
  intros Hm Hd rest. split; [| split].
  - destruct (MoveDimToMajor_spec l dim Hm Hd) as (m & -> & Hp & ->). eexists. split; [done |].
    split; [| done]. by apply (perm_Permutation (minor_to_major l)).
  - destruct (MoveDimToMinor_spec l dim Hm Hd) as (m & -> & Hp & ->). eexists. split; [done |].
    split; [| done]. by apply (perm_Permutation (minor_to_major l)).
  - unfold DeleteLayoutDimension. pose proof (proj2 Hm _ Hd) as Hr.
    rewrite (proj2 (Z.geb_le _ _)) by lia. rewrite (proj2 (Z.ltb_lt _ _)) by lia.
    rewrite bool_decide_true by done. cbn [guard_res mbind res_bind]. eexists. split; [done |].
    split; [| done]. by apply delete_from_order_perm.
Qed.

Lemma layout_changes_valid_witness :
  ∃ l', DeleteLayoutDimension 1 (MakeLayout demo_order) = Ok l' ∧ perm (minor_to_major l') ∧
    minor_to_major l' = [1; 0].
Proof.
  destruct (layout_changes_valid (MakeLayout demo_order) 1) as (_ & _ & l' & H1 & H2 & H3).
  - apply demo_valid.
  - cbn. by left.
  - exists l'. split; [exact H1 | split; [exact H2 | exact H3]].
Defined.

End LayoutCorrect.
