(* ===== verification/Places.v ===== *)
(** * The places of elements

    The linear index of an element is the sum of its indices times the strides of the
    dimensions; so an order of the dimensions is a system of weighted digits, and the
    place of the [k]-th element in the default order is its value at [k]. *)
From stdpp Require Import relations.
From S2P Require Import Prelude PermUtil Radix Layouts IndexProofs TilingProofs.
#[local] Open Scope Z_scope.

Module Places.
Import PermUtil Radix Layouts IndexProofs TilingProofs.

(** ** Sums of products *)

Definition dot (a b : list Z) : Z := foldr Z.add 0 (zip_with Z.mul a b).

Lemma dot_cons x y a b : dot (x :: a) (y :: b) = x * y + dot a b.
Proof. done. Qed.

Lemma sum_perm l1 l2 : l1 ≡ₚ l2 → foldr Z.add 0 l1 = foldr Z.add 0 l2.
Proof. induction 1; cbn [foldr]; lia. Qed.

Lemma zip_fmap {A} (f : Z → Z → Z) (g h : A → Z) l : zip_with f (g <$> l) (h <$> l) = (λ x, f (g x) (h x)) <$> l.
Proof. induction l as [| x l IH]; [done |]. cbn. by f_equal. Qed.

Lemma dot_sel a b m : valid_layout a m → length a = length b → dot (sel a m) (sel b m) = dot a b.
Proof.
  intros Hm El. pose proof (perm_seqZ m (proj1 Hm)) as Hp. destruct Hm as [_ Hlen].
  assert (E : ∀ l, zip_with Z.mul (sel a l) (sel b l) = (λ p, a !!! Z.to_nat p * b !!! Z.to_nat p) <$> l).
  { intros l. apply zip_fmap. }
  unfold dot. rewrite E, (sum_perm _ _ (fmap_Permutation _ _ _ Hp)), <- E, Hlen.
  rewrite sel_seqZ. rewrite El. by rewrite sel_seqZ.
Qed.

Lemma dot_reverse a b : length a = length b → dot (reverse a) (reverse b) = dot a b.
Proof.
  intros El. unfold dot. rewrite <- zip_reverse by done. apply sum_perm, reverse_Permutation.
Qed.

(** ** Strides *)

Definition strides (ds m : list Z) : list Z := stride_of ds m <$> seqZ 0 (Z.of_nat (length ds)).

Lemma length_strides ds m : length (strides ds m) = length ds.
Proof. unfold strides. rewrite length_fmap, length_seqZ. lia. Qed.

Lemma strides_lookup ds m i :
  (i < length ds)%nat → strides ds m !! i = Some (stride_of ds m (Z.of_nat i)).
Proof.
  intros Hi. unfold strides. rewrite list_lookup_fmap, (proj2 (lookup_seqZ 0 _ i (Z.of_nat i))) by lia. done.
Qed.

Lemma before_app pre p m : p ∉ pre → before (pre ++ p :: m) p = pre.
Proof.
  induction pre as [| q pre IH]; intros Hp; cbn [app before].
  - by rewrite Z.eqb_refl.
  - apply not_elem_of_cons in Hp as [Hq Hp]. rewrite (proj2 (Z.eqb_neq q p)) by done. by rewrite IH.
Qed.

Lemma horner_sum ds xs pre m :
  NoDup (pre ++ m) →
  prod (sel ds pre) * horner (sel ds m) (sel xs m) =
    foldr Z.add 0 ((λ p, xs !!! Z.to_nat p * stride_of ds (pre ++ m) p) <$> m).
Proof.
  revert pre. induction m as [| p m IH]; intros pre Hn; [cbn; lia |].
  rewrite !sel_cons. cbn [horner]. rewrite fmap_cons. cbn [foldr].
  assert (E : pre ++ p :: m = (pre ++ [p]) ++ m) by by rewrite <- app_assoc.
  assert (Hp : p ∉ pre).
  { apply NoDup_app in Hn as (_ & Hn & _). intros H. apply (Hn p H). by left. }
  assert (Es : stride_of ds (pre ++ p :: m) p = prod (sel ds pre)).
  { unfold stride_of. by rewrite before_app. }
  rewrite Es. rewrite E in Hn |- *. rewrite <- IH by done.
  assert (Ea : sel ds (pre ++ [p]) = sel ds pre ++ [ds !!! Z.to_nat p]) by (unfold sel; by rewrite fmap_app).
  rewrite Ea, prod_app, prod_singleton. ring.
Qed.

Lemma sel_strides ds m : valid_layout ds m → sel (strides ds m) m = stride_of ds m <$> m.
Proof.
  intros Hm. unfold sel. apply list_fmap_ext. intros j p Hp.
  apply list_elem_of_lookup_2 in Hp. pose proof (valid_layout_in_range ds m ds Hm eq_refl p Hp).
  pose proof (strides_lookup ds m (Z.to_nat p) ltac:(lia)) as E. rewrite Z2Nat.id in E by lia.
  by apply list_lookup_total_correct.
Qed.

Lemma horner_dot ds xs m :
  valid_layout ds m → length xs = length ds →
  horner (sel ds m) (sel xs m) = dot xs (strides ds m).
Proof.
  intros Hm El. pose proof (horner_sum ds xs [] m (proj1 (proj1 Hm))) as E.
  cbn [app sel fmap list_fmap] in E. change (prod []) with 1 in E. rewrite Z.mul_1_l in E. rewrite E.
  rewrite <- (dot_sel xs (strides ds m) m); [| destruct Hm; split; [done | lia] | by rewrite length_strides].
  rewrite sel_strides by done. unfold dot, sel. by rewrite zip_fmap.
Qed.

(** ** The weighted digits of an order *)

Lemma val_dot l k : val l k = dot (digits l.*1 k) l.*2.
Proof.
  revert k. induction l as [| [d t] l IH]; intros k; [done |]. cbn [fmap list_fmap fst snd digits val].
  by rewrite dot_cons, IH.
Qed.

(** Sizes and strides, the most minor dimension of the default order first. *)
Definition weights (ds m : list Z) : list (Z * Z) := reverse (zip ds (strides ds m)).

Lemma weights_fst ds m : (weights ds m).*1 = reverse ds.
Proof. unfold weights. rewrite fmap_reverse, fst_zip; [done |]. by rewrite length_strides. Qed.

Lemma weights_snd ds m : (weights ds m).*2 = reverse (strides ds m).
Proof. unfold weights. rewrite fmap_reverse, snd_zip; [done |]. by rewrite length_strides. Qed.

Lemma weights_pos ds m : Forall (λ d, 0 < d) ds → sizes_pos (weights ds m).
Proof. intros H. unfold sizes_pos. rewrite <- (Forall_fmap fst (λ d, 0 < d)), weights_fst. by apply Forall_reverse. Qed.

Lemma weights_prod ds m : prod (weights ds m).*1 = prod ds.
Proof. rewrite weights_fst. apply prod_reverse. Qed.

(** The place of the [k]-th element in the default order. *)
Definition place (ds m : list Z) (k : Z) : res Z :=
  xs ← LinearIndexToMultidimensionalIndex ds (descending (length ds)) k;
  MultidimensionalIndexToLinearIndex ds m xs.

Lemma place_val ds m k :
  valid_layout ds m → Forall (λ d, 0 < d) ds → prod ds ≤ int64_max → 0 ≤ k < prod ds →
  place ds m k = Ok (val (weights ds m) k).
Proof.
  intros Hm Hpos Mx Hk. unfold place.
  destruct (LinearIndexToMultidimensionalIndex_spec ds (descending (length ds)) k) as (xs & E & El & Es);
    [apply valid_descending | done | done | lia |].
  rewrite E. cbn [mbind res_bind]. rewrite !sel_descending in Es by done.
  assert (Hb : in_bounds ds xs).
  { apply in_bounds_reverse. rewrite Es. apply digits_in_bounds. by apply Forall_reverse. }
  rewrite MultidimensionalIndexToLinearIndex_spec by done. f_equal. rewrite horner_dot by done.
  rewrite val_dot, weights_fst, weights_snd, <- Es, dot_reverse; [done |]. by rewrite length_strides.
Qed.


End Places.
