(* ===== verification/Bitcasts.v ===== *)
(** * Bitcasts

    The part of [xla/shape_util.cc] that decides which transposes and reshapes leave
    every element in its place, decomposes bitcasts and finds layouts that make a
    reshape one, with [CommonFactors] of [xla/util.cc].  A shape here is an array with
    an optional layout; the debug checks are left out. *)
From S2P Require Import Prelude WindowArith Types PermUtil Shape Layouts.
#[local] Open Scope Z_scope.

Module Bitcasts.
Import Types PermUtil Shape Layouts.

(** ** Shapes with layouts *)

Definition with_layout (s : LaidShape) (l : Layout) : LaidShape := MkLaid (array s) (Some l).

(** [ValidateDimensions]: whether an extent product overflows. *)
Fixpoint validate_dimensions (ds : list Z) (product : Z) (any_overflows : bool) : res unit :=
  match ds with
  | [] => guard_res (negb any_overflows) InvalidArgument
  | d :: ds =>
      if d =? kUnboundedSize then validate_dimensions ds product any_overflows
      else
        guard_res (negb (d <? 0)) InvalidArgument;;
        let '(product, overflow) := WindowArith.OverflowSafeMultiply product d in
        validate_dimensions ds product (any_overflows || overflow)
  end.

Section Types.
Context `{NativeTypes}.

Definition ValidateShapeSize (a : Array) : res unit :=
  let '(extent_product, extent_overflow) := ExtentProduct true a in
  w ← ByteWidth (element_type a);
  let '(_, byte_width_overflow) := WindowArith.OverflowSafeMultiply extent_product w in
  guard_res (negb (extent_overflow || byte_width_overflow)) InvalidArgument.

(** [ValidateShape] of an array. *)
Definition ValidateShape (s : LaidShape) : res unit :=
  guard_res (IsArrayType (element_type (array s))) InvalidArgument;;
  validate_dimensions (sizes (array s)) 1 false;;
  ValidateShapeSize (array s);;
  match opt_layout s with
  | None => Fail InvalidArgument
  | Some l => ValidateLayoutForShape l (array s)
  end.

Definition MakeValidatedShapeWithDenseLayout (t : PrimitiveType) (dimensions minor_to_major : list Z)
    : res LaidShape :=
  guard_res (bool_decide (length dimensions = length minor_to_major)) InvalidArgument;;
  guard_res (negb (bool_decide (t = OPAQUE_TYPE) || bool_decide (t = TUPLE) || bool_decide (t = TOKEN)))
    InvalidArgument;;
  a ← MakeValidatedShape2 t dimensions;
  let s := MkLaid a (Some (MakeLayout minor_to_major)) in
  ValidateShape s;;
  Ok s.

(** The versions without a status abort. *)
Definition MakeShapeWithDenseLayout (t : PrimitiveType) (dimensions minor_to_major : list Z)
    : res LaidShape :=
  value (MakeValidatedShapeWithDenseLayout t dimensions minor_to_major).

Definition MakeValidatedShapeWithDescendingLayout (t : PrimitiveType) (dimensions : list Z)
    : res LaidShape :=
  MakeValidatedShapeWithDenseLayout t dimensions (descending (length dimensions)).

Definition MakeShapeWithDescendingLayout (t : PrimitiveType) (dimensions : list Z) : res LaidShape :=
  value (MakeValidatedShapeWithDescendingLayout t dimensions).

(** The dimension at the place [i], the most major first. *)
Definition physical_dim (s : LaidShape) (i : Z) : res Z :=
  match opt_layout s with Some l => Major l i | None => Ok i end.

Definition physical_dims (s : LaidShape) : res (list Z) :=
  mapM (physical_dim s) (seqZ 0 (Z.of_nat (rank (array s)))).

Fixpoint set_markers (dynamic : list bool) (i : nat) (a : Array) : res Array :=
  match dynamic with
  | [] => Ok a
  | b :: dynamic => a ← set_dynamic_dimension i b a; set_markers dynamic (S i) a
  end.

(** The last line reads the layout of a shape that need not have one. *)
Definition MakeValidatedShapeWithDescendingLayoutAndSamePhysicalLayout (s : LaidShape)
    : res LaidShape :=
  order ← physical_dims s;
  dims ← mapM (at_z (sizes (array s))) order;
  new_shape ← MakeValidatedShapeWithDescendingLayout (element_type (array s)) dims;
  dynamic ← mapM (at_z (is_dynamic <$> Shape.dims (array s))) order;
  a ← set_markers dynamic 0 (array new_shape);
  l ← layout s;
  Ok (MkLaid a (Some (MkFullLayout (descending (length dims)) (tiles l) []
    (tail_padding_alignment_in_elements l) (element_size_in_bits l)
    PRIMITIVE_TYPE_INVALID PRIMITIVE_TYPE_INVALID (memory_space l) 0 None))).

Definition MakeShapeWithDescendingLayoutAndSamePhysicalLayout (s : LaidShape) : res LaidShape :=
  value (MakeValidatedShapeWithDescendingLayoutAndSamePhysicalLayout s).

(** [ChangeElementType] with the layout. *)
Definition IsSubByteNonPredType (t : PrimitiveType) : res bool :=
  if IsArrayType t && negb (bool_decide (t = PRED)) then w ← BitWidth t; Ok (w <? 8) else Ok false.

Definition set_element_size (l : Layout) (n : Z) : Layout :=
  MkFullLayout (minor_to_major l) (tiles l) (split_configs l) (tail_padding_alignment_in_elements l)
    n (index_primitive_type l) (pointer_primitive_type l) (memory_space l)
    (dynamic_shape_metadata_prefix_bytes l) (physical_shape l).

Definition ChangeElementType (s : LaidShape) (t : PrimitiveType) : res LaidShape :=
  a ← Shape.ChangeElementType (array s) t;
  sub_byte ← IsSubByteNonPredType t;
  Ok (MkLaid a (match opt_layout s with
                | Some l => Some (if negb sub_byte then set_element_size l 0 else l)
                | None => None
                end)).

(** *** Comparison *)

(** [Layout::Equal]. *)
Fixpoint equal_layouts (lhs rhs : Layout) : bool :=
  bool_decide (minor_to_major lhs = minor_to_major rhs) &&
  bool_decide (tiles lhs = tiles rhs) &&
  (tail_padding_alignment_in_elements lhs =? tail_padding_alignment_in_elements rhs) &&
  bool_decide (index_primitive_type lhs = index_primitive_type rhs) &&
  bool_decide (pointer_primitive_type lhs = pointer_primitive_type rhs) &&
  (element_size_in_bits lhs =? element_size_in_bits rhs) &&
  (memory_space lhs =? memory_space rhs) &&
  bool_decide ((λ c, (dimension c, split_indices c)) <$> split_configs lhs =
    (λ c, (dimension c, split_indices c)) <$> split_configs rhs) &&
  match physical_shape lhs, physical_shape rhs with
  | None, None => true
  | Some (a, l), Some (b, r) =>
      equal_arrays (MkEqualOptions false false false false false) a b &&
      match l, r with
      | None, None => true
      | Some l, Some r => equal_layouts l r
      | _, _ => false
      end
  | _, _ => false
  end.

Definition equal_opt_layouts (l r : option Layout) : bool :=
  match l, r with
  | None, None => true
  | Some l, Some r => equal_layouts l r
  | _, _ => false
  end.

Definition EqualIgnoringElementType (a b : LaidShape) : bool :=
  equal_arrays (MkEqualOptions true false false false false) (array a) (array b) &&
  equal_opt_layouts (opt_layout a) (opt_layout b).

(** ** Transposes *)

Definition TransposeIsBitcast (input_shape output_shape : LaidShape) (dimension_mapping : list Z)
    (ignore_element_type : bool) : res bool :=
  il ← layout input_shape;
  ol ← layout output_shape;
  if negb ignore_element_type && negb (SameElementType (array input_shape) (array output_shape))
  then Ok false
  else
    composed ← ComposePermutations dimension_mapping (minor_to_major ol);
    Ok (bool_decide (composed = minor_to_major il)).

Definition PermuteDimensions (permutation : list Z) (s : LaidShape) : res LaidShape :=
  a ← PermuteDimensionsIgnoringLayout permutation (array s);
  match opt_layout s with
  | None => Ok (MkLaid a None)
  | Some l =>
      inv ← InversePermutation permutation;
      m ← ComposePermutations inv (minor_to_major l);
      let new_shape := MkLaid a (Some (with_minor_to_major l m)) in
      ok ← TransposeIsBitcast s new_shape permutation false;
      guard_res ok CheckFailed;;
      Ok new_shape
  end.

Definition DeduceTransposeDimensionsForBitcast (input_shape output_shape : LaidShape)
    : res (option (list Z)) :=
  if bool_decide (rank (array output_shape) ≠ rank (array input_shape)) then Ok None
  else
    il ← layout input_shape;
    ol ← layout output_shape;
    inv ← InversePermutation (minor_to_major ol);
    transpose_perm ← ComposePermutations (minor_to_major il) inv;
    new_dims ← Permute (sizes (array input_shape)) transpose_perm;
    if bool_decide (sizes (array output_shape) ≠ new_dims) then Ok None
    else
      changed ← ChangeElementType output_shape (element_type (array input_shape));
      ok ← TransposeIsBitcast input_shape changed transpose_perm false;
      guard_res ok CheckFailed;;
      Ok (Some transpose_perm).

(** Meant to keep the physical dimensions. *)
Definition ReorderLogicalDimensions (s : LaidShape) (permutation : list Z) : res LaidShape :=
  ds ← Permute (dims (array s)) permutation;
  match opt_layout s with
  | None => Ok (MkLaid (MkArray (element_type (array s)) ds) None)
  | Some l =>
      m ← mapM (at_z permutation) (minor_to_major l);
      Ok (MkLaid (MkArray (element_type (array s)) ds) (Some (with_minor_to_major l m)))
  end.

(** ** Reshapes *)

(** The unit indices of the dimensions from [input_dim] on, where the size is above 1,
    have the same place in the output. *)
Fixpoint check_unit_dims (input_shape output_shape : LaidShape) (il ol : Layout) (dim0 dim0_out : list Z)
    (n : nat) (input_dim : Z) : res bool :=
  match n with
  | O => Ok true
  | S n =>
      let ids := sizes (array input_shape) in
      let ods := sizes (array output_shape) in
      d ← at_z ids input_dim;
      if d <=? 1 then check_unit_dims input_shape output_shape il ol dim0 dim0_out n (input_dim + 1)
      else
        let input_unit_index := <[Z.to_nat input_dim := 1]> (replicate (length ids) 0) in
        logical_linear_index ← MultidimensionalIndexToLinearIndex ids dim0 input_unit_index;
        output_index ← LinearIndexToMultidimensionalIndex ods dim0_out logical_linear_index;
        p ← MultidimensionalIndexToLinearIndex ids (minor_to_major il) input_unit_index;
        q ← MultidimensionalIndexToLinearIndex ods (minor_to_major ol) output_index;
        if negb (p =? q) then Ok false
        else check_unit_dims input_shape output_shape il ol dim0 dim0_out n (input_dim + 1)
  end.

Definition check_input_unit_indices (input_shape output_shape : LaidShape) (il ol : Layout)
    : res bool :=
  i0 ← MakeShapeWithDescendingLayout (element_type (array input_shape)) (sizes (array input_shape));
  o0 ← MakeShapeWithDescendingLayout (element_type (array output_shape)) (sizes (array output_shape));
  i0l ← layout i0;
  o0l ← layout o0;
  check_unit_dims input_shape output_shape il ol (minor_to_major i0l) (minor_to_major o0l)
    (rank (array input_shape)) 0.

Definition ReshapeIsBitcast (input_shape output_shape : LaidShape) (ignore_element_type : bool)
    : res bool :=
  il ← layout input_shape;
  ol ← layout output_shape;
  if negb ignore_element_type && negb (SameElementType (array input_shape) (array output_shape))
  then Ok false
  else if negb (ElementsIn (array input_shape) =? ElementsIn (array output_shape)) then Ok false
  else if ElementsIn (array input_shape) =? 0 then Ok true
  else
    b ← check_input_unit_indices input_shape output_shape il ol;
    if (b : bool) then check_input_unit_indices output_shape input_shape ol il else Ok false.

(** With the arguments of [TransposeIsBitcast] in the code's order. *)
Definition IsReshapeOrTransposeBitcast (a b : LaidShape) (ignore_element_type : bool) : res bool :=
  if negb ignore_element_type && negb (SameElementType (array a) (array b)) then Ok false
  else if EqualIgnoringElementType a b then Ok true
  else
    reshape ← ReshapeIsBitcast a b true;
    if (reshape : bool) then Ok true
    else
      dimensions ← DeduceTransposeDimensionsForBitcast a b;
      match dimensions with
      | Some dimensions => TransposeIsBitcast b a dimensions true
      | None => Ok false
      end.

(** ** Decompositions *)

Definition IsDecomposableBitcast (input_shape output_shape : LaidShape) : bool :=
  has_layout input_shape && has_layout output_shape &&
  (ElementsIn (array input_shape) =? ElementsIn (array output_shape)).

Record BitcastDecompositionTrt := MkTrt {
  transpose1_dims : list Z;
  transpose1_shape : LaidShape;
  reshape_shape : LaidShape;
  transpose2_dims : list Z
}.

Definition IsTranspose1Identity (d : BitcastDecompositionTrt) : bool :=
  is_sorted Z.ltb (transpose1_dims d).
Definition IsTranspose2Identity (d : BitcastDecompositionTrt) : bool :=
  is_sorted Z.ltb (transpose2_dims d).

(** [ReverseIota]. *)
Definition ReverseIota (n : nat) : list Z := reverse (seqZ 0 (Z.of_nat n)).

Definition DecomposeBitcastToTrt (input_shape output_shape : LaidShape)
    : res (option BitcastDecompositionTrt) :=
  if negb (IsDecomposableBitcast input_shape output_shape) then Ok None
  else
    transpose1_shape ← MakeShapeWithDescendingLayoutAndSamePhysicalLayout input_shape;
    reshape_shape ← MakeShapeWithDescendingLayoutAndSamePhysicalLayout output_shape;
    ok ← ReshapeIsBitcast transpose1_shape reshape_shape true;
    guard_res ok CheckFailed;;
    il ← layout input_shape;
    transpose1_dims ← ComposePermutations (minor_to_major il) (ReverseIota (rank (array input_shape)));
    ok ← TransposeIsBitcast input_shape transpose1_shape transpose1_dims false;
    guard_res ok CheckFailed;;
    ol ← layout output_shape;
    inv ← InversePermutation (minor_to_major ol);
    transpose2_dims ← ComposePermutations (ReverseIota (rank (array output_shape))) inv;
    ok ← TransposeIsBitcast reshape_shape output_shape transpose2_dims false;
    guard_res ok CheckFailed;;
    Ok (Some (MkTrt transpose1_dims transpose1_shape reshape_shape transpose2_dims)).

Inductive BitcastDecomposition :=
  | BitcastDecompositionReshape
  | BitcastDecompositionTranspose (transpose_dims : list Z)
  | BitcastDecompositionOfTrt (trt : BitcastDecompositionTrt).

Definition DecomposeBitcast (input_shape output_shape : LaidShape)
    : res (option BitcastDecomposition) :=
  if negb (IsDecomposableBitcast input_shape output_shape) then Ok None
  else
    reshape ← ReshapeIsBitcast input_shape output_shape true;
    if (reshape : bool) then Ok (Some BitcastDecompositionReshape)
    else
      transpose_dims ← DeduceTransposeDimensionsForBitcast input_shape output_shape;
      match transpose_dims with
      | Some transpose_dims => Ok (Some (BitcastDecompositionTranspose transpose_dims))
      | None =>
          trt ← DecomposeBitcastToTrt input_shape output_shape;
          Ok (option_map BitcastDecompositionOfTrt trt)
      end.
End Types.

End Bitcasts.
