(* ===== verification/BitcastProofs.v ===== *)
(** * Reshapes that move nothing

    The unit indices that [ReshapeIsBitcast] tries are enough: it is true exactly when
    every element keeps its place. *)
From stdpp Require Import relations.
From S2P Require Import Prelude WindowArith Types PermUtil Shape ShapeProofs Radix Layouts IndexProofs TilingProofs LayoutCorrect Places Bitcasts.
#[local] Open Scope Z_scope.

Module BitcastProofs.
Import Types PermUtil Shape ShapeProofs Radix Layouts IndexProofs TilingProofs LayoutProofs Places Bitcasts.

(** ** Unit indices *)

Definition unit_index (n j : nat) : list Z := <[j := 1]> (replicate n 0).

Lemma unit_index_split n j : (j < n)%nat → unit_index n j = replicate j 0 ++ 1 :: replicate (n - S j) 0.
Proof.
  intros Hj. unfold unit_index. replace n with (j + S (n - S j))%nat at 1 by lia.
  rewrite replicate_add. cbn [replicate].
  rewrite insert_app_r_alt by (rewrite length_replicate; lia).
  by rewrite length_replicate, Nat.sub_diag.
Qed.

Lemma unit_in_bounds ds j d :
  Forall (λ d, 0 < d) ds → ds !! j = Some d → 1 < d → in_bounds ds (unit_index (length ds) j).
Proof.
  intros Hpos Hd H1. unfold unit_index. rewrite <- (list_insert_id ds j d) at 1 by done.
  apply Forall2_insert; [| lia]. clear Hd. induction Hpos; constructor; [lia | done].
Qed.

Lemma zeros_zero n : Forall (λ e, e = 0) (replicate n 0).
Proof. by apply Forall_replicate. Qed.

Lemma horner_unit ds j d :
  ds !! j = Some d → horner (reverse ds) (reverse (unit_index (length ds) j)) = prod (drop (S j) ds).
Proof.
  intros Hd. pose proof (lookup_lt_Some _ _ _ Hd) as Hj. rewrite unit_index_split by done.
  rewrite <- (take_drop_middle ds j d Hd) at 1. rewrite !reverse_app, !reverse_cons, <- !app_assoc.
  rewrite !reverse_replicate. cbn [app]. rewrite horner_app.
  - rewrite (horner_zero _ _ (zeros_zero _)), prod_reverse. cbn [horner].
    rewrite (horner_zero _ _ (zeros_zero _)). ring.
  - rewrite length_reverse, length_drop, length_replicate. lia.
Qed.

Lemma unit_linear ds j d :
  Forall (λ d, 0 < d) ds → prod ds ≤ int64_max → ds !! j = Some d → 1 < d →
  MultidimensionalIndexToLinearIndex ds (descending (length ds)) (unit_index (length ds) j) =
    Ok (prod (drop (S j) ds)) ∧ 0 ≤ prod (drop (S j) ds) < prod ds.
Proof.
  intros Hpos Mx Hd H1. pose proof (unit_in_bounds ds j d Hpos Hd H1) as Hb.
  destruct (linear_round_trip _ _ _ (valid_descending ds) Hb Mx) as (k & E & Hk & _).
  rewrite descending_index, (horner_unit ds j d Hd) in E by done. injection E as <-.
  split; [| done]. by rewrite descending_index, (horner_unit ds j d Hd) by done.
Qed.

Lemma unit_place ds m j d :
  valid_layout ds m → Forall (λ d, 0 < d) ds → prod ds ≤ int64_max → ds !! j = Some d → 1 < d →
  MultidimensionalIndexToLinearIndex ds m (unit_index (length ds) j) =
    Ok (val (weights ds m) (prod (drop (S j) ds))).
Proof.
  intros Hm Hpos Mx Hd H1. destruct (unit_linear ds j d Hpos Mx Hd H1) as [E Hk].
  rewrite <- (place_val ds m) by done. unfold place.
  destruct (linear_round_trip _ _ _ (valid_descending ds) (unit_in_bounds ds j d Hpos Hd H1) Mx)
    as (k & E' & _ & Eb). rewrite E in E'. injection E' as <-. by rewrite Eb.
Qed.

(** The stride of a dimension among the weights. *)
Lemma units_weights ds m h :
  units (weights ds m) h ↔
  ∀ j d, ds !! j = Some d → 1 < d → h (prod (drop (S j) ds)) = stride_of ds m (Z.of_nat j).
Proof.
  unfold units, weights. split.
  - intros H j d Hd H1. pose proof (lookup_lt_Some _ _ _ Hd) as Hj.
    assert (Hz : zip ds (strides ds m) !! j = Some (d, stride_of ds m (Z.of_nat j))).
    { apply lookup_zip_Some. split; [done | by apply strides_lookup]. }
    specialize (H (reverse (drop (S j) (zip ds (strides ds m)))) d (stride_of ds m (Z.of_nat j))
      (reverse (take j (zip ds (strides ds m))))).
    rewrite fmap_reverse, prod_reverse, fmap_drop, fst_zip in H by (by rewrite length_strides).
    apply H; [| done]. rewrite <- (take_drop_middle _ _ _ Hz) at 1.
    by rewrite reverse_app, reverse_cons, <- app_assoc.
  - intros H l1 d t l2 E H1. assert (E' : zip ds (strides ds m) = reverse l2 ++ (d, t) :: reverse l1).
    { rewrite <- (reverse_involutive (zip _ _)), E, reverse_app, reverse_cons, <- app_assoc. done. }
    assert (Hz : zip ds (strides ds m) !! length (reverse l2) = Some (d, t)).
    { rewrite E'. by apply list_lookup_middle. }
    apply lookup_zip_Some in Hz as [Hd Ht]. rewrite strides_lookup in Ht by by eapply lookup_lt_Some.
    injection Ht as <-. rewrite <- (H (length (reverse l2)) d Hd H1). f_equal.
    rewrite <- (fst_zip ds (strides ds m)) by (by rewrite length_strides).
    rewrite E', fmap_app, fmap_cons. cbn [fst].
    rewrite <- (prod_reverse l1.*1), <- fmap_reverse.
    replace ((fst <$> reverse l2) ++ d :: (fst <$> reverse l1))
      with (((fst <$> reverse l2) ++ [d]) ++ (fst <$> reverse l1)) by (by rewrite <- app_assoc).
    rewrite drop_app_length'; [done |]. rewrite length_app, length_fmap. simpl. lia.
Qed.

Lemma weights_unit ds m j d :
  Forall (λ d, 0 < d) ds → ds !! j = Some d → 1 < d →
  val (weights ds m) (prod (drop (S j) ds)) = stride_of ds m (Z.of_nat j).
Proof. intros Hpos. apply (proj1 (units_weights ds m _)). by apply units_val, weights_pos. Qed.

(** ** Shapes that can be built *)

Lemma prod_nonneg l : Forall (λ d, 0 ≤ d) l → 0 ≤ prod l.
Proof. induction 1 as [| d l Hd Hl IH]; [done |]. rewrite prod_cons. nia. Qed.

Lemma fits_prod_width w l :
  1 ≤ w → Forall (λ d, 0 ≤ d) l → fits w l → l ≠ [] → w * prod l ≤ int64_max.
Proof.
  intros Hw Hl Hf Hne. revert w Hw Hf Hne.
  induction Hl as [| d l Hd Hl IH]; intros w Hw Hf Hne; [done |]. destruct Hf as [H1 H2].
  rewrite prod_cons. destruct (decide (d = 0)) as [-> | Hd0]; [int_lia |].
  destruct (decide (l = [])) as [-> | Hl0]; [unfold prod; simpl; lia |].
  pose proof (IH (w * d) ltac:(nia) H2 Hl0). lia.
Qed.

Lemma fits_prod w l : 1 ≤ w → Forall (λ d, 0 ≤ d) l → fits w l → prod l ≤ int64_max.
Proof.
  intros Hw Hl Hf. pose proof (prod_nonneg l Hl). destruct (decide (l = [])) as [-> | Hne].
  - unfold prod. simpl. int_lia.
  - pose proof (fits_prod_width w l Hw Hl Hf Hne). nia.
Qed.

Lemma validate_dimensions_ok ds p :
  0 ≤ p → Forall (λ d, 0 ≤ d) ds → fits p ds → validate_dimensions ds p false = Ok tt.
Proof.
  intros Hp Hd. revert p Hp. induction Hd as [| d ds Hd _ IH]; intros p Hp Hf; [done |].
  destruct Hf as [H1 H2]. cbn [validate_dimensions].
  rewrite (proj2 (Z.eqb_neq d kUnboundedSize)) by (unfold kUnboundedSize; int_lia).
  rewrite (proj2 (Z.ltb_ge d 0)) by done. cbn [negb guard_res mbind res_bind].
  rewrite WindowArith.mul_safe by done. cbn [orb]. apply IH; [nia | done].
Qed.

Section Types.
Context `{NativeTypes}.

Lemma ByteWidth_max t w : ByteWidth t = Ok w → w ≤ int64_max.
Proof.
  unfold ByteWidth, WindowArith.CeilOfRatio, WindowArith.CeilOrFloorOfRatio. intros H'. res_inv.
  match goal with H : s64 _ = Ok _ |- _ => by apply s64_ok in H as [-> [_ ?]] end.
Qed.

(** Sizes an array of the type can have. *)
Record sizes_ok (t : PrimitiveType) (ds : list Z) : Prop := {
  so_nonneg : Forall (λ d, 0 ≤ d) ds;
  so_fits : ∃ w, ByteWidth t = Ok w ∧ 1 ≤ w ∧ fits w ds;
}.

Lemma sizes_ok_prod t ds : sizes_ok t ds → prod ds ≤ int64_max.
Proof. intros [Hn (w & _ & Hw & Hf)]. by apply (fits_prod w). Qed.

Definition static_array (t : PrimitiveType) (ds : list Z) : Array :=
  MkArray t ((λ n, MkDim n false) <$> ds).

Lemma static_sizes t ds : sizes (static_array t ds) = ds.
Proof. unfold sizes, static_array. cbn. rewrite <- list_fmap_compose. apply list_fmap_id. Qed.

Lemma ValidateShapeSize_ok t ds : sizes_ok t ds → ValidateShapeSize (static_array t ds) = Ok tt.
Proof.
  intros Hs. pose proof (sizes_ok_prod _ _ Hs) as Mx. destruct Hs as [Hn (w & Hw & H1 & Hf)].
  unfold ValidateShapeSize, ExtentProduct. rewrite extent_product_fits; [| lia | |].
  - cbn [element_type static_array]. rewrite Hw. cbn [mbind res_bind].
    fold (sizes (static_array t ds)). rewrite static_sizes, Z.mul_1_l.
    pose proof (ByteWidth_max t w Hw). change (product ds) with (prod ds).
    pose proof (prod_nonneg ds Hn).
    destruct ds as [| d ds]; [rewrite WindowArith.mul_safe; [done | done | lia | unfold prod; simpl; lia] |].
    assert (Hp : w * prod (d :: ds) ≤ int64_max) by by apply fits_prod_width.
    rewrite WindowArith.mul_safe by lia. done.
  - fold (sizes (static_array t ds)). cbn. apply Forall_fmap. eapply Forall_impl; [exact Hn |]. done.
  - fold (sizes (static_array t ds)). rewrite static_sizes. by apply (fits_refl_le w); [lia | |].
Qed.
Lemma MakeShapeWithDenseLayout_ok t ds m :
  sizes_ok t ds → valid_layout ds m →
  MakeShapeWithDenseLayout t ds m = Ok (MkLaid (static_array t ds) (Some (MakeLayout m))).
Proof.
  intros Hs Hm. pose proof Hs as [Hn (w & Hw & H1 & Hf)].
  unfold MakeShapeWithDenseLayout, MakeValidatedShapeWithDenseLayout.
  rewrite (bool_decide_true (length ds = length m)) by (symmetry; apply Hm). cbn [guard_res mbind res_bind].
  pose proof (ByteWidth_type t w Hw) as Ht.
  assert (Hno : bool_decide (t = OPAQUE_TYPE) || bool_decide (t = TUPLE) || bool_decide (t = TOKEN) = false).
  { destruct t; try done. }
  rewrite Hno. cbn [negb guard_res mbind res_bind].
  pose proof (MakeShape2_ok t w ds Hw ltac:(lia) Hn Hf) as Ea. unfold MakeShape2 in Ea.
  destruct (MakeValidatedShape2 t ds) as [a | e]; [| by destruct e]. cbn [value] in Ea.
  injection Ea as ->. cbn [mbind res_bind]. fold (static_array t ds).
  unfold ValidateShape. cbn [array element_type static_array opt_layout]. fold (static_array t ds).
  rewrite Ht. cbn [guard_res mbind res_bind]. rewrite static_sizes.
  rewrite validate_dimensions_ok; [| lia | done | by apply (fits_refl_le w); [lia | |]].
  cbn [mbind res_bind]. rewrite ValidateShapeSize_ok by done. cbn [mbind res_bind].
  destruct (ValidateLayoutForShape_spec (MakeLayout m) (static_array t ds)) as [[-> _] | [_ Hv]]; [done |].
  exfalso. apply Hv. rewrite static_sizes. constructor; try done; constructor.
Qed.

Lemma MakeShapeWithDescendingLayout_ok t ds :
  sizes_ok t ds →
  MakeShapeWithDescendingLayout t ds =
    Ok (MkLaid (static_array t ds) (Some (MakeLayout (descending (length ds))))).
Proof. intros Hs. apply MakeShapeWithDenseLayout_ok; [done | apply valid_descending]. Qed.

(** ** The test *)

(** An array with a layout whose order is one of its dimensions. *)
Record laid (s : LaidShape) (l : Layout) : Prop := {
  laid_layout : opt_layout s = Some l;
  laid_order : valid_layout (sizes (array s)) (minor_to_major l);
  laid_sizes : sizes_ok (element_type (array s)) (sizes (array s));
}.

Lemma layout_ok s l : opt_layout s = Some l → layout s = Ok l.
Proof. unfold layout. by intros ->. Qed.

Lemma rank_sizes a : rank a = length (sizes a).
Proof. unfold rank, sizes. by rewrite length_fmap. Qed.

Lemma ElementsIn_prod s l : laid s l → ElementsIn (array s) = prod (sizes (array s)).
Proof.
  intros [_ _ [Hn (w & Hw & H1 & Hf)]]. unfold ElementsIn, ExtentProduct.
  rewrite extent_product_fits.
  - cbn [fst]. rewrite Z.mul_1_l. done.
  - lia.
  - unfold sizes in Hn. by rewrite Forall_fmap in Hn.
  - fold (sizes (array s)). by apply (fits_refl_le w); [lia | |].
Qed.

Lemma check_unit_dims_spec s t il ol n i :
  laid s il → laid t ol → let ids := sizes (array s) in let ods := sizes (array t) in
  Forall (λ d, 0 < d) ids → Forall (λ d, 0 < d) ods → prod ids = prod ods →
  (i + n = length ids)%nat →
  ∃ b, check_unit_dims s t il ol (descending (length ids)) (descending (length ods)) n (Z.of_nat i) = Ok b ∧
    (b = true ↔ ∀ j d, (i ≤ j)%nat → ids !! j = Some d → 1 < d →
      val (weights ods (minor_to_major ol)) (prod (drop (S j) ids)) =
        stride_of ids (minor_to_major il) (Z.of_nat j)).
Proof.
  intros Hs Ht ids ods Pi Po Ep. pose proof (sizes_ok_prod _ _ (laid_sizes _ _ Hs)) as Mi. fold ids in Mi.
  pose proof (laid_order _ _ Hs) as Hmi. pose proof (laid_order _ _ Ht) as Hmo.
  revert i. induction n as [| n IH]; intros i Hi; cbn [check_unit_dims].
  { exists true. split; [done |]. split; [intros _ | done]. intros j d Hj Hd _.
    apply lookup_lt_Some in Hd. lia. }
  fold ids ods. rewrite (at_z_total ids) by lia. rewrite Nat2Z.id. cbn [mbind res_bind].
  assert (Hd : ids !! i = Some (ids !!! i)) by (apply list_lookup_lookup_total_lt; lia).
  destruct (IH (S i)) as (b & Eb & Hb); [lia |]. replace (Z.of_nat i + 1) with (Z.of_nat (S i)) by lia.
  destruct (Z.leb_spec (ids !!! i) 1) as [Hle | Hlt].
  - exists b. split; [done |]. rewrite Hb. split; intros Hall j d Hj Hdj H1.
    + destruct (decide (j = i)) as [-> |]; [rewrite Hdj in Hd; injection Hd as ->; lia |].
      apply (Hall j d); [lia | done | done].
    + apply (Hall j d); [lia | done | done].
  - change (<[i := 1]> (replicate (length ids) 0)) with (unit_index (length ids) i).
    destruct (unit_linear ids i _ Pi Mi Hd Hlt) as [-> Hk]. cbn [mbind res_bind].
    rewrite (unit_place ids _ i _ Hmi Pi Mi Hd Hlt). 
    pose proof (place_val ods (minor_to_major ol) (prod (drop (S i) ids)) Hmo Po ltac:(lia) ltac:(lia)) as Epl.
    unfold place in Epl. destruct (LinearIndexToMultidimensionalIndex ods _ _) as [idx |]; [| done].
    cbn [mbind res_bind] in Epl |- *. rewrite Epl. cbn [mbind res_bind].
    rewrite (weights_unit ids _ i _ Pi Hd Hlt).
    destruct (Z.eqb_spec (stride_of ids (minor_to_major il) (Z.of_nat i))
      (val (weights ods (minor_to_major ol)) (prod (drop (S i) ids)))) as [Eq | Ne]; cbn [negb].
    + exists b. split; [done |]. rewrite Hb. split; intros Hall j d Hj Hdj H1.
      * destruct (decide (j = i)) as [-> |]; [done |]. apply (Hall j d); [lia | done | done].
      * apply (Hall j d); [lia | done | done].
    + exists false. split; [done |]. split; [done |]. intros Hall. exfalso. apply Ne. symmetry.
      by apply (Hall i (ids !!! i)).
Qed.

Lemma check_input_unit_indices_spec s t il ol :
  laid s il → laid t ol → let ids := sizes (array s) in let ods := sizes (array t) in
  Forall (λ d, 0 < d) ids → Forall (λ d, 0 < d) ods → prod ids = prod ods →
  ∃ b, check_input_unit_indices s t il ol = Ok b ∧
    (b = true ↔ units (weights ids (minor_to_major il)) (val (weights ods (minor_to_major ol)))).
Proof.
  intros Hs Ht ids ods Pi Po Ep. unfold check_input_unit_indices.
  rewrite !MakeShapeWithDescendingLayout_ok by (apply Hs || apply Ht).
  cbn [mbind res_bind]. unfold layout. cbn [opt_layout mbind res_bind minor_to_major MakeLayout].
  rewrite rank_sizes. destruct (check_unit_dims_spec s t il ol (length ids) 0 Hs Ht Pi Po Ep eq_refl)
    as (b & Eb & Hb). exists b. split; [exact Eb |]. rewrite Hb, units_weights. split.
  - intros Hall j d Hd H1. apply (Hall j d); [lia | done | done].
  - intros Hall j d _ Hd H1. by apply (Hall j d).
Qed.

Lemma prod_zero_pos l : Forall (λ d, 0 ≤ d) l → prod l ≠ 0 → Forall (λ d, 0 < d) l.
Proof.
  induction 1 as [| d l Hd Hl IH]; intros Hp; [done |]. rewrite prod_cons in Hp.
  constructor; [| apply IH; intros E; by rewrite E, Z.mul_0_r in Hp].
  destruct (decide (d = 0)) as [-> |]; [by rewrite Z.mul_0_l in Hp | lia].
Qed.

(** Where every element is. *)
Definition same_places (ids ods im om : list Z) : Prop :=
  prod ids = prod ods ∧ ∀ k, 0 ≤ k < prod ids → place ids im k = place ods om k.

Lemma same_places_val ids ods im om :
  valid_layout ids im → valid_layout ods om → Forall (λ d, 0 < d) ids → Forall (λ d, 0 < d) ods →
  prod ids ≤ int64_max →
  same_places ids ods im om ↔ prod ids = prod ods ∧
    ∀ k, 0 ≤ k < prod ids → val (weights ids im) k = val (weights ods om) k.
Proof.
  intros Hi Ho Pi Po Mx. unfold same_places. split; intros [Ep Hall]; (split; [done |]); intros k Hk;
    specialize (Hall k Hk).
  - rewrite !place_val in Hall by (done || lia). by injection Hall.
  - rewrite !place_val by (done || lia). by rewrite Hall.
Qed.

Lemma ReshapeIsBitcast_spec s t il ol ign :
  laid s il → laid t ol → (ign = true ∨ element_type (array s) = element_type (array t)) →
  ∃ b, ReshapeIsBitcast s t ign = Ok b ∧
    (b = true ↔ same_places (sizes (array s)) (sizes (array t)) (minor_to_major il) (minor_to_major ol)).
Proof.
  intros Hs Ht Htype. unfold ReshapeIsBitcast.
  rewrite (layout_ok s il), (layout_ok t ol) by (apply Hs || apply Ht). cbn [mbind res_bind].
  assert (Eign : negb ign && negb (SameElementType (array s) (array t)) = false).
  { destruct Htype as [-> | E]; [done |]. unfold SameElementType. rewrite bool_decide_true by done.
    apply andb_false_r. }
  rewrite Eign, !(ElementsIn_prod s il), (ElementsIn_prod t ol) by done.
  set (ids := sizes (array s)). set (ods := sizes (array t)).
  destruct (Z.eqb_spec (prod ids) (prod ods)) as [Ep | Ep]; cbn [negb].
  2: { exists false. split; [done |]. split; [done |]. by intros [? _]. }
  destruct (Z.eqb_spec (prod ids) 0) as [E0 | E0].
  { exists true. split; [done |]. split; [intros _ | done]. split; [done |]. intros k Hk. lia. }
  pose proof (so_nonneg _ _ (laid_sizes _ _ Hs)) as Ni. pose proof (so_nonneg _ _ (laid_sizes _ _ Ht)) as No.
  pose proof (prod_zero_pos ids Ni E0) as Pi. pose proof (prod_zero_pos ods No ltac:(lia)) as Po.
  pose proof (sizes_ok_prod _ _ (laid_sizes _ _ Hs)) as Mi.
  setoid_rewrite (same_places_val ids ods _ _ (laid_order _ _ Hs) (laid_order _ _ Ht) Pi Po Mi).
  destruct (check_input_unit_indices_spec s t il ol Hs Ht Pi Po Ep) as (b1 & -> & H1).
  destruct (check_input_unit_indices_spec t s ol il Ht Hs Po Pi (eq_sym Ep)) as (b2 & E2 & H2).
  cbn [mbind res_bind]. fold ids ods in H1, H2. set (li := weights ids _) in *. set (lo := weights ods _) in *.
  assert (Hli : sizes_pos li) by by apply weights_pos. assert (Hlo : sizes_pos lo) by by apply weights_pos.
  assert (Epr : prod li.*1 = prod lo.*1) by (unfold li, lo; by rewrite !weights_prod).
  assert (Hiff : (units li (val lo) ∧ units lo (val li)) ↔ ∀ k, 0 ≤ k < prod ids → val li k = val lo k).
  { split.
    - intros [U1 U2] k Hk. apply units_agree; try done. unfold li. by rewrite weights_prod.
    - intros Hall. split.
      + apply units_weights. intros j d Hd Hj. rewrite <- Hall; [by apply (weights_unit _ _ _ d) |].
        by apply (unit_linear ids j d).
      + apply units_weights. intros j d Hd Hj. rewrite Hall; [by apply (weights_unit _ _ _ d) |].
        rewrite Ep. apply (unit_linear ods j d); [done | | done | done]. rewrite <- Ep. exact Mi. }
  destruct b1.
  - exists b2. split; [done |]. rewrite H2, <- Hiff. split; [intros U2; split; [done |] |]; tauto.
  - exists false. split; [done |]. split; [done |]. intros [_ Hall]. apply Hiff in Hall. apply H1, Hall.
Qed.
End Types.
End BitcastProofs.
