(* ===== verification/TransposeProofs.v ===== *)
(** * Transposes that move nothing

    A transpose is a bitcast when the orders correspond; the dimensions deduced, the
    permuted shapes and the decompositions pass the checks the code makes on them. *)
From stdpp Require Import relations.
From S2P Require Import Prelude WindowArith Types PermUtil Shape ShapeProofs Radix Layouts IndexProofs TilingProofs LayoutCorrect Places Bitcasts BitcastProofs.
#[local] Open Scope Z_scope.

Module TransposeProofs.
Import Types PermUtil Shape ShapeProofs Radix Layouts IndexProofs TilingProofs LayoutProofs Places.
Import Bitcasts BitcastProofs.

(** ** Permutations as reads *)

Abbreviation iota n := (seqZ 0 (Z.of_nat n)).

Lemma perm_in_range (xs : list Z) m : perm m → length m = length xs → in_range xs m.
Proof. intros [_ Hr] El q Hq. rewrite <- El. by apply Hr. Qed.

Lemma sel_sel xs p m : in_range p m → sel xs (sel p m) = sel (sel xs p) m.
Proof.
  intros Hm. unfold sel at 1 2 3. rewrite <- list_fmap_compose. apply list_fmap_ext. intros i q Hq.
  apply list_elem_of_lookup_2 in Hq. pose proof (Hm q Hq) as Hr. unfold compose.
  assert (E : p !! Z.to_nat q = Some (p !!! Z.to_nat q)) by (apply list_lookup_lookup_total_lt; lia).
  symmetry. apply list_lookup_total_correct. by rewrite (sel_lookup xs p _ _ E).
Qed.

Lemma sel_iota m n : in_range (iota n) m → sel (iota n) m = m.
Proof.
  intros Hm. unfold sel. rewrite <- (list_fmap_id m) at 2. apply list_fmap_ext. intros i q Hq.
  apply list_elem_of_lookup_2 in Hq. pose proof (Hm q Hq) as Hr. rewrite length_seqZ in Hr.
  apply list_lookup_total_correct, lookup_seqZ. unfold id. lia.
Qed.

Lemma iota_perm n : perm (iota n).
Proof.
  split; [apply NoDup_seqZ |]. intros x Hx. rewrite length_seqZ. apply elem_of_seqZ in Hx. lia.
Qed.

Lemma compose_sel p m :
  perm m → length p = length m → ComposePermutations p m = Ok (sel p m).
Proof.
  intros Hm El. unfold ComposePermutations. rewrite bool_decide_true by done.
  cbn [guard_res mbind res_bind]. apply mapM_at. by apply (perm_in_range p).
Qed.

Lemma Permute_sel xs p : perm p → length p = length xs → Permute xs p = Ok (sel xs p).
Proof.
  intros Hp El. unfold Permute. rewrite bool_decide_true by done.
  rewrite (proj2 (IsPermutation_perm p)) by done. cbn [guard_res mbind res_bind].
  apply mapM_at. by apply (perm_in_range xs).
Qed.

Lemma perm_sel p m : perm p → perm m → length m = length p → perm (sel p m).
Proof.
  intros Hp Hm El. apply (perm_Permutation p); [| done]. symmetry. apply sel_perm. by split.
Qed.

Lemma inverse_sel q :
  perm q → ∃ inv, InversePermutation q = Ok inv ∧ perm inv ∧ length inv = length q ∧
    sel inv q = iota (length q) ∧ sel q inv = iota (length q).
Proof.
  intros Hq. destruct (InversePermutation_spec q Hq) as (inv & E & Hi & El & H).
  exists inv. split; [done |]. split; [done |]. split; [done |].
  assert (E1 : sel inv q = iota (length q)).
  { apply list_eq_same_length with (length q); [by rewrite length_seqZ, Nat2Z.id | apply length_sel |].
    intros i x y Hlt Hx Hy. destruct (lookup_lt_is_Some_2 q i Hlt) as [d Hd].
    rewrite (sel_lookup inv q i d Hd) in Hx. rewrite (list_lookup_total_correct _ _ _ (H i d Hd)) in Hx.
    apply lookup_seqZ in Hy as [-> _]. injection Hx as <-. lia. }
  split; [done |]. apply (sel_inj _ _ q); [done | by rewrite length_sel | by rewrite length_seqZ, Nat2Z.id |].
  rewrite <- sel_sel by (by apply (perm_in_range inv)). rewrite E1, sel_seqZ, sel_iota; [done |].
  by apply (perm_in_range (iota (length q))); [| rewrite length_seqZ, Nat2Z.id].
Qed.

Lemma sel_reverse xs m : sel xs (reverse m) = reverse (sel xs m).
Proof. apply fmap_reverse. Qed.

(** ** The test *)

(** The transpose along [p] takes every element of [s] to the same place of [t]. *)
Definition transpose_keeps (ids im ods om p : list Z) : Prop :=
  ods = sel ids p ∧
  ∀ xs, in_bounds ids xs →
    MultidimensionalIndexToLinearIndex ids im xs = MultidimensionalIndexToLinearIndex ods om (sel xs p).

Lemma transpose_sound ids im om p :
  valid_layout ids im → valid_layout ids om → valid_layout ids p → prod ids ≤ int64_max →
  sel p om = im → transpose_keeps ids im (sel ids p) om p.
Proof.
  intros Hi Ho Hp Mx E. split; [done |]. intros xs Hb. pose proof (in_bounds_length _ _ Hb) as El.
  assert (Hop : in_range p om) by (apply (perm_in_range p); [apply Ho | destruct Ho, Hp; lia]).
  rewrite MultidimensionalIndexToLinearIndex_spec by done.
  rewrite MultidimensionalIndexToLinearIndex_spec; [by rewrite <- E, !sel_sel by done | | |].
  - split; [apply Ho |]. rewrite length_sel. destruct Ho, Hp. lia.
  - apply in_bounds_sel; [done |]. by apply (valid_layout_in_range _ _ _ Hp).
  - by rewrite (sel_perm ids p Hp).
Qed.

(** Without dimensions of size 1 the strides increase along the order. *)
Lemma strides_increase ds pre m :
  Forall (λ d, 1 < d) ds → in_range ds (pre ++ m) → NoDup (pre ++ m) →
  StronglySorted (λ a b, stride_of ds (pre ++ m) a < stride_of ds (pre ++ m) b) m ∧
  ∀ a, a ∈ m → prod (sel ds pre) ≤ stride_of ds (pre ++ m) a.
Proof.
  intros Hds. revert pre. induction m as [| p m IH]; intros pre Hr Hn.
  { split; [constructor |]. intros a Ha. by apply elem_of_nil in Ha. }
  assert (E : pre ++ p :: m = (pre ++ [p]) ++ m) by by rewrite <- app_assoc.
  assert (Hp : p ∉ pre).
  { apply NoDup_app in Hn as (_ & Hn & _). intros H. apply (Hn p H). by left. }
  assert (Es : stride_of ds (pre ++ p :: m) p = prod (sel ds pre)).
  { unfold stride_of. by rewrite before_app. }
  assert (Hpos : 0 < prod (sel ds pre)).
  { apply prod_pos, sel_pos; [eapply Forall_impl; [exact Hds | intros; simpl in *; lia] |].
    intros q Hq. apply Hr, elem_of_app. by left. }
  assert (Hd : 1 < ds !!! Z.to_nat p).
  { pose proof (Hr p ltac:(apply elem_of_app; right; by left)) as Hrp.
    rewrite Forall_lookup in Hds. apply (Hds (Z.to_nat p)), list_lookup_lookup_total_lt. lia. }
  rewrite E in Hr, Hn. destruct (IH (pre ++ [p]) Hr Hn) as [Hs Hle].
  assert (Ea : sel ds (pre ++ [p]) = sel ds pre ++ [ds !!! Z.to_nat p]) by (unfold sel; by rewrite fmap_app).
  rewrite Ea, prod_app, prod_singleton in Hle. rewrite E in Es |- *. split.
  - constructor; [done |]. apply Forall_forall. intros a Ha. specialize (Hle a Ha). rewrite Es. nia.
  - intros a [-> | Ha]%elem_of_cons; [lia |]. specialize (Hle a Ha). nia.
Qed.

Lemma sorted_weaken {A} (R S : A → A → Prop) l :
  StronglySorted R l → (∀ a b, a ∈ l → b ∈ l → R a b → S a b) → StronglySorted S l.
Proof.
  induction 1 as [| a l Hl IH Ha]; intros H; constructor.
  - apply IH. intros b c Hb Hc. apply H; by right.
  - rewrite Forall_forall in Ha |- *. intros b Hb. apply H; [by left | by right | by apply Ha].
Qed.

Lemma same_strides ds m1 m2 :
  Forall (λ d, 1 < d) ds → valid_layout ds m1 → valid_layout ds m2 →
  (∀ a, a ∈ m1 → stride_of ds m1 a = stride_of ds m2 a) → m1 = m2.
Proof.
  intros Hds H1 H2 Hst. set (R := λ a b, stride_of ds m2 a < stride_of ds m2 b).
  assert (Hperm : m1 ≡ₚ m2).
  { destruct H1 as [P1 L1], H2 as [P2 L2]. rewrite (perm_seqZ m1), (perm_seqZ m2) by done. by rewrite L1, L2. }
  assert (S2 : StronglySorted R m2).
  { apply (strides_increase ds [] m2 Hds); [by apply (valid_layout_in_range _ _ _ H2) | apply H2]. }
  assert (S1 : StronglySorted R m1).
  { destruct (strides_increase ds [] m1 Hds) as [S _];
      [by apply (valid_layout_in_range _ _ _ H1) | apply H1 |]. cbn [app] in S.
    by apply (sorted_weaken _ R m1 S); intros a b Ha Hb; unfold R; rewrite <- !Hst by done. }
  assert (Hanti : AntiSymm (=) R) by (intros a b; unfold R; lia).
  by apply (StronglySorted_unique R).
Qed.

Lemma dot_unit w n j : length w = n → (j < n)%nat → dot (unit_index n j) w = w !!! j.
Proof.
  intros <- Hj. rewrite unit_index_split by done. unfold dot.
  destruct (lookup_lt_is_Some_2 w j Hj) as [x Hx]. rewrite (list_lookup_total_correct _ _ _ Hx).
  rewrite <- (take_drop_middle w j x Hx) at 2. rewrite zip_with_app by (rewrite length_replicate, length_take; lia).
  cbn [zip_with]. rewrite foldr_app. cbn [foldr].
  assert (Hz : ∀ n l s, foldr Z.add s (zip_with Z.mul (replicate n 0) l) = s).
  { induction n as [| n IH]; intros [| y l] s; try done. cbn. rewrite IH. lia. }
  rewrite !Hz. lia.
Qed.

Lemma strides_total ds m i : (i < length ds)%nat → strides ds m !!! i = stride_of ds m (Z.of_nat i).
Proof. intros Hi. by apply list_lookup_total_correct, strides_lookup. Qed.

Lemma transpose_complete ids im om p :
  valid_layout ids im → valid_layout ids om → valid_layout ids p → prod ids ≤ int64_max →
  Forall (λ d, 1 < d) ids → transpose_keeps ids im (sel ids p) om p → sel p om = im.
Proof.
  intros Hi Ho Hp Mx Hone [_ Hk].
  assert (Hq : valid_layout ids (sel p om)).
  { destruct Hp as [Pp Lp], Ho as [Po Lo]. split; [| by rewrite length_sel]. apply perm_sel; [done | done | lia]. }
  assert (Hpos : Forall (λ d, 0 < d) ids) by (eapply Forall_impl; [exact Hone | intros; simpl in *; lia]).
  destruct (transpose_sound ids (sel p om) om p Hq Ho Hp Mx eq_refl) as [_ Hk2].
  symmetry. apply (same_strides ids); [done | done | done |]. intros a Ha.
  pose proof (valid_layout_in_range _ _ ids Hi eq_refl a Ha) as Hr.
  set (e := unit_index (length ids) (Z.to_nat a)).
  assert (Hb : in_bounds ids e).
  { assert (Hd : ids !! Z.to_nat a = Some (ids !!! Z.to_nat a)) by (apply list_lookup_lookup_total_lt; lia).
    apply (unit_in_bounds ids _ _ Hpos Hd). rewrite Forall_lookup in Hone. by apply (Hone (Z.to_nat a)). }
  specialize (Hk e Hb). rewrite <- Hk2 in Hk by done.
  rewrite !MultidimensionalIndexToLinearIndex_spec in Hk by done. injection Hk as Hk.
  rewrite !horner_dot in Hk by (done || (symmetry; by apply in_bounds_length)).
  unfold e in Hk. rewrite !dot_unit in Hk by (apply length_strides || lia).
  rewrite !strides_total in Hk by lia. by rewrite !Z2Nat.id in Hk by lia.
Qed.

Section Types.
Context `{NativeTypes}.

Lemma TransposeIsBitcast_spec s t il ol p ign :
  opt_layout s = Some il → opt_layout t = Some ol → perm (minor_to_major ol) →
  length p = length (minor_to_major ol) →
  (ign = true ∨ element_type (array s) = element_type (array t)) →
  TransposeIsBitcast s t p ign = Ok (bool_decide (sel p (minor_to_major ol) = minor_to_major il)).
Proof.
  intros Es Et Ho El Hty. unfold TransposeIsBitcast. rewrite (layout_ok s il), (layout_ok t ol) by done.
  cbn [mbind res_bind].
  assert (Eign : negb ign && negb (SameElementType (array s) (array t)) = false).
  { destruct Hty as [-> | E]; [done |]. unfold SameElementType. rewrite bool_decide_true by done.
    apply andb_false_r. }
  rewrite Eign, compose_sel by done. done.
Qed.
End Types.

End TransposeProofs.

(** ** Deduced transposes and decomposed bitcasts

    The checks the code makes on the transposes it deduces, the shapes it permutes and
    the decompositions it builds never fail, and the results move no element. *)
Module DecomposeProofs.
Import Types PermUtil Shape ShapeProofs Radix Layouts IndexProofs TilingProofs LayoutProofs Places.
Import Bitcasts BitcastProofs TransposeProofs.

Section Types.
Context `{NativeTypes}.

Lemma laid_type s l : laid s l → IsArrayType (element_type (array s)) = true.
Proof. intros [_ _ [_ (w & Hw & _)]]. by apply (ByteWidth_type _ w). Qed.

Lemma laid_prod s l : laid s l → prod (sizes (array s)) ≤ int64_max.
Proof. intros Hs. by apply sizes_ok_prod with (element_type (array s)), (laid_sizes _ l). Qed.

(** ** Deduced transposes *)

Lemma ChangeElementType_ok s l t :
  opt_layout s = Some l → IsArrayType t = true →
  ∃ l', ChangeElementType s t = Ok (MkLaid (MkArray t (dims (array s))) (Some l')) ∧
    minor_to_major l' = minor_to_major l.
Proof.
  intros El Ht. unfold ChangeElementType, Shape.ChangeElementType, set_element_type.
  rewrite Ht. cbn [guard_res mbind res_bind]. rewrite El. unfold IsSubByteNonPredType, BitWidth.
  destruct (IsArrayType t && _) eqn:E; cbn [mbind res_bind].
  - rewrite Ht. cbn [guard_res mbind res_bind]. eexists. split; [reflexivity |]. by destruct (PrimitiveTypeBitWidth t <? 8).
  - eexists. split; done.
Qed.

Lemma transpose_unique p om im inv n :
  perm om → length om = n → length p = n → sel om inv = iota n → in_range om inv →
  sel p om = im → p = sel im inv.
Proof.
  intros Ho El Ep Ei Hr <-. rewrite <- sel_sel by done. by rewrite Ei, <- Ep, sel_seqZ.
Qed.

Lemma Deduce_spec s t il ol :
  laid s il → laid t ol → length (sizes (array s)) = length (sizes (array t)) →
  ∃ r, DeduceTransposeDimensionsForBitcast s t = Ok r ∧
    match r with
    | Some p => valid_layout (sizes (array s)) p ∧ sel p (minor_to_major ol) = minor_to_major il ∧
        sizes (array t) = sel (sizes (array s)) p
    | None => ∀ p, valid_layout (sizes (array s)) p → sel p (minor_to_major ol) = minor_to_major il →
        sizes (array t) ≠ sel (sizes (array s)) p
    end.
Proof.
  intros Hs Ht El. unfold DeduceTransposeDimensionsForBitcast.
  rewrite !rank_sizes. rewrite bool_decide_false by (intros E; apply E; lia).
  rewrite (layout_ok s il), (layout_ok t ol) by (apply Hs || apply Ht). cbn [mbind res_bind].
  pose proof (laid_order _ _ Hs) as [Pi Li]. pose proof (laid_order _ _ Ht) as [Po Lo].
  destruct (inverse_sel (minor_to_major ol) Po) as (inv & -> & Pinv & Linv & E1 & E2).
  cbn [mbind res_bind]. rewrite compose_sel by (done || lia). cbn [mbind res_bind].
  set (p := sel (minor_to_major il) inv).
  assert (Hp : valid_layout (sizes (array s)) p).
  { split; [apply perm_sel; [done | done | lia] |]. unfold p. rewrite length_sel. lia. }
  rewrite Permute_sel by apply Hp. cbn [mbind res_bind].
  assert (Es : sel p (minor_to_major ol) = minor_to_major il).
  { unfold p. rewrite <- sel_sel by (apply (perm_in_range inv); [done | lia]).
    rewrite E1. replace (length (minor_to_major ol)) with (length (minor_to_major il)) by lia. apply sel_seqZ. }
  destruct (decide (sizes (array t) = sel (sizes (array s)) p)) as [Eq | Ne].
  - rewrite bool_decide_false by (intros E; by apply E). pose proof (laid_type _ _ Hs) as Hty.
    destruct (ChangeElementType_ok t ol (element_type (array s)) (laid_layout _ _ Ht) Hty)
      as (l' & -> & Em). cbn [mbind res_bind].
    rewrite (TransposeIsBitcast_spec s _ il l');
      [| apply Hs | done | by rewrite Em | rewrite Em; unfold p; rewrite length_sel; lia | by right].
    rewrite Em, bool_decide_true by done. cbn [mbind res_bind guard_res].
    exists (Some p). done.
  - rewrite bool_decide_true by done. exists None. split; [done |].
    intros p' [Pp' Lp'] Ep'. assert (p' = p) as ->; [| done].
    apply (transpose_unique p' (minor_to_major ol) _ inv (length (minor_to_major ol)));
      [done | done | lia | done | | done].
    apply (perm_in_range (minor_to_major ol)); [done | lia].
Qed.

(** ** Permuted shapes *)

Lemma permuted_dims_ok t ds ds0 :
  Forall (λ d, 0 ≤ size d) ds →
  (fix add_all ds a :=
     match ds with
     | [] => Ok a
     | d :: ds' => a ← add_dimensions (size d) (is_dynamic d) a; add_all ds' a
     end) ds (MkArray t ds0) = Ok (MkArray t (ds0 ++ ds)).
Proof.
  intros Hd. revert ds0. induction Hd as [| d ds Hd _ IH]; intros ds0; [by rewrite app_nil_r |].
  rewrite (add_dimensions_ok (size d)) by (unfold IsValidDimensionSize; by rewrite (proj2 (Z.geb_le (size d) 0))).
  cbn [mbind res_bind element_type dims].
  rewrite IH. rewrite <- app_assoc. by destruct d.
Qed.

Lemma PermuteDimensionsIgnoringLayout_ok p a :
  perm p → length p = length (sizes a) → Forall (λ d, 0 ≤ d) (sizes a) →
  ∃ a', PermuteDimensionsIgnoringLayout p a = Ok a' ∧ element_type a' = element_type a ∧
    sizes a' = sel (sizes a) p ∧ ∀ i x, p !! i = Some x → dims a' !! i = dims a !! Z.to_nat x.
Proof.
  intros Hp El Hn. unfold PermuteDimensionsIgnoringLayout. rewrite <- rank_sizes in El.
  destruct (Permute_spec (dims a) p Hp El) as (ds & -> & Lds & Hds). cbn [mbind res_bind].
  assert (Hnd : Forall (λ d, 0 ≤ size d) ds).
  { apply Forall_lookup. intros i d Hd. pose proof (lookup_lt_Some _ _ _ Hd) as Hi.
    destruct (lookup_lt_is_Some_2 p i) as [x Hx]; [unfold rank in El; lia |].
    rewrite (Hds i x Hx) in Hd. unfold sizes in Hn. rewrite Forall_fmap, Forall_lookup in Hn. by apply (Hn _ _ Hd). }
  rewrite permuted_dims_ok by done. cbn [app]. eexists. split; [done |]. split; [done |]. split; [| done].
  unfold sizes at 1. cbn [dims]. apply list_eq_same_length with (length p);
    [apply length_sel | rewrite length_fmap; unfold rank in El; lia |].
  intros i x y Hi Hx Hy. destruct (lookup_lt_is_Some_2 p i Hi) as [q Hq].
  rewrite (sel_lookup _ _ _ _ Hq) in Hy. rewrite list_lookup_fmap, (Hds i q Hq) in Hx.
  injection Hy as <-. unfold sizes. symmetry. apply list_lookup_total_correct. by rewrite list_lookup_fmap.
Qed.

Lemma PermuteDimensions_spec p s l :
  laid s l → valid_layout (sizes (array s)) p →
  ∃ t l', PermuteDimensions p s = Ok t ∧ opt_layout t = Some l' ∧
    valid_layout (sizes (array t)) (minor_to_major l') ∧
    transpose_keeps (sizes (array s)) (minor_to_major l) (sizes (array t)) (minor_to_major l') p.
Proof.
  intros Hs Hp. pose proof (laid_order _ _ Hs) as Hm. pose proof (laid_prod _ _ Hs) as Mx.
  unfold PermuteDimensions. pose proof (so_nonneg _ _ (laid_sizes _ _ Hs)) as Hn.
  destruct (PermuteDimensionsIgnoringLayout_ok p (array s) (proj1 Hp) (proj2 Hp) Hn) as (a & -> & Ety & Ea & _).
  cbn [mbind res_bind]. rewrite (laid_layout _ _ Hs).
  destruct Hp as [Pp Lp], Hm as [Pm Lm].
  destruct (inverse_sel p Pp) as (inv & -> & Pinv & Linv & E1 & E2). cbn [mbind res_bind].
  rewrite compose_sel by (done || lia). cbn [mbind res_bind].
  set (m := sel inv (minor_to_major l)).
  assert (Pom : perm m) by (apply perm_sel; [done | done | lia]).
  assert (Lom : length m = length (minor_to_major l)) by apply length_sel.
  assert (Es : sel p m = minor_to_major l).
  { unfold m. rewrite sel_sel by (apply (perm_in_range inv); [done | lia]). rewrite E2.
    apply sel_iota. apply (perm_in_range (iota (length p))); [done |]. rewrite length_seqZ. lia. }
  rewrite (TransposeIsBitcast_spec s _ l (with_minor_to_major l m));
    [| apply Hs | done | done | cbn [minor_to_major with_minor_to_major]; lia | by right].
  cbn [minor_to_major with_minor_to_major]. rewrite bool_decide_true by done.
  cbn [mbind res_bind guard_res]. eexists _, _. split; [done |]. split; [done |].
  cbn [array minor_to_major with_minor_to_major]. rewrite Ea. split.
  - split; [done |]. rewrite length_sel. lia.
  - apply transpose_sound; [by split | split; [done | lia] | by split | done | done].
Qed.
(** ** The shape of the memory *)

Lemma fits_of_prod w l : Forall (λ d, 0 < d) l → 0 ≤ w → w * prod l ≤ int64_max → fits w l.
Proof.
  intros Hl. revert w. induction Hl as [| d l Hd Hl IH]; intros w Hw Hm; [done |].
  rewrite prod_cons in Hm. pose proof (prod_pos l Hl). split; [nia |]. apply IH; nia.
Qed.

Lemma sizes_ok_perm t ds es : sizes_ok t ds → Forall (λ d, 0 < d) ds → es ≡ₚ ds → sizes_ok t es.
Proof.
  intros [Hn (w & Hw & H1 & Hf)] Hpos Hp. split; [by rewrite Hp |]. exists w. split; [done |]. split; [done |].
  destruct (decide (ds = [])) as [-> | Hne].
  - by apply Permutation_nil_r in Hp as ->.
  - apply fits_of_prod; [by rewrite Hp | lia |]. rewrite Hp. by apply fits_prod_width.
Qed.

Lemma major_order l ds :
  valid_layout ds (minor_to_major l) →
  mapM (Major l) (iota (length ds)) = Ok (reverse (minor_to_major l)).
Proof.
  intros [Pm Lm]. rewrite (mapM_pure _ (split_of l)).
  - f_equal. rewrite <- Lm. apply list_eq_same_length with (length (minor_to_major l));
      [apply length_reverse | by rewrite length_fmap, length_seqZ, Nat2Z.id |].
    intros i x y Hi Hx Hy. rewrite list_lookup_fmap in Hx.
    rewrite (proj2 (lookup_seqZ 0 _ i (Z.of_nat i))) in Hx by lia. injection Hx as <-.
    rewrite reverse_lookup in Hy by done. unfold split_of. apply list_lookup_total_correct.
    rewrite <- Hy. f_equal. lia.
  - intros x Hx%elem_of_seqZ. apply Major_spec. lia.
Qed.

Lemma set_markers_ok t dyn ds i :
  Forall (λ d, 0 ≤ size d) ds → (i + length dyn = length ds)%nat →
  ∃ ds', set_markers dyn i (MkArray t ds) = Ok (MkArray t ds') ∧ size <$> ds' = size <$> ds ∧
    is_dynamic <$> ds' = take i (is_dynamic <$> ds) ++ dyn.
Proof.
  revert i ds. induction dyn as [| b dyn IH]; intros i ds Hn Hl; cbn [set_markers].
  { exists ds. split; [done |]. split; [done |]. rewrite app_nil_r, take_ge; [done |].
    rewrite length_fmap. cbn in Hl. lia. }
  cbn [length] in Hl. destruct (lookup_lt_is_Some_2 ds i) as [d Hd]; [lia |].
  unfold set_dynamic_dimension. cbn [dims element_type]. rewrite (proj2 (at_res_ok ds i d) Hd).
  cbn [mbind res_bind]. pose proof (proj1 (Forall_lookup _ _) Hn i d Hd) as Hd0. cbn beta in Hd0.
  assert (Ec : CheckDimensionSize (size d) b = Ok tt).
  { apply CheckDimensionSize_ok. unfold IsValidDimensionSize. by rewrite (proj2 (Z.geb_le (size d) 0)). }
  rewrite Ec. cbn [mbind res_bind].
  destruct (IH (S i) (<[i := MkDim (size d) b]> ds)) as (ds' & E & Es & Edy).
  - by apply Forall_insert.
  - rewrite length_insert. lia.
  - exists ds'. split; [done |]. split.
    + rewrite Es, list_fmap_insert. cbn [size]. apply list_insert_id. by rewrite list_lookup_fmap, Hd.
    + rewrite Edy, list_fmap_insert. cbn [is_dynamic].
      rewrite (take_S_r _ _ b) by (apply list_lookup_insert_eq; rewrite length_fmap; lia).
      rewrite take_insert_ge by lia. by rewrite <- app_assoc.
Qed.

Lemma value_inv {A} (m : res A) a : value m = Ok a → m = Ok a.
Proof. destruct m as [x | []]; cbn; congruence. Qed.

(** The array of the sizes in the order of memory, laid out descending. *)
Lemma SamePhysical_spec s l :
  laid s l → Forall (λ d, 0 < d) (sizes (array s)) →
  ∃ t l', MakeShapeWithDescendingLayoutAndSamePhysicalLayout s = Ok t ∧ laid t l' ∧
    element_type (array t) = element_type (array s) ∧
    minor_to_major l' = descending (length (sizes (array s))) ∧ tiles l' = tiles l ∧
    sizes (array t) = sel (sizes (array s)) (reverse (minor_to_major l)).
Proof.
  intros Hs Hpos. pose proof (laid_order _ _ Hs) as Hm.
  unfold MakeShapeWithDescendingLayoutAndSamePhysicalLayout,
    MakeValidatedShapeWithDescendingLayoutAndSamePhysicalLayout, physical_dims, physical_dim.
  rewrite (laid_layout _ _ Hs), rank_sizes. set (ds := sizes (array s)) in *.
  rewrite major_order by done. cbn [mbind res_bind].
  assert (Hmr : valid_layout ds (reverse (minor_to_major l))).
  { split; [by apply perm_reverse, Hm | rewrite length_reverse; apply Hm]. }
  rewrite mapM_at by by apply (valid_layout_in_range ds _ ds Hmr). cbn [mbind res_bind].
  set (es := sel ds (reverse (minor_to_major l))).
  assert (Hes : sizes_ok (element_type (array s)) es).
  { apply (sizes_ok_perm _ ds); [apply Hs | done | by apply sel_perm]. }
  pose proof (MakeShapeWithDescendingLayout_ok _ _ Hes) as Emk. apply value_inv in Emk.
  rewrite Emk. cbn [mbind res_bind array].
  destruct (mapM_total (at_z (is_dynamic <$> dims (array s))) (reverse (minor_to_major l))) as [dyn Edyn].
  { intros x Hx. apply (valid_layout_in_range ds _ ds Hmr eq_refl) in Hx.
    destruct (lookup_lt_is_Some_2 (is_dynamic <$> dims (array s)) (Z.to_nat x)) as [b Hb].
    - rewrite length_fmap. unfold ds in Hx. rewrite <- rank_sizes in Hx. unfold rank in Hx. lia.
    - exists b. apply at_z_ok. split; [lia | done]. }
  rewrite Edyn. cbn [mbind res_bind]. apply mapM_res_ok, Forall2_length in Edyn.
  assert (Les : length es = length ds).
  { unfold es. rewrite length_sel, length_reverse. apply Hm. }
  destruct (set_markers_ok (element_type (array s)) dyn ((λ n, MkDim n false) <$> es) 0) as (ds' & E & Es' & _).
  - apply Forall_fmap. eapply Forall_impl; [apply Hes |]. done.
  - rewrite length_fmap, Les, <- Edyn, length_reverse. apply Hm.
  - unfold static_array. rewrite E. cbn [mbind res_bind].
    rewrite (layout_ok s l) by apply Hs. cbn [mbind res_bind].
    eexists _, _. split; [reflexivity |]. cbn [array element_type minor_to_major].
    assert (Esz : sizes (MkArray (element_type (array s)) ds') = es).
    { unfold sizes. cbn [dims]. rewrite Es', <- list_fmap_compose. apply list_fmap_id. }
    split; [constructor; [reflexivity | |]; cbn [array element_type minor_to_major]; rewrite Esz |].
    + apply valid_descending.
    + done.
    + cbn [minor_to_major tiles]. rewrite Les. done.
Qed.

(** ** The decomposition *)

Lemma same_places_descending ds es :
  Forall (λ d, 0 < d) ds → Forall (λ d, 0 < d) es → prod ds ≤ int64_max → prod ds = prod es →
  same_places ds es (descending (length ds)) (descending (length es)).
Proof.
  intros Pd Pe Mx Ep. split; [done |]. intros k Hk. unfold place.
  destruct (index_round_trip ds _ k (valid_descending ds) Pd Mx Hk) as (xs & -> & _ & E1).
  destruct (index_round_trip es _ k (valid_descending es) Pe ltac:(lia) ltac:(lia)) as (ys & -> & _ & E2).
  cbn [mbind res_bind]. by rewrite E1, E2.
Qed.

Lemma sel_reverse_iota m n : length m = n → sel m (ReverseIota n) = reverse m.
Proof. intros <-. unfold ReverseIota. by rewrite sel_reverse, sel_seqZ. Qed.

Lemma perm_ReverseIota n : perm (ReverseIota n).
Proof. apply perm_reverse, iota_perm. Qed.

(** Every step of the decomposition keeps every element in its place. *)
Definition trt_keeps (s t : LaidShape) (il ol : Layout) (d : BitcastDecompositionTrt) : Prop :=
  ∃ l1 l2, laid (transpose1_shape d) l1 ∧ laid (reshape_shape d) l2 ∧
    transpose_keeps (sizes (array s)) (minor_to_major il)
      (sizes (array (transpose1_shape d))) (minor_to_major l1) (transpose1_dims d) ∧
    same_places (sizes (array (transpose1_shape d))) (sizes (array (reshape_shape d)))
      (minor_to_major l1) (minor_to_major l2) ∧
    transpose_keeps (sizes (array (reshape_shape d))) (minor_to_major l2)
      (sizes (array t)) (minor_to_major ol) (transpose2_dims d).

Lemma has_layout_ok s l : opt_layout s = Some l → has_layout s = true.
Proof. intros E. unfold has_layout. rewrite E. by apply bool_decide_true. Qed.

Lemma transpose1_keeps ds m :
  valid_layout ds m → prod ds ≤ int64_max →
  let p := reverse m in sel p (descending (length ds)) = m ∧
  transpose_keeps ds m (sel ds p) (descending (length ds)) p.
Proof.
  intros Hm Mx p. assert (Hp : valid_layout ds p).
  { split; [by apply perm_reverse, Hm | unfold p; rewrite length_reverse; apply Hm]. }
  assert (E : sel p (descending (length ds)) = m).
  { rewrite sel_descending by apply Hp. apply reverse_involutive. }
  split; [done |]. by apply transpose_sound; [| apply valid_descending | | |].
Qed.

Lemma transpose2_keeps ds m inv :
  valid_layout ds m → prod ds ≤ int64_max → perm inv → length inv = length m →
  sel inv m = iota (length m) →
  let p := sel (ReverseIota (length ds)) inv in
  let es := sel ds (reverse m) in
  sel p m = descending (length ds) ∧ transpose_keeps es (descending (length ds)) ds m p.
Proof.
  intros Hm Mx Pinv Linv E p es. destruct Hm as [Pm Lm].
  assert (Er : in_range inv m) by (apply (perm_in_range inv); [done | lia]).
  assert (Ei : sel p m = descending (length ds)).
  { unfold p. rewrite <- sel_sel by done. rewrite E, Lm.
    assert (El : length ds = length (ReverseIota (length ds))).
    { unfold ReverseIota. rewrite length_reverse, length_seqZ. lia. }
    rewrite El at 2. by rewrite sel_seqZ. }
  assert (Pp : perm p).
  { apply perm_sel; [apply perm_ReverseIota | done |]. unfold ReverseIota. rewrite length_reverse, length_seqZ. lia. }
  assert (Les : length es = length ds) by (unfold es; rewrite length_sel, length_reverse; lia).
  assert (Hp : valid_layout es p) by (split; [done | unfold p; rewrite length_sel; lia]).
  assert (Hds : sel es p = ds).
  { apply (sel_inj _ _ m); [done | rewrite length_sel; unfold p; rewrite length_sel; lia | lia |].
    rewrite <- sel_sel by (apply (perm_in_range p); [done | unfold p; rewrite length_sel; lia]).
    rewrite Ei, sel_descending by done. unfold es. rewrite sel_reverse. apply reverse_involutive. }
  split; [done |]. pose proof (transpose_sound es (descending (length ds)) m p) as Ht.
  rewrite Hds in Ht. apply Ht; [| split; [done | lia] | done | | done].
  - rewrite <- Les. apply valid_descending.
  - unfold es. rewrite sel_perm; [done |]. split; [by apply perm_reverse | rewrite length_reverse; lia].
Qed.

Lemma DecomposeBitcastToTrt_spec s t il ol :
  laid s il → laid t ol → prod (sizes (array s)) = prod (sizes (array t)) → prod (sizes (array s)) ≠ 0 →
  ∃ d, DecomposeBitcastToTrt s t = Ok (Some d) ∧ trt_keeps s t il ol d.
Proof.
  intros Hs Ht Ep E0. pose proof (laid_prod _ _ Hs) as Ms. pose proof (laid_prod _ _ Ht) as Mt.
  pose proof (prod_zero_pos _ (so_nonneg _ _ (laid_sizes _ _ Hs)) E0) as Ps.
  pose proof (prod_zero_pos _ (so_nonneg _ _ (laid_sizes _ _ Ht)) ltac:(lia)) as Pt.
  unfold DecomposeBitcastToTrt, IsDecomposableBitcast.
  rewrite (has_layout_ok s il), (has_layout_ok t ol) by (apply Hs || apply Ht).
  rewrite (ElementsIn_prod s il), (ElementsIn_prod t ol), (proj2 (Z.eqb_eq _ _) Ep) by done.
  cbn [andb negb].
  destruct (SamePhysical_spec s il Hs Ps) as (s1 & l1 & -> & H1 & Ety1 & Em1 & _ & Es1).
  destruct (SamePhysical_spec t ol Ht Pt) as (s2 & l2 & -> & H2 & Ety2 & Em2 & _ & Es2).
  cbn [mbind res_bind].
  pose proof (laid_order _ _ Hs) as Hms. pose proof (laid_order _ _ Ht) as Hmt.
  assert (Hrev : ∀ ds m, valid_layout ds m → valid_layout ds (reverse m)).
  { intros ds m [Pm Lm]. split; [by apply perm_reverse | by rewrite length_reverse]. }
  assert (Ep1 : prod (sizes (array s1)) = prod (sizes (array s))).
  { rewrite Es1. by rewrite (sel_perm _ _ (Hrev _ _ Hms)). }
  assert (Ep2 : prod (sizes (array s2)) = prod (sizes (array t))).
  { rewrite Es2. by rewrite (sel_perm _ _ (Hrev _ _ Hmt)). }
  assert (L1 : length (sizes (array s1)) = length (sizes (array s))).
  { rewrite Es1, length_sel, length_reverse. apply Hms. }
  assert (L2 : length (sizes (array s2)) = length (sizes (array t))).
  { rewrite Es2, length_sel, length_reverse. apply Hmt. }
  assert (Hsame : same_places (sizes (array s1)) (sizes (array s2)) (minor_to_major l1) (minor_to_major l2)).
  { rewrite Em1, Em2, <- L1, <- L2. apply same_places_descending; [| | lia | lia].
    - rewrite Es1. by rewrite (sel_perm _ _ (Hrev _ _ Hms)).
    - rewrite Es2. by rewrite (sel_perm _ _ (Hrev _ _ Hmt)). }
  destruct (ReshapeIsBitcast_spec s1 s2 l1 l2 true H1 H2 ltac:(by left)) as (b & -> & Hb).
  rewrite (proj2 Hb Hsame). cbn [mbind res_bind guard_res].
  rewrite (layout_ok s il), (layout_ok t ol) by (apply Hs || apply Ht). cbn [mbind res_bind].
  destruct Hms as [Pms Lms], Hmt as [Pmt Lmt]. rewrite !rank_sizes.
  rewrite (compose_sel (minor_to_major il)) by
    (apply perm_ReverseIota || (unfold ReverseIota; rewrite length_reverse, length_seqZ; lia)).
  rewrite sel_reverse_iota by done. cbn [mbind res_bind].
  destruct (transpose1_keeps (sizes (array s)) (minor_to_major il)) as [Et1 Hk1]; [by split | done |].
  rewrite (TransposeIsBitcast_spec s s1 il l1);
    [| apply Hs | apply H1 | apply H1 | | by right].
  2: { rewrite length_reverse, Em1. unfold descending. rewrite length_reverse, length_seqZ. lia. }
  rewrite Em1, bool_decide_true by done. cbn [mbind res_bind guard_res].
  destruct (inverse_sel (minor_to_major ol) Pmt) as (inv & -> & Pinv & Linv & Ei1 & _). cbn [mbind res_bind].
  rewrite compose_sel by (done || (unfold ReverseIota; rewrite length_reverse, length_seqZ; lia)).
  cbn [mbind res_bind].
  destruct (transpose2_keeps (sizes (array t)) (minor_to_major ol) inv) as [Et2 Hk2];
    [by split | done | done | done | done |].
  rewrite (TransposeIsBitcast_spec s2 t l2 ol);
    [| apply H2 | apply Ht | done | rewrite length_sel; lia | by right].
  rewrite Em2, bool_decide_true by done. cbn [mbind res_bind guard_res].
  eexists. split; [reflexivity |]. exists l1, l2. cbn [transpose1_shape reshape_shape transpose1_dims transpose2_dims].
  split; [done |]. split; [done |]. rewrite Es1, Es2, Em1, Em2. split; [done |]. split; [| done].
  rewrite <- Es1, <- Es2, <- Em1, <- Em2. done.
Qed.

Lemma DecomposeBitcast_spec s t il ol :
  laid s il → laid t ol → prod (sizes (array s)) = prod (sizes (array t)) → prod (sizes (array s)) ≠ 0 →
  ∃ d, DecomposeBitcast s t = Ok (Some d) ∧
    match d with
    | BitcastDecompositionReshape =>
        same_places (sizes (array s)) (sizes (array t)) (minor_to_major il) (minor_to_major ol)
    | BitcastDecompositionTranspose p =>
        transpose_keeps (sizes (array s)) (minor_to_major il) (sizes (array t)) (minor_to_major ol) p
    | BitcastDecompositionOfTrt d => trt_keeps s t il ol d
    end.
Proof.
  intros Hs Ht Ep E0. unfold DecomposeBitcast, IsDecomposableBitcast.
  rewrite (has_layout_ok s il), (has_layout_ok t ol) by (apply Hs || apply Ht).
  rewrite (ElementsIn_prod s il), (ElementsIn_prod t ol), (proj2 (Z.eqb_eq _ _) Ep) by done.
  cbn [andb negb].
  destruct (ReshapeIsBitcast_spec s t il ol true Hs Ht ltac:(by left)) as (b & -> & Hb).
  cbn [mbind res_bind]. destruct b; [exists BitcastDecompositionReshape; split; [done | by apply Hb] |].
  destruct (decide (length (sizes (array s)) = length (sizes (array t)))) as [El | Nl].
  - destruct (Deduce_spec s t il ol Hs Ht El) as (r & -> & Hr). cbn [mbind res_bind].
    destruct r as [p |].
    + exists (BitcastDecompositionTranspose p). split; [done |]. destruct Hr as (Hp & Es & Et).
      rewrite Et. apply transpose_sound; [apply Hs | | done | by apply (laid_prod _ il) | done].
      destruct (laid_order _ _ Ht) as [Pm Lm]. split; [done | lia].
    + destruct (DecomposeBitcastToTrt_spec s t il ol Hs Ht Ep E0) as (d & -> & Hd). cbn [mbind res_bind option_map].
      by exists (BitcastDecompositionOfTrt d).
  - unfold DeduceTransposeDimensionsForBitcast. rewrite !rank_sizes.
    rewrite (bool_decide_true (length (sizes (array t)) ≠ _)) by lia. cbn [mbind res_bind].
    destruct (DecomposeBitcastToTrt_spec s t il ol Hs Ht Ep E0) as (d & -> & Hd). cbn [mbind res_bind option_map].
    by exists (BitcastDecompositionOfTrt d).
Qed.
End Types.

End DecomposeProofs.
