(* ===== verification/BitcastCorrect.v ===== *)
(** * Bitcasts: the properties

    What the tests for bitcasts decide and what the decompositions promise, each with a
    concrete instance. *)
From stdpp Require Import relations.
From S2P Require Import Prelude WindowArith Types PermUtil Shape ShapeProofs Radix Layouts IndexProofs TilingProofs LayoutCorrect Places Bitcasts BitcastProofs TransposeProofs.
#[local] Open Scope Z_scope.

Module BitcastCorrect.
Import Types PermUtil Shape ShapeProofs Radix Layouts IndexProofs TilingProofs LayoutProofs Places.
Import Bitcasts BitcastProofs TransposeProofs DecomposeProofs.

(** ** Concrete shapes *)

Definition floats (ds m : list Z) : LaidShape := MkLaid (static_array F32 ds) (Some (MakeLayout m)).

Lemma floats_sizes_ok ds : Forall (λ d, 0 ≤ d) ds → fits 4 ds → sizes_ok F32 ds.
Proof. intros Hn Hf. split; [done |]. exists 4. split; [reflexivity | split; [lia | done]]. Qed.

Lemma floats_laid ds m :
  Forall (λ d, 0 ≤ d) ds → fits 4 ds → IsPermutation m = true → length m = length ds →
  laid (floats ds m) (MakeLayout m).
Proof.
  intros Hn Hf Hm El. constructor; [done | |]; cbn [array floats minor_to_major MakeLayout]; rewrite static_sizes.
  - split; [by apply IsPermutation_perm | done].
  - by apply floats_sizes_ok.
Qed.

Ltac floats := apply floats_laid; [repeat constructor; lia | repeat split; vm_compute; discriminate | reflexivity | reflexivity].

Section Types.
Context `{NativeTypes}.

(** C36: [ReshapeIsBitcast] answers exactly the question it is asked: it is true when the
    reshape, which keeps the row-major position of every element, also keeps the place
    of every element in memory.  Trying the unit indices of both sides is enough. *)
Theorem ReshapeIsBitcast_exact s t il ol ign :
  laid s il → laid t ol → (ign = true ∨ element_type (array s) = element_type (array t)) →
  ∃ b, ReshapeIsBitcast s t ign = Ok b ∧
    (b = true ↔ same_places (sizes (array s)) (sizes (array t)) (minor_to_major il) (minor_to_major ol)).
Proof. apply ReshapeIsBitcast_spec. Qed.

(** [TransposeIsBitcast], which only compares the two orders, never takes a transpose
    for a bitcast that moves an element, and misses none when no dimension has size 1. *)
Theorem TransposeIsBitcast_exact s t il ol p ign :
  laid s il → laid t ol → valid_layout (sizes (array s)) p →
  sizes (array t) = sel (sizes (array s)) p →
  (ign = true ∨ element_type (array s) = element_type (array t)) →
  ∃ b, TransposeIsBitcast s t p ign = Ok b ∧
    (b = true → transpose_keeps (sizes (array s)) (minor_to_major il) (sizes (array t)) (minor_to_major ol) p) ∧
    (Forall (λ d, 1 < d) (sizes (array s)) →
     transpose_keeps (sizes (array s)) (minor_to_major il) (sizes (array t)) (minor_to_major ol) p → b = true).
Proof.
  intros Hs Ht Hp Et Hty. pose proof (laid_order _ _ Ht) as [Pm Lm].
  assert (Hol : valid_layout (sizes (array s)) (minor_to_major ol)).
  { split; [done |]. rewrite Lm, Et, length_sel. apply Hp. }
  exists (bool_decide (sel p (minor_to_major ol) = minor_to_major il)). split.
  { apply TransposeIsBitcast_spec; [apply Hs | apply Ht | done | | done].
    destruct Hp as [_ ->]. destruct Hol as [_ Lo]. done. }
  rewrite bool_decide_eq_true, Et. split.
  - intros E. apply transpose_sound; [apply Hs | done | done | by apply (laid_prod _ il) | done].
  - intros Hone Hk. apply (transpose_complete (sizes (array s))); [apply Hs | done | done | by apply (laid_prod _ il) | done | done].
Qed.

(** [DeduceTransposeDimensionsForBitcast] finds the one permutation of the dimensions
    that makes a bitcast of the transpose between two laid out shapes of the same rank, if
    there is one; its own check of the result never fails. *)
Theorem DeduceTransposeDimensionsForBitcast_exact s t il ol :
  laid s il → laid t ol → length (sizes (array s)) = length (sizes (array t)) →
  ∃ r, DeduceTransposeDimensionsForBitcast s t = Ok r ∧
    match r with
    | Some p => valid_layout (sizes (array s)) p ∧ sel p (minor_to_major ol) = minor_to_major il ∧
        sizes (array t) = sel (sizes (array s)) p
    | None => ∀ p, valid_layout (sizes (array s)) p → sel p (minor_to_major ol) = minor_to_major il →
        sizes (array t) ≠ sel (sizes (array s)) p
    end.
Proof. apply Deduce_spec. Qed.

(** [PermuteDimensions] gives the permuted shape the one order that moves no element:
    the check it makes never fails, and the layout is valid. *)
Theorem PermuteDimensions_bitcast p s l :
  laid s l → valid_layout (sizes (array s)) p →
  ∃ t l', PermuteDimensions p s = Ok t ∧ opt_layout t = Some l' ∧
    valid_layout (sizes (array t)) (minor_to_major l') ∧
    transpose_keeps (sizes (array s)) (minor_to_major l) (sizes (array t)) (minor_to_major l') p.
Proof. apply PermuteDimensions_spec. Qed.

(** C37: [DecomposeBitcast] turns every bitcast between laid out arrays of the same,
    positive element count into a reshape, a transpose, or a transpose, a reshape and a
    transpose; none of its checks fails, and no step moves an element. *)
Theorem DecomposeBitcast_total s t il ol :
  laid s il → laid t ol → prod (sizes (array s)) = prod (sizes (array t)) → prod (sizes (array s)) ≠ 0 →
  ∃ d, DecomposeBitcast s t = Ok (Some d) ∧
    match d with
    | BitcastDecompositionReshape =>
        same_places (sizes (array s)) (sizes (array t)) (minor_to_major il) (minor_to_major ol)
    | BitcastDecompositionTranspose p =>
        transpose_keeps (sizes (array s)) (minor_to_major il) (sizes (array t)) (minor_to_major ol) p
    | BitcastDecompositionOfTrt d => trt_keeps s t il ol d
    end.
Proof. apply DecomposeBitcast_spec. Qed.
End Types.

(** ** Instances *)

Lemma ReshapeIsBitcast_exact_witness :
  ∃ b, ReshapeIsBitcast (floats [6; 5] [0; 1]) (floats [2; 3; 5] [1; 0; 2]) false = Ok b ∧ b = true ∧
    same_places [6; 5] [2; 3; 5] [0; 1] [1; 0; 2].
Proof.
  destruct (ReshapeIsBitcast_exact (floats [6; 5] [0; 1]) (floats [2; 3; 5] [1; 0; 2])
    (MakeLayout [0; 1]) (MakeLayout [1; 0; 2]) false) as (b & E & Hb); [floats | floats | by right |].
  exists b. split; [exact E |].
  assert (Eb : b = true).
  { assert (Ev : ReshapeIsBitcast (floats [6; 5] [0; 1]) (floats [2; 3; 5] [1; 0; 2]) false = Ok true)
      by (vm_compute; reflexivity). congruence. }
  split; [exact Eb |]. apply Hb in Eb. cbn [array floats] in Eb. rewrite !static_sizes in Eb. exact Eb.
Defined.

Lemma TransposeIsBitcast_exact_witness :
  TransposeIsBitcast (floats [2; 3] [1; 0]) (floats [3; 2] [0; 1]) [1; 0] false = Ok true ∧
  transpose_keeps [2; 3] [1; 0] [3; 2] [0; 1] [1; 0].
Proof.
  destruct (TransposeIsBitcast_exact (floats [2; 3] [1; 0]) (floats [3; 2] [0; 1])
    (MakeLayout [1; 0]) (MakeLayout [0; 1]) [1; 0] false) as (b & E & Hb & _);
    [floats | floats | split; [by apply IsPermutation_perm | reflexivity] | reflexivity | by right |].
  assert (Ev : TransposeIsBitcast (floats [2; 3] [1; 0]) (floats [3; 2] [0; 1]) [1; 0] false = Ok true)
    by (vm_compute; reflexivity).
  split; [exact Ev |]. apply Hb. congruence.
Defined.

Lemma DeduceTransposeDimensionsForBitcast_exact_witness :
  ∃ r, DeduceTransposeDimensionsForBitcast (floats [2; 3; 5] [2; 1; 0]) (floats [3; 5; 2] [1; 0; 2]) = Ok r ∧
    r = Some [1; 2; 0].
Proof.
  destruct (DeduceTransposeDimensionsForBitcast_exact (floats [2; 3; 5] [2; 1; 0]) (floats [3; 5; 2] [1; 0; 2])
    (MakeLayout [2; 1; 0]) (MakeLayout [1; 0; 2])) as (r & E & _); [floats | floats | reflexivity |].
  exists r. split; [exact E |].
  assert (Ev : DeduceTransposeDimensionsForBitcast (floats [2; 3; 5] [2; 1; 0]) (floats [3; 5; 2] [1; 0; 2]) =
    Ok (Some [1; 2; 0])) by (vm_compute; reflexivity).
  congruence.
Defined.

Lemma PermuteDimensions_bitcast_witness :
  ∃ t l', PermuteDimensions [1; 2; 0] (floats [2; 3; 5] [2; 1; 0]) = Ok t ∧ opt_layout t = Some l' ∧
    transpose_keeps [2; 3; 5] [2; 1; 0] (sizes (array t)) (minor_to_major l') [1; 2; 0].
Proof.
  destruct (PermuteDimensions_bitcast [1; 2; 0] (floats [2; 3; 5] [2; 1; 0]) (MakeLayout [2; 1; 0]))
    as (t & l' & E & El & _ & Hk); [floats | split; [by apply IsPermutation_perm | reflexivity] |].
  exists t, l'. split; [exact E | split; [exact El | exact Hk]].
Defined.

Lemma DecomposeBitcast_total_witness :
  ∃ d, DecomposeBitcast (floats [2; 3; 4] [0; 1; 2]) (floats [6; 4] [1; 0]) = Ok (Some d).
Proof.
  destruct (DecomposeBitcast_total (floats [2; 3; 4] [0; 1; 2]) (floats [6; 4] [1; 0])
    (MakeLayout [0; 1; 2]) (MakeLayout [1; 0])) as (d & E & _); [floats | floats | reflexivity | discriminate |].
  exists d. exact E.
Defined.

(** ** What the code does not do *)

(** [IsReshapeOrTransposeBitcast] deduces the transpose from [a] to [b] but asks whether
    it is a bitcast from [b] to [a], so it misses one that is not its own inverse. *)
Example transpose_bitcast_missed :
  TransposeIsBitcast (floats [2; 3; 5] [2; 1; 0]) (floats [3; 5; 2] [1; 0; 2]) [1; 2; 0] true = Ok true ∧
  IsReshapeOrTransposeBitcast (floats [2; 3; 5] [2; 1; 0]) (floats [3; 5; 2] [1; 0; 2]) true = Ok false.
Proof. split; vm_compute; reflexivity. Qed.

(** [ReorderLogicalDimensions] maps the order by the permutation and not by its inverse,
    so a cycle of three dimensions changes the sizes in memory from 5, 3, 2 to 3, 2, 5. *)
Definition minor_sizes (s : LaidShape) : res (list Z) :=
  l ← layout s; mapM (at_z (sizes (array s))) (minor_to_major l).

Example reorder_moves_dimensions :
  minor_sizes (floats [2; 3; 5] [2; 1; 0]) = Ok [5; 3; 2] ∧
  (s ← ReorderLogicalDimensions (floats [2; 3; 5] [2; 1; 0]) [1; 2; 0]; minor_sizes s) = Ok [3; 2; 5].
Proof. split; vm_compute; reflexivity. Qed.

(** A permutation that is its own inverse does keep them. *)
Theorem ReorderLogicalDimensions_involution p s l :
  laid s l → valid_layout (sizes (array s)) p → sel p p = seqZ 0 (Z.of_nat (length p)) →
  ∃ t, ReorderLogicalDimensions s p = Ok t ∧ minor_sizes t = minor_sizes s.
Proof.
  intros Hs [Pp Lp] Einv. pose proof (laid_order _ _ Hs) as [Pm Lm]. unfold ReorderLogicalDimensions.
  assert (Lr : length p = rank (array s)) by (rewrite rank_sizes; done).
  destruct (Permute_spec (dims (array s)) p Pp Lr) as (ds & -> & Lds & Hds). cbn [mbind res_bind].
  rewrite (laid_layout _ _ Hs).
  assert (Hpm : in_range p (minor_to_major l)) by (apply (perm_in_range p); [done | lia]).
  rewrite mapM_at by done. cbn [mbind res_bind]. eexists. split; [done |].
  unfold minor_sizes, layout. rewrite (laid_layout _ _ Hs). cbn [opt_layout array mbind res_bind with_minor_to_major minor_to_major].
  assert (Es : sizes (MkArray (element_type (array s)) ds) = sel (sizes (array s)) p).
  { unfold sizes. cbn [dims]. apply list_eq_same_length with (length p);
      [apply length_sel | rewrite length_fmap; unfold rank in Lr; lia |].
    intros i x y Hi Hx Hy. destruct (lookup_lt_is_Some_2 p i Hi) as [q Hq].
    rewrite (sel_lookup _ _ _ _ Hq) in Hy. rewrite list_lookup_fmap, (Hds i q Hq) in Hx.
    injection Hy as <-. symmetry. apply list_lookup_total_correct. by rewrite list_lookup_fmap. }
  rewrite Es, mapM_at, mapM_at.
  - f_equal. rewrite sel_sel by done.
    rewrite <- (sel_sel (sizes (array s)) p p) by by apply (perm_in_range p). rewrite Einv, Lp. by rewrite sel_seqZ.
  - apply (perm_in_range (sizes (array s))); [done | lia].
  - apply (perm_in_range (sel _ _)); [by apply perm_sel; [| | lia] |]. rewrite !length_sel. lia.
Qed.

(** A shape without a layout is treated everywhere but in the last line. *)
Example same_physical_aborts :
  MakeShapeWithDescendingLayoutAndSamePhysicalLayout (MkLaid (static_array F32 [2; 3]) None) = Fail CheckFailed.
Proof. vm_compute. reflexivity. Qed.

End BitcastCorrect.
