(* ===== verification/Align.v ===== *)
(** * Common factors and aligned layouts

    [CommonFactors] of [xla/util.cc], and what [xla/shape_util.cc] builds on it: the
    dimensions a reshape leaves alone, and the layout that makes a reshape a bitcast. *)
From S2P Require Import Prelude WindowArith Types PermUtil Shape Layouts Bitcasts.
#[local] Open Scope Z_scope.

Module Align.
Import Types PermUtil Shape Layouts Bitcasts.

(** ** Common factors *)

(** The state of the search: how far both lists are, where the last bound was, the
    products since and the bounds found, the last one first. *)
Record FactorState := MkFactorState {
  pos_a : Z; pos_b : Z;
  prior_a : Z; prior_b : Z;
  partial_size_a : Z; partial_size_b : Z;
  bounds : list (Z * Z)
}.

Definition emplace_bound (s : FactorState) : FactorState :=
  MkFactorState (pos_a s) (pos_b s) (pos_a s) (pos_b s) (partial_size_a s) (partial_size_b s)
    ((pos_a s, pos_b s) :: bounds s).

(** The equal dimensions at the front. *)
Fixpoint equal_prefix (a b : list Z) (s : FactorState) : FactorState :=
  match a, b with
  | x :: a, y :: b =>
      if x =? y then
        let s := emplace_bound s in
        equal_prefix a b (MkFactorState (pos_a s + 1) (pos_b s + 1) (prior_a s) (prior_b s)
          (partial_size_a s) (partial_size_b s) (bounds s))
      else s
  | _, _ => s
  end.

Definition advance_a (a : list Z) (s : FactorState) : res FactorState :=
  x ← at_z a (pos_a s);
  p ← s64 (partial_size_a s * x);
  Ok (MkFactorState (pos_a s + 1) (pos_b s) (prior_a s) (prior_b s) p (partial_size_b s) (bounds s)).

Definition advance_b (b : list Z) (s : FactorState) : res FactorState :=
  x ← at_z b (pos_b s);
  p ← s64 (partial_size_b s * x);
  Ok (MkFactorState (pos_a s) (pos_b s + 1) (prior_a s) (prior_b s) (partial_size_a s) p (bounds s)).

(** Both decisions are taken before either side moves. *)
Definition factor_step (a b : list Z) (s : FactorState) : res FactorState :=
  let in_bounds_i := pos_a s <? Z.of_nat (length a) in
  let in_bounds_j := pos_b s <? Z.of_nat (length b) in
  le_ab ← (if in_bounds_i && in_bounds_j then
             x ← at_z a (pos_a s); y ← at_z b (pos_b s); Ok (x <=? y, y <=? x)
           else Ok (false, false));
  let equal := partial_size_a s =? partial_size_b s in
  let next_a := (partial_size_a s <? partial_size_b s) ||
    (in_bounds_i && (negb in_bounds_j || (equal && le_ab.1))) in
  let next_b := (partial_size_b s <? partial_size_a s) ||
    (in_bounds_j && (negb in_bounds_i || (equal && le_ab.2))) in
  s ← (if next_a then advance_a a s else Ok s);
  if next_b then advance_b b s else Ok s.

Fixpoint factor_loop (fuel : nat) (a b : list Z) (s : FactorState) : res (list (Z * Z)) :=
  match fuel with
  | O => Fail NoFuel
  | S fuel =>
      if (partial_size_a s =? partial_size_b s) && ((pos_a s >? prior_a s) || (pos_b s >? prior_b s))
      then factor_loop fuel a b (emplace_bound s)
      else if negb ((pos_a s <? Z.of_nat (length a)) || (pos_b s <? Z.of_nat (length b)))
      then Ok (reverse (bounds s))
      else s ← factor_step a b s; factor_loop fuel a b s
  end.

(** Every step moves at least one side and is followed by at most one new bound. *)
Definition CommonFactors (a b : list Z) : res (list (Z * Z)) :=
  pa ← Product a;
  pb ← Product b;
  guard_res (pa =? pb) CheckFailed;;
  let na := Z.of_nat (length a) in
  let nb := Z.of_nat (length b) in
  if bool_decide (a = b) then Ok ((λ i, (i, i)) <$> seqZ 0 (na + 1))
  else
    let s := equal_prefix a b (MkFactorState 0 0 (-1) (-1) 1 1 []) in
    ra ← Product (drop (Z.to_nat (pos_a s)) a);
    rb ← Product (drop (Z.to_nat (pos_b s)) b);
    if negb (ra =? rb) then Ok [(0, 0); (na, nb)]
    else if ra =? 0 then Ok (reverse (bounds s) ++ [(pos_a s, pos_b s); (na, nb)])
    else factor_loop (2 * (length a + length b) + 2) a b s.

(** ** Dimensions a reshape leaves alone *)

(** The common factors of rank 1: the erasing loop, and the last bound popped. *)
Fixpoint rank_one_factors (l : list (Z * Z)) : list (Z * Z) :=
  match l with
  | x :: (y :: _) as l =>
      if (y.1 - x.1 =? 1) && (y.2 - x.2 =? 1) then x :: rank_one_factors l else rank_one_factors l
  | _ => []
  end.

Definition DimensionsUnmodifiedByReshape (input_shape output_shape : Array) : res (list (Z * Z)) :=
  common_factors ← CommonFactors (sizes input_shape) (sizes output_shape);
  Ok (rank_one_factors common_factors).

(** The dimensions strictly between two, none of them above 1. *)
Definition check_modified (ds : list Z) (prior next : Z) : res (option (list Z)) :=
  let gap := seqZ (prior + 1) (next - prior - 1) in
  ns ← mapM (at_z ds) gap;
  Ok (if existsb (λ n, n >? 1) ns then None else Some gap).

Fixpoint check_gaps (pre post : list Z) (prior : Z * Z) (unmodified : list (Z * Z))
    (deleted inserted : list Z) : res (option (list Z * list Z)) :=
  let next := match unmodified with
              | p :: _ => p
              | [] => (Z.of_nat (length pre), Z.of_nat (length post))
              end in
  d ← check_modified pre prior.1 next.1;
  match d with
  | None => Ok None
  | Some d =>
      i ← check_modified post prior.2 next.2;
      match i with
      | None => Ok None
      | Some i =>
          match unmodified with
          | p :: unmodified => check_gaps pre post p unmodified (deleted ++ d) (inserted ++ i)
          | [] => Ok (Some (deleted ++ d, inserted ++ i))
          end
      end
  end.

(** The deleted and the inserted dimensions. *)
Definition InsertedOrDeleted1SizedDimensions (shape_pre shape_post : Array)
    : res (option (list Z * list Z)) :=
  unmodified_dims ← DimensionsUnmodifiedByReshape shape_pre shape_post;
  check_gaps (sizes shape_pre) (sizes shape_post) (-1, -1) unmodified_dims [] [].

(** The pairs from the one with that input dimension on. *)
Fixpoint seek (input_dim_index : Z) (unmodified : list (Z * Z)) : list (Z * Z) :=
  match unmodified with
  | p :: rest => if p.1 <? input_dim_index then seek input_dim_index rest else unmodified
  | [] => []
  end.

Fixpoint leaves_unmodified (input_dim_indices : list Z) (unmodified : list (Z * Z))
    : option (list Z) :=
  match input_dim_indices with
  | [] => Some []
  | i :: input_dim_indices =>
      match seek i unmodified with
      | p :: rest =>
          if p.1 =? i then option_map (cons p.2) (leaves_unmodified input_dim_indices (p :: rest))
          else None
      | [] => None
      end
  end.

Definition ReshapeLeavesDimensionsUnmodified (from_shape to_shape : Array)
    (input_dim_indices : list Z) : res (option (list Z)) :=
  if negb (is_sorted Z.ltb input_dim_indices) then Ok None
  else
    unmodified_dims ← DimensionsUnmodifiedByReshape from_shape to_shape;
    Ok (leaves_unmodified input_dim_indices unmodified_dims).

(** ** Dimensions of size 1 *)

Definition HasDegenerateDimensions (a : Array) : bool := bool_decide (1 ∈ sizes a).

(** [RemoveElements], from the position [i] on. *)
Fixpoint RemoveElements {A} (i : Z) (sorted_ids : list Z) (l : list A) : list A :=
  match l with
  | [] => []
  | x :: l =>
      match sorted_ids with
      | id :: ids =>
          if id =? i then RemoveElements (i + 1) ids l else x :: RemoveElements (i + 1) sorted_ids l
      | [] => x :: RemoveElements (i + 1) [] l
      end
  end.

(** The last one first. *)
Fixpoint delete_layout_dims (rev_dims : list Z) (l : Layout) : res Layout :=
  match rev_dims with
  | [] => Ok l
  | d :: rev_dims => l ← DeleteLayoutDimension d l; delete_layout_dims rev_dims l
  end.

(** [Shape::DeleteDimensions] sorts them first. *)
Definition DeleteDimensions (dims_to_delete : list Z) (s : LaidShape) : res LaidShape :=
  let sorted := merge_sort Z.le dims_to_delete in
  let a := MkArray (element_type (array s)) (RemoveElements 0 sorted (dims (array s))) in
  match opt_layout s with
  | None => Ok (MkLaid a None)
  | Some l => l ← delete_layout_dims (reverse sorted) l; Ok (MkLaid a (Some l))
  end.

Definition FilterDimensions (p : Z → bool) (s : LaidShape) : res LaidShape :=
  DeleteDimensions (filter (λ i, p i = false) (seqZ 0 (Z.of_nat (rank (array s))))) s.

Definition DropDegenerateDimensions (s : LaidShape) : res LaidShape :=
  FilterDimensions (λ dim, negb (sizes (array s) !!! Z.to_nat dim =? 1)) s.

(** ** Aligned layouts *)

(** The dimensions of a factor after its first, each one place more minor than the
    one before. *)
Fixpoint align_factor (m : list Z) (n : nat) (i input_physical pos : Z) (input_to_factor : list Z)
    : res (option (list Z)) :=
  match n with
  | O => Ok (Some input_to_factor)
  | S n =>
      let input_physical := input_physical - 1 in
      if input_physical <? 0 then Ok None
      else
        d ← at_z m input_physical;
        if negb (d =? i) then Ok None
        else
          _ ← at_z input_to_factor i;
          align_factor m n (i + 1) input_physical pos (<[Z.to_nat i := pos]> input_to_factor)
  end.

Fixpoint align_factors (m : list Z) (factors : list (Z * Z)) (pos : Z) (input_to_factor : list Z)
    : res (option (list Z)) :=
  match factors with
  | (input_start, _) :: ((input_end, _) :: _) as factors =>
      let input_physical := PositionInContainer m input_start in
      _ ← at_z input_to_factor input_start;
      filled ← align_factor m (Z.to_nat (input_end - (input_start + 1))) (input_start + 1) input_physical pos
             (<[Z.to_nat input_start := pos]> input_to_factor);
      match filled with
      | None => Ok None
      | Some input_to_factor => align_factors m factors (pos + 1) input_to_factor
      end
  | _ => Ok (Some input_to_factor)
  end.

(** The factors of the input from the most minor on, each laid out descending. *)
Fixpoint align_output (fuel : nat) (m : list Z) (factors : list (Z * Z)) (input_to_factor : list Z)
    (output_rank : nat) (input_minor : Z) (output_layout : list Z) : res (list Z) :=
  match fuel with
  | O => Fail NoFuel
  | S fuel =>
      if bool_decide (output_rank ≤ length output_layout)%nat then Ok output_layout
      else
        input_dim ← at_z m input_minor;
        common_factor ← at_z input_to_factor input_dim;
        start_factor ← at_z factors common_factor;
        end_factor ← at_z factors (common_factor + 1);
        align_output fuel m factors input_to_factor output_rank
          (input_minor + (end_factor.1 - start_factor.1))
          (output_layout ++ reverse (seqZ start_factor.2 (end_factor.2 - start_factor.2)))
  end.

Section Types.
Context `{NativeTypes}.

(** Without dimensions of size 1. *)
Definition align_simple (input_shape output_shape : LaidShape) : res (option LaidShape) :=
  let ids := sizes (array input_shape) in
  let ods := sizes (array output_shape) in
  common_factors ← CommonFactors ids ods;
  il ← layout input_shape;
  let m := minor_to_major il in
  input_to_factor ← align_factors m common_factors 0 (replicate (length ids) 0);
  match input_to_factor with
  | None => Ok None
  | Some input_to_factor =>
      output_layout ← align_output (length ids + length ods + 1) m common_factors input_to_factor
                        (length ods) 0 [];
      s ← MakeShapeWithDenseLayout (element_type (array output_shape)) ods output_layout;
      ok ← ReshapeIsBitcast input_shape s false;
      guard_res ok CheckFailed;;
      Ok (Some s)
  end.

(** The dimensions of size 1 come last in the layout, descending. *)
Definition AlignLayouts (input_shape output_shape : LaidShape) : res (option LaidShape) :=
  if HasDegenerateDimensions (array input_shape) || HasDegenerateDimensions (array output_shape)
  then
    simple_input ← DropDegenerateDimensions input_shape;
    simple_output ← DropDegenerateDimensions output_shape;
    simple_output_shape ← align_simple simple_input simple_output;
    match simple_output_shape with
    | None => Ok None
    | Some simple_output_shape =>
        l ← layout simple_output_shape;
        let all := seqZ 0 (Z.of_nat (rank (array output_shape))) in
        let one d := sizes (array output_shape) !!! Z.to_nat d =? 1 in
        let dim_map := filter (λ d, one d = false) all in
        m ← mapM (at_z dim_map) (minor_to_major l);
        Ok (Some (with_layout output_shape (MakeLayout (m ++ reverse (filter (λ d, one d = true) all)))))
    end
  else align_simple input_shape output_shape.
End Types.

End Align.
