(* ===== verification/FactorProofs.v ===== *)
(** * Common factors

    The search of [CommonFactors] ends, and its bounds cut both lists into parts of the
    same product; without sizes of 1 there is no finer cut. *)
From stdpp Require Import relations.
From S2P Require Import Prelude WindowArith Types PermUtil Shape Radix Layouts IndexProofs TilingProofs UntileProofs Bitcasts Align.
#[local] Open Scope Z_scope.

Module FactorProofs.
Import Radix Layouts IndexProofs TilingProofs FlatTiles Bitcasts Align.

(** ** Prefix products *)

Definition prefix (l : list Z) (i : Z) : Z := prod (take (Z.to_nat i) l).

Abbreviation len l := (Z.of_nat (length l)).

Lemma prefix_0 l : prefix l 0 = 1.
Proof. done. Qed.

Lemma prefix_all l i : len l ≤ i → prefix l i = prod l.
Proof. intros H. unfold prefix. by rewrite take_ge by lia. Qed.

Lemma prefix_S l i x : 0 ≤ i → l !! Z.to_nat i = Some x → prefix l (i + 1) = prefix l i * x.
Proof.
  intros Hi Hx. unfold prefix. replace (Z.to_nat (i + 1)) with (S (Z.to_nat i)) by lia.
  by rewrite (take_S_r _ _ _ Hx), prod_app, prod_singleton.
Qed.

Lemma prefix_pos l i : Forall (λ d, 0 < d) l → 0 < prefix l i.
Proof. intros H. apply prod_pos. by apply Forall_take. Qed.

Lemma prefix_split l i : prod l = prefix l i * prod (drop (Z.to_nat i) l).
Proof. unfold prefix. by rewrite <- prod_app, take_drop. Qed.

Lemma prefix_le l i j : Forall (λ d, 0 < d) l → 0 ≤ i ≤ j → prefix l i ≤ prefix l j.
Proof.
  intros Hl Hij. unfold prefix. rewrite <- (take_drop (Z.to_nat i) (take (Z.to_nat j) l)), prod_app.
  rewrite take_take, Nat.min_l by lia.
  pose proof (prod_pos (take (Z.to_nat i) l) (Forall_take _ _ _ Hl)).
  pose proof (prod_pos (drop (Z.to_nat i) (take (Z.to_nat j) l)) (Forall_drop _ _ _ (Forall_take _ _ _ Hl))). nia.
Qed.

Lemma prefix_max l i : Forall (λ d, 0 < d) l → prefix l i ≤ prod l.
Proof.
  intros Hl. rewrite (prefix_split l i). pose proof (prefix_pos l i Hl).
  pose proof (prod_pos _ (Forall_drop _ (Z.to_nat i) _ Hl)). nia.
Qed.

Lemma big_pos l : Forall (λ d, 1 < d) l → Forall (λ d, 0 < d) l.
Proof. intros H. eapply Forall_impl; [exact H |]. intros x Hx. simpl in *. lia. Qed.

Lemma at_Z (l : list Z) i : 0 ≤ i < len l → ∃ x, l !! Z.to_nat i = Some x ∧ at_z l i = Ok x.
Proof.
  intros Hi. destruct (lookup_lt_is_Some_2 l (Z.to_nat i)) as [x Hx]; [lia |].
  exists x. split; [done |]. apply at_z_ok. split; [lia | done].
Qed.

Lemma prefix_lt l i j : Forall (λ d, 1 < d) l → 0 ≤ i → i < j ≤ len l → prefix l i < prefix l j.
Proof.
  intros Hl Hi Hij. destruct (at_Z l i ltac:(lia)) as (x & Hx & _).
  pose proof (proj1 (Forall_lookup _ _) Hl _ _ Hx) as H1. cbn beta in H1.
  pose proof (prefix_pos l i (big_pos l Hl)). pose proof (prefix_le l (i + 1) j (big_pos l Hl) ltac:(lia)) as Hle.
  rewrite (prefix_S l i x) in Hle by (done || lia). nia.
Qed.

Lemma prefix_inj l i j :
  Forall (λ d, 1 < d) l → 0 ≤ i ≤ len l → 0 ≤ j ≤ len l → prefix l i = prefix l j → i = j.
Proof.
  intros Hl Hi Hj E. destruct (Z.lt_trichotomy i j) as [H | [H | H]]; [| done |].
  - pose proof (prefix_lt l i j Hl). lia.
  - pose proof (prefix_lt l j i Hl). lia.
Qed.

Lemma sorted_reverse {A} (R : A → A → Prop) l : StronglySorted (flip R) l → StronglySorted R (reverse l).
Proof.
  induction 1 as [| x l Hl IH Hx]; [constructor |]. rewrite reverse_cons. apply StronglySorted_app_2; [| done |].
  - intros y z Hy Hz. apply list_elem_of_singleton in Hz as ->. rewrite elem_of_reverse in Hy.
    rewrite Forall_forall in Hx. exact (Hx y Hy).
  - repeat constructor.
Qed.

(** ** What the bounds are *)

Section Lists.
Context (a b : list Z).

(** A place where both lists can be cut. *)
Definition cuts (p : Z * Z) : Prop :=
  0 ≤ p.1 ≤ len a ∧ 0 ≤ p.2 ≤ len b ∧ prefix a p.1 = prefix b p.2.

Definition before_cut (p q : Z * Z) : Prop := p.1 ≤ q.1 ∧ p.2 ≤ q.2 ∧ p ≠ q.

Record common_factors (l : list (Z * Z)) : Prop := {
  cf_first : head l = Some (0, 0);
  cf_last : last l = Some (len a, len b);
  cf_sorted : StronglySorted before_cut l;
  cf_cuts : Forall cuts l;
  cf_finest : Forall (λ d, 1 < d) a → Forall (λ d, 1 < d) b → ∀ p, cuts p → p ∈ l;
}.

Hypothesis Ha : Forall (λ d, 0 < d) a.
Hypothesis Hb : Forall (λ d, 0 < d) b.
Hypothesis Hprod : prod a = prod b.
Hypothesis Hmax : prod a ≤ int64_max.

(** ** The state of the search *)

Record searching (s : FactorState) : Prop := {
  se_a : 0 ≤ pos_a s ≤ len a;
  se_b : 0 ≤ pos_b s ≤ len b;
  se_scale : ∃ c, 0 < c ∧ prefix a (pos_a s) = c * partial_size_a s ∧
    prefix b (pos_b s) = c * partial_size_b s;
  se_prior : match bounds s with
    | [] => prior_a s = -1 ∧ prior_b s = -1 ∧ pos_a s = 0 ∧ pos_b s = 0
    | p :: _ => p = (prior_a s, prior_b s) ∧ prior_a s ≤ pos_a s ∧ prior_b s ≤ pos_b s
    end;
  se_first : bounds s = [] ∨ last (bounds s) = Some (0, 0);
  se_sorted : StronglySorted (flip before_cut) (bounds s);
  se_cuts : Forall cuts (bounds s);
  se_finest : Forall (λ d, 1 < d) a → Forall (λ d, 1 < d) b →
    ∀ p, cuts p → p ∈ bounds s ∨ (pos_a s ≤ p.1 ∧ pos_b s ≤ p.2);
}.

Definition moved (s : FactorState) : bool := (pos_a s >? prior_a s) || (pos_b s >? prior_b s).

Lemma equal_sizes s :
  searching s → (partial_size_a s =? partial_size_b s) = true ↔ prefix a (pos_a s) = prefix b (pos_b s).
Proof. intros [_ _ (c & Hc & -> & ->) _ _ _ _ _]. rewrite Z.eqb_eq. nia. Qed.

Lemma less_sizes s :
  searching s → (partial_size_a s <? partial_size_b s) = true ↔ prefix a (pos_a s) < prefix b (pos_b s).
Proof. intros [_ _ (c & Hc & -> & ->) _ _ _ _ _]. rewrite Z.ltb_lt. nia. Qed.

Lemma greater_sizes s :
  searching s → (partial_size_b s <? partial_size_a s) = true ↔ prefix b (pos_b s) < prefix a (pos_a s).
Proof. intros [_ _ (c & Hc & -> & ->) _ _ _ _ _]. rewrite Z.ltb_lt. nia. Qed.

(** A cut where both lists are. *)
Lemma emplace_searching s :
  searching s → prefix a (pos_a s) = prefix b (pos_b s) → moved s = true →
  searching (emplace_bound s) ∧ moved (emplace_bound s) = false.
Proof.
  intros [Sa Sb Sc Sp Sf So Scu Sfi] E Hm. unfold moved in Hm. apply orb_true_iff in Hm.
  rewrite !Z.gtb_lt in Hm. split.
  - constructor; cbn [emplace_bound pos_a pos_b prior_a prior_b partial_size_a partial_size_b bounds]; try done.
    + right. destruct (bounds s) as [| q l] eqn:El.
      * destruct Sp as (_ & _ & -> & ->). done.
      * rewrite <- El in *. destruct Sf as [Sf | Sf]; [by rewrite El in Sf |].
        rewrite last_cons, Sf. done.
    + constructor; [done |]. destruct (bounds s) as [| q l]; [constructor |].
      destruct Sp as (-> & Hp1 & Hp2).
      assert (Hq : before_cut (prior_a s, prior_b s) (pos_a s, pos_b s)).
      { unfold before_cut. cbn [fst snd]. split; [done |]. split; [done |]. intros [= E1 E2]. lia. }
      constructor; [done |]. inversion So as [| ? ? _ Hl]; subst. eapply Forall_impl; [exact Hl |].
      intros q Hq'. destruct q as [q1 q2]. unfold flip, before_cut in *. cbn [fst snd] in *.
      destruct Hq as (? & ? & ?), Hq' as (? & ? & ?). split; [lia |]. split; [lia |]. intros [= E1 E2]. subst.
      apply H1. f_equal; lia.
    + constructor; [done | done].
    + intros H1 H2 p Hp. destruct (Sfi H1 H2 p Hp) as [Hin | Hge]; [left; by right | by right].
  - unfold moved, emplace_bound. cbn. rewrite !Z.gtb_ltb, !Z.ltb_irrefl. done.
Qed.

(** A state further on with the same bounds. *)
Lemma searching_on s s' :
  searching s → bounds s ≠ [] → bounds s' = bounds s → prior_a s' = prior_a s → prior_b s' = prior_b s →
  pos_a s ≤ pos_a s' ≤ len a → pos_b s ≤ pos_b s' ≤ len b →
  (∃ c, 0 < c ∧ prefix a (pos_a s') = c * partial_size_a s' ∧ prefix b (pos_b s') = c * partial_size_b s') →
  (Forall (λ d, 1 < d) a → Forall (λ d, 1 < d) b → ∀ p, cuts p → p ∉ bounds s →
    pos_a s ≤ p.1 → pos_b s ≤ p.2 → pos_a s' ≤ p.1 ∧ pos_b s' ≤ p.2) →
  searching s'.
Proof.
  intros [Sa Sb Sc Sp Sf So Scu Sfi] Hne Eb Epa Epb Ha' Hb' Hsc Hfin.
  constructor; rewrite ?Eb; try done; [lia | lia | |].
  - destruct (bounds s) as [| q l]; [done |]. destruct Sp as (-> & H1 & H2). rewrite Epa, Epb.
    split; [done | lia].
  - intros H1 H2 q Hq. destruct (decide (q ∈ bounds s)) as [Hin | Hin]; [by left | right].
    destruct (Sfi H1 H2 q Hq) as [? | [G1 G2]]; [done |]. by apply Hfin.
Qed.

Definition may_pass_a (s : FactorState) : Prop :=
  Forall (λ d, 1 < d) a → Forall (λ d, 1 < d) b → ∀ p, cuts p → p ∉ bounds s →
    pos_a s ≤ p.1 → pos_b s ≤ p.2 → pos_a s + 1 ≤ p.1.
Definition may_pass_b (s : FactorState) : Prop :=
  Forall (λ d, 1 < d) a → Forall (λ d, 1 < d) b → ∀ p, cuts p → p ∉ bounds s →
    pos_a s ≤ p.1 → pos_b s ≤ p.2 → pos_b s + 1 ≤ p.2.

Lemma partial_step l i p c :
  Forall (λ d, 0 < d) l → prod l ≤ int64_max → 0 ≤ i < len l → 0 < c → prefix l i = c * p →
  ∃ x, at_z l i = Ok x ∧ s64 (p * x) = Ok (p * x) ∧ prefix l (i + 1) = c * (p * x).
Proof.
  intros Hl Mx Hi Hc E. destruct (at_Z l i Hi) as (x & Hx & Ex). exists x. split; [done |].
  pose proof (prefix_S l i x ltac:(lia) Hx) as Es. pose proof (prefix_max l (i + 1) Hl).
  pose proof (prefix_pos l i Hl). assert (Hx0 : 0 < x) by (rewrite Forall_lookup in Hl; by apply (Hl _ _ Hx)).
  assert (0 < p) by nia. assert (p * x ≤ c * (p * x)) by nia.
  split; [| rewrite Es, E; ring]. apply s64_in. rewrite Es, E in *. int_nia.
Qed.

Lemma advance_a_searching s :
  searching s → bounds s ≠ [] → pos_a s < len a → may_pass_a s →
  ∃ s', advance_a a s = Ok s' ∧ searching s' ∧ pos_a s' = pos_a s + 1 ∧ pos_b s' = pos_b s ∧
    bounds s' = bounds s.
Proof.
  intros Hs Hne Hlt Hfin. pose proof (se_scale _ Hs) as (c & Hc & Ea & Eb). pose proof (se_a _ Hs) as Ra.
  destruct (partial_step a (pos_a s) (partial_size_a s) c Ha Hmax ltac:(lia) Hc Ea) as (x & Ex & E1 & E2).
  unfold advance_a. rewrite Ex. cbn [mbind res_bind]. rewrite E1. cbn [mbind res_bind].
  eexists. split; [done |]. split; [| done].
  apply (searching_on s); cbn [pos_a pos_b prior_a prior_b partial_size_a partial_size_b bounds]; try done.
  - lia.
  - pose proof (se_b _ Hs). lia.
  - by exists c.
  - intros H1 H2 q Hq Hn G1 G2. split; [by apply Hfin | done].
Qed.

Lemma advance_b_searching s :
  searching s → bounds s ≠ [] → pos_b s < len b → may_pass_b s →
  ∃ s', advance_b b s = Ok s' ∧ searching s' ∧ pos_a s' = pos_a s ∧ pos_b s' = pos_b s + 1 ∧
    bounds s' = bounds s.
Proof.
  intros Hs Hne Hlt Hfin. pose proof (se_scale _ Hs) as (c & Hc & Ea & Eb). pose proof (se_b _ Hs) as Rb.
  destruct (partial_step b (pos_b s) (partial_size_b s) c Hb ltac:(lia) ltac:(lia) Hc Eb) as (x & Ex & E1 & E2).
  unfold advance_b. rewrite Ex. cbn [mbind res_bind]. rewrite E1. cbn [mbind res_bind].
  eexists. split; [done |]. split; [| done].
  apply (searching_on s); cbn [pos_a pos_b prior_a prior_b partial_size_a partial_size_b bounds]; try done.
  - pose proof (se_a _ Hs). lia.
  - lia.
  - by exists c.
  - intros H1 H2 q Hq Hn G1 G2. split; [done | by apply Hfin].
Qed.

(** Nothing is passed on the side that is behind, nor where both are even. *)
Lemma behind_a s : searching s → prefix a (pos_a s) < prefix b (pos_b s) → pos_a s < len a ∧ may_pass_a s.
Proof.
  intros Hs Hlt. pose proof (se_a _ Hs). pose proof (se_b _ Hs). split.
  - destruct (decide (pos_a s < len a)) as [| Hge]; [done |]. rewrite prefix_all in Hlt by lia.
    pose proof (prefix_max b (pos_b s) Hb). lia.
  - intros H1 H2 p (Hc1 & Hc2 & E) _ G1 G2. destruct (decide (p.1 = pos_a s)) as [Ep |]; [| lia].
    rewrite Ep in E. pose proof (prefix_le b (pos_b s) p.2 Hb). lia.
Qed.

Lemma behind_b s : searching s → prefix b (pos_b s) < prefix a (pos_a s) → pos_b s < len b ∧ may_pass_b s.
Proof.
  intros Hs Hlt. pose proof (se_a _ Hs). pose proof (se_b _ Hs). split.
  - destruct (decide (pos_b s < len b)) as [| Hge]; [done |]. rewrite (prefix_all b) in Hlt by lia.
    pose proof (prefix_max a (pos_a s) Ha). lia.
  - intros H1 H2 p (Hc1 & Hc2 & E) _ G1 G2. destruct (decide (p.2 = pos_b s)) as [Ep |]; [| lia].
    rewrite Ep in E. pose proof (prefix_le a (pos_a s) p.1 Ha). lia.
Qed.

Lemma even_pass s :
  searching s → prefix a (pos_a s) = prefix b (pos_b s) → moved s = false →
  (pos_a s, pos_b s) ∈ bounds s ∧ may_pass_a s ∧ may_pass_b s.
Proof.
  intros Hs E Hm. unfold moved in Hm. apply orb_false_iff in Hm as [M1 M2].
  rewrite Z.gtb_ltb, Z.ltb_ge in M1, M2. pose proof (se_prior _ Hs) as Sp. pose proof (se_a _ Hs). pose proof (se_b _ Hs).
  assert (Hin : (pos_a s, pos_b s) ∈ bounds s).
  { destruct (bounds s) as [| q l]; [lia |]. destruct Sp as (-> & ? & ?).
    replace (pos_a s) with (prior_a s) by lia. replace (pos_b s) with (prior_b s) by lia. by left. }
  assert (Hpass : Forall (λ d, 1 < d) a → Forall (λ d, 1 < d) b → ∀ p, cuts p → p ∉ bounds s →
    p.1 ≠ pos_a s ∧ p.2 ≠ pos_b s).
  { intros H1 H2 [p1 p2] (Hc1 & Hc2 & Ep) Hn. cbn [fst snd] in *. split; intros ->; apply Hn.
    - rewrite E in Ep. by rewrite <- (prefix_inj b (pos_b s) p2) by done.
    - rewrite <- E in Ep. by rewrite (prefix_inj a p1 (pos_a s)) by done. }
  split; [done |]. split; intros H1 H2 p Hp Hn G1 G2; destruct (Hpass H1 H2 p Hp Hn); lia.
Qed.

Definition left_to_go (s : FactorState) : Z := (len a - pos_a s) + (len b - pos_b s).

Lemma factor_step_searching s :
  searching s → bounds s ≠ [] →
  (partial_size_a s =? partial_size_b s) && moved s = false →
  (pos_a s <? len a) || (pos_b s <? len b) = true →
  ∃ s', factor_step a b s = Ok s' ∧ searching s' ∧ bounds s' = bounds s ∧ left_to_go s' < left_to_go s.
Proof.
  intros Hs Hne Hem Hin. unfold left_to_go. unfold factor_step.
  pose proof (se_a _ Hs) as Ra. pose proof (se_b _ Hs) as Rb.
  destruct (Z.lt_trichotomy (prefix a (pos_a s)) (prefix b (pos_b s))) as [Hlt | [Heq | Hgt]].
  - destruct (behind_a s Hs Hlt) as [Hla Hpass]. rewrite (proj2 (less_sizes s Hs) Hlt).
    rewrite (proj2 (Z.ltb_lt _ _) Hla).
    assert (Eb : (partial_size_b s <? partial_size_a s) = false).
    { apply not_true_iff_false. rewrite greater_sizes by done. lia. }
    assert (Ee : (partial_size_a s =? partial_size_b s) = false).
    { apply not_true_iff_false. rewrite equal_sizes by done. lia. }
    rewrite Eb, Ee. destruct (advance_a_searching s Hs Hne Hla Hpass) as (s' & E & Hs' & E1 & E2 & E3).
    assert (Hread : ∃ q, (if true && (pos_b s <? len b) then x ← at_z a (pos_a s); y ← at_z b (pos_b s); Ok (x <=? y, y <=? x)
      else Ok (false, false)) = Ok q).
    { destruct (Z.ltb_spec (pos_b s) (len b)); cbn [andb]; [| by eexists].
      destruct (at_Z a (pos_a s) ltac:(lia)) as (x & _ & ->). destruct (at_Z b (pos_b s) ltac:(lia)) as (y & _ & ->).
      by eexists. }
    destruct Hread as [q ->]. cbn [mbind res_bind orb andb negb]. rewrite E. cbn [mbind res_bind].
    rewrite andb_false_r. exists s'. split; [done |]. split; [done |]. split; [done | lia].
  - assert (Ee : (partial_size_a s =? partial_size_b s) = true) by by apply equal_sizes.
    rewrite Ee in Hem |- *. cbn [andb] in Hem. destruct (even_pass s Hs Heq Hem) as (_ & Hpa & Hpb).
    assert (Ea : (partial_size_a s <? partial_size_b s) = false).
    { apply not_true_iff_false. rewrite less_sizes by done. lia. }
    assert (Eb : (partial_size_b s <? partial_size_a s) = false).
    { apply not_true_iff_false. rewrite greater_sizes by done. lia. }
    rewrite Ea, Eb. cbn [orb andb].
    destruct (Z.ltb_spec (pos_a s) (len a)) as [Hla | Hla], (Z.ltb_spec (pos_b s) (len b)) as [Hlb | Hlb];
      cbn [andb negb orb] in *; [| | | done].
    + destruct (at_Z a (pos_a s) ltac:(lia)) as (x & _ & ->). destruct (at_Z b (pos_b s) ltac:(lia)) as (y & _ & ->).
      cbn [mbind res_bind fst snd]. destruct (Z.leb_spec x y) as [Hxy | Hxy].
      * destruct (advance_a_searching s Hs Hne Hla Hpa) as (s' & -> & Hs' & E1 & E2 & E3). cbn [mbind res_bind].
        destruct (Z.leb_spec y x).
        -- destruct (advance_b_searching s' Hs') as (s'' & -> & Hs'' & F1 & F2 & F3); [by rewrite E3 | lia | |].
           { intros H1 H2 p Hp Hn G1 G2. rewrite E2, E3 in *. apply Hpb; try done. lia. }
           exists s''. split; [done |]. split; [done |]. split; [congruence | lia].
        -- exists s'. split; [done |]. split; [done |]. split; [done | lia].
      * rewrite (proj2 (Z.leb_le y x)) by lia. cbn [mbind res_bind].
        destruct (advance_b_searching s Hs Hne Hlb Hpb) as (s' & -> & Hs' & E1 & E2 & E3).
        exists s'. split; [done |]. split; [done |]. split; [done | lia].
    + cbn [mbind res_bind fst snd]. destruct (advance_a_searching s Hs Hne Hla Hpa) as (s' & -> & Hs' & E1 & E2 & E3).
      cbn [mbind res_bind]. exists s'. split; [done |]. split; [done |]. split; [done | lia].
    + cbn [mbind res_bind fst snd]. destruct (advance_b_searching s Hs Hne Hlb Hpb) as (s' & -> & Hs' & E1 & E2 & E3).
      exists s'. split; [done |]. split; [done |]. split; [done | lia].
  - destruct (behind_b s Hs Hgt) as [Hlb Hpass]. rewrite (proj2 (greater_sizes s Hs) Hgt).
    rewrite (proj2 (Z.ltb_lt _ _) Hlb).
    assert (Ea : (partial_size_a s <? partial_size_b s) = false).
    { apply not_true_iff_false. rewrite less_sizes by done. lia. }
    assert (Ee : (partial_size_a s =? partial_size_b s) = false).
    { apply not_true_iff_false. rewrite equal_sizes by done. lia. }
    rewrite Ea, Ee. destruct (advance_b_searching s Hs Hne Hlb Hpass) as (s' & E & Hs' & E1 & E2 & E3).
    assert (Hread : ∃ q, (if (pos_a s <? len a) && true then x ← at_z a (pos_a s); y ← at_z b (pos_b s); Ok (x <=? y, y <=? x)
      else Ok (false, false)) = Ok q).
    { destruct (Z.ltb_spec (pos_a s) (len a)); cbn [andb]; [| by eexists].
      destruct (at_Z a (pos_a s) ltac:(lia)) as (x & _ & ->). destruct (at_Z b (pos_b s) ltac:(lia)) as (y & _ & ->).
      by eexists. }
    destruct Hread as [q ->]. cbn [mbind res_bind orb andb negb]. rewrite andb_false_r. cbn [mbind res_bind].
    exists s'. split; [done |]. split; [done |]. split; [done | lia].
Qed.

(** ** The search *)

Lemma searching_done s :
  searching s → bounds s ≠ [] → (partial_size_a s =? partial_size_b s) && moved s = false →
  (pos_a s <? len a) || (pos_b s <? len b) = false → common_factors (reverse (bounds s)).
Proof.
  intros Hs Hne Hem Hend. apply orb_false_iff in Hend as [L1 L2]. apply Z.ltb_ge in L1, L2.
  pose proof (se_a _ Hs). pose proof (se_b _ Hs).
  assert (Heq : prefix a (pos_a s) = prefix b (pos_b s)) by by rewrite !prefix_all by lia.
  rewrite (proj2 (equal_sizes s Hs) Heq) in Hem. cbn [andb] in Hem.
  destruct (even_pass s Hs Heq Hem) as (Hin & _ & _).
  pose proof (se_prior _ Hs) as Sp. unfold moved in Hem. apply orb_false_iff in Hem as [M1 M2].
  rewrite Z.gtb_ltb, Z.ltb_ge in M1, M2. destruct Hs as [_ _ _ _ Sf So Scu Sfi]. constructor.
  - destruct Sf as [? | Sf]; [done |]. by rewrite head_reverse.
  - rewrite last_reverse. destruct (bounds s) as [| q l]; [done |]. destruct Sp as (-> & ? & ?).
    cbn [head]. do 2 f_equal; lia.
  - by apply sorted_reverse.
  - by apply Forall_reverse.
  - intros H1 H2 p Hp. rewrite elem_of_reverse. destruct (Sfi H1 H2 p Hp) as [? | [G1 G2]]; [done |].
    destruct p as [p1 p2]. destruct Hp as (Hp1 & Hp2 & _). cbn [fst snd] in *.
    replace p1 with (pos_a s) by lia. by replace p2 with (pos_b s) by lia.
Qed.

Lemma factor_loop_searching fuel s :
  searching s → (bounds s ≠ [] ∨ moved s = true) →
  (Z.to_nat (2 * left_to_go s) + Nat.b2n (moved s) + 1 ≤ fuel)%nat →
  ∃ l, factor_loop fuel a b s = Ok l ∧ common_factors l.
Proof.
  revert s. induction fuel as [| fuel IH]; intros s Hs Hb0 Hf; [lia |]. cbn [factor_loop].
  fold (moved s). destruct ((partial_size_a s =? partial_size_b s) && moved s) eqn:Hem.
  - apply andb_true_iff in Hem as [Ee Em]. apply equal_sizes in Ee; [| done].
    destruct (emplace_searching s Hs Ee Em) as [Hs' Em']. apply IH; [done | by left |].
    rewrite Em'. rewrite Em in Hf. unfold left_to_go in *. cbn [emplace_bound pos_a pos_b]. cbn [Nat.b2n] in *. lia.
  - assert (Hne : bounds s ≠ []).
    { destruct Hb0 as [| Hm]; [done |]. intros El. pose proof (se_prior _ Hs) as Sp. rewrite El in Sp.
      destruct Sp as (_ & _ & E1 & E2). rewrite Hm, andb_true_r in Hem.
      assert (prefix a (pos_a s) = prefix b (pos_b s)) as E by by rewrite E1, E2.
      apply equal_sizes in E; [congruence | done]. }
    destruct (_ || _) eqn:Hend; cbn [negb].
    + destruct (factor_step_searching s Hs Hne Hem Hend) as (s' & -> & Hs' & Eb & Hlt). cbn [mbind res_bind].
      apply IH; [done | left; congruence |]. pose proof (se_a _ Hs'). pose proof (se_b _ Hs').
      unfold left_to_go in *. destruct (moved s'), (moved s); cbn [Nat.b2n] in *; lia.
    + eexists. split; [done |]. by apply searching_done.
Qed.

(** ** The equal dimensions at the front *)

Lemma equal_prefix_searching a' b' s :
  searching s → moved s = true → partial_size_a s = 1 → partial_size_b s = 1 →
  prefix a (pos_a s) = prefix b (pos_b s) →
  drop (Z.to_nat (pos_a s)) a = a' → drop (Z.to_nat (pos_b s)) b = b' →
  let s' := equal_prefix a' b' s in
  searching s' ∧ moved s' = true ∧ prefix a (pos_a s') = prefix b (pos_b s').
Proof.
  revert b' s. induction a' as [| x a' IH]; intros [| y b'] s Hs Hm Ea Eb Eq Da Db; cbn [equal_prefix]; try done.
  destruct (Z.eqb_spec x y) as [<- | ]; [| done].
  destruct (emplace_searching s Hs Eq Hm) as [Hse Hme].
  assert (Hxa : a !! Z.to_nat (pos_a s) = Some x).
  { rewrite <- (Nat.add_0_r (Z.to_nat (pos_a s))), <- lookup_drop, Da. done. }
  assert (Hxb : b !! Z.to_nat (pos_b s) = Some x).
  { rewrite <- (Nat.add_0_r (Z.to_nat (pos_b s))), <- lookup_drop, Db. done. }
  pose proof (se_a _ Hs) as Ra. pose proof (se_b _ Hs) as Rb.
  pose proof (lookup_lt_Some _ _ _ Hxa). pose proof (lookup_lt_Some _ _ _ Hxb).
  pose proof (prefix_S a _ _ (proj1 Ra) Hxa) as Sa. pose proof (prefix_S b _ _ (proj1 Rb) Hxb) as Sb.
  assert (Hx0 : 0 < x) by (rewrite Forall_lookup in Ha; by apply (Ha _ _ Hxa)).
  destruct (even_pass _ Hse Eq Hme) as (_ & Hpa & Hpb).
  apply IH; cbn [emplace_bound pos_a pos_b prior_a prior_b partial_size_a partial_size_b bounds]; try done.
  - apply (searching_on (emplace_bound s)); cbn [emplace_bound pos_a pos_b prior_a prior_b partial_size_a partial_size_b bounds];
      try done; [lia | lia | |].
    + exists (prefix a (pos_a s) * x). pose proof (prefix_pos a (pos_a s) Ha). rewrite Ea, Eb, Sa, Sb, Eq in *.
      split; [nia | lia].
    + intros H1 H2 q Hq Hn G1 G2. split; [by apply Hpa | by apply Hpb].
  - unfold moved. cbn. rewrite Z.gtb_ltb, (proj2 (Z.ltb_lt _ _)) by lia. done.
  - by rewrite Sa, Sb, Eq.
  - replace (Z.to_nat (pos_a s + 1)) with (S (Z.to_nat (pos_a s))) by lia.
    rewrite (drop_S _ _ _ Hxa) in Da. by injection Da.
  - replace (Z.to_nat (pos_b s + 1)) with (S (Z.to_nat (pos_b s))) by lia.
    rewrite (drop_S _ _ _ Hxb) in Db. by injection Db.
Qed.

Lemma initial_searching : searching (MkFactorState 0 0 (-1) (-1) 1 1 []).
Proof.
  constructor; cbn [pos_a pos_b prior_a prior_b partial_size_a partial_size_b bounds]; try done.
  - lia.
  - lia.
  - exists 1. rewrite !prefix_0. done.
  - by left.
  - constructor.
  - intros _ _ p (H1 & H2 & _). right. lia.
Qed.

Lemma diagonal_factors : a = b → common_factors ((λ i, (i, i)) <$> seqZ 0 (len a + 1)).
Proof.
  intros E. assert (Hseq : seqZ 0 (len a + 1) = 0 :: seqZ 1 (len a)) by (rewrite seqZ_cons by lia; do 2 f_equal; lia).
  constructor.
  - by rewrite Hseq.
  - replace (len a + 1) with (Z.of_nat (S (length a))) by lia. rewrite seqZ_S, fmap_app.
    change ((λ i, (i, i)) <$> [0 + len a]) with [(0 + len a, 0 + len a)]. by rewrite last_snoc, <- E.
  - assert (Hs : ∀ n m, StronglySorted before_cut ((λ i, (i, i)) <$> seqZ m (Z.of_nat n))).
    { induction n as [| n IH]; intros m; [constructor |]. rewrite seqZ_cons by lia. rewrite fmap_cons.
      replace (Z.pred (Z.of_nat (S n))) with (Z.of_nat n) by lia. constructor; [apply IH |].
      apply Forall_fmap, Forall_forall. intros i Hi%elem_of_seqZ. unfold before_cut. cbn.
      split; [lia |]. split; [lia |]. intros [= Ei _]. lia. }
    replace (len a + 1) with (Z.of_nat (S (length a))) by lia. apply Hs.
  - apply Forall_fmap, Forall_forall. intros i Hi%elem_of_seqZ. unfold cuts. rewrite <- E. cbn. split; [lia |]. split; [lia | done].
  - intros H1 _ [p1 p2] (Hp1 & Hp2 & Ep). rewrite <- E in Hp2, Ep. cbn [fst snd] in *.
    rewrite (prefix_inj a p1 p2) by done. apply list_elem_of_fmap. exists p2. split; [done |]. apply elem_of_seqZ. lia.
Qed.

Lemma CommonFactors_spec : ∃ l, CommonFactors a b = Ok l ∧ common_factors l.
Proof.
  unfold CommonFactors. rewrite (Product_spec a), (Product_spec b) by (done || lia). cbn [mbind res_bind].
  rewrite (proj2 (Z.eqb_eq _ _) Hprod). cbn [guard_res mbind res_bind].
  case_bool_decide as Eab; [eexists; split; [done | by apply diagonal_factors] |].
  destruct (equal_prefix_searching a b (MkFactorState 0 0 (-1) (-1) 1 1 []) initial_searching eq_refl eq_refl eq_refl
    eq_refl eq_refl eq_refl) as (Hs & Hm & Eq).
  set (s := equal_prefix a b _) in *.
  pose proof (prefix_split a (pos_a s)) as Pa. pose proof (prefix_split b (pos_b s)) as Pb.
  pose proof (prefix_pos a (pos_a s) Ha). pose proof (prefix_pos b (pos_b s) Hb).
  pose proof (prod_pos _ (Forall_drop _ (Z.to_nat (pos_a s)) _ Ha)) as Qa.
  pose proof (prod_pos _ (Forall_drop _ (Z.to_nat (pos_b s)) _ Hb)) as Qb.
  rewrite !Product_spec by (by apply Forall_drop) || nia. cbn [mbind res_bind].
  rewrite (proj2 (Z.eqb_eq _ _)) by nia. cbn [negb]. rewrite (proj2 (Z.eqb_neq _ _)) by lia.
  apply factor_loop_searching; [done | by right |].
  pose proof (se_a _ Hs). pose proof (se_b _ Hs). unfold left_to_go. rewrite Hm. cbn [Nat.b2n]. lia.
Qed.
End Lists.

End FactorProofs.
