(* ===== verification/FactorCorrect.v ===== *)
(** * Dimensions a reshape leaves alone

    The common factors of rank one are the dimensions whose index every element keeps,
    and what is inserted or deleted between them has size 1. *)
From stdpp Require Import relations.
From S2P Require Import Prelude WindowArith Types PermUtil Shape ShapeProofs Radix Layouts IndexProofs TilingProofs UntileProofs BitcastProofs Align FactorProofs.
#[local] Open Scope Z_scope.

Module UnmodifiedProofs.
Import Shape Radix Layouts IndexProofs TilingProofs FlatTiles BitcastProofs Align FactorProofs.

(** ** One index of an element *)

Lemma digits_lookup ds k j d :
  Forall (λ d, 0 < d) ds → ds !! j = Some d → digits ds k !! j = Some ((k / prod (take j ds)) mod d).
Proof.
  intros Hpos. revert k j. induction Hpos as [| e ds He Hds IH]; intros k [| j] Hd; try done.
  - injection Hd as ->. cbn [digits take]. by rewrite Z.div_1_r.
  - cbn [digits take]. cbn [lookup list_lookup] in *. rewrite (IH _ _ Hd), prod_cons, Z.div_div; [done | lia |].
    apply prod_pos. by apply Forall_take.
Qed.

(** The index of the [k]-th element, counted in the default order, along a dimension. *)
Lemma row_major_index ds k xs i d :
  Forall (λ d, 0 < d) ds → prod ds ≤ int64_max → 0 ≤ k < prod ds →
  LinearIndexToMultidimensionalIndex ds (descending (length ds)) k = Ok xs → ds !! i = Some d →
  xs !! i = Some ((k / prod (drop (S i) ds)) mod d).
Proof.
  intros Hpos Mx Hk E Hd. pose proof (lookup_lt_Some _ _ _ Hd) as Hi.
  destruct (LinearIndexToMultidimensionalIndex_spec ds (descending (length ds)) k) as (ys & E' & El & Es);
    [apply valid_descending | done | done | lia |].
  rewrite E in E'. injection E' as <-. rewrite !sel_descending in Es by done.
  rewrite <- (reverse_involutive xs), Es.
  assert (Lr : length (digits (reverse ds) k) = length ds) by by rewrite length_digits, length_reverse.
  rewrite reverse_lookup by (rewrite Lr; lia). rewrite Lr.
  rewrite (digits_lookup (reverse ds) k (length ds - S i) d).
  - rewrite take_reverse, prod_reverse. by replace (length ds - (length ds - S i))%nat with (S i) by lia.
  - by apply Forall_reverse.
  - rewrite reverse_lookup by lia. rewrite <- Hd. f_equal. lia.
Qed.

(** ** Consecutive bounds *)

Lemma rank_one_elem l p :
  p ∈ rank_one_factors l ↔ ∃ l1 l2, l = l1 ++ p :: (p.1 + 1, p.2 + 1) :: l2.
Proof.
  induction l as [| x l IH].
  { split; [by intros ?%elem_of_nil | by intros ([| ? ?] & ? & ?)]. }
  destruct l as [| y l].
  { split; [by intros ?%elem_of_nil |]. intros ([| ? [| ? ?]] & ? & E); simplify_list_eq. }
  assert (Hcons : ∀ b : bool, p ∈ (if b then x :: rank_one_factors (y :: l) else rank_one_factors (y :: l)) ↔
    (b = true ∧ p = x) ∨ p ∈ rank_one_factors (y :: l)).
  { intros []; [rewrite elem_of_cons |]; naive_solver. }
  change (rank_one_factors (x :: y :: l)) with
    (if (y.1 - x.1 =? 1) && (y.2 - x.2 =? 1) then x :: rank_one_factors (y :: l) else rank_one_factors (y :: l)).
  rewrite Hcons, IH. rewrite andb_true_iff, !Z.eqb_eq. split.
  - intros [[[E1 E2] ->] | (l1 & l2 & E)].
    + exists [], l. destruct y as [y1 y2]. cbn in *. do 3 f_equal; lia.
    + exists (x :: l1), l2. by rewrite E.
  - intros ([| z l1] & l2 & E).
    + left. cbn [app] in E. injection E as -> -> ->. cbn. split; [split; lia | done].
    + right. cbn [app] in E. injection E as -> E. by exists l1, l2.
Qed.

Lemma rank_one_sublist l : sublist (rank_one_factors l) l.
Proof.
  induction l as [| x l IH]; [constructor |]. destruct l as [| y l]; [apply sublist_nil_l |].
  change (rank_one_factors (x :: y :: l)) with
    (if (y.1 - x.1 =? 1) && (y.2 - x.2 =? 1) then x :: rank_one_factors (y :: l) else rank_one_factors (y :: l)).
  destruct (_ && _); by constructor.
Qed.

Lemma sorted_middle {A} (R : A → A → Prop) l1 x y l2 z :
  StronglySorted R (l1 ++ x :: y :: l2) → z ∈ l1 ++ x :: y :: l2 → R z x ∨ z = x ∨ z = y ∨ R y z.
Proof.
  intros Hs Hz. apply StronglySorted_app in Hs as (H1 & _ & H2). inversion H2 as [| ? ? H3 _]; subst.
  inversion H3 as [| ? ? _ H4]; subst. rewrite Forall_forall in H4.
  apply elem_of_app in Hz as [Hz | [-> | [-> | Hz]%elem_of_cons]%elem_of_cons]; eauto.
  left. apply H1; [done | by left].
Qed.

Section Lists.
Context (a b : list Z).
Hypothesis Ha : Forall (λ d, 0 < d) a.
Hypothesis Hb : Forall (λ d, 0 < d) b.
Hypothesis Hprod : prod a = prod b.
Hypothesis Hmax : prod a ≤ int64_max.

(** A dimension of the same size at a common cut. *)
Definition kept (p : Z * Z) : Prop :=
  0 ≤ p.1 ∧ 0 ≤ p.2 ∧ prefix a p.1 = prefix b p.2 ∧
  ∃ d, a !! Z.to_nat p.1 = Some d ∧ b !! Z.to_nat p.2 = Some d.

Lemma rank_one_kept l p : common_factors a b l → p ∈ rank_one_factors l → kept p.
Proof.
  intros Hl (l1 & l2 & ->)%rank_one_elem. pose proof (cf_cuts _ _ _ Hl) as Hc. rewrite Forall_forall in Hc.
  destruct (Hc p) as (P1 & P2 & Ep); [apply elem_of_app; right; by left |].
  destruct (Hc (p.1 + 1, p.2 + 1)) as (Q1 & Q2 & Eq); [apply elem_of_app; right; right; by left |].
  cbn [fst snd] in *. destruct (at_Z a p.1 ltac:(lia)) as (x & Hx & _).
  destruct (at_Z b p.2 ltac:(lia)) as (y & Hy & _). split; [lia |]. split; [lia |]. split; [done |].
  exists x. split; [done |]. rewrite (prefix_S a _ x), (prefix_S b _ y), Ep in Eq by (done || lia).
  pose proof (prefix_pos b p.2 Hb). by replace x with y by nia.
Qed.

Lemma kept_rank_one l p :
  common_factors a b l → Forall (λ d, 1 < d) a → Forall (λ d, 1 < d) b → kept p → p ∈ rank_one_factors l.
Proof.
  intros Hl Ga Gb (P1 & P2 & Ep & d & Hda & Hdb). pose proof (lookup_lt_Some _ _ _ Hda). pose proof (lookup_lt_Some _ _ _ Hdb).
  assert (Hp : p ∈ l) by (apply (cf_finest _ _ _ Hl); [done | done |]; split; [lia | split; [lia | done]]).
  assert (Hq : (p.1 + 1, p.2 + 1) ∈ l).
  { apply (cf_finest _ _ _ Hl); [done | done |]. unfold cuts. cbn [fst snd]. split; [lia |]. split; [lia |].
    by rewrite (prefix_S a _ d), (prefix_S b _ d), Ep by done. }
  apply list_elem_of_split in Hp as (l1 & l2 & ->). apply rank_one_elem.
  pose proof (cf_sorted _ _ _ Hl) as Hs. pose proof (cf_cuts _ _ _ Hl) as Hc.
  destruct l2 as [| y l2].
  { exfalso. apply elem_of_app in Hq as [Hq | [Hq | Hq%elem_of_nil]%elem_of_cons].
    - apply StronglySorted_app in Hs as (H1 & _ & _). specialize (H1 _ p Hq ltac:(by left)).
      unfold before_cut in H1. cbn in H1. lia.
    - destruct p. cbn in Hq. injection Hq. lia.
    - done. }
  exists l1, l2. do 3 f_equal. destruct (sorted_middle _ _ _ _ _ _ Hs Hq) as [R | [E | [E | R]]].
  - unfold before_cut in R. cbn in R. lia.
  - destruct p. cbn in E. injection E. lia.
  - by symmetry.
  - exfalso. apply StronglySorted_app in Hs as (_ & _ & Hs). inversion Hs as [| ? ? _ Hy]; subst.
    apply Forall_cons in Hy as [Hy _]. rewrite Forall_forall in Hc.
    destruct (Hc y) as (Y1 & Y2 & Ey); [apply elem_of_app; right; right; by left |].
    destruct p as [p1 p2], y as [y1 y2]. unfold before_cut in *. cbn [fst snd] in *.
    destruct R as (R1 & R2 & R3), Hy as (B1 & B2 & B3).
    destruct (decide (y1 = p1)) as [-> | N1].
    + rewrite Ep in Ey. apply (prefix_inj b) in Ey; [| done | lia | done]. congruence.
    + destruct (decide (y2 = p2)) as [-> | N2].
      * rewrite <- Ep in Ey. apply (prefix_inj a) in Ey; [congruence | done | done | lia].
      * apply R3. f_equal; lia.
Qed.

(** What is left of a kept dimension after it has the same product on both sides. *)
Lemma kept_suffix p :
  kept p → prod (drop (S (Z.to_nat p.1)) a) = prod (drop (S (Z.to_nat p.2)) b).
Proof.
  intros (P1 & P2 & Ep & d & Hda & Hdb).
  pose proof (prefix_split a p.1) as Sa. pose proof (prefix_split b p.2) as Sb.
  rewrite (drop_S _ _ _ Hda), prod_cons in Sa. rewrite (drop_S _ _ _ Hdb), prod_cons in Sb.
  assert (0 < d) by (rewrite Forall_lookup in Ha; by apply (Ha _ _ Hda)).
  pose proof (prefix_pos b p.2 Hb). rewrite Ep in Sa.
  apply (Z.mul_reg_l _ _ (prefix b p.2 * d)); [nia |]. lia.
Qed.

(** Every element keeps its index along a kept dimension. *)
Lemma kept_index p k xs ys :
  kept p → 0 ≤ k < prod a →
  LinearIndexToMultidimensionalIndex a (descending (length a)) k = Ok xs →
  LinearIndexToMultidimensionalIndex b (descending (length b)) k = Ok ys →
  xs !! Z.to_nat p.1 = ys !! Z.to_nat p.2.
Proof.
  intros Hp Hk Ex Ey. pose proof (kept_suffix p Hp) as Es. destruct Hp as (P1 & P2 & Ep & d & Hda & Hdb).
  rewrite (row_major_index a k xs _ d Ha Hmax Hk Ex Hda).
  rewrite (row_major_index b k ys _ d Hb ltac:(lia) ltac:(lia) Ey Hdb). by rewrite Es.
Qed.
End Lists.

(** ** Gaps between kept dimensions *)

(** The positions of [prior + 1, ..., n - 1] that are not listed. *)
Fixpoint gaps (prior : Z) (us : list Z) (n : Z) : list Z :=
  match us with
  | [] => seqZ (prior + 1) (n - prior - 1)
  | u :: us => seqZ (prior + 1) (u - prior - 1) ++ gaps u us n
  end.

(** The listed positions increase from above [prior] to below [n]. *)
Fixpoint rising (prior : Z) (us : list Z) (n : Z) : Prop :=
  match us with
  | [] => prior < n
  | u :: us => prior < u ∧ rising u us n
  end.

Lemma rising_lt prior us n : rising prior us n → prior < n.
Proof. revert prior. induction us as [| u us IH]; intros prior H; [done |]. destruct H as [H1 H2%IH]. lia. Qed.

Lemma gaps_above prior us n x : rising prior us n → x ∈ gaps prior us n → prior < x < n.
Proof.
  revert prior. induction us as [| u us IH]; intros prior Hr Hx; cbn [gaps] in Hx.
  - apply elem_of_seqZ in Hx. lia.
  - destruct Hr as [H1 H2]. apply elem_of_app in Hx as [Hx%elem_of_seqZ | Hx].
    + pose proof (rising_lt _ _ _ H2). lia.
    + pose proof (IH u H2 Hx). lia.
Qed.

Lemma RemoveElements_run {A} i c rest (l : list A) :
  (c ≤ length l)%nat →
  RemoveElements i (seqZ i (Z.of_nat c) ++ rest) l = RemoveElements (i + Z.of_nat c) rest (drop c l).
Proof.
  revert i l. induction c as [| c IH]; intros i l Hl.
  - cbn [seqZ app drop]. rewrite Z.add_0_r. done.
  - destruct l as [| x l]; [cbn in Hl; lia |]. rewrite seqZ_cons by lia.
    replace (Z.pred (Z.of_nat (S c))) with (Z.of_nat c) by lia. cbn [app RemoveElements drop].
    rewrite Z.eqb_refl. replace (Z.succ i) with (i + 1) by lia. rewrite IH by (cbn in Hl; lia). f_equal. lia.
Qed.

Lemma RemoveElements_none {A} i (l : list A) : RemoveElements i [] l = l.
Proof. revert i. induction l as [| x l IH]; intros i; cbn; [done | by rewrite IH]. Qed.

Lemma RemoveElements_gaps (l : list Z) prior us :
  -1 ≤ prior → rising prior us (len l) →
  RemoveElements (prior + 1) (gaps prior us (len l)) (drop (Z.to_nat (prior + 1)) l) = sel l us.
Proof.
  revert prior. induction us as [| u us IH]; intros prior Hp Hr; cbn [gaps rising] in *.
  - rewrite <- (app_nil_r (seqZ _ _)).
    replace (len l - prior - 1) with (Z.of_nat (length (drop (Z.to_nat (prior + 1)) l)))
      by (rewrite length_drop; lia).
    rewrite RemoveElements_run by done. rewrite RemoveElements_none. by rewrite drop_ge by lia.
  - destruct Hr as [H1 H2]. pose proof (rising_lt _ _ _ H2).
    replace (u - prior - 1) with (Z.of_nat (Z.to_nat (u - prior - 1))) by lia.
    rewrite RemoveElements_run by (rewrite length_drop; lia). rewrite drop_drop.
    replace (Z.to_nat (prior + 1) + Z.to_nat (u - prior - 1))%nat with (Z.to_nat u) by lia.
    replace (prior + 1 + Z.of_nat (Z.to_nat (u - prior - 1))) with u by lia.
    assert (Hu : l !! Z.to_nat u = Some (l !!! Z.to_nat u)) by (apply list_lookup_lookup_total_lt; lia).
    rewrite (drop_S _ _ _ Hu), sel_cons. rewrite <- (IH u) by (done || lia).
    replace (Z.to_nat (u + 1)) with (S (Z.to_nat u)) by lia. cbn [RemoveElements].
    destruct (gaps u us (len l)) as [| g gs] eqn:Eg; [done |].
    pose proof (gaps_above u us (len l) g H2) as Hg. rewrite Eg in Hg. specialize (Hg ltac:(by left)).
    by rewrite (proj2 (Z.eqb_neq g u)) by lia.
Qed.

(** ** The check of the gaps *)

Lemma check_modified_spec ds prior next :
  -1 ≤ prior → next ≤ len ds →
  ∃ r, check_modified ds prior next = Ok r ∧
    match r with
    | Some gap => gap = seqZ (prior + 1) (next - prior - 1) ∧ ∀ x, x ∈ gap → ds !!! Z.to_nat x ≤ 1
    | None => ∃ x, prior < x < next ∧ 1 < ds !!! Z.to_nat x
    end.
Proof.
  intros Hp Hn. unfold check_modified. set (gap := seqZ _ _).
  assert (Hr : in_range ds gap) by (intros x Hx%elem_of_seqZ; lia).
  rewrite mapM_at by done. cbn [mbind res_bind].
  destruct (existsb (λ n, n >? 1) (sel ds gap)) eqn:E; eexists; (split; [done |]).
  - apply existsb_exists in E as (n & Hn' & Hgt). apply list_elem_of_In in Hn'.
    apply list_elem_of_fmap in Hn' as (x & -> & Hx). apply elem_of_seqZ in Hx. exists x. lia.
  - split; [done |]. intros x Hx. destruct (decide (ds !!! Z.to_nat x ≤ 1)) as [| Hgt]; [done | exfalso].
    apply not_true_iff_false in E. apply E, existsb_exists. exists (ds !!! Z.to_nat x).
    split; [| lia]. apply list_elem_of_In. apply list_elem_of_fmap. by exists x.
Qed.

Lemma check_gaps_spec pre post prior u del ins :
  -1 ≤ prior.1 → -1 ≤ prior.2 → rising prior.1 u.*1 (len pre) → rising prior.2 u.*2 (len post) →
  ∃ r, check_gaps pre post prior u del ins = Ok r ∧
    match r with
    | Some (d, i) => d = del ++ gaps prior.1 u.*1 (len pre) ∧ i = ins ++ gaps prior.2 u.*2 (len post) ∧
        (∀ x, x ∈ gaps prior.1 u.*1 (len pre) → pre !!! Z.to_nat x ≤ 1) ∧
        (∀ x, x ∈ gaps prior.2 u.*2 (len post) → post !!! Z.to_nat x ≤ 1)
    | None => (∃ x, x ∈ gaps prior.1 u.*1 (len pre) ∧ 1 < pre !!! Z.to_nat x) ∨
        (∃ x, x ∈ gaps prior.2 u.*2 (len post) ∧ 1 < post !!! Z.to_nat x)
    end.
Proof.
  revert prior del ins. induction u as [| p u IH]; intros prior del ins P1 P2 R1 R2; cbn [check_gaps].
  - cbn [fmap list_fmap gaps rising fst snd] in *.
    destruct (check_modified_spec pre prior.1 (len pre)) as (r1 & -> & H1); [done | done |]. cbn [mbind res_bind].
    destruct r1 as [d |]; [| eexists; split; [done |]; left; destruct H1 as (x & Hx & Hgt); exists x;
      split; [apply elem_of_seqZ; lia | done]].
    destruct (check_modified_spec post prior.2 (len post)) as (r2 & -> & H2); [done | done |]. cbn [mbind res_bind].
    destruct r2 as [i |]; [| eexists; split; [done |]; right; destruct H2 as (x & Hx & Hgt); exists x;
      split; [apply elem_of_seqZ; lia | done]].
    eexists. split; [done |]. destruct H1 as [-> H1], H2 as [-> H2]. done.
  - cbn [fmap list_fmap gaps rising fst snd] in *. destruct R1 as [L1 R1], R2 as [L2 R2].
    pose proof (rising_lt _ _ _ R1). pose proof (rising_lt _ _ _ R2).
    destruct (check_modified_spec pre prior.1 p.1) as (r1 & -> & H1); [done | lia |]. cbn [mbind res_bind].
    destruct r1 as [d |]; [| eexists; split; [done |]; left; destruct H1 as (x & Hx & Hgt); exists x;
      split; [apply elem_of_app; left; apply elem_of_seqZ; lia | done]].
    destruct (check_modified_spec post prior.2 p.2) as (r2 & -> & H2); [done | lia |]. cbn [mbind res_bind].
    destruct r2 as [i |]; [| eexists; split; [done |]; right; destruct H2 as (x & Hx & Hgt); exists x;
      split; [apply elem_of_app; left; apply elem_of_seqZ; lia | done]].
    destruct (IH p (del ++ d) (ins ++ i)) as (r & -> & Hr); [lia | lia | done | done |].
    exists r. split; [done |]. destruct H1 as [-> H1], H2 as [-> H2]. destruct r as [[d' i'] |].
    + destruct Hr as (-> & -> & G1 & G2). rewrite <- !app_assoc. split; [done |]. split; [done |].
      split; intros x [Hx | Hx]%elem_of_app; auto.
    + destruct Hr as [(x & Hx & Hgt) | (x & Hx & Hgt)]; [left | right]; exists x; (split; [apply elem_of_app; by right | done]).
Qed.

(** The kept dimensions rise on both sides. *)
Lemma rank_one_rising a b l :
  common_factors a b l → rising (-1) (rank_one_factors l).*1 (len a) ∧ rising (-1) (rank_one_factors l).*2 (len b).
Proof.
  intros Hl. pose proof (cf_sorted _ _ _ Hl) as Hs. pose proof (cf_cuts _ _ _ Hl) as Hc.
  assert (Hgen : ∀ l q1 q2, StronglySorted before_cut l → Forall (cuts a b) l →
    match l with [] => q1 < len a ∧ q2 < len b | x :: _ => q1 < x.1 ∧ q2 < x.2 end →
    rising q1 (rank_one_factors l).*1 (len a) ∧ rising q2 (rank_one_factors l).*2 (len b)).
  { clear. intros l. induction l as [| x l IH]; intros q1 q2 Hs Hc Hq; [done |].
    apply Forall_cons in Hc as [(X1 & X2 & _) Hc]. inversion Hs as [| ? ? Hs' Hx]; subst.
    destruct l as [| y l]; [cbn [rank_one_factors fmap list_fmap rising]; lia |].
    change (rank_one_factors (x :: y :: l)) with
      (if (y.1 - x.1 =? 1) && (y.2 - x.2 =? 1) then x :: rank_one_factors (y :: l) else rank_one_factors (y :: l)).
    apply Forall_cons in Hx as [(B1 & B2 & _) _].
    destruct (_ && _) eqn:E.
    - apply andb_true_iff in E as [E1 E2]. rewrite !Z.eqb_eq in *. cbn [fmap list_fmap rising].
      destruct (IH x.1 x.2 Hs' Hc) as [I1 I2]; [lia |]. split; split; (lia || done).
    - apply IH; [done | done | lia]. }
  apply Hgen; [done | done |]. pose proof (cf_first _ _ _ Hl) as Hf. destruct l as [| x l]; [done |].
  cbn in Hf. injection Hf as ->. cbn. lia.
Qed.

End UnmodifiedProofs.

(** ** Common factors: the properties

    What [CommonFactors] and the analyses of reshapes built on it promise, each with a
    concrete instance. *)
Module FactorCorrect.
Import Types PermUtil Shape ShapeProofs Radix Layouts IndexProofs TilingProofs FlatTiles BitcastProofs.
Import Align FactorProofs UnmodifiedProofs.

(** Two lists of dimension sizes with as many elements, none of them empty. *)
Definition reshaped (a b : list Z) : Prop :=
  Forall (λ d, 0 < d) a ∧ Forall (λ d, 0 < d) b ∧ prod a = prod b ∧ prod a ≤ int64_max.

Ltac reshaped := split; [repeat constructor; lia | split; [repeat constructor; lia | by vm_compute]].

(** [CommonFactors] ends with bounds that cut both lists into as many parts of the same
    product, the first bound at the start and the last one at the end; without sizes of 1
    every place where both lists can be cut is a bound. *)
Theorem CommonFactors_cuts a b :
  reshaped a b → ∃ l, CommonFactors a b = Ok l ∧ common_factors a b l.
Proof. intros (Ha & Hb & E & Hmax). by apply CommonFactors_spec. Qed.

Example CommonFactors_cuts_witness :
  reshaped [2; 6; 5; 7] [3; 4; 35] ∧
  ∃ l, CommonFactors [2; 6; 5; 7] [3; 4; 35] = Ok l ∧ common_factors [2; 6; 5; 7] [3; 4; 35] l.
Proof.
  assert (H : reshaped [2; 6; 5; 7] [3; 4; 35]) by reshaped.
  split; [exact H | exact (CommonFactors_cuts _ _ H)].
Defined.

(** The bounds of that instance, and a size of 1 that leaves a possible cut out. *)
Example CommonFactors_demo :
  CommonFactors [2; 6; 5; 7] [3; 4; 35] = Ok [(0, 0); (2, 2); (4, 3)] ∧
  CommonFactors [1; 1; 4] [4] = Ok [(0, 0); (1, 0); (2, 0); (3, 1)].
Proof. split; reflexivity. Qed.

(** The index of the [k]-th element of a shape along a dimension. *)
Definition element_index (ds : list Z) (k dim : Z) : option Z :=
  match LinearIndexToMultidimensionalIndex ds (descending (length ds)) k with
  | Ok xs => xs !! Z.to_nat dim
  | Fail _ => None
  end.

Lemma kept_element_index a b p k :
  reshaped a b → kept a b p → 0 ≤ k < prod a →
  element_index a k p.1 = element_index b k p.2 ∧ element_index a k p.1 ≠ None.
Proof.
  intros (Ha & Hb & E & Hmax) Hp Hk. unfold element_index.
  destruct (LinearIndexToMultidimensionalIndex_spec a (descending (length a)) k) as (xs & Ex & _);
    [apply valid_descending | done | done | lia |].
  destruct (LinearIndexToMultidimensionalIndex_spec b (descending (length b)) k) as (ys & Ey & _);
    [apply valid_descending | done | by rewrite <- E | lia |].
  rewrite Ex, Ey. split; [by eapply (kept_index a b) |].
  destruct Hp as (_ & _ & _ & d & Hd & _). by rewrite (row_major_index a k xs _ d Ha Hmax Hk Ex Hd).
Qed.

(** The pairs of dimensions that [DimensionsUnmodifiedByReshape] finds have the same
    size, and every element has the same index along both; when no dimension has size 1 it
    finds every pair of dimensions of one size with as many elements before it. *)
Theorem DimensionsUnmodifiedByReshape_kept s t :
  reshaped (sizes s) (sizes t) →
  ∃ u, DimensionsUnmodifiedByReshape s t = Ok u ∧
    (∀ p, p ∈ u → sizes s !! Z.to_nat p.1 = sizes t !! Z.to_nat p.2 ∧
       ∀ k, 0 ≤ k < prod (sizes s) →
         element_index (sizes s) k p.1 = element_index (sizes t) k p.2 ∧
         element_index (sizes s) k p.1 ≠ None) ∧
    (Forall (λ d, 1 < d) (sizes s) → Forall (λ d, 1 < d) (sizes t) →
     ∀ p, kept (sizes s) (sizes t) p → p ∈ u).
Proof.
  intros Hr. pose proof Hr as (Ha & Hb & E & Hmax).
  destruct (CommonFactors_spec (sizes s) (sizes t)) as (l & El & Hl); [done .. |].
  exists (rank_one_factors l). unfold DimensionsUnmodifiedByReshape. rewrite El. split; [done |]. split.
  - intros p Hp0. pose proof (rank_one_kept _ _ Hb l p Hl Hp0) as Hp. split; [| intros k Hk; by apply kept_element_index].
    destruct Hp as (_ & _ & _ & d & -> & ->). done.
  - intros Ga Gb p. by apply kept_rank_one.
Qed.

Example DimensionsUnmodifiedByReshape_kept_witness :
  let s := static_array F32 [5; 2; 3; 7] in let t := static_array F32 [5; 6; 7] in
  reshaped (sizes s) (sizes t) ∧ ∃ u, DimensionsUnmodifiedByReshape s t = Ok u ∧ (3, 2) ∈ u.
Proof.
  cbn zeta. assert (H : reshaped (sizes (static_array F32 [5; 2; 3; 7])) (sizes (static_array F32 [5; 6; 7])))
    by (rewrite !static_sizes; reshaped).
  split; [exact H |]. destruct (DimensionsUnmodifiedByReshape_kept _ _ H) as (u & E & _ & Hall).
  exists u. split; [exact E |]. apply Hall; rewrite !static_sizes; [repeat constructor; lia .. |].
  split; [cbn; lia |]. split; [cbn; lia |]. split; [reflexivity | exists 7; split; reflexivity].
Defined.

(** The kept dimensions, as two lists, have the same sizes. *)
Lemma kept_sizes a b u : (∀ p, p ∈ u → kept a b p) → sel a u.*1 = sel b u.*2.
Proof.
  induction u as [| p u IH]; intros H; [done |]. cbn [fmap list_fmap]. rewrite !sel_cons. f_equal.
  - destruct (H p ltac:(by left)) as (_ & _ & _ & d & Hd & He).
    by rewrite (list_lookup_total_correct _ _ _ Hd), (list_lookup_total_correct _ _ _ He).
  - apply IH. intros q Hq. apply H. by right.
Qed.

(** when [InsertedOrDeleted1SizedDimensions] sees only insertions and deletions of
    dimensions of size 1, the reported dimensions do have size 1, and what is left of both
    shapes without them is the same. *)
Theorem InsertedOrDeleted1SizedDimensions_exact s t :
  reshaped (sizes s) (sizes t) →
  ∃ r, InsertedOrDeleted1SizedDimensions s t = Ok r ∧
    ∀ deleted inserted, r = Some (deleted, inserted) →
      RemoveElements 0 deleted (sizes s) = RemoveElements 0 inserted (sizes t) ∧
      (∀ d, d ∈ deleted → sizes s !! Z.to_nat d = Some 1) ∧
      (∀ d, d ∈ inserted → sizes t !! Z.to_nat d = Some 1).
Proof.
  intros (Ha & Hb & E & Hmax). unfold InsertedOrDeleted1SizedDimensions, DimensionsUnmodifiedByReshape.
  destruct (CommonFactors_spec (sizes s) (sizes t)) as (l & El & Hl); [done .. |].
  rewrite El. cbn [mbind res_bind]. destruct (rank_one_rising _ _ _ Hl) as [R1 R2].
  destruct (check_gaps_spec (sizes s) (sizes t) (-1, -1) (rank_one_factors l) [] [])
    as (r & Er & Hr); [done | done | exact R1 | exact R2 |].
  exists r. split; [exact Er |]. intros d i ->. destruct Hr as (-> & -> & Hd & Hi). cbn [fst snd app] in *.
  split.
  - pose proof (RemoveElements_gaps (sizes s) (-1) _ ltac:(lia) R1) as G1.
    pose proof (RemoveElements_gaps (sizes t) (-1) _ ltac:(lia) R2) as G2.
    change (RemoveElements 0 (gaps (-1) (rank_one_factors l).*1 (len (sizes s))) (sizes s) =
      sel (sizes s) (rank_one_factors l).*1) in G1.
    change (RemoveElements 0 (gaps (-1) (rank_one_factors l).*2 (len (sizes t))) (sizes t) =
      sel (sizes t) (rank_one_factors l).*2) in G2.
    rewrite G1, G2. apply kept_sizes. intros p Hp. by apply (rank_one_kept _ _ Hb l).
  - assert (Hone : ∀ ds us x, Forall (λ d, 0 < d) ds → rising (-1) us (len ds) → x ∈ gaps (-1) us (len ds) →
      ds !!! Z.to_nat x ≤ 1 → ds !! Z.to_nat x = Some 1).
    { intros ds us x Hp Hr Hx Hle. pose proof (gaps_above _ _ _ _ Hr Hx) as Hb'.
      destruct (at_Z ds x ltac:(lia)) as (y & Hy & _). rewrite (list_lookup_total_correct _ _ _ Hy) in Hle.
      rewrite Hy. f_equal. pose proof (proj1 (Forall_lookup _ _) Hp _ _ Hy) as H0. cbn beta in H0. lia. }
    split; intros x Hx; eapply Hone; eauto.
Qed.

Example InsertedOrDeleted1SizedDimensions_exact_witness :
  let s := static_array F32 [1; 4; 6] in let t := static_array F32 [4; 1; 1; 6] in
  reshaped (sizes s) (sizes t) ∧ InsertedOrDeleted1SizedDimensions s t = Ok (Some ([0], [1; 2])) ∧
  RemoveElements 0 [0] (sizes s) = RemoveElements 0 [1; 2] (sizes t).
Proof.
  cbn zeta. assert (H : reshaped (sizes (static_array F32 [1; 4; 6])) (sizes (static_array F32 [4; 1; 1; 6])))
    by (rewrite !static_sizes; reshaped).
  split; [exact H |]. destruct (InsertedOrDeleted1SizedDimensions_exact _ _ H) as (r & E & Hr).
  assert (Er : InsertedOrDeleted1SizedDimensions (static_array F32 [1; 4; 6]) (static_array F32 [4; 1; 1; 6]) =
    Ok (Some ([0], [1; 2]))) by reflexivity.
  split; [exact Er |]. rewrite Er in E. injection E as <-. exact (proj1 (Hr _ _ eq_refl)).
Defined.

End FactorCorrect.
