(* ===== verification/Arrays.v ===== *)
(** * Dense arrays

    Models [Array] of [xla/array.h]: the sizes of the dimensions and the values, the last
    dimension changing fastest. *)
From S2P Require Import Prelude PermUtil.
#[local] Open Scope Z_scope.

Module Arrays.
Import PermUtil.

Record Array (A : Type) := MkArray { sizes_ : list Z; values_ : list A }.
#[global] Arguments MkArray {A} _ _.
#[global] Arguments sizes_ {A} _.
#[global] Arguments values_ {A} _.

(** ** Sizes and indices *)

Fixpoint accumulate (acc : Z) (sizes : list Z) : res Z :=
  match sizes with
  | [] => Ok acc
  | d :: sizes => acc ← s64 (acc * d); accumulate acc sizes
  end.

Definition calculate_elements (sizes : list Z) : res Z := accumulate 1 sizes.

Fixpoint index_loop (index : Z) (sizes indexes : list Z) : res Z :=
  match sizes with
  | [] => Ok index
  | d :: sizes =>
      match indexes with
      | [] => Fail Undefined
      | i :: indexes =>
          index ← s64 (index * d);
          index ← s64 (index + i);
          index_loop index sizes indexes
      end
  end.

Definition calculate_index (sizes indexes : list Z) : res Z := index_loop 0 sizes indexes.

(** [next_index], from dimension [i_plus_1 - 1] down. *)
Fixpoint next_index_loop (i_plus_1 : nat) (sizes index : list Z) : res (bool * list Z) :=
  match i_plus_1 with
  | O => Ok (false, index)
  | S i =>
      x ← at_res index i;
      d ← at_res sizes i;
      new_index ← s64 (x + 1);
      if new_index <? d then Ok (true, <[i := new_index]> index)
      else next_index_loop i sizes (<[i := 0]> index)
  end.

Definition next_index (sizes index : list Z) : res (bool * list Z) :=
  next_index_loop (length sizes) sizes index.

(** Every value lies in its range. *)
Fixpoint all_inside_range (values starts ends : list Z) : res bool :=
  match values with
  | [] => Ok true
  | v :: values =>
      match starts, ends with
      | b :: starts, e :: ends => if (v <? b) || (v >=? e) then Ok false else all_inside_range values starts ends
      | _, _ => Fail Undefined
      end
  end.

Section Arrays.
Context {A : Type}.
Implicit Types a : Array A.

(** ** Making and reading *)

(** A negative number of elements cannot be allocated. *)
Definition make (sizes : list Z) (value : A) : res (Array A) :=
  n ← calculate_elements sizes;
  guard_res (0 <=? n) Undefined;;
  Ok (MkArray sizes (replicate (Z.to_nat n) value)).

Definition make_from (sizes : list Z) (flattened_values : list A) : res (Array A) :=
  n ← calculate_elements sizes;
  guard_res (Z.of_nat (length flattened_values) =? n) CheckFailed;;
  Ok (MkArray sizes flattened_values).

Definition num_elements a : Z := Z.of_nat (length (values_ a)).
Definition num_dimensions a : Z := Z.of_nat (length (sizes_ a)).
Definition dim a (n : Z) : res Z := at_z (sizes_ a) n.

(** [operator()]. *)
Definition element a (indexes : list Z) : res A :=
  guard_res (Z.of_nat (length indexes) =? num_dimensions a) CheckFailed;;
  i ← calculate_index (sizes_ a) indexes;
  at_z (values_ a) i.

(** What [Each] calls its function with, in order. *)
Fixpoint each_loop (sizes index : list Z) (values : list A) : res (list (list Z * A)) :=
  match values with
  | [] => Ok []
  | v :: values =>
      '(_, next) ← next_index sizes index;
      rest ← each_loop sizes next values;
      Ok ((index, v) :: rest)
  end.

Definition Each a : res (list (list Z * A)) :=
  each_loop (sizes_ a) (replicate (length (sizes_ a)) 0) (values_ a).

(** [EachStatus]: the first error stops the calls. *)
Fixpoint each_status_loop {E} (f : list Z → A → option E) (sizes index : list Z) (values : list A) : res (option E) :=
  match values with
  | [] => Ok None
  | v :: values =>
      match f index v with
      | Some e => Ok (Some e)
      | None => '(_, next) ← next_index sizes index; each_status_loop f sizes next values
      end
  end.

Definition EachStatus {E} (f : list Z → A → option E) a : res (option E) :=
  each_status_loop f (sizes_ a) (replicate (length (sizes_ a)) 0) (values_ a).

(** [operator==] with the equality of the values. *)
Fixpoint values_equal (eqb : A → A → bool) (xs ys : list A) : res bool :=
  match xs with
  | [] => Ok true
  | x :: xs =>
      match ys with
      | [] => Fail Undefined
      | y :: ys => if eqb x y then values_equal eqb xs ys else Ok false
      end
  end.

Definition equal (eqb : A → A → bool) a (other : Array A) : res bool :=
  if bool_decide (sizes_ a = sizes_ other) then values_equal eqb (values_ a) (values_ other) else Ok false.

(** ** Changing *)

Definition Fill (value : A) a : Array A := MkArray (sizes_ a) (replicate (length (values_ a)) value).

Definition Reshape (new_dimensions : list Z) a : res (Array A) :=
  n ← calculate_elements new_dimensions;
  guard_res (n =? num_elements a) CheckFailed;;
  Ok (MkArray new_dimensions (values_ a)).

(** The assignment to an element of a buffer, with an index of type [size_t]. *)
Definition store (out : list A) (i : Z) (v : A) : res (list A) :=
  at_z out i;; Ok (<[Z.to_nat i := v]> out).

(** [TransposeDimensionsImpl2D]: the inner loop, and the outer one from row [i0] on. *)
Fixpoint transpose_row (n : nat) (size0 dst : Z) (src out : list A) : res (list A * list A) :=
  match n with
  | O => Ok (src, out)
  | S n =>
      match src with
      | [] => Fail Undefined
      | v :: src => out ← store out dst v; transpose_row n size0 (wrap_u64 (dst + size0)) src out
      end
  end.

Fixpoint transpose_rows (n : nat) (size0 size1 i0 : Z) (src out : list A) : res (list A) :=
  match n with
  | O => Ok out
  | S n => '(src, out) ← transpose_row (Z.to_nat size1) size0 i0 src out; transpose_rows n size0 size1 (i0 + 1) src out
  end.

Definition TransposeDimensionsImpl2D a (permuted : list A) : res (list A) :=
  size0 ← dim a 0;
  size1 ← dim a 1;
  transpose_rows (Z.to_nat size0) size0 size1 0 (values_ a) permuted.

(** The stride of every dimension, from the last one on. *)
Fixpoint strides_of (dims : list Z) : Z * list Z :=
  match dims with
  | [] => (1, [])
  | d :: dims => let '(n, strides) := strides_of dims in (wrap_u64 (n * d), n :: strides)
  end.

(** Where the loop over the elements of the source is. *)
Record Cursor := MkCursor {
  dst_value_index : Z; dst_value_index_stack : list Z; src_indexes : list Z
}.

(** The last dimension that has room, among the first [dim_index_plus_1]. *)
Fixpoint advance_cursor (dim_index_plus_1 : nat) (sizes strides : list Z) (c : Cursor) : res Cursor :=
  match dim_index_plus_1 with
  | O => Fail Undefined
  | S k =>
      x ← at_res (src_indexes c) k;
      d ← at_res sizes k;
      let new_index := wrap_u64 (x + 1) in
      if new_index <? d then
        top ← at_res (dst_value_index_stack c) k;
        t ← at_res strides k;
        let dst := wrap_u64 (top + t) in
        let rest := (length sizes - S k)%nat in
        Ok (MkCursor dst (take k (dst_value_index_stack c) ++ dst :: replicate rest dst)
              (take k (src_indexes c) ++ new_index :: replicate rest 0))
      else advance_cursor k sizes strides c
  end.

Fixpoint transpose_loop (sizes strides : list Z) (src : list A) (c : Cursor) (out : list A) : res (list A) :=
  match src with
  | [] => Fail Undefined
  | v :: src =>
      out ← store out (dst_value_index c) v;
      match src with
      | [] => Ok out
      | _ => c ← advance_cursor (length sizes) sizes strides c; transpose_loop sizes strides src c out
      end
  end.

(** The stride of every dimension of the source in the result. *)
Definition TransposeDimensionsImpl3DOrMore (permutation permuted_dims : list Z) a (permuted : list A) : res (list A) :=
  match values_ a with
  | [] => Ok permuted
  | _ =>
      let n := length (sizes_ a) in
      guard_res (negb (n =? 0)%nat) Undefined;;
      strides ← scatter (strides_of permuted_dims).2 permutation (replicate n 0);
      transpose_loop (sizes_ a) strides (values_ a) (MkCursor 0 (replicate n 0) (replicate n 0)) permuted
  end.

(** The buffer of the result is not initialised; it holds [uninitialized] here. *)
Definition TransposeDimensions (uninitialized : A) (permutation : list Z) a : res (Array A) :=
  guard_res (length (sizes_ a) =? length permutation)%nat CheckFailed;;
  if IsIdentityPermutation permutation then Ok a
  else
    permuted_dims ← mapM (at_z (sizes_ a)) permutation;
    permuted ← make permuted_dims uninitialized;
    values ← (if (length (sizes_ a) =? 2)%nat then TransposeDimensionsImpl2D a (values_ permuted)
              else TransposeDimensionsImpl3DOrMore permutation permuted_dims a (values_ permuted));
    Ok (MkArray permuted_dims values).

(** ** Parts *)

(** The size of the part in every dimension. *)
Fixpoint slice_sizes (bounded : bool) (sizes starts limits : list Z) : res (list Z) :=
  match starts, limits with
  | b :: starts, e :: limits =>
      guard_res (0 <=? b) CheckFailed;;
      (if bounded then
         match sizes with d :: _ => guard_res (e <=? d) CheckFailed | [] => Fail Undefined end
       else Ok tt);;
      n ← s64 (e - b);
      rest ← slice_sizes bounded (tail sizes) starts limits;
      Ok (n :: rest)
  | [], _ => Ok []
  | _, [] => Fail Undefined
  end.

(** The values of the elements inside the range are written one after the other. *)
Fixpoint slice_loop (sizes index starts limits : list Z) (values : list A) (slice_i : Z) (out : list A) : res (list A) :=
  match values with
  | [] => Ok out
  | v :: values =>
      inside ← all_inside_range index starts limits;
      out ← (if (inside : bool) then store out slice_i v else Ok out);
      '(_, next) ← next_index sizes index;
      slice_loop sizes next starts limits values (if (inside : bool) then slice_i + 1 else slice_i) out
  end.

Definition Slice (initial : A) (starts limits : list Z) (out_of_bounds_value : option A) a : res (Array A) :=
  guard_res (length starts =? length (sizes_ a))%nat CheckFailed;;
  guard_res (length limits =? length (sizes_ a))%nat CheckFailed;;
  sizes ← slice_sizes (match out_of_bounds_value with None => true | Some _ => false end) (sizes_ a) starts limits;
  result ← make sizes (default initial out_of_bounds_value);
  match values_ result with
  | [] => Ok result
  | _ =>
      values ← slice_loop (sizes_ a) (replicate (length (sizes_ a)) 0) starts limits (values_ a) 0 (values_ result);
      Ok (MkArray sizes values)
  end.

Fixpoint update_loop (sizes index starts limits : list Z) (values from : list A) : res (list A) :=
  match values with
  | [] => Ok []
  | v :: values =>
      inside ← all_inside_range index starts limits;
      '(_, next) ← next_index sizes index;
      if (inside : bool) then
        match from with
        | w :: from => rest ← update_loop sizes next starts limits values from; Ok (w :: rest)
        | [] => Fail Undefined
        end
      else rest ← update_loop sizes next starts limits values from; Ok (v :: rest)
  end.

(** The end of the part in every dimension. *)
Fixpoint update_limits (sizes starts : list Z) : res (list Z) :=
  match starts with
  | [] => Ok []
  | b :: starts =>
      match sizes with
      | [] => Fail Undefined
      | d :: sizes => e ← s64 (d + b); rest ← update_limits sizes starts; Ok (e :: rest)
      end
  end.

Definition UpdateSlice (from : Array A) (start_indices : list Z) a : res (Array A) :=
  guard_res (length (sizes_ from) =? length (sizes_ a))%nat CheckFailed;;
  limit_indices ← update_limits (sizes_ from) start_indices;
  values ← update_loop (sizes_ a) (replicate (length (sizes_ a)) 0) start_indices limit_indices (values_ a) (values_ from);
  Ok (MkArray (sizes_ a) values).
End Arrays.

(** ** Arrays of integers *)

(** [std::iota]; the value is incremented after the last element too. *)
Fixpoint iota (n : nat) (value : Z) : res (list Z) :=
  match n with
  | O => Ok []
  | S n => next ← s64 (value + 1); rest ← iota n next; Ok (value :: rest)
  end.

Definition FillIota (value : Z) (a : Array Z) : res (Array Z) :=
  values ← iota (length (values_ a)) value; Ok (MkArray (sizes_ a) values).

Example transpose_3d :
  (a ← make [2; 3; 2] 0; a ← FillIota 0 a; TransposeDimensions 7 [1; 2; 0] a) =
  Ok (MkArray [3; 2; 2] [0; 6; 1; 7; 2; 8; 3; 9; 4; 10; 5; 11]).
Proof. vm_compute. reflexivity. Qed.

Example transpose_2d :
  (a ← make [2; 3] 0; a ← FillIota 0 a; TransposeDimensions 7 [1; 0] a) = Ok (MkArray [3; 2] [0; 3; 1; 4; 2; 5]).
Proof. vm_compute. reflexivity. Qed.
End Arrays.
