(* ===== verification/ArrayProofs.v ===== *)
(** * Dense arrays: indices

    The linear index of an array, and the loop that enumerates the indices in its order. *)
From S2P Require Import Prelude PermUtil Radix Layouts IndexProofs TilingProofs Places Arrays.
#[local] Open Scope Z_scope.

Module ArrayProofs.
Import PermUtil Radix IndexProofs Arrays.

(** ** The linear index *)

Definition lin (ds xs : list Z) : Z := horner (reverse ds) (reverse xs).
Definition unlin (ds : list Z) (k : Z) : list Z := reverse (digits (reverse ds) k).

Lemma lin_bounds ds xs : in_bounds ds xs → 0 ≤ lin ds xs < prod ds.
Proof. intros Hb. unfold lin. rewrite <- (prod_reverse ds). apply horner_bounds. by apply in_bounds_reverse. Qed.

Lemma lin_inj ds xs ys : in_bounds ds xs → in_bounds ds ys → lin ds xs = lin ds ys → xs = ys.
Proof.
  intros Hx Hy E. apply (inj reverse). eapply horner_inj; [by apply in_bounds_reverse | by apply in_bounds_reverse | exact E].
Qed.

Lemma unlin_bounds ds k : Forall (λ d, 0 < d) ds → in_bounds ds (unlin ds k).
Proof. intros Hd. rewrite <- in_bounds_reverse. unfold unlin. rewrite reverse_involutive. apply digits_in_bounds. by apply Forall_reverse. Qed.

Lemma lin_unlin ds k : Forall (λ d, 0 < d) ds → 0 ≤ k < prod ds → lin ds (unlin ds k) = k.
Proof.
  intros Hd Hk. unfold lin, unlin. rewrite reverse_involutive. apply horner_digits; [by apply Forall_reverse | by rewrite prod_reverse].
Qed.

Lemma unlin_lin ds xs : in_bounds ds xs → unlin ds (lin ds xs) = xs.
Proof.
  intros Hb. apply (lin_inj ds); [apply unlin_bounds; by eapply in_bounds_pos | done |].
  apply lin_unlin; [by eapply in_bounds_pos | by apply lin_bounds].
Qed.

Lemma lin_snoc ds xs d i : length ds = length xs → lin (ds ++ [d]) (xs ++ [i]) = lin ds xs * d + i.
Proof. intros Hl. unfold lin. rewrite !reverse_snoc. cbn [horner]. ring. Qed.

Lemma lin_app ds1 ds2 xs1 xs2 :
  length ds1 = length xs1 → length ds2 = length xs2 →
  lin (ds1 ++ ds2) (xs1 ++ xs2) = lin ds1 xs1 * prod ds2 + lin ds2 xs2.
Proof.
  intros H1 H2. unfold lin. rewrite !reverse_app, horner_app by (by rewrite !length_reverse).
  rewrite prod_reverse. ring.
Qed.

Lemma lin_cons d ds i xs : length ds = length xs → lin (d :: ds) (i :: xs) = i * prod ds + lin ds xs.
Proof.
  intros Hl. pose proof (lin_app [d] ds [i] xs eq_refl Hl) as E. cbn [app] in E. rewrite E. unfold lin at 1. cbn. ring.
Qed.

Lemma lin_zeros ds : lin ds (replicate (length ds) 0) = 0.
Proof. unfold lin. apply horner_zero. apply Forall_reverse. apply Forall_replicate. done. Qed.

(** *** What the code computes *)

Lemma accumulate_spec acc ds :
  Forall (λ d, 0 < d) ds → 0 < acc → acc * prod ds ≤ int64_max → accumulate acc ds = Ok (acc * prod ds).
Proof.
  intros Hd. revert acc. induction Hd as [| d ds Hd0 Hd IH]; intros acc Ha Hm; cbn [accumulate].
  - f_equal. unfold prod. cbn. lia.
  - rewrite prod_cons in *. pose proof (prod_pos ds Hd). assert (acc * d ≤ acc * (d * prod ds)) by nia.
    rewrite s64_in by int_nia. cbn [mbind res_bind]. rewrite IH; [f_equal; ring | nia | nia].
Qed.

Lemma calculate_elements_spec ds :
  Forall (λ d, 0 < d) ds → prod ds ≤ int64_max → calculate_elements ds = Ok (prod ds).
Proof. intros Hd Hm. unfold calculate_elements. rewrite accumulate_spec by (done || lia). f_equal. lia. Qed.

Lemma index_loop_spec index done_ ds xs :
  Forall (λ d, 0 < d) done_ → in_bounds ds xs → 0 ≤ index < prod done_ → prod done_ * prod ds ≤ int64_max →
  index_loop index ds xs = Ok (index * prod ds + lin ds xs).
Proof.
  intros Hdone Hb. revert index done_ Hdone. induction Hb as [| d i ds xs Hi Hb IH]; intros index done_ Hdone Hx Hm; cbn [index_loop].
  - f_equal. unfold lin, prod. cbn. lia.
  - rewrite prod_cons in *. pose proof (prod_pos ds (in_bounds_pos _ _ Hb)).
    assert (index * d + i < prod done_ * d) by nia.
    pose proof (prod_pos done_ Hdone) as Hpd.
    assert (prod done_ * d ≤ prod done_ * (d * prod ds)).
    { rewrite Z.mul_assoc. apply Z.le_mul_diag_r; nia. }
    rewrite s64_in by int_nia. cbn [mbind res_bind]. rewrite s64_in by int_nia. cbn [mbind res_bind].
    rewrite (IH _ (done_ ++ [d])).
    + f_equal. rewrite lin_cons by (by eapply in_bounds_length). ring.
    + rewrite Forall_app. split; [done |]. constructor; [lia | done].
    + rewrite prod_app, prod_singleton. nia.
    + rewrite prod_app, prod_singleton. lia.
Qed.

Lemma calculate_index_spec ds xs : in_bounds ds xs → prod ds ≤ int64_max → calculate_index ds xs = Ok (lin ds xs).
Proof.
  intros Hb Hm. unfold calculate_index. rewrite (index_loop_spec 0 [] ds xs); [f_equal; lia | constructor | done | |];
    unfold prod at 1; cbn; lia.
Qed.

(** ** The next index *)

(** The last digit with room, and the digits after it at their greatest. *)
Lemma next_split ds xs :
  in_bounds ds xs → lin ds xs + 1 < prod ds →
  ∃ ds1 d ds2 pre i, ds = ds1 ++ d :: ds2 ∧ xs = pre ++ i :: (Z.pred <$> ds2) ∧ length ds1 = length pre ∧
    0 ≤ i ∧ i + 1 < d ∧ in_bounds ds1 pre ∧ Forall (λ d, 0 < d) ds2.
Proof.
  revert xs. induction ds as [| d ds IH] using rev_ind; intros xs Hb Hl.
  - apply Forall2_nil_inv_l in Hb as ->. unfold lin, prod in Hl. cbn in Hl. lia.
  - apply Forall2_app_inv_l in Hb as (xs1 & x2 & Hb & Hx & ->).
    apply Forall2_cons_inv_l in Hx as (i & x3 & Hi & Hx & ->). apply Forall2_nil_inv_l in Hx as ->.
    destruct (decide (i + 1 < d)) as [Hr | Hr].
    + exists ds, d, [], xs1, i. split; [done |]. split; [done |]. split; [by eapply in_bounds_length |]. split; [lia |]. done.
    + assert (i = d - 1) as -> by lia. rewrite lin_snoc, prod_app, prod_singleton in Hl by (by eapply in_bounds_length).
      destruct (IH xs1 Hb) as (ds1 & d0 & ds2 & pre & i & -> & -> & El & Hi0 & Hid & Hp & Hd2); [nia |].
      exists ds1, d0, (ds2 ++ [d]), pre, i. split; [by rewrite <- app_assoc |].
      split; [rewrite fmap_app, <- app_assoc; done |]. split; [done |]. split; [done |]. split; [done |]. split; [done |].
      rewrite Forall_app. split; [done |]. constructor; [lia | done].
Qed.

Lemma lin_next ds1 d ds2 pre i :
  length ds1 = length pre →
  lin (ds1 ++ d :: ds2) (pre ++ (i + 1) :: replicate (length ds2) 0) =
  lin (ds1 ++ d :: ds2) (pre ++ i :: (Z.pred <$> ds2)) + 1.
Proof.
  intros Hl. rewrite !lin_app by (cbn; rewrite ?length_replicate, ?length_fmap; lia).
  rewrite !lin_cons by (rewrite ?length_replicate, ?length_fmap; lia). rewrite lin_zeros.
  assert (E : lin ds2 (Z.pred <$> ds2) = prod ds2 - 1); [| lia].
  clear. induction ds2 as [| d ds IH]; [done |]. cbn [fmap list_fmap].
  rewrite lin_cons, prod_cons by (by rewrite length_fmap). setoid_rewrite IH. lia.
Qed.

Lemma next_bounds ds1 d ds2 pre i :
  in_bounds ds1 pre → 0 ≤ i → i + 1 < d → Forall (λ d, 0 < d) ds2 →
  in_bounds (ds1 ++ d :: ds2) (pre ++ (i + 1) :: replicate (length ds2) 0).
Proof.
  intros Hp Hi Hid Hd. apply Forall2_app; [done |]. constructor; [lia |].
  clear -Hd. induction Hd as [| d ds Hd0 Hd IH]; cbn; constructor; [lia | done].
Qed.

Lemma at_middle {A} (l1 l2 : list A) x n : length l1 = n → at_res (l1 ++ x :: l2) n = Ok x.
Proof. intros <-. unfold at_res. by rewrite list_lookup_middle. Qed.

Lemma insert_middle {A} (l1 l2 : list A) x y n : length l1 = n → <[n := y]> (l1 ++ x :: l2) = l1 ++ y :: l2.
Proof. intros <-. by rewrite insert_app_r_alt, Nat.sub_diag. Qed.

(** The digits at their greatest are set to 0. *)
Lemma next_index_passes ds1 ds2 pre post :
  length ds1 = length pre → Forall (λ d, 0 < d ≤ int64_max) ds2 →
  next_index_loop (length (ds1 ++ ds2)) (ds1 ++ ds2 ++ post) (pre ++ (Z.pred <$> ds2) ++ replicate (length post) 0) =
  next_index_loop (length ds1) (ds1 ++ ds2 ++ post) (pre ++ replicate (length (ds2 ++ post)) 0).
Proof.
  intros Hl. revert post. induction ds2 as [| d ds2 IH] using rev_ind; intros post Hd; [by rewrite app_nil_r |].
  apply Forall_app in Hd as [Hd [Hd0 _]%Forall_cons].
  rewrite !length_app, Nat.add_assoc, <- length_app. cbn [length]. rewrite Nat.add_1_r. cbn [next_index_loop].
  assert (Ex : pre ++ (Z.pred <$> ds2 ++ [d]) ++ replicate (length post) 0 =
    (pre ++ (Z.pred <$> ds2)) ++ Z.pred d :: replicate (length post) 0) by (by rewrite fmap_app, <- !app_assoc).
  assert (El : length (pre ++ (Z.pred <$> ds2)) = length (ds1 ++ ds2)) by (rewrite !length_app, length_fmap; lia).
  assert (Ed : at_res (ds1 ++ (ds2 ++ [d]) ++ post) (length (ds1 ++ ds2)) = Ok d).
  { unfold at_res. rewrite <- !app_assoc, app_assoc, lookup_app_r, Nat.sub_diag by done. done. }
  rewrite Ex, Ed, at_middle by done. cbn [mbind res_bind]. rewrite s64_in by int_lia. cbn [mbind res_bind].
  rewrite (proj2 (Z.ltb_ge _ _)) by lia. rewrite insert_middle by done.
  rewrite <- !app_assoc. cbn [app]. pose proof (IH (d :: post) Hd) as E. cbn [length replicate] in E. rewrite E.
  do 3 f_equal. rewrite !length_app. cbn. lia.
Qed.

Lemma sizes_le ds m : Forall (λ d, 0 < d) ds → prod ds ≤ m → Forall (λ d, 0 < d ≤ m) ds.
Proof.
  intros Hd. revert m. induction Hd as [| d ds Hd0 Hd IH]; intros m Hm; [constructor |]. rewrite prod_cons in Hm.
  pose proof (prod_pos ds Hd). constructor; [nia |]. apply IH. nia.
Qed.

Lemma greatest_index ds : Forall (λ d, 0 < d) ds → in_bounds ds (Z.pred <$> ds) ∧ lin ds (Z.pred <$> ds) = prod ds - 1.
Proof.
  induction 1 as [| d ds Hd0 Hd [IH1 IH2]]; [split; [constructor | done] |]. cbn [fmap list_fmap].
  split; [constructor; [lia | done] |]. rewrite lin_cons, prod_cons by (by rewrite length_fmap). setoid_rewrite IH2. lia.
Qed.

(** [next_index] enumerates the indices in the order of the elements and wraps around. *)
Lemma next_index_spec ds xs :
  in_bounds ds xs → prod ds ≤ int64_max →
  if lin ds xs + 1 <? prod ds
  then ∃ ys, next_index ds xs = Ok (true, ys) ∧ in_bounds ds ys ∧ lin ds ys = lin ds xs + 1
  else next_index ds xs = Ok (false, replicate (length ds) 0).
Proof.
  intros Hb Hm. pose proof (in_bounds_pos _ _ Hb) as Hd. pose proof (sizes_le ds _ Hd Hm) as Hle.
  pose proof (lin_bounds ds xs Hb) as Hlb. unfold next_index. destruct (Z.ltb_spec (lin ds xs + 1) (prod ds)) as [Hl | Hl].
  - destruct (next_split ds xs Hb Hl) as (ds1 & d & ds2 & pre & i & -> & -> & El & Hi & Hid & Hp & Hd2).
    exists (pre ++ (i + 1) :: replicate (length ds2) 0). rewrite lin_next by done.
    split; [| split; [by apply next_bounds | done]]. apply Forall_app in Hle as [_ Hle].
    apply Forall_cons in Hle as [[_ Hdm] Hle2].
    assert (E : next_index_loop (length (ds1 ++ d :: ds2)) (ds1 ++ d :: ds2) (pre ++ i :: (Z.pred <$> ds2)) =
      next_index_loop (length (ds1 ++ [d])) (ds1 ++ d :: ds2) (pre ++ i :: replicate (length ds2) 0)).
    { pose proof (next_index_passes (ds1 ++ [d]) ds2 (pre ++ [i]) []) as E. rewrite !app_nil_r, <- !app_assoc in E. cbn [app] in E.
      apply E; [rewrite !length_app; cbn; lia | done]. }
    rewrite E, length_app. cbn [length]. rewrite Nat.add_1_r. cbn [next_index_loop].
    rewrite !at_middle by done. cbn [mbind res_bind]. rewrite s64_in by int_lia. cbn [mbind res_bind].
    rewrite (proj2 (Z.ltb_lt _ _)) by done. by rewrite insert_middle.
  - destruct (greatest_index ds Hd) as [G1 G2]. assert (xs = Z.pred <$> ds) as -> by (apply (lin_inj ds); [done | done | lia]).
    pose proof (next_index_passes [] ds [] [] eq_refl Hle) as E. cbn [app length] in E. rewrite !app_nil_r in E. rewrite E. done.
Qed.

Lemma next_index_unlin ds k :
  Forall (λ d, 0 < d) ds → prod ds ≤ int64_max → 0 ≤ k < prod ds →
  ∃ b, next_index ds (unlin ds k) = Ok (b, unlin ds ((k + 1) mod prod ds)).
Proof.
  intros Hd Hm Hk. pose proof (unlin_bounds ds k Hd) as Hb. pose proof (next_index_spec ds _ Hb Hm) as H. rewrite lin_unlin in H by done.
  destruct (Z.ltb_spec (k + 1) (prod ds)).
  - destruct H as (ys & E & Hy & El). exists true. rewrite E, Z.mod_small by lia. by rewrite <- El, unlin_lin.
  - exists false. rewrite H. replace (k + 1) with (prod ds) by lia. rewrite Z.mod_same by lia. do 2 f_equal.
    rewrite <- (unlin_lin ds (replicate (length ds) 0)), lin_zeros; [done |].
    clear -Hd. induction Hd as [| d ds Hd0 Hd IH]; cbn; constructor; [lia | done].
Qed.

Lemma unlin_0 ds : Forall (λ d, 0 < d) ds → unlin ds 0 = replicate (length ds) 0.
Proof.
  intros Hd. rewrite <- (unlin_lin ds (replicate (length ds) 0)), lin_zeros; [done |].
  induction Hd as [| d ds Hd0 Hd IH]; cbn; constructor; [lia | done].
Qed.

(** ** Arrays *)

Record array_ok {A} (a : Array A) : Prop := {
  a_sizes : Forall (λ d, 0 < d) (sizes_ a);
  a_values : Z.of_nat (length (values_ a)) = prod (sizes_ a);
  a_max : prod (sizes_ a) ≤ int64_max
}.

(** The value at an index. *)
Definition get {A} (a : Array A) (xs : list Z) : option A := values_ a !! Z.to_nat (lin (sizes_ a) xs).

Lemma get_some {A} (a : Array A) xs : array_ok a → in_bounds (sizes_ a) xs → is_Some (get a xs).
Proof. intros Ha Hb. apply lookup_lt_is_Some_2. pose proof (lin_bounds _ _ Hb). pose proof (a_values a Ha). lia. Qed.

Lemma element_get {A} (a : Array A) xs v :
  array_ok a → in_bounds (sizes_ a) xs → element a xs = Ok v ↔ get a xs = Some v.
Proof.
  intros Ha Hb. unfold element, num_dimensions. pose proof (in_bounds_length _ _ Hb) as El.
  rewrite (proj2 (Z.eqb_eq _ _)) by lia. cbn [guard_res mbind res_bind].
  rewrite calculate_index_spec by (done || apply a_max; done). cbn [mbind res_bind]. pose proof (lin_bounds _ _ Hb).
  unfold at_z, at_res, get. rewrite (proj2 (Z.ltb_ge _ _)) by lia. destruct (values_ a !! _); naive_solver.
Qed.

Lemma each_loop_spec {A} ds (vs : list A) k :
  Forall (λ d, 0 < d) ds → prod ds ≤ int64_max → 0 ≤ k → k + Z.of_nat (length vs) ≤ prod ds →
  each_loop ds (unlin ds k) vs = Ok (imap (λ i v, (unlin ds (k + Z.of_nat i), v)) vs).
Proof.
  intros Hd Hm. revert k. induction vs as [| v vs IH]; intros k Hk Hl; [done |]. cbn [each_loop length] in *.
  destruct (next_index_unlin ds k Hd Hm) as [b E]; [lia |]. rewrite E. cbn [mbind res_bind].
  destruct vs as [| w vs].
  - cbn. by rewrite Z.add_0_r.
  - cbn [length] in Hl. rewrite Z.mod_small by lia. rewrite IH by (cbn [length]; lia). cbn [mbind res_bind].
    rewrite (imap_cons _ v (w :: vs)), Z.add_0_r. do 2 f_equal. apply imap_ext. intros i x _. cbn [compose]. do 2 f_equal. lia.
Qed.

Lemma Each_spec {A} (a : Array A) :
  array_ok a → Each a = Ok (imap (λ i v, (unlin (sizes_ a) (Z.of_nat i), v)) (values_ a)).
Proof.
  intros Ha. unfold Each. rewrite <- unlin_0 by apply (a_sizes a Ha).
  rewrite each_loop_spec; [done | apply (a_sizes a Ha) | apply (a_max a Ha) | done |]. rewrite (a_values a Ha). lia.
Qed.

Lemma make_ok {A} ds (v : A) : Forall (λ d, 0 < d) ds → prod ds ≤ int64_max →
  make ds v = Ok (MkArray ds (replicate (Z.to_nat (prod ds)) v)).
Proof.
  intros Hd Hm. unfold make. rewrite calculate_elements_spec by done. cbn [mbind res_bind].
  pose proof (prod_pos ds Hd). by rewrite (proj2 (Z.leb_le _ _)) by lia.
Qed.
End ArrayProofs.

(** ** Dense arrays: transposing

    Both loops that transpose an array write every element once, to the place its
    permuted index has in the result. *)
Module ArrayTranspose.
Import PermUtil Radix IndexProofs Arrays ArrayProofs.
Import (notations) Places.
Abbreviation dot := Places.dot.
Abbreviation dot_cons := Places.dot_cons.

(** ** Elements written one after the other *)

Fixpoint store_all {A} (dsts : list Z) (vs out : list A) : list A :=
  match dsts, vs with
  | d :: dsts, v :: vs => store_all dsts vs (<[Z.to_nat d := v]> out)
  | _, _ => out
  end.

Lemma store_all_length {A} dsts (vs out : list A) : length (store_all dsts vs out) = length out.
Proof. revert vs out. induction dsts as [| d dsts IH]; intros [| v vs] out; cbn; try done. by rewrite IH, length_insert. Qed.

Lemma store_all_app {A} dsts1 dsts2 (vs1 vs2 out : list A) :
  length dsts1 = length vs1 → store_all (dsts1 ++ dsts2) (vs1 ++ vs2) out = store_all dsts2 vs2 (store_all dsts1 vs1 out).
Proof.
  revert vs1 out. induction dsts1 as [| d dsts1 IH]; intros [| v vs1] out Hl; try done. cbn. by apply IH; simplify_eq/=.
Qed.

Lemma store_all_other {A} dsts (vs out : list A) i :
  (∀ d, d ∈ dsts → Z.to_nat d ≠ i) → store_all dsts vs out !! i = out !! i.
Proof.
  revert vs out. induction dsts as [| d dsts IH]; intros [| v vs] out Hd; cbn; try done.
  rewrite IH by (intros d' Hd'; apply Hd; by right). apply list_lookup_insert_ne. apply Hd. by left.
Qed.

Lemma store_all_lookup {A} dsts (vs out : list A) k d v :
  NoDup dsts → Forall (λ d, 0 ≤ d < Z.of_nat (length out)) dsts →
  dsts !! k = Some d → vs !! k = Some v → store_all dsts vs out !! Z.to_nat d = Some v.
Proof.
  revert vs out k. induction dsts as [| d0 dsts IH]; intros vs out k Hn Hb Hd Hv; [done |].
  destruct vs as [| v0 vs]; [done |]. apply NoDup_cons in Hn as [Hnot Hn]. apply Forall_cons in Hb as [Hb0 Hb]. cbn [store_all].
  destruct k as [| k]; cbn in Hd, Hv.
  - injection Hd as ->. injection Hv as ->. rewrite store_all_other; [apply list_lookup_insert_eq; lia |].
    intros d' Hd' E. apply Hnot. rewrite Forall_forall in Hb. pose proof (Hb d' Hd'). by replace d with d' by lia.
  - apply (IH vs _ k); [done | by rewrite length_insert | done | done].
Qed.

Lemma store_spec {A} (out : list A) i v : 0 ≤ i < Z.of_nat (length out) → store out i v = Ok (<[Z.to_nat i := v]> out).
Proof.
  intros Hi. unfold store, at_z, at_res. rewrite (proj2 (Z.ltb_ge _ _)) by lia.
  destruct (lookup_lt_is_Some_2 out (Z.to_nat i)) as [x ->]; [lia |]. done.
Qed.

(** ** Sums of strides *)

Fixpoint psums (acc : Z) (xs ss : list Z) : list Z :=
  match xs, ss with x :: xs, s :: ss => (acc + x * s) :: psums (acc + x * s) xs ss | _, _ => [] end.

Lemma dot_app xs1 xs2 ss1 ss2 : length xs1 = length ss1 → dot (xs1 ++ xs2) (ss1 ++ ss2) = dot xs1 ss1 + dot xs2 ss2.
Proof.
  revert ss1. induction xs1 as [| x xs1 IH]; intros [| s ss1] Hl; try done. cbn [app]. rewrite !dot_cons, IH by by simplify_eq/=. lia.
Qed.

Lemma dot_zeros n ss : dot (replicate n 0) ss = 0.
Proof. revert ss. induction n as [| n IH]; intros [| s ss]; try done. cbn [replicate]. by rewrite dot_cons, IH. Qed.

Lemma psums_app acc xs1 xs2 ss1 ss2 :
  length xs1 = length ss1 → psums acc (xs1 ++ xs2) (ss1 ++ ss2) = psums acc xs1 ss1 ++ psums (acc + dot xs1 ss1) xs2 ss2.
Proof.
  revert acc ss1. induction xs1 as [| x xs1 IH]; intros acc [| s ss1] Hl; try done; cbn [app psums].
  - cbn. by rewrite Z.add_0_r.
  - rewrite IH, dot_cons by by simplify_eq/=. by rewrite Z.add_assoc.
Qed.

Lemma psums_zeros acc n ss : length ss = n → psums acc (replicate n 0) ss = replicate n acc.
Proof. intros <-. induction ss as [| s ss IH]; [done |]. cbn. by rewrite Z.add_0_r, IH. Qed.

Lemma length_psums acc xs ss : length xs = length ss → length (psums acc xs ss) = length xs.
Proof. revert acc ss. induction xs as [| x xs IH]; intros acc [| s ss] Hl; try done. cbn. rewrite IH; [done |]. by simplify_eq/=. Qed.

(** Both lists permuted alike give the same sum. *)
Definition zsum (l : list Z) : Z := foldr Z.add 0 l.

#[export] Instance zsum_Permutation : Proper ((≡ₚ) ==> (=)) zsum.
Proof. intros l1 l2 H. unfold zsum. induction H; simpl; [done | lia | lia | congruence]. Qed.

Lemma dot_zsum xs ss : dot xs ss = zsum (zip_with Z.mul xs ss).
Proof. done. Qed.

Lemma strides_of_spec ds :
  Forall (λ d, 0 < d) ds → prod ds ≤ int64_max →
  ∃ ss, strides_of ds = (prod ds, ss) ∧ length ss = length ds ∧
    ∀ xs, length xs = length ds → dot xs ss = lin ds xs.
Proof.
  induction 1 as [| d ds Hd0 Hd IH]; intros Hm.
  - exists []. split; [done |]. split; [done |]. by intros [].
  - rewrite prod_cons in Hm. pose proof (prod_pos ds Hd). destruct IH as (ss & E & El & Hs); [nia |].
    exists (prod ds :: ss). cbn [strides_of]. rewrite E, wrap_u64_id by int_nia. rewrite prod_cons.
    split; [by rewrite (Z.mul_comm d) |]. split; [cbn; by rewrite El |].
    intros [| x xs] Hl; [done |]. rewrite dot_cons. injection Hl as Hl. rewrite Hs, lin_cons by done. done.
Qed.

(** ** Three dimensions or more *)

Section Loop.
Context (ds ss : list Z).
Hypothesis Hds : Forall (λ d, 0 < d) ds.
Hypothesis Hmax : prod ds ≤ int64_max.
Hypothesis Hss : length ss = length ds.
Hypothesis Hdot : ∀ xs, in_bounds ds xs → 0 ≤ dot xs ss ≤ int64_max.

Definition cursor (xs : list Z) : Cursor := MkCursor (dot xs ss) (psums 0 xs ss) xs.

(** Dimensions without room are passed over. *)
Lemma advance_passes xs ds1 ds2 pre :
  ds = ds1 ++ ds2 → xs = pre ++ (Z.pred <$> ds2) → length ds1 = length pre → Forall (λ d, 0 < d ≤ int64_max) ds2 →
  advance_cursor (length ds) ds ss (cursor xs) = advance_cursor (length ds1) ds ss (cursor xs).
Proof.
  intros Ed Ex El Hd2.
  assert (Hk : ∀ k, (k ≤ length ds2)%nat →
    advance_cursor (length ds1 + k) ds ss (cursor xs) = advance_cursor (length ds1) ds ss (cursor xs)).
  { induction k as [| k IH]; intros Hk; [by rewrite Nat.add_0_r |]. rewrite Nat.add_succ_r. cbn [advance_cursor cursor src_indexes].
    destruct (lookup_lt_is_Some_2 ds2 k) as [d Hd]; [lia |].
    assert (E1 : ds !! (length ds1 + k)%nat = Some d).
    { rewrite Ed, lookup_app_r by lia. by replace (length ds1 + k - length ds1)%nat with k by lia. }
    assert (E2 : xs !! (length ds1 + k)%nat = Some (Z.pred d)).
    { rewrite Ex, lookup_app_r by lia. replace (length ds1 + k - length pre)%nat with k by lia. by rewrite list_lookup_fmap, Hd. }
    pose proof (proj1 (Forall_lookup _ _) Hd2 k d Hd) as Hb. cbn in Hb.
    unfold at_res. rewrite E1, E2. cbn [mbind res_bind]. rewrite wrap_u64_id by int_lia.
    rewrite (proj2 (Z.ltb_ge _ _)) by lia. apply IH. lia. }
  rewrite Ed at 1. rewrite length_app. by apply Hk.
Qed.

Lemma advance_cursor_spec xs :
  in_bounds ds xs → lin ds xs + 1 < prod ds →
  ∃ ys, advance_cursor (length ds) ds ss (cursor xs) = Ok (cursor ys) ∧ in_bounds ds ys ∧ lin ds ys = lin ds xs + 1.
Proof.
  intros Hb Hl. destruct (next_split ds xs Hb Hl) as (ds1 & d & ds2 & pre & i & Ed & Ex & El & Hi & Hid & Hp & Hd2).
  exists (pre ++ (i + 1) :: replicate (length ds2) 0).
  assert (Hy : in_bounds ds (pre ++ (i + 1) :: replicate (length ds2) 0)) by (rewrite Ed; by apply next_bounds).
  split; [| split; [done | rewrite Ed, Ex; by apply lin_next]].
  pose proof (sizes_le ds _ Hds Hmax) as Hle. rewrite Ed in Hle. apply Forall_app in Hle as [_ [[_ Hdm] Hle]%Forall_cons].
  rewrite (advance_passes xs (ds1 ++ [d]) ds2 (pre ++ [i])); [| by rewrite <- app_assoc | by rewrite <- app_assoc | rewrite !length_app; cbn; lia | done].
  assert (Hs : ∃ ss1 t ss2, ss = ss1 ++ t :: ss2 ∧ length ss1 = length pre ∧ length ss2 = length ds2).
  { rewrite Ed, length_app in Hss. cbn in Hss. exists (take (length pre) ss).
    destruct (lookup_lt_is_Some_2 ss (length pre)) as [t Ht]; [lia |]. exists t, (drop (S (length pre)) ss).
    split; [symmetry; by apply take_drop_middle |]. rewrite length_take, length_drop. lia. }
  destruct Hs as (ss1 & t & ss2 & Es & Hl1 & Hl2).
  assert (Epsum : ∀ x rest, length rest = length ds2 →
    psums 0 (pre ++ x :: rest) ss = psums 0 pre ss1 ++ (dot pre ss1 + x * t) :: psums (dot pre ss1 + x * t) rest ss2).
  { intros x rest Hr. rewrite Es, psums_app by done. cbn [psums]. by rewrite Z.add_0_l. }
  assert (Edot : ∀ x rest, dot (pre ++ x :: rest) ss = dot pre ss1 + (x * t + dot rest ss2)).
  { intros x rest. rewrite Es, dot_app by done. done. }
  assert (Lp : length (psums 0 pre ss1) = length pre) by by apply length_psums.
  rewrite length_app. cbn [length]. rewrite Nat.add_1_r. cbn [advance_cursor cursor src_indexes dst_value_index_stack].
  assert (Ep : psums 0 xs ss = psums 0 pre ss1 ++ (dot pre ss1 + i * t) :: psums (dot pre ss1 + i * t) (Z.pred <$> ds2) ss2)
    by (rewrite Ex; apply Epsum; by rewrite length_fmap).
  assert (A1 : at_res xs (length ds1) = Ok i) by (rewrite Ex; by apply at_middle).
  assert (A2 : at_res ds (length ds1) = Ok d) by (rewrite Ed; by apply at_middle).
  assert (A3 : at_res (psums 0 xs ss) (length ds1) = Ok (dot pre ss1 + i * t)) by (rewrite Ep; apply at_middle; lia).
  assert (A4 : at_res ss (length ds1) = Ok t) by (rewrite Es; apply at_middle; lia).
  assert (A5 : take (length ds1) xs = pre) by (rewrite Ex; apply take_app_length'; lia).
  assert (A6 : take (length ds1) (psums 0 xs ss) = psums 0 pre ss1) by (rewrite Ep; apply take_app_length'; lia).
  assert (A7 : (length ds - S (length ds1))%nat = length ds2) by (rewrite Ed, length_app; cbn; lia).
  rewrite A1, A2, A3, A4, A5, A6, A7. cbn [mbind res_bind].
  rewrite wrap_u64_id by int_lia. rewrite (proj2 (Z.ltb_lt _ _)) by done.
  assert (Edst : wrap_u64 (dot pre ss1 + i * t + t) = dot (pre ++ (i + 1) :: replicate (length ds2) 0) ss).
  { rewrite Edot, dot_zeros. rewrite wrap_u64_id; [ring |]. pose proof (Hdot _ Hy) as Hd. rewrite Edot, dot_zeros in Hd. int_nia. }
  rewrite Edst. unfold cursor. rewrite (Epsum (i + 1)) by (by rewrite length_replicate).
  rewrite psums_zeros by done. by rewrite Edot, dot_zeros, Z.add_0_r.
Qed.

Lemma advance_cursor_unlin k :
  0 ≤ k → k + 1 < prod ds → advance_cursor (length ds) ds ss (cursor (unlin ds k)) = Ok (cursor (unlin ds (k + 1))).
Proof.
  intros Hk Hk1. pose proof (unlin_bounds ds k Hds) as Hb.
  destruct (advance_cursor_spec _ Hb) as (ys & E & Hy & El); [rewrite lin_unlin by (done || lia); lia |].
  rewrite E. do 2 f_equal. rewrite lin_unlin in El by (done || lia). by rewrite <- El, unlin_lin.
Qed.

Lemma transpose_loop_spec {A} (vs out : list A) k :
  vs ≠ [] → 0 ≤ k → k + Z.of_nat (length vs) = prod ds →
  (∀ xs, in_bounds ds xs → 0 ≤ dot xs ss < Z.of_nat (length out)) →
  transpose_loop ds ss vs (cursor (unlin ds k)) out =
  Ok (store_all ((λ j, dot (unlin ds j) ss) <$> seqZ k (Z.of_nat (length vs))) vs out).
Proof.
  revert out k. induction vs as [| v vs IH]; intros out k Hne Hk Hl Hd; [done |]. cbn [transpose_loop cursor dst_value_index].
  rewrite store_spec by (apply Hd, unlin_bounds, Hds). cbn [mbind res_bind].
  rewrite seqZ_cons by (cbn; lia). cbn [fmap list_fmap store_all length].
  replace (Z.pred (Z.of_nat (S (length vs)))) with (Z.of_nat (length vs)) by lia.
  destruct vs as [| w vs]; [done |]. cbn [length] in Hl.
  rewrite advance_cursor_unlin by lia. cbn [mbind res_bind]. rewrite <- Z.add_1_r.
  apply IH; [done | lia | cbn [length]; lia |]. intros xs Hb. rewrite length_insert. by apply Hd.
Qed.
End Loop.

(** ** Two dimensions *)

Lemma transpose_row_spec {A} n size0 dst (src out : list A) :
  (n ≤ length src)%nat → 0 ≤ dst → 0 ≤ size0 → dst + size0 * Z.of_nat n < uint64_size →
  (∀ j, (j < n)%nat → dst + Z.of_nat j * size0 < Z.of_nat (length out)) →
  transpose_row n size0 dst src out =
  Ok (drop n src, store_all ((λ j, dst + j * size0) <$> seqZ 0 (Z.of_nat n)) (take n src) out).
Proof.
  revert dst src out. induction n as [| n IH]; intros dst src out Hn Hd Hs Hm Hb; [done |].
  destruct src as [| v src]; [cbn in Hn; lia |]. cbn [transpose_row].
  rewrite store_spec by (pose proof (Hb 0%nat ltac:(lia)); lia). cbn [mbind res_bind].
  rewrite wrap_u64_id by int_nia. rewrite IH; [| cbn in Hn; lia | nia | done | nia |].
  - cbn [drop take]. do 2 f_equal. rewrite (seqZ_cons 0 (Z.of_nat (S n))) by lia. cbn [fmap list_fmap store_all].
    rewrite Z.mul_0_l, Z.add_0_r. f_equal. replace (Z.pred (Z.of_nat (S n))) with (Z.of_nat n) by lia.
    change (Z.succ 0) with (1 + 0). rewrite <- (fmap_add_seqZ 1 0), <- list_fmap_compose. apply list_fmap_ext. intros i x _. cbn. lia.
  - intros j Hj. rewrite length_insert. pose proof (Hb (S j) ltac:(lia)). lia.
Qed.

Lemma transpose_rows_spec {A} n size0 size1 i0 (src out : list A) :
  0 < size0 → 0 < size1 → 0 ≤ i0 → i0 + Z.of_nat n = size0 → Z.of_nat (length src) = Z.of_nat n * size1 →
  size0 * size1 ≤ int64_max → Z.of_nat (length out) = size0 * size1 →
  transpose_rows n size0 size1 i0 src out =
  Ok (store_all ((λ k, k mod size1 * size0 + k / size1) <$> seqZ (i0 * size1) (Z.of_nat n * size1)) src out).
Proof.
  intros Hs0 Hs1. revert i0 src out. induction n as [| n IH]; intros i0 src out Hi Hn Hl Hm Ho; cbn [transpose_rows].
  { done. }
  rewrite transpose_row_spec; [| nia | done | lia | int_nia |].
  - cbn [mbind res_bind]. rewrite IH; [| lia | lia | rewrite length_drop; nia | done | by rewrite store_all_length].
    f_equal. replace (Z.of_nat (S n) * size1) with (size1 + Z.of_nat n * size1) by lia.
    rewrite seqZ_app, fmap_app by nia. replace ((i0 + 1) * size1) with (i0 * size1 + size1) by lia.
    rewrite <- (take_drop (Z.to_nat size1) src) at 3. rewrite store_all_app.
    + do 2 f_equal. rewrite Z2Nat.id by lia. replace (seqZ (i0 * size1) size1) with (Z.add (i0 * size1) <$> seqZ 0 size1) by (rewrite fmap_add_seqZ; f_equal; lia).
      rewrite <- list_fmap_compose.
      apply list_fmap_ext. intros j x [-> Hj]%lookup_seqZ. cbn.
      rewrite (Z.add_comm (i0 * size1)), Z.mod_add, Z.div_add, Z.mod_small, Z.div_small by lia. lia.
    + rewrite length_fmap, length_seqZ, length_take. nia.
  - intros j Hj. nia.
Qed.

(** ** The result *)

Section Result.
Context {A : Type} (a : Array A) (p : list Z).
Hypothesis Ha : array_ok a.
Hypothesis Hp : valid_layout (sizes_ a) p.

Abbreviation ds := (sizes_ a).
Abbreviation ds' := (sel ds p).

Lemma permuted_in_range xs : length xs = length ds → in_range xs p.
Proof. intros Hl. by eapply valid_layout_in_range. Qed.

Lemma permuted_bounds xs : in_bounds ds xs → in_bounds ds' (sel xs p).
Proof. intros Hb. apply in_bounds_sel; [done |]. by apply permuted_in_range. Qed.

Lemma permuted_prod : prod ds' = prod ds.
Proof. by rewrite (sel_perm _ _ Hp). Qed.

Lemma permuted_pos : Forall (λ d, 0 < d) ds'.
Proof. apply sel_pos; [apply (a_sizes a Ha) | by apply permuted_in_range]. Qed.

(** Where an element goes. *)
Definition dst (k : Z) : Z := lin ds' (sel (unlin ds k) p).

Lemma dst_bounds k : 0 ≤ dst k < prod ds.
Proof. rewrite <- permuted_prod. apply lin_bounds, permuted_bounds, unlin_bounds, (a_sizes a Ha). Qed.

Lemma dst_inj k k' : 0 ≤ k < prod ds → 0 ≤ k' < prod ds → dst k = dst k' → k = k'.
Proof.
  intros Hk Hk' E. pose proof (a_sizes a Ha) as Hd. pose proof (unlin_bounds ds k Hd) as B1. pose proof (unlin_bounds ds k' Hd) as B2.
  apply lin_inj in E; [| by apply permuted_bounds ..]. destruct Hp as [P1 P2].
  apply sel_inj in E; [| done | rewrite P2; by apply in_bounds_length | rewrite P2; by apply in_bounds_length].
  rewrite <- (lin_unlin ds k), <- (lin_unlin ds k') by done. by rewrite E.
Qed.

Definition transposed (out : list A) : Array A :=
  MkArray ds' (store_all (dst <$> seqZ 0 (prod ds)) (values_ a) out).

Lemma transposed_spec out :
  Z.of_nat (length out) = prod ds →
  array_ok (transposed out) ∧ ∀ xs, in_bounds ds xs → get (transposed out) (sel xs p) = get a xs.
Proof.
  intros Ho. split.
  - unfold transposed. constructor; cbn [sizes_ values_]; [apply permuted_pos | by rewrite store_all_length, permuted_prod | rewrite permuted_prod; apply (a_max a Ha)].
  - intros xs Hb. pose proof (lin_bounds _ _ Hb) as Hl. destruct (get_some a xs Ha Hb) as [v Hv]. rewrite Hv.
    unfold get, transposed. cbn [sizes_ values_].
    replace (lin ds' (sel xs p)) with (dst (lin ds xs)) by (unfold dst; by rewrite unlin_lin).
    apply store_all_lookup with (k := Z.to_nat (lin ds xs)); [| | | exact Hv].
    + apply NoDup_fmap_2_strong; [| apply NoDup_seqZ]. intros k k' Hk%elem_of_seqZ Hk'%elem_of_seqZ. apply dst_inj; lia.
    + apply Forall_fmap, Forall_forall. intros k _. cbn. rewrite Ho. apply dst_bounds.
    + rewrite list_lookup_fmap. rewrite (proj2 (lookup_seqZ 0 (prod ds) _ (lin ds xs))) by lia. done.
Qed.

Lemma two_dimensions s0 s1 :
  ds = [s0; s1] → p = [1; 0] → (∀ out, Z.of_nat (length out) = prod ds →
  TransposeDimensionsImpl2D a out = Ok (values_ (transposed out))).
Proof.
  intros Ed Ep out Ho. pose proof (a_sizes a Ha) as Hpos. pose proof (a_values a Ha) as Hv. pose proof (a_max a Ha) as Hm.
  unfold TransposeDimensionsImpl2D, dim. rewrite Ed in *. cbn [at_z at_res mbind res_bind].
  apply Forall_cons in Hpos as [H0 Hpos]. apply Forall_cons in Hpos as [H1 _].
  rewrite !prod_cons in *. unfold prod in Hv, Hm, Ho. cbn [foldr] in Hv, Hm, Ho.
  change (at_z [s0; s1] 0) with (Ok s0). change (at_z [s0; s1] 1) with (Ok s1). cbn [mbind res_bind].
  rewrite transpose_rows_spec by (try done; lia). f_equal. unfold transposed. cbn [values_]. f_equal.
  rewrite Ed, Z.mul_0_l, Z2Nat.id by lia. replace (prod [s0; s1]) with (s0 * s1) by (unfold prod; cbn; lia).
  apply list_fmap_ext. intros i k [-> Hk]%lookup_seqZ. unfold dst. rewrite Ed, Ep. rewrite Z.add_0_l.
  assert (Hq : Z.of_nat i / s1 < s0) by (apply Z.div_lt_upper_bound; lia). pose proof (Z.div_pos (Z.of_nat i) s1).
  assert (Eu : unlin [s0; s1] (Z.of_nat i) = [Z.of_nat i / s1; Z.of_nat i mod s1]).
  { unfold unlin. cbn [reverse rev_append digits]. unfold reverse. cbn. rewrite Z.mod_small by lia. done. }
  rewrite Eu. change (sel [s0; s1] [1; 0]) with [s1; s0].
  change (sel [Z.of_nat i / s1; Z.of_nat i mod s1] [1; 0]) with [Z.of_nat i mod s1; Z.of_nat i / s1].
  unfold lin. cbn. lia.
Qed.

Lemma more_dimensions :
  ds ≠ [] → (∀ out, Z.of_nat (length out) = prod ds →
  TransposeDimensionsImpl3DOrMore p ds' a out = Ok (values_ (transposed out))).
Proof.
  intros Hne out Ho. pose proof (a_sizes a Ha) as Hpos. pose proof (a_values a Ha) as Hv. pose proof (a_max a Ha) as Hm.
  pose proof (prod_pos ds Hpos) as Hpp. unfold TransposeDimensionsImpl3DOrMore.
  destruct (values_ a) as [| v0 vs0] eqn:Ev; [cbn in Hv; lia |]. rewrite <- Ev.
  assert (Hlen : (length ds =? 0)%nat = false) by (apply Nat.eqb_neq; by destruct ds). rewrite Hlen. cbn [negb guard_res mbind res_bind].
  destruct (strides_of_spec ds' permuted_pos) as (st & Est & Lst & Dst); [by rewrite permuted_prod |]. rewrite Est. cbn [snd].
  destruct Hp as [[Pn Pr] Pl].
  destruct (scatter_spec st p (replicate (length ds) 0)) as (ss & Ess & Lss & Hss & _); [done | | by rewrite Lst, length_sel |].
  { intros x Hx. rewrite length_replicate, <- Pl. by apply Pr. }
  rewrite Ess. cbn [mbind res_bind]. rewrite length_replicate in Lss.
  assert (Esel : sel ss p = st).
  { apply list_eq_same_length with (length p); [by rewrite Lst, length_sel | by rewrite length_sel |].
    intros i x y Hi Hx Hy. destruct (lookup_lt_is_Some_2 p i Hi) as [q Hq]. rewrite (sel_lookup _ _ _ _ Hq) in Hx. injection Hx as <-.
    apply list_lookup_total_correct. by rewrite (Hss i q Hq). }
  assert (Hdot : ∀ xs, in_bounds ds xs → dot xs ss = lin ds' (sel xs p)).
  { intros xs Hb. pose proof (in_bounds_length _ _ Hb) as El. rewrite <- Dst by (by rewrite !length_sel).
    rewrite <- Esel. symmetry. apply Places.dot_sel; [split; [done | congruence] | congruence]. }
  assert (Hdb : ∀ xs, in_bounds ds xs → 0 ≤ dot xs ss < prod ds).
  { intros xs Hb. rewrite Hdot by done. rewrite <- permuted_prod. by apply lin_bounds, permuted_bounds. }
  assert (Hcur : MkCursor 0 (replicate (length ds) 0) (replicate (length ds) 0) = cursor ss (unlin ds 0)).
  { unfold cursor. rewrite unlin_0, dot_zeros, psums_zeros by done. done. }
  rewrite Hcur, transpose_loop_spec; [| done | done | done | | congruence | done | rewrite Ev in *; lia |].
  - f_equal. unfold transposed. cbn [values_]. rewrite Ev. f_equal. rewrite Hv.
    apply list_fmap_ext. intros i k _. unfold dst. apply Hdot, unlin_bounds, Hpos.
  - intros xs Hb. pose proof (Hdb xs Hb). lia.
  - intros xs Hb. rewrite Ho. by apply Hdb.
Qed.
End Result.

Lemma identity_sel xs p : IsIdentityPermutation p = true → length p = length xs → sel xs p = xs.
Proof.
  intros Hi Hl. unfold IsIdentityPermutation in Hi. apply bool_decide_eq_true in Hi. rewrite Hi, Hl. apply sel_seqZ.
Qed.

Lemma swap_two p : perm p → length p = 2%nat → IsIdentityPermutation p = false → p = [1; 0].
Proof.
  intros [Hn Hr] Hl Hi. unfold IsIdentityPermutation in Hi. apply bool_decide_eq_false in Hi.
  destruct p as [| p0 [| p1 []]]; try done. pose proof (Hr p0 ltac:(left)) as H0. pose proof (Hr p1 ltac:(right; left)) as H1.
  cbn in H0, H1. apply NoDup_cons in Hn as [Hn _]. rewrite list_elem_of_singleton in Hn.
  destruct (decide (p0 = 0)) as [-> |].
  - exfalso. apply Hi. assert (p1 = 1) as -> by lia. done.
  - assert (p0 = 1) as -> by lia. by assert (p1 = 0) as -> by lia.
Qed.

Lemma TransposeDimensions_spec {A} (u : A) p a :
  array_ok a → valid_layout (sizes_ a) p →
  ∃ b, TransposeDimensions u p a = Ok b ∧ sizes_ b = sel (sizes_ a) p ∧ array_ok b ∧
    ∀ xs, in_bounds (sizes_ a) xs → get b (sel xs p) = get a xs.
Proof.
  intros Ha Hp. pose proof Hp as [P1 P2]. unfold TransposeDimensions.
  rewrite (proj2 (Nat.eqb_eq (length (sizes_ a)) (length p))) by lia. cbn [guard_res mbind res_bind].
  destruct (IsIdentityPermutation p) eqn:Ei.
  { exists a. split; [done |]. rewrite identity_sel by done. split; [done |]. split; [done |].
    intros xs Hb. rewrite identity_sel; [done | done |]. rewrite P2. by apply in_bounds_length. }
  rewrite (mapM_pure _ (λ i, sizes_ a !!! Z.to_nat i)) by (intros i Hi; apply at_z_total; rewrite <- P2; by apply P1).
  fold (sel (sizes_ a) p). cbn [mbind res_bind].
  rewrite make_ok by (by apply permuted_pos || (rewrite permuted_prod by done; apply (a_max a Ha))). cbn [mbind res_bind values_].
  set (out := replicate (Z.to_nat (prod (sel (sizes_ a) p))) u).
  pose proof (prod_pos _ (a_sizes a Ha)).
  assert (Ho : Z.of_nat (length out) = prod (sizes_ a)).
  { unfold out. rewrite length_replicate, permuted_prod by done. lia. }
  exists (transposed a p out). split; [| split; [done | by apply transposed_spec]].
  destruct (Nat.eqb_spec (length (sizes_ a)) 2) as [E2 | E2].
  - assert (Hds : ∃ s0 s1, sizes_ a = [s0; s1]) by (destruct (sizes_ a) as [| s0 [| s1 []]]; try done; by exists s0, s1).
    destruct Hds as (s0 & s1 & Hds). rewrite (two_dimensions a p Ha Hp s0 s1 Hds); [done | | done].
    apply swap_two; [done | lia | done].
  - rewrite (more_dimensions a p Ha Hp); [done | | done]. intros E. rewrite E in P2. by destruct p.
Qed.

(** C23: transposing an array of any rank moves the element at every index to the permuted
    index; no element is lost, and no write is out of range. *)
Theorem TransposeDimensions_moves {A} (u : A) p a :
  array_ok a → valid_layout (sizes_ a) p →
  ∃ b, TransposeDimensions u p a = Ok b ∧ sizes_ b = sel (sizes_ a) p ∧
    ∀ xs, in_bounds (sizes_ a) xs → ∃ v, element a xs = Ok v ∧ element b (sel xs p) = Ok v.
Proof.
  intros Ha Hp. destruct (TransposeDimensions_spec u p a Ha Hp) as (b & Eb & Sb & Hb & Gb). exists b. split; [done |]. split; [done |].
  intros xs Hx. destruct (get_some a xs Ha Hx) as [v Hv]. exists v. split; [by apply element_get |].
  apply element_get; [done | | by rewrite Gb]. rewrite Sb. by apply permuted_bounds.
Qed.

Lemma TransposeDimensions_moves_witness :
  ∃ b, TransposeDimensions 9 [2; 0; 1] (MkArray [2; 2; 3] (seqZ 0 12)) = Ok b ∧ element b [2; 1; 0] = Ok 8.
Proof.
  destruct (TransposeDimensions_moves 9 [2; 0; 1] (MkArray [2; 2; 3] (seqZ 0 12))) as (b & E & _ & H).
  - constructor; cbn; [repeat constructor; lia | reflexivity | int_lia].
  - split; [apply IsPermutation_perm; vm_compute; reflexivity | reflexivity].
  - exists b. split; [exact E |]. destruct (H [1; 0; 2]) as (v & Ev & Eb); [cbn; repeat constructor; lia |].
    vm_compute in Ev. injection Ev as <-. exact Eb.
Defined.
End ArrayTranspose.
