(* ===== verification/TileAssign.v ===== *)
(** * Tile assignments

    Models [xla/hlo/ir/tile_assignment.h] and [.cc]: the assignment of devices to the
    tiles of a sharded array, as a full array of devices or as an iota that is reshaped
    and transposed. *)
From S2P Require Import Prelude PermUtil Layouts Arrays.
#[local] Open Scope Z_scope.

Module TileAssign.
Import PermUtil Layouts Arrays.

(** ** Canonical iotas *)

(** The new number of every dimension, -1 for one of size 1, and how many there are. *)
Fixpoint old_to_new_dims (new_ndims : Z) (dims : list Z) : list Z * Z :=
  match dims with
  | [] => ([], new_ndims)
  | d :: dims =>
      if d =? 1 then let '(l, n) := old_to_new_dims new_ndims dims in ((-1) :: l, n)
      else let '(l, n) := old_to_new_dims (new_ndims + 1) dims in (new_ndims :: l, n)
  end.

(** The loop that moves the dimensions that stay to the front, never past the one it
    reads. *)
Fixpoint compact_dims (news dims : list Z) : list Z :=
  match news, dims with
  | n :: news, d :: dims => if n >=? 0 then d :: compact_dims news dims else compact_dims news dims
  | _, _ => []
  end.

Fixpoint compact_perm (news perm : list Z) : res (list Z) :=
  match perm with
  | [] => Ok []
  | p :: perm =>
      n ← at_z news p;
      rest ← compact_perm news perm;
      Ok (if n >=? 0 then n :: rest else rest)
  end.

Definition remove_ones (dims perm : list Z) : res (list Z * list Z) :=
  let '(news, new_ndims) := old_to_new_dims 0 dims in
  if new_ndims =? Z.of_nat (length dims) then Ok (dims, perm)
  else perm ← compact_perm news perm; Ok (compact_dims news dims, perm).

(** The loop that merges runs of consecutive dimensions; [offset] is [i - base]. *)
Fixpoint merge_loop (perm : list Z) (base_dim offset : Z) (dims : list Z) (changed : bool) : res (list Z * bool) :=
  match perm with
  | [] => Ok (dims, changed)
  | dim :: perm =>
      if base_dim + offset =? dim then
        d ← at_z dims base_dim;
        e ← at_z dims dim;
        m ← s64 (d * e);
        merge_loop perm base_dim (offset + 1) (<[Z.to_nat dim := 1]> (<[Z.to_nat base_dim := m]> dims)) true
      else merge_loop perm dim 1 dims changed
  end.

Definition merge_dims (dims perm : list Z) : res (list Z * bool) :=
  match perm with
  | [] => Ok (dims, false)
  | base_dim :: perm => merge_loop perm base_dim 1 dims false
  end.

(** Each turn but the last sets a dimension to 1, which the next one removes. *)
Fixpoint canonicalize_loop (fuel : nat) (dims perm : list Z) : res (list Z * list Z) :=
  match fuel with
  | O => Fail NoFuel
  | S fuel =>
      '(dims, perm) ← remove_ones dims perm;
      '(dims, changed) ← merge_dims dims perm;
      if (changed : bool) then canonicalize_loop fuel dims perm else Ok (dims, perm)
  end.

Definition CanonicalizeIotaDims (dims perm : list Z) : res (list Z * list Z) :=
  if (length dims <=? 1)%nat then Ok (dims, perm) else canonicalize_loop (S (length dims)) dims perm.

(** ** Iota tile assignments *)

Record IotaTileAssignment := MkIota {
  dims : list Z; reshape_dims : list Z; transpose_perm : list Z
}.

#[global] Instance IotaTileAssignment_eq_dec : EqDecision IotaTileAssignment.
Proof. solve_decision. Defined.

Definition ndims (t : IotaTileAssignment) : Z := Z.of_nat (length (dims t)).
Definition iota_num_elements (t : IotaTileAssignment) : res Z := accumulate 1 (dims t).

(** [Create] for a trivial iota. *)
Definition CreateTrivial (dims : list Z) : res IotaTileAssignment :=
  n ← accumulate 1 dims; Ok (MkIota dims [n] [0]).

Definition Create (dims reshape_dims transpose_perm : list Z) : res IotaTileAssignment :=
  '(canonicalized_dims, canonicalized_perm) ← CanonicalizeIotaDims reshape_dims transpose_perm;
  match canonicalized_dims with
  | [] =>
      guard_res (negb (length reshape_dims =? 0)%nat) Undefined;;
      Ok (MkIota dims [1] [0])
  | _ => Ok (MkIota dims canonicalized_dims canonicalized_perm)
  end.

(** Reshaping an iota, transposing it and reshaping it again. *)
Definition to_array (reshape_dims transpose_perm dims : list Z) : res (Array Z) :=
  array ← make reshape_dims 0;
  array ← FillIota 0 array;
  array ← TransposeDimensions 0 transpose_perm array;
  Reshape dims array.

Definition ToArray (t : IotaTileAssignment) : res (Array Z) :=
  to_array (reshape_dims t) (transpose_perm t) (dims t).

(** *** The value at an index *)

(** The loop from the second dimension on; the next one keeps the digits of the
    dimensions of the iota, the last of the permutation first. *)
Fixpoint linear_loop (linear_index : Z) (dims index : list Z) : res Z :=
  match dims with
  | [] => Ok linear_index
  | d :: dims =>
      match index with
      | [] => Fail Undefined
      | i :: index =>
          linear_index ← s64 (linear_index * d);
          linear_index ← s64 (linear_index + i);
          linear_loop linear_index dims index
      end
  end.

Fixpoint reshape_index_loop (perm reshape_dims : list Z) (linear_index : Z) (reshape_index : list Z) : res (list Z) :=
  match perm with
  | [] => Ok reshape_index
  | dim :: perm =>
      size ← at_z reshape_dims dim;
      let dim_size := to_int size in
      r ← c_mod linear_index dim_size;
      at_z reshape_index dim;;
      q ← c_div linear_index dim_size;
      reshape_index_loop perm reshape_dims q (<[Z.to_nat dim := r]> reshape_index)
  end.

Definition value_at (t : IotaTileAssignment) (index : list Z) : res Z :=
  first ← at_res index 0;
  linear_index ← linear_loop first (tail (dims t)) (tail index);
  reshape_index ← reshape_index_loop (reverse (transpose_perm t)) (reshape_dims t) linear_index
                    (replicate (length (reshape_dims t)) 0);
  value ← at_res reshape_index 0;
  linear_loop value (tail (reshape_dims t)) (tail reshape_index).

(** *** Transposing *)

Inductive TransposeKind := kNoop | kReshape | kTranspose.

Fixpoint transpose_kind_loop (dims perm : list Z) (i : Z) (prev_non_one_dim : Z) (kind : TransposeKind) : res TransposeKind :=
  match perm with
  | [] => Ok kind
  | d :: perm =>
      n ← at_z dims d;
      if n =? 1 then
        at_i ← (if d =? i then Ok 1 else at_z dims i);
        transpose_kind_loop dims perm (i + 1) prev_non_one_dim
          (if negb (d =? i) && negb (at_i =? 1) then kReshape else kind)
      else if d <=? prev_non_one_dim then Ok kTranspose
      else transpose_kind_loop dims perm (i + 1) d kind
  end.

Definition GetTransposeKind (dims perm : list Z) : res TransposeKind :=
  transpose_kind_loop dims perm 0 (-1) kNoop.

(** The prime factors of a dimension: the twos, the odd ones up to the root, the rest. *)
Fixpoint factor_out (fuel : nat) (i dim_size : Z) (factors : list Z) : res (Z * list Z) :=
  match fuel with
  | O => Fail NoFuel
  | S fuel =>
      r ← c_mod dim_size i;
      if r =? 0 then q ← c_div dim_size i; factor_out fuel i q (factors ++ [i])
      else Ok (dim_size, factors)
  end.

Fixpoint odd_factors (fuel : nat) (i dim_size : Z) (factors : list Z) : res (Z * list Z) :=
  match fuel with
  | O => Fail NoFuel
  | S fuel =>
      square ← s32 (i * i);
      if square <=? dim_size then
        '(dim_size, factors) ← factor_out 65 i dim_size factors;
        next ← s32 (i + 2);
        odd_factors fuel next dim_size factors
      else Ok (dim_size, factors)
  end.

Definition prime_factors (dim_size : Z) (factors : list Z) : res (list Z) :=
  '(dim_size, factors) ← factor_out 65 2 dim_size factors;
  '(dim_size, factors) ← odd_factors (Z.to_nat (Z.sqrt dim_size) + 2) 3 dim_size factors;
  if dim_size >? 1 then guard_res (dim_size >? 2) CheckFailed;; Ok (factors ++ [dim_size]) else Ok factors.

Record DecanonicalizationInfo := MkInfo {
  new_reshape_dims : list Z;
  new_transpose_perm : list Z;
  new_transpose_perm_idx_to_original_reshape_dim : list Z;
  original_reshape_dim_to_new_transpose_perm_indices : list (list Z)
}.

(** The factors of all dimensions, and where those of each one begin. *)
Fixpoint decanonicalize_dims (reshape_dims factors old_to_new : list Z) : res (list Z * list Z) :=
  match reshape_dims with
  | [] => Ok (factors, old_to_new)
  | d :: reshape_dims =>
      factors ← prime_factors d factors;
      decanonicalize_dims reshape_dims factors (old_to_new ++ [Z.of_nat (length factors)])
  end.

(** The factors [j] to [n - 1] of the dimension [old_dim]. *)
Fixpoint push_factors (count : nat) (j old_dim : Z) (info : DecanonicalizationInfo) : res DecanonicalizationInfo :=
  match count with
  | O => Ok info
  | S count =>
      let perm := new_transpose_perm info ++ [j] in
      indices ← at_z (original_reshape_dim_to_new_transpose_perm_indices info) old_dim;
      push_factors count (j + 1) old_dim
        (MkInfo (new_reshape_dims info) perm
           (new_transpose_perm_idx_to_original_reshape_dim info ++ [old_dim])
           (<[Z.to_nat old_dim := indices ++ [Z.of_nat (length perm) - 1]]>
              (original_reshape_dim_to_new_transpose_perm_indices info)))
  end.

Fixpoint decanonicalize_perm (transpose_perm old_to_new : list Z) (info : DecanonicalizationInfo) : res DecanonicalizationInfo :=
  match transpose_perm with
  | [] => Ok info
  | old_dim :: transpose_perm =>
      j ← at_z old_to_new old_dim;
      n ← at_z old_to_new (old_dim + 1);
      info ← push_factors (Z.to_nat (n - j)) j old_dim info;
      decanonicalize_perm transpose_perm old_to_new info
  end.

Definition FullyDecanonicalize (reshape_dims transpose_perm : list Z) : res DecanonicalizationInfo :=
  '(factors, old_to_new) ← decanonicalize_dims reshape_dims [] [0];
  decanonicalize_perm transpose_perm old_to_new
    (MkInfo factors [] [] (replicate (length transpose_perm) [])).

(** The dimensions that are not of size 1, their numbers, and whether the iota has just
    these dimensions in its order. *)
Record NonOne := MkNonOne { non_one_dims : list Z; one_to_non_one : list Z; is_pure_transpose : bool }.

Fixpoint non_one_loop (dims reshape_dims transpose_perm : list Z) (s : NonOne) : res NonOne :=
  match dims with
  | [] => Ok s
  | d :: dims =>
      if d =? 1 then
        non_one_loop dims reshape_dims transpose_perm (MkNonOne (non_one_dims s) (one_to_non_one s ++ [-1]) (is_pure_transpose s))
      else
        let k := length (non_one_dims s) in
        differs ← (if (length reshape_dims <=? k)%nat then Ok true
                   else p ← at_res transpose_perm k; e ← at_z reshape_dims p; Ok (negb (e =? d)));
        non_one_loop dims reshape_dims transpose_perm
          (MkNonOne (non_one_dims s ++ [d]) (one_to_non_one s ++ [Z.of_nat k])
             (if (differs : bool) then false else is_pure_transpose s))
  end.

(** The permutation of the iota's dimensions when each is one of the array's. *)
Fixpoint pure_perm (dims one_to_non_one transpose_perm perm : list Z) : res (list Z) :=
  match perm with
  | [] => Ok []
  | d :: perm =>
      n ← at_z dims d;
      if n =? 1 then pure_perm dims one_to_non_one transpose_perm perm
      else
        k ← at_z one_to_non_one d;
        p ← at_z transpose_perm k;
        rest ← pure_perm dims one_to_non_one transpose_perm perm;
        Ok (p :: rest)
  end.

(** The first later factor of the same dimension that divides the target. *)
Fixpoint later_candidate (info : DecanonicalizationInfo) (reshape_dims : list Z) (target transpose_perm_idx : Z)
    (indices : list Z) : res (option Z) :=
  match indices with
  | [] => Ok None
  | candidate :: indices =>
      if candidate >? transpose_perm_idx then
        new_reshape_dim_idx ← at_z (new_transpose_perm info) candidate;
        new_cand ← at_z reshape_dims new_reshape_dim_idx;
        r ← c_mod target new_cand;
        if r =? 0 then Ok (Some new_reshape_dim_idx)
        else later_candidate info reshape_dims target transpose_perm_idx indices
      else later_candidate info reshape_dims target transpose_perm_idx indices
  end.

(** The dimension to use, and the factors, two of which may have changed places. *)
Definition generate_candidate (info : DecanonicalizationInfo) (reshape_dims : list Z) (target transpose_perm_idx : Z)
    : res (option Z * list Z) :=
  reshape_dim_idx ← at_z (new_transpose_perm info) transpose_perm_idx;
  cand ← at_z reshape_dims reshape_dim_idx;
  r ← c_mod target cand;
  if r =? 0 then Ok (Some reshape_dim_idx, reshape_dims)
  else
    original ← at_z (new_transpose_perm_idx_to_original_reshape_dim info) transpose_perm_idx;
    indices ← at_z (original_reshape_dim_to_new_transpose_perm_indices info) original;
    later ← later_candidate info reshape_dims target transpose_perm_idx indices;
    match later with
    | None => Ok (None, reshape_dims)
    | Some j =>
        new_cand ← at_z reshape_dims j;
        Ok (Some reshape_dim_idx, <[Z.to_nat j := cand]> (<[Z.to_nat reshape_dim_idx := new_cand]> reshape_dims))
    end.

(** The loop that fills a group: what is left of the target, the group, the next index
    and the factors.  Every turn takes an index. *)
Fixpoint group_loop (fuel : nat) (info : DecanonicalizationInfo) (reshape_dims : list Z) (target transpose_perm_idx : Z)
    (group : list Z) : res (Z * list Z * Z * list Z) :=
  match fuel with
  | O => Fail NoFuel
  | S fuel =>
      '(candidate, reshape_dims) ← generate_candidate info reshape_dims target transpose_perm_idx;
      match candidate with
      | None => Ok (target, group, transpose_perm_idx, reshape_dims)
      | Some i =>
          cand ← at_z reshape_dims i;
          target ← c_div target cand;
          if transpose_perm_idx + 1 >=? Z.of_nat (length reshape_dims)
          then Ok (target, group ++ [i], transpose_perm_idx + 1, reshape_dims)
          else group_loop fuel info reshape_dims target (transpose_perm_idx + 1) (group ++ [i])
      end
  end.

(** The groups, none when some dimension cannot be made, and the factors. *)
Fixpoint groups_loop (info : DecanonicalizationInfo) (non_one_dims reshape_dims : list Z) (transpose_perm_idx : Z)
    (groups : list (list Z)) : res (option (list (list Z) * list Z)) :=
  match non_one_dims with
  | [] => Ok (Some (groups, reshape_dims))
  | target :: rest =>
      if transpose_perm_idx <? Z.of_nat (length reshape_dims) then
        '(remaining, group, transpose_perm_idx, reshape_dims) ←
          group_loop (S (length reshape_dims)) info reshape_dims target transpose_perm_idx [];
        if negb (remaining =? 1) then Ok None
        else groups_loop info rest reshape_dims transpose_perm_idx (groups ++ [group])
      else Ok (Some (groups ++ replicate (length (target :: rest)) [], reshape_dims))
  end.

Fixpoint flatten_groups (one_to_non_one : list Z) (groups : list (list Z)) (perm : list Z) : res (list Z) :=
  match perm with
  | [] => Ok []
  | d :: perm =>
      k ← at_z one_to_non_one d;
      if k <? 0 then flatten_groups one_to_non_one groups perm
      else
        group ← at_z groups k;
        rest ← flatten_groups one_to_non_one groups perm;
        Ok (group ++ rest)
  end.

(** The last part of [Transpose]: the factors of the iota grouped into the dimensions. *)
Definition transpose_by_factors (t : IotaTileAssignment) (s : NonOne) (new_dims perm : list Z)
    : res (option IotaTileAssignment) :=
  info ← FullyDecanonicalize (reshape_dims t) (transpose_perm t);
  guard_res (length (non_one_dims s) <=? length (new_reshape_dims info))%nat CheckFailed;;
  groups ← groups_loop info (non_one_dims s) (new_reshape_dims info) 0 [];
  match groups with
  | None => Ok None
  | Some (groups, factors) =>
      flattened ← flatten_groups (one_to_non_one s) groups perm;
      guard_res (length flattened =? length (new_transpose_perm info))%nat CheckFailed;;
      t ← Create new_dims factors flattened;
      Ok (Some t)
  end.

Definition Transpose (t : IotaTileAssignment) (perm : list Z) : res (option IotaTileAssignment) :=
  kind ← GetTransposeKind (dims t) perm;
  match kind with
  | kNoop => Ok (Some t)
  | _ =>
      new_dims ← mapM (at_z (dims t)) (take (length (dims t)) perm);
      match kind with
      | kReshape => t ← Create new_dims (reshape_dims t) (transpose_perm t); Ok (Some t)
      | _ =>
          if (length (reshape_dims t) =? 1)%nat then t ← Create new_dims (dims t) perm; Ok (Some t)
          else
            s ← non_one_loop (dims t) (reshape_dims t) (transpose_perm t) (MkNonOne [] [] true);
            if is_pure_transpose s then
              guard_res (length (reshape_dims t) =? length (non_one_dims s))%nat CheckFailed;;
              new_perm ← pure_perm (dims t) (one_to_non_one s) (transpose_perm t) (take (length (dims t)) perm);
              guard_res (length (reshape_dims t) =? length new_perm)%nat CheckFailed;;
              t ← Create new_dims (reshape_dims t) new_perm;
              Ok (Some t)
            else transpose_by_factors t s new_dims perm
      end
  end.

(** ** Tile assignments *)

(** The array is given, or made from the iota when it is asked for. *)
Record TileAssignment := MkTile { iota_ : option IotaTileAssignment; array_ : option (Array Z) }.

(** The array of the default one has no elements. *)
Definition Replicated : TileAssignment := MkTile None (Some (MkArray [0] [])).
Definition of_array (a : Array Z) : TileAssignment := MkTile None (Some a).
Definition of_device (device_id : Z) : TileAssignment := of_array (MkArray [1] [device_id]).
Definition of_iota (t : IotaTileAssignment) : TileAssignment := MkTile (Some t) None.
Definition of_dims (dims : list Z) : res TileAssignment := t ← CreateTrivial dims; Ok (of_iota t).
Definition of_transform (dims reshape_dims transpose_perm : list Z) : res TileAssignment :=
  t ← Create dims reshape_dims transpose_perm; Ok (of_iota t).

Definition MaybeMaterializeFullArray (t : TileAssignment) : res TileAssignment :=
  match array_ t, iota_ t with
  | Some _, _ => Ok t
  | None, Some i => full ← ToArray i; Ok (MkTile (iota_ t) (Some full))
  | None, None => Fail Undefined
  end.

(** The array, and the assignment that now holds it. *)
Definition array (t : TileAssignment) : res (Array Z * TileAssignment) :=
  t ← MaybeMaterializeFullArray t;
  match array_ t with Some a => Ok (a, t) | None => Fail Undefined end.

(** What is read from the array when there is one and else from the iota. *)
Definition read {A} (of_a : Array Z → res A) (of_i : IotaTileAssignment → res A) (t : TileAssignment) : res A :=
  match array_ t, iota_ t with
  | Some a, _ => of_a a
  | None, Some i => of_i i
  | None, None => Fail Undefined
  end.

Definition tile_at (t : TileAssignment) (indexes : list Z) : res Z :=
  read (λ a, element a indexes) (λ i, value_at i indexes) t.
Definition dimensions (t : TileAssignment) : res (list Z) := read (λ a, Ok (sizes_ a)) (λ i, Ok (dims i)) t.
Definition tile_num_dimensions (t : TileAssignment) : res Z :=
  read (λ a, Ok (Arrays.num_dimensions a)) (λ i, Ok (ndims i)) t.
Definition tile_dim (t : TileAssignment) (n : Z) : res Z := read (λ a, Arrays.dim a n) (λ i, at_z (dims i) n) t.
Definition tile_num_elements (t : TileAssignment) : res Z :=
  read (λ a, Ok (Arrays.num_elements a)) iota_num_elements t.
Definition first (t : TileAssignment) : res Z :=
  match array_ t with Some a => at_res (values_ a) 0 | None => Ok 0 end.

Definition tile_equal (t other : TileAssignment) : res bool :=
  match iota_ t, iota_ other with
  | Some i, Some j => Ok (bool_decide (i = j))
  | _, _ => '(a, _) ← array t; '(b, _) ← array other; equal Z.eqb a b
  end.

Definition tile_each (t : TileAssignment) : res (list (list Z * Z)) := '(a, _) ← array t; Each a.

Definition tile_reshape (t : TileAssignment) (new_dimensions : list Z) : res TileAssignment :=
  match iota_ t with
  | Some i =>
      n ← accumulate 1 new_dimensions;
      m ← iota_num_elements i;
      guard_res (n =? m) CheckFailed;;
      of_transform new_dimensions (reshape_dims i) (transpose_perm i)
  | None => '(a, _) ← array t; a ← Reshape new_dimensions a; Ok (of_array a)
  end.

Definition tile_transpose (t : TileAssignment) (perm : list Z) : res TileAssignment :=
  ds ← dimensions t;
  kind ← GetTransposeKind ds perm;
  match kind with
  | kNoop => Ok t
  | _ =>
      transposed ← (match iota_ t with Some i => Transpose i perm | None => Ok None end);
      match transposed with
      | Some i => Ok (of_iota i)
      | None => '(a, _) ← array t; a ← TransposeDimensions 0 perm a; Ok (of_array a)
      end
  end.

(** ** Sub-dimensions *)

Record SubDimInfo := MkSubDim {
  tile_dim_index : Z; tile_sub_dim_index : Z; reshape_dim_index : Z; size : Z
}.

(** The next factor that is not 1. *)
Fixpoint next_factor (val : Z) (array : list Z) : Z * list Z :=
  match array with
  | v :: array' => if val =? 1 then next_factor v array' else (val, array)
  | [] => (val, [])
  end.

(** The elements greater than 1 are at most 64 bits, and each turn halves one. *)
Fixpoint common_loop (fuel : nat) (array1 array2 : list Z) (val1 val2 : Z) (result : list Z) : res (list Z) :=
  match fuel with
  | O => Fail NoFuel
  | S fuel =>
      if bool_decide (array1 ≠ []) || bool_decide (array2 ≠ []) || (val1 >? 1) || (val2 >? 1) then
        let '(val1, array1) := next_factor val1 array1 in
        let '(val2, array2) := next_factor val2 array2 in
        if (val1 =? 1) && (val2 =? 1) then Ok result
        else if (val1 =? 1) || (val2 =? 1) then Ok []
        else
          let common := Z.min val1 val2 in
          r1 ← c_mod val1 common;
          if negb (r1 =? 0) then Ok []
          else
            r2 ← c_mod val2 common;
            if negb (r2 =? 0) then Ok []
            else
              q1 ← c_div val1 common;
              q2 ← c_div val2 common;
              common_loop fuel array1 array2 q1 q2 (result ++ [common])
      else Ok result
  end.

Definition ExtractCommonFactorSequence (array1 array2 : list Z) : res (list Z) :=
  common_loop (S (length array1 + length array2)) array1 array2 1 1 [].

(** Where the loop over the axes is, from the last axis on. *)
Record SubDimState := MkSubState {
  tile_index : Z; trans_perm_index : Z; acc_tile_size : Z; acc_device_size : Z; sub_dim : Z
}.

Fixpoint skip_ones (fuel : nat) (dims : list Z) (tile_index : Z) : res Z :=
  match fuel with
  | O => Fail NoFuel
  | S fuel => d ← at_z dims tile_index; if d =? 1 then skip_ones fuel dims (tile_index - 1) else Ok tile_index
  end.

Fixpoint sub_dims_loop (dims device_shape transpose_perm axis_sizes : list Z) (s : SubDimState) : res (list SubDimInfo) :=
  match axis_sizes with
  | [] => Ok []
  | axis_size :: axis_sizes =>
      i ← skip_ones (S (length dims)) dims (tile_index s);
      p ← at_z transpose_perm (trans_perm_index s);
      let info := MkSubDim i (sub_dim s) p axis_size in
      acc_tile ← s64 (acc_tile_size s * axis_size);
      acc_device ← s64 (acc_device_size s * axis_size);
      d ← at_z dims i;
      e ← at_z device_shape (trans_perm_index s);
      rest ← sub_dims_loop dims device_shape transpose_perm axis_sizes
        (MkSubState (if d =? acc_tile then i - 1 else i)
           (if e =? acc_device then trans_perm_index s - 1 else trans_perm_index s)
           (if d =? acc_tile then 1 else acc_tile) (if e =? acc_device then 1 else acc_device)
           (if d =? acc_tile then 0 else sub_dim s + 1));
      Ok (info :: rest)
  end.

(** The order of the sorted result. *)
Definition sub_dim_le (a b : SubDimInfo) : Prop :=
  reshape_dim_index a < reshape_dim_index b ∨
  (reshape_dim_index a = reshape_dim_index b ∧ tile_dim_index a ≤ tile_dim_index b).

#[global] Instance sub_dim_le_dec : RelDecision sub_dim_le.
Proof. intros a b. unfold sub_dim_le. apply _. Defined.

Definition GetOrderedSubDims (dims reshape_dims transpose_perm : list Z) : res (list SubDimInfo) :=
  device_shape ← mapM (at_z reshape_dims) transpose_perm;
  axis_sizes ← ExtractCommonFactorSequence dims device_shape;
  guard_res (negb (bool_decide (axis_sizes = []))) InvalidArgument;;
  sub_dims ← sub_dims_loop dims device_shape transpose_perm (reverse axis_sizes)
    (MkSubState (Z.of_nat (length dims) - 1) (Z.of_nat (length transpose_perm) - 1) 1 1 0);
  Ok (merge_sort sub_dim_le sub_dims).

Definition GetOrderedSubDimsFromIotaTileAssignment (t : IotaTileAssignment) : res (option (list SubDimInfo)) :=
  match GetOrderedSubDims (dims t) (reshape_dims t) (transpose_perm t) with
  | Ok l => Ok (Some l)
  | Fail InvalidArgument => Ok None
  | Fail e => Fail e
  end.

Record AnalyzeTileAssignmentResult := MkAnalysis {
  sub_dims : list SubDimInfo; local_mesh : list Z; analyzed_iota : IotaTileAssignment
}.

Fixpoint all_values_at (t : IotaTileAssignment) (l : list (list Z * Z)) (is_iota : bool) : res bool :=
  match l with
  | [] => Ok is_iota
  | (index, device_id) :: l => v ← value_at t index; all_values_at t l (if device_id =? v then is_iota else false)
  end.

Definition AnalyzeTileAssignment (t : TileAssignment) : res (option AnalyzeTileAssignmentResult) :=
  match iota_ t with
  | Some i =>
      found ← GetOrderedSubDimsFromIotaTileAssignment i;
      match found with
      | None => Fail CheckFailed
      | Some l => Ok (Some (MkAnalysis l (size <$> l) i))
      end
  | None =>
      ds ← dimensions t;
      let perm := seqZ 0 (Z.of_nat (length ds)) in
      match GetOrderedSubDims ds ds perm with
      | Fail InvalidArgument => Ok None
      | Fail e => Fail e
      | Ok l =>
          i ← Create ds ds perm;
          values ← tile_each t;
          is_iota ← all_values_at i values true;
          Ok (if (is_iota : bool) then Some (MkAnalysis l (size <$> l) i) else None)
      end
  end.

(** ** Examples *)

Example canonical_example : CanonicalizeIotaDims [1; 3; 1; 4; 1; 5] [4; 3; 2; 5; 1; 0] = Ok ([3; 20], [1; 0]).
Proof. vm_compute. reflexivity. Qed.

Example to_array_example :
  (t ← Create [4; 4; 1] [4; 2; 2] [1; 0; 2]; ToArray t) =
  Ok (MkArray [4; 4; 1] [0; 1; 4; 5; 8; 9; 12; 13; 2; 3; 6; 7; 10; 11; 14; 15]).
Proof. vm_compute. reflexivity. Qed.

Example swapped_factors :
  (t ← Create [4; 5; 24] [15; 4; 8] [1; 0; 2]; Transpose t [1; 0; 2]) =
  Ok (Some (MkIota [5; 4; 24] [5; 3; 4; 8] [0; 2; 1; 3])).
Proof. vm_compute. reflexivity. Qed.

Example factor_examples :
  ExtractCommonFactorSequence [6; 1; 4] [2; 6; 2] = Ok [2; 3; 2; 2] ∧ ExtractCommonFactorSequence [2; 3] [3; 2] = Ok [].
Proof. split; vm_compute; reflexivity. Qed.

Example sub_dims_example :
  GetOrderedSubDims [6; 35] [7; 10; 3] [2; 1; 0] =
  Ok [MkSubDim 1 0 0 7; MkSubDim 0 0 1 2; MkSubDim 1 1 1 5; MkSubDim 0 1 2 3].
Proof. vm_compute. reflexivity. Qed.
End TileAssign.
