(* ===== verification/TileValue.v ===== *)
(** * Tile assignments: the devices of an iota

    What an iota that is reshaped and transposed holds at a linear index, and that both
    [value_at] and the full array compute this. *)
From S2P Require Import Prelude PermUtil Radix Layouts IndexProofs TilingProofs Places TransposeProofs Arrays ArrayProofs TileAssign.
#[local] Open Scope Z_scope.

Module TileValue.
Import PermUtil Radix IndexProofs Arrays ArrayProofs ArrayTranspose TransposeProofs TileAssign.

(** ** The device at a linear index *)

(** The number of elements below one step of every dimension. *)
Fixpoint weights (ds : list Z) : list Z :=
  match ds with [] => [] | _ :: ds => prod ds :: weights ds end.

Lemma length_weights ds : length (weights ds) = length ds.
Proof. induction ds as [| d ds IH]; [done |]. cbn. by rewrite IH. Qed.

Lemma dot_weights ds xs : length xs = length ds → dot xs (weights ds) = lin ds xs.
Proof.
  revert xs. induction ds as [| d ds IH]; intros [| x xs] Hl; try done. injection Hl as Hl.
  cbn [weights]. by rewrite dot_cons, IH, lin_cons by done.
Qed.

Definition flat (reshape_dims perm : list Z) (k : Z) : Z :=
  dot (unlin (sel reshape_dims perm) k) (sel (weights reshape_dims) perm).

(** The same with the sizes and weights as digits, minor first. *)
Definition pairs (reshape_dims perm : list Z) : list (Z * Z) :=
  zip (sel reshape_dims perm) (sel (weights reshape_dims) perm).

Lemma dot_unlin ds ss k : length ds = length ss → dot (unlin ds k) ss = val (reverse (zip ds ss)) k.
Proof.
  intros Hl. unfold unlin. rewrite zip_reverse by done. rewrite dot_zsum.
  rewrite <- (reverse_involutive ss) at 1. rewrite <- zip_reverse by (by rewrite length_digits, !length_reverse).
  rewrite reverse_Permutation. rewrite <- dot_zsum.
  assert (Hl' : length (reverse ds) = length (reverse ss)) by (by rewrite !length_reverse).
  generalize (reverse ds) (reverse ss) Hl'. clear. intros ds. revert k.
  induction ds as [| d ds IH]; intros k [| s ss] Hl; try done. injection Hl as Hl. cbn [digits zip zip_with val]. rewrite dot_cons.
  by rewrite IH.
Qed.

Lemma flat_val R p k : flat R p k = val (reverse (pairs R p)) k.
Proof. unfold flat, pairs. apply dot_unlin. by rewrite !length_sel. Qed.

Lemma flat_lin R p xs : valid_layout R p → in_bounds R xs → flat R p (lin (sel R p) (sel xs p)) = lin R xs.
Proof.
  intros Hp Hb. unfold flat. rewrite unlin_lin by (apply in_bounds_sel; [done | by eapply valid_layout_in_range]).
  pose proof (in_bounds_length _ _ Hb) as El.
  rewrite Places.dot_sel; [by rewrite dot_weights | destruct Hp; split; [done | congruence] | by rewrite length_weights].
Qed.

(** Every index into the transposed array comes from one into the iota. *)
Lemma transposed_from R p ys :
  valid_layout R p → in_bounds (sel R p) ys → ∃ xs, in_bounds R xs ∧ sel xs p = ys.
Proof.
  intros Hp Hb. pose proof Hp as [Hp1 Hp2]. pose proof (in_bounds_length _ _ Hb) as El. rewrite length_sel in El.
  destruct (inverse_sel p Hp1) as (q & _ & Hq & Lq & E1 & E2). exists (sel ys q).
  assert (E : sel (sel ys q) p = ys).
  { rewrite <- sel_sel by (by apply (perm_in_range q)). rewrite E1, El. apply sel_seqZ. }
  split; [| done]. apply (sel_in_bounds R p); [done | rewrite length_sel; congruence | by rewrite E].
Qed.

Lemma flat_bounds R p k :
  valid_layout R p → Forall (λ d, 0 < d) R → 0 ≤ k < prod R → 0 ≤ flat R p k < prod R.
Proof.
  intros Hp Hd Hk. pose proof (valid_layout_in_range R p R Hp eq_refl) as Hr. pose proof (sel_pos R p Hd Hr) as Hd'.
  destruct (transposed_from R p (unlin (sel R p) k) Hp (unlin_bounds _ _ Hd')) as (xs & Hb & E).
  rewrite <- (lin_unlin (sel R p) k), <- E, flat_lin by (done || by rewrite sel_perm). by apply lin_bounds.
Qed.

Lemma flat_inj R p k k' :
  valid_layout R p → Forall (λ d, 0 < d) R → 0 ≤ k < prod R → 0 ≤ k' < prod R → flat R p k = flat R p k' → k = k'.
Proof.
  intros Hp Hd Hk Hk' E. pose proof (valid_layout_in_range R p R Hp eq_refl) as Hr. pose proof (sel_pos R p Hd Hr) as Hd'.
  destruct (transposed_from R p (unlin (sel R p) k) Hp (unlin_bounds _ _ Hd')) as (xs & Hb & Ex).
  destruct (transposed_from R p (unlin (sel R p) k') Hp (unlin_bounds _ _ Hd')) as (ys & Hc & Ey).
  rewrite <- (lin_unlin (sel R p) k), <- (lin_unlin (sel R p) k') in E by (done || by rewrite sel_perm).
  rewrite <- Ex, <- Ey, !flat_lin in E by done. apply lin_inj in E; [| done | done]. subst ys.
  rewrite <- (lin_unlin (sel R p) k), <- (lin_unlin (sel R p) k') by (done || by rewrite sel_perm). congruence.
Qed.

(** ** Valid assignments *)

(** As many elements in the iota as in the result, no more than an [int] can count. *)
Record transform_ok (ds R p : list Z) : Prop := {
  tr_dims : Forall (λ d, 0 < d) ds;
  tr_reshape : Forall (λ d, 0 < d) R;
  tr_some : ds ≠ [] ∧ R ≠ [];
  tr_perm : valid_layout R p;
  tr_prod : prod R = prod ds;
  tr_max : prod ds < 2 ^ 31
}.

Definition iota_ok (t : IotaTileAssignment) : Prop := transform_ok (dims t) (reshape_dims t) (transpose_perm t).

Lemma tr_ints ds R p : transform_ok ds R p → Forall (λ d, 0 < d < 2 ^ 31) R.
Proof.
  intros H. pose proof (tr_prod _ _ _ H). pose proof (tr_max _ _ _ H).
  eapply Forall_impl; [apply (sizes_le R (2 ^ 31 - 1)); [apply H | lia] |]. cbn beta. lia.
Qed.

(** ** [value_at] *)

Lemma linear_loop_index k ds xs : linear_loop k ds xs = index_loop k ds xs.
Proof. done. Qed.

(** The first index and the loop over the rest. *)
Lemma linear_spec ds xs :
  ds ≠ [] → in_bounds ds xs → prod ds ≤ int64_max →
  (first ← at_res xs 0; linear_loop first (tail ds) (tail xs)) = Ok (lin ds xs).
Proof.
  intros Hne Hb Hm. destruct Hb as [| d x ds xs Hx Hb]; [done |]. cbn [at_res lookup list_lookup mbind res_bind tail].
  rewrite linear_loop_index, (index_loop_spec x [d] ds xs).
  - f_equal. by rewrite lin_cons by (by eapply in_bounds_length).
  - constructor; [lia | done].
  - done.
  - by rewrite prod_singleton.
  - by rewrite prod_singleton.
Qed.

Lemma to_int_id d : 0 < d < 2 ^ 31 → Layouts.to_int d = d.
Proof. intros Hd. unfold Layouts.to_int. rewrite Z.mod_small; lia. Qed.

Lemma reshape_index_loop_spec R k m idx :
  NoDup m → in_range R m → Forall (λ d, 0 < d < 2 ^ 31) R → length idx = length R → 0 ≤ k ≤ int64_max →
  ∃ out, reshape_index_loop m R k idx = Ok out ∧ length out = length R ∧ sel out m = digits (sel R m) k ∧
    ∀ q, 0 ≤ q → q ∉ m → out !!! Z.to_nat q = idx !!! Z.to_nat q.
Proof.
  intros Hn Hr Hd. revert k idx. induction Hn as [| dim m Hdim Hn IH]; intros k idx Hl Hk; cbn [reshape_index_loop].
  { by exists idx. }
  pose proof (Hr dim ltac:(left)) as Hdr. assert (Hr' : in_range R m) by (intros q Hq; apply Hr; by right).
  assert (He : 0 < R !!! Z.to_nat dim < 2 ^ 31).
  { rewrite Forall_lookup in Hd. apply (Hd (Z.to_nat dim)), list_lookup_lookup_total_lt. lia. }
  rewrite (at_z_total R dim Hdr). cbn [mbind res_bind]. rewrite to_int_id by exact He.
  set (e := R !!! Z.to_nat dim) in *.
  rewrite c_mod_pos by lia. cbn [mbind res_bind]. rewrite at_z_total by lia. cbn [mbind res_bind].
  rewrite c_div_pos by lia. cbn [mbind res_bind].
  destruct (IH Hr' (k / e) (<[Z.to_nat dim := k mod e]> idx)) as (out & E & Hlen & Hsel & Hout).
  { by rewrite length_insert. }
  { pose proof (Z.div_pos k e). pose proof (Z.div_le_upper_bound k e k). int_nia. }
  exists out. split; [done |]. split; [done |]. split.
  - rewrite !sel_cons, Hsel. cbn [digits]. fold e. f_equal. rewrite Hout by (done || lia).
    apply list_lookup_total_insert_eq. lia.
  - intros q Hq Hqn. rewrite Hout by (done || set_solver). apply list_lookup_total_insert_ne.
    intros E'. apply Hqn. replace q with dim by lia. by left.
Qed.

Lemma value_at_spec t xs :
  iota_ok t → in_bounds (dims t) xs →
  value_at t xs = Ok (flat (reshape_dims t) (transpose_perm t) (lin (dims t) xs)).
Proof.
  intros Ht Hb. destruct t as [ds R p]. pose proof (tr_reshape _ _ _ Ht) as HR. pose proof (tr_perm _ _ _ Ht) as Hp.
  pose proof (tr_max _ _ _ Ht) as Hm'. pose proof (tr_prod _ _ _ Ht) as Hpr. destruct (tr_some _ _ _ Ht) as [N1 N2].
  cbn [dims reshape_dims transpose_perm] in *. assert (Hm : prod ds ≤ int64_max) by int_lia. unfold value_at. cbn [dims reshape_dims transpose_perm].
  pose proof (linear_spec ds xs N1 Hb Hm) as E. destruct (at_res xs 0) as [x |] eqn:E0; [| done]. cbn [mbind res_bind] in *.
  rewrite E. cbn [mbind res_bind]. pose proof (lin_bounds ds xs Hb) as Hk.
  pose proof (valid_layout_in_range R p R Hp eq_refl) as Hr.
  destruct (reshape_index_loop_spec R (lin ds xs) (reverse p) (replicate (length R) 0)) as (r & Er & Hlen & Hsel & _).
  { rewrite reverse_Permutation. apply Hp. }
  { intros q Hq. apply Hr. by rewrite reverse_Permutation in Hq. }
  { apply (tr_ints _ _ _ Ht). }
  { apply length_replicate. }
  { lia. }
  rewrite Er. cbn [mbind res_bind].
  assert (Es : sel r p = unlin (sel R p) (lin ds xs)).
  { apply (inj reverse). rewrite <- sel_reverse, Hsel, sel_reverse. unfold unlin. by rewrite reverse_involutive. }
  assert (Hbr : in_bounds R r).
  { apply (sel_in_bounds R p); [done | done |]. rewrite Es. apply unlin_bounds. by apply sel_pos. }
  rewrite linear_spec by (done || lia). f_equal.
  rewrite <- (flat_lin R p r Hp Hbr), Es. f_equal. apply lin_unlin; [by apply sel_pos |]. rewrite sel_perm by done. lia.
Qed.

(** ** The full array *)

Lemma iota_spec n v : 0 ≤ v → v + Z.of_nat n ≤ int64_max → Arrays.iota n v = Ok (seqZ v (Z.of_nat n)).
Proof.
  revert v. induction n as [| n IH]; intros v Hv Hm; [done |]. cbn [Arrays.iota]. rewrite s64_in by int_lia. cbn [mbind res_bind].
  rewrite IH by lia. cbn [mbind res_bind]. rewrite (seqZ_cons v) by lia. unfold Z.succ. replace (Z.pred (Z.of_nat (S n))) with (Z.of_nat n) by lia. done.
Qed.

Lemma to_array_spec ds R p :
  transform_ok ds R p → to_array R p ds = Ok (MkArray ds (flat R p <$> seqZ 0 (prod ds))).
Proof.
  intros Ht. pose proof (tr_reshape _ _ _ Ht) as HR. pose proof (tr_perm _ _ _ Ht) as Hp.
  pose proof (tr_max _ _ _ Ht) as Hm'. assert (Hm : prod ds ≤ int64_max) by int_lia. pose proof (tr_prod _ _ _ Ht) as Hpr. pose proof (prod_pos _ HR) as Hpos.
  unfold to_array. rewrite make_ok by (done || lia). cbn [mbind res_bind]. unfold FillIota. cbn [values_ sizes_].
  rewrite length_replicate, iota_spec by lia. cbn [mbind res_bind]. rewrite Z2Nat.id by lia.
  set (a := MkArray R (seqZ 0 (prod R))).
  assert (Ha : array_ok a) by (constructor; cbn [a sizes_ values_]; [done | rewrite length_seqZ; lia | lia]).
  destruct (TransposeDimensions_spec 0 p a Ha Hp) as (b & Eb & Sb & Hb & Gb). cbn [sizes_ a] in Sb, Gb.
  rewrite Eb. cbn [mbind res_bind]. pose proof (a_values b Hb) as Hv. rewrite Sb, sel_perm in Hv by done.
  unfold Reshape. rewrite calculate_elements_spec by (done || apply (tr_dims _ _ _ Ht)). cbn [mbind res_bind].
  unfold num_elements. rewrite (proj2 (Z.eqb_eq _ _)) by lia. cbn [guard_res mbind res_bind]. do 2 f_equal.
  apply list_eq_same_length with (Z.to_nat (prod ds)); [rewrite length_fmap, length_seqZ; lia | lia |].
  intros i x y Hi Hx Hy. rewrite list_lookup_fmap, (proj2 (lookup_seqZ 0 _ i (Z.of_nat i))) in Hy by lia. injection Hy as <-.
  assert (Hd' : Forall (λ d, 0 < d) (sel R p)) by (apply sel_pos; [done | by eapply valid_layout_in_range]).
  destruct (transposed_from R p (unlin (sel R p) (Z.of_nat i)) Hp (unlin_bounds _ _ Hd')) as (xs & Hbx & Ex).
  pose proof (Gb xs Hbx) as G. unfold get in G. rewrite Sb in G. cbn [sizes_ values_ a] in G.
  rewrite Ex, lin_unlin, Nat2Z.id, Hx in G by (done || rewrite sel_perm by done; lia).
  pose proof (lin_bounds R xs Hbx). rewrite (proj2 (lookup_seqZ 0 _ _ (lin R xs))) in G by lia. injection G as ->.
  rewrite <- (flat_lin R p xs Hp Hbx), Ex, lin_unlin; [done | done |]. rewrite sel_perm by done. lia.
Qed.

Lemma ToArray_spec t :
  iota_ok t →
  ToArray t = Ok (MkArray (dims t) (flat (reshape_dims t) (transpose_perm t) <$> seqZ 0 (prod (dims t)))).
Proof. apply to_array_spec. Qed.

Lemma flat_array_ok ds R p : transform_ok ds R p → array_ok (MkArray ds (flat R p <$> seqZ 0 (prod ds))).
Proof.
  intros H. pose proof (prod_pos _ (tr_dims _ _ _ H)).
  constructor; cbn [sizes_ values_]; [apply H | rewrite length_fmap, length_seqZ; lia | pose proof (tr_max _ _ _ H); int_lia].
Qed.

Lemma flat_array_get ds (f : Z → Z) xs :
  in_bounds ds xs → get (MkArray ds (f <$> seqZ 0 (prod ds))) xs = Some (f (lin ds xs)).
Proof.
  intros Hb. unfold get. cbn [sizes_ values_]. pose proof (lin_bounds ds xs Hb).
  rewrite list_lookup_fmap, (proj2 (lookup_seqZ 0 _ _ (lin ds xs))) by lia. done.
Qed.

(** ** Properties *)

(** The device [value_at] computes for an index is the element of the full array at
    this index, and the full array holds every device number below the number of
    elements exactly once. *)
Theorem value_at_ToArray t :
  iota_ok t →
  ∃ a, ToArray t = Ok a ∧ sizes_ a = dims t ∧ values_ a ≡ₚ seqZ 0 (prod (dims t)) ∧
    ∀ xs, in_bounds (dims t) xs → value_at t xs = element a xs.
Proof.
  intros Ht. pose proof (prod_pos _ (tr_dims _ _ _ Ht)) as Hpos. pose proof (tr_prod _ _ _ Ht) as Hpr.
  rewrite (ToArray_spec t Ht). eexists. split; [done |]. split; [done |]. split.
  - apply submseteq_length_Permutation; [| cbn [values_]; by rewrite length_fmap].
    cbn [values_]. apply NoDup_submseteq.
    + apply NoDup_fmap_2_strong; [| apply NoDup_seqZ]. intros k k' Hk%elem_of_seqZ Hk'%elem_of_seqZ.
      apply flat_inj; [apply Ht | by apply (tr_reshape _ _ _ Ht) | lia | lia].
    + intros v (k & -> & Hk%elem_of_seqZ)%list_elem_of_fmap. apply elem_of_seqZ.
      pose proof (flat_bounds (reshape_dims t) (transpose_perm t) k (tr_perm _ _ _ Ht) (tr_reshape _ _ _ Ht)). lia.
  - intros xs Hb. rewrite value_at_spec by done. symmetry. apply element_get; [by apply flat_array_ok | done |].
    by apply flat_array_get.
Qed.

Lemma demo_iota_ok : iota_ok (MkIota [6; 1; 4] [4; 3; 2] [2; 0; 1]).
Proof.
  constructor; cbn; try (repeat constructor; lia); try done.
  split; [| done]. apply IsPermutation_perm. vm_compute. reflexivity.
Defined.

Lemma value_at_ToArray_witness :
  ∃ a, ToArray (MkIota [6; 1; 4] [4; 3; 2] [2; 0; 1]) = Ok a ∧ element a [4; 0; 2] = Ok 13.
Proof.
  destruct (value_at_ToArray _ demo_iota_ok) as (a & E & _ & _ & H). exists a. split; [exact E |].
  rewrite <- H; [vm_compute; reflexivity |]. cbn. repeat constructor; lia.
Defined.
End TileValue.
