(* ===== verification/TileCanonical.v ===== *)
(** * Tile assignments: canonical iotas

    [CanonicalizeIotaDims] ends, keeps the device at every index, and leaves dimensions
    that can be neither dropped nor merged; two canonical iotas with the same devices are
    the same. *)
From S2P Require Import Prelude PermUtil Radix Layouts IndexProofs TransposeProofs Arrays ArrayProofs TileAssign TileValue.
#[local] Open Scope Z_scope.

Module TileCanonical.
Import PermUtil Radix IndexProofs Arrays ArrayProofs ArrayTranspose TransposeProofs TileAssign TileValue.

(** ** Sizes of 1 *)

Lemma val_app l1 l2 k : sizes_pos l1 → val (l1 ++ l2) k = val l1 k + val l2 (k / prod l1.*1).
Proof.
  intros H. revert k. induction H as [| [d t] l1 Hd H IH]; intros k.
  - cbn. unfold prod. cbn. by rewrite Z.div_1_r.
  - cbn [fst] in Hd. cbn [app val fmap list_fmap fst]. rewrite IH, prod_cons. rewrite Z.div_div; [ring | lia |].
    apply prod_pos. by apply Forall_fmap.
Qed.

Abbreviation nonone := (filter (λ d : Z * Z, d.1 ≠ 1)).

Lemma val_nonone l k : val (nonone l) k = val l k.
Proof.
  revert k. induction l as [| [d t] l IH]; intros k; [done |]. rewrite filter_cons. case_decide as Hd; cbn [fst] in Hd.
  - cbn [val]. by rewrite IH.
  - assert (d = 1) as -> by lia. by rewrite val_one, IH.
Qed.

Lemma nonone_reverse l : nonone (reverse l) = reverse (nonone l).
Proof.
  induction l as [| d l IH]; [done |]. rewrite reverse_cons, filter_app, IH, !filter_cons, filter_nil.
  case_decide; [by rewrite reverse_cons | by rewrite app_nil_r].
Qed.

Lemma val_reverse_nonone l k : val (reverse (nonone l)) k = val (reverse l) k.
Proof. by rewrite <- nonone_reverse, val_nonone. Qed.

(** ** Dropping the sizes of 1 *)

Abbreviation count ds := (length (filter (λ d : Z, d ≠ 1) ds)).

Lemma old_to_new_dims_spec n ds :
  0 ≤ n →
  ∃ news, old_to_new_dims n ds = (news, n + Z.of_nat (count ds)) ∧ length news = length ds ∧
    filter (λ x, 0 ≤ x) news = seqZ n (Z.of_nat (count ds)) ∧
    compact_dims news ds = filter (λ d, d ≠ 1) ds ∧
    ∀ i d, ds !! i = Some d →
      if decide (d = 1) then news !! i = Some (-1)
      else ∃ j, news !! i = Some (n + Z.of_nat j) ∧ compact_dims news ds !! j = Some d ∧
             weights (compact_dims news ds) !! j = weights ds !! i.
Proof.
  revert n. induction ds as [| d ds IH]; intros n Hn.
  { exists []. split; [by rewrite Z.add_0_r |]. split; [done |]. split; [done |]. split; [done |]. by intros i d. }
  cbn [old_to_new_dims]. rewrite filter_cons. destruct (Z.eqb_spec d 1) as [-> | Hd].
  - destruct (IH n Hn) as (news & E & El & Ef & Ec & Hi). rewrite E. exists ((-1) :: news).
    rewrite decide_False by lia. split; [done |]. split; [cbn; by rewrite El |]. split; [rewrite filter_cons, decide_False by lia; exact Ef |].
    cbn [compact_dims Z.geb Z.compare]. split; [done |]. intros [| i] e He; cbn [lookup list_lookup] in *.
    + injection He as <-. by rewrite decide_True.
    + by apply Hi.
  - destruct (IH (n + 1) ltac:(lia)) as (news & E & El & Ef & Ec & Hi). rewrite E. exists (n :: news).
    rewrite decide_True by done. cbn [length]. split; [f_equal; lia |]. split; [by rewrite El |].
    split; [rewrite filter_cons, decide_True, Ef by lia; rewrite (seqZ_cons n) by lia; do 2 f_equal; lia |].
    cbn [compact_dims]. rewrite (proj2 (Z.geb_le _ _)) by lia. split; [by rewrite Ec |].
    intros [| i] e He; cbn [lookup list_lookup] in *.
    + injection He as <-. rewrite decide_False by done. exists O. split; [f_equal; lia |]. split; [done |].
      cbn [weights lookup list_lookup]. f_equal. rewrite Ec. clear. induction ds as [| d ds IH]; [done |].
      rewrite filter_cons. case_decide; rewrite !prod_cons, ?IH; lia.
    + specialize (Hi i e He). case_decide; [done |]. destruct Hi as (j & Hj & Hd' & Hw). exists (S j).
      split; [etrans; [exact Hj |]; f_equal; lia |]. split; [done |]. done.
Qed.

Lemma compact_perm_spec news p :
  in_range news p → compact_perm news p = Ok (filter (λ x, 0 ≤ x) (sel news p)).
Proof.
  intros Hr. induction p as [| i p IH]; [done |]. cbn [compact_perm]. rewrite at_z_total by (apply Hr; by left).
  cbn [mbind res_bind]. rewrite IH by (intros q Hq; apply Hr; by right). cbn [mbind res_bind].
  rewrite sel_cons, filter_cons. destruct (Z.geb_spec (news !!! Z.to_nat i) 0).
  - by rewrite decide_True by lia.
  - by rewrite decide_False by lia.
Qed.

Lemma prod_filter_one ds : prod (filter (λ d, d ≠ 1) ds) = prod ds.
Proof.
  induction ds as [| d ds IH]; [done |]. rewrite filter_cons. case_decide; rewrite !prod_cons, ?IH; lia.
Qed.

Lemma pairs_cons R i p : pairs R (i :: p) = (R !!! Z.to_nat i, weights R !!! Z.to_nat i) :: pairs R p.
Proof. done. Qed.

Lemma remove_ones_spec R p :
  valid_layout R p →
  ∃ p', remove_ones R p = Ok (filter (λ d, d ≠ 1) R, p') ∧ valid_layout (filter (λ d, d ≠ 1) R) p' ∧
    pairs (filter (λ d, d ≠ 1) R) p' = nonone (pairs R p).
Proof.
  intros Hp. pose proof (valid_layout_in_range R p R Hp eq_refl) as Hr. unfold remove_ones.
  destruct (old_to_new_dims_spec 0 R ltac:(lia)) as (news & E & El & Ef & Ec & Hi). rewrite E. rewrite Z.add_0_l.
  set (R' := filter (λ d, d ≠ 1) R) in *. set (q := filter (λ x, 0 ≤ x) (sel news p)).
  assert (Hq : q ≡ₚ seqZ 0 (Z.of_nat (length R'))).
  { unfold q. rewrite <- Ef. apply filter_Permutation, sel_perm. destruct Hp as [H1 H2]. split; [done | congruence]. }
  assert (Lq : length q = length R').
  { rewrite Hq, length_seqZ. lia. }
  assert (Vq : valid_layout R' q).
  { split; [| done]. apply IsPermutation_perm, IsPermutation_exact. by rewrite Lq. }
  assert (Hpairs : pairs R' q = nonone (pairs R p)).
  { unfold q. clear q Hq Lq Vq Hp E Ef El. induction p as [| i p IH]; [done |]. rewrite pairs_cons, sel_cons, !filter_cons. cbn [fst].
    pose proof (Hr i ltac:(left)) as Hir. destruct (lookup_lt_is_Some_2 R (Z.to_nat i)) as [d Hd]; [lia |].
    rewrite (list_lookup_total_correct _ _ _ Hd). specialize (Hi _ d Hd). destruct (decide (d = 1)) as [-> | Hd1].
    - rewrite (list_lookup_total_correct _ _ _ Hi), decide_False by lia. rewrite decide_False by tauto.
      apply IH. intros j Hj. apply Hr. by right.
    - destruct Hi as (j & Hj & Hd' & Hw). rewrite (list_lookup_total_correct _ _ _ Hj), decide_True by lia.
      rewrite (decide_True _ _ Hd1), pairs_cons. rewrite Ec in Hd', Hw. fold R' in Hd', Hw.
      replace (Z.to_nat (0 + Z.of_nat j)) with j by lia. rewrite (list_lookup_total_correct _ _ _ Hd').
      f_equal; [f_equal | apply IH; intros k Hk; apply Hr; by right].
      rewrite !list_lookup_total_alt. by rewrite Hw. }
  destruct (Z.eqb_spec (Z.of_nat (length R')) (Z.of_nat (length R))) as [Hc | Hc].
  - assert (HR : R' = R).
    { unfold R'. apply list_filter_all. unfold R' in *. clear -Hc. assert (Hc' : (length R ≤ count R)%nat) by lia. clear Hc.
      induction R as [| d R IH]; [constructor |]. rewrite filter_cons in Hc'. case_decide.
      - constructor; [done |]. apply IH. cbn in Hc'. lia.
      - exfalso. pose proof (length_filter (λ d, d ≠ 1) R). cbn in Hc'. lia. }
    exists p. rewrite HR. split; [done |]. split; [done |]. symmetry. apply list_filter_all.
    unfold pairs. apply Forall_forall. intros [d t] Hin. cbn [fst].
    apply elem_of_zip_l in Hin. apply list_elem_of_fmap in Hin as (i & -> & Hin). apply Hr in Hin.
    assert (HF : Forall (λ d, d ≠ 1) R') by (apply Forall_forall; intros x Hx; apply list_elem_of_filter in Hx as [Hx _]; exact Hx). rewrite HR in HF.
    rewrite Forall_lookup in HF. apply (HF (Z.to_nat i)), list_lookup_lookup_total_lt. lia.
  - exists q. rewrite compact_perm_spec by (intros i Hin; rewrite El; by apply Hr). cbn [mbind res_bind]. by rewrite Ec.
Qed.

(** ** Merging neighbours *)

Lemma val_reverse_app l1 l2 k :
  sizes_pos l2 → val (reverse (l1 ++ l2)) k = val (reverse l2) k + val (reverse l1) (k / prod l2.*1).
Proof.
  intros H. rewrite reverse_app, val_app by (by apply Forall_reverse). by rewrite fmap_reverse, prod_reverse.
Qed.

Lemma val_ones_middle x (M : list (Z * Z)) y k :
  Forall (λ m, m.1 = 1) M → val (reverse (x :: M ++ [y])) k = val [y; x] k.
Proof.
  intros HM. rewrite <- val_reverse_nonone.
  assert (E : nonone (x :: M ++ [y]) = nonone (reverse [y; x])).
  { change (reverse [y; x]) with ([x] ++ [y]). change (x :: M ++ [y]) with ([x] ++ M ++ [y]). rewrite !filter_app.
    f_equal. replace (nonone M) with ([] : list (Z * Z)); [done |]. symmetry. induction HM as [| m M Hm _ IH]; [done |].
    rewrite filter_cons, decide_False by (by intros []). exact IH. }
  by rewrite E, val_reverse_nonone, reverse_involutive.
Qed.

Lemma weights_app A B : weights (A ++ B) = ((λ w, w * prod B) <$> weights A) ++ weights B.
Proof.
  induction A as [| a A IH]; [done |]. cbn [app weights fmap list_fmap]. by rewrite prod_app, IH.
Qed.

Lemma pairs_map R p : pairs R p = (λ i, (R !!! Z.to_nat i, weights R !!! Z.to_nat i)) <$> p.
Proof. induction p as [| i p IH]; [done |]. by rewrite pairs_cons, IH. Qed.

Lemma prod_all_ones O : Forall (λ o, o = 1) O → prod O = 1.
Proof. induction 1 as [| o O -> _ IH]; [done |]. by rewrite prod_cons, IH. Qed.

Lemma pairs_app R p q : pairs R (p ++ q) = pairs R p ++ pairs R q.
Proof. rewrite !pairs_map. apply fmap_app. Qed.

Lemma sizes_pos_pairs R p : Forall (λ d, 0 < d) R → in_range R p → sizes_pos (pairs R p).
Proof.
  intros Hd Hr. rewrite pairs_map. apply Forall_fmap, Forall_forall. intros i Hi. cbn. apply Hr in Hi.
  rewrite Forall_lookup in Hd. apply (Hd (Z.to_nat i)), list_lookup_lookup_total_lt. lia.
Qed.

Section Merge.
Context (A O B : list Z) (d e : Z).
Hypothesis HO : Forall (λ o, o = 1) O.

Abbreviation before := (A ++ d :: O ++ e :: B).
Abbreviation after := (A ++ (d * e) :: O ++ 1 :: B).

Lemma merge_prod : prod after = prod before.
Proof. rewrite !prod_app, !prod_cons, !prod_app, !prod_cons. ring. Qed.

(** The other dimensions keep their size and weight. *)
Lemma merge_others i :
  (i < length A ∨ length A + length O + 1 < i)%nat →
  after !!! i = before !!! i ∧ weights after !!! i = weights before !!! i.
Proof.
  intros [Hi | Hi].
  - split; [by rewrite !lookup_total_app_l by done |]. rewrite !weights_app.
    rewrite !lookup_total_app_l by (by rewrite length_fmap, length_weights).
    replace (prod ((d * e) :: O ++ 1 :: B)) with (prod (d :: O ++ e :: B)); [done |].
    rewrite !prod_cons, !prod_app, !prod_cons. ring.
  - replace after with ((A ++ (d * e) :: O ++ [1]) ++ B) by (by rewrite <- app_assoc, <- app_comm_cons, <- app_assoc).
    replace before with ((A ++ d :: O ++ [e]) ++ B) by (by rewrite <- app_assoc, <- app_comm_cons, <- app_assoc).
    assert (L1 : length (A ++ (d * e) :: O ++ [1]) = (length A + length O + 2)%nat) by (rewrite length_app; cbn; rewrite length_app; cbn; lia).
    assert (L2 : length (A ++ d :: O ++ [e]) = (length A + length O + 2)%nat) by (rewrite length_app; cbn; rewrite length_app; cbn; lia).
    rewrite !lookup_total_app_r by lia. rewrite L1, L2. split; [done |].
    rewrite (weights_app (A ++ (d * e) :: O ++ [1]) B), (weights_app (A ++ d :: O ++ [e]) B).
    rewrite !lookup_total_app_r by (rewrite length_fmap, length_weights; lia). by rewrite !length_fmap, !length_weights, L1, L2.
Qed.

(** Those in between have size 1; the first one has [e] times the weight of the last. *)
Lemma merge_middle i :
  (length A < i < length A + length O + 1)%nat → before !!! i = 1 ∧ after !!! i = 1.
Proof.
  intros Hi. rewrite !lookup_total_app_r by lia.
  replace (i - length A)%nat with (S (i - length A - 1)) by lia.
  change ((O ++ e :: B) !!! (i - length A - 1)%nat = 1 ∧ (O ++ 1 :: B) !!! (i - length A - 1)%nat = 1).
  rewrite !lookup_total_app_l by lia.
  destruct (lookup_lt_is_Some_2 O (i - length A - 1)) as [o Ho]; [lia |]. rewrite (list_lookup_total_correct _ _ _ Ho).
  rewrite Forall_lookup in HO. specialize (HO _ _ Ho). by subst o.
Qed.

Lemma at_first (C : list Z) x X i : i = length C → (C ++ x :: X) !!! i = x.
Proof. intros ->. rewrite lookup_total_app_r by done. by rewrite Nat.sub_diag. Qed.

Lemma weights_at (C : list Z) x X i : i = length C → weights (C ++ x :: X) !!! i = prod X.
Proof.
  intros ->. rewrite weights_app, lookup_total_app_r by (by rewrite length_fmap, length_weights).
  by rewrite length_fmap, length_weights, Nat.sub_diag.
Qed.

Lemma merge_ends base dim :
  base = Z.of_nat (length A) → dim = Z.of_nat (length A + length O + 1) →
  pairs before [base; dim] = [(d, e * prod B); (e, prod B)] ∧
  ∃ w, pairs after [base; dim] = [(d * e, prod B); (1, w)].
Proof.
  intros -> ->. rewrite !pairs_map. cbn [fmap list_fmap]. rewrite !Nat2Z.id.
  assert (E : ∀ x y : Z, A ++ x :: O ++ y :: B = (A ++ x :: O) ++ y :: B) by (intros x y; by rewrite <- app_assoc).
  assert (E1 : ∀ x y : Z, (A ++ x :: O ++ y :: B) !!! (length A + length O + 1)%nat = y).
  { intros x y. rewrite E, at_first; [done |]. rewrite length_app. cbn. lia. }
  assert (E2 : ∀ x y : Z, weights (A ++ x :: O ++ y :: B) !!! (length A + length O + 1)%nat = prod B).
  { intros x y. rewrite E, weights_at; [done |]. rewrite length_app. cbn. lia. }
  assert (E3 : ∀ x y : Z, (A ++ x :: O ++ y :: B) !!! length A = x) by (intros x y; by rewrite at_first).
  assert (E4 : ∀ x y : Z, weights (A ++ x :: O ++ y :: B) !!! length A = y * prod B).
  { intros x y. rewrite weights_at by done. rewrite prod_app, prod_cons, (prod_all_ones O HO). ring. }
  rewrite !E1, !E2, !E3, !E4, Z.mul_1_l. split; [done |]. by eexists.
Qed.

Lemma merge_val p1 p2 base dim k :
  base = Z.of_nat (length A) → dim = Z.of_nat (length A + length O + 1) →
  NoDup (p1 ++ (base :: seqZ (base + 1) (Z.of_nat (length O)) ++ [dim]) ++ p2) →
  in_range before (p1 ++ (base :: seqZ (base + 1) (Z.of_nat (length O)) ++ [dim]) ++ p2) → Forall (λ x, 0 < x) before →
  val (reverse (pairs after (p1 ++ (base :: seqZ (base + 1) (Z.of_nat (length O)) ++ [dim]) ++ p2))) k =
  val (reverse (pairs before (p1 ++ (base :: seqZ (base + 1) (Z.of_nat (length O)) ++ [dim]) ++ p2))) k.
Proof.
  intros Eb Ed Hn Hr Hpos. set (mid := seqZ (base + 1) (Z.of_nat (length O))) in *. set (q := base :: mid ++ [dim]) in *.
  assert (Hother : ∀ i, i ∈ p1 ++ p2 → after !!! Z.to_nat i = before !!! Z.to_nat i ∧ weights after !!! Z.to_nat i = weights before !!! Z.to_nat i).
  { intros i Hj. assert (Hi0 : 0 ≤ i) by (apply Hr; rewrite !elem_of_app in *; tauto). apply merge_others.
    destruct (decide (i < base)); [left; lia |]. destruct (decide (dim < i)); [right; lia |]. exfalso.
    assert (Hm : i ∈ q).
    { unfold q. rewrite elem_of_cons, elem_of_app, list_elem_of_singleton. unfold mid. rewrite elem_of_seqZ. lia. }
    apply NoDup_app in Hn as (_ & N1 & N2). apply NoDup_app in N2 as (_ & N2 & _).
    apply elem_of_app in Hj as [Hj | Hj]; [| by apply (N2 i Hm)].
    apply (N1 i Hj). apply elem_of_app. by left. }
  assert (Hsame : ∀ l, (∀ i, i ∈ l → i ∈ p1 ++ p2) → pairs after l = pairs before l).
  { intros l Hl. rewrite !pairs_map. apply list_fmap_ext. intros j i Hj. apply list_elem_of_lookup_2, Hl, Hother in Hj as [-> ->]. done. }
  assert (Hmid : ∀ l : list Z, (∀ i, (length A < i < length A + length O + 1)%nat → l !!! i = 1) →
                  Forall (λ m, m.1 = 1) (pairs l mid)).
  { intros l Hl. rewrite pairs_map. apply Forall_fmap, Forall_forall. intros i Him. cbn. unfold mid in Him. apply elem_of_seqZ in Him. apply Hl. lia. }
  destruct (merge_ends base dim Eb Ed) as [P1 [w P2]].
  assert (Hd : 0 < d ∧ 0 < e) by (rewrite Forall_app, Forall_cons, Forall_app, Forall_cons in Hpos; tauto).
  assert (Hpos' : Forall (λ x, 0 < x) after).
  { rewrite !Forall_app, !Forall_cons, !Forall_app, !Forall_cons in *. split; [tauto |]. split; [nia |]. split; [tauto |]. split; [lia | tauto]. }
  assert (Hr' : in_range after (p1 ++ q ++ p2)).
  { intros i Hi. apply Hr in Hi. rewrite !length_app in *. cbn [length] in *. rewrite !length_app in *. exact Hi. }
  assert (Hq : ∀ l x y, pairs l [base; dim] = [x; y] → pairs l q = x :: pairs l mid ++ [y]).
  { intros l x y E. unfold q. rewrite pairs_cons, pairs_app. change (pairs l [base; dim]) with (pairs l ([base] ++ [dim])) in E.
    rewrite pairs_app in E. injection E as <- <-. done. }
  assert (Hval : ∀ j, val (reverse (pairs after q)) j = val (reverse (pairs before q)) j).
  { intros j. rewrite (Hq _ _ _ P1), (Hq _ _ _ P2), !val_ones_middle by (apply Hmid; intros i Hi; by apply merge_middle).
    rewrite val_one, val_merge by lia. by rewrite Z.mul_comm. }
  assert (Hprod : prod (pairs after q).*1 = prod (pairs before q).*1).
  { rewrite (Hq _ _ _ P1), (Hq _ _ _ P2). rewrite !fmap_cons, !fmap_app, !prod_cons, !prod_app. cbn [fmap list_fmap fst].
    assert (Ho : ∀ l : list Z, (∀ i, (length A < i < length A + length O + 1)%nat → l !!! i = 1) → prod (pairs l mid).*1 = 1).
    { intros l Hl. apply prod_all_ones. apply Forall_fmap. by apply Hmid. }
    rewrite !Ho by (intros i Hi; by apply merge_middle). rewrite !prod_singleton. ring. }
  assert (R1 : in_range before (q ++ p2)) by (intros i Hi; apply Hr; rewrite elem_of_app; by right).
  assert (R2 : in_range after (q ++ p2)) by (intros i Hi; apply Hr'; rewrite elem_of_app; by right).
  assert (R3 : in_range before p2) by (intros i Hi; apply R1; rewrite elem_of_app; by right).
  assert (E1 : pairs after p1 = pairs before p1) by (apply Hsame; set_solver).
  assert (E2 : pairs after p2 = pairs before p2) by (apply Hsame; set_solver).
  rewrite !(pairs_app _ p1), E1. rewrite !val_reverse_app by (by apply sizes_pos_pairs).
  rewrite !(pairs_app _ q), E2. rewrite !val_reverse_app by (by apply sizes_pos_pairs).
  rewrite !fmap_app, !prod_app, Hprod. by rewrite Hval.
Qed.
End Merge.

Lemma at_second (A O B : list Z) x y i : i = (length A + length O + 1)%nat → (A ++ x :: O ++ y :: B) !!! i = y.
Proof.
  intros ->. replace (A ++ x :: O ++ y :: B) with ((A ++ x :: O) ++ y :: B) by (by rewrite <- app_assoc).
  apply at_first. rewrite length_app. cbn. lia.
Qed.

(** No dimension is followed by the next one. *)
Fixpoint apart (p : list Z) : Prop :=
  match p with a :: (b :: _) as p' => a + 1 ≠ b ∧ apart p' | _ => True end.

Lemma two_places (D : list Z) b n m :
  (b + n + 1 < length D)%nat →
  ∃ A d O e B, D = A ++ d :: O ++ e :: B ∧ length A = b ∧ length O = n ∧
    <[(b + n + 1)%nat := 1]> (<[b := m]> D) = A ++ m :: O ++ 1 :: B.
Proof.
  intros Hl. destruct (lookup_lt_is_Some_2 D b) as [d Hd]; [lia |]. destruct (lookup_lt_is_Some_2 D (b + n + 1)) as [e He]; [done |].
  pose proof (take_drop_middle D b d Hd) as E. set (X := drop (S b) D) in *.
  assert (HX : X !! n = Some e) by (unfold X; rewrite lookup_drop; rewrite <- He; f_equal; lia).
  pose proof (take_drop_middle X n e HX) as EX.
  assert (LA : length (take b D) = b) by (rewrite length_take; lia).
  assert (LO : length (take n X) = n) by (rewrite length_take; apply lookup_lt_Some in HX; lia).
  exists (take b D), d, (take n X), e, (drop (S n) X). rewrite EX, E. split; [done |]. split; [done |]. split; [done |].
  rewrite <- E at 1. rewrite insert_middle by done. rewrite insert_app_r_alt by lia. rewrite LA.
  replace (b + n + 1 - b)%nat with (S n) by lia. f_equal. cbn [insert list_insert]. f_equal.
  rewrite <- EX at 1. apply insert_middle. done.
Qed.

Section MergeLoop.
Context (p : list Z) (n : nat).
Hypothesis Hp : perm p.
Hypothesis Hlen : length p = n.

Lemma merge_loop_spec perm done_ base offset D changed :
  p = done_ ++ base :: seqZ (base + 1) (offset - 1) ++ perm → 1 ≤ offset → length D = n →
  Forall (λ d, 0 < d) D → prod D ≤ int64_max →
  (∀ i, i ∈ seqZ (base + 1) (offset - 1) → D !!! Z.to_nat i = 1) →
  (changed = true → ∃ i, i ∈ done_ ++ seqZ (base + 1) (offset - 1) ∧ D !!! Z.to_nat i = 1) →
  (changed = false → offset = 1) →
  ∃ D' changed', merge_loop perm base offset D changed = Ok (D', changed') ∧ length D' = n ∧
    Forall (λ d, 0 < d) D' ∧ prod D' = prod D ∧
    (∀ k, val (reverse (pairs D' p)) k = val (reverse (pairs D p)) k) ∧
    (changed' = true → 1 ∈ D') ∧
    (changed' = false → changed = false ∧ D' = D ∧ apart (base :: perm)).
Proof.
  revert done_ base offset D changed. induction perm as [| dim perm IH]; intros done_ base offset D changed Ep Ho Hl Hpos Hm Hones Hch Hoff.
  { exists D, changed. split; [done |]. split; [done |]. split; [done |]. split; [done |]. split; [done |]. split; [| done].
    intros ->. destruct (Hch eq_refl) as (i & Hi & E). assert (Hr : 0 ≤ i < Z.of_nat n).
    { rewrite <- Hlen. apply Hp. rewrite Ep. rewrite !elem_of_app, elem_of_cons, elem_of_app in *. tauto. }
    rewrite <- E. apply list_elem_of_lookup_2 with (Z.to_nat i), list_lookup_lookup_total_lt. lia. }
  assert (Hr : ∀ i, i ∈ p → 0 ≤ i < Z.of_nat n) by (rewrite <- Hlen; apply Hp).
  assert (Hb : 0 ≤ base < Z.of_nat n) by (apply Hr; rewrite Ep; set_solver).
  assert (Hd : 0 ≤ dim < Z.of_nat n) by (apply Hr; rewrite Ep; set_solver).
  cbn [merge_loop]. destruct (Z.eqb_spec (base + offset) dim) as [E | E].
  - destruct (two_places D (Z.to_nat base) (Z.to_nat (offset - 1)) (D !!! Z.to_nat base * D !!! Z.to_nat dim)) as (A & d & O & e & B & ED & LA & LO & EI); [lia |].
    replace (Z.to_nat base + Z.to_nat (offset - 1) + 1)%nat with (Z.to_nat dim) in EI by lia.
    assert (HO : Forall (λ o, o = 1) O).
    { apply Forall_lookup. intros i o Hi. pose proof (lookup_lt_Some _ _ _ Hi) as Hlt.
      rewrite <- (Hones (base + 1 + Z.of_nat i)) by (apply elem_of_seqZ; lia). symmetry. apply list_lookup_total_correct. rewrite ED.
      rewrite lookup_app_r by lia. rewrite LA. replace (Z.to_nat (base + 1 + Z.of_nat i) - Z.to_nat base)%nat with (S i) by lia.
      change ((O ++ e :: B) !! i = Some o). by apply lookup_app_l_Some. }
    assert (Edb : D !!! Z.to_nat base = d) by (rewrite ED; by apply at_first).
    assert (Edd : D !!! Z.to_nat dim = e).
    { rewrite ED. apply at_second. lia. }
    rewrite !at_z_total by lia. cbn [mbind res_bind]. rewrite Edb, Edd in *.
    assert (Hde : d * e ≤ prod D ∧ 0 < d ∧ 0 < e).
    { rewrite ED in Hpos |- *. rewrite Forall_app, Forall_cons, Forall_app, Forall_cons in Hpos.
      rewrite prod_app, prod_cons, prod_app, prod_cons. destruct Hpos as (P1 & P2 & P3 & P4 & P5).
      pose proof (prod_pos _ P1). pose proof (prod_pos _ P3). pose proof (prod_pos _ P5).
      split; [| done]. replace (prod A * (d * (prod O * (e * prod B)))) with ((d * e) * (prod A * prod O * prod B)) by ring.
      assert (0 < prod A * prod O * prod B) by (by repeat apply Z.mul_pos_pos). nia. }
    rewrite s64_in by int_nia. cbn [mbind res_bind]. rewrite EI.
    assert (Eseq : seqZ (base + 1) (offset + 1 - 1) = seqZ (base + 1) (offset - 1) ++ [dim]).
    { replace (offset + 1 - 1) with ((offset - 1) + 1) by lia. rewrite seqZ_app by lia. do 2 f_equal. rewrite (seqZ_cons _ 1) by lia. cbn. f_equal. lia. }
    assert (Ep' : p = done_ ++ (base :: seqZ (base + 1) (Z.of_nat (length O)) ++ [dim]) ++ perm).
    { rewrite Ep. rewrite LO, Z2Nat.id by lia. cbn [app]. do 2 f_equal. by rewrite <- app_assoc. }
    destruct (IH done_ base (offset + 1) (A ++ d * e :: O ++ 1 :: B) true) as (D' & ch' & E1 & E2 & E3 & E4 & E5 & E6 & E7).
    + rewrite Eseq, Ep, <- app_assoc. done.
    + lia.
    + rewrite <- Hl, ED, !length_app. cbn. rewrite !length_app. done.
    + rewrite ED in Hpos. rewrite !Forall_app, !Forall_cons, !Forall_app, !Forall_cons in *. split; [tauto |]. split; [nia |]. split; [tauto |]. split; [lia | tauto].
    + rewrite merge_prod, <- ED. done.
    + intros i. rewrite Eseq, elem_of_app, list_elem_of_singleton. intros [Hi | ->].
      * apply elem_of_seqZ in Hi. eapply (merge_middle A O B d e); [done | lia].
      * apply at_second. lia.
    + intros _. exists dim. rewrite Eseq, !elem_of_app, list_elem_of_singleton. split; [tauto |].
      apply at_second. lia.
    + done.
    + exists D', ch'. split; [done |]. split; [done |]. split; [done |]. split; [rewrite E4, merge_prod; by rewrite <- ED |].
      split; [| split; [done | intros Hf; by destruct (E7 Hf)]].
      intros k. rewrite E5, Ep', ED. apply merge_val; [done | lia | lia | | | by rewrite <- ED].
      * rewrite <- Ep'. apply Hp.
      * rewrite <- Ep', <- ED. intros i Hi. rewrite Hl. by apply Hr.
  - destruct (IH (done_ ++ base :: seqZ (base + 1) (offset - 1)) dim 1 D changed) as (D' & ch' & E1 & E2 & E3 & E4 & E5 & E6 & E7).
    + rewrite Ep, <- app_assoc. done.
    + lia.
    + done.
    + done.
    + done.
    + intros i Hi. apply elem_of_seqZ in Hi. lia.
    + intros Hc. destruct (Hch Hc) as (i & Hi & Ei). exists i. split; [| done]. rewrite !elem_of_app, elem_of_cons in *. tauto.
    + done.
    + exists D', ch'. split; [done |]. split; [done |]. split; [done |]. split; [done |]. split; [done |]. split; [done |].
      intros Hf. destruct (E7 Hf) as (-> & -> & Ha). split; [done |]. split; [done |]. specialize (Hoff eq_refl). split; [lia | done].
Qed.
End MergeLoop.

Lemma merge_dims_spec D p :
  valid_layout D p → Forall (λ d, 0 < d) D → prod D ≤ int64_max →
  ∃ D' changed, merge_dims D p = Ok (D', changed) ∧ length D' = length D ∧
    Forall (λ d, 0 < d) D' ∧ prod D' = prod D ∧
    (∀ k, val (reverse (pairs D' p)) k = val (reverse (pairs D p)) k) ∧
    (changed = true → 1 ∈ D') ∧ (changed = false → D' = D ∧ apart p).
Proof.
  intros [Hp Hl] Hpos Hm. destruct p as [| base p].
  { exists D, false. done. }
  destruct (merge_loop_spec (base :: p) (length D) Hp Hl p [] base 1 D false)
    as (D' & ch & E1 & E2 & E3 & E4 & E5 & E6 & E7); try done.
  { intros i Hi. apply elem_of_seqZ in Hi. lia. }
  exists D', ch. split; [done |]. split; [done |]. split; [done |]. split; [done |]. split; [done |]. split; [done |]. intros Hf. by destruct (E7 Hf).
Qed.

(** ** The whole loop *)

Lemma count_remove_one (R : list Z) : 1 ∈ R → (count R < length R)%nat.
Proof.
  intros H. apply list_elem_of_split in H as (l1 & l2 & ->). rewrite filter_app, filter_cons, decide_False by tauto.
  rewrite !length_app. pose proof (length_filter (λ d, d ≠ 1) l1). pose proof (length_filter (λ d, d ≠ 1) l2). cbn. lia.
Qed.

(** What the loop leaves. *)
Definition reduced (R p : list Z) : Prop := Forall (λ d, 1 < d) R ∧ apart p.

Lemma canonicalize_loop_spec fuel R p :
  valid_layout R p → Forall (λ d, 0 < d) R → prod R ≤ int64_max → (count R < fuel)%nat →
  ∃ R' p', canonicalize_loop fuel R p = Ok (R', p') ∧ valid_layout R' p' ∧ prod R' = prod R ∧
    (∀ k, flat R' p' k = flat R p k) ∧ reduced R' p'.
Proof.
  revert R p. induction fuel as [| fuel IH]; intros R p Hp Hpos Hm Hf; [lia |]. cbn [canonicalize_loop].
  destruct (remove_ones_spec R p Hp) as (p1 & E1 & Hp1 & Hpairs). rewrite E1. cbn [mbind res_bind].
  set (R1 := filter (λ d, d ≠ 1) R) in *.
  assert (Hgt : Forall (λ d, 1 < d) R1).
  { apply Forall_forall. intros d [Hd Hin]%list_elem_of_filter. rewrite Forall_forall in Hpos. specialize (Hpos d Hin). cbn in *. lia. }
  assert (Hpos1 : Forall (λ d, 0 < d) R1) by (eapply Forall_impl; [exact Hgt |]; cbn; lia).
  assert (Hprod1 : prod R1 = prod R) by apply prod_filter_one.
  assert (Hflat1 : ∀ k, flat R1 p1 k = flat R p k) by (intros k; by rewrite !flat_val, Hpairs, val_reverse_nonone).
  destruct (merge_dims_spec R1 p1 Hp1 Hpos1) as (R2 & ch & E2 & L2 & Hpos2 & Hprod2 & Hval2 & Hyes & Hno); [lia |].
  rewrite E2. cbn [mbind res_bind]. destruct ch.
  - destruct (IH R2 p1) as (R' & p' & E & Hp' & Hprod' & Hflat' & Hred); [destruct Hp1; split; [done | congruence] | done | lia | |].
    { pose proof (count_remove_one R2 (Hyes eq_refl)) as Hc. rewrite L2 in Hc. assert (count R = length R1) by done. lia. }
    exists R', p'. split; [done |]. split; [done |]. split; [lia |]. split; [| done].
    intros k. rewrite Hflat', flat_val, Hval2, <- flat_val. apply Hflat1.
  - destruct (Hno eq_refl) as [-> Ha]. by exists R1, p1.
Qed.

(** A canonical iota: one dimension of size 1, or none that can be dropped or merged. *)
Definition canonical (R p : list Z) : Prop := (R = [1] ∧ p = [0]) ∨ (R ≠ [] ∧ reduced R p).

Lemma perm_one p : perm p → length p = 1%nat → p = [0].
Proof.
  intros [_ H] L. destruct p as [| i []]; try done. specialize (H i ltac:(left)). cbn in H. by replace i with 0 by lia.
Qed.

Lemma flat_ones k : flat [1] [0] k = 0.
Proof. rewrite flat_val. unfold pairs. cbn. rewrite Z.mod_1_r. lia. Qed.

Lemma Create_iota_spec ds R p :
  transform_ok ds R p →
  ∃ t, Create ds R p = Ok t ∧ dims t = ds ∧ iota_ok t ∧ canonical (reshape_dims t) (transpose_perm t) ∧
    ∀ k, flat (reshape_dims t) (transpose_perm t) k = flat R p k.
Proof.
  intros Ht. pose proof (tr_reshape _ _ _ Ht) as Hpos. pose proof (tr_perm _ _ _ Ht) as Hp.
  pose proof (tr_prod _ _ _ Ht) as Hpr. pose proof (tr_max _ _ _ Ht) as Hm. destruct (tr_some _ _ _ Ht) as [N1 N2].
  unfold Create, CanonicalizeIotaDims. destruct (Nat.leb_spec (length R) 1) as [Hle | Hgt].
  - destruct R as [| r []]; [done | | cbn in Hle; lia]. cbn [mbind res_bind]. exists (MkIota ds [r] p).
    split; [done |]. split; [done |]. split; [done |]. split; [| done]. cbn. destruct Hp as [Hp1 Hp2]. apply perm_one in Hp1 as ->; [| done].
    apply Forall_cons in Hpos as [Hr _]. destruct (decide (r = 1)) as [-> |]; [by left | right].
    split; [done |]. split; [constructor; [lia | done] | done].
  - destruct (canonicalize_loop_spec (S (length R)) R p Hp Hpos) as (R' & p' & E & Hp' & Hprod & Hflat & Hred).
    { int_lia. }
    { pose proof (length_filter (λ d, d ≠ 1) R). lia. }
    rewrite E. cbn [mbind res_bind]. destruct R' as [| r R'].
    + rewrite (proj2 (Nat.eqb_neq _ _)) by lia. cbn [negb guard_res mbind res_bind]. exists (MkIota ds [1] [0]).
      split; [done |]. split; [done |]. split; [| split; [by left |]].
      * constructor; cbn [dims reshape_dims transpose_perm]; [apply Ht | by apply Forall_singleton | done | | by rewrite <- Hpr, <- Hprod | done].
        split; [| done]. apply IsPermutation_perm. vm_compute. reflexivity.
      * intros k. cbn [reshape_dims transpose_perm]. rewrite flat_ones, <- Hflat.
        destruct Hp' as [_ L]. by destruct p'.
    + exists (MkIota ds (r :: R') p'). split; [done |]. split; [done |]. split; [| split; [by right | done]].
      destruct Hred as [H1 _]. constructor; cbn [dims reshape_dims transpose_perm]; [apply Ht | | done | done | congruence | done].
      eapply Forall_impl; [exact H1 |]. cbn. lia.
Qed.

(** ** A canonical iota is determined by its devices *)

(** No two neighbours, the minor one first, can be merged. *)
Definition strict (l : list (Z * Z)) : Prop :=
  ∀ A e u d t B, l = A ++ (e, u) :: (d, t) :: B → t ≠ e * u.

Lemma strict_tail x l : strict (x :: l) → strict l.
Proof. intros H A e u d t B ->. by apply (H (x :: A) e u d t B). Qed.

Lemma strict_next d t l N :
  strict ((d, t) :: l) → Forall (λ x, 1 < x.1) ((d, t) :: l) → d < N → prod ((d, t) :: l).*1 = N →
  val ((d, t) :: l) d ≠ d * t.
Proof.
  intros Hs Hg Hd Hp. apply Forall_cons in Hg as [Hd1 Hg]. cbn in Hd1. cbn [fmap list_fmap fst] in Hp. rewrite prod_cons in Hp.
  destruct l as [| [e u] l]; [unfold prod in Hp; cbn in Hp; lia |].
  apply Forall_cons in Hg as [He _]. cbn in He. rewrite <- (Z.mul_1_r d) at 2. rewrite val_mul, val_small by lia. rewrite Z.mul_1_l.
  by apply (Hs [] d t e u l).
Qed.

Lemma reduced_prod R : Forall (λ d, 1 < d) R → R ≠ [] → 1 < prod R.
Proof.
  intros H Hn. destruct H as [| r R Hr H]; [done |]. rewrite prod_cons.
  assert (0 < prod R) by (apply prod_pos; eapply Forall_impl; [exact H | cbn; lia]). nia.
Qed.

Lemma val_unique l1 l2 :
  strict l1 → strict l2 → Forall (λ x, 1 < x.1) l1 → Forall (λ x, 1 < x.1) l2 → prod l1.*1 = prod l2.*1 →
  (∀ k, 0 ≤ k < prod l1.*1 → val l1 k = val l2 k) → l1 = l2.
Proof.
  revert l2. induction l1 as [| [d t] l1 IH]; intros [| [e u] l2] S1 S2 G1 G2 Hp Hv; [done | | |].
  { exfalso. pose proof (reduced_prod ((e, u) :: l2).*1) as H. rewrite <- Hp in H. ospecialize (H _ _); [by apply Forall_fmap | done | done]. }
  { exfalso. pose proof (reduced_prod ((d, t) :: l1).*1) as H. rewrite Hp in H. ospecialize (H _ _); [by apply Forall_fmap | done | done]. }
  pose proof G1 as G1'. pose proof G2 as G2'. apply Forall_cons in G1' as [Hd G1']. apply Forall_cons in G2' as [He G2']. cbn [fst] in Hd, He.
  assert (P1 : 0 < prod l1.*1) by (apply prod_pos, Forall_fmap; eapply Forall_impl; [exact G1' | cbn; lia]).
  assert (P2 : 0 < prod l2.*1) by (apply prod_pos, Forall_fmap; eapply Forall_impl; [exact G2' | cbn; lia]).
  cbn [fmap list_fmap fst] in Hp, Hv. rewrite !prod_cons in Hp. rewrite prod_cons in Hv.
  assert (t = u) as <-.
  { specialize (Hv 1 ltac:(nia)). rewrite !val_small in Hv by lia. lia. }
  destruct (Z.lt_trichotomy d e) as [Hlt | [<- | Hlt]].
  - exfalso. apply (strict_next d t l1 (d * prod l1.*1) S1 G1); [nia | by cbn [fmap list_fmap fst]; rewrite prod_cons |].
    rewrite Hv by nia. apply val_small. lia.
  - f_equal. apply IH; [by eapply strict_tail | by eapply strict_tail | done | done | nia |].
    intros k Hk. rewrite <- (val_mul d t l1 k), <- (val_mul d t l2 k) by lia. apply Hv. nia.
  - exfalso. apply (strict_next e t l2 (e * prod l2.*1) S2 G2); [nia | by cbn [fmap list_fmap fst]; rewrite prod_cons |].
    rewrite <- Hv by nia. apply val_small. lia.
Qed.

Lemma weights_drop R i : (i < length R)%nat → weights R !!! i = prod (drop (S i) R).
Proof.
  revert i. induction R as [| r R IH]; intros i Hi; [cbn in Hi; lia |]. destruct i as [| i]; [done |].
  cbn [length] in Hi. cbn [drop]. rewrite <- IH by lia. done.
Qed.

Lemma prod_drop_lt R i j :
  Forall (λ d, 1 < d) R → (i < j ≤ length R)%nat → prod (drop j R) < prod (drop i R).
Proof.
  intros HR. revert i j. induction HR as [| r R Hr HR IH]; intros i j Hij; [cbn in Hij; lia |].
  assert (P : ∀ k, 0 < prod (drop k R)).
  { intros k. apply prod_pos, Forall_drop. eapply Forall_impl; [exact HR | cbn; lia]. }
  destruct j as [| j]; [lia |]. cbn [length] in Hij. change (drop (S j) (r :: R)) with (drop j R). destruct i as [| i].
  - rewrite drop_0, prod_cons. pose proof (P 0%nat) as H0. rewrite drop_0 in H0. destruct j as [| j]; [rewrite drop_0; nia |].
    pose proof (IH O (S j) ltac:(lia)) as H. rewrite drop_0 in H. nia.
  - change (drop (S i) (r :: R)) with (drop i R). apply IH. lia.
Qed.

Lemma prod_drop_inj R i j :
  Forall (λ d, 1 < d) R → (i ≤ length R)%nat → (j ≤ length R)%nat → prod (drop i R) = prod (drop j R) → i = j.
Proof.
  intros HR Hi Hj E. destruct (lt_eq_lt_dec i j) as [[H | H] | H]; [| done |].
  - pose proof (prod_drop_lt R i j HR ltac:(lia)). lia.
  - pose proof (prod_drop_lt R j i HR ltac:(lia)). lia.
Qed.

Lemma apart_split p A a b B : apart p → p = A ++ a :: b :: B → a + 1 ≠ b.
Proof.
  revert p. induction A as [| x A IH]; intros p Hp ->; cbn [app apart] in Hp; [by destruct Hp |].
  destruct A as [| y A]; [destruct Hp as [_ Hp]; by apply (IH _ Hp) |]. destruct Hp as [_ Hp]. by apply (IH _ Hp).
Qed.

Lemma reduced_strict R p : valid_layout R p → reduced R p → strict (reverse (pairs R p)).
Proof.
  intros Hp [HR Ha] A e u d t B E.
  assert (E' : pairs R p = reverse B ++ (d, t) :: (e, u) :: reverse A).
  { apply (inj reverse). rewrite E, reverse_app, !reverse_cons, !reverse_involutive, <- !app_assoc. done. }
  rewrite pairs_map in E'. apply fmap_app_inv in E' as (p1 & p2 & E1 & E2 & ->).
  destruct p2 as [| b [| a p2]]; try discriminate E2. cbn in E2. injection E2 as -> -> -> -> _.
  pose proof (valid_layout_in_range _ _ R Hp eq_refl) as Hr.
  assert (Hb : 0 ≤ b < Z.of_nat (length R)) by (apply Hr; set_solver).
  assert (Ha' : 0 ≤ a < Z.of_nat (length R)) by (apply Hr; set_solver).
  rewrite !weights_drop by lia. intros Heq.
  assert (E3 : prod (drop (Z.to_nat a) R) = R !!! Z.to_nat a * prod (drop (S (Z.to_nat a)) R)).
  { erewrite drop_S by (apply list_lookup_lookup_total_lt; lia). by rewrite prod_cons. }
  rewrite <- E3 in Heq. apply prod_drop_inj in Heq; [| done | lia | lia].
  apply (apart_split _ p1 b a p2 Ha eq_refl). lia.
Qed.

Lemma zip_sorted R : Forall (λ d, 1 < d) R → StronglySorted (λ x y : Z * Z, y.2 < x.2) (zip R (weights R)).
Proof.
  induction 1 as [| r R Hr HR IH]; [constructor |]. cbn [weights zip zip_with]. constructor; [done |].
  apply Forall_forall. intros [x y] Hin. cbn [snd]. apply elem_of_zip_r in Hin.
  apply list_elem_of_lookup in Hin as [i Hi]. pose proof (lookup_lt_Some _ _ _ Hi) as Hlt. rewrite length_weights in Hlt.
  rewrite <- (list_lookup_total_correct _ _ _ Hi), weights_drop by done. apply (prod_drop_lt R 0 (S i) HR). lia.
Qed.

Lemma pairs_inj R p R' p' :
  valid_layout R p → valid_layout R' p' → Forall (λ d, 1 < d) R → Forall (λ d, 1 < d) R' →
  pairs R p = pairs R' p' → R = R' ∧ p = p'.
Proof.
  intros Hp Hp' H H' E.
  assert (Hzip : ∀ R p, valid_layout R p → pairs R p ≡ₚ zip R (weights R)).
  { clear. intros R p Hp. assert (Ez : zip R (weights R) = pairs R (iota (length R))).
    { unfold pairs. pose proof (sel_seqZ (weights R)) as E. rewrite length_weights in E. by rewrite sel_seqZ, E. }
    rewrite Ez, !pairs_map. rewrite (perm_seqZ p) by apply Hp. by rewrite (proj2 Hp). }
  assert (EZ : zip R (weights R) = zip R' (weights R')).
  { assert (HA : AntiSymm (=) (λ x y : Z * Z, y.2 < x.2)) by (intros x y Hx Hy; lia).
    apply (StronglySorted_unique (λ x y : Z * Z, y.2 < x.2)).
    - by apply zip_sorted.
    - by apply zip_sorted.
    - rewrite <- (Hzip R p Hp), E. by apply Hzip. }
  assert (ER : R = R').
  { rewrite <- (fst_zip R (weights R)), EZ, fst_zip; [done | by rewrite length_weights | by rewrite length_weights]. }
  subst R'. split; [done |]. destruct Hp as [P1 P2], Hp' as [Q1 Q2].
  apply list_eq_same_length with (length R); [done | done |]. intros i x y Hi Hx Hy.
  rewrite !pairs_map in E. assert (E' : (λ i, (R !!! Z.to_nat i, weights R !!! Z.to_nat i)) <$> p !! i = (λ i, (R !!! Z.to_nat i, weights R !!! Z.to_nat i)) <$> p' !! i).
  { by rewrite <- !list_lookup_fmap, E. }
  rewrite Hx, Hy in E'. cbn in E'. injection E' as _ E'.
  apply list_elem_of_lookup_2 in Hx, Hy. apply P1 in Hx. apply Q1 in Hy.
  rewrite !weights_drop in E' by lia. apply prod_drop_inj in E'; [lia | done | lia | lia].
Qed.

Lemma canonical_unique R p R' p' :
  valid_layout R p → valid_layout R' p' → canonical R p → canonical R' p' → prod R = prod R' →
  (∀ k, 0 ≤ k < prod R → flat R p k = flat R' p' k) → R = R' ∧ p = p'.
Proof.
  intros Hp Hp' [[-> ->] | [N H]] [[-> ->] | [N' H']] E Hv; [done | | |].
  - exfalso. pose proof (reduced_prod _ (proj1 H') N'). unfold prod in E at 1. cbn in E. lia.
  - exfalso. pose proof (reduced_prod _ (proj1 H) N). unfold prod in E at 2. cbn in E. lia.
  - apply pairs_inj; [done | done | apply H | apply H' |]. apply (inj reverse).
    assert (Hg : ∀ R p, valid_layout R p → Forall (λ d, 1 < d) R → Forall (λ x, 1 < x.1) (reverse (pairs R p))).
    { clear. intros R p Hp H. apply Forall_reverse. rewrite pairs_map. apply Forall_fmap, Forall_forall. intros i Hi. cbn.
      apply (valid_layout_in_range _ _ R Hp eq_refl) in Hi. rewrite Forall_lookup in H.
      apply (H (Z.to_nat i)), list_lookup_lookup_total_lt. lia. }
    assert (Hpr : ∀ R p, valid_layout R p → prod (reverse (pairs R p)).*1 = prod R).
    { clear. intros R p Hp. rewrite fmap_reverse, prod_reverse. unfold pairs. rewrite fst_zip by (by rewrite !length_sel). by rewrite sel_perm. }
    apply val_unique; [by apply reduced_strict | by apply reduced_strict | apply Hg; [done | apply H] | apply Hg; [done | apply H'] | by rewrite !Hpr |].
    intros k Hk. rewrite <- !flat_val. apply Hv. by rewrite Hpr in Hk.
Qed.
End TileCanonical.
