(* ===== verification/TileTranspose.v ===== *)
(** * Tile assignments: transposing

    The dimensions of size 1 do not count, the kind of a permutation, and transposing an
    iota whose dimensions are grouped into those of the assignment. *)
From S2P Require Import Prelude PermUtil Radix Layouts IndexProofs LayoutCorrect TransposeProofs Arrays ArrayProofs TileAssign TileValue TileCanonical.
#[local] Open Scope Z_scope.

Module TileTranspose.
Import PermUtil Radix IndexProofs Arrays ArrayProofs ArrayTranspose TransposeProofs TileAssign TileValue TileCanonical.

(** ** The dimensions that are not of size 1 *)

Definition nn (ds q : list Z) : list Z := filter (λ i, ds !!! Z.to_nat i ≠ 1) q.

Lemma nn_cons ds i q : nn ds (i :: q) = if decide (ds !!! Z.to_nat i ≠ 1) then i :: nn ds q else nn ds q.
Proof. unfold nn. by rewrite filter_cons. Qed.

Lemma nn_in_range ds q (xs : list Z) : in_range xs q → in_range xs (nn ds q).
Proof. intros H i Hi. apply list_elem_of_filter in Hi as [_ Hi]. by apply H. Qed.

Lemma lin_nn ds xs q :
  in_bounds ds xs → in_range ds q → lin (sel ds q) (sel xs q) = lin (sel ds (nn ds q)) (sel xs (nn ds q)).
Proof.
  intros Hb Hr. assert (Hp : ∀ q, prod (sel ds (nn ds q)) = prod (sel ds q)).
  { clear. intros q. induction q as [| i q IH]; [done |]. rewrite nn_cons. case_decide as Hi; rewrite !sel_cons, !prod_cons, ?IH; [done |].
    replace (ds !!! Z.to_nat i) with 1 by lia. lia. }
  induction q as [| i q IH]; [done |]. rewrite nn_cons.
  assert (Hr' : in_range ds q) by (intros j Hj; apply Hr; by right). specialize (IH Hr').
  assert (Hi : 0 ≤ i < Z.of_nat (length ds)) by (apply Hr; by left).
  case_decide as H1; rewrite ?sel_cons, lin_cons by (by rewrite !length_sel).
  - rewrite lin_cons by (by rewrite !length_sel). by rewrite IH, Hp.
  - pose proof (in_bounds_lookup ds xs (Z.to_nat i) Hb ltac:(lia)) as Hx.
    assert (xs !!! Z.to_nat i = 0) as -> by lia. rewrite <- IH. lia.
Qed.

Lemma lin_nn_all ds xs :
  in_bounds ds xs → lin ds xs = lin (sel ds (nn ds (iota (length ds)))) (sel xs (nn ds (iota (length ds)))).
Proof.
  intros Hb. rewrite <- lin_nn; [| done |].
  - rewrite sel_seqZ. rewrite (in_bounds_length _ _ Hb). by rewrite sel_seqZ.
  - intros i Hi. apply elem_of_seqZ in Hi. lia.
Qed.

Lemma seqZ_sorted m n : StronglySorted Z.lt (seqZ m n).
Proof.
  remember (Z.to_nat n) as c eqn:Ec. revert m n Ec. induction c as [| c IH]; intros m n Ec.
  - rewrite seqZ_nil by lia. constructor.
  - rewrite seqZ_cons by lia. constructor; [apply IH; lia |]. apply Forall_forall. intros x Hx%elem_of_seqZ. lia.
Qed.

Lemma sorted_filter {A} (R : relation A) (P : A → Prop) `{∀ x, Decision (P x)} l : StronglySorted R l → StronglySorted R (filter P l).
Proof.
  induction 1 as [| x l Hs IH Hx]; [constructor |]. rewrite filter_cons. case_decide; [| done]. constructor; [done |].
  apply Forall_forall. intros y [_ Hy]%list_elem_of_filter. rewrite Forall_forall in Hx. by apply Hx.
Qed.

Lemma nn_sorted ds q : perm q → StronglySorted Z.lt (nn ds q) → nn ds q = nn ds (iota (length q)).
Proof.
  intros Hq Hs. assert (HA : AntiSymm (=) Z.lt) by (intros x y Hx Hy; lia). apply (StronglySorted_unique Z.lt).
  - done.
  - apply sorted_filter, seqZ_sorted.
  - unfold nn. by rewrite <- perm_seqZ.
Qed.

(** ** The kind of a permutation *)

Lemma transpose_kind_loop_spec ds p i prev kind :
  in_range ds p → 0 ≤ i → i + Z.of_nat (length p) ≤ Z.of_nat (length ds) → kind ≠ kTranspose →
  ∃ r, transpose_kind_loop ds p i prev kind = Ok r ∧
    (r = kTranspose ∨ (StronglySorted Z.lt (nn ds p) ∧ Forall (Z.lt prev) (nn ds p) ∧
       (r = kNoop → kind = kNoop ∧ ∀ j d, p !! j = Some d → ds !!! Z.to_nat d = 1 → ds !!! Z.to_nat (i + Z.of_nat j) = 1))).
Proof.
  revert i prev kind. induction p as [| d p IH]; intros i prev kind Hr Hi Hl Hc.
  { exists kind. split; [done |]. right. split; [constructor |]. split; [constructor |]. done. }
  cbn [transpose_kind_loop length] in *. assert (Hr' : in_range ds p) by (intros j Hj; apply Hr; by right).
  rewrite (at_z_total ds d) by (apply Hr; by left). cbn [mbind res_bind]. rewrite nn_cons.
  destruct (Z.eqb_spec (ds !!! Z.to_nat d) 1) as [H1 | H1].
  - assert (E : (if d =? i then Ok 1 else at_z ds i) = Ok (if d =? i then 1 else ds !!! Z.to_nat i)).
    { destruct (d =? i); [done |]. apply at_z_total. lia. }
    rewrite E. cbn [mbind res_bind]. rewrite decide_False by tauto.
    set (kind' := if negb (d =? i) && negb ((if d =? i then 1 else ds !!! Z.to_nat i) =? 1) then kReshape else kind).
    destruct (IH (i + 1) prev kind' Hr' ltac:(lia) ltac:(lia)) as (r & Er & Hk).
    { unfold kind'. by destruct (negb _ && _). }
    exists r. split; [done |]. destruct Hk as [-> | (Hs & Hp & Hn)]; [by left | right]. split; [done |]. split; [done |]. intros Hrn. destruct (Hn Hrn) as [Hk' Hj].
    unfold kind' in Hk'. destruct (Z.eqb_spec d i) as [-> | Hdi]; cbn [negb andb] in Hk'.
    + split; [done |]. intros [| j] e He Hd1; cbn [lookup list_lookup] in He; [injection He as <-; by rewrite Z.add_0_r |].
      replace (i + Z.of_nat (S j)) with (i + 1 + Z.of_nat j) by lia. by apply (Hj j e).
    + destruct (Z.eqb_spec (ds !!! Z.to_nat i) 1) as [Hi1 | Hi1]; [| done]. cbn [negb] in Hk'. split; [done |].
      intros [| j] e He Hd1; cbn [lookup list_lookup] in He; [by rewrite Z.add_0_r |].
      replace (i + Z.of_nat (S j)) with (i + 1 + Z.of_nat j) by lia. by apply (Hj j e).
  - rewrite decide_True by done. destruct (Z.leb_spec d prev) as [Hle | Hgt].
    { exists kTranspose. split; [done |]. by left. }
    destruct (IH (i + 1) d kind Hr' ltac:(lia) ltac:(lia) Hc) as (r & Er & Hk). exists r. split; [done |].
    destruct Hk as [-> | (Hs & Hp & Hn)]; [by left | right]. split; [by constructor |]. split.
    + constructor; [done |]. eapply Forall_impl; [exact Hp |]. cbn. lia.
    + intros Hrn. destruct (Hn Hrn) as [Hk' Hj]. split; [done |]. intros [| j] e He Hd1; cbn [lookup list_lookup] in He.
      * by injection He as <-.
      * replace (i + Z.of_nat (S j)) with (i + 1 + Z.of_nat j) by lia. by apply (Hj j e).
Qed.

(** The same list without its elements 1, and no more of them. *)
Lemma same_ones (l1 l2 : list Z) :
  length l1 = length l2 → (∀ i, l1 !! i = Some 1 → l2 !! i = Some 1) →
  filter (λ d, d ≠ 1) l1 = filter (λ d, d ≠ 1) l2 → l1 = l2.
Proof.
  assert (Hc : ∀ l1 l2 : list Z, length l1 = length l2 → (∀ i, l1 !! i = Some 1 → l2 !! i = Some 1) →
    (length (filter (λ d : Z, d ≠ 1%Z) l2) ≤ length (filter (λ d : Z, d ≠ 1%Z) l1))%nat).
  { clear. intros l1. induction l1 as [| a l1 IH]; intros [| b l2] Hl H; try done. injection Hl as Hl.
    specialize (IH l2 Hl (λ i, H (S i))). rewrite !filter_cons. destruct (decide (b ≠ 1)) as [Hb | Hb], (decide (a ≠ 1)) as [Ha | Ha]; cbn [length]; try lia.
    assert (a = 1) as -> by lia. by injection (H O eq_refl) as ->. }
  revert l2. induction l1 as [| a l1 IH]; intros [| b l2] Hl H E; try done. injection Hl as Hl.
  rewrite !filter_cons in E. destruct (decide (a ≠ 1)) as [Ha | Ha], (decide (b ≠ 1)) as [Hb | Hb].
  - injection E as <- E. f_equal. apply IH; [done | exact (λ i, H (S i)) | done].
  - exfalso. pose proof (Hc l1 l2 Hl (λ i, H (S i))) as Hle. apply (f_equal length) in E. cbn [length] in E. lia.
  - exfalso. assert (a = 1) as -> by lia. by injection (H O eq_refl) as ->.
  - assert (a = 1) as -> by lia. assert (b = 1) as -> by lia. f_equal. apply IH; [done | exact (λ i, H (S i)) | done].
Qed.

Lemma sel_nn ds q : sel ds (nn ds q) = filter (λ d, d ≠ 1) (sel ds q).
Proof.
  induction q as [| i q IH]; [done |]. rewrite nn_cons, sel_cons, filter_cons. case_decide; [| done]. by rewrite sel_cons, IH.
Qed.

Lemma GetTransposeKind_spec ds q :
  valid_layout ds q →
  ∃ r, GetTransposeKind ds q = Ok r ∧
    (r = kNoop → sel ds q = ds ∧ ∀ xs, in_bounds ds xs → sel xs q = xs) ∧
    (r ≠ kTranspose → ∀ xs, in_bounds ds xs → lin (sel ds q) (sel xs q) = lin ds xs).
Proof.
  intros Hq. pose proof Hq as [Q1 Q2]. pose proof (valid_layout_in_range ds q ds Hq eq_refl) as Hr.
  destruct (transpose_kind_loop_spec ds q 0 (-1) kNoop Hr) as (r & E & H); [lia | lia | done |]. exists r. split; [done |].
  assert (Hlin : r ≠ kTranspose → ∀ xs, in_bounds ds xs → lin (sel ds q) (sel xs q) = lin ds xs).
  { intros Ht xs Hb. destruct H as [-> | (Hs & _)]; [done |].
    rewrite lin_nn, (lin_nn_all ds xs) by done. by rewrite (nn_sorted ds q Q1 Hs), Q2. }
  split; [| done]. intros ->. destruct H as [? | (Hs & _ & Hn)]; [done |]. destruct (Hn eq_refl) as [_ Hj].
  assert (E1 : sel ds q = ds).
  { apply same_ones; [by rewrite length_sel | |].
    - intros i Hi. unfold sel in Hi. rewrite list_lookup_fmap in Hi. destruct (q !! i) as [d |] eqn:Eq; [| done]. cbn in Hi. injection Hi as Hi.
      specialize (Hj i d Eq Hi). rewrite Z.add_0_l, Nat2Z.id in Hj. rewrite <- Hj. apply list_lookup_lookup_total_lt.
      apply lookup_lt_Some in Eq. lia.
    - rewrite <- sel_nn, (nn_sorted ds q Q1 Hs), sel_nn, Q2. by rewrite sel_seqZ. }
  split; [done |]. intros xs Hb. apply (lin_inj ds); [| done |].
  - rewrite <- E1 at 1. by apply in_bounds_sel.
  - rewrite <- E1 at 1. by apply Hlin.
Qed.

(** ** The numbers of these dimensions *)

Definition numbers (ds : list Z) : list Z := (old_to_new_dims 0 ds).1.

Abbreviation dims_of ds := (nn ds (iota (length ds))).

Lemma numbers_filter ds q :
  in_range ds q → filter (λ x, 0 ≤ x) (sel (numbers ds) q) = sel (numbers ds) (nn ds q).
Proof.
  destruct (old_to_new_dims_spec 0 ds ltac:(lia)) as (news & E & El & Ef & _ & Hi). unfold numbers. rewrite E. cbn [fst].
  intros Hr. induction q as [| i q IH]; [done |]. rewrite nn_cons, sel_cons, filter_cons.
  assert (Hr' : in_range ds q) by (intros j Hj; apply Hr; by right). pose proof (Hr i ltac:(left)) as Hir.
  destruct (lookup_lt_is_Some_2 ds (Z.to_nat i)) as [d Hd]; [lia |]. rewrite (list_lookup_total_correct _ _ _ Hd). specialize (Hi _ d Hd).
  destruct (decide (d = 1)) as [-> | Hd1].
  - rewrite (list_lookup_total_correct _ _ _ Hi), decide_False by lia. rewrite (decide_False (P := 1 ≠ 1)) by tauto. by apply IH.
  - destruct Hi as (j & Hj & _). rewrite (list_lookup_total_correct _ _ _ Hj), decide_True by lia. rewrite (decide_True _ _ Hd1), sel_cons.
    rewrite (list_lookup_total_correct _ _ _ Hj). by rewrite IH.
Qed.

Lemma numbers_spec ds :
  length (numbers ds) = length ds ∧ sel (numbers ds) (dims_of ds) = iota (length (dims_of ds)) ∧
  ∀ i, 0 ≤ i < Z.of_nat (length ds) → (numbers ds !!! Z.to_nat i < 0 ↔ ds !!! Z.to_nat i = 1).
Proof.
  assert (Hr : in_range ds (iota (length ds))) by (intros i Hi; apply elem_of_seqZ in Hi; lia).
  pose proof (numbers_filter ds _ Hr) as E. unfold numbers in *.
  destruct (old_to_new_dims_spec 0 ds ltac:(lia)) as (news & E' & El & Ef & _ & Hi). rewrite E' in *. cbn [fst] in *.
  split; [done |]. split.
  - assert (Hc : length (dims_of ds) = count ds) by (rewrite <- (length_sel ds), sel_nn; by rewrite sel_seqZ).
    rewrite <- E, Hc, <- Ef. pose proof (sel_seqZ news) as Es. rewrite El in Es. by rewrite Es.
  - intros i Hir. destruct (lookup_lt_is_Some_2 ds (Z.to_nat i)) as [d Hd]; [lia |]. rewrite (list_lookup_total_correct _ _ _ Hd). specialize (Hi _ d Hd).
    destruct (decide (d = 1)) as [-> | Hd1].
    + rewrite (list_lookup_total_correct _ _ _ Hi). lia.
    + destruct Hi as (j & Hj & _). rewrite (list_lookup_total_correct _ _ _ Hj). lia.
Qed.

(** The permutation of the dimensions that are not of size 1. *)
Definition inner (ds q : list Z) : list Z := sel (numbers ds) (nn ds q).

Lemma inner_perm ds q : valid_layout ds q → valid_layout (dims_of ds) (inner ds q).
Proof.
  intros [Q1 Q2]. destruct (numbers_spec ds) as (_ & E & _).
  assert (Hp : inner ds q ≡ₚ iota (length (dims_of ds))).
  { rewrite <- E. unfold inner, sel, nn. by rewrite (perm_seqZ q Q1), Q2. }
  assert (Hl : length (inner ds q) = length (dims_of ds)) by (rewrite Hp, length_seqZ; lia).
  split; [| done]. apply IsPermutation_perm, IsPermutation_exact. by rewrite Hl.
Qed.

Lemma inner_sel ds q : valid_layout ds q → sel (dims_of ds) (inner ds q) = nn ds q.
Proof.
  intros Hq. destruct (numbers_spec ds) as (_ & E & _). unfold inner, sel at 1 2. rewrite <- list_fmap_compose.
  rewrite <- (list_fmap_id (nn ds q)) at 2. apply list_fmap_ext. intros j i Hi. apply list_elem_of_lookup_2 in Hi. unfold compose, id.
  assert (Hm : i ∈ dims_of ds).
  { unfold nn in *. apply list_elem_of_filter in Hi as [H1 Hi]. apply list_elem_of_filter. split; [done |].
    apply (valid_layout_in_range ds q ds Hq eq_refl) in Hi. apply elem_of_seqZ. lia. }
  apply list_elem_of_lookup in Hm as [k Hk]. pose proof (sel_lookup (numbers ds) _ k i Hk) as Hs. rewrite E in Hs.
  apply lookup_seqZ in Hs as [-> _]. rewrite Z.add_0_l, Nat2Z.id. by apply list_lookup_total_correct.
Qed.

Lemma non_one_loop_spec ds R p s :
  valid_layout R p →
  (is_pure_transpose s = true → ∃ rest, sel R p = non_one_dims s ++ rest) →
  ∃ s', non_one_loop ds R p s = Ok s' ∧
    non_one_dims s' = non_one_dims s ++ filter (λ d, d ≠ 1) ds ∧
    one_to_non_one s' = one_to_non_one s ++ (old_to_new_dims (Z.of_nat (length (non_one_dims s))) ds).1 ∧
    (is_pure_transpose s' = true → ∃ rest, sel R p = non_one_dims s' ++ rest).
Proof.
  intros Hp. revert s. induction ds as [| d ds IH]; intros s Hs; cbn [non_one_loop].
  { exists s. rewrite filter_nil, !app_nil_r. done. }
  rewrite filter_cons. cbn [old_to_new_dims]. destruct (Z.eqb_spec d 1) as [-> | Hd].
  - rewrite decide_False by tauto.
    destruct (IH (MkNonOne (non_one_dims s) (one_to_non_one s ++ [-1]) (is_pure_transpose s)) Hs) as (s' & E & E1 & E2 & E3).
    exists s'. split; [done |]. split; [done |]. split; [| done]. rewrite E2. cbn [one_to_non_one non_one_dims].
    rewrite <- app_assoc. destruct (old_to_new_dims _ ds). done.
  - rewrite decide_True by done. set (k := length (non_one_dims s)).
    assert (Hdif : ∃ b : bool, (if (length R <=? k)%nat then Ok true else p0 ← at_res p k; e ← at_z R p0; Ok (negb (e =? d))) = Ok b ∧
       (b = false → sel R p !! k = Some d)).
    { destruct (Nat.leb_spec (length R) k) as [Hle | Hlt]; [by exists true |].
      destruct (lookup_lt_is_Some_2 p k) as [i Hi]; [by rewrite (proj2 Hp) |].
      rewrite (proj2 (at_res_ok p k i) Hi). cbn [mbind res_bind].
      rewrite at_z_total by (apply (valid_layout_in_range R p R Hp eq_refl); by eapply list_elem_of_lookup_2). cbn [mbind res_bind].
      eexists. split; [done |]. intros Hb%negb_false_iff%Z.eqb_eq. rewrite <- Hb. by apply sel_lookup. }
    destruct Hdif as (b & Eb & Hb). rewrite Eb. cbn [mbind res_bind].
    destruct (IH (MkNonOne (non_one_dims s ++ [d]) (one_to_non_one s ++ [Z.of_nat k]) (if b then false else is_pure_transpose s))) as (s' & E & E1 & E2 & E3).
    { cbn [is_pure_transpose non_one_dims]. destruct b; [done |]. intros Ht. destruct (Hs Ht) as [rest Er]. specialize (Hb eq_refl).
      rewrite Er, lookup_app_r in Hb by (unfold k; lia). unfold k in Hb. rewrite Nat.sub_diag in Hb.
      destruct rest as [| r rest]; [done |]. injection Hb as ->. exists rest. rewrite Er. by rewrite <- app_assoc. }
    exists s'. split; [done |]. cbn [non_one_dims one_to_non_one] in *. split; [by rewrite E1, <- app_assoc |]. split; [| done].
    rewrite E2, length_app. cbn [length]. rewrite <- app_assoc. fold k. replace (Z.of_nat (k + 1)) with (Z.of_nat k + 1) by lia.
    by destruct (old_to_new_dims (Z.of_nat k + 1) ds) as [l n].
Qed.

(** ** Grouped dimensions *)

Section Groups.
Context (R : list Z).
Hypothesis HR : Forall (λ d, 0 < d) R.

(** What a group adds to the device. *)
Definition part (g : list Z) (y : Z) : Z := dot (unlin (sel R g) y) (sel (weights R) g).
Definition size_of (g : list Z) : Z := prod (sel R g).

Lemma sel_app (xs p q : list Z) : sel xs (p ++ q) = sel xs p ++ sel xs q.
Proof. apply fmap_app. Qed.

Lemma flat_groups gs ys :
  in_range R (concat gs) → in_bounds (size_of <$> gs) ys →
  flat R (concat gs) (lin (size_of <$> gs) ys) = zsum (zip_with part gs ys) ∧
  prod (sel R (concat gs)) = prod (size_of <$> gs).
Proof.
  intros Hr. revert ys. induction gs as [| g gs IH]; intros [| y ys] Hb; try by inversion Hb.
  cbn [fmap list_fmap] in Hb. apply Forall2_cons in Hb as [Hy Hb]. cbn [concat fmap list_fmap zip_with] in *.
  assert (R1 : in_range R g) by (intros i Hi; apply Hr; apply elem_of_app; by left).
  assert (R2 : in_range R (concat gs)) by (intros i Hi; apply Hr; apply elem_of_app; by right).
  destruct (IH R2 ys Hb) as [E Ep]. pose proof (sel_pos R g HR R1) as Pg. pose proof (sel_pos R _ HR R2) as Pr.
  split; [| by rewrite sel_app, prod_app, prod_cons, Ep].
  rewrite lin_cons by (by eapply in_bounds_length). rewrite <- Ep. set (k := lin (size_of <$> gs) ys) in *.
  assert (Hk : 0 ≤ k < prod (sel R (concat gs))) by (rewrite Ep; by apply lin_bounds).
  set (z := unlin (sel R g) y). set (z' := unlin (sel R (concat gs)) k).
  assert (Bz : in_bounds (sel R g) z) by (by apply unlin_bounds). assert (Bz' : in_bounds (sel R (concat gs)) z') by (by apply unlin_bounds).
  assert (El : y * prod (sel R (concat gs)) + k = lin (sel R (g ++ concat gs)) (z ++ z')).
  { rewrite sel_app, lin_app by (by apply in_bounds_length). unfold z, z', size_of in *. by rewrite !lin_unlin. }
  rewrite El. unfold flat. rewrite unlin_lin by (rewrite sel_app; by apply Forall2_app).
  rewrite sel_app, dot_app by (rewrite length_sel; by rewrite <- (in_bounds_length _ _ Bz), length_sel).
  change (part g y + dot z' (sel (weights R) (concat gs)) = part g y + zsum (zip_with part gs ys)). by rewrite <- E.
Qed.

Lemma concat_permuted (gs : list (list Z)) q :
  perm q → length q = length gs → concat ((λ j, gs !!! Z.to_nat j) <$> q) ≡ₚ concat gs.
Proof.
  intros Hq Hl. assert (E : concat gs = concat ((λ j, gs !!! Z.to_nat j) <$> iota (length gs))).
  { f_equal. apply list_eq. intros i. rewrite list_lookup_fmap. destruct (decide (i < length gs)%nat).
    - rewrite (proj2 (lookup_seqZ 0 _ i (Z.of_nat i))) by lia. cbn. rewrite Nat2Z.id. by apply list_lookup_lookup_total_lt.
    - rewrite lookup_ge_None_2 by lia. rewrite lookup_seqZ_ge by lia. done. }
  rewrite E. rewrite <- Hl. by rewrite (perm_seqZ q Hq) at 1.
Qed.

(** Permuting the groups permutes their indices. *)
Lemma regroup gs ys q :
  perm (concat gs) → length (concat gs) = length R → perm q → length q = length gs → in_bounds (size_of <$> gs) ys →
  valid_layout R (concat ((λ j, gs !!! Z.to_nat j) <$> q)) ∧
  flat R (concat ((λ j, gs !!! Z.to_nat j) <$> q)) (lin (sel (size_of <$> gs) q) (sel ys q)) =
  flat R (concat gs) (lin (size_of <$> gs) ys).
Proof.
  intros Hg Hlg Hq Hl Hb. set (gs' := (λ j, gs !!! Z.to_nat j) <$> q).
  assert (Hp : concat gs' ≡ₚ concat gs) by (by apply concat_permuted).
  assert (Hv : valid_layout R (concat gs')).
  { assert (Hlen : length (concat gs') = length R) by (by rewrite Hp). split; [| done].
    apply (LayoutProofs.perm_Permutation (concat gs)); [by symmetry | done]. }
  split; [done |]. pose proof (in_bounds_length _ _ Hb) as Ly. rewrite length_fmap in Ly.
  assert (Hs : size_of <$> gs' = sel (size_of <$> gs) q).
  { unfold gs', sel. rewrite <- list_fmap_compose. apply list_fmap_ext. intros i j Hj. apply list_elem_of_lookup_2, Hq in Hj. unfold compose.
    symmetry. apply list_lookup_total_correct. rewrite list_lookup_fmap.
    rewrite (list_lookup_lookup_total_lt gs) by lia. done. }
  assert (Hb' : in_bounds (size_of <$> gs') (sel ys q)).
  { rewrite Hs. apply in_bounds_sel; [done |]. intros i Hi. apply Hq in Hi. rewrite length_fmap. lia. }
  rewrite <- Hs. pose proof (valid_layout_in_range R _ R Hv eq_refl) as Hr'.
  rewrite (proj1 (flat_groups gs' _ Hr' Hb')).
  rewrite (proj1 (flat_groups gs ys ltac:(intros i Hi; apply Hr'; by rewrite Hp) Hb)).
  assert (Ez : zip_with part gs' (sel ys q) = sel (zip_with part gs ys) q).
  { unfold gs', sel. clear -Hq Hl Ly. assert (Hr : ∀ j, j ∈ q → 0 ≤ j < Z.of_nat (length gs)) by (rewrite <- Hl; apply Hq). clear Hq Hl.
    induction q as [| j q IH]; [done |]. cbn [fmap list_fmap zip_with]. rewrite IH by (intros k Hk; apply Hr; by right). f_equal.
    pose proof (Hr j ltac:(left)) as Hj. symmetry. apply list_lookup_total_correct. rewrite lookup_zip_with.
    rewrite (list_lookup_lookup_total_lt gs), (list_lookup_lookup_total_lt ys) by lia. done. }
  rewrite Ez, sel_perm; [done |]. split; [done |]. rewrite length_zip_with. lia.
Qed.
End Groups.
End TileTranspose.
