(* ===== verification/TileFactors.v ===== *)
(** * Tile assignments: prime factors

    Trial division gives primes whose product is the dimension, and a number that is a
    product of [n] primes is not a product of more than [n] factors. *)
From Stdlib Require Import Znumtheory.
From S2P Require Import Prelude PermUtil Radix Layouts IndexProofs LayoutCorrect TransposeProofs Arrays ArrayProofs TileAssign TileValue TileCanonical TileTranspose.
#[local] Open Scope Z_scope.

Module TilePrimes.
Import PermUtil Radix IndexProofs Arrays TileAssign.

(** ** Trial division *)

(** No number from 2 on and below [i] divides [n]. *)
Definition rough (i n : Z) : Prop := ∀ d, 1 < d < i → ¬ (d | n).

Lemma rough_divide i n m : rough i n → (m | n) → rough i m.
Proof. intros H Hm d Hd Hdm. by apply (H d Hd), (Z.divide_trans _ m). Qed.

Lemma rough_prime i n : 1 < i → rough i n → (i | n) → prime i.
Proof.
  intros Hi H Hd. apply prime_alt. split; [done |]. intros d Hdi Hdiv. by apply (H d Hdi), (Z.divide_trans _ i).
Qed.

Lemma rough_rest i n : 1 < n → n < i * i → 0 < i → rough i n → prime n.
Proof.
  intros Hn Hi Hi0 H. apply prime_alt. split; [done |]. intros a Ha [b Hb].
  destruct (decide (a < i)) as [Hai | Hai]; [apply (H a); [lia | by exists b] |].
  apply (H b); [nia |]. exists a. lia.
Qed.

Lemma factor_out_spec fuel i n factors :
  2 ≤ i → 1 ≤ n → n < 2 ^ Z.of_nat fuel → n ≤ int64_max →
  ∃ n' fs, factor_out fuel i n factors = Ok (n', factors ++ fs) ∧ Forall (λ f, f = i) fs ∧
    n = prod fs * n' ∧ 1 ≤ n' ∧ ¬ (i | n') ∧ (fs = [] ∨ (i | n)).
Proof.
  revert n factors. induction fuel as [| fuel IH]; intros n factors Hi Hn Hf Hm; [cbn in Hf; lia |]. cbn [factor_out].
  rewrite c_mod_pos by lia. cbn [mbind res_bind]. destruct (Z.eqb_spec (n mod i) 0) as [E | E].
  - rewrite c_div_pos by lia. cbn [mbind res_bind].
    pose proof (Z.div_exact n i ltac:(lia)) as [_ Hx]. specialize (Hx E).
    assert (Hq : 1 ≤ n / i) by nia.
    destruct (IH (n / i) (factors ++ [i]) Hi Hq) as (n' & fs & E1 & E2 & E3 & E4 & E5 & _).
    { apply Z.div_lt_upper_bound; [lia |]. rewrite Nat2Z.inj_succ, Z.pow_succ_r in Hf by lia. nia. }
    { nia. }
    exists n', (i :: fs). rewrite E1, <- app_assoc. split; [done |]. split; [by constructor |]. split; [rewrite prod_cons; nia |].
    split; [done |]. split; [done |]. right. by apply Z.mod_divide; [lia |].
  - exists n, []. rewrite app_nil_r. split; [done |]. split; [done |]. split; [cbn; lia |]. split; [done |]. split; [| by left].
    intros Hd. apply E. apply Z.mod_divide; [lia | done].
Qed.

Lemma odd_factors_spec fuel i s n factors :
  3 ≤ i → Z.odd i = true → i ≤ 46339 → 1 ≤ n → n < 46339 * 46339 → rough i n →
  0 ≤ s → n < (s + 1) * (s + 1) → (1 ≤ fuel)%nat → s + 5 ≤ Z.of_nat fuel + i →
  ∃ n' fs, odd_factors fuel i n factors = Ok (n', factors ++ fs) ∧ Forall prime fs ∧
    n = prod fs * n' ∧ (n' = 1 ∨ prime n').
Proof.
  revert i n factors. induction fuel as [| fuel IH]; intros i n factors Hi Hodd Hi' Hn Hn' Hr Hs Hsn Hf Hfi; [lia |]. cbn [odd_factors].
  rewrite (s32_in (i * i)) by nia. cbn [mbind res_bind]. destruct (i * i <=? n) eqn:Hle; [apply Z.leb_le in Hle | apply Z.leb_gt in Hle as Hgt].
  - destruct (factor_out_spec 65 i n factors) as (n1 & fs & E1 & E2 & E3 & E4 & E5 & E6); [lia | done | cbn; lia | int_lia |].
    rewrite E1. cbn [mbind res_bind]. assert (i < 46339) by nia. rewrite (s32_in (i + 2)) by lia. cbn [mbind res_bind].
    assert (Hdiv : (n1 | n)) by (by exists (prod fs)).
    assert (Hle1 : n1 ≤ n) by (apply Z.divide_pos_le; [lia | done]).
    destruct (IH (i + 2) n1 (factors ++ fs)) as (n' & fs' & F1 & F2 & F3 & F4); [lia | | | done | lia | | done | lia | nia | lia |].
    { by rewrite Z.odd_add, Hodd. }
    { destruct (decide (i = 46338)) as [-> |]; [done | lia]. }
    { intros d Hd Hdn. destruct (decide (d < i)) as [|]; [by apply (rough_divide i n n1 Hr Hdiv d); [lia |] |].
      destruct (decide (d = i)) as [-> |]; [done |]. assert (d = i + 1) as -> by lia.
      apply (rough_divide i n n1 Hr Hdiv 2); [lia |]. apply (Z.divide_trans _ (i + 1)); [| done].
      apply Z.odd_spec in Hodd as [m ->]. exists (m + 1). lia. }
    exists n', (fs ++ fs'). rewrite F1, app_assoc. split; [done |]. split; [| split; [rewrite prod_app; nia | done]].
    apply Forall_app. split; [| done]. destruct E6 as [-> | E6]; [constructor |]. eapply Forall_impl; [exact E2 |].
    intros f ->. by apply (rough_prime i n); [lia | |].
  - exists n, []. rewrite app_nil_r. split; [done |]. split; [constructor |]. split; [cbn; lia |].
    destruct (decide (n = 1)); [by left | right]. apply (rough_rest i); [lia | done | lia | done].
Qed.

Lemma prime_factors_spec n factors :
  1 ≤ n → n < 46339 * 46339 →
  ∃ fs, prime_factors n factors = Ok (factors ++ fs) ∧ Forall prime fs ∧ prod fs = n.
Proof.
  intros Hn Hn'. unfold prime_factors.
  destruct (factor_out_spec 65 2 n factors) as (n1 & fs & E1 & E2 & E3 & E4 & E5 & _); [lia | done | cbn; lia | int_lia |].
  rewrite E1. cbn [mbind res_bind]. assert (Hle : n1 ≤ n) by (apply Z.divide_pos_le; [lia | by exists (prod fs)]).
  pose proof (Z.sqrt_spec n1 ltac:(lia)) as Hsq. cbv zeta in Hsq. pose proof (Z.sqrt_nonneg n1).
  destruct (odd_factors_spec (Z.to_nat (Z.sqrt n1) + 2) 3 (Z.sqrt n1) n1 (factors ++ fs)) as (n' & fs' & F1 & F2 & F3 & F4);
    [lia | done | lia | done | lia | | done | lia | lia | lia |].
  { intros d Hd Hdn. by replace d with 2 in Hdn by lia. }
  rewrite F1. cbn [mbind res_bind]. assert (H2 : Forall prime fs) by (eapply Forall_impl; [exact E2 |]; intros f ->; apply prime_2).
  destruct F4 as [-> | F4].
  - exists (fs ++ fs'). cbn. rewrite app_assoc. split; [done |]. split; [by apply Forall_app |]. rewrite prod_app. nia.
  - assert (Hn2 : n' ≠ 2).
    { intros ->. apply E5. exists (prod fs'). lia. }
    pose proof (prime_ge_2 n' F4). rewrite Z.gtb_ltb, (proj2 (Z.ltb_lt 1 n')) by lia.
    rewrite Z.gtb_ltb, (proj2 (Z.ltb_lt 2 n')) by lia. cbn [guard_res mbind res_bind].
    exists (fs ++ fs' ++ [n']). rewrite <- !app_assoc. split; [done |]. split.
    + rewrite !Forall_app. split; [done |]. split; [done |]. by constructor.
    + rewrite !prod_app, prod_singleton. nia.
Qed.

(** ** Products of primes *)

Lemma prime_divides_prod p l : prime p → (p | prod l) → ∃ x, x ∈ l ∧ (p | x).
Proof.
  intros Hp. induction l as [| x l IH]; intros Hd.
  - apply prime_ge_2 in Hp. cbn in Hd. apply Z.divide_1_r_nonneg in Hd; lia.
  - rewrite prod_cons in Hd. apply prime_mult in Hd as [Hd | Hd]; [| | done].
    + exists x. split; [by left | done].
    + destruct (IH Hd) as (y & Hy & Hdy). exists y. split; [by right | done].
Qed.

Lemma fewer_factors fs l :
  Forall prime fs → Forall (λ d, 1 < d) l → prod l = prod fs → (length l ≤ length fs)%nat.
Proof.
  intros Hf. revert l. induction Hf as [| f fs Hf Hfs IH]; intros l Hl E.
  - destruct Hl as [| d l Hd Hl]; [done |]. rewrite prod_cons in E. cbn in E.
    assert (0 < prod l) by (apply prod_pos; eapply Forall_impl; [exact Hl | cbn; lia]). nia.
  - rewrite prod_cons in E. destruct (prime_divides_prod f l Hf) as (x & Hx & [m Hm]); [exists (prod fs); lia |].
    apply list_elem_of_split in Hx as (l1 & l2 & ->). pose proof (prime_ge_2 f Hf).
    rewrite Forall_app, Forall_cons in Hl. destruct Hl as (H1 & Hx & H2). cbn beta in Hx.
    rewrite prod_app, prod_cons in E. subst x. rewrite length_app. cbn [length].
    destruct (decide (m = 1)) as [-> | Hm].
    + specialize (IH (l1 ++ l2)). rewrite length_app in IH. ospecialize (IH _ _); [by apply Forall_app | rewrite prod_app; nia | lia].
    + specialize (IH (l1 ++ m :: l2)). rewrite length_app in IH. cbn [length] in IH.
      ospecialize (IH _ _); [rewrite Forall_app, Forall_cons; split; [done |]; split; [nia | done] | rewrite prod_app, prod_cons; nia | lia].
Qed.
End TilePrimes.

(** ** Tile assignments: grouping factors

    The dimensions of an iota split into factors, the factors of one dimension in any
    order, and the loops that group factors into the dimensions of the assignment. *)
Module TileFactors.
Import PermUtil Radix IndexProofs Arrays ArrayProofs ArrayTranspose TransposeProofs TileAssign TileValue TileCanonical TileTranspose TilePrimes.

Definition total (l : list nat) : nat := foldr Nat.add O l.

Lemma total_lengths_app l1 l2 : total (l1 ++ l2) = (total l1 + total l2)%nat.
Proof. induction l1 as [| x l1 IH]; [done |]. cbn [app total foldr]. fold (total (l1 ++ l2)) (total l1). lia. Qed.

Lemma length_concat {A} (l : list (list A)) : length (concat l) = total (length <$> l).
Proof. induction l as [| x l IH]; [done |]. cbn [concat]. by rewrite length_app, IH. Qed.

Lemma prod_concat l : prod (concat l) = prod (prod <$> l).
Proof. induction l as [| x l IH]; [done |]. cbn [concat fmap list_fmap]. by rewrite prod_app, prod_cons, IH. Qed.

Lemma sel_range (A B C : list Z) b n :
  b = Z.of_nat (length A) → n = Z.of_nat (length B) → sel (A ++ B ++ C) (seqZ b n) = B.
Proof.
  intros -> ->. apply list_eq_same_length with (length B); [done | rewrite length_sel, length_seqZ; lia |].
  intros i x y Hi Hx Hy. rewrite (sel_lookup _ _ i (Z.of_nat (length A) + Z.of_nat i)) in Hx by (apply lookup_seqZ; lia).
  injection Hx as <-. apply list_lookup_total_correct. rewrite lookup_app_r by lia.
  rewrite lookup_app_l by lia. rewrite <- Hy. f_equal. lia.
Qed.

(** ** Blocks of factors *)

Section Blocks.
Context (lens : list nat) (R : list Z).

Definition start (d : Z) : Z := Z.of_nat (total (take (Z.to_nat d) lens)).
Definition len (d : Z) : nat := lens !!! Z.to_nat d.
Definition range (d : Z) : list Z := seqZ (start d) (Z.of_nat (len d)).

(** The factors of every dimension, in any order. *)
Definition shuffle (F : list Z) : Prop :=
  ∃ FF, F = concat FF ∧ length <$> FF = lens ∧ prod <$> FF = R ∧ Forall (Forall (λ f, 1 < f)) FF.

Lemma shuffle_length F : shuffle F → length F = total lens.
Proof. intros (FF & -> & <- & _). apply length_concat. Qed.

Lemma shuffle_prod F : shuffle F → prod F = prod R.
Proof. intros (FF & -> & _ & <- & _). apply prod_concat. Qed.

Lemma shuffle_gt F : shuffle F → Forall (λ f, 1 < f) F.
Proof. intros (FF & -> & _ & _ & H). induction H as [| f FF Hf _ IH]; [constructor |]. by apply Forall_app. Qed.

Lemma shuffle_pos F : shuffle F → Forall (λ f, 0 < f) F.
Proof. intros H. eapply Forall_impl; [exact (shuffle_gt F H) |]. cbn. lia. Qed.

Hypothesis HR : Forall (λ d, 0 < d) R.
Hypothesis Hlens : length lens = length R.

Lemma shuffle_block F d :
  shuffle F → 0 ≤ d < Z.of_nat (length R) →
  ∃ A B C, F = A ++ B ++ C ∧ start d = Z.of_nat (length A) ∧ len d = length B ∧
    prod B = R !!! Z.to_nat d ∧ prod C = weights R !!! Z.to_nat d ∧
    ∀ B', length B' = length B → prod B' = prod B → Forall (λ f, 1 < f) B' → shuffle (A ++ B' ++ C).
Proof.
  intros (FF & -> & Hl & Hp & Hg) Hd. assert (LF : length FF = length R) by (by rewrite <- Hp, length_fmap).
  destruct (lookup_lt_is_Some_2 FF (Z.to_nat d)) as [B HB]; [lia |].
  pose proof (take_drop_middle FF _ B HB) as E.
  set (FA := take (Z.to_nat d) FF) in *. set (FC := drop (S (Z.to_nat d)) FF) in *.
  exists (concat FA), B, (concat FC). split; [by rewrite <- E, concat_app |]. split; [| split; [| split; [| split]]].
  - unfold start. rewrite length_concat, <- Hl. unfold FA. by rewrite fmap_take.
  - unfold len. rewrite <- Hl. apply list_lookup_total_correct. by rewrite list_lookup_fmap, HB.
  - rewrite <- Hp. symmetry. apply list_lookup_total_correct. by rewrite list_lookup_fmap, HB.
  - rewrite weights_drop, prod_concat by lia. unfold FC. by rewrite fmap_drop, Hp.
  - intros B' Hl' Hp' Hg'. exists (FA ++ B' :: FC). split; [by rewrite concat_app |].
    rewrite <- E in Hl, Hp, Hg. rewrite fmap_app, fmap_cons in Hl. rewrite fmap_app, fmap_cons in Hp. rewrite !fmap_app. rewrite !fmap_cons, Hl', Hp'. split; [done |]. split; [done |].
    rewrite Forall_app, Forall_cons in *. tauto.
Qed.

Lemma ranges_all : concat (range <$> iota (length lens)) = iota (total lens).
Proof.
  assert (H : ∀ n, (n ≤ length lens)%nat → concat (range <$> iota n) = iota (total (take n lens))).
  { intros n. induction n as [| n IH]; intros Hn; [done |].
    replace (Z.of_nat (S n)) with (Z.of_nat n + 1) by lia. rewrite seqZ_app, fmap_app, concat_app, IH by lia.
    rewrite (seqZ_cons _ 1), (seqZ_nil _ (Z.pred 1)) by lia. cbn [fmap list_fmap concat]. rewrite app_nil_r.
    destruct (lookup_lt_is_Some_2 lens n) as [x Hx]; [lia |]. rewrite (take_S_r _ _ x Hx), total_lengths_app.
    unfold range, start, len. rewrite Z.add_0_l, Nat2Z.id, (list_lookup_total_correct _ _ _ Hx).
    cbn [total foldr]. rewrite Nat.add_0_r, Nat2Z.inj_add, seqZ_app by lia. done. }
  rewrite H by lia. by rewrite take_ge by lia.
Qed.

Lemma ranges_perm p : valid_layout R p → perm (concat (range <$> p)) ∧ length (concat (range <$> p)) = total lens.
Proof.
  intros [P1 P2]. assert (E : concat (range <$> p) ≡ₚ iota (total lens)).
  { rewrite <- ranges_all. by rewrite (perm_seqZ p P1), P2, Hlens. }
  assert (L : length (concat (range <$> p)) = total lens) by (rewrite E, length_seqZ; lia). split; [| done].
  apply IsPermutation_perm, IsPermutation_exact. by rewrite L.
Qed.

Lemma block_size F d : shuffle F → 0 ≤ d < Z.of_nat (length R) → size_of F (range d) = R !!! Z.to_nat d.
Proof.
  intros HF Hd. destruct (shuffle_block F d HF Hd) as (A & B & C & -> & Es & El & Ep & _). unfold size_of, range.
  rewrite sel_range by congruence. done.
Qed.

Lemma block_part F d y :
  shuffle F → 0 ≤ d < Z.of_nat (length R) → 0 ≤ y < R !!! Z.to_nat d →
  part F (range d) y = y * weights R !!! Z.to_nat d.
Proof.
  intros HF Hd Hy. pose proof (shuffle_pos F HF) as Hpos.
  destruct (shuffle_block F d HF Hd) as (A & B & C & -> & Es & El & Ep & Ec & _). unfold part, range.
  rewrite sel_range by congruence. rewrite !weights_app, (app_assoc _ _ (weights C)), <- app_assoc.
  rewrite sel_range by (rewrite length_fmap, ?length_app, ?length_fmap, ?length_weights; congruence || lia).
  rewrite !Forall_app in Hpos. destruct Hpos as (_ & PB & _).
  assert (Hdot : ∀ xs ss c, dot xs ((λ w, w * c) <$> ss) = dot xs ss * c).
  { clear. intros xs. induction xs as [| x xs IH]; intros [| s ss] c; try done. cbn [fmap list_fmap]. rewrite !dot_cons, IH. lia. }
  pose proof (in_bounds_length _ _ (unlin_bounds B y PB)) as Lu.
  rewrite Hdot, dot_weights by done. rewrite lin_unlin, Ec by (done || lia). done.
Qed.

(** The order of the factors of a dimension does not matter. *)
Lemma flat_shuffled F p k :
  shuffle F → valid_layout R p → 0 ≤ k < prod R → flat F (concat (range <$> p)) k = flat R p k.
Proof.
  intros HF Hp Hk. pose proof (valid_layout_in_range R p R Hp eq_refl) as Hr. pose proof (sel_pos R p HR Hr) as Hpos.
  assert (Hs : size_of F <$> (range <$> p) = sel R p).
  { rewrite <- list_fmap_compose. apply list_fmap_ext. intros i d Hd. apply list_elem_of_lookup_2, Hr in Hd. by apply block_size. }
  set (ys := unlin (sel R p) k). assert (Hb : in_bounds (sel R p) ys) by (by apply unlin_bounds).
  assert (Ek : k = lin (sel R p) ys) by (unfold ys; rewrite lin_unlin; [done | done | by rewrite sel_perm]).
  rewrite Ek at 1. rewrite <- Hs. destruct (ranges_perm p Hp) as [_ L].
  assert (Hr' : in_range F (concat (range <$> p))).
  { destruct (ranges_perm p Hp) as [[_ H] L']. intros i Hi. rewrite (shuffle_length F HF), <- L'. by apply H. }
  rewrite (proj1 (flat_groups F (shuffle_pos F HF) _ ys Hr' ltac:(by rewrite Hs))).
  unfold flat. fold ys. rewrite dot_zsum. f_equal. clearbody ys. clear -Hb Hr HF HR Hlens.
  revert ys Hb. induction p as [| d p IH]; intros ys Hb.
  - by inversion Hb.
  - destruct ys as [| y ys]; [by inversion Hb |]. rewrite sel_cons in Hb. apply Forall2_cons in Hb as [Hy Hb]. cbn [fmap list_fmap zip_with].
    rewrite sel_cons. cbn [zip_with]. rewrite block_part by (done || (apply Hr; by left)). f_equal. apply IH; [| done].
    intros i Hi. apply Hr. by right.
Qed.

(** *** Two factors of a dimension change places *)

Lemma swap_permutation (B : list Z) a b x y :
  B !! a = Some x → B !! b = Some y → <[b := x]> (<[a := y]> B) ≡ₚ B.
Proof.
  assert (H : ∀ a b x y, (a < b)%nat → B !! a = Some x → B !! b = Some y →
             <[b := x]> (<[a := y]> B) ≡ₚ B ∧ <[a := y]> (<[b := x]> B) ≡ₚ B).
  { clear. intros a b x y Hab Ha Hb. destruct (two_places B a (b - a - 1) y) as (P & u & O & v & Q & E & LP & LO & _).
    { apply lookup_lt_Some in Hb. lia. }
    assert (u = x) as -> by (rewrite E in Ha; rewrite lookup_app_r, LP, Nat.sub_diag in Ha by lia; by injection Ha).
    assert (v = y) as ->.
    { rewrite E in Hb. rewrite lookup_app_r, LP in Hb by lia. replace (b - a)%nat with (S (b - a - 1)) in Hb by lia.
      change ((O ++ v :: Q) !! (b - a - 1)%nat = Some y) in Hb. rewrite lookup_app_r, LO, Nat.sub_diag in Hb by lia. by injection Hb. }
    assert (E' : <[b := x]> (<[a := y]> B) = P ++ y :: O ++ x :: Q).
    { rewrite E. rewrite insert_middle by done. change (P ++ y :: O ++ y :: Q) with (P ++ (y :: O) ++ y :: Q). rewrite app_assoc, insert_middle.
      - by rewrite <- app_assoc.
      - rewrite length_app. cbn. lia. }
    assert (Hperm : P ++ y :: O ++ x :: Q ≡ₚ P ++ x :: O ++ y :: Q) by (by rewrite <- !Permutation_middle, Permutation_swap).
    split; [by rewrite E', E |]. rewrite list_insert_insert_ne by lia. by rewrite E', E. }
  intros Ha Hb. destruct (lt_eq_lt_dec a b) as [[Hlt | ->] | Hlt].
  - exact (proj1 (H a b x y Hlt Ha Hb)).
  - rewrite list_insert_insert_eq. rewrite list_insert_id; [done |]. congruence.
  - exact (proj2 (H b a y x Hlt Hb Ha)).
Qed.

Lemma shuffle_swap F d i j :
  shuffle F → 0 ≤ d < Z.of_nat (length R) → i ∈ range d → j ∈ range d →
  shuffle (<[Z.to_nat j := F !!! Z.to_nat i]> (<[Z.to_nat i := F !!! Z.to_nat j]> F)).
Proof.
  intros HF Hd Hi Hj. pose proof (shuffle_gt F HF) as Hg. destruct (shuffle_block F d HF Hd) as (A & B & C & E & Es & El & Ep & _ & HB').
  unfold range in Hi, Hj. apply elem_of_seqZ in Hi, Hj. rewrite Es, El in Hi, Hj.
  destruct (lookup_lt_is_Some_2 B (Z.to_nat i - length A)) as [x Hx]; [lia |].
  destruct (lookup_lt_is_Some_2 B (Z.to_nat j - length A)) as [y Hy]; [lia |].
  assert (Ex : F !!! Z.to_nat i = x).
  { apply list_lookup_total_correct. rewrite E, lookup_app_r by lia. by apply lookup_app_l_Some. }
  assert (Ey : F !!! Z.to_nat j = y).
  { apply list_lookup_total_correct. rewrite E, lookup_app_r by lia. by apply lookup_app_l_Some. }
  rewrite Ex, Ey, E. pose proof (lookup_lt_Some _ _ _ Hx). pose proof (lookup_lt_Some _ _ _ Hy).
  rewrite (insert_app_r_alt A) by lia. rewrite (insert_app_l B) by done.
  rewrite (insert_app_r_alt A) by lia. rewrite (insert_app_l (<[_ := _]> B)) by (by rewrite length_insert).
  pose proof (swap_permutation B _ _ x y Hx Hy) as Hperm. apply HB'.
  - by rewrite Hperm.
  - by rewrite Hperm.
  - rewrite Hperm. rewrite E, !Forall_app in Hg. tauto.
Qed.
End Blocks.
End TileFactors.

(** ** Tile assignments: the loops over factors

    [FullyDecanonicalize] and the loops of [Transpose] that fill the groups. *)
Module TileGroups.
Import PermUtil Radix IndexProofs Arrays ArrayProofs ArrayTranspose TransposeProofs TileAssign TileValue TileCanonical TileTranspose TilePrimes TileFactors.

(** ** Splitting into factors *)

(** Where the factors of every dimension begin. *)
Definition offsets (FF : list (list Z)) : list Z :=
  (λ m, Z.of_nat (total (take m (length <$> FF)))) <$> seq 0 (S (length FF)).

Lemma offsets_snoc FF f : offsets (FF ++ [f]) = offsets FF ++ [Z.of_nat (length (concat (FF ++ [f])))].
Proof.
  unfold offsets. rewrite length_app. cbn [length]. rewrite Nat.add_1_r, (seq_S (S (length FF))), fmap_app. f_equal.
  - apply list_fmap_ext. intros i m Hm. apply lookup_seq in Hm as [-> Hm]. do 2 f_equal.
    rewrite fmap_app, take_app_le; [done |]. rewrite length_fmap. lia.
  - cbn. do 2 f_equal. rewrite take_ge by (rewrite length_fmap, length_app; cbn; lia). by rewrite length_concat.
Qed.

Lemma offsets_lookup FF d :
  0 ≤ d ≤ Z.of_nat (length FF) → at_z (offsets FF) d = Ok (start (length <$> FF) d).
Proof.
  intros Hd. apply at_z_ok. split; [lia |]. unfold offsets. rewrite list_lookup_fmap, (proj2 (lookup_seq _ _ _ (Z.to_nat d))); [done | lia].
Qed.

Lemma decanonicalize_dims_spec R FF :
  Forall (λ d, 0 < d < 46339 * 46339) R →
  ∃ GG, decanonicalize_dims R (concat FF) (offsets FF) = Ok (concat (FF ++ GG), offsets (FF ++ GG)) ∧
    prod <$> GG = R ∧ Forall (Forall prime) GG.
Proof.
  intros HR. revert FF. induction HR as [| d R Hd HR IH]; intros FF; cbn [decanonicalize_dims].
  { exists []. by rewrite app_nil_r. }
  destruct (prime_factors_spec d (concat FF)) as (fs & E & Hfs & Ep); [lia | lia |]. rewrite E. cbn [mbind res_bind].
  assert (Ec : concat FF ++ fs = concat (FF ++ [fs])) by (rewrite concat_app; cbn; by rewrite app_nil_r).
  rewrite Ec, <- offsets_snoc. destruct (IH (FF ++ [fs])) as (GG & E1 & E2 & E3). exists (fs :: GG).
  rewrite E1, <- app_assoc. split; [done |]. split; [by rewrite fmap_cons, Ep, E2 | by constructor].
Qed.

Section Info.
Context (lens : list nat).

(** The parts of the information for the dimensions of the permutation read so far. *)
Record info_inv (done_ : list Z) (info : DecanonicalizationInfo) : Prop := {
  i_perm : new_transpose_perm info = concat (range lens <$> done_);
  i_back : length (new_transpose_perm_idx_to_original_reshape_dim info) = length (new_transpose_perm info);
  i_orig : ∀ t i, new_transpose_perm info !! t = Some i →
    ∃ d, new_transpose_perm_idx_to_original_reshape_dim info !! t = Some d ∧ d ∈ done_ ∧ i ∈ range lens d;
  i_indices : length (original_reshape_dim_to_new_transpose_perm_indices info) = length lens;
  i_index : ∀ d idx c, 0 ≤ d → original_reshape_dim_to_new_transpose_perm_indices info !! Z.to_nat d = Some idx → c ∈ idx →
    0 ≤ c ∧ ∃ i, new_transpose_perm info !! Z.to_nat c = Some i ∧ i ∈ range lens d
}.

Lemma push_factors_spec count j d info idx :
  0 ≤ d → original_reshape_dim_to_new_transpose_perm_indices info !! Z.to_nat d = Some idx →
  push_factors count j d info = Ok (MkInfo (new_reshape_dims info) (new_transpose_perm info ++ seqZ j (Z.of_nat count))
    (new_transpose_perm_idx_to_original_reshape_dim info ++ replicate count d)
    (<[Z.to_nat d := idx ++ seqZ (Z.of_nat (length (new_transpose_perm info))) (Z.of_nat count)]>
       (original_reshape_dim_to_new_transpose_perm_indices info))).
Proof.
  intros Hd. revert j info idx. induction count as [| count IH]; intros j info idx Hi; cbn [push_factors].
  { rewrite !app_nil_r. rewrite list_insert_id by done. by destruct info. }
  rewrite (proj2 (at_z_ok _ d idx)) by done. cbn [mbind res_bind].
  rewrite (IH _ _ (idx ++ [Z.of_nat (length (new_transpose_perm info ++ [j])) - 1])).
  - cbn [new_reshape_dims new_transpose_perm new_transpose_perm_idx_to_original_reshape_dim original_reshape_dim_to_new_transpose_perm_indices].
    assert (Es : ∀ b, [b] ++ seqZ (b + 1) (Z.of_nat count) = seqZ b (Z.of_nat (S count))).
    { intros b. rewrite (seqZ_cons b) by lia. unfold Z.succ. replace (Z.pred (Z.of_nat (S count))) with (Z.of_nat count) by lia. done. }
    rewrite length_app. cbn [length]. replace (Z.of_nat (length (new_transpose_perm info) + 1)) with (Z.of_nat (length (new_transpose_perm info)) + 1) by lia.
    rewrite Z.add_simpl_r, list_insert_insert_eq, <- !app_assoc, !Es. done.
  - cbn [original_reshape_dim_to_new_transpose_perm_indices]. apply list_lookup_insert_eq. by apply lookup_lt_Some in Hi.
Qed.

Lemma decanonicalize_perm_spec p done_ old info :
  info_inv done_ info → (∀ d, d ∈ p → 0 ≤ d < Z.of_nat (length lens)) →
  (∀ d, 0 ≤ d ≤ Z.of_nat (length lens) → at_z old d = Ok (start lens d)) →
  ∃ info', decanonicalize_perm p old info = Ok info' ∧ info_inv (done_ ++ p) info' ∧
    new_reshape_dims info' = new_reshape_dims info.
Proof.
  intros Hinv Hr Hold. revert done_ info Hinv. induction p as [| d p IH]; intros done_ info Hinv; cbn [decanonicalize_perm].
  { exists info. by rewrite app_nil_r. }
  pose proof (Hr d ltac:(left)) as Hd. rewrite !Hold by lia. cbn [mbind res_bind].
  destruct (lookup_lt_is_Some_2 (original_reshape_dim_to_new_transpose_perm_indices info) (Z.to_nat d)) as [idx Hidx].
  { rewrite (i_indices _ _ Hinv). lia. }
  rewrite (push_factors_spec _ _ d info idx) by (done || lia). cbn [mbind res_bind].
  assert (Elen : Z.of_nat (Z.to_nat (start lens (d + 1) - start lens d)) = Z.of_nat (len lens d) ∧
                 Z.to_nat (start lens (d + 1) - start lens d) = len lens d).
  { unfold start, len. destruct (lookup_lt_is_Some_2 lens (Z.to_nat d)) as [x Hx]; [lia |].
    replace (Z.to_nat (d + 1)) with (S (Z.to_nat d)) by lia. rewrite (take_S_r _ _ x Hx), total_lengths_app, (list_lookup_total_correct _ _ _ Hx).
    cbn [total foldr]. lia. }
  destruct Elen as [-> ->]. fold (range lens d).
  destruct (IH ltac:(intros i Hi; apply Hr; by right) (done_ ++ [d])
    (MkInfo (new_reshape_dims info) (new_transpose_perm info ++ range lens d)
       (new_transpose_perm_idx_to_original_reshape_dim info ++ replicate (len lens d) d)
       (<[Z.to_nat d := idx ++ seqZ (Z.of_nat (length (new_transpose_perm info))) (Z.of_nat (len lens d))]>
          (original_reshape_dim_to_new_transpose_perm_indices info)))) as (info' & E & Hinv' & Enew).
  { assert (Lr : length (range lens d) = len lens d) by (unfold range; rewrite length_seqZ; lia).
    constructor; cbn [new_reshape_dims new_transpose_perm new_transpose_perm_idx_to_original_reshape_dim original_reshape_dim_to_new_transpose_perm_indices].
    - rewrite fmap_app, concat_app, (i_perm _ _ Hinv). cbn. by rewrite app_nil_r.
    - rewrite !length_app, length_replicate, (i_back _ _ Hinv), Lr. done.
    - intros t i Hi. apply lookup_app_Some in Hi as [Hi | [Ht Hi]].
      + destruct (i_orig _ _ Hinv t i Hi) as (e & He & Hin & Hie). exists e. split; [by apply lookup_app_l_Some |].
        split; [apply elem_of_app; by left | done].
      + exists d. split; [| split; [apply elem_of_app; right; by left | by eapply list_elem_of_lookup_2]].
        rewrite lookup_app_r by (rewrite (i_back _ _ Hinv); done). rewrite (i_back _ _ Hinv). apply lookup_replicate.
        split; [done |]. apply lookup_lt_Some in Hi. lia.
    - rewrite length_insert. apply (i_indices _ _ Hinv).
    - intros e idx' c He Hidx' Hc. destruct (decide (e = d)) as [-> | Hne].
      + rewrite list_lookup_insert_eq in Hidx' by (by apply lookup_lt_Some in Hidx). injection Hidx' as <-.
        apply elem_of_app in Hc as [Hc | Hc].
        * destruct (i_index _ _ Hinv d idx c He Hidx Hc) as (Hc0 & i & Hi & Hin). split; [done |]. exists i.
          split; [by apply lookup_app_l_Some | done].
        * apply elem_of_seqZ in Hc. split; [lia |].
          destruct (lookup_lt_is_Some_2 (range lens d) (Z.to_nat c - length (new_transpose_perm info))) as [i Hi]; [lia |].
          exists i. split; [| by eapply list_elem_of_lookup_2]. rewrite lookup_app_r by lia. done.
      + rewrite list_lookup_insert_ne in Hidx' by lia. destruct (i_index _ _ Hinv e idx' c He Hidx' Hc) as (Hc0 & i & Hi & Hin).
        split; [done |]. exists i. split; [by apply lookup_app_l_Some | done]. }
  exists info'. rewrite E. split; [done |]. rewrite <- app_assoc in Hinv'. done.
Qed.
End Info.

Lemma FullyDecanonicalize_spec R p :
  Forall (λ d, 0 < d < 46339 * 46339) R → valid_layout R p →
  ∃ info lens, FullyDecanonicalize R p = Ok info ∧ length lens = length R ∧ info_inv lens p info ∧
    shuffle lens R (new_reshape_dims info) ∧ Forall prime (new_reshape_dims info).
Proof.
  intros HR Hp. unfold FullyDecanonicalize.
  destruct (decanonicalize_dims_spec R [] HR) as (FF & E & Ep & Hpr). cbn [concat app] in E.
  change (offsets []) with [0] in E. rewrite E. cbn [mbind res_bind].
  assert (LF : length FF = length R) by (by rewrite <- Ep, length_fmap).
  destruct (decanonicalize_perm_spec (length <$> FF) p [] (offsets FF) (MkInfo (concat FF) [] [] (replicate (length p) [])))
    as (info & E1 & Hinv & E2).
  { constructor; cbn; try done.
    - by rewrite length_replicate, length_fmap, LF, (proj2 Hp).
    - intros d idx c Hd Hidx Hc. apply lookup_replicate in Hidx as [-> _]. by inversion Hc. }
  { intros d Hd. rewrite length_fmap, LF. by apply (valid_layout_in_range R p R Hp eq_refl). }
  { intros d Hd. rewrite length_fmap in Hd. by apply offsets_lookup. }
  exists info, (length <$> FF). rewrite E1. split; [done |]. split; [by rewrite length_fmap |]. split; [done |].
  rewrite E2. cbn [new_reshape_dims]. split.
  - exists FF. split; [done |]. split; [done |]. split; [done |]. eapply Forall_impl; [exact Hpr |]. intros fs Hfs.
    eapply Forall_impl; [exact Hfs |]. cbn. intros f Hf. apply prime_ge_2 in Hf. lia.
  - clear -Hpr. induction Hpr as [| fs FF Hfs _ IH]; [constructor |]. by apply Forall_app.
Qed.

(** ** Filling the groups *)

Section Groups.
Context (lens : list nat) (R p : list Z) (info : DecanonicalizationInfo).
Hypothesis HR : Forall (λ d, 0 < d) R.
Hypothesis Hmax : prod R ≤ int64_max.
Hypothesis Hlens : length lens = length R.
Hypothesis Hp : valid_layout R p.
Hypothesis Hinv : info_inv lens p info.

Abbreviation np := (new_transpose_perm info).
Abbreviation shuffled := (shuffle lens R).

Lemma np_perm : perm np ∧ length np = total lens.
Proof. rewrite (i_perm _ _ _ Hinv). by apply (ranges_perm lens R). Qed.

Lemma np_at t i : np !! t = Some i → 0 ≤ i < Z.of_nat (total lens).
Proof. intros Hi. destruct np_perm as [[_ H] L]. rewrite <- L. apply H. by eapply list_elem_of_lookup_2. Qed.

Lemma at_z_nat {A} (l : list A) t x : l !! t = Some x → at_z l (Z.of_nat t) = Ok x.
Proof. intros H. apply at_z_ok. split; [lia | by rewrite Nat2Z.id]. Qed.

Lemma shuffled_at F i : shuffled F → 0 ≤ i < Z.of_nat (total lens) → 1 < F !!! Z.to_nat i.
Proof.
  intros HF Hi. pose proof (shuffle_gt lens R F HF) as H. rewrite Forall_lookup in H.
  apply (H (Z.to_nat i)), list_lookup_lookup_total_lt. rewrite (shuffle_length lens R F HF). lia.
Qed.

Lemma shuffled_read F i : shuffled F → 0 ≤ i < Z.of_nat (total lens) → at_z F i = Ok (F !!! Z.to_nat i).
Proof. intros HF Hi. apply at_z_total. by rewrite (shuffle_length lens R F HF). Qed.

(** The factors of the first [t] places are as they were. *)
Definition kept (t : nat) (F F' : list Z) : Prop :=
  ∀ t' i, (t' < t)%nat → np !! t' = Some i → F' !!! Z.to_nat i = F !!! Z.to_nat i.

Lemma later_candidate_spec idx F target t d :
  shuffled F → 1 ≤ target ≤ int64_max →
  (∀ c, c ∈ idx → 0 ≤ c ∧ ∃ i, np !! Z.to_nat c = Some i ∧ i ∈ range lens d) →
  ∃ r, later_candidate info F target (Z.of_nat t) idx = Ok r ∧
    ∀ j, r = Some j → j ∈ range lens d ∧ (∃ c, (t < c)%nat ∧ np !! c = Some j) ∧ (F !!! Z.to_nat j | target).
Proof.
  intros HF Ht. induction idx as [| c idx IH]; intros Hidx; cbn [later_candidate]; [by exists None |].
  destruct (IH ltac:(intros e He; apply Hidx; by right)) as (r & E & Hr).
  destruct (Z.gtb_spec c (Z.of_nat t)) as [Hc | Hc]; [| by exists r].
  destruct (Hidx c ltac:(left)) as (Hc0 & i & Hi & Hin). rewrite (proj2 (at_z_ok _ c i)) by done. cbn [mbind res_bind].
  pose proof (np_at _ i Hi) as Hib. pose proof (shuffled_at F i HF Hib).
  rewrite shuffled_read by done. cbn [mbind res_bind]. rewrite c_mod_pos by lia. cbn [mbind res_bind].
  destruct (Z.eqb_spec (target mod F !!! Z.to_nat i) 0) as [E0 | E0]; [| by exists r].
  exists (Some i). split; [done |]. intros j [= <-]. split; [done |]. split; [exists (Z.to_nat c); split; [lia | done] |].
  by apply Z.mod_divide; [lia |].
Qed.

Lemma generate_candidate_spec F target t i :
  shuffled F → np !! t = Some i → 1 ≤ target ≤ int64_max →
  ∃ r F', generate_candidate info F target (Z.of_nat t) = Ok (r, F') ∧ shuffled F' ∧ kept t F F' ∧
    (r = None ∨ r = Some i ∧ (F' !!! Z.to_nat i | target)).
Proof.
  intros HF Hi Ht. unfold generate_candidate. rewrite (at_z_nat np t i Hi).
  cbn [mbind res_bind]. pose proof (np_at _ i Hi) as Hib. pose proof (shuffled_at F i HF Hib) as Hgt.
  rewrite (shuffled_read F i) by done. cbn [mbind res_bind]. rewrite c_mod_pos by lia. cbn [mbind res_bind].
  destruct (Z.eqb_spec (target mod F !!! Z.to_nat i) 0) as [E0 | E0].
  { exists (Some i), F. split; [done |]. split; [done |]. split; [by intros t' i' |]. right. split; [done |]. by apply Z.mod_divide; [lia |]. }
  destruct (i_orig _ _ _ Hinv t i Hi) as (d & Hd & Hdp & Hid). rewrite (at_z_nat _ t d Hd).
  cbn [mbind res_bind]. pose proof (valid_layout_in_range R p R Hp eq_refl d Hdp) as Hdr.
  destruct (lookup_lt_is_Some_2 (original_reshape_dim_to_new_transpose_perm_indices info) (Z.to_nat d)) as [idx Hidx].
  { rewrite (i_indices _ _ _ Hinv), Hlens. lia. }
  rewrite (proj2 (at_z_ok _ d idx)) by (split; [lia | done]). cbn [mbind res_bind].
  destruct (later_candidate_spec idx F target t d HF Ht) as (r & E & Hr).
  { intros c Hc. apply (i_index _ _ _ Hinv d idx c); [lia | done | done]. }
  rewrite E. cbn [mbind res_bind]. destruct r as [j |]; [| by exists None, F; split; [done |]; split; [done |]; split; [by intros t' i' | left]].
  destruct (Hr j eq_refl) as (Hjd & (c & Hc & Hj) & Hdiv). pose proof (np_at _ j Hj) as Hjb.
  rewrite (shuffled_read F j) by done. cbn [mbind res_bind].
  pose proof (shuffle_swap lens R Hlens F d i j HF Hdr Hid Hjd) as HF'.
  assert (Hne : i ≠ j).
  { intros ->. pose proof (NoDup_lookup np t c j (proj1 (proj1 np_perm)) Hi Hj). lia. }
  exists (Some i). eexists. split; [done |]. split; [exact HF' |].
  pose proof (shuffle_length lens R F HF) as LF. split.
  - intros t' i' Ht' Hi'. pose proof (np_at _ i' Hi').
    assert (i' ≠ i) by (intros ->; pose proof (NoDup_lookup np t' t i (proj1 (proj1 np_perm)) Hi' Hi); lia).
    assert (i' ≠ j) by (intros ->; pose proof (NoDup_lookup np t' c j (proj1 (proj1 np_perm)) Hi' Hj); lia).
    rewrite !list_lookup_total_insert_ne by lia. done.
  - right. split; [done |]. rewrite list_lookup_total_insert_ne by lia. rewrite list_lookup_total_insert_eq by lia. done.
Qed.

Lemma group_loop_spec fuel F target t group :
  shuffled F → 1 ≤ target ≤ int64_max → (t < total lens)%nat → (total lens - t < fuel)%nat →
  ∃ g target' t' F', group_loop fuel info F target (Z.of_nat t) group = Ok (target', group ++ g, Z.of_nat t', F') ∧
    (t' ≤ total lens)%nat ∧ take t np ++ g = take t' np ∧ target = prod (sel F' g) * target' ∧ 1 ≤ target' ∧
    shuffled F' ∧ kept t F F'.
Proof.
  revert F target t group. induction fuel as [| fuel IH]; intros F target t group HF Ht Htl Hf; [lia |]. cbn [group_loop].
  destruct (lookup_lt_is_Some_2 np t) as [i Hi]; [by rewrite (proj2 np_perm) |].
  destruct (generate_candidate_spec F target t i HF Hi Ht) as (r & F1 & E & HF1 & K1 & Hr). rewrite E. cbn [mbind res_bind].
  destruct Hr as [-> | [-> Hdiv]].
  { exists [], target, t, F1. rewrite !app_nil_r. split; [done |]. split; [lia |]. split; [done |]. split; [by cbn; lia |]. done || (split; [lia | done]). }
  pose proof (np_at _ i Hi) as Hib. pose proof (shuffled_at F1 i HF1 Hib) as Hgt. rewrite shuffled_read by done. cbn [mbind res_bind].
  rewrite c_div_pos by lia. cbn [mbind res_bind]. destruct Hdiv as [m Hm]. set (f := F1 !!! Z.to_nat i) in *.
  assert (Eq : target / f = m) by (rewrite Hm; apply Z.div_mul; lia). rewrite Eq. assert (Hm1 : 1 ≤ m) by nia.
  rewrite (shuffle_length lens R F1 HF1). pose proof (take_S_r np t i Hi) as Etake.
  destruct (Z.geb_spec (Z.of_nat t + 1) (Z.of_nat (total lens))) as [Hge | Hlt].
  - exists [i], m, (S t), F1. split; [do 3 f_equal; lia |]. split; [lia |]. split; [by rewrite Etake |].
    split; [rewrite sel_cons, prod_cons; fold f; cbn; lia |]. done.
  - replace (Z.of_nat t + 1) with (Z.of_nat (S t)) by lia.
    destruct (IH F1 m (S t) (group ++ [i]) HF1) as (g & m' & t' & F2 & E2 & Ht' & Etk & Em & Hm' & HF2 & K2); [nia | lia | lia |].
    exists (i :: g), m', t', F2. rewrite E2, <- app_assoc. split; [done |]. split; [done |].
    split; [rewrite <- Etk, Etake, <- app_assoc; done |]. split.
    { rewrite sel_cons, prod_cons. rewrite (K2 t i ltac:(lia) Hi). fold f. nia. }
    split; [done |]. split; [done |]. intros t'' i'' Hlt'' Hi''. rewrite (K2 t'' i'') by (done || lia). by apply (K1 t'').
Qed.

Lemma kept_sel t F F' g : kept t F F' → (∀ i, i ∈ g → i ∈ take t np) → sel F' g = sel F g.
Proof.
  intros K Hg. apply list_fmap_ext. intros k i Hi. apply list_elem_of_lookup_2, Hg in Hi.
  apply list_elem_of_lookup in Hi as [t' Ht']. apply lookup_take_Some in Ht' as [Ht' Hlt]. by apply (K t').
Qed.

Lemma prod_all F : shuffled F → prod (sel F np) = prod R.
Proof.
  intros HF. rewrite <- (shuffle_prod lens R F HF). rewrite sel_perm; [done |]. destruct np_perm as [H1 H2]. split; [done |].
  by rewrite H2, (shuffle_length lens R F HF).
Qed.

Lemma all_used F t :
  shuffled F → prod (sel F (take t np)) = prod R → take t np = np.
Proof.
  intros HF E. rewrite <- (prod_all F HF) in E. rewrite <- (take_drop t np) in E at 2. rewrite sel_app, prod_app in E.
  assert (Hpos : ∀ q, (∀ i, i ∈ q → i ∈ np) → Forall (λ f, 1 < f) (sel F q)).
  { intros q Hq. apply Forall_fmap, Forall_forall. intros i Hi. apply Hq in Hi. apply list_elem_of_lookup in Hi as [k Hk].
    apply shuffled_at; [done | by eapply np_at]. }
  assert (H1 : 0 < prod (sel F (take t np))).
  { apply prod_pos. eapply Forall_impl; [apply Hpos | cbn; lia]. intros i Hi. apply list_elem_of_lookup in Hi as [k Hk].
    apply lookup_take_Some in Hk as [Hk _]. by eapply list_elem_of_lookup_2. }
  assert (Hd : drop t np = []).
  { destruct (drop t np) as [| i q] eqn:Ed; [done |]. exfalso.
    pose proof (reduced_prod (sel F (i :: q))) as Hr. ospecialize (Hr _ _); [| done | nia].
    apply Hpos. intros j Hj. rewrite <- (take_drop t np), Ed. apply elem_of_app. by right. }
  rewrite <- (take_drop t np) at 2. by rewrite Hd, app_nil_r.
Qed.

Lemma groups_loop_spec Ns F t gs Nd :
  shuffled F → concat gs = take t np → (t ≤ total lens)%nat → size_of F <$> gs = Nd → Forall (λ d, 1 < d) Ns →
  prod Nd * prod Ns = prod R →
  ∃ r, groups_loop info Ns F (Z.of_nat t) gs = Ok r ∧
    ∀ gs' F', r = Some (gs', F') → shuffled F' ∧ concat gs' = np ∧ size_of F' <$> gs' = Nd ++ Ns.
Proof.
  revert F t gs Nd. induction Ns as [| N Ns IH]; intros F t gs Nd HF Hgs Htl Hsz HN Hpr; cbn [groups_loop].
  { exists (Some (gs, F)). split; [done |]. intros gs' F' [= <- <-]. split; [done |]. split; [| by rewrite app_nil_r].
    rewrite Hgs. apply (all_used F t HF). rewrite <- Hgs. rewrite <- Hpr, <- Hsz. cbn. unfold size_of.
    clear. rewrite Z.mul_1_r. induction gs as [| g gs IH]; [done |]. cbn [concat fmap list_fmap]. by rewrite sel_app, prod_app, prod_cons, IH. }
  apply Forall_cons in HN as [HN1 HN]. rewrite prod_cons in Hpr.
  assert (Hsz' : prod (sel F (take t np)) = prod Nd).
  { rewrite <- Hgs, <- Hsz. unfold size_of. clear. induction gs as [| g gs IH]; [done |]. cbn [concat fmap list_fmap]. by rewrite sel_app, prod_app, prod_cons, IH. }
  assert (HNd : 0 < prod Nd).
  { rewrite <- Hsz'. apply prod_pos, Forall_fmap, Forall_forall. intros i Hi. apply list_elem_of_lookup in Hi as [k Hk].
    apply lookup_take_Some in Hk as [Hk _]. apply np_at in Hk. pose proof (shuffled_at F i HF Hk). cbn. lia. }
  assert (HNs : 0 < prod Ns) by (apply prod_pos; eapply Forall_impl; [exact HN | cbn; lia]).
  assert (HNm : N ≤ prod R).
  { rewrite <- Hpr. replace (prod Nd * (N * prod Ns)) with (N * (prod Nd * prod Ns)) by ring. assert (0 < prod Nd * prod Ns) by (by apply Z.mul_pos_pos). nia. }
  rewrite (shuffle_length lens R F HF). destruct (Z.ltb_spec (Z.of_nat t) (Z.of_nat (total lens))) as [Hlt | Hge].
  - destruct (group_loop_spec (S (total lens)) F N t [] HF) as (g & N' & t' & F' & E & Ht' & Etk & EN & HN' & HF' & K); [lia | lia | lia |].
    rewrite E. cbn [mbind res_bind]. destruct (Z.eqb_spec N' 1) as [-> | Hne]; cbn [negb]; [| by exists None].
    rewrite Z.mul_1_r in EN.
    destruct (IH F' t' (gs ++ [g]) (Nd ++ [N]) HF') as (r & Er & Hr).
    + rewrite concat_app, Hgs. cbn. by rewrite app_nil_r.
    + done.
    + rewrite fmap_app. cbn [fmap list_fmap]. f_equal; [| by rewrite EN]. rewrite <- Hsz. apply list_fmap_ext. intros k h Hh. unfold size_of. f_equal.
      apply (kept_sel t); [done |]. intros i Hi. rewrite <- Hgs. apply list_elem_of_In, in_concat. exists h. split.
      * apply list_elem_of_In. by eapply list_elem_of_lookup_2.
      * by apply list_elem_of_In.
    + done.
    + rewrite prod_app, prod_singleton. nia.
    + exists r. split; [done |]. intros gs' F'' H. specialize (Hr gs' F'' H). by rewrite <- app_assoc in Hr.
  - exfalso. assert (Ea : take t np = np) by (apply take_ge; rewrite (proj2 np_perm); lia).
    rewrite Ea, (prod_all F HF) in Hsz'. assert (1 < N * prod Ns) by nia. nia.
Qed.
End Groups.
End TileGroups.
