(* ===== verification/TileRefine.v ===== *)
(** * Tile assignments: transposing an iota

    [Transpose] never fails a check, and a result it gives has the devices of the iota
    with the dimensions permuted. *)
From Stdlib Require Import Znumtheory.
From S2P Require Import Prelude PermUtil Radix Layouts IndexProofs TilingProofs LayoutCorrect TransposeProofs Arrays ArrayProofs TileAssign TileValue TileCanonical TileTranspose TileFactors.
#[local] Open Scope Z_scope.

Module TileCorrect.
Import PermUtil Radix IndexProofs Arrays ArrayProofs ArrayTranspose TransposeProofs TileAssign TileValue TileCanonical TileTranspose TilePrimes TileFactors TileGroups.

(** ** Transposing an iota *)

Definition good_iota (t : IotaTileAssignment) : Prop := iota_ok t ∧ canonical (reshape_dims t) (transpose_perm t).

(** [t'] has the devices of [t], with the dimensions permuted by [q]. *)
Definition transposes (t : IotaTileAssignment) (q : list Z) (t' : IotaTileAssignment) : Prop :=
  good_iota t' ∧ dims t' = sel (dims t) q ∧
  ∀ xs, in_bounds (dims t) xs →
    flat (reshape_dims t') (transpose_perm t') (lin (sel (dims t) q) (sel xs q)) =
    flat (reshape_dims t) (transpose_perm t) (lin (dims t) xs).

Section Transpose.
Context (t : IotaTileAssignment) (q : list Z).
Hypothesis Ht : iota_ok t.
Hypothesis Hc : canonical (reshape_dims t) (transpose_perm t).
Hypothesis Hq : valid_layout (dims t) q.

Abbreviation ds := (dims t).
Abbreviation R := (reshape_dims t).
Abbreviation p := (transpose_perm t).

Lemma create_transposed R' f :
  Forall (λ d, 0 < d) R' → R' ≠ [] → valid_layout R' f → prod R' = prod ds →
  (∀ xs, in_bounds ds xs → flat R' f (lin (sel ds q) (sel xs q)) = flat R p (lin ds xs)) →
  ∃ t', Create (sel ds q) R' f = Ok t' ∧ transposes t q t'.
Proof.
  intros HR' N Hf Hpr Hflat. pose proof (valid_layout_in_range ds q ds Hq eq_refl) as Hr.
  assert (Hpd : prod (sel ds q) = prod ds) by (by rewrite sel_perm).
  destruct (Create_iota_spec (sel ds q) R' f) as (t' & E & Ed & Hok & Hcan & Hfl).
  { constructor; [apply sel_pos; [apply (tr_dims _ _ _ Ht) | done] | done | | done | congruence | rewrite Hpd; apply (tr_max _ _ _ Ht)].
    split; [| done]. intros En. apply (f_equal length) in En. rewrite length_sel, (proj2 Hq) in En.
    apply (proj1 (tr_some _ _ _ Ht)). by destruct ds. }
  exists t'. split; [done |]. split; [done |]. split; [done |]. intros xs Hb. rewrite Hfl. by apply Hflat.
Qed.

(** The linear index without the dimensions of size 1. *)
Lemma lin_inner xs :
  in_bounds ds xs →
  lin (sel ds q) (sel xs q) = lin (sel (sel ds (dims_of ds)) (inner ds q)) (sel (sel xs (dims_of ds)) (inner ds q)) ∧
  lin ds xs = lin (sel ds (dims_of ds)) (sel xs (dims_of ds)) ∧
  in_bounds (sel ds (dims_of ds)) (sel xs (dims_of ds)).
Proof.
  intros Hb. pose proof (valid_layout_in_range ds q ds Hq eq_refl) as Hr.
  pose proof (inner_perm ds q Hq) as Hi. pose proof (valid_layout_in_range _ _ _ Hi eq_refl) as Hri.
  rewrite <- !sel_sel by done. rewrite (inner_sel ds q Hq). split; [by apply lin_nn |]. split; [by apply lin_nn_all |].
  apply in_bounds_sel; [done |]. apply nn_in_range. intros i Hin. apply elem_of_seqZ in Hin. lia.
Qed.

Lemma dims_prod : prod (sel ds (dims_of ds)) = prod ds.
Proof. rewrite sel_nn, sel_seqZ. apply prod_filter_one. Qed.

Lemma dims_gt : Forall (λ d, 1 < d) (sel ds (dims_of ds)).
Proof.
  rewrite sel_nn, sel_seqZ. apply Forall_forall. intros d [Hd Hin]%list_elem_of_filter. pose proof (tr_dims _ _ _ Ht) as H.
  rewrite Forall_forall in H. specialize (H d Hin). cbn in *. lia.
Qed.

(** Groups of the dimensions of an iota [R2] that form those of the assignment. *)
Lemma transpose_groups R2 gs :
  Forall (λ d, 0 < d) R2 → perm (concat gs) → length (concat gs) = length R2 →
  size_of R2 <$> gs = sel ds (dims_of ds) → R2 ≠ [] → prod R2 = prod ds →
  (∀ k, 0 ≤ k < prod ds → flat R2 (concat gs) k = flat R p k) →
  length (concat ((λ j, gs !!! Z.to_nat j) <$> inner ds q)) = length R2 ∧
  ∃ t', Create (sel ds q) R2 (concat ((λ j, gs !!! Z.to_nat j) <$> inner ds q)) = Ok t' ∧ transposes t q t'.
Proof.
  intros HR2 Hg Hlg Hsz N Hpr Hfl. destruct (inner_perm ds q Hq) as [I1 I2].
  assert (Lg : length gs = length (dims_of ds)) by (rewrite <- (length_sel ds), <- Hsz, length_fmap; done).
  assert (Hre : ∀ ys, in_bounds (size_of R2 <$> gs) ys → _) by (intros ys Hy; exact (regroup R2 HR2 gs ys (inner ds q) Hg Hlg I1 ltac:(congruence) Hy)).
  destruct (Hre (replicate (length gs) 0)) as [Hv _].
  { rewrite Hsz. apply Forall2_same_length_lookup. rewrite length_replicate, length_sel, Lg. split; [done |].
    intros i d x Hd Hx. apply lookup_replicate in Hx as [-> _]. pose proof dims_gt as H. rewrite Forall_lookup in H. specialize (H i d Hd). lia. }
  split; [apply Hv |]. apply create_transposed; [done | done | done | done |]. intros xs Hb.
  destruct (lin_inner xs Hb) as (E1 & E2 & E3). rewrite E1, <- Hsz. rewrite (proj2 (Hre _ ltac:(by rewrite Hsz))), Hsz, <- E2.
  apply Hfl. by apply lin_bounds.
Qed.

Lemma flat_single n k : 0 ≤ k < n → flat [n] [0] k = k.
Proof. intros Hk. rewrite flat_val. change (reverse (pairs [n] [0])) with [(n, 1)]. rewrite val_small by lia. lia. Qed.

Lemma pure_perm_spec : 
  in_range p (inner ds q) → pure_perm ds (numbers ds) p q = Ok (sel p (inner ds q)).
Proof.
  pose proof (valid_layout_in_range ds q ds Hq eq_refl) as Hr. destruct (numbers_spec ds) as (Ln & _ & _). unfold inner.
  clear Hq. induction q as [| d q' IH]; intros Hin; [done |]. cbn [pure_perm]. pose proof (Hr d ltac:(left)) as Hd.
  rewrite (at_z_total ds) by done. cbn [mbind res_bind]. rewrite nn_cons in *.
  specialize (IH ltac:(intros i Hi; apply Hr; by right)).
  destruct (Z.eqb_spec (ds !!! Z.to_nat d) 1) as [E | E].
  - rewrite decide_False in * by tauto. by apply IH.
  - rewrite decide_True in * by done. rewrite (at_z_total (numbers ds)) by lia. cbn [mbind res_bind].
    rewrite (at_z_total p) by (apply Hin; by left). cbn [mbind res_bind].
    rewrite IH by (intros i Hi; apply Hin; by right). done.
Qed.

Lemma flatten_groups_spec gs :
  length gs = length (dims_of ds) →
  flatten_groups (numbers ds) gs q = Ok (concat ((λ j, gs !!! Z.to_nat j) <$> inner ds q)).
Proof.
  intros Lg. pose proof (valid_layout_in_range ds q ds Hq eq_refl) as Hr. destruct (numbers_spec ds) as (Ln & _ & Hneg).
  pose proof (valid_layout_in_range _ _ _ (inner_perm ds q Hq) eq_refl) as Hin. unfold inner in *.
  clear Hq. induction q as [| d q' IH]; [done |]. cbn [flatten_groups]. pose proof (Hr d ltac:(left)) as Hd.
  rewrite (at_z_total (numbers ds)) by lia. cbn [mbind res_bind]. rewrite nn_cons in *.
  specialize (IH ltac:(intros i Hi; apply Hr; by right)). pose proof (Hneg d Hd) as Hn.
  destruct (Z.ltb_spec (numbers ds !!! Z.to_nat d) 0) as [E | E].
  - rewrite decide_False in * by tauto. by apply IH.
  - rewrite decide_True in * by lia. rewrite sel_cons in *. pose proof (Hin _ ltac:(left)) as Hk.
    rewrite (proj2 (at_z_ok gs _ (gs !!! Z.to_nat (numbers ds !!! Z.to_nat d)))) by (split; [lia |]; apply list_lookup_lookup_total_lt; lia).
    cbn [mbind res_bind]. rewrite IH by (intros i Hi; apply Hin; by right). done.
Qed.

Hypothesis Hsmall : prod ds < 46339 * 46339.

Lemma reshape_small : Forall (λ d, 0 < d < 46339 * 46339) R.
Proof.
  pose proof (tr_prod _ _ _ Ht) as E. eapply Forall_impl; [apply (sizes_le R (46339 * 46339 - 1)); [apply (tr_reshape _ _ _ Ht) | lia] |].
  cbn beta. lia.
Qed.

(** The dimensions of the iota are those of the assignment. *)
Lemma pure_spec rest :
  Forall (λ d, 1 < d) R → sel R p = filter (λ d, d ≠ 1) ds ++ rest →
  length R = length (filter (λ d, d ≠ 1) ds) ∧ length R = length (sel p (inner ds q)) ∧
  pure_perm ds (numbers ds) p q = Ok (sel p (inner ds q)) ∧
  ∃ t', Create (sel ds q) R (sel p (inner ds q)) = Ok t' ∧ transposes t q t'.
Proof.
  intros HR E. pose proof (tr_perm _ _ _ Ht) as Hp. pose proof (tr_prod _ _ _ Ht) as Hpr. pose proof Hp as [P1 P2].
  assert (Erest : rest = []).
  { assert (Hgt : Forall (λ d, 1 < d) (sel R p)) by (by rewrite (sel_perm R p Hp)). rewrite E in Hgt. apply Forall_app in Hgt as [_ Hgt].
    destruct rest as [| r rest]; [done |]. exfalso. pose proof (reduced_prod (r :: rest) Hgt ltac:(done)) as Hr.
    assert (E' : prod (sel R p) = prod ds) by (by rewrite sel_perm).
    rewrite E, prod_app, prod_filter_one in E'. pose proof (prod_pos ds (tr_dims _ _ _ Ht)). nia. }
  rewrite Erest, app_nil_r in E. assert (Es : sel ds (dims_of ds) = sel R p) by (by rewrite sel_nn, sel_seqZ, E).
  assert (L1 : length R = length (filter (λ d, d ≠ 1) ds)) by (rewrite <- E, length_sel; done).
  destruct (inner_perm ds q Hq) as [I1 I2].
  assert (L2 : length (inner ds q) = length p) by (rewrite I2, <- (length_sel ds), Es, length_sel; done).
  assert (Hin : in_range p (inner ds q)) by (intros i Hi; apply I1 in Hi; lia).
  split; [done |]. split; [by rewrite length_sel; lia |]. split; [by apply pure_perm_spec |].
  assert (Hc1 : ∀ l : list Z, concat ((λ i, [i]) <$> l) = l) by (intros l; induction l as [| x l IH]; [done | cbn; by rewrite IH]).
  destruct (transpose_groups R ((λ i, [i]) <$> p)) as [_ (t' & Et & Htr)].
  - apply (tr_reshape _ _ _ Ht).
  - by rewrite Hc1.
  - by rewrite Hc1.
  - rewrite Es, <- list_fmap_compose. apply list_fmap_ext. intros i x _. unfold compose, size_of. rewrite sel_cons. apply prod_singleton.
  - apply (tr_some _ _ _ Ht).
  - done.
  - intros k _. by rewrite Hc1.
  - exists t'. split; [| done]. rewrite <- Et. f_equal. rewrite <- (Hc1 (sel p (inner ds q))). f_equal. unfold sel.
    rewrite <- list_fmap_compose. apply list_fmap_ext. intros j i Hi. apply list_elem_of_lookup_2, Hin in Hi. unfold compose.
    symmetry. apply list_lookup_total_correct. rewrite list_lookup_fmap, (list_lookup_lookup_total_lt p) by lia. done.
Qed.

Lemma factors_spec s :
  1 < prod ds → non_one_dims s = filter (λ d, d ≠ 1) ds → one_to_non_one s = numbers ds →
  ∃ o, transpose_by_factors t s (sel ds q) q = Ok o ∧ ∀ t', o = Some t' → transposes t q t'.
Proof.
  intros Hbig E1 E2. pose proof (tr_perm _ _ _ Ht) as Hp. pose proof (tr_prod _ _ _ Ht) as Hpr. pose proof (tr_reshape _ _ _ Ht) as HR.
  pose proof (tr_max _ _ _ Ht) as Hm. assert (Es : sel ds (dims_of ds) = filter (λ d, d ≠ 1) ds) by (by rewrite sel_nn, sel_seqZ).
  unfold transpose_by_factors. rewrite E1, E2, <- Es.
  destruct (FullyDecanonicalize_spec R p reshape_small Hp) as (info & lens & E & Hlens & Hinv & Hsh & Hprime). rewrite E. cbn [mbind res_bind].
  pose proof dims_gt as Hgt. pose proof dims_prod as Hpd. pose proof (shuffle_prod lens R _ Hsh) as HpF.
  rewrite (proj2 (Nat.leb_le _ _)) by (apply fewer_factors; [done | done | congruence]). cbn [guard_res mbind res_bind].
  destruct (groups_loop_spec lens R p info ltac:(int_lia) Hlens Hp Hinv (sel ds (dims_of ds)) (new_reshape_dims info) 0 [] []) as (r & Er & Hr);
    [done | done | lia | done | done | |].
  { unfold prod at 1. cbn [foldr]. lia. }
  change (Z.of_nat 0) with 0 in Er. rewrite Er. cbn [mbind res_bind]. destruct r as [[gs F] |]; [| by exists None].
  destruct (Hr gs F eq_refl) as (HF & Hgs & Hsz). cbn [app] in Hsz.
  assert (Lg : length gs = length (dims_of ds)) by (rewrite <- (length_sel ds), <- Hsz, length_fmap; done).
  rewrite (flatten_groups_spec gs Lg). cbn [mbind res_bind].
  destruct (np_perm lens R p info Hlens Hp Hinv) as [N1 N2]. pose proof (shuffle_length lens R F HF) as LF.
  destruct (transpose_groups F gs) as [Hlen (t' & Et & Htr)].
  - by apply (shuffle_pos lens R).
  - by rewrite Hgs.
  - rewrite Hgs. lia.
  - done.
  - intros ->. pose proof (shuffle_prod lens R _ HF) as H1. unfold prod at 1 in H1. cbn [foldr] in H1. lia.
  - by rewrite (shuffle_prod lens R _ HF).
  - intros k Hk. rewrite Hgs, (i_perm _ _ _ Hinv). apply (flat_shuffled lens R HR Hlens F p k HF Hp). lia.
  - rewrite (proj2 (Nat.eqb_eq _ _)) by lia. cbn [guard_res mbind res_bind]. rewrite Et. cbn [mbind res_bind].
    exists (Some t'). split; [done |]. by intros u [= <-].
Qed.

Lemma Transpose_spec : ∃ o, Transpose t q = Ok o ∧ ∀ t', o = Some t' → transposes t q t'.
Proof.
  unfold Transpose. destruct (GetTransposeKind_spec ds q Hq) as (kind & Ek & Hnoop & Hlin). rewrite Ek. cbn [mbind res_bind].
  pose proof (tr_perm _ _ _ Ht) as Hp. pose proof (tr_prod _ _ _ Ht) as Hpr. pose proof (tr_reshape _ _ _ Ht) as HR.
  pose proof (valid_layout_in_range ds q ds Hq eq_refl) as Hr. destruct (tr_some _ _ _ Ht) as [N1 N2].
  assert (Enew : mapM (at_z ds) (take (length ds) q) = Ok (sel ds q)) by (rewrite take_ge by (rewrite (proj2 Hq); lia); by apply TilingProofs.mapM_at).
  destruct kind.
  - destruct (Hnoop eq_refl) as [E1 E2]. exists (Some t). split; [done |]. intros t' [= <-]. split; [done |]. split; [done |].
    intros xs Hb. by rewrite (E2 xs Hb), E1.
  - rewrite Enew. cbn [mbind res_bind].
    destruct (create_transposed R p) as (t' & E & Htr); [done | done | done | done | |].
    { intros xs Hb. by rewrite Hlin. }
    rewrite E. cbn [mbind res_bind]. exists (Some t'). split; [done |]. by intros u [= <-].
  - rewrite Enew. cbn [mbind res_bind]. destruct (Nat.eqb_spec (length R) 1) as [E1 | E1].
    + destruct (create_transposed ds q) as (t' & E & Htr); [apply (tr_dims _ _ _ Ht) | done | done | done | |].
      { intros xs Hb. rewrite flat_lin by done. destruct R as [| n []] eqn:ER; try done.
        assert (p = [0]) as -> by (apply perm_one; [apply Hp | by rewrite (proj2 Hp)]).
        rewrite flat_single; [done |]. rewrite prod_singleton in Hpr. rewrite Hpr. by apply lin_bounds. }
      rewrite E. cbn [mbind res_bind]. exists (Some t'). split; [done |]. by intros u [= <-].
    + destruct Hc as [[E0 _] | [_ [Hgt _]]]; [by rewrite E0 in E1 |].
      destruct (non_one_loop_spec ds R p (MkNonOne [] [] true) Hp) as (s & Es & S1 & S2 & S3); [by intros _; exists (sel R p) |].
      rewrite Es. cbn [mbind res_bind]. cbn [non_one_dims one_to_non_one app length] in S1, S2. change (one_to_non_one s = numbers ds) in S2.
      destruct (is_pure_transpose s) eqn:Epure.
      * destruct (S3 eq_refl) as [rest Erest]. rewrite S1 in Erest.
        destruct (pure_spec rest Hgt Erest) as (L1 & L2 & E3 & t' & E4 & Htr).
        rewrite S1, S2, (proj2 (Nat.eqb_eq _ _) L1). cbn [guard_res mbind res_bind].
        rewrite take_ge by (rewrite (proj2 Hq); lia). rewrite E3. cbn [mbind res_bind].
        rewrite (proj2 (Nat.eqb_eq _ _) L2). cbn [guard_res mbind res_bind]. rewrite E4. cbn [mbind res_bind].
        exists (Some t'). split; [done |]. by intros u [= <-].
      * apply factors_spec; [| done | done]. rewrite <- Hpr. by apply reduced_prod.
Qed.
End Transpose.
End TileCorrect.

(** ** Tile assignments: two formats, one meaning

    The contents of an assignment is an array, whichever format holds it; every operation
    is the one on this array. *)
Module TileRefine.
Import PermUtil Radix IndexProofs Arrays ArrayProofs ArrayTranspose TransposeProofs TileAssign TileValue TileCanonical TileTranspose TileCorrect.

(** ** The contents *)

Definition flat_array (t : IotaTileAssignment) : Array Z :=
  MkArray (dims t) (flat (reshape_dims t) (transpose_perm t) <$> seqZ 0 (prod (dims t))).

(** [a] is what the assignment stands for; the invariant of its state is that it has some
    contents. *)
Definition contents (t : TileAssignment) (a : Array Z) : Prop :=
  match iota_ t with
  | Some i => good_iota i ∧ a = flat_array i ∧ (array_ t = None ∨ array_ t = Some a)
  | None => array_ t = Some a ∧ array_ok a
  end.

Lemma good_ToArray i : good_iota i → ToArray i = Ok (flat_array i).
Proof. intros [H _]. by apply ToArray_spec. Qed.

Lemma contents_ok t a : contents t a → array_ok a.
Proof.
  unfold contents. destruct (iota_ t) as [i |]; [| by intros []]. intros ([H _] & -> & _). by apply flat_array_ok.
Qed.

Lemma of_iota_contents i : good_iota i → contents (of_iota i) (flat_array i).
Proof. intros H. split; [done |]. split; [done |]. by left. Qed.

Lemma array_spec t a : contents t a → ∃ t', array t = Ok (a, t') ∧ contents t' a ∧ iota_ t' = iota_ t.
Proof.
  unfold contents, array, MaybeMaterializeFullArray. destruct t as [[i |] [b |]]; cbn [iota_ array_].
  - intros (Hi & -> & [? | E]); [done |]. injection E as ->. cbn. exists (MkTile (Some i) (Some (flat_array i))).
    split; [done |]. split; [| done]. split; [done |]. split; [done |]. by right.
  - intros (Hi & -> & _). rewrite (good_ToArray i Hi). cbn. exists (MkTile (Some i) (Some (flat_array i))).
    split; [done |]. split; [| done]. split; [done |]. split; [done |]. by right.
  - intros (E & Ha). injection E as ->. cbn. by exists (MkTile None (Some a)).
  - by intros [].
Qed.

Lemma accumulate_dims i : iota_ok i → iota_num_elements i = Ok (prod (dims i)).
Proof.
  intros Hi. unfold iota_num_elements. pose proof (tr_max _ _ _ Hi). rewrite accumulate_spec; [f_equal; lia | apply Hi | lia | int_lia].
Qed.

Lemma flat_zero R p : flat R p 0 = 0.
Proof. rewrite flat_val. apply val_zero. Qed.

Lemma array_ext {A} (a b : Array A) :
  array_ok a → array_ok b → sizes_ a = sizes_ b → (∀ xs, in_bounds (sizes_ a) xs → get a xs = get b xs) → a = b.
Proof.
  intros Ha Hb Hs Hg. destruct a as [ds va], b as [ds' vb]. cbn [sizes_] in Hs. subst ds'. f_equal.
  pose proof (a_values _ Ha) as La. pose proof (a_values _ Hb) as Lb. cbn [sizes_ values_] in *. pose proof (a_sizes _ Ha) as Hd. cbn in Hd.
  apply list_eq_same_length with (Z.to_nat (prod ds)); [lia | lia |]. intros i x y Hi Hx Hy.
  specialize (Hg (unlin ds (Z.of_nat i)) (unlin_bounds ds _ Hd)). unfold get in Hg. cbn [sizes_ values_] in Hg.
  rewrite lin_unlin, Nat2Z.id in Hg by (done || lia). congruence.
Qed.

(** An assignment of 24 devices. *)
Definition demo : IotaTileAssignment := MkIota [6; 1; 4] [4; 3; 2] [2; 1; 0].

Lemma demo_contents : contents (of_iota demo) (flat_array demo).
Proof.
  apply of_iota_contents. split.
  - constructor; cbn; try (repeat constructor; lia); try done. split; [| done]. apply IsPermutation_perm. vm_compute. reflexivity.
  - right. split; [done |]. split; [repeat constructor; lia | cbn; lia].
Qed.

(** ** Properties *)

(** Whether an assignment holds an iota, a full array or both, reading it gives what
    reading the full array gives, also when this makes the full array first. *)
Theorem tile_reads_contents t a :
  contents t a →
  (∀ xs, in_bounds (sizes_ a) xs → tile_at t xs = element a xs) ∧
  dimensions t = Ok (sizes_ a) ∧ tile_num_dimensions t = Ok (num_dimensions a) ∧
  (∀ n, tile_dim t n = dim a n) ∧ tile_num_elements t = Ok (num_elements a) ∧
  first t = at_res (values_ a) 0 ∧ tile_each t = Each a ∧
  ∃ t', array t = Ok (a, t') ∧ contents t' a.
Proof.
  intros H. destruct (array_spec t a H) as (t' & Et & Ht' & _).
  assert (Heach : tile_each t = Each a) by (unfold tile_each; by rewrite Et).
  unfold contents in H. unfold tile_at, dimensions, tile_num_dimensions, tile_dim, tile_num_elements, first, read.
  destruct t as [[i |] [b |]]; cbn [iota_ array_] in *.
  - destruct H as (Hi & -> & [? | E]); [done |]. injection E as ->. eauto 10.
  - destruct H as ([Hi Hc] & -> & _). cbn [flat_array sizes_ values_]. pose proof (prod_pos _ (tr_dims _ _ _ Hi)).
    split; [| split; [done | split; [done | split; [done | split; [| split; [| eauto]]]]]].
    + intros xs Hb. rewrite value_at_spec by done. symmetry. apply element_get; [by apply flat_array_ok | done |]. by apply flat_array_get.
    + rewrite accumulate_dims by done. unfold num_elements. cbn [values_ flat_array]. rewrite length_fmap, length_seqZ. f_equal. lia.
    + rewrite seqZ_cons by lia. cbn. by rewrite flat_zero.
  - destruct H as (E & Ha). injection E as ->. eauto 10.
  - by destruct H.
Qed.

Lemma tile_reads_contents_witness : tile_at (of_iota demo) [4; 0; 2] = element (flat_array demo) [4; 0; 2] ∧ first (of_iota demo) = Ok 0.
Proof.
  destruct (tile_reads_contents _ _ demo_contents) as (H & _ & _ & _ & _ & Hf & _). split.
  - apply H. cbn. repeat constructor; lia.
  - rewrite Hf. vm_compute. reflexivity.
Defined.

(** The constructors set up the invariant. *)
Lemma of_transform_contents ds R p :
  transform_ok ds R p →
  ∃ t, of_transform ds R p = Ok t ∧ contents t (MkArray ds (flat R p <$> seqZ 0 (prod ds))).
Proof.
  intros H. destruct (Create_iota_spec ds R p H) as (i & E & Ed & Hok & Hc & Hf). exists (of_iota i).
  unfold of_transform. rewrite E. split; [done |].
  assert (Ea : MkArray ds (flat R p <$> seqZ 0 (prod ds)) = flat_array i).
  { unfold flat_array. rewrite Ed. f_equal. apply list_fmap_ext. intros k x _. by rewrite Hf. }
  rewrite Ea. by apply of_iota_contents.
Qed.

Lemma dimensions_spec t a : contents t a → dimensions t = Ok (sizes_ a).
Proof.
  unfold contents, dimensions, read. destruct t as [[i |] [c |]]; cbn [iota_ array_].
  - intros (_ & -> & [? | E]); [done |]. by injection E as ->.
  - by intros (_ & -> & _).
  - intros [E _]. by injection E as ->.
  - by intros [].
Qed.

(** The value of the memory that is not initialised does not matter. *)
Lemma TransposeDimensions_any {A} (u v : A) q (a : Array A) :
  array_ok a → valid_layout (sizes_ a) q → TransposeDimensions u q a = TransposeDimensions v q a.
Proof.
  intros Ha Hq. destruct (TransposeDimensions_spec u q a Ha Hq) as (b & Eb & Sb & Hb & Gb).
  destruct (TransposeDimensions_spec v q a Ha Hq) as (c & Ec & Sc & Hc & Gc). rewrite Eb, Ec. f_equal.
  apply array_ext; [done | done | congruence |]. intros xs Hxs. rewrite Sb in Hxs.
  destruct (transposed_from (sizes_ a) q xs Hq Hxs) as (ys & Hys & <-). by rewrite Gb, Gc.
Qed.

(** The array of the transposed iota is the transposed array. *)
Lemma flat_array_transposes i q j u :
  good_iota i → valid_layout (dims i) q → transposes i q j → TransposeDimensions u q (flat_array i) = Ok (flat_array j).
Proof.
  intros [Hi _] Hq (Hj & Dj & Fj).
  destruct (TransposeDimensions_spec u q (flat_array i)) as (b & Eb & Sb & Hb & Gb); [by apply flat_array_ok | done |].
  rewrite Eb. f_equal. cbn [flat_array sizes_] in Sb, Gb.
  apply array_ext; [done | by apply flat_array_ok, Hj | by rewrite Sb, <- Dj |].
  intros xs Hxs. rewrite Sb in Hxs. destruct (transposed_from (dims i) q xs Hq Hxs) as (ys & Hys & <-). rewrite Gb by done.
  unfold flat_array. rewrite flat_array_get by done. rewrite flat_array_get by (by rewrite Dj). rewrite Dj. by rewrite Fj.
Qed.

Lemma clone_transposes t a q :
  contents t a → valid_layout (sizes_ a) q →
  ∃ t' b, ('(c, _) ← array t; c ← TransposeDimensions 0 q c; Ok (of_array c)) = Ok t' ∧ contents t' b ∧ TransposeDimensions 0 q a = Ok b.
Proof.
  intros H Hq. destruct (array_spec t a H) as (t' & Et & _). rewrite Et. cbn [mbind res_bind].
  destruct (TransposeDimensions_spec 0 q a (contents_ok t a H) Hq) as (c & Ec & Sc & Hc & Gc). rewrite Ec. cbn [mbind res_bind].
  by exists (of_array c), c.
Qed.

Lemma tile_transpose_array t a q u :
  contents t a → valid_layout (sizes_ a) q → num_elements a < 46339 * 46339 →
  ∃ t' b, tile_transpose t q = Ok t' ∧ contents t' b ∧ TransposeDimensions u q a = Ok b.
Proof.
  intros H Hq Hn. pose proof (contents_ok t a H) as Ha. rewrite (TransposeDimensions_any u 0 q a Ha Hq).
  unfold tile_transpose. rewrite (dimensions_spec t a H). cbn [mbind res_bind].
  destruct (GetTransposeKind_spec (sizes_ a) q Hq) as (kind & Ek & Hnoop & _). rewrite Ek. cbn [mbind res_bind].
  assert (Hkind : kind = kNoop ∨ kind ≠ kNoop) by (destruct kind; [by left | by right ..]). destruct Hkind as [-> | Hk].
  { destruct (Hnoop eq_refl) as [E1 E2]. exists t, a. split; [done |]. split; [done |].
    destruct (TransposeDimensions_spec 0 q a Ha Hq) as (b & -> & Sb & Hb & Gb). f_equal.
    apply array_ext; [done | done | congruence |]. intros xs Hxs. rewrite Sb, E1 in Hxs. rewrite <- (E2 xs Hxs) at 1. by apply Gb. }
  assert (Hcase : ∃ t' b, (transposed ← (match iota_ t with Some i => Transpose i q | None => Ok None end);
      match transposed with
      | Some i => Ok (of_iota i)
      | None => '(a, _) ← array t; a ← TransposeDimensions 0 q a; Ok (of_array a)
      end) = Ok t' ∧ contents t' b ∧ TransposeDimensions 0 q a = Ok b); [| by destruct kind].
  destruct (iota_ t) as [i |] eqn:Ei; [| by apply clone_transposes].
  assert (Hi : good_iota i ∧ a = flat_array i) by (unfold contents in H; rewrite Ei in H; tauto). destruct Hi as [Hgood ->].
  pose proof Hgood as [Hok Hcan]. unfold num_elements in Hn. rewrite (a_values _ Ha) in Hn. destruct (Transpose_spec i q Hok Hcan Hq Hn) as (o & Eo & Ho).
  rewrite Eo. cbn [mbind res_bind]. destruct o as [j |]; [| by apply clone_transposes]. pose proof (Ho j eq_refl) as Htr.
  exists (of_iota j), (flat_array j). split; [done |]. split; [by apply of_iota_contents, Htr | by apply flat_array_transposes].
Qed.

(** C20: transposing an assignment, in either format, succeeds and gives the assignment
    whose contents is the transposed array. *)
Theorem tile_transpose_refines t a q u :
  contents t a → valid_layout (sizes_ a) q → num_elements a < 46339 * 46339 →
  ∃ t' b, tile_transpose t q = Ok t' ∧ contents t' b ∧ TransposeDimensions u q a = Ok b.
Proof. apply tile_transpose_array. Qed.

Lemma tile_transpose_refines_witness :
  ∃ t', tile_transpose (of_iota demo) [2; 0; 1] = Ok t' ∧ TransposeDimensions 7 [2; 0; 1] (flat_array demo) = Ok (MkArray [4; 6; 1]
    [0; 2; 4; 1; 3; 5; 6; 8; 10; 7; 9; 11; 12; 14; 16; 13; 15; 17; 18; 20; 22; 19; 21; 23]).
Proof.
  destruct (tile_transpose_refines (of_iota demo) (flat_array demo) [2; 0; 1] 7) as (t' & b & E & _ & E').
  - apply demo_contents.
  - split; [apply IsPermutation_perm; vm_compute; reflexivity | reflexivity].
  - vm_compute. reflexivity.
  - exists t'. split; [exact E |]. rewrite E'. vm_compute in E'. injection E' as <-. reflexivity.
Defined.

(** Reshaping an assignment to sizes with the same number of elements gives the
    assignment whose contents is the reshaped array, and to others fails the check. *)
Theorem tile_reshape_refines t a ds :
  contents t a → Forall (λ d, 0 < d) ds → ds ≠ [] → prod ds < 2 ^ 31 →
  if decide (prod ds = num_elements a)
  then ∃ t' b, tile_reshape t ds = Ok t' ∧ contents t' b ∧ Reshape ds a = Ok b
  else tile_reshape t ds = Fail CheckFailed ∧ Reshape ds a = Fail CheckFailed.
Proof.
  intros H Hds Hne Hmax. pose proof (contents_ok t a H) as Ha. pose proof (prod_pos _ Hds).
  assert (Hre : Reshape ds a = if decide (prod ds = num_elements a) then Ok (MkArray ds (values_ a)) else Fail CheckFailed).
  { unfold Reshape. rewrite calculate_elements_spec by (done || int_lia). cbn [mbind res_bind].
    destruct (Z.eqb_spec (prod ds) (num_elements a)); case_decide; done. }
  assert (Hnum : num_elements a = prod (sizes_ a)) by apply (a_values a Ha).
  unfold contents in H. destruct (iota_ t) as [i |] eqn:Ei.
  - destruct H as ([Hok Hcan] & -> & Harr). unfold tile_reshape. rewrite Ei.
    rewrite accumulate_spec by (done || lia || int_lia). cbn [mbind res_bind]. rewrite accumulate_dims by done. cbn [mbind res_bind].
    rewrite Z.mul_1_l. rewrite Hnum in *. cbn [flat_array sizes_] in *. case_decide as E.
    + rewrite (proj2 (Z.eqb_eq _ _) E). cbn [guard_res mbind res_bind].
      destruct (of_transform_contents ds (reshape_dims i) (transpose_perm i)) as (t' & Et & Hc).
      { constructor; [done | apply (tr_reshape _ _ _ Hok) | | apply (tr_perm _ _ _ Hok) | rewrite (tr_prod _ _ _ Hok); done | done].
        split; [done | apply (tr_some _ _ _ Hok)]. }
      exists t'. eexists. split; [done |]. split; [done |]. rewrite Hre. unfold flat_array. cbn [values_]. by rewrite E.
    + rewrite (proj2 (Z.eqb_neq _ _) E). done.
  - destruct H as (Earr & _). unfold tile_reshape. rewrite Ei.
    destruct (array_spec t a) as (t' & Et & _); [by unfold contents; rewrite Ei |]. rewrite Et. cbn [mbind res_bind]. rewrite Hre.
    case_decide as E; [| done]. cbn [mbind res_bind]. exists (of_array (MkArray ds (values_ a))), (MkArray ds (values_ a)).
    split; [done |]. split; [| done]. split; [done |]. constructor; cbn [sizes_ values_]; [done | unfold num_elements in E; lia | int_lia].
Qed.

Lemma tile_reshape_refines_witness :
  ∃ t', tile_reshape (of_iota demo) [3; 8] = Ok t' ∧ ∃ b, contents t' b ∧ sizes_ b = [3; 8].
Proof.
  pose proof (tile_reshape_refines (of_iota demo) (flat_array demo) [3; 8] demo_contents) as H.
  ospecialize (H _ _ _); [repeat constructor; lia | done | vm_compute; reflexivity |].
  rewrite decide_True in H by (vm_compute; reflexivity). destruct H as (t' & b & E & Hc & Er). exists t'. split; [exact E |].
  exists b. split; [exact Hc |]. vm_compute in Er. injection Er as <-. reflexivity.
Defined.

Lemma values_equal_spec (xs ys : list Z) : length xs = length ys → values_equal Z.eqb xs ys = Ok (bool_decide (xs = ys)).
Proof.
  revert ys. induction xs as [| x xs IH]; intros [| y ys] Hl; try done. cbn [values_equal].
  destruct (Z.eqb_spec x y) as [-> | Hn].
  - rewrite IH by (by injection Hl). f_equal. apply bool_decide_ext. split; [by intros -> | by intros [= ->]].
  - rewrite bool_decide_false; [done |]. by intros [= E _].
Qed.

(** A canonical iota is determined by its array. *)
Lemma flat_array_inj i j : good_iota i → good_iota j → flat_array i = flat_array j → i = j.
Proof.
  intros [Hi Ci] [Hj Cj] E. injection E as Ed Ev.
  rewrite <- Ed in Ev. pose proof (tr_prod _ _ _ Hi) as Pi. pose proof (tr_prod _ _ _ Hj) as Pj. rewrite <- Ed in Pj.
  destruct (canonical_unique (reshape_dims i) (transpose_perm i) (reshape_dims j) (transpose_perm j)) as [E1 E2];
    [apply Hi | apply Hj | done | done | congruence | |].
  - intros k Hk. apply (f_equal (λ l, l !! Z.to_nat k)) in Ev. rewrite !list_lookup_fmap in Ev.
    rewrite (proj2 (lookup_seqZ 0 _ _ k)) in Ev by lia. by injection Ev.
  - destruct i, j. cbn in *. by subst.
Qed.

(** C21: comparing two assignments compares their contents, also when both are compared
    as iotas without making the arrays. *)
Theorem tile_equal_exact t a t' a' :
  contents t a → contents t' a' → ∃ b, tile_equal t t' = Ok b ∧ (b = true ↔ a = a').
Proof.
  intros H H'. pose proof (contents_ok _ _ H) as Ha. pose proof (contents_ok _ _ H') as Ha'.
  assert (Harr : ∃ b, ('(c, _) ← array t; '(d, _) ← array t'; equal Z.eqb c d) = Ok b ∧ (b = true ↔ a = a')).
  { destruct (array_spec t a H) as (u & Eu & _), (array_spec t' a' H') as (u' & Eu' & _). rewrite Eu, Eu'. cbn [mbind res_bind].
    unfold equal. case_bool_decide as E; [| exists false; split; [done |]; split; [done | intros ->; done]].
    rewrite values_equal_spec; [| pose proof (a_values a Ha); pose proof (a_values a' Ha'); rewrite E in *; lia].
    eexists. split; [done |]. rewrite bool_decide_eq_true. destruct a, a'; cbn in *. split; [by intros ->; rewrite E | by intros [= -> ->]]. }
  unfold tile_equal. destruct (iota_ t) as [i |] eqn:Ei, (iota_ t') as [j |] eqn:Ej; try done.
  eexists. split; [done |]. rewrite bool_decide_eq_true. unfold contents in H, H'. rewrite Ei in H. rewrite Ej in H'.
  destruct H as (Hi & -> & _), H' as (Hj & -> & _). split; [by intros -> |]. by apply flat_array_inj.
Qed.

Lemma tile_equal_exact_witness :
  ∃ (t : TileAssignment) b, array (of_iota demo) = Ok (flat_array demo, t) ∧ tile_equal (of_iota demo) t = Ok b ∧ b = true.
Proof.
  destruct (array_spec _ _ demo_contents) as (t & E & Ht & _).
  destruct (tile_equal_exact _ _ t _ demo_contents Ht) as (b & Eb & Hb). exists t, b. split; [exact E |]. split; [exact Eb | by apply Hb].
Defined.

(** C22: [Create] ends on every valid transformation; the devices are those of the given
    reshaping and transposing, and no dimension of the result can be dropped or merged
    with the next. *)
Theorem Create_canonical ds R p :
  transform_ok ds R p →
  ∃ t a, Create ds R p = Ok t ∧ good_iota t ∧ ToArray t = Ok a ∧ to_array R p ds = Ok a ∧
    ∀ t', good_iota t' → ToArray t' = Ok a → t' = t.
Proof.
  intros H. destruct (Create_iota_spec ds R p H) as (t & E & Ed & Hok & Hc & Hf).
  exists t, (flat_array t). split; [done |]. split; [done |]. split; [by apply good_ToArray |]. split.
  - rewrite to_array_spec by done. unfold flat_array. rewrite Ed. do 2 f_equal. apply list_fmap_ext. intros k x _. by rewrite Hf.
  - intros t' Ht' E'. rewrite good_ToArray in E' by done.
    apply flat_array_inj; [done | done |]. congruence.
Qed.

Lemma Create_canonical_witness :
  ∃ t, Create [60; 1] [1; 3; 1; 4; 1; 5] [4; 3; 2; 5; 1; 0] = Ok t ∧ reshape_dims t = [3; 20].
Proof.
  destruct (Create_canonical [60; 1] [1; 3; 1; 4; 1; 5] [4; 3; 2; 5; 1; 0]) as (t & a & E & _).
  - constructor; cbn; try (repeat constructor; lia); try done. split; [| done]. apply IsPermutation_perm. vm_compute. reflexivity.
  - exists t. split; [exact E |]. vm_compute in E. injection E as <-. reflexivity.
Defined.
End TileRefine.
