(* ===== verification/TileAxes.v ===== *)
(** * Tile assignments: common axes

    [ExtractCommonFactorSequence] finds the coarsest common factorization, and the
    sub-dimensions made from it multiply up to the dimensions on both sides. *)
From S2P Require Import Prelude PermUtil Radix Layouts IndexProofs TilingProofs LayoutCorrect TransposeProofs Arrays ArrayProofs TileAssign TileValue TileCanonical.
#[local] Open Scope Z_scope.

Module TileAxes.
Import PermUtil Radix IndexProofs Arrays TileAssign TileCanonical.

(** ** Factorizations *)

(** Every element of [l] in order is the product of a group of factors above 1. *)
Inductive refines : list Z → list Z → Prop :=
  | refines_nil : refines [] []
  | refines_cons g r x l : Forall (λ f, 1 < f) g → prod g = x → refines r l → refines (g ++ r) (x :: l).

Lemma refines_cons_inv c x l :
  refines c (x :: l) → ∃ g r, c = g ++ r ∧ Forall (λ f, 1 < f) g ∧ prod g = x ∧ refines r l.
Proof. inversion 1; subst. eauto 10. Qed.

Lemma refines_nil_inv c : refines c [] → c = [].
Proof. by inversion 1. Qed.

Lemma group_one g : Forall (λ f, 1 < f) g → prod g = 1 → g = [].
Proof. intros Hg E. destruct g as [| f g]; [done |]. pose proof (reduced_prod (f :: g) Hg ltac:(done)). lia. Qed.

Lemma group_pos g : Forall (λ f, 1 < f) g → 1 ≤ prod g.
Proof.
  intros Hg. assert (0 < prod g) by (apply prod_pos; eapply Forall_impl; [exact Hg | cbn; lia]). lia.
Qed.

Lemma refines_one c l : refines c (1 :: l) ↔ refines c l.
Proof.
  split.
  - intros (g & r & -> & Hg & E & Hr)%refines_cons_inv. by rewrite (group_one g Hg E).
  - intros H. apply (refines_cons [] c 1 l); [constructor | done | done].
Qed.

Lemma refines_gt c l : refines c l → Forall (λ f, 1 < f) c.
Proof. induction 1; [constructor |]. by apply Forall_app. Qed.

Lemma refines_length c l : refines c l → Forall (λ f, 1 < f) l → (length l ≤ length c)%nat.
Proof.
  induction 1 as [| g r x l Hg E _ IH]; intros Hl; [done |]. apply Forall_cons in Hl as [Hx Hl]. specialize (IH Hl).
  rewrite length_app. cbn [length]. destruct g as [| f g]; [| cbn [length]; lia]. cbn in E. lia.
Qed.

(** The shorter of two first groups is a part of the other. *)
Lemma refines_both c v1 v2 l1 l2 :
  1 < v1 → v1 ≤ v2 → refines c (v1 :: l1) → refines c (v2 :: l2) →
  ∃ g c' m, c = g ++ c' ∧ Forall (λ f, 1 < f) g ∧ prod g = v1 ∧ v2 = v1 * m ∧ refines c' l1 ∧ refines c' (m :: l2).
Proof.
  intros Hv Hle (g1 & c1 & E1 & G1 & P1 & R1)%refines_cons_inv (g2 & c2 & E2 & G2 & P2 & R2)%refines_cons_inv.
  rewrite E1 in E2. apply app_eq_inv in E2 as [(k & Ek & Ec) | (k & Ek & Ec)].
  - assert (k = []) as ->.
    { rewrite Ek in G1. apply Forall_app in G1 as [_ Gk]. apply (group_one k Gk). pose proof (group_pos k Gk).
      rewrite Ek, prod_app in P1. nia. }
    rewrite app_nil_r in Ek. subst g2. cbn in Ec. subst c2. exists g1, c1, 1. split; [done |]. split; [done |]. split; [done |].
    split; [lia |]. split; [done |]. by apply refines_one.
  - exists g1, c1, (prod k). split; [done |]. split; [done |]. split; [done |]. rewrite Ek in G2. apply Forall_app in G2 as [_ Gk].
    split; [rewrite <- P2, Ek, prod_app; by rewrite P1 |]. split; [done |]. rewrite Ec. by constructor.
Qed.

(** ** The sequence *)

(** [r] is the coarsest common factorization, and the shortest. *)
Definition coarsest (l1 l2 r : list Z) : Prop :=
  refines r l1 ∧ refines r l2 ∧ ∀ c, refines c l1 → refines c l2 → refines c r.

Definition incompatible (l1 l2 : list Z) : Prop := ∀ c, refines c l1 → refines c l2 → False.

Lemma coarsest_swap l1 l2 r : coarsest l1 l2 r → coarsest l2 l1 r.
Proof. intros (H1 & H2 & H3). split; [done |]. split; [done |]. intros c Hc1 Hc2. by apply H3. Qed.

Lemma step_coarsest v m l1 l2 r :
  1 < v → 1 ≤ m → coarsest l1 (m :: l2) r → coarsest (v :: l1) (v * m :: l2) (v :: r).
Proof.
  intros Hv Hm (H1 & H2 & H3). split; [| split].
  - apply (refines_cons [v] r); [by repeat constructor | apply prod_singleton | done].
  - apply refines_cons_inv in H2 as (g & r' & -> & Hg & Eg & Hr). apply (refines_cons (v :: g) r'); [by constructor | by rewrite prod_cons, Eg | done].
  - intros c Hc1 Hc2. destruct (refines_both c v (v * m) l1 l2) as (g & c' & m' & -> & Hg & Eg & Em & Hc1' & Hc2'); [done | nia | done | done |].
    assert (m' = m) as -> by nia. constructor; [done | done |]. by apply H3.
Qed.

Lemma step_incompatible v m l1 l2 :
  1 < v → 1 ≤ m → incompatible l1 (m :: l2) → incompatible (v :: l1) (v * m :: l2).
Proof.
  intros Hv Hm H c Hc1 Hc2. destruct (refines_both c v (v * m) l1 l2) as (g & c' & m' & -> & Hg & Eg & Em & Hc1' & Hc2'); [done | nia | done | done |].
  assert (m' = m) as -> by nia. by apply (H c').
Qed.

Lemma incompatible_swap l1 l2 : incompatible l1 l2 → incompatible l2 l1.
Proof. intros H c H1 H2. by apply (H c). Qed.

Lemma next_factor_spec v l :
  ∃ v' l', next_factor v l = (v', l') ∧ (∀ c, refines c (v :: l) ↔ refines c (v' :: l')) ∧
    (v' = 1 → l' = []) ∧ (length l' ≤ length l)%nat ∧ (v = 1 → l ≠ [] → (length l' < length l)%nat) ∧
    (∀ P : Z → Prop, P v → Forall P l → P v' ∧ Forall P l').
Proof.
  revert v. induction l as [| x l IH]; intros v; cbn [next_factor].
  - exists v, []. done.
  - destruct (Z.eqb_spec v 1) as [-> | Hv].
    + destruct (IH x) as (v' & l' & E & Hc & H1 & Hle & _ & HP). exists v', l'. split; [done |]. split; [intros c; by rewrite refines_one |].
      split; [done |]. cbn [length]. split; [lia |]. split; [lia |]. intros P _ [Hx Hl]%Forall_cons. by apply HP.
    + exists v, (x :: l). done.
Qed.

Abbreviation in_range64 := (λ d : Z, 0 < d ≤ int64_max).

Lemma common_loop_spec fuel l1 l2 v1 v2 acc :
  in_range64 v1 → in_range64 v2 → Forall in_range64 l1 → Forall in_range64 l2 →
  v1 = 1 ∨ v2 = 1 → (length l1 + length l2 < fuel)%nat →
  ∃ r, (common_loop fuel l1 l2 v1 v2 acc = Ok (acc ++ r) ∧ coarsest (v1 :: l1) (v2 :: l2) r) ∨
       (common_loop fuel l1 l2 v1 v2 acc = Ok [] ∧ incompatible (v1 :: l1) (v2 :: l2)).
Proof.
  revert l1 l2 v1 v2 acc. induction fuel as [| fuel IH]; intros l1 l2 v1 v2 acc Hv1 Hv2 Hl1 Hl2 Hone Hf; [lia |].
  assert (Hall : coarsest [1] [1] []).
  { split; [by apply refines_one; constructor |]. split; [by apply refines_one; constructor |].
    intros c Hc _. apply (refines_one c []) in Hc. apply refines_nil_inv in Hc as ->. constructor. }
  cbn [common_loop]. destruct (bool_decide (l1 ≠ []) || bool_decide (l2 ≠ []) || (v1 >? 1) || (v2 >? 1)) eqn:Econd.
  - destruct (next_factor_spec v1 l1) as (w1 & k1 & E1 & C1 & O1 & L1 & S1 & P1).
    destruct (next_factor_spec v2 l2) as (w2 & k2 & E2 & C2 & O2 & L2 & S2 & P2). rewrite E1, E2.
    destruct (P1 in_range64 Hv1 Hl1) as [Hw1 Hk1]. destruct (P2 in_range64 Hv2 Hl2) as [Hw2 Hk2].
    assert (Htrans : ∀ r, coarsest (w1 :: k1) (w2 :: k2) r → coarsest (v1 :: l1) (v2 :: l2) r).
    { intros r (H1 & H2 & H3). split; [by apply C1 |]. split; [by apply C2 |]. intros c Hc1%C1 Hc2%C2. by apply H3. }
    assert (Hinc : incompatible (w1 :: k1) (w2 :: k2) → incompatible (v1 :: l1) (v2 :: l2)).
    { intros H c Hc1%C1 Hc2%C2. by apply (H c). }
    destruct (Z.eqb_spec w1 1) as [-> | N1], (Z.eqb_spec w2 1) as [-> | N2]; cbn [andb orb].
    + exists []. left. rewrite app_nil_r. split; [done |]. apply Htrans. by rewrite O1, O2.
    + exists []. right. split; [done |]. apply Hinc. rewrite (O1 eq_refl). intros c Hc1 Hc2.
      apply (refines_one c []) in Hc1. apply refines_nil_inv in Hc1 as ->.
      apply refines_cons_inv in Hc2 as (g & r & E & Hg & Eg & _). symmetry in E. apply app_eq_nil in E as [-> _]. cbn in Eg. done.
    + exists []. right. split; [done |]. apply Hinc. rewrite (O2 eq_refl). intros c Hc1 Hc2.
      apply (refines_one c []) in Hc2. apply refines_nil_inv in Hc2 as ->.
      apply refines_cons_inv in Hc1 as (g & r & E & Hg & Eg & _). symmetry in E. apply app_eq_nil in E as [-> _]. cbn in Eg. done.
    + assert (Hlen : (length k1 + length k2 < fuel)%nat).
      { destruct Hone as [-> | ->].
        - destruct l1 as [| x l1]; [cbn in E1; by injection E1 as <- _ |]. specialize (S1 eq_refl ltac:(done)). lia.
        - destruct l2 as [| x l2]; [cbn in E2; by injection E2 as <- _ |]. specialize (S2 eq_refl ltac:(done)). lia. }
      cbn beta in Hw1, Hw2. destruct (Z.le_ge_cases w1 w2) as [Hle | Hle].
      * rewrite Z.min_l by done. rewrite !c_mod_pos by lia. cbn [mbind res_bind]. rewrite Z.mod_same by lia. cbn [Z.eqb negb].
        destruct (Z.eqb_spec (w2 mod w1) 0) as [Em | Em]; cbn [negb mbind res_bind].
        -- rewrite !c_div_pos by lia. cbn [mbind res_bind]. rewrite Z.div_same by lia.
           apply Z.mod_divide in Em as [m ->]; [| lia]. rewrite Z.div_mul by lia. assert (1 ≤ m) by nia.
           destruct (IH k1 k2 1 m (acc ++ [w1])) as (r & [[E Hr] | [E Hr]]); [cbn; int_lia | cbn; nia | done | done | by left | done | |].
           ++ exists (w1 :: r). left. rewrite E, <- app_assoc. split; [done |]. apply Htrans. rewrite Z.mul_comm.
              apply step_coarsest; [lia | done |]. destruct Hr as (H1 & H2 & H3). split; [by apply refines_one |]. split; [done |].
              intros c Hc1 Hc2. apply H3; [by apply refines_one | done].
           ++ exists []. right. split; [done |]. apply Hinc. rewrite Z.mul_comm. apply step_incompatible; [lia | done |].
              intros c Hc1 Hc2. apply (Hr c); [by apply refines_one | done].
        -- exists []. right. split; [done |]. apply Hinc. intros c Hc1 Hc2.
           destruct (refines_both c w1 w2 k1 k2) as (g & c' & m & _ & _ & _ & -> & _); [lia | done | done | done |].
           apply Em. rewrite Z.mul_comm. apply Z.mod_mul. lia.
      * rewrite Z.min_r by done. rewrite !c_mod_pos by lia. cbn [mbind res_bind].
        destruct (Z.eqb_spec (w1 mod w2) 0) as [Em | Em]; cbn [negb mbind res_bind].
        -- rewrite Z.mod_same by lia. cbn [Z.eqb negb]. rewrite !c_div_pos by lia. cbn [mbind res_bind]. rewrite Z.div_same by lia.
           apply Z.mod_divide in Em as [m ->]; [| lia]. rewrite Z.div_mul by lia. assert (1 ≤ m) by nia.
           destruct (IH k1 k2 m 1 (acc ++ [w2])) as (r & [[E Hr] | [E Hr]]); [cbn; nia | cbn; int_lia | done | done | by right | done | |].
           ++ exists (w2 :: r). left. rewrite E, <- app_assoc. split; [done |]. apply Htrans. rewrite Z.mul_comm.
              apply coarsest_swap, step_coarsest; [lia | done |]. destruct Hr as (H1 & H2 & H3). split; [by apply refines_one |]. split; [done |].
              intros c Hc1 Hc2. apply H3; [done | by apply refines_one].
           ++ exists []. right. split; [done |]. apply Hinc. rewrite Z.mul_comm. apply incompatible_swap, step_incompatible; [lia | done |].
              intros c Hc1 Hc2. apply (Hr c); [done | by apply refines_one].
        -- exists []. right. split; [done |]. apply Hinc. intros c Hc1 Hc2.
           destruct (refines_both c w2 w1 k2 k1) as (g & c' & m & _ & _ & _ & -> & _); [lia | done | done | done |].
           apply Em. rewrite Z.mul_comm. apply Z.mod_mul. lia.
  - exists []. left. rewrite app_nil_r. split; [done |]. rewrite !orb_false_iff, !bool_decide_eq_false in Econd.
    destruct Econd as [[[N1 N2] G1] G2]. cbn beta in Hv1, Hv2.
    assert (l1 = []) as -> by (by destruct l1; [| exfalso; apply N1]). assert (l2 = []) as -> by (by destruct l2; [| exfalso; apply N2]).
    assert (v1 = 1) as -> by lia. by assert (v2 = 1) as -> by lia.
Qed.

Lemma ExtractCommonFactorSequence_spec l1 l2 :
  Forall in_range64 l1 → Forall in_range64 l2 →
  ∃ r, ExtractCommonFactorSequence l1 l2 = Ok r ∧ (coarsest l1 l2 r ∨ r = [] ∧ incompatible l1 l2).
Proof.
  intros H1 H2. unfold ExtractCommonFactorSequence.
  destruct (common_loop_spec (S (length l1 + length l2)) l1 l2 1 1 []) as (r & [[E Hr] | [E Hr]]);
    [cbn; int_lia | cbn; int_lia | done | done | by left | lia | |].
  - exists r. split; [done |]. left. destruct Hr as (R1 & R2 & R3). split; [by apply refines_one |]. split; [by apply refines_one |].
    intros c Hc1 Hc2. by apply R3; apply refines_one.
  - exists []. split; [done |]. right. split; [done |]. intros c Hc1 Hc2. by apply (Hr c); apply refines_one.
Qed.

(** ** Sub-dimensions *)

(** What the loop has left of [ds] when it is at dimension [i] and has used [acc] of it. *)
Definition left_of (ds : list Z) (i acc : Z) (s : list Z) : Prop :=
  (i = -1 ∧ acc = 1 ∧ s = []) ∨
  (0 ≤ i < Z.of_nat (length ds) ∧ 1 ≤ acc ∧
   ∃ m, ds !!! Z.to_nat i = acc * m ∧ (acc = 1 ∨ 1 < m) ∧ refines s (m :: reverse (take (Z.to_nat i) ds))).

Lemma left_next ds i s :
  0 ≤ i ≤ Z.of_nat (length ds) → refines s (reverse (take (Z.to_nat i) ds)) → left_of ds (i - 1) 1 s.
Proof.
  intros Hi Hr. destruct (decide (i = 0)) as [-> | Hne].
  - left. split; [lia |]. split; [done |]. by apply refines_nil_inv.
  - right. split; [lia |]. split; [done |]. exists (ds !!! Z.to_nat (i - 1)). split; [lia |]. split; [by left |].
    destruct (lookup_lt_is_Some_2 ds (Z.to_nat (i - 1))) as [d Hd]; [lia |]. rewrite (list_lookup_total_correct _ _ _ Hd).
    replace (Z.to_nat i) with (S (Z.to_nat (i - 1))) in Hr by lia. by rewrite (take_S_r _ _ d Hd), reverse_snoc in Hr.
Qed.

(** One axis: the dimension it is taken from, past dimensions of size 1. *)
Lemma axis_step ds i acc a s :
  left_of ds i acc (a :: s) →
  ∃ i', 0 ≤ i' ≤ i ∧ i < Z.of_nat (length ds) ∧ (∀ x, i' < x ≤ i → ds !!! Z.to_nat x = 1) ∧ ds !!! Z.to_nat i' ≠ 1 ∧
    (i' ≠ i → acc = 1) ∧ 1 < a ∧ 1 ≤ acc ∧ acc * a ≤ ds !!! Z.to_nat i' ∧
    if decide (ds !!! Z.to_nat i' = acc * a) then left_of ds (i' - 1) 1 s else left_of ds i' (acc * a) s.
Proof.
  remember (Z.to_nat i) as n eqn:En. revert i acc En. induction n as [n IH] using lt_wf_ind. intros i acc ->.
  intros [(_ & _ & ?) | (Hi & Hacc & m & Ed & Hm & Hr)]; [done |].
  destruct (decide (m = 1)) as [-> | Hm1].
  - assert (acc = 1) as -> by lia. apply (proj1 (refines_one _ _)) in Hr. assert (Hi0 : i ≠ 0).
    { intros ->. cbn in Hr. apply refines_nil_inv in Hr. done. }
    destruct (IH (Z.to_nat (i - 1)) ltac:(lia) (i - 1) 1 eq_refl) as (i' & H1 & H2 & H3 & H4 & H5 & H6); [apply left_next; [lia | done] |].
    exists i'. split; [lia |]. split; [lia |]. split; [| done].
    intros x Hx. destruct (decide (x = i)) as [-> |]; [lia |]. apply H3. lia.
  - apply refines_cons_inv in Hr as (g & r & E & Hg & Em & Hr). destruct g as [| f g]; [cbn in Em; lia |]. cbn [app] in E. injection E as <- ->.
    apply Forall_cons in Hg as [Ha Hg]. cbn beta in Ha. rewrite prod_cons in Em. pose proof (group_pos g Hg).
    exists i. split; [lia |]. split; [lia |]. split; [lia |]. split; [nia |]. split; [done |]. split; [done |]. split; [done |]. split; [nia |].
    case_decide as E.
    + apply left_next; [lia |]. assert (Eg : prod g = 1) by nia. by rewrite (group_one g Hg Eg).
    + right. split; [done |]. split; [nia |]. exists (prod g). split; [nia |]. split; [right; nia |]. by constructor.
Qed.

Lemma skip_ones_spec fuel ds i i' :
  0 ≤ i' ≤ i → i < Z.of_nat (length ds) → (∀ x, i' < x ≤ i → ds !!! Z.to_nat x = 1) → ds !!! Z.to_nat i' ≠ 1 →
  (Z.to_nat (i - i') < fuel)%nat → skip_ones fuel ds i = Ok i'.
Proof.
  revert i. induction fuel as [| fuel IH]; intros i Hi Hl Hones Hne Hf; [lia |]. cbn [skip_ones].
  rewrite at_z_total by lia. cbn [mbind res_bind]. destruct (Z.eqb_spec (ds !!! Z.to_nat i) 1) as [E | E].
  - assert (i ≠ i') by congruence. apply IH; [lia | lia | | done | lia]. intros x Hx. apply Hones. lia.
  - destruct (decide (i = i')) as [-> |]; [done |]. exfalso. apply E, Hones. lia.
Qed.

(** The product of the sizes with the same key. *)
Definition sizes_at (key : SubDimInfo → Z) (l : list SubDimInfo) (x : Z) : Z :=
  prod (size <$> filter (λ d, key d = x) l).

Lemma sizes_at_cons key d l x :
  sizes_at key (d :: l) x = (if decide (key d = x) then size d else 1) * sizes_at key l x.
Proof.
  unfold sizes_at. rewrite filter_cons. case_decide; [done |]. lia.
Qed.

(** What is left and what is used make up every dimension. *)
Definition made (ds : list Z) (i acc : Z) (P : Z → Z) : Prop :=
  ∀ x, 0 ≤ x < Z.of_nat (length ds) → (if decide (x = i) then acc else 1) * P x = if decide (x ≤ i) then ds !!! Z.to_nat x else 1.

Lemma made_step ds i i' acc a P :
  0 ≤ i' ≤ i → (∀ x, i' < x ≤ i → ds !!! Z.to_nat x = 1) → (i' ≠ i → acc = 1) →
  made ds (if decide (ds !!! Z.to_nat i' = acc * a) then i' - 1 else i') (if decide (ds !!! Z.to_nat i' = acc * a) then 1 else acc * a) P →
  made ds i acc (λ x, (if decide (i' = x) then a else 1) * P x).
Proof.
  intros Hi Hones Hacc H x Hx. specialize (H x Hx). cbn beta. destruct (decide (i' = x)) as [<- |].
  - rewrite (decide_True (P := i' ≤ i)) by lia.
    assert (E : (if decide (i' = i) then acc else 1) = acc) by (destruct (decide (i' = i)) as [|Hn]; [done | symmetry; exact (Hacc Hn)]). rewrite E.
    destruct (decide (ds !!! Z.to_nat i' = acc * a)) as [Ed |].
    + rewrite !decide_False in H by lia. rewrite Ed. nia.
    + rewrite !decide_True in H by lia. lia.
  - rewrite Z.mul_1_l. destruct (decide (x < i')) as [Hlt |].
    + rewrite (decide_False (P := x = i)) by lia. rewrite (decide_True (P := x ≤ i)) by lia.
      destruct (decide (ds !!! Z.to_nat i' = acc * a)).
      * rewrite (decide_True (P := x ≤ i' - 1)) in H by lia. rewrite <- H. by case_decide.
      * rewrite (decide_False (P := x = i')), (decide_True (P := x ≤ i')) in H by lia. done.
    + assert (HP : P x = 1).
      { destruct (decide (ds !!! Z.to_nat i' = acc * a)); rewrite !decide_False in H by lia; lia. }
      rewrite HP, Z.mul_1_r. destruct (decide (x ≤ i)).
      * rewrite (Hones x) by lia. destruct (decide (x = i)); [apply Hacc; lia | done].
      * by rewrite decide_False by lia.
Qed.

Lemma eqb_decide {A} (x y : Z) (u v : A) : (if x =? y then u else v) = if decide (x = y) then u else v.
Proof. destruct (Z.eqb_spec x y) as [E | E]; [by rewrite decide_True | by rewrite decide_False]. Qed.

Lemma sub_dims_loop_spec ds R p s st :
  valid_layout R p → Forall (λ d, 1 < d) R →
  Forall (λ d, d ≤ int64_max) ds → Forall (λ d, d ≤ int64_max) R →
  left_of ds (tile_index st) (acc_tile_size st) s → left_of (sel R p) (trans_perm_index st) (acc_device_size st) s →
  ∃ l, sub_dims_loop ds (sel R p) p s st = Ok l ∧ size <$> l = s ∧
    made ds (tile_index st) (acc_tile_size st) (sizes_at tile_dim_index l) ∧
    made (sel R p) (trans_perm_index st) (acc_device_size st) (λ k, sizes_at reshape_dim_index l (p !!! Z.to_nat k)).
Proof.
  intros Hp HR Hmax1 Hmax2. pose proof Hp as [P1 P2]. revert st. induction s as [| a s IH]; intros st Ht Hd; cbn [sub_dims_loop].
  { exists []. split; [done |]. split; [done |].
    assert (Hm : ∀ ds i acc, left_of ds i acc [] → made ds i acc (λ _, 1)).
    { clear. intros ds i acc Hl x Hx. rewrite Z.mul_1_r. destruct Hl as [(-> & -> & _) | (Hi & Ha & m & E & Hm & Hr)].
      - rewrite !decide_False by lia. done.
      - apply refines_cons_inv in Hr as (g & r & Eg & Hg & Em & Hr). symmetry in Eg. apply app_eq_nil in Eg as [-> ->]. cbn in Em. subst m.
        assert (acc = 1) as -> by lia. rewrite Z.mul_1_l in E.
        assert (Hones : ∀ l : list Z, refines [] l → Forall (λ d, d = 1) l).
        { clear. intros l. induction l as [| d l IH]; intros H; [constructor |].
          apply refines_cons_inv in H as (g & r & Eg & _ & Em & Hr). symmetry in Eg. apply app_eq_nil in Eg as [-> ->]. constructor; [by rewrite <- Em | by apply IH]. }
        apply Hones in Hr. rewrite Forall_reverse in Hr. case_decide as E1; [subst x; by rewrite decide_True by lia |].
        case_decide as E2; [| done]. rewrite Forall_lookup in Hr. symmetry. apply (Hr (Z.to_nat x)). apply lookup_take_Some.
        split; [apply list_lookup_lookup_total_lt; lia | lia]. }
    split; [by apply Hm | by apply Hm]. }
  destruct (axis_step ds _ _ a s Ht) as (i & I1 & I2 & I3 & I4 & I5 & Ha & Hacc & Hle & Hnext).
  destruct (axis_step (sel R p) _ _ a s Hd) as (k & K1 & K2 & K3 & K4 & K5 & _ & Hacc' & Hle' & Hnext').
  assert (Ek : k = trans_perm_index st).
  { destruct (decide (k = trans_perm_index st)) as [| Hne]; [done |]. exfalso. specialize (K3 (trans_perm_index st) ltac:(lia)).
    assert (HS : Forall (λ d, 1 < d) (sel R p)) by (by rewrite (sel_perm R p Hp)). rewrite Forall_lookup in HS.
    pose proof (list_lookup_lookup_total_lt (sel R p) (Z.to_nat (trans_perm_index st)) ltac:(lia)) as Hk. specialize (HS _ _ Hk). cbn beta in HS. lia. }
  subst k. rewrite length_sel in K2. rewrite (skip_ones_spec _ ds _ i) by (done || lia). cbn [mbind res_bind].
  rewrite (at_z_total p) by lia. cbn [mbind res_bind].
  assert (Hb1 : ds !!! Z.to_nat i ≤ int64_max).
  { rewrite Forall_lookup in Hmax1. apply (Hmax1 (Z.to_nat i)), list_lookup_lookup_total_lt. lia. }
  assert (Hb2 : sel R p !!! Z.to_nat (trans_perm_index st) ≤ int64_max).
  { assert (HS : Forall (λ d, d ≤ int64_max) (sel R p)) by (by rewrite (sel_perm R p Hp)). rewrite Forall_lookup in HS.
    apply (HS (Z.to_nat (trans_perm_index st))), list_lookup_lookup_total_lt. rewrite length_sel. lia. }
  rewrite (s64_in (acc_tile_size st * a)) by int_nia. cbn [mbind res_bind]. rewrite (s64_in (acc_device_size st * a)) by int_nia. cbn [mbind res_bind].
  rewrite (at_z_total ds) by lia. cbn [mbind res_bind]. rewrite (at_z_total (sel R p)) by (rewrite length_sel; lia). cbn [mbind res_bind].
  set (d := ds !!! Z.to_nat i) in *. set (e := sel R p !!! Z.to_nat (trans_perm_index st)) in *.
  rewrite !(eqb_decide d), !(eqb_decide e).
  edestruct IH as (l & El & Es & M1 & M2); [| |].
  3: { rewrite El. cbn [mbind res_bind]. eexists. split; [done |]. split; [cbn; by rewrite Es |]. split.
    - intros x Hx. rewrite sizes_at_cons. cbn [tile_dim_index size]. apply (made_step ds _ i _ a (sizes_at tile_dim_index l)); [done | done | done | | done].
      cbn [tile_index acc_tile_size] in M1. exact M1.
    - intros x Hx. rewrite sizes_at_cons. cbn [reshape_dim_index size].
      pose proof (made_step (sel R p) _ (trans_perm_index st) _ a (λ k, sizes_at reshape_dim_index l (p !!! Z.to_nat k)) K1 K3 K5) as Hstep.
      fold e in Hstep. cbn [trans_perm_index acc_device_size] in M2. specialize (Hstep M2). specialize (Hstep x Hx). cbn beta in Hstep. rewrite <- Hstep.
      f_equal. f_equal. rewrite length_sel in Hx. apply decide_ext. split; [| by intros <-]. intros Eq.
      assert (Z.to_nat (trans_perm_index st) = Z.to_nat x); [| lia].
      apply (NoDup_lookup p _ _ (p !!! Z.to_nat x)); [apply P1 | rewrite <- Eq; apply list_lookup_lookup_total_lt; lia | apply list_lookup_lookup_total_lt; lia]. }
  - cbn [tile_index acc_tile_size]. by destruct (decide (d = acc_tile_size st * a)).
  - cbn [trans_perm_index acc_device_size]. by destruct (decide (e = acc_device_size st * a)).
Qed.

Lemma refines_app c1 c2 l1 l2 : refines c1 l1 → refines c2 l2 → refines (c1 ++ c2) (l1 ++ l2).
Proof. induction 1 as [| g r x l Hg E _ IH]; intros H2; [done |]. rewrite <- app_assoc. cbn [app]. constructor; [done | done |]. by apply IH. Qed.

Lemma refines_reverse c l : refines c l → refines (reverse c) (reverse l).
Proof.
  induction 1 as [| g r x l Hg E _ IH]; [constructor |]. rewrite reverse_app, reverse_cons. apply refines_app; [done |].
  rewrite <- (app_nil_r (reverse g)). apply refines_cons; [by apply Forall_reverse | by rewrite prod_reverse | constructor].
Qed.

#[export] Instance sub_dim_le_total : Total sub_dim_le.
Proof. intros a b. unfold sub_dim_le. lia. Qed.

Lemma sizes_at_Permutation key l l' x : l ≡ₚ l' → sizes_at key l x = sizes_at key l' x.
Proof. intros H. unfold sizes_at. by rewrite H. Qed.

(** ** Properties *)

(** [ExtractCommonFactorSequence] ends, and finds the shortest sequence of factors
    above 1 that groups in order into both inputs when there is one, which every such
    sequence groups into; else it is empty. *)
Theorem ExtractCommonFactorSequence_shortest l1 l2 :
  Forall in_range64 l1 → Forall in_range64 l2 →
  ∃ r, ExtractCommonFactorSequence l1 l2 = Ok r ∧
    ((refines r l1 ∧ refines r l2 ∧ ∀ c, refines c l1 → refines c l2 → refines c r ∧ (length r ≤ length c)%nat) ∨
     (r = [] ∧ ∀ c, refines c l1 → refines c l2 → False)).
Proof.
  intros H1 H2. destruct (ExtractCommonFactorSequence_spec l1 l2 H1 H2) as (r & E & H). exists r. split; [done |].
  destruct H as [(R1 & R2 & R3) | H]; [left | by right]. split; [done |]. split; [done |]. intros c Hc1 Hc2.
  pose proof (R3 c Hc1 Hc2) as Hr. split; [done |]. apply (refines_length c r Hr). by apply (refines_gt r l1).
Qed.

Lemma ExtractCommonFactorSequence_shortest_witness :
  ∃ r, ExtractCommonFactorSequence [6; 1; 4] [2; 6; 2] = Ok r ∧ r = [2; 3; 2; 2].
Proof.
  destruct (ExtractCommonFactorSequence_shortest [6; 1; 4] [2; 6; 2]) as (r & E & _); [repeat constructor; int_lia .. |].
  exists r. split; [exact E |]. vm_compute in E. injection E as <-. reflexivity.
Defined.

(** The sub-dimensions of an assignment whose iota has no dimension of size 1 are the
    shortest common factorization; those of a dimension of the tile, and those of a
    dimension of the iota, multiply up to its size; without one the error is returned. *)
Theorem GetOrderedSubDims_made ds R p :
  Forall in_range64 ds → Forall (λ d, 1 < d ≤ int64_max) R → valid_layout R p →
  (∃ l r, GetOrderedSubDims ds R p = Ok l ∧ coarsest ds (sel R p) r ∧ size <$> l ≡ₚ r ∧ Sorted sub_dim_le l ∧
     (∀ x, 0 ≤ x < Z.of_nat (length ds) → sizes_at tile_dim_index l x = ds !!! Z.to_nat x) ∧
     (∀ j, 0 ≤ j < Z.of_nat (length R) → sizes_at reshape_dim_index l j = R !!! Z.to_nat j)) ∨
  (GetOrderedSubDims ds R p = Fail InvalidArgument ∧ ∀ c, refines c ds → refines c (sel R p) → c = []).
Proof.
  intros Hds HR Hp. pose proof (valid_layout_in_range R p R Hp eq_refl) as Hr. pose proof Hp as [P1 P2].
  assert (HS : Forall in_range64 (sel R p)) by (rewrite (sel_perm R p Hp); eapply Forall_impl; [exact HR | cbn; lia]).
  assert (HR1 : Forall (λ d, 1 < d) R) by (eapply Forall_impl; [exact HR | cbn; lia]).
  unfold GetOrderedSubDims. rewrite TilingProofs.mapM_at by done. cbn [mbind res_bind].
  destruct (ExtractCommonFactorSequence_spec ds (sel R p) Hds HS) as (r & E & H). rewrite E. cbn [mbind res_bind].
  destruct (decide (r = [])) as [-> | Hne].
  - right. split; [done |]. destruct H as [(R1 & R2 & R3) | [_ H]]; [| intros c H1 H2; by destruct (H c)].
    intros c H1 H2. by apply refines_nil_inv, R3.
  - left. rewrite bool_decide_false by done. cbn [negb guard_res mbind res_bind]. destruct H as [Hc | [? _]]; [| done].
    pose proof Hc as (R1 & R2 & R3).
    destruct (sub_dims_loop_spec ds R p (reverse r) (MkSubState (Z.of_nat (length ds) - 1) (Z.of_nat (length p) - 1) 1 1 0))
      as (l & El & Es & M1 & M2); [done | done | eapply Forall_impl; [exact Hds | cbn; lia] | eapply Forall_impl; [exact HR | cbn; lia] | | |].
    { cbn [tile_index acc_tile_size]. apply left_next; [lia |]. rewrite Nat2Z.id, take_ge by lia. by apply refines_reverse. }
    { cbn [trans_perm_index acc_device_size]. rewrite <- (length_sel R p). apply left_next; [lia |]. rewrite Nat2Z.id, take_ge by lia. by apply refines_reverse. }
    rewrite El. cbn [mbind res_bind]. exists (merge_sort sub_dim_le l), r. split; [done |]. split; [done |].
    cbn [tile_index acc_tile_size trans_perm_index acc_device_size] in *. split; [| split; [| split]].
    + rewrite merge_sort_Permutation, Es. apply reverse_Permutation.
    + apply Sorted_merge_sort. apply _.
    + intros x Hx. rewrite (sizes_at_Permutation _ _ l) by apply merge_sort_Permutation. specialize (M1 x Hx). rewrite (decide_True (P := x ≤ _)) in M1 by lia.
      rewrite <- M1. case_decide; lia.
    + intros j Hj. rewrite (sizes_at_Permutation _ _ l) by apply merge_sort_Permutation.
      destruct (proj1 (list_elem_of_lookup p j)) as [k Hk]; [apply perm_surj; [done | lia] |]. pose proof (lookup_lt_Some _ _ _ Hk).
      specialize (M2 (Z.of_nat k) ltac:(rewrite length_sel; lia)). cbn beta in M2. rewrite Nat2Z.id in M2.
      rewrite (list_lookup_total_correct _ _ _ Hk), (list_lookup_total_correct _ _ _ (sel_lookup R p k j Hk)) in M2.
      rewrite (decide_True (P := Z.of_nat k ≤ _)) in M2 by lia. rewrite <- M2. case_decide; lia.
Qed.

Lemma GetOrderedSubDims_made_witness :
  ∃ l, GetOrderedSubDims [6; 35] [7; 10; 3] [2; 1; 0] = Ok l ∧ sizes_at tile_dim_index l 1 = 35 ∧ sizes_at reshape_dim_index l 1 = 10.
Proof.
  destruct (GetOrderedSubDims_made [6; 35] [7; 10; 3] [2; 1; 0]) as [(l & r & E & _ & _ & _ & H1 & H2) | [E _]].
  - repeat constructor; int_lia.
  - repeat constructor; int_lia.
  - split; [apply IsPermutation_perm; vm_compute; reflexivity | done].
  - exists l. split; [exact E |]. split; [apply (H1 1); cbn; lia | apply (H2 1); cbn; lia].
  - vm_compute in E. discriminate E.
Defined.

(** A dimension of size 1 in the iota is not passed over: the axis of size 2 belongs to
    dimension 0 and should come first. *)
Example sub_dims_of_size_one :
  GetOrderedSubDims [2; 3] [2; 3; 1] [0; 2; 1] = Ok [MkSubDim 1 0 1 3; MkSubDim 0 0 2 2].
Proof. vm_compute. reflexivity. Qed.

(** An iota without common axes, or with one device, is not a null result but aborts. *)
Example analyze_aborts :
  (t ← of_transform [2; 3] [2; 3] [1; 0]; AnalyzeTileAssignment t) = Fail CheckFailed ∧
  (t ← of_dims [1; 1]; AnalyzeTileAssignment t) = Fail CheckFailed.
Proof. split; vm_compute; reflexivity. Qed.

(** The same devices as a full array are a null result. *)
Example analyze_array :
  (t ← of_transform [2; 3] [2; 3] [1; 0]; '(a, _) ← array t; AnalyzeTileAssignment (of_array a)) = Ok None.
Proof. vm_compute. reflexivity. Qed.
End TileAxes.
