(* ===== verification/MeshAxes.v ===== *)
(** * Meshes and their axes

    Models [xla/hlo/ir/mesh_and_axis.h] and [.cc]: an array of devices with named axes,
    references to whole axes and to parts of them, and the ways to compare, merge and
    truncate lists of references. *)
From stdpp Require Import strings.
From S2P Require Import Prelude PermUtil Layouts Arrays TileAssign.
#[local] Open Scope Z_scope.

Module MeshAxes.
Import Layouts Arrays TileAssign.

(** ** Meshes *)

Record Mesh := MkMesh { device_assignment : TileAssignment; axes_names : list string }.

Definition EmptyMesh : Mesh := MkMesh Replicated [].
Definition MaximalMesh (device_id : Z) : Mesh := MkMesh (of_device device_id) [].

Definition num_axes (m : Mesh) : Z := Z.of_nat (length (axes_names m)).
Definition axis_sizes (m : Mesh) : res (list Z) := dimensions (device_assignment m).
Definition axis_size (m : Mesh) (axis_index : Z) : res Z := tile_dim (device_assignment m) axis_index.

Definition IsMaximal (m : Mesh) : res bool :=
  if bool_decide (axes_names m = []) then n ← tile_num_elements (device_assignment m); Ok (n =? 1) else Ok false.

Definition DeviceAssignmentEquals (m other : Mesh) : res bool :=
  tile_equal (device_assignment m) (device_assignment other).

Definition mesh_equal (m other : Mesh) : res bool :=
  same ← DeviceAssignmentEquals m other;
  Ok (if (same : bool) then bool_decide (axes_names m = axes_names other) else false).

Definition ValidateMesh (m : Mesh) : res unit :=
  rank ← tile_num_dimensions (device_assignment m);
  if rank =? 0 then
    n ← tile_num_elements (device_assignment m); guard_res (n <=? 1) InvalidArgument
  else
    guard_res (rank =? num_axes m) InvalidArgument;;
    guard_res (bool_decide (NoDup (axes_names m))) InvalidArgument;;
    match iota_ (device_assignment m) with
    | Some _ => Ok tt
    | None =>
        '(a, _) ← array (device_assignment m);
        let device_ids := values_ a in
        let iota := seqZ 0 (Z.of_nat (length device_ids)) in
        guard_res (forallb (λ d, 0 <=? d) device_ids) InvalidArgument;;
        guard_res (negb (bool_decide (device_ids = iota))) InvalidArgument;;
        guard_res (bool_decide (merge_sort Z.le device_ids = iota)) InvalidArgument
    end.

(** [CHECK_OK]. *)
Definition check_ok (status : res unit) : res unit :=
  match status with
  | Fail InvalidArgument => Fail CheckFailed
  | _ => status
  end.

Definition make_mesh (a : TileAssignment) (names : list string) : res Mesh :=
  check_ok (ValidateMesh (MkMesh a names));; Ok (MkMesh a names).

Definition IotaMesh (axes_sizes : list Z) (names : list string) : res Mesh :=
  t ← of_dims axes_sizes; make_mesh t names.

Definition ArrayMesh (a : Array Z) (names : list string) : res Mesh := make_mesh (of_array a) names.

(** ** References to axes *)

Record SubAxis := MkSub { pre_size : Z; size : Z }.
Record AxisRef := MkAxis { mesh_axis_index : Z; sub_axis_info : option SubAxis }.

#[export] Instance SubAxis_eq_dec : EqDecision SubAxis.
Proof. solve_decision. Defined.
#[export] Instance AxisRef_eq_dec : EqDecision AxisRef.
Proof. solve_decision. Defined.

Definition next_pre_size (s : SubAxis) : res Z := s64 (pre_size s * size s).

Definition FullAxis (mesh_axis_index : Z) : AxisRef := MkAxis mesh_axis_index None.
Definition SubAxisRef (mesh_axis_index : Z) (s : SubAxis) : res AxisRef :=
  guard_res (0 <? pre_size s) CheckFailed;;
  guard_res (1 <? size s) CheckFailed;;
  Ok (MkAxis mesh_axis_index (Some s)).

Definition axis_pre_size (a : AxisRef) : Z :=
  match sub_axis_info a with Some s => pre_size s | None => 1 end.

(** [operator<]. *)
Definition axis_lt (a other : AxisRef) : bool :=
  if negb (mesh_axis_index a =? mesh_axis_index other) then mesh_axis_index a <? mesh_axis_index other
  else
    match sub_axis_info a, sub_axis_info other with
    | None, _ => axis_pre_size other >? 1
    | Some _, None => axis_pre_size a =? 1
    | Some s, Some o => if negb (pre_size s =? pre_size o) then pre_size s <? pre_size o else size s <? size o
    end.

(** Conditions joined by [&&]. *)
Definition res_and (a b : res bool) : res bool := x ← a; if (x : bool) then b else Ok false.
Definition divides (a b : Z) : res bool := r ← c_mod b a; Ok (r =? 0).

Definition CanSubAxesCoexist (min_pre_size max_pre_size min_next_pre_size max_next_pre_size : Z) : res bool :=
  if min_next_pre_size >? max_pre_size then
    res_and (divides max_pre_size min_next_pre_size)
      (res_and (divides min_pre_size max_pre_size) (divides min_next_pre_size max_next_pre_size))
  else divides min_next_pre_size max_pre_size.

Definition CanCoexist (a other : AxisRef) : res bool :=
  if negb (mesh_axis_index a =? mesh_axis_index other) then Ok true
  else
    match sub_axis_info a, sub_axis_info other with
    | Some s, Some o =>
        n ← next_pre_size s;
        n' ← next_pre_size o;
        CanSubAxesCoexist (Z.min (pre_size s) (pre_size o)) (Z.max (pre_size s) (pre_size o)) (Z.min n n') (Z.max n n')
    | _, _ => Ok true
    end.

Definition Overlaps (a other : AxisRef) : res bool :=
  if negb (mesh_axis_index a =? mesh_axis_index other) then Ok false
  else
    match sub_axis_info a, sub_axis_info other with
    | Some s, Some o =>
        n' ← next_pre_size o;
        if pre_size s <? n' then n ← next_pre_size s; Ok (pre_size o <? n) else Ok false
    | _, _ => Ok true
    end.

Definition GetPrefixWithoutOverlap (a other : AxisRef) : res (option AxisRef) :=
  can ← CanCoexist a other;
  if negb can then Ok None
  else
    overlaps ← Overlaps a other;
    if negb overlaps then Ok (Some a)
    else
      let this_pre_size := axis_pre_size a in
      let other_pre_size := axis_pre_size other in
      if this_pre_size >=? other_pre_size then Ok None
      else
        q ← c_div other_pre_size this_pre_size;
        prefix ← SubAxisRef (mesh_axis_index a) (MkSub this_pre_size q);
        Ok (Some prefix).

Definition CanCoexistWithoutOverlap (a other : AxisRef) : res bool :=
  if negb (mesh_axis_index a =? mesh_axis_index other) then Ok true
  else
    match sub_axis_info a, sub_axis_info other with
    | Some s, Some o =>
        n ← next_pre_size s;
        n' ← next_pre_size o;
        if (n >? pre_size o) && (n' >? pre_size s) then Ok false
        else divides (Z.min n n') (Z.max (pre_size s) (pre_size o))
    | _, _ => Ok false
    end.

Definition CanMerge (a other : AxisRef) : res bool :=
  if negb (mesh_axis_index a =? mesh_axis_index other) then Ok false
  else
    match sub_axis_info a, sub_axis_info other with
    | Some s, Some o => n ← next_pre_size s; Ok (n =? pre_size o)
    | _, _ => Ok false
    end.

(** Whether the reference was merged, and what it is then. *)
Definition Merge (m : Mesh) (a other : AxisRef) : res (bool * AxisRef) :=
  can ← CanMerge a other;
  match sub_axis_info a, sub_axis_info other with
  | Some s, Some o =>
      if (can : bool) then
        merged ← s64 (size s * size o);
        n ← axis_size m (mesh_axis_index a);
        Ok (true, MkAxis (mesh_axis_index a) (if merged =? n then None else Some (MkSub (pre_size s) merged)))
      else Ok (false, a)
  | _, _ => Ok (false, a)
  end.

Definition ValidateAxis (m : Mesh) (a : AxisRef) : res unit :=
  guard_res (mesh_axis_index a <? num_axes m) InvalidArgument;;
  match sub_axis_info a with
  | None => Ok tt
  | Some s =>
      axis_size ← axis_size m (mesh_axis_index a);
      n ← next_pre_size s;
      exact ← divides n axis_size;
      guard_res exact InvalidArgument;;
      guard_res (size s <? axis_size) InvalidArgument
  end.

Definition size_in (m : Mesh) (a : AxisRef) : res Z :=
  match sub_axis_info a with Some s => Ok (size s) | None => axis_size m (mesh_axis_index a) end.

(** The loop over the axes of the mesh from [i] on. *)
Fixpoint contains_loop (m : Mesh) (n : nat) (i : Z) (axes : list AxisRef) : res bool :=
  match n with
  | O => Ok (bool_decide (axes = []))
  | S n =>
      let absent := size ← axis_size m i; if size =? 1 then contains_loop m n (i + 1) axes else Ok false in
      match axes with
      | a :: rest =>
          if mesh_axis_index a =? i then
            match sub_axis_info a with Some _ => Ok false | None => contains_loop m n (i + 1) rest end
          else absent
      | [] => absent
      end
  end.

Definition ContainsAllMeshAxesInOrder (m : Mesh) (axes : list AxisRef) : res bool :=
  contains_loop m (length (axes_names m)) 0 axes.

(** ** Lists of references *)

Fixpoint coexist_with_all (a : AxisRef) (axes : list AxisRef) : res bool :=
  match axes with
  | [] => Ok true
  | b :: axes => res_and (CanCoexistWithoutOverlap a b) (coexist_with_all a axes)
  end.

Fixpoint AxesCanCoexistWithoutOverlap (axes : list AxisRef) : res bool :=
  match axes with
  | [] => Ok true
  | a :: axes => res_and (coexist_with_all a axes) (AxesCanCoexistWithoutOverlap axes)
  end.

(** Two neighbours can be merged. *)
Fixpoint mergeable_neighbors (axes : list AxisRef) : res bool :=
  match axes with
  | a :: (b :: _) as rest => can ← CanMerge a b; if (can : bool) then Ok true else mergeable_neighbors rest
  | _ => Ok false
  end.

Fixpoint validate_all (m : Mesh) (axes : list AxisRef) : res unit :=
  match axes with
  | [] => Ok tt
  | a :: axes => ValidateAxis m a;; validate_all m axes
  end.

Definition ValidateSpanOfAxes (m : Mesh) (axes : list AxisRef) (allow_mergeable_neighbors : bool) : res unit :=
  validate_all m axes;;
  coexist ← AxesCanCoexistWithoutOverlap axes;
  guard_res coexist InvalidArgument;;
  if allow_mergeable_neighbors then Ok tt
  else mergeable ← mergeable_neighbors axes; guard_res (negb mergeable) InvalidArgument.

(** The axes before the current one are final. *)
Fixpoint merge_axes_loop (m : Mesh) (final : list AxisRef) (current : AxisRef) (axes : list AxisRef) : res (list AxisRef) :=
  match axes with
  | [] => Ok (final ++ [current])
  | next :: axes =>
      overlaps ← Overlaps current next;
      guard_res (negb overlaps) CheckFailed;;
      can ← CanMerge current next;
      if (can : bool) then
        '(merged, current) ← Merge m current next;
        guard_res merged CheckFailed;;
        merge_axes_loop m final current axes
      else merge_axes_loop m (final ++ [current]) next axes
  end.

Definition MergeAxes (m : Mesh) (axes : list AxisRef) : res (list AxisRef) :=
  match axes with
  | [] => Ok []
  | current :: axes => merge_axes_loop m [] current axes
  end.

(** What [std::sort] sorts by. *)
Definition axis_le (a b : AxisRef) : Prop := axis_lt b a = false.
#[export] Instance axis_le_dec : RelDecision axis_le.
Proof. intros a b. unfold axis_le. apply _. Defined.

Definition SortAndMergeAxes (m : Mesh) (axes : list AxisRef) : res (list AxisRef) :=
  MergeAxes m (merge_sort axis_le axes).

Fixpoint prefix_without_overlaps (a : AxisRef) (others : list AxisRef) : res (option AxisRef) :=
  match others with
  | [] => Ok (Some a)
  | other :: others =>
      prefix ← GetPrefixWithoutOverlap a other;
      match prefix with
      | Some a => prefix_without_overlaps a others
      | None => Ok None
      end
  end.

(** Whether the axes were changed, and what is left of them. *)
Fixpoint TruncateAxesByRemovingOverlaps (axes other_axis_refs : list AxisRef) : res (bool * list AxisRef) :=
  match axes with
  | [] => Ok (false, [])
  | a :: rest =>
      prefix ← prefix_without_overlaps a other_axis_refs;
      match prefix with
      | None => Ok (true, [])
      | Some p =>
          if bool_decide (a ≠ p) then Ok (true, [p])
          else '(modified, rest) ← TruncateAxesByRemovingOverlaps rest other_axis_refs; Ok (modified, a :: rest)
      end
  end.

(** ** Protos *)

Record IotaTransform := MkTransform { proto_reshape_dims : list Z; proto_transpose_perm : list Z }.
Record MeshProto := MkMeshProto {
  proto_axes : list (string * Z); proto_device_ids : list Z; proto_iota_transform : option IotaTransform
}.
Record AxisRefProto := MkAxisProto { proto_mesh_axis_index : Z; proto_sub_axis_info : option (Z * Z) }.

Definition MeshToProto (m : Mesh) : res MeshProto :=
  if num_axes m =? 0 then
    n ← tile_num_elements (device_assignment m);
    if n =? 0 then Ok (MkMeshProto [] [] None)
    else
      '(a, _) ← array (device_assignment m);
      d ← at_res (values_ a) 0;
      Ok (MkMeshProto [] [d] None)
  else
    sizes ← axis_sizes m;
    guard_res (length (axes_names m) =? length sizes)%nat Undefined;;
    let axes := zip (axes_names m) sizes in
    match iota_ (device_assignment m) with
    | Some i =>
        Ok (MkMeshProto axes []
             (if (length (reshape_dims i) =? 1)%nat then None else Some (MkTransform (reshape_dims i) (transpose_perm i))))
    | None => '(a, _) ← array (device_assignment m); Ok (MkMeshProto axes (values_ a) None)
    end.

Definition MeshFromProto (proto : MeshProto) : res Mesh :=
  match proto_axes proto with
  | [] =>
      match proto_device_ids proto with
      | [] => Ok EmptyMesh
      | [d] => Ok (MaximalMesh d)
      | _ => Fail CheckFailed
      end
  | axes =>
      guard_res (forallb (λ axis, 0 <? axis.2) axes) CheckFailed;;
      let sizes := axes.*2 in
      let names := axes.*1 in
      match proto_device_ids proto, proto_iota_transform proto with
      | [], Some t =>
          a ← of_transform sizes (proto_reshape_dims t) (to_int <$> proto_transpose_perm t);
          make_mesh a names
      | [], None => a ← of_dims sizes; make_mesh a names
      | _, Some _ => Fail CheckFailed
      | device_ids, None =>
          a ← make sizes 0;
          guard_res (Z.of_nat (length device_ids) =? num_elements a) CheckFailed;;
          make_mesh (of_array (MkArray sizes device_ids)) names
      end
  end.

Definition AxisRefToProto (a : AxisRef) : AxisRefProto :=
  MkAxisProto (mesh_axis_index a) ((λ s, (pre_size s, size s)) <$> sub_axis_info a).

Definition AxisRefFromProto (proto : AxisRefProto) : res AxisRef :=
  match proto_sub_axis_info proto with
  | Some (p, s) => SubAxisRef (proto_mesh_axis_index proto) (MkSub p s)
  | None => Ok (FullAxis (proto_mesh_axis_index proto))
  end.

(** ** Examples *)

Example merge_example :
  (m ← IotaMesh [8; 3] ["a"%string; "b"%string];
   MergeAxes m [MkAxis 0 (Some (MkSub 1 2)); MkAxis 0 (Some (MkSub 2 4)); MkAxis 1 None]) = Ok [FullAxis 0; FullAxis 1].
Proof. vm_compute. reflexivity. Qed.

Example truncate_example :
  TruncateAxesByRemovingOverlaps [FullAxis 1; MkAxis 0 (Some (MkSub 1 8))] [MkAxis 0 (Some (MkSub 4 4))] =
  Ok (true, [FullAxis 1; MkAxis 0 (Some (MkSub 1 4))]).
Proof. vm_compute. reflexivity. Qed.
End MeshAxes.
