(* ===== verification/NamedShard.v ===== *)
(** * Named shardings

    Models [xla/hlo/ir/named_sharding.h] and [.cc]: how the axes of a mesh shard the
    dimensions of an array. *)
From S2P Require Import Prelude PermUtil Layouts Arrays TileAssign MeshAxes.
#[local] Open Scope Z_scope.

Module NamedShard.
Import Layouts Arrays TileAssign MeshAxes.

(** ** The axes of a dimension, the major one first *)

Record DimensionSharding := MkDimSharding { axes : list AxisRef; is_closed : bool }.

#[export] Instance DimensionSharding_eq_dec : EqDecision DimensionSharding.
Proof. solve_decision. Defined.

(** The accumulator of [std::accumulate] has the type of its initial value, [int]. *)
Fixpoint sharded_size_loop (m : Mesh) (cur : Z) (axes : list AxisRef) : res Z :=
  match axes with
  | [] => Ok cur
  | a :: axes => n ← size_in m a; p ← s64 (cur * n); sharded_size_loop m (to_int p) axes
  end.

Definition getShardedSize (m : Mesh) (d : DimensionSharding) : res Z := sharded_size_loop m 1 (axes d).

Definition Append (m : Mesh) (d other : DimensionSharding) : res DimensionSharding :=
  match axes other with
  | [] => Ok d
  | front :: rest =>
      match last (axes d) with
      | None => Ok (MkDimSharding (axes other) (is_closed d))
      | Some back =>
          '(merged, back') ← Merge m back front;
          Ok (MkDimSharding
               (if (merged : bool) then removelast (axes d) ++ back' :: rest else axes d ++ front :: rest)
               (is_closed d))
      end
  end.

(** The loop over the axes from the major one on: the axes sliced off and those that
    remain, nothing when the size cannot be made. *)
Fixpoint slice_axes (m : Mesh) (slice_size : Z) (sliced axes : list AxisRef) : res (option (list AxisRef * list AxisRef)) :=
  match axes with
  | [] => if slice_size =? 1 then Fail Undefined else Ok None
  | curr :: rest =>
      n ← size_in m curr;
      if slice_size =? n then Ok (Some (sliced ++ [curr], rest))
      else
        exact ← divides n slice_size;
        if (exact : bool) then q ← c_div slice_size n; slice_axes m q (sliced ++ [curr]) rest
        else
          partial ← divides slice_size n;
          if (partial : bool) then
            let p := axis_pre_size curr in
            a ← SubAxisRef (mesh_axis_index curr) (MkSub p slice_size);
            next ← s64 (p * slice_size);
            q ← c_div n slice_size;
            b ← SubAxisRef (mesh_axis_index curr) (MkSub next q);
            Ok (Some (sliced ++ [a], b :: rest))
          else Ok None
  end.

(** The slice, if there is one, and what is left of the sharding. *)
Definition Slice (m : Mesh) (d : DimensionSharding) (slice_size : Z) : res (option DimensionSharding * DimensionSharding) :=
  if slice_size =? 1 then Ok (Some (MkDimSharding [] (is_closed d)), d)
  else
    total ← getShardedSize m d;
    exact ← divides slice_size total;
    if negb exact then Ok (None, d)
    else
      found ← slice_axes m slice_size [] (axes d);
      match found with
      | None => Ok (None, d)
      | Some (sliced, remaining) =>
          Ok (Some (MkDimSharding sliced (is_closed d)), MkDimSharding remaining (is_closed d))
      end.

Fixpoint prefix_loop (m other_mesh : Mesh) (axes other_axes : list AxisRef) : res bool :=
  match axes with
  | [] => Ok true
  | [a] =>
      match other_axes with
      | [] => Fail Undefined
      | b :: _ =>
          if negb (mesh_axis_index a =? mesh_axis_index b) then Ok false
          else if negb (axis_pre_size a =? axis_pre_size b) then Ok false
          else n ← size_in other_mesh b; k ← size_in m a; divides k n
      end
  | a :: rest =>
      match other_axes with
      | [] => Fail Undefined
      | b :: other_rest => if bool_decide (a = b) then prefix_loop m other_mesh rest other_rest else Ok false
      end
  end.

Definition IsPrefixOf (d other : DimensionSharding) (m other_mesh : Mesh) : res bool :=
  same ← DeviceAssignmentEquals m other_mesh;
  if negb same || (length (axes other) <? length (axes d))%nat then Ok false
  else prefix_loop m other_mesh (axes d) (axes other).

(** ** The checks of the constructor *)

(** The axes seen so far, by the axis of the mesh. *)
Definition SeenAxes : Type := gmap Z (list AxisRef).

Definition VerifyAndTrack (m : Mesh) (a : AxisRef) (seen_axes : SeenAxes) : res SeenAxes :=
  ValidateAxis m a;;
  let axes_on_dim := default [] (seen_axes !! mesh_axis_index a) in
  coexist ← coexist_with_all a axes_on_dim;
  guard_res coexist InvalidArgument;;
  Ok (<[mesh_axis_index a := axes_on_dim ++ [a]]> seen_axes).

(** Every axis is tracked and cannot be merged with the one before it. *)
Fixpoint verify_axes (m : Mesh) (prev : option AxisRef) (axes : list AxisRef) (seen_axes : SeenAxes) : res SeenAxes :=
  match axes with
  | [] => Ok seen_axes
  | a :: axes =>
      seen_axes ← VerifyAndTrack m a seen_axes;
      mergeable ← (match prev with Some p => CanMerge p a | None => Ok false end);
      guard_res (negb mergeable) InvalidArgument;;
      verify_axes m (Some a) axes seen_axes
  end.

Fixpoint axes_sorted (axes : list AxisRef) : bool :=
  match axes with
  | a :: (b :: _) as rest => negb (axis_lt b a) && axes_sorted rest
  | _ => true
  end.

Definition VerifySortedAxes (m : Mesh) (axes : list AxisRef) (seen_axes : SeenAxes) : res SeenAxes :=
  guard_res (axes_sorted axes) InvalidArgument;;
  verify_axes m None axes seen_axes.

Fixpoint VerifyDimShardings (m : Mesh) (ds : list DimensionSharding) (seen_axes : SeenAxes) : res SeenAxes :=
  match ds with
  | [] => Ok seen_axes
  | d :: ds => seen_axes ← verify_axes m None (axes d) seen_axes; VerifyDimShardings m ds seen_axes
  end.

Section NamedShardings.
Context {OpMetadata : Type}.

Record NamedSharding := MkNamed {
  mesh : Mesh;
  dim_shardings : list DimensionSharding;
  replicated_axes : list AxisRef;
  unreduced_axes : list AxisRef;
  manual_axes : list AxisRef;
  named_metadata : list OpMetadata;
  sharded_sizes : list Z
}.

Definition VerifyNamedSharding (n : NamedSharding) : res unit :=
  seen_axes ← VerifyDimShardings (mesh n) (dim_shardings n) ∅;
  seen_axes ← VerifySortedAxes (mesh n) (replicated_axes n) seen_axes;
  seen_axes ← VerifySortedAxes (mesh n) (unreduced_axes n) seen_axes;
  VerifySortedAxes (mesh n) (manual_axes n) seen_axes;;
  Ok tt.

Definition make_named (m : Mesh) (ds : list DimensionSharding) (replicated unreduced manual : list AxisRef)
    (metadata : list OpMetadata) : res NamedSharding :=
  let n := MkNamed m ds replicated unreduced manual metadata [] in
  check_ok (VerifyNamedSharding n);;
  sizes ← mapM (getShardedSize m) ds;
  Ok (MkNamed m ds replicated unreduced manual metadata sizes).

Definition GetAllMeshAxes (m : Mesh) : list AxisRef := FullAxis <$> seqZ 0 (num_axes m).

Definition NamedReplicate (metadata : list OpMetadata) : res NamedSharding :=
  make_named EmptyMesh [] [] [] [] metadata.
Definition NamedSingleDevice (device_id : Z) (metadata : list OpMetadata) : res NamedSharding :=
  make_named (MaximalMesh device_id) [] [] [] [] metadata.
Definition NamedUnreduced (m : Mesh) (metadata : list OpMetadata) : res NamedSharding :=
  guard_res (negb (num_axes m =? 0)) CheckFailed;;
  make_named m [] [] (GetAllMeshAxes m) [] metadata.
Definition NamedManual (m : Mesh) (metadata : list OpMetadata) : res NamedSharding :=
  guard_res (negb (num_axes m =? 0)) CheckFailed;;
  make_named m [] [] [] (GetAllMeshAxes m) metadata.

(** ** What a sharding is *)

Definition named_num_dimensions (n : NamedSharding) : Z := Z.of_nat (length (dim_shardings n)).
Definition named_dimension (n : NamedSharding) (dim : Z) : res Z :=
  d ← at_z (dim_shardings n) dim; getShardedSize (mesh n) d.
Definition named_num_devices (n : NamedSharding) : res Z := tile_num_elements (device_assignment (mesh n)).

Definition IsSingleDevice (n : NamedSharding) : res bool := IsMaximal (mesh n).

Fixpoint all_unsharded (m : Mesh) (ds : list DimensionSharding) : res bool :=
  match ds with
  | [] => Ok true
  | d :: ds => res_and (size ← getShardedSize m d; Ok (size =? 1)) (all_unsharded m ds)
  end.

Definition IsReplicated (n : NamedSharding) : res bool :=
  single ← IsSingleDevice n;
  if (single : bool) then Ok false
  else
    res_and (all_unsharded (mesh n) (dim_shardings n))
      (Ok (bool_decide (unreduced_axes n = []) && bool_decide (manual_axes n = []))).

Definition IsManual (n : NamedSharding) : res bool :=
  if bool_decide (manual_axes n = []) then Ok false else ContainsAllMeshAxesInOrder (mesh n) (manual_axes n).
Definition IsUnreduced (n : NamedSharding) : res bool :=
  if bool_decide (unreduced_axes n = []) then Ok false else ContainsAllMeshAxesInOrder (mesh n) (unreduced_axes n).

(** The product of the sizes of the axes. *)
Fixpoint axes_product (m : Mesh) (acc : Z) (axes : list AxisRef) : res Z :=
  match axes with
  | [] => Ok acc
  | a :: axes => n ← size_in m a; acc ← s64 (acc * n); axes_product m acc axes
  end.

Definition HasPartialReplication (n : NamedSharding) : res bool :=
  replicated ← IsReplicated n;
  single ← (if (replicated : bool) then Ok true else IsSingleDevice n);
  if (single : bool) then Ok false
  else if bool_decide (replicated_axes n ≠ []) then Ok true
  else
    used ← accumulate 1 (sharded_sizes n);
    used ← axes_product (mesh n) used (unreduced_axes n);
    used ← axes_product (mesh n) used (manual_axes n);
    total ← named_num_devices n;
    Ok (used <? total).

(** The gaps before the used parts of the axis [i], the size used so far, and the
    references that are left for later axes. *)
Fixpoint gaps_loop (m : Mesh) (i pre : Z) (used : list AxisRef) : res (list AxisRef * Z * list AxisRef) :=
  match used with
  | a :: rest =>
      if mesh_axis_index a =? i then
        gap ← (if axis_pre_size a >? pre then
                 q ← c_div (axis_pre_size a) pre; g ← SubAxisRef i (MkSub pre q); Ok [g]
               else Ok []);
        pre ← (match sub_axis_info a with Some s => next_pre_size s | None => axis_size m i end);
        '(gaps, pre, rest) ← gaps_loop m i pre rest;
        Ok (gap ++ gaps, pre, rest)
      else Ok ([], pre, used)
  | [] => Ok ([], pre, [])
  end.

(** The axes of the mesh from [i] on. *)
Fixpoint implicit_loop (m : Mesh) (count : nat) (i : Z) (used : list AxisRef) : res (list AxisRef) :=
  match count with
  | O => Ok []
  | S count =>
      '(gaps, pre, used) ← gaps_loop m i 1 used;
      n ← axis_size m i;
      tail ← (if pre <? n then
                if pre =? 1 then Ok [FullAxis i]
                else q ← c_div n pre; g ← SubAxisRef i (MkSub pre q); Ok [g]
              else Ok []);
      rest ← implicit_loop m count (i + 1) used;
      Ok (gaps ++ tail ++ rest)
  end.

Definition used_axes (n : NamedSharding) : list AxisRef :=
  replicated_axes n ++ manual_axes n ++ unreduced_axes n ++ (dim_shardings n ≫= axes).

Definition GetImplicitlyReplicatedAxes (n : NamedSharding) : res (list AxisRef) :=
  implicit_loop (mesh n) (length (axes_names (mesh n))) 0 (merge_sort axis_le (used_axes n)).

(** [operator==]; the explicitly replicated axes do not count. *)
Definition named_equal (n other : NamedSharding) : res bool :=
  r ← IsReplicated n;
  both ← (if (r : bool) then IsReplicated other else Ok false);
  if (both : bool) then Ok true
  else
    same ← DeviceAssignmentEquals (mesh n) (mesh other);
    Ok ((same : bool) && bool_decide (dim_shardings n = dim_shardings other) &&
        bool_decide (unreduced_axes n = unreduced_axes other) && bool_decide (manual_axes n = manual_axes other)).

(** ** Protos *)

Record DimensionShardingProto := MkDimProto { proto_dim_axes : list AxisRefProto; proto_is_closed : bool }.
Record NamedShardingProto := MkNamedProto {
  proto_mesh : MeshProto;
  proto_dim_shardings : list DimensionShardingProto;
  proto_replicated_axes : list AxisRefProto;
  proto_unreduced_axes : list AxisRefProto;
  proto_manual_axes : list AxisRefProto;
  proto_named_metadata : list OpMetadata
}.

Definition DimensionShardingToProto (d : DimensionSharding) : DimensionShardingProto :=
  MkDimProto (AxisRefToProto <$> axes d) (is_closed d).
Definition DimensionShardingFromProto (proto : DimensionShardingProto) : res DimensionSharding :=
  l ← mapM AxisRefFromProto (proto_dim_axes proto); Ok (MkDimSharding l (proto_is_closed proto)).

Definition NamedToProto (n : NamedSharding) : res NamedShardingProto :=
  m ← MeshToProto (mesh n);
  Ok (MkNamedProto m (DimensionShardingToProto <$> dim_shardings n) (AxisRefToProto <$> replicated_axes n)
        (AxisRefToProto <$> unreduced_axes n) (AxisRefToProto <$> manual_axes n) (named_metadata n)).

Definition NamedFromProto (proto : NamedShardingProto) : res NamedSharding :=
  ds ← mapM DimensionShardingFromProto (proto_dim_shardings proto);
  replicated ← mapM AxisRefFromProto (proto_replicated_axes proto);
  unreduced ← mapM AxisRefFromProto (proto_unreduced_axes proto);
  manual ← mapM AxisRefFromProto (proto_manual_axes proto);
  m ← MeshFromProto (proto_mesh proto);
  make_named m ds replicated unreduced manual (proto_named_metadata proto).
End NamedShardings.
#[global] Arguments NamedSharding : clear implicits.
#[global] Arguments NamedShardingProto : clear implicits.
End NamedShard.
