(* ===== verification/MeshCorrect.v ===== *)
(** * Meshes and their axes: the properties

    A reference to an axis, or to a part of it, selects a digit of the coordinates of a
    device.  Merging, slicing and truncating lists of references are described by these
    digits. *)
From Stdlib Require Import Znumtheory.
From stdpp Require Import strings.
From S2P Require Import Prelude PermUtil Radix Layouts IndexProofs Arrays ArrayProofs TileAssign TileValue TileCanonical TileRefine MeshAxes NamedShard.
#[local] Open Scope Z_scope.

Module MeshCorrect.
Import Radix Layouts IndexProofs Arrays ArrayProofs TileAssign TileRefine MeshAxes NamedShard.

(** ** What a reference selects *)

(** The size of the axis of the mesh. *)
Definition axis_total (ns : list Z) (a : AxisRef) : Z := ns !!! Z.to_nat (mesh_axis_index a).

Definition part_size (ns : list Z) (a : AxisRef) : Z :=
  match sub_axis_info a with Some s => size s | None => axis_total ns a end.

(** The digit of the coordinates [xs], the major parts of an axis first. *)
Definition digit (ns : list Z) (a : AxisRef) (xs : list Z) : Z :=
  (xs !!! Z.to_nat (mesh_axis_index a) / (axis_total ns a / (axis_pre_size a * part_size ns a))) mod part_size ns a.

(** The place of the coordinates among the parts that a list of references makes. *)
Definition position (ns : list Z) (axes : list AxisRef) (xs : list Z) : Z :=
  lin (part_size ns <$> axes) ((λ a, digit ns a xs) <$> axes).

Definition total_size (ns : list Z) (axes : list AxisRef) : Z := prod (part_size ns <$> axes).

(** What the constructors of a reference check. *)
Definition axis_made (a : AxisRef) : Prop :=
  0 ≤ mesh_axis_index a ∧ match sub_axis_info a with Some s => 0 < pre_size s ∧ 1 < size s | None => True end.

Record axis_ok (ns : list Z) (a : AxisRef) : Prop := {
  ax_index : 0 ≤ mesh_axis_index a < Z.of_nat (length ns);
  ax_sub : match sub_axis_info a with Some s => 0 < pre_size s ∧ 1 < size s < axis_total ns a | None => True end;
  ax_divides : (axis_pre_size a * part_size ns a | axis_total ns a)
}.

Record good_mesh (m : Mesh) (a : Array Z) : Prop := {
  gm_contents : contents (device_assignment m) a;
  gm_names : length (axes_names m) = length (sizes_ a)
}.

(** The references take no digit twice. *)
Definition apart (a b : AxisRef) : Prop :=
  mesh_axis_index a ≠ mesh_axis_index b ∨
  match sub_axis_info a, sub_axis_info b with
  | Some s, Some t => pre_size s * size s ≤ pre_size t ∨ pre_size t * size t ≤ pre_size s
  | _, _ => False
  end.

Lemma apart_sym a b : apart a b → apart b a.
Proof. unfold apart. destruct (sub_axis_info a), (sub_axis_info b); intros [H | H]; try (by left); try done; right; lia. Qed.

Section Mesh.
Context (m : Mesh) (arr : Array Z) (Hm : good_mesh m arr).
Notation ns := (sizes_ arr).
Implicit Types a b : AxisRef.

Lemma mesh_axis_size a : axis_ok ns a → axis_size m (mesh_axis_index a) = Ok (axis_total ns a).
Proof.
  intros H. destruct (tile_reads_contents _ _ (gm_contents _ _ Hm)) as (_ & _ & _ & E & _).
  unfold axis_size. rewrite E. unfold dim. apply at_z_total. apply (ax_index _ _ H).
Qed.

Lemma mesh_size_in a : axis_ok ns a → size_in m a = Ok (part_size ns a).
Proof. intros H. unfold size_in, part_size. destruct (sub_axis_info a); [done |]. by apply mesh_axis_size. Qed.

Lemma axis_total_bounds a : axis_ok ns a → 0 < axis_total ns a ≤ int64_max.
Proof.
  intros H. pose proof (contents_ok _ _ (gm_contents _ _ Hm)) as Ha. pose proof (a_sizes _ Ha) as Hp.
  destruct (lookup_lt_is_Some_2 ns (Z.to_nat (mesh_axis_index a))) as [n En]; [pose proof (ax_index _ _ H); lia |].
  unfold axis_total. rewrite (list_lookup_total_correct _ _ _ En). split; [by eapply Forall_lookup_1 in Hp |].
  pose proof (a_max _ Ha) as Hx. apply take_drop_middle in En. rewrite <- En in Hp, Hx.
  apply Forall_app in Hp as [H1 [H2 H3]%Forall_cons]. rewrite prod_app, prod_cons in Hx.
  apply prod_pos in H1, H3. pose proof (Z.mul_pos_pos _ _ H1 H3). set (p := prod _) in *. set (q := prod _) in *. clearbody p q. nia.
Qed.

Lemma part_bounds a : axis_ok ns a →
  0 < axis_pre_size a ∧ 0 < part_size ns a ∧ axis_pre_size a * part_size ns a ≤ axis_total ns a.
Proof.
  intros H. pose proof (axis_total_bounds a H). pose proof (ax_sub _ _ H) as Hs. pose proof (ax_divides _ _ H) as Hd.
  apply Z.divide_pos_le in Hd; [| lia]. unfold axis_pre_size, part_size in *. destruct (sub_axis_info a); lia.
Qed.

(** Splitting a digit in two. *)
Lemma digit_arith x n p s t :
  0 < p → 0 < s → 0 < t → 0 < n → (p * (s * t) | n) →
  (x / (n / (p * (s * t)))) mod (s * t) = (x / (n / (p * s))) mod s * t + (x / (n / (p * s * t))) mod t.
Proof.
  intros Hp Hs Ht Hn [u ->]. assert (0 < u) by nia. pose proof (Z.mul_pos_pos p s Hp Hs).
  replace (u * (p * (s * t)) / (p * (s * t))) with u by (symmetry; apply Z.div_mul; nia).
  replace (u * (p * (s * t)) / (p * s)) with (u * t) by (apply Z.div_unique_exact; [lia | ring]).
  replace (u * (p * (s * t)) / (p * s * t)) with u by (apply Z.div_unique_exact; [nia | ring]).
  rewrite <- Z.div_div by lia. rewrite (Z.mul_comm s t), Z.rem_mul_r by lia. ring.
Qed.

Lemma position_app axes axes' xs :
  position ns (axes ++ axes') xs = position ns axes xs * total_size ns axes' + position ns axes' xs.
Proof. unfold position, total_size. rewrite !fmap_app. apply lin_app; by rewrite !length_fmap. Qed.

Lemma total_size_app axes axes' : total_size ns (axes ++ axes') = total_size ns axes * total_size ns axes'.
Proof. unfold total_size. by rewrite fmap_app, prod_app. Qed.

Lemma position_one a xs : position ns [a] xs = digit ns a xs.
Proof. unfold position, lin. cbn. lia. Qed.

Lemma total_size_one a : total_size ns [a] = part_size ns a.
Proof. unfold total_size. cbn [fmap list_fmap]. apply prod_singleton. Qed.

(** [c] is [a] with [b] behind it. *)
Lemma position_split a b c xs :
  axis_ok ns c → mesh_axis_index a = mesh_axis_index c → mesh_axis_index b = mesh_axis_index c →
  axis_pre_size a = axis_pre_size c → axis_pre_size b = axis_pre_size a * part_size ns a →
  part_size ns c = part_size ns a * part_size ns b → 0 < part_size ns a →
  position ns [a; b] xs = position ns [c] xs ∧ total_size ns [a; b] = total_size ns [c].
Proof.
  intros Hc Ea Eb Epa Epb Es Ha. destruct (part_bounds c Hc) as (P1 & P2 & P3). pose proof (axis_total_bounds c Hc).
  pose proof (ax_divides _ _ Hc) as Hd. change [a; b] with ([a] ++ [b]). rewrite position_app, total_size_app, !position_one, !total_size_one.
  split; [| done]. unfold digit. assert (En : axis_total ns a = axis_total ns c ∧ axis_total ns b = axis_total ns c) by (unfold axis_total; by rewrite Ea, Eb).
  destruct En as [-> ->]. rewrite Ea, Eb, Epb, Epa, Es in *. symmetry. apply digit_arith; nia || done.
Qed.
(** ** Comparing references *)

Lemma next_pre_ok a s : axis_ok ns a → sub_axis_info a = Some s → next_pre_size s = Ok (pre_size s * size s).
Proof.
  intros H E. pose proof (part_bounds a H) as Hb. pose proof (axis_total_bounds a H) as Ht. unfold axis_pre_size, part_size in Hb. rewrite E in Hb.
  apply s64_in. pose proof (ax_sub _ _ H) as Hs. rewrite E in Hs. int_nia.
Qed.

#[local] Instance divide_dec (a b : Z) : Decision (a | b) := Zdivide_dec a b.

Lemma eqb_bool_decide (x y : Z) P `{!Decision P} : (x = y ↔ P) → (x =? y) = bool_decide P.
Proof. intros H. destruct (Z.eqb_spec x y); symmetry; [apply bool_decide_eq_true_2 | apply bool_decide_eq_false_2]; tauto. Qed.

Lemma divides_pos (a b : Z) : 0 < a → 0 ≤ b ≤ int64_max → divides a b = Ok (bool_decide (a | b)).
Proof.
  intros Ha Hb. unfold divides. rewrite c_mod_pos by lia. cbn [mbind res_bind]. f_equal.
  apply eqb_bool_decide. apply Z.mod_divide. lia.
Qed.

Lemma Overlaps_spec a b : axis_ok ns a → axis_ok ns b → ∃ r, Overlaps a b = Ok r ∧ (r = false ↔ apart a b).
Proof.
  intros Ha Hb. unfold Overlaps, apart. destruct (Z.eqb_spec (mesh_axis_index a) (mesh_axis_index b)) as [E | E]; cbn [negb].
  2: { exists false. split; [done |]. split; [by left | done]. }
  destruct (sub_axis_info a) as [s |] eqn:Es; [destruct (sub_axis_info b) as [t |] eqn:Et |].
  - rewrite (next_pre_ok b t) by done. cbn [mbind res_bind]. rewrite (next_pre_ok a s) by done. cbn [mbind res_bind].
    destruct (Z.ltb_spec (pre_size s) (pre_size t * size t)); eexists; (split; [done |]); [rewrite Z.ltb_ge |]; (split; [intros; right; lia |]); intros [? | ?]; done || lia.
  - exists true. split; [done |]. split; [done | by intros []].
  - exists true. split; [done |]. split; [done | by intros []].
Qed.

(** [b] starts where [a] ends. *)
Definition follows a b : Prop :=
  mesh_axis_index a = mesh_axis_index b ∧
  match sub_axis_info a, sub_axis_info b with
  | Some s, Some t => pre_size s * size s = pre_size t
  | _, _ => False
  end.

#[local] Instance follows_dec a b : Decision (follows a b).
Proof. unfold follows. apply and_dec; [apply _ |]. destruct (sub_axis_info a), (sub_axis_info b); apply _. Defined.

Lemma CanMerge_spec a b : axis_ok ns a → CanMerge a b = Ok (bool_decide (follows a b)).
Proof.
  intros Ha. unfold CanMerge. destruct (Z.eqb_spec (mesh_axis_index a) (mesh_axis_index b)) as [E | E]; cbn [negb].
  2: { rewrite bool_decide_eq_false_2; [done |]. by intros []. }
  destruct (sub_axis_info a) as [s |] eqn:Es; [destruct (sub_axis_info b) as [t |] eqn:Et |].
  2,3: (rewrite bool_decide_eq_false_2; [done |]; unfold follows; rewrite Es, ?Et; by intros []).
  rewrite (next_pre_ok a s) by done. cbn [mbind res_bind]. f_equal. apply eqb_bool_decide. unfold follows. rewrite Es, Et. naive_solver.
Qed.

Lemma axis_merge_spec a b :
  axis_ok ns a → axis_ok ns b → follows a b →
  ∃ c, Merge m a b = Ok (true, c) ∧ axis_ok ns c ∧ (∀ p, follows p c → follows p a) ∧
    (∀ d, axis_ok ns d → apart a d → apart b d → apart c d) ∧
    ∀ xs, position ns [a; b] xs = position ns [c] xs ∧ total_size ns [a; b] = total_size ns [c].
Proof.
  intros Ha Hb Hf. unfold Merge. rewrite CanMerge_spec by done. rewrite bool_decide_eq_true_2 by done. cbn [mbind res_bind].
  destruct Hf as [E Hf]. destruct (sub_axis_info a) as [s |] eqn:Es; [| done]. destruct (sub_axis_info b) as [t |] eqn:Et; [| done].
  pose proof (ax_sub _ _ Ha) as Hsa. pose proof (ax_sub _ _ Hb) as Hsb. rewrite Es in Hsa. rewrite Et in Hsb.
  pose proof (part_bounds b Hb) as (_ & _ & Hle). pose proof (axis_total_bounds a Ha). pose proof (ax_divides _ _ Hb) as Hd.
  assert (En : axis_total ns b = axis_total ns a) by (unfold axis_total; by rewrite E). rewrite En in *.
  unfold axis_pre_size, part_size in Hle, Hd. rewrite Et, <- Hf in Hle, Hd.
  assert (0 < size s * size t) by nia. assert (size s * size t ≤ axis_total ns a) by nia.
  rewrite s64_in by int_lia. cbn [mbind res_bind]. rewrite mesh_axis_size by done. cbn [mbind res_bind]. eexists. split; [done |].
  match goal with |- axis_ok ns ?u ∧ _ => set (c := u) end.
  assert (Hc : axis_ok ns c ∧ axis_pre_size c = pre_size s ∧ part_size ns c = size s * size t).
  { subst c. destruct (Z.eqb_spec (size s * size t) (axis_total ns a)) as [Eq | Ne].
    - assert (pre_size s = 1) by nia. split; [constructor; cbn; [apply (ax_index _ _ Ha) | done |] |]; unfold axis_pre_size, part_size, axis_total; cbn.
      + rewrite Z.mul_1_l. done.
      + split; [done | by rewrite Eq].
    - split; [constructor; cbn; [apply (ax_index _ _ Ha) | |] |]; unfold axis_pre_size, part_size, axis_total in *; cbn; [lia | | done].
      by rewrite Z.mul_assoc. }
  destruct Hc as (Hc & Ep & Eps). split; [done |]. split; [| split].
  - intros p [Ei Hp]. split; [done |]. rewrite Es. unfold axis_pre_size in Ep.
    destruct (sub_axis_info p); [| done]. destruct (sub_axis_info c); [| done]. congruence.
  - intros d Hdk Ad Bd. unfold apart in *. rewrite Es in Ad. rewrite Et in Bd. cbn [mesh_axis_index] in *.
    destruct (decide (mesh_axis_index a = mesh_axis_index d)) as [Ed | Nd]; [right | by left].
    destruct Ad as [? | Ad], Bd as [? | Bd]; try (exfalso; congruence). destruct (sub_axis_info d) as [u |] eqn:Eu; [| done].
    pose proof (ax_sub _ _ Hdk) as Hu. rewrite Eu in Hu. pose proof (part_bounds d Hdk) as (_ & _ & Hdn). pose proof (part_bounds c Hc) as (_ & _ & Hcn).
    assert (axis_total ns d = axis_total ns a) by (unfold axis_total; by rewrite Ed).
    unfold axis_pre_size, part_size in Hdn. rewrite Eu in Hdn. subst c. cbn. destruct (Z.eqb_spec (size s * size t) (axis_total ns a)) as [Eq | Ne]; cbn.
    + assert (pre_size s = 1) by nia. nia.
    + nia.
  - intros xs. apply position_split; try done.
    + by rewrite Ep; unfold axis_pre_size; rewrite Es.
    + unfold axis_pre_size, part_size. by rewrite Es, Et.
    + rewrite Eps. unfold part_size. by rewrite Es, Et.
    + apply (part_bounds a Ha).
Qed.
(** ** Merging a list *)

Lemma merge_axes_loop_spec final current axes :
  axis_ok ns current → Forall (axis_ok ns) axes → Forall (apart current) axes → ForallOrdPairs apart axes →
  ∃ h out, merge_axes_loop m final current axes = Ok (final ++ h :: out) ∧ Forall (axis_ok ns) (h :: out) ∧
    (∀ p, follows p h → follows p current) ∧ mergeable_neighbors (h :: out) = Ok false ∧
    ∀ xs, position ns (h :: out) xs = position ns (current :: axes) xs ∧ total_size ns (h :: out) = total_size ns (current :: axes).
Proof.
  revert final current. induction axes as [| next axes IH]; intros final current Hc Hok Hap Hps; cbn [merge_axes_loop].
  { exists current, []. split; [done |]. split; [by apply Forall_singleton |]. done. }
  apply Forall_cons in Hok as [Hn Hok]. apply Forall_cons in Hap as [Hcn Hap]. inversion Hps as [| ? ? Hna Hps' E1]; subst.
  destruct (Overlaps_spec current next Hc Hn) as (r & -> & Hr). rewrite (proj2 Hr Hcn). cbn [mbind res_bind negb guard_res].
  rewrite CanMerge_spec by done. cbn [mbind res_bind]. destruct (bool_decide_reflect (follows current next)) as [Hf | Hf].
  - destruct (axis_merge_spec current next Hc Hn Hf) as (c & -> & Hck & Hpre & Hapart & Hpos). cbn [mbind res_bind guard_res].
    destruct (IH final c Hck Hok) as (h & out & E & Hout & Hh & Hm' & Hp); [| done |].
    { apply Forall_forall. intros d Hd. rewrite !Forall_forall in *. auto. }
    exists h, out. rewrite E. split; [done |]. split; [done |]. split; [naive_solver |]. split; [done |]. intros xs.
    destruct (Hp xs) as [-> ->]. destruct (Hpos xs) as [Ep Et].
    change (c :: axes) with ([c] ++ axes). change (current :: next :: axes) with ([current; next] ++ axes).
    by rewrite !position_app, !total_size_app, Ep, Et.
  - destruct (IH (final ++ [current]) next Hn Hok) as (h & out & E & Hout & Hh & Hm' & Hp); [done | done |].
    exists current, (h :: out). rewrite E, <- app_assoc. split; [done |]. split; [by constructor |]. split; [done |]. split.
    + cbn [mergeable_neighbors]. rewrite CanMerge_spec by done. rewrite bool_decide_eq_false_2 by naive_solver. done.
    + intros xs. destruct (Hp xs) as [Ep Et]. change (current :: h :: out) with ([current] ++ (h :: out)).
      change (current :: next :: axes) with ([current] ++ (next :: axes)). by rewrite !position_app, !total_size_app, Ep, Et.
Qed.

Lemma coexist_apart a b : axis_ok ns a → axis_ok ns b → CanCoexistWithoutOverlap a b = Ok true → apart a b.
Proof.
  intros Ha Hb. unfold CanCoexistWithoutOverlap, apart. destruct (Z.eqb_spec (mesh_axis_index a) (mesh_axis_index b)); [| by left]. cbn [negb].
  destruct (sub_axis_info a) as [s |] eqn:Es; [destruct (sub_axis_info b) as [t |] eqn:Et |]; try done.
  rewrite (next_pre_ok a s), (next_pre_ok b t) by done. cbn [mbind res_bind]. right.
  destruct (Z.gtb_spec (pre_size s * size s) (pre_size t)), (Z.gtb_spec (pre_size t * size t) (pre_size s)); cbn [andb] in *; done || lia.
Qed.

Lemma coexist_all_apart axes :
  Forall (axis_ok ns) axes → AxesCanCoexistWithoutOverlap axes = Ok true → ForallOrdPairs apart axes.
Proof.
  induction 1 as [| a axes Ha Hok IH]; cbn [AxesCanCoexistWithoutOverlap]; [constructor |]. unfold res_and at 1. intros E.
  apply bind_ok in E as ([|] & E1 & E2); [| done]. constructor; [| by apply IH]. clear IH E2.
  induction Hok as [| b axes Hb _ IH]; constructor; cbn [coexist_with_all] in E1; unfold res_and in E1; apply bind_ok in E1 as ([|] & E1 & E2); try done; [by apply coexist_apart | by apply IH].
Qed.

Lemma validate_axis_ok a : axis_made a → ValidateAxis m a = Ok () → axis_ok ns a.
Proof.
  intros [Hi Hs] E. unfold ValidateAxis in E. apply bind_ok in E as ([] & Hlt%guard_res_ok & E).
  unfold num_axes in Hlt. rewrite (gm_names _ _ Hm) in Hlt. apply Z.ltb_lt in Hlt.
  destruct (sub_axis_info a) as [s |] eqn:Es.
  2: { constructor; [lia | by rewrite Es |]. unfold axis_pre_size, part_size. rewrite Es, Z.mul_1_l. done. }
  destruct (tile_reads_contents _ _ (gm_contents _ _ Hm)) as (_ & _ & _ & Ed & _).
  unfold axis_size, dim in *. rewrite Ed in E. rewrite at_z_total in E by lia. cbn [mbind res_bind] in E. fold (axis_total ns a) in E.
  unfold next_pre_size in E. apply bind_ok in E as (n & [-> Hn]%s64_ok & E). apply bind_ok in E as (x & Hx & E).
  apply bind_ok in E as ([] & ->%guard_res_ok & Hlt2%guard_res_ok). apply Z.ltb_lt in Hlt2.
  pose proof (a_max _ (contents_ok _ _ (gm_contents _ _ Hm))) as Hmax. pose proof (a_sizes _ (contents_ok _ _ (gm_contents _ _ Hm))) as Hpos.
  assert (Ht : axis_ok ns (FullAxis (mesh_axis_index a))).
  { constructor; cbn; [lia | done |]. unfold axis_pre_size, part_size, axis_total. cbn. by rewrite Z.mul_1_l. }
  pose proof (axis_total_bounds _ Ht) as Hb. unfold axis_total in Hb. cbn [FullAxis mesh_axis_index] in Hb. fold (axis_total ns a) in Hb.
  rewrite divides_pos in Hx by (lia || nia). injection Hx as Hx. apply bool_decide_eq_true in Hx.
  constructor; [lia | |]; unfold axis_pre_size, part_size; rewrite Es; [lia | done].
Qed.

Lemma validate_all_ok axes : Forall axis_made axes → validate_all m axes = Ok () → Forall (axis_ok ns) axes.
Proof.
  induction 1 as [| a axes Ha _ IH]; cbn [validate_all]; intros E; constructor; apply bind_ok in E as ([] & E1 & E2); [by apply validate_axis_ok | by apply IH].
Qed.

(** C30: merging a list of references that validation accepts succeeds, leaves nothing to
    merge, and keeps the position of every device. *)
Theorem MergeAxes_keeps axes :
  Forall axis_made axes → ValidateSpanOfAxes m axes true = Ok () →
  ∃ merged, MergeAxes m axes = Ok merged ∧ mergeable_neighbors merged = Ok false ∧ Forall (axis_ok ns) merged ∧
    total_size ns merged = total_size ns axes ∧ ∀ xs, position ns merged xs = position ns axes xs.
Proof.
  intros Hmade E. unfold ValidateSpanOfAxes in E. apply bind_ok in E as ([] & E1 & E). apply bind_ok in E as (x & E2 & E).
  apply bind_ok in E as ([] & ->%guard_res_ok & _). apply validate_all_ok in E1; [| done]. apply coexist_all_apart in E2; [| done].
  destruct axes as [| a axes]; [by exists [] |]. apply Forall_cons in E1 as [Ha Hok]. inversion E2 as [| ? ? H1 H2 Ex]; subst.
  destruct (merge_axes_loop_spec [] a axes Ha Hok) as (h & out & E' & Hout & _ & Hn & Hp); [done | done |].
  exists (h :: out). split; [done |]. split; [done |]. split; [done |]. split; [apply (Hp []) | intros xs; apply (Hp xs)].
Qed.

(** ** Prefixes *)

(** [q] is a prefix of [a]. *)
Definition prefix_of (q a : AxisRef) : Prop :=
  axis_ok ns q ∧ mesh_axis_index q = mesh_axis_index a ∧ axis_pre_size q = axis_pre_size a ∧ (part_size ns q | part_size ns a).

Lemma apart_bounds a b :
  axis_ok ns a → axis_ok ns b → mesh_axis_index a = mesh_axis_index b → 1 < part_size ns a → 1 < part_size ns b →
  apart a b ↔ axis_pre_size a * part_size ns a ≤ axis_pre_size b ∨ axis_pre_size b * part_size ns b ≤ axis_pre_size a.
Proof.
  intros Ha Hb E Pa Pb. pose proof (part_bounds a Ha) as (A1 & A2 & A3). pose proof (part_bounds b Hb) as (B1 & B2 & B3).
  assert (Et : axis_total ns a = axis_total ns b) by (unfold axis_total; by rewrite E). rewrite Et in *.
  unfold apart, axis_pre_size, part_size in *. destruct (sub_axis_info a), (sub_axis_info b); (split; [intros [? | ?]; done || lia | intros H; try (right; lia)]).
  all: exfalso; nia.
Qed.
Lemma CanSubAxesCoexist_spec p P n N :
  0 < p ≤ int64_max → 0 < P ≤ int64_max → 0 < n ≤ int64_max → 0 < N ≤ int64_max →
  CanSubAxesCoexist p P n N =
  Ok (if n >? P then bool_decide (P | n) && (bool_decide (p | P) && bool_decide (n | N)) else bool_decide (n | P)).
Proof.
  intros Hp HP Hn HN. unfold CanSubAxesCoexist, res_and. rewrite !divides_pos by lia. cbn [mbind res_bind].
  destruct (n >? P); [| done]. by destruct (bool_decide (P | n)), (bool_decide (p | P)).
Qed.

Lemma CanCoexist_total a b : axis_ok ns a → axis_ok ns b → ∃ r, CanCoexist a b = Ok r ∧
  (r = true → mesh_axis_index a = mesh_axis_index b → ¬ apart a b → axis_pre_size a < axis_pre_size b →
   (axis_pre_size a | axis_pre_size b) ∧ (axis_pre_size b | axis_pre_size a * part_size ns a)).
Proof.
  intros Ha Hb. unfold CanCoexist. destruct (Z.eqb_spec (mesh_axis_index a) (mesh_axis_index b)) as [E | E]; cbn [negb]; [| by exists true].
  pose proof (part_bounds a Ha) as (A1 & A2 & A3). pose proof (part_bounds b Hb) as (B1 & B2 & B3).
  pose proof (axis_total_bounds a Ha). assert (Et : axis_total ns b = axis_total ns a) by (unfold axis_total; by rewrite E).
  pose proof (ax_divides _ _ Hb) as Hd. rewrite Et in *. unfold apart, axis_pre_size, part_size in *.
  destruct (sub_axis_info a) as [s |] eqn:Es; [destruct (sub_axis_info b) as [t |] eqn:Etb |].
  - rewrite (next_pre_ok a s), (next_pre_ok b t) by done. cbn [mbind res_bind].
    rewrite CanSubAxesCoexist_spec by nia. eexists. split; [done |]. intros Hr _ Hno Hlt.
    assert (pre_size t < pre_size s * size s) by (apply Z.nle_gt; intros ?; apply Hno; right; lia).
    pose proof (ax_sub _ _ Hb) as Hsb. rewrite Etb in Hsb. assert (pre_size t < pre_size t * size t) by nia.
    rewrite (proj2 (Z.gtb_lt _ _)) in Hr by lia.
    rewrite !andb_true_iff, !bool_decide_eq_true in Hr. destruct Hr as (D1 & D2 & D3).
    rewrite Z.min_l, Z.max_r in D2 by lia. split; [done |]. rewrite Z.max_r in D1 by lia.
    destruct (Z.min_spec (pre_size s * size s) (pre_size t * size t)) as [[? Em] | [? Em]]; rewrite Em in *; [done |].
    rewrite Z.max_l in D3 by lia. by etrans.
  - exists true. split; [done |]. intros _ _ _ Hlt. lia.
  - exists true. split; [done |]. intros _ _ _ _. split; [apply Z.divide_1_l |]. rewrite Z.mul_1_l.
    etrans; [| exact Hd]. apply Z.divide_factor_l.
Qed.

Lemma overlap_by q b : axis_ok ns q → axis_ok ns b → mesh_axis_index q = mesh_axis_index b →
  (∀ s t, sub_axis_info q = Some s → sub_axis_info b = Some t → pre_size s < pre_size t * size t ∧ pre_size t < pre_size s * size s) →
  Overlaps q b = Ok true.
Proof.
  intros Hq Hb E H. destruct (Overlaps_spec q b Hq Hb) as ([|] & -> & Hr); [done |]. exfalso.
  destruct (proj1 Hr eq_refl) as [? | Hap]; [done |]. destruct (sub_axis_info q) as [s |]; [| done]. destruct (sub_axis_info b) as [t |]; [| done].
  specialize (H s t eq_refl eq_refl). lia.
Qed.

Lemma overlapping a b s t :
  ¬ apart a b → sub_axis_info a = Some s → sub_axis_info b = Some t →
  mesh_axis_index a = mesh_axis_index b ∧ pre_size s < pre_size t * size t ∧ pre_size t < pre_size s * size s.
Proof.
  unfold apart. intros H Ea Eb. rewrite Ea, Eb in H. split; [| lia].
  destruct (decide (mesh_axis_index a = mesh_axis_index b)); [done | tauto].
Qed.

(** C31: the longest prefix of a reference that does not overlap with another one is found,
    if the two can coexist and any prefix is left. *)
Theorem GetPrefixWithoutOverlap_longest a other :
  axis_ok ns a → axis_ok ns other →
  ∃ r, GetPrefixWithoutOverlap a other = Ok r ∧
    match r with
    | Some p => prefix_of p a ∧ Overlaps p other = Ok false ∧
                ∀ q, prefix_of q a → part_size ns p < part_size ns q → Overlaps q other = Ok true
    | None => CanCoexist a other = Ok false ∨ ∀ q, prefix_of q a → Overlaps q other = Ok true
    end.
Proof.
  intros Ha Ho. unfold GetPrefixWithoutOverlap. destruct (CanCoexist_total a other Ha Ho) as (can & Ec & Hcan). rewrite Ec. cbn [mbind res_bind].
  destruct can; cbn [negb]; [| by exists None; auto].
  destruct (Overlaps_spec a other Ha Ho) as (r & Er & Hr). rewrite Er. cbn [mbind res_bind].
  destruct r; cbn [negb].
  2: { eexists. split; [done |]. split; [done |]. split; [done |]. intros q (_ & _ & _ & Hd) Hlt.
       apply Z.divide_pos_le in Hd; [lia | by apply part_bounds]. }
  assert (Hno : ¬ apart a other) by (intros H; by apply Hr in H).
  assert (Ei : mesh_axis_index a = mesh_axis_index other) by (destruct (decide (mesh_axis_index a = mesh_axis_index other)); [done |]; by destruct Hno; left).
  pose proof (part_bounds a Ha) as (A1 & A2 & A3). pose proof (part_bounds other Ho) as (B1 & B2 & B3). pose proof (axis_total_bounds a Ha).
  assert (Et : axis_total ns other = axis_total ns a) by (unfold axis_total; by rewrite Ei).
  destruct (Z.geb_spec (axis_pre_size a) (axis_pre_size other)) as [Hge | Hlt].
  - exists None. split; [done |]. right. intros q (Hq & Eq & Ep & _). apply overlap_by; [done | done | congruence |]. intros s t Es Eo.
    pose proof (ax_sub _ _ Hq) as Hsq. pose proof (ax_sub _ _ Ho) as Hso. rewrite Es in Hsq. rewrite Eo in Hso.
    unfold axis_pre_size in Ep, Hge. rewrite Es in Ep. rewrite Eo in Hge. destruct (sub_axis_info a) as [u |] eqn:Ea; [| split; nia].
    destruct (overlapping a other u t Hno Ea Eo) as (_ & H1 & H2). split; nia.
  - destruct (Hcan eq_refl Ei Hno Hlt) as [[k Hk] [j Hj]].
    rewrite c_div_pos by (rewrite Et in *; nia). cbn [mbind res_bind]. rewrite Hk, Z.div_mul by lia.
    assert (1 < k) by nia. unfold SubAxisRef. cbn [pre_size size]. rewrite (proj2 (Z.ltb_lt 0 _)), (proj2 (Z.ltb_lt 1 _)) by lia. cbn [mbind res_bind guard_res].
    set (p := MkAxis (mesh_axis_index a) (Some (MkSub (axis_pre_size a) k))). exists (Some p). split; [done |].
    destruct (sub_axis_info other) as [t |] eqn:Eo; [| unfold axis_pre_size in Hlt, A1; rewrite Eo in Hlt; lia].
    assert (Epo : axis_pre_size other = pre_size t) by (unfold axis_pre_size; by rewrite Eo). rewrite Epo in *.
    pose proof (ax_sub _ _ Ho) as Hso. rewrite Eo, Et in Hso. pose proof (ax_divides _ _ Ho) as Hd. rewrite Et, Epo in Hd.
    assert (Hps : part_size ns other = size t) by (unfold part_size; by rewrite Eo). rewrite Hps, Et in *.
    assert (Hp : axis_ok ns p).
    { constructor; cbn; [apply (ax_index _ _ Ha) | unfold axis_total in *; cbn; nia |].
      change (axis_pre_size a * k | axis_total ns a). rewrite Z.mul_comm, <- Hk. etrans; [| exact Hd]. apply Z.divide_factor_l. }
    split; [| split].
    + split; [done |]. split; [done |]. split; [done |]. exists j. unfold part_size at 2. cbn. nia.
    + destruct (Overlaps_spec p other Hp Ho) as (r & -> & Hrp). f_equal. apply Hrp. right. rewrite Eo. cbn. lia.
    + intros q (Hq & Eq & Ep & _) Hl. apply overlap_by; [done | done | congruence |]. intros s t' Es [= <-]%(eq_trans (eq_sym Eo)).
      unfold axis_pre_size in Ep at 1. unfold part_size in Hl. rewrite Es in Ep, Hl. cbn in Hl. rewrite Ep. nia.
Qed.
(** ** Slices *)

Lemma total_size_pos axes : Forall (axis_ok ns) axes → 0 < total_size ns axes.
Proof. intros H. apply prod_pos. apply Forall_fmap. eapply Forall_impl; [exact H |]. intros a Ha. by apply part_bounds. Qed.

Lemma sharded_size_loop_spec cur axes :
  Forall (axis_ok ns) axes → 0 < cur → cur * total_size ns axes < 2 ^ 31 →
  sharded_size_loop m cur axes = Ok (cur * total_size ns axes).
Proof.
  intros H. revert cur. induction H as [| a axes Ha H IH]; intros cur Hc Hb; cbn [sharded_size_loop].
  { unfold total_size, prod. cbn. f_equal. lia. }
  pose proof (total_size_pos axes H) as Hp. pose proof (part_bounds a Ha) as (_ & P & _).
  change (total_size ns (a :: axes)) with (part_size ns a * total_size ns axes) in *.
  rewrite mesh_size_in by done. cbn [mbind res_bind]. assert (cur * part_size ns a < 2 ^ 31) by nia.
  rewrite s64_in by int_nia. cbn [mbind res_bind]. rewrite TileValue.to_int_id by nia. rewrite IH by nia. f_equal. ring.
Qed.

(** Cutting a reference in two. *)
Lemma split_ok a k q :
  axis_ok ns a → 1 < k → part_size ns a = q * k → 1 < q →
  let a1 := MkAxis (mesh_axis_index a) (Some (MkSub (axis_pre_size a) k)) in
  let a2 := MkAxis (mesh_axis_index a) (Some (MkSub (axis_pre_size a * k) q)) in
  axis_ok ns a1 ∧ axis_ok ns a2 ∧
  ∀ xs, position ns [a1; a2] xs = position ns [a] xs ∧ total_size ns [a1; a2] = total_size ns [a].
Proof.
  intros Ha Hk Hq Hq1 a1 a2. pose proof (part_bounds a Ha) as (P1 & P2 & P3). pose proof (ax_divides _ _ Ha) as Hd. rewrite Hq in *.
  assert (k < q * k ∧ q < q * k) by nia. assert (q * k ≤ axis_total ns a) by nia.
  split; [| split].
  - constructor; [apply (ax_index _ _ Ha) | change (axis_total ns a1) with (axis_total ns a); cbn; lia |].
    change (axis_pre_size a * k | axis_total ns a). etrans; [| exact Hd]. exists q. ring.
  - constructor; [apply (ax_index _ _ Ha) | change (axis_total ns a2) with (axis_total ns a); cbn; nia |].
    change (axis_pre_size a * k * q | axis_total ns a). etrans; [| exact Hd]. exists 1. ring.
  - intros xs. apply position_split; try done; [rewrite Hq; unfold part_size; cbn; ring | unfold part_size; cbn; lia].
Qed.

(** A slice cannot end inside of [a] unless it takes a factor of its size. *)
Definition no_boundary (axes : list AxisRef) (k : Z) : Prop :=
  ∃ axes1 a axes2 j, axes = axes1 ++ a :: axes2 ∧ k = total_size ns axes1 * j ∧
    ¬ (part_size ns a | j) ∧ ¬ (j | part_size ns a).

Lemma slice_axes_spec k sliced axes :
  Forall (axis_ok ns) axes → 1 < k ≤ int64_max → (k | total_size ns axes) →
  ∃ r, slice_axes m k sliced axes = Ok r ∧
    match r with
    | Some (l, remaining) => ∃ front, l = sliced ++ front ∧ total_size ns front = k ∧ Forall (axis_ok ns) (front ++ remaining) ∧
        ∀ xs, position ns (front ++ remaining) xs = position ns axes xs ∧ total_size ns (front ++ remaining) = total_size ns axes
    | None => no_boundary axes k
    end.
Proof.
  intros H. revert k sliced. induction H as [| a axes Ha H IH]; intros k sliced Hk Hd; cbn [slice_axes].
  { apply Z.divide_pos_le in Hd; unfold total_size, prod in *; cbn in *; lia. }
  change (total_size ns (a :: axes)) with (part_size ns a * total_size ns axes) in Hd.
  pose proof (part_bounds a Ha) as (P1 & P2 & P3). pose proof (axis_total_bounds a Ha). pose proof (total_size_pos axes H) as Hp.
  rewrite mesh_size_in by done. cbn [mbind res_bind]. destruct (Z.eqb_spec k (part_size ns a)) as [E | Ne].
  { eexists. split; [done |]. exists [a]. split; [done |]. split; [by rewrite total_size_one |]. split; [by constructor | done]. }
  rewrite (divides_pos (part_size ns a) k) by lia. cbn [mbind res_bind]. destruct (bool_decide_reflect (part_size ns a | k)) as [[q Hq] | Hnd].
  - rewrite c_div_pos by lia. cbn [mbind res_bind]. rewrite Hq, Z.div_mul by lia.
    assert (1 < q) by (destruct (decide (q = 1)) as [-> |]; [lia | nia]).
    destruct (IH q (sliced ++ [a])) as (r & -> & Hr); [nia | |].
    { destruct Hd as [u Hu]. exists u. rewrite Hq in Hu. nia. }
    eexists. split; [done |]. destruct r as [[l remaining] |].
    + destruct Hr as (front & -> & Hf & Hok & Hpos). exists (a :: front). rewrite <- app_assoc. split; [done |].
      change (total_size ns (a :: front)) with (part_size ns a * total_size ns front). split; [rewrite Hf; lia |]. split; [by constructor |].
      intros xs. destruct (Hpos xs) as [E1 E2]. change ((a :: front) ++ remaining) with ([a] ++ (front ++ remaining)). change (a :: axes) with ([a] ++ axes).
      by rewrite (position_app [a]), (position_app [a] axes), !(total_size_app [a]), E1, E2.
    + destruct Hr as (l1 & b & l2 & j & -> & -> & Hr). exists (a :: l1), b, l2, j. split; [done |]. split; [| done].
      change (total_size ns (a :: l1)) with (part_size ns a * total_size ns l1). ring.
  - rewrite divides_pos by nia. cbn [mbind res_bind]. destruct (bool_decide_reflect (k | part_size ns a)) as [[q Hq] | Hnd2].
    2: { exists None. split; [done |]. exists [], a, axes, k. split; [done |]. split; [unfold total_size, prod; cbn; lia | done]. }
    assert (1 < q) by (destruct (decide (q = 1)) as [-> |]; [lia | nia]). unfold SubAxisRef. cbn [pre_size size].
    rewrite !(proj2 (Z.ltb_lt 0 _)), (proj2 (Z.ltb_lt 1 _)) by lia. cbn [mbind res_bind guard_res].
    assert (part_size ns a ≤ axis_total ns a) by nia. assert (0 < k ≤ part_size ns a) by nia. assert (0 < axis_pre_size a * k ≤ axis_pre_size a * part_size ns a) by nia.
    rewrite s64_in by int_lia. cbn [mbind res_bind]. rewrite c_div_pos by lia. cbn [mbind res_bind].
    assert (Eq : part_size ns a / k = q) by (rewrite Hq; apply Z.div_mul; lia). rewrite Eq.
    rewrite !(proj2 (Z.ltb_lt 0 _)), (proj2 (Z.ltb_lt 1 _)) by nia. cbn [mbind res_bind guard_res].
    set (a1 := MkAxis _ (Some (MkSub (axis_pre_size a) k))). set (a2 := MkAxis _ (Some (MkSub _ q))).
    destruct (split_ok a k q) as (Ha1 & Ha2 & Hpos); [done | lia | done | lia |]. fold a1 a2 in Ha1, Ha2, Hpos.
    eexists. split; [done |]. exists [a1]. split; [done |]. split; [exact (total_size_one a1) |].
    split; [exact (Forall_cons_2 _ _ _ Ha1 (Forall_cons_2 _ _ _ Ha2 H)) |].
    intros xs. destruct (Hpos xs) as [E1 E2]. change ([a1] ++ a2 :: axes) with ([a1; a2] ++ axes). change (a :: axes) with ([a] ++ axes).
    by rewrite !position_app, !total_size_app, E1, E2.
Qed.

(** C32: slicing a dimension succeeds when a boundary of its axes, or of factors of them,
    allows it; the slice has the given size and its axes come before the remaining ones. *)
Theorem Slice_splits d k :
  Forall (axis_ok ns) (axes d) → total_size ns (axes d) < 2 ^ 31 → 0 < k ≤ int64_max →
  ∃ r d', Slice m d k = Ok (r, d') ∧
    match r with
    | Some front => total_size ns (axes front) = k ∧ total_size ns (axes d) = k * total_size ns (axes d') ∧
        Forall (axis_ok ns) (axes front ++ axes d') ∧ is_closed front = is_closed d ∧ is_closed d' = is_closed d ∧
        ∀ xs, position ns (axes d) xs = position ns (axes front) xs * total_size ns (axes d') + position ns (axes d') xs
    | None => d' = d ∧ (¬ (k | total_size ns (axes d)) ∨ no_boundary (axes d) k)
    end.
Proof.
  intros Hok Ht Hk. pose proof (total_size_pos _ Hok). unfold Slice. destruct (Z.eqb_spec k 1) as [-> | Hk1].
  { do 2 eexists. split; [done |]. cbn [axes is_closed]. unfold total_size at 1. cbn. split; [done |]. split; [lia |]. split; [done |].
    split; [done |]. split; [done |]. intros xs. lia. }
  unfold getShardedSize. rewrite sharded_size_loop_spec by (done || lia). cbn [mbind res_bind]. rewrite Z.mul_1_l.
  rewrite divides_pos by int_lia. cbn [mbind res_bind]. destruct (bool_decide_reflect (k | total_size ns (axes d))) as [Hd | Hnd]; cbn [negb].
  2: { do 2 eexists. split; [done |]. split; [done | by left]. }
  destruct (slice_axes_spec k [] (axes d) Hok) as (r & -> & Hr); [lia | done |]. cbn [mbind res_bind].
  destruct r as [[l remaining] |]; do 2 eexists; (split; [done |]); [| by split; [| right]]. cbn [axes is_closed].
  destruct Hr as (front & -> & Hf & Hok' & Hpos). cbn [app]. rewrite <- (proj2 (Hpos [])), total_size_app, Hf.
  split; [done |]. split; [done |]. split; [done |]. split; [done |]. split; [done |].
  intros xs. by rewrite <- (proj1 (Hpos xs)), position_app.
Qed.
End Mesh.

(** ** Instances *)

(** A mesh of six by one by four devices. *)
Definition demo_mesh : Mesh := MkMesh (of_iota demo) ["x"; "y"; "z"]%string.

Lemma demo_good : good_mesh demo_mesh (flat_array demo).
Proof. constructor; [exact demo_contents | reflexivity]. Qed.

Definition sub (i p n : Z) : AxisRef := MkAxis i (Some (MkSub p n)).

Lemma sub_ok i p n : 0 ≤ i < 3 → 0 < p → 1 < n < axis_total [6; 1; 4] (sub i p n) → (p * n | axis_total [6; 1; 4] (sub i p n)) → axis_ok [6; 1; 4] (sub i p n).
Proof. intros H1 H2 H3 H4. constructor; [done | done | done]. Qed.

Lemma full_ok i : 0 ≤ i < 3 → axis_ok [6; 1; 4] (FullAxis i).
Proof. intros H. constructor; [done | done |]. unfold axis_pre_size, part_size. cbn [sub_axis_info FullAxis]. by rewrite Z.mul_1_l. Qed.

Lemma MergeAxes_keeps_witness :
  ∃ merged, MergeAxes demo_mesh [sub 0 1 2; sub 0 2 3; sub 2 1 2] = Ok merged ∧
    merged = [FullAxis 0; sub 2 1 2] ∧ position [6; 1; 4] merged [5; 0; 3] = 11.
Proof.
  destruct (MergeAxes_keeps demo_mesh (flat_array demo) demo_good [sub 0 1 2; sub 0 2 3; sub 2 1 2]) as (merged & E & _ & _ & _ & Hp).
  - repeat constructor; cbn; lia.
  - vm_compute. reflexivity.
  - exists merged. split; [exact E |]. split.
    + vm_compute in E. injection E as <-. reflexivity.
    + etransitivity; [exact (Hp [5; 0; 3]) | vm_compute; reflexivity].
Defined.

Lemma GetPrefixWithoutOverlap_longest_witness :
  ∃ p, GetPrefixWithoutOverlap (FullAxis 2) (sub 2 2 2) = Ok (Some p) ∧ p = sub 2 1 2 ∧ Overlaps p (sub 2 2 2) = Ok false.
Proof.
  destruct (GetPrefixWithoutOverlap_longest demo_mesh (flat_array demo) demo_good (FullAxis 2) (sub 2 2 2)) as (r & E & H).
  - apply full_ok. lia.
  - apply sub_ok; [lia | lia | split; vm_compute; reflexivity | exists 1; reflexivity].
  - vm_compute in E. injection E as <-. exists (sub 2 1 2). split; [reflexivity |]. split; [reflexivity | exact (proj1 (proj2 H))].
Defined.

Lemma Slice_splits_witness :
  ∃ front rest, Slice demo_mesh (MkDimSharding [FullAxis 0; FullAxis 2] true) 3 = Ok (Some front, rest) ∧
    axes front = [sub 0 1 3] ∧ axes rest = [sub 0 3 2; FullAxis 2] ∧ total_size [6; 1; 4] (axes front) = 3.
Proof.
  destruct (Slice_splits demo_mesh (flat_array demo) demo_good (MkDimSharding [FullAxis 0; FullAxis 2] true) 3) as (r & rest & E & H).
  - repeat apply Forall_cons_2; [apply full_ok; lia | apply full_ok; lia | constructor].
  - vm_compute. reflexivity.
  - int_lia.
  - vm_compute in E. injection E as <- <-. eexists _, _. split; [vm_compute; reflexivity |]. split; [reflexivity |]. split; [reflexivity | exact (proj1 H)].
Defined.
End MeshCorrect.
