(* ===== verification/Sharding.v ===== *)
(** * Shardings: data and construction

    Models the data, the constructors and the predicates of [xla/hlo/ir/hlo_sharding.h] and
    [.cc], in the tile format and in the format of named axes, the conversion from the
    second to the first, and equality. *)
From S2P Require Import Prelude PermUtil Layouts Arrays TileAssign MeshAxes NamedShard.
#[local] Open Scope Z_scope.

Module Sharding.
Import Layouts Arrays TileAssign MeshAxes NamedShard.

(** ** The data *)

(** [OpSharding::Type]. *)
Inductive ShardingType := REPLICATED | MAXIMAL | TUPLE | OTHER | MANUAL | UNKNOWN | UNREDUCED.

#[export] Instance ShardingType_eq_dec : EqDecision ShardingType.
Proof. solve_decision. Defined.

Record ShardGroup := MkGroup { shard_group_id : Z; shard_as : bool; shard_like : bool }.

#[export] Instance ShardGroup_eq_dec : EqDecision ShardGroup.
Proof. solve_decision. Defined.

Definition NotShardGroup : ShardGroup := MkGroup (-1) false false.
Definition ShardAs (id : Z) : ShardGroup := MkGroup id true false.
Definition ShardLike (id : Z) : ShardGroup := MkGroup id false true.

(** ** Grouping the minor dimensions of an iota *)

(** The loop from the last dimension on: how many dimensions are grouped, and the one that
    is split with its part outside of the group; nothing when the sizes do not match. *)
Fixpoint group_dims_loop (dims rperm : list Z) (group_size : Z) (grouped_dims : nat)
    : res (option (nat * option (Z * Z))) :=
  match rperm with
  | [] => Ok (Some (grouped_dims, None))
  | dim :: rperm =>
      dim_size ← at_z dims dim;
      if dim_size <=? group_size then
        r ← c_mod group_size dim_size;
        if negb (r =? 0) then Ok None
        else q ← c_div group_size dim_size; group_dims_loop dims rperm q (S grouped_dims)
      else
        r ← c_mod dim_size group_size;
        if negb (r =? 0) then Ok None
        else q ← c_div dim_size group_size; Ok (Some (S grouped_dims, Some (dim, q)))
  end.

(** The last [grouped_dims] numbers in increasing order. *)
Definition sort_last (grouped_dims : nat) (perm : list Z) : list Z :=
  let n := (length perm - grouped_dims)%nat in take n perm ++ merge_sort Z.le (drop n perm).

(** The new number of a dimension when one is split. *)
Definition shift_dim (split_i perm_dim : Z) : Z := if perm_dim <=? split_i then perm_dim else perm_dim + 1.

Fixpoint split_perm (split_i : Z) (perm : list Z) : list Z :=
  match perm with
  | [] => []
  | p :: perm =>
      if p =? split_i then shift_dim split_i p :: shift_dim split_i p + 1 :: (shift_dim split_i <$> perm)
      else shift_dim split_i p :: split_perm split_i perm
  end.

(** The dimensions and the permutation of an iota have the same number of elements. *)
Definition GroupMinorIotaDimsSorted (dims perm : list Z) (group_size : Z) : res (option (list Z * list Z)) :=
  found ← group_dims_loop dims (reverse perm) group_size 0;
  match found with
  | None => Ok None
  | Some (grouped_dims, None) => Ok (Some (dims, sort_last grouped_dims perm))
  | Some (grouped_dims, Some (split_i, major)) =>
      d ← at_z dims split_i;
      minor ← c_div d major;
      let i := Z.to_nat split_i in
      Ok (Some (take i dims ++ major :: minor :: drop (S i) dims, sort_last grouped_dims (split_perm split_i perm)))
  end.

(** The values are sorted group by group. *)
Fixpoint sort_groups (fuel : nat) (group_size : nat) (values : list Z) : res (list Z) :=
  match values with
  | [] => Ok []
  | _ =>
      match fuel with
      | O => Fail NoFuel
      | S fuel =>
          guard_res (group_size <=? length values)%nat Undefined;;
          rest ← sort_groups fuel group_size (drop group_size values);
          Ok (merge_sort Z.le (take group_size values) ++ rest)
      end
  end.

(** The last dimension. *)
Definition back (ds : list Z) : res Z := match last ds with Some d => Ok d | None => Fail Undefined end.

Section Shardings.
Context {OpMetadata : Type}.

Inductive HloSharding := MkSharding {
  tile_assignment_ : TileAssignment;
  tuple_elements_ : list HloSharding;
  metadata_ : list OpMetadata;
  subgroup_types_ : list ShardingType;
  replicated_ : bool;
  single_device_ : bool;
  tuple_ : bool;
  manual_ : bool;
  unknown_ : bool;
  unreduced_ : bool;
  replicate_on_last_tile_dim_ : bool;
  shard_group_ : ShardGroup;
  named_sharding_ : option (NamedSharding OpMetadata)
}.

(** ** Construction *)

Definition of_flags (manual replicated unknown unreduced : bool) (metadata : list OpMetadata) : HloSharding :=
  MkSharding Replicated [] metadata [] replicated false false manual unknown unreduced false NotShardGroup None.

Definition Replicate (metadata : list OpMetadata) : HloSharding := of_flags false true false false metadata.
Definition Manual (metadata : list OpMetadata) : HloSharding := of_flags true false false false metadata.
Definition Unknown (metadata : list OpMetadata) : HloSharding := of_flags false false true false metadata.
Definition Unreduced (metadata : list OpMetadata) : HloSharding := of_flags false false false true metadata.

Definition SingleDevice (device_id : Z) (metadata : list OpMetadata) : HloSharding :=
  MkSharding (of_device device_id) [] metadata [] false true false false false false false NotShardGroup None.

Definition of_tiles (t : TileAssignment) (replicate_on_last_tile_dim : bool) (metadata : list OpMetadata) : HloSharding :=
  MkSharding t [] metadata [] false false false false false false replicate_on_last_tile_dim NotShardGroup None.

Definition of_subgroups (t : TileAssignment) (types : list ShardingType) (metadata : list OpMetadata) : HloSharding :=
  MkSharding t [] metadata types false false false false false false false NotShardGroup None.

Definition FlatTuple (elements : list HloSharding) : HloSharding :=
  MkSharding Replicated elements [] [] false false true false false false false NotShardGroup None.

Definition of_named (n : NamedSharding OpMetadata) : HloSharding :=
  MkSharding Replicated [] [] [] false false false false false false false NotShardGroup (Some n).

Definition Tile (t : TileAssignment) (metadata : list OpMetadata) : HloSharding := of_tiles t false metadata.
Definition TileArray (a : Array Z) (metadata : list OpMetadata) : HloSharding := of_tiles (of_array a) false metadata.
Definition IotaTile (dims : list Z) (metadata : list OpMetadata) : res HloSharding :=
  t ← of_dims dims; Ok (of_tiles t false metadata).
Definition IotaTileTransform (dims reshape_dims transpose_perm : list Z) (metadata : list OpMetadata) : res HloSharding :=
  t ← of_transform dims reshape_dims transpose_perm; Ok (of_tiles t false metadata).

Definition SetShardGroup (g : ShardGroup) (s : HloSharding) : HloSharding :=
  MkSharding (tile_assignment_ s) (tuple_elements_ s) (metadata_ s) (subgroup_types_ s) (replicated_ s)
    (single_device_ s) (tuple_ s) (manual_ s) (unknown_ s) (unreduced_ s) (replicate_on_last_tile_dim_ s) g
    (named_sharding_ s).
Definition ClearShardGroup (s : HloSharding) : HloSharding := SetShardGroup NotShardGroup s.

(** *** Partial replication *)

(** What the iota path of [PartialTile] makes, nothing when the array must be sorted. *)
Definition group_iota (t : TileAssignment) (i : IotaTileAssignment) (group_size : Z) : res (option TileAssignment) :=
  p ← back (transpose_perm i);
  d ← at_z (reshape_dims i) p;
  if d =? group_size then Ok (Some t)
  else
    grouped ← GroupMinorIotaDimsSorted (reshape_dims i) (transpose_perm i) group_size;
    match grouped with
    | Some (new_reshape_dims, new_transpose_perm) =>
        t ← of_transform (dims i) new_reshape_dims new_transpose_perm; Ok (Some t)
    | None => Ok None
    end.

(** The assignment with the devices of every group sorted. *)
Definition sort_last_dim (t : TileAssignment) (group_size : Z) : res TileAssignment :=
  grouped ← (match iota_ t with Some i => group_iota t i group_size | None => Ok None end);
  match grouped with
  | Some t => Ok t
  | None =>
      '(a, _) ← array t;
      values ← sort_groups (length (values_ a)) (Z.to_nat group_size) (values_ a);
      Ok (of_array (MkArray (sizes_ a) values))
  end.

Definition PartialTile (t : TileAssignment) (metadata : list OpMetadata) : res HloSharding :=
  num_elements ← tile_num_elements t;
  rank ← tile_num_dimensions t;
  ds ← dimensions t;
  replicated ← (if rank =? 1 then Ok true else d ← back ds; Ok (d =? num_elements));
  if (replicated : bool) then Ok (Replicate metadata)
  else
    group_size ← back ds;
    if group_size =? 1 then
      t ← tile_reshape t (removelast ds); Ok (of_tiles t false metadata)
    else t ← sort_last_dim t group_size; Ok (of_tiles t true metadata).

(** *** Subgroups *)

(** The dimensions of every type, how many types there are, whether the dimensions must
    be merged, and those of size 1. *)
Record SubgroupState := MkSubgroups {
  type_to_dims : ShardingType → list Z; subgroup_count : Z; needs_merging : bool; removed_dims : list Z
}.

(** The loop over the types; [dim] is [i + data_dims]. *)
Fixpoint subgroup_loop (t : TileAssignment) (types : list ShardingType) (dim : Z) (st : SubgroupState) : res SubgroupState :=
  match types with
  | [] => Ok st
  | type :: types =>
      size ← tile_dim t dim;
      if size =? 1 then
        subgroup_loop t types (dim + 1) (MkSubgroups (type_to_dims st) (subgroup_count st) true (removed_dims st ++ [dim]))
      else
        let dims := type_to_dims st type in
        let is_first := bool_decide (dims = []) in
        subgroup_loop t types (dim + 1)
          (MkSubgroups (λ u, if decide (u = type) then dims ++ [dim] else type_to_dims st u)
             (if is_first then subgroup_count st + 1 else subgroup_count st)
             (needs_merging st || negb is_first) (removed_dims st))
  end.

Definition kOrderedTypes : list ShardingType := [MAXIMAL; TUPLE; OTHER; MANUAL; UNREDUCED; REPLICATED; UNKNOWN].

(** The order of the dimensions, the sizes and the types after merging. *)
Record MergedDims := MkMerged {
  merged_perm : list Z; merged_shape : list Z; transposed_shape : list Z; merged_types : list ShardingType
}.

Fixpoint merge_sizes (t : TileAssignment) (dims : list Z) (dim_size : Z) : res (Z * list Z) :=
  match dims with
  | [] => Ok (dim_size, [])
  | dim :: dims =>
      d ← tile_dim t dim;
      dim_size ← s64 (dim_size * d);
      '(dim_size, sizes) ← merge_sizes t dims dim_size;
      Ok (dim_size, d :: sizes)
  end.

Fixpoint merge_types (t : TileAssignment) (type_to_dims : ShardingType → list Z) (types : list ShardingType) (m : MergedDims)
    : res MergedDims :=
  match types with
  | [] => Ok m
  | type :: types =>
      match type_to_dims type with
      | [] => merge_types t type_to_dims types m
      | dims =>
          '(dim_size, sizes) ← merge_sizes t dims 1;
          merge_types t type_to_dims types
            (MkMerged (merged_perm m ++ dims) (merged_shape m ++ [dim_size]) (transposed_shape m ++ sizes)
               (merged_types m ++ [type]))
      end
  end.

(** The index of the source for an index of the merged array. *)
Fixpoint scatter_index (perm indices src : list Z) : res (list Z) :=
  match indices with
  | [] => Ok src
  | i :: indices =>
      match perm with
      | [] => Fail Undefined
      | p :: perm => at_z src p;; scatter_index perm indices (<[Z.to_nat p := i]> src)
      end
  end.

(** Every element read at its index in the source. *)
Definition gather (t : TileAssignment) (m : MergedDims) : res TileAssignment :=
  rank ← tile_num_dimensions t;
  new_tiles ← make (transposed_shape m) 0;
  indices ← Each new_tiles;
  values ← mapM (λ e, src ← scatter_index (merged_perm m) e.1 (replicate (Z.to_nat rank) 0); tile_at t src) indices;
  a ← Reshape (merged_shape m) (MkArray (transposed_shape m) values);
  Ok (of_array a).

Definition merge_assignment (t : TileAssignment) (m : MergedDims) (removed_dims : list Z) : res TileAssignment :=
  transposed ← (match iota_ t with Some i => Transpose i (merged_perm m ++ removed_dims) | None => Ok None end);
  match transposed with
  | Some i => of_transform (merged_shape m) (reshape_dims i) (transpose_perm i)
  | None => gather t m
  end.

Definition set_subgroup_types (types : list ShardingType) (s : HloSharding) : HloSharding :=
  MkSharding (tile_assignment_ s) (tuple_elements_ s) (metadata_ s) (subgroup_types_ s ++ types) (replicated_ s)
    (single_device_ s) (tuple_ s) (manual_ s) (unknown_ s) (unreduced_ s) false (shard_group_ s) (named_sharding_ s).

Definition create_sharding (t : TileAssignment) (types : list ShardingType) (metadata : list OpMetadata) : res HloSharding :=
  if bool_decide (types = [REPLICATED]) then PartialTile t metadata
  else
    manual ← (if bool_decide (types = [MANUAL]) then n ← tile_num_elements t; ds ← dimensions t; d ← back ds; Ok (n =? d)
              else Ok false);
    if (manual : bool) then Ok (Manual metadata)
    else if bool_decide (last types = Some REPLICATED) then
      s ← PartialTile t metadata; Ok (set_subgroup_types types s)
    else Ok (of_subgroups t types metadata).

(** The product of the data dimensions; a negative rank stands for all dimensions. *)
Definition data_product (t : TileAssignment) (data_dims : Z) : res Z :=
  ds ← dimensions t;
  Product (if data_dims <? 0 then ds else take (Z.to_nat data_dims) ds).

(** The sharding when all types are [type] and there is no data dimension. *)
Definition uniform (type : ShardingType) (metadata : list OpMetadata) : option HloSharding :=
  match type with
  | MANUAL => Some (Manual metadata)
  | REPLICATED => Some (Replicate metadata)
  | UNREDUCED => Some (Unreduced metadata)
  | _ => None
  end.

Definition Subgroup (t : TileAssignment) (subgroup_types : list ShardingType) (metadata : list OpMetadata) : res HloSharding :=
  match subgroup_types with
  | [] => Ok (of_tiles t false metadata)
  | type :: _ =>
      rank ← tile_num_dimensions t;
      let data_dims := rank - Z.of_nat (length subgroup_types) in
      trivial ← (if forallb (λ u, bool_decide (u = type)) subgroup_types then p ← data_product t data_dims; Ok (p =? 1)
                 else Ok false);
      match (if (trivial : bool) then uniform type metadata else None) with
      | Some s => Ok s
      | None =>
          guard_res (0 <=? data_dims) Undefined;;
          st ← subgroup_loop t subgroup_types data_dims (MkSubgroups (λ _, []) 0 false []);
          if needs_merging st || (subgroup_count st >? 1) then
            ds ← dimensions t;
            let data_tile_shape := take (Z.to_nat data_dims) ds in
            m ← merge_types t (type_to_dims st) kOrderedTypes
                  (MkMerged (seqZ 0 data_dims) data_tile_shape data_tile_shape []);
            new_tile_assignment ← merge_assignment t m (removed_dims st);
            create_sharding new_tile_assignment (merged_types m) metadata
          else create_sharding t subgroup_types metadata
      end
  end.

(** ** From named axes to tiles *)

(** The parts of the axis [i] that the references use, with the whole axis. *)
Definition pre_sizes_of (m : Mesh) (used : list AxisRef) (i : Z) : res (list Z) :=
  n ← axis_size m i;
  parts ← mapM (λ a, match sub_axis_info a with
                     | Some s => next ← next_pre_size s; Ok [pre_size s; next]
                     | None => Ok []
                     end) (filter (λ a, mesh_axis_index a = i) used);
  Ok ([1; n] ++ concat parts).

(** [std::unique]. *)
Fixpoint unique (l : list Z) : list Z :=
  match l with
  | x :: (y :: _) as rest => if x =? y then unique rest else x :: unique rest
  | _ => l
  end.

Fixpoint consecutive_axes (i : Z) (pre_sizes : list Z) : res (list AxisRef) :=
  match pre_sizes with
  | p :: (n :: _) as rest =>
      q ← c_div n p;
      a ← SubAxisRef i (MkSub p q);
      l ← consecutive_axes i rest;
      Ok (a :: l)
  | _ => Ok []
  end.

Definition ordered_axes (m : Mesh) (used : list AxisRef) (i : Z) : res (list AxisRef) :=
  pre_sizes ← pre_sizes_of m used i;
  if (length pre_sizes =? 2)%nat then Ok [FullAxis i]
  else consecutive_axes i (unique (merge_sort Z.le pre_sizes)).

Definition GetOrderedAxisRefs (n : NamedSharding OpMetadata) : res (list AxisRef) :=
  sizes ← axis_sizes (mesh n);
  let used := (dim_shardings n ≫= axes) ++ replicated_axes n ++ unreduced_axes n ++ manual_axes n in
  l ← mapM (ordered_axes (mesh n) used) (seqZ 0 (Z.of_nat (length sizes)));
  Ok (concat l).

(** The position of every used axis in the order of the dimensions. *)
Definition PosMap : Type := list (AxisRef * Z).

Fixpoint find_pos (a : AxisRef) (l : PosMap) : option Z :=
  match l with
  | [] => None
  | (b, pos) :: l => if bool_decide (a = b) then Some pos else find_pos a l
  end.

(** The later assignment to the same axis counts. *)
Fixpoint assign_positions (axes : list AxisRef) (sharded_pos : Z) (l : PosMap) : PosMap * Z :=
  match axes with
  | [] => (l, sharded_pos)
  | a :: axes => assign_positions axes (sharded_pos + 1) ((a, sharded_pos) :: l)
  end.

Fixpoint dims_of (m : Mesh) (ds : list DimensionSharding) (sharded_pos : Z) (l : PosMap) : res (list Z * PosMap * Z) :=
  match ds with
  | [] => Ok ([], l, sharded_pos)
  | d :: ds =>
      size ← getShardedSize m d;
      let '(l, sharded_pos) := assign_positions (axes d) sharded_pos l in
      '(sizes, l, sharded_pos) ← dims_of m ds sharded_pos l;
      Ok (size :: sizes, l, sharded_pos)
  end.

(** Where the conversion is. *)
Record ConvertState := MkConvert {
  tile_assignment_dims : list Z; types : list ShardingType; axis_ref_to_sharded_pos : PosMap; sharded_pos : Z
}.

Definition add_subgroup_axes (m : Mesh) (axes : list AxisRef) (type : ShardingType) (c : ConvertState) : res ConvertState :=
  match axes with
  | [] => Ok c
  | _ =>
      dim ← axes_product m 1 axes;
      let '(l, pos) := assign_positions axes (sharded_pos c) (axis_ref_to_sharded_pos c) in
      Ok (MkConvert (tile_assignment_dims c ++ [dim]) (types c ++ [type]) l pos)
  end.

(** The sizes of the axes of the mesh, their order, and the number of replicas. *)
Fixpoint place_axes (m : Mesh) (l : PosMap) (mesh_axis_refs : list AxisRef) (i replicated_pos total_replicated_size : Z)
    (transpose_perm : list Z) : res (list Z * list Z * Z) :=
  match mesh_axis_refs with
  | [] => Ok ([], transpose_perm, total_replicated_size)
  | a :: mesh_axis_refs =>
      size ← size_in m a;
      match find_pos a l with
      | None =>
          at_z transpose_perm replicated_pos;;
          total ← s64 (total_replicated_size * size);
          '(sizes, perm, total) ← place_axes m l mesh_axis_refs (i + 1) (replicated_pos + 1) total
                                    (<[Z.to_nat replicated_pos := i]> transpose_perm);
          Ok (size :: sizes, perm, total)
      | Some pos =>
          at_z transpose_perm pos;;
          '(sizes, perm, total) ← place_axes m l mesh_axis_refs (i + 1) replicated_pos total_replicated_size
                                    (<[Z.to_nat pos := i]> transpose_perm);
          Ok (size :: sizes, perm, total)
      end
  end.

Definition V3ToV2Named (n : NamedSharding OpMetadata) : res HloSharding :=
  let m := mesh n in
  replicated ← IsReplicated n;
  if (replicated : bool) then Ok (Replicate (named_metadata n))
  else
    single ← IsSingleDevice n;
    if (single : bool) then
      device ← tile_at (device_assignment m) [0]; Ok (SingleDevice device (named_metadata n))
    else
      '(sizes, l, pos) ← dims_of m (dim_shardings n) 0 [];
      c ← add_subgroup_axes m (manual_axes n) MANUAL (MkConvert sizes [] l pos);
      c ← add_subgroup_axes m (unreduced_axes n) UNREDUCED c;
      mesh_axis_refs ← GetOrderedAxisRefs n;
      '(reshape_dims, perm, total) ← place_axes m (axis_ref_to_sharded_pos c) mesh_axis_refs 0 (sharded_pos c) 1
                                       (replicate (length mesh_axis_refs) 0);
      let dims := if total >? 1 then tile_assignment_dims c ++ [total] else tile_assignment_dims c in
      let types := if total >? 1 then types c ++ [REPLICATED] else types c in
      if (match iota_ (device_assignment m) with Some i => length (TileAssign.reshape_dims i) =? 1 | None => false end)%nat
      then t ← of_transform dims reshape_dims perm; Subgroup t types (named_metadata n)
      else
        t ← tile_reshape (device_assignment m) reshape_dims;
        t ← tile_transpose t perm;
        t ← tile_reshape t dims;
        Subgroup t types (named_metadata n).

End Shardings.
#[global] Arguments HloSharding : clear implicits.
End Sharding.
