(* ===== verification/ShardOps.v ===== *)
(** * Shardings: questions and conversions

    Models the rest of [xla/hlo/ir/hlo_sharding.h] and [.cc]: what kind a sharding is, the tiles
    of its devices, validation against a shape, tuples, equality, protos and the
    conversion to named axes. *)
From stdpp Require Import strings pretty.
From S2P Require Import Prelude WindowArith PermUtil Shape Layouts Arrays TileAssign MeshAxes NamedShard Sharding.
#[local] Open Scope Z_scope.

Module ShardOps.
Import Layouts Arrays TileAssign MeshAxes NamedShard Sharding.

(** ** Shapes and their leaves *)

Fixpoint GetLeafCount (shape : Shape.Shape) : Z :=
  match shape with
  | Shape.TupleShape ts => (fix sum (l : list Shape.Shape) : Z := match l with [] => 0 | s :: l => GetLeafCount s + sum l end) ts
  | _ => 1
  end.

Definition RequiredLeaves (shape : Shape.Shape) : Z :=
  let leaf_count := GetLeafCount shape in if leaf_count =? 0 then 1 else leaf_count.

(** The leaves in the order of the iterators of [ShapeTree]. *)
Fixpoint leaf_shapes (shape : Shape.Shape) : list Shape.Shape :=
  match shape with
  | Shape.TupleShape ts =>
      (fix all (l : list Shape.Shape) : list Shape.Shape := match l with [] => [] | s :: l => leaf_shapes s ++ all l end) ts
  | _ => [shape]
  end.

(** [shape.dimensions()]. *)
Definition shape_dimensions (shape : Shape.Shape) : res (list Z) :=
  a ← Shape.array_state shape; Ok (Shape.sizes a).

(** ** Advancing an index *)

(** The loop from dimension [k - 1] down. *)
Fixpoint next_index_from (k : nat) (index limit : list Z) : res (bool * list Z) :=
  match k with
  | O => Ok (false, index)
  | S i =>
      x ← at_res index i;
      x ← s64 (x + 1);
      l ← at_res limit i;
      if x <? l then Ok (true, <[i := x]> index) else next_index_from i (<[i := 0]> index) limit
  end.

Definition NextIndex (index limit : list Z) : res (bool * list Z) := next_index_from (length index) index limit.

Section Shardings.
Context {OpMetadata : Type}.
Notation HloSharding := (HloSharding OpMetadata).
Implicit Types s : HloSharding.

(** ** What a sharding is *)

Definition UseNamedShardingLeaf s : bool := match named_sharding_ s with Some _ => true | None => false end.

Definition IsReplicatedLeaf s : res bool :=
  match named_sharding_ s with Some n => NamedShard.IsReplicated n | None => Ok (replicated_ s) end.
Definition IsSingleDeviceLeaf s : res bool :=
  match named_sharding_ s with Some n => NamedShard.IsSingleDevice n | None => Ok (single_device_ s) end.
Definition IsManualLeaf s : res bool :=
  match named_sharding_ s with Some n => NamedShard.IsManual n | None => Ok (manual_ s) end.
Definition IsUnknownLeaf s : res bool := Ok (if UseNamedShardingLeaf s then false else unknown_ s).
Definition IsUnreducedLeaf s : res bool :=
  match named_sharding_ s with Some n => NamedShard.IsUnreduced n | None => Ok (unreduced_ s) end.

(** A tuple is what all of its elements are. *)
Fixpoint all_leaves (leaf : HloSharding → res bool) s : res bool :=
  if tuple_ s then
    (fix all (l : list HloSharding) : res bool :=
       match l with [] => Ok true | e :: l => res_and (all_leaves leaf e) (all l) end) (tuple_elements_ s)
  else leaf s.

Definition IsReplicated : HloSharding → res bool := all_leaves IsReplicatedLeaf.
Definition IsSingleDevice : HloSharding → res bool := all_leaves IsSingleDeviceLeaf.
Definition IsManual : HloSharding → res bool := all_leaves IsManualLeaf.
Definition IsUnknown : HloSharding → res bool := all_leaves IsUnknownLeaf.
Definition IsUnreduced : HloSharding → res bool := all_leaves IsUnreducedLeaf.

Definition has_subgroup (type : ShardingType) s : bool := bool_decide (type ∈ subgroup_types_ s).

Definition IsManualSubgroup : HloSharding → res bool :=
  all_leaves (λ s, Ok (match named_sharding_ s with
                       | Some n => negb (bool_decide (manual_axes n = []))
                       | None => has_subgroup MANUAL s
                       end)).
Definition IsUnreducedSubgroup : HloSharding → res bool :=
  all_leaves (λ s, Ok (match named_sharding_ s with
                       | Some n => negb (bool_decide (unreduced_axes n = []))
                       | None => has_subgroup UNREDUCED s
                       end)).

Definition HasNonReplicatedSubgroup s : bool :=
  match named_sharding_ s with
  | Some n => negb (bool_decide (manual_axes n = [])) || negb (bool_decide (unreduced_axes n = []))
  | None => existsb (λ t, negb (bool_decide (t = REPLICATED))) (subgroup_types_ s)
  end.

(** An empty tuple is in no group. *)
Fixpoint in_group (leaf : HloSharding → bool) s : bool :=
  if tuple_ s then
    match tuple_elements_ s with
    | [] => false
    | l => (fix all (l : list HloSharding) : bool := match l with [] => true | e :: l => in_group leaf e && all l end) l
    end
  else if UseNamedShardingLeaf s then false
  else negb (shard_group_id (shard_group_ s) =? -1) && leaf s.

Definition IsShardGroup : HloSharding → bool := in_group (λ s, shard_like (shard_group_ s) || shard_as (shard_group_ s)).
Definition IsShardAs : HloSharding → bool := in_group (λ s, shard_as (shard_group_ s)).
Definition IsShardLike : HloSharding → bool := in_group (λ s, shard_like (shard_group_ s)).

Definition none_of (l : list (res bool)) : res bool :=
  foldr (λ b rest, x ← b; if (x : bool) then Ok false else rest) (Ok true) l.

Definition IsTiled s : res bool :=
  none_of [IsReplicated s; IsSingleDevice s; IsManual s; IsUnreduced s; IsUnknown s].
Definition IsTiledLeaf s : res bool :=
  none_of [IsReplicatedLeaf s; IsSingleDeviceLeaf s; IsManualLeaf s; IsUnreducedLeaf s; IsUnknownLeaf s].

Definition check (b : res bool) : res unit := x ← b; guard_res x CheckFailed.
Definition check_not (b : res bool) : res unit := x ← b; guard_res (negb x) CheckFailed.

Definition IsReplicatedOrSingleDeviceLeaf s : res bool :=
  r ← IsReplicatedLeaf s; if (r : bool) then Ok true else IsSingleDeviceLeaf s.
Definition IsReplicatedOrSingleDevice s : res bool :=
  r ← IsReplicated s; if (r : bool) then Ok true else IsSingleDevice s.

Definition ReplicateOnLastTileDim s : res bool :=
  guard_res (negb (UseNamedShardingLeaf s)) CheckFailed;; Ok (replicate_on_last_tile_dim_ s).

Definition HasPartialReplication s : res bool :=
  match named_sharding_ s with
  | Some n => NamedShard.HasPartialReplication n
  | None => Ok (replicate_on_last_tile_dim_ s || has_subgroup REPLICATED s)
  end.

Definition tile_assignment s : res TileAssignment :=
  guard_res (negb (tuple_ s)) CheckFailed;;
  guard_res (negb (UseNamedShardingLeaf s)) CheckFailed;;
  Ok (tile_assignment_ s).

Definition device_assignment s : res TileAssignment :=
  match named_sharding_ s with
  | Some n => s ← V3ToV2Named n; Ok (tile_assignment_ s)
  | None => Ok (tile_assignment_ s)
  end.

Definition num_dimensions s : res Z :=
  match named_sharding_ s with
  | Some n => Ok (named_num_dimensions n)
  | None => t ← tile_assignment s; tile_num_dimensions t
  end.

Definition dimension s (dim_index : Z) : res Z :=
  r ← IsReplicated s;
  if (r : bool) then Ok 1
  else
    match named_sharding_ s with
    | Some n => named_dimension n dim_index
    | None => t ← tile_assignment s; tile_dim t dim_index
    end.

Definition dimensions s : res (list Z) :=
  match named_sharding_ s with
  | Some n => Ok (sharded_sizes n)
  | None => t ← tile_assignment s; TileAssign.dimensions t
  end.

Definition num_devices s : res Z :=
  match named_sharding_ s with
  | Some n => named_num_devices n
  | None => t ← tile_assignment s; tile_num_elements t
  end.

Definition TiledDataRank s : res Z :=
  check (IsTiledLeaf s);;
  rank ← num_dimensions s;
  if UseNamedShardingLeaf s then Ok rank
  else
    last ← ReplicateOnLastTileDim s;
    Ok ((if (last : bool) then rank - 1 else rank) - Z.of_nat (length (subgroup_types_ s))).

(** The position of the first element. *)
Fixpoint find_type (type : ShardingType) (l : list ShardingType) (i : Z) : option Z :=
  match l with
  | [] => None
  | t :: l => if bool_decide (t = type) then Some i else find_type type l (i + 1)
  end.

Definition subgroup_dim (type : ShardingType) s : res (option Z) :=
  guard_res (negb (UseNamedShardingLeaf s)) CheckFailed;;
  match find_type type (subgroup_types_ s) 0 with
  | Some i => rank ← TiledDataRank s; Ok (Some (i + rank))
  | None => Ok None
  end.

Definition SubgroupReplicationDim s : res Z :=
  found ← subgroup_dim REPLICATED s;
  match found with
  | Some d => Ok d
  | None => if replicate_on_last_tile_dim_ s then rank ← num_dimensions s; Ok (rank - 1) else Ok (-1)
  end.
Definition SubgroupManualDim s : res Z := found ← subgroup_dim MANUAL s; Ok (default (-1) found).
Definition SubgroupUnreducedDim s : res Z := found ← subgroup_dim UNREDUCED s; Ok (default (-1) found).

(** ** Devices *)

Definition TileAgnosticDeviceAssignment s : TileAssignment :=
  match named_sharding_ s with Some n => MeshAxes.device_assignment (mesh n) | None => tile_assignment_ s end.

Fixpoint UniqueDevice s : res (option Z) :=
  if tuple_ s then
    (fix same (unique_device : option Z) (l : list HloSharding) : res (option Z) :=
       match l with
       | [] => Ok unique_device
       | e :: l =>
           device ← UniqueDevice e;
           match device, unique_device with
           | None, _ => Ok None
           | Some d, Some u => if d =? u then same (Some d) l else Ok None
           | Some d, None => same (Some d) l
           end
       end) None (tuple_elements_ s)
  else
    single ← IsSingleDeviceLeaf s;
    if (single : bool) then '(a, _) ← array (TileAgnosticDeviceAssignment s); d ← at_res (values_ a) 0; Ok (Some d)
    else Ok None.

Definition GetUniqueDevice s : res Z :=
  device ← UniqueDevice s; match device with Some d => Ok d | None => Fail CheckFailed end.

Fixpoint UsesDevice s (device : Z) : res bool :=
  if tuple_ s then
    (fix any (l : list HloSharding) : res bool :=
       match l with
       | [] => Ok false
       | e :: l => uses ← UsesDevice e device; if (uses : bool) then Ok true else any l
       end) (tuple_elements_ s)
  else
    replicated ← IsReplicatedLeaf s;
    everywhere ← (if (replicated : bool) then Ok true else IsManualLeaf s);
    if (everywhere : bool) then Ok true
    else
      unique_device ← UniqueDevice s;
      match unique_device with
      | Some u => Ok (u =? device)
      | None => if 0 <=? device then n ← num_devices s; Ok (device <? n) else Ok false
      end.

(** ** Tiles *)

(** What the first [EachTile] calls its function with. *)
Definition EachTile s : res (list (list Z * Z)) := t ← device_assignment s; tile_each t.

(** [resize]. *)
Definition resize {A} (n : nat) (x : A) (l : list A) : list A := take n l ++ replicate (n - length l) x.

Definition TileIndexForDevice s (device : Z) : res (list Z) :=
  guard_res (negb (replicated_ s)) CheckFailed;;
  guard_res (negb (single_device_ s)) CheckFailed;;
  check_not (IsManual s);;
  check_not (IsUnknown s);;
  guard_res (negb (tuple_ s)) CheckFailed;;
  tiles ← EachTile s;
  let ret_index := foldl (λ ret e, if e.2 =? device then e.1 else ret) [] tiles in
  guard_res (negb (bool_decide (ret_index = []))) CheckFailed;;
  rank ← TiledDataRank s;
  guard_res (0 <=? rank) Undefined;;
  Ok (resize (Z.to_nat rank) 0 ret_index).

(** The offset, or the limit when [plus] is 1, of the tile in every dimension. *)
Fixpoint tile_bounds s (plus i : Z) (index dims : list Z) : res (list Z) :=
  match index with
  | [] => Ok []
  | x :: index =>
      match dims with
      | [] => Fail Undefined
      | shape_dim :: dims =>
          n ← dimension s i;
          size ← WindowArith.CeilOfRatio shape_dim n;
          x ← s64 (x + plus);
          edge ← s64 (x * size);
          rest ← tile_bounds s plus (i + 1) index dims;
          Ok (Z.min edge shape_dim :: rest)
      end
  end.

Definition tile_edge_for_device s (plus : Z) (whole : list Z → list Z) (shape : Shape.Shape) (device : Z) : res (list Z) :=
  guard_res (negb (tuple_ s)) CheckFailed;;
  check_not (IsManual s);;
  check_not (IsUnknown s);;
  dims ← shape_dimensions shape;
  if replicated_ s || single_device_ s then Ok (whole dims)
  else
    rank ← TiledDataRank s;
    guard_res (Z.of_nat (length dims) =? rank) CheckFailed;;
    index ← TileIndexForDevice s device;
    tile_bounds s plus 0 index dims.

Definition TileOffsetForDevice s (shape : Shape.Shape) (device : Z) : res (list Z) :=
  tile_edge_for_device s 0 (λ dims, replicate (length dims) 0) shape device.

Definition TileLimitForDevice s (shape : Shape.Shape) (device : Z) : res (list Z) :=
  tile_edge_for_device s 1 (λ dims, dims) shape device.

(** A call of the function given to the second [EachTile]: the device, the offset and the
    limit of its tile. *)
Record TileCall := MkCall { call_device : Z; call_offset : list Z; call_limit : list Z }.

(** The bounds of a tile, from the sizes of the tiles. *)
Fixpoint tile_edges (plus : Z) (tile_dims index dims : list Z) : res (list Z) :=
  match dims with
  | [] => Ok []
  | d :: dims =>
      match tile_dims, index with
      | t :: tile_dims, x :: index =>
          x ← s64 (x + plus);
          edge ← s64 (t * x);
          rest ← tile_edges plus tile_dims index dims;
          Ok (Z.min edge d :: rest)
      | _, _ => Fail Undefined
      end
  end.

(** The copies of one tile: the calls, the next position in the assignment, and the
    error that ends the loop. *)
Fixpoint replica_loop (count : nat) (devices : list Z) (device_count flat_tile_index : Z) (offset limit : list Z)
    : res (list TileCall * Z * option failure) :=
  match count with
  | O => Ok ([], flat_tile_index, None)
  | S count =>
      guard_res (flat_tile_index <? device_count) CheckFailed;;
      device_id ← at_z devices flat_tile_index;
      if (device_id <? 0) || (device_id >=? device_count) then Ok ([], flat_tile_index, Some InvalidArgument)
      else
        '(calls, next, status) ← replica_loop count devices device_count (flat_tile_index + 1) offset limit;
        Ok (MkCall device_id offset limit :: calls, next, status)
  end.

Fixpoint each_tile_loop (fuel : nat) (num_replicas : nat) (devices dims tile_dims sharding_dims : list Z)
    (device_count flat_tile_index : Z) (unique_tile_index : list Z) : res (list TileCall * option failure) :=
  match fuel with
  | O => Fail NoFuel
  | S fuel =>
      offset ← tile_edges 0 tile_dims unique_tile_index dims;
      limit ← tile_edges 1 tile_dims unique_tile_index dims;
      '(calls, flat, status) ← replica_loop num_replicas devices device_count flat_tile_index offset limit;
      match status with
      | Some e => Ok (calls, Some e)
      | None =>
          '(more, next) ← NextIndex unique_tile_index sharding_dims;
          if (more : bool) then
            '(rest, status) ← each_tile_loop fuel num_replicas devices dims tile_dims sharding_dims device_count flat next;
            Ok (calls ++ rest, status)
          else Ok (calls, None)
      end
  end.

Fixpoint tile_sizes (dims sharding_dims : list Z) : res (list Z) :=
  match dims with
  | [] => Ok []
  | d :: dims =>
      match sharding_dims with
      | [] => Fail Undefined
      | n :: sharding_dims => t ← WindowArith.CeilOfRatio d n; rest ← tile_sizes dims sharding_dims; Ok (t :: rest)
      end
  end.

(** The second [EachTile] on a sharding in the tile format: the calls, and the status it
    returns.  There are at most as many tiles as devices, and the check on the position
    fails when there are more. *)
Definition EachTileOfTiles s (dims : list Z) : res (list TileCall * option failure) :=
  guard_res (negb (tuple_ s)) CheckFailed;;
  check_not (IsManual s);;
  check_not (IsUnknown s);;
  guard_res (negb (replicated_ s)) CheckFailed;;
  guard_res (negb (single_device_ s)) CheckFailed;;
  sharding_dims ← dimensions s;
  rank ← TiledDataRank s;
  if negb (Z.of_nat (length dims) =? rank) then Ok ([], Some InvalidArgument)
  else
    tile_dims ← tile_sizes dims sharding_dims;
    replication_dim ← SubgroupReplicationDim s;
    num_replicas ← (if replication_dim =? -1 then Ok 1 else at_z sharding_dims replication_dim);
    t ← tile_assignment s;
    '(a, _) ← array t;
    device_count ← num_devices s;
    each_tile_loop (S (length (values_ a))) (Z.to_nat num_replicas) (values_ a) dims tile_dims sharding_dims device_count 0
      (replicate (length dims) 0).

Definition EachTileBounds s (dims : list Z) : res (list TileCall * option failure) :=
  match named_sharding_ s with
  | None => EachTileOfTiles s dims
  | Some n =>
      guard_res (negb (tuple_ s)) CheckFailed;;
      check_not (IsManual s);;
      check_not (IsUnknown s);;
      rank ← TiledDataRank s;
      if negb (Z.of_nat (length dims) =? rank) then Ok ([], Some InvalidArgument)
      else v2 ← V3ToV2Named n; EachTileOfTiles v2 dims
  end.

(** Every dimension of the tiled array changed by [f], from dimension [i] on. *)
Fixpoint set_tile_dims (f : Z → Z → res Z) (count : nat) (i : Z) (a : Shape.Array) : res Shape.Array :=
  match count with
  | O => Ok a
  | S count =>
      d ← at_res (Shape.dims a) (Z.to_nat i);
      size ← f i (Shape.size d);
      a ← Shape.set_dimensions (Z.to_nat i) size (Shape.is_dynamic d) a;
      set_tile_dims f count (i + 1) a
  end.

(** [TileShape] of an array shape. *)
Definition TileShape s (shape : Shape.Array) : res Shape.Array :=
  tiled ← IsTiled s;
  if negb tiled then Ok shape
  else
    rank ← TiledDataRank s;
    set_tile_dims (λ i d, n ← dimension s i; WindowArith.CeilOfRatio d n) (Z.to_nat rank) 0 shape.

Definition TileShapeForDevice s (shape : Shape.Array) (device : Z) : res Shape.Array :=
  tiled ← IsTiled s;
  if negb tiled then Ok shape
  else
    index ← TileIndexForDevice s device;
    set_tile_dims (λ i d,
      x ← at_z index i;
      n ← dimension s i;
      size ← WindowArith.CeilOfRatio d n;
      low ← s64 (x * size);
      y ← s64 (x + 1);
      high ← s64 (y * size);
      s64 (Z.min high d - Z.min low d)) (length index) 0 shape.

Definition TotalNumTiles s : res Z :=
  guard_res (negb (tuple_ s)) CheckFailed;;
  one ← IsReplicatedOrSingleDeviceLeaf s;
  if (one : bool) then Ok 1
  else check_not (IsManualLeaf s);; check_not (IsUnknownLeaf s);; num_devices s.

Definition NumTiles s : res Z :=
  one ← IsReplicatedOrSingleDeviceLeaf s;
  if (one : bool) then Ok 1
  else
    check_not (IsManualLeaf s);;
    check_not (IsUnknownLeaf s);;
    ds ← dimensions s;
    if UseNamedShardingLeaf s then Product ds
    else rank ← TiledDataRank s; Product (take (Z.to_nat rank) ds).

Fixpoint num_tiles_loop s (rank num_tiles : Z) (dims : list Z) : res Z :=
  match dims with
  | [] => Ok num_tiles
  | d :: dims =>
      guard_res (d <? rank) CheckFailed;;
      n ← dimension s d;
      num_tiles ← s64 (num_tiles * n);
      num_tiles_loop s rank num_tiles dims
  end.

Definition NumTilesOf s (dims : list Z) : res Z :=
  one ← IsReplicatedOrSingleDevice s;
  if (one : bool) then Ok 1
  else
    check_not (IsManual s);;
    (if UseNamedShardingLeaf s then Ok tt
     else
       partial ← HasPartialReplication s;
       if negb partial then Ok tt
       else d ← SubgroupReplicationDim s; guard_res (negb (bool_decide (d ∈ dims))) CheckFailed);;
    match dims with
    | [] => Ok 1
    | _ => rank ← num_dimensions s; num_tiles_loop s rank 1 dims
    end.

Definition ReplicationFactor s : res Z :=
  partial ← HasPartialReplication s;
  if negb partial then Ok 1
  else if UseNamedShardingLeaf s then
    ds ← dimensions s; p ← accumulate 1 ds; n ← num_devices s; c_div n p
  else d ← SubgroupReplicationDim s; dimension s d.

(** ** Tuples *)

(** [TF_RET_CHECK] returns an internal error. *)
Definition CheckLeafCount s (shape : Shape.Shape) : res unit :=
  let leaf_count := GetLeafCount shape in
  if (leaf_count =? 0) && (length (tuple_elements_ s) =? 1)%nat then Ok tt
  else guard_res (leaf_count =? Z.of_nat (length (tuple_elements_ s))) Internal.

(** The shardings of the leaves of the tree. *)
Definition AsShapeTree s (shape : Shape.Shape) : res (list HloSharding) :=
  if tuple_ s then
    CheckLeafCount s shape;;
    guard_res (length (leaf_shapes shape) <=? length (tuple_elements_ s))%nat Undefined;;
    Ok (take (length (leaf_shapes shape)) (tuple_elements_ s))
  else Ok (replicate (length (leaf_shapes shape)) s).

Definition Tuple (tuple_shape : Shape.Shape) (shardings : list HloSharding) : res HloSharding :=
  guard_res (Shape.IsTuple tuple_shape) CheckFailed;;
  guard_res (forallb (λ e, negb (tuple_ e)) shardings) CheckFailed;;
  match shardings with
  | [] => Ok (FlatTuple [])
  | _ => guard_res (Z.of_nat (length shardings) =? RequiredLeaves tuple_shape) CheckFailed;; Ok (FlatTuple shardings)
  end.

Definition SingleTuple (tuple_shape : Shape.Shape) s : res HloSharding :=
  guard_res (Shape.IsTuple tuple_shape) CheckFailed;;
  guard_res (negb (tuple_ s)) CheckFailed;;
  Ok (FlatTuple (replicate (Z.to_nat (RequiredLeaves tuple_shape)) s)).

Definition Single (shape : Shape.Shape) s : res HloSharding :=
  if Shape.IsTuple shape then SingleTuple shape s else Ok s.

Definition GetTupleSharding s (shape : Shape.Shape) : res HloSharding :=
  if tuple_ s then CheckLeafCount s shape;; Ok s else SingleTuple shape s.

Definition NormalizeTupleSharding s (shape : Shape.Shape) : res HloSharding :=
  if Shape.IsTuple shape && negb (tuple_ s) then SingleTuple shape s else Ok s.

(** The walk down the index: the number of leaves before the part, and the part. *)
Fixpoint sub_shape_loop (shape : Shape.Shape) (index : list Z) (sharding_index : Z) : res (Z * Shape.Shape) :=
  match index with
  | [] => Ok (sharding_index, shape)
  | idx :: index =>
      match shape with
      | Shape.TupleShape ts =>
          sub ← at_z ts idx;
          sub_shape_loop sub index (foldl (λ n t, n + GetLeafCount t) sharding_index (take (Z.to_nat idx) ts))
      | _ => Fail CheckFailed
      end
  end.

Definition GetSubSharding s (shape : Shape.Shape) (index : list Z) : res HloSharding :=
  guard_res (tuple_ s) CheckFailed;;
  '(sharding_index, sub_shape) ← sub_shape_loop shape index 0;
  if Shape.IsTuple sub_shape then
    let n := GetLeafCount sub_shape in
    guard_res (sharding_index + n <=? Z.of_nat (length (tuple_elements_ s))) Undefined;;
    Tuple sub_shape (take (Z.to_nat n) (drop (Z.to_nat sharding_index) (tuple_elements_ s)))
  else at_z (tuple_elements_ s) sharding_index.

Definition set_metadata (metadata : list OpMetadata) s : HloSharding :=
  MkSharding (tile_assignment_ s) (tuple_elements_ s) metadata (subgroup_types_ s) (replicated_ s)
    (single_device_ s) (tuple_ s) (manual_ s) (unknown_ s) (unreduced_ s) (replicate_on_last_tile_dim_ s) (shard_group_ s)
    (named_sharding_ s).
Definition set_elements (elements : list HloSharding) s : HloSharding :=
  MkSharding (tile_assignment_ s) elements (metadata_ s) (subgroup_types_ s) (replicated_ s)
    (single_device_ s) (tuple_ s) (manual_ s) (unknown_ s) (unreduced_ s) (replicate_on_last_tile_dim_ s) (shard_group_ s)
    (named_sharding_ s).

Definition assign_metadata (metadata : list OpMetadata) (overwrite : bool) s : HloSharding :=
  match metadata_ s with
  | [] => set_metadata metadata s
  | _ => if overwrite then set_metadata metadata s else s
  end.

Definition WithMetadata (metadata : list OpMetadata) (overwrite : bool) s : HloSharding :=
  if tuple_ s then set_elements (assign_metadata metadata overwrite <$> tuple_elements_ s) s
  else assign_metadata metadata overwrite s.

Definition WithoutMetadata s : HloSharding :=
  set_elements (set_metadata [] <$> tuple_elements_ s) (set_metadata [] s).

(** ** Equality *)

(** All fields but the elements of a tuple, and the named sharding when both have one. *)
Definition fields_equal s (other : HloSharding) (elements : res bool) : res bool :=
  res_and (Ok (Bool.eqb (replicated_ s) (replicated_ other) && Bool.eqb (single_device_ s) (single_device_ other) &&
               Bool.eqb (manual_ s) (manual_ other) && Bool.eqb (unknown_ s) (unknown_ other) &&
               Bool.eqb (unreduced_ s) (unreduced_ other)))
    (res_and (tile_equal (tile_assignment_ s) (tile_assignment_ other))
      (res_and elements
        (res_and (Ok (Bool.eqb (replicate_on_last_tile_dim_ s) (replicate_on_last_tile_dim_ other) &&
                      bool_decide (subgroup_types_ s = subgroup_types_ other) &&
                      bool_decide (shard_group_ s = shard_group_ other)))
          (match named_sharding_ s, named_sharding_ other with
           | Some n, Some m => named_equal n m
           | _, _ => Ok true
           end)))).

(** The conversion of a named sharding has no elements. *)
Definition no_elements s (other : HloSharding) : res bool :=
  Ok (bool_decide (length (tuple_elements_ s) = length (tuple_elements_ other)) && (length (tuple_elements_ s) =? 0)%nat).

Fixpoint sharding_equal s (other : HloSharding) : res bool :=
  match named_sharding_ s, named_sharding_ other with
  | Some n, None => v2 ← V3ToV2Named n; fields_equal v2 other (no_elements v2 other)
  | None, Some n => v2 ← V3ToV2Named n; fields_equal s v2 (no_elements s v2)
  | _, _ =>
      fields_equal s other
        (if (length (tuple_elements_ s) =? length (tuple_elements_ other))%nat then
           (fix all (l k : list HloSharding) : res bool :=
              match l, k with
              | a :: l, b :: k => res_and (sharding_equal a b) (all l k)
              | _, _ => Ok true
              end) (tuple_elements_ s) (tuple_elements_ other)
         else Ok false)
  end.

(** The first element, when the others equal it. *)
Fixpoint all_equal_to (first : HloSharding) (l : list HloSharding) : res bool :=
  match l with
  | [] => Ok true
  | e :: l => res_and (sharding_equal first e) (all_equal_to first l)
  end.

Definition ExtractSingleSharding s : res (option HloSharding) :=
  if negb (tuple_ s) then Ok (Some s)
  else
    match tuple_elements_ s with
    | [] => Ok None
    | first :: rest => same ← all_equal_to first rest; Ok (if (same : bool) then Some first else None)
    end.

(** ** Validation *)

Definition DeviceInRange (device : Z) (num_devices : option Z) : res unit :=
  guard_res (negb (device <? 0)) InvalidArgument;;
  match num_devices with
  | Some n => guard_res (negb (device >=? n)) InvalidArgument
  | None => Ok tt
  end.

(** The loop over the devices of the array, with those seen so far. *)
Fixpoint unique_devices (num_devices : option Z) (seen_devices : gset Z) (devices : list Z) : res (gset Z) :=
  match devices with
  | [] => Ok seen_devices
  | device :: devices =>
      DeviceInRange device num_devices;;
      guard_res (negb (bool_decide (device ∈ seen_devices))) InvalidArgument;;
      unique_devices num_devices ({[device]} ∪ seen_devices) devices
  end.

(** The number of devices is the given one, if there is one. *)
Definition expect_devices (num_devices : option Z) (n : Z) : res unit :=
  match num_devices with Some k => guard_res (n =? k) InvalidArgument | None => Ok tt end.

Definition ValidateNonTuple s (shape : Shape.Shape) (num_devices : option Z) : res unit :=
  guard_res (negb (Shape.IsTuple shape)) InvalidArgument;;
  trivial ← none_of [IsReplicatedLeaf s; IsManualLeaf s; IsUnreducedLeaf s; IsUnknownLeaf s];
  if negb trivial then Ok tt
  else
    single ← IsSingleDeviceLeaf s;
    let t := TileAgnosticDeviceAssignment s in
    if (single : bool) then
      guard_res (bool_decide (iota_ t = None)) CheckFailed;;
      '(a, t) ← array t;
      guard_res (Arrays.num_elements a =? 1) InvalidArgument;;
      device ← first t;
      DeviceInRange device num_devices
    else
      n ← tile_num_elements t;
      guard_res (negb (n =? 1)) InvalidArgument;;
      dims ← shape_dimensions shape;
      rank ← TiledDataRank s;
      guard_res (Z.of_nat (length dims) =? rank) InvalidArgument;;
      match named_sharding_ s with
      | Some named => n ← named_num_devices named; expect_devices num_devices n
      | None =>
          match iota_ (tile_assignment_ s) with
          | Some i => n ← iota_num_elements i; expect_devices num_devices n
          | None =>
              '(a, _) ← array (tile_assignment_ s);
              seen_devices ← unique_devices num_devices ∅ (values_ a);
              expect_devices num_devices (Z.of_nat (base.size seen_devices))
          end
      end.

Fixpoint validate_leaves (elements : list HloSharding) (shapes : list Shape.Shape) (num_devices : option Z) : res unit :=
  match elements, shapes with
  | e :: elements, shape :: shapes => ValidateNonTuple e shape num_devices;; validate_leaves elements shapes num_devices
  | _, _ => Ok tt
  end.

Definition ValidateTuple s (shape : Shape.Shape) (num_devices : option Z) : res unit :=
  guard_res (Shape.IsTuple shape) InvalidArgument;;
  CheckLeafCount s shape;;
  if (GetLeafCount shape =? 0) && (length (tuple_elements_ s) =? 0)%nat then Ok tt
  else
    elements ← Shape.value (AsShapeTree s shape);
    validate_leaves elements (leaf_shapes shape) num_devices.

Definition Validate s (shape : Shape.Shape) (num_devices : option Z) : res unit :=
  match shape with
  | Shape.TokenShape => Ok tt
  | _ => if tuple_ s then ValidateTuple s shape num_devices else ValidateNonTuple s shape num_devices
  end.

(** ** To tiles and to named axes *)

Fixpoint V3ToV2 s : res HloSharding :=
  if tuple_ s then
    elements ← (fix all (l : list HloSharding) : res (list HloSharding) :=
                  match l with [] => Ok [] | e :: l => e ← V3ToV2 e; l ← all l; Ok (e :: l) end) (tuple_elements_ s);
    Ok (FlatTuple elements)
  else match named_sharding_ s with Some n => V3ToV2Named n | None => Ok s end.

(** The local axes of every dimension, from the minor one. *)
Fixpoint local_axes_loop (sub_dims : list SubDimInfo) (local_axis_index : Z) (dim_to_local_axes : list (list Z))
    : res (list (list Z)) :=
  match sub_dims with
  | [] => Ok dim_to_local_axes
  | info :: sub_dims =>
      axes ← at_z dim_to_local_axes (tile_dim_index info);
      let k := tile_sub_dim_index info in
      guard_res (0 <=? k) Undefined;;
      let axes := if k >=? Z.of_nat (length axes) then resize (Z.to_nat k + 1) 0 axes else axes in
      local_axes_loop sub_dims (local_axis_index + 1)
        (<[Z.to_nat (tile_dim_index info) := <[Z.to_nat k := local_axis_index]> axes]> dim_to_local_axes)
  end.

(** The manual and the unreduced axes. *)
Fixpoint subgroup_axes s (rank : Z) (sub_dims : list SubDimInfo) (local_axis_index : Z) : res (list AxisRef * list AxisRef) :=
  match sub_dims with
  | [] => Ok ([], [])
  | info :: sub_dims =>
      type ← (if tile_dim_index info >=? rank then
                let subgroup_idx := tile_dim_index info - rank in
                if replicate_on_last_tile_dim_ s then guard_res (subgroup_idx =? 0) CheckFailed;; Ok REPLICATED
                else at_z (subgroup_types_ s) subgroup_idx
              else Ok REPLICATED);
      guard_res (bool_decide (type = MANUAL ∨ type = UNREDUCED ∨ type = REPLICATED)) CheckFailed;;
      '(manual, unreduced) ← subgroup_axes s rank sub_dims (local_axis_index + 1);
      let a := FullAxis local_axis_index in
      Ok (if decide (type = MANUAL) then a :: manual else manual,
          if decide (type = UNREDUCED) then a :: unreduced else unreduced)
  end.

Definition axis_name (i : nat) : string := ("axis_" +:+ pretty (N.of_nat i))%string.

(** The axes when the assignment is not one of an iota: one for every dimension. *)
Definition whole_dims (ds : list Z) : list SubDimInfo := imap (λ i d, MkSubDim (Z.of_nat i) 0 (Z.of_nat i) d) ds.

Definition ToNamedSharding s : res (NamedSharding OpMetadata) :=
  guard_res (negb (tuple_ s)) CheckFailed;;
  check_not (IsUnknown s);;
  check_not (IsManual s);;
  check_not (IsUnreduced s);;
  match named_sharding_ s with
  | Some n => Ok n
  | None =>
      replicated ← IsReplicated s;
      single ← IsSingleDevice s;
      if (replicated : bool) then NamedReplicate (metadata_ s)
      else if (single : bool) then
        t ← tile_assignment s; d ← first t; NamedSingleDevice d (metadata_ s)
      else
        t ← tile_assignment s;
        result ← AnalyzeTileAssignment t;
        ds ← TileAssign.dimensions t;
        let sub_dims := match result with Some r => TileAssign.sub_dims r | None => whole_dims ds end in
        let local_mesh := match result with Some r => TileAssign.local_mesh r | None => ds end in
        let names := axis_name <$> seq 0 (length local_mesh) in
        mesh ← (match result with
                | Some _ => IotaMesh local_mesh names
                | None => '(a, _) ← array t; ArrayMesh a names
                end);
        rank ← TiledDataRank s;
        dim_to_local_axes ← local_axes_loop sub_dims 0 (replicate (length ds) []);
        '(manual, unreduced) ← subgroup_axes s rank sub_dims 0;
        dim_shardings ← mapM (λ i, axes ← at_z dim_to_local_axes i;
                                   Ok (MkDimSharding (FullAxis <$> reverse axes) true)) (seqZ 0 rank);
        make_named mesh dim_shardings [] unreduced manual (metadata_ s)
  end.

Fixpoint ToV3Sharding s : res HloSharding :=
  if tuple_ s then
    elements ← (fix all (l : list HloSharding) : res (list HloSharding) :=
                  match l with [] => Ok [] | e :: l => e ← ToV3Sharding e; l ← all l; Ok (e :: l) end) (tuple_elements_ s);
    Ok (FlatTuple elements)
  else n ← ToNamedSharding s; Ok (of_named n).

(** ** Protos *)

Inductive ShardGroupType := AS | LIKE.

Inductive OpShardingProto := MkOpSharding {
  proto_type : ShardingType;
  tile_assignment_dimensions : list Z;
  tile_assignment_devices : list Z;
  tuple_shardings : list OpShardingProto;
  proto_replicate_on_last_tile_dim : bool;
  proto_metadata : list OpMetadata;
  last_tile_dims : list ShardingType;
  iota_reshape_dims : list Z;
  iota_transpose_perm : list Z;
  is_shard_group : bool;
  proto_shard_group_id : Z;
  shard_group_type : ShardGroupType;
  named_sharding_proto : option (NamedShardingProto OpMetadata)
}.

Definition SetShardGroupFromProto (proto : OpShardingProto) s : HloSharding :=
  SetShardGroup
    (if is_shard_group proto then
       match shard_group_type proto with
       | AS => ShardAs (proto_shard_group_id proto)
       | LIKE => ShardLike (proto_shard_group_id proto)
       end
     else NotShardGroup) s.

(** The overflow of each product is computed, and not kept. *)
Definition product_no_overflow (dims : list Z) : Z := foldl (λ p d, (WindowArith.OverflowSafeMultiply p d).1) 1 dims.

Definition create_tile_assignment (proto : OpShardingProto) : res TileAssignment :=
  match iota_reshape_dims proto with
  | [] =>
      a ← make (tile_assignment_dimensions proto) 0;
      guard_res (length (tile_assignment_devices proto) =? length (values_ a))%nat Undefined;;
      Ok (of_array (MkArray (tile_assignment_dimensions proto) (tile_assignment_devices proto)))
  | _ => of_transform (tile_assignment_dimensions proto) (iota_reshape_dims proto) (iota_transpose_perm proto)
  end.

(** The last part of [FromProto], for a tiled sharding. *)
Definition tiled_from_proto (proto : OpShardingProto) : res HloSharding :=
  let use_iota := negb (bool_decide (iota_reshape_dims proto = [])) in
  (if use_iota then
     guard_res (bool_decide (tile_assignment_devices proto = [])) Internal;;
     guard_res (length (iota_reshape_dims proto) =? length (iota_transpose_perm proto))%nat Internal
   else guard_res (negb (bool_decide (tile_assignment_devices proto = []))) Internal);;
  if use_iota && forallb (Z.eqb 1) (iota_reshape_dims proto) then Ok (Replicate (proto_metadata proto))
  else if negb use_iota && (length (tile_assignment_devices proto) =? 1)%nat then Ok (Replicate (proto_metadata proto))
  else
    guard_res (negb (bool_decide (tile_assignment_dimensions proto = []))) Internal;;
    guard_res (forallb (λ d, 0 <? d) (tile_assignment_dimensions proto)) Internal;;
    guard_res (product_no_overflow (tile_assignment_dimensions proto) =?
      (if use_iota then product_no_overflow (iota_reshape_dims proto)
       else Z.of_nat (length (tile_assignment_devices proto)))) Internal;;
    (if negb (bool_decide (last_tile_dims proto = [])) then
       guard_res (negb (proto_replicate_on_last_tile_dim proto)) Internal;;
       t ← create_tile_assignment proto; Subgroup t (last_tile_dims proto) (proto_metadata proto)
     else if proto_replicate_on_last_tile_dim proto then
       t ← create_tile_assignment proto; PartialTile t (proto_metadata proto)
     else t ← create_tile_assignment proto; Ok (of_tiles t false (proto_metadata proto))).

Fixpoint FromProto (proto : OpShardingProto) : res HloSharding :=
  match named_sharding_proto proto with
  | Some n => n ← NamedFromProto n; Ok (of_named n)
  | None =>
      let metadata := proto_metadata proto in
      s ← (match proto_type proto with
           | TUPLE =>
               guard_res (bool_decide (length metadata = 0%nat)) Internal;;
               elements ← (fix all (l : list OpShardingProto) : res (list HloSharding) :=
                             match l with [] => Ok [] | e :: l => e ← FromProto e; l ← all l; Ok (e :: l) end)
                            (tuple_shardings proto);
               Ok (FlatTuple elements)
           | REPLICATED => Ok (Replicate metadata)
           | MANUAL => Ok (Manual metadata)
           | UNREDUCED => Ok (Unreduced metadata)
           | UNKNOWN => Ok (Unknown metadata)
           | MAXIMAL =>
               match tile_assignment_devices proto with
               | [device_id] => Ok (SingleDevice device_id metadata)
               | _ => Fail Internal
               end
           | OTHER => tiled_from_proto proto
           end);
      Ok (SetShardGroupFromProto proto s)
  end.

(** The type, and the fields that only a tiled sharding has. *)
Definition kind_to_proto s : res (ShardingType * option (list Z)) :=
  replicated ← IsReplicated s;
  if (replicated : bool) then Ok (REPLICATED, None)
  else
    single ← IsSingleDevice s;
    if (single : bool) then Ok (MAXIMAL, None)
    else
      manual ← IsManual s;
      if (manual : bool) then Ok (MANUAL, None)
      else
        unreduced ← IsUnreduced s;
        if (unreduced : bool) then Ok (UNREDUCED, None)
        else
          unknown ← IsUnknown s;
          if (unknown : bool) then Ok (UNKNOWN, None) else ds ← dimensions s; Ok (OTHER, Some ds).

Definition leaf_to_proto s : res OpShardingProto :=
  '(reshape, perm, devices) ← (match iota_ (tile_assignment_ s) with
                               | Some i => Ok (reshape_dims i, transpose_perm i, [])
                               | None => '(a, _) ← array (tile_assignment_ s); Ok ([], [], values_ a)
                               end);
  '(type, ds) ← kind_to_proto s;
  let grouped := IsShardGroup s in
  Ok (MkOpSharding type (default [] ds) devices []
        (match ds with Some _ => replicate_on_last_tile_dim_ s | None => false end) (metadata_ s)
        (match ds with Some _ => subgroup_types_ s | None => [] end) reshape perm
        grouped (if grouped then shard_group_id (shard_group_ s) else 0)
        (if grouped && negb (shard_as (shard_group_ s)) then LIKE else AS) None).

Fixpoint ToProto s : res OpShardingProto :=
  if tuple_ s then
    guard_res (bool_decide (length (metadata_ s) = 0%nat)) CheckFailed;;
    elements ← (fix all (l : list HloSharding) : res (list OpShardingProto) :=
                  match l with [] => Ok [] | e :: l => e ← ToProto e; l ← all l; Ok (e :: l) end) (tuple_elements_ s);
    Ok (MkOpSharding TUPLE [] [] elements false [] [] [] [] false 0 AS None)
  else
    match named_sharding_ s with
    | Some n => p ← NamedToProto n; Ok (MkOpSharding REPLICATED [] [] [] false [] [] [] [] false 0 AS (Some p))
    | None => leaf_to_proto s
    end.

End Shardings.
#[global] Arguments OpShardingProto : clear implicits.
End ShardOps.
