(* ===== verification/ShardTiles.v ===== *)
(** * Shardings: the tiles of an array

    The tiles partition the array they shard: every index lies in the tiles of one group of
    replicas, and the two ways to find the tile of a device agree. *)
From S2P Require Import Prelude WindowArith PermUtil Shape Radix Layouts IndexProofs TilingProofs Arrays ArrayProofs TransposeProofs TileAssign TileValue TileCanonical TileRefine MeshAxes NamedShard Sharding ShardOps.
#[local] Open Scope Z_scope.

Module ShardTiles.
Import PermUtil Radix IndexProofs Arrays ArrayProofs TileAssign TileValue TileCorrect TileRefine Sharding ShardOps.

(** ** Advancing an index *)

Lemma next_index_from_loop k ds rest xs :
  (k ≤ length ds)%nat → length xs = length ds →
  next_index_from k xs (ds ++ rest) = next_index_loop k ds xs.
Proof.
  revert xs. induction k as [| k IH]; intros xs Hk Hl; [done |]. cbn [next_index_from next_index_loop].
  destruct (lookup_lt_is_Some_2 xs k) as [x Ex]; [lia |]. destruct (lookup_lt_is_Some_2 ds k) as [d Ed]; [lia |].
  assert (Ed' : (ds ++ rest) !! k = Some d) by (by apply lookup_app_l_Some).
  unfold at_res. rewrite Ex, Ed, Ed'. cbn [mbind res_bind]. destruct (s64 (x + 1)); [| done]. cbn [mbind res_bind].
  destruct (_ <? d); [done |]. apply IH; [lia | by rewrite length_insert].
Qed.

Lemma NextIndex_spec ds rest m :
  Forall (λ d, 0 < d) ds → prod ds ≤ int64_max → 0 ≤ m < prod ds →
  if m + 1 <? prod ds then NextIndex (unlin ds m) (ds ++ rest) = Ok (true, unlin ds (m + 1))
  else NextIndex (unlin ds m) (ds ++ rest) = Ok (false, replicate (length ds) 0).
Proof.
  intros Hd Hm Hk. pose proof (unlin_bounds ds m Hd) as Hb. pose proof (in_bounds_length _ _ Hb) as El.
  unfold NextIndex. rewrite next_index_from_loop, <- El by lia.
  change (next_index_loop (length ds) ds (unlin ds m)) with (next_index ds (unlin ds m)).
  pose proof (next_index_spec ds _ Hb Hm) as H. rewrite lin_unlin in H by done.
  destruct (m + 1 <? prod ds); [| done]. destruct H as (ys & E & Hy & Ey). rewrite E. by rewrite <- Ey, unlin_lin.
Qed.

(** ** The tiles of one dimension *)

(** The size of the tiles, all but the last ones being whole. *)
Definition tile_size (d n : Z) : Z := - (- d / n).

Lemma tile_size_bounds d n : 0 ≤ d → 0 < n → 0 ≤ tile_size d n ∧ d ≤ tile_size d n * n < d + n.
Proof.
  intros Hd Hn. unfold tile_size. pose proof (Z.div_mod (- d) n). pose proof (Z.mod_pos_bound (- d) n Hn). nia.
Qed.

Lemma tile_size_code d n : 0 ≤ d ≤ int64_max → 0 < n ≤ int64_max → WindowArith.CeilOfRatio d n = Ok (tile_size d n).
Proof.
  intros Hd Hn. unfold WindowArith.CeilOfRatio. rewrite WindowArith.CeilOrFloorOfRatio_spec by (int_lia || lia). done.
Qed.

(** An edge of the tile number [x]. *)
Definition edge (d n x : Z) : Z := Z.min (x * tile_size d n) d.

(** The tile that the index [i] lies in. *)
Definition owner (d n i : Z) : Z := i / tile_size d n.

Lemma owner_unique d n i x :
  0 ≤ i < d → 0 < n → edge d n x ≤ i < edge d n (x + 1) ↔ x = owner d n i.
Proof.
  intros Hi Hn. unfold edge, owner. destruct (tile_size_bounds d n) as [H0 H1]; [lia | done |].
  assert (Ht : 0 < tile_size d n) by nia. pose proof (Z.div_mod i (tile_size d n)). pose proof (Z.mod_pos_bound i _ Ht).
  set (t := tile_size d n) in *. split; [| intros ->; nia].
  intros Hx. apply Z.div_unique with (r := i - t * x); [left | lia]. split; [nia |]. destruct (Z.le_gt_cases d ((x + 1) * t)); nia.
Qed.

Lemma owner_bounds d n i : 0 ≤ i < d → 0 < n → 0 ≤ owner d n i < n.
Proof.
  intros Hi Hn. unfold owner. destruct (tile_size_bounds d n) as [H0 H1]; [lia | done |].
  assert (0 < tile_size d n) by nia. split; [apply Z.div_pos; lia |]. apply Z.div_lt_upper_bound; nia.
Qed.

(** ** The tile of an index *)

(** The sizes of the array and of the assignment leave room for the products. *)
Definition fits (dims ns : list Z) : Prop := Forall2 (λ d n, 0 ≤ d ∧ 0 < n ∧ d + n ≤ int64_max) dims ns.

Fixpoint edges (dims ns xs : list Z) : list Z :=
  match dims, ns, xs with
  | d :: dims, n :: ns, x :: xs => edge d n x :: edges dims ns xs
  | _, _, _ => []
  end.

(** The limits are the offsets of the next tiles. *)
Definition low (dims ns xs : list Z) : list Z := edges dims ns xs.
Definition high (dims ns xs : list Z) : list Z := edges dims ns (Z.succ <$> xs).

Definition inside (lo hi ys : list Z) : Prop := Forall2 (λ b i, b.1 ≤ i < b.2) (zip lo hi) ys.

#[export] Instance inside_dec lo hi ys : Decision (inside lo hi ys).
Proof. unfold inside. apply _. Defined.

Definition owners (dims ns ys : list Z) : list Z := zip_with (λ p i, owner p.1 p.2 i) (zip dims ns) ys.

Lemma inside_owners dims ns xs ys :
  fits dims ns → in_bounds ns xs → in_bounds dims ys →
  inside (low dims ns xs) (high dims ns xs) ys ↔ xs = owners dims ns ys.
Proof.
  intros Hf. revert xs ys. induction Hf as [| d n dims ns (Hd & Hn & Hm) Hf IH]; intros xs ys Hx Hi.
  - inversion Hx; subst. inversion Hi; subst. split; [done |]. constructor.
  - apply Forall2_cons_inv_l in Hx as (x & xs' & Hx0 & Hx & ->). apply Forall2_cons_inv_l in Hi as (i & ys' & Hi0 & Hi & ->).
    unfold inside, low, high in *. cbn [fmap list_fmap edges zip zip_with owners]. rewrite Forall2_cons. cbn [fst snd].
    rewrite (owner_unique d n i x Hi0 Hn). rewrite (IH xs' ys' Hx Hi). unfold owners. split; [by intros [-> ->] | by intros [= -> ->]].
Qed.

Lemma owners_bounds dims ns ys : fits dims ns → in_bounds dims ys → in_bounds ns (owners dims ns ys).
Proof.
  intros Hf. revert ys. induction Hf as [| d n dims ns (Hd & Hn & Hm) Hf IH]; intros ys Hi.
  - inversion Hi; subst. constructor.
  - apply Forall2_cons_inv_l in Hi as (i & ys' & Hi0 & Hi & ->). unfold owners. cbn [zip zip_with fst snd].
    constructor; [by apply owner_bounds | by apply IH].
Qed.

(** ** What the code computes *)

Definition tile_sizes_of (dims ns : list Z) : list Z := zip_with tile_size dims ns.

Lemma tile_sizes_code dims ns rest : fits dims ns → tile_sizes dims (ns ++ rest) = Ok (tile_sizes_of dims ns).
Proof.
  induction 1 as [| d n dims ns (Hd & Hn & Hm) Hf IH]; [done |]. cbn [tile_sizes app].
  rewrite tile_size_code by int_lia. cbn [mbind res_bind]. rewrite IH. done.
Qed.

Lemma edge_fits d n x : 0 ≤ d → 0 < n → d + n ≤ int64_max → 0 ≤ x ≤ n → 0 ≤ x * tile_size d n ≤ int64_max.
Proof. intros Hd Hn Hm Hx. destruct (tile_size_bounds d n Hd Hn). nia. Qed.

(** Both loops that compute edges agree; [plus] is 0 for offsets and 1 for limits. *)
Lemma tile_edges_code plus dims ns xs :
  fits dims ns → in_bounds ns xs → 0 ≤ plus ≤ 1 →
  tile_edges plus (tile_sizes_of dims ns) xs dims = Ok (edges dims ns ((λ x, x + plus) <$> xs)).
Proof.
  intros Hf. revert xs. induction Hf as [| d n dims ns (Hd & Hn & Hm) Hf IH]; intros xs Hx Hp.
  - inversion Hx; subst. done.
  - apply Forall2_cons_inv_l in Hx as (x & xs' & Hx0 & Hx & ->). cbn [tile_edges tile_sizes_of zip_with fmap list_fmap edges].
    pose proof (edge_fits d n (x + plus) Hd Hn Hm ltac:(lia)). rewrite s64_in by int_lia. cbn [mbind res_bind].
    rewrite s64_in by (rewrite Z.mul_comm; int_lia). cbn [mbind res_bind]. unfold tile_sizes_of in IH. rewrite IH by done.
    cbn [mbind res_bind]. unfold edge. by rewrite (Z.mul_comm (tile_size d n)).
Qed.

Lemma plus_0 (xs : list Z) : (λ x, x + 0) <$> xs = xs.
Proof. induction xs as [| x xs IH]; cbn; [done |]. by rewrite Z.add_0_r, IH. Qed.

Lemma plus_1 (xs : list Z) : (λ x, x + 1) <$> xs = Z.succ <$> xs.
Proof. done. Qed.

(** ** Tiled shardings *)

Section Tiled.
Context {OpMetadata : Type}.
Notation HloSharding := (HloSharding OpMetadata).
Implicit Types s : HloSharding.

(** A sharding in the tile format: the array of its devices, the sizes of the data
    dimensions, and those of the subgroups. *)
Record tiled s (a : Array Z) (ns rest : list Z) : Prop := {
  t_tuple : tuple_ s = false;
  t_named : named_sharding_ s = None;
  t_flags : replicated_ s = false ∧ single_device_ s = false ∧ manual_ s = false ∧ unknown_ s = false ∧ unreduced_ s = false;
  t_contents : contents (tile_assignment_ s) a;
  t_sizes : sizes_ a = ns ++ rest;
  t_rest : length rest = (Nat.b2n (replicate_on_last_tile_dim_ s) + length (subgroup_types_ s))%nat;
  t_some : sizes_ a ≠ []
}.

(** The only subgroups are [k] replicas. *)
Definition only_replicas s (rest : list Z) (k : Z) : Prop :=
  (replicate_on_last_tile_dim_ s = false ∧ subgroup_types_ s = [] ∧ rest = [] ∧ k = 1) ∨
  (replicate_on_last_tile_dim_ s = true ∧ subgroup_types_ s = [] ∧ rest = [k]) ∨
  (replicate_on_last_tile_dim_ s = false ∧ subgroup_types_ s = [REPLICATED] ∧ rest = [k]).

Lemma all_leaves_leaf leaf s : tuple_ s = false → all_leaves leaf s = leaf s.
Proof. destruct s; cbn. by intros ->. Qed.

Section Sharding.
Context (s : HloSharding) (a : Array Z) (ns rest : list Z).
Hypothesis Ht : tiled s a ns rest.

Lemma tiled_array : array_ok a.
Proof. eapply contents_ok, (t_contents _ _ _ _ Ht). Qed.

Lemma tiled_positive : Forall (λ n, 0 < n) ns ∧ Forall (λ n, 0 < n) rest.
Proof. pose proof (a_sizes a tiled_array) as H. rewrite (t_sizes _ _ _ _ Ht) in H. by apply Forall_app in H. Qed.

Lemma tiled_kind :
  IsReplicated s = Ok false ∧ IsSingleDevice s = Ok false ∧ IsManual s = Ok false ∧ IsUnknown s = Ok false ∧
  IsTiledLeaf s = Ok true.
Proof.
  destruct Ht as [Htu Hn (H1 & H2 & H3 & H4 & H5) _ _ _ _].
  unfold IsReplicated, IsSingleDevice, IsManual, IsUnknown. rewrite !all_leaves_leaf by done.
  unfold IsTiledLeaf, IsReplicatedLeaf, IsSingleDeviceLeaf, IsManualLeaf, IsUnknownLeaf, IsUnreducedLeaf, UseNamedShardingLeaf.
  rewrite Hn, H1, H2, H3, H4, H5. done.
Qed.

Lemma tiled_assignment : tile_assignment s = Ok (tile_assignment_ s) ∧ device_assignment s = Ok (tile_assignment_ s).
Proof.
  unfold tile_assignment, device_assignment, UseNamedShardingLeaf. by rewrite (t_tuple _ _ _ _ Ht), (t_named _ _ _ _ Ht).
Qed.

Lemma tiled_reads :
  dimensions s = Ok (ns ++ rest) ∧ num_devices s = Ok (Arrays.num_elements a) ∧
  num_dimensions s = Ok (Z.of_nat (length (ns ++ rest))) ∧ (∀ i, dimension s i = at_z (ns ++ rest) i) ∧
  EachTile s = Ok (imap (λ i v, (unlin (ns ++ rest) (Z.of_nat i), v)) (values_ a)) ∧
  ∃ t, array (tile_assignment_ s) = Ok (a, t).
Proof.
  destruct (tile_reads_contents _ _ (t_contents _ _ _ _ Ht)) as (_ & Hd & Hnd & Hdim & Hne & _ & Heach & t' & Ea & _).
  destruct tiled_kind as (Hr & _). unfold dimensions, num_devices, num_dimensions, dimension, EachTile.
  destruct tiled_assignment as [E1 E2]. rewrite E1, E2, (t_named _ _ _ _ Ht), Hr. cbn [mbind res_bind].
  rewrite Hd, Hne, Hnd, Heach, (Each_spec a tiled_array), (t_sizes _ _ _ _ Ht).
  split; [done |]. split; [done |]. split; [unfold Arrays.num_dimensions; by rewrite (t_sizes _ _ _ _ Ht) |].
  split; [| split; [done |]; eauto]. intros i. rewrite Hdim. unfold dim. by rewrite (t_sizes _ _ _ _ Ht).
Qed.

Lemma tiled_rank : TiledDataRank s = Ok (Z.of_nat (length ns)).
Proof.
  destruct tiled_kind as (_ & _ & _ & _ & H5). destruct tiled_reads as (_ & _ & H3 & _).
  unfold TiledDataRank, check, ReplicateOnLastTileDim, UseNamedShardingLeaf. rewrite H5, H3, (t_named _ _ _ _ Ht). cbn.
  f_equal. rewrite length_app, (t_rest _ _ _ _ Ht). destruct (replicate_on_last_tile_dim_ s); cbn; lia.
Qed.

(** *** The tile of a device *)

Lemma unlin_app ds1 ds2 j :
  Forall (λ d, 0 < d) ds1 → Forall (λ d, 0 < d) ds2 → 0 ≤ j < prod ds1 * prod ds2 →
  unlin (ds1 ++ ds2) j = unlin ds1 (j / prod ds2) ++ unlin ds2 (j mod prod ds2).
Proof.
  intros H1 H2 Hj. pose proof (prod_pos ds2 H2) as Hp. pose proof (Z.mod_pos_bound j _ Hp).
  pose proof (Z.div_pos j (prod ds2) ltac:(lia) Hp). pose proof (Z.div_lt_upper_bound j (prod ds2) (prod ds1) Hp ltac:(lia)).
  pose proof (unlin_bounds ds1 (j / prod ds2) H1) as B1. pose proof (unlin_bounds ds2 (j mod prod ds2) H2) as B2.
  rewrite <- (unlin_lin (ds1 ++ ds2) (unlin ds1 (j / prod ds2) ++ unlin ds2 (j mod prod ds2))); [| by apply Forall2_app].
  f_equal. rewrite lin_app by (by eapply in_bounds_length). rewrite !lin_unlin by (done || lia).
  pose proof (Z.div_mod j (prod ds2)). lia.
Qed.

Lemma find_last {A} (l : list (A * Z)) i x d init :
  l !! i = Some (x, d) → NoDup l.*2 → foldl (λ ret e, if e.2 =? d then e.1 else ret) init l = x.
Proof.
  intros Hi Hn. rewrite <- (take_drop_middle l i (x, d) Hi) in Hn |- *. generalize dependent (drop (S i) l). generalize (take i l).
  clear Hi. intros l1 l2 Hn. rewrite fmap_app in Hn.
  apply NoDup_app in Hn as (_ & _ & Hn). cbn in Hn. apply NoDup_cons in Hn as [Hn _].
  rewrite foldl_app. cbn [foldl snd fst]. rewrite Z.eqb_refl. generalize x. induction l2 as [| [y e] l2 IH]; intros z; [done |].
  cbn in *. rewrite not_elem_of_cons in Hn. destruct Hn as [Hne Hn]. rewrite (proj2 (Z.eqb_neq e d)) by congruence. by apply IH.
Qed.

Hypothesis Hdev : NoDup (values_ a).

Lemma device_position j d : values_ a !! j = Some d → 0 ≤ Z.of_nat j < prod ns * prod rest.
Proof.
  intros Hj%lookup_lt_Some. pose proof (a_values a tiled_array) as H. rewrite (t_sizes _ _ _ _ Ht), prod_app in H. lia.
Qed.

Lemma TileIndexForDevice_spec j d :
  values_ a !! j = Some d → TileIndexForDevice s d = Ok (unlin ns (Z.of_nat j / prod rest)).
Proof.
  intros Hj. pose proof (device_position j d Hj) as Hb. destruct tiled_positive as [P1 P2].
  destruct (t_flags _ _ _ _ Ht) as (F1 & F2 & _). destruct tiled_kind as (_ & _ & K1 & K2 & _).
  destruct tiled_reads as (_ & _ & _ & _ & E & _). unfold TileIndexForDevice, check_not.
  rewrite F1, F2, K1, K2, (t_tuple _ _ _ _ Ht), E, tiled_rank. cbn [guard_res negb mbind res_bind].
  rewrite (find_last _ j (unlin (ns ++ rest) (Z.of_nat j)) d).
  - assert (El : length (unlin (ns ++ rest) (Z.of_nat j)) = length (ns ++ rest)).
    { symmetry. eapply in_bounds_length, unlin_bounds. by rewrite Forall_app. }
    rewrite bool_decide_false.
    + cbn [guard_res negb mbind res_bind]. rewrite (proj2 (Z.leb_le _ _)) by lia. cbn [guard_res mbind res_bind]. f_equal.
      unfold resize. rewrite Nat2Z.id, El, length_app. replace (length ns - (length ns + length rest))%nat with 0%nat by lia.
      cbn [replicate]. rewrite app_nil_r, unlin_app by done. apply take_app_length'. pose proof (in_bounds_length _ _ (unlin_bounds ns (Z.of_nat j / prod rest) P1)). lia.
    + intros E0. rewrite E0 in El. pose proof (t_some _ _ _ _ Ht) as Hs. rewrite (t_sizes _ _ _ _ Ht) in Hs.
      destruct (ns ++ rest); [done | discriminate El].
  - by rewrite list_lookup_imap, Hj.
  - replace ((imap _ _).*2) with (values_ a); [done |]. clear. apply list_eq. intros i.
    rewrite list_lookup_fmap, list_lookup_imap. by destruct (values_ a !! i).
Qed.

Lemma tile_bounds_spec plus i0 pre dims ns' xs :
  (∀ i, dimension s i = at_z (pre ++ ns' ++ rest) i) → length pre = i0 → fits dims ns' → in_bounds ns' xs → 0 ≤ plus ≤ 1 →
  tile_bounds s plus (Z.of_nat i0) xs dims = Ok (edges dims ns' ((λ x, x + plus) <$> xs)).
Proof.
  intros Hdim Hl Hf. revert i0 pre xs Hdim Hl.
  induction Hf as [| d n dims ns' (Hd & Hn & Hm) Hf IH]; intros i0 pre xs Hdim Hl Hx Hp.
  - inversion Hx; subst. done.
  - apply Forall2_cons_inv_l in Hx as (x & xs' & Hx0 & Hx & ->). cbn [tile_bounds fmap list_fmap edges].
    rewrite Hdim. unfold at_z. rewrite (proj2 (Z.ltb_ge _ _)) by lia. rewrite Nat2Z.id. cbn [app].
    rewrite at_middle by done. cbn [mbind res_bind]. rewrite tile_size_code by int_lia. cbn [mbind res_bind].
    pose proof (edge_fits d n (x + plus) Hd Hn Hm ltac:(lia)). rewrite s64_in by int_lia. cbn [mbind res_bind].
    rewrite s64_in by int_lia. cbn [mbind res_bind].
    replace (Z.of_nat i0 + 1) with (Z.of_nat (S i0)) by lia. rewrite (IH (S i0) (pre ++ [n]) xs'); [done | | | done | done].
    + intros i. rewrite Hdim. by rewrite <- app_assoc.
    + rewrite length_app. cbn. lia.
Qed.

(** The edges of the tile of the device at position [j]. *)
Lemma tile_edge_spec plus whole shape dims j d :
  values_ a !! j = Some d → shape_dimensions shape = Ok dims → fits dims ns → 0 ≤ plus ≤ 1 →
  tile_edge_for_device s plus whole shape d = Ok (edges dims ns ((λ x, x + plus) <$> unlin ns (Z.of_nat j / prod rest))).
Proof.
  intros Hj Hsh Hf Hp. destruct tiled_positive as [P1 P2]. destruct (t_flags _ _ _ _ Ht) as (F1 & F2 & _).
  destruct tiled_kind as (_ & _ & K1 & K2 & _). destruct tiled_reads as (_ & _ & _ & Hdim & _).
  unfold tile_edge_for_device, check_not. rewrite (t_tuple _ _ _ _ Ht), K1, K2, Hsh, F1, F2, tiled_rank.
  cbn [guard_res negb mbind res_bind orb]. rewrite (proj2 (Z.eqb_eq _ _)) by (f_equal; by eapply Forall2_length).
  cbn [guard_res mbind res_bind]. rewrite (TileIndexForDevice_spec j d Hj). cbn [mbind res_bind].
  apply (tile_bounds_spec plus 0%nat []); [done | done | done | by apply unlin_bounds | done].
Qed.
End Sharding.

(** *** The tiles one after the other *)

(** The calls for the tile at position [m]: one for each replica. *)
Definition calls_at (dims ns : list Z) (k : Z) (devices : list Z) (m : Z) : list TileCall :=
  (λ d, MkCall d (low dims ns (unlin ns m)) (high dims ns (unlin ns m))) <$>
    take (Z.to_nat k) (drop (Z.to_nat (m * k)) devices).

Definition all_calls (dims ns : list Z) (k : Z) (devices : list Z) : list TileCall :=
  seqZ 0 (prod ns) ≫= calls_at dims ns k devices.

Lemma replica_loop_spec count devices n flat offset limit :
  Forall (λ d, 0 ≤ d < n) devices → n = Z.of_nat (length devices) → 0 ≤ flat → flat + Z.of_nat count ≤ n →
  replica_loop count devices n flat offset limit =
  Ok ((λ d, MkCall d offset limit) <$> take count (drop (Z.to_nat flat) devices), flat + Z.of_nat count, None).
Proof.
  intros Hd Hn. revert flat. induction count as [| count IH]; intros flat H0 Hc; cbn [replica_loop].
  - cbn. do 3 f_equal. lia.
  - rewrite (proj2 (Z.ltb_lt _ _)) by lia. cbn [guard_res mbind res_bind].
    destruct (lookup_lt_is_Some_2 devices (Z.to_nat flat)) as [d Ed]; [lia |].
    unfold at_z at 1. rewrite (proj2 (Z.ltb_ge _ _)) by lia. unfold at_res. rewrite Ed. cbn [mbind res_bind].
    pose proof (Forall_lookup_1 _ _ _ _ Hd Ed) as Hb. cbn beta in Hb.
    rewrite (proj2 (Z.ltb_ge d 0)) by lia. rewrite Z.geb_leb, (proj2 (Z.leb_gt n d)) by lia. cbn [orb].
    rewrite IH by lia. cbn [mbind res_bind]. rewrite (drop_S devices d (Z.to_nat flat) Ed). cbn [take fmap list_fmap].
    replace (Z.to_nat (flat + 1)) with (S (Z.to_nat flat)) by lia. do 3 f_equal. lia.
Qed.

Lemma seqZ_from m n : 0 ≤ m < n → seqZ m (n - m) = m :: seqZ (m + 1) (n - (m + 1)).
Proof. intros H. rewrite seqZ_cons by lia. rewrite <- Z.add_1_r. do 2 f_equal. lia. Qed.

Lemma each_tile_loop_spec fuel k devices dims ns rest m :
  fits dims ns → Forall (λ d, 0 ≤ d < Z.of_nat (length devices)) devices →
  Z.of_nat (length devices) = prod ns * k → 0 < k → prod ns ≤ int64_max → 0 ≤ m < prod ns →
  (Z.to_nat (prod ns - m) ≤ fuel)%nat →
  each_tile_loop fuel (Z.to_nat k) devices dims (tile_sizes_of dims ns) (ns ++ rest) (Z.of_nat (length devices)) (m * k) (unlin ns m) =
  Ok (seqZ m (prod ns - m) ≫= calls_at dims ns k devices, None).
Proof.
  intros Hf Hd Hl Hk Hmax. assert (Hns : Forall (λ n, 0 < n) ns).
  { clear -Hf. induction Hf as [| d n ? ? (? & ? & ?)]; constructor; done. }
  revert m. induction fuel as [| fuel IH]; intros m Hm Hfu; [lia |]. cbn [each_tile_loop].
  pose proof (unlin_bounds ns m Hns) as Hb.
  rewrite !tile_edges_code by (done || lia). cbn [mbind res_bind].
  rewrite replica_loop_spec by (done || nia). cbn [mbind res_bind].
  assert (Ec : (λ d, MkCall d (edges dims ns ((λ x, x + 0) <$> unlin ns m)) (edges dims ns ((λ x, x + 1) <$> unlin ns m))) <$>
    take (Z.to_nat k) (drop (Z.to_nat (m * k)) devices) = calls_at dims ns k devices m).
  { unfold calls_at, low, high. by rewrite plus_0. }
  rewrite Ec. pose proof (NextIndex_spec ns rest m Hns Hmax Hm) as Hnx. rewrite seqZ_from by lia. cbn [mbind list_bind].
  destruct (Z.ltb_spec (m + 1) (prod ns)) as [Hlt | Hge]; rewrite Hnx; cbn [mbind res_bind].
  - replace (m * k + Z.of_nat (Z.to_nat k)) with ((m + 1) * k) by lia. rewrite IH by lia. done.
  - replace (prod ns - (m + 1)) with 0 by lia. cbn. by rewrite app_nil_r.
Qed.

Section Calls.
Context (s : HloSharding) (a : Array Z) (ns rest : list Z) (k : Z).
Hypothesis Ht : tiled s a ns rest.
Hypothesis Hk : only_replicas s rest k.

Lemma replicas_prod : prod rest = k ∧ 0 < k.
Proof.
  destruct (tiled_positive s a ns rest Ht) as [_ H].
  destruct Hk as [(_ & _ & -> & ->) | [(_ & _ & ->) | (_ & _ & ->)]]; [done | |];
    apply Forall_cons in H as [H _]; rewrite prod_singleton; (split; [done | exact H]).
Qed.

Lemma replication_dim :
  SubgroupReplicationDim s = Ok (if decide (rest = []) then -1 else Z.of_nat (length ns)).
Proof.
  pose proof (tiled_rank s a ns rest Ht) as Hr. destruct (tiled_reads s a ns rest Ht) as (_ & _ & Hn & _).
  unfold SubgroupReplicationDim, subgroup_dim, UseNamedShardingLeaf. rewrite (t_named _ _ _ _ Ht), Hr, Hn. cbn [guard_res negb mbind res_bind].
  destruct Hk as [(E1 & E2 & -> & ->) | [(E1 & E2 & ->) | (E1 & E2 & ->)]]; rewrite E1, E2; cbn [find_type].
  - done.
  - rewrite decide_False by done. cbn. f_equal. rewrite length_app. cbn. lia.
  - rewrite decide_False by done. rewrite bool_decide_true by done. cbn. f_equal.
Qed.

Lemma EachTile_calls dims :
  fits dims ns → values_ a ≡ₚ seqZ 0 (Arrays.num_elements a) →
  EachTileBounds s dims = Ok (all_calls dims ns k (values_ a), None).
Proof.
  intros Hf Hp. destruct (t_flags _ _ _ _ Ht) as (F1 & F2 & _).
  destruct (tiled_kind s a ns rest Ht) as (_ & _ & K1 & K2 & _).
  destruct (tiled_reads s a ns rest Ht) as (R1 & R2 & _ & _ & _ & t & Ea).
  destruct (tiled_assignment s a ns rest Ht) as [A1 _]. destruct replicas_prod as [Hpr Hk0].
  pose proof (tiled_array s a ns rest Ht) as Ha. pose proof (a_values a Ha) as Hv. pose proof (a_max a Ha) as Hmax.
  rewrite (t_sizes _ _ _ _ Ht), prod_app, Hpr in Hv, Hmax.
  destruct (tiled_positive s a ns rest Ht) as [P1 _]. pose proof (prod_pos ns P1) as Hpos.
  unfold EachTileBounds, EachTileOfTiles, check_not. rewrite (t_named _ _ _ _ Ht), (t_tuple _ _ _ _ Ht), K1, K2, F1, F2, R1, R2, A1.
  rewrite (tiled_rank s a ns rest Ht), replication_dim. cbn [guard_res negb mbind res_bind].
  rewrite (proj2 (Z.eqb_eq _ _)) by (f_equal; by eapply Forall2_length). cbn [negb]. rewrite tile_sizes_code by done. cbn [mbind res_bind].
  assert (Er : (if (if decide (rest = []) then -1 else Z.of_nat (length ns)) =? -1 then Ok 1
    else at_z (ns ++ rest) (if decide (rest = []) then -1 else Z.of_nat (length ns))) = Ok k).
  { destruct Hk as [(_ & _ & -> & ->) | [(_ & _ & ->) | (_ & _ & ->)]]; [by rewrite decide_True | |];
      rewrite decide_False by done; rewrite (proj2 (Z.eqb_neq _ _)) by lia;
      unfold at_z; rewrite (proj2 (Z.ltb_ge _ _)), Nat2Z.id by lia; by apply at_middle. }
  rewrite Er. cbn [mbind res_bind]. rewrite Ea. cbn [mbind res_bind]. unfold Arrays.num_elements in *.
  rewrite <- (plus_0 (replicate (length dims) 0)). rewrite plus_0, (Forall2_length _ _ _ Hf), <- unlin_0 by done.
  pose proof (each_tile_loop_spec (S (length (values_ a))) k (values_ a) dims ns rest 0) as E. rewrite Z.mul_0_l, Z.sub_0_r in E.
  apply E; [done | | lia | done | nia | lia | nia].
  apply Forall_forall. intros d Hd. rewrite Hp in Hd. apply elem_of_seqZ in Hd. lia.
Qed.

Lemma ReplicationFactor_spec : ReplicationFactor s = Ok k.
Proof.
  destruct (tiled_reads s a ns rest Ht) as (_ & _ & _ & Hdim & _).
  unfold ReplicationFactor, HasPartialReplication, has_subgroup, UseNamedShardingLeaf. rewrite (t_named _ _ _ _ Ht), replication_dim.
  assert (Hlast : rest = [k] → dimension s (Z.of_nat (length ns)) = Ok k).
  { intros E. rewrite Hdim, E. unfold at_z. rewrite (proj2 (Z.ltb_ge _ _)), Nat2Z.id by lia. by apply at_middle. }
  destruct Hk as [(E1 & E2 & E3 & E4) | [(E1 & E2 & E3) | (E1 & E2 & E3)]]; rewrite E1, E2; cbn [orb negb].
  - rewrite bool_decide_false by set_solver. cbn. by rewrite E4.
  - cbn [mbind res_bind negb]. rewrite decide_False by (by rewrite E3). by apply Hlast.
  - rewrite bool_decide_true by set_solver. cbn [mbind res_bind negb]. rewrite decide_False by (by rewrite E3). by apply Hlast.
Qed.
End Calls.

(** *** The calls together *)

Lemma bind_one {A} (f : Z → list A) m : seqZ m 1 ≫= f = f m.
Proof. rewrite seqZ_cons by lia. cbn. apply app_nil_r. Qed.

Lemma chunks (l : list Z) k n :
  (seqZ 0 (Z.of_nat n) ≫= λ m, take k (drop (Z.to_nat (m * Z.of_nat k)) l)) = take (n * k) l.
Proof.
  induction n as [| n IH]; [done |].
  replace (Z.of_nat (S n)) with (Z.of_nat n + 1) by lia. rewrite seqZ_app, bind_app, IH, bind_one by lia.
  replace (Z.to_nat ((0 + Z.of_nat n) * Z.of_nat k)) with (n * k)%nat by lia.
  rewrite (take_take_drop l (n * k) k). f_equal. cbn. apply Nat.add_comm.
Qed.

Lemma bind_fmap {A B C} (f : A → list B) (g : B → C) l : g <$> (l ≫= f) = l ≫= (λ x, g <$> f x).
Proof. induction l as [| x l IH]; [done |]. cbn. by rewrite fmap_app, IH. Qed.

Lemma bind_none {A B} (f : A → list B) l : (∀ x, x ∈ l → f x = []) → l ≫= f = [].
Proof.
  induction l as [| x l IH]; intros H; [done |]. cbn. rewrite (H x) by left. apply IH. intros y Hy. apply H. by right.
Qed.

Lemma calls_devices dims ns k devices :
  0 ≤ k → 0 ≤ prod ns → Z.of_nat (length devices) = prod ns * k → call_device <$> all_calls dims ns k devices = devices.
Proof.
  intros Hk Hp Hl. unfold all_calls. rewrite bind_fmap.
  rewrite (list_bind_ext _ (λ m, take (Z.to_nat k) (drop (Z.to_nat (m * Z.of_nat (Z.to_nat k))) devices)) _ (seqZ 0 (Z.of_nat (Z.to_nat (prod ns))))).
  - rewrite chunks, take_ge; [done | nia].
  - intros m. cbn [compose]. unfold calls_at. rewrite <- list_fmap_compose. rewrite Z2Nat.id by done. apply list_fmap_id.
  - by rewrite Z2Nat.id.
Qed.

Lemma call_position dims ns k devices c :
  0 < k → Z.of_nat (length devices) = prod ns * k → c ∈ all_calls dims ns k devices →
  ∃ m j, 0 ≤ m < prod ns ∧ devices !! j = Some (call_device c) ∧ Z.of_nat j / k = m ∧
    call_offset c = low dims ns (unlin ns m) ∧ call_limit c = high dims ns (unlin ns m).
Proof.
  intros Hk Hl (m & Hc & Hm%elem_of_seqZ)%list_elem_of_bind. apply list_elem_of_fmap in Hc as (d & -> & Hd).
  apply list_elem_of_lookup in Hd as [i Hi]. apply lookup_take_Some in Hi as [Hi Hik]. rewrite lookup_drop in Hi.
  exists m, (Z.to_nat (m * k) + i)%nat. split; [lia |]. split; [done |]. split; [| done].
  symmetry. apply Z.div_unique with (r := Z.of_nat i); nia.
Qed.

Lemma filter_none {A} (P : A → Prop) `{∀ x, Decision (P x)} l : Forall (λ x, ¬ P x) l → filter P l = [].
Proof. induction 1 as [| x l Hx _ IH]; [done |]. by rewrite filter_cons, decide_False. Qed.

Lemma filter_bind {A B} (P : B → Prop) `{∀ x, Decision (P x)} (f : A → list B) l :
  filter P (l ≫= f) = l ≫= (λ x, filter P (f x)).
Proof. induction l as [| x l IH]; [done |]. cbn. by rewrite filter_app, IH. Qed.

(** One tile has all the calls whose tile contains an index. *)
Lemma calls_containing dims ns k devices xs :
  fits dims ns → 0 < k → Z.of_nat (length devices) = prod ns * k → in_bounds dims xs →
  filter (λ c, inside (call_offset c) (call_limit c) xs) (all_calls dims ns k devices) =
  calls_at dims ns k devices (lin ns (owners dims ns xs)).
Proof.
  intros Hf Hk Hl Hx. assert (Hns : Forall (λ n, 0 < n) ns) by (eapply in_bounds_pos, owners_bounds; done).
  pose proof (owners_bounds dims ns xs Hf Hx) as Ho. pose proof (lin_bounds ns _ Ho) as Hm. set (m := lin ns (owners dims ns xs)) in *.
  assert (Hall : ∀ i c, 0 ≤ i < prod ns → c ∈ calls_at dims ns k devices i → inside (call_offset c) (call_limit c) xs ↔ i = m).
  { intros i c Hi (d & -> & _)%list_elem_of_fmap. cbn [call_offset call_limit].
    rewrite inside_owners by (done || by apply unlin_bounds). subst m. split.
    - intros <-. by rewrite lin_unlin.
    - intros ->. by rewrite unlin_lin. }
  unfold all_calls. replace (prod ns) with (m + (1 + (prod ns - (m + 1)))) by lia.
  rewrite !seqZ_app, !bind_app, !filter_app by lia. rewrite !filter_bind. cbn [Z.add].
  assert (Hnone : ∀ u n, (∀ i, i ∈ seqZ u n → 0 ≤ i < prod ns ∧ i ≠ m) →
    (seqZ u n ≫= λ i, filter (λ c, inside (call_offset c) (call_limit c) xs) (calls_at dims ns k devices i)) = []).
  { intros u n Hi. apply bind_none. intros i Hin. apply filter_none, Forall_forall. intros c Hc Hc'.
    destruct (Hi i Hin) as [H1 H2]. by apply (Hall i c H1 Hc) in Hc'. }
  rewrite Hnone by (intros i Hi%elem_of_seqZ; lia). rewrite (Hnone (m + 1)) by (intros i Hi%elem_of_seqZ; lia).
  cbn [app]. rewrite app_nil_r, bind_one. apply list_filter_all, Forall_forall. intros c Hc.
  apply (Hall m c); [lia | done | done].
Qed.

(** ** Validation *)

Lemma perm_of_bounded (l : list Z) n :
  NoDup l → Forall (λ d, 0 ≤ d < n) l → Z.of_nat (length l) = n → l ≡ₚ seqZ 0 n.
Proof.
  intros Hn Hb Hl. apply submseteq_length_Permutation; [| rewrite length_seqZ; lia].
  apply NoDup_submseteq; [done |]. intros d Hd. apply elem_of_seqZ. rewrite Forall_forall in Hb. specialize (Hb d Hd). lia.
Qed.

(** The devices of an iota. *)
Lemma flat_devices i : good_iota i → values_ (flat_array i) ≡ₚ seqZ 0 (prod (dims i)).
Proof.
  intros [Hi _]. pose proof (prod_pos _ (tr_dims _ _ _ Hi)) as Hp. pose proof (tr_prod _ _ _ Hi) as Ep.
  cbn [flat_array values_]. apply perm_of_bounded.
  - apply NoDup_fmap_2_strong; [| apply NoDup_seqZ]. intros x y Hx%elem_of_seqZ Hy%elem_of_seqZ E.
    apply (flat_inj (reshape_dims i) (transpose_perm i)); [apply Hi | apply Hi | lia | lia | done].
  - apply Forall_forall. intros d (k & -> & Hk%elem_of_seqZ)%list_elem_of_fmap. rewrite <- Ep.
    apply flat_bounds; [apply Hi | apply Hi | lia].
  - rewrite length_fmap, length_seqZ. lia.
Qed.

Lemma unique_devices_spec n seen (l : list Z) :
  (∃ final, unique_devices (Some n) seen l = Ok final ∧ (base.size final = base.size seen + length l)%nat) ∧
    Forall (λ d, 0 ≤ d < n) l ∧ NoDup l ∧ (∀ d, d ∈ l → d ∉ seen) ∨
  (unique_devices (Some n) seen l = Fail InvalidArgument ∧
    ¬ (Forall (λ d, 0 ≤ d < n) l ∧ NoDup l ∧ (∀ d, d ∈ l → d ∉ seen))).
Proof.
  revert seen. induction l as [| d l IH]; intros seen; cbn [unique_devices].
  { left. split; [exists seen; split; [done | cbn; lia] |]. split; [constructor |]. split; [constructor | set_solver]. }
  unfold DeviceInRange. destruct (Z.ltb_spec d 0); [right; split; [done |]; intros [[? _]%Forall_cons _]; lia |].
  cbn [guard_res negb mbind res_bind]. rewrite Z.geb_leb. destruct (Z.leb_spec n d); [right; split; [done |]; intros [[? _]%Forall_cons _]; lia |].
  cbn [guard_res negb mbind res_bind]. case_bool_decide as Hs; [right; split; [done |]; intros (_ & _ & H'); apply (H' d); [by left | done] |].
  cbn [guard_res negb mbind res_bind]. destruct (IH ({[d]} ∪ seen)) as [((final & E & Hf) & H1 & H2 & H3) | [E Hn]].
  - left. split; [| split; [| split]].
    + exists final. split; [done |]. rewrite Hf, size_union, size_singleton by set_solver. cbn. lia.
    + by constructor; [lia |].
    + constructor; [| done]. intros Hd. apply (H3 d Hd). set_solver.
    + intros e [-> | He]%elem_of_cons; [done |]. specialize (H3 e He). set_solver.
  - right. split; [done |]. intros ([H1 H2]%Forall_cons & [Hd Hl]%NoDup_cons & H3). apply Hn. split; [done |]. split; [done |].
    intros e He. specialize (H3 e ltac:(by right)). set_solver.
Qed.

Lemma expect_devices_spec n k : expect_devices (Some n) k = if decide (k = n) then Ok () else Fail InvalidArgument.
Proof. unfold expect_devices. destruct (Z.eqb_spec k n); case_decide; done. Qed.

(** What validation asks of the array, whichever format holds it. *)
Definition valid_for (a : Array Z) (ns dims : list Z) (n : Z) : Prop :=
  Arrays.num_elements a ≠ 1 ∧ length dims = length ns ∧ values_ a ≡ₚ seqZ 0 n.

Lemma valid_size (a : Array Z) ns dims n : valid_for a ns dims n → 0 ≤ n → Arrays.num_elements a = n.
Proof. intros (_ & _ & H) Hn. unfold Arrays.num_elements. rewrite H, length_seqZ. lia. Qed.

Lemma ValidateNonTuple_spec s a ns rest shape dims n :
  tiled s a ns rest → Shape.IsTuple shape = false → shape_dimensions shape = Ok dims → 0 ≤ n →
  (ValidateNonTuple s shape (Some n) = Ok () ∧ valid_for a ns dims n) ∨
  (ValidateNonTuple s shape (Some n) = Fail InvalidArgument ∧ ¬ valid_for a ns dims n).
Proof.
  intros Ht Htu Hsh Hn. destruct (t_flags _ _ _ _ Ht) as (F1 & F2 & F3 & F4 & F5).
  destruct (tile_reads_contents _ _ (t_contents _ _ _ _ Ht)) as (_ & _ & _ & _ & Hne & _ & _ & t' & Ea & _).
  assert (Htriv : none_of [IsReplicatedLeaf s; IsManualLeaf s; IsUnreducedLeaf s; IsUnknownLeaf s] = Ok true ∧ IsSingleDeviceLeaf s = Ok false).
  { unfold IsReplicatedLeaf, IsManualLeaf, IsUnreducedLeaf, IsUnknownLeaf, IsSingleDeviceLeaf, UseNamedShardingLeaf.
    by rewrite (t_named _ _ _ _ Ht), F1, F2, F3, F4, F5. }
  destruct Htriv as [T1 T2]. unfold ValidateNonTuple. rewrite Htu, T1, T2. cbn [guard_res negb mbind res_bind].
  unfold TileAgnosticDeviceAssignment. rewrite (t_named _ _ _ _ Ht), Hne, Hsh, (tiled_rank s a ns rest Ht). cbn [mbind res_bind].
  unfold valid_for. destruct (Z.eqb_spec (Arrays.num_elements a) 1) as [E1 | N1]; [right; split; [done | tauto] |].
  cbn [guard_res negb mbind res_bind].
  destruct (Z.eqb_spec (Z.of_nat (length dims)) (Z.of_nat (length ns))) as [El | Nl]; [| right; split; [done | lia]].
  cbn [guard_res mbind res_bind]. pose proof (t_contents _ _ _ _ Ht) as Hc. unfold contents in Hc.
  destruct (iota_ (tile_assignment_ s)) as [i |] eqn:Ei.
  - destruct Hc as (Hi & -> & _). rewrite accumulate_dims by apply Hi. cbn [mbind res_bind]. rewrite expect_devices_spec.
    pose proof (flat_devices i Hi) as Hp. destruct Hi as [Hi _]. pose proof (prod_pos _ (tr_dims _ _ _ Hi)).
    case_decide as E; [left | right]; (split; [done |]).
    + split; [done |]. split; [lia |]. by rewrite Hp, E.
    + intros (_ & _ & H'). rewrite Hp in H'. apply Permutation_length in H'. rewrite !length_seqZ in H'. lia.
  - rewrite Ea. cbn [mbind res_bind]. destruct (unique_devices_spec n ∅ (values_ a)) as [((final & E & Hf) & H1 & H2 & _) | [E Hno]].
    + rewrite E. cbn [mbind res_bind]. rewrite expect_devices_spec, Hf, size_empty. cbn [Nat.add].
      case_decide as El'; [left | right]; (split; [done |]).
      * split; [done |]. split; [lia |]. by apply perm_of_bounded.
      * intros (_ & _ & H'). apply El'. rewrite H', length_seqZ. lia.
    + rewrite E. right. split; [done |]. intros (_ & _ & H'). apply Hno. rewrite H'. split; [| split].
      * apply Forall_forall. intros d Hd%elem_of_seqZ. lia.
      * apply NoDup_seqZ.
      * set_solver.
Qed.

(** ** Whether a device is used *)

Lemma UsesDevice_spec s a ns rest d : tiled s a ns rest →
  UsesDevice s d = Ok (bool_decide (0 ≤ d < Arrays.num_elements a)).
Proof.
  intros Ht. destruct (t_flags _ _ _ _ Ht) as (F1 & F2 & F3 & _). destruct (tiled_reads s a ns rest Ht) as (_ & Hn & _).
  pose proof (t_tuple _ _ _ _ Ht) as Htu. pose proof (t_named _ _ _ _ Ht) as Hna.
  destruct s; cbn in Htu, Hna, F1, F2, F3; subst. cbn [UsesDevice UniqueDevice tuple_]. unfold IsReplicatedLeaf, IsManualLeaf, IsSingleDeviceLeaf.
  cbn [named_sharding_ replicated_ manual_ single_device_ mbind res_bind]. rewrite Hn. cbn [mbind res_bind].
  destruct (Z.leb_spec 0 d); [| by rewrite bool_decide_false by lia]. f_equal.
  destruct (Z.ltb_spec d (Arrays.num_elements a)); [by rewrite bool_decide_true by lia | by rewrite bool_decide_false by lia].
Qed.
End Tiled.
End ShardTiles.
