(* ===== verification/ShardGroups.v ===== *)
(** * Shardings: sorted groups of replicas

    Sorting the devices of every group by changing the iota gives the array that sorting
    the groups of the full array gives. *)
From S2P Require Import Prelude PermUtil Radix Layouts IndexProofs TilingProofs Arrays ArrayProofs TransposeProofs FactorProofs TileAssign TileValue TileCanonical TileTranspose TileRefine MeshAxes NamedShard Sharding.
#[local] Open Scope Z_scope.

Module ShardGroups.
Import PermUtil Radix IndexProofs Arrays ArrayProofs TransposeProofs FactorProofs TileAssign TileValue TileCanonical TileTranspose TileCorrect TileRefine Sharding.

(** ** Digits whose values increase *)

(** Every digit counts more than all of the digits before it. *)
Definition rising (l : list (Z * Z)) : Prop := StronglySorted (λ x y, x.1 * x.2 ≤ y.2) l.

Lemma val_step e u l x y :
  rising ((e, u) :: l) → sizes_pos ((e, u) :: l) → Forall (λ p, 0 < p.2) ((e, u) :: l) → 0 ≤ x < y → y < prod ((e, u) :: l).*1 →
  val ((e, u) :: l) x + u ≤ val ((e, u) :: l) y.
Proof.
  revert e u x y. induction l as [| [e2 u2] l IH]; intros e u x y Hr Hs Hw Hxy Hy.
  - unfold prod in Hy. cbn in *. apply Forall_cons in Hw as [Hw _]. rewrite !Z.mod_small by lia. cbn in Hw. nia.
  - apply StronglySorted_cons in Hr as [[Hr1 _]%Forall_cons Hr]. apply Forall_cons in Hs as [He Hs]. apply Forall_cons in Hw as [Hu Hw].
    cbn [fst snd] in *. cbn [fmap list_fmap fst] in Hy. rewrite prod_cons in Hy.
    rewrite (Z.div_mod x e), (Z.div_mod y e) by lia. pose proof (Z.mod_pos_bound x e He). pose proof (Z.mod_pos_bound y e He).
    rewrite !val_split by lia.
    assert (Hd : x / e = y / e ∨ x / e < y / e) by (pose proof (Z.div_le_mono x y e); lia). destruct Hd as [Hd | Hd].
    + rewrite Hd. assert (x mod e < y mod e) by (pose proof (Z.div_mod x e); pose proof (Z.div_mod y e); lia). nia.
    + assert (Hlt : y / e < prod ((e2, u2) :: l).*1) by (apply Z.div_lt_upper_bound; [lia | cbn [fmap list_fmap fst]; lia]).
      pose proof (IH e2 u2 (x / e) (y / e) Hr Hs Hw ltac:(pose proof (Z.div_pos x e); lia) Hlt). nia.
Qed.

Lemma val_rising l x y :
  rising l → sizes_pos l → Forall (λ p, 0 < p.2) l → 0 ≤ x < y → y < prod l.*1 → val l x < val l y.
Proof.
  intros Hr Hs Hw Hxy Hy. destruct l as [| [e u] l]; [unfold prod in Hy; cbn in Hy; lia |].
  pose proof (val_step e u l x y Hr Hs Hw Hxy Hy). apply Forall_cons in Hw as [Hu _]. cbn in Hu. lia.
Qed.

(** The order of the digits does not change the set of values. *)
Lemma val_permuted l l' k :
  l ≡ₚ l' → sizes_pos l → 0 ≤ k < prod l.*1 → ∃ k', 0 ≤ k' < prod l'.*1 ∧ val l' k' = val l k.
Proof.
  intros Hp. revert k. induction Hp as [| [d t] l l' Hp IH | [d t] [e u] l | l l' l'' Hp1 IH1 Hp2 IH2]; intros k Hs Hk.
  - by exists k.
  - apply Forall_cons in Hs as [Hd Hs]. cbn [fst] in Hd. cbn [fmap list_fmap fst] in *. rewrite prod_cons in *.
    destruct (IH (k / d) Hs) as (q & Hq & Eq); [split; [apply Z.div_pos; lia | apply Z.div_lt_upper_bound; lia] |].
    pose proof (Z.mod_pos_bound k d Hd). exists (d * q + k mod d). split; [nia |]. rewrite val_split by lia. cbn [val]. by rewrite Eq.
  - apply Forall_cons in Hs as [He Hs]. apply Forall_cons in Hs as [Hd Hs]. cbn [fst fmap list_fmap] in *. rewrite !prod_cons in *.
    pose proof (Z.mod_pos_bound k e He). pose proof (Z.mod_pos_bound (k / e) d Hd).
    pose proof (Z.div_pos (k / e) d ltac:(apply Z.div_pos; lia) Hd).
    assert (k / e / d < prod l.*1) by (apply Z.div_lt_upper_bound; [lia |]; apply Z.div_lt_upper_bound; lia).
    exists (d * (e * (k / e / d) + k mod e) + (k / e) mod d). split; [| rewrite !val_split by lia; cbn [val]; ring].
    set (Q := k / e / d) in *. assert (0 ≤ e * Q + k mod e ≤ e * prod l.*1 - 1) by nia. nia.
  - destruct (IH1 k Hs Hk) as (k1 & Hk1 & E1). destruct (IH2 k1) as (k2 & Hk2 & E2); [by unfold sizes_pos; rewrite <- Hp1 | done |].
    exists k2. split; [done |]. congruence.
Qed.

(** Sorting the values of the digits is putting the digits in rising order. *)
Lemma values_sorted l l' g :
  l ≡ₚ l' → sizes_pos l → rising l' → Forall (λ p, 0 < p.2) l' → g = prod l.*1 →
  merge_sort Z.le (val l <$> seqZ 0 g) = val l' <$> seqZ 0 g.
Proof.
  intros Hp Hs Hr Hw Hg. assert (Hs' : sizes_pos l') by (by unfold sizes_pos; rewrite <- Hp).
  assert (Hg' : g = prod l'.*1).
  { rewrite Hg. clear -Hp. unfold prod. induction Hp; cbn; lia. }
  assert (Hmono : StronglySorted Z.lt (val l' <$> seqZ 0 g)).
  { apply (StronglySorted_fmap (val l') (λ x y, x < y ∧ 0 ≤ x ∧ y < g)).
    - intros x y (Hxy & Hx & Hy). apply val_rising; try done. lia.
    - assert (Hsub : Forall (λ x, 0 ≤ x < g) (seqZ 0 g)) by (apply Forall_forall; intros x Hx%elem_of_seqZ; lia).
      pose proof (seqZ_sorted 0 g) as Hss. induction Hss as [| x ls Hss IH Hx]; [constructor |].
      apply Forall_cons in Hsub as [Hx0 Hsub]. constructor; [by apply IH |].
      rewrite !Forall_forall in *. intros y Hy. specialize (Hx y Hy). specialize (Hsub y Hy). cbn in *. lia. }
  apply (StronglySorted_unique Z.le).
  - apply StronglySorted_merge_sort; apply _.
  - eapply sorted_weaken; [exact Hmono |]. intros x y _ _. lia.
  - rewrite merge_sort_Permutation. symmetry. apply submseteq_length_Permutation; [| rewrite !length_fmap; lia].
    apply NoDup_submseteq.
    + clear -Hmono. induction Hmono as [| x ls _ IH Hx]; constructor; [| done].
      intros Hin. rewrite Forall_forall in Hx. specialize (Hx x Hin). lia.
    + intros v (k & -> & Hk%elem_of_seqZ)%list_elem_of_fmap.
      destruct (val_permuted l' l k) as (k' & Hk' & <-); [by symmetry | done | lia |].
      apply list_elem_of_fmap. exists k'. split; [done |]. apply elem_of_seqZ. lia.
Qed.

(** The same with a part that does not change. *)
Lemma values_sorted_plus l l' g c :
  l ≡ₚ l' → sizes_pos l → rising l' → Forall (λ p, 0 < p.2) l' → g = prod l.*1 →
  merge_sort Z.le ((λ r, val l r + c) <$> seqZ 0 g) = (λ r, val l' r + c) <$> seqZ 0 g.
Proof.
  intros Hp Hs Hr Hw Hg. pose proof (values_sorted l l' g Hp Hs Hr Hw Hg) as E.
  assert (Ef : ∀ h : Z → Z, (λ r, h r + c) <$> seqZ 0 g = (λ x, x + c) <$> (h <$> seqZ 0 g)) by (intros h; by rewrite <- list_fmap_compose).
  rewrite (Ef (val l)), (Ef (val l')), <- E. apply (StronglySorted_unique Z.le).
  - apply StronglySorted_merge_sort; apply _.
  - apply (StronglySorted_fmap (λ x, x + c) Z.le); [intros x y; lia |]. apply StronglySorted_merge_sort; apply _.
  - rewrite merge_sort_Permutation. apply fmap_Permutation. by rewrite merge_sort_Permutation.
Qed.

Lemma val_period l m r : sizes_pos l → val l (m * prod l.*1 + r) = val l r.
Proof.
  intros Hs. revert m r. induction Hs as [| [d t] l Hd Hs IH]; intros m r; [done |]. cbn [fst] in Hd. cbn [fmap list_fmap fst val].
  rewrite prod_cons. replace (m * (d * prod l.*1) + r) with (r + (m * prod l.*1) * d) by ring.
  rewrite Z.mod_add, Z.div_add by lia. rewrite Z.add_comm with (n := r / d). by rewrite IH.
Qed.

(** ** Splitting a dimension *)

Section Split.
Context (T D : list Z) (q m : Z).

Notation i := (Z.of_nat (length T)).
Notation R := (T ++ (q * m) :: D).
Notation R' := (T ++ q :: m :: D).

Lemma shifted {A} `{!Inhabited A} (X : list A) x y y' Y j :
  length X = length T → 0 ≤ j → j ≠ i →
  (X ++ y :: y' :: Y) !!! Z.to_nat (shift_dim i j) = (X ++ x :: Y) !!! Z.to_nat j.
Proof.
  intros Hl Hj Hne. unfold shift_dim. destruct (Z.leb_spec j i).
  - rewrite !lookup_total_app_l by lia. done.
  - rewrite !lookup_total_app_r by lia. rewrite Hl.
    assert (∃ n, Z.to_nat j = (length T + S n)%nat) as [n En] by (exists (Z.to_nat j - length T - 1)%nat; lia).
    replace (Z.to_nat (j + 1) - length T)%nat with (S (S n)) by lia.
    by replace (Z.to_nat j - length T)%nat with (S n) by lia.
Qed.

Lemma split_weights :
  weights R = ((λ w, w * (q * m * prod D)) <$> weights T) ++ prod D :: weights D ∧
  weights R' = ((λ w, w * (q * m * prod D)) <$> weights T) ++ m * prod D :: prod D :: weights D.
Proof.
  rewrite !weights_app. cbn [weights]. rewrite !prod_cons. split; [done |]. f_equal. apply list_fmap_ext. intros. ring.
Qed.

Lemma pairs_shift s : (∀ j, j ∈ s → 0 ≤ j ∧ j ≠ i) → pairs R' (shift_dim i <$> s) = pairs R s.
Proof.
  intros Hs. rewrite !pairs_map. rewrite <- list_fmap_compose. apply list_fmap_ext. intros k j Hj%list_elem_of_lookup_2. cbn [compose].
  destruct (Hs j Hj) as [H0 Hne]. destruct split_weights as [-> ->]. f_equal.
  - by apply shifted.
  - apply shifted; [by rewrite length_fmap, length_weights | done | done].
Qed.

Lemma pairs_parts : pairs R [i] = [(q * m, prod D)] ∧ pairs R' [i] = [(q, m * prod D)] ∧ pairs R' [i + 1] = [(m, prod D)].
Proof.
  rewrite !pairs_map. cbn [fmap list_fmap]. destruct split_weights as [-> ->].
  assert (El : ∀ (x : Z) X, (((λ w, w * (q * m * prod D)) <$> weights T) ++ x :: X) !!! length T = x).
  { intros x X. rewrite lookup_total_app_r by (rewrite length_fmap, length_weights; done).
    by rewrite length_fmap, length_weights, Nat.sub_diag. }
  assert (E2 : ∀ (x y : Z) X, (((λ w, w * (q * m * prod D)) <$> weights T) ++ x :: y :: X) !!! S (length T) = y).
  { intros x y X. rewrite lookup_total_app_r by (rewrite length_fmap, length_weights; lia).
    rewrite length_fmap, length_weights. by replace (S (length T) - length T)%nat with 1%nat by lia. }
  rewrite Nat2Z.id. replace (Z.to_nat (i + 1)) with (S (length T)) by lia. rewrite !El, E2.
  rewrite !lookup_total_app_r by lia. rewrite Nat.sub_diag. by replace (S (length T) - length T)%nat with 1%nat by lia.
Qed.
End Split.

(** Dimensions in their order are rising digits. *)
Lemma rising_pairs R s :
  Forall (λ d, 0 < d) R → StronglySorted Z.lt s → in_range R s →
  rising (reverse (pairs R s)) ∧ Forall (λ p, 0 < p.2) (reverse (pairs R s)).
Proof.
  intros HR Hs Hr. assert (Hw : ∀ j, j ∈ s → weights R !!! Z.to_nat j = prod (drop (S (Z.to_nat j)) R)).
  { intros j Hj%Hr. apply weights_drop. lia. }
  split.
  - unfold rising. apply sorted_reverse. rewrite pairs_map.
    apply (StronglySorted_fmap (λ j, (R !!! Z.to_nat j, weights R !!! Z.to_nat j)) (λ x y, x < y ∧ x ∈ s ∧ y ∈ s)).
    + intros x y (Hxy & Hx & Hy). unfold flip. cbn [fst snd]. rewrite !Hw by done. pose proof (Hr x Hx). pose proof (Hr y Hy).
      assert (E : drop (Z.to_nat y) R = R !!! Z.to_nat y :: drop (S (Z.to_nat y)) R).
      { apply drop_S. apply list_lookup_lookup_total_lt. lia. }
      rewrite <- prod_cons, <- E. replace (Z.to_nat y) with (S (Z.to_nat x) + (Z.to_nat y - S (Z.to_nat x)))%nat by lia.
      rewrite <- drop_drop. set (l := drop (S (Z.to_nat x)) R). set (n := (Z.to_nat y - S (Z.to_nat x))%nat).
      assert (Hl : Forall (λ d, 0 < d) l) by by apply Forall_drop.
      rewrite <- (take_drop n l) at 2. rewrite prod_app. pose proof (prod_pos (take n l) (Forall_take _ _ _ Hl)).
      pose proof (prod_pos (drop n l) (Forall_drop _ _ _ Hl)). nia.
    + eapply sorted_weaken; [exact Hs |]. tauto.
  - apply Forall_reverse. rewrite pairs_map. apply Forall_fmap, Forall_forall. intros j Hj. cbn [compose snd]. rewrite Hw by done.
    apply prod_pos. by apply Forall_drop.
Qed.

(** ** The loop over the dimensions *)

Lemma group_dims_loop_spec R rp g c :
  Forall (λ d, 0 < d ≤ int64_max) R → in_range R rp → 0 < g ≤ int64_max →
  group_dims_loop R rp g c = Ok None ∨
  (group_dims_loop R rp g c = Ok (Some ((c + length rp)%nat, None)) ∧ ∃ e, 0 < e ∧ g = prod (sel R rp) * e) ∨
  (∃ A dim B m q, group_dims_loop R rp g c = Ok (Some ((c + length A + 1)%nat, Some (dim, q))) ∧
     rp = A ++ dim :: B ∧ g = prod (sel R A) * m ∧ R !!! Z.to_nat dim = q * m ∧ 0 < m ∧ 0 < q).
Proof.
  intros HR. revert g c. induction rp as [| dim rp IH]; intros g c Hr Hg; cbn [group_dims_loop].
  - right. left. split; [f_equal; f_equal; f_equal; cbn; lia |]. exists g. split; [lia |]. unfold prod. cbn. lia.
  - assert (Hdim : 0 ≤ dim < Z.of_nat (length R)) by (apply Hr; by left). rewrite at_z_total by done. cbn [mbind res_bind].
    assert (Hd : 0 < R !!! Z.to_nat dim ≤ int64_max).
    { rewrite Forall_lookup in HR. apply (HR (Z.to_nat dim)), list_lookup_lookup_total_lt. lia. }
    set (d := R !!! Z.to_nat dim) in *. destruct (Z.leb_spec d g).
    + rewrite c_mod_pos by lia. cbn [mbind res_bind]. destruct (Z.eqb_spec (g mod d) 0) as [E | E]; [| by left]. cbn [negb].
      rewrite c_div_pos by lia. cbn [mbind res_bind].
      assert (Eg : g = d * (g / d)) by (rewrite (Z.div_mod g d) at 1 by lia; lia).
      assert (Hgd : 0 < g / d ≤ int64_max) by nia.
      assert (Hr' : in_range R rp) by (intros p Hp; apply Hr; by right).
      destruct (IH (g / d) (S c) Hr' Hgd) as [E1 | [(E1 & e & He & Ee) | (A & x & B & m & q & E1 & -> & Em & Ex & Hm & Hq)]].
      * by left.
      * right. left. rewrite E1. split; [do 3 f_equal; cbn; lia |]. exists e. split; [done |]. rewrite sel_cons, prod_cons. fold d. nia.
      * right. right. exists (dim :: A), x, B, m, q. rewrite E1. split; [do 3 f_equal; cbn; lia |]. split; [done |].
        split; [| done]. rewrite sel_cons, prod_cons. fold d. nia.
    + rewrite c_mod_pos by lia. cbn [mbind res_bind]. destruct (Z.eqb_spec (d mod g) 0) as [E | E]; [| by left]. cbn [negb].
      rewrite c_div_pos by lia. cbn [mbind res_bind]. right. right. exists [], dim, rp, g, (d / g).
      split; [do 3 f_equal; cbn; lia |]. split; [done |]. split; [unfold prod; cbn; lia |].
      assert (Ed : d = g * (d / g)) by (rewrite (Z.div_mod d g) at 1 by lia; lia). fold d. split; [lia |]. split; [lia |]. nia.
Qed.

(** ** The grouped iota *)

Lemma split_perm_spec i X Y :
  i ∉ X → split_perm i (X ++ i :: Y) = (shift_dim i <$> X) ++ i :: i + 1 :: (shift_dim i <$> Y).
Proof.
  assert (E : shift_dim i i = i) by (unfold shift_dim; by rewrite Z.leb_refl).
  induction X as [| x X IH]; intros H; cbn [app split_perm fmap list_fmap].
  - by rewrite Z.eqb_refl, E.
  - apply not_elem_of_cons in H as [Hx H]. rewrite (proj2 (Z.eqb_neq x i)) by congruence. by rewrite IH.
Qed.

Lemma sort_last_app n X Y : length Y = n → sort_last n (X ++ Y) = X ++ merge_sort Z.le Y.
Proof.
  intros <-. unfold sort_last. rewrite length_app. replace (length X + length Y - length Y)%nat with (length X) by lia.
  by rewrite take_app_length, drop_app_length.
Qed.

Lemma shift_inj i j k : shift_dim i j = shift_dim i k → j = k.
Proof. unfold shift_dim. destruct (Z.leb_spec j i), (Z.leb_spec k i); lia. Qed.

Lemma shift_skips i j : shift_dim i j ≠ i + 1.
Proof. unfold shift_dim. destruct (Z.leb_spec j i); lia. Qed.

(** The permutation with the split dimension, and the last part of it in any order. *)
Lemma shifted_perm i p p' n :
  perm p → length p = n → i ∈ p → p' ≡ₚ i + 1 :: (shift_dim i <$> p) → perm p' ∧ length p' = S n.
Proof.
  intros [Hn Hr] Hl Hi Hp. split; [| by rewrite Hp; cbn; rewrite length_fmap, Hl]. split.
  - rewrite Hp. constructor.
    + intros (j & E & _)%list_elem_of_fmap. symmetry in E. by apply shift_skips in E.
    + apply NoDup_fmap_2_strong; [| done]. intros x y _ _. apply shift_inj.
  - intros x Hx. rewrite Hp in Hx |- *. cbn. rewrite length_fmap. apply elem_of_cons in Hx as [-> | (j & -> & Hj)%list_elem_of_fmap].
    + pose proof (Hr i Hi). lia.
    + pose proof (Hr j Hj). unfold shift_dim. destruct (Z.leb_spec j i); lia.
Qed.

Lemma fst_pairs R p : (pairs R p).*1 = sel R p.
Proof. unfold pairs. apply fst_zip. by rewrite !length_sel. Qed.

Lemma sorted_strict (l : list Z) : NoDup l → StronglySorted Z.lt (merge_sort Z.le l).
Proof.
  intros Hn. assert (Hn' : NoDup (merge_sort Z.le l)) by by rewrite merge_sort_Permutation.
  pose proof (StronglySorted_merge_sort Z.le l) as Hs. induction Hs as [| x k Hs IH Hx]; [constructor |].
  apply NoDup_cons in Hn' as [Hxk Hn']. constructor; [by apply IH |]. rewrite Forall_forall in *. intros y Hy.
  specialize (Hx y Hy). assert (x ≠ y) by congruence. lia.
Qed.

(** What both parts of an index contribute, with the group as the minor part. *)
Lemma val_grouped l rest g M r :
  sizes_pos l → g = prod l.*1 → 0 ≤ r < g → val (l ++ rest) (M * g + r) = val l r + val rest M.
Proof.
  intros Hs -> Hr. rewrite val_app by done. rewrite val_period by done. f_equal. f_equal.
  rewrite Z.add_comm, Z.div_add, Z.div_small by lia. lia.
Qed.

(** *** A permutation around the split dimension *)

Section Grouped.
Context (T D A B : list Z) (q m : Z).
Notation i := (Z.of_nat (length T)).
Notation R := (T ++ (q * m) :: D).
Notation R' := (T ++ q :: m :: D).
Notation p := (B ++ i :: A).
Definition sorted_part : list Z := merge_sort Z.le (i + 1 :: (shift_dim i <$> A)).
Notation p' := (((shift_dim i <$> B) ++ [i]) ++ sorted_part).

Hypothesis HR : Forall (λ d, 0 < d) R.
Hypothesis Hm : 0 < m.
Hypothesis Hq : 0 < q.
Hypothesis Hv : valid_layout R p.

Lemma grouped_pos : Forall (λ d, 0 < d) R'.
Proof.
  pose proof HR as H. apply Forall_app in H as [H1 [_ H2]%Forall_cons]. apply Forall_app. split; [done |]. by repeat constructor.
Qed.

Lemma shift_self : shift_dim i i = i.
Proof. unfold shift_dim. by rewrite Z.leb_refl. Qed.

Lemma grouped_layout : valid_layout R' p'.
Proof.
  destruct Hv as [Hp Hl]. destruct (shifted_perm i p p' (length R) Hp Hl) as [H1 H2].
  - set_solver.
  - unfold sorted_part. rewrite merge_sort_Permutation, fmap_app. cbn [fmap list_fmap]. rewrite shift_self.
    rewrite <- app_assoc. cbn [app]. rewrite (Permutation_middle _ _ (i + 1)). apply Permutation_app_head, perm_swap.
  - split; [done |]. rewrite H2, !length_app. cbn. lia.
Qed.

Lemma others_skip j : j ∈ A ∨ j ∈ B → 0 ≤ j ∧ j ≠ i.
Proof.
  destruct Hv as [[Hn Hr] _]. intros Hj. split; [apply Hr; set_solver |]. intros ->.
  apply NoDup_app in Hn as (_ & Hd & Hn). apply NoDup_cons in Hn as [Hn _]. destruct Hj as [Hj | Hj]; [done |]. apply (Hd i Hj). by left.
Qed.

(** The digits of the group and those of the other dimensions. *)
Notation inner := (reverse (pairs R A) ++ [(m, prod D)]).
Notation outer := ((q, m * prod D) :: reverse (pairs R B)).

Lemma digits_before k : flat R p k = val (inner ++ outer) k.
Proof.
  destruct (pairs_parts T D q m) as (P1 & _ & _). rewrite flat_val. change (i :: A) with ([i] ++ A).
  rewrite !pairs_app, P1, !reverse_app, <- !app_assoc. cbn [reverse app rev_append].
  assert (HA : sizes_pos (reverse (pairs R A))).
  { apply Forall_reverse, sizes_pos_pairs; [done |]. intros x Hx. eapply (valid_layout_in_range R p R Hv eq_refl). set_solver. }
  rewrite !val_app by done. f_equal. rewrite val_merge by lia. do 3 f_equal. ring.
Qed.

Lemma digits_after : reverse (pairs R' p') = reverse (pairs R' sorted_part) ++ outer.
Proof.
  destruct (pairs_parts T D q m) as (_ & P2 & _). rewrite !pairs_app, P2, !reverse_app.
  rewrite (pairs_shift T D q m B) by (intros j Hj; apply others_skip; by right). done.
Qed.

Lemma inner_sorted : inner ≡ₚ reverse (pairs R' sorted_part).
Proof.
  destruct (pairs_parts T D q m) as (_ & _ & P3). unfold sorted_part. rewrite !reverse_Permutation.
  rewrite <- (pairs_shift T D q m A) by (intros j Hj; apply others_skip; by left). rewrite <- P3, !pairs_map, <- fmap_app.
  apply fmap_Permutation. rewrite merge_sort_Permutation. by rewrite Permutation_app_comm.
Qed.

Lemma inner_pos : sizes_pos inner.
Proof.
  apply Forall_app. split; [| by repeat constructor]. apply Forall_reverse, sizes_pos_pairs; [done |].
  intros x Hx. eapply (valid_layout_in_range R p R Hv eq_refl). set_solver.
Qed.

Lemma inner_prod : prod inner.*1 = prod (sel R A) * m.
Proof. rewrite fmap_app, prod_app, fmap_reverse, prod_reverse, fst_pairs. f_equal. apply prod_singleton. Qed.

Lemma prod_perm l k : l ≡ₚ k → prod l = prod k.
Proof. unfold prod. induction 1; cbn; lia. Qed.

Lemma sorted_part_rising :
  rising (reverse (pairs R' sorted_part)) ∧ Forall (λ d, 0 < d.2) (reverse (pairs R' sorted_part)).
Proof.
  apply rising_pairs; [apply grouped_pos | |].
  - apply sorted_strict. destruct Hv as [[Hn _] _]. apply NoDup_app in Hn as (_ & _ & Hn). apply NoDup_cons in Hn as [_ Hn].
    constructor.
    + intros (j & Ej & _)%list_elem_of_fmap. symmetry in Ej. by apply shift_skips in Ej.
    + apply NoDup_fmap_2_strong; [| done]. intros x y _ _. apply shift_inj.
  - intros x Hx. eapply (valid_layout_in_range R' p' R' grouped_layout eq_refl). set_solver.
Qed.

Lemma grouped_values g M :
  g = prod (sel R A) * m →
  merge_sort Z.le ((λ r, flat R p (M * g + r)) <$> seqZ 0 g) = (λ r, flat R' p' (M * g + r)) <$> seqZ 0 g.
Proof.
  intros Hg. rewrite <- inner_prod in Hg. destruct sorted_part_rising as [Hris Hw].
  trans (merge_sort Z.le ((λ r, val inner r + val outer M) <$> seqZ 0 g)).
  { f_equal. apply list_fmap_ext. intros k r Hk%list_elem_of_lookup_2%elem_of_seqZ. rewrite digits_before.
    apply val_grouped; [apply inner_pos | done | lia]. }
  trans ((λ r, val (reverse (pairs R' sorted_part)) r + val outer M) <$> seqZ 0 g).
  { apply values_sorted_plus; [apply inner_sorted | apply inner_pos | done | done | done]. }
  apply list_fmap_ext. intros k r Hk%list_elem_of_lookup_2%elem_of_seqZ. rewrite flat_val, digits_after. symmetry.
  apply val_grouped; [unfold sizes_pos; rewrite <- inner_sorted; apply inner_pos | | lia].
  rewrite Hg. apply prod_perm, fmap_Permutation, inner_sorted.
Qed.
End Grouped.

Lemma group_minor_spec R p g :
  Forall (λ d, 0 < d ≤ int64_max) R → valid_layout R p → 0 < g ≤ int64_max → g < prod R →
  GroupMinorIotaDimsSorted R p g = Ok None ∨
  ∃ R' p', GroupMinorIotaDimsSorted R p g = Ok (Some (R', p')) ∧ Forall (λ d, 0 < d) R' ∧ valid_layout R' p' ∧
    prod R' = prod R ∧
    ∀ M, merge_sort Z.le ((λ r, flat R p (M * g + r)) <$> seqZ 0 g) = (λ r, flat R' p' (M * g + r)) <$> seqZ 0 g.
Proof.
  intros HR Hv Hg Hlt. assert (HR0 : Forall (λ d, 0 < d) R) by (eapply Forall_impl; [exact HR | cbn; lia]).
  pose proof (valid_layout_in_range R p R Hv eq_refl) as Hr.
  assert (Hrr : in_range R (reverse p)) by (intros x Hx; apply Hr; by apply elem_of_reverse).
  unfold GroupMinorIotaDimsSorted.
  destruct (group_dims_loop_spec R (reverse p) g 0 HR Hrr Hg) as [E | [(_ & e & He & Ee) | (A & i & B & m & q & E & Ep & Em & Ed & Hm & Hq)]].
  { left. by rewrite E. }
  { exfalso. rewrite sel_reverse, prod_reverse, (sel_perm R p Hv) in Ee. pose proof (prod_pos R HR0). nia. }
  right. rewrite E. cbn [mbind res_bind].
  assert (Ep' : p = reverse B ++ i :: reverse A) by (by rewrite <- (reverse_involutive p), Ep, reverse_app, reverse_cons, <- app_assoc).
  assert (Hib : 0 ≤ i < Z.of_nat (length R)) by (apply Hr; rewrite Ep'; set_solver).
  rewrite at_z_total by done. rewrite Ed. cbn [mbind res_bind].
  assert (Hqm : 0 < q * m ≤ int64_max).
  { rewrite <- Ed. rewrite Forall_lookup in HR. apply (HR (Z.to_nat i)), list_lookup_lookup_total_lt. lia. }
  rewrite c_div_pos by lia. rewrite (Z.mul_comm q m), Z.div_mul by lia. cbn [mbind res_bind].
  set (T := take (Z.to_nat i) R). set (D := drop (S (Z.to_nat i)) R).
  assert (HT : i = Z.of_nat (length T)) by (unfold T; rewrite length_take; lia).
  assert (ER : R = T ++ (q * m) :: D).
  { rewrite <- Ed. symmetry. apply take_drop_middle. apply list_lookup_lookup_total_lt. lia. }
  clearbody T D. subst i p. rewrite ER in *. clear R ER.
  assert (Hsplit : sort_last (0 + length A + 1) (split_perm (Z.of_nat (length T)) (reverse B ++ Z.of_nat (length T) :: reverse A)) =
    ((shift_dim (Z.of_nat (length T)) <$> reverse B) ++ [Z.of_nat (length T)]) ++ sorted_part T (reverse A)).
  { rewrite split_perm_spec by (intros Hin; by destruct (others_skip T D (reverse A) (reverse B) q m HR0 Hm Hq Hv _ (or_intror Hin))).
    rewrite cons_middle, app_assoc, sort_last_app; [done |]. cbn. rewrite length_fmap, length_reverse. lia. }
  rewrite Hsplit. eexists _, _. split; [done |]. split; [by apply grouped_pos |]. split; [by apply grouped_layout |].
  split; [rewrite !prod_app, !prod_cons; ring |]. intros M. apply grouped_values; try done.
  by rewrite sel_reverse, prod_reverse.
Qed.

(** ** The array with sorted groups *)

(** The first [n] groups of [g] values, each sorted. *)
Definition sorted_chunks (g n : nat) (l : list Z) : list Z :=
  seq 0 n ≫= λ m, merge_sort Z.le (take g (drop (m * g) l)).

Lemma sort_groups_spec g n l fuel :
  (0 < g)%nat → length l = (n * g)%nat → (n ≤ fuel)%nat → sort_groups fuel g l = Ok (sorted_chunks g n l).
Proof.
  intros Hg. revert l fuel. induction n as [| n IH]; intros l fuel Hl Hf.
  - destruct l; [| done]. by destruct fuel.
  - destruct fuel as [| fuel]; [lia |]. cbn in Hl. destruct l as [| x l']; [cbn in Hl; lia |]. cbn [sort_groups].
    set (l := x :: l') in *. rewrite (proj2 (Nat.leb_le _ _)) by lia. cbn [guard_res mbind res_bind].
    rewrite (IH (drop g l)) by (rewrite ?length_drop; lia). cbn [mbind res_bind]. f_equal. unfold sorted_chunks.
    cbn [seq mbind list_bind]. rewrite <- fmap_S_seq, list_fmap_bind. f_equal. apply list_bind_ext; [| done]. intros m. cbn [compose].
    rewrite drop_drop. do 2 f_equal.
Qed.

Lemma take_drop_seqZ (f : Z → Z) g m n :
  (m < n)%nat → take g (drop (m * g) (f <$> seqZ 0 (Z.of_nat (n * g)))) = (λ r, f (Z.of_nat m * Z.of_nat g + r)) <$> seqZ 0 (Z.of_nat g).
Proof.
  intros Hm. apply list_eq. intros i. rewrite !list_lookup_fmap. destruct (decide (i < g)%nat) as [Hi | Hi].
  - rewrite lookup_take_lt, lookup_drop, list_lookup_fmap by done.
    rewrite (proj2 (lookup_seqZ 0 (Z.of_nat (n * g)) (m * g + i) (Z.of_nat (m * g + i)))) by nia.
    rewrite (proj2 (lookup_seqZ 0 (Z.of_nat g) i (Z.of_nat i))) by lia. cbn. do 2 f_equal. lia.
  - rewrite lookup_take_ge by lia. rewrite lookup_seqZ_ge; [done | lia].
Qed.

(** An iota whose groups are those of another one, sorted. *)
Lemma sorted_flat R p R' p' g n :
  (∀ M, merge_sort Z.le ((λ r, flat R p (M * Z.of_nat g + r)) <$> seqZ 0 (Z.of_nat g)) =
        (λ r, flat R' p' (M * Z.of_nat g + r)) <$> seqZ 0 (Z.of_nat g)) →
  sorted_chunks g n (flat R p <$> seqZ 0 (Z.of_nat (n * g))) = flat R' p' <$> seqZ 0 (Z.of_nat (n * g)).
Proof.
  intros H. unfold sorted_chunks.
  assert (E : ∀ k, (k ≤ n)%nat → (seq 0 k ≫= λ m, merge_sort Z.le (take g (drop (m * g) (flat R p <$> seqZ 0 (Z.of_nat (n * g)))))) =
    flat R' p' <$> seqZ 0 (Z.of_nat (k * g))); [| by apply E].
  induction k as [| k IH]; intros Hk; [done |]. rewrite seq_S, bind_app, IH by lia. cbn [mbind list_bind Nat.add]. rewrite app_nil_r.
  rewrite take_drop_seqZ, H by lia. replace (Z.of_nat (S k * g)) with (Z.of_nat (k * g) + Z.of_nat g) by lia.
  rewrite seqZ_app, fmap_app by lia. f_equal. rewrite Z.add_0_l. rewrite <- (Z.add_0_r (Z.of_nat (k * g))), <- fmap_add_seqZ.
  rewrite <- list_fmap_compose. apply list_fmap_ext. intros j r _. cbn [compose]. f_equal. lia.
Qed.

(** The last dimension is the group already. *)
Lemma group_is_last R p g M :
  Forall (λ d, 0 < d) R → valid_layout R p → (∃ q x, p = q ++ [x] ∧ R !!! Z.to_nat x = g) →
  merge_sort Z.le ((λ r, flat R p (M * g + r)) <$> seqZ 0 g) = (λ r, flat R p (M * g + r)) <$> seqZ 0 g.
Proof.
  intros HR Hv (q & x & -> & Hx). pose proof (valid_layout_in_range R _ R Hv eq_refl) as Hr.
  assert (Hxb : 0 ≤ x < Z.of_nat (length R)) by (apply Hr; set_solver).
  set (w := weights R !!! Z.to_nat x).
  assert (Hg : 0 < g) by (rewrite <- Hx; rewrite Forall_lookup in HR; apply (HR (Z.to_nat x)), list_lookup_lookup_total_lt; lia).
  assert (Hw : 0 < w).
  { unfold w. rewrite weights_drop by lia. apply prod_pos. by apply Forall_drop. }
  assert (E : (λ r, flat R (q ++ [x]) (M * g + r)) <$> seqZ 0 g = (λ r, val [(g, w)] r + val (reverse (pairs R q)) M) <$> seqZ 0 g).
  { apply list_fmap_ext. intros k r Hk%list_elem_of_lookup_2%elem_of_seqZ. rewrite flat_val, pairs_app, reverse_app.
    rewrite pairs_map with (p := [x]). cbn [fmap list_fmap]. rewrite Hx. fold w.
    apply val_grouped; [by repeat constructor | unfold prod; cbn; lia | lia]. }
  rewrite E. apply values_sorted_plus; [done | by repeat constructor | repeat constructor | by repeat constructor | unfold prod; cbn; lia].
Qed.

(** *** Both formats *)

Lemma sort_array_spec t a g n :
  contents t a → (0 < g)%nat → length (values_ a) = (n * g)%nat →
  ∃ t', ('(c, _) ← array t; values ← sort_groups (length (values_ c)) g (values_ c); Ok (of_array (MkArray (sizes_ c) values))) = Ok t' ∧
    contents t' (MkArray (sizes_ a) (sorted_chunks g n (values_ a))).
Proof.
  intros H Hg Hl. destruct (array_spec t a H) as (t' & E & _). rewrite E. cbn [mbind res_bind].
  rewrite (sort_groups_spec g n) by (done || nia). cbn [mbind res_bind]. eexists. split; [done |]. split; [done |].
  pose proof (contents_ok t a H) as [H1 H2 H3]. constructor; cbn [sizes_ values_]; [done | | done]. rewrite <- H2, Hl. f_equal.
  unfold sorted_chunks. assert (El : ∀ k, (k ≤ n)%nat → length (seq 0 k ≫= λ m, merge_sort Z.le (take g (drop (m * g) (values_ a)))) = (k * g)%nat); [| by apply El].
  induction k as [| k IH]; intros Hk; [done |]. rewrite seq_S, bind_app, length_app, IH by lia. cbn [mbind list_bind Nat.add].
  rewrite app_nil_r, merge_sort_Permutation, length_take, length_drop. nia.
Qed.

Section Iota.
Context (t : TileAssignment) (i : IotaTileAssignment) (g : Z) (n : nat).
Hypothesis H : contents t (flat_array i).
Hypothesis Hi : iota_ok i.
Hypothesis Hg : 0 < g < prod (dims i).
Hypothesis Hn : prod (dims i) = Z.of_nat n * g.

Notation R := (reshape_dims i).
Notation p := (transpose_perm i).

Lemma iota_values : values_ (flat_array i) = flat R p <$> seqZ 0 (Z.of_nat (n * Z.to_nat g)).
Proof. cbn [flat_array values_]. do 2 f_equal. lia. Qed.

Lemma sorted_iota R' p' :
  (∀ M, merge_sort Z.le ((λ r, flat R p (M * g + r)) <$> seqZ 0 g) = (λ r, flat R' p' (M * g + r)) <$> seqZ 0 g) →
  sorted_chunks (Z.to_nat g) n (values_ (flat_array i)) = flat R' p' <$> seqZ 0 (prod (dims i)).
Proof.
  intros Hs. rewrite iota_values, (sorted_flat _ _ R' p').
  - do 2 f_equal. lia.
  - intros M. rewrite Z2Nat.id by lia. apply Hs.
Qed.

Lemma last_of_perm : ∃ q x, p = q ++ [x] ∧ back p = Ok x ∧ at_z R x = Ok (R !!! Z.to_nat x).
Proof.
  unfold back. pose proof (tr_perm _ _ _ Hi) as Hv. destruct (last p) as [x |] eqn:El.
  - apply last_Some in El as [q Ep]. exists q, x. split; [done |]. split; [done |]. apply at_z_total.
    apply (valid_layout_in_range _ _ R Hv eq_refl). rewrite Ep. set_solver.
  - apply last_None in El. destruct Hv as [_ Hv]. rewrite El in Hv. destruct (tr_some _ _ _ Hi) as [_ Hs]. by destruct R.
Qed.

Lemma group_iota_spec :
  group_iota t i g = Ok None ∨
  ∃ t', group_iota t i g = Ok (Some t') ∧
    contents t' (MkArray (dims i) (sorted_chunks (Z.to_nat g) n (values_ (flat_array i)))).
Proof.
  pose proof (tr_reshape _ _ _ Hi) as HR. pose proof (tr_perm _ _ _ Hi) as Hv. pose proof (tr_prod _ _ _ Hi) as Hp.
  pose proof (tr_max _ _ _ Hi) as Hmax. destruct last_of_perm as (q & x & Ep & Eb & Ex). unfold group_iota. rewrite Eb. cbn [mbind res_bind].
  rewrite Ex. cbn [mbind res_bind]. destruct (Z.eqb_spec (R !!! Z.to_nat x) g) as [E | _].
  - right. exists t. split; [done |]. rewrite (sorted_iota R p); [exact H |].
    intros M. apply group_is_last; [done | done | eauto].
  - destruct (group_minor_spec R p g) as [E | (R' & p' & E & HR' & Hv' & Hp' & Hs)].
    + eapply Forall_impl; [exact (sizes_le _ (2 ^ 31) HR ltac:(lia)) |]. intros d. int_lia.
    + done.
    + int_lia.
    + lia.
    + left. by rewrite E.
    + right. rewrite E. cbn [mbind res_bind]. destruct (of_transform_contents (dims i) R' p') as (t' & Et & Ht').
      { constructor; [apply (tr_dims _ _ _ Hi) | done | | done | congruence | done]. split; [apply (tr_some _ _ _ Hi) |].
        intros ->. rewrite Hp in Hp'. change (1 = prod (dims i)) in Hp'. lia. }
      rewrite Et. exists t'. split; [done |]. by rewrite (sorted_iota R' p').
Qed.
End Iota.

Lemma sort_last_dim_spec t a g n :
  contents t a → 0 < g → Arrays.num_elements a = Z.of_nat n * g → g < Arrays.num_elements a →
  ∃ t', sort_last_dim t g = Ok t' ∧ contents t' (MkArray (sizes_ a) (sorted_chunks (Z.to_nat g) n (values_ a))).
Proof.
  intros H Hg Hn Hlt. assert (Hl : length (values_ a) = (n * Z.to_nat g)%nat) by (unfold Arrays.num_elements in Hn; nia).
  unfold sort_last_dim. pose proof (sort_array_spec t a (Z.to_nat g) n H ltac:(lia) Hl) as Harr.
  destruct (iota_ t) as [i |] eqn:Ei; [| by apply Harr].
  pose proof H as H'. unfold contents in H'. rewrite Ei in H'. destruct H' as ([Hi Hc] & -> & _).
  assert (Hnp : Arrays.num_elements (flat_array i) = prod (dims i)) by apply (a_values _ (contents_ok _ _ H)).
  rewrite Hnp in *. destruct (group_iota_spec t i g n H Hi ltac:(lia) Hn) as [E | (t' & E & Ht')]; rewrite E; cbn [mbind res_bind].
  - by apply Harr.
  - by exists t'.
Qed.

(** ** Making a sharding whose last dimension replicates *)

Section Partial.
Context {OpMetadata : Type}.

Lemma PartialTile_spec t a ds g (md : list OpMetadata) :
  contents t a → sizes_ a = ds ++ [g] → ds ≠ [] → Arrays.num_elements a < 2 ^ 31 →
  ∃ s, PartialTile t md = Ok s ∧
    if decide (g = Arrays.num_elements a) then s = Replicate md
    else if decide (g = 1) then ∃ t', s = of_tiles t' false md ∧ contents t' (MkArray ds (values_ a))
    else ∃ t', s = of_tiles t' true md ∧
      contents t' (MkArray (sizes_ a) (sorted_chunks (Z.to_nat g) (Z.to_nat (prod ds)) (values_ a))).
Proof.
  intros H Hs Hds Hmax. destruct (tile_reads_contents t a H) as (_ & Hd & Hr & _ & Hn & _).
  pose proof (contents_ok t a H) as Ha. pose proof (a_sizes a Ha) as Hpos. rewrite Hs in Hpos.
  apply Forall_app in Hpos as [Hpos [Hg _]%Forall_cons]. pose proof (prod_pos ds Hpos) as Hpd.
  assert (En : Arrays.num_elements a = prod ds * g) by (unfold Arrays.num_elements; rewrite (a_values a Ha), Hs, prod_app; unfold prod; cbn; lia).
  unfold PartialTile. rewrite Hn, Hr, Hd, Hs. cbn [mbind res_bind]. unfold Arrays.num_dimensions.
  rewrite Hs, length_app. cbn [length]. rewrite (proj2 (Z.eqb_neq _ _)) by (destruct ds; [done | cbn; lia]).
  unfold back. rewrite last_snoc. cbn [mbind res_bind]. rewrite removelast_last. destruct (Z.eqb_spec g (Arrays.num_elements a)) as [Eg | Ng].
  - exists (Replicate md). split; [done |]. by rewrite decide_True.
  - destruct (decide (g = Arrays.num_elements a)) as [| _]; [done |]. destruct (Z.eqb_spec g 1) as [E1 | N1].
    + pose proof (tile_reshape_refines t a ds H Hpos Hds ltac:(lia)) as Hre. rewrite decide_True in Hre by lia.
      destruct Hre as (t' & b & Et & Hc & Eb). rewrite Et. cbn [mbind res_bind]. eexists. split; [done |]. rewrite decide_True by done.
      exists t'. split; [done |]. unfold Reshape in Eb. rewrite calculate_elements_spec in Eb by (done || (pose proof (a_max a Ha); int_lia)).
      cbn [mbind res_bind] in Eb. rewrite (proj2 (Z.eqb_eq _ _)) in Eb by lia. by injection Eb as <-.
    + destruct (sort_last_dim_spec t a g (Z.to_nat (prod ds)) H Hg) as (t' & Et & Hc); [lia | nia |].
      rewrite Et. cbn [mbind res_bind]. eexists. split; [done |]. rewrite decide_False by done. exists t'. rewrite <- Hs. done.
Qed.
End Partial.
End ShardGroups.
