(* ===== verification/ShardCorrect.v ===== *)
(** * Shardings: the properties

    What shardings in the tile format promise: which tile of an array every device holds,
    when validation accepts a sharding, and how replicas are ordered.  Each property has a
    concrete instance. *)
From S2P Require Import Prelude Types PermUtil Shape Radix Layouts IndexProofs TilingProofs Arrays ArrayProofs TileAssign TileValue TileCanonical TileRefine MeshAxes NamedShard Sharding ShardOps ShardTiles ShardGroups.
#[local] Open Scope Z_scope.

Module ShardCorrect.
Import PermUtil Radix IndexProofs Arrays ArrayProofs TileAssign TileValue TileCanonical TileCorrect TileRefine Sharding ShardOps ShardTiles ShardGroups.

(** ** Examples *)

Definition vector_shape (ds : list Z) : Shape.Shape :=
  Shape.ArrayShape (Shape.MkArray Types.S32 ((λ d, Shape.MkDim d false) <$> ds)).

(** Three tiles along a dimension of ten, on two replicas each. *)
Definition demo_array : Array Z := MkArray [3; 1; 2] [4; 1; 0; 5; 2; 3].
Definition demo_sharding : HloSharding unit := of_tiles (of_array demo_array) true [].

Lemma demo_tiled : tiled demo_sharding demo_array [3; 1] [2].
Proof.
  constructor; try done. split; [done |]. constructor; cbn; [repeat constructor; lia | done | int_lia].
Qed.

Lemma demo_replicas : only_replicas demo_sharding [2] 2.
Proof. right. left. done. Qed.

Lemma demo_devices : values_ demo_array ≡ₚ seqZ 0 6.
Proof. apply NoDup_Permutation_bis; [vm_compute; repeat constructor; set_solver | done |]. intros x Hx. vm_compute in Hx |- *. set_solver. Qed.

Lemma demo_fits : fits [10; 7] [3; 1].
Proof. repeat constructor; try int_lia. Qed.

Section Shardings.
Context {OpMetadata : Type}.
Notation HloSharding := (HloSharding OpMetadata).
Implicit Types s : HloSharding.

(** ** Tiles *)

(** C24: when the only subgroups are replicas, the two ways to find the tiles agree: the
    enumeration visits every device once, with the offset and the limit that are computed
    for this device. *)
Theorem EachTile_agrees s a ns rest k dims shape :
  tiled s a ns rest → only_replicas s rest k → values_ a ≡ₚ seqZ 0 (Arrays.num_elements a) →
  fits dims ns → shape_dimensions shape = Ok dims →
  ∃ calls, EachTileBounds s dims = Ok (calls, None) ∧ call_device <$> calls = values_ a ∧
    Forall (λ c, TileOffsetForDevice s shape (call_device c) = Ok (call_offset c) ∧
                 TileLimitForDevice s shape (call_device c) = Ok (call_limit c)) calls.
Proof.
  intros Ht Hk Hp Hf Hsh. destruct (replicas_prod s a ns rest k Ht Hk) as [Hr Hk0].
  pose proof (a_values a (tiled_array s a ns rest Ht)) as Hv. rewrite (t_sizes _ _ _ _ Ht), prod_app, Hr in Hv.
  destruct (tiled_positive s a ns rest Ht) as [P1 _]. pose proof (prod_pos ns P1).
  exists (all_calls dims ns k (values_ a)). split; [by eapply EachTile_calls |]. split; [apply calls_devices; lia |].
  apply Forall_forall. intros c Hc. destruct (call_position dims ns k (values_ a) c) as (m & j & Hm & Hj & Ej & E1 & E2); [lia | done | done |].
  assert (Hn : NoDup (values_ a)) by (rewrite Hp; apply NoDup_seqZ).
  unfold TileOffsetForDevice, TileLimitForDevice.
  rewrite !(tile_edge_spec s a ns rest Ht Hn _ _ shape dims j (call_device c)) by (done || lia).
  rewrite Hr, Ej, E1, E2, plus_0. done.
Qed.

(** C26: the tiles partition the array: every index lies in the tiles of exactly as many
    devices as there are replicas, all with the same offset and limit. *)
Theorem tiles_partition s a ns rest k dims :
  tiled s a ns rest → only_replicas s rest k → values_ a ≡ₚ seqZ 0 (Arrays.num_elements a) → fits dims ns →
  ∃ calls, EachTileBounds s dims = Ok (calls, None) ∧ ReplicationFactor s = Ok k ∧
    ∀ xs, in_bounds dims xs →
      let holders := filter (λ c, inside (call_offset c) (call_limit c) xs) calls in
      Z.of_nat (length holders) = k ∧
      ∃ lo hi, Forall (λ c, call_offset c = lo ∧ call_limit c = hi) holders.
Proof.
  intros Ht Hk Hp Hf. destruct (replicas_prod s a ns rest k Ht Hk) as [Hr Hk0].
  pose proof (a_values a (tiled_array s a ns rest Ht)) as Hv. rewrite (t_sizes _ _ _ _ Ht), prod_app, Hr in Hv.
  exists (all_calls dims ns k (values_ a)). split; [by eapply EachTile_calls |]. split; [by eapply ReplicationFactor_spec |].
  intros xs Hx. cbv zeta. rewrite calls_containing by done. pose proof (owners_bounds dims ns xs Hf Hx) as Ho.
  pose proof (lin_bounds ns _ Ho) as Hm. set (m := lin ns (owners dims ns xs)) in *. split.
  - unfold calls_at. rewrite length_fmap, length_take, length_drop. nia.
  - exists (low dims ns (unlin ns m)), (high dims ns (unlin ns m)). apply Forall_forall.
    intros c (d & -> & _)%list_elem_of_fmap. done.
Qed.

(** C28: validation against [n] devices accepts a tiled sharding exactly when it has the rank
    of the shape, more than one device, and every device below [n] once; this in both
    formats, although it only counts the devices of an iota. *)
Theorem ValidateNonTuple_exact s a ns rest shape dims n :
  tiled s a ns rest → Shape.IsTuple shape = false → shape_dimensions shape = Ok dims → 0 ≤ n →
  ValidateNonTuple s shape (Some n) = (if decide (valid_for a ns dims n) then Ok () else Fail InvalidArgument).
Proof.
  intros Ht Htu Hsh Hn. destruct (ValidateNonTuple_spec s a ns rest shape dims n Ht Htu Hsh Hn) as [[E H] | [E H]].
  - by rewrite decide_True.
  - by rewrite decide_False.
Qed.

(** A validated tiled sharding uses exactly the devices it was validated for. *)
Theorem UsesDevice_valid s a ns rest shape n d :
  tiled s a ns rest → 0 ≤ n → ValidateNonTuple s shape (Some n) = Ok () → (∃ dims, shape_dimensions shape = Ok dims) →
  ∃ b, UsesDevice s d = Ok b ∧ (b = true ↔ d ∈ values_ a).
Proof.
  intros Ht Hn E [dims Hsh]. assert (Htu : Shape.IsTuple shape = false) by (by destruct shape).
  destruct (ValidateNonTuple_spec s a ns rest shape dims n Ht Htu Hsh Hn) as [[_ H] | [E' _]]; [| congruence].
  rewrite (UsesDevice_spec s a ns rest d Ht), (valid_size a ns dims n H Hn). eexists. split; [done |].
  destruct H as (_ & _ & ->). rewrite bool_decide_eq_true, elem_of_seqZ. lia.
Qed.

(** ** Replicas *)

(** C29: making a sharding whose last dimension replicates keeps the devices of every group
    and sorts them, whether the assignment is an iota, which is regrouped where its
    sizes allow it, or an array. *)
Theorem PartialTile_sorts t a ds g (md : list OpMetadata) :
  contents t a → sizes_ a = ds ++ [g] → ds ≠ [] → Arrays.num_elements a < 2 ^ 31 →
  ∃ s, PartialTile t md = Ok s ∧
    if decide (g = Arrays.num_elements a) then s = Replicate md
    else if decide (g = 1) then ∃ t', s = of_tiles t' false md ∧ contents t' (MkArray ds (values_ a))
    else ∃ t', s = of_tiles t' true md ∧
      contents t' (MkArray (sizes_ a) (sorted_chunks (Z.to_nat g) (Z.to_nat (prod ds)) (values_ a))).
Proof. apply PartialTile_spec. Qed.
End Shardings.

(** ** Instances *)

Lemma EachTile_agrees_witness :
  ∃ calls, EachTileBounds demo_sharding [10; 7] = Ok (calls, None) ∧
    nth_error calls 3 = Some (MkCall 5 [4; 0] [8; 7]) ∧
    TileOffsetForDevice demo_sharding (vector_shape [10; 7]) 5 = Ok [4; 0].
Proof.
  destruct (EachTile_agrees demo_sharding demo_array [3; 1] [2] 2 [10; 7] (vector_shape [10; 7])) as (calls & E & _ & Hc).
  - exact demo_tiled.
  - exact demo_replicas.
  - exact demo_devices.
  - exact demo_fits.
  - reflexivity.
  - exists calls. split; [exact E |]. vm_compute in E. injection E as <-. split; [reflexivity |].
    rewrite Forall_lookup in Hc. exact (proj1 (Hc 3%nat _ eq_refl)).
Defined.

Lemma tiles_partition_witness :
  ∃ calls, EachTileBounds demo_sharding [10; 7] = Ok (calls, None) ∧
    length (filter (λ c, inside (call_offset c) (call_limit c) [9; 2]) calls) = 2%nat.
Proof.
  destruct (tiles_partition demo_sharding demo_array [3; 1] [2] 2 [10; 7]) as (calls & E & _ & H).
  - exact demo_tiled.
  - exact demo_replicas.
  - exact demo_devices.
  - exact demo_fits.
  - exists calls. split; [exact E |]. destruct (H [9; 2]) as [Hl _]; [repeat constructor; lia |]. lia.
Defined.

Lemma ValidateNonTuple_exact_witness :
  ValidateNonTuple demo_sharding (vector_shape [10; 7]) (Some 6) = Ok () ∧
  ValidateNonTuple demo_sharding (vector_shape [10; 7]) (Some 5) = Fail InvalidArgument.
Proof.
  split.
  - rewrite (ValidateNonTuple_exact demo_sharding demo_array [3; 1] [2] _ [10; 7] 6 demo_tiled); [| reflexivity | reflexivity | lia].
    rewrite decide_True; [reflexivity |]. split; [vm_compute; discriminate |]. split; [reflexivity |]. exact demo_devices.
  - vm_compute. reflexivity.
Defined.

Lemma UsesDevice_valid_witness : UsesDevice demo_sharding 5 = Ok true.
Proof.
  destruct (UsesDevice_valid demo_sharding demo_array [3; 1] [2] (vector_shape [10; 7]) 6 5) as (b & E & Hb).
  - exact demo_tiled.
  - lia.
  - vm_compute. reflexivity.
  - exists [10; 7]. reflexivity.
  - rewrite E. f_equal. apply Hb. vm_compute. set_solver.
Defined.

(** With a subgroup of manual devices the enumeration calls for the first devices of the
    list only, and with other tiles than those computed for the devices. *)
Definition manual_demo : res (HloSharding unit) := t ← of_dims [2; 3]; Subgroup t [MANUAL] [].

Lemma EachTile_manual_subgroup :
  ∃ s, manual_demo = Ok s ∧ EachTileBounds s [10] = Ok ([MkCall 0 [0] [5]; MkCall 1 [5] [10]], None) ∧
    TileOffsetForDevice s (vector_shape [10]) 1 = Ok [0] ∧ TileOffsetForDevice s (vector_shape [10]) 3 = Ok [5].
Proof. eexists. split; [vm_compute; reflexivity |]. vm_compute. done. Qed.

(** Before validation a device of the list can be denied. *)
Lemma UsesDevice_denies :
  UsesDevice (of_tiles (of_array (MkArray [2] [5; 7])) false ([] : list unit)) 7 = Ok false.
Proof. vm_compute. reflexivity. Qed.

Lemma PartialTile_sorts_witness :
  ∃ s, PartialTile (of_iota demo) ([] : list unit) = Ok s ∧ replicate_on_last_tile_dim_ s = true.
Proof.
  destruct (PartialTile_sorts (of_iota demo) (flat_array demo) [6; 1] 4 ([] : list unit)) as (s & E & H).
  - exact demo_contents.
  - reflexivity.
  - discriminate.
  - vm_compute. reflexivity.
  - exists s. split; [exact E |]. rewrite decide_False in H by (vm_compute; discriminate).
    rewrite decide_False in H by discriminate. destruct H as (t' & -> & _). reflexivity.
Defined.
End ShardCorrect.
