(* ===== verification/ShardConvert.v ===== *)
(** * Shardings: from named axes to tiles

    The conversion of a named sharding gives every device the tile that its axes say: the
    axes of the mesh are cut where the references cut them, put in the order of the
    dimensions, and grouped. *)
From Stdlib Require Import Znumtheory.
From S2P Require Import Prelude PermUtil Radix Layouts IndexProofs TilingProofs UntileProofs Arrays ArrayProofs TileAssign TileValue TileCanonical TileRefine MeshAxes NamedShard MeshCorrect Sharding ShardOps ShardTiles ShardGroups.
#[local] Open Scope Z_scope.

Module ShardConvert.
Import PermUtil Radix Layouts IndexProofs Arrays ArrayProofs TileAssign TileValue TileRefine MeshAxes NamedShard MeshCorrect Sharding ShardOps ShardTiles ShardGroups.

(** ** Axes that cut each other *)

(** On the same axis of the mesh, one reference ends where the other one may start. *)
Definition chained (a b : AxisRef) : Prop :=
  mesh_axis_index a ≠ mesh_axis_index b ∨
  match sub_axis_info a, sub_axis_info b with
  | Some s, Some t => (pre_size s * size s | pre_size t) ∨ (pre_size t * size t | pre_size s)
  | _, _ => False
  end.

Lemma chained_sym a b : chained a b → chained b a.
Proof. unfold chained. destruct (sub_axis_info a), (sub_axis_info b); intros [H | H]; try (by left); try done; right; tauto. Qed.

Lemma ordpairs_snoc {A} (R : A → A → Prop) l x : ForallOrdPairs R l → Forall (λ y, R y x) l → ForallOrdPairs R (l ++ [x]).
Proof.
  induction 1 as [| y l Hy H IH]; intros Hx; [repeat constructor |]. apply Forall_cons in Hx as [Hyx Hx]. cbn.
  constructor; [| by apply IH]. apply Forall_app. split; [done |]. by apply Forall_singleton.
Qed.

Lemma ordpairs_in {A} (R : A → A → Prop) l x y :
  (∀ a b, R a b → R b a) → ForallOrdPairs R l → x ∈ l → y ∈ l → x = y ∨ R x y.
Proof.
  intros Hs. induction 1 as [| z l Hz H IH]; intros Hx Hy; [by apply elem_of_nil in Hx |]. rewrite Forall_forall in Hz.
  apply elem_of_cons in Hx as [-> | Hx]; apply elem_of_cons in Hy as [-> | Hy]; auto.
Qed.

Section Mesh.
Context (m : Mesh) (arr : Array Z) (Hm : good_mesh m arr).
Notation ns := (sizes_ arr).
Implicit Types a b : AxisRef.

Definition good_axes (l : list AxisRef) : Prop := Forall (axis_ok ns) l ∧ ForallOrdPairs chained l.

Lemma good_axes_snoc l a : good_axes l → axis_ok ns a → Forall (chained a) l → good_axes (l ++ [a]).
Proof.
  intros [H1 H2] Ha Hc. split; [by rewrite Forall_app, Forall_singleton |]. apply ordpairs_snoc; [done |].
  eapply Forall_impl; [exact Hc |]. intros b. apply chained_sym.
Qed.

Lemma coexist_chained a b : axis_ok ns a → axis_ok ns b → CanCoexistWithoutOverlap a b = Ok true → chained a b.
Proof.
  intros Ha Hb. unfold CanCoexistWithoutOverlap, chained. destruct (Z.eqb_spec (mesh_axis_index a) (mesh_axis_index b)); [| by left]. cbn [negb].
  pose proof (part_bounds m arr Hm a Ha) as Pa. pose proof (part_bounds m arr Hm b Hb) as Pb.
  pose proof (axis_total_bounds m arr Hm a Ha). pose proof (axis_total_bounds m arr Hm b Hb).
  unfold axis_pre_size, part_size in *. pose proof (ax_sub _ _ Ha) as Sa. pose proof (ax_sub _ _ Hb) as Sb.
  destruct (sub_axis_info a) as [s |] eqn:Es; [destruct (sub_axis_info b) as [t |] eqn:Et |]; try done.
  rewrite (next_pre_ok m arr Hm a s), (next_pre_ok m arr Hm b t) by done. cbn [mbind res_bind]. intros E. right.
  destruct (Z.gtb_spec (pre_size s * size s) (pre_size t)), (Z.gtb_spec (pre_size t * size t) (pre_size s)); cbn [andb] in E; try done;
    rewrite divides_pos in E by nia; injection E as E; apply bool_decide_eq_true in E.
  - right. rewrite Z.min_r, Z.max_l in E by nia. done.
  - left. rewrite Z.min_l, Z.max_r in E by nia. done.
  - nia.
Qed.

(** *** What verification establishes *)

(** The tracked axes, in the order they were seen. *)
Definition tracks (seen : SeenAxes) (l : list AxisRef) : Prop :=
  ∀ i, default [] (seen !! i) = filter (λ a, mesh_axis_index a = i) l.

Lemma coexist_with_all_chained a l : axis_ok ns a → Forall (axis_ok ns) l → coexist_with_all a l = Ok true → Forall (chained a) l.
Proof.
  intros Ha. induction 1 as [| b l Hb _ IH]; cbn [coexist_with_all]; [constructor |]. unfold res_and. intros E.
  apply bind_ok in E as ([|] & E1 & E2); [| done]. constructor; [by apply coexist_chained | by apply IH].
Qed.

Lemma VerifyAndTrack_spec a seen seen' l :
  tracks seen l → good_axes l → axis_made a → VerifyAndTrack m a seen = Ok seen' → tracks seen' (l ++ [a]) ∧ good_axes (l ++ [a]).
Proof.
  intros Ht Hl Hmade E. unfold VerifyAndTrack in E. apply bind_ok in E as ([] & E1 & E). apply bind_ok in E as (x & E2 & E).
  apply bind_ok in E as ([] & ->%guard_res_ok & [= <-]). rewrite Ht in E2 |- *. pose proof (validate_axis_ok m arr Hm a Hmade E1) as Ha. split.
  - intros i. rewrite filter_app, filter_cons, filter_nil. destruct (decide (mesh_axis_index a = i)) as [<- | Hne].
    + by rewrite (lookup_insert_eq (M := gmap Z) seen).
    + rewrite (lookup_insert_ne (M := gmap Z) seen), Ht by done. by rewrite app_nil_r.
  - apply good_axes_snoc; [done | done |]. destruct Hl as [Hok _].
    apply coexist_with_all_chained in E2; [| done |].
    2: { apply Forall_forall. intros b [_ Hb]%list_elem_of_filter. rewrite Forall_forall in Hok. by apply Hok. }
    apply Forall_forall. intros b Hb. destruct (decide (mesh_axis_index b = mesh_axis_index a)) as [Ei | Ni]; [| left; congruence].
    rewrite Forall_forall in E2. apply E2. by apply list_elem_of_filter.
Qed.

Lemma verify_axes_spec prev axes seen seen' l :
  tracks seen l → good_axes l → Forall axis_made axes → verify_axes m prev axes seen = Ok seen' →
  tracks seen' (l ++ axes) ∧ good_axes (l ++ axes).
Proof.
  intros Ht Hl Hmade. revert prev seen l Ht Hl. induction Hmade as [| a axes Ha _ IH]; intros prev seen l Ht Hl; cbn [verify_axes].
  { intros [= <-]. by rewrite app_nil_r. }
  intros E. apply bind_ok in E as (seen1 & E1 & E). apply bind_ok in E as (x & _ & E). apply bind_ok in E as ([] & _ & E).
  destruct (VerifyAndTrack_spec a seen seen1 l Ht Hl Ha E1) as [Ht1 Hl1]. destruct (IH _ _ _ Ht1 Hl1 E) as [H1 H2].
  by rewrite <- app_assoc in H1, H2.
Qed.

Lemma VerifyDimShardings_spec ds seen seen' l :
  tracks seen l → good_axes l → Forall axis_made (ds ≫= axes) → VerifyDimShardings m ds seen = Ok seen' →
  tracks seen' (l ++ (ds ≫= axes)) ∧ good_axes (l ++ (ds ≫= axes)).
Proof.
  intros Ht Hl. revert seen l Ht Hl. induction ds as [| d ds IH]; intros seen l Ht Hl Hmade; cbn [VerifyDimShardings].
  { intros [= <-]. cbn. by rewrite app_nil_r. }
  cbn [mbind list_bind] in Hmade. apply Forall_app in Hmade as [M1 M2].
  intros E. apply bind_ok in E as (seen1 & E1 & E). destruct (verify_axes_spec _ _ _ _ _ Ht Hl M1 E1) as [Ht1 Hl1].
  destruct (IH _ _ Ht1 Hl1 M2 E) as [H1 H2]. rewrite <- app_assoc in H1, H2. done.
Qed.

Lemma VerifySortedAxes_spec axes seen seen' l :
  tracks seen l → good_axes l → Forall axis_made axes → VerifySortedAxes m axes seen = Ok seen' →
  tracks seen' (l ++ axes) ∧ good_axes (l ++ axes).
Proof. intros Ht Hl Hmade E. unfold VerifySortedAxes in E. apply bind_ok in E as ([] & _ & E). by eapply verify_axes_spec. Qed.
End Mesh.

(** The references of a sharding, in the order they are verified. *)
Definition all_axes {OpMetadata} (n : NamedSharding OpMetadata) : list AxisRef :=
  (dim_shardings n ≫= axes) ++ replicated_axes n ++ unreduced_axes n ++ manual_axes n.

Lemma verified_axes {OpMetadata} (n : NamedSharding OpMetadata) arr :
  good_mesh (mesh n) arr → Forall axis_made (all_axes n) → VerifyNamedSharding n = Ok () → good_axes arr (all_axes n).
Proof.
  intros Hm Hmade E. unfold all_axes in *. rewrite !Forall_app in Hmade. destruct Hmade as (M1 & M2 & M3 & M4).
  unfold VerifyNamedSharding in E. apply bind_ok in E as (s1 & E1 & E). apply bind_ok in E as (s2 & E2 & E).
  apply bind_ok in E as (s3 & E3 & E). apply bind_ok in E as (s4 & E4 & _).
  assert (H0 : tracks ∅ [] ∧ good_axes arr []) by (split; [intros i; exact (f_equal (default []) (lookup_empty (M := gmap Z) i)) | split; constructor]).
  destruct H0 as [T0 G0]. destruct (VerifyDimShardings_spec _ _ Hm _ _ _ _ T0 G0 M1 E1) as [T1 G1].
  destruct (VerifySortedAxes_spec _ _ Hm _ _ _ _ T1 G1 M2 E2) as [T2 G2].
  destruct (VerifySortedAxes_spec _ _ Hm _ _ _ _ T2 G2 M3 E3) as [T3 G3].
  destruct (VerifySortedAxes_spec _ _ Hm _ _ _ _ T3 G3 M4 E4) as [_ G4]. by rewrite <- !app_assoc in G4.
Qed.

(** ** Cutting the axes of the mesh *)

(** Sorted numbers, each of which divides the next one. *)
Definition chain (l : list Z) : Prop := StronglySorted (λ x y, x < y ∧ (x | y)) l.

Lemma unique_in l x : x ∈ unique l ↔ x ∈ l.
Proof.
  induction l as [| y l IH]; [done |]. destruct l as [| z l]; [done |]. cbn [unique] in IH |- *.
  destruct (Z.eqb_spec y z) as [-> | Hne]; [rewrite IH; set_solver | rewrite elem_of_cons, IH; set_solver].
Qed.

Lemma unique_sorted l : StronglySorted Z.le l → StronglySorted Z.lt (unique l).
Proof.
  induction 1 as [| y l Hs IH Hy]; [constructor |]. destruct l as [| z l]; [repeat constructor |]. cbn [unique] in IH |- *.
  destruct (Z.eqb_spec y z) as [-> | Hne]; [done |]. constructor; [done |]. apply Forall_forall. intros x Hx.
  apply (unique_in (z :: l)) in Hx. apply Forall_cons in Hy as [Hyz _]. apply StronglySorted_inv in Hs as [_ Hz].
  apply elem_of_cons in Hx as [-> | Hx]; [lia |]. rewrite Forall_forall in Hz. specialize (Hz x Hx). lia.
Qed.

Lemma sorted_chain l :
  StronglySorted Z.lt l → Forall (λ x, 0 < x) l → (∀ x y, x ∈ l → y ∈ l → (x | y) ∨ (y | x)) → chain l.
Proof.
  induction 1 as [| x l Hs IH Hx]; intros Hp Hd; [constructor |]. apply Forall_cons in Hp as [Hpx Hp]. constructor.
  - apply IH; [done |]. intros y z Hy Hz. apply Hd; by right.
  - apply Forall_forall. intros y Hy. rewrite Forall_forall in Hx, Hp. specialize (Hx y Hy). specialize (Hp y Hy). split; [done |].
    destruct (Hd x y) as [H | H]; [by left | by right | done |]. apply Z.divide_pos_le in H; lia.
Qed.

(** Neighbours in a sorted list. *)
Lemma adjacent l x y :
  StronglySorted Z.lt l → x ∈ l → y ∈ l → x < y → (∀ z, z ∈ l → ¬ (x < z < y)) → ∃ l1 l2, l = l1 ++ x :: y :: l2.
Proof.
  induction 1 as [| u l Hs IH Hu]; intros Hx Hy Hxy Hz; [by apply elem_of_nil in Hx |]. rewrite Forall_forall in Hu.
  apply elem_of_cons in Hx as [-> | Hx].
  - apply elem_of_cons in Hy as [-> | Hy]; [lia |]. destruct l as [| v l]; [by apply elem_of_nil in Hy |]. exists [], l. do 2 f_equal.
    apply elem_of_cons in Hy as [-> | Hy]; [done |]. apply StronglySorted_inv in Hs as [_ Hv]. rewrite Forall_forall in Hv.
    exfalso. apply (Hz v); [right; left |]. split; [apply Hu; left | by apply Hv].
  - apply elem_of_cons in Hy as [-> | Hy]; [specialize (Hu x Hx); lia |].
    destruct IH as (l1 & l2 & ->); [done | done | done | intros z Hzl; apply Hz; by right |]. by exists (u :: l1), l2.
Qed.

(** The part of the axis [i] between two places. *)
Definition cut (i x y : Z) : AxisRef := MkAxis i (Some (MkSub x (y / x))).

Definition cuts (i : Z) (l : list Z) : list AxisRef := zip_with (cut i) l (tail l).

Lemma consecutive_cuts i l :
  chain l → Forall (λ x, 0 < x ≤ int64_max) l → consecutive_axes i l = Ok (cuts i l).
Proof.
  unfold cuts. induction 1 as [| x l Hs IH Hx]; intros Hb; [done |]. apply Forall_cons in Hb as [Hb0 Hb]. destruct l as [| y l]; [done |].
  change (consecutive_axes i (x :: y :: l)) with (q ← c_div y x; a ← SubAxisRef i (MkSub x q); rest ← consecutive_axes i (y :: l); Ok (a :: rest)).
  apply Forall_cons in Hx as [[Hlt [q Hq]] _]. pose proof Hb as [Hy _]%Forall_cons. rewrite c_div_pos, (IH Hb) by lia. cbn [mbind res_bind].
  assert (Eq : y / x = q) by (rewrite Hq; apply Z.div_mul; lia). assert (1 < q) by nia. unfold SubAxisRef. cbn [pre_size size].
  by rewrite (proj2 (Z.ltb_lt 0 _)), (proj2 (Z.ltb_lt 1 _)) by lia.
Qed.

Section Cuts.
Context (m : Mesh) (arr : Array Z) (Hm : good_mesh m arr).
Notation ns := (sizes_ arr).

(** A whole axis or a part of one, without the bound that the parts of an axis are smaller. *)
Definition in_mesh (a : AxisRef) : Prop := 0 ≤ mesh_axis_index a < Z.of_nat (length ns) ∧ 0 < part_size ns a.

Lemma in_mesh_size a : in_mesh a → size_in m a = Ok (part_size ns a).
Proof.
  intros [Hi _]. unfold size_in, part_size. destruct (sub_axis_info a); [done |].
  destruct (tile_reads_contents _ _ (gm_contents _ _ Hm)) as (_ & _ & _ & E & _). unfold axis_size. rewrite E. by apply at_z_total.
Qed.

Lemma cuts_position i n l x q xs :
  chain (x :: l) → 0 < x → last (x :: l) = Some q → 0 < n → (q | n) → ns !!! Z.to_nat i = n →
  Forall (λ a, mesh_axis_index a = i ∧ 1 < part_size ns a) (cuts i (x :: l)) ∧ total_size ns (cuts i (x :: l)) = q / x ∧
  position ns (cuts i (x :: l)) xs = (xs !!! Z.to_nat i / (n / q)) mod (q / x).
Proof.
  intros Hc. revert x Hc. induction l as [| y l IH]; intros x Hc Hx Hl Hn Hd Ei.
  - injection Hl as ->. unfold cuts. cbn. rewrite Z.div_same, Z.mod_1_r by lia. done.
  - change (cuts i (x :: y :: l)) with ([cut i x y] ++ cuts i (y :: l)). apply StronglySorted_inv in Hc as [Hc Hxy].
    apply Forall_cons in Hxy as [[Hlt Hxy] Hxl]. destruct (IH y Hc ltac:(lia) Hl Hn Hd Ei) as (IH1 & IH2 & IH3).
    assert (Hyq : (y | q) ∧ 0 < q).
    { destruct l as [| z l]; [injection Hl as ->; split; [done | lia] |]. rewrite !last_cons_cons in Hl.
      apply StronglySorted_inv in Hc as [_ Hc]. rewrite Forall_forall in Hc. apply last_Some_elem_of in Hl. destruct (Hc q Hl). split; [done | lia]. }
    destruct Hyq as [[t Ht] Hq], Hxy as [u Hu], Hd as [w Hw].
    assert (0 < t) by nia. assert (1 < u) by nia. assert (0 < w) by nia.
    assert (Eu : part_size ns (cut i x y) = u) by (unfold part_size; cbn; rewrite Hu; apply Z.div_mul; lia).
    assert (Eqx : q / x = u * t) by (symmetry; apply Z.div_unique_exact; [lia | rewrite Ht, Hu; ring]).
    assert (Eqy : q / y = t) by (rewrite Ht; apply Z.div_mul; lia).
    split; [| split].
    + apply Forall_app. split; [apply Forall_singleton; rewrite Eu; done | done].
    + by rewrite total_size_app, total_size_one, IH2, Eu, Eqx, Eqy.
    + rewrite position_app, position_one, IH2, IH3, Eqx, Eqy. unfold digit. rewrite Eu. unfold axis_total. cbn [cut mesh_axis_index]. rewrite Ei.
      change (axis_pre_size (cut i x y)) with x. assert (Eq : q = x * (u * t)) by (rewrite Ht, Hu; ring).
      rewrite Eq, (digit_arith _ n x u t) by (lia || (exists w; by rewrite <- Eq)). by rewrite Z.mul_assoc.
Qed.

Lemma cuts_nodup i l : chain l → NoDup (cuts i l).
Proof.
  intros Hc. apply (NoDup_fmap_1 axis_pre_size). unfold cuts.
  assert (E : axis_pre_size <$> zip_with (cut i) l (tail l) = take (length (tail l)) l).
  { induction l as [| x l IH]; [done |]. destruct l as [| y l]; [done |]. cbn. f_equal. apply IH. by apply StronglySorted_inv in Hc as [Hc _]. }
  rewrite E. eapply sublist_NoDup; [| apply sublist_take]. clear E. induction Hc as [| x l _ IH Hx]; constructor; [| done].
  intros Hin. rewrite Forall_forall in Hx. destruct (Hx x Hin). lia.
Qed.

Lemma cuts_in i l1 x y l2 : cut i x y ∈ cuts i (l1 ++ x :: y :: l2).
Proof.
  unfold cuts. induction l1 as [| z l1 IH]; [left |]. destruct l1 as [| w l1]; right; exact IH.
Qed.

(** *** One axis of the mesh *)

Context (used : list AxisRef) (Hused : good_axes arr used).

Record block (i : Z) (R : list AxisRef) : Prop := {
  bl_index : Forall (λ a, mesh_axis_index a = i ∧ 0 < part_size ns a) R;
  bl_nodup : NoDup R;
  bl_total : total_size ns R = ns !!! Z.to_nat i;
  bl_position : ∀ xs, 0 ≤ xs !!! Z.to_nat i < ns !!! Z.to_nat i → position ns R xs = xs !!! Z.to_nat i;
  bl_used : ∀ a, a ∈ used → mesh_axis_index a = i → a ∈ R
}.

Lemma pre_sizes_of_spec i :
  0 ≤ i < Z.of_nat (length ns) →
  pre_sizes_of m used i = Ok ([1; ns !!! Z.to_nat i] ++ concat ((λ a, match sub_axis_info a with
    | Some s => [pre_size s; pre_size s * size s] | None => [] end) <$> filter (λ a, mesh_axis_index a = i) used)).
Proof.
  intros Hi. unfold pre_sizes_of. destruct (tile_reads_contents _ _ (gm_contents _ _ Hm)) as (_ & _ & _ & E & _).
  unfold axis_size, dim in *. rewrite E, at_z_total by done. cbn [mbind res_bind].
  erewrite mapM_pure; [done |]. intros a [_ Ha]%list_elem_of_filter. destruct Hused as [Hok _]. rewrite Forall_forall in Hok.
  specialize (Hok a Ha). destruct (sub_axis_info a) as [s |] eqn:Es; [| done]. by rewrite (next_pre_ok m arr Hm a s).
Qed.

(** The places where the references cut the axis [i]. *)
Definition place_of (i p : Z) : Prop :=
  ∃ a s, a ∈ used ∧ mesh_axis_index a = i ∧ sub_axis_info a = Some s ∧ (p = pre_size s ∨ p = pre_size s * size s).

Lemma in_parts i p :
  p ∈ concat ((λ a, match sub_axis_info a with Some s => [pre_size s; pre_size s * size s] | None => [] end) <$>
    filter (λ a, mesh_axis_index a = i) used) ↔ place_of i p.
Proof.
  unfold place_of. split.
  - intros (l & Hl & Hp)%list_elem_of_In%in_concat. apply list_elem_of_In, list_elem_of_fmap in Hl as (a & -> & [Ei Ha]%list_elem_of_filter).
    destruct (sub_axis_info a) as [s |] eqn:Es; [| done]. exists a, s. apply list_elem_of_In in Hp. set_solver.
  - intros (a & s & Ha & Ei & Es & Hp). apply list_elem_of_In, in_concat. exists [pre_size s; pre_size s * size s]. split.
    + apply list_elem_of_In, list_elem_of_fmap. exists a. rewrite Es. split; [done |]. by apply list_elem_of_filter.
    + apply list_elem_of_In. set_solver.
Qed.

Lemma place_bounds i p : place_of i p → 1 ≤ p ∧ (p | ns !!! Z.to_nat i) ∧ 1 < ns !!! Z.to_nat i.
Proof.
  intros (a & s & Ha & <- & Es & Hp). destruct Hused as [Hok _]. rewrite Forall_forall in Hok. specialize (Hok a Ha).
  pose proof (ax_sub _ _ Hok) as Hs. pose proof (ax_divides _ _ Hok) as Hd. unfold axis_pre_size, part_size, axis_total in *. rewrite Es in *.
  split; [nia |]. split; [| lia]. destruct Hp as [-> | ->]; [| done]. etrans; [| exact Hd]. apply Z.divide_factor_l.
Qed.

Lemma places_comparable i p q : place_of i p → place_of i q → (p | q) ∨ (q | p).
Proof.
  intros (a & s & Ha & Ei & Es & Hp) (b & t & Hb & Ej & Et & Hq). destruct Hused as [Hok Hch].
  assert (Hself : ∀ u : SubAxis, (pre_size u | pre_size u * size u)) by (intros u; apply Z.divide_factor_l).
  destruct (ordpairs_in chained used a b chained_sym Hch Ha Hb) as [<- | Hc].
  - assert (t = s) by congruence. subst t. destruct Hp as [-> | ->], Hq as [-> | ->]; auto using Z.divide_refl.
  - assert (Hb1 : ∀ (u : SubAxis) x, x = pre_size u ∨ x = pre_size u * size u → (x | pre_size u * size u) ∧ (pre_size u | x)).
    { intros u x [-> | ->]; auto using Z.divide_refl. }
    destruct (Hb1 s p Hp) as [P1 P2], (Hb1 t q Hq) as [Q1 Q2]. unfold chained in Hc. rewrite Es, Et in Hc.
    destruct Hc as [? | [Hc | Hc]]; [congruence | left | right]; eauto using Z.divide_trans.
Qed.

Lemma size_bounds i : 0 ≤ i < Z.of_nat (length ns) → 0 < ns !!! Z.to_nat i ≤ int64_max.
Proof.
  intros Hi. apply (axis_total_bounds m arr Hm (FullAxis i)). constructor; [done | done |].
  unfold axis_pre_size, part_size. cbn. by rewrite Z.mul_1_l.
Qed.

(** Without cuts. *)
Lemma whole_block i :
  0 ≤ i < Z.of_nat (length ns) → (∀ p, ¬ place_of i p) → block i [FullAxis i].
Proof.
  intros Hi Hno. pose proof (size_bounds i Hi) as Hn. constructor.
  - apply Forall_singleton. split; [done |]. unfold part_size, axis_total. cbn. lia.
  - repeat constructor. by intros ?%elem_of_nil.
  - by rewrite total_size_one.
  - intros xs Hx. rewrite position_one. unfold digit, part_size, axis_total, axis_pre_size. cbn.
    rewrite Z.mul_1_l, Z.div_same, Z.div_1_r by lia. by apply Z.mod_small.
  - intros a Ha <-. apply list_elem_of_singleton. destruct a as [j [t |]]; [| done]. exfalso. apply (Hno (pre_size t)).
    exists (MkAxis j (Some t)), t. auto.
Qed.

Lemma first_min (l : list Z) x : StronglySorted Z.lt l → x ∈ l → (∀ y, y ∈ l → x ≤ y) → ∃ l', l = x :: l'.
Proof.
  intros Hs Hx Hmin. destruct l as [| y l]; [by apply elem_of_nil in Hx |]. exists l. f_equal. pose proof (Hmin y ltac:(left)).
  apply elem_of_cons in Hx as [-> | Hx]; [done |]. apply StronglySorted_inv in Hs as [_ Hs]. rewrite Forall_forall in Hs. specialize (Hs x Hx). lia.
Qed.

Lemma last_max (l : list Z) x : StronglySorted Z.lt l → x ∈ l → (∀ y, y ∈ l → y ≤ x) → last l = Some x.
Proof.
  induction 1 as [| y l Hs IH Hy]; intros Hx Hmax; [by apply elem_of_nil in Hx |]. destruct l as [| z l].
  - apply list_elem_of_singleton in Hx as ->. done.
  - rewrite last_cons_cons. apply IH; [| intros w Hw; apply Hmax; by right]. apply elem_of_cons in Hx as [-> | Hx]; [| done].
    apply Forall_cons in Hy as [Hyz _]. specialize (Hmax z ltac:(right; left)). lia.
Qed.

(** A reference is one of the cuts, since no other one cuts within it. *)
Lemma cut_used i l p a :
  place_of i p → StronglySorted Z.lt l → (∀ x, x ∈ l ↔ x = 1 ∨ x = ns !!! Z.to_nat i ∨ place_of i x) →
  a ∈ used → mesh_axis_index a = i → a ∈ cuts i l.
Proof.
  intros (b & t & Hb & Ej & Et & Hp) Hs Hin Ha Ei. destruct Hused as [Hok Hch].
  destruct (sub_axis_info a) as [s |] eqn:Es.
  2: { destruct (ordpairs_in chained used a b chained_sym Hch Ha Hb) as [<- | [? | Hc]]; [congruence | congruence |]. by rewrite Es in Hc. }
  rewrite Forall_forall in Hok. pose proof (Hok a Ha) as Hoka. pose proof (ax_sub _ _ Hoka) as Hsa. rewrite Es in Hsa.
  assert (P1 : place_of i (pre_size s)) by (exists a, s; auto). assert (P2 : place_of i (pre_size s * size s)) by (exists a, s; auto).
  destruct (place_bounds i _ P2) as (_ & D2 & Hn1). apply Z.divide_pos_le in D2; [| lia].
  destruct (adjacent l (pre_size s) (pre_size s * size s) Hs) as (l1 & l2 & ->); [apply Hin; auto | apply Hin; auto | nia | |].
  - intros z Hz Hlt. apply Hin in Hz as [-> | [-> | (c & u & Hcu & Ec & Eu & Hz)]]; [lia | lia |].
    pose proof (ax_sub _ _ (Hok c Hcu)) as Hsc. rewrite Eu in Hsc.
    destruct (ordpairs_in chained used a c chained_sym Hch Ha Hcu) as [<- | Hc]; [assert (u = s) by congruence; subst u; lia |].
    unfold chained in Hc. rewrite Es, Eu in Hc. destruct Hc as [? | [Hc | Hc]]; [congruence | |]; apply Z.divide_pos_le in Hc; [nia | lia | nia | lia].
  - replace a with (cut i (pre_size s) (pre_size s * size s)); [apply cuts_in |]. unfold cut.
    rewrite (Z.mul_comm (pre_size s)), Z.div_mul by lia. destruct a as [j o]. cbn in Es, Ei. subst o j. by destruct s.
Qed.

(** With cuts. *)
Lemma cut_block i l p :
  0 ≤ i < Z.of_nat (length ns) → place_of i p → StronglySorted Z.lt l →
  (∀ x, x ∈ l ↔ x = 1 ∨ x = ns !!! Z.to_nat i ∨ place_of i x) → consecutive_axes i l = Ok (cuts i l) ∧ block i (cuts i l).
Proof.
  intros Hi Hp Hs Hin. pose proof (size_bounds i Hi) as Hn. destruct (place_bounds i p Hp) as (_ & _ & Hn1). set (n := ns !!! Z.to_nat i) in *.
  assert (Hb : ∀ x, x ∈ l → 1 ≤ x ∧ (x | n) ∧ x ≤ n).
  { intros x Hx. apply Hin in Hx as [-> | [-> | Hx]]; [split; [lia | split; [apply Z.divide_1_l | lia]] | split; [lia | done] |].
    destruct (place_bounds i x Hx) as (H1 & H2 & _). split; [done |]. split; [done |]. apply Z.divide_pos_le in H2; [done | lia]. }
  assert (Hc : chain l).
  { apply sorted_chain; [done | apply Forall_forall; intros x Hx; destruct (Hb x Hx); lia |]. intros x y Hx Hy.
    destruct (Hb x Hx) as (_ & Dx & _), (Hb y Hy) as (_ & Dy & _).
    apply Hin in Hx as [-> | [-> | Hx]]; [left; apply Z.divide_1_l | by right |]. apply Hin in Hy as [-> | [-> | Hy]]; [right; apply Z.divide_1_l | by left |].
    by apply (places_comparable i). }
  split; [apply consecutive_cuts; [done |]; apply Forall_forall; intros x Hx; destruct (Hb x Hx) as (? & _ & ?); lia |].
  destruct (first_min l 1 Hs) as [l' El]; [apply Hin; auto | intros y Hy; by apply Hb |].
  assert (Hlast : last l = Some n) by (apply last_max; [done | apply Hin; auto | intros y Hy; by apply Hb]).
  assert (Hpos : ∀ xs, Forall (λ a, mesh_axis_index a = i ∧ 1 < part_size ns a) (cuts i l) ∧ total_size ns (cuts i l) = n / 1 ∧
    position ns (cuts i l) xs = (xs !!! Z.to_nat i / (n / n)) mod (n / 1)).
  { intros xs. rewrite El in *. apply (cuts_position i n l' 1 n xs); [done | lia | done | lia | done | done]. }
  rewrite Z.div_1_r, Z.div_same in Hpos by lia. constructor.
  - eapply Forall_impl; [apply (Hpos [])|]. cbn. intros a [? ?]. split; [done | lia].
  - by apply cuts_nodup.
  - apply (Hpos []).
  - intros xs Hx. destruct (Hpos xs) as (_ & _ & ->). rewrite Z.div_1_r. by apply Z.mod_small.
  - intros a Ha Ei. by apply (cut_used i l p).
Qed.

Lemma ordered_axes_spec i : 0 ≤ i < Z.of_nat (length ns) → ∃ R, ordered_axes m used i = Ok R ∧ block i R.
Proof.
  intros Hi. unfold ordered_axes. rewrite pre_sizes_of_spec by done. cbn [mbind res_bind].
  match goal with |- context [[1; _] ++ ?l] => set (parts := l) end.
  assert (Hparts : ∀ p, p ∈ parts ↔ place_of i p) by (intros p; apply in_parts). clearbody parts. destruct parts as [| p parts].
  - eexists. split; [done |]. apply whole_block; [done |]. intros p Hp. apply Hparts in Hp. by apply elem_of_nil in Hp.
  - rewrite (proj2 (Nat.eqb_neq _ _)) by (cbn; lia). eexists. apply (cut_block i _ p); [done | apply Hparts; left | |].
    + apply unique_sorted. apply StronglySorted_merge_sort; apply _.
    + intros x. rewrite unique_in, merge_sort_Permutation. cbn [app]. rewrite !elem_of_cons, <- elem_of_cons, Hparts. done.
Qed.

(** All references, the axes of the mesh being in order. *)
Record references (R : list AxisRef) : Prop := {
  rf_in : Forall in_mesh R;
  rf_nodup : NoDup R;
  rf_total : total_size ns R = prod ns;
  rf_position : ∀ xs, in_bounds ns xs → position ns R xs = lin ns xs;
  rf_used : ∀ a, a ∈ used → a ∈ R
}.

Lemma concat_blocks ids Rs :
  Forall2 block ids Rs → NoDup ids → Forall (λ i, 0 ≤ i < Z.of_nat (length ns)) ids →
  Forall in_mesh (concat Rs) ∧ NoDup (concat Rs) ∧ Forall (λ a, mesh_axis_index a ∈ ids) (concat Rs) ∧
  total_size ns (concat Rs) = prod (sel ns ids) ∧
  ∀ xs, Forall (λ i, 0 ≤ xs !!! Z.to_nat i < ns !!! Z.to_nat i) ids → position ns (concat Rs) xs = lin (sel ns ids) (sel xs ids).
Proof.
  induction 1 as [| i R ids Rs Hb H IH]; intros Hnd Hi.
  { split; [constructor |]. split; [constructor |]. split; [constructor |]. done. }
  apply NoDup_cons in Hnd as [Hni Hnd]. apply Forall_cons in Hi as [Hi0 Hi]. destruct (IH Hnd Hi) as (I1 & I2 & I3 & I4 & I5).
  pose proof (bl_index _ _ Hb) as Hidx. cbn [concat]. split; [| split; [| split; [| split]]].
  - apply Forall_app. split; [| done]. eapply Forall_impl; [exact Hidx |]. cbn. intros a [Ea ?]. split; [by rewrite Ea | done].
  - apply NoDup_app. split; [apply Hb |]. split; [| done]. intros a Ha Hc. rewrite Forall_forall in Hidx, I3.
    destruct (Hidx a Ha) as [Ei _]. apply Hni. rewrite <- Ei. by apply I3.
  - apply Forall_app. split; [eapply Forall_impl; [exact Hidx |]; cbn; intros a [Ea _]; rewrite Ea; left | eapply Forall_impl; [exact I3 |]; cbn; intros; by right].
  - by rewrite total_size_app, (bl_total _ _ Hb), I4, sel_cons, prod_cons.
  - intros xs [Hx Hxs]%Forall_cons. rewrite position_app, (bl_position _ _ Hb) by done. rewrite I4, I5, !sel_cons by done.
    rewrite lin_cons; [done |]. by rewrite !length_sel.
Qed.
End Cuts.

Lemma GetOrderedAxisRefs_spec {OpMetadata} (n : NamedSharding OpMetadata) arr :
  good_mesh (mesh n) arr → good_axes arr (all_axes n) → ∃ R, GetOrderedAxisRefs n = Ok R ∧ references arr (all_axes n) R.
Proof.
  intros Hm Hu. unfold GetOrderedAxisRefs. fold (all_axes n). unfold axis_sizes.
  rewrite (dimensions_spec _ _ (gm_contents _ _ Hm)). cbn [mbind res_bind].
  set (ids := seqZ 0 (Z.of_nat (length (sizes_ arr)))).
  assert (His : Forall (λ i, 0 ≤ i < Z.of_nat (length (sizes_ arr))) ids) by (apply Forall_forall; intros i Hi%elem_of_seqZ; lia).
  destruct (mapM_total (ordered_axes (mesh n) (all_axes n)) ids) as [Rs HRs].
  { intros i Hi. rewrite Forall_forall in His. destruct (ordered_axes_spec _ _ Hm _ Hu i (His i Hi)) as (R & E & _). eauto. }
  rewrite HRs. cbn [mbind res_bind]. eexists. split; [done |]. apply mapM_res_ok in HRs.
  assert (Hbl : Forall2 (block arr (all_axes n)) ids Rs).
  { clear -HRs His Hm Hu. induction HRs as [| i R l l' HR _ IH]; constructor; apply Forall_cons in His as [Hi His]; [| by apply IH].
    destruct (ordered_axes_spec _ _ Hm _ Hu i Hi) as (R' & E & Hb). congruence. }
  destruct (concat_blocks arr (all_axes n) ids Rs Hbl) as (I1 & I2 & _ & I4 & I5); [apply NoDup_seqZ | done |].
  constructor; [done | done | by rewrite I4, sel_seqZ | |].
  - intros xs Hx. pose proof (in_bounds_length _ _ Hx) as El. rewrite I5; [unfold ids; by rewrite sel_seqZ, El, sel_seqZ |].
    eapply Forall_impl; [exact His |]. cbn. intros i Hi. apply in_bounds_lookup; [done | lia].
  - intros a Ha. destruct Hu as [Hok _]. rewrite Forall_forall in Hok. pose proof (ax_index _ _ (Hok a Ha)) as Hi.
    assert (Hin : mesh_axis_index a ∈ ids) by (apply elem_of_seqZ; lia). apply list_elem_of_lookup in Hin as [k Hk].
    destruct (Forall2_lookup_l _ _ _ _ _ Hbl Hk) as (R & HR & Hb). apply list_elem_of_In, in_concat. exists R. split.
    + apply list_elem_of_In. by eapply list_elem_of_lookup_2.
    + apply list_elem_of_In. by apply (bl_used _ _ _ _ Hb).
Qed.

(** ** Putting the axes in the order of the dimensions *)

Lemma assign_positions_app l1 l2 k l :
  assign_positions (l1 ++ l2) k l =
  assign_positions l2 (assign_positions l1 k l).2 (assign_positions l1 k l).1.
Proof. revert k l. induction l1 as [| a l1 IH]; intros k l; [done |]. apply IH. Qed.

Lemma assign_positions_end us k l : (assign_positions us k l).2 = k + Z.of_nat (length us).
Proof. revert k l. induction us as [| a us IH]; intros k l; cbn [assign_positions length]; [cbn; lia |]. rewrite IH. lia. Qed.

Lemma find_assigned us k l a :
  NoDup us → find_pos a (assign_positions us k l).1 =
  match list_find (eq a) us with Some (j, _) => Some (k + Z.of_nat j) | None => find_pos a l end.
Proof.
  revert k l. induction us as [| b us IH]; intros k l; [done |]. intros [Hb Hnd]%NoDup_cons. cbn [assign_positions]. rewrite IH by done.
  cbn [list_find]. destruct (decide (a = b)) as [<- | Hne].
  - rewrite (proj2 (list_find_None _ _)) by (apply Forall_forall; intros c Hc <-; done). cbn [find_pos]. rewrite bool_decide_eq_true_2 by done. f_equal. lia.
  - destruct (list_find (eq a) us) as [[j c] |] eqn:E; cbn; [f_equal; lia |]. by rewrite bool_decide_eq_false_2.
Qed.

(** The positions of distinct axes. *)
Definition finds (us : list AxisRef) (l : PosMap) : Prop :=
  ∀ a, match find_pos a l with Some p => 0 ≤ p ∧ us !! Z.to_nat p = Some a | None => a ∉ us end.

Lemma assigned_finds us : NoDup us → finds us (assign_positions us 0 []).1.
Proof.
  intros Hnd a. rewrite find_assigned by done. destruct (list_find (eq a) us) as [[j c] |] eqn:E.
  - apply list_find_Some in E as (E & <- & _). split; [lia |]. by rewrite Z.add_0_l, Nat2Z.id.
  - cbn. apply list_find_None in E. intros Hin. rewrite Forall_forall in E. by apply (E a).
Qed.

Definition unplaced (l : PosMap) (R : list AxisRef) : list AxisRef := filter (λ a, find_pos a l = None) R.

(** Where every reference goes. *)
Fixpoint targets (l : PosMap) (R : list AxisRef) (replicated_pos : Z) : list Z :=
  match R with
  | [] => []
  | a :: R =>
      match find_pos a l with
      | Some p => p :: targets l R replicated_pos
      | None => replicated_pos :: targets l R (replicated_pos + 1)
      end
  end.

Fixpoint write (ts : list Z) (i : Z) (perm : list Z) : list Z :=
  match ts with
  | [] => perm
  | t :: ts => write ts (i + 1) (<[Z.to_nat t := i]> perm)
  end.

Lemma length_write ts i perm : length (write ts i perm) = length perm.
Proof. revert i perm. induction ts as [| t ts IH]; intros i perm; cbn; [done |]. by rewrite IH, length_insert. Qed.

Lemma write_other ts i perm q : Forall (λ t, 0 ≤ t) ts → 0 ≤ q → q ∉ ts → write ts i perm !! Z.to_nat q = perm !! Z.to_nat q.
Proof.
  intros H Hq. revert i perm. induction H as [| t ts Ht H IH]; intros i perm Hn; [done |]. apply not_elem_of_cons in Hn as [Hne Hn].
  cbn [write]. rewrite IH by done. apply list_lookup_insert_ne. lia.
Qed.

Lemma write_lookup ts i perm j t :
  NoDup ts → Forall (λ t, 0 ≤ t < Z.of_nat (length perm)) ts → ts !! j = Some t → write ts i perm !! Z.to_nat t = Some (i + Z.of_nat j).
Proof.
  intros Hnd. revert i perm j. induction Hnd as [| u ts Hu Hnd IH]; intros i perm j Hr Hj; [done |].
  apply Forall_cons in Hr as [Hur Hr]. destruct j as [| j]; cbn [write].
  - injection Hj as ->. rewrite write_other; [| eapply Forall_impl; [exact Hr |]; cbn; lia | lia | done].
    rewrite list_lookup_insert_eq by lia. f_equal. lia.
  - rewrite (IH (i + 1) _ j); [f_equal; lia | by rewrite length_insert | done].
Qed.

Lemma place_axes_spec m arr l R i rp total perm :
  good_mesh m arr → Forall (in_mesh arr) R → Forall (λ t, 0 ≤ t < Z.of_nat (length perm)) (targets l R rp) →
  0 < total → total * total_size (sizes_ arr) (unplaced l R) ≤ int64_max →
  place_axes m l R i rp total perm =
  Ok (part_size (sizes_ arr) <$> R, write (targets l R rp) i perm, total * total_size (sizes_ arr) (unplaced l R)).
Proof.
  intros Hm Hin. revert i rp total perm. induction Hin as [| a R Ha Hin IH]; intros i rp total perm Ht Htot Hmax.
  { cbn. unfold total_size, prod. cbn. do 2 f_equal. lia. }
  assert (Hpos : 0 < total_size (sizes_ arr) (unplaced l R)).
  { apply prod_pos. apply Forall_fmap, Forall_forall. intros b [_ Hb]%list_elem_of_filter. rewrite Forall_forall in Hin. by apply Hin. }
  cbn [place_axes targets]. rewrite (in_mesh_size m arr Hm a Ha). cbn [mbind res_bind]. cbn [targets] in Ht.
  unfold unplaced in Hmax |- *. rewrite filter_cons in Hmax |- *. destruct (find_pos a l) as [p |] eqn:Ef.
  - rewrite decide_False in Hmax |- * by done. apply Forall_cons in Ht as [Hp Ht]. rewrite at_z_total by done. cbn [mbind res_bind write fmap list_fmap].
    rewrite IH; [done | by rewrite length_insert | done | done].
  - rewrite decide_True in Hmax |- * by done. apply Forall_cons in Ht as [Hp Ht]. rewrite at_z_total by done. cbn [mbind res_bind write fmap list_fmap].
    fold (unplaced l R) in Hmax |- *. change (total_size (sizes_ arr) (a :: unplaced l R)) with (part_size (sizes_ arr) a * total_size (sizes_ arr) (unplaced l R)) in *.
    destruct Ha as [_ Ha]. assert (0 < total * part_size (sizes_ arr) a) by nia.
    assert (total * part_size (sizes_ arr) a ≤ int64_max) by nia. rewrite s64_in by int_lia. cbn [mbind res_bind].
    rewrite IH; [| by rewrite length_insert | done | by rewrite <- Z.mul_assoc]. cbn [mbind res_bind]. by rewrite Z.mul_assoc.
Qed.

(** *** The permutation *)

Lemma targets_lookup us l R G j a :
  finds us l → R !! j = Some a →
  ∃ t, targets l R (Z.of_nat (length us + length G)) !! j = Some t ∧ 0 ≤ t ∧ (us ++ G ++ unplaced l R) !! Z.to_nat t = Some a.
Proof.
  intros Hf. revert G j. induction R as [| b R IH]; intros G j Hj; [done |]. cbn [targets]. unfold unplaced. rewrite filter_cons.
  pose proof (Hf b) as Hb. destruct (find_pos b l) as [p |] eqn:Ef.
  - rewrite decide_False by done. destruct j as [| j]; cbn in Hj |- *.
    + injection Hj as ->. exists p. split; [done |]. destruct Hb as [Hp Hb]. split; [done |]. by apply lookup_app_l_Some.
    + by apply IH.
  - rewrite decide_True by done. destruct j as [| j]; cbn in Hj |- *.
    + injection Hj as ->. eexists. split; [done |]. split; [lia |]. rewrite Nat2Z.id, app_assoc.
      rewrite <- length_app. rewrite lookup_app_r, Nat.sub_diag by lia. done.
    + replace (Z.of_nat (length us + length G) + 1) with (Z.of_nat (length us + length (G ++ [b]))) by (rewrite length_app; cbn; lia).
      destruct (IH (G ++ [b]) j Hj) as (t & E & Ht & El). exists t. split; [done |]. split; [done |]. by rewrite <- app_assoc in El.
Qed.

Lemma length_targets l R rp : length (targets l R rp) = length R.
Proof. revert rp. induction R as [| a R IH]; intros rp; cbn; [done |]. destruct (find_pos a l); cbn; by rewrite IH. Qed.

Lemma arranged_elements us l R :
  finds us l → NoDup us → NoDup R → (∀ a, a ∈ us → a ∈ R) → us ++ unplaced l R ≡ₚ R.
Proof.
  intros Hf Hu HR Hin. symmetry. apply NoDup_Permutation; [done | |].
  - apply NoDup_app. split; [done |]. split; [| by apply NoDup_filter]. intros a Ha [E _]%list_elem_of_filter.
    pose proof (Hf a) as H. by rewrite E in H.
  - intros a. rewrite elem_of_app. unfold unplaced. rewrite list_elem_of_filter. pose proof (Hf a) as H. split.
    + intros Ha. destruct (find_pos a l) as [p |]; [left; destruct H as [_ H]; by eapply list_elem_of_lookup_2 | by right].
    + intros [Ha | [_ Ha]]; [by apply Hin | done].
Qed.

Lemma targets_perm us l R :
  finds us l → NoDup us → NoDup R → (∀ a, a ∈ us → a ∈ R) → perm (targets l R (Z.of_nat (length us))).
Proof.
  intros Hf Hu HR Hin. pose proof (arranged_elements us l R Hf Hu HR Hin) as Hp.
  assert (Ht : ∀ j t, targets l R (Z.of_nat (length us)) !! j = Some t →
    ∃ a, R !! j = Some a ∧ 0 ≤ t ∧ (us ++ unplaced l R) !! Z.to_nat t = Some a).
  { intros j t Hj. assert (Hlt : (j < length R)%nat) by (apply lookup_lt_Some in Hj; by rewrite length_targets in Hj).
    destruct (lookup_lt_is_Some_2 R j Hlt) as [a Ha]. destruct (targets_lookup us l R [] j a Hf Ha) as (t' & E & H0 & El).
    cbn [length app] in E, El. rewrite Nat.add_0_r in E. assert (t' = t) by congruence. subst t'. eauto. }
  split.
  - apply NoDup_alt. intros j k t Hj Hk. destruct (Ht j t Hj) as (a & Ra & _ & La). destruct (Ht k t Hk) as (b & Rb & _ & Lb).
    assert (a = b) by congruence. subst b. by eapply NoDup_lookup.
  - intros t [j Hj]%list_elem_of_lookup. destruct (Ht j t Hj) as (a & _ & H0 & La). apply lookup_lt_Some in La.
    rewrite Hp in La. rewrite length_targets. lia.
Qed.

(** The references in the new order are the sharded ones and then the others. *)
Lemma write_arranges us l R (f : AxisRef → Z) :
  finds us l → NoDup us → NoDup R → (∀ a, a ∈ us → a ∈ R) →
  let p := write (targets l R (Z.of_nat (length us))) 0 (replicate (length R) 0) in
  valid_layout (f <$> R) p ∧ sel (f <$> R) p = f <$> (us ++ unplaced l R).
Proof.
  intros Hf Hu HR Hin p. pose proof (arranged_elements us l R Hf Hu HR Hin) as Hp. pose proof (targets_perm us l R Hf Hu HR Hin) as [Tn Tr].
  assert (Hlen : length p = length R) by (unfold p; by rewrite length_write, length_replicate).
  assert (Hlook : ∀ q, (q < length R)%nat → ∃ j a, p !! q = Some (Z.of_nat j) ∧ R !! j = Some a ∧ (us ++ unplaced l R) !! q = Some a ∧
    targets l R (Z.of_nat (length us)) !! j = Some (Z.of_nat q)).
  { intros q Hq. assert (Hqt : Z.of_nat q ∈ targets l R (Z.of_nat (length us))).
    { rewrite (perm_seqZ _ (conj Tn Tr)), length_targets. apply elem_of_seqZ. lia. }
    apply list_elem_of_lookup in Hqt as [j Hj]. assert (Hjl : (j < length R)%nat) by (apply lookup_lt_Some in Hj; by rewrite length_targets in Hj).
    destruct (lookup_lt_is_Some_2 R j Hjl) as [a Ha]. destruct (targets_lookup us l R [] j a Hf Ha) as (t & E & _ & El).
    cbn [length app] in E, El. rewrite Nat.add_0_r, Hj in E. injection E as <-. rewrite Nat2Z.id in El.
    exists j, a. split; [| done]. unfold p. rewrite <- (Nat2Z.id q).
    apply (write_lookup _ 0 _ j); [done | | done]. apply Forall_forall. intros t Ht. rewrite length_replicate. apply Tr in Ht. by rewrite length_targets in Ht. }
  split; [split; [split |] |].
  - apply NoDup_alt. intros q1 q2 x H1 H2. pose proof (lookup_lt_Some _ _ _ H1). pose proof (lookup_lt_Some _ _ _ H2).
    destruct (Hlook q1 ltac:(lia)) as (j1 & a1 & P1 & _ & _ & T1). destruct (Hlook q2 ltac:(lia)) as (j2 & a2 & P2 & _ & _ & T2).
    assert (j1 = j2) by (simplify_eq; lia). subst j2. simplify_eq. lia.
  - intros x [q Hq]%list_elem_of_lookup. pose proof (lookup_lt_Some _ _ _ Hq). destruct (Hlook q ltac:(lia)) as (j & a & P & Ra & _).
    apply lookup_lt_Some in Ra. simplify_eq. lia.
  - by rewrite length_fmap.
  - apply list_eq_same_length with (length R); [rewrite length_fmap; by rewrite Hp | by rewrite length_sel |].
    intros q x y Hq Hx Hy. destruct (Hlook q Hq) as (j & a & P & Ra & La & _). rewrite (sel_lookup _ _ _ _ P), Nat2Z.id in Hx.
    rewrite list_lookup_fmap, La in Hy. injection Hx as <-. injection Hy as <-. apply list_lookup_total_correct. by rewrite list_lookup_fmap, Ra.
Qed.

(** *** The devices in the new order *)

Section Place.
Context (m : Mesh) (arr : Array Z) (Hm : good_mesh m arr).
Notation ns := (sizes_ arr).
Context (R L : list AxisRef) (p : list Z) (used : list AxisRef).
Hypothesis HR : references arr used R.
Hypothesis Hp : valid_layout (part_size ns <$> R) p.
Hypothesis HL : ∀ f : AxisRef → Z, sel (f <$> R) p = f <$> L.
Hypothesis Hmax : Arrays.num_elements arr < 46339 * 46339.

Lemma arr_elements : Arrays.num_elements arr = prod ns.
Proof. apply (a_values _ (contents_ok _ _ (gm_contents _ _ Hm))). Qed.

Lemma ref_sizes : Forall (λ d, 0 < d) (part_size ns <$> R) ∧ prod (part_size ns <$> R) = prod ns.
Proof. split; [| apply HR]. apply Forall_fmap. eapply Forall_impl; [apply HR |]. intros a [_ Ha]. exact Ha. Qed.

Lemma digits_bounds l xs : Forall (in_mesh arr) l → in_bounds (part_size ns <$> l) ((λ a, digit ns a xs) <$> l).
Proof.
  intros H. apply Forall2_fmap, Forall_Forall2_diag. eapply Forall_impl; [exact H |]. intros a [_ Ha].
  apply Z.mod_pos_bound. exact Ha.
Qed.

(** What the new assignment holds. *)
Definition placed (vs : list Z) : Prop :=
  ∀ xs, in_bounds ns xs → vs !! Z.to_nat (position ns L xs) = values_ arr !! Z.to_nat (lin ns xs).

Lemma position_sel xs : position ns L xs = lin (sel (part_size ns <$> R) p) (sel ((λ a, digit ns a xs) <$> R) p).
Proof. unfold position. by rewrite !HL. Qed.

(** The devices are numbered in order. *)
Lemma simple_iota i k :
  iota_ (MeshAxes.device_assignment m) = Some i → length (TileAssign.reshape_dims i) = 1%nat → 0 ≤ k < prod ns →
  values_ arr !! Z.to_nat k = Some k.
Proof.
  intros Ei El Hk. pose proof (gm_contents _ _ Hm) as Hc. unfold contents in Hc. rewrite Ei in Hc.
  destruct Hc as ([Hok _] & -> & _). cbn [flat_array sizes_ values_] in *.
  rewrite list_lookup_fmap, (proj2 (lookup_seqZ 0 _ _ k)) by lia. cbn. f_equal.
  pose proof (tr_perm _ _ _ Hok) as Hv. pose proof (tr_prod _ _ _ Hok) as Hpr. destruct (TileAssign.reshape_dims i) as [| d [| ? ?]]; try done.
  destruct Hv as [[Hn Hr] Hl]. destruct (TileAssign.transpose_perm i) as [| q [| ? ?]]; try done.
  assert (q = 0) by (specialize (Hr q ltac:(left)); cbn in Hr; lia). subst q. rewrite prod_singleton in Hpr.
  assert (El1 : lin [d] [k] = k) by (unfold lin; cbn; lia). pose proof (flat_lin [d] [0] [k]) as Hf.
  change (sel [d] [0]) with [d] in Hf. change (sel [k] [0]) with [k] in Hf. rewrite El1 in Hf. apply Hf.
  - split; [split; [done | exact Hr] | done].
  - repeat constructor; lia.
Qed.

Lemma place_iota i ds :
  iota_ (MeshAxes.device_assignment m) = Some i → length (TileAssign.reshape_dims i) = 1%nat →
  Forall (λ d, 0 < d) ds → ds ≠ [] → R ≠ [] → prod ds = prod ns →
  ∃ t vs, of_transform ds (part_size ns <$> R) p = Ok t ∧ contents t (MkArray ds vs) ∧ placed vs.
Proof.
  intros Ei El Hd Hne HRne Hpr. destruct ref_sizes as [Rp Rt]. pose proof Hmax as Hmax'. rewrite arr_elements in Hmax'.
  destruct (of_transform_contents ds (part_size ns <$> R) p) as (t & Et & Ht).
  { constructor; try done; [by destruct R | congruence | lia]. }
  exists t. eexists. split; [done |]. split; [done |]. intros xs Hx. pose proof (lin_bounds _ _ Hx) as Hlb.
  pose proof (digits_bounds R xs (rf_in _ _ _ HR)) as Hdb. rewrite position_sel, (simple_iota i) by done.
  assert (Hpb : 0 ≤ lin (sel (part_size ns <$> R) p) (sel ((λ a, digit ns a xs) <$> R) p) < prod ds).
  { assert (Es : prod (sel (part_size ns <$> R) p) = prod ds) by (rewrite (sel_perm _ _ Hp); congruence). rewrite <- Es. apply lin_bounds. apply in_bounds_sel; [done |]. by eapply valid_layout_in_range. }
  rewrite list_lookup_fmap, (proj2 (lookup_seqZ 0 _ _ (lin (sel (part_size ns <$> R) p) (sel ((λ a, digit ns a xs) <$> R) p)))) by lia.
  cbn [fmap option_fmap option_map]. f_equal.
  rewrite flat_lin by done. by apply (rf_position _ _ _ HR).
Qed.

Lemma place_any ds :
  Forall (λ d, 0 < d) ds → ds ≠ [] → R ≠ [] → prod ds = prod ns →
  ∃ t vs, (t ← tile_reshape (MeshAxes.device_assignment m) (part_size ns <$> R); t ← tile_transpose t p; tile_reshape t ds) = Ok t ∧
    contents t (MkArray ds vs) ∧ placed vs.
Proof.
  intros Hd Hne HRne Hpr. destruct ref_sizes as [Rp Rt]. pose proof arr_elements as En. pose proof Hmax as Hmax'. rewrite En in Hmax'.
  assert (Hre : ∀ t a ds', contents t a → Forall (λ d, 0 < d) ds' → ds' ≠ [] → prod ds' = prod ns → Arrays.num_elements a = prod ns →
    ∃ t', tile_reshape t ds' = Ok t' ∧ contents t' (MkArray ds' (values_ a))).
  { intros t a ds' Ht Hd' Hne' Hpr' Hna. pose proof (tile_reshape_refines t a ds' Ht Hd' Hne' ltac:(lia)) as H.
    rewrite decide_True in H by congruence. destruct H as (t' & b & E & Hb & Er). exists t'. split; [done |].
    unfold Reshape in Er. rewrite calculate_elements_spec in Er by (done || int_lia). cbn [mbind res_bind] in Er.
    rewrite (proj2 (Z.eqb_eq _ _)) in Er by congruence. injection Er as <-. done. }
  destruct (Hre _ _ (part_size ns <$> R) (gm_contents _ _ Hm) Rp) as (t1 & E1 & C1); [by destruct R | done | done |].
  rewrite E1. cbn [mbind res_bind]. pose proof (contents_ok _ _ C1) as Hok1.
  destruct (tile_transpose_array t1 _ p 0 C1 Hp) as (t2 & b & E2 & C2 & Eb); [unfold Arrays.num_elements in *; cbn [values_]; lia |].
  destruct (ArrayTranspose.TransposeDimensions_spec 0 p _ Hok1 Hp) as (b' & Eb' & Sb & _ & Gb). assert (b' = b) by congruence. subst b'.
  cbn [sizes_] in Sb. rewrite E2. cbn [mbind res_bind]. pose proof (contents_ok _ _ C2) as Hok2.
  destruct (Hre t2 b ds C2 Hd Hne Hpr) as (t3 & E3 & C3).
  { unfold Arrays.num_elements. by rewrite (a_values _ Hok2), Sb, (sel_perm _ _ Hp), Rt. }
  exists t3, (values_ b). split; [done |]. split; [done |]. intros xs Hx. pose proof (digits_bounds R xs (rf_in _ _ _ HR)) as Hdb.
  specialize (Gb _ Hdb). unfold get in Gb. cbn [sizes_ values_] in Gb. rewrite Sb, <- position_sel in Gb. rewrite Gb.
  do 2 f_equal. by apply (rf_position _ _ _ HR).
Qed.
End Place.

(** ** Sorted replicas stay together *)

Lemma sorted_chunks_step g n l : sorted_chunks g (S n) l = merge_sort Z.le (take g l) ++ sorted_chunks g n (drop g l).
Proof.
  unfold sorted_chunks. cbn [seq]. rewrite <- fmap_S_seq. cbn [mbind list_bind]. rewrite drop_0. f_equal.
  generalize (seq 0 n). intros is'. induction is' as [| x is' IH]; [done |]. cbn [fmap list_fmap mbind list_bind]. rewrite IH. do 2 f_equal.
  by rewrite drop_drop.
Qed.

Lemma sorted_chunks_perm g n l : length l = (n * g)%nat → sorted_chunks g n l ≡ₚ l.
Proof.
  revert l. induction n as [| n IH]; intros l Hl; [by destruct l |]. rewrite sorted_chunks_step, merge_sort_Permutation, IH by (rewrite length_drop; lia).
  by rewrite take_drop.
Qed.

Lemma sorted_chunks_lookup g n l j d :
  (0 < g)%nat → length l = (n * g)%nat → l !! j = Some d → ∃ j', sorted_chunks g n l !! j' = Some d ∧ (j' / g = j / g)%nat.
Proof.
  intros Hg. revert l j. induction n as [| n IH]; intros l j Hl Hj; [by destruct l |]. rewrite sorted_chunks_step.
  assert (Hlen : length (merge_sort Z.le (take g l)) = g) by (rewrite merge_sort_Permutation, length_take; lia).
  destruct (decide (j < g)%nat) as [Hjg | Hjg].
  - assert (Hin : d ∈ merge_sort Z.le (take g l)) by (rewrite merge_sort_Permutation; apply (list_elem_of_lookup_2 _ j); by rewrite lookup_take_lt).
    apply list_elem_of_lookup in Hin as [j' Hj']. exists j'. pose proof (lookup_lt_Some _ _ _ Hj'). split; [by apply lookup_app_l_Some |].
    rewrite !Nat.div_small by lia. done.
  - destruct (IH (drop g l) (j - g)%nat) as (j' & Hj' & E); [rewrite length_drop; lia | rewrite lookup_drop; by replace (g + (j - g))%nat with j by lia |].
    exists (g + j')%nat. split; [rewrite lookup_app_r by lia; by replace (g + j' - length _)%nat with j' by lia |].
    replace (g + j')%nat with (j' + 1 * g)%nat by lia. replace j with ((j - g) + 1 * g)%nat by lia.
    rewrite !Nat.div_add by lia. by rewrite E.
Qed.

(** ** The replicas of a sharding as a subgroup *)

Lemma Subgroup_none {OpMetadata} t (md : list OpMetadata) : Subgroup t [] md = Ok (of_tiles t false md).
Proof. done. Qed.

(** A subgroup of one type in one dimension that is not of size 1. *)
Lemma Subgroup_single {OpMetadata} t a ds g type (md : list OpMetadata) :
  contents t a → sizes_ a = ds ++ [g] → g ≠ 1 → prod ds ≠ 1 → Subgroup t [type] md = create_sharding t [type] md.
Proof.
  intros H Hs Hg Hds. pose proof (contents_ok _ _ H) as Hok. pose proof (a_sizes _ Hok) as Hp. pose proof (a_max _ Hok) as Hmax.
  rewrite Hs in Hp, Hmax. apply Forall_app in Hp as [Hp [Hg0 _]%Forall_cons]. pose proof (prod_pos _ Hp).
  rewrite prod_app, prod_singleton in Hmax.
  destruct (tile_reads_contents t _ H) as (_ & Hd & Hr & Hdim & _). unfold Subgroup. rewrite Hr. cbn [mbind res_bind].
  unfold Arrays.num_dimensions. rewrite Hs, length_app. cbn [length forallb]. rewrite bool_decide_eq_true_2 by done. cbn [andb].
  replace (Z.of_nat (length ds + 1) - Z.of_nat 1) with (Z.of_nat (length ds)) by lia.
  assert (Hdp : data_product t (Z.of_nat (length ds)) = Ok (prod ds)).
  { unfold data_product. rewrite Hd, Hs. cbn [mbind res_bind]. rewrite (proj2 (Z.ltb_ge _ _)) by lia.
    rewrite Nat2Z.id, take_app_length. apply FlatTiles.Product_spec; [done | int_nia]. }
  rewrite Hdp. cbn [mbind res_bind]. rewrite (proj2 (Z.eqb_neq _ _)) by done. rewrite (proj2 (Z.leb_le 0 _)) by lia. cbn [mbind res_bind guard_res].
  assert (Hdl : tile_dim t (Z.of_nat (length ds)) = Ok g).
  { rewrite Hdim. unfold dim, at_z. rewrite Hs, (proj2 (Z.ltb_ge _ _)), Nat2Z.id by lia. unfold at_res. by rewrite list_lookup_middle. }
  cbn [subgroup_loop type_to_dims subgroup_count needs_merging removed_dims]. rewrite Hdl. cbn [mbind res_bind]. rewrite (proj2 (Z.eqb_neq g 1)) by done.
  rewrite bool_decide_eq_true_2 by done. done.
Qed.

Lemma Subgroup_replicated {OpMetadata} t ds g vs (md : list OpMetadata) :
  contents t (MkArray (ds ++ [g]) vs) → 1 < g → prod ds ≠ 1 → ds ≠ [] → prod ds * g < 2 ^ 31 →
  ∃ t', Subgroup t [REPLICATED] md = Ok (of_tiles t' true md) ∧
    contents t' (MkArray (ds ++ [g]) (sorted_chunks (Z.to_nat g) (Z.to_nat (prod ds)) vs)).
Proof.
  intros H Hg Hds Hne Hmax. pose proof (contents_ok _ _ H) as Hok. pose proof (a_sizes _ Hok) as Hp. cbn [sizes_] in Hp.
  apply Forall_app in Hp as [Hp _]. pose proof (prod_pos _ Hp).
  assert (Hn : Arrays.num_elements (MkArray (ds ++ [g]) vs) = prod ds * g).
  { unfold Arrays.num_elements. rewrite (a_values _ Hok). cbn [sizes_]. by rewrite prod_app, prod_singleton. }
  rewrite (Subgroup_single t _ ds g _ md H) by (done || lia). unfold create_sharding. rewrite bool_decide_eq_true_2 by done.
  destruct (PartialTile_spec t _ ds g md H eq_refl Hne) as (s & Es & Hs); [lia |]. rewrite Es.
  rewrite decide_False in Hs by nia. rewrite decide_False in Hs by lia. destruct Hs as (t' & -> & Ht'). by exists t'.
Qed.

(** ** The conversion *)

Section Convert.
Context {OpMetadata : Type} (n : NamedSharding OpMetadata) (arr : Array Z).
Notation m := (mesh n).
Notation ns := (sizes_ arr).
Notation us := (dim_shardings n ≫= axes).
Notation shards := ((λ d, total_size ns (axes d)) <$> dim_shardings n).
Hypothesis Hm : good_mesh m arr.
Hypothesis Hgood : good_axes arr (all_axes n).

Lemma axis_in_mesh a : axis_ok ns a → in_mesh arr a.
Proof. intros Ha. split; [apply (ax_index _ _ Ha) | by apply (part_bounds m arr Hm)]. Qed.

Lemma us_ok : Forall (axis_ok ns) us ∧ Forall (in_mesh arr) us.
Proof.
  destruct Hgood as [H _]. unfold all_axes in H. apply Forall_app in H as [H _]. split; [done |].
  eapply Forall_impl; [exact H |]. apply axis_in_mesh.
Qed.

Lemma good_nodup l : good_axes arr l → NoDup l.
Proof.
  intros [Hok Hc]. induction Hc as [| a l Ha _ IH]; [constructor |]. apply Forall_cons in Hok as [Hoka Hok]. constructor; [| by apply IH].
  intros Hin. rewrite Forall_forall in Ha. specialize (Ha a Hin). unfold chained in Ha. destruct Ha as [? | Ha]; [done |].
  pose proof (ax_sub _ _ Hoka) as Hs. destruct (sub_axis_info a) as [s |]; [| done].
  destruct Ha as [Ha | Ha]; apply Z.divide_pos_le in Ha; nia.
Qed.

Lemma us_nodup : NoDup us.
Proof. pose proof (good_nodup _ Hgood) as H. unfold all_axes in H. by apply NoDup_app in H as [H _]. Qed.

(** The axes of the dimensions, together and by dimension. *)
Lemma position_dims ds xs :
  Forall (in_mesh arr) (ds ≫= axes) →
  let sizes := (λ d, total_size ns (axes d)) <$> ds in
  let places := (λ d, position ns (axes d) xs) <$> ds in
  Forall (λ d, 0 < d) sizes ∧ in_bounds sizes places ∧ total_size ns (ds ≫= axes) = prod sizes ∧
  position ns (ds ≫= axes) xs = lin sizes places.
Proof.
  induction ds as [| d ds IH]; cbn [mbind list_bind]; intros H.
  { split; [constructor |]. split; [constructor |]. done. }
  apply Forall_app in H as [Hd Hds]. destruct (IH Hds) as (I1 & I2 & I3 & I4). cbn [fmap list_fmap].
  pose proof (digits_bounds arr (axes d) xs Hd) as Hb. pose proof (lin_bounds _ _ Hb) as Hl.
  change (0 ≤ position ns (axes d) xs < total_size ns (axes d)) in Hl.
  split; [constructor; [lia | exact I1] |]. split; [by constructor |]. rewrite total_size_app, position_app, prod_cons, I3, I4.
  split; [done |]. rewrite lin_cons; [done | by rewrite !length_fmap].
Qed.

Lemma all_unsharded_spec ds :
  Forall (axis_ok ns) (ds ≫= axes) → Forall (λ d, total_size ns (axes d) < 2 ^ 31) ds →
  all_unsharded m ds = Ok (forallb (λ d, total_size ns (axes d) =? 1) ds).
Proof.
  induction ds as [| d ds IH]; cbn [mbind list_bind all_unsharded forallb]; intros H Hb; [done |]. apply Forall_app in H as [Hd Hds].
  apply Forall_cons in Hb as [Hbd Hb]. unfold getShardedSize. rewrite (sharded_size_loop_spec m arr Hm) by (done || lia).
  cbn [mbind res_bind]. rewrite Z.mul_1_l. unfold res_and. cbn [mbind res_bind]. destruct (_ =? 1); [by rewrite IH | done].
Qed.

Lemma dims_of_spec ds k l :
  Forall (axis_ok ns) (ds ≫= axes) → Forall (λ d, total_size ns (axes d) < 2 ^ 31) ds →
  dims_of m ds k l = Ok ((λ d, total_size ns (axes d)) <$> ds, (assign_positions (ds ≫= axes) k l).1, k + Z.of_nat (length (ds ≫= axes))).
Proof.
  revert k l. induction ds as [| d ds IH]; cbn [mbind list_bind dims_of]; intros k l H Hb; [cbn; do 2 f_equal; lia |]. apply Forall_app in H as [Hd Hds].
  apply Forall_cons in Hb as [Hbd Hb]. unfold getShardedSize. rewrite (sharded_size_loop_spec m arr Hm) by (done || lia).
  cbn [mbind res_bind]. rewrite Z.mul_1_l, assign_positions_app. pose proof (assign_positions_end (axes d) k l) as He.
  destruct (assign_positions (axes d) k l) as [l1 k1]. cbn [fst snd] in *. rewrite IH by done. cbn [mbind res_bind fmap list_fmap].
  rewrite length_app, He. do 2 f_equal. lia.
Qed.

Context (R : list AxisRef) (HR : references arr (all_axes n) R).
Hypothesis Hmax : Arrays.num_elements arr < 46339 * 46339.

Notation l := (assign_positions us 0 []).1.
Notation rest := (unplaced l R).
Notation total := (total_size ns rest).
Notation perm_ := (write (targets l R (Z.of_nat (length us))) 0 (replicate (length R) 0)).

Lemma us_in a : a ∈ us → a ∈ R.
Proof. intros Ha. apply (rf_used _ _ _ HR). unfold all_axes. apply elem_of_app. by left. Qed.

Lemma rest_ok : Forall (in_mesh arr) rest.
Proof. apply Forall_forall. intros a [_ Ha]%list_elem_of_filter. pose proof (rf_in _ _ _ HR) as H. rewrite Forall_forall in H. by apply H. Qed.

Lemma total_pos : 0 < total.
Proof. apply prod_pos. apply Forall_fmap. eapply Forall_impl; [exact rest_ok |]. intros a [_ Ha]. exact Ha. Qed.

Lemma sizes_split : prod shards * total = prod ns.
Proof.
  destruct (position_dims (dim_shardings n) [] (proj2 us_ok)) as (_ & _ & <- & _). rewrite <- total_size_app, <- (rf_total _ _ _ HR).
  unfold total_size. rewrite (arranged_elements us l R); [done | apply assigned_finds, us_nodup | apply us_nodup | apply HR | apply us_in].
Qed.

Lemma shards_pos : Forall (λ d, 0 < d) shards.
Proof. apply (position_dims (dim_shardings n) [] (proj2 us_ok)). Qed.

Lemma factor_le a b c t N : 0 < a → 0 < b → 0 < c → 0 < t → a * (t * b) * c = N → t ≤ N.
Proof. intros Ha Hb Hc Ht <-. assert (0 < a * b * c) by (repeat apply Z.mul_pos_pos; done). nia. Qed.

Lemma shards_small : Forall (λ d, total_size ns (axes d) < 2 ^ 31) (dim_shardings n).
Proof.
  pose proof sizes_split as Hs. pose proof total_pos. pose proof shards_pos as Hp. pose proof (arr_elements m arr Hm) as Ea.
  apply Forall_forall. intros d Hd. apply (list_elem_of_fmap_2 (λ d, total_size ns (axes d))) in Hd.
  apply list_elem_of_lookup in Hd as [i Hi]. apply take_drop_middle in Hi. rewrite <- Hi in Hs, Hp. rewrite prod_app, prod_cons in Hs.
  apply Forall_app in Hp as [H1 [H2 H3]%Forall_cons]. apply prod_pos in H1, H3.
  pose proof (factor_le _ _ _ _ _ H1 H3 H H2 Hs). lia.
Qed.

Hypothesis Hreplicated : NamedShard.IsReplicated n = Ok false.
Hypothesis Hsingle : NamedShard.IsSingleDevice n = Ok false.
Hypothesis Hdata : manual_axes n = [] ∧ unreduced_axes n = [].

(** Some dimension is sharded. *)
Lemma shards_some : shards ≠ [] ∧ prod shards ≠ 1 ∧ R ≠ [].
Proof.
  pose proof Hreplicated as H. unfold NamedShard.IsReplicated in H. rewrite Hsingle in H. cbn [mbind res_bind] in H.
  rewrite all_unsharded_spec in H by (apply us_ok || apply shards_small). unfold res_and in H. cbn [mbind res_bind] in H.
  destruct Hdata as [E1 E2]. rewrite E1, E2 in H. cbn in H. destruct (forallb _ _) eqn:Ef; [done |].
  assert (Hne : prod shards ≠ 1).
  { intros Ep. apply not_true_iff_false in Ef. apply Ef. apply forallb_forall. intros d Hd%list_elem_of_In. apply Z.eqb_eq.
    apply (list_elem_of_fmap_2 (λ d, total_size ns (axes d))) in Hd. pose proof shards_pos as Hp.
    apply list_elem_of_lookup in Hd as [i Hi]. apply take_drop_middle in Hi. rewrite <- Hi in Ep, Hp. rewrite prod_app, prod_cons in Ep.
    apply Forall_app in Hp as [H1 [H2 H3]%Forall_cons]. apply prod_pos in H1, H3.
    pose proof (factor_le _ _ 1 _ 1 H1 H3 ltac:(lia) H2 ltac:(lia)). lia. }
  split; [by intros E0; rewrite E0 in Hne |]. split; [done |]. intros E0. apply Hne.
  destruct (position_dims (dim_shardings n) [] (proj2 us_ok)) as (_ & _ & <- & _).
  assert (Eu : us = []) by (destruct us as [| a us'] eqn:Eu; [done |]; exfalso; pose proof (us_in a) as Hin; rewrite Eu, E0 in Hin; specialize (Hin ltac:(left)); by apply elem_of_nil in Hin).
  by rewrite Eu.
Qed.

Lemma convert_steps :
  GetOrderedAxisRefs n = Ok R →
  V3ToV2Named n =
    (t ← (if match iota_ (MeshAxes.device_assignment m) with Some i => length (TileAssign.reshape_dims i) =? 1 | None => false end%nat
          then of_transform (if total >? 1 then shards ++ [total] else shards) (part_size ns <$> R) perm_
          else t ← tile_reshape (MeshAxes.device_assignment m) (part_size ns <$> R); t ← tile_transpose t perm_;
               tile_reshape t (if total >? 1 then shards ++ [total] else shards));
     Subgroup t (if total >? 1 then [REPLICATED] else []) (named_metadata n)).
Proof.
  intros HE. unfold V3ToV2Named. rewrite Hreplicated, Hsingle. cbn [mbind res_bind].
  rewrite dims_of_spec by (apply us_ok || apply shards_small). destruct Hdata as [E1 E2]. rewrite E1, E2. cbn [mbind res_bind add_subgroup_axes].
  rewrite HE. cbn [mbind res_bind axis_ref_to_sharded_pos sharded_pos tile_assignment_dims types]. rewrite Z.add_0_l.
  pose proof sizes_split as Hs. pose proof (prod_pos _ shards_pos) as Hp. pose proof total_pos as Ht. pose proof (arr_elements m arr Hm) as Ea.
  rewrite (place_axes_spec m arr l R 0 (Z.of_nat (length us)) 1 _ Hm (rf_in _ _ _ HR)).
  - cbn [mbind res_bind]. rewrite Z.mul_1_l. cbn [app]. destruct (iota_ (MeshAxes.device_assignment m)) as [i |]; [destruct (_ =? 1)%nat |].
    + done.
    + destruct (tile_reshape _ _); [| done]. cbn [mbind res_bind]. by destruct (tile_transpose _ _).
    + destruct (tile_reshape _ _); [| done]. cbn [mbind res_bind]. by destruct (tile_transpose _ _).
  - rewrite length_replicate. apply Forall_forall. intros t Hin.
    destruct (targets_perm us l R) as [_ Hr]; [apply assigned_finds, us_nodup | apply us_nodup | apply HR | apply us_in |].
    apply Hr in Hin. by rewrite length_targets in Hin.
  - lia.
  - int_nia.
Qed.

(** The devices after the conversion. *)
Lemma convert_devices :
  ∃ t vs, (if match iota_ (MeshAxes.device_assignment m) with Some i => length (TileAssign.reshape_dims i) =? 1 | None => false end%nat
    then of_transform (if total >? 1 then shards ++ [total] else shards) (part_size ns <$> R) perm_
    else t ← tile_reshape (MeshAxes.device_assignment m) (part_size ns <$> R); t ← tile_transpose t perm_;
         tile_reshape t (if total >? 1 then shards ++ [total] else shards)) = Ok t ∧
    contents t (MkArray (if total >? 1 then shards ++ [total] else shards) vs) ∧ placed arr (us ++ rest) vs.
Proof.
  pose proof total_pos as Ht. pose proof sizes_split as Hs. destruct shards_some as (Hne & _ & HRne).
  set (ds := if total >? 1 then shards ++ [total] else shards).
  assert (Hds : Forall (λ d, 0 < d) ds ∧ ds ≠ [] ∧ prod ds = prod ns).
  { unfold ds. destruct (Z.gtb_spec total 1).
    - split; [apply Forall_app; split; [apply shards_pos | by apply Forall_singleton] |]. split; [by destruct shards |].
      by rewrite prod_app, prod_singleton.
    - split; [apply shards_pos |]. split; [done |]. rewrite <- Hs. replace total with 1 by lia. lia. }
  destruct Hds as (Hd1 & Hd2 & Hd3).
  pose proof (λ f, write_arranges us l R f (assigned_finds us us_nodup) us_nodup (rf_nodup _ _ _ HR) us_in) as Hw. cbv zeta in Hw.
  destruct (iota_ (MeshAxes.device_assignment m)) as [i |] eqn:Ei; [destruct (Nat.eqb_spec (length (TileAssign.reshape_dims i)) 1) |].
  - by apply (place_iota m arr Hm R (us ++ rest) perm_ (all_axes n) HR (proj1 (Hw _)) (λ f, proj2 (Hw f)) Hmax i).
  - by apply (place_any m arr Hm R (us ++ rest) perm_ (all_axes n) HR (proj1 (Hw _)) (λ f, proj2 (Hw f)) Hmax).
  - by apply (place_any m arr Hm R (us ++ rest) perm_ (all_axes n) HR (proj1 (Hw _)) (λ f, proj2 (Hw f)) Hmax).
Qed.

Lemma placed_perm L vs :
  length vs = length (values_ arr) → placed arr L vs → NoDup (values_ arr) → vs ≡ₚ values_ arr.
Proof.
  intros Hl Hpl Hnd. symmetry. apply submseteq_length_Permutation; [| lia]. apply NoDup_submseteq; [done |].
  intros d [k Hk]%list_elem_of_lookup. pose proof (contents_ok _ _ (gm_contents _ _ Hm)) as Ha. pose proof (a_values _ Ha) as Hv.
  assert (Hb : 0 ≤ Z.of_nat k < prod ns) by (apply lookup_lt_Some in Hk; lia).
  pose proof (Hpl (unlin ns (Z.of_nat k)) (unlin_bounds _ _ (a_sizes _ Ha))) as E. rewrite lin_unlin, Nat2Z.id, Hk in E by (done || apply (a_sizes _ Ha)).
  by eapply list_elem_of_lookup_2.
Qed.

(** Where a device lies in the new assignment. *)
Lemma position_parts xs :
  position ns (us ++ rest) xs = lin shards ((λ d, position ns (axes d) xs) <$> dim_shardings n) * total + position ns rest xs ∧
  0 ≤ position ns rest xs < total ∧ 0 ≤ lin shards ((λ d, position ns (axes d) xs) <$> dim_shardings n) ∧
  unlin shards (lin shards ((λ d, position ns (axes d) xs) <$> dim_shardings n)) = (λ d, position ns (axes d) xs) <$> dim_shardings n.
Proof.
  destruct (position_dims (dim_shardings n) xs (proj2 us_ok)) as (_ & Hb & _ & Ep). rewrite position_app, Ep. split; [done |].
  split; [exact (lin_bounds _ _ (digits_bounds arr rest xs rest_ok)) |]. split; [by apply lin_bounds | by apply unlin_lin].
Qed.

Lemma convert_positions (s : HloSharding OpMetadata) (a : Array Z) rest' vs :
  tiled s a shards rest' → prod rest' = total → NoDup (values_ a) →
  (∀ j d, vs !! j = Some d → ∃ j', values_ a !! j' = Some d ∧ Z.of_nat j' / total = Z.of_nat j / total) →
  placed arr (us ++ rest) vs →
  ∀ xs d, in_bounds ns xs → get arr xs = Some d →
    TileIndexForDevice s d = Ok ((λ d, position ns (axes d) xs) <$> dim_shardings n).
Proof.
  intros Ht Hr Hnd Hsort Hpl xs d Hx Hd. unfold get in Hd. rewrite <- (Hpl xs Hx) in Hd.
  destruct (Hsort _ _ Hd) as (j' & Hj' & E). rewrite (TileIndexForDevice_spec s a shards rest' Ht Hnd j' d Hj'), Hr, E.
  destruct (position_parts xs) as (Ep & Hb & H0 & Eu). rewrite Z2Nat.id by (rewrite Ep; pose proof total_pos; nia).
  rewrite Ep, Z.div_add_l, Z.div_small, Z.add_0_r by (pose proof total_pos; lia). by rewrite Eu.
Qed.

Lemma V3ToV2Named_spec :
  GetOrderedAxisRefs n = Ok R → NoDup (values_ arr) →
  ∃ s, V3ToV2Named n = Ok s ∧ ∀ xs d, in_bounds ns xs → get arr xs = Some d →
    TileIndexForDevice s d = Ok ((λ d, position ns (axes d) xs) <$> dim_shardings n).
Proof.
  intros HE Hnd. rewrite (convert_steps HE). destruct convert_devices as (t & vs & -> & Ct & Hpl). cbn [mbind res_bind].
  destruct shards_some as (Hne & Hp1 & _). pose proof total_pos as Ht. pose proof sizes_split as Hs. pose proof (prod_pos _ shards_pos) as Hps.
  pose proof (arr_elements m arr Hm) as Ea. pose proof (a_values _ (contents_ok _ _ Ct)) as Hl. cbn [sizes_ values_] in Hl.
  destruct (Z.gtb_spec total 1) as [Hgt | Hle].
  - rewrite prod_app, prod_singleton in Hl. assert (Hlen : length vs = length (values_ arr)) by (unfold Arrays.num_elements in Ea; lia).
    pose proof (placed_perm _ vs Hlen Hpl Hnd) as Hpv.
    destruct (Subgroup_replicated t shards total vs (named_metadata n) Ct Hgt Hp1 Hne) as (t' & Es & Ct'); [lia |].
    exists (of_tiles t' true (named_metadata n)). split; [done |].
    assert (Hlc : length vs = (Z.to_nat (prod shards) * Z.to_nat total)%nat) by nia.
    eapply convert_positions; [| apply prod_singleton | | | exact Hpl].
    + constructor; try done. cbn [sizes_]. by destruct shards.
    + cbn [values_]. rewrite sorted_chunks_perm by done. by rewrite Hpv.
    + intros j d Hj. destruct (sorted_chunks_lookup (Z.to_nat total) _ vs j d ltac:(lia) Hlc Hj) as (j' & Hj' & E). exists j'. split; [done |].
      apply (f_equal Z.of_nat) in E. rewrite !Nat2Z.inj_div, Z2Nat.id in E by lia. done.
  - assert (E1 : total = 1) by lia. rewrite Subgroup_none. eexists. split; [done |].
    assert (Hlen : length vs = length (values_ arr)) by (unfold Arrays.num_elements in Ea; lia).
    eapply (convert_positions _ (MkArray shards vs) []); [| by rewrite E1 | | | exact Hpl].
    + constructor; try done. cbn [sizes_]. by rewrite app_nil_r.
    + cbn [values_]. by rewrite (placed_perm _ vs Hlen Hpl Hnd).
    + intros j d Hj. by exists j.
Qed.
End Convert.

(** C25: converting a verified named sharding without manual or unreduced axes to tiles
    succeeds, and gives every device the tile that the coordinates of the device select
    by the axes of each dimension. *)
Theorem V3ToV2Named_positions {OpMetadata} (n : NamedSharding OpMetadata) arr :
  good_mesh (mesh n) arr → NoDup (values_ arr) → Arrays.num_elements arr < 46339 * 46339 →
  Forall axis_made (all_axes n) → VerifyNamedSharding n = Ok () → manual_axes n = [] ∧ unreduced_axes n = [] →
  NamedShard.IsReplicated n = Ok false → NamedShard.IsSingleDevice n = Ok false →
  ∃ s, V3ToV2Named n = Ok s ∧
    ∀ xs d, in_bounds (sizes_ arr) xs → element arr xs = Ok d →
      TileIndexForDevice s d = Ok ((λ dim, position (sizes_ arr) (axes dim) xs) <$> dim_shardings n).
Proof.
  intros Hm Hnd Hmax Hmade Hv Hdata Hr Hs. pose proof (verified_axes n arr Hm Hmade Hv) as Hgood.
  destruct (GetOrderedAxisRefs_spec n arr Hm Hgood) as (R & HE & HR).
  destruct (V3ToV2Named_spec n arr Hm Hgood R HR Hmax Hr Hs Hdata HE Hnd) as (s & Es & H). exists s. split; [done |].
  intros xs d Hx Hd. apply H; [done |]. by apply element_get in Hd; [| apply (contents_ok _ _ (gm_contents _ _ Hm)) |].
Qed.

(** The devices of a mesh of six by one by four in two dimensions: three rows of devices,
    and columns that part of the last axis makes; the rest of the axes replicates. *)
Definition demo_dims : list DimensionSharding := [MkDimSharding [sub 0 1 3] true; MkDimSharding [sub 2 2 2] true].
Definition demo_named : NamedSharding unit := MkNamed demo_mesh demo_dims [] [] [] [] [3; 2].

Lemma demo_made : make_named demo_mesh demo_dims [] [] [] ([] : list unit) = Ok demo_named.
Proof. vm_compute. reflexivity. Qed.

Lemma V3ToV2Named_positions_witness : ∃ s, V3ToV2Named demo_named = Ok s ∧ TileIndexForDevice s 19 = Ok [1; 1].
Proof.
  destruct (V3ToV2Named_positions demo_named (flat_array demo)) as (s & Es & H).
  - exact demo_good.
  - vm_compute. repeat constructor; set_solver.
  - vm_compute. reflexivity.
  - repeat constructor; cbn; lia.
  - vm_compute. reflexivity.
  - split; reflexivity.
  - vm_compute. reflexivity.
  - vm_compute. reflexivity.
  - exists s. split; [exact Es |]. eapply eq_trans; [apply (H [3; 0; 3]) |].
    + repeat constructor; lia.
    + vm_compute. reflexivity.
    + vm_compute. reflexivity.
Defined.
End ShardConvert.
