(* ===== verification/ShardProto.v ===== *)
(** * Shardings: protos and back

    Writing a sharding to a proto and reading it back gives the same sharding, for
    shardings without tiles, with tiles of several devices and at most one subgroup type,
    or with named axes, in tuples of any depth. *)
From S2P Require Import Prelude PermUtil Radix Layouts IndexProofs WindowArith Arrays ArrayProofs TileAssign TileValue TileCanonical TileRefine MeshAxes NamedShard MeshCorrect Sharding ShardOps ShardTiles ShardGroups ShardConvert.
#[local] Open Scope Z_scope.

Module ShardProto.
Import PermUtil Radix Layouts IndexProofs WindowArith Arrays ArrayProofs TileAssign TileValue TileCanonical TileCorrect TileRefine MeshAxes NamedShard MeshCorrect Sharding ShardOps ShardGroups ShardConvert.

(** ** Tile assignments *)

(** The fields of an assignment: an iota without its array is made from them again. *)
Lemma Create_again i : good_iota i → Create (dims i) (reshape_dims i) (transpose_perm i) = Ok i.
Proof.
  intros [Hi Hc]. destruct (Create_iota_spec _ _ _ Hi) as (t & E & Hd & Ht & Hct & Hf). rewrite E. f_equal.
  unfold iota_ok in Ht. rewrite Hd in Ht.
  destruct (canonical_unique (reshape_dims t) (transpose_perm t) (reshape_dims i) (transpose_perm i)) as [ER EP];
    [apply Ht | apply Hi | done | done | | by intros k _; rewrite Hf |].
  - by rewrite (tr_prod _ _ _ Ht), (tr_prod _ _ _ Hi).
  - destruct t, i. cbn in *. congruence.
Qed.

Lemma of_transform_again i : good_iota i → of_transform (dims i) (reshape_dims i) (transpose_perm i) = Ok (of_iota i).
Proof. intros H. unfold of_transform. by rewrite Create_again. Qed.

Lemma canonical_single i : good_iota i → length (reshape_dims i) = 1%nat → of_dims (dims i) = Ok (of_iota i).
Proof.
  intros [Hi _] L. unfold of_dims, CreateTrivial. pose proof (accumulate_dims i Hi) as Ea. unfold iota_num_elements in Ea. rewrite Ea. cbn [mbind res_bind].
  pose proof (tr_perm _ _ _ Hi) as [Hp Hl]. pose proof (tr_prod _ _ _ Hi) as E. destruct i as [ds [| r []] p]; try done.
  cbn [reshape_dims transpose_perm dims length] in *. rewrite (perm_one p Hp Hl). rewrite prod_singleton in E. by subst r.
Qed.

(** The dimensions of an iota are fewer than 2^31. *)
Lemma canonical_length R p : canonical R p → prod R < 2 ^ 31 → Z.of_nat (length R) < 2 ^ 31.
Proof.
  intros [[-> _] | [_ [HR _]]] Hm; [done |]. cut (Z.of_nat (length R) ≤ prod R); [lia |]. clear Hm.
  induction HR as [| d R Hd HR IH]; [by unfold prod |]. rewrite prod_cons. cbn [length].
  assert (0 < prod R) by (apply prod_pos; eapply Forall_impl; [exact HR | cbn; lia]). rewrite Nat2Z.inj_succ. nia.
Qed.

Lemma perm_ints i : good_iota i → to_int <$> transpose_perm i = transpose_perm i.
Proof.
  intros [Hi Hc]. pose proof (tr_max _ _ _ Hi). pose proof (tr_prod _ _ _ Hi) as E.
  pose proof (canonical_length _ _ Hc ltac:(lia)). destruct (tr_perm _ _ _ Hi) as [[_ Hr] Hl].
  rewrite <- (list_fmap_id (transpose_perm i)) at 2. apply list_fmap_ext. intros k x Hx. cbn.
  apply list_elem_of_lookup_2 in Hx. apply Hr in Hx. destruct (decide (x = 0)) as [-> | Hx0]; [done |]. apply to_int_id. lia.
Qed.

Lemma product_no_overflow_spec ds :
  Forall (λ d, 0 < d) ds → prod ds ≤ int64_max → product_no_overflow ds = prod ds.
Proof.
  intros Hd. unfold product_no_overflow. assert (∀ acc, 0 < acc → acc * prod ds ≤ int64_max →
    foldl (λ p d, (OverflowSafeMultiply p d).1) acc ds = acc * prod ds) as H; [| intros; rewrite H; lia].
  induction Hd as [| d ds Hd0 Hd IH]; intros acc Ha Hm; [cbn; unfold prod; cbn; lia |]. cbn [foldl]. rewrite prod_cons in *.
  pose proof (prod_pos ds Hd). assert (acc * d ≤ acc * (d * prod ds)) by nia.
  rewrite mul_safe by (lia || nia). cbn [fst]. rewrite IH; [ring | nia | nia].
Qed.

(** Two assignments that are the same or stand for the same array. *)
Definition alike (t t' : TileAssignment) : Prop := t = t' ∨ ∃ a, contents t a ∧ contents t' a.

(** ** Meshes and axes *)

Lemma AxisRef_back a : axis_made a → AxisRefFromProto (AxisRefToProto a) = Ok a.
Proof.
  intros [_ H]. destruct a as [i [[p n] |]]; [| done]. cbn in *. unfold SubAxisRef. cbn.
  by rewrite !(proj2 (Z.ltb_lt _ _)) by lia.
Qed.

Lemma mapM_back {A B} (f : B → res A) (g : A → B) (P : A → Prop) l :
  (∀ x, P x → f (g x) = Ok x) → Forall P l → mapM f (g <$> l) = Ok l.
Proof. intros H. induction 1 as [| x l Hx Hl IH]; [done |]. cbn. rewrite H by done. cbn. by rewrite IH. Qed.

Lemma DimensionSharding_back d : Forall axis_made (axes d) → DimensionShardingFromProto (DimensionShardingToProto d) = Ok d.
Proof.
  intros H. unfold DimensionShardingFromProto. cbn. rewrite (mapM_back _ _ axis_made) by (done || apply AxisRef_back). by destruct d.
Qed.

(** A mesh as its constructors make it, the array of an iota not yet made. *)
Inductive mesh_made : Mesh → Prop :=
  | made_empty : mesh_made EmptyMesh
  | made_maximal d : mesh_made (MaximalMesh d)
  | made_mesh t a names :
      contents t a → (iota_ t = None ∨ array_ t = None) → sizes_ a ≠ [] → names ≠ [] →
      make_mesh t names = Ok (MkMesh t names) → mesh_made (MkMesh t names).

Lemma names_length t a names :
  contents t a → sizes_ a ≠ [] → make_mesh t names = Ok (MkMesh t names) → length names = length (sizes_ a).
Proof.
  intros Hc Hs. destruct (tile_reads_contents t a Hc) as (_ & _ & Hr & _). unfold make_mesh, ValidateMesh, num_axes.
  cbn [MeshAxes.device_assignment axes_names]. rewrite Hr. cbn [mbind res_bind]. unfold Arrays.num_dimensions.
  rewrite (proj2 (Z.eqb_neq _ _)) by (destruct (sizes_ a); [done | cbn; lia]).
  destruct (Z.eqb_spec (Z.of_nat (length (sizes_ a))) (Z.of_nat (length names))); [lia | done].
Qed.

Lemma mesh_axes (names : list String.string) (ds : list Z) :
  length names = length ds → Forall (λ d, 0 < d) ds →
  (zip names ds).*2 = ds ∧ (zip names ds).*1 = names ∧ forallb (λ axis, 0 <? axis.2) (zip names ds) = true.
Proof.
  intros Hl Hd. split; [by apply snd_zip; lia |]. split; [by apply fst_zip; lia |].
  revert names Hl. induction Hd as [| d ds Hd0 Hd IH]; intros [| x names] Hl; try done. cbn. rewrite IH by (cbn in Hl; lia).
  by rewrite (proj2 (Z.ltb_lt _ _)).
Qed.

Lemma Mesh_back m : mesh_made m → ∃ p, MeshToProto m = Ok p ∧ MeshFromProto p = Ok m.
Proof.
  intros [| d | t a names Hc Hu Hs Hn Hm]; [by eexists | by eexists |].
  pose proof (names_length t a names Hc Hs Hm) as Hl. pose proof (contents_ok t a Hc) as Ha.
  destruct (mesh_axes names (sizes_ a) Hl (a_sizes a Ha)) as (E2 & E1 & Ep). pose proof (prod_pos _ (a_sizes a Ha)).
  unfold MeshToProto, num_axes, axis_sizes. cbn [MeshAxes.device_assignment axes_names].
  rewrite (proj2 (Z.eqb_neq _ _)) by (destruct names; [done | cbn; lia]). rewrite (dimensions_spec t a Hc). cbn [mbind res_bind].
  rewrite (proj2 (Nat.eqb_eq _ _)) by done. cbn [guard_res mbind res_bind].
  assert (Hz : ∃ x axes, zip names (sizes_ a) = x :: axes) by (destruct names, (sizes_ a); try done; by do 2 eexists).
  destruct Hz as (x & axes & Hz). rewrite Hz in E1, E2, Ep |- *. unfold contents in Hc. destruct (iota_ t) as [i |] eqn:Ei.
  - destruct Hc as (Hi & -> & _). assert (Et : t = of_iota i) by (unfold of_iota; destruct Hu as [| Hu]; [done |]; destruct t; cbn in *; congruence).
    eexists. split; [done |]. unfold MeshFromProto. cbn [proto_axes proto_device_ids proto_iota_transform]. rewrite Ep, E1, E2. cbn [flat_array sizes_ guard_res mbind res_bind].
    destruct (Nat.eqb_spec (length (reshape_dims i)) 1) as [L | L].
    + rewrite (canonical_single i Hi L). cbn [mbind res_bind]. by rewrite <- Et.
    + cbn [proto_reshape_dims proto_transpose_perm]. rewrite (perm_ints i Hi), (of_transform_again i Hi). cbn [mbind res_bind]. by rewrite <- Et.
  - destruct Hc as [E _]. unfold array, MaybeMaterializeFullArray. rewrite E. cbn [mbind res_bind]. rewrite E. cbn [mbind res_bind].
    eexists. split; [done |]. unfold MeshFromProto. cbn [proto_axes proto_device_ids proto_iota_transform]. rewrite Ep, E1, E2. cbn [guard_res mbind res_bind].
    pose proof (a_values a Ha). destruct (values_ a) as [| d vs] eqn:Ev; [cbn in *; lia |]. rewrite <- Ev.
    rewrite make_ok by (done || apply a_sizes || apply a_max; done). cbn [mbind res_bind]. unfold Arrays.num_elements. cbn [values_]. rewrite length_replicate.
    rewrite (proj2 (Z.eqb_eq _ _)) by (rewrite Ev; lia). cbn [guard_res mbind res_bind]. transitivity (make_mesh t names); [| done]. f_equal. unfold of_array. destruct a, t. cbn in *. congruence.
Qed.

(** A named sharding that its constructor accepts. *)
Record named_made {OpMetadata} (n : NamedSharding OpMetadata) : Prop := {
  nm_mesh : mesh_made (mesh n);
  nm_dims : Forall (λ d, Forall axis_made (axes d)) (dim_shardings n);
  nm_axes : Forall axis_made (replicated_axes n ++ unreduced_axes n ++ manual_axes n);
  nm_make : make_named (mesh n) (dim_shardings n) (replicated_axes n) (unreduced_axes n) (manual_axes n) (named_metadata n) = Ok n
}.

Lemma Named_back {OpMetadata} (n : NamedSharding OpMetadata) :
  named_made n → ∃ p, NamedToProto n = Ok p ∧ NamedFromProto p = Ok n.
Proof.
  intros [Hm Hd [Hr [Hu Hn]%Forall_app]%Forall_app E]. destruct (Mesh_back _ Hm) as (p & Ep & Eb). unfold NamedToProto. rewrite Ep. cbn [mbind res_bind].
  eexists. split; [done |]. unfold NamedFromProto. cbn [proto_dim_shardings proto_replicated_axes proto_unreduced_axes proto_manual_axes proto_mesh proto_named_metadata].
  rewrite (mapM_back _ _ (λ d, Forall axis_made (axes d))) by (done || apply DimensionSharding_back). cbn [mbind res_bind].
  rewrite !(mapM_back _ _ axis_made) by (done || apply AxisRef_back). cbn [mbind res_bind]. by rewrite Eb.
Qed.

(** ** Shardings *)

Section Shardings.
Context {OpMetadata : Type}.
Notation HloSharding := (HloSharding OpMetadata).
Implicit Types s : HloSharding.

(** The shardings that hold tiles travel when there is more than one device; those
    that replicate on the last dimension hold the devices of a group in order. *)
Inductive leaf : HloSharding → Prop :=
  | leaf_replicate md : leaf (Replicate md)
  | leaf_manual md : leaf (Manual md)
  | leaf_unreduced md : leaf (Unreduced md)
  | leaf_unknown md : leaf (Unknown md)
  | leaf_single d md : leaf (SingleDevice d md)
  | leaf_tiles t a md :
      contents t a → 1 < Arrays.num_elements a < 2 ^ 31 → leaf (of_tiles t false md)
  | leaf_partial t a ds g md :
      contents t a → 1 < Arrays.num_elements a < 2 ^ 31 → sizes_ a = ds ++ [g] → ds ≠ [] →
      g ≠ 1 → g ≠ Arrays.num_elements a →
      sorted_chunks (Z.to_nat g) (Z.to_nat (prod ds)) (values_ a) = values_ a → leaf (of_tiles t true md)
  | leaf_subgroup t a ds g type md :
      contents t a → 1 < Arrays.num_elements a < 2 ^ 31 → sizes_ a = ds ++ [g] →
      g ≠ 1 → prod ds ≠ 1 → type ≠ REPLICATED → leaf (of_subgroups t [type] md).

Definition group_made (g : ShardGroup) : Prop :=
  g = NotShardGroup ∨ ∃ id, id ≠ -1 ∧ (g = ShardAs id ∨ g = ShardLike id).

Inductive exported : HloSharding → Prop :=
  | exported_leaf g s : group_made g → leaf s → exported (SetShardGroup g s)
  | exported_named n : named_made n → exported (of_named n)
  | exported_tuple es : Forall exported es → exported (FlatTuple es).

Definition with_tiles (t : TileAssignment) s : HloSharding :=
  MkSharding t (tuple_elements_ s) (metadata_ s) (subgroup_types_ s) (replicated_ s) (single_device_ s) (tuple_ s)
    (manual_ s) (unknown_ s) (unreduced_ s) (replicate_on_last_tile_dim_ s) (shard_group_ s) (named_sharding_ s).

(** Equal in every field, but for the format of tile assignments. *)
Inductive same : HloSharding → HloSharding → Prop :=
  | same_leaf s t : alike (tile_assignment_ s) t → same s (with_tiles t s)
  | same_tuple es es' : Forall2 same es es' → same (FlatTuple es) (FlatTuple es').

Lemma same_refl s : same s s.
Proof. replace s with (with_tiles (tile_assignment_ s) s) at 2 by (by destruct s). constructor. by left. Qed.

Lemma exported_rect (P : HloSharding → Prop) :
  (∀ g s, group_made g → leaf s → P (SetShardGroup g s)) → (∀ n, named_made n → P (of_named n)) →
  (∀ es, Forall P es → P (FlatTuple es)) → ∀ s, exported s → P s.
Proof.
  intros Hl Hn Ht. fix IH 2. intros _ [g s Hg Hs | n H | es H]; [by apply Hl | by apply Hn |]. apply Ht.
  induction H as [| e es He Hes IHes]; constructor; [by apply IH | done].
Qed.

(** The fields of a tile assignment are read back. *)
Definition tile_fields (t : TileAssignment) : res (list Z * list Z * list Z) :=
  match iota_ t with
  | Some i => Ok (reshape_dims i, transpose_perm i, [])
  | None => '(a, _) ← array t; Ok ([], [], values_ a)
  end.

Lemma not_all_ones R : prod R ≠ 1 → forallb (Z.eqb 1) R = false.
Proof.
  induction R as [| d R IH]; intros H; [done |]. rewrite prod_cons in H. cbn [forallb]. destruct (Z.eqb_spec 1 d) as [<- |]; [| done].
  apply IH. lia.
Qed.

Lemma tiles_back t a rep (md : list OpMetadata) types group id gt :
  contents t a → 1 < Arrays.num_elements a < 2 ^ 31 →
  ∃ reshape perm devices t', tile_fields t = Ok (reshape, perm, devices) ∧ contents t' a ∧
    tiled_from_proto (MkOpSharding OTHER (sizes_ a) devices [] rep md types reshape perm group id gt None) =
    if negb (bool_decide (types = [])) then guard_res (negb rep) Internal;; Subgroup t' types md
    else if rep then PartialTile t' md else Ok (of_tiles t' false md).
Proof.
  intros Hc Hn. pose proof (contents_ok t a Hc) as Ha. pose proof (a_sizes a Ha) as Hs. pose proof (a_max a Ha) as Hmax.
  assert (En : Arrays.num_elements a = prod (sizes_ a)) by (unfold Arrays.num_elements; by rewrite (a_values a Ha)).
  assert (Hne : sizes_ a ≠ []) by (intros E; rewrite E in En; unfold prod in En; cbn in En; lia).
  assert (Hpos : forallb (λ d, 0 <? d) (sizes_ a) = true).
  { apply forallb_forall. intros d Hd%list_elem_of_In. rewrite Forall_forall in Hs. by apply Z.ltb_lt, Hs. }
  unfold contents in Hc. unfold tile_fields. destruct (iota_ t) as [i |] eqn:Ei.
  - destruct Hc as (Hi & -> & _). exists (reshape_dims i), (transpose_perm i), [], (of_iota i). split; [done |].
    split; [by apply of_iota_contents |]. pose proof Hi as [Hok _]. pose proof (tr_prod _ _ _ Hok) as Ep. pose proof (proj2 (tr_some _ _ _ Hok)) as Hr.
    unfold tiled_from_proto. cbn [iota_reshape_dims iota_transpose_perm tile_assignment_devices tile_assignment_dimensions last_tile_dims
      proto_replicate_on_last_tile_dim proto_metadata]. rewrite (bool_decide_eq_false_2 (reshape_dims i = [])) by done. cbn [negb andb].
    rewrite (bool_decide_eq_true_2 (([] : list Z) = [])) by done.
    rewrite (proj2 (Nat.eqb_eq (length (reshape_dims i)) (length (transpose_perm i))) (eq_sym (proj2 (tr_perm _ _ _ Hok)))).
    cbn [guard_res mbind res_bind].
    cbn [flat_array sizes_] in *. rewrite not_all_ones by lia. rewrite (bool_decide_eq_false_2 (dims i = [])) by done. cbn [negb guard_res mbind res_bind].
    rewrite Hpos. cbn [guard_res mbind res_bind]. rewrite !product_no_overflow_spec by (done || apply Hok || lia).
    rewrite (proj2 (Z.eqb_eq _ _)) by lia. cbn [guard_res mbind res_bind]. unfold create_tile_assignment.
    cbn [iota_reshape_dims iota_transpose_perm tile_assignment_dimensions]. rewrite (of_transform_again i Hi). cbn [mbind res_bind].
    by destruct (reshape_dims i).
  - destruct Hc as [E _]. exists [], [], (values_ a), (of_array a). unfold array, MaybeMaterializeFullArray. rewrite E. cbn [mbind res_bind].
    rewrite E. cbn [mbind res_bind]. split; [done |]. split; [by split |]. unfold Arrays.num_elements in Hn, En.
    unfold tiled_from_proto. cbn [iota_reshape_dims iota_transpose_perm tile_assignment_devices tile_assignment_dimensions last_tile_dims
      proto_replicate_on_last_tile_dim proto_metadata]. rewrite (bool_decide_eq_true_2 (([] : list Z) = [])) by done. cbn [negb andb].
    rewrite (bool_decide_eq_false_2 (values_ a = [])) by (intros Ev; rewrite Ev in Hn; cbn in Hn; lia). cbn [negb guard_res mbind res_bind].
    rewrite (proj2 (Nat.eqb_neq _ _)) by lia. rewrite (bool_decide_eq_false_2 (sizes_ a = [])) by done. cbn [negb guard_res mbind res_bind].
    rewrite Hpos. cbn [guard_res mbind res_bind]. rewrite product_no_overflow_spec by done.
    rewrite (proj2 (Z.eqb_eq _ _)) by lia. cbn [guard_res mbind res_bind]. unfold create_tile_assignment.
    cbn [iota_reshape_dims tile_assignment_dimensions tile_assignment_devices]. rewrite make_ok by done. cbn [mbind res_bind values_].
    rewrite length_replicate, (proj2 (Nat.eqb_eq _ _)) by lia. cbn [guard_res mbind res_bind]. by destruct a.
Qed.

Definition grouped (g : ShardGroup) : bool := negb (shard_group_id g =? -1) && (shard_like g || shard_as g).

Lemma group_back g type ds devices ts rep (md : list OpMetadata) types reshape perm named s :
  group_made g →
  SetShardGroupFromProto (MkOpSharding type ds devices ts rep md types reshape perm (grouped g)
    (if grouped g then shard_group_id g else 0) (if grouped g && negb (shard_as g) then LIKE else AS) named) s = SetShardGroup g s.
Proof.
  unfold SetShardGroupFromProto. cbn [is_shard_group shard_group_type proto_shard_group_id].
  intros [-> | (id & Hid & [-> | ->])]; [done | |]; unfold grouped; cbn; by rewrite (proj2 (Z.eqb_neq _ _)) by done.
Qed.

(** The proto of a sharding that is not a tuple and has no named axes. *)
Lemma leaf_proto g s type ds reshape perm devices :
  leaf s → tile_fields (tile_assignment_ s) = Ok (reshape, perm, devices) → kind_to_proto s = Ok (type, ds) →
  ToProto (SetShardGroup g s) =
  Ok (MkOpSharding type (default [] ds) devices [] (match ds with Some _ => replicate_on_last_tile_dim_ s | None => false end)
        (metadata_ s) (match ds with Some _ => subgroup_types_ s | None => [] end) reshape perm (grouped g)
        (if grouped g then shard_group_id g else 0) (if grouped g && negb (shard_as g) then LIKE else AS) None).
Proof.
  intros H Hf Hk. transitivity (leaf_to_proto (SetShardGroup g s)); [by destruct H |]. unfold leaf_to_proto.
  change (tile_assignment_ (SetShardGroup g s)) with (tile_assignment_ s). unfold tile_fields in Hf. rewrite Hf. cbn [mbind res_bind].
  assert (E : kind_to_proto (SetShardGroup g s) = kind_to_proto s) by by destruct H. rewrite E, Hk. cbn [mbind res_bind].
  assert (Eg : IsShardGroup (SetShardGroup g s) = grouped g) by by destruct H. by rewrite Eg.
Qed.

(** A sharding without tiles. *)
Lemma plain_back g s type reshape perm devices :
  group_made g → leaf s → tile_fields (tile_assignment_ s) = Ok (reshape, perm, devices) → kind_to_proto s = Ok (type, None) →
  (∀ group id gt, FromProto (MkOpSharding type [] devices [] false (metadata_ s) [] reshape perm group id gt None) =
     Ok (SetShardGroupFromProto (MkOpSharding type [] devices [] false (metadata_ s) [] reshape perm group id gt None) s)) →
  ∃ p s', ToProto (SetShardGroup g s) = Ok p ∧ FromProto p = Ok s' ∧ same (SetShardGroup g s) s'.
Proof.
  intros Hg H Hf Hk Hp. rewrite (leaf_proto g s type None reshape perm devices) by done. do 2 eexists. split; [done |].
  change (default [] None) with ([] : list Z). rewrite Hp, group_back by done. split; [done |]. apply same_refl.
Qed.

Lemma FromProto_tiled (p : OpShardingProto OpMetadata) :
  proto_type p = OTHER → named_sharding_proto p = None →
  FromProto p = (s ← tiled_from_proto p; Ok (SetShardGroupFromProto p s)).
Proof. destruct p. cbn [proto_type named_sharding_proto]. by intros -> ->. Qed.

(** A sharding with tiles. *)
Lemma tiled_back g s a types rep :
  group_made g → leaf s → contents (tile_assignment_ s) a → 1 < Arrays.num_elements a < 2 ^ 31 →
  kind_to_proto s = Ok (OTHER, Some (sizes_ a)) → replicate_on_last_tile_dim_ s = rep → subgroup_types_ s = types →
  (∀ t', contents t' a → ∃ t, contents t a ∧
    (if negb (bool_decide (types = [])) then guard_res (negb rep) Internal;; Subgroup t' types (metadata_ s)
     else if rep then PartialTile t' (metadata_ s) else Ok (of_tiles t' false (metadata_ s))) = Ok (with_tiles t s)) →
  ∃ p s', ToProto (SetShardGroup g s) = Ok p ∧ FromProto p = Ok s' ∧ same (SetShardGroup g s) s'.
Proof.
  intros Hg H Hc Hn Hk <- <- Hs.
  destruct (tiles_back _ a (replicate_on_last_tile_dim_ s) (metadata_ s) (subgroup_types_ s) (grouped g)
    (if grouped g then shard_group_id g else 0) (if grouped g && negb (shard_as g) then LIKE else AS) Hc Hn) as (reshape & perm & devices & t' & Hf & Hc' & E).
  rewrite (leaf_proto g s OTHER (Some (sizes_ a)) reshape perm devices) by done. destruct (Hs t' Hc') as (t & Ht & Et).
  do 2 eexists. split; [done |]. change (default [] (Some (sizes_ a))) with (sizes_ a). rewrite FromProto_tiled by done. rewrite E, Et. cbn [mbind res_bind].
  rewrite group_back by done. split; [done |].
  change (SetShardGroup g (with_tiles t s)) with (with_tiles t (SetShardGroup g s)). constructor. right. by exists a.
Qed.

Lemma leaf_back g s :
  group_made g → leaf s → ∃ p s', ToProto (SetShardGroup g s) = Ok p ∧ FromProto p = Ok s' ∧ same (SetShardGroup g s) s'.
Proof.
  intros Hg H. pose proof H as Hl. destruct H as [md | md | md | md | d md | t a md Hc Hn | t a ds n md Hc Hn Hs Hds H1 Hne Hsort | t a ds n type md Hc Hn Hs H1 Hds Ht].
  1-5: eapply plain_back; [exact Hg | exact Hl | reflexivity | reflexivity | reflexivity].
  all: assert (Hk : TileAssign.dimensions t = Ok (sizes_ a)) by (by apply dimensions_spec).
  - apply (tiled_back g _ a [] false); try done; [cbn; by rewrite Hk |]. intros t' Ht'. by exists t'.
  - apply (tiled_back g _ a [] true); try done; [cbn; by rewrite Hk |]. intros t' Ht'. cbn [metadata_ of_tiles].
    destruct (PartialTile_spec t' a ds n md Ht' Hs Hds) as (s & Es & H'); [lia |]. rewrite decide_False in H' by done. rewrite decide_False in H' by done.
    destruct H' as (t1 & -> & Ht1). rewrite Hsort in Ht1. exists t1. split; [by destruct a | done].
  - apply (tiled_back g _ a [type] false); try done; [cbn; by rewrite Hk |]. intros t' Ht'. exists t'. split; [done |]. cbn [metadata_ of_subgroups].
    rewrite bool_decide_eq_false_2 by done. cbn [negb guard_res mbind res_bind]. rewrite (Subgroup_single t' a ds n) by done.
    destruct (tile_reads_contents t' a Ht') as (_ & Hd & _ & _ & Hnum & _). unfold create_sharding. rewrite bool_decide_eq_false_2 by congruence.
    assert (Hm : (if bool_decide ([type] = [MANUAL]) then n ← tile_num_elements t'; ds ← TileAssign.dimensions t'; d ← back ds; Ok (n =? d) else Ok false) = Ok false).
    { destruct (bool_decide _); [| done]. rewrite Hnum, Hd, Hs. cbn [mbind res_bind]. unfold back. rewrite last_snoc. cbn [mbind res_bind]. f_equal. apply Z.eqb_neq.
      pose proof (contents_ok _ _ Ht') as Ha. unfold Arrays.num_elements in *. rewrite (a_values a Ha), Hs, prod_app, prod_singleton in *. nia. }
    rewrite Hm. cbn [mbind res_bind last]. by rewrite bool_decide_eq_false_2 by congruence.
Qed.

(** What [PartialTile] makes is such a sharding: its groups are sorted, and sorting them
    again changes nothing. *)
Lemma sorted_again l : merge_sort Z.le (merge_sort Z.le l) = merge_sort Z.le l.
Proof.
  apply (StronglySorted_unique Z.le); [by apply (StronglySorted_merge_sort Z.le) .. |]. by rewrite merge_sort_Permutation.
Qed.

Lemma sorted_chunks_again g n l : length l = (n * g)%nat → sorted_chunks g n (sorted_chunks g n l) = sorted_chunks g n l.
Proof.
  revert l. induction n as [| n IH]; intros l Hl; [done |]. rewrite (sorted_chunks_step g n l).
  assert (Hg : length (merge_sort Z.le (take g l)) = g).
  { rewrite (Permutation_length (merge_sort_Permutation Z.le _)), length_take. lia. }
  rewrite sorted_chunks_step, take_app_length', drop_app_length', sorted_again by done. rewrite IH; [done |]. rewrite length_drop. lia.
Qed.

Lemma PartialTile_leaf t a ds n (md : list OpMetadata) s :
  contents t a → 1 < Arrays.num_elements a < 2 ^ 31 → sizes_ a = ds ++ [n] → ds ≠ [] → PartialTile t md = Ok s → leaf s.
Proof.
  intros Hc Hn Hs Hds E. pose proof (contents_ok t a Hc) as Ha. pose proof (a_sizes a Ha) as Hp. pose proof (a_values a Ha) as Hv.
  rewrite Hs in Hp, Hv. apply Forall_app in Hp as [Hp [Hg _]%Forall_cons]. pose proof (prod_pos ds Hp). rewrite prod_app, prod_singleton in Hv.
  destruct (PartialTile_spec t a ds n md Hc Hs Hds) as (s' & E' & H'); [lia |]. assert (s' = s) as -> by congruence.
  destruct (decide _) as [_ | N1]; [subst s; constructor |]. destruct (decide _) as [-> | N2].
  - destruct H' as (t' & -> & Ht'). by eapply leaf_tiles.
  - destruct H' as (t' & -> & Ht'). assert (Hl : length (values_ a) = (Z.to_nat (prod ds) * Z.to_nat n)%nat) by nia.
    pose proof (sorted_chunks_perm _ _ _ Hl) as Hperm%Permutation_length.
    eapply (leaf_partial t' _ ds n); [exact Ht' | | exact Hs | done | done | | by apply sorted_chunks_again];
      unfold Arrays.num_elements in *; cbn [values_]; by rewrite Hperm.
Qed.

Lemma FlatTuple_to (es : list HloSharding) ps :
  Forall2 (λ e p, ToProto e = Ok p) es ps →
  ToProto (FlatTuple es) = Ok (MkOpSharding TUPLE [] [] ps false [] [] [] [] false 0 AS None).
Proof.
  intros H. cbn.
  assert (E : (fix all (l : list HloSharding) : res (list (OpShardingProto OpMetadata)) :=
    match l with [] => Ok [] | e :: l => e ← ToProto e; l ← all l; Ok (e :: l) end) es = Ok ps); [| by rewrite E].
  induction H as [| e p es ps He _ IH]; [done |]. rewrite He. cbn [mbind res_bind]. by rewrite IH.
Qed.

Lemma FlatTuple_from ps (es : list HloSharding) :
  Forall2 (λ p e, FromProto p = Ok e) ps es →
  FromProto (MkOpSharding TUPLE [] [] ps false [] [] [] [] false 0 AS None) = Ok (FlatTuple es).
Proof.
  intros H. cbn.
  assert (E : (fix all (l : list (OpShardingProto OpMetadata)) : res (list HloSharding) :=
    match l with [] => Ok [] | e :: l => e ← FromProto e; l ← all l; Ok (e :: l) end) ps = Ok es); [| by rewrite E].
  induction H as [| p e ps es He _ IH]; [done |]. rewrite He. cbn [mbind res_bind]. by rewrite IH.
Qed.

(** C27: for the shardings of [exported], writing to a proto and reading back succeeds, and
    gives a sharding that is equal in every field and stands for the same devices.  These
    are: what the constructors without tiles make; tiles of more than one and fewer than
    2^31 devices, those that replicate on the last dimension with sorted groups (as
    [PartialTile] makes them) and those with one other subgroup type, in a dimension that is
    not of size 1 beside data dimensions that are not all of size 1; each in any shard group
    whose id is not -1; named shardings that their constructor accepts, over meshes whose iota has not
    been expanded; and tuples of these of any depth.  Tiles of one device come back
    replicated, see [single_tile_not_same]. *)
Theorem FromProto_ToProto s :
  exported s → ∃ p s', ToProto s = Ok p ∧ FromProto p = Ok s' ∧ same s s'.
Proof.
  revert s. apply exported_rect; [by intros; apply leaf_back | |].
  - intros n Hn. destruct (Named_back n Hn) as (p & Ep & E). cbn. rewrite Ep. cbn [mbind res_bind]. do 2 eexists. split; [done |].
    cbn. rewrite E. split; [done |]. apply same_refl.
  - intros es H. assert (∃ ps es', Forall2 (λ e p, ToProto e = Ok p) es ps ∧ Forall2 (λ p e, FromProto p = Ok e) ps es' ∧ Forall2 same es es')
      as (ps & es' & Hp & He & Hs).
    { induction H as [| e es (p & e' & Hp & He & Hs) _ (ps & es' & IHp & IHe & IHs)]; [by exists [], []; repeat constructor |].
      exists (p :: ps), (e' :: es'). by repeat constructor. }
    exists (MkOpSharding TUPLE [] [] ps false [] [] [] [] false 0 AS None), (FlatTuple es').
    split; [by apply FlatTuple_to |]. split; [by apply FlatTuple_from | by constructor].
Qed.
End Shardings.

(** ** Instances *)

(** A tuple of tiles given by an iota, in a group, a sharding whose last dimension
    replicates, a tuple of one device, and a named sharding. *)
Definition demo_groups : Array Z := MkArray [2; 2] [0; 3; 1; 2].
Definition demo_tuple : HloSharding unit :=
  FlatTuple [SetShardGroup (ShardAs 3) (of_tiles (of_iota demo) false [tt]); of_tiles (of_array demo_groups) true [];
    FlatTuple [SingleDevice 5 []]; of_named demo_named].

Lemma demo_groups_ok : array_ok demo_groups.
Proof. constructor; [repeat constructor; lia | reflexivity | cbn; int_lia]. Qed.

Lemma demo_named_made : named_made demo_named.
Proof.
  constructor; [| repeat constructor; cbn; lia | constructor | vm_compute; reflexivity].
  apply (made_mesh _ (flat_array demo)); [exact demo_contents | by right | done | done | vm_compute; reflexivity].
Qed.

Lemma demo_exported : exported demo_tuple.
Proof.
  apply exported_tuple. repeat apply Forall_cons_2; [| | | | done].
  - apply exported_leaf; [right; exists 3; split; [done | by left] |].
    apply (leaf_tiles _ (flat_array demo)); [exact demo_contents | vm_compute; done].
  - apply (exported_leaf NotShardGroup (of_tiles (of_array demo_groups) true [])); [by left |].
    by apply (leaf_partial _ demo_groups [2] 2); try done; (split; [done | exact demo_groups_ok]).
  - apply exported_tuple. repeat constructor. apply (exported_leaf NotShardGroup (SingleDevice 5 [])); [by left | constructor].
  - apply exported_named, demo_named_made.
Qed.

Lemma FromProto_ToProto_witness :
  ∃ p s', ToProto demo_tuple = Ok p ∧ FromProto p = Ok s' ∧ same demo_tuple s'.
Proof. apply (FromProto_ToProto demo_tuple). exact demo_exported. Defined.

(** Tiles of one device come back as a replicated sharding. *)
Lemma single_tile_not_same :
  (p ← ToProto (of_tiles (of_array (MkArray [1; 1] [0])) false ([] : list unit)); FromProto p) = Ok (Replicate []).
Proof. vm_compute. reflexivity. Qed.
End ShardProto.
