(* ===== verification/ExecGraph.v ===== *)
(** * Execution graphs

    Models [xla/runtime/buffer_use.h] and [.cc], [resource_use.h] and [.cc], the slices
    of [xla/service/buffer_assignment.h] they are about, and
    [xla/runtime/execution_graph.h] and [.cc]: the dependencies between the operations
    of a sequence as a graph, with the redundant edges erased. *)
From S2P Require Import Prelude.
#[local] Open Scope Z_scope.

(** Some element passes the test; the tests after it are not made. *)
Fixpoint any_res {A} (f : A → res bool) (l : list A) : res bool :=
  match l with
  | [] => Ok false
  | x :: l => b ← f x; if (b : bool) then Ok true else any_res f l
  end.

Definition or_res (a b : res bool) : res bool := x ← a; if (x : bool) then Ok true else b.

(** An element of a vector changed in place. *)
Definition upd_res {A} (i : nat) (f : A → A) (l : list A) : res (list A) :=
  x ← at_res l i; Ok (<[i := f x]> l).

Module Buffers.

(** ** Slices of memory *)

(** An allocation is known by its index; a slice may have none. *)
Record Slice := MkSlice { allocation : option Z; offset : Z; size : Z }.

Definition index (s : Slice) : res Z :=
  match allocation s with Some i => Ok i | None => Fail Undefined end.

(** [operator==]. *)
Definition equal_slices (a b : Slice) : bool :=
  match allocation a, allocation b with
  | Some i, Some j => (i =? j) && (offset a =? offset b) && (size a =? size b)
  | None, None => true
  | _, _ => false
  end.

(** [operator<]. *)
Definition slice_lt (a b : Slice) : res bool :=
  i ← index a;
  j ← index b;
  Ok (if negb (i =? j) then i <? j
      else if negb (offset a =? offset b) then offset a <? offset b
      else size a <? size b).

Definition OverlapsWith (a other : Slice) : res bool :=
  end_ ← s64 (offset a + size a);
  other_end ← s64 (offset other + size other);
  i ← index a;
  j ← index other;
  Ok ((i =? j) && (offset a <? other_end) && (end_ >? offset other)).

Definition Contains (a other : Slice) : res bool :=
  end_ ← s64 (offset a + size a);
  other_end ← s64 (offset other + size other);
  i ← index a;
  j ← index other;
  Ok ((i =? j) && (offset a <=? offset other) && (other_end <=? end_)).

(** ** Uses *)

Inductive MemoryAccess := kRead | kWrite.

#[global] Instance MemoryAccess_eq_dec : EqDecision MemoryAccess.
Proof. solve_decision. Defined.

(** Whether the contents are defined on input and on output. *)
Inductive ContentValidity := kUndefined | kDefinedOnInput | kDefinedOnOutput | kDefinedOnInputAndOutput.

Record BufferUse := MkBufferUse {
  slice : Slice; access : MemoryAccess; content_validity : ContentValidity
}.

(** The constructor without a validity. *)
Definition make_use (s : Slice) (a : MemoryAccess) : BufferUse :=
  MkBufferUse s a (match a with kRead => kDefinedOnInputAndOutput | kWrite => kDefinedOnOutput end).

(** The enumerators' values, which are tested bit by bit. *)
Definition validity_bits (v : ContentValidity) : Z :=
  match v with
  | kUndefined => 0
  | kDefinedOnInput => 1
  | kDefinedOnOutput => 2
  | kDefinedOnInputAndOutput => Z.lor 1 2
  end.

Definition HasDefinedContentsOnInput (u : BufferUse) : bool :=
  negb (Z.land (validity_bits (content_validity u)) 1 =? 0).
Definition HasDefinedContentsOnOutput (u : BufferUse) : bool :=
  negb (Z.land (validity_bits (content_validity u)) 2 =? 0).

Definition Read (s : Slice) : BufferUse := MkBufferUse s kRead kDefinedOnInputAndOutput.
Definition Write (s : Slice) : BufferUse := MkBufferUse s kWrite kDefinedOnOutput.
Definition Scratch (s : Slice) : BufferUse := MkBufferUse s kWrite kUndefined.
Definition Consume (s : Slice) : BufferUse := MkBufferUse s kWrite kDefinedOnInput.

Record ReadWriteSet := MkSet { read_ : list BufferUse; write_ : list BufferUse }.

Definition AddRead (use : BufferUse) (s : ReadWriteSet) : ReadWriteSet :=
  MkSet (read_ s ++ [use]) (write_ s).
Definition AddWrite (use : BufferUse) (s : ReadWriteSet) : ReadWriteSet :=
  MkSet (read_ s) (write_ s ++ [use]).

Definition Add (use : BufferUse) (s : ReadWriteSet) : ReadWriteSet :=
  match access use with kRead => AddRead use s | kWrite => AddWrite use s end.

Fixpoint AddAll (uses : list BufferUse) (s : ReadWriteSet) : ReadWriteSet :=
  match uses with [] => s | use :: uses => AddAll uses (Add use s) end.

Definition overlaps (set : list BufferUse) (use : BufferUse) : res bool :=
  any_res (λ other, or_res (OverlapsWith (slice other) (slice use))
                      (Ok (equal_slices (slice other) (slice use)))) set.

Definition UseHasConflicts (s : ReadWriteSet) (use : BufferUse) : res bool :=
  match access use with
  | kWrite => or_res (overlaps (write_ s) use) (overlaps (read_ s) use)
  | kRead => overlaps (write_ s) use
  end.

Definition HasConflicts (s other : ReadWriteSet) : res bool :=
  or_res (any_res (UseHasConflicts s) (read_ other)) (any_res (UseHasConflicts s) (write_ other)).
End Buffers.

Module Resources.

Inductive Kind := kToken | kCollectiveCommunicator.

#[global] Instance Kind_eq_dec : EqDecision Kind.
Proof. solve_decision. Defined.

(** Resources are compared by their pointers. *)
Record Resource := MkResource { pointer : Z; kind : Kind }.

#[global] Instance Resource_eq_dec : EqDecision Resource.
Proof. solve_decision. Defined.

Inductive ResourceAccess := kRead | kWrite.

#[global] Instance ResourceAccess_eq_dec : EqDecision ResourceAccess.
Proof. solve_decision. Defined.

Record ResourceUse := MkResourceUse { resource : Resource; access : ResourceAccess }.

Definition Read (r : Resource) : ResourceUse := MkResourceUse r kRead.
Definition Write (r : Resource) : ResourceUse := MkResourceUse r kWrite.

Record ReadWriteSet := MkSet { read_ : list Resource; write_ : list Resource }.

(** The insertion in a hash set. *)
Definition insert (r : Resource) (l : list Resource) : list Resource :=
  if decide (r ∈ l) then l else r :: l.

Definition Add (use : ResourceUse) (s : ReadWriteSet) : ReadWriteSet :=
  match access use with
  | kRead => MkSet (insert (resource use) (read_ s)) (write_ s)
  | kWrite => MkSet (read_ s) (insert (resource use) (write_ s))
  end.

Fixpoint AddAll (uses : list ResourceUse) (s : ReadWriteSet) : ReadWriteSet :=
  match uses with [] => s | use :: uses => AddAll uses (Add use s) end.

Definition UseHasConflicts (s : ReadWriteSet) (use : ResourceUse) : bool :=
  match access use with
  | kWrite => bool_decide (resource use ∈ write_ s) || bool_decide (resource use ∈ read_ s)
  | kRead => bool_decide (resource use ∈ write_ s)
  end.

Definition UsesHaveConflicts (s : ReadWriteSet) (uses : list ResourceUse) : bool :=
  existsb (UseHasConflicts s) uses.

Definition HasConflicts (s other : ReadWriteSet) : bool :=
  existsb (λ r, UseHasConflicts s (Read r)) (read_ other) ||
  existsb (λ r, UseHasConflicts s (Write r)) (write_ other).

Definition Conflicts (s other : ReadWriteSet) : list ResourceUse :=
  filter (λ use, UseHasConflicts s use = true) (Read <$> read_ other) ++
  filter (λ use, UseHasConflicts s use = true) (Write <$> write_ other).
End Resources.

Module ExecGraph.

(** ** Nodes and edges *)

(** A node is known by its position in the sequence. *)
Abbreviation NodeId := nat.
Definition max_NodeId : Z := 2 ^ 31 - 1.

Inductive EdgeKind := kScheduling | kExecution.

#[global] Instance EdgeKind_eq_dec : EqDecision EdgeKind.
Proof. solve_decision. Defined.

(** The order of the enumeration. *)
Definition kind_gt (a b : EdgeKind) : bool :=
  match a, b with kExecution, kScheduling => true | _, _ => false end.

Definition KindOf (k : Resources.Kind) : EdgeKind :=
  match k with
  | Resources.kToken => kExecution
  | Resources.kCollectiveCommunicator => kScheduling
  end.

Record NodeEdge := MkEdge { kind : EdgeKind; id : NodeId }.

Record Operation := MkOperation {
  BufferUses : list Buffers.BufferUse;
  ResourceUses : list Resources.ResourceUse
}.

(** Until it is set, the id is 0 here and a negative number in the code; nothing reads
    it before. *)
Record NodeDefBuilder := MkBuilder {
  node_id : NodeId;
  priority : Z;
  in_edges : list NodeEdge;
  out_edges : list NodeEdge
}.

(** ** The dependencies *)

(** [EdgeKind] of the conflicts. *)
Definition conflicts_kind (resource_uses : list Resources.ResourceUse) : EdgeKind :=
  if existsb (λ u, bool_decide (KindOf (Resources.kind (Resources.resource u)) = kExecution)) resource_uses
  then kExecution else kScheduling.

Definition add_edge (k : EdgeKind) (j i : NodeId) (builders : list NodeDefBuilder)
    : res (list NodeDefBuilder) :=
  builders ← upd_res j (λ b, MkBuilder (node_id b) (priority b) (in_edges b)
                               (out_edges b ++ [MkEdge k i])) builders;
  upd_res i (λ b, MkBuilder (node_id b) (priority b) (in_edges b ++ [MkEdge k j]) (out_edges b)) builders.

Definition rwsets : Type := Buffers.ReadWriteSet * Resources.ReadWriteSet.

(** The loop over the operations before [i], from [j] on. *)
Fixpoint connect (earlier : list rwsets) (j i : NodeId) (mine : rwsets)
    (builders : list NodeDefBuilder) : res (list NodeDefBuilder) :=
  match earlier with
  | [] => Ok builders
  | sets :: earlier =>
      conflict ← Buffers.HasConflicts sets.1 mine.1;
      builders ←
        (if (conflict : bool) then add_edge kExecution j i builders
         else if Resources.HasConflicts sets.2 mine.2
         then add_edge (conflicts_kind (Resources.Conflicts sets.2 mine.2)) j i builders
         else Ok builders);
      connect earlier (S j) i mine builders
  end.

Definition sets_of (op : Operation) : rwsets :=
  (Buffers.AddAll (BufferUses op) (Buffers.MkSet [] []),
   Resources.AddAll (ResourceUses op) (Resources.MkSet [] [])).

Fixpoint connect_all (operations : list Operation) (i : NodeId) (earlier : list rwsets)
    (builders : list NodeDefBuilder) : res (list NodeDefBuilder) :=
  match operations with
  | [] => Ok builders
  | op :: operations =>
      builders ← upd_res i (λ b, MkBuilder i (priority b) (in_edges b) (out_edges b)) builders;
      builders ← connect earlier 0 i (sets_of op) builders;
      connect_all operations (S i) (earlier ++ [sets_of op]) builders
  end.

(** ** Redundant edges *)

(** The first edge whose id is not less; the end if there is none. *)
Fixpoint lower_bound (edges : list NodeEdge) (n : NodeId) : nat :=
  match edges with
  | e :: edges => if (id e <? n)%nat then S (lower_bound edges n) else O
  | [] => O
  end.

(** The number of edges erased, and both nodes. *)
Definition EraseEdge (from to : NodeDefBuilder) (k : EdgeKind) : res (Z * NodeDefBuilder * NodeDefBuilder) :=
  match last (out_edges from), head (in_edges to) with
  | Some back, Some front =>
      if (id back <? node_id to)%nat || (node_id from <? id front)%nat then Ok (0, from, to)
      else
        let out_it := lower_bound (out_edges from) (node_id to) in
        let has_out_edge :=
          match out_edges from !! out_it with Some e => (id e =? node_id to)%nat | None => false end in
        if negb has_out_edge then Ok (0, from, to)
        else
          let in_it := lower_bound (in_edges to) (node_id from) in
          e ← at_res (in_edges to) in_it;
          if kind_gt (kind e) k then Ok (0, from, to)
          else Ok (1, MkBuilder (node_id from) (priority from) (in_edges from) (delete out_it (out_edges from)),
                   MkBuilder (node_id to) (priority to) (delete in_it (in_edges to)) (out_edges to))
  | _, _ => Ok (0, from, to)
  end.

(** [TransitiveReductionDfsState]; the top of the stack comes first. *)
Record DfsState := MkDfs {
  stack_ : list NodeEdge;
  visited_ : list bool;
  num_execution_edges_ : Z;
  num_scheduling_edges_ : Z
}.

Definition count_edge (d : Z) (e : NodeEdge) (s : DfsState) : DfsState :=
  match kind e with
  | kExecution => MkDfs (stack_ s) (visited_ s) (wrap_u64 (num_execution_edges_ s + d)) (num_scheduling_edges_ s)
  | kScheduling => MkDfs (stack_ s) (visited_ s) (num_execution_edges_ s) (wrap_u64 (num_scheduling_edges_ s + d))
  end.

Definition PushToStack (e : NodeEdge) (s : DfsState) : res DfsState :=
  v ← at_res (visited_ s) (id e);
  if (v : bool) then Ok s
  else
    let s := count_edge 1 e s in
    Ok (MkDfs (e :: stack_ s) (<[id e := true]> (visited_ s)) (num_execution_edges_ s) (num_scheduling_edges_ s)).

Fixpoint PushAllToStack (edges : list NodeEdge) (s : DfsState) : res DfsState :=
  match edges with
  | [] => Ok s
  | e :: edges => s ← PushToStack e s; PushAllToStack edges s
  end.

Definition PopFromStack (s : DfsState) : res (NodeEdge * DfsState) :=
  match stack_ s with
  | [] => Fail Undefined
  | e :: st =>
      let s := count_edge (-1) e s in
      Ok (e, MkDfs st (visited_ s) (num_execution_edges_ s) (num_scheduling_edges_ s))
  end.

Definition DfsEmpty (s : DfsState) : bool := bool_decide (stack_ s = []).

Definition Visited (n : NodeId) (s : DfsState) : res DfsState :=
  visited ← upd_res n (λ _, true) (visited_ s);
  Ok (MkDfs (stack_ s) visited (num_execution_edges_ s) (num_scheduling_edges_ s)).

Definition NumVisited (s : DfsState) : Z := Z.of_nat (count_occ bool_dec (visited_ s) true).

Definition Clear (num_nodes : nat) (s : DfsState) : DfsState :=
  MkDfs [] (replicate num_nodes false) (num_execution_edges_ s) (num_scheduling_edges_ s).

(** What is reached from one out edge of the source; a node is popped at most once. *)
Fixpoint reduce_loop (fuel : nat) (source : NodeId) (out_kind : EdgeKind) (builders : list NodeDefBuilder)
    (s : DfsState) (erased : Z) : res (list NodeDefBuilder * DfsState * Z) :=
  match fuel with
  | O => Fail NoFuel
  | S fuel =>
      if DfsEmpty s then Ok (builders, s, erased)
      else
        '(node_edge, s) ← PopFromStack s;
        from ← at_res builders source;
        to ← at_res builders (id node_edge);
        let has_scheduling_edge := bool_decide (out_kind = kScheduling) ||
          bool_decide (kind node_edge = kScheduling) || negb (num_scheduling_edges_ s =? 0) in
        let k := if has_scheduling_edge then kScheduling else kExecution in
        '(n, from, to) ← EraseEdge from to k;
        let builders := <[id node_edge := to]> (<[source := from]> builders) in
        s ← PushAllToStack (out_edges to) s;
        reduce_loop fuel source out_kind builders s (erased + n)
  end.

Fixpoint reduce_edges (source : NodeId) (edges : list NodeEdge) (builders : list NodeDefBuilder)
    (s : DfsState) (erased : Z) : res (list NodeDefBuilder * DfsState * Z) :=
  match edges with
  | [] => Ok (builders, s, erased)
  | out_edge :: edges =>
      out_node ← at_res builders (id out_edge);
      s ← Visited (id out_edge) s;
      s ← PushAllToStack (out_edges out_node) s;
      '(builders, s, erased) ← reduce_loop (S (length builders)) source (kind out_edge) builders s erased;
      reduce_edges source edges builders s erased
  end.

(** The nodes below [n], the last one first. *)
Fixpoint reduce_nodes (n : nat) (builders : list NodeDefBuilder) (s : DfsState) (erased : Z)
    : res (list NodeDefBuilder * Z) :=
  match n with
  | O => Ok (builders, erased)
  | S i =>
      source_node ← at_res builders i;
      '(builders, s, erased) ← reduce_edges i (out_edges source_node) builders (Clear (length builders) s) erased;
      builders ← upd_res i (λ b, MkBuilder (node_id b) (NumVisited s) (in_edges b) (out_edges b)) builders;
      reduce_nodes i builders s erased
  end.

(** The builders, and the number of erased edges. *)
Definition RunTransitiveReductionAndUpdatePriorities (builders : list NodeDefBuilder)
    : res (list NodeDefBuilder * Z) :=
  reduce_nodes (length builders) builders (MkDfs [] [] 0 0) 0.

(** ** The graph *)

(** A part of one of the vectors of all edges. *)
Record Span := MkSpan { start : nat; length_ : nat }.

Definition view (edges : list NodeEdge) (s : Span) : list NodeEdge := take (length_ s) (drop (start s) edges).

Record NodeDef := MkNodeDef {
  def_id : NodeId; def_in_edges : Span; def_out_edges : Span; def_priority : Z
}.

Definition span_of (all edges : list NodeEdge) : Span :=
  match edges with [] => MkSpan 0 0 | _ => MkSpan (length all) (length edges) end.

Fixpoint CreateNodeDefs (builders : list NodeDefBuilder) (nodes_in_edges nodes_out_edges : list NodeEdge)
    (nodes_defs : list NodeDef) : list NodeEdge * list NodeEdge * list NodeDef :=
  match builders with
  | [] => (nodes_in_edges, nodes_out_edges, nodes_defs)
  | b :: builders =>
      CreateNodeDefs builders (nodes_in_edges ++ in_edges b) (nodes_out_edges ++ out_edges b)
        (nodes_defs ++ [MkNodeDef (node_id b) (span_of nodes_in_edges (in_edges b))
                          (span_of nodes_out_edges (out_edges b)) (priority b)])
  end.

Record ExecutionGraph := MkGraph {
  nodes_in_edges_ : list NodeEdge;
  nodes_out_edges_ : list NodeEdge;
  nodes_defs_ : list NodeDef;
  source_ : list NodeId;
  sink_ : list NodeId;
  is_sequential_ : bool
}.

(** The positions of the definitions that pass a test. *)
Fixpoint positions (p : NodeDef → bool) (i : NodeId) (defs : list NodeDef) : list NodeId :=
  match defs with
  | [] => []
  | d :: defs => if p d then i :: positions p (S i) defs else positions p (S i) defs
  end.

(** Every definition from the second on has an edge from the one before. *)
Fixpoint sequential (nodes_in_edges : list NodeEdge) (previous : NodeId) (defs : list NodeDef) : bool :=
  match defs with
  | [] => true
  | d :: defs =>
      existsb (λ e, (id e =? previous)%nat) (view nodes_in_edges (def_in_edges d)) &&
      sequential nodes_in_edges (S previous) defs
  end.

(** The constructor. *)
Definition make_graph (nodes_in_edges nodes_out_edges : list NodeEdge) (nodes_defs : list NodeDef)
    : ExecutionGraph :=
  MkGraph nodes_in_edges nodes_out_edges nodes_defs
    (positions (λ d, bool_decide (view nodes_in_edges (def_in_edges d) = [])) 0 nodes_defs)
    (positions (λ d, bool_decide (view nodes_out_edges (def_out_edges d) = [])) 0 nodes_defs)
    (sequential nodes_in_edges 0 (tail nodes_defs)).

Definition Create (operations : list Operation) : res ExecutionGraph :=
  guard_res (Z.of_nat (length operations) <=? max_NodeId) Internal;;
  builders ← connect_all operations 0 [] (replicate (length operations) (MkBuilder 0 0 [] []));
  '(builders, _) ← RunTransitiveReductionAndUpdatePriorities builders;
  let '(ins, outs, defs) := CreateNodeDefs builders [] [] [] in
  Ok (make_graph ins outs defs).

(** ** Reading the graph *)

Definition node_in_edges (g : ExecutionGraph) (n : NodeId) : res (list NodeEdge) :=
  d ← at_res (nodes_defs_ g) n; Ok (view (nodes_in_edges_ g) (def_in_edges d)).
Definition node_out_edges (g : ExecutionGraph) (n : NodeId) : res (list NodeEdge) :=
  d ← at_res (nodes_defs_ g) n; Ok (view (nodes_out_edges_ g) (def_out_edges d)).
Definition node_priority (g : ExecutionGraph) (n : NodeId) : res Z :=
  d ← at_res (nodes_defs_ g) n; Ok (def_priority d).

Definition is_source (g : ExecutionGraph) (n : NodeId) : bool := bool_decide (n ∈ source_ g).
Definition is_sink (g : ExecutionGraph) (n : NodeId) : bool := bool_decide (n ∈ sink_ g).

End ExecGraph.
