(* ===== verification/ExecBuild.v ===== *)
(** * Dependencies between operations

    Which operations the construction of an execution graph connects, and the builders
    it has before the redundant edges are erased. *)
From S2P Require Import Prelude ExecGraph.
#[local] Open Scope Z_scope.

Module ExecDeps.
Import ExecGraph.

(** ** Conflicts *)

(** A slice of an allocation, inside the range of the offsets. *)
Definition slice_ok (s : Buffers.Slice) : Prop :=
  is_Some (Buffers.allocation s) ∧ 0 ≤ Buffers.offset s ∧ 0 ≤ Buffers.size s ∧
  Buffers.offset s + Buffers.size s ≤ int64_max.

Definition op_ok (op : Operation) : Prop := Forall (λ u, slice_ok (Buffers.slice u)) (BufferUses op).

(** Slices with a common address, and equal ones, which may be empty. *)
Definition touches (a b : Buffers.Slice) : Prop :=
  Buffers.allocation a = Buffers.allocation b ∧
  ((Buffers.offset a < Buffers.offset b + Buffers.size b ∧
    Buffers.offset b < Buffers.offset a + Buffers.size a) ∨
   (Buffers.offset a = Buffers.offset b ∧ Buffers.size a = Buffers.size b)).

#[export] Instance touches_dec a b : Decision (touches a b).
Proof. unfold touches. apply _. Defined.

Definition uses_race (u v : Buffers.BufferUse) : Prop :=
  (Buffers.access u = Buffers.kWrite ∨ Buffers.access v = Buffers.kWrite) ∧
  touches (Buffers.slice u) (Buffers.slice v).

#[export] Instance uses_race_dec u v : Decision (uses_race u v).
Proof. unfold uses_race. apply _. Defined.

(** One of them writes memory the other uses. *)
Definition race (a b : Operation) : Prop :=
  ∃ u v, u ∈ BufferUses a ∧ v ∈ BufferUses b ∧ uses_race u v.

Definition resource_clash (u v : Resources.ResourceUse) : Prop :=
  Resources.resource u = Resources.resource v ∧
  (Resources.access u = Resources.kWrite ∨ Resources.access v = Resources.kWrite).

#[export] Instance resource_clash_dec u v : Decision (resource_clash u v).
Proof. unfold resource_clash. apply _. Defined.

(** One of them writes a resource the other uses, and the resource is of a kind in [P]. *)
Definition clash (P : Resources.Kind → Prop) (a b : Operation) : Prop :=
  ∃ u v, u ∈ ResourceUses a ∧ v ∈ ResourceUses b ∧ resource_clash u v ∧
    P (Resources.kind (Resources.resource v)).

(** The order the program needs: the second operation starts after the first has
    finished, or only after it has started. *)
Definition must_finish (a b : Operation) : Prop := race a b ∨ clash (eq Resources.kToken) a b.
Definition must_start (a b : Operation) : Prop := clash (λ _, True) a b.

(** *** The tests *)

Lemma any_res_spec {A} (f : A → res bool) (p : A → bool) l :
  (∀ x, x ∈ l → f x = Ok (p x)) → any_res f l = Ok (existsb p l).
Proof.
  induction l as [| x l IH]; intros H; [done |]. cbn [any_res existsb]. rewrite (H x) by by left.
  cbn [mbind res_bind]. destruct (p x); [done |]. apply IH. intros y Hy. apply H. by right.
Qed.

Lemma existsb_elem {A} (p : A → bool) l : existsb p l = true ↔ ∃ x, x ∈ l ∧ p x = true.
Proof. rewrite existsb_exists. by setoid_rewrite list_elem_of_In. Qed.

Lemma overlap_or_equal a b :
  slice_ok a → slice_ok b →
  or_res (Buffers.OverlapsWith a b) (Ok (Buffers.equal_slices a b)) = Ok (bool_decide (touches a b)).
Proof.
  intros ([i Ha] & A1 & A2 & A3) ([j Hb] & B1 & B2 & B3).
  assert (Ht : touches a b ↔ i = j ∧
    ((Buffers.offset a < Buffers.offset b + Buffers.size b ∧ Buffers.offset b < Buffers.offset a + Buffers.size a) ∨
     (Buffers.offset a = Buffers.offset b ∧ Buffers.size a = Buffers.size b))).
  { unfold touches. rewrite Ha, Hb. split; intros [E H]; (split; [congruence | exact H]). }
  unfold Buffers.OverlapsWith, Buffers.equal_slices, Buffers.index, or_res.
  rewrite !s64_in by int_lia. rewrite Ha, Hb. cbn [mbind res_bind].
  destruct (Z.eqb_spec i j), (Z.ltb_spec (Buffers.offset a) (Buffers.offset b + Buffers.size b)),
    (Z.gtb_spec (Buffers.offset a + Buffers.size a) (Buffers.offset b)),
    (Z.eqb_spec (Buffers.offset a) (Buffers.offset b)), (Z.eqb_spec (Buffers.size a) (Buffers.size b));
    cbn [andb]; f_equal; symmetry;
    solve [apply bool_decide_eq_true; rewrite Ht; lia | apply bool_decide_eq_false; rewrite Ht; lia].
Qed.

Lemma buffers_AddAll us s :
  Buffers.read_ (Buffers.AddAll us s) = Buffers.read_ s ++ filter (λ u, Buffers.access u = Buffers.kRead) us ∧
  Buffers.write_ (Buffers.AddAll us s) = Buffers.write_ s ++ filter (λ u, Buffers.access u = Buffers.kWrite) us.
Proof.
  revert s. induction us as [| u us IH]; intros s; cbn [Buffers.AddAll]; [by rewrite !app_nil_r |].
  destruct (IH (Buffers.Add u s)) as [-> ->]. rewrite !filter_cons. unfold Buffers.Add.
  destruct (Buffers.access u) eqn:E; cbn [Buffers.AddRead Buffers.AddWrite Buffers.read_ Buffers.write_];
    destruct (decide _), (decide _); simplify_eq; by rewrite <- ?app_assoc.
Qed.

Lemma UseHasConflicts_spec us v :
  Forall (λ u, slice_ok (Buffers.slice u)) us → slice_ok (Buffers.slice v) →
  ∃ b, Buffers.UseHasConflicts (Buffers.AddAll us (Buffers.MkSet [] [])) v = Ok b ∧
    (b = true ↔ ∃ u, u ∈ us ∧ uses_race u v).
Proof.
  intros Hus Hv. destruct (buffers_AddAll us (Buffers.MkSet [] [])) as [Er Ew]. cbn [Buffers.read_ Buffers.write_ app] in Er, Ew.
  assert (Ho : ∀ acc, Buffers.overlaps (filter (λ u, Buffers.access u = acc) us) v =
    Ok (existsb (λ u, bool_decide (touches (Buffers.slice u) (Buffers.slice v))) (filter (λ u, Buffers.access u = acc) us))).
  { intros acc. apply any_res_spec. intros u [_ Hu]%list_elem_of_filter.
    apply overlap_or_equal; [| done]. rewrite Forall_forall in Hus. by apply Hus. }
  assert (Hb : ∀ acc, existsb (λ u, bool_decide (touches (Buffers.slice u) (Buffers.slice v)))
      (filter (λ u, Buffers.access u = acc) us) = true ↔
      ∃ u, u ∈ us ∧ Buffers.access u = acc ∧ touches (Buffers.slice u) (Buffers.slice v)).
  { intros acc. rewrite existsb_elem. setoid_rewrite list_elem_of_filter. setoid_rewrite bool_decide_eq_true. naive_solver. }
  unfold Buffers.UseHasConflicts, uses_race. rewrite Er, Ew. destruct (Buffers.access v) eqn:Ea.
  - rewrite Ho. eexists. split; [done |]. rewrite Hb. naive_solver.
  - rewrite !Ho. unfold or_res. cbn [mbind res_bind]. exists (existsb (λ u, bool_decide (touches (Buffers.slice u) (Buffers.slice v)))
      (filter (λ u, Buffers.access u = Buffers.kWrite) us) || existsb (λ u, bool_decide (touches (Buffers.slice u) (Buffers.slice v)))
      (filter (λ u, Buffers.access u = Buffers.kRead) us)). split; [by destruct (existsb _ _) |].
    rewrite orb_true_iff, !Hb. split; [naive_solver |]. intros (u & Hu & _ & Ht).
    destruct (Buffers.access u) eqn:E; [right | left]; by exists u.
Qed.

Lemma buffers_HasConflicts a b :
  op_ok a → op_ok b →
  ∃ r, Buffers.HasConflicts (sets_of a).1 (sets_of b).1 = Ok r ∧ (r = true ↔ race a b).
Proof.
  intros Ha Hb. cbn [sets_of fst]. destruct (buffers_AddAll (BufferUses b) (Buffers.MkSet [] [])) as [Er Ew].
  cbn [Buffers.read_ Buffers.write_ app] in Er, Ew. unfold Buffers.HasConflicts. rewrite Er, Ew.
  set (p v := match Buffers.UseHasConflicts (Buffers.AddAll (BufferUses a) (Buffers.MkSet [] [])) v with Ok r => r | _ => false end).
  assert (Hp : ∀ v, v ∈ BufferUses b →
    Buffers.UseHasConflicts (Buffers.AddAll (BufferUses a) (Buffers.MkSet [] [])) v = Ok (p v) ∧
    (p v = true ↔ ∃ u, u ∈ BufferUses a ∧ uses_race u v)).
  { intros v Hv. unfold op_ok in Hb. rewrite Forall_forall in Hb.
    destruct (UseHasConflicts_spec (BufferUses a) v Ha (Hb v Hv)) as (r & E & Hr). unfold p. by rewrite E. }
  rewrite !(any_res_spec _ p) by (intros v [_ Hv]%list_elem_of_filter; by apply Hp). unfold or_res. cbn [mbind res_bind].
  exists (existsb p (filter (λ u, Buffers.access u = Buffers.kRead) (BufferUses b)) ||
    existsb p (filter (λ u, Buffers.access u = Buffers.kWrite) (BufferUses b))).
  split; [by destruct (existsb p _) |].
  rewrite orb_true_iff, !existsb_elem. setoid_rewrite list_elem_of_filter. unfold race. split.
  - intros [(v & [_ Hv] & Ep) | (v & [_ Hv] & Ep)]; apply (Hp v Hv) in Ep as (u & Hu & Hr); by exists u, v.
  - intros (u & v & Hu & Hv & Hr). assert (Ep : p v = true) by (apply (Hp v Hv); by exists u).
    destruct (Buffers.access v) eqn:Ea; [left | right]; by exists v.
Qed.

Lemma resources_AddAll us s r :
  (r ∈ Resources.read_ (Resources.AddAll us s) ↔
     r ∈ Resources.read_ s ∨ ∃ u, u ∈ us ∧ Resources.resource u = r ∧ Resources.access u = Resources.kRead) ∧
  (r ∈ Resources.write_ (Resources.AddAll us s) ↔
     r ∈ Resources.write_ s ∨ ∃ u, u ∈ us ∧ Resources.resource u = r ∧ Resources.access u = Resources.kWrite).
Proof.
  assert (Hi : ∀ q l, r ∈ Resources.insert q l ↔ r = q ∨ r ∈ l).
  { intros q l. unfold Resources.insert. destruct (decide (q ∈ l)); [| by rewrite elem_of_cons]. naive_solver. }
  revert s. induction us as [| u us IH]; intros s; cbn [Resources.AddAll].
  - split; (split; [by left |]); intros [? | (u & []%elem_of_nil & _)]; done.
  - assert (Hex : ∀ acc, (∃ v, v ∈ u :: us ∧ Resources.resource v = r ∧ Resources.access v = acc) ↔
      (Resources.resource u = r ∧ Resources.access u = acc) ∨
      ∃ v, v ∈ us ∧ Resources.resource v = r ∧ Resources.access v = acc).
    { intros acc. split.
      - intros (v & [-> | Hv]%elem_of_cons & H); [by left | right; by exists v].
      - intros [H | (v & Hv & H)]; [exists u | exists v]; (split; [| done]); by constructor. }
    destruct (IH (Resources.Add u s)) as [-> ->]. rewrite !Hex. unfold Resources.Add.
    destruct (Resources.access u) eqn:E; cbn [Resources.read_ Resources.write_]; rewrite Hi; split; intuition congruence.
Qed.

Lemma resources_UseHasConflicts us v :
  Resources.UseHasConflicts (Resources.AddAll us (Resources.MkSet [] [])) v = true ↔
  ∃ u, u ∈ us ∧ resource_clash u v.
Proof.
  destruct (resources_AddAll us (Resources.MkSet [] []) (Resources.resource v)) as [Hr Hw].
  cbn [Resources.read_ Resources.write_] in Hr, Hw. rewrite elem_of_nil in Hr, Hw.
  unfold Resources.UseHasConflicts, resource_clash. destruct (Resources.access v) eqn:E.
  - rewrite bool_decide_eq_true, Hw. naive_solver.
  - rewrite orb_true_iff, !bool_decide_eq_true, Hr, Hw. split; [naive_solver |].
    intros (u & Hu & Eu & _). destruct (Resources.access u) eqn:Ea; naive_solver.
Qed.

(** The uses a set stands for. *)
Lemma set_use us v :
  (∃ r, r ∈ Resources.read_ (Resources.AddAll us (Resources.MkSet [] [])) ∧ v = Resources.Read r) ∨
  (∃ r, r ∈ Resources.write_ (Resources.AddAll us (Resources.MkSet [] [])) ∧ v = Resources.Write r) ↔ v ∈ us.
Proof.
  setoid_rewrite (λ r, proj1 (resources_AddAll us (Resources.MkSet [] []) r)).
  setoid_rewrite (λ r, proj2 (resources_AddAll us (Resources.MkSet [] []) r)). cbn [Resources.read_ Resources.write_].
  setoid_rewrite elem_of_nil. split.
  - intros [(r & [[] | (u & Hu & <- & E)] & ->) | (r & [[] | (u & Hu & <- & E)] & ->)]; destruct u; simpl in *; by subst.
  - intros Hv. destruct v as [r []]; [left | right]; exists r; (split; [right; by eexists | done]).
Qed.

Lemma resources_HasConflicts a b :
  Resources.HasConflicts (sets_of a).2 (sets_of b).2 = true ↔ must_start a b.
Proof.
  cbn [sets_of snd]. unfold Resources.HasConflicts. rewrite orb_true_iff, !existsb_elem.
  setoid_rewrite resources_UseHasConflicts. unfold must_start, clash. split.
  - intros [(r & Hr & u & Hu & Hc) | (r & Hr & u & Hu & Hc)]; eexists u, _; (split; [done |]);
      (split; [| by split]); apply set_use; [left | right]; by exists r.
  - intros (u & v & Hu & [(r & Hr & ->) | (r & Hr & ->)]%set_use & Hc & _); [left | right]; exists r; eauto.
Qed.

Lemma resources_Conflicts a b v :
  v ∈ Resources.Conflicts (sets_of a).2 (sets_of b).2 ↔
  v ∈ ResourceUses b ∧ ∃ u, u ∈ ResourceUses a ∧ resource_clash u v.
Proof.
  cbn [sets_of snd]. unfold Resources.Conflicts. rewrite elem_of_app, !list_elem_of_filter, !list_elem_of_fmap.
  rewrite resources_UseHasConflicts, <- (set_use (ResourceUses b) v). naive_solver.
Qed.

Lemma conflicts_kind_token a b :
  conflicts_kind (Resources.Conflicts (sets_of a).2 (sets_of b).2) = kExecution ↔ clash (eq Resources.kToken) a b.
Proof.
  unfold conflicts_kind. destruct (existsb _ _) eqn:E.
  - split; [| done]. intros _. apply existsb_elem in E as (v & (Hv & u & Hu & Hc)%resources_Conflicts & Hk).
    apply bool_decide_eq_true in Hk. exists u, v. split; [done |]. split; [done |]. split; [done |].
    by destruct (Resources.kind (Resources.resource v)).
  - split; [done |]. intros (u & v & Hu & Hv & Hc & Hk). exfalso. apply not_true_iff_false in E. apply E.
    apply existsb_elem. exists v. split; [apply resources_Conflicts; eauto |]. by rewrite <- Hk.
Qed.

(** ** The edge between two operations *)

Definition dependency (a b : Operation) : option EdgeKind :=
  match Buffers.HasConflicts (sets_of a).1 (sets_of b).1 with
  | Ok true => Some kExecution
  | _ =>
      if Resources.HasConflicts (sets_of a).2 (sets_of b).2
      then Some (conflicts_kind (Resources.Conflicts (sets_of a).2 (sets_of b).2)) else None
  end.

Lemma dependency_execution a b :
  op_ok a → op_ok b → dependency a b = Some kExecution ↔ must_finish a b.
Proof.
  intros Ha Hb. unfold dependency, must_finish. destruct (buffers_HasConflicts a b Ha Hb) as (r & -> & Hr).
  rewrite <- conflicts_kind_token. destruct r; [naive_solver |].
  pose proof (resources_HasConflicts a b) as Hs. destruct (Resources.HasConflicts _ _) eqn:E.
  - split; [intros Ek; injection Ek as Ek; by right | intros [R%Hr | ->]; done].
  - split; [done |]. intros [?%Hr | Hk%conflicts_kind_token]; [done |].
    assert (must_start a b) as ?%Hs; [| done]. destruct Hk as (u & v & ? & ? & ? & _). by exists u, v.
Qed.

Lemma dependency_some a b :
  op_ok a → op_ok b → is_Some (dependency a b) ↔ race a b ∨ must_start a b.
Proof.
  intros Ha Hb. unfold dependency. destruct (buffers_HasConflicts a b Ha Hb) as (r & -> & Hr).
  rewrite <- resources_HasConflicts. destruct r; [naive_solver |].
  destruct (Resources.HasConflicts _ _); split; [naive_solver | eauto | by intros [] | naive_solver].
Qed.

End ExecDeps.

(** ** The edges before the reduction

    The builders that [Create] has after the loops over all pairs of operations, and
    what stays true of builders while edges are erased. *)
Module ExecBuild.
Import ExecGraph ExecDeps.

Lemma upd_seq {A} i n (g : A → A) (f : nat → A) :
  (i < n)%nat →
  upd_res i g (f <$> seq 0 n) = Ok ((λ m, if decide (m = i) then g (f m) else f m) <$> seq 0 n).
Proof.
  intros Hi. unfold upd_res, at_res. rewrite list_lookup_fmap, lookup_seq_lt by done. cbn.
  f_equal. apply list_eq. intros m. destruct (decide (m < n)%nat) as [Hm | Hm].
  - rewrite list_lookup_fmap, lookup_seq_lt by done. cbn [fmap option_fmap option_map]. destruct (decide (m = i)) as [-> | Ne].
    + rewrite list_lookup_insert_eq by (by rewrite length_fmap, length_seq). by rewrite decide_True.
    + rewrite list_lookup_insert_ne by done. rewrite list_lookup_fmap, lookup_seq_lt by done. cbn. by rewrite decide_False.
  - rewrite !lookup_ge_None_2; [done | |]; rewrite ?length_insert, ?length_fmap, ?length_seq; lia.
Qed.

Lemma fmap_seq_ext {A} n (f g : nat → A) :
  (∀ m, (m < n)%nat → f m = g m) → f <$> seq 0 n = g <$> seq 0 n.
Proof. intros H. apply list_fmap_ext. intros i x Hx%lookup_seq. apply H. lia. Qed.

Section Operations.
Context (ops : list Operation).
Hypothesis Hops : Forall op_ok ops.

Abbreviation n := (length ops).

(** The edge from an operation to a later one. *)
Definition dep (j i : nat) : option EdgeKind :=
  match ops !! j, ops !! i with
  | Some a, Some b => if decide (j < i)%nat then dependency a b else None
  | _, _ => None
  end.

Lemma dep_lt j i k : dep j i = Some k → (j < i < n)%nat.
Proof.
  unfold dep. destruct (ops !! j); [| done]. destruct (ops !! i) eqn:Hi; [| done].
  destruct (decide (j < i)%nat); [| done]. intros _. split; [done |]. by eapply lookup_lt_Some.
Qed.

Lemma dep_ge j i : (i ≤ j)%nat → dep j i = None.
Proof. intros H. destruct (dep j i) as [k |] eqn:E; [| done]. apply dep_lt in E. lia. Qed.

(** The edges of a node to and from the nodes below [hi]. *)
Definition out_list (m hi : nat) : list NodeEdge := omap (λ i, (λ k, MkEdge k i) <$> dep m i) (seq 0 hi).
Definition in_list (m hi : nat) : list NodeEdge := omap (λ j, (λ k, MkEdge k j) <$> dep j m) (seq 0 hi).

Lemma out_list_S m hi :
  out_list m (S hi) = out_list m hi ++ (match dep m hi with Some k => [MkEdge k hi] | None => [] end).
Proof. unfold out_list. rewrite seq_S, omap_app. cbn [omap list_omap]. cbn. by destruct (dep m hi). Qed.

Lemma in_list_S m hi :
  in_list m (S hi) = in_list m hi ++ (match dep hi m with Some k => [MkEdge k hi] | None => [] end).
Proof. unfold in_list. rewrite seq_S, omap_app. cbn [omap list_omap]. cbn. by destruct (dep hi m). Qed.

(** The builder of node [m] when the ids below [h] are set, the pairs up to operation
    [i] are done, and for [i] the earlier ones below [j]. *)
Definition builder_at (h i j m : nat) : NodeDefBuilder :=
  MkBuilder (if decide (m < h)%nat then m else 0) 0
    (in_list m (if decide (m < i)%nat then m else if decide (m = i) then j else 0))
    (out_list m (if decide (m < j)%nat then S i else i)).

Definition stage (h i j : nat) : list NodeDefBuilder := builder_at h i j <$> seq 0 n.

Lemma stage_skip h i j :
  (j < i)%nat → dep j i = None → stage h i j = stage h i (S j).
Proof.
  intros Hji E. apply fmap_seq_ext. intros m Hm. unfold builder_at. f_equal.
  - destruct (decide (m < i)%nat); [done |]. destruct (decide (m = i)) as [-> |]; [| done].
    by rewrite in_list_S, E, app_nil_r.
  - destruct (decide (m < j)%nat), (decide (m < S j)%nat); try lia; try done.
    assert (m = j) as -> by lia. by rewrite out_list_S, E, app_nil_r.
Qed.

Lemma stage_add h i j k :
  (j < i < n)%nat → dep j i = Some k → add_edge k j i (stage h i j) = Ok (stage h i (S j)).
Proof.
  intros Hji E. unfold add_edge, stage. rewrite upd_seq by lia. cbn [mbind res_bind]. rewrite upd_seq by lia.
  f_equal. apply fmap_seq_ext. intros m Hm. unfold builder_at.
  destruct (decide (m = i)) as [-> |]; [| destruct (decide (m = j)) as [-> |]].
  - destruct (decide (i = j)); [lia |]. cbn [node_id priority in_edges out_edges].
    rewrite !(decide_False (P := (i < i)%nat)) by lia.
    rewrite (decide_False (P := (i < j)%nat)), (decide_False (P := (i < S j)%nat)) by lia.
    by rewrite in_list_S, E.
  - cbn [node_id priority in_edges out_edges].
    rewrite (decide_True (P := (j < i)%nat)) by lia. rewrite (decide_False (P := (j < j)%nat)) by lia.
    rewrite (decide_True (P := (j < S j)%nat)) by lia. by rewrite out_list_S, E.
  - destruct (decide (m < i)%nat); (destruct (decide (m < j)%nat), (decide (m < S j)%nat); (lia || done)).
Qed.

Lemma connect_spec h i j b :
  (j ≤ i < n)%nat → ops !! i = Some b →
  connect (sets_of <$> drop j (take i ops)) j i (sets_of b) (stage h i j) = Ok (stage h i i).
Proof.
  intros Hji Hb. remember (i - j)%nat as d eqn:Ed. revert j Hji Ed. induction d as [| d IH]; intros j Hji Ed.
  - assert (j = i) as -> by lia. rewrite drop_ge by (rewrite length_take; lia). done.
  - destruct (lookup_lt_is_Some_2 ops j) as [a Ha]; [lia |].
    rewrite (drop_S _ a) by (rewrite lookup_take_lt by lia; done). cbn [fmap list_fmap connect].
    rewrite Forall_forall in Hops.
    destruct (buffers_HasConflicts a b) as (r & Er & _); [by eapply Hops, list_elem_of_lookup_2 .. |].
    rewrite Er. cbn [mbind res_bind].
    assert (Edep : dep j i = if r then Some kExecution else
      if Resources.HasConflicts (sets_of a).2 (sets_of b).2
      then Some (conflicts_kind (Resources.Conflicts (sets_of a).2 (sets_of b).2)) else None).
    { unfold dep. rewrite Ha, Hb, decide_True by lia. unfold dependency. rewrite Er. by destruct r. }
    destruct r; [| destruct (Resources.HasConflicts _ _)];
      [rewrite (stage_add _ _ _ kExecution) by (done || lia) | erewrite (stage_add _ _ _ _) by (done || lia) |
       rewrite (stage_skip _ _ _) by (done || lia)]; apply IH; lia.
Qed.

Lemma connect_all_spec i :
  (i ≤ n)%nat → connect_all (drop i ops) i (sets_of <$> take i ops) (stage i i 0) = Ok (stage n n 0).
Proof.
  intros Hi. remember (n - i)%nat as d eqn:Ed. revert i Hi Ed. induction d as [| d IH]; intros i Hi Ed.
  - assert (i = n) as -> by lia. by rewrite drop_all.
  - destruct (lookup_lt_is_Some_2 ops i) as [b Hb]; [lia |]. rewrite (drop_S _ b) by done. cbn [connect_all].
    unfold stage at 1. rewrite upd_seq by lia. cbn [mbind res_bind].
    match goal with |- context [connect _ _ _ _ ?bs] => assert (bs = stage (S i) i 0) as -> end.
    { apply fmap_seq_ext. intros m Hm. unfold builder_at. destruct (decide (m = i)) as [-> |].
      - cbn [node_id priority in_edges out_edges]. f_equal. by rewrite (decide_True (P := (i < S i)%nat)) by lia.
      - f_equal. destruct (decide (m < i)%nat), (decide (m < S i)%nat); lia || done. }
    pose proof (connect_spec (S i) i 0 b ltac:(lia) Hb) as Ec. rewrite drop_0 in Ec. rewrite Ec. cbn [mbind res_bind].
    assert (stage (S i) i i = stage (S i) (S i) 0) as ->.
    { apply fmap_seq_ext. intros m Hm. unfold builder_at. f_equal.
      - destruct (decide (m < i)%nat), (decide (m < S i)%nat), (decide (m = i)), (decide (m = S i)); subst; lia || done.
      - destruct (decide (m < i)%nat), (decide (m < 0)%nat); try lia; [done |].
        by rewrite out_list_S, dep_ge, app_nil_r by lia. }
    replace ((sets_of <$> take i ops) ++ [sets_of b]) with (sets_of <$> take (S i) ops).
    + apply IH; lia.
    + by rewrite (take_S_r _ _ b), fmap_app.
Qed.

Lemma connect_all_stage : connect_all ops 0 [] (replicate n (MkBuilder 0 0 [] [])) = Ok (stage n n 0).
Proof.
  rewrite <- (connect_all_spec 0) by lia. rewrite drop_0. f_equal.
  apply list_eq. intros m. unfold stage. destruct (decide (m < n)%nat).
  - rewrite lookup_replicate_2, list_lookup_fmap, lookup_seq_lt by done. cbn. unfold builder_at.
    rewrite (decide_False (P := (m < 0)%nat)) by lia. by destruct (decide (m = 0)%nat).
  - rewrite !lookup_ge_None_2; [done | |]; rewrite ?length_fmap, ?length_seq, ?length_replicate; lia.
Qed.
End Operations.

(** ** Builders while edges are erased *)

Definition edge (bs : list NodeDefBuilder) (j : nat) (k : EdgeKind) (i : nat) : Prop :=
  ∃ b, bs !! j = Some b ∧ MkEdge k i ∈ out_edges b.

Record wf (bs : list NodeDefBuilder) : Prop := {
  wf_id : ∀ i b, bs !! i = Some b → node_id b = i;
  wf_out : ∀ i b, bs !! i = Some b → StronglySorted lt (id <$> out_edges b);
  wf_in : ∀ i b, bs !! i = Some b → StronglySorted lt (id <$> in_edges b);
  wf_up : ∀ j k i, edge bs j k i → (j < i < length bs)%nat;
  wf_match : ∀ j k i b, bs !! i = Some b → MkEdge k j ∈ in_edges b ↔ edge bs j k i;
}.

Lemma omap_sorted (f : nat → option NodeEdge) hi :
  (∀ i e, f i = Some e → id e = i) →
  StronglySorted lt (id <$> omap f (seq 0 hi)).
Proof.
  intros Hf. induction hi as [| hi IH]; [constructor |]. rewrite seq_S, omap_app, fmap_app.
  assert (Hlt : ∀ e, e ∈ omap f (seq 0 hi) → (id e < hi)%nat).
  { intros e (i & Hi%elem_of_seq & He)%list_elem_of_omap. rewrite (Hf _ _ He). lia. }
  apply StronglySorted_app_2; [| done |].
  - intros x y (e & -> & He)%list_elem_of_fmap Hy. cbn in Hy. destruct (f hi) as [e' |] eqn:E; cbn in Hy.
    + apply list_elem_of_singleton in Hy as ->. rewrite (Hf _ _ E). by apply Hlt.
    + by apply elem_of_nil in Hy.
  - cbn. destruct (f hi); repeat constructor.
Qed.

Section Operations.
Context (ops : list Operation).

Lemma stage_lookup m b :
  stage ops (length ops) (length ops) 0 !! m = Some b ↔
  (m < length ops)%nat ∧ b = MkBuilder m 0 (in_list ops m m) (out_list ops m (length ops)).
Proof.
  unfold stage. rewrite list_lookup_fmap. destruct (decide (m < length ops)%nat) as [Hm | Hm].
  - rewrite lookup_seq_lt by done. cbn. unfold builder_at. rewrite !decide_True by done.
    rewrite (decide_False (P := (m < 0)%nat)) by lia. split; [intros E; by injection E as <- | by intros [_ ->]].
  - rewrite lookup_ge_None_2 by (rewrite length_seq; lia). split; [done | by intros []].
Qed.

Lemma stage_edge j k i : edge (stage ops (length ops) (length ops) 0) j k i ↔ dep ops j i = Some k.
Proof.
  unfold edge. setoid_rewrite stage_lookup. split.
  - intros (b & [Hj ->] & He). cbn in He. apply list_elem_of_omap in He as (i' & _ & E).
    apply fmap_Some in E as (k' & E & [= -> ->]). done.
  - intros E. pose proof (dep_lt _ _ _ _ E). eexists. split; [split; [lia | done] |]. cbn.
    apply list_elem_of_omap. exists i. split; [apply elem_of_seq; lia | by rewrite E].
Qed.

Lemma stage_wf : wf (stage ops (length ops) (length ops) 0).
Proof.
  constructor.
  - by intros i b [_ ->]%stage_lookup.
  - intros i b [_ ->]%stage_lookup. cbn. apply omap_sorted. intros m e (k & _ & ->)%fmap_Some. done.
  - intros i b [_ ->]%stage_lookup. cbn. apply omap_sorted. intros m e (k & _ & ->)%fmap_Some. done.
  - intros j k i E%stage_edge. unfold stage. rewrite length_fmap, length_seq. by eapply dep_lt.
  - intros j k i b [Hi ->]%stage_lookup. rewrite stage_edge. cbn. unfold in_list. rewrite list_elem_of_omap. split.
    + intros (j' & _ & E). apply fmap_Some in E as (k' & E & [= -> ->]). done.
    + intros E. exists j. split; [apply elem_of_seq; apply dep_lt in E; lia | by rewrite E].
Qed.
End Operations.

End ExecBuild.
