(* ===== verification/ExecReduce.v ===== *)
(** * Paths in an execution graph

    What an erased edge leaves of the order between the nodes: it may go when another
    path that begins with an edge at least as strong leads to the same node. *)
From stdpp Require Import relations.
From S2P Require Import Prelude ExecGraph ExecBuild.
#[local] Open Scope Z_scope.

Module ExecPaths.
Import ExecGraph ExecBuild.

(** ** Sorted edges *)

Lemma sorted_ids_unique (l : list NodeEdge) e e' :
  StronglySorted lt (id <$> l) → e ∈ l → e' ∈ l → id e = id e' → e = e'.
Proof.
  induction l as [| x l IH]; intros Hs He He' E; [by apply elem_of_nil in He |].
  cbn [fmap list_fmap] in Hs. inversion Hs as [| ? ? Hs' Hx]; subst. rewrite Forall_forall in Hx.
  assert (Hlt : ∀ y, y ∈ l → (id x < id y)%nat) by (intros y Hy; apply Hx; by apply list_elem_of_fmap_2).
  apply elem_of_cons in He as [-> | He], He' as [-> | He']; [done | | | by apply IH].
  - apply Hlt in He'. lia.
  - apply Hlt in He. lia.
Qed.

Lemma lower_bound_found (l : list NodeEdge) e :
  StronglySorted lt (id <$> l) → e ∈ l →
  l !! lower_bound l (id e) = Some e ∧ delete (lower_bound l (id e)) l = filter (λ e', id e' ≠ id e) l.
Proof.
  induction l as [| x l IH]; intros Hs He; [by apply elem_of_nil in He |].
  cbn [fmap list_fmap] in Hs. inversion Hs as [| ? ? Hs' Hx]; subst. rewrite Forall_forall in Hx.
  assert (Hlt : ∀ y, y ∈ l → (id x < id y)%nat) by (intros y Hy; apply Hx; by apply list_elem_of_fmap_2).
  cbn [lower_bound]. rewrite filter_cons. apply elem_of_cons in He as [-> | He].
  - rewrite Nat.ltb_irrefl. split; [done |]. cbn. rewrite decide_False by (intros H; by apply H).
    symmetry. apply list_filter_all. rewrite Forall_forall. intros y Hy%Hlt. lia.
  - pose proof (Hlt _ He). rewrite (proj2 (Nat.ltb_lt _ _)) by done. rewrite decide_True by lia.
    destruct (IH Hs' He) as [E1 E2]. split; [exact E1 |].
    change (x :: delete (lower_bound l (id e)) l = x :: filter (λ e', id e' ≠ id e) l). by rewrite E2.
Qed.

(** An edge sought in a sorted list. *)
Lemma edge_in_dec (l : list NodeEdge) m : (∃ e, e ∈ l ∧ id e = m) ∨ ∀ e, e ∈ l → id e ≠ m.
Proof.
  destruct (decide (Exists (λ e, id e = m) l)) as [H%Exists_exists | H]; [by left |].
  right. intros e He E. apply H, Exists_exists. by exists e.
Qed.

(** ** Erasing *)

Definition remove_out (t : nat) (b : NodeDefBuilder) : NodeDefBuilder :=
  MkBuilder (node_id b) (priority b) (in_edges b) (filter (λ e, id e ≠ t) (out_edges b)).
Definition remove_in (s : nat) (b : NodeDefBuilder) : NodeDefBuilder :=
  MkBuilder (node_id b) (priority b) (filter (λ e, id e ≠ s) (in_edges b)) (out_edges b).

Lemma edge_unique bs j k k' i : wf bs → edge bs j k i → edge bs j k' i → k = k'.
Proof.
  intros Hw (b & Hb & He) (b' & Hb' & He'). simplify_eq.
  by assert (MkEdge k i = MkEdge k' i) as [= ->] by (eapply sorted_ids_unique; eauto using wf_out).
Qed.

(** [EraseEdge] erases the edge if there is one that is not stronger. *)
Lemma EraseEdge_spec bs s t from to k :
  wf bs → bs !! s = Some from → bs !! t = Some to →
  (EraseEdge from to k = Ok (0, from, to) ∧ ∀ k0, edge bs s k0 t → kind_gt k0 k = true) ∨
  (∃ k0, edge bs s k0 t ∧ kind_gt k0 k = false ∧ EraseEdge from to k = Ok (1, remove_out t from, remove_in s to)).
Proof.
  intros Hw Hs Ht. pose proof (wf_out _ Hw _ _ Hs) as So. pose proof (wf_in _ Hw _ _ Ht) as Si.
  unfold EraseEdge. rewrite (wf_id _ Hw _ _ Hs), (wf_id _ Hw _ _ Ht).
  destruct (edge_in_dec (out_edges from) t) as [([k0 t'] & He & E) | Hno]; cbn [id] in *.
  - subst t'. assert (Hedge : edge bs s k0 t) by by exists from.
    assert (Hi : MkEdge k0 s ∈ in_edges to) by by apply (wf_match _ Hw _ _ _ _ Ht).
    destruct (lower_bound_found _ _ So He) as [Lo Do]. destruct (lower_bound_found _ _ Si Hi) as [Li Di].
    cbn [id] in *.
    destruct (last (out_edges from)) as [back |] eqn:Eb;
      [| apply last_None in Eb; rewrite Eb in He; by apply elem_of_nil in He].
    destruct (head (in_edges to)) as [front |] eqn:Ef;
      [| apply head_None in Ef; rewrite Ef in Hi; by apply elem_of_nil in Hi].
    assert (Hback : (t ≤ id back)%nat).
    { apply last_Some in Eb as [l' El]. rewrite El in He, So.
      apply elem_of_app in He as [He | He%list_elem_of_singleton]; [| by rewrite <- He].
      rewrite fmap_app in So. apply StronglySorted_app in So as (H1 & _ & _).
      apply Nat.lt_le_incl, H1; [by apply (list_elem_of_fmap_2' _ _ (MkEdge k0 t)) | by left]. }
    assert (Hfront : (id front ≤ s)%nat).
    { destruct (in_edges to) as [| x l]; [done |]. injection Ef as ->. cbn in Si. inversion Si as [| ? ? _ Hx]; subst.
      apply elem_of_cons in Hi as [<- | Hi]; [done |]. rewrite Forall_forall in Hx.
      apply Nat.lt_le_incl, Hx. by apply (list_elem_of_fmap_2' _ _ (MkEdge k0 s)). }
    rewrite (proj2 (Nat.ltb_ge _ _)), (proj2 (Nat.ltb_ge _ _)) by done. cbn [orb].
    rewrite Lo. cbn [id]. rewrite Nat.eqb_refl. cbn [negb]. unfold at_res. rewrite Li. cbn [mbind res_bind kind].
    destruct (kind_gt k0 k) eqn:Eg.
    + left. split; [done |]. intros k1 H1. by rewrite (edge_unique _ _ _ _ _ Hw H1 Hedge).
    + right. exists k0. split; [done |]. split; [done |]. unfold remove_out, remove_in.
      by rewrite Do, Di, (wf_id _ Hw _ _ Hs), (wf_id _ Hw _ _ Ht).
  - left. split; [| intros k0 (b & Hb & He); simplify_eq; by apply Hno in He].
    destruct (last (out_edges from)); [| done]. destruct (head (in_edges to)); [| done]. destruct (_ || _); [done |].
    destruct (out_edges from !! lower_bound (out_edges from) t) as [e |] eqn:El; [| done].
    by rewrite (proj2 (Nat.eqb_neq _ _)) by (by apply Hno, (list_elem_of_lookup_2 _ _ _ El)).
Qed.

Definition erased (bs : list NodeDefBuilder) (s t : nat) (from to : NodeDefBuilder) : list NodeDefBuilder :=
  <[t := remove_in s to]> (<[s := remove_out t from]> bs).

Section Erased.
Context (bs : list NodeDefBuilder) (s t : nat) (from to : NodeDefBuilder).
Hypothesis Hw : wf bs.
Hypothesis Hs : bs !! s = Some from.
Hypothesis Ht : bs !! t = Some to.
Hypothesis Hst : (s < t)%nat.

Lemma erased_lookup m :
  erased bs s t from to !! m =
  if decide (m = t) then Some (remove_in s to) else if decide (m = s) then Some (remove_out t from) else bs !! m.
Proof.
  unfold erased. pose proof (lookup_lt_Some _ _ _ Hs). pose proof (lookup_lt_Some _ _ _ Ht).
  destruct (decide (m = t)) as [-> |].
  { rewrite list_lookup_insert_eq; [done |]. by rewrite length_insert. }
  rewrite list_lookup_insert_ne by done. destruct (decide (m = s)) as [-> |].
  - by rewrite list_lookup_insert_eq.
  - by rewrite list_lookup_insert_ne.
Qed.

Lemma erased_out m b : bs !! m = Some b → ∃ b', erased bs s t from to !! m = Some b' ∧
  node_id b' = node_id b ∧ priority b' = priority b ∧
  out_edges b' = (if decide (m = s) then filter (λ e, id e ≠ t) (out_edges b) else out_edges b) ∧
  in_edges b' = (if decide (m = t) then filter (λ e, id e ≠ s) (in_edges b) else in_edges b).
Proof.
  intros Hb. rewrite erased_lookup. destruct (decide (m = t)) as [-> |]; [| destruct (decide (m = s)) as [-> |]].
  - eexists. split; [done |]. rewrite Ht in Hb. injection Hb as <-. by rewrite decide_False by lia.
  - eexists. split; [done |]. rewrite Hs in Hb. by injection Hb as <-.
  - by exists b.
Qed.

Lemma length_erased : length (erased bs s t from to) = length bs.
Proof. unfold erased. by rewrite !length_insert. Qed.

Lemma erased_inv m b' : erased bs s t from to !! m = Some b' → is_Some (bs !! m).
Proof. intros Hb%lookup_lt_Some. rewrite length_erased in Hb. by apply lookup_lt_is_Some. Qed.

Lemma erased_edge j k i : edge (erased bs s t from to) j k i ↔ edge bs j k i ∧ ¬ (j = s ∧ i = t).
Proof.
  split.
  - intros (b' & Hb' & He). destruct (erased_inv _ _ Hb') as [b Hb].
    destruct (erased_out j b Hb) as (b'' & E & _ & _ & Eo & _). simplify_eq. rewrite Eo in He.
    destruct (decide (j = s)) as [-> | Ne].
    + apply list_elem_of_filter in He as [Hn He]. split; [by exists b | intros [_ ->]; done].
    + split; [by exists b | intros [-> _]; done].
  - intros [(b & Hb & He) Hn]. destruct (erased_out j b Hb) as (b' & E & _ & _ & Eo & _). exists b'. split; [done |].
    rewrite Eo. destruct (decide (j = s)) as [-> |]; [| done]. apply list_elem_of_filter. split; [| done].
    intros Ei. cbn in Ei. by apply Hn.
Qed.

Lemma filter_sorted (l : list NodeEdge) (P : NodeEdge → Prop) `{∀ e, Decision (P e)} :
  StronglySorted lt (id <$> l) → StronglySorted lt (id <$> filter P l).
Proof.
  induction l as [| x l IH]; intros Hl; [constructor |]. cbn [fmap list_fmap] in Hl.
  inversion Hl as [| ? ? Hl' Hx]; subst. rewrite filter_cons. destruct (decide (P x)); [| by apply IH].
  constructor; [by apply IH |]. rewrite Forall_forall in Hx |- *. intros y (e & -> & [_ He]%list_elem_of_filter)%list_elem_of_fmap.
  apply Hx. by apply list_elem_of_fmap_2.
Qed.

Lemma erased_wf : wf (erased bs s t from to).
Proof.
  constructor.
  - intros i b' Hb'. destruct (erased_inv _ _ Hb') as [b Hb].
    destruct (erased_out i b Hb) as (? & ? & Ei & _). simplify_eq. rewrite Ei. by apply (wf_id _ Hw).
  - intros i b' Hb'. destruct (erased_inv _ _ Hb') as [b Hb].
    destruct (erased_out i b Hb) as (? & ? & _ & _ & Eo & _). simplify_eq. rewrite Eo.
    pose proof (wf_out _ Hw _ _ Hb). destruct (decide _); [by apply filter_sorted | done].
  - intros i b' Hb'. destruct (erased_inv _ _ Hb') as [b Hb].
    destruct (erased_out i b Hb) as (? & ? & _ & _ & _ & Ei). simplify_eq. rewrite Ei.
    pose proof (wf_in _ Hw _ _ Hb). destruct (decide _); [by apply filter_sorted | done].
  - intros j k i [E _]%erased_edge. rewrite length_erased. by eapply wf_up.
  - intros j k i b' Hb'. destruct (erased_inv _ _ Hb') as [b Hb].
    destruct (erased_out i b Hb) as (? & ? & _ & _ & _ & Ei). simplify_eq. rewrite Ei, erased_edge.
    rewrite <- (wf_match _ Hw j k i b Hb). destruct (decide (i = t)) as [-> |].
    + rewrite list_elem_of_filter. cbn [id]. naive_solver.
    + naive_solver.
Qed.
End Erased.

(** ** Paths *)

Definition linked (bs : list NodeDefBuilder) (j i : nat) : Prop := ∃ k, edge bs j k i.
Definition path (bs : list NodeDefBuilder) : nat → nat → Prop := tc (linked bs).

(** A path whose first edge is at least as strong as [k]. *)
Definition before (bs : list NodeDefBuilder) (k : EdgeKind) (j i : nat) : Prop :=
  ∃ k' m, edge bs j k' m ∧ kind_gt k k' = false ∧ (m = i ∨ path bs m i).

Lemma path_lt bs j i : wf bs → path bs j i → (j < i < length bs)%nat.
Proof.
  intros Hw. induction 1 as [j i [k E] | j m i [k E] _ IH]; apply (wf_up _ Hw) in E; lia.
Qed.

Lemma edge_before bs j k i : edge bs j k i → before bs k j i.
Proof. intros E. exists k, i. split; [done |]. split; [by destruct k | by left]. Qed.

Lemma before_path bs k j i : before bs k j i → path bs j i.
Proof.
  intros (k' & m & E & _ & [-> | P]); [apply tc_once; by exists k' |].
  eapply tc_l; [by exists k' | done].
Qed.

Lemma path_before bs j i : path bs j i → before bs kScheduling j i.
Proof.
  induction 1 as [j i [k E] | j m i [k E] P _]; exists k; [exists i | exists m]; (split; [done |]); split; try done;
    [by left | by right].
Qed.

Lemma before_trans bs k j m i : before bs k j m → path bs m i → before bs k j i.
Proof.
  intros (k' & m' & E & Hk & [-> | P]) P'; exists k'; [exists m | exists m']; (split; [done |]); (split; [done |]); right;
    [done | by eapply tc_transitive].
Qed.

Lemma before_weaken bs k k' j i : kind_gt k' k = false → before bs k j i → before bs k' j i.
Proof. intros Hk (k1 & m & E & Hk1 & P). exists k1, m. split; [done |]. split; [| done]. by destruct k, k', k1. Qed.

(** The same order with one edge less. *)
Section Less.
Context (bs bs' : list NodeDefBuilder) (s t x : nat) (k0 kx : EdgeKind).
Hypothesis Hw : wf bs.
Hypothesis Hedges : ∀ j k i, edge bs' j k i ↔ edge bs j k i ∧ ¬ (j = s ∧ i = t).
Hypothesis He : edge bs s k0 t.
Hypothesis Hx : before bs kx s x.
Hypothesis Hp : path bs x t.
Hypothesis Hk : kind_gt k0 kx = false.

Lemma path_below a b : path bs a b → (b < t)%nat → path bs' a b.
Proof.
  intros P. induction P as [a b [k E] | a m b [k E] P IH]; intros Hb.
  - apply tc_once. exists k. apply Hedges. split; [done |]. lia.
  - pose proof (path_lt _ _ _ Hw P). eapply tc_l; [| by apply IH]. exists k. apply Hedges. split; [done |]. lia.
Qed.

Lemma path_above a b : path bs a b → (s < a)%nat → path bs' a b.
Proof.
  intros P. induction P as [a b [k E] | a m b [k E] P IH]; intros Hb.
  - apply tc_once. exists k. apply Hedges. split; [done |]. lia.
  - pose proof (wf_up _ Hw _ _ _ E). eapply tc_l; [| apply IH; lia]. exists k. apply Hedges. split; [done |]. lia.
Qed.

Lemma detour : before bs' kx s t.
Proof.
  pose proof (path_lt _ _ _ Hw Hp) as Lp. pose proof (path_lt _ _ _ Hw (before_path _ _ _ _ Hx)) as Lx.
  apply (before_trans _ _ _ x); [| apply path_above; [done | lia]].
  destruct Hx as (k' & m & E & Hk' & [-> | P]); exists k'; [exists x | exists m].
  - split; [apply Hedges; split; [done | lia] |]. split; [done | by left].
  - pose proof (path_lt _ _ _ Hw P). split; [apply Hedges; split; [done | lia] |]. split; [done |].
    right. apply path_below; [done | lia].
Qed.

Lemma edge_less j k i : edge bs j k i → before bs' k j i.
Proof.
  intros E. destruct (decide (j = s ∧ i = t)) as [[-> ->] | N].
  - rewrite (edge_unique _ _ _ _ _ Hw E He). eapply before_weaken; [| exact detour]. done.
  - apply edge_before. by apply Hedges.
Qed.

Lemma path_less j i : path bs j i → path bs' j i.
Proof.
  induction 1 as [j i [k E] | j m i [k E] _ IH]; apply edge_less, before_path in E; [done |].
  by eapply tc_transitive.
Qed.

Lemma before_less k j i : before bs k j i → before bs' k j i.
Proof.
  intros (k' & m & E & Hk' & P). apply edge_less in E. apply (before_weaken _ k'); [done |].
  destruct P as [-> | P%path_less]; [done |]. by eapply before_trans.
Qed.
End Less.

End ExecPaths.

(** ** The transitive reduction

    The search from every node ends, erases only edges whose order another path keeps,
    leaves no redundant edge when all are execution edges, and counts the nodes that
    can be reached. *)
Module ExecReduce.
Import ExecGraph ExecBuild ExecPaths.

(** ** The state of the search *)

Definition seen (s : DfsState) (v : nat) : Prop := visited_ s !! v = Some true.

Definition unseen (s : DfsState) : nat := count_occ bool_dec (visited_ s) false.

Lemma count_occ_insert (l : list bool) i b c :
  l !! i = Some b →
  (count_occ bool_dec (<[i := c]> l) b + (if bool_dec c b then 0 else 1) = count_occ bool_dec l b)%nat.
Proof.
  revert i. induction l as [| x l IH]; intros [| i] Hi; [done .. | |].
  - injection Hi as ->. change (<[O := c]> (b :: l)) with (c :: l). cbn [count_occ].
    destruct (bool_dec b b); [| done]. destruct (bool_dec c b); lia.
  - change (<[S i := c]> (x :: l)) with (x :: <[i := c]> l). cbn [count_occ].
    specialize (IH i Hi). destruct (bool_dec x b); lia.
Qed.

Lemma PushToStack_spec e st :
  (id e < length (visited_ st))%nat →
  ∃ st', PushToStack e st = Ok st' ∧ length (visited_ st') = length (visited_ st) ∧
    (∀ v, seen st' v ↔ seen st v ∨ v = id e) ∧
    (length (stack_ st') + unseen st' = length (stack_ st) + unseen st)%nat ∧
    (stack_ st' = stack_ st ∨ stack_ st' = e :: stack_ st) ∧
    (id e ∈ (id <$> stack_ st') ∨ seen st (id e)) ∧
    (kind e = kExecution → num_scheduling_edges_ st' = num_scheduling_edges_ st).
Proof.
  intros Hlt. destruct (lookup_lt_is_Some_2 _ _ Hlt) as [b Hb]. unfold PushToStack, at_res. rewrite Hb. cbn [mbind res_bind].
  destruct b.
  - exists st. split; [done |]. split; [done |]. split; [| split; [done |]; split; [by left |]; split; [by right | done]].
    intros v. split; [by left | intros [? | ->]; done].
  - eexists. split; [done |]. cbn [visited_ stack_ num_scheduling_edges_]. unfold count_edge.
    assert (Ev : visited_ (match kind e with
      | kScheduling => MkDfs (stack_ st) (visited_ st) (num_execution_edges_ st) (wrap_u64 (num_scheduling_edges_ st + 1))
      | kExecution => MkDfs (stack_ st) (visited_ st) (wrap_u64 (num_execution_edges_ st + 1)) (num_scheduling_edges_ st)
      end) = visited_ st) by by destruct (kind e).
    rewrite Ev. split; [by rewrite length_insert |]. split; [| split; [| split; [| split]]].
    + intros v. unfold seen. cbn [visited_]. destruct (decide (v = id e)) as [-> | Ne].
      * rewrite list_lookup_insert_eq by done. split; [by right | done].
      * rewrite list_lookup_insert_ne by done. split; [by left | by intros [? | ->]].
    + unfold unseen. cbn [visited_ stack_]. pose proof (count_occ_insert _ _ _ true Hb) as Hc. cbn in Hc.
      destruct (kind e); cbn [length stack_]; lia.
    + right. by destruct (kind e).
    + left. cbn [fmap list_fmap]. by left.
    + intros E. by rewrite E.
Qed.

Lemma PushAllToStack_spec es st :
  Forall (λ e, (id e < length (visited_ st))%nat) es →
  ∃ st', PushAllToStack es st = Ok st' ∧ length (visited_ st') = length (visited_ st) ∧
    (∀ v, seen st' v ↔ seen st v ∨ v ∈ (id <$> es)) ∧
    (length (stack_ st') + unseen st' = length (stack_ st) + unseen st)%nat ∧
    (∀ e, e ∈ stack_ st' → e ∈ stack_ st ∨ e ∈ es) ∧
    (∀ v, v ∈ (id <$> stack_ st) → v ∈ (id <$> stack_ st')) ∧
    (∀ v, v ∈ (id <$> es) → v ∈ (id <$> stack_ st') ∨ seen st v) ∧
    (Forall (λ e, kind e = kExecution) es → num_scheduling_edges_ st' = num_scheduling_edges_ st).
Proof.
  revert st. induction es as [| e es IH]; intros st Hes.
  - exists st. cbn [PushAllToStack]. split; [done |]. split; [done |]. split; [| split; [done |]; split; [by left |]; split; [done |]; split; [| done]].
    + intros v. cbn. rewrite elem_of_nil. tauto.
    + intros v []%elem_of_nil.
  - apply Forall_cons in Hes as [He Hes]. destruct (PushToStack_spec e st He) as (s1 & E1 & L1 & V1 & U1 & S1 & N1 & C1).
    cbn [PushAllToStack]. rewrite E1. cbn [mbind res_bind].
    destruct (IH s1) as (s2 & E2 & L2 & V2 & U2 & S2 & M2 & N2 & C2).
    { eapply Forall_impl; [exact Hes |]. intros x Hx. cbn beta in Hx |- *. by rewrite L1. }
    exists s2. split; [done |]. split; [congruence |]. cbn [fmap list_fmap].
    split; [| split; [lia |]; split; [| split; [| split]]].
    + intros v. rewrite V2, V1, elem_of_cons. tauto.
    + intros x [Hx | Hx]%S2; [| by right; right]. destruct S1 as [S1 | S1]; rewrite S1 in Hx; [by left |].
      apply elem_of_cons in Hx as [-> | Hx]; [right; by left | by left].
    + intros v Hv. apply M2. destruct S1 as [S1 | S1]; rewrite S1; [done | by right].
    + intros v [-> | Hv]%elem_of_cons.
      * destruct N1 as [N1 | N1]; [left; by apply M2 | by right].
      * destruct (N2 v Hv) as [H | [H | ->]%V1]; [by left | by right |].
        destruct N1 as [N1 | N1]; [left; by apply M2 | by right].
    + intros [Ke Kes]%Forall_cons. rewrite C2, C1; done.
Qed.

Lemma filter_ext_in {A} (P Q : A → Prop) `{∀ x, Decision (P x), ∀ x, Decision (Q x)} (l : list A) :
  (∀ x, x ∈ l → P x ↔ Q x) → filter P l = filter Q l.
Proof.
  induction l as [| x l IH]; intros H1; [done |]. rewrite !filter_cons, IH by (intros y Hy; apply H1; by right).
  pose proof (H1 x ltac:(by left)). by destruct (decide (P x)), (decide (Q x)); tauto || done.
Qed.

Lemma NumVisited_spec st :
  ∃ R, NoDup R ∧ (∀ v, v ∈ R ↔ seen st v) ∧ NumVisited st = Z.of_nat (length R).
Proof.
  exists (filter (λ v, visited_ st !! v = Some true) (seq 0 (length (visited_ st)))). split; [| split].
  - apply NoDup_filter, NoDup_seq.
  - intros v. rewrite list_elem_of_filter, elem_of_seq. unfold seen. split; [by intros [] |].
    intros H. split; [done |]. apply lookup_lt_Some in H. lia.
  - unfold NumVisited. f_equal. induction (visited_ st) as [| b l IH] using rev_ind; [done |].
    rewrite count_occ_app, length_app, IH. cbn [length]. rewrite Nat.add_1_r, seq_S, filter_app, length_app. cbn [Nat.add].
    f_equal.
    + f_equal. apply filter_ext_in. intros v Hv%elem_of_seq. rewrite lookup_app_l by lia. done.
    + rewrite filter_cons. cbn [filter list_filter]. rewrite lookup_app_r by lia. rewrite Nat.sub_diag. cbn.
      destruct b; by destruct (decide _).
Qed.

#[export] Instance seen_dec s v : Decision (seen s v).
Proof. unfold seen. apply _. Defined.

(** ** The search from one node *)

Section Reduce.
Context (bs0 : list NodeDefBuilder).

Definition all_exec : Prop := ∀ j k i, edge bs0 j k i → k = kExecution.

(** What erasing keeps: the order between the nodes, and no new edges. *)
Record kept (bs : list NodeDefBuilder) : Prop := {
  k_wf : wf bs;
  k_length : length bs = length bs0;
  k_sub : ∀ j k i, edge bs j k i → edge bs0 j k i;
  k_before : ∀ j k i, before bs0 k j i → before bs k j i;
}.

Lemma kept_path bs j i : kept bs → path bs0 j i ↔ path bs j i.
Proof.
  intros Hk. split.
  - intros P. apply before_path with kScheduling. by apply (k_before _ Hk), path_before.
  - induction 1 as [j i [k E] | j m i [k E] _ IH].
    + apply tc_once. exists k. by apply (k_sub _ Hk).
    + eapply tc_l; [| done]. exists k. by apply (k_sub _ Hk).
Qed.

Record searching (bs : list NodeDefBuilder) (s x : nat) (kx : EdgeKind) (P : list nat) (st : DfsState) : Prop := {
  s_kept : kept bs;
  s_length : length (visited_ st) = length bs;
  s_stack : ∀ e, e ∈ stack_ st → seen st (id e) ∧ path bs x (id e);
  s_out : before bs kx s x;
  s_reach : ∀ v, seen st v → path bs s v;
  s_closed : ∀ v, seen st v → v ∈ (id <$> stack_ st) ∨ ∀ w, linked bs v w → seen st w;
  s_exec : all_exec → kx = kExecution ∧ num_scheduling_edges_ st = 0 ∧ Forall (λ e, kind e = kExecution) (stack_ st) ∧
    ∀ v, seen st v → v ∈ P ∨ v ∈ (id <$> stack_ st) ∨ ¬ linked bs s v;
}.

(** What changes in the builders besides the edges. *)
Definition same_nodes (s : nat) (bs bs' : list NodeDefBuilder) : Prop :=
  ∀ m b', bs' !! m = Some b' → ∃ b, bs !! m = Some b ∧ priority b' = priority b ∧ (m ≠ s → out_edges b' = out_edges b).

Definition fewer (bs bs' : list NodeDefBuilder) : Prop := ∀ j k i, edge bs' j k i → edge bs j k i.

Lemma same_nodes_trans s bs1 bs2 bs3 : same_nodes s bs1 bs2 → same_nodes s bs2 bs3 → same_nodes s bs1 bs3.
Proof.
  intros H1 H2 m b3 Hb3. destruct (H2 _ _ Hb3) as (b2 & Hb2 & P2 & O2). destruct (H1 _ _ Hb2) as (b1 & Hb1 & P1 & O1).
  exists b1. split; [done |]. split; [congruence |]. intros Ne. rewrite O2, O1; done.
Qed.

Lemma same_nodes_refl s bs : same_nodes s bs bs.
Proof. intros m b Hb. by exists b. Qed.

Lemma erased_kept bs s t x from to k0 kx :
  kept bs → bs !! s = Some from → bs !! t = Some to → edge bs s k0 t →
  before bs kx s x → path bs x t → kind_gt k0 kx = false → kept (erased bs s t from to).
Proof.
  intros Hk Hs Ht He Hx Hp Hkx. pose proof (k_wf _ Hk) as Hw. pose proof (wf_up _ Hw _ _ _ He) as Hst.
  pose proof (λ j k i, erased_edge bs s t from to Hs Ht ltac:(lia) j k i) as Hed.
  constructor.
  - by apply erased_wf; [.. | lia].
  - by rewrite length_erased, (k_length _ Hk).
  - intros j k i [E _]%Hed. by apply (k_sub _ Hk).
  - intros j k i Hb%(k_before _ Hk). eapply (before_less bs _ s t x k0 kx); eauto.
Qed.

(** One edge popped: erased from the source or not, and its target's edges pushed. *)
Lemma erase_step bs s x kx P st e rest :
  searching bs s x kx P st → stack_ st = e :: rest →
  ∃ from to n from' to', bs !! s = Some from ∧ bs !! id e = Some to ∧
    let st1 := MkDfs rest (visited_ (count_edge (-1) e st)) (num_execution_edges_ (count_edge (-1) e st)) (num_scheduling_edges_ (count_edge (-1) e st)) in
    let k := if bool_decide (kx = kScheduling) || bool_decide (kind e = kScheduling) ||
      negb (num_scheduling_edges_ st1 =? 0) then kScheduling else kExecution in
    EraseEdge from to k = Ok (n, from', to') ∧
    let bs' := <[id e := to']> (<[s := from']> bs) in
    kept bs' ∧ fewer bs bs' ∧ same_nodes s bs bs' ∧ out_edges to' = out_edges to ∧
    (∀ i j, path bs i j → path bs' i j) ∧ before bs' kx s x ∧ (all_exec → ¬ linked bs' s (id e)).
Proof.
  intros Hd Est. pose proof (s_kept _ _ _ _ _ _ Hd) as Hk. pose proof (k_wf _ Hk) as Hw.
  destruct (s_stack _ _ _ _ _ _ Hd e) as [_ Hp]; [rewrite Est; by left |].
  pose proof (s_out _ _ _ _ _ _ Hd) as Ho.
  pose proof (path_lt _ _ _ Hw Hp) as L1. pose proof (path_lt _ _ _ Hw (before_path _ _ _ _ Ho)) as L2.
  destruct (lookup_lt_is_Some_2 bs s) as [from Hs]; [lia |]. destruct (lookup_lt_is_Some_2 bs (id e)) as [to Ht]; [lia |].
  cbn zeta. set (k := if _ : bool then kScheduling else kExecution).
  assert (Hkx : kind_gt k kx = false).
  { unfold k. destruct (bool_decide (kx = kScheduling)) eqn:E; cbn [orb]; [done |].
    apply bool_decide_eq_false in E. by destruct kx; [| destruct (if _ : bool then _ else _)]. }
  assert (Hexec : all_exec → k = kExecution).
  { intros Ha. destruct (s_exec _ _ _ _ _ _ Hd Ha) as (-> & N0 & Hst & _). rewrite Est in Hst. apply Forall_cons in Hst as [Ke _].
    unfold k, count_edge. rewrite Ke. cbn [num_scheduling_edges_]. by rewrite N0. }
  exists from, to. destruct (EraseEdge_spec bs s (id e) from to k Hw Hs Ht) as [[-> Hno] | (k0 & Hed & Hg & ->)].
  - exists 0, from, to. split; [done |]. split; [done |]. split; [done |].
    rewrite (list_insert_id bs s) by done. rewrite list_insert_id by done.
    split; [done |]. split; [by intros ? ? ? |]. split; [apply same_nodes_refl |]. split; [done |]. split; [done |]. split; [done |].
    intros Ha [k1 E]. specialize (Hno _ E). rewrite (Hexec Ha) in Hno. by destruct k1.
  - exists 1, (remove_out (id e) from), (remove_in s to). split; [done |]. split; [done |]. split; [done |].
    change (<[id e := remove_in s to]> (<[s := remove_out (id e) from]> bs)) with (erased bs s (id e) from to).
    assert (H0 : kind_gt k0 kx = false) by (destruct k0, k, kx; done).
    pose proof (λ j k i, erased_edge bs s (id e) from to Hs Ht ltac:(lia) j k i) as Hed'.
    split; [by eapply erased_kept |]. split; [by intros j k1 i [E _]%Hed' |].
    split; [| split; [done |]; split; [| split]].
    + intros m b' Hb'. destruct (erased_inv _ _ _ _ _ _ _ Hb') as [b Hb].
      destruct (erased_out bs s (id e) from to Hs Ht ltac:(lia) m b Hb) as (b'' & E & _ & Ep & Eo & _).
      simplify_eq. exists b. split; [done |]. split; [done |]. intros Ne. by rewrite decide_False in Eo.
    + intros i j Pij. eapply (path_less bs _ s (id e) x k0 kx); eauto.
    + eapply (before_less bs _ s (id e) x k0 kx); eauto.
    + intros _ [k1 [_ N]%Hed']. by apply N.
Qed.
End Reduce.
End ExecReduce.

(** ** The loops of the transitive reduction

    Every loop ends within its fuel and keeps what the search needs. *)
Module ExecLoops.
Import ExecGraph ExecBuild ExecPaths ExecReduce.

Section Reduce.
Context (bs0 : list NodeDefBuilder).

Lemma linked_out bs m b w : bs !! m = Some b → linked bs m w ↔ w ∈ (id <$> out_edges b).
Proof.
  intros Hb. rewrite list_elem_of_fmap. split.
  - intros (k & b' & Hb' & He). simplify_eq. by exists (MkEdge k w).
  - intros ([k w'] & -> & He). exists k, b. done.
Qed.

Lemma linked_fewer bs bs' m w : fewer bs bs' → linked bs' m w → linked bs m w.
Proof. intros Hf [k E]. exists k. by apply Hf. Qed.

Lemma path_fewer bs bs' m w : fewer bs bs' → path bs' m w → path bs m w.
Proof.
  intros Hf. induction 1 as [j i E%(linked_fewer bs) | j m i E%(linked_fewer bs) _ IH]; [by apply tc_once | done | | done].
  by eapply tc_l.
Qed.

Lemma out_ids_lt bs m b : wf bs → bs !! m = Some b → Forall (λ e, (id e < length bs)%nat) (out_edges b).
Proof.
  intros Hw Hb. rewrite Forall_forall. intros [k w] He. by apply (wf_up _ Hw m k w); exists b.
Qed.

Lemma out_exec bs m b : all_exec bs0 → kept bs0 bs → bs !! m = Some b → Forall (λ e, kind e = kExecution) (out_edges b).
Proof.
  intros Ha Hk Hb. rewrite Forall_forall. intros [k w] He. apply (Ha m k w). apply (k_sub _ _ Hk). by exists b.
Qed.

(** The nodes seen after a node's edges are pushed. *)
Lemma pushed_searching bs bs' s x kx P st st1 st2 e m b :
  searching bs0 bs s x kx P st → stack_ st = e :: stack_ st1 → visited_ st1 = visited_ st →
  (all_exec bs0 → num_scheduling_edges_ st1 = 0) →
  m = id e → kept bs0 bs' → fewer bs bs' → bs' !! m = Some b →
  (∀ i j, path bs i j → path bs' i j) → before bs' kx s x → (all_exec bs0 → ¬ linked bs' s m) →
  PushAllToStack (out_edges b) st1 = Ok st2 →
  searching bs0 bs' s x kx P st2 ∧ (length (stack_ st2) + unseen st2 = length (stack_ st1) + unseen st)%nat ∧
  ∀ v, seen st v → seen st2 v.
Proof.
  intros Hd Est Ev Hn -> Hk Hf Hb Hpath Hbef Hex Epush.
  destruct (PushAllToStack_spec (out_edges b) st1) as (st2' & E2 & L2 & V2 & U2 & S2 & M2 & N2 & C2).
  { rewrite Ev, (s_length _ _ _ _ _ _ _ Hd), (k_length _ _ (s_kept _ _ _ _ _ _ _ Hd)), <- (k_length _ _ Hk).
    by apply (out_ids_lt _ (id e)); [apply Hk |]. }
  rewrite Epush in E2. injection E2 as <-.
  assert (Hs1 : ∀ v, seen st1 v ↔ seen st v) by (intros v; unfold seen; by rewrite Ev).
  assert (Hu1 : unseen st1 = unseen st) by (unfold unseen; by rewrite Ev).
  assert (Hlink : ∀ w, w ∈ (id <$> out_edges b) ↔ linked bs' (id e) w) by (intros w; by rewrite linked_out).
  destruct (s_stack _ _ _ _ _ _ _ Hd e) as [Hse Hpe]; [rewrite Est; by left |].
  split; [| split; [by rewrite U2, Hu1 | intros v Hv; apply V2; left; by apply Hs1]].
  constructor.
  - done.
  - rewrite L2, Ev, (s_length _ _ _ _ _ _ _ Hd), (k_length _ _ (s_kept _ _ _ _ _ _ _ Hd)). by rewrite (k_length _ _ Hk).
  - intros e' [He' | He']%S2.
    + destruct (s_stack _ _ _ _ _ _ _ Hd e') as [Hse' Hpe']; [rewrite Est; by right |].
      split; [apply V2; left; by apply Hs1 | by apply Hpath].
    + assert (Hin : id e' ∈ (id <$> out_edges b)) by by apply list_elem_of_fmap_2.
      split; [apply V2; by right |]. eapply tc_r; [by apply Hpath | by apply Hlink].
  - done.
  - intros v [Hv%Hs1 | Hv]%V2; [by apply Hpath, (s_reach _ _ _ _ _ _ _ Hd) |].
    apply (tc_transitive _ (id e)); [| apply tc_once; by apply Hlink].
    apply (tc_transitive _ x); [by apply before_path with kx | by apply Hpath].
  - intros v [Hv%Hs1 | Hv]%V2.
    + destruct (s_closed _ _ _ _ _ _ _ Hd v Hv) as [Hst | Hc].
      * rewrite Est in Hst. cbn [fmap list_fmap] in Hst. apply elem_of_cons in Hst as [-> | Hst].
        -- right. intros w Hw. apply V2. right. by apply Hlink.
        -- left. by apply M2.
      * right. intros w Hw%(linked_fewer bs); [| done]. apply V2. left. apply Hs1. by apply Hc.
    + destruct (N2 v Hv) as [Hst | Hs%Hs1]; [by left |].
      destruct (s_closed _ _ _ _ _ _ _ Hd v Hs) as [Hst | Hc].
      * rewrite Est in Hst. cbn [fmap list_fmap] in Hst. apply elem_of_cons in Hst as [-> | Hst].
        -- right. intros w Hw. apply V2. right. by apply Hlink.
        -- left. by apply M2.
      * right. intros w Hw%(linked_fewer bs); [| done]. apply V2. left. apply Hs1. by apply Hc.
  - intros Ha. destruct (s_exec _ _ _ _ _ _ _ Hd Ha) as (Ekx & N0 & Hst & Hv0). split; [done |].
    pose proof (out_exec _ _ _ Ha Hk Hb) as Hkinds. split; [rewrite C2 by done; by apply Hn |]. split.
    + rewrite Est in Hst. apply Forall_cons in Hst as [_ Hst]. rewrite Forall_forall in *. intros e' [He' | He']%S2; auto.
    + assert (Hold : ∀ v, seen st v → v ∈ P ∨ v ∈ (id <$> stack_ st2) ∨ ¬ linked bs' s v).
      { intros v Hv. destruct (Hv0 v Hv) as [HP | [Hs | Hl]]; [by left | | right; right].
        - rewrite Est in Hs. cbn [fmap list_fmap] in Hs. apply elem_of_cons in Hs as [-> | Hs]; right; [right; by apply Hex | left; by apply M2].
        - intros Hl'. apply Hl. by apply (linked_fewer bs bs'). }
      intros v [Hv%Hs1 | Hv]%V2; [by apply Hold |].
      destruct (N2 v Hv) as [Hs | Hs%Hs1]; [right; by left | by apply Hold].
Qed.

Lemma reduce_loop_spec fuel bs s x kx P st er :
  searching bs0 bs s x kx P st → (length (stack_ st) + unseen st < fuel)%nat →
  ∃ bs' st' er', reduce_loop fuel s kx bs st er = Ok (bs', st', er') ∧ stack_ st' = [] ∧
    searching bs0 bs' s x kx P st' ∧ fewer bs bs' ∧ same_nodes s bs bs' ∧ (∀ v, seen st v → seen st' v).
Proof.
  revert bs st er. induction fuel as [| fuel IH]; intros bs st er Hd Hfuel; [lia |]. cbn [reduce_loop]. unfold DfsEmpty.
  destruct (stack_ st) as [| e rest] eqn:Est.
  { rewrite bool_decide_true by done. exists bs, st, er. split; [done |]. split; [done |]. split; [done |].
    split; [by intros ? ? ? |]. split; [apply same_nodes_refl | done]. }
  rewrite bool_decide_false by done. unfold PopFromStack. rewrite Est. cbn [mbind res_bind].
  destruct (erase_step bs0 bs s x kx P st e rest Hd Est) as (from & to & n & from' & to' & Hs & Ht & He).
  cbn zeta in He. destruct He as (Ee & Hk & Hf & Hsame & Eo & Hpath & Hbef & Hex).
  set (st1 := MkDfs rest _ _ _) in *. unfold at_res. rewrite Hs, Ht. cbn [mbind res_bind].
  rewrite Ee. cbn [mbind res_bind]. set (bs' := <[id e := to']> (<[s := from']> bs)) in *.
  assert (Ht' : bs' !! id e = Some to').
  { unfold bs'. rewrite list_lookup_insert_eq; [done |]. rewrite length_insert. by eapply lookup_lt_Some. }
  assert (Hev : visited_ st1 = visited_ st) by (cbn; unfold count_edge; by destruct (kind e)).
  assert (Hn1 : all_exec bs0 → num_scheduling_edges_ st1 = 0).
  { intros Ha. destruct (s_exec _ _ _ _ _ _ _ Hd Ha) as (_ & N0 & Hst & _). rewrite Est in Hst.
    apply Forall_cons in Hst as [Ke _]. cbn. unfold count_edge. by rewrite Ke. }
  destruct (PushAllToStack_spec (out_edges to') st1) as (st2 & E2 & _).
  { rewrite Hev, (s_length _ _ _ _ _ _ _ Hd), (k_length _ _ (s_kept _ _ _ _ _ _ _ Hd)), <- (k_length _ _ Hk).
    by apply (out_ids_lt _ (id e)); [apply Hk |]. }
  rewrite E2. cbn [mbind res_bind].
  destruct (pushed_searching bs bs' s x kx P st st1 st2 e (id e) to') as (Hd2 & U2 & Hmono); try done.
  cbn [length] in Hfuel. cbn [stack_ st1] in U2.
  destruct (IH bs' st2 (er + n) Hd2 ltac:(lia)) as (bs3 & st3 & er3 & E3 & Est3 & Hd3 & Hf3 & Hs3 & Hm3).
  exists bs3, st3, er3. split; [done |]. split; [done |]. split; [done |].
  split; [by intros j k i E%Hf3%Hf |]. split; [by eapply same_nodes_trans |]. intros v Hv. by apply Hm3, Hmono.
Qed.

(** ** All out edges of a node *)

Record round (bs : list NodeDefBuilder) (s : nat) (P : list nat) (st : DfsState) : Prop := {
  r_kept : kept bs0 bs;
  r_length : length (visited_ st) = length bs;
  r_stack : stack_ st = [];
  r_reach : ∀ v, seen st v → path bs s v;
  r_closed : ∀ v w, seen st v → linked bs v w → seen st w;
  r_past : ∀ x, x ∈ P → seen st x;
  r_exec : all_exec bs0 → num_scheduling_edges_ st = 0 ∧ ∀ v, seen st v → v ∈ P ∨ ¬ linked bs s v;
  r_minimal : all_exec bs0 → ∀ x t, x ∈ P → path bs x t → ¬ linked bs s t;
}.

Lemma closed_path bs st x t :
  (∀ v w, seen st v → linked bs v w → seen st w) → seen st x → path bs x t → seen st t.
Proof. intros Hc Hx. induction 1 as [x t L | x m t L _ IH]; [by eapply Hc | apply IH; by eapply Hc]. Qed.

(** A round begins. *)
Lemma start_searching bs s P st e :
  round bs s P st → before bs (kind e) s (id e) → (all_exec bs0 → kind e = kExecution) →
  ∃ b st1 st2, bs !! id e = Some b ∧ Visited (id e) st = Ok st1 ∧ PushAllToStack (out_edges b) st1 = Ok st2 ∧
    searching bs0 bs s (id e) (kind e) (P ++ [id e]) st2 ∧
    (length (stack_ st2) + unseen st2 < S (length bs))%nat ∧ (∀ v, seen st v ∨ v = id e → seen st2 v).
Proof.
  intros Hr Hb Hkind. pose proof (r_kept _ _ _ _ Hr) as Hk. pose proof (k_wf _ _ Hk) as Hw.
  pose proof (path_lt _ _ _ Hw (before_path _ _ _ _ Hb)) as L. destruct (lookup_lt_is_Some_2 bs (id e)) as [b Hbe]; [lia |].
  set (st1 := MkDfs (stack_ st) (<[id e := true]> (visited_ st)) (num_execution_edges_ st) (num_scheduling_edges_ st)).
  assert (E1 : Visited (id e) st = Ok st1).
  { unfold Visited, upd_res, at_res. destruct (lookup_lt_is_Some_2 (visited_ st) (id e)) as [v ->]; [| done].
    rewrite (r_length _ _ _ _ Hr). lia. }
  assert (Hs1 : ∀ v, seen st1 v ↔ seen st v ∨ v = id e).
  { intros v. unfold seen, st1. cbn [visited_]. destruct (decide (v = id e)) as [-> | Ne].
    - rewrite list_lookup_insert_eq by (rewrite (r_length _ _ _ _ Hr); lia). split; [by right | done].
    - rewrite list_lookup_insert_ne by done. split; [by left | by intros [? | ->]]. }
  destruct (PushAllToStack_spec (out_edges b) st1) as (st2 & E2 & L2 & V2 & U2 & S2 & M2 & N2 & C2).
  { cbn [st1 visited_]. rewrite length_insert, (r_length _ _ _ _ Hr). by eapply out_ids_lt. }
  assert (Hlink : ∀ w, w ∈ (id <$> out_edges b) ↔ linked bs (id e) w) by (intros w; by rewrite linked_out).
  exists b, st1, st2. split; [done |]. split; [done |]. split; [done |]. split; [| split].
  - constructor.
    + done.
    + rewrite L2. cbn. by rewrite length_insert, (r_length _ _ _ _ Hr).
    + intros e' [He' | He']%S2; [cbn in He'; rewrite (r_stack _ _ _ _ Hr) in He'; by apply elem_of_nil in He' |].
      assert (Hin : id e' ∈ (id <$> out_edges b)) by by apply list_elem_of_fmap_2.
      split; [apply V2; by right | apply tc_once; by apply Hlink].
    + done.
    + intros v [[Hv | ->]%Hs1 | Hv]%V2; [by apply (r_reach _ _ _ _ Hr) | by apply before_path with (kind e) |].
      eapply tc_r; [by apply before_path with (kind e) | by apply Hlink].
    + intros v Hv. destruct (decide (seen st1 v)) as [[Hv1 | ->]%Hs1 | Hn].
      * right. intros w Hw'. apply V2. left. apply Hs1. left. by eapply (r_closed _ _ _ _ Hr).
      * right. intros w Hw'. apply V2. right. by apply Hlink.
      * apply V2 in Hv as [Hv | Hv]; [done |]. left. by destruct (N2 v Hv).
    + intros Ha. destruct (r_exec _ _ _ _ Hr Ha) as [N0 Hv0]. split; [by apply Hkind |].
      pose proof (out_exec _ _ _ Ha Hk Hbe) as Hkinds. split; [by rewrite C2 |]. split.
      * rewrite Forall_forall in Hkinds |- *. intros e' [He' | He']%S2; [| by apply Hkinds].
        cbn in He'. rewrite (r_stack _ _ _ _ Hr) in He'. by apply elem_of_nil in He'.
      * intros v Hv. destruct (decide (seen st1 v)) as [[Hv1 | ->]%Hs1 | Hn].
        -- destruct (Hv0 v Hv1); [left; apply elem_of_app; by left | by right; right].
        -- left. apply elem_of_app. right. by left.
        -- apply V2 in Hv as [Hv | Hv]; [done |]. right. left. by destruct (N2 v Hv).
  - rewrite U2. cbn [st1 stack_]. rewrite (r_stack _ _ _ _ Hr). unfold unseen, st1. cbn [visited_ length].
    pose proof (count_occ_bound bool_dec false (<[id e := true]> (visited_ st))) as Hc.
    rewrite length_insert, (r_length _ _ _ _ Hr) in Hc. lia.
  - intros v Hv. apply V2. left. by apply Hs1.
Qed.

Lemma end_round bs bs' s P st st' e :
  round bs s P st → (∀ x, x ∈ P → (x < id e)%nat) → fewer bs bs' →
  searching bs0 bs' s (id e) (kind e) (P ++ [id e]) st' → stack_ st' = [] →
  (∀ v, seen st v ∨ v = id e → seen st' v) →
  round bs' s (P ++ [id e]) st'.
Proof.
  intros Hr HP Hf Hd Est Hmono. pose proof (s_kept _ _ _ _ _ _ _ Hd) as Hk.
  assert (Hc : ∀ v w, seen st' v → linked bs' v w → seen st' w).
  { intros v w Hv Hl. destruct (s_closed _ _ _ _ _ _ _ Hd v Hv) as [Hs | Hs]; [| by apply Hs].
    rewrite Est in Hs. by apply elem_of_nil in Hs. }
  assert (Hex : all_exec bs0 → num_scheduling_edges_ st' = 0 ∧ ∀ v, seen st' v → v ∈ P ++ [id e] ∨ ¬ linked bs' s v).
  { intros Ha. destruct (s_exec _ _ _ _ _ _ _ Hd Ha) as (_ & N0 & _ & Hv). split; [done |].
    intros v [? | [Hs | ?]]%Hv; [by left | | by right]. rewrite Est in Hs. by apply elem_of_nil in Hs. }
  constructor; try done.
  - apply Hd.
  - apply Hd.
  - intros x [Hx | ->%list_elem_of_singleton]%elem_of_app; apply Hmono; [left; by apply (r_past _ _ _ _ Hr) | by right].
  - intros Ha x t [Hx | ->%list_elem_of_singleton]%elem_of_app Hp.
    + intros Hl. apply (r_minimal _ _ _ _ Hr Ha x t); [done | by eapply path_fewer | by eapply linked_fewer].
    + destruct (Hex Ha) as [_ Hv]. destruct (Hv t) as [Ht | Ht]; [| | done].
      * eapply closed_path; [exact Hc | | exact Hp]. apply Hmono. by right.
      * exfalso. apply (path_lt _ _ _ (k_wf _ _ Hk)) in Hp. apply elem_of_app in Ht as [Ht%HP | ->%list_elem_of_singleton]; lia.
Qed.

Lemma reduce_edges_spec es bs s P st er :
  round bs s P st → Forall (λ e, before bs (kind e) s (id e)) es → StronglySorted lt (id <$> es) →
  (∀ x e, x ∈ P → e ∈ es → (x < id e)%nat) → (all_exec bs0 → Forall (λ e, kind e = kExecution) es) →
  ∃ bs' st' er', reduce_edges s es bs st er = Ok (bs', st', er') ∧ round bs' s (P ++ (id <$> es)) st' ∧
    fewer bs bs' ∧ same_nodes s bs bs'.
Proof.
  revert bs P st er. induction es as [| e es IH]; intros bs P st er Hr Hb Hs HP Hkinds.
  { exists bs, st, er. cbn. rewrite app_nil_r. split; [done |]. split; [done |]. split; [by intros ? ? ? | apply same_nodes_refl]. }
  apply Forall_cons in Hb as [Hbe Hb]. cbn [fmap list_fmap] in Hs. inversion Hs as [| ? ? Hs' Hlt]; subst.
  assert (Hke : all_exec bs0 → kind e = kExecution ∧ Forall (λ e, kind e = kExecution) es).
  { intros Ha. pose proof (Hkinds Ha) as HF. by inversion HF. }
  destruct (start_searching bs s P st e Hr Hbe (λ Ha, proj1 (Hke Ha))) as (b & st1 & st2 & Eb & E1 & E2 & Hd & Hfuel & Hmono).
  cbn [reduce_edges]. unfold at_res. rewrite Eb. cbn [mbind res_bind]. rewrite E1. cbn [mbind res_bind].
  rewrite E2. cbn [mbind res_bind].
  destruct (reduce_loop_spec _ _ _ _ _ _ _ er Hd Hfuel) as (bs3 & st3 & er3 & -> & Est3 & Hd3 & Hf3 & Hs3 & Hm3).
  cbn [mbind res_bind].
  assert (Hr3 : round bs3 s (P ++ [id e]) st3).
  { eapply (end_round bs); try done; [intros x Hx; apply HP; [done | by left] | intros v Hv; by apply Hm3, Hmono]. }
  destruct (IH bs3 (P ++ [id e]) st3 er3 Hr3) as (bs4 & st4 & er4 & E4 & Hr4 & Hf4 & Hs4).
  - eapply Forall_impl; [exact Hb |]. intros e' He'. cbn beta in *.
    apply (k_before _ _ (r_kept _ _ _ _ Hr3)).
    destruct He' as (k' & m & E & Hk' & Hp). exists k', m. split; [by apply (k_sub _ _ (r_kept _ _ _ _ Hr)) |]. split; [done |].
    destruct Hp as [-> | Hp]; [by left | right]. by apply (kept_path _ _ _ _ (r_kept _ _ _ _ Hr)).
  - done.
  - intros x e' Hx He'. apply elem_of_app in Hx as [Hx | ->%list_elem_of_singleton]; [apply HP; [done | by right] |].
    rewrite Forall_forall in Hlt. apply Hlt. by apply list_elem_of_fmap_2.
  - intros Ha. by apply Hke.
  - exists bs4, st4, er4. split; [done |]. cbn [fmap list_fmap]. rewrite <- app_assoc in Hr4. split; [done |].
    split; [by intros j k i E%Hf4%Hf3 | by eapply same_nodes_trans].
Qed.
End Reduce.
End ExecLoops.
