(* ===== verification/ExecCreate.v ===== *)
(** * The constructed graph

    What [Create] makes of valid operations: the reduced builders, with every edge and
    priority where the graph's readers find it. *)
From stdpp Require Import relations.
From S2P Require Import Prelude ExecGraph ExecBuild ExecReduce.
#[local] Open Scope Z_scope.

Module ExecCreate.
Import ExecGraph ExecDeps ExecBuild ExecPaths ExecReduce ExecLoops.

(** ** All nodes *)

Definition with_priority (p : Z) (b : NodeDefBuilder) : NodeDefBuilder :=
  MkBuilder (node_id b) p (in_edges b) (out_edges b).

Lemma priority_lookup (bs : list NodeDefBuilder) i b p m :
  bs !! i = Some b →
  <[i := with_priority p b]> bs !! m = if decide (m = i) then Some (with_priority p b) else bs !! m.
Proof.
  intros Hb. destruct (decide (m = i)) as [-> |].
  - rewrite list_lookup_insert_eq; [done | by eapply lookup_lt_Some].
  - by rewrite list_lookup_insert_ne.
Qed.

Lemma priority_edge (bs : list NodeDefBuilder) i b p j k m :
  bs !! i = Some b → edge (<[i := with_priority p b]> bs) j k m ↔ edge bs j k m.
Proof.
  intros Hb. unfold edge. rewrite (priority_lookup _ _ _ _ _ Hb). destruct (decide (j = i)) as [-> |]; [| done].
  split; intros (b' & E & He); simplify_eq; eexists; (split; [done |]); exact He.
Qed.

Lemma before_ext bs bs' k j i :
  (∀ j k i, edge bs j k i → edge bs' j k i) → before bs k j i → before bs' k j i.
Proof.
  intros H (k' & m & E & Hk & P). exists k', m. split; [by apply H |]. split; [done |].
  destruct P as [-> | P]; [by left | right]. eapply path_fewer; [| exact P]. intros ? ? ?. apply H.
Qed.

Section Reduce.
Context (bs0 : list NodeDefBuilder).

Lemma priority_kept bs i b p :
  kept bs0 bs → bs !! i = Some b → kept bs0 (<[i := with_priority p b]> bs).
Proof.
  intros Hk Hb. pose proof (k_wf _ _ Hk) as Hw.
  assert (Hsame : ∀ m b', <[i := with_priority p b]> bs !! m = Some b' → ∃ b1, bs !! m = Some b1 ∧
    node_id b' = node_id b1 ∧ in_edges b' = in_edges b1 ∧ out_edges b' = out_edges b1).
  { intros m b' Hm. rewrite (priority_lookup _ _ _ _ _ Hb) in Hm. destruct (decide (m = i)) as [-> |]; [| by exists b'].
    injection Hm as <-. by exists b. }
  constructor.
  - constructor.
    + intros m b' (b1 & Hb1 & -> & _)%Hsame. by apply (wf_id _ Hw).
    + intros m b' (b1 & Hb1 & _ & _ & ->)%Hsame. by apply (wf_out _ Hw m).
    + intros m b' (b1 & Hb1 & _ & -> & _)%Hsame. by apply (wf_in _ Hw m).
    + intros j k m E. apply priority_edge in E; [| done]. rewrite length_insert. by eapply wf_up.
    + intros j k m b' (b1 & Hb1 & _ & -> & _)%Hsame. rewrite priority_edge by done. by apply (wf_match _ Hw).
  - rewrite length_insert. apply Hk.
  - intros j k m E. apply (k_sub _ _ Hk). by apply priority_edge in E.
  - intros j k m B%(k_before _ _ Hk). eapply before_ext; [| exact B]. intros j' k' m' E. by apply priority_edge.
Qed.

(** The number of the nodes that can be reached. *)
Definition counts (m : nat) (p : Z) : Prop :=
  ∃ R, NoDup R ∧ (∀ v, v ∈ R ↔ path bs0 m v) ∧ p = Z.of_nat (length R).

Definition minimal_at (bs : list NodeDefBuilder) (m : nat) : Prop :=
  ∀ x t, linked bs m x → path bs x t → ¬ linked bs m t.

Definition reduced_from (bs : list NodeDefBuilder) (i : nat) : Prop :=
  ∀ m b, (i ≤ m)%nat → bs !! m = Some b → counts m (priority b) ∧ (all_exec bs0 → minimal_at bs m).

Lemma round_done bs bs' s b st :
  round bs0 bs' s ([] ++ (id <$> out_edges b)) st → fewer bs bs' → bs !! s = Some b →
  counts s (NumVisited st) ∧ (all_exec bs0 → minimal_at bs' s).
Proof.
  intros Hr Hf Hb. cbn [app] in Hr. pose proof (r_kept _ _ _ _ _ Hr) as Hk.
  assert (Hout : ∀ w, linked bs' s w → w ∈ (id <$> out_edges b)).
  { intros w Hw%(linked_fewer bs); [| done]. by rewrite linked_out in Hw. }
  split.
  - destruct (NumVisited_spec st) as (R & Hn & HR & E). exists R. split; [done |]. split; [| done].
    intros v. rewrite HR, (kept_path _ _ _ _ Hk). split; [by apply (r_reach _ _ _ _ _ Hr) |].
    intros P. remember s as s' eqn:Es in P. destruct P as [s' v L | s' w v L P]; subst s'; apply Hout in L.
    + by apply (r_past _ _ _ _ _ Hr).
    + eapply closed_path; [apply (r_closed _ _ _ _ _ Hr) | by apply (r_past _ _ _ _ _ Hr) | exact P].
  - intros Ha x t L%Hout P. by apply (r_minimal _ _ _ _ _ Hr Ha x).
Qed.

Lemma fresh_round bs s st :
  kept bs0 bs → (all_exec bs0 → num_scheduling_edges_ st = 0) → round bs0 bs s [] (Clear (length bs) st).
Proof.
  intros Hk Hn.
  assert (Hno : ∀ v, ¬ seen (Clear (length bs) st) v).
  { intros v H. unfold seen, Clear in H. cbn in H. apply lookup_replicate in H. by destruct H. }
  constructor; try done.
  - cbn. by rewrite length_replicate.
  - by intros v ?%Hno.
  - by intros v w ?%Hno.
  - by intros x ?%elem_of_nil.
  - intros Ha. split; [by apply Hn |]. by intros v ?%Hno.
  - by intros Ha x t ?%elem_of_nil.
Qed.

Lemma reduce_nodes_spec n bs st er :
  (n ≤ length bs)%nat → kept bs0 bs → reduced_from bs n → (all_exec bs0 → num_scheduling_edges_ st = 0) →
  ∃ bs' er', reduce_nodes n bs st er = Ok (bs', er') ∧ kept bs0 bs' ∧ reduced_from bs' 0.
Proof.
  revert bs st er. induction n as [| s IH]; intros bs st er Hn Hk Hred Hz; [by exists bs, er |].
  destruct (lookup_lt_is_Some_2 bs s) as [b Hb]; [lia |]. cbn [reduce_nodes]. unfold at_res. rewrite Hb. cbn [mbind res_bind].
  pose proof (k_wf _ _ Hk) as Hw.
  destruct (reduce_edges_spec bs0 (out_edges b) bs s [] (Clear (length bs) st) er) as (bs1 & st1 & er1 & E1 & Hr & Hf & Hsame).
  - by apply fresh_round.
  - rewrite Forall_forall. intros [k w] He. apply edge_before. by exists b.
  - by apply (wf_out _ Hw s).
  - by intros x e ?%elem_of_nil.
  - intros Ha. by apply (out_exec bs0 bs s).
  - rewrite E1. cbn [mbind res_bind]. pose proof (r_kept _ _ _ _ _ Hr) as Hk1.
    assert (Ln : length bs1 = length bs) by by rewrite (k_length _ _ Hk1), (k_length _ _ Hk).
    destruct (lookup_lt_is_Some_2 bs1 s) as [b1 Hb1]; [lia |]. unfold upd_res, at_res. rewrite Hb1. cbn [mbind res_bind].
    change (MkBuilder (node_id b1) (NumVisited st1) (in_edges b1) (out_edges b1)) with (with_priority (NumVisited st1) b1).
    apply IH.
    + rewrite length_insert. lia.
    + by apply priority_kept.
    + assert (Hmin : ∀ m bs2, (∀ j k i, edge bs2 j k i → edge bs1 j k i) → minimal_at bs1 m →
        minimal_at bs2 m).
      { intros m bs2 H2 Hm x t L P L'. apply (Hm x t); [by eapply linked_fewer | by eapply path_fewer | by eapply linked_fewer]. }
      assert (Hsub : ∀ j k i, edge (<[s := with_priority (NumVisited st1) b1]> bs1) j k i → edge bs1 j k i).
      { intros j k i E. by apply priority_edge in E. }
      destruct (round_done _ _ _ _ _ Hr Hf Hb) as [Hc Hm].
      intros m b' Hm' Hb'. rewrite (priority_lookup _ _ _ _ _ Hb1) in Hb'. destruct (decide (m = s)) as [-> | Ne].
      * injection Hb' as <-. split; [done |]. intros Ha. apply Hmin; [done | by apply Hm].
      * destruct (Hsame m b' Hb') as (b0 & Hb0 & Ep & _). destruct (Hred m b0) as [Hc0 Hm0]; [lia | done |].
        split; [by rewrite Ep |]. intros Ha x t L P L'. apply (Hm0 Ha x t).
        -- eapply linked_fewer; [exact Hf |]. by eapply linked_fewer.
        -- eapply path_fewer; [exact Hf |]. by eapply path_fewer.
        -- eapply linked_fewer; [exact Hf |]. by eapply linked_fewer.
    + intros Ha. by apply (r_exec _ _ _ _ _ Hr Ha).
Qed.
End Reduce.

(** ** The definitions of the nodes *)

Lemma view_span all edges rest : view (all ++ edges ++ rest) (span_of all edges) = edges.
Proof.
  unfold view, span_of. destruct edges as [| e edges]; [done |].
  cbn [start length_]. by rewrite drop_app_length, take_app_length.
Qed.

Lemma CreateNodeDefs_spec bs ins outs defs :
  ∃ ins' outs' defs', CreateNodeDefs bs ins outs defs = (ins ++ ins', outs ++ outs', defs ++ defs') ∧
    length defs' = length bs ∧
    ∀ m b, bs !! m = Some b → ∃ d, defs' !! m = Some d ∧ def_id d = node_id b ∧ def_priority d = priority b ∧
      view (ins ++ ins') (def_in_edges d) = in_edges b ∧ view (outs ++ outs') (def_out_edges d) = out_edges b.
Proof.
  revert ins outs defs. induction bs as [| b bs IH]; intros ins outs defs.
  - exists [], [], []. rewrite !app_nil_r. done.
  - cbn [CreateNodeDefs]. destruct (IH (ins ++ in_edges b) (outs ++ out_edges b)
      (defs ++ [MkNodeDef (node_id b) (span_of ins (in_edges b)) (span_of outs (out_edges b)) (priority b)]))
      as (ins' & outs' & defs' & -> & Hl & Hm).
    eexists (in_edges b ++ ins'), (out_edges b ++ outs'), (_ :: defs'). rewrite <- !app_assoc. split; [done |].
    split; [by cbn; rewrite Hl |]. intros [| m] b' Hb'.
    + injection Hb' as <-. eexists. split; [done |]. cbn. by rewrite !view_span.
    + destruct (Hm m b' Hb') as (d & Hd & H). exists d. split; [done |]. by rewrite <- !app_assoc in H.
Qed.

Lemma positions_elem p i defs m :
  m ∈ positions p i defs ↔ (i ≤ m)%nat ∧ ∃ d, defs !! (m - i)%nat = Some d ∧ p d = true.
Proof.
  revert i. induction defs as [| d defs IH]; intros i; cbn [positions].
  - rewrite elem_of_nil. split; [done | by intros (_ & d & ? & _)].
  - assert (Hc : m ∈ (if p d then i :: positions p (S i) defs else positions p (S i) defs) ↔
      (m = i ∧ p d = true) ∨ m ∈ positions p (S i) defs).
    { destruct (p d); [rewrite elem_of_cons |]; naive_solver. }
    rewrite Hc, IH. split.
    + intros [[-> E] | (Hm & d' & Hd & E)].
      * split; [done |]. exists d. by rewrite Nat.sub_diag.
      * split; [lia |]. exists d'. split; [| done]. by replace (m - i)%nat with (S (m - S i))%nat by lia.
    + intros (Hm & d' & Hd & E). destruct (decide (m = i)) as [-> | Ne].
      * left. rewrite Nat.sub_diag in Hd. injection Hd as ->. done.
      * right. split; [lia |]. exists d'. split; [| done].
        by replace (m - i)%nat with (S (m - S i))%nat in Hd by lia.
Qed.

Lemma positions_once p i defs : NoDup (positions p i defs).
Proof.
  revert i. induction defs as [| d defs IH]; intros i; cbn [positions]; [constructor |].
  destruct (p d); [| apply IH]. apply NoDup_cons. split; [| apply IH]. intros [Hi _]%positions_elem. lia.
Qed.

Lemma sequential_spec ins previous defs :
  sequential ins previous defs = true ↔
  ∀ m d, defs !! m = Some d → ∃ e, e ∈ view ins (def_in_edges d) ∧ id e = (previous + m)%nat.
Proof.
  revert previous. induction defs as [| d defs IH]; intros previous; cbn [sequential].
  - split; [intros _ m d Hd; by rewrite lookup_nil in Hd | done].
  - rewrite andb_true_iff, existsb_elem, IH. split.
    + intros [(e & He & E%Nat.eqb_eq) H] [| m] d' Hd.
      * injection Hd as <-. exists e. split; [done | lia].
      * destruct (H m d' Hd) as (e' & He' & E'). exists e'. split; [done | lia].
    + intros H. split.
      * destruct (H O d eq_refl) as (e & He & E). exists e. split; [done |]. apply Nat.eqb_eq. lia.
      * intros m d' Hd. destruct (H (S m) d' Hd) as (e & He & E). exists e. split; [done | lia].
Qed.

(** The graph shows what the builders hold. *)
Record shows (g : ExecutionGraph) (bs : list NodeDefBuilder) : Prop := {
  g_nodes : ∀ m b, bs !! m = Some b → node_in_edges g m = Ok (in_edges b) ∧
    node_out_edges g m = Ok (out_edges b) ∧ node_priority g m = Ok (priority b);
  g_length : length (nodes_defs_ g) = length bs;
  g_source : ∀ m, m ∈ source_ g ↔ ∃ b, bs !! m = Some b ∧ in_edges b = [];
  g_sink : ∀ m, m ∈ sink_ g ↔ ∃ b, bs !! m = Some b ∧ out_edges b = [];
  g_sequential : is_sequential_ g = true ↔
    ∀ m b, bs !! S m = Some b → ∃ e, e ∈ in_edges b ∧ id e = m;
  g_once : NoDup (source_ g) ∧ NoDup (sink_ g);
}.

Lemma make_graph_shows bs ins outs defs :
  CreateNodeDefs bs [] [] [] = (ins, outs, defs) → shows (make_graph ins outs defs) bs.
Proof.
  intros E. destruct (CreateNodeDefs_spec bs [] [] []) as (ins' & outs' & defs' & E' & Hl & Hm).
  rewrite E in E'. cbn [app] in *. injection E' as -> -> ->.
  assert (Hinv : ∀ m d, defs' !! m = Some d → ∃ b, bs !! m = Some b ∧
    view ins' (def_in_edges d) = in_edges b ∧ view outs' (def_out_edges d) = out_edges b).
  { intros m d Hd. destruct (lookup_lt_is_Some_2 bs m) as [b Hb]; [rewrite <- Hl; by eapply lookup_lt_Some |].
    destruct (Hm m b Hb) as (d' & Hd' & _ & _ & E1 & E2). simplify_eq. by exists b. }
  constructor; cbn [make_graph source_ sink_ is_sequential_ nodes_defs_].
  - intros m b Hb. destruct (Hm m b Hb) as (d & Hd & _ & Ep & E1 & E2).
    unfold node_in_edges, node_out_edges, node_priority, at_res. cbn [make_graph nodes_defs_ nodes_in_edges_ nodes_out_edges_].
    rewrite Hd. cbn. by rewrite E1, E2, Ep.
  - done.
  - intros m. rewrite positions_elem, Nat.sub_0_r. split.
    + intros (_ & d & Hd & Ev%bool_decide_eq_true). destruct (Hinv m d Hd) as (b & Hb & E1 & _). exists b. by rewrite <- E1.
    + intros (b & Hb & Ei). split; [lia |]. destruct (Hm m b Hb) as (d & Hd & _ & _ & E1 & _). exists d.
      split; [done |]. apply bool_decide_eq_true. by rewrite E1.
  - intros m. rewrite positions_elem, Nat.sub_0_r. split.
    + intros (_ & d & Hd & Ev%bool_decide_eq_true). destruct (Hinv m d Hd) as (b & Hb & _ & E2). exists b. by rewrite <- E2.
    + intros (b & Hb & Ei). split; [lia |]. destruct (Hm m b Hb) as (d & Hd & _ & _ & _ & E2). exists d.
      split; [done |]. apply bool_decide_eq_true. by rewrite E2.
  - rewrite sequential_spec. split.
    + intros H m b Hb. destruct (Hm (S m) b Hb) as (d & Hd & _ & _ & E1 & _). rewrite <- E1.
      apply (H m d). by destruct defs'.
    + intros H m d Hd. destruct (Hinv (S m) d) as (b & Hb & E1 & _); [by destruct defs' |].
      rewrite E1. by apply H.
  - split; apply positions_once.
Qed.

(** ** [Create] *)

Lemma Create_spec ops :
  Forall op_ok ops → Z.of_nat (length ops) ≤ max_NodeId →
  let bs0 := stage ops (length ops) (length ops) 0 in
  ∃ g bs, Create ops = Ok g ∧ kept bs0 bs ∧ reduced_from bs0 bs 0 ∧ shows g bs ∧ length bs = length ops.
Proof.
  intros Hops Hl bs0. unfold Create. rewrite (proj2 (Z.leb_le _ _)) by done. cbn [guard_res mbind res_bind].
  rewrite (connect_all_stage ops Hops). cbn [mbind res_bind]. fold bs0.
  assert (Ln : length bs0 = length ops) by (unfold bs0, stage; by rewrite length_fmap, length_seq).
  destruct (reduce_nodes_spec bs0 (length bs0) bs0 (MkDfs [] [] 0 0) 0) as (bs & er & E & Hk & Hr); [done | | | done |].
  - constructor; [apply stage_wf | done | done | done].
  - intros m b Hm Hb. apply lookup_lt_Some in Hb. lia.
  - unfold RunTransitiveReductionAndUpdatePriorities. rewrite E. cbn [mbind res_bind].
    destruct (CreateNodeDefs bs [] [] []) as [[ins outs] defs] eqn:Ed.
    exists (make_graph ins outs defs), bs. split; [done |]. split; [done |]. split; [done |].
    split; [by apply make_graph_shows |]. by rewrite (k_length _ _ Hk).
Qed.

End ExecCreate.
