(* ===== verification/ExecCorrect.v ===== *)
(** * Execution graphs: the properties

    What a constructed graph promises to the runtime that executes it, each with a
    concrete instance. *)
From stdpp Require Import relations.
From S2P Require Import Prelude ExecGraph ExecBuild ExecReduce ExecCreate.
#[local] Open Scope Z_scope.

Module ExecCorrect.
Import ExecGraph ExecDeps ExecBuild ExecPaths ExecReduce ExecLoops ExecCreate.

(** ** The graph as a relation *)

Definition graph_edge (g : ExecutionGraph) (j : nat) (k : EdgeKind) (i : nat) : Prop :=
  ∃ es, node_out_edges g j = Ok es ∧ MkEdge k i ∈ es.

Definition graph_linked (g : ExecutionGraph) (j i : nat) : Prop := ∃ k, graph_edge g j k i.

Lemma graph_edge_iff g bs j k i : shows g bs → graph_edge g j k i ↔ edge bs j k i.
Proof.
  intros Hg. split.
  - intros (es & E & He). destruct (lookup_lt_is_Some_2 bs j) as [b Hb].
    { rewrite <- (g_length _ _ Hg). unfold node_out_edges, at_res in E.
      destruct (nodes_defs_ g !! j) eqn:Ed; [by eapply lookup_lt_Some | done]. }
    destruct (g_nodes _ _ Hg j b Hb) as (_ & Eo & _). exists b. rewrite E in Eo. injection Eo as ->. done.
  - intros (b & Hb & He). destruct (g_nodes _ _ Hg j b Hb) as (_ & Eo & _). by eexists.
Qed.

Lemma graph_linked_iff g bs j i : shows g bs → graph_linked g j i ↔ linked bs j i.
Proof.
  intros Hg. unfold graph_linked, linked. by split; intros [k E]; exists k; apply (graph_edge_iff g bs).
Qed.

Lemma tc_iff {A} (R S : A → A → Prop) x y : (∀ x y, R x y ↔ S x y) → tc R x y ↔ tc S x y.
Proof.
  intros H. split; (induction 1 as [x y L | x y z L _ IH]; [by apply tc_once, H | by eapply tc_l; [apply H |]]).
Qed.

(** ** Schedules *)

Section Times.
Context (st fi : nat → Z).

(** The order an edge asks for between the times at which two operations start and
    finish. *)
Definition in_order (k : EdgeKind) (j i : nat) : Prop :=
  match k with kExecution => fi j ≤ st i | kScheduling => st j < st i end.

Definition follows (g : ExecutionGraph) : Prop := ∀ j k i, graph_edge g j k i → in_order k j i.

(** The order the operations need, whatever the graph. *)
Definition ordered (ops : list Operation) : Prop :=
  ∀ j i a b, (j < i)%nat → ops !! j = Some a → ops !! i = Some b →
    (must_finish a b → fi j ≤ st i) ∧ (must_start a b → st j < st i).

Hypothesis Htimes : ∀ i, st i < fi i.

Lemma in_order_start k j i : in_order k j i → st j < st i.
Proof. destruct k; cbn; [done |]. pose proof (Htimes j). lia. Qed.

Lemma in_order_before bs k j i : (∀ j k i, edge bs j k i → in_order k j i) → before bs k j i → in_order k j i.
Proof.
  intros He. assert (Hp : ∀ m i, path bs m i → st m < st i).
  { induction 1 as [m i' [k' E%He%in_order_start] | m w i' [k' E%He%in_order_start] _ IH]; lia. }
  intros (k' & m & E%He & Hk & P).
  assert (Hm : st m ≤ st i) by (destruct P as [-> | P%Hp]; lia).
  destruct k, k'; cbn in *; try done; [lia | | lia]. pose proof (Htimes j). lia.
Qed.
End Times.

(** ** Concrete operations *)

Definition mem (n : Z) : Buffers.Slice := Buffers.MkSlice (Some 0) (64 * n) 64.

(** Two operations on the result of the first, one on both results, and another one
    that shares a communicator with the second. *)
Definition demo : list Operation :=
  [MkOperation [Buffers.Write (mem 0)] [];
   MkOperation [Buffers.Read (mem 0); Buffers.Write (mem 1)] [Resources.Write (Resources.MkResource 7 Resources.kCollectiveCommunicator)];
   MkOperation [Buffers.Read (mem 0); Buffers.Write (mem 2)] [];
   MkOperation [Buffers.Read (mem 0); Buffers.Read (mem 1); Buffers.Read (mem 2); Buffers.Write (mem 3)] [];
   MkOperation [Buffers.Write (mem 4)] [Resources.Write (Resources.MkResource 7 Resources.kCollectiveCommunicator)]].

Lemma demo_ok : Forall op_ok demo.
Proof. repeat constructor; cbn; try lia; try (by vm_compute); by eexists. Qed.

(** The edges that are left, with the order of the last two operations free. *)
Example demo_edges :
  (g ← Create demo; mapM (node_in_edges g) (seq 0 5)) =
  Ok [[]; [MkEdge kExecution 0]; [MkEdge kExecution 0]; [MkEdge kExecution 1; MkEdge kExecution 2]; [MkEdge kScheduling 1]].
Proof. vm_compute. reflexivity. Qed.

(** An execution edge goes although the path to its end passes a scheduling edge: the
    first edge of the path already makes everything after it wait. *)
Example erased_through_scheduling :
  let comm := Resources.Write (Resources.MkResource 7 Resources.kCollectiveCommunicator) in
  (g ← Create [MkOperation [Buffers.Write (mem 0)] []; MkOperation [Buffers.Read (mem 0)] [comm];
               MkOperation [Buffers.Write (mem 1)] [comm];
               MkOperation [Buffers.Read (mem 0); Buffers.Read (mem 1)] []];
   mapM (node_out_edges g) (seq 0 4)) =
  Ok [[MkEdge kExecution 1]; [MkEdge kScheduling 2]; [MkEdge kExecution 3]; []].
Proof. vm_compute. reflexivity. Qed.

(** And one stays that a path of execution edges makes redundant, because a scheduling
    edge is on the stack when its end is reached. *)
Example redundant_edge_stays :
  let comm := Resources.Write (Resources.MkResource 7 Resources.kCollectiveCommunicator) in
  (g ← Create [MkOperation [Buffers.Write (mem 0)] []; MkOperation [Buffers.Write (mem 0)] [comm];
               MkOperation [] [comm]; MkOperation [Buffers.Write (mem 0)] []];
   mapM (node_out_edges g) (seq 0 4)) =
  Ok [[MkEdge kExecution 1; MkEdge kExecution 3]; [MkEdge kScheduling 2; MkEdge kExecution 3]; []; []].
Proof. vm_compute. reflexivity. Qed.

(** ** The properties *)

(** C17: [Create] succeeds for valid operations, and the schedules that follow the graph are
    exactly those that keep the order the operations need: of two operations on common
    memory, one of them writing, the later one starts after the earlier has finished, and
    of two that use a communicator it starts after the earlier has started.  Erasing edges
    neither allows nor forbids a schedule. *)
Theorem Create_schedules ops :
  Forall op_ok ops → Z.of_nat (length ops) ≤ max_NodeId →
  ∃ g, Create ops = Ok g ∧
    ∀ st fi : nat → Z, (∀ i, st i < fi i) → follows st fi g ↔ ordered st fi ops.
Proof.
  intros Hops Hl. destruct (Create_spec ops Hops Hl) as (g & bs & E & Hk & _ & Hg & _).
  exists g. split; [done |]. intros st fi Ht. rewrite Forall_forall in Hops. split.
  - intros Hf j i a b Hji Ha Hb. pose proof (Hops _ (list_elem_of_lookup_2 _ _ _ Ha)) as Oa.
    pose proof (Hops _ (list_elem_of_lookup_2 _ _ _ Hb)) as Ob.
    assert (Hord : ∀ k, dependency a b = Some k → in_order st fi k j i).
    { intros k Ed. apply (in_order_before st fi Ht bs).
      - intros j' k' i' He. apply Hf. by apply (graph_edge_iff g bs).
      - apply (k_before _ _ Hk), edge_before, stage_edge. unfold dep. by rewrite Ha, Hb, decide_True. }
    split.
    + intros Hm. apply (Hord kExecution). by apply dependency_execution.
    + intros Hm. destruct (proj2 (dependency_some a b Oa Ob) (or_intror Hm)) as [k Ek].
      by apply (in_order_start st fi Ht k), Hord.
  - intros Ho j k i He. apply (graph_edge_iff g bs) in He; [| done]. apply (k_sub _ _ Hk), stage_edge in He.
    pose proof (dep_lt _ _ _ _ He) as Hlt. unfold dep in He.
    destruct (ops !! j) as [a |] eqn:Ha; [| done]. destruct (ops !! i) as [b |] eqn:Hb; [| done].
    rewrite decide_True in He by lia. pose proof (Hops _ (list_elem_of_lookup_2 _ _ _ Ha)) as Oa.
    pose proof (Hops _ (list_elem_of_lookup_2 _ _ _ Hb)) as Ob.
    destruct (Ho j i a b) as [H1 H2]; [lia | done | done |]. destruct k.
    + apply H2. destruct (proj1 (dependency_some a b Oa Ob)) as [R | S]; [by eexists | | done].
      assert (dependency a b = Some kExecution) by (apply dependency_execution; [done | done | by left]). congruence.
    + apply H1. by apply dependency_execution.
Qed.

Lemma Create_schedules_witness :
  ∃ g, Create demo = Ok g ∧
    (follows (λ i, 2 * Z.of_nat i) (λ i, 2 * Z.of_nat i + 1) g ↔
     ordered (λ i, 2 * Z.of_nat i) (λ i, 2 * Z.of_nat i + 1) demo).
Proof.
  destruct (Create_schedules demo) as (g & E & H); [apply demo_ok | by vm_compute |].
  exists g. split; [exact E |]. apply H. intros i. lia.
Defined.

(** When no conflict is about a communicator alone, the graph is a transitive
    reduction: no edge joins two nodes that another path connects. *)
Theorem Create_minimal ops :
  Forall op_ok ops → Z.of_nat (length ops) ≤ max_NodeId →
  (∀ j i a b, (j < i)%nat → ops !! j = Some a → ops !! i = Some b → must_start a b → must_finish a b) →
  ∃ g, Create ops = Ok g ∧
    ∀ j m i, graph_linked g j m → tc (graph_linked g) m i → ¬ graph_linked g j i.
Proof.
  intros Hops Hl Hmust. destruct (Create_spec ops Hops Hl) as (g & bs & E & Hk & Hr & Hg & Ln).
  exists g. split; [done |]. rewrite Forall_forall in Hops.
  assert (Hexec : all_exec (stage ops (length ops) (length ops) 0)).
  { intros j k i He%stage_edge. pose proof (dep_lt _ _ _ _ He) as Hlt. unfold dep in He.
    destruct (ops !! j) as [a |] eqn:Ha; [| done]. destruct (ops !! i) as [b |] eqn:Hb; [| done].
    rewrite decide_True in He by lia. pose proof (Hops _ (list_elem_of_lookup_2 _ _ _ Ha)) as Oa.
    pose proof (Hops _ (list_elem_of_lookup_2 _ _ _ Hb)) as Ob.
    assert (Hd : dependency a b = Some kExecution); [| congruence]. apply dependency_execution; [done | done |].
    destruct (proj1 (dependency_some a b Oa Ob)) as [R | S]; [by eexists | by left | by apply (Hmust j i); [lia | ..]]. }
  intros j m i L P L'. apply (graph_linked_iff g bs) in L, L'; [| done ..].
  apply (tc_iff _ (linked bs)) in P; [| intros; by apply graph_linked_iff].
  pose proof L as [k (b & Hb & _)]. destruct (Hr j b) as [_ Hm]; [lia | done |]. by apply (Hm Hexec m i).
Qed.

(** The first four operations without their resources. *)
Definition demo_buffers : list Operation := (λ op, MkOperation (BufferUses op) []) <$> take 4 demo.

Lemma Create_minimal_witness :
  ∃ g, Create demo_buffers = Ok g ∧
    (graph_linked g 0%nat 1%nat → tc (graph_linked g) 1%nat 3%nat → ¬ graph_linked g 0%nat 3%nat).
Proof.
  destruct (Create_minimal demo_buffers) as (g & E & H).
  - repeat constructor; cbn; try lia; try (by vm_compute); by eexists.
  - by vm_compute.
  - intros j i a b _ Ha _ (u & v & Hu & _). apply list_elem_of_lookup_2, list_elem_of_fmap in Ha as (op & -> & _).
    by apply elem_of_nil in Hu.
  - exists g. split; [exact E | apply H].
Defined.

(** The priority of a node is the number of the nodes that can be reached from it. *)
Theorem Create_priorities ops :
  Forall op_ok ops → Z.of_nat (length ops) ≤ max_NodeId →
  ∃ g, Create ops = Ok g ∧
    ∀ m, (m < length ops)%nat → ∃ R, NoDup R ∧ (∀ v, v ∈ R ↔ tc (graph_linked g) m v) ∧
      node_priority g m = Ok (Z.of_nat (length R)).
Proof.
  intros Hops Hl. destruct (Create_spec ops Hops Hl) as (g & bs & E & Hk & Hr & Hg & Ln).
  exists g. split; [done |]. intros m Hm. destruct (lookup_lt_is_Some_2 bs m) as [b Hb]; [lia |].
  destruct (Hr m b) as [(R & Hn & HR & Ep) _]; [lia | done |]. exists R. split; [done |]. split.
  - intros v. rewrite HR, (kept_path _ _ _ _ Hk). symmetry. apply tc_iff. intros; by apply graph_linked_iff.
  - destruct (g_nodes _ _ Hg m b Hb) as (_ & _ & ->). by rewrite Ep.
Qed.

Lemma Create_priorities_witness :
  ∃ g R, Create demo = Ok g ∧ NoDup R ∧ (∀ v, v ∈ R ↔ tc (graph_linked g) 1%nat v) ∧ node_priority g 1%nat = Ok (Z.of_nat (length R)).
Proof.
  destruct (Create_priorities demo) as (g & E & H); [apply demo_ok | by vm_compute |].
  destruct (H 1%nat) as (R & H1 & H2 & H3); [cbn; lia |].
  exists g, R. split; [exact E | split; [exact H1 | split; [exact H2 | exact H3]]].
Defined.

(** C18: the graph is well formed: edges lead from earlier to later operations, out edges
    and in edges mirror each other, every node has each neighbour once, and the sources and
    sinks are the nodes without in edges and without out edges. *)
Theorem Create_wellformed ops :
  Forall op_ok ops → Z.of_nat (length ops) ≤ max_NodeId →
  ∃ g, Create ops = Ok g ∧ length (nodes_defs_ g) = length ops ∧
    ∀ i, (i < length ops)%nat → ∃ ins outs, node_in_edges g i = Ok ins ∧ node_out_edges g i = Ok outs ∧
      StronglySorted lt (id <$> ins) ∧ StronglySorted lt (id <$> outs) ∧
      (∀ k j, MkEdge k j ∈ ins ↔ graph_edge g j k i) ∧
      (∀ k j, MkEdge k j ∈ outs → (i < j < length ops)%nat) ∧
      (i ∈ source_ g ↔ ins = []) ∧ (i ∈ sink_ g ↔ outs = []).
Proof.
  intros Hops Hl. destruct (Create_spec ops Hops Hl) as (g & bs & E & Hk & _ & Hg & Ln).
  exists g. split; [done |]. split; [by rewrite (g_length _ _ Hg) |]. intros i Hi.
  destruct (lookup_lt_is_Some_2 bs i) as [b Hb]; [lia |]. destruct (g_nodes _ _ Hg i b Hb) as (Ei & Eo & _).
  pose proof (k_wf _ _ Hk) as Hw. exists (in_edges b), (out_edges b). split; [done |]. split; [done |].
  split; [by apply (wf_in _ Hw i) |]. split; [by apply (wf_out _ Hw i) |].
  split; [intros k j; rewrite (graph_edge_iff g bs) by done; by apply (wf_match _ Hw) |].
  split; [intros k j He; rewrite <- Ln; apply (wf_up _ Hw i k j); by exists b |].
  rewrite (g_source _ _ Hg), (g_sink _ _ Hg). split; (split; [intros (b' & Hb' & H); congruence | intros H; by exists b]).
Qed.

Lemma Create_wellformed_witness :
  ∃ g ins, Create demo = Ok g ∧ node_in_edges g 3%nat = Ok ins ∧ StronglySorted lt (id <$> ins).
Proof.
  destruct (Create_wellformed demo) as (g & E & _ & H); [apply demo_ok | by vm_compute |].
  destruct (H 3%nat) as (ins & outs & H1 & _ & H2 & _); [cbn; lia |].
  exists g, ins. split; [exact E | split; [exact H1 | exact H2]].
Defined.

(** [is_sequential] is true exactly when every operation has an edge to the next one;
    then the operations start in their order in every schedule that follows the graph. *)
Theorem is_sequential_exact ops :
  Forall op_ok ops → Z.of_nat (length ops) ≤ max_NodeId →
  ∃ g, Create ops = Ok g ∧
    (is_sequential_ g = true ↔ ∀ i, (S i < length ops)%nat → graph_linked g i (S i)) ∧
    (is_sequential_ g = true → ∀ st fi : nat → Z, (∀ i, st i < fi i) → follows st fi g →
     ∀ j i, (j < i < length ops)%nat → st j < st i).
Proof.
  intros Hops Hl. destruct (Create_spec ops Hops Hl) as (g & bs & E & Hk & _ & Hg & Ln). pose proof (k_wf _ _ Hk) as Hw.
  assert (Hseq : is_sequential_ g = true ↔ ∀ i, (S i < length ops)%nat → graph_linked g i (S i)).
  { rewrite (g_sequential _ _ Hg). split.
    - intros H i Hi. destruct (lookup_lt_is_Some_2 bs (S i)) as [b Hb]; [lia |].
      destruct (H i b Hb) as ([k i'] & He & Ei). cbn in Ei. subst i'. apply (graph_linked_iff g bs); [done |].
      exists k. by apply (wf_match _ Hw i k (S i) b Hb).
    - intros H m b Hb. destruct (proj1 (graph_linked_iff g bs m (S m) Hg)) as [k Ek].
      { apply H. apply lookup_lt_Some in Hb. lia. }
      exists (MkEdge k m). split; [| done]. by apply (wf_match _ Hw m k (S m) b Hb). }
  exists g. split; [done |]. split; [done |]. intros Hs st fi Ht Hf j i Hji.
  pose proof (proj1 Hseq Hs) as Hnext. remember (i - S j)%nat as d eqn:Ed. revert i Hji Ed.
  induction d as [| d IH]; intros i Hji Ed.
  - assert (i = S j) as -> by lia. destruct (Hnext j) as [k Ek]; [lia |]. by eapply in_order_start, Hf.
  - destruct i as [| i]; [lia |]. destruct (Hnext i) as [k Ek]; [lia |].
    pose proof (IH i ltac:(lia) ltac:(lia)). apply Hf, (in_order_start st fi Ht) in Ek. lia.
Qed.

End ExecCorrect.
