(* ===== verification/ThunkQueues.v ===== *)
(** * Ready queues

    The three queues of [xla/backends/cpu/runtime/thunk_executor.h] and [.cc] that hold
    the nodes ready to execute, behind the interface the executor is written against. *)
From S2P Require Import Prelude ExecGraph.
#[local] Open Scope Z_scope.

(** What the executor uses of a queue of nodes. *)
Class ReadyQueue (Q : Type) := {
  queue_of : list nat → Q;
  Push : nat → Q → Q;
  Pop : Q → res (nat * Q);
  PopHalf : Q → res (Q * Q);
  Size : Q → Z;
  Empty : Q → bool;
  CreateEmptyReadyQueue : Q → Q
}.

(** What it relies on: a queue holds each node pushed until it is popped, in an order of
    its own, and half of it is never nothing. *)
Class QueueLaws (Q : Type) `{ReadyQueue Q} := {
  elements : Q → list nat;
  queue_ok : Q → Prop;
  queue_of_elements l : queue_ok (queue_of l) ∧ elements (queue_of l) ≡ₚ l;
  Push_elements i q : queue_ok q → queue_ok (Push i q) ∧ elements (Push i q) ≡ₚ i :: elements q;
  Pop_elements q : queue_ok q → elements q ≠ [] →
    ∃ i q', Pop q = Ok (i, q') ∧ queue_ok q' ∧ elements q ≡ₚ i :: elements q';
  PopHalf_elements q : queue_ok q → elements q ≠ [] →
    ∃ popped q', PopHalf q = Ok (popped, q') ∧ queue_ok popped ∧ queue_ok q' ∧
      elements popped ≠ [] ∧ elements q ≡ₚ elements popped ++ elements q';
  Size_elements q : queue_ok q → Size q = Z.of_nat (length (elements q));
  Empty_elements q : queue_ok q → Empty q = true ↔ elements q = [];
  CreateEmpty_elements q : queue_ok (CreateEmptyReadyQueue q) ∧ elements (CreateEmptyReadyQueue q) = []
}.

Module Fifo.

(** The vector is not shortened at the front; [head_] is the next node. *)
Record FifoReadyQueue := MkFifo { queue_ : list nat; head_ : nat }.

Definition make (ready_nodes : list nat) : FifoReadyQueue := MkFifo ready_nodes 0.

Definition Push (i : nat) (q : FifoReadyQueue) : FifoReadyQueue := MkFifo (queue_ q ++ [i]) (head_ q).

Definition Pop (q : FifoReadyQueue) : res (nat * FifoReadyQueue) :=
  i ← at_res (queue_ q) (head_ q); Ok (i, MkFifo (queue_ q) (S (head_ q))).

(** The difference of two [size_t]; the head does not pass the end. *)
Definition Size (q : FifoReadyQueue) : Z := Z.of_nat (length (queue_ q)) - Z.of_nat (head_ q).

Definition Empty (q : FifoReadyQueue) : bool := bool_decide (head_ q = length (queue_ q)).

(** Taking the address of the middle needs an element there. *)
Definition PopHalf (q : FifoReadyQueue) : res (FifoReadyQueue * FifoReadyQueue) :=
  let mid := (head_ q + Z.to_nat (Size q / 2))%nat in
  at_res (queue_ q) mid;;
  Ok (make (drop mid (queue_ q)), MkFifo (take mid (queue_ q)) (head_ q)).

Definition CreateEmptyReadyQueue (q : FifoReadyQueue) : FifoReadyQueue := make [].

#[global] Instance FifoQueue : ReadyQueue FifoReadyQueue :=
  Build_ReadyQueue _ make Push Pop PopHalf Size Empty CreateEmptyReadyQueue.
End Fifo.

Module Lifo.

Definition LifoReadyQueue : Type := list nat.

Definition make (ready_nodes : list nat) : LifoReadyQueue := ready_nodes.
Definition Push (i : nat) (q : LifoReadyQueue) : LifoReadyQueue := q ++ [i].

Definition Pop (q : LifoReadyQueue) : res (nat * LifoReadyQueue) :=
  match last q with Some i => Ok (i, take (length q - 1) q) | None => Fail Undefined end.

Definition Size (q : LifoReadyQueue) : Z := Z.of_nat (length q).
Definition Empty (q : LifoReadyQueue) : bool := bool_decide (q = []).

(** The oldest nodes, one more than half; the others move to the front. *)
Definition PopHalf (q : LifoReadyQueue) : res (LifoReadyQueue * LifoReadyQueue) :=
  let mid := (Z.to_nat (Size q / 2) + 1)%nat in
  guard_res (bool_decide (mid ≤ length q)%nat) Undefined;;
  Ok (take mid q, drop mid q).

Definition CreateEmptyReadyQueue (q : LifoReadyQueue) : LifoReadyQueue := [].

#[global] Instance LifoQueue : ReadyQueue LifoReadyQueue :=
  Build_ReadyQueue _ make Push Pop PopHalf Size Empty CreateEmptyReadyQueue.
End Lifo.

Module Priority.

(** The priorities of the nodes, and the nodes in the order they came. *)
Record PriorityReadyQueue := MkPriority { priorities : list Z; queue_ : list nat }.

(** An id out of range would be read out of range. *)
Definition priority (p : list Z) (i : nat) : Z := default 0 (p !! i).

(** The first of the nodes of the greatest priority, and the others: a
    [std::priority_queue] leaves open which of several it puts on top. *)
Fixpoint take_top (p : list Z) (l : list nat) : option (nat * list nat) :=
  match l with
  | [] => None
  | i :: l =>
      match take_top p l with
      | Some (j, l') => if priority p i <? priority p j then Some (j, i :: l') else Some (i, l)
      | None => Some (i, [])
      end
  end.

Definition make (p : list Z) (ready_nodes : list nat) : PriorityReadyQueue := MkPriority p ready_nodes.

Definition Push (i : nat) (q : PriorityReadyQueue) : PriorityReadyQueue :=
  MkPriority (priorities q) (queue_ q ++ [i]).

Definition Pop (q : PriorityReadyQueue) : res (nat * PriorityReadyQueue) :=
  match take_top (priorities q) (queue_ q) with
  | Some (i, l) => Ok (i, MkPriority (priorities q) l)
  | None => Fail Undefined
  end.

Definition Size (q : PriorityReadyQueue) : Z := Z.of_nat (length (queue_ q)).
Definition Empty (q : PriorityReadyQueue) : bool := bool_decide (queue_ q = []).

(** The nodes moved, and those that are left. *)
Fixpoint pop_n (keep_top_nodes : nat) (popped q : PriorityReadyQueue)
    : res (PriorityReadyQueue * PriorityReadyQueue) :=
  match keep_top_nodes with
  | O => Ok (popped, q)
  | S n => '(i, q) ← Pop q; pop_n n (Push i popped) q
  end.

(** The top half is popped and then swapped with the rest. *)
Definition PopHalf (q : PriorityReadyQueue) : res (PriorityReadyQueue * PriorityReadyQueue) :=
  '(popped, rest) ← pop_n (Z.to_nat (Size q / 2)) (make (priorities q) []) q;
  Ok (rest, popped).

Definition CreateEmptyReadyQueue (q : PriorityReadyQueue) : PriorityReadyQueue := make (priorities q) [].

(** The queue for the priorities of a graph's nodes. *)
Definition PriorityQueue (p : list Z) : ReadyQueue PriorityReadyQueue :=
  Build_ReadyQueue _ (make p) Push Pop PopHalf Size Empty CreateEmptyReadyQueue.
End Priority.

(** ** The laws *)

Module QueueProofs.

(** *** First in, first out *)

Definition fifo_elements (q : Fifo.FifoReadyQueue) : list nat := drop (Fifo.head_ q) (Fifo.queue_ q).
Definition fifo_ok (q : Fifo.FifoReadyQueue) : Prop := (Fifo.head_ q ≤ length (Fifo.queue_ q))%nat.

Lemma Fifo_Pop q i l :
  fifo_elements q = i :: l → ∃ q', Fifo.Pop q = Ok (i, q') ∧ fifo_ok q' ∧ fifo_elements q' = l.
Proof.
  unfold fifo_elements, Fifo.Pop, fifo_ok. intros E.
  assert (Hi : Fifo.queue_ q !! Fifo.head_ q = Some i).
  { rewrite <- (Nat.add_0_r (Fifo.head_ q)), <- lookup_drop, E. done. }
  unfold at_res. rewrite Hi. eexists. split; [done |]. cbn [Fifo.queue_ Fifo.head_].
  split; [by apply lookup_lt_Some in Hi; lia |]. rewrite (drop_S _ _ _ Hi) in E. by injection E.
Qed.

#[global] Instance Fifo_laws : QueueLaws Fifo.FifoReadyQueue.
Proof.
  refine {| elements := fifo_elements; queue_ok := fifo_ok |}; cbn.
  - intros l. unfold fifo_ok, fifo_elements. cbn. split; [lia | done].
  - intros i q Hq. unfold fifo_ok, fifo_elements in *. cbn. rewrite length_app. cbn. split; [lia |].
    rewrite drop_app_le by done. by rewrite Permutation_app_comm.
  - intros q Hq Hne. destruct (fifo_elements q) as [| i l] eqn:E; [done |].
    destruct (Fifo_Pop q i l E) as (q' & E' & Hq' & El). exists i, q'. rewrite El. done.
  - intros q Hq Hne. unfold Fifo.PopHalf, Fifo.Size, fifo_ok, fifo_elements in *. set (mid := (_ + _)%nat).
    assert (Hlen : (Fifo.head_ q < length (Fifo.queue_ q))%nat).
    { destruct (decide (Fifo.head_ q = length (Fifo.queue_ q))) as [Eh |]; [| lia]. rewrite drop_ge in Hne by lia. done. }
    assert (Hmid : (Fifo.head_ q ≤ mid < length (Fifo.queue_ q))%nat).
    { subst mid. pose proof (Z.div_lt_upper_bound (Z.of_nat (length (Fifo.queue_ q)) - Z.of_nat (Fifo.head_ q)) 2
        (Z.of_nat (length (Fifo.queue_ q)) - Z.of_nat (Fifo.head_ q))). lia. }
    destruct (lookup_lt_is_Some_2 (Fifo.queue_ q) mid) as [x Hx]; [lia |]. unfold at_res. rewrite Hx. cbn [mbind res_bind].
    eexists _, _. split; [done |]. cbn [Fifo.make Fifo.head_ Fifo.queue_]. rewrite drop_0.
    split; [lia |]. split; [rewrite length_take; lia |]. split; [intros E; apply (f_equal length) in E; rewrite length_drop in E; cbn in E; lia |].
    rewrite Permutation_app_comm. rewrite <- (take_drop mid (Fifo.queue_ q)) at 1. rewrite drop_app_le by (rewrite length_take; lia). done.
  - intros q Hq. unfold Fifo.Size, fifo_elements, fifo_ok in *. rewrite length_drop. lia.
  - intros q Hq. unfold Fifo.Empty, fifo_elements, fifo_ok in *. rewrite bool_decide_eq_true. split.
    + intros E. by apply drop_ge; lia.
    + intros E. apply (f_equal length) in E. rewrite length_drop in E. cbn in E. lia.
  - intros q. unfold fifo_ok. cbn. split; [lia | done].
Defined.

(** *** Last in, first out *)

#[global] Instance Lifo_laws : QueueLaws Lifo.LifoReadyQueue.
Proof.
  refine {| elements := λ q : Lifo.LifoReadyQueue, q : list nat; queue_ok := λ _, True |}; cbn.
  - done.
  - intros i q _. split; [done |]. unfold Lifo.Push. by rewrite Permutation_app_comm.
  - intros q _ Hne. unfold Lifo.Pop. destruct (last q) as [i |] eqn:E; [| by apply last_None in E].
    eexists _, _. split; [done |]. split; [done |]. apply last_Some in E as [l ->].
    rewrite length_app, Nat.add_sub, take_app_length. by rewrite Permutation_app_comm.
  - intros q _ Hne. unfold Lifo.PopHalf, Lifo.Size. set (mid := (_ + 1)%nat).
    assert (Hlen : (0 < length q)%nat) by (destruct q; [done | cbn; lia]).
    assert (Hmid : (0 < mid ≤ length q)%nat).
    { subst mid. pose proof (Z.div_lt_upper_bound (Z.of_nat (length q)) 2 (Z.of_nat (length q))). lia. }
    rewrite bool_decide_true by lia. cbn [guard_res mbind res_bind]. eexists _, _. split; [done |]. split; [done |]. split; [done |].
    split; [intros E; apply (f_equal length) in E; rewrite length_take in E; cbn in E; lia |]. by rewrite take_drop.
  - done.
  - intros q _. apply bool_decide_eq_true.
  - done.
Defined.

(** *** By priority *)

Lemma take_top_spec p l :
  l ≠ [] → ∃ i l', Priority.take_top p l = Some (i, l') ∧ l ≡ₚ i :: l' ∧
    ∀ j, j ∈ l' → Priority.priority p j ≤ Priority.priority p i.
Proof.
  induction l as [| x l IH]; intros Hne; [done |]. cbn [Priority.take_top]. destruct l as [| y l].
  - exists x, []. split; [done |]. split; [done |]. by intros j ?%elem_of_nil.
  - destruct IH as (i & l' & -> & Hp & Hmax); [done |]. destruct (Z.ltb_spec (Priority.priority p x) (Priority.priority p i)).
    + exists i, (x :: l'). split; [done |]. split; [rewrite Hp; by constructor |].
      intros j [-> | Hj]%elem_of_cons; [lia | by apply Hmax].
    + exists x, (y :: l). split; [done |]. split; [done |]. intros j Hj. rewrite Hp in Hj.
      apply elem_of_cons in Hj as [-> | Hj%Hmax]; lia.
Qed.

Lemma pop_n_spec n popped q :
  (n ≤ length (Priority.queue_ q))%nat →
  ∃ popped' q', Priority.pop_n n popped q = Ok (popped', q') ∧
    Priority.queue_ popped ++ Priority.queue_ q ≡ₚ Priority.queue_ popped' ++ Priority.queue_ q' ∧
    (length (Priority.queue_ q') + n = length (Priority.queue_ q))%nat ∧
    Priority.priorities popped' = Priority.priorities popped ∧ Priority.priorities q' = Priority.priorities q.
Proof.
  revert popped q. induction n as [| n IH]; intros popped q Hn; [by exists popped, q |].
  cbn [Priority.pop_n]. destruct (take_top_spec (Priority.priorities q) (Priority.queue_ q)) as (i & l & E & Hp & _).
  { intros E. rewrite E in Hn. cbn in Hn. lia. }
  unfold Priority.Pop. rewrite E. cbn [mbind res_bind]. pose proof (Permutation_length Hp) as Hl. cbn in Hl.
  destruct (IH (Priority.Push i popped) (Priority.MkPriority (Priority.priorities q) l)) as (p' & q' & -> & Hp' & Hl' & E1 & E2);
    [cbn; lia |].
  exists p', q'. split; [done |]. cbn [Priority.queue_ Priority.Push Priority.priorities] in *.
  split; [rewrite <- Hp', Hp, <- app_assoc; done |]. split; [lia | done].
Qed.

(** The laws for the queue that is made with the priorities [p]. *)
Definition Priority_laws (p : list Z) : @QueueLaws Priority.PriorityReadyQueue (Priority.PriorityQueue p).
Proof.
  refine (@Build_QueueLaws _ (Priority.PriorityQueue p) Priority.queue_ (λ _, True) _ _ _ _ _ _ _); cbn.
  - done.
  - intros i q _. split; [done |]. cbn. by rewrite Permutation_app_comm.
  - intros q _ Hne. unfold Priority.Pop. destruct (take_top_spec (Priority.priorities q) (Priority.queue_ q) Hne) as (i & l & -> & Hp & _).
    by eexists _, _.
  - intros q _ Hne. unfold Priority.PopHalf, Priority.Size.
    assert (Hlen : (0 < length (Priority.queue_ q))%nat) by (destruct (Priority.queue_ q); [done | cbn; lia]).
    pose proof (Z.div_lt_upper_bound (Z.of_nat (length (Priority.queue_ q))) 2 (Z.of_nat (length (Priority.queue_ q)))).
    destruct (pop_n_spec (Z.to_nat (Z.of_nat (length (Priority.queue_ q)) / 2)) (Priority.make (Priority.priorities q) []) q)
      as (p' & q' & -> & Hp & Hl & _); [lia |].
    cbn [mbind res_bind]. exists q', p'. split; [done |]. split; [done |]. split; [done |].
    split; [intros E; rewrite E in Hl; cbn in Hl; lia |]. cbn in Hp. by rewrite Hp, Permutation_app_comm.
  - done.
  - intros q _. apply bool_decide_eq_true.
  - done.
Defined.

End QueueProofs.
