(* ===== verification/ThunkExec.v ===== *)
(** * The thunk executor

    Models [ThunkExecutor] of [xla/backends/cpu/runtime/thunk_executor.h] and [.cc]: the
    concurrent execution of a graph of thunks by any number of threads, as a relation
    between states whose steps are the atomic operations of the code, and the
    sequential execution.  Which step comes next, what a thunk's execution returns and
    when it completes, and whether the session has room for another worker are left
    open. *)
From S2P Require Import Prelude ExecGraph ThunkQueues.
#[local] Open Scope Z_scope.

Module ThunkExec.
Import ExecGraph.

(** ** Thunks and options *)

(** What the executor asks a thunk before it executes it. *)
Record Thunk := MkThunk { operation : Operation; ExecuteMayBlock : bool }.

Inductive ReadyQueueType := kFifo | kLifo | kPriority.

Record Options := MkOptions {
  execute_sequential_buffer_threshold : Z;
  execute_sequential_num_thunks_threshold : Z;
  ready_queue_type : ReadyQueueType
}.

Definition default_options : Options := MkOptions 512 8 kFifo.

(** The task runner and the session of [ExecuteParams]. *)
Record ExecuteParams := MkParams { has_runner : bool; split_threshold : Z }.

Definition kSplitThreshold : Z := 8.

(** The constructor's choice of a sequential execution; the comparison is unsigned. *)
Definition uses_small_buffers (options : Options) (t : Thunk) : bool :=
  forallb (λ u, wrap_u64 (Buffers.size (Buffers.slice u)) <=? execute_sequential_buffer_threshold options)
    (BufferUses (operation t)).

Definition is_sequential (options : Options) (thunks : list Thunk) (g : ExecutionGraph) : bool :=
  is_sequential_ g || forallb (uses_small_buffers options) thunks ||
  (Z.of_nat (length thunks) <=? execute_sequential_num_thunks_threshold options).

(** What [Execute] does. *)
Inductive Strategy := ExecuteNone | ExecuteSingle | ExecuteInSequence | ExecuteGraph (queue : ReadyQueueType).

Definition choose_strategy (options : Options) (thunks : list Thunk) (g : ExecutionGraph) : Strategy :=
  match thunks with
  | [] => ExecuteNone
  | [_] => ExecuteSingle
  | _ => if is_sequential options thunks g then ExecuteInSequence else ExecuteGraph (ready_queue_type options)
  end.

Section Execute.
Context {Q : Type} `{ReadyQueue Q} {Error : Type}.

(** ** The state *)

(** What became of a thunk: its execution has not begun, has begun, has completed with
    a status, or was left out after an error. *)
Inductive ThunkEvent := NotStarted | Pending | Available (status : option Error) | Skipped.

(** The event of the whole execution. *)
Inductive ExecuteEvent := Unavailable | Concrete | Failed (status : option Error).

(** Where a thread is:
    - at the head of the loop of [Execute], with its queue;
    - with a node taken from the queue;
    - in [ProcessScheduledOutEdges], with the edges left and whether it has counted the
      node as pending;
    - a continuation that waits for the event of the thunk;
    - at the start of [ProcessCompletedOutEdges], and in its loop;
    - after the last pending node. *)
Inductive Thread :=
  | Running (q : Q)
  | Popped (n : NodeId) (q : Q)
  | Scheduling (n : NodeId) (edges : list NodeEdge) (inc_pending_nodes : bool) (q : Q)
  | Waiting (n : NodeId) (drop_pending_nodes : bool) (q : Q)
  | Completed (n : NodeId) (status : option Error) (process_scheduling_edges drop_pending_nodes : bool) (q : Q)
  | Completing (n : NodeId) (edges : list NodeEdge) (process_scheduling_edges drop_pending_nodes : bool) (q : Q)
  | Notifying (q : Q).

Record ExecuteState := MkState {
  counters : list Z;
  pending_nodes : Z;
  abort : bool;
  abort_status : option Error;
  execute_event : ExecuteEvent;
  events : list ThunkEvent;
  threads : list Thread
}.

Definition set_counters (c : list Z) (s : ExecuteState) : ExecuteState :=
  MkState c (pending_nodes s) (abort s) (abort_status s) (execute_event s) (events s) (threads s).
Definition set_pending (p : Z) (s : ExecuteState) : ExecuteState :=
  MkState (counters s) p (abort s) (abort_status s) (execute_event s) (events s) (threads s).
Definition set_event (e : ExecuteEvent) (s : ExecuteState) : ExecuteState :=
  MkState (counters s) (pending_nodes s) (abort s) (abort_status s) e (events s) (threads s).
Definition set_events (es : list ThunkEvent) (s : ExecuteState) : ExecuteState :=
  MkState (counters s) (pending_nodes s) (abort s) (abort_status s) (execute_event s) es (threads s).
Definition set_threads (ts : list Thread) (s : ExecuteState) : ExecuteState :=
  MkState (counters s) (pending_nodes s) (abort s) (abort_status s) (execute_event s) (events s) ts.

(** The error of a failed thunk: the first one stays. *)
Definition record_error (e : Error) (s : ExecuteState) : ExecuteState :=
  MkState (counters s) (pending_nodes s) true
    (match abort_status s with Some e' => Some e' | None => Some e end)
    (execute_event s) (events s) (threads s).

(** ** The steps of a thread *)

Context (thunks : list Thunk) (g : ExecutionGraph) (params : ExecuteParams).

(** What is open when a node is taken from the queue. *)
Inductive Choice :=
  | Proceed
  | SplitQueue
  | Offload
  | RunInline (status : option Error)
  | RunAsync
  | SkipThunk.

(** A counter is decremented, and the node pushed when it was the last one. *)
Definition process_edge (e : NodeEdge) (q : Q) (s : ExecuteState) : res (Q * ExecuteState) :=
  cnt ← at_res (counters s) (id e);
  let s := set_counters (<[id e := cnt - 1]> (counters s)) s in
  Ok (if cnt =? 1 then Push (id e) q else q, s).

Definition may_block (n : NodeId) : bool :=
  match thunks !! n with Some t => ExecuteMayBlock t | None => false end.

(** The node goes to a task of its own. *)
Definition must_offload (n : NodeId) (q : Q) : bool := may_block n && negb (Empty q) && has_runner params.

Definition enabled (t : Thread) (c : Choice) (s : ExecuteState) : bool :=
  match t, c with
  | Popped n q, SplitQueue => has_runner params && (Size q >? split_threshold params)
  | Popped n q, Offload => must_offload n q
  | Popped n q, (RunInline _ | RunAsync) => negb (must_offload n q)
  | Popped n q, SkipThunk => negb (must_offload n q) && abort s
  | Popped n q, Proceed => false
  | Waiting n _ _, Proceed => match events s !! n with Some (Available _) => true | _ => false end
  | _, Proceed => true
  | _, _ => false
  end.

(** The thread after its step, with those it has started, and the state. *)
Definition Outcome : Type := res (list Thread * ExecuteState).

(** The head of the loop. *)
Definition next_node (q : Q) (s : ExecuteState) : Outcome :=
  if Empty q then Ok ([], s) else '(n, q) ← Pop q; Ok ([Popped n q], s).

(** [SplitReadyQueue]: a turn of its loop, with room in the session. *)
Definition split_queue (n : NodeId) (q : Q) (s : ExecuteState) : Outcome :=
  '(popped, q) ← PopHalf q; Ok ([Popped n q; Running popped], s).

(** The body of the loop, from the node popped to the call that handles its edges. *)
Definition execute_node (n : NodeId) (q : Q) (c : Choice) (s : ExecuteState) : Outcome :=
  edges ← node_out_edges g n;
  at_res thunks n;;
  let is_sink := bool_decide (edges = []) in
  match c with
  | SplitQueue => split_queue n q s
  | Offload => Ok ([Running q; Running (Push n (CreateEmptyReadyQueue q))], s)
  | RunAsync => Ok ([Scheduling n edges false q], set_events (<[n := Pending]> (events s)) s)
  | RunInline status =>
      Ok ([Completed n status true is_sink q], set_events (<[n := Available status]> (events s)) s)
  | SkipThunk => Ok ([Completed n None true is_sink q], set_events (<[n := Skipped]> (events s)) s)
  | Proceed => Fail Undefined
  end.

(** [ProcessScheduledOutEdges], and the continuation that is left to wait. *)
Definition scheduled_edge (n : NodeId) (edges : list NodeEdge) (inc : bool) (q : Q) (s : ExecuteState) : Outcome :=
  match edges with
  | e :: edges =>
      if bool_decide (kind e = kExecution) then Ok ([Scheduling n edges inc q], s)
      else if negb inc then Ok ([Scheduling n (e :: edges) true q], set_pending (pending_nodes s + 1) s)
      else '(q, s) ← process_edge e q s; Ok ([Scheduling n edges true q], s)
  | [] =>
      edges ← node_out_edges g n;
      Ok ([Running q; Waiting n (bool_decide (edges = []) || inc) (CreateEmptyReadyQueue q)], s)
  end.

(** The continuation, once the thunk has completed. *)
Definition continue (n : NodeId) (drop : bool) (q : Q) (s : ExecuteState) : Outcome :=
  match events s !! n with
  | Some (Available status) => Ok ([Completed n status false drop q], s)
  | _ => Fail Undefined
  end.

(** [ProcessCompletedOutEdges]: its start, an edge, and what follows the edges. *)
Definition completed_node (n : NodeId) (status : option Error) (process_scheduling drop : bool) (q : Q)
    (s : ExecuteState) : Outcome :=
  edges ← node_out_edges g n;
  Ok ([Completing n edges process_scheduling drop q],
      match status with Some e => record_error e s | None => s end).

Definition completed_edge (n : NodeId) (edges : list NodeEdge) (process_scheduling drop : bool) (q : Q)
    (s : ExecuteState) : Outcome :=
  match edges with
  | e :: edges =>
      if negb process_scheduling && bool_decide (kind e = kScheduling)
      then Ok ([Completing n edges process_scheduling drop q], s)
      else '(q, s) ← process_edge e q s; Ok ([Completing n edges process_scheduling drop q], s)
  | [] =>
      if drop then
        let is_done := pending_nodes s =? 1 in
        let s := set_pending (pending_nodes s - 1) s in
        Ok ([if is_done then Notifying q else Running q], s)
      else Ok ([Running q], s)
  end.

Definition notify (q : Q) (s : ExecuteState) : Outcome :=
  Ok ([Running q], set_event (if abort s then Failed (abort_status s) else Concrete) s).

Definition advance (t : Thread) (c : Choice) (s : ExecuteState) : Outcome :=
  match t with
  | Running q => next_node q s
  | Popped n q => execute_node n q c s
  | Scheduling n edges inc q => scheduled_edge n edges inc q s
  | Waiting n drop q => continue n drop q s
  | Completed n status process_scheduling drop q => completed_node n status process_scheduling drop q s
  | Completing n edges process_scheduling drop q => completed_edge n edges process_scheduling drop q s
  | Notifying q => notify q s
  end.

(** ** Execution *)

(** A thread moves, or the execution of a thunk completes. *)
Inductive step : ExecuteState → ExecuteState → Prop :=
  | step_thread s s' before t c ts after :
      threads s = before ++ t :: after →
      enabled t c s = true →
      advance t c s = Ok (ts, s') →
      step s (set_threads (before ++ ts ++ after) s')
  | step_complete s n status :
      events s !! n = Some Pending →
      step s (set_events (<[n := Available status]> (events s)) s).

(** [ExecuteState] and the first call of [Execute]. *)
Definition init : res ExecuteState :=
  ins ← mapM (node_in_edges g) (seq 0 (length (nodes_defs_ g)));
  Ok (MkState ((λ es, Z.of_nat (length es)) <$> ins) (Z.of_nat (length (sink_ g)))
        false None Unavailable (replicate (length (nodes_defs_ g)) NotStarted)
        [Running (queue_of (source_ g))]).

(** ** Sequential execution *)

(** The next thunk is executed, a thunk is awaited, or the status is known. *)
Inductive SequenceState :=
  | SequenceAt (next : nat) (events : list ThunkEvent)
  | SequenceWaits (current : nat) (events : list ThunkEvent)
  | SequenceDone (status : option Error) (events : list ThunkEvent).

(** After a thunk that has completed. *)
Definition resume (n : nat) (status : option Error) (evs : list ThunkEvent) : SequenceState :=
  match status with
  | Some e => SequenceDone (Some e) evs
  | None => SequenceAt (S n) evs
  end.

(** [ExecuteSequential] and [ResumeExecuteSequential]: one turn of the loop, with the
    status of a thunk that completes at once, and the continuation of one that does not. *)
Definition sequence_turn (outcome : option (option Error)) (s : SequenceState) : SequenceState :=
  match s with
  | SequenceAt n evs =>
      if bool_decide (length thunks ≤ n)%nat then SequenceDone None evs
      else match outcome with
           | Some status => resume n status (<[n := Available status]> evs)
           | None => SequenceWaits n (<[n := Pending]> evs)
           end
  | SequenceWaits n evs =>
      match outcome with
      | Some status => resume n status (<[n := Available status]> evs)
      | None => s
      end
  | SequenceDone _ _ => s
  end.

Inductive sequence_step : SequenceState → SequenceState → Prop :=
  | turn_at n evs outcome : sequence_step (SequenceAt n evs) (sequence_turn outcome (SequenceAt n evs))
  | turn_completes n evs status :
      sequence_step (SequenceWaits n evs) (sequence_turn (Some status) (SequenceWaits n evs)).

Definition sequence_init : SequenceState := SequenceAt 0 (replicate (length thunks) NotStarted).
End Execute.

Arguments ThunkEvent : clear implicits.
Arguments ExecuteEvent : clear implicits.
Arguments Thread : clear implicits.
Arguments ExecuteState : clear implicits.
Arguments Choice : clear implicits.
Arguments SequenceState : clear implicits.

End ThunkExec.
