(* ===== verification/ThunkCore.v ===== *)
(** * The thunk executor: counters

    What the counters of the nodes and of the pending nodes count at any time, however
    the threads interleave. *)
From S2P Require Import Prelude ExecGraph ThunkQueues ThunkExec.
#[local] Open Scope Z_scope.

Module ThunkCore.
Import ExecGraph ThunkExec.

(** ** Sums *)

Lemma sum_list_app l1 l2 : sum_list (l1 ++ l2) = (sum_list l1 + sum_list l2)%nat.
Proof. induction l1 as [| x l1 IH]; [done |]. cbn. rewrite IH. lia. Qed.

Lemma sum_zero l : sum_list l = 0%nat ↔ Forall (λ x, x = 0%nat) l.
Proof.
  induction l as [| x l IH]; cbn; [split; [constructor | done] |]. rewrite Forall_cons, <- IH. lia.
Qed.

Lemma sum_positive l : (0 < sum_list l)%nat ↔ ∃ x, x ∈ l ∧ (0 < x)%nat.
Proof.
  induction l as [| x l IH]; cbn.
  - split; [lia | by intros (x & ?%elem_of_nil & _)].
  - split.
    + intros Hs. destruct (decide (0 < x)%nat); [exists x; split; [by left | done] |].
      destruct (proj1 IH) as (y & Hy & Hp); [lia |]. exists y. split; [by right | done].
    + intros (y & [-> | Hy]%elem_of_cons & Hp); [lia |]. assert (0 < sum_list l)%nat by (apply IH; by exists y). lia.
Qed.

(** A sum over the nodes. *)
Definition sum_nodes (n : nat) (f : nat → nat) : nat := sum_list (f <$> seq 0 n).

Lemma sum_nodes_ext n f f' : (∀ i, (i < n)%nat → f i = f' i) → sum_nodes n f = sum_nodes n f'.
Proof. intros H. unfold sum_nodes. f_equal. apply list_fmap_ext. intros k i Hi%lookup_seq. apply H. lia. Qed.

Lemma sum_nodes_update n f f' j :
  (j < n)%nat → (∀ i, i ≠ j → f i = f' i) → (sum_nodes n f + f' j = sum_nodes n f' + f j)%nat.
Proof.
  intros Hj He. unfold sum_nodes. replace n with (j + (1 + (n - S j)))%nat by lia. rewrite !seq_app, !fmap_app, !sum_list_app.
  cbn [seq fmap list_fmap sum_list Nat.add].
  assert (E : ∀ a b, (∀ i, i ∈ seq a b → i ≠ j) → f <$> seq a b = f' <$> seq a b).
  { intros a b Hab. apply list_fmap_ext. intros k i Hi%list_elem_of_lookup_2%Hab. by apply He. }
  rewrite (E 0%nat j), (E (j + 1)%nat (n - S j)%nat) by (intros i Hi%elem_of_seq; lia). cbn. lia.
Qed.

Lemma sum_nodes_positive n f : (0 < sum_nodes n f)%nat ↔ ∃ i, (i < n)%nat ∧ (0 < f i)%nat.
Proof.
  unfold sum_nodes. rewrite sum_positive. split.
  - intros (x & (i & -> & Hi%elem_of_seq)%list_elem_of_fmap & Hp). exists i. split; [lia | done].
  - intros (i & Hi & Hp). exists (f i). split; [| done]. apply list_elem_of_fmap. exists i. split; [done |]. apply elem_of_seq. lia.
Qed.

(** ** The graph *)

Section Graph.
Context (g : ExecutionGraph).

Definition nodes : nat := length (nodes_defs_ g).
Definition outs (i : nat) : list NodeEdge := match node_out_edges g i with Ok es => es | Fail _ => [] end.
Definition ins (i : nat) : list NodeEdge := match node_in_edges g i with Ok es => es | Fail _ => [] end.

Record graph_ok : Prop := {
  ok_out : ∀ i, (i < nodes)%nat → node_out_edges g i = Ok (outs i);
  ok_in : ∀ i, (i < nodes)%nat → node_in_edges g i = Ok (ins i);
  ok_up : ∀ i e, (i < nodes)%nat → e ∈ outs i → (i < id e < nodes)%nat;
  ok_out_once : ∀ i, (i < nodes)%nat → NoDup (id <$> outs i);
  ok_in_once : ∀ i, (i < nodes)%nat → NoDup (id <$> ins i);
  ok_mirror : ∀ i j k, (i < nodes)%nat → MkEdge k j ∈ ins i ↔ (j < nodes)%nat ∧ MkEdge k i ∈ outs j;
  ok_source : NoDup (source_ g) ∧ ∀ i, i ∈ source_ g ↔ (i < nodes)%nat ∧ ins i = [];
  ok_sink : NoDup (sink_ g) ∧ ∀ i, i ∈ sink_ g ↔ (i < nodes)%nat ∧ outs i = [];
}.

(** The edges to a node. *)
Definition edges_to (i : nat) (es : list NodeEdge) : nat := length (filter (λ e, id e = i) es).

Definition sched (e : NodeEdge) : Prop := kind e = kScheduling.
Definition exec (e : NodeEdge) : Prop := kind e = kExecution.
#[export] Instance sched_dec e : Decision (sched e).
Proof. unfold sched. apply _. Defined.
#[export] Instance exec_dec e : Decision (exec e).
Proof. unfold exec. apply _. Defined.

Lemma edges_to_cons i e es : edges_to i (e :: es) = ((if decide (id e = i) then 1 else 0) + edges_to i es)%nat.
Proof. unfold edges_to. rewrite filter_cons. by destruct (decide _). Qed.

Lemma edges_to_split i es : edges_to i es = (edges_to i (filter sched es) + edges_to i (filter exec es))%nat.
Proof.
  induction es as [| e es IH]; [done |]. rewrite !filter_cons, edges_to_cons, IH.
  destruct (decide (sched e)) as [Es | Ns], (decide (exec e)) as [Ee | Ne]; rewrite ?edges_to_cons; try lia.
  - unfold sched, exec in *. congruence.
  - exfalso. unfold sched, exec in *. by destruct (kind e).
Qed.

Lemma edges_to_positive i es : (0 < edges_to i es)%nat ↔ ∃ e, e ∈ es ∧ id e = i.
Proof.
  induction es as [| e es IH].
  - split; [unfold edges_to; cbn; lia | by intros (e & ?%elem_of_nil & _)].
  - rewrite edges_to_cons. destruct (decide (id e = i)).
    + split; [intros _; exists e; split; [by left | done] | lia].
    + cbn [Nat.add]. rewrite IH. split; [intros (e' & He & E); exists e'; split; [by right | done] |].
      intros (e' & [-> | He]%elem_of_cons & E); [done | by exists e'].
Qed.

Lemma edges_to_once i es : NoDup (id <$> es) → (edges_to i es ≤ 1)%nat.
Proof.
  induction es as [| e es IH]; intros Hn; [unfold edges_to; cbn; lia |]. cbn [fmap list_fmap] in Hn.
  apply NoDup_cons in Hn as [Hn1 Hn2]. rewrite edges_to_cons. specialize (IH Hn2). destruct (decide (id e = i)) as [<- |]; [| lia].
  destruct (decide (0 < edges_to (id e) es)%nat) as [(e' & He & E)%edges_to_positive |]; [| lia].
  exfalso. apply Hn1. rewrite <- E. by apply list_elem_of_fmap_2.
Qed.

(** ** What the threads still owe *)

Section State.
Context {Q Error : Type} `{QueueLaws Q}.

Definition thread_queue (t : Thread Q Error) : Q :=
  match t with
  | Running q | Popped _ q | Scheduling _ _ _ q | Waiting _ _ q | Completed _ _ _ _ q
  | Completing _ _ _ _ q | Notifying q => q
  end.

(** The nodes a thread is to execute. *)
Definition ready (t : Thread Q Error) : list nat :=
  match t with Popped n q => n :: elements q | _ => elements (thread_queue t) end.

(** The decrements of a node's counter still to come from a thread. *)
Definition owed (i : nat) (t : Thread Q Error) : nat :=
  match t with
  | Scheduling n es _ _ => edges_to i (filter sched es) + edges_to i (filter exec (outs n))
  | Waiting n _ _ => edges_to i (filter exec (outs n))
  | Completed n _ ps _ _ => if ps then edges_to i (outs n) else edges_to i (filter exec (outs n))
  | Completing _ es ps _ _ => if ps then edges_to i es else edges_to i (filter exec es)
  | _ => 0
  end.

(** Whether it will drop a pending node. *)
Definition drops (t : Thread Q Error) : nat :=
  match t with
  | Scheduling n _ inc _ => if bool_decide (outs n = []) || inc then 1 else 0
  | Waiting _ d _ | Completed _ _ _ d _ | Completing _ _ _ d _ => if d then 1 else 0
  | _ => 0
  end.

(** The edges of a node that has not begun. *)
Definition unstarted (evs : list (ThunkEvent Error)) (f : nat → nat) (j : nat) : nat :=
  match evs !! j with Some NotStarted => f j | _ => 0 end.

Definition is_sink_node (j : nat) : nat := if bool_decide (outs j = []) then 1 else 0.

Record core (cs : list Z) (evs : list (ThunkEvent Error)) (pending : Z) (ts : list (Thread Q Error)) : Prop := {
  c_counters : length cs = nodes;
  c_events : length evs = nodes;
  c_count : ∀ i, (i < nodes)%nat → cs !! i =
    Some (Z.of_nat (sum_nodes nodes (unstarted evs (λ j, edges_to i (outs j))) + sum_list (owed i <$> ts)));
  c_pending : pending = Z.of_nat (sum_nodes nodes (unstarted evs is_sink_node) + sum_list (drops <$> ts));
  c_once : NoDup (ts ≫= ready);
  c_ready : ∀ i, i ∈ ts ≫= ready ↔ evs !! i = Some NotStarted ∧ cs !! i = Some 0;
  c_started : ∀ i e, evs !! i = Some e → e ≠ NotStarted → cs !! i = Some 0;
}.

(** Steps that change nothing that is counted. *)
Lemma core_same cs evs p ts ts' :
  (∀ i, sum_list (owed i <$> ts') = sum_list (owed i <$> ts)) →
  sum_list (drops <$> ts') = sum_list (drops <$> ts) →
  ts' ≫= ready ≡ₚ ts ≫= ready →
  core cs evs p ts → core cs evs p ts'.
Proof.
  intros Ho Hd Hr [C1 C2 C3 C4 C5 C6 C7]. constructor; try done.
  - intros i Hi. by rewrite Ho, C3.
  - by rewrite Hd.
  - by rewrite Hr.
  - intros i. by rewrite Hr.
Qed.

(** One thread replaced. *)
Lemma sum_middle (f : Thread Q Error → nat) before ts after :
  sum_list (f <$> before ++ ts ++ after) = (sum_list (f <$> before) + sum_list (f <$> ts) + sum_list (f <$> after))%nat.
Proof. rewrite !fmap_app, !sum_list_app. lia. Qed.

Lemma sum_one (f : Thread Q Error → nat) before t after :
  sum_list (f <$> before ++ t :: after) = (sum_list (f <$> before) + f t + sum_list (f <$> after))%nat.
Proof. rewrite fmap_app, sum_list_app. cbn. lia. Qed.

Lemma core_local cs evs p before t ts after :
  (∀ i, sum_list (owed i <$> ts) = owed i t) → sum_list (drops <$> ts) = drops t →
  ts ≫= ready ≡ₚ ready t →
  core cs evs p (before ++ t :: after) → core cs evs p (before ++ ts ++ after).
Proof.
  intros Ho Hd Hr. apply core_same.
  - intros i. by rewrite sum_middle, sum_one, Ho.
  - by rewrite sum_middle, sum_one, Hd.
  - rewrite !bind_app. cbn. by rewrite Hr.
Qed.

(** An edge processed. *)
Lemma core_edge cs evs p before t t' after m cnt :
  (∀ i, owed i t = ((if decide (m = i) then 1 else 0) + owed i t')%nat) → drops t' = drops t →
  ready t' ≡ₚ (if cnt =? 1 then m :: ready t else ready t) → cs !! m = Some cnt →
  core cs evs p (before ++ t :: after) → core (<[m := cnt - 1]> cs) evs p (before ++ t' :: after).
Proof.
  intros Ho Hd Hr Hm [C1 C2 C3 C4 C5 C6 C7]. pose proof (lookup_lt_Some _ _ _ Hm) as Lm. rewrite C1 in Lm.
  pose proof (C3 m Lm) as Em. rewrite Hm in Em. injection Em as Em.
  rewrite sum_one, Ho, decide_True in Em by done.
  assert (Hns : evs !! m = Some NotStarted).
  { destruct (evs !! m) as [e |] eqn:Ee; [| apply lookup_ge_None in Ee; lia].
    destruct e; [done | ..]; exfalso; pose proof (C7 m _ Ee ltac:(done)) as Ez; rewrite Hm in Ez; injection Ez; lia. }
  assert (Hnew : ∀ x, x ∈ (before ++ t' :: after) ≫= ready ↔ (cnt = 1 ∧ x = m) ∨ x ∈ (before ++ t :: after) ≫= ready).
  { intros x. rewrite !bind_app, !elem_of_app. cbn. rewrite !elem_of_app, Hr.
    destruct (Z.eqb_spec cnt 1); [rewrite elem_of_cons |]; naive_solver. }
  constructor.
  - by rewrite length_insert.
  - done.
  - intros i Hi. destruct (decide (i = m)) as [-> | Ne].
    + rewrite list_lookup_insert_eq by lia. f_equal. rewrite sum_one. lia.
    + rewrite list_lookup_insert_ne by done. rewrite C3 by done. do 2 f_equal. rewrite !sum_one, (Ho i).
      by rewrite decide_False by congruence.
  - by rewrite C4, !sum_one, Hd.
  - assert (Hp : (before ++ t' :: after) ≫= ready ≡ₚ (if cnt =? 1 then m :: ((before ++ t :: after) ≫= ready) else (before ++ t :: after) ≫= ready)).
    { rewrite !bind_app. cbn [mbind list_bind]. rewrite Hr. destruct (cnt =? 1); [| done].
      change ((m :: ready t) ++ (after ≫= ready)) with (m :: (ready t ++ (after ≫= ready))). symmetry. apply Permutation_middle. }
    rewrite Hp. destruct (Z.eqb_spec cnt 1); [| done]. apply NoDup_cons. split; [| done].
    intros [_ Hz]%C6. rewrite Hm in Hz. injection Hz. lia.
  - intros i. rewrite Hnew, C6. destruct (decide (i = m)) as [-> | Ne].
    + rewrite list_lookup_insert_eq by lia. rewrite Hm. split.
      * intros [[-> _] | [_ [= ->]]]; [done | lia].
      * intros [_ [= E]]. left. split; [lia | done].
    + rewrite list_lookup_insert_ne by done. naive_solver.
  - intros i e He Hne. destruct (decide (i = m)) as [-> | Ne]; [congruence |].
    rewrite list_lookup_insert_ne by done. by eapply C7.
Qed.

(** A node begins. *)
Lemma unstarted_insert evs j e f : e ≠ NotStarted → evs !! j = Some NotStarted →
  (∀ i, i ≠ j → unstarted evs f i = unstarted (<[j := e]> evs) f i) ∧ unstarted evs f j = f j ∧
  unstarted (<[j := e]> evs) f j = 0%nat.
Proof.
  intros Hne Hj. unfold unstarted. pose proof (lookup_lt_Some _ _ _ Hj). split; [| split].
  - intros i Hi. by rewrite list_lookup_insert_ne.
  - by rewrite Hj.
  - rewrite list_lookup_insert_eq by done. by destruct e.
Qed.

Lemma core_start cs evs p before n q t' after e :
  e ≠ NotStarted → (∀ i, owed i t' = edges_to i (outs n)) → drops t' = is_sink_node n → ready t' = elements q →
  core cs evs p (before ++ Popped n q :: after) → core cs (<[n := e]> evs) p (before ++ t' :: after).
Proof.
  intros Hne Ho Hd Hr [C1 C2 C3 C4 C5 C6 C7].
  assert (Hin : n ∈ (before ++ Popped n q :: after) ≫= ready).
  { rewrite bind_app, elem_of_app. right. cbn. by left. }
  pose proof (proj1 (C6 n) Hin) as [Hns Hz]. pose proof (lookup_lt_Some _ _ _ Hns) as Ln.
  assert (Hsplit : (before ++ Popped n q :: after) ≫= ready ≡ₚ n :: ((before ++ t' :: after) ≫= ready)).
  { rewrite !bind_app. cbn [mbind list_bind ready]. rewrite Hr. symmetry. apply Permutation_middle. }
  constructor.
  - done.
  - by rewrite length_insert.
  - intros i Hi. rewrite C3 by done. do 2 f_equal.
    destruct (unstarted_insert evs n e (λ j, edges_to i (outs j)) Hne Hns) as (E1 & E2 & E3).
    pose proof (sum_nodes_update nodes _ _ n ltac:(lia) E1) as Es. rewrite E2, E3 in Es.
    rewrite !sum_one, Ho. cbn [owed]. lia.
  - rewrite C4. f_equal. destruct (unstarted_insert evs n e is_sink_node Hne Hns) as (E1 & E2 & E3).
    pose proof (sum_nodes_update nodes _ _ n ltac:(lia) E1) as Es. rewrite E2, E3 in Es.
    rewrite !sum_one, Hd. cbn [drops]. lia.
  - rewrite Hsplit in C5. by apply NoDup_cons in C5 as [_ C5].
  - intros i. pose proof (C6 i) as Hi. rewrite Hsplit in Hi, C5. apply NoDup_cons in C5 as [Hnot _].
    rewrite elem_of_cons in Hi. destruct (decide (i = n)) as [-> | Ne].
    + rewrite list_lookup_insert_eq by done. split; [done | by intros [[= ->] _]].
    + rewrite list_lookup_insert_ne by done. rewrite <- Hi. naive_solver.
  - intros i e' He' Hne'. destruct (decide (i = n)) as [-> | Ne]; [done |].
    rewrite list_lookup_insert_ne in He' by done. by eapply C7.
Qed.

(** A pending node more or less. *)
Lemma core_pending cs evs p before t t' after :
  (∀ i, owed i t' = owed i t) → ready t' = ready t →
  core cs evs p (before ++ t :: after) →
  core cs evs (p + Z.of_nat (drops t') - Z.of_nat (drops t)) (before ++ t' :: after).
Proof.
  intros Ho Hr [C1 C2 C3 C4 C5 C6 C7]. constructor; try done.
  - intros i Hi. rewrite C3 by done. by rewrite !sum_one, Ho.
  - rewrite C4, !sum_one. lia.
  - rewrite bind_app in *. cbn in *. by rewrite Hr.
  - intros i. rewrite <- C6, !bind_app. cbn. by rewrite Hr.
Qed.

(** A thunk completes. *)
Lemma core_complete cs evs p ts n e e' :
  evs !! n = Some e → e ≠ NotStarted → e' ≠ NotStarted → core cs evs p ts → core cs (<[n := e']> evs) p ts.
Proof.
  intros Hn Hne Hne' [C1 C2 C3 C4 C5 C6 C7]. pose proof (lookup_lt_Some _ _ _ Hn) as Ln.
  assert (Hsame : ∀ f, sum_nodes nodes (unstarted (<[n := e']> evs) f) = sum_nodes nodes (unstarted evs f)).
  { intros f. apply sum_nodes_ext. intros i Hi. unfold unstarted. destruct (decide (i = n)) as [-> | Ne].
    - rewrite list_lookup_insert_eq, Hn by done. by destruct e, e'.
    - by rewrite list_lookup_insert_ne. }
  constructor; try done.
  - by rewrite length_insert.
  - intros i Hi. by rewrite Hsame, C3.
  - by rewrite Hsame.
  - intros i. rewrite C6. destruct (decide (i = n)) as [-> | Ne].
    + rewrite list_lookup_insert_eq, Hn by done. split; intros [[= ->] _]; done.
    + by rewrite list_lookup_insert_ne.
  - intros i e1 He1 Hne1. destruct (decide (i = n)) as [-> | Ne]; [by eapply C7 |].
    rewrite list_lookup_insert_ne in He1 by done. by eapply C7.
Qed.
End State.
End Graph.
End ThunkCore.
