(* ===== verification/ThunkInv.v ===== *)
(** * The thunk executor: the invariant

    What holds of every state the executor can reach, and that every step keeps it. *)
From S2P Require Import Prelude ExecGraph ThunkQueues ThunkExec ThunkCore.
#[local] Open Scope Z_scope.

Module ThunkInv.
Import ExecGraph ThunkExec ThunkCore.

Section Invariant.
Context {Q Error : Type} `{QueueLaws Q}.
Context (g : ExecutionGraph).
Hypothesis Hg : graph_ok g.

Abbreviation State := (ExecuteState Q Error).
Abbreviation Thr := (ThunkExec.Thread Q Error).
Abbreviation Ev := (ThunkEvent Error).

(** ** The threads *)

Definition started (evs : list Ev) (n : nat) : Prop := ∃ e, evs !! n = Some e ∧ e ≠ NotStarted.
Definition executed (evs : list Ev) (n : nat) : Prop := ∃ e, evs !! n = Some e ∧ e ≠ NotStarted ∧ e ≠ Skipped.
Definition finished (evs : list Ev) (n : nat) : Prop :=
  evs !! n = Some Skipped ∨ ∃ status, evs !! n = Some (Available status).

Definition has_sched (es : list NodeEdge) : bool := existsb (λ e, bool_decide (sched e)) es.

(** Whether a node counts as pending until it completes. *)
Definition counted (n : nat) (process_scheduling drop : bool) : Prop :=
  drop = bool_decide (outs g n = []) || (negb process_scheduling && has_sched (outs g n)).

Definition thread_ok (evs : list Ev) (t : Thr) : Prop :=
  queue_ok (thread_queue t) ∧
  match t with
  | Running _ | Popped _ _ | Notifying _ => True
  | Scheduling n es inc _ => (n < nodes g)%nat ∧ executed evs n ∧ ∃ pre, outs g n = pre ++ es ∧
      (if inc then has_sched (outs g n) = true else has_sched pre = false)
  | Waiting n d q => (n < nodes g)%nat ∧ executed evs n ∧ elements q = [] ∧ counted n false d
  | Completed n st ps d _ => (n < nodes g)%nat ∧ finished evs n ∧ counted n ps d ∧
      ∀ e, st = Some e → evs !! n = Some (Available (Some e))
  | Completing n es ps d _ => (n < nodes g)%nat ∧ finished evs n ∧ counted n ps d ∧
      Forall (λ e, (id e < nodes g)%nat) es
  end.

Definition awaits (n : nat) (t : Thr) : Prop :=
  match t with Scheduling m _ _ _ | Waiting m _ _ => m = n | _ => False end.

Definition reports (n : nat) (e : Error) (t : Thr) : Prop :=
  match t with Completed m (Some e') _ _ _ => m = n ∧ e' = e | _ => False end.

Definition notifying (t : Thr) : nat := match t with Notifying _ => 1 | _ => 0 end.

Definition event_set (ev : ExecuteEvent Error) : nat := match ev with Unavailable => 0 | _ => 1 end.

Record inv (s : State) : Prop := {
  i_core : core g (counters s) (events s) (pending_nodes s) (threads s);
  i_threads : Forall (thread_ok (events s)) (threads s);
  i_handled : ∀ n, events s !! n = Some Pending → Exists (awaits n) (threads s);
  i_failed : ∀ n e, events s !! n = Some (Available (Some e)) →
    abort s = true ∨ Exists (λ t, awaits n t ∨ reports n e t) (threads s);
  i_skipped : ∀ n, events s !! n = Some Skipped → abort s = true;
  i_status : abort s = true ↔ is_Some (abort_status s);
  i_error : ∀ e, abort_status s = Some e → ∃ n, events s !! n = Some (Available (Some e));
  i_event : (sum_list (notifying <$> threads s) + event_set (execute_event s))%nat =
    if pending_nodes s =? 0 then 1%nat else 0%nat;
  i_result : match execute_event s with
    | Unavailable => True
    | Concrete => abort s = false
    | Failed st => abort s = true ∧ st = abort_status s
    end;
}.

(** ** Nothing is left when no node is pending *)

Lemma has_sched_spec es : has_sched es = true ↔ ∃ e, e ∈ es ∧ sched e.
Proof.
  unfold has_sched. rewrite existsb_exists. setoid_rewrite bool_decide_eq_true. by setoid_rewrite list_elem_of_In.
Qed.

Lemma sum_member {A} (f : A → nat) l x : x ∈ l → (f x ≤ sum_list (f <$> l))%nat.
Proof.
  induction l as [| y l IH]; intros Hx; [by apply elem_of_nil in Hx |]. cbn.
  apply elem_of_cons in Hx as [-> | Hx%IH]; lia.
Qed.

Section Core.
Context (cs : list Z) (evs : list Ev) (p : Z) (ts : list Thr).
Hypothesis Hc : core g cs evs p ts.

(** A node some thread owes to has not begun. *)
Lemma owed_unstarted i t : (i < nodes g)%nat → t ∈ ts → (0 < owed g i t)%nat → evs !! i = Some NotStarted.
Proof.
  intros Hi Ht Ho. destruct (lookup_lt_is_Some_2 evs i) as [e He]; [rewrite (c_events _ _ _ _ _ Hc); lia |].
  destruct e; [done | ..]; exfalso; pose proof (c_started _ _ _ _ _ Hc i _ He ltac:(done)) as Hz;
    rewrite (c_count _ _ _ _ _ Hc i Hi) in Hz; injection Hz as Hz; pose proof (sum_member (owed g i) ts t Ht); lia.
Qed.

(** Neither has a node with an edge from one that has not. *)
Lemma edge_unstarted i e :
  (i < nodes g)%nat → evs !! i = Some NotStarted → e ∈ outs g i → evs !! id e = Some NotStarted.
Proof.
  intros Hi Hn He. pose proof (ok_up _ Hg i e Hi He) as Hup.
  destruct (lookup_lt_is_Some_2 evs (id e)) as [ev Hev]; [rewrite (c_events _ _ _ _ _ Hc); lia |].
  assert (Hpos : (0 < sum_nodes (nodes g) (unstarted evs (λ j, edges_to (id e) (outs g j))))%nat).
  { apply sum_nodes_positive. exists i. split; [done |]. unfold unstarted. rewrite Hn. apply edges_to_positive. by exists e. }
  destruct ev; [done | ..]; exfalso; pose proof (c_started _ _ _ _ _ Hc (id e) _ Hev ltac:(done)) as Hz;
    rewrite (c_count _ _ _ _ _ Hc (id e) ltac:(lia)) in Hz; injection Hz as Hz; lia.
Qed.

Lemma all_started i : p = 0 → (i < nodes g)%nat → evs !! i ≠ Some NotStarted.
Proof.
  intros Hp. rewrite (c_pending _ _ _ _ _ Hc) in Hp.
  remember (nodes g - i)%nat as d eqn:Ed. revert i Ed. induction d as [d IH] using lt_wf_ind. intros i Ed Hi Hn.
  destruct (outs g i) as [| e es] eqn:Eo.
  - assert (Hpos : (0 < sum_nodes (nodes g) (unstarted evs (is_sink_node g)))%nat); [| lia].
    apply sum_nodes_positive. exists i. split; [done |]. unfold unstarted, is_sink_node. rewrite Hn, Eo. cbn. lia.
  - assert (He : e ∈ outs g i) by (rewrite Eo; by left). pose proof (ok_up _ Hg i e Hi He).
    apply (IH (nodes g - id e)%nat ltac:(lia) (id e)); [done | lia |]. by eapply edge_unstarted.
Qed.

Lemma none_owed t i : p = 0 → t ∈ ts → (i < nodes g)%nat → owed g i t = 0%nat.
Proof.
  intros Hp Ht Hi. destruct (owed g i t) eqn:E; [done |]. exfalso.
  apply (all_started i Hp Hi). eapply owed_unstarted; [done | done | lia].
Qed.

Lemma none_drops t : p = 0 → t ∈ ts → drops g t = 0%nat.
Proof.
  intros Hp Ht. rewrite (c_pending _ _ _ _ _ Hc) in Hp. pose proof (sum_member (drops g) ts t Ht). lia.
Qed.

Hypothesis Hts : Forall (thread_ok evs) ts.

(** A thread that has yet to account for a node owes something. *)
Lemma exec_owed n : (n < nodes g)%nat → outs g n ≠ [] → has_sched (outs g n) = false →
  ∃ i, (i < nodes g)%nat ∧ (0 < edges_to i (filter exec (outs g n)))%nat.
Proof.
  intros Hn Hne Hs. destruct (outs g n) as [| e es] eqn:E; [done |].
  assert (He : e ∈ outs g n) by (rewrite E; by left). exists (id e). split; [by apply (ok_up _ Hg n e Hn He) |].
  apply edges_to_positive. exists e. split; [| done]. apply list_elem_of_filter. split; [| by left].
  unfold exec. destruct (kind e) eqn:Ek; [| done]. exfalso. apply not_true_iff_false in Hs. apply Hs, has_sched_spec.
  exists e. split; [by left | done].
Qed.

Lemma none_awaits n t : p = 0 → t ∈ ts → ¬ awaits n t.
Proof.
  intros Hp Ht Ha. pose proof Hts as Hok. rewrite Forall_forall in Hok. specialize (Hok t Ht).
  pose proof (none_drops t Hp Ht) as Hd. pose proof (λ i, none_owed t i Hp Ht) as Ho.
  destruct t as [| | m es inc q | m d q | | |]; cbn [awaits] in Ha; try done; subst m; cbn [drops owed] in *.
  - destruct Hok as (_ & Hn & _ & pre & Eo & Hinc).
    destruct (bool_decide (outs g n = [])) eqn:Es; [done |]. apply bool_decide_eq_false in Es. cbn [orb] in Hd.
    destruct inc; [done |]. destruct (has_sched (outs g n)) eqn:Eh.
    + apply has_sched_spec in Eh as (e & He & Hs). pose proof (ok_up _ Hg n e Hn He). specialize (Ho (id e) ltac:(lia)).
      rewrite Eo in He. apply elem_of_app in He as [He | He].
      * apply not_true_iff_false in Hinc. apply Hinc, has_sched_spec. by exists e.
      * assert (0 < edges_to (id e) (filter sched es))%nat; [| lia].
        apply edges_to_positive. exists e. split; [| done]. by apply list_elem_of_filter.
    + destruct (exec_owed n Hn Es Eh) as (i & Hi & Hpos). specialize (Ho i Hi). lia.
  - destruct Hok as (_ & Hn & _ & _ & Hcn). unfold counted in Hcn. cbn [negb andb] in Hcn. destruct d; [done |].
    symmetry in Hcn. apply orb_false_iff in Hcn as [Es Eh]. apply bool_decide_eq_false in Es.
    destruct (exec_owed n Hn Es Eh) as (i & Hi & Hpos). specialize (Ho i Hi). lia.
Qed.

Lemma none_completed n st ps d q : p = 0 → Completed n st ps d q ∉ ts.
Proof.
  intros Hp Ht. pose proof Hts as Hok. rewrite Forall_forall in Hok. specialize (Hok _ Ht).
  pose proof (none_drops _ Hp Ht) as Hd. pose proof (λ i, none_owed _ i Hp Ht) as Ho. cbn [drops owed] in *.
  destruct Hok as (_ & Hn & _ & Hcn & _). unfold counted in Hcn. destruct d; [done |].
  symmetry in Hcn. apply orb_false_iff in Hcn as [Es Eh]. apply bool_decide_eq_false in Es.
  destruct ps.
  - destruct (outs g n) as [| e es] eqn:E; [done |]. assert (He : e ∈ outs g n) by (rewrite E; by left).
    pose proof (ok_up _ Hg n e Hn He). specialize (Ho (id e) ltac:(lia)).
    assert (0 < edges_to (id e) (e :: es))%nat; [| lia]. apply edges_to_positive. exists e. split; [by left | done].
  - cbn [negb andb] in Eh. destruct (exec_owed n Hn Es Eh) as (i & Hi & Hpos). specialize (Ho i Hi). lia.
Qed.
End Core.

Lemma all_finished s i : inv s → pending_nodes s = 0 → (i < nodes g)%nat → finished (events s) i.
Proof.
  intros Hi Hp Hin. pose proof (i_core _ Hi) as Hc.
  destruct (lookup_lt_is_Some_2 (events s) i) as [e He]; [rewrite (c_events _ _ _ _ _ Hc); lia |]. destruct e as [| | status |].
  - exfalso. by apply (all_started _ _ _ _ Hc i Hp Hin).
  - exfalso. apply (i_handled _ Hi), Exists_exists in He as (t & Ht & Ha).
    by apply (none_awaits _ _ _ _ Hc (i_threads _ Hi) i t Hp Ht).
  - right. by exists status.
  - by left.
Qed.

(** ** One thread replaced *)

Lemma Exists_middle (P : Thr → Prop) before t ts after :
  Exists P (before ++ t :: after) → (P t → Exists P ts) → Exists P (before ++ ts ++ after).
Proof. rewrite !Exists_app, Exists_cons. tauto. Qed.

Lemma inv_replace s before t ts after s' :
  inv s → threads s = before ++ t :: after → events s' = events s →
  core g (counters s') (events s) (pending_nodes s') (before ++ ts ++ after) →
  Forall (thread_ok (events s)) ts →
  (∀ n, events s !! n = Some Pending → awaits n t → Exists (awaits n) ts) →
  (abort s = true → abort s' = true) →
  (∀ n e, events s !! n = Some (Available (Some e)) → awaits n t ∨ reports n e t →
    abort s' = true ∨ Exists (λ t, awaits n t ∨ reports n e t) ts) →
  (abort s' = true ↔ is_Some (abort_status s')) →
  (∀ e, abort_status s' = Some e → ∃ n, events s !! n = Some (Available (Some e))) →
  (sum_list (notifying <$> before) + sum_list (notifying <$> ts) + sum_list (notifying <$> after) +
    event_set (execute_event s'))%nat = (if pending_nodes s' =? 0 then 1%nat else 0%nat) →
  match execute_event s' with
  | Unavailable => True
  | Concrete => abort s' = false
  | Failed st => abort s' = true ∧ st = abort_status s'
  end →
  inv (set_threads (before ++ ts ++ after) s').
Proof.
  intros Hi Et Eev Hc Hok Hh Hab Hf Hst Her Hev Hres. pose proof (i_threads _ Hi) as Hall. rewrite Et in Hall.
  apply Forall_app in Hall as [H1 [_ H2]%Forall_cons].
  constructor; cbn [set_threads counters events pending_nodes abort abort_status execute_event threads]; rewrite ?Eev; try done.
  - rewrite !Forall_app. done.
  - intros n Hn. eapply Exists_middle; [rewrite <- Et; by apply (i_handled _ Hi) | by apply Hh].
  - intros n e Hn. destruct (i_failed _ Hi n e Hn) as [Ha | He]; [left; by apply Hab |]. rewrite Et in He.
    rewrite Exists_app, Exists_cons in He. destruct He as [He | [He | He]].
    + right. rewrite !Exists_app. tauto.
    + destruct (Hf n e Hn He) as [? | He']; [by left | right; rewrite !Exists_app; tauto].
    + right. rewrite !Exists_app. tauto.
  - intros n Hn. apply Hab. by apply (i_skipped _ Hi n).
  - rewrite !fmap_app, !sum_list_app. lia.
Qed.

(** The same when nothing but the counters changes. *)
Lemma inv_quiet s before t ts after cs :
  inv s → threads s = before ++ t :: after →
  core g cs (events s) (pending_nodes s) (before ++ ts ++ after) →
  Forall (thread_ok (events s)) ts →
  (∀ n, events s !! n = Some Pending → awaits n t → Exists (awaits n) ts) →
  (∀ n e, events s !! n = Some (Available (Some e)) → awaits n t ∨ reports n e t →
    Exists (λ t, awaits n t ∨ reports n e t) ts) →
  sum_list (notifying <$> ts) = notifying t →
  inv (set_threads (before ++ ts ++ after) (set_counters cs s)).
Proof.
  intros Hi Et Hc Hok Hh Hf Hn. apply (inv_replace s before t ts after (set_counters cs s)); try done.
  - intros n e H1 H2. right. by apply (Hf n e).
  - apply (i_status _ Hi).
  - apply (i_error _ Hi).
  - pose proof (i_event _ Hi) as He. rewrite Et in He. cbn. rewrite <- He.
    rewrite fmap_app, sum_list_app. cbn. rewrite Hn. lia.
  - apply (i_result _ Hi).
Qed.

(** The same when nothing that is counted changes. *)
Lemma inv_local s before t ts after :
  inv s → threads s = before ++ t :: after →
  (∀ i, sum_list (owed g i <$> ts) = owed g i t) → sum_list (drops g <$> ts) = drops g t → ts ≫= ready ≡ₚ ready t →
  Forall (thread_ok (events s)) ts →
  (∀ n, events s !! n = Some Pending → awaits n t → Exists (awaits n) ts) →
  (∀ n e, events s !! n = Some (Available (Some e)) → awaits n t ∨ reports n e t →
    Exists (λ t, awaits n t ∨ reports n e t) ts) →
  sum_list (notifying <$> ts) = notifying t →
  inv (set_threads (before ++ ts ++ after) s).
Proof.
  intros Hi Et Ho Hd Hr Hok Hh Hf Hn. apply (inv_quiet s before t ts after (counters s)); try done.
  apply (core_local g) with (t := t); try done. rewrite <- Et. apply (i_core _ Hi).
Qed.

(** ** Events *)

Lemma executed_insert (evs : list Ev) n e0 e m :
  evs !! n = Some e0 → (e0 = NotStarted ∨ e0 = Pending ∧ e ≠ Skipped) → e ≠ NotStarted →
  executed evs m → executed (<[n := e]> evs) m.
Proof.
  intros Hn He0 Hne (e' & He' & Hne1 & Hne2). pose proof (lookup_lt_Some _ _ _ Hn). unfold executed. destruct (decide (m = n)) as [-> |].
  - rewrite list_lookup_insert_eq by done. exists e. split; [done |]. split; [done |].
    rewrite Hn in He'. injection He' as ->. by destruct He0 as [-> | [_ ?]].
  - rewrite list_lookup_insert_ne by done. by exists e'.
Qed.

Lemma thread_ok_insert evs n e0 e t :
  evs !! n = Some e0 → (e0 = NotStarted ∨ e0 = Pending ∧ e ≠ Skipped) → e ≠ NotStarted → thread_ok evs t → thread_ok (<[n := e]> evs) t.
Proof.
  intros Hn He0 Hne. pose proof (lookup_lt_Some _ _ _ Hn) as Ln.
  assert (Hfin : ∀ m, finished evs m → finished (<[n := e]> evs) m).
  { intros m Hm. unfold finished in *. destruct (decide (m = n)) as [-> |].
    - rewrite Hn in Hm. exfalso. destruct He0 as [-> | [-> _]], Hm as [[=] | (? & [=])].
    - by rewrite list_lookup_insert_ne. }
  assert (Hav : ∀ m st, evs !! m = Some (Available st) → <[n := e]> evs !! m = Some (Available st)).
  { intros m st Hm. destruct (decide (m = n)) as [-> |]; [| by rewrite list_lookup_insert_ne].
    rewrite Hn in Hm. exfalso. destruct He0 as [-> | [-> _]]; done. }
  unfold thread_ok. intros [Hq Ht]. split; [done |]. destruct t; try done.
  - destruct Ht as (? & ? & ?). split; [done |]. split; [by apply (executed_insert evs n e0) | done].
  - destruct Ht as (? & ? & ?). split; [done |]. split; [by apply (executed_insert evs n e0) | done].
  - destruct Ht as (? & ? & ? & Hs). split; [done |]. split; [by apply Hfin |]. split; [done |]. intros e' E. by apply Hav, Hs.
  - destruct Ht as (? & ? & ?). split; [done |]. split; [by apply Hfin | done].
Qed.
End Invariant.
End ThunkInv.
