(* ===== verification/ThunkMoves.v ===== *)
(** * The thunk executor: moves of a thread

    What each step of a thread does, with the queues known by their elements only; that
    a thread which may move never fails; and that every move keeps the invariant. *)
From S2P Require Import Prelude ExecGraph ThunkQueues ThunkExec ThunkCore ThunkInv.
#[local] Open Scope Z_scope.

Module ThunkSteps.
Import ExecGraph ThunkExec ThunkCore ThunkInv.

Section Steps.
Context {Q Error : Type} `{QueueLaws Q}.
Context (thunks : list Thunk) (g : ExecutionGraph) (params : ExecuteParams).
Hypothesis Hg : graph_ok g.
Hypothesis Hthunks : length thunks = nodes g.
Hypothesis Hsplit : 0 ≤ split_threshold params.

Abbreviation State := (ExecuteState Q Error).
Abbreviation Thr := (ThunkExec.Thread Q Error).
Abbreviation inv := (inv g).

(** ** Moves *)

(** A queue after a counter was decremented. *)
Definition pushed (m : nat) (cnt : Z) (q q' : Q) : Prop :=
  queue_ok q' ∧ elements q' ≡ₚ (if cnt =? 1 then m :: elements q else elements q).

Definition is_sink (n : nat) : bool := bool_decide (outs g n = []).

Inductive move (s : State) : Thr → list Thr → State → Prop :=
  | move_stop q : elements q = [] → move s (Running q) [] s
  | move_pop q n q' : queue_ok q' → elements q ≡ₚ n :: elements q' → move s (Running q) [Popped n q'] s
  | move_split n q popped q' :
      queue_ok popped → queue_ok q' → elements popped ≠ [] → elements q ≡ₚ elements popped ++ elements q' →
      move s (Popped n q) [Popped n q'; Running popped] s
  | move_offload n q q' :
      queue_ok q' → elements q ≠ [] → elements q' ≡ₚ [n] → move s (Popped n q) [Running q; Running q'] s
  | move_async n q :
      move s (Popped n q) [Scheduling n (outs g n) false q] (set_events (<[n := Pending]> (events s)) s)
  | move_inline n q status :
      move s (Popped n q) [Completed n status true (is_sink n) q] (set_events (<[n := Available status]> (events s)) s)
  | move_skip n q :
      abort s = true →
      move s (Popped n q) [Completed n None true (is_sink n) q] (set_events (<[n := Skipped]> (events s)) s)
  | move_over n e es inc q : exec e → move s (Scheduling n (e :: es) inc q) [Scheduling n es inc q] s
  | move_inc n e es q :
      sched e →
      move s (Scheduling n (e :: es) false q) [Scheduling n (e :: es) true q] (set_pending (pending_nodes s + 1) s)
  | move_schedule n e es q q' cnt :
      sched e → counters s !! id e = Some cnt → pushed (id e) cnt q q' →
      move s (Scheduling n (e :: es) true q) [Scheduling n es true q']
        (set_counters (<[id e := cnt - 1]> (counters s)) s)
  | move_wait n inc q q' :
      queue_ok q' → elements q' = [] →
      move s (Scheduling n [] inc q) [Running q; Waiting n (is_sink n || inc) q'] s
  | move_resume n d q status :
      events s !! n = Some (Available status) → move s (Waiting n d q) [Completed n status false d q] s
  | move_complete n status ps d q :
      move s (Completed n status ps d q) [Completing n (outs g n) ps d q]
        (match status with Some e => record_error e s | None => s end)
  | move_past n e es d q : sched e → move s (Completing n (e :: es) false d q) [Completing n es false d q] s
  | move_edge n e es ps d q q' cnt :
      ps = true ∨ exec e → counters s !! id e = Some cnt → pushed (id e) cnt q q' →
      move s (Completing n (e :: es) ps d q) [Completing n es ps d q']
        (set_counters (<[id e := cnt - 1]> (counters s)) s)
  | move_last n ps q :
      pending_nodes s = 1 →
      move s (Completing n [] ps true q) [Notifying q] (set_pending (pending_nodes s - 1) s)
  | move_drop n ps q :
      pending_nodes s ≠ 1 →
      move s (Completing n [] ps true q) [Running q] (set_pending (pending_nodes s - 1) s)
  | move_on n ps q : move s (Completing n [] ps false q) [Running q] s
  | move_notify q :
      move s (Notifying q) [Running q] (set_event (if abort s then Failed (abort_status s) else Concrete) s).

(** ** A thread that may move does *)

Lemma inv_thread (s : State) before t after : inv s → threads s = before ++ t :: after → thread_ok g (events s) t.
Proof. intros Hi Et. pose proof (i_threads _ _ Hi) as Hall. rewrite Et in Hall. by apply Forall_app in Hall as [_ [? _]%Forall_cons]. Qed.

Lemma counter_at (s : State) i : inv s → (i < nodes g)%nat → ∃ cnt, counters s !! i = Some cnt.
Proof. intros Hi Hin. apply lookup_lt_is_Some_2. by rewrite (c_counters _ _ _ _ _ (i_core _ _ Hi)). Qed.

Lemma process_edge_spec (s : State) e q :
  inv s → (id e < nodes g)%nat → queue_ok q →
  ∃ cnt q', counters s !! id e = Some cnt ∧ pushed (id e) cnt q q' ∧
    process_edge e q s = Ok (q', set_counters (<[id e := cnt - 1]> (counters s)) s).
Proof.
  intros Hi He Hq. destruct (counter_at s (id e) Hi He) as [cnt Hc].
  exists cnt, (if cnt =? 1 then Push (id e) q else q). split; [done |]. unfold process_edge, at_res. rewrite Hc.
  split; [| done]. unfold pushed. destruct (cnt =? 1); [by apply Push_elements | done].
Qed.

Lemma popped_node (s : State) before n q after :
  inv s → threads s = before ++ Popped n q :: after → (n < nodes g)%nat ∧ events s !! n = Some NotStarted.
Proof.
  intros Hi Et. pose proof (i_core _ _ Hi) as Hc. rewrite Et in Hc.
  assert (Hin : n ∈ (before ++ Popped n q :: after) ≫= ready (Error:=Error)).
  { rewrite bind_app, elem_of_app. right. cbn. by left. }
  apply (c_ready _ _ _ _ _ Hc) in Hin as [Hn _]. split; [| done].
  apply lookup_lt_Some in Hn. by rewrite (c_events _ _ _ _ _ Hc) in Hn.
Qed.

Lemma advance_popped (s : State) before n q c after :
  inv s → threads s = before ++ Popped n q :: after → enabled thunks params (Popped n q) c s = true →
  ∃ ts s', advance thunks g (Popped n q) c s = Ok (ts, s') ∧ move s (Popped n q) ts s'.
Proof.
  intros Hi Et He. pose proof (inv_thread s _ _ _ Hi Et) as [Hq _]. cbn [thread_queue] in Hq.
  destruct (popped_node s _ _ _ _ Hi Et) as [Hn _].
  destruct (lookup_lt_is_Some_2 thunks n) as [th Hth]; [by rewrite Hthunks |].
  cbn [advance]; unfold next_node, execute_node, split_queue, scheduled_edge, continue, completed_node, completed_edge, notify. rewrite (ok_out _ Hg n Hn). unfold at_res. rewrite Hth. cbn [mbind res_bind].
  destruct c; cbn [enabled] in He; try done.
  - apply andb_true_iff in He as [_ Hs]. rewrite Size_elements in Hs by done.
    destruct (PopHalf_elements q Hq) as (popped & q' & E & H1 & H2 & H3 & H4).
    { intros E. rewrite E in Hs. apply Z.gtb_lt in Hs. cbn in Hs. lia. }
    rewrite E. cbn [mbind res_bind]. do 2 eexists. split; [done |]. by constructor.
  - unfold must_offload in He. destruct (CreateEmpty_elements q) as [E1 E2].
    destruct (Push_elements n (CreateEmptyReadyQueue q) E1) as [P1 P2]. do 2 eexists. split; [done |].
    constructor; [done | | by rewrite P2, E2].
    intros E. apply (Empty_elements q Hq) in E. rewrite E, andb_false_r in He. done.
  - do 2 eexists. split; [done |]. constructor.
  - do 2 eexists. split; [done |]. constructor.
  - apply andb_true_iff in He as [_ Ha]. do 2 eexists. split; [done |]. by constructor.
Qed.

Lemma sched_or_exec e : sched e ∨ exec e.
Proof. unfold sched, exec. destruct (kind e); auto. Qed.

Lemma advance_move (s : State) before t c after :
  inv s → threads s = before ++ t :: after → enabled thunks params t c s = true →
  ∃ ts s', advance thunks g t c s = Ok (ts, s') ∧ move s t ts s'.
Proof.
  intros Hi Et He. pose proof (inv_thread s _ _ _ Hi Et) as [Hq Hok]. cbn [thread_queue] in Hq.
  destruct t as [q | n q | n es inc q | n d q | n st ps d q | n es ps d q | q]; cbn [thread_queue] in Hq.
  - cbn [advance]; unfold next_node, execute_node, split_queue, scheduled_edge, continue, completed_node, completed_edge, notify. destruct (Empty q) eqn:Ee.
    + do 2 eexists. split; [done |]. constructor. by apply Empty_elements.
    + destruct (Pop_elements q Hq) as (n & q' & E & H1 & H2).
      { intros E%(Empty_elements q Hq). congruence. }
      rewrite E. cbn [mbind res_bind]. do 2 eexists. split; [done |]. by constructor.
  - by eapply advance_popped.
  - destruct Hok as (Hn & _ & pre & Eo & _). destruct es as [| e es]; cbn [advance]; unfold next_node, execute_node, split_queue, scheduled_edge, continue, completed_node, completed_edge, notify.
    + rewrite (ok_out _ Hg n Hn). cbn [mbind res_bind]. destruct (CreateEmpty_elements q) as [E1 E2].
      do 2 eexists. split; [done |]. by constructor.
    + assert (Hb : e ∈ outs g n) by (rewrite Eo, elem_of_app; right; by left).
      apply (ok_up _ Hg n e Hn) in Hb.
      destruct (sched_or_exec e) as [Hs | Hx].
      * rewrite bool_decide_false by (unfold sched in Hs; congruence). destruct inc; cbn [negb].
        -- destruct (process_edge_spec s e q Hi ltac:(lia) Hq) as (cnt & q' & Ec & Hp & E). rewrite E. cbn [mbind res_bind].
           do 2 eexists. split; [done |]. by constructor.
        -- do 2 eexists. split; [done |]. by constructor.
      * rewrite bool_decide_true by done. do 2 eexists. split; [done |]. by constructor.
  - cbn [enabled] in He. destruct c; try done. cbn [advance]; unfold next_node, execute_node, split_queue, scheduled_edge, continue, completed_node, completed_edge, notify. destruct (events s !! n) as [[| | st |] |] eqn:Ev; try done.
    do 2 eexists. split; [done |]. by constructor.
  - cbn [advance]; unfold next_node, execute_node, split_queue, scheduled_edge, continue, completed_node, completed_edge, notify. destruct Hok as (Hn & _). rewrite (ok_out _ Hg n Hn). cbn [mbind res_bind].
    do 2 eexists. split; [done |]. constructor.
  - destruct Hok as (Hn & _ & _ & Hb). destruct es as [| e es]; cbn [advance]; unfold next_node, execute_node, split_queue, scheduled_edge, continue, completed_node, completed_edge, notify.
    + destruct d; [| do 2 eexists; split; [done | constructor]].
      destruct (Z.eqb_spec (pending_nodes s) 1); (do 2 eexists; split; [done | by constructor]).
    + apply Forall_cons in Hb as [Hb _]. destruct (process_edge_spec s e q Hi Hb Hq) as (cnt & q' & Ec & Hp & E).
      destruct ps; cbn [negb andb]; [rewrite E; cbn [mbind res_bind]; do 2 eexists; split; [done | by constructor; [left | ..]] |].
      destruct (sched_or_exec e) as [Hs | Hx].
      * rewrite bool_decide_true by done. do 2 eexists. split; [done |]. by constructor.
      * rewrite bool_decide_false by (unfold exec in Hx; congruence). rewrite E. cbn [mbind res_bind].
        do 2 eexists. split; [done |]. constructor; [by right | done | done].
  - cbn [advance]; unfold next_node, execute_node, split_queue, scheduled_edge, continue, completed_node, completed_edge, notify. do 2 eexists. split; [done |]. constructor.
Qed.
End Steps.
End ThunkSteps.

(** ** The thunk executor: the invariant is kept

    Every move of a thread, and the completion of a thunk, keep the invariant. *)
Module ThunkMoves.
Import ExecGraph ThunkExec ThunkCore ThunkInv ThunkSteps.

Section Moves.
Context {Q Error : Type} `{QueueLaws Q}.
Context (g : ExecutionGraph).
Hypothesis Hg : graph_ok g.

Abbreviation State := (ExecuteState Q Error).
Abbreviation Thr := (ThunkExec.Thread Q Error).
Abbreviation inv := (inv g).
Abbreviation move := (move g).
Implicit Types s : State.

(** ** Queues *)

Lemma inv_running s before q after ts :
  inv s → threads s = before ++ Running q :: after →
  Forall (λ t, match t with Running q | Popped _ q => queue_ok q | _ => False end) ts →
  ts ≫= ready ≡ₚ elements q →
  inv (set_threads (before ++ ts ++ after) s).
Proof.
  intros Hi Et Hok Hr.
  assert (Hz : ∀ f : Thr → nat, (∀ q, f (Running q) = 0%nat) → (∀ n q, f (Popped n q) = 0%nat) → sum_list (f <$> ts) = 0%nat).
  { intros f H1 H2. clear Hr. induction Hok as [| t ts Ht Hts IH]; [done |]. cbn. rewrite IH. destruct t; try done; by rewrite ?H1, ?H2. }
  apply (inv_local g) with (t := Running q); try done.
  - intros i. by apply Hz.
  - by apply Hz.
  - apply (Forall_impl _ _ _ Hok). intros [] Ht; done.
  - by intros n e _ [[] | []].
  - by apply Hz.
Qed.

Lemma inv_popped s before n q after ts :
  inv s → threads s = before ++ Popped n q :: after →
  Forall (λ t, match t with Running q | Popped _ q => queue_ok q | _ => False end) ts →
  ts ≫= ready ≡ₚ n :: elements q →
  inv (set_threads (before ++ ts ++ after) s).
Proof.
  intros Hi Et Hok Hr.
  assert (Hz : ∀ f : Thr → nat, (∀ q, f (Running q) = 0%nat) → (∀ n q, f (Popped n q) = 0%nat) → sum_list (f <$> ts) = 0%nat).
  { intros f H1 H2. clear Hr. induction Hok as [| t ts Ht Hts IH]; [done |]. cbn. rewrite IH. destruct t; try done; by rewrite ?H1, ?H2. }
  apply (inv_local g) with (t := Popped n q); try done.
  - intros i. by apply Hz.
  - by apply Hz.
  - apply (Forall_impl _ _ _ Hok). intros [] Ht; done.
  - by intros m e _ [[] | []].
  - by apply Hz.
Qed.

(** ** An edge processed *)

Lemma inv_edge s before t t' after m cnt :
  inv s → threads s = before ++ t :: after → counters s !! m = Some cnt →
  (∀ i, owed g i t = ((if decide (m = i) then 1 else 0) + owed g i t')%nat) → drops g t' = drops g t →
  pushed m cnt (thread_queue t) (thread_queue t') → ready t = elements (thread_queue t) → ready t' = elements (thread_queue t') →
  thread_ok g (events s) t' → (∀ n, awaits n t → awaits n t') → (∀ n e, reports n e t → reports n e t') →
  notifying t' = notifying t →
  inv (set_threads (before ++ [t'] ++ after) (set_counters (<[m := cnt - 1]> (counters s)) s)).
Proof.
  intros Hi Et Hm Ho Hd [Hq Hp] Hr Hr' Hok Ha Hre Hn. apply (inv_quiet g) with (t := t); try done.
  - apply (core_edge g) with (t := t); try done; [by rewrite Hr, Hr' | rewrite <- Et; apply (i_core _ _ Hi)].
  - by constructor.
  - intros n _ Hn'. constructor. by apply Ha.
  - intros n e _ [H1 | H1]; constructor; [left; by apply Ha | right; by apply Hre].
  - cbn. lia.
Qed.

(** ** A thunk begins *)

Lemma inv_start s before n q t' after e :
  inv s → threads s = before ++ Popped n q :: after → e ≠ NotStarted →
  (∀ i, owed g i t' = edges_to i (outs g n)) → drops g t' = is_sink_node g n → ready t' = elements q →
  thread_ok g (<[n := e]> (events s)) t' → notifying t' = 0%nat →
  (e = Pending → awaits n t') → (∀ err, e = Available (Some err) → reports n err t') → (e = Skipped → abort s = true) →
  inv (set_threads (before ++ [t'] ++ after) (set_events (<[n := e]> (events s)) s)).
Proof.
  intros Hi Et Hne Ho Hd Hr Hok Hnt Hp Hav Hsk. pose proof (popped_node g s _ _ _ _ Hi Et) as [Hn Hns].
  pose proof (i_core _ _ Hi) as Hc. rewrite Et in Hc. pose proof (i_threads _ _ Hi) as Hall. rewrite Et in Hall.
  apply Forall_app in Hall as [H1 [_ H2]%Forall_cons]. pose proof (lookup_lt_Some _ _ _ Hns) as Ln.
  assert (Hold : ∀ (P : Thr → Prop), ¬ P (Popped n q) → Exists P (threads s) → Exists P (before ++ [t'] ++ after)).
  { intros P Hnp. rewrite Et, !Exists_app, Exists_cons. tauto. }
  assert (Hev : ∀ m e', m ≠ n → <[n := e]> (events s) !! m = Some e' → events s !! m = Some e').
  { intros m e' Hm. by rewrite list_lookup_insert_ne. }
  assert (Hat : ∀ e', <[n := e]> (events s) !! n = Some e' → e = e').
  { intros e'. rewrite list_lookup_insert_eq by done. by intros [= ->]. }
  assert (Hnew : ∀ (P : Thr → Prop), P t' → Exists P (before ++ [t'] ++ after)).
  { intros P HP. rewrite !Exists_app, Exists_cons. tauto. }
  constructor; cbn [set_threads set_events counters events pending_nodes abort abort_status execute_event threads].
  - by apply (core_start g) with (q := q).
  - rewrite !Forall_app, Forall_cons. split; [| split; [split; [done | constructor] |]].
    + apply (Forall_impl _ _ _ H1). intros t. by apply (thread_ok_insert g _ n NotStarted); [| left |].
    + apply (Forall_impl _ _ _ H2). intros t. by apply (thread_ok_insert g _ n NotStarted); [| left |].
  - intros m Hm. destruct (decide (m = n)) as [-> | Hmn]; [by apply Hnew, Hp, Hat |].
    apply (Hold (awaits m)); [by intros [] |]. by apply (i_handled _ _ Hi), Hev.
  - intros m err Hm. destruct (decide (m = n)) as [-> | Hmn]; [right; apply Hnew; right; by apply Hav, Hat |].
    destruct (i_failed _ _ Hi m err) as [? | He]; [by apply Hev | by left | right].
    apply (Hold (λ t, awaits m t ∨ reports m err t)); [by intros [[] | []] | done].
  - intros m Hm. destruct (decide (m = n)) as [-> | Hmn]; [by apply Hsk, Hat | by apply (i_skipped _ _ Hi m), Hev].
  - apply (i_status _ _ Hi).
  - intros err Her. destruct (i_error _ _ Hi err Her) as (m & Hm). exists m. rewrite list_lookup_insert_ne; [done |]. congruence.
  - rewrite <- (i_event _ _ Hi), Et, !fmap_app, !sum_list_app. cbn. lia.
  - apply (i_result _ _ Hi).
Qed.

Lemma popped_queue s before n q after : inv s → threads s = before ++ Popped n q :: after → queue_ok q.
Proof. intros Hi Et. by destruct (inv_thread g s _ _ _ Hi Et). Qed.

Lemma inv_async s before n q after :
  inv s → threads s = before ++ Popped n q :: after →
  inv (set_threads (before ++ [Scheduling n (outs g n) false q] ++ after) (set_events (<[n := Pending]> (events s)) s)).
Proof.
  intros Hi Et. pose proof (popped_node g s _ _ _ _ Hi Et) as [Hn Hns].
  apply (inv_start s before n q); try done.
  - intros i. cbn [owed]. by rewrite <- edges_to_split.
  - cbn [drops]. unfold is_sink_node. by rewrite orb_false_r.
  - split; [by eapply popped_queue |]. split; [done |]. split; [| by exists []].
    exists Pending. rewrite list_lookup_insert_eq by (by eapply lookup_lt_Some). done.
Qed.

Lemma inv_inline s before n q after e status :
  inv s → threads s = before ++ Popped n q :: after → (e = Available status ∨ e = Skipped ∧ status = None ∧ abort s = true) →
  inv (set_threads (before ++ [Completed n status true (is_sink g n) q] ++ after) (set_events (<[n := e]> (events s)) s)).
Proof.
  intros Hi Et He. pose proof (popped_node g s _ _ _ _ Hi Et) as [Hn Hns]. pose proof (lookup_lt_Some _ _ _ Hns) as Ln.
  apply (inv_start s before n q); try done.
  - by destruct He as [-> | (-> & _)].
  - split; [by eapply popped_queue |]. split; [done |]. unfold finished. rewrite list_lookup_insert_eq by done.
    split; [destruct He as [-> | (-> & _)]; eauto |]. split; [unfold counted, is_sink; cbn; by rewrite orb_false_r |].
    intros err ->. destruct He as [-> | (_ & [=] & _)]. done.
  - by destruct He as [-> | (-> & _)].
  - intros err ->. destruct He as [[= <-] | [[=] _]]. done.
  - intros ->. by destruct He as [[=] | (_ & _ & ?)].
Qed.
(** ** A thunk under way *)

Lemma sum_single (f : Thr → nat) t : sum_list (f <$> [t]) = f t.
Proof. cbn. lia. Qed.

Lemma filter_sched_cons e es : filter sched (e :: es) = if decide (sched e) then e :: filter sched es else filter sched es.
Proof. apply filter_cons. Qed.

Lemma not_sched e : exec e → ¬ sched e.
Proof. unfold exec, sched. congruence. Qed.

Lemma has_sched_app es es' : has_sched (es ++ es') = has_sched es || has_sched es'.
Proof. apply existsb_app. Qed.

Lemma has_sched_one e : has_sched [e] = bool_decide (sched e).
Proof. cbn. by rewrite orb_false_r. Qed.

Lemma inv_over s before n e es inc q after :
  inv s → threads s = before ++ Scheduling n (e :: es) inc q :: after → exec e →
  inv (set_threads (before ++ [Scheduling n es inc q] ++ after) s).
Proof.
  intros Hi Et Hx. destruct (inv_thread g s _ _ _ Hi Et) as (Hq & Hn & Hs & pre & Eo & Hinc).
  apply (inv_local g) with (t := Scheduling n (e :: es) inc q); try done.
  - intros i. rewrite sum_single. cbn [owed]. rewrite filter_sched_cons, decide_False by (by apply not_sched). lia.
  - cbn. by rewrite app_nil_r.
  - constructor; [| done]. split; [done |]. split; [done |]. split; [done |]. exists (pre ++ [e]).
    split; [by rewrite <- app_assoc |]. destruct inc; [done |].
    rewrite has_sched_app, Hinc, has_sched_one. apply bool_decide_false. by apply not_sched.
  - intros m _ Ha. by constructor.
  - intros m err _ [Ha | []]. constructor. by left.
Qed.

Lemma inv_schedule s before n e es q q' cnt after :
  inv s → threads s = before ++ Scheduling n (e :: es) true q :: after →
  sched e → counters s !! id e = Some cnt → pushed (id e) cnt q q' →
  inv (set_threads (before ++ [Scheduling n es true q'] ++ after) (set_counters (<[id e := cnt - 1]> (counters s)) s)).
Proof.
  intros Hi Et Hs Hc Hp. destruct (inv_thread g s _ _ _ Hi Et) as (Hq & Hn & Hst & pre & Eo & Hinc).
  apply (inv_edge s before (Scheduling n (e :: es) true q)); try done.
  - intros i. cbn [owed]. rewrite filter_sched_cons, decide_True, edges_to_cons by done. lia.
  - split; [apply Hp |]. split; [done |]. split; [done |]. exists (pre ++ [e]). by rewrite <- app_assoc.
Qed.

(** A thread awaits a thunk only when some node is pending. *)
Lemma pending_positive s before t after n :
  inv s → threads s = before ++ t :: after → awaits n t → 0 < pending_nodes s.
Proof.
  intros Hi Et Ha. pose proof (i_core _ _ Hi) as Hc.
  assert (Hnz : pending_nodes s ≠ 0).
  { intros Hz. apply (none_awaits g Hg _ _ _ _ Hc (i_threads _ _ Hi) n t Hz); [| done].
    rewrite Et, elem_of_app. right. by left. }
  rewrite (c_pending _ _ _ _ _ Hc) in *. lia.
Qed.

Lemma inv_inc s before n e es q after :
  inv s → threads s = before ++ Scheduling n (e :: es) false q :: after → sched e →
  inv (set_threads (before ++ [Scheduling n (e :: es) true q] ++ after) (set_pending (pending_nodes s + 1) s)).
Proof.
  intros Hi Et Hs. destruct (inv_thread g s _ _ _ Hi Et) as (Hq & Hn & Hst & pre & Eo & Hinc).
  pose proof (pending_positive s _ _ _ n Hi Et eq_refl) as Hpos.
  apply (inv_replace g s before (Scheduling n (e :: es) false q)); try done.
  - cbn [counters set_pending pending_nodes].
    pose proof (i_core _ _ Hi) as Hc. rewrite Et in Hc.
    apply (core_pending g) with (t' := Scheduling n (e :: es) true q) in Hc; [| done | done].
    cbn [drops] in Hc. rewrite orb_true_r, orb_false_r, (bool_decide_false (outs g n = [])) in Hc.
    + by replace (pending_nodes s + 1) with (pending_nodes s + Z.of_nat 1 - Z.of_nat 0) by lia.
    + rewrite Eo. by destruct pre.
  - constructor; [| done]. split; [done |]. split; [done |]. split; [done |]. exists pre. split; [done |].
    apply has_sched_spec. exists e. split; [| done]. rewrite Eo, elem_of_app. right. by left.
  - intros m _ Ha. by constructor.
  - intros m err _ [Ha | []]. right. constructor. by left.
  - apply (i_status _ _ Hi).
  - apply (i_error _ _ Hi).
  - pose proof (i_event _ _ Hi) as He. rewrite Et, fmap_app, sum_list_app in He. cbn in *.
    destruct (Z.eqb_spec (pending_nodes s) 0), (Z.eqb_spec (pending_nodes s + 1) 0); lia.
  - apply (i_result _ _ Hi).
Qed.

Lemma inv_wait s before n inc q q' after :
  inv s → threads s = before ++ Scheduling n [] inc q :: after → queue_ok q' → elements q' = [] →
  inv (set_threads (before ++ [Running q; Waiting n (is_sink g n || inc) q'] ++ after) s).
Proof.
  intros Hi Et Hq' He. destruct (inv_thread g s _ _ _ Hi Et) as (Hq & Hn & Hst & pre & Eo & Hinc).
  apply (inv_local g) with (t := Scheduling n [] inc q); try done.
  - cbn. by rewrite He, app_nil_r.
  - constructor; [done |]. constructor; [| done]. split; [done |]. split; [done |]. split; [done |]. split; [done |].
    unfold counted, is_sink. cbn. f_equal. rewrite app_nil_r in Eo. subst pre. by destruct inc.
  - intros m _ Ha. by apply Exists_cons_tl, Exists_cons_hd.
  - intros m err _ [Ha | []]. apply Exists_cons_tl, Exists_cons_hd. by left.
Qed.

Lemma inv_resume s before n d q status after :
  inv s → threads s = before ++ Waiting n d q :: after → events s !! n = Some (Available status) →
  inv (set_threads (before ++ [Completed n status false d q] ++ after) s).
Proof.
  intros Hi Et Hev. destruct (inv_thread g s _ _ _ Hi Et) as (Hq & Hn & Hst & He & Hct).
  apply (inv_local g) with (t := Waiting n d q); try done.
  - cbn. by rewrite app_nil_r.
  - constructor; [| done]. split; [done |]. split; [done |]. split; [right; by exists status |]. split; [done |].
    intros err ->. done.
  - intros m Hp Ha. cbn in Ha. subst m. congruence.
  - intros m err Hm [Ha | []]. cbn in Ha. subst m. constructor. right. cbn. rewrite Hev in Hm. by injection Hm as ->.
Qed.
(** ** A thunk completed *)

Lemma outs_in n : (n < nodes g)%nat → Forall (λ e, (id e < nodes g)%nat) (outs g n).
Proof. intros Hn. apply Forall_forall. intros e He. by apply (ok_up _ Hg n e Hn). Qed.

(** No node is pending when the event is set. *)
Lemma event_pending s n st ps d q : inv s → Completed n st ps d q ∈ threads s → execute_event s = Unavailable.
Proof.
  intros Hi Ht. pose proof (i_event _ _ Hi) as He. destruct (execute_event s) eqn:Ee; [done | ..]; exfalso.
  all: destruct (Z.eqb_spec (pending_nodes s) 0) as [Hz |]; [| cbn in He; lia].
  all: by apply (none_completed g Hg _ _ _ _ (i_core _ _ Hi) (i_threads _ _ Hi) n st ps d q Hz).
Qed.

Lemma inv_complete s before n status ps d q after :
  inv s → threads s = before ++ Completed n status ps d q :: after →
  inv (set_threads (before ++ [Completing n (outs g n) ps d q] ++ after)
    (match status with Some e => record_error e s | None => s end)).
Proof.
  intros Hi Et. destruct (inv_thread g s _ _ _ Hi Et) as (Hq & Hn & Hf & Hct & Hst).
  assert (Hu : execute_event s = Unavailable).
  { eapply (event_pending s n status); [done |]. rewrite Et, elem_of_app. right. by left. }
  set (s' := match status with Some e => record_error e s | None => s end).
  assert (Hs' : counters s' = counters s ∧ pending_nodes s' = pending_nodes s ∧ events s' = events s ∧
    execute_event s' = execute_event s) by (by destruct status).
  destruct Hs' as (E1 & E2 & E3 & E4).
  apply (inv_replace g s before (Completed n status ps d q)); rewrite ?E1, ?E2, ?E3, ?E4; try done.
  - apply (core_local g) with (t := Completed n status ps d q).
    + intros i. rewrite sum_single. cbn. by destruct ps.
    + by rewrite sum_single.
    + cbn. by rewrite app_nil_r.
    + rewrite <- Et. apply (i_core _ _ Hi).
  - constructor; [| done]. split; [done |]. split; [done |]. split; [done |]. split; [done |]. by apply outs_in.
  - destruct status; [done | by intros].
  - intros m err Hm [[] | Hr]. left. cbn in Hr. destruct status as [e |]; [done | done].
  - subst s'. destruct status as [e |]; [| apply (i_status _ _ Hi)]. cbn. split; [| done]. intros _.
    by destruct (abort_status s).
  - subst s'. intros e He. destruct status as [e' |]; [| by apply (i_error _ _ Hi)]. cbn in He.
    destruct (abort_status s) as [e0 |] eqn:E0; [apply (i_error _ _ Hi); congruence |]. injection He as <-.
    exists n. by apply Hst.
  - rewrite <- (i_event _ _ Hi), Et, fmap_app, sum_list_app. cbn. lia.
  - by rewrite Hu.
Qed.

Lemma inv_past s before n e es d q after :
  inv s → threads s = before ++ Completing n (e :: es) false d q :: after → sched e →
  inv (set_threads (before ++ [Completing n es false d q] ++ after) s).
Proof.
  intros Hi Et Hs. destruct (inv_thread g s _ _ _ Hi Et) as (Hq & Hn & Hf & Hct & Hb).
  apply (inv_local g) with (t := Completing n (e :: es) false d q); try done.
  - intros i. rewrite sum_single. cbn [owed]. rewrite filter_cons, decide_False; [done |]. unfold sched, exec in *. congruence.
  - cbn. by rewrite app_nil_r.
  - constructor; [| done]. apply Forall_cons in Hb as [_ Hb]. done.
  - by intros m err _ [[] | []].
Qed.

Lemma inv_completing_edge s before n e es ps d q q' cnt after :
  inv s → threads s = before ++ Completing n (e :: es) ps d q :: after →
  ps = true ∨ exec e → counters s !! id e = Some cnt → pushed (id e) cnt q q' →
  inv (set_threads (before ++ [Completing n es ps d q'] ++ after) (set_counters (<[id e := cnt - 1]> (counters s)) s)).
Proof.
  intros Hi Et Hp Hc Hq'. destruct (inv_thread g s _ _ _ Hi Et) as (Hq & Hn & Hf & Hct & Hb).
  apply (inv_edge s before (Completing n (e :: es) ps d q)); try done.
  - intros i. cbn [owed]. destruct ps; [by rewrite edges_to_cons |]. destruct Hp as [Hp | Hp]; [done |].
    by rewrite filter_cons, decide_True, edges_to_cons.
  - split; [apply Hq' |]. apply Forall_cons in Hb as [_ Hb]. done.
Qed.

(** The node is no longer pending. *)
Lemma inv_drop s before n ps q t' after :
  inv s → threads s = before ++ Completing n [] ps true q :: after →
  t' = (if pending_nodes s =? 1 then Notifying q else Running q) →
  inv (set_threads (before ++ [t'] ++ after) (set_pending (pending_nodes s - 1) s)).
Proof.
  intros Hi Et Ht'. destruct (inv_thread g s _ _ _ Hi Et) as (Hq & Hn & Hf & Hct & Hb).
  pose proof (i_core _ _ Hi) as Hc. rewrite Et in Hc. pose proof (c_pending _ _ _ _ _ Hc) as Hpos.
  rewrite sum_one in Hpos. cbn [drops] in Hpos.
  assert (Et' : drops g t' = 0%nat ∧ ready t' = elements q ∧ (∀ i, owed g i t' = 0%nat) ∧
    thread_ok g (events s) t' ∧ notifying t' = if pending_nodes s =? 1 then 1%nat else 0%nat).
  { subst t'. by destruct (pending_nodes s =? 1). }
  destruct Et' as (D1 & D2 & D3 & D4 & D5).
  apply (inv_replace g s before (Completing n [] ps true q)); try done.
  - cbn [counters set_pending pending_nodes]. apply (core_pending g) with (t' := t') in Hc; [| intros i; rewrite D3; by destruct ps | done].
    cbn [drops] in Hc. rewrite D1 in Hc.
    by replace (pending_nodes s - 1) with (pending_nodes s + Z.of_nat 0 - Z.of_nat 1) by lia.
  - by constructor.
  - by intros m err _ [[] | []].
  - apply (i_status _ _ Hi).
  - apply (i_error _ _ Hi).
  - rewrite sum_single, D5. pose proof (i_event _ _ Hi) as He. rewrite Et, sum_one in He. cbn [notifying] in He.
    cbn [set_pending pending_nodes execute_event].
    destruct (Z.eqb_spec (pending_nodes s) 0), (Z.eqb_spec (pending_nodes s) 1), (Z.eqb_spec (pending_nodes s - 1) 0); lia.
  - apply (i_result _ _ Hi).
Qed.

Lemma inv_on s before n ps q after :
  inv s → threads s = before ++ Completing n [] ps false q :: after →
  inv (set_threads (before ++ [Running q] ++ after) s).
Proof.
  intros Hi Et. destruct (inv_thread g s _ _ _ Hi Et) as (Hq & _).
  apply (inv_local g) with (t := Completing n [] ps false q); try done.
  - intros i. rewrite sum_single. by destruct ps.
  - cbn. by rewrite app_nil_r.
  - by constructor.
  - by intros m err _ [[] | []].
Qed.

(** The event of the execution is set. *)
Lemma inv_notify s before q after :
  inv s → threads s = before ++ Notifying q :: after →
  inv (set_threads (before ++ [Running q] ++ after)
    (set_event (if abort s then Failed (abort_status s) else Concrete) s)).
Proof.
  intros Hi Et. destruct (inv_thread g s _ _ _ Hi Et) as (Hq & _).
  pose proof (i_core _ _ Hi) as Hc. rewrite Et in Hc. pose proof (i_event _ _ Hi) as He. rewrite Et, sum_one in He. cbn [notifying] in He.
  apply (inv_replace g s before (Notifying q)); try done.
  - apply (core_local g) with (t := Notifying q); try done.
    cbn. by rewrite app_nil_r.
  - by constructor.
  - by intros m err _ [[] | []].
  - apply (i_status _ _ Hi).
  - apply (i_error _ _ Hi).
  - rewrite sum_single. cbn. destruct (Z.eqb_spec (pending_nodes s) 0); [| lia].
    destruct (abort s); cbn; destruct (execute_event s); cbn in He; lia.
  - cbn. by destruct (abort s).
Qed.

(** ** All of them *)

Lemma move_inv s before t after ts s' :
  inv s → threads s = before ++ t :: after → move s t ts s' → inv (set_threads (before ++ ts ++ after) s').
Proof.
  intros Hi Et Hm. destruct Hm as [q Hs | q n q' Hq' Hs | n q popped q' Hp Hq' Hne Hs | n q q' Hq' Hne Hs | | | | | | | | | | | | | | |].
  - apply inv_running with (q := q); [done | done | constructor | by rewrite Hs].
  - apply inv_running with (q := q); [done | done | by constructor |]. cbn. by rewrite app_nil_r, Hs.
  - apply inv_popped with (n := n) (q := q); [done | done | by repeat constructor |].
    cbn. rewrite app_nil_r, Hs. constructor. apply Permutation_app_comm.
  - apply inv_popped with (n := n) (q := q); [done | done | |].
    + repeat constructor; [by eapply popped_queue | done].
    + cbn. rewrite app_nil_r, Hs. symmetry. apply Permutation_cons_append.
  - by apply inv_async.
  - apply inv_inline; [done | done | by left].
  - apply inv_inline; [done | done | by right].
  - by apply inv_over with (e := e).
  - by apply inv_inc.
  - by apply inv_schedule with (q := q).
  - by apply inv_wait.
  - by apply inv_resume.
  - by apply inv_complete.
  - by apply inv_past with (e := e).
  - by apply inv_completing_edge with (q := q).
  - apply inv_drop with (n := n) (ps := ps) (q := q); [done | done |]. by rewrite (proj2 (Z.eqb_eq _ _)).
  - apply inv_drop with (n := n) (ps := ps) (q := q); [done | done |]. by rewrite (proj2 (Z.eqb_neq _ _)).
  - by apply inv_on with (n := n) (ps := ps).
  - by apply inv_notify.
Qed.
End Moves.
End ThunkMoves.
