(* ===== verification/ThunkRuns.v ===== *)
(** * The thunk executor: runs

    The invariant holds along every run, every run is of bounded length, and a run that
    cannot go on has finished everything. *)
From S2P Require Import Prelude ExecGraph ExecBuild ExecReduce ExecCreate ThunkQueues ThunkExec ThunkCore ThunkInv ThunkMoves.
#[local] Open Scope Z_scope.

Module ThunkRuns.
Import ExecGraph ThunkExec ThunkCore ThunkInv ThunkSteps ThunkMoves.

Section States.
Context {Q Error : Type} `{QueueLaws Q}.
Context (g : ExecutionGraph).
Hypothesis Hg : graph_ok g.

Abbreviation State := (ExecuteState Q Error).
Abbreviation Thr := (ThunkExec.Thread Q Error).
Abbreviation inv := (inv g).
Implicit Types s : State.

(** ** A thunk completes *)

Lemma inv_available s n status :
  inv s → events s !! n = Some Pending → inv (set_events (<[n := Available status]> (events s)) s).
Proof.
  intros Hi Hn. pose proof (lookup_lt_Some _ _ _ Hn) as Ln.
  constructor; cbn [set_events counters events pending_nodes abort abort_status execute_event threads].
  - eapply core_complete; [done | done | done | apply (i_core _ _ Hi)].
  - apply (Forall_impl _ _ _ (i_threads _ _ Hi)). intros t. apply (thread_ok_insert g _ n Pending); [done | by right | done].
  - intros m Hm. destruct (decide (m = n)) as [-> | Hmn]; [by rewrite list_lookup_insert_eq in Hm |].
    rewrite list_lookup_insert_ne in Hm by done. by apply (i_handled _ _ Hi).
  - intros m e Hm. destruct (decide (m = n)) as [-> | Hmn].
    + right. apply (Exists_impl _ _ _ (i_handled _ _ Hi n Hn)). by left.
    + rewrite list_lookup_insert_ne in Hm by done. by apply (i_failed _ _ Hi).
  - intros m Hm. destruct (decide (m = n)) as [-> | Hmn]; [by rewrite list_lookup_insert_eq in Hm |].
    rewrite list_lookup_insert_ne in Hm by done. by apply (i_skipped _ _ Hi m).
  - apply (i_status _ _ Hi).
  - intros e He. destruct (i_error _ _ Hi e He) as (m & Hm). exists m. rewrite list_lookup_insert_ne; [done | congruence].
  - apply (i_event _ _ Hi).
  - apply (i_result _ _ Hi).
Qed.

(** ** What a state costs *)

Definition size (q : Q) : nat := length (elements q).
Definition loop_cost (k : nat) : nat := match k with O => 1 | S k => 2 * (k * k + k) + 2 end%nat.
Definition popped_cost (k : nat) : nat := (2 * (k * k + k) + 1)%nat.
Definition handling_cost (k : nat) : nat := (2 * (k * k + k) + 3)%nat.
Definition edge_cost : nat := (4 * nodes g + 8)%nat.
Definition out_cost (n : nat) : nat := (edge_cost * length (outs g n))%nat.

Definition thread_cost (t : Thr) : nat :=
  match t with
  | Running q => loop_cost (size q)
  | Popped _ q => popped_cost (size q)
  | Scheduling n es inc q =>
      handling_cost (size q) + edge_cost * length es + (if inc then 0 else 1) + out_cost n + 20
  | Waiting n _ _ => out_cost n + 10
  | Completed n _ _ _ q => handling_cost (size q) + out_cost n + 4
  | Completing n es _ _ q => handling_cost (size q) + edge_cost * length es + 2
  | Notifying q => handling_cost (size q) + 1
  end%nat.

Definition node_cost (n : nat) (e : ThunkEvent Error) : nat :=
  match e with NotStarted => 2 * out_cost n + 30 | Pending => 1 | _ => 0 end%nat.
Definition event_cost (evs : list (ThunkEvent Error)) (n : nat) : nat :=
  match evs !! n with Some e => node_cost n e | None => 0 end%nat.

Definition cost s : nat := (sum_nodes (nodes g) (event_cost (events s)) + sum_list (thread_cost <$> threads s))%nat.

Lemma event_cost_insert evs n e e' :
  evs !! n = Some e → (n < nodes g)%nat →
  (sum_nodes (nodes g) (event_cost evs) + node_cost n e' =
   sum_nodes (nodes g) (event_cost (<[n := e']> evs)) + node_cost n e)%nat.
Proof.
  intros Hn Hl. pose proof (lookup_lt_Some _ _ _ Hn) as Ln.
  assert (E1 : event_cost evs n = node_cost n e) by (unfold event_cost; by rewrite Hn).
  assert (E2 : event_cost (<[n := e']> evs) n = node_cost n e') by (unfold event_cost; by rewrite list_lookup_insert_eq).
  rewrite <- E1, <- E2. apply sum_nodes_update; [done |]. intros i Hi. unfold event_cost. by rewrite list_lookup_insert_ne.
Qed.

Lemma size_bound s before t after : inv s → threads s = before ++ t :: after → (length (ready t) ≤ nodes g)%nat.
Proof.
  intros Hi Et. pose proof (i_core _ _ Hi) as Hc. rewrite Et in Hc.
  pose proof (c_once _ _ _ _ _ Hc) as Hn. rewrite bind_app in Hn. cbn in Hn.
  apply NoDup_app in Hn as (_ & _ & Hn). apply NoDup_app in Hn as (Hn & _ & _).
  rewrite <- (length_seq (nodes g) 0). apply submseteq_length, NoDup_submseteq; [done |].
  intros x Hx. apply elem_of_seq.
  assert (Hin : x ∈ (before ++ t :: after) ≫= ready) by (rewrite bind_app; cbn; rewrite !elem_of_app; tauto).
  apply (c_ready _ _ _ _ _ Hc) in Hin as [Hin _]. apply lookup_lt_Some in Hin. rewrite (c_events _ _ _ _ _ Hc) in Hin. lia.
Qed.

Lemma size_perm (q : Q) l : elements q ≡ₚ l → size q = length l.
Proof. unfold size. by intros ->. Qed.

Lemma pushed_cost m cnt q q' :
  pushed m cnt q q' → (size q ≤ nodes g)%nat → (handling_cost (size q') < handling_cost (size q) + edge_cost)%nat.
Proof.
  intros [_ Hp%size_perm] Hs. rewrite Hp. unfold handling_cost, edge_cost, size in *. destruct (cnt =? 1); cbn [length]; nia.
Qed.

Lemma loop_handling k : (loop_cost k < handling_cost k)%nat.
Proof. unfold handling_cost. destruct k; cbn [loop_cost]; nia. Qed.

Lemma split_cost a b : (0 < b)%nat → (popped_cost a + loop_cost b < popped_cost (b + a))%nat.
Proof. intros Hb. destruct b as [| b]; [lia |]. unfold popped_cost. cbn [loop_cost]. nia. Qed.

Lemma sum_pair (f : Thr → nat) t t' : sum_list (f <$> [t; t']) = (f t + f t')%nat.
Proof. cbn. lia. Qed.

(** Every move costs something. *)
Lemma move_cost s before t after ts s' :
  inv s → threads s = before ++ t :: after → move g s t ts s' → (cost (set_threads (before ++ ts ++ after) s') < cost s)%nat.
Proof.
  intros Hi Et Hm.
  assert (Hgoal : (sum_nodes (nodes g) (event_cost (events s')) + sum_list (thread_cost <$> ts) <
    sum_nodes (nodes g) (event_cost (events s)) + thread_cost t)%nat); [| unfold cost; cbn [set_threads events threads]; rewrite Et, sum_middle, sum_one; lia].
  pose proof (size_bound s before t after Hi Et) as Hb.
  destruct Hm as [q Hs | q n q' Hq' Hs | n q popped q' Hp Hq' Hne Hs | n q q' Hq' Hne Hs | n q | n q status | n q Hab |
    n e es inc q Hx | n e es q Hs | n e es q q' cnt Hs Hc Hp | n inc q q' Hq' Hs | n d q status He | n status ps d q |
    n e es d q Hs | n e es ps d q q' cnt Hs Hc Hp | n ps q Hp | n ps q Hp | n ps q | q];
    rewrite ?sum_single, ?sum_pair; cbn [thread_cost ready thread_queue length set_events set_pending set_counters set_event events] in *.
  - cbn. unfold size. rewrite Hs. cbn. lia.
  - rewrite (size_perm _ _ Hs). cbn [length loop_cost]. fold (size q'). unfold popped_cost. lia.
  - rewrite (size_perm _ _ Hs), length_app. fold (size popped) (size q').
    assert (Hpos : (0 < size popped)%nat) by (unfold size; by destruct (elements popped); [| cbn; lia]).
    pose proof (split_cost (size q') (size popped) Hpos). lia.
  - rewrite (size_perm _ _ Hs). unfold size. destruct (elements q) as [| x l]; [done |]. unfold popped_cost. cbn. nia.
  - destruct (popped_node g s _ _ _ _ Hi Et) as [Hn Hns]. pose proof (event_cost_insert _ n _ Pending Hns Hn) as Hev.
    cbn [node_cost] in Hev. unfold out_cost in *. unfold handling_cost, popped_cost. lia.
  - destruct (popped_node g s _ _ _ _ Hi Et) as [Hn Hns]. pose proof (event_cost_insert _ n _ (Available status) Hns Hn) as Hev.
    cbn [node_cost] in Hev. unfold handling_cost, popped_cost. lia.
  - destruct (popped_node g s _ _ _ _ Hi Et) as [Hn Hns]. pose proof (event_cost_insert _ n _ Skipped Hns Hn) as Hev.
    cbn [node_cost] in Hev. unfold handling_cost, popped_cost. lia.
  - unfold edge_cost. lia.
  - lia.
  - pose proof (pushed_cost _ _ _ _ Hp Hb). lia.
  - pose proof (loop_handling (size q)). destruct inc; lia.
  - destruct (inv_thread g s _ _ _ Hi Et) as (_ & _ & _ & Hz & _). unfold size. rewrite Hz. cbn. lia.
  - destruct status as [e |]; cbn [record_error events]; unfold out_cost; lia.
  - unfold edge_cost. lia.
  - pose proof (pushed_cost _ _ _ _ Hp Hb). lia.
  - lia.
  - pose proof (loop_handling (size q)). lia.
  - pose proof (loop_handling (size q)). lia.
  - pose proof (loop_handling (size q)). lia.
Qed.

(** ** States at rest *)

(** Without threads there is no node left: the first that had not begun would be ready. *)
Lemma no_threads_started s i : inv s → threads s = [] → (i < nodes g)%nat → events s !! i ≠ Some NotStarted.
Proof.
  intros Hi Et. pose proof (i_core _ _ Hi) as Hc. rewrite Et in Hc.
  induction i as [i IH] using lt_wf_ind. intros Hin Hn.
  assert (Hnz : counters s !! i ≠ Some 0).
  { intros Hz. apply (elem_of_nil i). apply (c_ready _ _ _ _ _ Hc). done. }
  rewrite (c_count _ _ _ _ _ Hc i Hin) in Hnz. cbn in Hnz.
  destruct (decide (0 < sum_nodes (nodes g) (unstarted (events s) (λ j, edges_to i (outs g j))))%nat) as [Hp |];
    [| apply Hnz; f_equal; lia].
  apply sum_nodes_positive in Hp as (j & Hj & Hp). unfold unstarted in Hp.
  destruct (events s !! j) as [[] |] eqn:Ej; try lia. apply edges_to_positive in Hp as (e & He & <-).
  pose proof (ok_up _ Hg j e Hj He). apply (IH j); [lia | done | done].
Qed.

Lemma no_threads_pending s : inv s → threads s = [] → pending_nodes s = 0.
Proof.
  intros Hi Et. pose proof (i_core _ _ Hi) as Hc. rewrite (c_pending _ _ _ _ _ Hc), Et. cbn.
  enough (sum_nodes (nodes g) (unstarted (events s) (is_sink_node g)) = 0)%nat by lia.
  destruct (decide (0 < sum_nodes (nodes g) (unstarted (events s) (is_sink_node g)))%nat) as [Hp |]; [| lia].
  apply sum_nodes_positive in Hp as (j & Hj & Hp). exfalso. apply (no_threads_started s j Hi Et Hj). unfold unstarted in Hp.
  by destruct (events s !! j) as [[] |]; try lia.
Qed.

Lemma pending_event s : inv s → (execute_event s ≠ Unavailable → pending_nodes s = 0) ∧
  (threads s = [] → execute_event s ≠ Unavailable).
Proof.
  intros Hi. pose proof (i_event _ _ Hi) as He. split.
  - intros Hne. destruct (Z.eqb_spec (pending_nodes s) 0); [done |]. destruct (execute_event s); cbn in He; [done | lia | lia].
  - intros Et Hu. pose proof (no_threads_pending s Hi Et) as Hp. rewrite Hp, Et, Hu in He. done.
Qed.

(** ** What holds of the thunks *)

(** The edges to a thunk that has begun have been processed. *)
Lemma started_before s m i k :
  inv s → started (events s) i → (m < nodes g)%nat → MkEdge k i ∈ outs g m →
  started (events s) m ∧ (k = kExecution → finished (events s) m).
Proof.
  intros Hi (ei & Hei & Hne) Hm He. pose proof (i_core _ _ Hi) as Hc. pose proof (ok_up _ Hg m _ Hm He) as Hup. cbn in Hup.
  destruct (lookup_lt_is_Some_2 (events s) m) as [em Hem]; [by rewrite (c_events _ _ _ _ _ Hc) |].
  assert (Hns : em ≠ NotStarted).
  { intros ->. pose proof (edge_unstarted g Hg _ _ _ _ Hc m _ Hm Hem He) as Hu. cbn in Hu. congruence. }
  split; [by exists em |]. intros ->. destruct em as [| | st |]; [done | | right; by exists st | by left].
  exfalso. pose proof (i_handled _ _ Hi m Hem) as Hex. apply Exists_exists in Hex as (t & Ht & Ha).
  assert (Ho : (0 < owed g i t)%nat).
  { assert (Hpos : (0 < edges_to i (filter exec (outs g m)))%nat).
    { apply edges_to_positive. exists (MkEdge kExecution i). split; [| done]. by apply list_elem_of_filter. }
    destruct t; cbn in Ha |- *; try done; subst; lia. }
  pose proof (owed_unstarted g _ _ _ _ Hc i t ltac:(lia) Ht Ho). congruence.
Qed.

(** The counters a thread is about to decrement. *)
Lemma thread_counters s before t after :
  inv s → threads s = before ++ t :: after →
  match t with
  | Popped n _ => counters s !! n = Some 0 ∧ events s !! n = Some NotStarted
  | Scheduling _ (e :: _) true _ => kind e = kScheduling → ∃ cnt, counters s !! id e = Some cnt ∧ 1 ≤ cnt
  | Completing _ (e :: _) ps _ _ => ps = true ∨ kind e = kExecution → ∃ cnt, counters s !! id e = Some cnt ∧ 1 ≤ cnt
  | Completing _ [] _ true _ => 1 ≤ pending_nodes s
  | Notifying q => elements q = []
  | _ => True
  end.
Proof.
  intros Hi Et. pose proof (i_core _ _ Hi) as Hc. pose proof (inv_thread g s _ _ _ Hi Et) as [_ Hok].
  assert (Ht : t ∈ threads s) by (rewrite Et, elem_of_app; right; by left).
  assert (Hcount : ∀ e, (id e < nodes g)%nat → (0 < owed g (id e) t)%nat → ∃ cnt, counters s !! id e = Some cnt ∧ 1 ≤ cnt).
  { intros e He Ho. eexists. split; [by apply (c_count _ _ _ _ _ Hc) |].
    pose proof (sum_member (owed g (id e)) (threads s) t Ht). lia. }
  destruct t as [q | n q | n [| e es] [] q | n d q | n st ps d q | n [| e es] ps [] q | q]; try done.
  - apply and_comm, (c_ready _ _ _ _ _ Hc), list_elem_of_bind. exists (Popped n q). split; [by left | done].
  - intros Hk. destruct Hok as (Hn & _ & pre & Eo & _). apply Hcount.
    + assert (He : e ∈ outs g n) by (rewrite Eo, elem_of_app; right; by left). pose proof (ok_up _ Hg n e Hn He). lia.
    + cbn [owed]. rewrite filter_sched_cons, decide_True, edges_to_cons, decide_True by done. lia.
  - pose proof (sum_member (drops g) (threads s) _ Ht) as Hd. cbn in Hd. rewrite (c_pending _ _ _ _ _ Hc). lia.
  - intros Hk. destruct Hok as (_ & _ & _ & [Hb _]%Forall_cons). apply Hcount; [done |]. cbn [owed].
    destruct ps; [rewrite edges_to_cons, decide_True by done; lia |]. destruct Hk as [Hk | Hk]; [done |].
    rewrite filter_cons, decide_True, edges_to_cons, decide_True by done. lia.
  - intros Hk. destruct Hok as (_ & _ & _ & [Hb _]%Forall_cons). apply Hcount; [done |]. cbn [owed].
    destruct ps; [rewrite edges_to_cons, decide_True by done; lia |]. destruct Hk as [Hk | Hk]; [done |].
    rewrite filter_cons, decide_True, edges_to_cons, decide_True by done. lia.
  - assert (Hp : pending_nodes s = 0).
    { pose proof (i_event _ _ Hi) as He. rewrite Et, sum_one in He. cbn [notifying] in He.
      destruct (Z.eqb_spec (pending_nodes s) 0); [done | lia]. }
    destruct (elements q) as [| x l] eqn:Eq; [done |]. exfalso.
    assert (Hx : events s !! x = Some NotStarted).
    { apply (c_ready _ _ _ _ _ Hc), list_elem_of_bind. exists (Notifying q). split; [cbn; rewrite Eq; by left | done]. }
    apply (all_started g Hg _ _ _ _ Hc x Hp); [| done]. apply lookup_lt_Some in Hx. by rewrite (c_events _ _ _ _ _ Hc) in Hx.
Qed.

(** The event of the execution tells what became of the thunks. *)
Lemma event_tells s :
  inv s →
  match execute_event s with
  | Unavailable => True
  | Concrete => ∀ n, (n < nodes g)%nat → events s !! n = Some (Available None)
  | Failed st => (∀ n, (n < nodes g)%nat → finished (events s) n) ∧
      ∃ e n, st = Some e ∧ events s !! n = Some (Available (Some e))
  end.
Proof.
  intros Hi. pose proof (i_result _ _ Hi) as Hr. pose proof (proj1 (pending_event s Hi)) as Hp.
  destruct (execute_event s) as [| | st] eqn:Ee; [done | |]; specialize (Hp ltac:(done)).
  - intros n Hn. destruct (all_finished g Hg s n Hi Hp Hn) as [Hs | [st Hs]].
    + pose proof (i_skipped _ _ Hi n Hs). congruence.
    + destruct st as [e |]; [| done]. exfalso. destruct (i_failed _ _ Hi n e Hs) as [Ha | Hex]; [congruence |].
      apply Exists_exists in Hex as (t & Ht & [Ha | Ha]).
      * by apply (none_awaits g Hg _ _ _ _ (i_core _ _ Hi) (i_threads _ _ Hi) n t Hp Ht).
      * destruct t as [| | | | m [e' |] ps d q | |]; cbn in Ha; try done.
        by apply (none_completed g Hg _ _ _ _ (i_core _ _ Hi) (i_threads _ _ Hi) m (Some e') ps d q Hp).
  - split; [intros n Hn; by apply (all_finished g Hg) |]. destruct Hr as [Ha ->].
    apply (i_status _ _ Hi) in Ha as [e He]. destruct (i_error _ _ Hi e He) as (n & Hn). by exists e, n.
Qed.

(** How a thunk's event changes in a step, and that the execution's is set once. *)
Definition event_step (e e' : ThunkEvent Error) : Prop :=
  e' = e ∨ (e = NotStarted ∧ e' ≠ NotStarted) ∨ (e = Pending ∧ ∃ status, e' = Available status).

Lemma event_step_insert (evs : list (ThunkEvent Error)) n e e' m e1 :
  evs !! n = Some e → event_step e e' → evs !! m = Some e1 → ∃ e2, <[n := e']> evs !! m = Some e2 ∧ event_step e1 e2.
Proof.
  intros Hn He Hm. pose proof (lookup_lt_Some _ _ _ Hn) as Ln. destruct (decide (m = n)) as [-> | Hmn].
  - exists e'. rewrite list_lookup_insert_eq by done. split; [done |]. congruence.
  - exists e1. rewrite list_lookup_insert_ne by done. split; [done | by left].
Qed.
End States.

(** ** Steps and runs *)

Section Runs.
Context {Q Error : Type} `{QueueLaws Q}.
Context (thunks : list Thunk) (g : ExecutionGraph) (params : ExecuteParams).
Hypothesis Hg : graph_ok g.
Hypothesis Hthunks : length thunks = nodes g.
Hypothesis Hsplit : 0 ≤ split_threshold params.

Abbreviation State := (ExecuteState Q Error).
Abbreviation Thr := (ThunkExec.Thread Q Error).
Abbreviation inv := (inv g).
Abbreviation cost := (cost g).
Abbreviation step := (step thunks g params (Q:=Q) (Error:=Error)).
Implicit Types s : State.

(** A step is a move of some thread, or the completion of a thunk. *)
Lemma step_cases s s' :
  inv s → step s s' →
  (∃ before t after ts s1, threads s = before ++ t :: after ∧ move g s t ts s1 ∧ s' = set_threads (before ++ ts ++ after) s1) ∨
  (∃ n status, events s !! n = Some Pending ∧ s' = set_events (<[n := Available status]> (events s)) s).
Proof.
  intros Hi Hs. revert Hi. destruct Hs as [s1 s2 before t c ts after Et He Ha | s1 n status Hn]; intros Hi; [left | right; eauto].
  destruct (advance_move thunks g params Hg Hthunks Hsplit s1 before t c after Hi Et He) as (ts' & s3 & E & Hm).
  rewrite Ha in E. injection E as <- <-. by exists before, t, after, ts, s2.
Qed.

Lemma step_inv s s' : inv s → step s s' → inv s'.
Proof.
  intros Hi Hs. destruct (step_cases s s' Hi Hs) as [(b & t & a & ts & s1 & Et & Hm & ->) | (n & st & Hn & ->)].
  - by eapply move_inv.
  - by apply (inv_available g).
Qed.

Lemma steps_inv s s' : inv s → rtc step s s' → inv s'.
Proof. intros Hi. induction 1 as [| s1 s2 s3 H1 H2 IH]; [done |]. apply IH. by eapply step_inv. Qed.

Lemma step_cost s s' : inv s → step s s' → (cost s' < cost s)%nat.
Proof.
  intros Hi Hs. destruct (step_cases s s' Hi Hs) as [(b & t & a & ts & s1 & Et & Hm & ->) | (n & st & Hn & ->)].
  - by eapply (move_cost g).
  - unfold cost. cbn [set_events events threads]. pose proof (lookup_lt_Some _ _ _ Hn) as Ln.
    rewrite (c_events _ _ _ _ _ (i_core _ _ Hi)) in Ln.
    pose proof (event_cost_insert g _ n _ (Available st) Hn Ln) as Hev. cbn [node_cost] in Hev. lia.
Qed.

Lemma run_bounded s k s' : inv s → nsteps step k s s' → (k ≤ cost s)%nat.
Proof.
  intros Hi Hk. revert Hi. induction Hk as [s | k s1 s2 s3 H1 H2 IH]; intros Hi; [lia |].
  pose proof (step_cost s1 s2 Hi H1). pose proof (IH (step_inv s1 s2 Hi H1)). lia.
Qed.

(** Some thread may move as long as there is one and every thunk has completed. *)
Lemma thread_moves s before t after :
  inv s → threads s = before ++ t :: after → (∀ n, events s !! n ≠ Some Pending) → ∃ s', step s s'.
Proof.
  intros Hi Et Hp.
  assert (He : ∃ c, enabled thunks params t c s = true).
  { destruct t as [q | n q | n es inc q | n d q | n st ps d q | n es ps d q | q]; try (by exists Proceed).
    - destruct (must_offload thunks params n q) eqn:Eo; [by exists Offload |]. exists RunAsync. cbn. by rewrite Eo.
    - exists Proceed. cbn. destruct (inv_thread g s _ _ _ Hi Et) as (_ & _ & (e & Hn & H1 & H2) & _).
      rewrite Hn. destruct e; [done | by destruct (Hp n) | done | done]. }
  destruct He as [c He]. destruct (advance_move thunks g params Hg Hthunks Hsplit s _ _ _ _ Hi Et He) as (ts & s' & E & _).
  eexists. by eapply step_thread.
Qed.

Lemma quiet_no_threads s : inv s → (∀ s', ¬ step s s') → threads s = [].
Proof.
  intros Hi Hq. destruct (threads s) as [| t ts] eqn:Et; [done |]. exfalso.
  destruct (thread_moves s [] t ts Hi Et) as [s' Hs]; [| by eapply Hq].
  intros n Hn. eapply Hq. by apply (step_complete _ _ _ s n None).
Qed.

Lemma step_events s s' n e :
  inv s → step s s' → events s !! n = Some e → ∃ e', events s' !! n = Some e' ∧ event_step e e'.
Proof.
  intros Hi Hs Hn. destruct (step_cases s s' Hi Hs) as [(b & t & a & ts & s1 & Et & Hm & ->) | (m & st & Hm & ->)].
  - assert (Hkeep : events s1 = events s → ∃ e', events s1 !! n = Some e' ∧ event_step e e').
    { intros ->. exists e. split; [done | by left]. }
    destruct Hm; try (apply Hkeep; done);
      try (destruct (popped_node g s _ _ _ _ Hi Et) as [_ Hns]; apply (event_step_insert _ _ _ _ _ _ Hns); [right; left; done | done]).
    apply Hkeep. by destruct status.
  - apply (event_step_insert _ _ _ _ _ _ Hm); [| done]. right. right. by split; [| exists st].
Qed.

Lemma step_event_once s s' :
  inv s → step s s' → execute_event s ≠ Unavailable → execute_event s' = execute_event s.
Proof.
  intros Hi Hs Hne. destruct (step_cases s s' Hi Hs) as [(b & t & a & ts & s1 & Et & Hm & ->) | (m & st & Hm & ->)]; [| done].
  destruct Hm; try done; [by destruct status |]. exfalso.
  pose proof (i_event _ _ Hi) as He. rewrite Et, sum_one in He. cbn [notifying] in He.
  destruct (execute_event s); [done | |]; cbn in He; destruct (pending_nodes s =? 0); lia.
Qed.
End Runs.
End ThunkRuns.

(** ** The thunk executor: the graph and the first state

    A graph that [Create] returns is one the executor can work with, and the state
    [Execute] starts from satisfies the invariant. *)
Module ThunkGraph.
Import ExecGraph ExecDeps ExecBuild ExecPaths ExecReduce ExecCreate ThunkExec ThunkCore ThunkInv ThunkRuns.

(** ** The graph *)

Lemma sorted_once (l : list nat) : StronglySorted lt l → NoDup l.
Proof.
  induction 1 as [| x l Hl IH Hx]; [constructor |]. apply NoDup_cons. split; [| done].
  rewrite Forall_forall in Hx. intros Hin%Hx. lia.
Qed.

Section Graph.
Context (g : ExecutionGraph) (bs : list NodeDefBuilder).
Hypothesis Hw : wf bs.
Hypothesis Hg : shows g bs.

Lemma shows_outs i b : bs !! i = Some b → outs g i = out_edges b.
Proof. intros Hb. unfold outs. destruct (g_nodes _ _ Hg i b Hb) as (_ & E & _). by rewrite E. Qed.

Lemma shows_ins i b : bs !! i = Some b → ins g i = in_edges b.
Proof. intros Hb. unfold ins. destruct (g_nodes _ _ Hg i b Hb) as (E & _). by rewrite E. Qed.

Lemma node_builder i : (i < nodes g)%nat → ∃ b, bs !! i = Some b.
Proof. unfold nodes. rewrite (g_length _ _ Hg). apply lookup_lt_is_Some_2. Qed.

Lemma shown_edge j k i : (j < nodes g)%nat → MkEdge k i ∈ outs g j ↔ edge bs j k i.
Proof.
  intros Hj. destruct (node_builder j Hj) as [b Hb]. rewrite (shows_outs j b Hb). unfold edge.
  split; [by exists b |]. intros (b' & Hb' & He). by simplify_eq.
Qed.

Lemma shows_ok : graph_ok g.
Proof.
  assert (Hlen : nodes g = length bs) by (unfold nodes; apply (g_length _ _ Hg)).
  constructor.
  - intros i Hi. destruct (node_builder i Hi) as [b Hb]. rewrite (shows_outs i b Hb). by destruct (g_nodes _ _ Hg i b Hb) as (_ & ? & _).
  - intros i Hi. destruct (node_builder i Hi) as [b Hb]. rewrite (shows_ins i b Hb). by destruct (g_nodes _ _ Hg i b Hb) as (? & _).
  - intros i [k m] Hi He%shown_edge; [| done]. rewrite Hlen. by apply (wf_up _ Hw) in He.
  - intros i Hi. destruct (node_builder i Hi) as [b Hb]. rewrite (shows_outs i b Hb). by apply sorted_once, (wf_out _ Hw i).
  - intros i Hi. destruct (node_builder i Hi) as [b Hb]. rewrite (shows_ins i b Hb). by apply sorted_once, (wf_in _ Hw i).
  - intros i j k Hi. destruct (node_builder i Hi) as [b Hb]. rewrite (shows_ins i b Hb), (wf_match _ Hw j k i b Hb). split.
    + intros He. assert (Hj : (j < nodes g)%nat) by (rewrite Hlen; apply (wf_up _ Hw) in He; lia).
      split; [done |]. by apply shown_edge.
    + intros [Hj He]. by apply shown_edge.
  - split; [apply (g_once _ _ Hg) |]. intros i. rewrite (g_source _ _ Hg). split.
    + intros (b & Hb & E). rewrite (shows_ins i b Hb), Hlen. split; [by eapply lookup_lt_Some | done].
    + intros [Hi E]. destruct (node_builder i Hi) as [b Hb]. exists b. by rewrite (shows_ins i b Hb) in E.
  - split; [apply (g_once _ _ Hg) |]. intros i. rewrite (g_sink _ _ Hg). split.
    + intros (b & Hb & E). rewrite (shows_outs i b Hb), Hlen. split; [by eapply lookup_lt_Some | done].
    + intros [Hi E]. destruct (node_builder i Hi) as [b Hb]. exists b. by rewrite (shows_outs i b Hb) in E.
Qed.
End Graph.

(** ** Counting *)

Lemma sum_nodes_filter n f (P : nat → Prop) `{∀ i, Decision (P i)} :
  (∀ i, (i < n)%nat → f i = if decide (P i) then 1%nat else 0%nat) → sum_nodes n f = length (filter P (seq 0 n)).
Proof.
  intros Hf. rewrite (sum_nodes_ext n f (λ i, if decide (P i) then 1%nat else 0%nat) Hf). unfold sum_nodes. clear Hf.
  induction (seq 0 n) as [| x l IH]; [done |]. rewrite filter_cons.
  transitivity ((if decide (P x) then 1 else 0) + sum_list ((λ i, if decide (P i) then 1%nat else 0%nat) <$> l))%nat; [done |].
  rewrite IH. by destruct (decide (P x)).
Qed.

Lemma filter_seq_length n (P : nat → Prop) `{∀ i, Decision (P i)} l :
  NoDup l → (∀ x, x ∈ l ↔ (x < n)%nat ∧ P x) → length (filter P (seq 0 n)) = length l.
Proof.
  intros Hl Hx. apply Permutation_length, NoDup_Permutation; [apply NoDup_filter, NoDup_seq | done |].
  intros x. rewrite list_elem_of_filter, elem_of_seq, Hx. split; [intros [? ?]; split; [lia | done] | intros [? ?]; split; [done | lia]].
Qed.

Section Start.
Context (g : ExecutionGraph).
Hypothesis Hg : graph_ok g.

(** Each edge to a node is an out-edge of one other node. *)
Lemma in_degree i : (i < nodes g)%nat → sum_nodes (nodes g) (λ j, edges_to i (outs g j)) = length (ins g i).
Proof.
  intros Hi. rewrite (sum_nodes_filter _ _ (λ j, j ∈ (id <$> ins g i))).
  - rewrite (filter_seq_length _ _ (id <$> ins g i)); [by rewrite length_fmap | by apply (ok_in_once _ Hg) |].
    intros j. split; [| tauto]. intros Hj. split; [| done]. apply list_elem_of_fmap in Hj as ([k j'] & -> & He).
    by apply (ok_mirror _ Hg) in He as [? _].
  - intros j Hj. pose proof (edges_to_once i (outs g j) (ok_out_once _ Hg j Hj)) as Hle.
    assert (Hpos : (0 < edges_to i (outs g j))%nat ↔ j ∈ (id <$> ins g i)).
    { rewrite edges_to_positive, list_elem_of_fmap. split.
      - intros ([k i'] & He & E). cbn in E. subst i'. exists (MkEdge k j). split; [done |]. by apply (ok_mirror _ Hg).
      - intros ([k j'] & -> & He). apply (ok_mirror _ Hg) in He as [_ He]; [| done]. by exists (MkEdge k i). }
    destruct (decide _) as [Hin | Hnot]; [apply Hpos in Hin; lia |].
    destruct (decide (0 < edges_to i (outs g j))%nat) as [Hp%Hpos |]; [done | lia].
Qed.

Lemma sink_count : sum_nodes (nodes g) (is_sink_node g) = length (sink_ g).
Proof.
  rewrite (sum_nodes_filter _ _ (λ j, outs g j = [])).
  - destruct (ok_sink _ Hg) as [H1 H2]. by apply filter_seq_length.
  - intros i _. unfold is_sink_node. by case_bool_decide; destruct (decide _).
Qed.

Lemma some_sink : (0 < nodes g)%nat → (0 < length (sink_ g))%nat.
Proof.
  intros Hn. destruct (ok_sink _ Hg) as [_ Hs]. assert (Hin : (nodes g - 1)%nat ∈ sink_ g).
  { apply Hs. split; [lia |]. destruct (outs g (nodes g - 1)) as [| e es] eqn:E; [done |].
    assert (He : e ∈ outs g (nodes g - 1)) by (rewrite E; by left). apply (ok_up _ Hg) in He; lia. }
  destruct (sink_ g); [by apply elem_of_nil in Hin | cbn; lia].
Qed.

Context {Q Error : Type} `{QueueLaws Q}.

Definition start : ExecuteState Q Error :=
  MkState ((λ i, Z.of_nat (length (ins g i))) <$> seq 0 (nodes g)) (Z.of_nat (length (sink_ g)))
    false None Unavailable (replicate (nodes g) NotStarted) [Running (queue_of (source_ g))].

Lemma init_start : init g = Ok start.
Proof.
  unfold init. fold (nodes g).
  assert (E : mapM (node_in_edges g) (seq 0 (nodes g)) = Ok (ins g <$> seq 0 (nodes g))).
  { apply mapM_pure. intros i Hi%elem_of_seq. apply (ok_in _ Hg). lia. }
  rewrite E. cbn [mbind res_bind]. unfold start. by rewrite <- list_fmap_compose.
Qed.

Lemma start_counters i : (i < nodes g)%nat → counters start !! i = Some (Z.of_nat (length (ins g i))).
Proof. intros Hi. unfold start. cbn [counters]. rewrite list_lookup_fmap, lookup_seq_lt by done. done. Qed.

Lemma start_events i : (i < nodes g)%nat → events start !! i = Some NotStarted.
Proof. intros Hi. by apply lookup_replicate. Qed.

Lemma start_core : core g (counters start) (events start) (pending_nodes start) (threads start).
Proof.
  destruct (queue_of_elements (Q:=Q) (source_ g)) as [Hq Hs]. destruct (ok_source _ Hg) as [S1 S2].
  assert (Hsum : ∀ f, sum_nodes (nodes g) (unstarted (events start) f) = sum_nodes (nodes g) f).
  { intros f. apply sum_nodes_ext. intros i Hi. unfold unstarted. by rewrite start_events. }
  assert (Hlen : length (counters start) = nodes g) by (cbn; by rewrite length_fmap, length_seq).
  constructor; [done | cbn; by rewrite length_replicate | ..].
  - intros i Hi. rewrite start_counters by done. rewrite Hsum, in_degree by done. cbn. f_equal. lia.
  - rewrite Hsum, sink_count. cbn. lia.
  - cbn. by rewrite app_nil_r, Hs.
  - intros i. change (threads start ≫= ready) with (elements (queue_of (source_ g)) ++ []). rewrite app_nil_r, Hs, S2. split.
    + intros [Hi E]. rewrite start_events, start_counters, E by done. done.
    + intros [_ Hc]. pose proof (lookup_lt_Some _ _ _ Hc) as Hi. rewrite Hlen in Hi. split; [done |].
      rewrite start_counters in Hc by done. injection Hc as Hc. by destruct (ins g i).
  - intros i e He Hne. apply lookup_replicate in He as [-> _]. done.
Qed.

Lemma start_inv : (0 < nodes g)%nat → inv g start.
Proof.
  intros Hn. pose proof (some_sink Hn) as Hs.
  assert (Hno : ∀ n e, events start !! n = Some e → e = NotStarted) by (intros n e [-> _]%lookup_replicate; done).
  constructor.
  - apply start_core.
  - constructor; [| done]. split; [apply queue_of_elements | done].
  - by intros n ?%Hno.
  - by intros n e ?%Hno.
  - by intros n ?%Hno.
  - cbn. split; [done | by intros [? ?]].
  - done.
  - cbn. destruct (Z.eqb_spec (Z.of_nat (length (sink_ g))) 0); [lia | done].
  - done.
Qed.

(** How long a run can be, in the number of nodes. *)
Definition run_bound (n : nat) : nat := (8 * n * n * n + 18 * n * n + 30 * n + 2)%nat.

Lemma outs_few i : (i < nodes g)%nat → (length (outs g i) ≤ nodes g)%nat.
Proof.
  intros Hi. rewrite <- (length_fmap id), <- (length_seq (nodes g) 0).
  apply submseteq_length, NoDup_submseteq; [by apply (ok_out_once _ Hg) |].
  intros x (e & -> & He)%list_elem_of_fmap. apply elem_of_seq. pose proof (ok_up _ Hg i e Hi He). lia.
Qed.

Lemma sum_nodes_bound n f k : (∀ i, (i < n)%nat → (f i ≤ k)%nat) → (sum_nodes n f ≤ n * k)%nat.
Proof.
  intros Hf. unfold sum_nodes. assert (Hb : ∀ i, i ∈ seq 0 n → (f i ≤ k)%nat) by (intros i Hi%elem_of_seq; apply Hf; lia).
  rewrite <- (length_seq n 0) at 2. induction (seq 0 n) as [| x l IH]; [done |].
  pose proof (Hb x ltac:(by left)). pose proof (IH ltac:(intros i Hi; apply Hb; by right)).
  cbn in *. unfold Datatypes.id in *. lia.
Qed.

Lemma start_cost : (cost g start ≤ run_bound (nodes g))%nat.
Proof.
  unfold cost. assert (Hn : (sum_nodes (nodes g) (event_cost g (events start)) ≤
    nodes g * (2 * ((4 * nodes g + 8) * nodes g) + 30))%nat).
  { apply sum_nodes_bound. intros i Hi. unfold event_cost. rewrite start_events by done. cbn [node_cost].
    unfold out_cost, edge_cost. pose proof (outs_few i Hi). nia. }
  assert (Hq : (size (queue_of (source_ g) : Q) ≤ nodes g)%nat).
  { destruct (queue_of_elements (Q:=Q) (source_ g)) as [_ Hp]. unfold size. rewrite Hp, <- (length_seq (nodes g) 0).
    destruct (ok_source _ Hg) as [H1 H2]. apply submseteq_length, NoDup_submseteq; [done |].
    intros x [Hx _]%H2. apply elem_of_seq. lia. }
  assert (Hl : (loop_cost (size (queue_of (source_ g) : Q)) ≤ 2 * nodes g * nodes g + 2)%nat).
  { destruct (size _) as [| k]; cbn [loop_cost]; nia. }
  cbn [threads start fmap list_fmap sum_list sum_list_with thread_cost]. unfold Datatypes.id, run_bound. nia.
Qed.
End Start.
End ThunkGraph.
