(* ===== verification/ThunkCorrect.v ===== *)
(** * The thunk executor: the properties

    What the executor promises, however its threads interleave: the order of the thunks,
    that nothing fails, that it terminates, that it completes everything, and what the
    event of the execution says.  Each has a concrete instance. *)
From stdpp Require Import relations.
From S2P Require Import Prelude ExecGraph ExecBuild ExecReduce ExecCreate ExecCorrect ThunkQueues ThunkExec ThunkCore ThunkInv ThunkMoves ThunkRuns.
#[local] Open Scope Z_scope.

Module ThunkCorrect.
Import ExecGraph ExecDeps ExecBuild ExecPaths ExecReduce ExecCreate ExecCorrect ThunkExec ThunkCore ThunkInv ThunkSteps ThunkRuns ThunkGraph.

(** ** Thunks that can be executed *)

Definition ops_of (thunks : list Thunk) : list Operation := operation <$> thunks.

Definition thunks_ok (thunks : list Thunk) : Prop :=
  Forall op_ok (ops_of thunks) ∧ (0 < length thunks)%nat ∧ Z.of_nat (length thunks) ≤ max_NodeId.

(** What the executor needs of the graph of its thunks. *)
Record built (thunks : list Thunk) (g : ExecutionGraph) : Prop := {
  b_graph : graph_ok g;
  b_nodes : length thunks = nodes g;
  b_before : ∀ j i a b k, (j < i)%nat → thunks !! j = Some a → thunks !! i = Some b →
    dependency (operation a) (operation b) = Some k →
    ∃ k' m, MkEdge k' m ∈ outs g j ∧ kind_gt k k' = false ∧ (m = i ∨ tc (λ x y, ∃ k, MkEdge k y ∈ outs g x) m i)
}.

Lemma Create_built thunks : thunks_ok thunks → ∃ g, Create (ops_of thunks) = Ok g ∧ built thunks g.
Proof.
  intros (Hops & _ & Hl). assert (Ln : length (ops_of thunks) = length thunks) by apply length_fmap.
  destruct (Create_spec (ops_of thunks) Hops) as (g & bs & E & Hk & _ & Hg & Lb); [by rewrite Ln |].
  pose proof (k_wf _ _ Hk) as Hw. exists g. split; [done |].
  assert (Hnodes : nodes g = length bs) by (unfold nodes; apply (g_length _ _ Hg)).
  assert (Hedge : ∀ j k i, edge bs j k i → MkEdge k i ∈ outs g j).
  { intros j k i He. pose proof (wf_up _ Hw _ _ _ He). apply (shown_edge g bs Hg); [lia | done]. }
  constructor.
  - by apply (shows_ok g bs).
  - by rewrite Hnodes, Lb, Ln.
  - intros j i a b k Hji Ha Hb Hd.
    assert (Hs : before bs k j i).
    { apply (k_before _ _ Hk), edge_before, stage_edge. unfold dep, ops_of.
      rewrite !list_lookup_fmap, Ha, Hb. cbn. by rewrite decide_True. }
    destruct Hs as (k' & m & He & Hgt & Hp). exists k', m. split; [by apply Hedge |]. split; [done |].
    destruct Hp as [-> | Hp]; [by left | right]. clear -Hp Hedge. induction Hp as [x y [k E] | x y z [k E] _ IH].
    + apply tc_once. exists k. by apply Hedge.
    + eapply tc_l; [exists k; by apply Hedge | done].
Qed.

Lemma Create_built' thunks g : thunks_ok thunks → Create (ops_of thunks) = Ok g → built thunks g.
Proof. intros Hok E. destruct (Create_built thunks Hok) as (g' & E' & Hb). congruence. Qed.

(** ** The executor *)

Section Executor.
Context {Q Error : Type} `{QueueLaws Q}.
Context (thunks : list Thunk) (g : ExecutionGraph) (params : ExecuteParams).

Abbreviation State := (ExecuteState Q Error).
Abbreviation step := (step thunks g params (Q:=Q) (Error:=Error)).
Implicit Types s : State.

(** The states of an execution. *)
Definition reachable (s : State) : Prop := ∃ s0, init g = Ok s0 ∧ rtc step s0 s.

(** A thread of a state. *)
Definition at_work (t : Thread Q Error) (s : State) : Prop := t ∈ threads s.

Lemma reachable_inv s :
  thunks_ok thunks → 0 ≤ split_threshold params → Create (ops_of thunks) = Ok g → reachable s → built thunks g ∧ inv g s.
Proof.
  intros Hok Hs Hc (s0 & E & Hr). pose proof (Create_built' thunks g Hok Hc) as Hb. split; [done |].
  destruct Hok as (_ & Hpos & _). rewrite (init_start g (b_graph _ _ Hb)) in E. injection E as <-.
  eapply (steps_inv thunks g params (b_graph _ _ Hb) (b_nodes _ _ Hb) Hs); [| exact Hr].
  apply (start_inv g (b_graph _ _ Hb)). by rewrite <- (b_nodes _ _ Hb).
Qed.

Lemma path_started s m i :
  built thunks g → inv g s → (m < nodes g)%nat → tc (λ x y, ∃ k, MkEdge k y ∈ outs g x) m i →
  started (events s) i → started (events s) m.
Proof.
  intros Hb Hi Hm Hp Hs. induction Hp as [x y [k E] | x y z [k E] _ IH].
  - by apply (started_before g (b_graph _ _ Hb) s x y k Hi Hs Hm E).
  - pose proof (ok_up _ (b_graph _ _ Hb) x _ Hm E) as Hup. cbn in Hup.
    by apply (started_before g (b_graph _ _ Hb) s x y k Hi (IH ltac:(lia) Hs) Hm E).
Qed.

Lemma dependency_kept s j i a b k :
  built thunks g → inv g s → (j < i)%nat → thunks !! j = Some a → thunks !! i = Some b →
  dependency (operation a) (operation b) = Some k → started (events s) i →
  started (events s) j ∧ (k = kExecution → finished (events s) j).
Proof.
  intros Hb Hi Hji Ha Hbi Hd Hs. destruct (b_before _ _ Hb j i a b k Hji Ha Hbi Hd) as (k' & m & He & Hgt & Hp).
  assert (Hj : (j < nodes g)%nat) by (rewrite <- (b_nodes _ _ Hb); by eapply lookup_lt_Some).
  assert (Hm : started (events s) m).
  { destruct Hp as [-> | Hp]; [done |]. pose proof (ok_up _ (b_graph _ _ Hb) j _ Hj He) as Hup. cbn in Hup.
    apply (path_started s m i Hb Hi); [lia | done | done]. }
  destruct (started_before g (b_graph _ _ Hb) s j m k' Hi Hm Hj He) as [H1 H2]. split; [done |].
  intros ->. apply H2. by destruct k'.
Qed.

(** ** Runs by script *)

(** The thread at an index moves, or a thunk completes. *)
Inductive Act := Move (k : nat) (c : Choice Error) | Complete (n : nat) (status : option Error).

Definition act (a : Act) (s : State) : option State :=
  match a with
  | Move k c =>
      t ← threads s !! k;
      if enabled thunks params t c s
      then match advance thunks g t c s with
           | Ok (ts, s') => Some (set_threads (take k (threads s) ++ ts ++ drop (S k) (threads s)) s')
           | Fail _ => None
           end
      else None
  | Complete n status =>
      match events s !! n with
      | Some Pending => Some (set_events (<[n := Available status]> (events s)) s)
      | _ => None
      end
  end.

Definition play (acts : list Act) (s : State) : option State := foldl (λ o a, o ≫= act a) (Some s) acts.

Lemma act_step a s s' : act a s = Some s' → step s s'.
Proof.
  destruct a as [k c | n st]; cbn.
  - destruct (threads s !! k) as [t |] eqn:Et; [| done]. cbn. destruct (enabled thunks params t c s) eqn:Ee; [| done].
    destruct (advance thunks g t c s) as [[ts s1] |] eqn:Ea; [| done]. intros [= <-].
    apply step_thread with (t := t) (c := c); [| done | done]. symmetry. by apply take_drop_middle.
  - destruct (events s !! n) as [[] |] eqn:En; try done. intros [= <-]. by apply step_complete.
Qed.

Lemma play_none acts : foldl (λ o a, o ≫= act a) None acts = None.
Proof. by induction acts. Qed.

Lemma play_steps acts s s' : play acts s = Some s' → nsteps step (length acts) s s'.
Proof.
  revert s. induction acts as [| a acts IH]; intros s; unfold play; cbn; [intros [= <-]; constructor |].
  destruct (act a s) as [s1 |] eqn:Ea; [| by rewrite play_none]. intros Hp. econstructor; [by eapply act_step | by apply IH].
Qed.
End Executor.

(** ** A concrete execution *)

Definition demo_thunks : list Thunk := (λ op, MkThunk op false) <$> demo.

Lemma demo_thunks_ok : thunks_ok demo_thunks.
Proof. split; [exact demo_ok | split; [cbn; lia | by vm_compute]]. Qed.

Definition demo_graph : ExecutionGraph :=
  match Create (ops_of demo_thunks) with Ok g => g | Fail _ => MkGraph [] [] [] [] [] false end.

Lemma demo_created : Create (ops_of demo_thunks) = Ok demo_graph.
Proof. vm_compute. reflexivity. Qed.

Definition demo_params : ExecuteParams := MkParams true kSplitThreshold.
Definition demo_state : Type := ExecuteState Fifo.FifoReadyQueue nat.

Definition demo_start : demo_state :=
  match init demo_graph with Ok s => s | Fail _ => MkState [] 0 false None Unavailable [] [] end.

Lemma demo_init : init demo_graph = Ok demo_start.
Proof. vm_compute. reflexivity. Qed.

Definition go (n : nat) : list (Act (Error:=nat)) := replicate n (Move 0 Proceed).

(** The first thunk completes later; the second is under way, and has let the last one
    begin; the third is to be executed. *)
Definition first_acts : list (Act (Error:=nat)) :=
  go 1 ++ [Move 0 RunAsync] ++ go 4 ++ [Complete 0 None] ++ go 6 ++ [Move 0 RunAsync] ++ go 5.

(** The third fails, the others are skipped, and then the second completes. *)
Definition last_acts : list (Act (Error:=nat)) :=
  [Move 0 (RunInline (Some 13%nat))] ++ go 4 ++ [Move 0 SkipThunk] ++ go 3 ++ [Complete 1 None] ++ go 6 ++ [Move 0 SkipThunk] ++ go 4.

Definition after_acts (acts : list (Act (Error:=nat))) : demo_state :=
  match play demo_thunks demo_graph demo_params acts demo_start with Some s => s | None => demo_start end.

Definition demo_middle : demo_state := after_acts first_acts.
Definition demo_end : demo_state := after_acts (first_acts ++ last_acts).

Lemma demo_middle_reachable : reachable demo_thunks demo_graph demo_params demo_middle.
Proof.
  exists demo_start. split; [exact demo_init |]. apply rtc_nsteps_2 with (length first_acts), play_steps. vm_compute. reflexivity.
Qed.

Lemma demo_end_reachable : reachable demo_thunks demo_graph demo_params demo_end.
Proof.
  exists demo_start. split; [exact demo_init |]. apply rtc_nsteps_2 with (length (first_acts ++ last_acts)), play_steps. vm_compute. reflexivity.
Qed.

(** ** The properties *)

Section Properties.
Context {Q Error : Type} `{QueueLaws Q}.
Context (thunks : list Thunk) (g : ExecutionGraph) (params : ExecuteParams).

Abbreviation step := (step thunks g params (Q:=Q) (Error:=Error)).
Abbreviation reachable := (reachable thunks g params (Q:=Q) (Error:=Error)).
Implicit Types s : ExecuteState Q Error.

(** C9: in every state an execution can reach, whatever the threads, the queue and the
    completions of the thunks did, a thunk that has begun comes after the earlier ones it
    must wait for: those that race with it on memory or share a token with it have
    completed, and those that share a communicator with it have begun. *)
Theorem Execute_ordered s :
  thunks_ok thunks → 0 ≤ split_threshold params → Create (ops_of thunks) = Ok g → reachable s →
  ∀ j i a b, (j < i)%nat → thunks !! j = Some a → thunks !! i = Some b → started (events s) i →
    (must_finish (operation a) (operation b) → finished (events s) j) ∧
    (must_start (operation a) (operation b) → started (events s) j).
Proof.
  intros Hok Hsp Hc Hr j i a b Hji Ha Hb Hs. destruct (reachable_inv thunks g params s Hok Hsp Hc Hr) as [Hbt Hi].
  destruct Hok as (Hops & _). rewrite Forall_forall in Hops.
  assert (Oa : op_ok (operation a)) by (apply Hops, list_elem_of_fmap_2; by eapply list_elem_of_lookup_2).
  assert (Ob : op_ok (operation b)) by (apply Hops, list_elem_of_fmap_2; by eapply list_elem_of_lookup_2).
  split.
  - intros Hm. apply dependency_execution in Hm; [| done | done].
    by apply (dependency_kept thunks g s j i a b kExecution).
  - intros Hm. destruct (proj2 (dependency_some _ _ Oa Ob) (or_intror Hm)) as [k Hk].
    by apply (dependency_kept thunks g s j i a b k).
Qed.

(** C13: no step of a thread fails in a reachable state: the queue it takes a node from is
    not empty, the node it takes has a zero counter and has not begun, every index is in
    range, a counter it decrements is at least one, and nothing is queued when the
    execution is done. *)
Theorem Execute_defined s t c :
  thunks_ok thunks → 0 ≤ split_threshold params → Create (ops_of thunks) = Ok g → reachable s →
  at_work t s → enabled thunks params t c s = true →
  (∃ ts s', advance thunks g t c s = Ok (ts, s')) ∧
  match t with
  | Popped n _ => counters s !! n = Some 0 ∧ events s !! n = Some NotStarted
  | Scheduling _ (e :: _) true _ => kind e = kScheduling → ∃ cnt, counters s !! id e = Some cnt ∧ 1 ≤ cnt
  | Completing _ (e :: _) ps _ _ => ps = true ∨ kind e = kExecution → ∃ cnt, counters s !! id e = Some cnt ∧ 1 ≤ cnt
  | Completing _ [] _ true _ => 1 ≤ pending_nodes s
  | Notifying q => elements q = []
  | _ => True
  end.
Proof.
  intros Hok Hsp Hc Hr Ht He. destruct (reachable_inv thunks g params s Hok Hsp Hc Hr) as [Hbt Hi].
  pose proof Ht as Hl. apply list_elem_of_split in Hl as (before & after & Et). split.
  - destruct (advance_move thunks g params (b_graph _ _ Hbt) (b_nodes _ _ Hbt) Hsp s before t c after Hi Et He) as (ts & s' & E & _).
    by exists ts, s'.
  - apply (thread_counters g (b_graph _ _ Hbt) s before t after Hi Et).
Qed.

(** C11: an execution takes a bounded number of steps, whatever the choices: at most
    [8 n^3 + 18 n^2 + 30 n + 2] for [n] thunks. *)
Theorem Execute_terminates s0 k s :
  thunks_ok thunks → 0 ≤ split_threshold params → Create (ops_of thunks) = Ok g → init g = Ok s0 →
  nsteps step k s0 s → (k ≤ run_bound (length thunks))%nat.
Proof.
  intros Hok Hsp Hc E Hk. destruct (reachable_inv thunks g params s0 Hok Hsp Hc) as [Hbt Hi]; [by exists s0 |].
  pose proof (run_bounded thunks g params (b_graph _ _ Hbt) (b_nodes _ _ Hbt) Hsp s0 k s Hi Hk) as Hb.
  rewrite (init_start g (b_graph _ _ Hbt)) in E. injection E as <-.
  pose proof (start_cost g (b_graph _ _ Hbt) (Q:=Q) (Error:=Error)). rewrite (b_nodes _ _ Hbt). lia.
Qed.

(** C10: an execution that has come to rest has finished: no thread is left, every thunk
    has completed or was left out after an error, no node is pending, and the event of the
    execution is available. *)
Theorem Execute_completes s :
  thunks_ok thunks → 0 ≤ split_threshold params → Create (ops_of thunks) = Ok g → reachable s →
  (∀ s', ¬ step s s') →
  threads s = [] ∧ (∀ i, (i < length thunks)%nat → finished (events s) i) ∧
  pending_nodes s = 0 ∧ execute_event s ≠ Unavailable.
Proof.
  intros Hok Hsp Hc Hr Hq. destruct (reachable_inv thunks g params s Hok Hsp Hc Hr) as [Hbt Hi].
  pose proof (quiet_no_threads thunks g params (b_graph _ _ Hbt) (b_nodes _ _ Hbt) Hsp s Hi Hq) as Et.
  pose proof (no_threads_pending g (b_graph _ _ Hbt) s Hi Et) as Hp.
  split; [done |]. split; [| split; [done | by apply (pending_event g (b_graph _ _ Hbt) s Hi)]].
  intros i Hil. apply (all_finished g (b_graph _ _ Hbt)); [done | done | by rewrite <- (b_nodes _ _ Hbt)].
Qed.

(** C12: the event of an execution tells its outcome: when it is concrete every thunk has
    completed without an error; when it holds an error then every thunk has completed or
    was left out, and the error is that of a thunk.  Once set it never changes. *)
Theorem Execute_outcome s :
  thunks_ok thunks → 0 ≤ split_threshold params → Create (ops_of thunks) = Ok g → reachable s →
  match execute_event s with
  | Unavailable => True
  | Concrete => ∀ n, (n < length thunks)%nat → events s !! n = Some (Available None)
  | Failed st => (∀ n, (n < length thunks)%nat → finished (events s) n) ∧
      ∃ e n, st = Some e ∧ events s !! n = Some (Available (Some e))
  end ∧
  (execute_event s ≠ Unavailable → ∀ s', rtc step s s' → execute_event s' = execute_event s).
Proof.
  intros Hok Hsp Hc Hr. destruct (reachable_inv thunks g params s Hok Hsp Hc Hr) as [Hbt Hi]. split.
  - pose proof (event_tells g (b_graph _ _ Hbt) s Hi) as Ht. by rewrite (b_nodes _ _ Hbt).
  - intros Hne s' Hs'. clear Hr. induction Hs' as [s | s s1 s2 H1 H2 IH]; [done |].
    pose proof (step_event_once thunks g params (b_graph _ _ Hbt) (b_nodes _ _ Hbt) Hsp s s1 Hi H1 Hne) as E1.
    rewrite <- E1. apply IH; [| congruence].
    by eapply (step_inv thunks g params (b_graph _ _ Hbt) (b_nodes _ _ Hbt) Hsp).
Qed.

(** A thunk is executed at most once: its event goes from not started to pending to
    available, or at once to available or skipped, and never back. *)
Theorem Execute_once s s' n e :
  thunks_ok thunks → 0 ≤ split_threshold params → Create (ops_of thunks) = Ok g → reachable s → step s s' →
  events s !! n = Some e → ∃ e', events s' !! n = Some e' ∧ event_step e e'.
Proof.
  intros Hok Hsp Hc Hr Hst Hn. destruct (reachable_inv thunks g params s Hok Hsp Hc Hr) as [Hbt Hi].
  by apply (step_events thunks g params (b_graph _ _ Hbt) (b_nodes _ _ Hbt) Hsp s).
Qed.
End Properties.

(** ** Instances *)

Lemma Execute_ordered_witness : started (events demo_middle) 1 ∧ finished (events demo_middle) 0.
Proof.
  assert (Hs : started (events demo_middle) 1) by (exists Pending; split; [vm_compute; reflexivity | discriminate]).
  split; [exact Hs |].
  destruct (Execute_ordered demo_thunks demo_graph demo_params demo_middle demo_thunks_ok) with
    (j := 0%nat) (i := 1%nat) (a := MkThunk (nth 0 demo (MkOperation [] [])) false) (b := MkThunk (nth 1 demo (MkOperation [] [])) false) as [H _];
    [by vm_compute | exact demo_created | exact demo_middle_reachable | lia | reflexivity | reflexivity | exact Hs |].
  apply H, dependency_execution; [repeat constructor; cbn; try lia; try (by vm_compute); by eexists .. |]. vm_compute. reflexivity.
Defined.

Lemma Execute_defined_witness :
  ∃ t, at_work t demo_middle ∧ ∃ ts s', advance demo_thunks demo_graph t RunAsync demo_middle = Ok (ts, s').
Proof.
  exists (Popped 2%nat (Fifo.MkFifo [1%nat; 2%nat; 4%nat] 2)).
  assert (Ha : at_work (Popped 2%nat (Fifo.MkFifo [1%nat; 2%nat; 4%nat] 2)) demo_middle).
  { unfold at_work. vm_compute. left. }
  split; [exact Ha |].
  apply (Execute_defined demo_thunks demo_graph demo_params demo_middle _ RunAsync demo_thunks_ok);
    [by vm_compute | exact demo_created | exact demo_middle_reachable | exact Ha | vm_compute; reflexivity].
Defined.

Lemma Execute_terminates_witness :
  nsteps (ThunkExec.step demo_thunks demo_graph demo_params) 40 demo_start demo_end ∧ (40 ≤ run_bound (length demo_thunks))%nat.
Proof.
  assert (Hn : nsteps (ThunkExec.step demo_thunks demo_graph demo_params) 40 demo_start demo_end).
  { apply (play_steps demo_thunks demo_graph demo_params (first_acts ++ last_acts)). vm_compute. reflexivity. }
  split; [exact Hn |].
  apply (Execute_terminates demo_thunks demo_graph demo_params demo_start 40 demo_end demo_thunks_ok);
    [by vm_compute | exact demo_created | exact demo_init | exact Hn].
Defined.

Lemma demo_end_rests s' : ¬ ThunkExec.step demo_thunks demo_graph demo_params demo_end s'.
Proof.
  assert (Et : threads demo_end = []) by (vm_compute; reflexivity).
  assert (Ev : ∃ st, events demo_end = [Available None; Available None; Available (Some st); Skipped; Skipped])
    by (exists 13%nat; vm_compute; reflexivity).
  destruct Ev as [st Ev]. intros Hs. remember demo_end as s eqn:Es. destruct Hs as [s s1 before t c ts after E | s n status E].
  - subst s. rewrite Et in E. by destruct before.
  - subst s. rewrite Ev in E. do 5 (destruct n as [| n]; [by injection E |]). done.
Qed.

Lemma Execute_completes_witness :
  threads demo_end = [] ∧ (∀ i, (i < 5)%nat → finished (events demo_end) i).
Proof.
  destruct (Execute_completes demo_thunks demo_graph demo_params demo_end demo_thunks_ok) as (H1 & H2 & _);
    [by vm_compute | exact demo_created | exact demo_end_reachable | exact demo_end_rests |].
  split; [exact H1 | exact H2].
Defined.

Lemma Execute_outcome_witness :
  execute_event demo_end = Failed (Some 13%nat) ∧ (∀ n, (n < 5)%nat → finished (events demo_end) n).
Proof.
  destruct (Execute_outcome demo_thunks demo_graph demo_params demo_end demo_thunks_ok) as [H _];
    [by vm_compute | exact demo_created | exact demo_end_reachable |].
  assert (E : execute_event demo_end = Failed (Some 13%nat)) by (vm_compute; reflexivity).
  split; [exact E |]. rewrite E in H. apply H.
Defined.

Lemma Execute_once_witness :
  ∃ s' e', ThunkExec.step demo_thunks demo_graph demo_params demo_middle s' ∧ events s' !! 2%nat = Some e' ∧ event_step NotStarted e'.
Proof.
  assert (E : ∃ s', act demo_thunks demo_graph demo_params (Move 0 RunAsync) demo_middle = Some s')
    by (eexists; vm_compute; reflexivity).
  destruct E as [s' E]. apply act_step in E.
  destruct (Execute_once demo_thunks demo_graph demo_params demo_middle s' 2 NotStarted demo_thunks_ok) as (e' & H1 & H2);
    [by vm_compute | exact demo_created | exact demo_middle_reachable | exact E | vm_compute; reflexivity |].
  exists s', e'. split; [exact E | split; [exact H1 | exact H2]].
Defined.
End ThunkCorrect.

(** ** The thunk executor: sequential execution

    [ExecuteSequential] and [ResumeExecuteSequential] run the thunks in their order, each
    after the one before it has completed, and stop at the first error. *)
Module ThunkSequence.
Import ExecGraph ThunkExec.

Section Sequence.
Context {Error : Type} (thunks : list Thunk).

Abbreviation Events := (list (ThunkEvent Error)).
Abbreviation step := (sequence_step thunks (Error:=Error)).

(** The first thunks have completed without an error, the next one is as given, and the
    others have not begun. *)
Definition progress (n : nat) (current : Events) : Events :=
  replicate n (Available None) ++ current ++ replicate (length thunks - n - length current) NotStarted.

Definition in_order (s : SequenceState Error) : Prop :=
  match s with
  | SequenceAt n evs => (n ≤ length thunks)%nat ∧ evs = progress n []
  | SequenceWaits n evs => (n < length thunks)%nat ∧ evs = progress n [Pending]
  | SequenceDone None evs => evs = progress (length thunks) []
  | SequenceDone (Some e) evs => ∃ n, (n < length thunks)%nat ∧ evs = progress n [Available (Some e)]
  end.

(** How many turns are left at most. *)
Definition turns_left (s : SequenceState Error) : nat :=
  match s with
  | SequenceAt n _ => 2 * (length thunks - n) + 1
  | SequenceWaits n _ => 2 * (length thunks - n)
  | SequenceDone _ _ => 0
  end%nat.

Lemma progress_insert n e current :
  (n < length thunks)%nat → (length current ≤ 1)%nat → <[n := e]> (progress n current) = progress n [e].
Proof.
  intros Hn Hc. unfold progress. rewrite insert_app_r_alt by (by rewrite length_replicate). rewrite length_replicate, Nat.sub_diag.
  f_equal. destruct current as [| c []]; cbn in *; [| done | lia].
  replace (length thunks - n - 0)%nat with (S (length thunks - n - 1)) by lia. done.
Qed.

Lemma progress_next n : (n < length thunks)%nat → progress n [Available None] = progress (S n) [].
Proof.
  intros Hn. unfold progress. rewrite app_assoc, <- replicate_S_end. cbn.
  by replace (length thunks - n - 1)%nat with (length thunks - S n - 0)%nat by lia.
Qed.

Lemma resume_in_order n status :
  (n < length thunks)%nat → in_order (resume n status (progress n [Available status])).
Proof.
  intros Hn. destruct status as [e |]; cbn; [by exists n |]. split; [lia |]. by apply progress_next.
Qed.

Lemma turn_in_order s s' : step s s' → in_order s → in_order s' ∧ (turns_left s' < turns_left s)%nat.
Proof.
  destruct 1 as [n evs outcome | n evs status]; cbn [in_order]; intros [Hn ->]; cbn [sequence_turn].
  - case_bool_decide as Hl.
    + assert (n = length thunks) as -> by lia. split; [done | cbn; lia].
    + destruct outcome as [status |]; rewrite progress_insert by (cbn; lia).
      * split; [apply resume_in_order; lia |]. destruct status; cbn; lia.
      * split; [split; [lia | done] | cbn; lia].
  - rewrite progress_insert by (cbn; lia). split; [by apply resume_in_order |]. destruct status; cbn; lia.
Qed.

Lemma turns_in_order s k s' : nsteps step k s s' → in_order s → in_order s' ∧ (k + turns_left s' ≤ turns_left s)%nat.
Proof.
  induction 1 as [s | k s1 s2 s3 H1 H2 IH]; intros Hi; [split; [done | lia] |].
  destruct (turn_in_order s1 s2 H1 Hi) as [Hi2 Hl]. destruct (IH Hi2) as [Hi3 Hl3]. split; [done | lia].
Qed.

Lemma init_in_order : in_order (sequence_init thunks).
Proof. split; [lia |]. unfold progress. cbn. by rewrite !Nat.sub_0_r. Qed.

(** A sequential execution runs the thunks in their order: at any time the thunks
    before the current one have completed without an error and those after it have not
    begun.  It stops after at most two turns a thunk, with the status of the first thunk
    that fails, or with no error when all have completed. *)
Theorem ExecuteSequential_in_order k s :
  nsteps step k (sequence_init thunks) s →
  (k ≤ 2 * length thunks + 1)%nat ∧
  match s with
  | SequenceAt n evs => (n ≤ length thunks)%nat ∧ evs = progress n []
  | SequenceWaits n evs => (n < length thunks)%nat ∧ evs = progress n [Pending]
  | SequenceDone None evs => evs = progress (length thunks) []
  | SequenceDone (Some e) evs => ∃ n, (n < length thunks)%nat ∧ evs = progress n [Available (Some e)]
  end ∧
  ((∀ s', ¬ step s s') → ∃ status evs, s = SequenceDone status evs).
Proof.
  intros Hk. destruct (turns_in_order _ _ _ Hk init_in_order) as [Hi Hl]. cbn [sequence_init turns_left] in Hl.
  split; [lia |]. split; [done |]. intros Hq. destruct s as [n evs | n evs | status evs].
  - destruct (Hq _ (turn_at thunks n evs None)).
  - destruct (Hq _ (turn_completes thunks n evs None)).
  - by exists status, evs.
Qed.
End Sequence.

(** Three thunks: the first completes at once, the second later and with an error. *)
Definition plain : list Thunk := replicate 3 (MkThunk (MkOperation [] []) false).

Lemma ExecuteSequential_in_order_witness :
  ∃ s, nsteps (sequence_step plain) 3 (sequence_init plain) s ∧
    s = SequenceDone (Some 7%nat) [Available None; Available (Some 7%nat); NotStarted] ∧ (3 ≤ 2 * length plain + 1)%nat.
Proof.
  assert (Hn : nsteps (sequence_step plain) 3 (sequence_init plain)
    (SequenceDone (Some 7%nat) [Available None; Available (Some 7%nat); NotStarted])).
  { eapply nsteps_l; [apply (turn_at plain 0 _ (Some None)) |]. eapply nsteps_l; [apply (turn_at plain 1 _ None) |].
    eapply nsteps_l; [apply (turn_completes plain 1 _ (Some 7%nat)) |]. apply nsteps_O. }
  eexists. split; [exact Hn |]. split; [reflexivity |].
  apply (ExecuteSequential_in_order plain 3 _ Hn).
Defined.
End ThunkSequence.
