(* ===== verification/HeapTree.v ===== *)
(** * The interval tree of the heap simulator

    Models [HeapSimulator::Chunk] and [BufferIntervalTree] of
    [xla/service/heap_simulator/heap_simulator.h] and [.cc]: a binary search
    tree of live intervals ordered by their start, each node caching the latest
    end below it.  A node pointer is the subtree it points to; the [parent]
    pointers only serve [fix_up], which is done here on the way back from the
    place that changed. *)
From S2P Require Import Prelude.

Module HeapTree.

(** ** Chunks *)

Record Chunk := MkChunk { offset : Z; size : Z }.

#[export] Instance Chunk_eq_dec : EqDecision Chunk.
Proof. solve_decision. Defined.

Definition FromOffsetSize (offset size : Z) : Chunk := MkChunk offset size.
Definition FromOffsetEnd (offset end_ : Z) : Chunk := FromOffsetSize offset (end_ - offset).
Definition chunk_end (c : Chunk) : Z := offset c + size c.

Definition OverlapsWith (c other_chunk : Chunk) : res bool :=
  guard_res (negb (size c =? 0)) CheckFailed;;
  guard_res (negb (size other_chunk =? 0)) CheckFailed;;
  Ok ((offset c <? chunk_end other_chunk) && (offset other_chunk <? chunk_end c)).

(** ** Nodes *)

(** The fields of a node that do not depend on the tree. *)
Record Interval := MkInterval { start : Z; end_ : Z; chunk : Chunk }.

#[export] Instance Interval_eq_dec : EqDecision Interval.
Proof. solve_decision. Defined.

Inductive tree :=
  | Leaf
  | Node (left : tree) (data : Interval) (subtree_end : Z) (right : tree).

Fixpoint count (t : tree) : nat :=
  match t with Leaf => 0 | Node l _ _ r => S (count l + count r) end.

(** ** Insertion *)

Fixpoint Add (t : tree) (i : Interval) : tree :=
  match t with
  | Leaf => Node Leaf i (end_ i) Leaf
  | Node l d se r =>
      let se := Z.max se (end_ i) in
      if start d >? start i then Node (Add l i) d se r else Node l d se (Add r i)
  end.

(** ** Removal *)

Definition join_end (e : Z) (child : tree) : Z :=
  match child with Leaf => e | Node _ _ se _ => Z.max e se end.

(** The node with its [subtree_end] computed anew. *)
Definition fix_up (l : tree) (d : Interval) (r : tree) : tree :=
  Node l d (join_end (join_end (end_ d) l) r) r.

(** The left-most node of a subtree, [to_promote], and the subtree without it. *)
Fixpoint remove_leftmost (l : tree) (d : Interval) (r : tree) : Interval * tree :=
  match l with
  | Leaf => (d, r)
  | Node l1 d1 _ r1 => let '(m, l') := remove_leftmost l1 d1 r1 in (m, fix_up l' d r)
  end.

(** [to_delete] replaced. *)
Definition delete_root (l r : tree) : tree :=
  match r with
  | Leaf => l
  | Node rl rd _ rr => let '(m, r') := remove_leftmost rl rd rr in fix_up l m r'
  end.

(** Whether the search for the node to delete stops here; the size of the chunk
    is not compared. *)
Definition to_delete (d i : Interval) : bool :=
  (start d =? start i) && (end_ d =? end_ i) && (offset (chunk d) =? offset (chunk i)).

(** [None] when the function returns false, the tree being as it was. *)
Fixpoint Remove (t : tree) (i : Interval) : option tree :=
  match t with
  | Leaf => None
  | Node l d _ r =>
      if to_delete d i then Some (delete_root l r)
      else if start i <? start d then l' ← Remove l i; Some (fix_up l' d r)
      else r' ← Remove r i; Some (fix_up l d r')
  end.

(** ** Queries *)

Definition push (t : tree) (stack : list tree) : list tree :=
  match t with Leaf => stack | _ => t :: stack end.

Definition overlaps (s e : Z) (d : Interval) : bool := (start d <=? e) && (end_ d >=? s).

(** The nodes [fn] is called for, in the order of the calls; the head of the
    list is the top of [visiting_stack]. *)
Fixpoint visit (fuel : nat) (s e : Z) (stack : list tree) : res (list Interval) :=
  match fuel with
  | O => Fail NoFuel
  | S fuel =>
      match stack with
      | [] => Ok []
      | Leaf :: _ => Fail Undefined
      | Node l d se r :: stack =>
          if s >? se then visit fuel s e stack
          else
            let stack := push l stack in
            let here := if overlaps s e d then [d] else [] in
            rest ← (if e <? start d then visit fuel s e stack
                    else visit fuel s e (push r stack));
            Ok (here ++ rest)
      end
  end.

(** Every node is pushed at most once. *)
Definition ApplyToNodesOverlappingInTime (t : tree) (s e : Z) : res (list Interval) :=
  visit (S (count t)) s e (push t []).

Definition is_null (t : tree) : bool := match t with Leaf => true | _ => false end.

(** [fn] with the state [A] it captures; [true] ends the traversal.  A stack
    entry is a [NodeInfo]. *)
Fixpoint visit_sorted {A} (fn : A → Interval → A * bool) (fuel : nat) (s e : Z)
    (stack : list (tree * bool)) (prev_start : Z) (acc : A) : res A :=
  match fuel with
  | O => Fail NoFuel
  | S fuel =>
      match stack with
      | [] => Ok acc
      | (Leaf, _) :: _ => Fail Undefined
      | (Node l d se r as top, have_visited_left_subtree) :: stack =>
          if s >? se then visit_sorted fn fuel s e stack prev_start acc
          else if negb have_visited_left_subtree && negb (is_null l) then
            visit_sorted fn fuel s e ((l, false) :: (top, true) :: stack) prev_start acc
          else
            let next prev_start acc :=
              visit_sorted fn fuel s e
                (if e <? start d then stack
                 else if is_null r then stack else (r, false) :: stack) prev_start acc in
            if overlaps s e d then
              guard_res (prev_start <=? start d) CheckFailed;;
              let '(acc, stop) := fn acc d in
              if (stop : bool) then Ok acc else next (start d) acc
            else next prev_start acc
      end
  end.

(** Every node is pushed once and looked at twice at most. *)
Definition ApplyToSortedNodesOverlapping {A} (fn : A → Interval → A * bool) (t : tree)
    (s e : Z) (acc : A) : res A :=
  visit_sorted fn (S (2 * count t)) s e
    (if is_null t then [] else [(t, false)]) (-1) acc.

Definition NumChunksOverlappingInTime (t : tree) (s e : Z) : res Z :=
  l ← ApplyToNodesOverlappingInTime t s e; Ok (Z.of_nat (length l)).

Definition ChunksOverlappingInTime (t : tree) (s e : Z) : res (list Chunk) :=
  l ← ApplyToNodesOverlappingInTime t s e; Ok (chunk <$> (l : list Interval)).

Definition NodesOverlappingInTime (t : tree) (s e : Z) : res (list Interval) :=
  ApplyToNodesOverlappingInTime t s e.

(** The inner loop adds the size of a chunk to every time of its interval. *)
Definition add_usage (s e : Z) (used : list Z) (d : Interval) : list Z :=
  imap (λ i n,
    let time := s + Z.of_nat i in
    if (Z.max (start d) s <=? time) && (time <=? Z.min (end_ d) e)
    then n + size (chunk d) else n) used.

Definition MemoryUsedInInterval (t : tree) (s e : Z) : res (list Z) :=
  guard_res (e - s + 1 >=? 0) CheckFailed;;
  nodes ← NodesOverlappingInTime t s e;
  Ok (foldl (add_usage s e) (replicate (Z.to_nat (e - s + 1)) 0) nodes).

Definition HeapSizeInInterval (t : tree) (s e : Z) : res Z :=
  guard_res (s <=? e) CheckFailed;;
  nodes ← NodesOverlappingInTime t s e;
  Ok (foldl (λ m d, Z.max m (chunk_end (chunk d))) 0 nodes).
(** ** The invariant *)

Fixpoint inorder (t : tree) : list Interval :=
  match t with Leaf => [] | Node l d _ r => inorder l ++ d :: inorder r end.

(** The order of [visit]. *)
Fixpoint visit_order (t : tree) : list Interval :=
  match t with Leaf => [] | Node l d _ r => d :: visit_order r ++ visit_order l end.

(** Starts below the node's to the left, the others to the right, and the
    latest end of the subtree in every node. *)
Fixpoint ok (t : tree) : Prop :=
  match t with
  | Leaf => True
  | Node l d se r =>
      Forall (λ x, start x < start d) (inorder l) ∧
      Forall (λ x, start d ≤ start x) (inorder r) ∧
      se = join_end (join_end (end_ d) l) r ∧ ok l ∧ ok r
  end.

Lemma visit_order_perm t : visit_order t ≡ₚ inorder t.
Proof.
  induction t as [| l IHl d se r IHr]; [done |]. cbn [visit_order inorder].
  rewrite IHl, IHr. rewrite (Permutation_app_comm (inorder r)). by rewrite Permutation_middle.
Qed.

Lemma count_inorder t : length (inorder t) = count t.
Proof. induction t as [| l IHl d se r IHr]; [done |]. cbn. rewrite length_app. cbn. lia. Qed.

(** [join_end] bounds the ends of the child. *)
Lemma join_end_ge e t : e ≤ join_end e t.
Proof. destruct t; simpl; lia. Qed.

Lemma ok_ends t : ok t → ∀ x, x ∈ inorder t → ∀ e, end_ x ≤ join_end e t.
Proof.
  induction t as [| l IHl d se r IHr]; intros Hok x Hx e; [by apply elem_of_nil in Hx |].
  destruct Hok as (_ & _ & -> & Hl & Hr). cbn [inorder] in Hx. cbn [join_end].
  apply elem_of_app in Hx as [Hx | [-> | Hx]%elem_of_cons].
  - specialize (IHl Hl x Hx (end_ d)). pose proof (join_end_ge (join_end (end_ d) l) r). lia.
  - pose proof (join_end_ge (end_ d) l). pose proof (join_end_ge (join_end (end_ d) l) r). lia.
  - specialize (IHr Hr x Hx (join_end (end_ d) l)). lia.
Qed.

Lemma ok_subtree_end l d se r x : ok (Node l d se r) → x ∈ inorder (Node l d se r) → end_ x ≤ se.
Proof.
  intros Hok Hx. pose proof (ok_ends _ Hok x Hx se) as H. simpl in H. lia.
Qed.

Lemma ok_fix_up l d r :
  Forall (λ x, start x < start d) (inorder l) → Forall (λ x, start d ≤ start x) (inorder r) →
  ok l → ok r → ok (fix_up l d r).
Proof. intros. by repeat split. Qed.

(** ** Insertion and removal *)

Lemma Add_perm t i : inorder (Add t i) ≡ₚ i :: inorder t.
Proof.
  induction t as [| l IHl d se r IHr]; [done |]. cbn [Add]. destruct (start d >? start i).
  - cbn [inorder]. rewrite IHl. done.
  - cbn [inorder]. rewrite IHr. solve_Permutation.
Qed.

Lemma join_end_Add e t i : join_end e (Add t i) = Z.max (join_end e t) (end_ i).
Proof.
  destruct t as [| l d se r]; [done |]. cbn [Add].
  destruct (start d >? start i); cbn [join_end]; lia.
Qed.

Lemma Forall_Add P t i : Forall P (inorder (Add t i)) ↔ P i ∧ Forall P (inorder t).
Proof. by rewrite Add_perm, Forall_cons. Qed.

Lemma join_end_max e x t : join_end (Z.max e x) t = Z.max (join_end e t) x.
Proof. destruct t; simpl; lia. Qed.

Lemma ok_Add t i : ok t → ok (Add t i).
Proof.
  induction t as [| l IHl d se r IHr]; [by repeat constructor |].
  intros (Hlt & Hge & -> & Hl & Hr). cbn [Add].
  destruct (Z.gtb_spec (start d) (start i)) as [Hs | Hs]; cbn [ok].
  - split_and!; try rewrite Forall_Add; rewrite ?join_end_Add, ?join_end_max; auto with lia.
  - split_and!; try rewrite Forall_Add; rewrite ?join_end_Add; auto with lia.
Qed.

Lemma remove_leftmost_spec l d se r :
  ok (Node l d se r) →
  let '(m, t') := remove_leftmost l d r in
  inorder (Node l d se r) = m :: inorder t' ∧ ok t' ∧ Forall (λ x, start m ≤ start x) (inorder t').
Proof.
  revert d se r. induction l as [| l1 IH1 d1 se1 r1 _]; intros d se r (Hlt & Hge & _ & Hl & Hr).
  - done.
  - cbn [remove_leftmost]. specialize (IH1 d1 se1 r1 Hl).
    destruct (remove_leftmost l1 d1 r1) as [m l'] eqn:E. destruct IH1 as (Ein & Hl' & Hm).
    cbn [inorder] in Ein, Hlt |- *. rewrite Ein in Hlt |- *. apply Forall_cons in Hlt as [Hmd Hlt].
    split; [done |]. split; [by apply ok_fix_up |]. apply Forall_app. split; [done |].
    apply Forall_cons. split; [lia |]. eapply Forall_impl; [apply Hge |]. simpl. intros; lia.
Qed.

Lemma delete_root_spec l d se r :
  ok (Node l d se r) → ok (delete_root l r) ∧ inorder (delete_root l r) = inorder l ++ inorder r.
Proof.
  intros (Hlt & Hge & _ & Hl & Hr). destruct r as [| rl rd rse rr]; cbn [delete_root].
  - by rewrite app_nil_r.
  - pose proof (remove_leftmost_spec rl rd rse rr Hr) as H.
    destruct (remove_leftmost rl rd rr) as [m r']. destruct H as (Ein & Hr' & Hm).
    rewrite Ein in Hge |- *. apply Forall_cons in Hge as [Hdm _]. split; [| done].
    apply ok_fix_up; try done. eapply Forall_impl; [apply Hlt |]. simpl. intros; lia.
Qed.

Lemma to_delete_start d i : to_delete d i = true → start d = start i.
Proof. unfold to_delete. rewrite !andb_true_iff. lia. Qed.

Lemma Remove_spec t i :
  ok t →
  match Remove t i with
  | Some t' => ok t' ∧ ∃ d, to_delete d i = true ∧ inorder t ≡ₚ d :: inorder t'
  | None => Forall (λ d, to_delete d i = false) (inorder t)
  end.
Proof.
  induction t as [| l IHl d se r IHr]; [by intros; constructor |].
  intros Hok. pose proof Hok as (Hlt & Hge & _ & Hl & Hr). cbn [Remove].
  destruct (to_delete d i) eqn:Ed.
  - destruct (delete_root_spec _ _ _ _ Hok) as [Hok' Ein]. split; [done |].
    exists d. split; [done |]. rewrite Ein. cbn [inorder]. by rewrite Permutation_middle.
  - destruct (Z.ltb_spec (start i) (start d)) as [Hs | Hs].
    + specialize (IHl Hl). destruct (Remove l i) as [l' |]; simpl.
      * destruct IHl as (Hl' & x & Hx & P). split.
        -- apply ok_fix_up; try done. rewrite P in Hlt. by apply Forall_cons in Hlt as [_ ?].
        -- exists x. split; [done |]. by rewrite P.
      * apply Forall_app. split; [done |]. apply Forall_cons. split; [done |].
        eapply Forall_impl; [apply Hge |]. simpl. intros x Hx.
        destruct (to_delete x i) eqn:Ex; [| done]. apply to_delete_start in Ex. lia.
    + specialize (IHr Hr). destruct (Remove r i) as [r' |]; simpl.
      * destruct IHr as (Hr' & x & Hx & P). split.
        -- apply ok_fix_up; try done. rewrite P in Hge. by apply Forall_cons in Hge as [_ ?].
        -- exists x. split; [done |]. rewrite P. solve_Permutation.
      * apply Forall_app. split.
        -- eapply Forall_impl; [apply Hlt |]. simpl. intros x Hx.
           destruct (to_delete x i) eqn:Ex; [| done]. apply to_delete_start in Ex. lia.
        -- by apply Forall_cons.
Qed.

(** ** Queries *)

Definition live (s e : Z) (l : list Interval) : list Interval :=
  filter (λ d, overlaps s e d = true) l.

Lemma live_app s e l1 l2 : live s e (l1 ++ l2) = live s e l1 ++ live s e l2.
Proof. apply filter_app. Qed.

Lemma live_none s e l : Forall (λ d, overlaps s e d = false) l → live s e l = [].
Proof.
  unfold live. induction 1 as [| d l Hd _ IH]; [done |].
  by rewrite filter_cons, decide_False by congruence.
Qed.

Lemma live_cons s e d l :
  live s e (d :: l) = (if overlaps s e d then [d] else []) ++ live s e l.
Proof.
  unfold live. rewrite filter_cons. destruct (overlaps s e d) eqn:E.
  - by rewrite decide_True.
  - by rewrite decide_False by congruence.
Qed.

(** The two prunings skip no node that overlaps. *)
Lemma prune_subtree s e l d se r :
  ok (Node l d se r) → se < s → live s e (inorder (Node l d se r)) = [].
Proof.
  intros Hok Hs. apply live_none, Forall_forall. intros x Hx.
  pose proof (ok_subtree_end _ _ _ _ _ Hok Hx). unfold overlaps.
  apply andb_false_iff. right. lia.
Qed.

Lemma prune_right s e l d se r :
  ok (Node l d se r) → e < start d → live s e (inorder r) = [].
Proof.
  intros (_ & Hge & _) He. apply live_none. eapply Forall_impl; [apply Hge |].
  simpl. intros x Hx. unfold overlaps. apply andb_false_iff. left. lia.
Qed.

Lemma live_perm s e l1 l2 : l1 ≡ₚ l2 → live s e l1 ≡ₚ live s e l2.
Proof. intros P. unfold live. by rewrite P. Qed.

Lemma live_visit_order_nil s e t : live s e (inorder t) = [] → live s e (visit_order t) = [].
Proof.
  intros H. apply Permutation_nil. rewrite (live_perm s e _ _ (visit_order_perm t)).
  by rewrite H.
Qed.

Lemma sum_cons {A} (f : A → nat) x l :
  sum_list (f <$> x :: l) = (f x + sum_list (f <$> l))%nat.
Proof. done. Qed.

Definition node (t : tree) : Prop := t ≠ Leaf.

Lemma push_spec t stack :
  ok t → Forall ok stack → Forall node stack →
  Forall ok (push t stack) ∧ Forall node (push t stack) ∧
  concat (visit_order <$> push t stack) = visit_order t ++ concat (visit_order <$> stack) ∧
  sum_list (count <$> push t stack) = (count t + sum_list (count <$> stack))%nat.
Proof.
  intros Ht Hs Hn. destruct t; [done |]. cbn [push]. rewrite !Forall_cons. done.
Qed.

Lemma visit_spec fuel s e stack :
  Forall ok stack → Forall node stack → (sum_list (count <$> stack) < fuel)%nat →
  visit fuel s e stack = Ok (live s e (concat (visit_order <$> stack))).
Proof.
  revert stack. induction fuel as [| fuel IH]; intros stack Hok Hn Hf; [lia |].
  destruct stack as [| [| l d se r] stack]; [done | |].
  { apply Forall_cons in Hn as [Hn _]. by destruct Hn. }
  apply Forall_cons in Hok as [Ht Hok]. apply Forall_cons in Hn as [_ Hn].
  pose proof Ht as (_ & _ & _ & Hl & Hr). cbn [visit]. rewrite !fmap_cons, concat_cons, live_app.
  cbn [count fmap list_fmap sum_list] in Hf.
  destruct (Z.gtb_spec s se) as [Hs | Hs].
  - rewrite IH by (done || (simpl in Hf; lia)).
    by rewrite (live_visit_order_nil s e (Node l d se r)) by (by apply prune_subtree).
  - destruct (push_spec l stack) as (Hok1 & Hn1 & E1 & C1); [done.. |].
    cbn [visit_order]. rewrite live_cons, <- app_assoc.
    destruct (Z.ltb_spec e (start d)) as [He | He].
    + rewrite IH by (done || (simpl in Hf; lia)). cbn [mbind res_bind].
      rewrite E1, live_app, (live_app _ _ (visit_order r)).
      rewrite (live_visit_order_nil s e r) by (by eapply prune_right). done.
    + destruct (push_spec r (push l stack)) as (Hok2 & Hn2 & E2 & C2); [done.. |].
      rewrite IH by (done || (simpl in Hf; lia)). cbn [mbind res_bind].
      rewrite E2, E1, !live_app. by rewrite <- !app_assoc.
Qed.

Lemma ApplyToNodes_spec t s e :
  ok t → ApplyToNodesOverlappingInTime t s e = Ok (live s e (visit_order t)).
Proof.
  intros Hok. unfold ApplyToNodesOverlappingInTime.
  destruct (push_spec t []) as (H1 & H2 & E & C); [done.. |].
  rewrite visit_spec by (done || (simpl in C; lia)). rewrite E. simpl. by rewrite app_nil_r.
Qed.

(** *** In order of the start *)

Fixpoint fold_until {A} (fn : A → Interval → A * bool) (l : list Interval) (acc : A) : A :=
  match l with
  | [] => acc
  | d :: l => let '(acc, stop) := fn acc d in if stop then acc else fold_until fn l acc
  end.

Definition by_start (x y : Interval) : Prop := start x ≤ start y.

Lemma ok_sorted t : ok t → StronglySorted by_start (inorder t).
Proof.
  induction t as [| l IHl d se r IHr]; intros Hok; [constructor |].
  destruct Hok as (Hlt & Hge & _ & Hl & Hr). cbn [inorder].
  rewrite Forall_forall in Hlt, Hge.
  apply StronglySorted_app_2; [| auto |].
  - intros x y Hx Hy. specialize (Hlt x Hx). unfold by_start.
    apply elem_of_cons in Hy as [-> | Hy]; [lia |]. specialize (Hge y Hy). lia.
  - constructor; [auto |]. apply Forall_forall. exact Hge.
Qed.

(** What a [NodeInfo] still has to visit, and how often it is looked at. *)
Definition pending (n : tree * bool) : list Interval :=
  match n with
  | (Node _ d _ r, true) => d :: inorder r
  | (t, _) => inorder t
  end.

Definition looks (n : tree * bool) : nat :=
  match n with
  | (Node _ _ _ r, true) => S (2 * count r)
  | (t, _) => 2 * count t
  end.

(** The starts the traversal has yet to see do not decrease. *)
Definition ahead (prev : Z) (l : list Interval) : Prop :=
  StronglySorted by_start l ∧ Forall (λ x, prev ≤ start x) l.

Lemma ahead_app prev l1 l2 : ahead prev (l1 ++ l2) → ahead prev l2.
Proof.
  intros [H1 H2]. apply Forall_app in H2 as [_ H2]. split; [| done].
  induction l1 as [| x l1 IH]; [done |]. apply IH. by inversion H1.
Qed.

Lemma ahead_cons prev d l : ahead prev (d :: l) → prev ≤ start d ∧ ahead (start d) l ∧ ahead prev l.
Proof.
  intros [H1 H2]. apply Forall_cons in H2 as [H2 H3]. inversion H1; subst.
  repeat split; done.
Qed.

Section Sorted.
Context {A : Type} (fn : A → Interval → A * bool).

Lemma visit_sorted_spec fuel s e stack prev acc :
  Forall (λ n : tree * bool, ok n.1) stack → Forall (λ n : tree * bool, node n.1) stack →
  (sum_list (looks <$> stack) < fuel)%nat → ahead prev (concat (pending <$> stack)) →
  visit_sorted fn fuel s e stack prev acc =
    Ok (fold_until fn (live s e (concat (pending <$> stack))) acc).
Proof.
  revert stack prev acc.
  induction fuel as [| fuel IH]; intros stack prev acc Hok Hn Hf Ha; [lia |].
  destruct stack as [| [[| l d se r] b] stack]; [done | |].
  { apply Forall_cons in Hn as [Hn _]. by destruct Hn. }
  pose proof Hok as [Ht Hok']%Forall_cons. cbn [fst] in Ht. pose proof Hn as [_ Hn']%Forall_cons.
  pose proof Ht as (_ & _ & _ & Hl & Hr). cbn [visit_sorted].
  rewrite fmap_cons, concat_cons in Ha |- *. rewrite live_app.
  cbn [fmap list_fmap sum_list] in Hf.
  destruct (Z.gtb_spec s se) as [Hs | Hs].
  { assert (live s e (pending (Node l d se r, b)) = []) as ->.
    { pose proof (prune_subtree s e _ _ _ _ Ht ltac:(lia)) as Hp. destruct b; [| done].
      cbn [inorder] in Hp. rewrite live_app in Hp. by apply app_eq_nil in Hp as [_ ?]. }
    apply IH; try done; [| by eapply ahead_app].
    cbn [looks] in Hf. simpl in Hf |- *. destruct b; lia. }
  destruct (negb b && negb (is_null l)) eqn:Eb.
  - (* The left subtree first. *)
    apply andb_true_iff in Eb as [Eb El]. destruct b; [done |]. rewrite <- live_app.
    assert (E : pending (Node l d se r, false) ++ concat (pending <$> stack) =
      concat (pending <$> (l, false) :: (Node l d se r, true) :: stack)).
    { rewrite !fmap_cons. cbn [concat pending inorder]. destruct l; [done |].
      by rewrite <- app_assoc. }
    rewrite E in Ha |- *. apply IH; try done.
    + constructor; [done | by constructor].
    + constructor; [by destruct l | by constructor].
    + rewrite !sum_cons. destruct l; [done |]. cbn [looks count] in *. simpl in Hf |- *. lia.
  - (* The node itself, then the right subtree. *)
    assert (Ep : pending (Node l d se r, b) = d :: inorder r).
    { destruct b; [done |]. by destruct l. }
    assert (Hk : (2 * count r + sum_list (looks <$> stack) < fuel)%nat).
    { destruct b; cbn [looks count] in *; simpl in Hf |- *; lia. }
    rewrite Ep in Ha |- *. cbn [app] in Ha. apply ahead_cons in Ha as (Hd & Hahead & Hahead').
    rewrite live_cons, <- app_assoc.
    assert (Hnext : ∀ prev' acc', ahead prev' (inorder r ++ concat (pending <$> stack)) →
      visit_sorted fn fuel s e
        (if e <? start d then stack else if is_null r then stack else (r, false) :: stack)
        prev' acc' =
      Ok (fold_until fn (live s e (inorder r) ++ live s e (concat (pending <$> stack))) acc')).
    { intros prev' acc' Hp. destruct (Z.ltb_spec e (start d)) as [He | He].
      - rewrite (prune_right s e _ _ _ _ Ht He). apply IH; try done; [lia | by eapply ahead_app].
      - destruct (is_null r) eqn:Er.
        + destruct r; [| done]. apply IH; done.
        + rewrite <- live_app.
          assert (E : inorder r ++ concat (pending <$> stack) =
            concat (pending <$> (r, false) :: stack)) by (by destruct r).
          rewrite E in Hp |- *. apply IH; try done.
          * by constructor.
          * constructor; [by destruct r | done].
          * rewrite sum_cons. destruct r; [done |]. cbn [looks]. lia. }
    destruct (overlaps s e d).
    + rewrite (proj2 (Z.leb_le _ _) Hd). cbn [guard_res mbind res_bind app fold_until].
      destruct (fn acc d) as [acc' [|]]; [done |]. by apply Hnext.
    + by apply Hnext.
Qed.

Lemma ApplyToSortedNodes_spec t s e acc :
  ok t → Forall (λ x, -1 ≤ start x) (inorder t) →
  ApplyToSortedNodesOverlapping fn t s e acc = Ok (fold_until fn (live s e (inorder t)) acc).
Proof.
  intros Hok Hs. unfold ApplyToSortedNodesOverlapping. destruct (is_null t) eqn:Et.
  { by destruct t. }
  assert (E : concat (pending <$> [(t, false)]) = inorder t).
  { simpl. rewrite app_nil_r. by destruct t. }
  rewrite visit_sorted_spec; rewrite ?E; try done.
  - by constructor.
  - constructor; [by destruct t | done].
  - rewrite sum_cons. destruct t; [done |]. cbn [looks]. simpl. lia.
  - split; [by apply ok_sorted | done].
Qed.
End Sorted.

(** *** Usage over time *)

Definition covers (time : Z) (d : Interval) : bool := overlaps time time d.

(** The bytes in use at one time. *)
Fixpoint usage (time : Z) (l : list Interval) : Z :=
  match l with
  | [] => 0
  | d :: l => (if covers time d then size (chunk d) else 0) + usage time l
  end.

Lemma usage_perm time l1 l2 : l1 ≡ₚ l2 → usage time l1 = usage time l2.
Proof. induction 1; simpl; lia. Qed.

Lemma usage_live time s e l : s ≤ time ≤ e → usage time (live s e l) = usage time l.
Proof.
  intros Ht. induction l as [| d l IH]; [done |]. rewrite live_cons. cbn [usage].
  destruct (overlaps s e d) eqn:E; cbn [app usage]; rewrite IH; [done |].
  assert (covers time d = false) as ->; [| lia].
  unfold covers, overlaps in *. apply andb_false_iff in E. apply andb_false_iff. lia.
Qed.

Lemma foldl_add_usage s e l used i n :
  used !! i = Some n → s + Z.of_nat i ≤ e →
  foldl (add_usage s e) used l !! i = Some (n + usage (s + Z.of_nat i) l).
Proof.
  intros Hi He. revert used n Hi. induction l as [| d l IH]; intros used n Hi.
  { simpl. rewrite Hi. f_equal. lia. }
  cbn [foldl usage]. erewrite IH.
  2: { unfold add_usage. rewrite list_lookup_imap, Hi. reflexivity. }
  unfold covers, overlaps. f_equal.
  destruct (_ && _) eqn:E1, ((start d <=? _) && _) eqn:E2; try lia;
    rewrite ?andb_true_iff, ?andb_false_iff in *; lia.
Qed.

(** ** Properties *)

(** The trees the class can hold. *)
Inductive built : tree → Prop :=
  | built_empty : built Leaf
  | built_Add t i : built t → built (Add t i)
  | built_Remove t i t' : built t → Remove t i = Some t' → built t'.

Lemma built_ok t : built t → ok t.
Proof.
  induction 1 as [| t i _ IH | t i t' _ IH E]; [done | by apply ok_Add |].
  pose proof (Remove_spec t i IH) as H. rewrite E in H. by destruct H.
Qed.

(** C33: Every tree built by additions and removals behaves as the bag of its
    intervals: [Add] inserts one, [Remove] takes one with the given start, end
    and offset out, and fails exactly when there is none; the two traversals
    terminate, and in spite of the subtrees they skip they visit exactly the
    intervals that overlap the given time range, each as often as it occurs,
    the sorted one by increasing start until the visitor stops it. *)
Theorem BufferIntervalTree_bag t :
  built t →
  (∀ i, inorder (Add t i) ≡ₚ i :: inorder t) ∧
  (∀ i, match Remove t i with
        | Some t' => ∃ d, to_delete d i = true ∧ inorder t ≡ₚ d :: inorder t'
        | None => ∀ d, d ∈ inorder t → to_delete d i = false
        end) ∧
  (∀ s e, ∃ l, ApplyToNodesOverlappingInTime t s e = Ok l ∧ l ≡ₚ live s e (inorder t)) ∧
  StronglySorted by_start (inorder t) ∧
  (∀ A (fn : A → Interval → A * bool) s e acc,
     Forall (λ x, -1 ≤ start x) (inorder t) →
     ApplyToSortedNodesOverlapping fn t s e acc = Ok (fold_until fn (live s e (inorder t)) acc)).
Proof.
  intros H%built_ok. split_and!.
  - apply Add_perm.
  - intros i. pose proof (Remove_spec t i H) as Hr. destruct (Remove t i); [by destruct Hr |].
    intros d Hd. rewrite Forall_forall in Hr. auto.
  - intros s e. eexists. split; [by apply ApplyToNodes_spec |].
    apply live_perm, visit_order_perm.
  - by apply ok_sorted.
  - intros. by apply ApplyToSortedNodes_spec.
Qed.

(** [MemoryUsedInInterval] returns, for every time of the range, the sum of
    the sizes of the chunks live at that time. *)
Theorem MemoryUsedInInterval_sums t s e :
  built t → s ≤ e + 1 →
  ∃ used, MemoryUsedInInterval t s e = Ok used ∧ length used = Z.to_nat (e - s + 1) ∧
    ∀ time, s ≤ time ≤ e → used !! Z.to_nat (time - s) = Some (usage time (inorder t)).
Proof.
  intros H%built_ok Hse. unfold MemoryUsedInInterval, NodesOverlappingInTime.
  rewrite (proj2 (Z.geb_le _ _)), ApplyToNodes_spec by (done || lia).
  cbn [guard_res mbind res_bind]. eexists. split; [done |]. split.
  - generalize (live s e (visit_order t)) as l. intros l.
    assert (∀ used, length (foldl (add_usage s e) used l) = length used) as ->.
    { induction l as [| d l IH]; intros used; [done |]. simpl. rewrite IH. apply length_imap. }
    apply length_replicate.
  - intros time Ht. erewrite foldl_add_usage with (n := 0).
    + replace (s + Z.of_nat (Z.to_nat (time - s))) with time by lia.
      rewrite usage_live by lia. by rewrite (usage_perm _ _ _ (visit_order_perm t)).
    + apply lookup_replicate. lia.
    + lia.
Qed.

(** ** Instances *)

Definition demo_intervals : list Interval :=
  [ MkInterval 3 9 (MkChunk 0 16); MkInterval 1 4 (MkChunk 16 8);
    MkInterval 3 5 (MkChunk 24 8); MkInterval 6 8 (MkChunk 16 4) ].

Definition demo_tree : tree := foldl Add Leaf demo_intervals.

Lemma demo_built : built demo_tree.
Proof. repeat constructor. Qed.

Lemma BufferIntervalTree_bag_witness :
  ApplyToNodesOverlappingInTime demo_tree 5 6 =
    Ok [MkInterval 3 9 (MkChunk 0 16); MkInterval 3 5 (MkChunk 24 8);
        MkInterval 6 8 (MkChunk 16 4)] ∧
  ∃ l, ApplyToNodesOverlappingInTime demo_tree 5 6 = Ok l ∧ l ≡ₚ live 5 6 (inorder demo_tree).
Proof.
  split; [reflexivity |]. apply (BufferIntervalTree_bag demo_tree). apply demo_built.
Defined.

Lemma MemoryUsedInInterval_sums_witness :
  ∃ used, MemoryUsedInInterval demo_tree 2 6 = Ok used ∧ used = [8; 32; 32; 24; 20].
Proof.
  destruct (MemoryUsedInInterval_sums demo_tree 2 6) as (used & E & _);
    [apply demo_built | lia |].
  exists used. split; [exact E |]. vm_compute in E. by injection E as <-.
Defined.

End HeapTree.
