(* ===== verification/HeapFinder.v ===== *)
(** * Finding room for a sliced allocation

    Models [SlicedAllocationFinder] of
    [xla/service/heap_simulator/heap_simulator.h] and [.cc] and the permutation
    iterators it is given for a new allocation.  An iterator is the list of the
    permutations it emits.  The [btree_map]s ordered by descending offset are
    lists of pairs, the greatest offset first. *)
From S2P Require Import Prelude HeapTree.

Module HeapFinder.
Import HeapTree.

(** ** Maps ordered by descending keys *)

(** [insert]: the value of a key that is there stays. *)
Fixpoint map_insert {A} (k : Z) (x : A) (m : list (Z * A)) : list (Z * A) :=
  match m with
  | [] => [(k, x)]
  | (k', x') :: m' =>
      if k' <? k then (k, x) :: m
      else if k' =? k then m
      else (k', x') :: map_insert k x m'
  end.

(** The elements before [lower_bound(k)], the last of them first, and those
    from it on. *)
Fixpoint lower_bound {A} (k : Z) (before m : list (Z * A)) : list (Z * A) * list (Z * A) :=
  match m with
  | [] => (before, [])
  | (k', x) :: m' => if k <? k' then lower_bound k ((k', x) :: before) m' else (before, m)
  end.

Definition map_of_range {A} (l : list (Z * A)) : list (Z * A) :=
  foldl (λ m p, map_insert p.1 p.2 m) [] l.

(** A free chunk's offset and its end. *)
Definition FreeChunks := list (Z * Z).

(** ** Permutations of slice times *)

Fixpoint picks (l : list Z) : list (Z * list Z) :=
  match l with [] => [] | x :: l' => (x, l') :: ((λ p, (p.1, x :: p.2)) <$> picks l') end.

(** The permutations [next_permutation] goes through, from the sorted one. *)
Fixpoint permutations (n : nat) (l : list Z) : list (list Z) :=
  match n with
  | O => [[]]
  | S n => p ← picks l; (cons p.1) <$> permutations n p.2
  end.

Definition slice_times (n : nat) : list Z := seqZ 0 (Z.of_nat n).

(** [SliceTimeAllPermutationIterator]. *)
Definition AllPermutations (num_slices : nat) : list (list Z) :=
  if (num_slices <=? 0)%nat then [] else permutations num_slices (slice_times num_slices).

(** [SliceTimePreferredPermutationIterator] without an original allocation: no
    slice time is fixed. *)
Definition PreferredPermutations (num_slices : nat) : list (list Z) :=
  let times := slice_times num_slices in
  let types := [times; reverse times;
    reverse (filter (λ i, Z.odd i = true) times) ++ filter (λ i, Z.even i = true) times] in
  take num_slices types.

Inductive Ty := kAll | kPreferred.

(** [ObservedPermutationManager]: a permutation is dropped when an earlier one
    gives the same start times. *)
Fixpoint unobserved (start_times : list Z) (seen : list (list Z)) (ps : list (list Z))
    : res (list (list Z)) :=
  match ps with
  | [] => Ok []
  | p :: ps =>
      times ← mapM (at_z start_times) p;
      if decide (times ∈ seen) then unobserved start_times seen ps
      else rest ← unobserved start_times (times :: seen) ps; Ok (p :: rest)
  end.

(** [ComposedSliceTimePermutationIterator]; every permutation of a new
    allocation is valid. *)
Definition CreateForNewAllocation (ty : Ty) (inclusive_slice_start_times : list Z)
    : res (list (list Z)) :=
  let n := length inclusive_slice_start_times in
  unobserved (merge_sort Z.le inclusive_slice_start_times) []
    (match ty with kAll => AllPermutations n | kPreferred => PreferredPermutations n end).

(** ** Free chunk roots *)

Record FreeChunkPiece := MkPiece { earliest_free_slice_time : Z; dimensions : Chunk }.

Record FreeChunkRoot := MkRoot { root_chunk : Chunk; pieces : list (Z * FreeChunkPiece) }.

Definition new_root (free_chunk : Chunk) (free_chunk_slice_time : Z) : FreeChunkRoot :=
  MkRoot free_chunk [(offset free_chunk, MkPiece free_chunk_slice_time free_chunk)].

(** The pieces [new_piece0], [new_piece1] and [new_piece2]. *)
Definition split_piece (free_chunk : Chunk) (t : Z) (piece : FreeChunkPiece)
    : list FreeChunkPiece :=
  let d := dimensions piece in
  (if offset free_chunk >? offset d then
     [MkPiece (earliest_free_slice_time piece)
        (FromOffsetEnd (offset d) (Z.min (offset free_chunk) (chunk_end d)))]
   else []) ++
  [MkPiece t (FromOffsetEnd (Z.max (offset free_chunk) (offset d))
                (Z.min (chunk_end free_chunk) (chunk_end d)))] ++
  (if chunk_end free_chunk <? chunk_end d then
     [MkPiece (earliest_free_slice_time piece)
        (FromOffsetEnd (chunk_end free_chunk) (chunk_end d))]
   else []).

(** The loop of [Update] from the iterator on: the pieces that stay and the new
    ones. *)
Fixpoint update_pieces (free_chunk : Chunk) (t : Z) (ps : list (Z * FreeChunkPiece))
    : res (list (Z * FreeChunkPiece) * list FreeChunkPiece) :=
  match ps with
  | [] => Ok ([], [])
  | (k, piece) :: ps' =>
      if chunk_end (dimensions piece) >=? offset free_chunk then
        b ← OverlapsWith free_chunk (dimensions piece);
        '(kept, new_pieces) ← update_pieces free_chunk t ps';
        if negb b || negb (t =? earliest_free_slice_time piece - 1)
        then Ok ((k, piece) :: kept, new_pieces)
        else Ok (kept, split_piece free_chunk t piece ++ new_pieces)
      else Ok (ps, [])
  end.

Definition Update (root : FreeChunkRoot) (free_chunk : Chunk) (free_chunk_slice_time : Z)
    : res FreeChunkRoot :=
  let '(before, from) := lower_bound (chunk_end free_chunk - 1) [] (pieces root) in
  '(kept, new_pieces) ← update_pieces free_chunk free_chunk_slice_time from;
  Ok (MkRoot (root_chunk root)
        (foldl (λ m p, map_insert (offset (dimensions p)) p m) (reverse before ++ kept)
           new_pieces)).

(** ** The finder *)

Record Finder := MkFinder {
  sorted_slice_sizes_ : list Z;
  max_colocation_size_ : Z;
  preferred_offset_ : Z;
  alignment_ : Z;
  free_chunks_ : list (Z * FreeChunkRoot);
  slice_time_permutations_ : list (list Z);
  is_offset_allowed_ : Z → bool
}.

Definition AllOffsetsAllowed (offset : Z) : bool := true.

(** The roots of the free chunks at the latest slice time. *)
Fixpoint latest_roots (t : Z) (free_chunks : FreeChunks) (m : list (Z * FreeChunkRoot))
    : res (list (Z * FreeChunkRoot)) :=
  match free_chunks with
  | [] => Ok m
  | (o, e) :: free_chunks' =>
      let free_chunk := FromOffsetEnd o e in
      if size free_chunk =? 0 then latest_roots t free_chunks' m
      else
        guard_res (size free_chunk >? 0) CheckFailed;;
        latest_roots t free_chunks' (map_insert o (new_root free_chunk t) m)
  end.

(** [it] advanced while the free chunk lies before all of it. *)
Fixpoint advance (free_chunk : Chunk) (it : nat) (roots : list (Z * FreeChunkRoot)) : nat :=
  match roots with
  | [] => it
  | (_, r) :: roots' =>
      if chunk_end free_chunk - 1 <? offset (root_chunk r)
      then advance free_chunk (S it) roots' else it
  end.

(** The roots that overlap updated; [previous_it] and the updated roots. *)
Fixpoint update_overlapping (free_chunk : Chunk) (t : Z) (previous_it it : nat)
    (roots : list (Z * FreeChunkRoot)) : res (nat * list (Z * FreeChunkRoot)) :=
  match roots with
  | [] => Ok (previous_it, [])
  | (k, r) :: roots' =>
      b ← OverlapsWith (root_chunk r) free_chunk;
      if (b : bool) then
        r ← Update r free_chunk t;
        '(previous_it, roots') ← update_overlapping free_chunk t it (S it) roots';
        Ok (previous_it, (k, r) :: roots')
      else Ok (previous_it, roots)
  end.

(** One slice time: its free chunks against the roots. *)
Fixpoint slice_time_step (t : Z) (free_chunks : FreeChunks) (it : nat)
    (roots : list (Z * FreeChunkRoot)) : res (list (Z * FreeChunkRoot)) :=
  match free_chunks with
  | [] => Ok roots
  | (o, e) :: free_chunks' =>
      let free_chunk := FromOffsetEnd o e in
      if size free_chunk =? 0 then slice_time_step t free_chunks' it roots
      else
        guard_res (size free_chunk >? 0) CheckFailed;;
        let it := advance free_chunk it (drop it roots) in
        if (it =? length roots)%nat then Ok roots
        else
          '(previous_it, updated) ← update_overlapping free_chunk t it it (drop it roots);
          slice_time_step t free_chunks' previous_it (take it roots ++ updated)
  end.

(** The slice times before the latest one, downwards. *)
Fixpoint slice_time_steps (t : nat) (free_chunks_per_slice_time : list FreeChunks)
    (roots : list (Z * FreeChunkRoot)) : res (list (Z * FreeChunkRoot)) :=
  match t with
  | O => Ok roots
  | S t =>
      free_chunks ← at_res free_chunks_per_slice_time t;
      roots ← slice_time_step (Z.of_nat t) free_chunks 0 roots;
      slice_time_steps t free_chunks_per_slice_time roots
  end.

Definition CreateFinder (free_chunks_per_slice_time : list FreeChunks)
    (sorted_slice_sizes : list Z) (max_colocation_size preferred_offset alignment : Z)
    (slice_time_permutations : list (list Z)) (is_offset_allowed : Z → bool) : res Finder :=
  let slice_size_sum := foldl Z.add 0 sorted_slice_sizes in
  guard_res (length sorted_slice_sizes =? length free_chunks_per_slice_time)%nat CheckFailed;;
  latest ← (match last free_chunks_per_slice_time with
            | Some l => Ok l
            | None => Fail CheckFailed
            end);
  let n := length sorted_slice_sizes in
  roots ← latest_roots (Z.of_nat n - 1) latest [];
  roots ← slice_time_steps (n - 1) free_chunks_per_slice_time roots;
  Ok (MkFinder sorted_slice_sizes
        (if max_colocation_size <? slice_size_sum then slice_size_sum else max_colocation_size)
        preferred_offset alignment roots slice_time_permutations is_offset_allowed).

(** *** One offset *)

(** The loop over the pieces, ascending from the one at the offset, and the
    slices, each its time and size; whether every slice fits. *)
Fixpoint fit_loop (fuel : nat) (ps : list (Z * FreeChunkPiece)) (slices : list (Z * Z))
    (amount_of_current_slice_consumed current_offset : Z) : res bool :=
  match ps, slices with
  | (_, piece) :: ps', (current_slice_time, current_slice_size) :: slices' =>
      match fuel with
      | O => Fail NoFuel
      | S fuel =>
          let remaining_in_slice := current_slice_size - amount_of_current_slice_consumed in
          let remaining_in_piece := chunk_end (dimensions piece) - current_offset in
          let amount_to_consume := Z.min remaining_in_slice remaining_in_piece in
          if earliest_free_slice_time piece >? current_slice_time then Ok false
          else
            fit_loop fuel
              (if remaining_in_slice >=? remaining_in_piece then ps' else ps)
              (if remaining_in_slice <=? remaining_in_piece then slices' else slices)
              (if remaining_in_slice <=? remaining_in_piece then 0
               else amount_of_current_slice_consumed + amount_to_consume)
              (current_offset + amount_to_consume)
      end
  | _, [] => Ok true
  | [], _ => Ok false
  end.

(** Whether the returned status is [ok()]. *)
Definition DoesPermutationFit (f : Finder) (permutation_of_slice_times : list Z)
    (root : FreeChunkRoot) (o : Z) : res bool :=
  if negb (length permutation_of_slice_times =? length (sorted_slice_sizes_ f))%nat then Ok false
  else if o >=? chunk_end (root_chunk root) then Ok false
  else
    e ← s64 (o + max_colocation_size_ f);
    if e >? chunk_end (root_chunk root) then Ok false
    else if negb (is_offset_allowed_ f o) then Ok false
    else
      match lower_bound o [] (pieces root) with
      | (_, []) => Ok false
      | (before, p :: _) =>
          fit_loop (length (p :: before) + length (sorted_slice_sizes_ f)) (p :: before)
            (zip permutation_of_slice_times (sorted_slice_sizes_ f)) 0 o
      end.

Fixpoint place_slices (permutation sizes : list Z) (current_offset : Z) (chunks : list Chunk)
    : res (Z * list Chunk) :=
  match permutation, sizes with
  | t :: permutation', n :: sizes' =>
      _ ← at_z chunks t;
      place_slices permutation' sizes' (current_offset + n)
        (<[Z.to_nat t := FromOffsetSize current_offset n]> chunks)
  | _, _ => Ok (current_offset, chunks)
  end.

Definition PermutationToChunks (f : Finder) (permutation_of_slice_times : list Z) (o : Z)
    : res (list Chunk) :=
  let n := length permutation_of_slice_times in
  '(current_offset, chunks) ← place_slices permutation_of_slice_times (sorted_slice_sizes_ f) o
    (replicate (S n) (FromOffsetSize (-1) 1));
  Ok (<[n := FromOffsetSize current_offset (max_colocation_size_ f - (current_offset - o))]>
        chunks).

(** The first permutation that fits at the offset, as chunks. *)
Fixpoint first_fit (f : Finder) (ps : list (list Z)) (root : FreeChunkRoot) (o : Z)
    : res (option (list Chunk)) :=
  match ps with
  | [] => Ok None
  | p :: ps' =>
      b ← DoesPermutationFit f p root o;
      if (b : bool) then chunks ← PermutationToChunks f p o; Ok (Some chunks)
      else first_fit f ps' root o
  end.

(** *** One root *)

(** A loop body run up to [n] times, [inr] being its exit. *)
Fixpoint iter_until {St R} (body : St → res (St + R)) (n : positive) (s : St) : res (St + R) :=
  match n with
  | xH => body s
  | xO n =>
      r ← iter_until body n s;
      match r with inl s => iter_until body n s | inr r => Ok (inr r) end
  | xI n =>
      r ← iter_until body n s;
      match r with
      | inr r => Ok (inr r)
      | inl s =>
          r ← iter_until body n s;
          match r with inl s => body s | inr r => Ok (inr r) end
      end
  end.

(** One round of the loop over the offsets: the chunks found, or none. *)
Definition try_offset (f : Finder) (root : FreeChunkRoot) (last_end o : Z)
    : res (Z + list Chunk) :=
  e ← s64 (o + max_colocation_size_ f);
  if e <=? last_end then
    r ← first_fit f (slice_time_permutations_ f) root o;
    match r with
    | Some chunks => Ok (inr chunks)
    | None =>
        if (length (pieces root) =? 1)%nat then Ok (inr [])
        else o ← s64 (o + alignment_ f); Ok (inl o)
    end
  else Ok (inr []).

(** More rounds than there are offsets between the first and the last. *)
Definition rounds (f : Finder) (first_offset last_end : Z) : positive :=
  Z.to_pos (Z.max 0 (last_end - first_offset) / Z.max 1 (alignment_ f) + 2).

Definition FindInRoot (f : Finder) (root : FreeChunkRoot) (only_try_this_offset : option Z)
    : res (list Chunk) :=
  '(first_offset, last_end) ←
    (match only_try_this_offset with
     | Some o => last_end ← s64 (o + max_colocation_size_ f); Ok (o, last_end)
     | None =>
         let o := offset (root_chunk root) in
         let e := chunk_end (root_chunk root) in
         if negb (Z.rem o (alignment_ f) =? 0)
         then o ← s64 (o + (alignment_ f - Z.rem o (alignment_ f))); Ok (o, e)
         else Ok (o, e)
     end);
  if bool_decide (is_Some only_try_this_offset) && negb (Z.rem first_offset (alignment_ f) =? 0)
  then Ok []
  else
    guard_res (Z.rem first_offset (alignment_ f) =? 0) CheckFailed;;
    r ← iter_until (try_offset f root last_end) (rounds f first_offset last_end) first_offset;
    match r with inr chunks => Ok chunks | inl _ => Fail NoFuel end.

(** *** All roots *)

Definition FindForOffset (f : Finder) (o : Z) : res (list Chunk) :=
  match lower_bound o [] (free_chunks_ f) with
  | (_, (_, root) :: _) => FindInRoot f root (Some o)
  | (_, []) => Ok []
  end.

(** The order in which [heap_next] returns the roots: by size, then by offset. *)
Definition root_le (r1 r2 : FreeChunkRoot) : Prop :=
  size (root_chunk r1) < size (root_chunk r2) ∨
  size (root_chunk r1) = size (root_chunk r2) ∧ offset (root_chunk r1) ≤ offset (root_chunk r2).

#[export] Instance root_le_dec r1 r2 : Decision (root_le r1 r2).
Proof. unfold root_le. apply _. Defined.

Fixpoint find_first (f : Finder) (roots : list FreeChunkRoot) : res (list Chunk) :=
  match roots with
  | [] => Ok []
  | r :: roots' =>
      chunks ← FindInRoot f r None;
      match chunks with [] => find_first f roots' | _ => Ok chunks end
  end.

(** An empty list when nothing was found. *)
Definition Find (f : Finder) : res (list Chunk) :=
  preferred ← (if preferred_offset_ f >=? 0 then FindForOffset f (preferred_offset_ f) else Ok []);
  match preferred with
  | _ :: _ => Ok preferred
  | [] => find_first f (merge_sort root_le (reverse (snd <$> free_chunks_ f)))
  end.

End HeapFinder.
