(* ===== verification/HeapSim.v ===== *)
(** * The best-fit heap of the heap simulator

    Models [NoFragmentationStatsHeap], [GlobalDecreasingSizeBestFitHeap] and the
    single-heap part of [ConstrainedGlobalDecreasingSizeBestFitHeap] of
    [xla/service/heap_simulator/heap_simulator.h] and [.cc].  A buffer is its
    id, by which [operator<] compares buffers and the hash maps are keyed; what
    is read from a hash map or set in its iteration order is sorted or summed up
    by the code, so that the order does not matter. *)
From S2P Require Import Prelude WindowArith HeapTree HeapFinder.

Module HeapSim.
Import HeapTree HeapFinder.

(** ** The heap without fragmentation *)

Record StatsHeap := MkStatsHeap { current_heap_size_ : Z; max_heap_size_ : Z }.

Definition stats_Alloc (h : StatsHeap) (size : Z) : res StatsHeap :=
  n ← s64 (current_heap_size_ h + size);
  Ok (MkStatsHeap n (if n >? max_heap_size_ h then n else max_heap_size_ h)).

(** The bytes of the subcomputations are the constant 0 in the code. *)
Definition stats_AccountForSubcomputationMemory (h : StatsHeap) : StatsHeap :=
  MkStatsHeap (current_heap_size_ h) (Z.max (max_heap_size_ h) (current_heap_size_ h)).

Definition stats_Free (h : StatsHeap) (size : Z) : res StatsHeap :=
  n ← s64 (current_heap_size_ h - size); Ok (MkStatsHeap n (max_heap_size_ h)).


(** ** The state of the best-fit heap *)

Record BufferInterval := MkBufferInterval {
  buffer : Z;
  buffer_size : Z;
  buffer_start : Z;
  buffer_end : Z;
  colocations : list Z;
  need_allocation : bool;
  min_colocation_start_time : Z;
  max_colocation_end_time : Z
}.

(** [kCustom] carries the comparison the constructor is given. *)
Inductive PackingStrategy :=
  | kSpatial
  | kTemporal
  | kCustom (buffer_interval_compare : BufferInterval → BufferInterval → bool)
  | kFastMerge
  | kFastSplit.

Record HeapResult := MkHeapResult { chunk_map : gmap Z Chunk; heap_size : Z }.

Definition UpdatedHeapSize (r : HeapResult) (c : Chunk) : Z := Z.max (heap_size r) (chunk_end c).

(** Of all heaps; the fragmentation and the trace are filled in by the simulator. *)
Record Result := MkResult { heap_results : list HeapResult; result_heap_size : Z }.

(** Statistics only: no heap. *)
Definition stats_Finish (h : StatsHeap) : Result := MkResult [] (max_heap_size_ h).

Record Heap := MkHeap {
  buffer_intervals_ : gmap Z BufferInterval;
  result_ : HeapResult;
  interval_tree_ : tree;
  alignment : Z;
  current_time_ : Z;
  packing_strategy_ : PackingStrategy;
  slice_time_permutation_iteration_type_ : Ty
}.

Definition new_heap (alignment : Z) (p : PackingStrategy) (ty : Ty) : res Heap :=
  guard_res (alignment >? 0) CheckFailed;;
  Ok (MkHeap ∅ (MkHeapResult ∅ 0) Leaf alignment 0 p ty).

Definition with_intervals (h : Heap) (m : gmap Z BufferInterval) (time : Z) : Heap :=
  MkHeap m (result_ h) (interval_tree_ h) (alignment h) time (packing_strategy_ h)
    (slice_time_permutation_iteration_type_ h).

Definition with_result (h : Heap) (r : HeapResult) (t : tree) : Heap :=
  MkHeap (buffer_intervals_ h) r t (alignment h) (current_time_ h) (packing_strategy_ h)
    (slice_time_permutation_iteration_type_ h).

(** ** The order of the intervals *)

Fixpoint tuple_lt (a b : list Z) : bool :=
  match a, b with
  | x :: a', y :: b' => if x <? y then true else if y <? x then false else tuple_lt a' b'
  | _, _ => false
  end.

Definition LessThanByKey (key : BufferInterval → list Z) (x y : BufferInterval) : bool :=
  tuple_lt (key x) (key y).

Definition GetTemporalBufferIntervalCompare : BufferInterval → BufferInterval → bool :=
  LessThanByKey (λ x,
    [min_colocation_start_time x - max_colocation_end_time x; - buffer_size x; buffer x]).

Definition GetColocationStartTimeBufferIntervalCompare : BufferInterval → BufferInterval → bool :=
  LessThanByKey (λ x, [min_colocation_start_time x; - buffer_size x; buffer x]).

Definition GetSpatialBufferIntervalCompare : BufferInterval → BufferInterval → bool :=
  LessThanByKey (λ x, [- buffer_size x; buffer_start x - buffer_end x; buffer x]).

Definition buffer_interval_compare_ (p : PackingStrategy)
    : BufferInterval → BufferInterval → bool :=
  match p with
  | kTemporal => GetTemporalBufferIntervalCompare
  | kSpatial | kFastSplit => GetSpatialBufferIntervalCompare
  | kFastMerge => GetColocationStartTimeBufferIntervalCompare
  | kCustom f => f
  end.

(** ** Events *)

(** [emplace]: a key that is there keeps its value. *)
Definition emplace {A} (k : Z) (x : A) (m : gmap Z A) : gmap Z A :=
  match m !! k with Some _ => m | None => <[k := x]> m end.

Definition AddToChunkMap (b : Z) (c : Chunk) (r : HeapResult) : HeapResult :=
  MkHeapResult (emplace b c (chunk_map r)) (heap_size r).

(** The map entry of a 0-sized buffer. *)
Definition map_empty_buffer (h : Heap) (b : Z) : Heap :=
  with_result h (AddToChunkMap b (FromOffsetSize 0 0) (result_ h)) (interval_tree_ h).

Definition new_interval (b size time : Z) (need : bool) : BufferInterval :=
  MkBufferInterval b size time (-1) [] need (-1) (-1).

Definition Alloc (h : Heap) (b size : Z) : res Heap :=
  if size =? 0 then Ok (map_empty_buffer h b)
  else
    guard_res (bool_decide (buffer_intervals_ h !! b = None)) CheckFailed;;
    time ← s64 (current_time_ h + 1);
    Ok (with_intervals h
          (<[b := new_interval b size (current_time_ h) true]> (buffer_intervals_ h)) time).

Definition add_colocation (b : Z) (x : BufferInterval) : BufferInterval :=
  MkBufferInterval (buffer x) (buffer_size x) (buffer_start x) (buffer_end x)
    (colocations x ++ [b]) (need_allocation x) (min_colocation_start_time x)
    (max_colocation_end_time x).

Definition ShareWith (h : Heap) (b share_with size : Z) : res Heap :=
  if size =? 0 then Ok (map_empty_buffer h b)
  else
    x ← (match buffer_intervals_ h !! share_with with
         | Some x => Ok x
         | None => Fail CheckFailed
         end);
    let m := <[share_with := add_colocation b x]> (buffer_intervals_ h) in
    guard_res (bool_decide (m !! b = None)) CheckFailed;;
    time ← s64 (current_time_ h + 1);
    Ok (with_intervals h (<[b := new_interval b size (current_time_ h) false]> m) time).

Definition set_end (time : Z) (x : BufferInterval) : BufferInterval :=
  MkBufferInterval (buffer x) (buffer_size x) (buffer_start x) time (colocations x)
    (need_allocation x) (min_colocation_start_time x) (max_colocation_end_time x).

Definition Free (h : Heap) (b size : Z) : res Heap :=
  if size =? 0 then Ok h
  else
    x ← (match buffer_intervals_ h !! b with Some x => Ok x | None => Fail CheckFailed end);
    guard_res (buffer x =? b) CheckFailed;;
    guard_res (buffer_size x =? size) CheckFailed;;
    guard_res (buffer_end x =? -1) CheckFailed;;
    time ← s64 (current_time_ h + 1);
    Ok (with_intervals h (<[b := set_end (current_time_ h) x]> (buffer_intervals_ h)) time).

(** ** Colocations *)

(** [buffer_intervals_.at]: an absent key aborts. *)
Definition interval_at (m : gmap Z BufferInterval) (b : Z) : res BufferInterval :=
  match m !! b with Some x => Ok x | None => Fail CheckFailed end.

(** One item of the worklist: its colocations that are new. *)
Fixpoint add_colocated (m : gmap Z BufferInterval) (cs : list Z) (result : gset Z)
    (worklist : list (list Z)) : res (gset Z * list (list Z)) :=
  match cs with
  | [] => Ok (result, worklist)
  | c :: cs =>
      if decide (c ∈ result) then add_colocated m cs result worklist
      else x ← interval_at m c; add_colocated m cs ({[c]} ∪ result) (colocations x :: worklist)
  end.

Fixpoint colocation_loop (fuel : nat) (m : gmap Z BufferInterval) (worklist : list (list Z))
    (result : gset Z) : res (gset Z) :=
  match worklist with
  | [] => Ok result
  | cs :: worklist =>
      match fuel with
      | O => Fail NoFuel
      | S fuel =>
          '(result, worklist) ← add_colocated m cs result worklist;
          colocation_loop fuel m worklist result
      end
  end.

(** Every buffer is pushed at most once, after the interval itself. *)
Definition GetTransitiveColocations (m : gmap Z BufferInterval) (interval : BufferInterval)
    : res (gset Z) :=
  colocation_loop (S (base.size m)) m [colocations interval] ∅.

(** The intervals of a set of colocated buffers. *)
Definition intervals_at (m : gmap Z BufferInterval) (cs : gset Z) : res (list BufferInterval) :=
  mapM (interval_at m) (elements cs).

Definition GetMaxColocationSize (m : gmap Z BufferInterval) (x : BufferInterval) : res Z :=
  cs ← GetTransitiveColocations m x;
  ys ← intervals_at m cs;
  Ok (foldl (λ n y, Z.max n (buffer_size y)) (buffer_size x) ys).

(** ** Free chunks *)

Definition has_single_bit (z : Z) : bool := negb (z =? 0) && (Z.land z (z - 1) =? 0).

Definition ComputeAlignedChunkEnd (a end_ : Z) : res Z :=
  if negb (a =? 1) then
    if has_single_bit a then
      n ← s64 (end_ + a); n ← s64 (n - 1); Ok (Z.land n (Z.lnot (a - 1)))
    else q ← WindowArith.CeilOfRatio end_ a; s64 (q * a)
  else Ok end_.

Definition by_offset (a b : Chunk) : Prop := offset a ≤ offset b.

#[export] Instance by_offset_dec a b : Decision (by_offset a b).
Proof. unfold by_offset. apply _. Defined.

(** The free chunk before a used range, when it is large enough. *)
Definition emit (buffer_size free_start used_offset : Z) : FreeChunks :=
  if used_offset - free_start >=? buffer_size then [(free_start, used_offset)] else [].

(** The pass over the used chunks after the first, sorted by offset;
    [free_chunks_list_] in the order of its elements. *)
Fixpoint free_pass (a buffer_size current_free_chunk_start current_offset current_end : Z)
    (used_chunks : list Chunk) : res FreeChunks :=
  match used_chunks with
  | [] =>
      aligned ← ComputeAlignedChunkEnd a current_end;
      Ok (emit buffer_size current_free_chunk_start current_offset ++
          [(Z.max current_free_chunk_start aligned, int64_max)])
  | curr :: used_chunks =>
      if offset curr <? current_end then
        free_pass a buffer_size current_free_chunk_start current_offset
          (Z.max current_end (chunk_end curr)) used_chunks
      else
        aligned ← ComputeAlignedChunkEnd a current_end;
        rest ← free_pass a buffer_size (Z.max current_free_chunk_start aligned) (offset curr)
                 (chunk_end curr) used_chunks;
        Ok (emit buffer_size current_free_chunk_start current_offset ++ rest)
  end.

(** The chunks used while any of the intervals is live. *)
Fixpoint used_chunks (t : tree) (intervals : list BufferInterval) : res (list Chunk) :=
  match intervals with
  | [] => Ok []
  | x :: intervals =>
      cs ← ChunksOverlappingInTime t (buffer_start x) (buffer_end x);
      rest ← used_chunks t intervals;
      Ok (cs ++ rest)
  end.

Definition MakeFreeChunks (h : Heap) (x : BufferInterval) (max_colocation_size : Z)
    : res FreeChunks :=
  cs ← GetTransitiveColocations (buffer_intervals_ h) x;
  ys ← intervals_at (buffer_intervals_ h) cs;
  used ← used_chunks (interval_tree_ h) (x :: ys);
  match merge_sort by_offset used with
  | [] => Ok (map_of_range [(0, int64_max)])
  | c :: used =>
      free_chunks ← free_pass (alignment h) (buffer_size x) 0 (offset c) (chunk_end c) used;
      Ok (map_of_range (reverse free_chunks))
  end.

(** ** Sliced intervals *)

Record SlicedBufferInterval := MkSliced {
  full_buffer_interval : BufferInterval;
  slice_sizes_sorted_by_offset_ : list Z;
  make_free_chunks_intervals_ : list BufferInterval
}.

Definition num_slices (s : SlicedBufferInterval) : nat := length (slice_sizes_sorted_by_offset_ s).

(** [slice_sizes_sorted_by_offset] of the last slice and of the others. *)
Definition Slice (x : BufferInterval) (slice_sizes : list Z) : res SlicedBufferInterval :=
  match slice_sizes with
  | [] => Ok (MkSliced x [buffer_size x] [x])
  | n :: ns =>
      let min_slice_size := foldl Z.min n ns in
      guard_res (foldl Z.add 0 slice_sizes =? buffer_size x) CheckFailed;;
      let num_slices := length slice_sizes in
      Ok (MkSliced x slice_sizes
            (imap (λ i _,
               MkBufferInterval (buffer x)
                 (if (i =? num_slices - 1)%nat then buffer_size x else min_slice_size)
                 0 (buffer_end x)
                 (if (i =? num_slices - 1)%nat then colocations x else [])
                 (need_allocation x) (-1) (-1)) slice_sizes))
  end.

(** [CreateConstInterval]: one slice. *)
Definition CreateConstInterval (x : BufferInterval) : res SlicedBufferInterval := Slice x [].

Definition inclusive_start_times (s : SlicedBufferInterval) : list Z :=
  buffer_start <$> make_free_chunks_intervals_ s.

(** ** Placing an interval *)

Definition CreateSlicedAllocationFinder (h : Heap) (s : SlicedBufferInterval)
    (max_colocation_size preferred_offset : Z) (permutations : list (list Z))
    (is_offset_allowed : Z → bool) : res Finder :=
  first ← mapM (λ x, MakeFreeChunks h x (-1))
            (take (num_slices s - 1) (make_free_chunks_intervals_ s));
  x ← at_res (make_free_chunks_intervals_ s) (num_slices s - 1);
  latest ← MakeFreeChunks h x max_colocation_size;
  CreateFinder (first ++ [latest]) (slice_sizes_sorted_by_offset_ s) max_colocation_size
    preferred_offset (alignment h) permutations is_offset_allowed.

Definition PostProcessFindChunkCandidatesResult (s : SlicedBufferInterval) (chunks : list Chunk)
    : res (list Chunk) :=
  match chunks with
  | [] => Ok []
  | _ =>
      guard_res (length chunks =? num_slices s + 1)%nat CheckFailed;;
      Ok (take (length chunks - 1) chunks)
  end.

Definition FindChunkCandidates (h : Heap) (s : SlicedBufferInterval) (preferred_offset : Z)
    : res (list Chunk) :=
  max_colocation_size ← GetMaxColocationSize (buffer_intervals_ h) (full_buffer_interval s);
  permutations ← CreateForNewAllocation (slice_time_permutation_iteration_type_ h)
                   (inclusive_start_times s);
  f ← CreateSlicedAllocationFinder h s max_colocation_size preferred_offset permutations
        AllOffsetsAllowed;
  chunks ← Find f;
  PostProcessFindChunkCandidatesResult s chunks.

Definition FindChunkCandidate (h : Heap) (x : BufferInterval) (preferred_offset : Z)
    : res Chunk :=
  s ← CreateConstInterval x;
  chunks ← FindChunkCandidates h s preferred_offset;
  match chunks with [c] => Ok c | _ => Fail CheckFailed end.

Definition FindLatestEndWithFreeChunkAtPreferredOffset (h : Heap) (x : BufferInterval)
    (preferred_offset : Z) : res Z :=
  guard_res (preferred_offset >=? 0) CheckFailed;;
  r ← ApplyToSortedNodesOverlapping
    (λ (acc : res Z) d,
      let used := chunk d in
      match (if offset used <? preferred_offset
             then ComputeAlignedChunkEnd (alignment h) (chunk_end used)
             else Ok preferred_offset) with
      | Ok aligned =>
          if ((offset used <? preferred_offset) && (preferred_offset <? aligned)) ||
             ((preferred_offset <=? offset used) &&
              (offset used <? preferred_offset + buffer_size x))
          then (Ok (start d - 1), true) else (acc, false)
      | Fail e => (Fail e, true)
      end)
    (interval_tree_ h) (buffer_start x) (buffer_end x) (Ok (buffer_end x));
  r.

(** ** Committing *)

Definition CommitChunkOnly (h : Heap) (x : BufferInterval) (c : Chunk) : res Heap :=
  guard_res (size c =? buffer_size x) CheckFailed;;
  max_colocation_size ← GetMaxColocationSize (buffer_intervals_ h) x;
  let max_size_chunk := FromOffsetSize (offset c) max_colocation_size in
  let r := MkHeapResult (chunk_map (result_ h)) (UpdatedHeapSize (result_ h) max_size_chunk) in
  cs ← GetTransitiveColocations (buffer_intervals_ h) x;
  let r := foldl (λ r b,
      AddToChunkMap b max_size_chunk
        (MkHeapResult (chunk_map r) (UpdatedHeapSize r max_size_chunk))) r (elements cs) in
  Ok (with_result h (AddToChunkMap (buffer x) max_size_chunk r) (interval_tree_ h)).

Definition CommitChunkAndInterval (h : Heap) (x : BufferInterval) (c : Chunk) : res Heap :=
  h ← CommitChunkOnly h x c;
  max_colocation_size ← GetMaxColocationSize (buffer_intervals_ h) x;
  let max_size_chunk := FromOffsetSize (offset c) max_colocation_size in
  let t := Add (interval_tree_ h) (MkInterval (buffer_start x) (buffer_end x) max_size_chunk) in
  cs ← GetTransitiveColocations (buffer_intervals_ h) x;
  ys ← intervals_at (buffer_intervals_ h) cs;
  let t := foldl (λ t y, Add t (MkInterval (buffer_start y) (buffer_end y) max_size_chunk)) t ys in
  Ok (with_result h (result_ h) t).

(** ** Finishing *)

Definition with_colocation_times (x : BufferInterval) (min_start max_end : Z) : BufferInterval :=
  MkBufferInterval (buffer x) (buffer_size x) (buffer_start x) (buffer_end x) (colocations x)
    (need_allocation x) min_start max_end.

(** One interval with the range of its colocations. *)
Definition colocation_times (m : gmap Z BufferInterval) (x : BufferInterval)
    : res BufferInterval :=
  cs ← GetTransitiveColocations m x;
  ys ← intervals_at m cs;
  Ok (with_colocation_times x
        (foldl (λ n y, Z.min n (buffer_start y)) (buffer_start x) ys)
        (foldl (λ n y, Z.max n (buffer_end y)) (buffer_end x) ys)).

Definition compare_le (compare : BufferInterval → BufferInterval → bool)
    (x y : BufferInterval) : Prop := compare y x = false.

#[export] Instance compare_le_dec compare x y : Decision (compare_le compare x y).
Proof. unfold compare_le. apply _. Defined.

Definition GetSortedBufferIntervals (h : Heap) : res (list BufferInterval) :=
  xs ← mapM (colocation_times (buffer_intervals_ h)) (snd <$> map_to_list (buffer_intervals_ h));
  Ok (merge_sort (compare_le (buffer_interval_compare_ (packing_strategy_ h))) xs).

(** [Finish]'s loop. *)
Fixpoint allocate_all (h : Heap) (xs : list BufferInterval) : res Heap :=
  match xs with
  | [] => Ok h
  | x :: xs =>
      if need_allocation x then
        c ← FindChunkCandidate h x (-1);
        h ← CommitChunkAndInterval h x c;
        allocate_all h xs
      else allocate_all h xs
  end.

Definition Finish (h : Heap) : res Result :=
  xs ← GetSortedBufferIntervals h;
  h ← allocate_all h xs;
  Ok (MkResult [result_ h] (heap_size (result_ h))).

End HeapSim.
