(* ===== verification/HeapColoc.v ===== *)
(** * Colocated buffers

    The transitive colocations of a buffer are the buffers reachable from it,
    and the buffers that need an allocation split the others into groups. *)
From stdpp Require Import relations.
From S2P Require Import Prelude HeapTree HeapFinder HeapSim.
#[local] Open Scope Z_scope.

Module HeapColoc.
Import HeapTree HeapFinder HeapSim.

Section Graph.
Context (m : gmap Z BufferInterval).

Definition edge (a c : Z) : Prop := ∃ x, m !! a = Some x ∧ c ∈ colocations x.

(** Every colocation is in the map. *)
Definition closed : Prop := ∀ a c, edge a c → is_Some (m !! c).

(** What is reachable from a list of colocations. *)
Definition below (cs : list Z) (c : Z) : Prop := ∃ a, a ∈ cs ∧ rtc edge a c.

Lemma interval_at_ok b x : interval_at m b = Ok x ↔ m !! b = Some x.
Proof. unfold interval_at. destruct (m !! b); naive_solver. Qed.

Lemma intervals_at_ok cs :
  (∀ c, c ∈ cs → is_Some (m !! c)) →
  ∃ ys, intervals_at m cs = Ok ys ∧
    (∀ y, y ∈ ys ↔ ∃ c, c ∈ cs ∧ m !! c = Some y).
Proof.
  intros H. unfold intervals_at.
  assert (Hcs : ∀ c, c ∈ cs ↔ c ∈ elements cs) by (intros; by rewrite elem_of_elements).
  setoid_rewrite Hcs. setoid_rewrite Hcs in H. clear Hcs.
  induction (elements cs) as [| c l IH].
  - exists []. split; [done |]. intros y. rewrite elem_of_nil. setoid_rewrite elem_of_nil. naive_solver.
  - destruct (H c) as [x Hx]; [by left |]. destruct IH as (ys & E & Hys).
    { intros c' Hc'. apply H. by right. }
    exists (x :: ys). split.
    + cbn [mapM]. rewrite (proj2 (interval_at_ok c x)) by done. cbn [mbind res_bind]. by rewrite E.
    + intros y. rewrite elem_of_cons, Hys. setoid_rewrite elem_of_cons. naive_solver.
Qed.

(** ** The loop *)

(** Everything in the result has its colocations in the result or waiting. *)
Definition settled (worklist : list (list Z)) (result : gset Z) (cs : list Z) : Prop :=
  cs ∈ worklist ∨ ∀ c, c ∈ cs → c ∈ result.

Definition loop_inv (start : list Z) (worklist : list (list Z)) (result : gset Z) : Prop :=
  (∀ c, c ∈ result → is_Some (m !! c)) ∧
  (∀ c, c ∈ result → below start c) ∧
  (∀ cs, cs ∈ worklist → ∀ c, c ∈ cs → below start c ∧ is_Some (m !! c)) ∧
  settled worklist result start ∧
  (∀ c x, c ∈ result → m !! c = Some x → settled worklist result (colocations x)).

Lemma settled_mono w1 w2 (r1 r2 : gset Z) cs :
  (∀ l, l ∈ w1 → l ∈ w2 ∨ ∀ c, c ∈ l → c ∈ r2) → r1 ⊆ r2 → settled w1 r1 cs → settled w2 r2 cs.
Proof. intros Hw Hr [H | H]; [by apply Hw | right; set_solver]. Qed.

Lemma add_colocated_spec start cs worklist (result : gset Z) :
  closed → (∀ c, c ∈ cs → below start c ∧ is_Some (m !! c)) → loop_inv start (cs :: worklist) result →
  ∃ worklist' result', add_colocated m cs result worklist = Ok (result', worklist') ∧
    loop_inv start worklist' result' ∧
    (length worklist' + base.size result = length worklist + base.size result')%nat.
Proof.
  intros Hclosed.
  assert (Hgen : ∀ done, (∀ c, c ∈ done → c ∈ result) →
    (∀ c, c ∈ cs → below start c ∧ is_Some (m !! c)) → loop_inv start ((done ++ cs) :: worklist) result →
    ∃ worklist' result', add_colocated m cs result worklist = Ok (result', worklist') ∧
      loop_inv start worklist' result' ∧
      (length worklist' + base.size result = length worklist + base.size result')%nat).
  2: { intros Hcs Hinv. apply (Hgen []); [by intros c ?%elem_of_nil | done | done]. }
  revert worklist result. induction cs as [| c cs IH]; intros worklist result dn Hdn Hcs Hinv.
  - exists worklist, result. split; [done |]. split; [| done].
    rewrite app_nil_r in Hinv. destruct Hinv as (H1 & H2 & H3 & H4 & H5).
    split_and!; [done | done | | |].
    + intros l Hl. apply H3. by right.
    + eapply settled_mono; [| reflexivity | exact H4].
      intros l [-> | Hl]%elem_of_cons; [by right | by left].
    + intros b x Hb Hx. eapply settled_mono; [| reflexivity | eapply H5; eauto].
      intros l [-> | Hl]%elem_of_cons; [by right | by left].
  - cbn [add_colocated]. destruct (Hcs c) as [Hbc [x Hx]]; [by left |].
    replace (dn ++ c :: cs) with ((dn ++ [c]) ++ cs) in Hinv by (by rewrite <- app_assoc).
    case_decide as Hc.
    + apply (IH worklist result (dn ++ [c])); [| | done].
      * intros b [Hb | Hb]%elem_of_app; [by apply Hdn |]. apply list_elem_of_singleton in Hb as ->. done.
      * intros b Hb. apply Hcs. by right.
    + rewrite (proj2 (interval_at_ok c x)) by done. cbn [mbind res_bind].
      destruct (IH (colocations x :: worklist) ({[c]} ∪ result) (dn ++ [c])) as (w & r & E & Hi & Hl).
      * intros b [Hb | Hb]%elem_of_app; [set_solver |].
        apply list_elem_of_singleton in Hb as ->. set_solver.
      * intros b Hb. apply Hcs. by right.
      * destruct Hinv as (H1 & H2 & H3 & H4 & H5).
        assert (Hmono : ∀ l, settled (((dn ++ [c]) ++ cs) :: worklist) result l →
          settled (((dn ++ [c]) ++ cs) :: colocations x :: worklist) ({[c]} ∪ result) l).
        { intros l. apply settled_mono; [| set_solver]. intros k Hk. left. set_solver. }
        split_and!.
        -- intros b Hb. destruct (decide (b = c)) as [-> | Hne]; [by exists x |]. apply H1. set_solver.
        -- intros b Hb. destruct (decide (b = c)) as [-> | Hne]; [done |]. apply H2. set_solver.
        -- intros l Hl b Hb. apply elem_of_cons in Hl as [-> | [-> | Hl]%elem_of_cons].
           ++ eapply H3; [by left | done].
           ++ destruct Hbc as (a & Ha & Hac). assert (edge c b) as Hcb by (by exists x).
              split; [| by eapply Hclosed]. exists a. split; [done |]. by eapply rtc_r.
           ++ eapply H3; [by right | done].
        -- by apply Hmono.
        -- intros b y Hb Hy. destruct (decide (b = c)) as [-> | Hne].
           ++ rewrite Hx in Hy. injection Hy as <-. left. right. by left.
           ++ apply Hmono. eapply H5; [| done]. set_solver.
      * exists w, r. split; [done |]. split; [done |].
        rewrite size_union, size_singleton in Hl by set_solver. cbn [length] in Hl. lia.
Qed.

Lemma colocation_loop_spec fuel start worklist (result : gset Z) :
  closed → loop_inv start worklist result →
  (length worklist + base.size m ≤ fuel + base.size result)%nat →
  ∃ r, colocation_loop fuel m worklist result = Ok r ∧ loop_inv start [] r.
Proof.
  intros Hclosed. revert worklist result.
  assert (Hsize : ∀ start w (r : gset Z), loop_inv start w r → (base.size r ≤ base.size m)%nat).
  { intros st w r [H _]. rewrite <- (size_dom (D := gset Z)). apply subseteq_size.
    intros c Hc. by apply elem_of_dom, H. }
  induction fuel as [| fuel IH]; intros worklist result Hinv Hf;
    destruct worklist as [| cs worklist]; try (by exists result).
  { specialize (Hsize _ _ _ Hinv). simpl in Hf. lia. }
  cbn [colocation_loop].
  destruct (add_colocated_spec start cs worklist result) as (w & r & E & Hi & Hl); try done.
  { destruct Hinv as (_ & _ & H & _). apply H. by left. }
  rewrite E. cbn [mbind res_bind]. apply IH; [done |]. simpl in Hf. lia.
Qed.

Lemma GetTransitiveColocations_spec x :
  closed → (∀ c, c ∈ colocations x → is_Some (m !! c)) →
  ∃ r, GetTransitiveColocations m x = Ok r ∧ ∀ c, c ∈ r ↔ below (colocations x) c.
Proof.
  intros Hclosed Hx. unfold GetTransitiveColocations.
  destruct (colocation_loop_spec (S (base.size m)) (colocations x) [colocations x] ∅)
    as (r & E & H1 & H2 & _ & H4 & H5); [done | | |].
  - split_and!.
    + by intros c ?%elem_of_empty.
    + by intros c ?%elem_of_empty.
    + intros l ->%list_elem_of_singleton c Hc. split; [by exists c | by apply Hx].
    + left. by left.
    + by intros c y ?%elem_of_empty.
  - simpl. lia.
  - exists r. split; [done |]. intros c. split; [apply H2 |].
    intros (a & Ha & Hac). destruct H4 as [H4 | H4]; [by apply elem_of_nil in H4 |].
    specialize (H4 a Ha). clear Ha. revert H4. induction Hac as [| a b c Hab _ IH]; [done |].
    intros Ha. apply IH. destruct Hab as (y & Hy & Hb).
    destruct (H5 a y Ha Hy) as [H | H]; [by apply elem_of_nil in H |]. by apply H.
Qed.
End Graph.

(** ** Groups *)

(** What [Alloc], [ShareWith] and [Free] keep: a buffer is colocated with one
    older buffer, unless it needs an allocation itself. *)
Record forest (m : gmap Z BufferInterval) : Prop := {
  f_id b x : m !! b = Some x → buffer x = b;
  f_size b x : m !! b = Some x → 0 < buffer_size x;
  f_start b x : m !! b = Some x → 0 ≤ buffer_start x;
  f_closed : closed m;
  f_unique a1 a2 c : edge m a1 c → edge m a2 c → a1 = a2;
  f_parent c x : m !! c = Some x → need_allocation x = false → ∃ a, edge m a c;
  f_root a c x : m !! c = Some x → need_allocation x = true → ¬ edge m a c;
  f_older a c x y : edge m a c → m !! a = Some x → m !! c = Some y →
    buffer_start x < buffer_start y
}.

(** A buffer that needs an allocation and the buffers placed with it. *)
Definition root (m : gmap Z BufferInterval) (r : Z) (x : BufferInterval) : Prop :=
  m !! r = Some x ∧ need_allocation x = true.

Definition group (m : gmap Z BufferInterval) (r b : Z) : Prop := rtc (edge m) r b.

Section Forest.
Context (m : gmap Z BufferInterval) (Hf : forest m).

Lemma group_dom r b : is_Some (m !! r) → group m r b → is_Some (m !! b).
Proof.
  intros Hr H. induction H as [| a c b Hac _ IH]; [done |]. apply IH. by eapply f_closed.
Qed.

Lemma group_exists b : is_Some (m !! b) → ∃ r x, root m r x ∧ group m r b.
Proof.
  intros [y Hy]. remember (Z.to_nat (buffer_start y)) as n eqn:En. revert b y Hy En.
  induction n as [n IH] using lt_wf_ind. intros b y Hy En.
  destruct (need_allocation y) eqn:Hn; [by exists b, y; repeat constructor |].
  destruct (f_parent _ Hf b y Hy Hn) as [a Ha]. pose proof Ha as (x & Hx & _).
  pose proof (f_older _ Hf _ _ _ _ Ha Hx Hy). pose proof (f_start _ Hf _ _ Hx).
  destruct (IH (Z.to_nat (buffer_start x))) with (b := a) (y := x) as (r & z & Hr & Hg); [lia | done | done |].
  exists r, z. split; [done |]. by eapply rtc_r.
Qed.

Lemma root_source r x a : root m r x → ¬ edge m a r.
Proof. intros [Hx Hn]. by eapply f_root. Qed.

Lemma group_unique r1 x1 r2 x2 b :
  root m r1 x1 → root m r2 x2 → group m r1 b → group m r2 b → r1 = r2.
Proof.
  intros H1 H2 G1. revert b G1. refine (rtc_ind_r _ _ _ _).
  - intros G2. apply rtc_inv_r in G2 as [-> | (y & _ & Hy)]; [done |].
    by apply (root_source r1 x1 y) in Hy.
  - intros y b _ Hyb IH G2. apply rtc_inv_r in G2 as [-> | (z & Hz & Hzb)].
    + by apply (root_source b x2 y) in Hyb.
    + rewrite (f_unique _ Hf y z b) in IH by done. auto.
Qed.

Lemma group_below r x b : m !! r = Some x → group m r b ↔ b = r ∨ below m (colocations x) b.
Proof.
  intros Hx. split.
  - intros H. apply rtc_inv in H as [-> | (a & (y & Hy & Ha) & Hab)]; [by left |].
    right. exists a. rewrite Hx in Hy. injection Hy as <-. done.
  - intros [-> | (a & Ha & Hab)]; [apply rtc_refl |]. eapply rtc_l; [| done]. by exists x.
Qed.

Lemma root_not_below r x : root m r x → ¬ below m (colocations x) r.
Proof.
  intros Hr (a & Ha & Har). apply rtc_inv_r in Har as [-> | (y & _ & Hy)].
  - apply (root_source r x r Hr). exists x. destruct Hr. done.
  - by apply (root_source r x y Hr).
Qed.

(** The members of a group besides the root, and their intervals. *)
Lemma group_members r x :
  m !! r = Some x →
  ∃ cs ys, GetTransitiveColocations m x = Ok cs ∧ intervals_at m cs = Ok ys ∧
    (∀ b, b ∈ cs ↔ below m (colocations x) b) ∧
    (∀ y, y ∈ x :: ys ↔ ∃ b, group m r b ∧ m !! b = Some y).
Proof.
  intros Hx.
  assert (Hc : ∀ c, c ∈ colocations x → is_Some (m !! c)).
  { intros c Hc. eapply f_closed; [done |]. by exists x. }
  destruct (GetTransitiveColocations_spec m x (f_closed _ Hf) Hc) as (cs & E & Hcs).
  destruct (intervals_at_ok m cs) as (ys & Ey & Hys).
  { intros c (a & Ha & Hac)%Hcs. eapply group_dom; [by apply Hc | done]. }
  exists cs, ys. split; [done |]. split; [done |]. split; [done |].
  intros y. rewrite elem_of_cons, Hys. setoid_rewrite Hcs. setoid_rewrite (group_below r x _ Hx).
  split.
  - intros [-> | (c & Hcb & Hy)]; [exists r; auto | exists c; auto].
  - intros (b & [-> | Hb] & Hy); [left; congruence | right; by exists b].
Qed.

(** The largest size in the group. *)
Lemma GetMaxColocationSize_spec r x :
  m !! r = Some x →
  ∃ M, GetMaxColocationSize m x = Ok M ∧
    (∀ b y, group m r b → m !! b = Some y → buffer_size y ≤ M) ∧
    (∃ b y, group m r b ∧ m !! b = Some y ∧ buffer_size y = M).
Proof.
  intros Hx. destruct (group_members r x Hx) as (cs & ys & Ec & Ey & _ & Hys).
  unfold GetMaxColocationSize. rewrite Ec. cbn [mbind res_bind]. rewrite Ey. cbn [mbind res_bind].
  eexists. split; [done |].
  assert (Hmax : ∀ l n, let M := foldl (λ n y, Z.max n (buffer_size y)) n l in
    n ≤ M ∧ (∀ y, y ∈ l → buffer_size y ≤ M) ∧ (M = n ∨ ∃ y, y ∈ l ∧ buffer_size y = M)).
  { clear. induction l as [| z l IH]; intros n; cbn [foldl].
    - split; [lia |]. split; [by intros y ?%elem_of_nil | by left].
    - destruct (IH (Z.max n (buffer_size z))) as (H1 & H2 & H3). split; [lia |]. split.
      + intros y [-> | Hy]%elem_of_cons; [lia | auto].
      + destruct H3 as [H3 | (y & Hy & E)]; [| right; exists y; set_solver].
        destruct (Z.max_spec n (buffer_size z)) as [[_ E] | [_ E]].
        * right. exists z. rewrite H3, E. split; [by left | done].
        * left. by rewrite H3, E. }
  destruct (Hmax ys (buffer_size x)) as (H1 & H2 & H3). split.
  - intros b y Hb Hy. assert (y ∈ x :: ys) as [-> | Hin]%elem_of_cons by (apply Hys; by exists b); auto.
  - destruct H3 as [H3 | (y & Hy & E)].
    + exists r, x. split; [apply rtc_refl | done].
    + destruct (proj1 (Hys y)) as (b & Hb & Hby); [by right |]. by exists b, y.
Qed.
End Forest.

(** ** Events *)

(** The calls the simulator makes, with the size it passes. *)
Inductive event :=
  | EAlloc (b size : Z)
  | EShareWith (b share_with size : Z)
  | EFree (b size : Z).

Definition step (h : Heap) (e : event) : res Heap :=
  match e with
  | EAlloc b size => Alloc h b size
  | EShareWith b share_with size => ShareWith h b share_with size
  | EFree b size => Free h b size
  end.

Fixpoint run (h : Heap) (es : list event) : res Heap :=
  match es with [] => Ok h | e :: es => h ← step h e; run h es end.

(** The buffers the events define; their sizes are no negative numbers. *)
Definition defined (es : list event) : list Z :=
  omap (λ e, match e with EAlloc b _ | EShareWith b _ _ => Some b | EFree _ _ => None end) es.

Definition event_size (e : event) : Z :=
  match e with EAlloc _ size | EShareWith _ _ size | EFree _ size => size end.

End HeapColoc.
