(* ===== verification/HeapFree.v ===== *)
(** * Free chunks and where the finder puts an interval

    The free chunks [MakeFreeChunks] computes are aligned and avoid every used
    chunk, and the finder puts an unsliced interval at the start of the
    smallest one that holds it. *)
From S2P Require Import Prelude WindowArith HeapTree HeapFinder HeapSim.

Module HeapFree.
Import HeapTree HeapFinder HeapSim.

(** ** Alignment *)

Lemma has_single_bit_pow a : 0 < a → has_single_bit a = true → ∃ k, 0 ≤ k ∧ a = 2 ^ k.
Proof.
  intros Ha H. apply andb_true_iff in H as [_ H]. apply Z.eqb_eq in H.
  exists (Z.log2 a). split; [apply Z.log2_nonneg |].
  destruct (Z.log2_spec a Ha) as [Hlo Hhi].
  destruct (decide (a = 2 ^ Z.log2 a)) as [| Hne]; [done |].
  (* Otherwise [a] and [a - 1] share their highest bit. *)
  assert (Z.log2 (a - 1) = Z.log2 a) as Hlog by (apply Z.log2_unique; [apply Z.log2_nonneg | lia]).
  assert (1 < a).
  { destruct (decide (a = 1)) as [-> |]; [done | lia]. }
  assert (Ht : Z.testbit (Z.land a (a - 1)) (Z.log2 a) = true).
  { rewrite Z.land_spec, Z.bit_log2 by lia. rewrite <- Hlog at 1. rewrite Z.bit_log2 by lia. done. }
  by rewrite H, Z.bits_0 in Ht.
Qed.

Lemma land_lnot_ones n k : 0 ≤ k → Z.land n (Z.lnot (2 ^ k - 1)) = n - n mod 2 ^ k.
Proof.
  intros Hk. replace (2 ^ k - 1) with (Z.ones k) by (rewrite Z.ones_equiv; lia).
  rewrite <- Z.ldiff_land, Z.ldiff_ones_r, Z.shiftr_div_pow2, Z.shiftl_mul_pow2 by done.
  pose proof (Z.div_mod n (2 ^ k)). assert (2 ^ k ≠ 0) by (apply Z.pow_nonzero; lia). lia.
Qed.

(** The next multiple of the alignment. *)
Definition align (a e : Z) : Z := - ((- e) / a) * a.

Lemma align_up_spec a e : 0 < a → e ≤ align a e < e + a ∧ (a | align a e).
Proof.
  intros Ha. unfold align. split; [| by exists (- (- e / a))].
  pose proof (Z.div_mod (- e) a ltac:(lia)). pose proof (Z.mod_pos_bound (- e) a Ha). nia.
Qed.

Lemma align_unique a e r : 0 < a → e ≤ r < e + a → (a | r) → r = align a e.
Proof.
  intros Ha Hr [q ->]. unfold align. f_equal.
  assert (- e / a = - q) as ->; [| lia]. symmetry. apply Z.div_unique with (q * a - e); lia.
Qed.

Lemma align_id a e : 0 < a → (a | e) → align a e = e.
Proof. intros Ha He. symmetry. by apply align_unique; [| lia |]. Qed.

Lemma align_mono a e1 e2 : 0 < a → e1 ≤ e2 → align a e1 ≤ align a e2.
Proof.
  intros Ha He. unfold align. assert (- e2 / a ≤ - e1 / a) by (apply Z.div_le_mono; lia). nia.
Qed.

Lemma ComputeAlignedChunkEnd_spec a e :
  0 < a → 0 ≤ e → e + a ≤ int64_max → ComputeAlignedChunkEnd a e = Ok (align a e).
Proof.
  intros Ha He Hb. unfold ComputeAlignedChunkEnd.
  destruct (Z.eqb_spec a 1) as [-> | Hne]; simpl.
  { f_equal. apply align_unique; [lia | lia | apply Z.divide_1_l]. }
  destruct (has_single_bit a) eqn:Es.
  - destruct (has_single_bit_pow a Ha Es) as (k & Hk & ->).
    rewrite !s64_in by int_lia. cbn [mbind res_bind]. rewrite s64_in by int_lia.
    cbn [mbind res_bind]. rewrite land_lnot_ones by done. f_equal.
    pose proof (Z.mod_pos_bound (e + 2 ^ k - 1) (2 ^ k) Ha).
    apply align_unique; [done | lia |].
    exists ((e + 2 ^ k - 1) / 2 ^ k). pose proof (Z.div_mod (e + 2 ^ k - 1) (2 ^ k)). lia.
  - assert (Eq : WindowArith.CeilOfRatio e a = Ok (- ((- e) / a))).
    { apply (WindowArith.CeilOrFloorOfRatio_spec true); int_lia. }
    rewrite Eq. cbn [mbind res_bind]. apply s64_in. pose proof (align_up_spec a e Ha).
    unfold align in *. int_lia.
Qed.

(** ** Used chunks *)

(** The chunk lies outside of the range. *)
Definition clear_of (o e : Z) (c : Chunk) : Prop := e ≤ offset c ∨ chunk_end c ≤ o.

Definition valid_chunk (B : Z) (c : Chunk) : Prop := 0 ≤ offset c ∧ 0 < size c ∧ chunk_end c ≤ B.

(** Live during one of the intervals. *)
Definition in_use (t : tree) (xs : list BufferInterval) (c : Chunk) : Prop :=
  ∃ x d, x ∈ xs ∧ d ∈ inorder t ∧ overlaps (buffer_start x) (buffer_end x) d = true ∧ chunk d = c.

Lemma elem_of_live s e l d : d ∈ live s e l ↔ overlaps s e d = true ∧ d ∈ l.
Proof. unfold live. by rewrite list_elem_of_filter. Qed.

Lemma used_chunks_spec t xs :
  ok t → ∃ cs, used_chunks t xs = Ok cs ∧ ∀ c, c ∈ cs ↔ in_use t xs c.
Proof.
  intros Hok. induction xs as [| x xs (cs & E & Hcs)].
  - exists []. split; [done |]. intros c. rewrite elem_of_nil. split; [done |].
    intros (x & d & Hx & _). by apply elem_of_nil in Hx.
  - cbn [used_chunks]. unfold ChunksOverlappingInTime. rewrite ApplyToNodes_spec by done.
    cbn [mbind res_bind]. rewrite E. cbn [mbind res_bind]. eexists. split; [done |].
    intros c. rewrite elem_of_app, Hcs, list_elem_of_fmap.
    assert (Hin : ∀ d, d ∈ live (buffer_start x) (buffer_end x) (visit_order t) ↔
      overlaps (buffer_start x) (buffer_end x) d = true ∧ d ∈ inorder t).
    { intros d. by rewrite elem_of_live, visit_order_perm. }
    unfold in_use. split.
    + intros [(d & -> & [??]%Hin) | (y & d & Hy & ?)]; [exists x, d | exists y, d];
        (split; [set_solver | done]).
    + intros (y & d & [-> | Hy]%elem_of_cons & Hd & Ho & Hc).
      * left. exists d. split; [done |]. by apply Hin.
      * right. by exists y, d.
Qed.

(** ** The free chunks between them *)

(** What every free chunk is good for. *)
Definition good_free (a B : Z) (cs : list Chunk) (p : Z * Z) : Prop :=
  0 ≤ p.1 ∧ (a | p.1) ∧ p.1 < p.2 ∧ (p.2 = int64_max ∧ p.1 ≤ align a B ∨ p.2 ≤ B) ∧ Forall (clear_of p.1 p.2) cs.

Section Pass.
Context (a sz B : Z) (Ha : 0 < a) (Hsz : 0 < sz) (Hbound : B + a ≤ int64_max).

Lemma emit_good fs co (cs : list Chunk) :
  0 ≤ fs → (a | fs) → co ≤ B → Forall (clear_of fs co) cs → Forall (good_free a B cs) (emit sz fs co).
Proof.
  intros Hfs Hd Hco Hcs. unfold emit. destruct (Z.geb_spec (co - fs) sz); [| done].
  apply Forall_singleton. unfold good_free. simpl. auto with lia.
Qed.

Lemma align_bound e : e ≤ B → align a e ≤ align a B ∧ align a B < int64_max.
Proof.
  intros He. pose proof (align_up_spec a B Ha). split; [by apply align_mono | lia].
Qed.

Lemma free_pass_spec D P l fs co ce :
  Forall (valid_chunk B) l → StronglySorted by_offset l → Forall (λ c, co ≤ offset c) l →
  0 ≤ co → co < ce → ce ≤ B → 0 ≤ fs → (a | fs) → fs ≤ align a B →
  Forall (λ c, chunk_end c ≤ fs) D → Forall (λ c, co ≤ offset c ∧ chunk_end c ≤ ce) P →
  ∃ out o, free_pass a sz fs co ce l = Ok (out ++ [(o, int64_max)]) ∧ o ≤ align a B ∧
    Forall (good_free a B (D ++ P ++ l)) (out ++ [(o, int64_max)]).
Proof.
  revert D P fs co ce. induction l as [| c l IH];
    intros D P fs co ce Hv Hs Hge Hco Hce HceB Hfs Hfd HfB HD HP.
  - cbn [free_pass]. rewrite ComputeAlignedChunkEnd_spec by lia. cbn [mbind res_bind].
    pose proof (align_up_spec a ce Ha) as [Hal Hdiv]. destruct (align_bound ce HceB) as [Hac HaB].
    exists (emit sz fs co), (Z.max fs (align a ce)). split; [done |]. split; [lia |].
    rewrite app_nil_r, Forall_app. split.
    + apply emit_good; [done.. | lia |]. apply Forall_app. split.
      * eapply Forall_impl; [exact HD |]. intros. by right.
      * eapply Forall_impl; [exact HP |]. intros ? [? ?]. by left.
    + apply Forall_singleton. unfold good_free. simpl. split_and!; [lia | | lia | left; lia |].
      * destruct (Z.max_spec fs (align a ce)) as [[_ ->] | [_ ->]]; done.
      * apply Forall_app. split.
        -- eapply Forall_impl; [exact HD |]. intros. right. simpl in *. lia.
        -- eapply Forall_impl; [exact HP |]. intros ? [? ?]. right. simpl in *. lia.
  - apply Forall_cons in Hv as [(Hc0 & Hcs & HcB) Hv]. apply Forall_cons in Hge as [Hgc Hge].
    inversion Hs as [| ? ? Hs' Hcl]; subst. cbn [free_pass].
    destruct (Z.ltb_spec (offset c) ce) as [Hlt | Hlt].
    + destruct (IH D (P ++ [c]) fs co (Z.max ce (chunk_end c))) as (out & o & E & Ho & Hout);
        [done.. | lia | lia | done | done | done | done | |].
      { apply Forall_app. split; [| repeat constructor; lia].
        eapply Forall_impl; [exact HP |]. simpl. intros ? [? ?]. lia. }
      exists out, o. split; [done |]. split; [done |].
      replace (D ++ P ++ c :: l) with (D ++ (P ++ [c]) ++ l) by (by rewrite <- app_assoc). done.
    + rewrite ComputeAlignedChunkEnd_spec by lia. cbn [mbind res_bind].
      pose proof (align_up_spec a ce Ha) as [Hal Hdiv]. destruct (align_bound ce HceB) as [Hac HaB].
      destruct (IH (D ++ P) [c] (Z.max fs (align a ce)) (offset c) (chunk_end c))
        as (out & o & E & Ho & Hout); [done | done | done | done | unfold chunk_end; lia | done | lia
        | | lia | | repeat constructor; lia |].
      { destruct (Z.max_spec fs (align a ce)) as [[_ ->] | [_ ->]]; done. }
      { apply Forall_app. split.
        - eapply Forall_impl; [exact HD |]. simpl. intros. lia.
        - eapply Forall_impl; [exact HP |]. simpl. intros ? [? ?]. lia. }
      rewrite E. cbn [mbind res_bind]. exists (emit sz fs co ++ out), o.
      rewrite <- !app_assoc in Hout |- *. split; [done |]. split; [done |].
      apply Forall_app. split; [| done].
      apply emit_good; [done.. | lia |]. rewrite !Forall_app, Forall_cons. split_and!.
      * eapply Forall_impl; [exact HD |]. intros. by right.
      * eapply Forall_impl; [exact HP |]. intros ? [? ?]. by left.
      * left. lia.
      * eapply Forall_impl; [exact Hge |]. intros. by left.
Qed.
End Pass.

(** ** Maps with descending keys *)

Definition keys_desc {A} (m : list (Z * A)) : Prop := StronglySorted (λ p q : Z * A, q.1 < p.1) m.

Lemma map_insert_in {A} k (x : A) m p : p ∈ map_insert k x m → p = (k, x) ∨ p ∈ m.
Proof.
  induction m as [| [k' x'] m IH]; cbn [map_insert]; [intros ->%list_elem_of_singleton; by left |].
  destruct (k' <? k); [by intros [-> | ?]%elem_of_cons; auto |].
  destruct (k' =? k); [by right |]. rewrite !elem_of_cons. intuition.
Qed.

Lemma map_insert_old {A} k (x : A) m p : p ∈ m → p ∈ map_insert k x m.
Proof.
  induction m as [| [k' x'] m IH]; cbn [map_insert]; [by intros ?%elem_of_nil |].
  destruct (k' <? k); [by right |]. destruct (k' =? k); [done |]. rewrite !elem_of_cons. intuition.
Qed.

Lemma map_insert_new {A} k (x : A) m : k ∉ m.*1 → (k, x) ∈ map_insert k x m.
Proof.
  induction m as [| [k' x'] m IH]; cbn [map_insert fmap list_fmap]; [by left |].
  rewrite not_elem_of_cons. intros [Hk Hm]. destruct (k' <? k); [by left |].
  destruct (Z.eqb_spec k' k) as [-> |]; [done |]. right. by apply IH.
Qed.

Lemma map_insert_desc {A} k (x : A) m : keys_desc m → keys_desc (map_insert k x m).
Proof.
  intros H. induction H as [| [k' x'] m Hm IH Hk]; cbn [map_insert]; [by repeat constructor |].
  destruct (Z.ltb_spec k' k).
  - constructor; [by constructor |]. constructor; [done |].
    eapply Forall_impl; [exact Hk |]. simpl. intros; lia.
  - destruct (Z.eqb_spec k' k) as [-> |]; [by constructor |]. constructor; [done |].
    apply Forall_forall. intros p [-> | Hp]%map_insert_in; [simpl; lia |].
    rewrite Forall_forall in Hk. by apply Hk.
Qed.

Lemma keys_desc_inj {A} (m : list (Z * A)) k x y :
  keys_desc m → (k, x) ∈ m → (k, y) ∈ m → x = y.
Proof.
  induction 1 as [| p m _ IH Hp]; [by intros ?%elem_of_nil |]. rewrite Forall_forall in Hp.
  intros [<- | Hx]%elem_of_cons [Hy | Hy]%elem_of_cons.
  - by injection Hy.
  - apply Hp in Hy. simpl in Hy. lia.
  - subst p. apply Hp in Hx. simpl in Hx. lia.
  - auto.
Qed.

Lemma map_of_range_spec {A} (l : list (Z * A)) :
  keys_desc (map_of_range l) ∧ (∀ p, p ∈ map_of_range l → p ∈ l) ∧
  (∀ p l', l = p :: l' → p ∈ map_of_range l).
Proof.
  assert (Hgen : ∀ l (m : list (Z * A)), keys_desc m →
    keys_desc (foldl (λ m p, map_insert p.1 p.2 m) m l) ∧
    (∀ p, p ∈ foldl (λ m p, map_insert p.1 p.2 m) m l → p ∈ m ∨ p ∈ l) ∧
    (∀ p, p ∈ m → p ∈ foldl (λ m p, map_insert p.1 p.2 m) m l)).
  { clear l. induction l as [| [k x] l IH]; intros m Hm; [simpl; auto |]. cbn [foldl fst snd].
    destruct (IH (map_insert k x m)) as (H1 & H2 & H3); [by apply map_insert_desc |].
    split; [done |]. split.
    - intros p [Hp | Hp]%H2; [| right; by right].
      apply map_insert_in in Hp as [-> | Hp]; [right; by left | by left].
    - intros p Hp. by apply H3, map_insert_old. }
  destruct (Hgen l []) as (H1 & H2 & _); [constructor |]. split; [done |]. split.
  - intros p [Hp | Hp]%H2; [by apply elem_of_nil in Hp | done].
  - intros [k x] l' ->. cbn [map_of_range foldl fst snd]. unfold map_of_range. cbn [foldl fst snd].
    apply Hgen; [apply map_insert_desc; constructor | by left].
Qed.

(** ** [MakeFreeChunks] *)

#[export] Instance by_offset_total : Total by_offset.
Proof. intros x y. unfold by_offset. lia. Qed.
#[export] Instance by_offset_trans : Transitive by_offset.
Proof. intros x y z. unfold by_offset. lia. Qed.
#[export] Instance root_le_total : Total root_le.
Proof. intros x y. unfold root_le. lia. Qed.
#[export] Instance root_le_trans : Transitive root_le.
Proof. intros x y z. unfold root_le. lia. Qed.

Lemma MakeFreeChunks_spec h x cs ys n B :
  0 < alignment h → 0 < buffer_size x → 0 ≤ B → B + alignment h ≤ int64_max →
  ok (interval_tree_ h) →
  GetTransitiveColocations (buffer_intervals_ h) x = Ok cs →
  intervals_at (buffer_intervals_ h) cs = Ok ys →
  (∀ c, in_use (interval_tree_ h) (x :: ys) c → valid_chunk B c) →
  ∃ fc o, MakeFreeChunks h x n = Ok fc ∧ keys_desc fc ∧
    (o, int64_max) ∈ fc ∧ o ≤ align (alignment h) B ∧
    ∀ p, p ∈ fc → 0 ≤ p.1 ∧ (alignment h | p.1) ∧ p.1 < p.2 ∧ (p.2 = int64_max ∧ p.1 ≤ align (alignment h) B ∨ p.2 ≤ B) ∧
      ∀ c, in_use (interval_tree_ h) (x :: ys) c → clear_of p.1 p.2 c.
Proof.
  intros Ha Hsz HB Hb Hok Ec Ei Hv. unfold MakeFreeChunks. rewrite Ec. cbn [mbind res_bind].
  rewrite Ei. cbn [mbind res_bind].
  destruct (used_chunks_spec (interval_tree_ h) (x :: ys) Hok) as (used & -> & Hu).
  cbn [mbind res_bind].
  pose proof (merge_sort_Permutation by_offset used) as Hp.
  assert (Hs : StronglySorted by_offset (merge_sort by_offset used)).
  { apply StronglySorted_merge_sort; apply _. }
  destruct (merge_sort by_offset used) as [| c l].
  - apply Permutation_nil in Hp as ->. exists [(0, int64_max)], 0.
    split; [done |]. split; [by repeat constructor |]. split; [by left |].
    pose proof (align_up_spec (alignment h) B Ha). split; [lia |].
    intros p ->%list_elem_of_singleton. simpl. split; [lia |]. split; [apply Z.divide_0_r |].
    split; [done |]. split; [left; lia |]. intros c Hc%Hu. by apply elem_of_nil in Hc.
  - assert (Hvl : Forall (valid_chunk B) (c :: l)).
    { apply Forall_forall. intros c' Hc'. apply Hv, Hu. by rewrite <- Hp. }
    apply Forall_cons in Hvl as [(Hc0 & Hcs & HcB) Hvl]. inversion Hs as [| ? ? Hsl Hcl]; subst.
    destruct (free_pass_spec (alignment h) (buffer_size x) B Ha Hsz Hb [] [c] l 0 (offset c)
      (chunk_end c)) as (out & o & E & Ho & Hgood); try done.
    { unfold chunk_end. lia. }
    { apply Z.divide_0_r. }
    { pose proof (align_up_spec (alignment h) B Ha). lia. }
    { apply Forall_singleton. done. }
    rewrite E. cbn [mbind res_bind].
    destruct (map_of_range_spec (reverse (out ++ [(o, int64_max)]))) as (H1 & H2 & H3).
    exists (map_of_range (reverse (out ++ [(o, int64_max)]))), o.
    split; [done |]. split; [done |]. split; [by eapply H3; rewrite reverse_snoc |].
    split; [done |]. intros p Hpin%H2. rewrite elem_of_reverse in Hpin.
    rewrite Forall_forall in Hgood. destruct (Hgood p Hpin) as (G1 & G2 & G3 & G4 & G5).
    split_and!; [done.. |]. intros c' Hc'%Hu. rewrite <- Hp in Hc'.
    rewrite Forall_forall in G5. by apply G5.
Qed.

(** ** The finder for one slice *)

(** The roots of the free chunks of the only slice time. *)
Lemma latest_roots_spec t fc m :
  Forall (λ p : Z * Z, p.1 < p.2) fc → NoDup fc.*1 → (∀ k, k ∈ fc.*1 → k ∉ m.*1) →
  ∃ roots, latest_roots t fc m = Ok roots ∧
    (∀ p, p ∈ fc → (p.1, new_root (FromOffsetEnd p.1 p.2) t) ∈ roots) ∧
    (∀ q, q ∈ m → q ∈ roots) ∧
    (∀ q, q ∈ roots → q ∈ m ∨ ∃ p, p ∈ fc ∧ q = (p.1, new_root (FromOffsetEnd p.1 p.2) t)).
Proof.
  revert m. induction fc as [| [o e] fc IH]; intros m Hpos Hnd Hdis.
  - exists m. split; [done |]. split; [by intros p ?%elem_of_nil |]. auto.
  - apply Forall_cons in Hpos as [Hoe Hpos]. cbn [fst snd] in Hoe.
    rewrite fmap_cons in Hnd, Hdis. apply NoDup_cons in Hnd as [Ho Hnd]. cbn [fst] in Ho, Hdis.
    cbn [latest_roots]. assert (Es : size (FromOffsetEnd o e) = e - o) by done.
    rewrite Es, (proj2 (Z.eqb_neq _ _)), (proj2 (Z.gtb_lt _ _)) by lia.
    cbn [guard_res mbind res_bind].
    assert (Hom : o ∉ m.*1) by (apply Hdis; by left).
    destruct (IH (map_insert o (new_root (FromOffsetEnd o e) t) m)) as (roots & E & H1 & H2 & H3);
      [done | done | |].
    { intros k Hk [q [-> Hq]]%list_elem_of_fmap.
      apply map_insert_in in Hq as [-> | Hq]; [done |].
      apply (Hdis q.1); [by right |]. apply list_elem_of_fmap. by exists q. }
    exists roots. split; [done |]. split_and!.
    + intros p [-> | Hp]%elem_of_cons; [| by apply H1]. by apply H2, map_insert_new.
    + intros q Hq. by apply H2, map_insert_old.
    + intros q [Hq | (p & Hp & ->)]%H3.
      * apply map_insert_in in Hq as [-> | Hq]; [| by left]. right. exists (o, e).
        split; [by left | done].
      * right. exists p. split; [by right | done].
Qed.

Lemma iter_until_exit {St R} (body : St → res (St + R)) n s r :
  body s = Ok (inr r) → iter_until body n s = Ok (inr r).
Proof.
  intros H. induction n as [n IH | n IH |]; cbn [iter_until]; [by rewrite IH | by rewrite IH | done].
Qed.

(** Both iterators emit the only permutation of one slice. *)
Lemma CreateForNewAllocation_one ty t : CreateForNewAllocation ty [t] = Ok [[0]].
Proof. by destruct ty. Qed.

(** A finder for one slice of [n] bytes and a block of [M]. *)
Definition one_slice (f : Finder) (n M a : Z) : Prop :=
  sorted_slice_sizes_ f = [n] ∧ max_colocation_size_ f = M ∧ alignment_ f = a ∧
  slice_time_permutations_ f = [[0]] ∧ is_offset_allowed_ f = AllOffsetsAllowed ∧
  preferred_offset_ f = -1.

Definition placed (o n M : Z) : list Chunk :=
  [FromOffsetSize o n; FromOffsetSize (o + n) (M - n)].

Lemma DoesPermutationFit_one f n M a o e :
  one_slice f n M a → 0 < n → n ≤ M → 0 ≤ o → o + M ≤ e → e ≤ int64_max →
  DoesPermutationFit f [0] (new_root (FromOffsetEnd o e) 0) o = Ok true.
Proof.
  intros (Es & Em & Ea & Ep & Ei & _) Hn HM Ho He Hmax. unfold DoesPermutationFit.
  rewrite Es, Em, Ei. assert (Ece : chunk_end (FromOffsetEnd o e) = e).
  { unfold chunk_end, FromOffsetEnd, FromOffsetSize. simpl. lia. }
  cbn [length Nat.eqb negb root_chunk new_root]. rewrite Ece.
  destruct (Z.geb_spec o e); [lia |]. rewrite s64_in by int_lia. cbn [mbind res_bind].
  destruct (Z.gtb_spec (o + M) e); [lia |]. cbn [AllOffsetsAllowed negb].
  assert (El : lower_bound o [] (pieces (new_root (FromOffsetEnd o e) 0)) =
    ([], [(o, MkPiece 0 (FromOffsetEnd o e))])).
  { unfold new_root. cbn [pieces lower_bound].
    change (offset (FromOffsetEnd o e)) with o. by rewrite Z.ltb_irrefl. }
  rewrite El. cbn [zip zip_with fit_loop length Nat.add].
  cbn [earliest_free_slice_time dimensions]. rewrite Ece. simpl.
  destruct (Z.leb_spec (n - 0) (e - o)); [| lia].
  by destruct (n - 0 >=? e - o).
Qed.

Lemma FindInRoot_one f n M a o e :
  one_slice f n M a → 0 < a → 0 < n → n ≤ M → 0 ≤ o → (a | o) → o < e → e ≤ int64_max →
  o + M ≤ int64_max →
  FindInRoot f (new_root (FromOffsetEnd o e) 0) None =
    Ok (if o + M <=? e then placed o n M else []).
Proof.
  intros Hf Ha Hn HM Ho Hd Hoe He Hmax. pose proof Hf as (Es & Em & Ea & Ep & _ & _).
  unfold FindInRoot. cbn [new_root root_chunk].
  assert (Ece : chunk_end (FromOffsetEnd o e) = e).
  { unfold chunk_end, FromOffsetEnd, FromOffsetSize. simpl. lia. }
  rewrite Ece. change (offset (FromOffsetEnd o e)) with o. rewrite Ea.
  assert (Er : Z.rem o a = 0) by (apply Z.rem_divide; [lia | done]).
  rewrite Er. cbn [Z.eqb negb mbind res_bind]. rewrite Er.
  cbn [bool_decide is_Some_None andb guard_res mbind res_bind Z.eqb].
  rewrite bool_decide_false by (by intros [? ?]). cbn [andb guard_res mbind res_bind].
  erewrite iter_until_exit; [done |].
  unfold try_offset. rewrite Em, (s64_in (o + M)) by int_lia. cbn [mbind res_bind].
  destruct (Z.leb_spec (o + M) e) as [Hfit |]; [| done]. rewrite Ep. cbn [first_fit].
  fold (new_root (FromOffsetEnd o e) 0). rewrite (DoesPermutationFit_one f n M a) by done.
  cbn [mbind res_bind]. unfold PermutationToChunks. rewrite Es, Em. simpl.
  unfold placed, FromOffsetSize. by replace (M - (o + n - o)) with (M - n) by lia.
Qed.

(** [find_first] tries the roots in their order. *)
Lemma find_first_one f n M a (l : list (Z * Z)) :
  one_slice f n M a → 0 < a → 0 < n → n ≤ M →
  Forall (λ p, 0 ≤ p.1 ∧ (a | p.1) ∧ p.1 < p.2 ∧ p.2 ≤ int64_max ∧ p.1 + M ≤ int64_max) l →
  (∃ p, p ∈ l ∧ p.1 + M ≤ p.2) →
  ∃ l1 p l2, l = l1 ++ p :: l2 ∧ Forall (λ q, q.2 < q.1 + M) l1 ∧ p.1 + M ≤ p.2 ∧
    find_first f ((λ p, new_root (FromOffsetEnd p.1 p.2) 0) <$> l) = Ok (placed p.1 n M).
Proof.
  intros Hf Ha Hn HM Hall. induction Hall as [| p l (H1 & H2 & H3 & H4 & H5) _ IH].
  { intros (p & Hp & _). by apply elem_of_nil in Hp. }
  intros Hex. rewrite fmap_cons. cbn [find_first].
  rewrite (FindInRoot_one f n M a) by done. cbn [mbind res_bind].
  destruct (Z.leb_spec (p.1 + M) p.2) as [Hfit | Hno].
  - by exists [], p, l.
  - destruct IH as (l1 & q & l2 & -> & Hl1 & Hq & E).
    { destruct Hex as (q & [-> | Hq]%elem_of_cons & Hfit); [lia | by exists q]. }
    exists (p :: l1), q, l2. split; [done |]. split; [by constructor |]. done.
Qed.

Lemma Find_one f n M a fc :
  one_slice f n M a → 0 < a → 0 < n → n ≤ M → latest_roots 0 fc [] = Ok (free_chunks_ f) →
  NoDup fc.*1 →
  Forall (λ p, 0 ≤ p.1 ∧ (a | p.1) ∧ p.1 < p.2 ∧ p.2 ≤ int64_max ∧ p.1 + M ≤ int64_max) fc →
  (∃ p, p ∈ fc ∧ p.1 + M ≤ p.2) →
  ∃ p, p ∈ fc ∧ p.1 + M ≤ p.2 ∧ Find f = Ok (placed p.1 n M) ∧
    ∀ q, q ∈ fc → q.1 + M ≤ q.2 → p.2 - p.1 < q.2 - q.1 ∨ p.2 - p.1 = q.2 - q.1 ∧ p.1 ≤ q.1.
Proof.
  intros Hf Ha Hn HM Er Hnd Hall (w & Hw & Hwfit).
  destruct (latest_roots_spec 0 fc []) as (roots & Er' & H1 & _ & H3).
  { eapply Forall_impl; [exact Hall |]. simpl. tauto. }
  { done. }
  { by intros k _ ?%elem_of_nil. }
  rewrite Er in Er'. injection Er' as <-.
  set (rs := merge_sort root_le (reverse (snd <$> free_chunks_ f))).
  assert (Hperm : rs ≡ₚ snd <$> free_chunks_ f).
  { unfold rs. by rewrite merge_sort_Permutation, reverse_Permutation. }
  assert (Hsorted : StronglySorted root_le rs) by (apply StronglySorted_merge_sort; apply _).
  (* The sorted roots as the free chunks they are made of. *)
  assert (Hl : ∃ l, rs = (λ p, new_root (FromOffsetEnd p.1 p.2) 0) <$> l ∧ ∀ p, p ∈ l → p ∈ fc).
  { assert (Hrs : ∀ r, r ∈ rs → ∃ p, p ∈ fc ∧ r = new_root (FromOffsetEnd p.1 p.2) 0).
    { intros r Hr. rewrite Hperm in Hr. apply list_elem_of_fmap in Hr as (q & -> & Hq).
      destruct (H3 q Hq) as [Hq' | (p & Hp & ->)]; [by apply elem_of_nil in Hq' | by exists p]. }
    revert Hrs. generalize rs. clear. intros rs Hrs. induction rs as [| r rs IH].
    { exists []. split; [done |]. by intros p ?%elem_of_nil. }
    destruct IH as (l & -> & Hin); [intros; apply Hrs; by right |].
    destruct (Hrs r) as (p & Hp & ->); [by left |]. exists (p :: l). split; [done |].
    intros q [-> | ?]%elem_of_cons; auto. }
  destruct Hl as (l & El & Hin).
  assert (Hfrom : ∀ q, q ∈ fc → q ∈ l).
  { intros q Hq. specialize (H1 q Hq).
    assert (Hr : new_root (FromOffsetEnd q.1 q.2) 0 ∈ rs).
    { rewrite Hperm. apply list_elem_of_fmap. by exists (q.1, new_root (FromOffsetEnd q.1 q.2) 0). }
    rewrite El in Hr. apply list_elem_of_fmap in Hr as (p & Ep & Hp).
    apply (f_equal root_chunk) in Ep. injection Ep as E1 E2. destruct p as [p1 p2], q as [q1 q2]. simpl in *.
    assert (q1 = p1 ∧ q2 = p2) as [-> ->] by lia. done. }
  destruct (find_first_one f n M a l) as (l1 & p & l2 & Es & Hl1 & Hfit & E); try done.
  { apply Forall_forall. intros p Hp. rewrite Forall_forall in Hall. by apply Hall, Hin. }
  { exists w. auto. }
  exists p. split; [apply Hin; rewrite Es; set_solver |]. split; [done |]. split.
  - unfold Find. destruct Hf as (_ & _ & _ & _ & _ & ->). cbn [Z.geb Z.compare mbind res_bind].
    fold rs. by rewrite El.
  - intros q Hq Hqfit. apply Hfrom in Hq. rewrite Es in Hq.
    apply elem_of_app in Hq as [Hq | [-> | Hq]%elem_of_cons].
    + rewrite Forall_forall in Hl1. specialize (Hl1 q Hq). simpl in Hl1. lia.
    + right. lia.
    + rewrite El, Es, fmap_app, fmap_cons in Hsorted.
      apply StronglySorted_app_1_r in Hsorted. inversion Hsorted as [| ? ? _ Hall']; subst.
      rewrite Forall_forall in Hall'. specialize (Hall' (new_root (FromOffsetEnd q.1 q.2) 0)).
      unfold root_le in Hall'. simpl in Hall'. apply Hall'. apply list_elem_of_fmap. by exists q.
Qed.

Lemma keys_desc_NoDup {A} (m : list (Z * A)) : keys_desc m → NoDup m.*1.
Proof.
  induction 1 as [| p m _ IH Hp]; [constructor |]. rewrite fmap_cons. constructor; [| done].
  intros (q & E & Hq)%list_elem_of_fmap. rewrite Forall_forall in Hp. specialize (Hp q Hq). lia.
Qed.

(** The free chunk [p] is the smallest of those with room for [M] bytes, the
    first one among those of the same size. *)
Definition best_fit (fc : FreeChunks) (M : Z) (p : Z * Z) : Prop :=
  p ∈ fc ∧ p.1 + M ≤ p.2 ∧
  ∀ q, q ∈ fc → q.1 + M ≤ q.2 → p.2 - p.1 < q.2 - q.1 ∨ p.2 - p.1 = q.2 - q.1 ∧ p.1 ≤ q.1.

Lemma FindChunkCandidate_spec h x cs ys M B :
  0 < alignment h → 0 < buffer_size x → 0 ≤ B → B + alignment h + M ≤ int64_max →
  ok (interval_tree_ h) →
  GetTransitiveColocations (buffer_intervals_ h) x = Ok cs →
  intervals_at (buffer_intervals_ h) cs = Ok ys →
  GetMaxColocationSize (buffer_intervals_ h) x = Ok M → buffer_size x ≤ M →
  (∀ c, in_use (interval_tree_ h) (x :: ys) c → valid_chunk B c) →
  ∃ fc p, MakeFreeChunks h x M = Ok fc ∧ best_fit fc M p ∧
    FindChunkCandidate h x (-1) = Ok (MkChunk p.1 (buffer_size x)) ∧
    0 ≤ p.1 ∧ (alignment h | p.1) ∧ p.1 ≤ align (alignment h) B ∧
    ∀ c, in_use (interval_tree_ h) (x :: ys) c → clear_of p.1 (p.1 + M) c.
Proof.
  intros Ha Hsz HB Hb Hok Ec Ei EM HM Hv.
  destruct (MakeFreeChunks_spec h x cs ys M B) as (fc & o & Efc & Hdesc & Ho & HoB & Hfc);
    [done | done | done | lia | done.. |].
  pose proof (align_up_spec (alignment h) B Ha) as [HalB _].
  assert (Hle : ∀ p, p ∈ fc → p.1 ≤ align (alignment h) B).
  { intros p Hp. destruct (Hfc p Hp) as (_ & _ & H3 & H4 & _). lia. }
  destruct (latest_roots_spec 0 fc []) as (roots & Er & _).
  { apply Forall_forall. intros p Hp. apply (Hfc p Hp). }
  { by apply keys_desc_NoDup. }
  { by intros k _ ?%elem_of_nil. }
  set (f := MkFinder [buffer_size x] M (-1) (alignment h) roots [[0]] AllOffsetsAllowed).
  destruct (Find_one f (buffer_size x) M (alignment h) fc) as (p & Hp & Hfit & EF & Hmin); try done.
  { by apply keys_desc_NoDup. }
  { apply Forall_forall. intros p Hp. destruct (Hfc p Hp) as (H1 & H2 & H3 & H4 & _).
    specialize (Hle p Hp). split_and!; [done.. | lia | lia]. }
  { exists (o, int64_max). split; [done |]. simpl. lia. }
  exists fc, p. split; [done |]. split; [done |]. split.
  - unfold FindChunkCandidate, CreateConstInterval, Slice. cbn [mbind res_bind].
    unfold FindChunkCandidates. cbn [full_buffer_interval]. rewrite EM. cbn [mbind res_bind].
    unfold inclusive_start_times. cbn [make_free_chunks_intervals_ fmap list_fmap].
    rewrite CreateForNewAllocation_one. cbn [mbind res_bind].
    assert (EC : CreateSlicedAllocationFinder h (MkSliced x [buffer_size x] [x]) M (-1) [[0]]
      AllOffsetsAllowed = Ok f).
    { unfold CreateSlicedAllocationFinder, num_slices.
      cbn [slice_sizes_sorted_by_offset_ make_free_chunks_intervals_ length Nat.sub take mapM].
      cbn [mbind res_bind mret res_ret at_res list_lookup lookup]. unfold at_res. cbn [lookup list_lookup mbind res_bind].
      rewrite Efc. cbn [mbind res_bind app]. unfold CreateFinder.
      cbn [length Nat.eqb guard_res mbind res_bind last foldl Nat.sub].
      change (Z.of_nat 1 - 1) with 0. rewrite Er. cbn [mbind res_bind slice_time_steps].
      destruct (Z.ltb_spec M (0 + buffer_size x)); [lia |]. done. }
    rewrite EC. cbn [mbind res_bind]. rewrite EF. cbn [mbind res_bind].
    unfold placed, PostProcessFindChunkCandidatesResult, num_slices. simpl. done.
  - destruct (Hfc p Hp) as (H1 & H2 & H3 & H4 & H5). split_and!; [done | done | by apply Hle |].
    intros c Hc. destruct (H5 c Hc) as [? | ?]; [left; lia | by right].
Qed.

End HeapFree.
