(* ===== verification/HeapRun.v ===== *)
(** * The state the events of a simulation lead to

    Every sequence of calls the heap does not refuse leaves the intervals a
    forest of colocations, with the times of the calls. *)
From stdpp Require Import relations.
From S2P Require Import Prelude WindowArith HeapTree HeapFinder HeapSim HeapColoc HeapFree.
#[local] Open Scope Z_scope.

Module HeapRun.
Import HeapTree HeapFinder HeapSim HeapColoc.

(** No buffer is allocated at the time another one is freed. *)
Definition apart (m : gmap Z BufferInterval) : Prop :=
  ∀ b1 x1 b2 x2, m !! b1 = Some x1 → m !! b2 = Some x2 → buffer_start x1 ≠ buffer_end x2.

Lemma apart_insert m k x :
  apart m → buffer_start x ≠ buffer_end x →
  (∀ b y, m !! b = Some y → buffer_start x ≠ buffer_end y ∧ buffer_start y ≠ buffer_end x) →
  apart (<[k := x]> m).
Proof.
  intros Hm Hx Hy b1 x1 b2 x2. destruct (decide (b1 = k)) as [-> |], (decide (b2 = k)) as [-> |];
    intros; simplify_map_eq; [done | by eapply Hy | by eapply Hy | by eapply Hm].
Qed.

(** The heap before [Finish], after calls that defined the buffers [ids]. *)
Record collected (a : Z) (h : Heap) (ids : list Z) : Prop := {
  c_forest : forest (buffer_intervals_ h);
  c_alignment : alignment h = a;
  c_time : 0 ≤ current_time_ h;
  c_live b x : buffer_intervals_ h !! b = Some x →
    buffer_start x < current_time_ h ∧
    (buffer_end x = -1 ∨ buffer_start x < buffer_end x < current_time_ h);
  c_apart : apart (buffer_intervals_ h);
  c_ids b : is_Some (buffer_intervals_ h !! b) → b ∈ ids;
  c_chunks b c : chunk_map (result_ h) !! b = Some c →
    c = MkChunk 0 0 ∧ buffer_intervals_ h !! b = None ∧ b ∈ ids;
  c_tree : interval_tree_ h = Leaf;
  c_heap_size : heap_size (result_ h) = 0;
  c_mapped b : b ∈ ids →
    is_Some (buffer_intervals_ h !! b) ∨ is_Some (chunk_map (result_ h) !! b)
}.

Lemma new_heap_collected a p ty h : new_heap a p ty = Ok h → 0 < a ∧ collected a h [].
Proof.
  unfold new_heap. intros H. res_inv. split; [lia |].
  constructor; simpl; try done.
  - constructor; try done; intros ? * (? & ? & ?); simplify_map_eq.
  - intros b [? ?]. simplify_map_eq.
  - by intros b ?%elem_of_nil.
Qed.

(** ** Edges *)

Lemma edge_insert_new (m : gmap Z BufferInterval) b x :
  m !! b = None → colocations x = [] → ∀ a c, edge (<[b := x]> m) a c ↔ edge m a c.
Proof.
  intros Hb Hx a c. unfold edge. split.
  - intros (y & Hy & Hc). destruct (decide (a = b)) as [-> |]; simplify_map_eq.
    + rewrite Hx in Hc. by apply elem_of_nil in Hc.
    + by exists y.
  - intros (y & Hy & Hc). exists y. split; [| done]. rewrite lookup_insert_ne; [done |]. congruence.
Qed.

Lemma edge_insert_same (m : gmap Z BufferInterval) b x x' :
  m !! b = Some x → colocations x' = colocations x → ∀ a c, edge (<[b := x']> m) a c ↔ edge m a c.
Proof.
  intros Hb Hx a c. unfold edge. destruct (decide (a = b)) as [-> |].
  - setoid_rewrite lookup_insert_eq. rewrite Hb. split; intros (y & [= <-] & Hc);
      eexists; (split; [done |]); congruence.
  - by setoid_rewrite (lookup_insert_ne m b a x' ltac:(done)).
Qed.

Lemma edge_add_colocation (m : gmap Z BufferInterval) w x b :
  m !! w = Some x → ∀ a c, edge (<[w := add_colocation b x]> m) a c ↔ edge m a c ∨ a = w ∧ c = b.
Proof.
  intros Hw a c. unfold edge. destruct (decide (a = w)) as [-> |].
  - setoid_rewrite lookup_insert_eq. rewrite Hw. split.
    + intros (y & [= <-] & Hc). simpl in Hc.
      apply elem_of_app in Hc as [Hc | ->%list_elem_of_singleton]; [left; by exists x | by right].
    + intros [(y & [= <-] & Hc) | [_ ->]]; eexists; (split; [done |]); simpl; set_solver.
  - setoid_rewrite (lookup_insert_ne m w a _ ltac:(done)). naive_solver.
Qed.

(** ** The forest *)

Section Forest.
Context (m : gmap Z BufferInterval) (Hf : forest m).

Lemma forest_insert_root b n t :
  m !! b = None → 0 < n → 0 ≤ t → forest (<[b := new_interval b n t true]> m).
Proof.
  intros Hb Hn Ht. pose proof (edge_insert_new m b (new_interval b n t true) Hb eq_refl) as He.
  assert (Hold : ∀ a c, edge m a c → a ≠ b ∧ c ≠ b).
  { intros a c H. destruct (f_closed _ Hf a c H). destruct H as (y & Hy & _). split; congruence. }
  constructor.
  - intros c x. destruct (decide (c = b)) as [-> |]; intros; simplify_map_eq; [done | by eapply f_id].
  - intros c x. destruct (decide (c = b)) as [-> |]; intros; simplify_map_eq; [done | by eapply f_size].
  - intros c x. destruct (decide (c = b)) as [-> |]; intros; simplify_map_eq; [done | by eapply f_start].
  - intros a c H%He. destruct (f_closed _ Hf a c H) as [y Hy]. destruct (Hold a c H).
    rewrite lookup_insert_ne by done. by exists y.
  - intros a1 a2 c H1%He H2%He. by eapply f_unique.
  - intros c x. destruct (decide (c = b)) as [-> |]; intros; simplify_map_eq.
    destruct (f_parent _ Hf c x) as [a Ha]; [done.. |]. exists a. by apply He.
  - intros a c x Hx Hnd H%He. destruct (Hold a c H). rewrite lookup_insert_ne in Hx by done.
    by eapply f_root.
  - intros a c x y H%He. destruct (Hold a c H). rewrite !lookup_insert_ne by done.
    by eapply f_older.
Qed.

Lemma forest_insert_shared w x b n t :
  m !! w = Some x → m !! b = None → w ≠ b → 0 < n → buffer_start x < t →
  forest (<[b := new_interval b n t false]> (<[w := add_colocation b x]> m)).
Proof.
  intros Hw Hb Hwb Hn Ht. set (m1 := <[w := add_colocation b x]> m).
  assert (Hb1 : m1 !! b = None) by (unfold m1; by rewrite lookup_insert_ne).
  pose proof (edge_insert_new m1 b (new_interval b n t false) Hb1 eq_refl) as He.
  assert (He' : ∀ a c, edge (<[b := new_interval b n t false]> m1) a c ↔
    edge m a c ∨ a = w ∧ c = b).
  { intros a c. rewrite He. unfold m1. by apply edge_add_colocation. }
  clear He. assert (Hold : ∀ a c, edge m a c → a ≠ b ∧ c ≠ b).
  { intros a c H. destruct (f_closed _ Hf a c H). destruct H as (y & Hy & _). split; congruence. }
  (* An interval of the new map is one of the old map but for the colocations. *)
  assert (Hlook : ∀ c y, <[b := new_interval b n t false]> m1 !! c = Some y →
    c = b ∧ y = new_interval b n t false ∨
    c ≠ b ∧ ∃ z, m !! c = Some z ∧ buffer y = buffer z ∧ buffer_size y = buffer_size z ∧
      buffer_start y = buffer_start z ∧ need_allocation y = need_allocation z).
  { intros c y. destruct (decide (c = b)) as [-> |]; [rewrite lookup_insert_eq; naive_solver |].
    rewrite lookup_insert_ne by done. unfold m1. right. split; [done |].
    destruct (decide (c = w)) as [-> |]; simplify_map_eq; [by exists x | by exists y]. }
  assert (Hhas : ∀ c, is_Some (m !! c) → is_Some (<[b := new_interval b n t false]> m1 !! c)).
  { intros c Hc. destruct (decide (c = b)) as [-> |]; [by rewrite lookup_insert_eq; eexists |].
    rewrite lookup_insert_ne by done. unfold m1.
    destruct (decide (c = w)) as [-> |]; [by rewrite lookup_insert_eq; eexists |].
    by rewrite lookup_insert_ne. }
  constructor.
  - intros c y [(-> & ->) | (_ & z & Hz & -> & _)]%Hlook; [done | by eapply f_id].
  - intros c y [(-> & ->) | (_ & z & Hz & _ & -> & _)]%Hlook; [done | by eapply f_size].
  - intros c y [(-> & ->) | (_ & z & Hz & _ & _ & -> & _)]%Hlook; [| by eapply f_start].
    pose proof (f_start _ Hf _ _ Hw). simpl. lia.
  - intros a c [H | [-> ->]]%He'; [apply Hhas; by eapply f_closed |].
    rewrite lookup_insert_eq. by eexists.
  - intros a1 a2 c [H1 | [-> ->]]%He' [H2 | [-> E]]%He'; try done.
    + by eapply f_unique.
    + subst. by destruct (Hold a1 b H1).
    + by destruct (Hold a2 b H2).
  - intros c y [(-> & ->) | (_ & z & Hz & _ & _ & _ & Hn')]%Hlook Hnd.
    + exists w. apply He'. by right.
    + destruct (f_parent _ Hf c z) as [a Ha]; [done | congruence |]. exists a. apply He'. by left.
  - intros a c y [(-> & ->) | (Hne & z & Hz & _ & _ & _ & Hn')]%Hlook Hnd H; [done |].
    apply He' in H as [H | [-> ->]]; [| done]. eapply (f_root _ Hf); [exact Hz | congruence | done].
  - intros a c y z [H | [-> ->]]%He' Hy Hz.
    + destruct (Hold a c H).
      apply Hlook in Hy as [(-> & _) | (_ & y' & Hy' & _ & _ & -> & _)]; [done |].
      apply Hlook in Hz as [(-> & _) | (_ & z' & Hz' & _ & _ & -> & _)]; [done |].
      by eapply f_older.
    + apply Hlook in Hy as [(-> & _) | (_ & y' & Hy' & _ & _ & -> & _)]; [done |].
      apply Hlook in Hz as [(_ & ->) | (? & _)]; [| done]. simpl. congruence.
Qed.

Lemma forest_set_end b x t : m !! b = Some x → forest (<[b := set_end t x]> m).
Proof.
  intros Hb. pose proof (edge_insert_same m b x (set_end t x) Hb eq_refl) as He.
  assert (Hlook : ∀ c y, <[b := set_end t x]> m !! c = Some y →
    ∃ z, m !! c = Some z ∧ buffer y = buffer z ∧ buffer_size y = buffer_size z ∧
      buffer_start y = buffer_start z ∧ need_allocation y = need_allocation z).
  { intros c y. destruct (decide (c = b)) as [-> |]; intros; simplify_map_eq; eauto 10. }
  constructor.
  - intros c y (z & Hz & -> & _)%Hlook. by eapply f_id.
  - intros c y (z & Hz & _ & -> & _)%Hlook. by eapply f_size.
  - intros c y (z & Hz & _ & _ & -> & _)%Hlook. by eapply f_start.
  - intros a c H%He. destruct (f_closed _ Hf a c H) as [y Hy].
    destruct (decide (c = b)) as [-> |]; simplify_map_eq; eauto.
  - intros a1 a2 c H1%He H2%He. by eapply f_unique.
  - intros c y (z & Hz & _ & _ & _ & ->)%Hlook Hn. destruct (f_parent _ Hf c z Hz Hn) as [a Ha].
    exists a. by apply He.
  - intros a c y (z & Hz & _ & _ & _ & ->)%Hlook Hn H%He. by eapply f_root.
  - intros a c y y' H%He (z & Hz & _ & _ & -> & _)%Hlook (z' & Hz' & _ & _ & -> & _)%Hlook.
    by eapply f_older.
Qed.
End Forest.

(** ** The steps *)

Lemma collected_empty_buffer a h ids b :
  collected a h ids → b ∉ ids → collected a (map_empty_buffer h b) (b :: ids).
Proof.
  intros H Hb.
  assert (Hm : buffer_intervals_ h !! b = None).
  { destruct (buffer_intervals_ h !! b) eqn:E; [| done]. destruct Hb. eapply c_ids; [done |]. by eexists. }
  assert (Hc : chunk_map (result_ h) !! b = None).
  { destruct (chunk_map (result_ h) !! b) eqn:E; [| done]. destruct Hb. by eapply c_chunks. }
  destruct H as [H1 H2 H3 H4 Ha H5 H6 H7 H8 H9].
  unfold map_empty_buffer, AddToChunkMap, emplace. rewrite Hc.
  constructor; simpl; try done.
  - intros c Hc'. right. by apply H5.
  - intros c k. destruct (decide (c = b)) as [-> |]; intros; simplify_map_eq.
    + split; [done |]. split; [done | by left].
    + destruct (H6 c k) as (? & ? & ?); [done |]. split; [done |]. split; [done | by right].
  - intros c [-> | Hc']%elem_of_cons; [right; simplify_map_eq; by eexists |].
    destruct (H9 c Hc') as [? | ?]; [by left | right].
    destruct (decide (c = b)) as [-> |]; [done | by rewrite lookup_insert_ne].
Qed.

(** The parts that do not look at the colocations. *)
Lemma collected_intervals a h ids ids' m :
  collected a h ids → forest m → apart m →
  (∀ b x, m !! b = Some x → buffer_start x < current_time_ h + 1 ∧
    (buffer_end x = -1 ∨ buffer_start x < buffer_end x < current_time_ h + 1)) →
  (∀ b, b ∈ ids' ↔ b ∈ ids ∨ is_Some (m !! b)) →
  (∀ b, is_Some (buffer_intervals_ h !! b) → is_Some (m !! b)) →
  (∀ b, is_Some (m !! b) → is_Some (buffer_intervals_ h !! b) ∨ b ∉ ids) →
  collected a (with_intervals h m (current_time_ h + 1)) ids'.
Proof.
  intros [H1 H2 H3 H4 Ha H5 H6 H7 H8 H9] Hf Hap Hl Hids Hsub Hnew.
  constructor; simpl; try done.
  - lia.
  - intros b Hb. apply Hids. by right.
  - intros b c Hc. destruct (H6 b c Hc) as (? & Hnone & ?). split; [done |].
    split; [| apply Hids; by left]. destruct (m !! b) eqn:E; [| done].
    destruct (Hnew b) as [[? ?] | ?]; [by eexists | congruence | done].
  - intros b [Hb | Hb]%Hids; [| by left]. destruct (H9 b Hb) as [? | ?]; [left; auto | by right].
Qed.

Lemma step_collected a h ids e h' :
  collected a h ids → Forall (λ b, b ∉ ids) (defined [e]) → 0 ≤ event_size e →
  step h e = Ok h' → collected a h' (defined [e] ++ ids).
Proof.
  intros H Hnew Hsize Hs. pose proof H as [Hf Ha Ht Hl Hap Hids Hc Htree Hhs Hmap].
  pose proof (f_start _ Hf) as Hst.
  assert (Hfresh : ∀ b, b ∉ ids → buffer_intervals_ h !! b = None).
  { intros b Hb. destruct (buffer_intervals_ h !! b) eqn:E; [| done].
    destruct Hb. apply Hids. by eexists. }
  destruct e as [b n | b w n | b n]; cbn [defined omap list_omap event_size step] in *.
  - rewrite Forall_singleton in Hnew. unfold Alloc in Hs. destruct (Z.eqb_spec n 0) as [-> | Hn].
    { res_inv. by apply collected_empty_buffer. }
    res_inv. apply s64_ok in H1 as [-> _].
    eapply collected_intervals; [done | | | | | |].
    + apply forest_insert_root; auto. lia.
    + apply apart_insert; [done | simpl; lia |]. intros c y Hy. simpl. specialize (Hst c y Hy).
      destruct (Hl c y Hy) as [? [? | ?]]; lia.
    + intros c y. destruct (decide (c = b)) as [-> |]; intros; simplify_map_eq; simpl; [lia |].
      destruct (Hl c y) as [? [? | ?]]; [done | lia | lia].
    + intros c. cbn [app]. rewrite elem_of_cons. destruct (decide (c = b)) as [-> |].
      * rewrite lookup_insert_eq. split; [by right; eexists | by left].
      * rewrite lookup_insert_ne by done. split; [intros [? | ?]; [done | by left] |].
        intros [? | ?]; right; auto.
    + intros c [y Hy]. destruct (decide (c = b)) as [-> |]; [rewrite lookup_insert_eq; by eexists |].
      rewrite lookup_insert_ne by done. by eexists.
    + intros c. destruct (decide (c = b)) as [-> |]; [by right |]. rewrite lookup_insert_ne by done.
      by left.
  - rewrite Forall_singleton in Hnew. unfold ShareWith in Hs. destruct (Z.eqb_spec n 0) as [-> | Hn].
    { res_inv. by apply collected_empty_buffer. }
    destruct (buffer_intervals_ h !! w) as [x |] eqn:Hw; [| done]. cbn [mbind res_bind] in Hs.
    res_inv. apply s64_ok in H1 as [-> _].
    assert (Hwb : w ≠ b).
    { intros ->. rewrite (Hfresh b Hnew) in Hw. done. }
    destruct (Hl w x Hw) as [Hxt _].
    eapply collected_intervals; [done | | | | | |].
    + apply forest_insert_shared; auto. lia.
    + assert (Hap' : apart (<[w := add_colocation b x]> (buffer_intervals_ h))).
      { apply apart_insert; [done | by apply (Hap w x w x) |]. intros c y Hy.
        by split; [apply (Hap w x c y) | apply (Hap c y w x)]. }
      apply apart_insert; [done | simpl; lia |]. intros c y. simpl.
      destruct (decide (c = w)) as [-> |]; intros Hy; simplify_map_eq; simpl.
      * specialize (Hst w x Hw). destruct (Hl w x Hw) as [? [? | ?]]; lia.
      * specialize (Hst c y Hy). destruct (Hl c y Hy) as [? [? | ?]]; lia.
    + intros c y. destruct (decide (c = b)) as [-> |]; [intros; simplify_map_eq; simpl; lia |].
      rewrite lookup_insert_ne by done. destruct (decide (c = w)) as [-> |]; intros; simplify_map_eq; simpl.
      * destruct (Hl w x Hw) as [? [? | ?]]; lia.
      * destruct (Hl c y) as [? [? | ?]]; [done | lia | lia].
    + intros c. cbn [app]. rewrite elem_of_cons. destruct (decide (c = b)) as [-> |].
      * rewrite lookup_insert_eq. split; [by right; eexists | by left].
      * rewrite lookup_insert_ne by done. destruct (decide (c = w)) as [-> |].
        -- rewrite lookup_insert_eq. assert (w ∈ ids) by (apply Hids; by eexists).
           split; [by left | by right].
        -- rewrite lookup_insert_ne by done. split; [intros [? | ?]; [done | by left] |].
           intros [? | ?]; right; auto.
    + intros c [y Hy]. destruct (decide (c = b)) as [-> |]; [rewrite lookup_insert_eq; by eexists |].
      rewrite lookup_insert_ne by done. destruct (decide (c = w)) as [-> |].
      * rewrite lookup_insert_eq. by eexists.
      * rewrite lookup_insert_ne by done. by eexists.
    + intros c. destruct (decide (c = b)) as [-> |]; [by right |]. rewrite lookup_insert_ne by done.
      destruct (decide (c = w)) as [-> |]; [left; by eexists |]. rewrite lookup_insert_ne by done.
      by left.
  - unfold Free in Hs. destruct (n =? 0); [by res_inv |].
    destruct (buffer_intervals_ h !! b) as [x |] eqn:Hx; [| done]. cbn [mbind res_bind] in Hs.
    res_inv. apply s64_ok in H3 as [-> _]. destruct (Hl b x Hx) as [Hxt _].
    eapply collected_intervals; [done | | | | | |].
    + by apply forest_set_end.
    + apply apart_insert; [done | simpl; lia |]. intros c y Hy. simpl. specialize (Hst c y Hy).
      split; [by apply (Hap b x c y) |]. destruct (Hl c y Hy); lia.
    + intros c y. destruct (decide (c = b)) as [-> |]; intros; simplify_map_eq; simpl; [lia |].
      destruct (Hl c y) as [? [? | ?]]; [done | lia | lia].
    + intros c. cbn [app]. split; [by left |]. intros [? | [y Hy]]; [done |].
      destruct (decide (c = b)) as [-> |]; simplify_map_eq; apply Hids; by eexists.
    + intros c [y Hy]. destruct (decide (c = b)) as [-> |]; simplify_map_eq; by eexists.
    + intros c [y Hy]. left. destruct (decide (c = b)) as [-> |]; simplify_map_eq; by eexists.
Qed.

Lemma defined_cons e es : defined (e :: es) = defined [e] ++ defined es.
Proof. by destruct e. Qed.

Lemma run_collected a h ids es h' :
  collected a h ids → NoDup (defined es) → (∀ b, b ∈ defined es → b ∉ ids) →
  Forall (λ e, 0 ≤ event_size e) es → run h es = Ok h' →
  ∃ ids', collected a h' ids' ∧ ∀ b, b ∈ ids' ↔ b ∈ ids ∨ b ∈ defined es.
Proof.
  revert h ids. induction es as [| e es IH]; intros h ids Hc Hnd Hnew Hsz Hr.
  - cbn [run] in Hr. res_inv. exists ids. split; [done |]. intros b. split; [by left |].
    by intros [? | ?%elem_of_nil].
  - cbn [run] in Hr. apply bind_ok in Hr as (h1 & Hs & Hr).
    apply Forall_cons in Hsz as [He Hsz]. rewrite defined_cons in Hnd, Hnew.
    apply NoDup_app in Hnd as (_ & Hdis & Hnd).
    destruct (IH h1 (defined [e] ++ ids)) as (ids' & Hc' & Hids'); try done.
    + eapply step_collected; try done. apply Forall_forall. intros b Hb. apply Hnew, elem_of_app.
      by left.
    + intros b Hb [Hb' | Hb']%elem_of_app; [by apply (Hdis b) |].
      apply (Hnew b); [apply elem_of_app; by right | done].
    + exists ids'. split; [done |]. intros b. rewrite Hids', (defined_cons e es), !elem_of_app. tauto.
Qed.

End HeapRun.

(** ** Placing a group of colocated buffers

    What holds of a heap some of the groups have their chunk in, and that one
    more group keeps it. *)
Module HeapPlace.
Import HeapTree HeapFinder HeapSim HeapColoc HeapFree HeapRun.

(** ** Committing a chunk *)

Lemma emplace_lookup {A} k (x : A) m b :
  emplace k x m !! b = match m !! b with Some y => Some y | None => if decide (b = k) then Some x else None end.
Proof.
  unfold emplace. destruct (m !! k) as [y |] eqn:E.
  - destruct (m !! b) eqn:Eb; [done |]. case_decide; congruence.
  - destruct (decide (b = k)) as [-> |]; [by rewrite lookup_insert_eq, E |].
    rewrite lookup_insert_ne by done. by destruct (m !! b).
Qed.

(** The chunk map after the colocations [l] were added. *)
Lemma add_chunks_spec l c r :
  chunk_end c ≤ heap_size r →
  let r' := foldl (λ r b, AddToChunkMap b c
              (MkHeapResult (chunk_map r) (UpdatedHeapSize r c))) r l in
  heap_size r' = heap_size r ∧
  ∀ b, chunk_map r' !! b = match chunk_map r !! b with
    | Some y => Some y
    | None => if decide (b ∈ l) then Some c else None
    end.
Proof.
  revert r. induction l as [| k l IH]; intros r Hr; cbn [foldl].
  - split; [done |]. intros b. rewrite decide_False by apply not_elem_of_nil. by destruct (_ !! b).
  - set (r1 := AddToChunkMap k c _).
    assert (E1 : heap_size r1 = heap_size r) by (unfold r1, UpdatedHeapSize; simpl; lia).
    destruct (IH r1) as [H1 H2]; [lia |]. split; [lia |]. intros b. rewrite H2. unfold r1. simpl.
    rewrite emplace_lookup. destruct (chunk_map r !! b) eqn:E; [done |].
    destruct (decide (b = k)) as [-> | Hne].
    + by rewrite decide_True by (by left).
    + by rewrite (decide_ext (b ∈ l) (b ∈ k :: l)) by set_solver.
Qed.

Lemma add_intervals_spec c ys t :
  ok t →
  let t' := foldl (λ t y, Add t (MkInterval (buffer_start y) (buffer_end y) c)) t ys in
  ok t' ∧ ∀ d, d ∈ inorder t' ↔
    d ∈ inorder t ∨ ∃ y, y ∈ ys ∧ d = MkInterval (buffer_start y) (buffer_end y) c.
Proof.
  revert t. induction ys as [| y ys IH]; intros t Ht; cbn [foldl].
  - split; [done |]. intros d. setoid_rewrite elem_of_nil. naive_solver.
  - destruct (IH (Add t (MkInterval (buffer_start y) (buffer_end y) c))) as [H1 H2]; [by apply ok_Add |].
    split; [done |]. intros d. rewrite H2, Add_perm, elem_of_cons. setoid_rewrite elem_of_cons.
    naive_solver.
Qed.

(** The colocations do not depend on the times [GetSortedBufferIntervals] fills in. *)
Lemma with_times_colocations m x s e :
  GetTransitiveColocations m (with_colocation_times x s e) = GetTransitiveColocations m x.
Proof. done. Qed.

Lemma with_times_max_size m x s e :
  GetMaxColocationSize m (with_colocation_times x s e) = GetMaxColocationSize m x.
Proof. done. Qed.

(** ** The groups that have their chunk *)

Section Placed.
Context (m : gmap Z BufferInterval) (Hf : forest m) (a M : Z) (Ha : 0 < a) (HM : 0 ≤ M).
Context (HMs : ∀ b x, m !! b = Some x → buffer_size x ≤ M).
(* What the map holds from before: the 0-sized buffers. *)
Context (m0 : gmap Z Chunk) (Hm0 : ∀ b c, m0 !! b = Some c → m !! b = None).

(** The roots [ps] were given chunks of the heap with this result. *)
Record placed (ps : list (Z * Chunk)) (r : HeapResult) : Prop := {
  pl_root b c : (b, c) ∈ ps → ∃ x, root m b x ∧ GetMaxColocationSize m x = Ok (size c);
  pl_inj b c1 c2 : (b, c1) ∈ ps → (b, c2) ∈ ps → c1 = c2;
  pl_chunk b c : (b, c) ∈ ps → valid_chunk (heap_size r) c ∧ (a | offset c);
  pl_size : 0 ≤ heap_size r ≤ Z.of_nat (length ps) * (M + a);
  pl_tight : heap_size r = 0 ∨ ∃ b c, (b, c) ∈ ps ∧ chunk_end c = heap_size r;
  pl_map b c : chunk_map r !! b = Some c ↔
    m0 !! b = Some c ∨ ∃ b0, (b0, c) ∈ ps ∧ group m b0 b;
  pl_disjoint r1 c1 r2 c2 b1 y1 b2 y2 :
    (r1, c1) ∈ ps → (r2, c2) ∈ ps → r1 ≠ r2 → group m r1 b1 → group m r2 b2 →
    m !! b1 = Some y1 → m !! b2 = Some y2 →
    buffer_start y1 ≤ buffer_end y2 → buffer_start y2 ≤ buffer_end y1 →
    chunk_end c1 ≤ offset c2 ∨ chunk_end c2 ≤ offset c1
}.

(** Nothing of a group that is not placed is in the map. *)
Lemma placed_fresh ps r b x b' :
  placed ps r → root m b x → b ∉ ps.*1 → group m b b' → chunk_map r !! b' = None.
Proof.
  intros Hp Hr Hnew Hg. destruct (chunk_map r !! b') as [c |] eqn:E; [| done].
  apply (pl_map _ _ Hp) in E as [E | (b0 & Hb0 & Hg')].
  - apply Hm0 in E. destruct (group_dom m Hf b b') as [y Hy]; [| done | congruence].
    destruct Hr. by eexists.
  - destruct (pl_root _ _ Hp b0 c Hb0) as (x' & Hx' & _). destruct Hnew.
    rewrite (group_unique m Hf b x b0 x' b') by done. apply list_elem_of_fmap. by exists (b0, c).
Qed.

(** A chunk for one more group. *)
Lemma placed_add ps r b x k r' :
  placed ps r → root m b x → b ∉ ps.*1 → GetMaxColocationSize m x = Ok (size k) →
  0 ≤ offset k ≤ align a (heap_size r) → (a | offset k) →
  heap_size r' = Z.max (heap_size r) (chunk_end k) →
  (∀ b' c', chunk_map r' !! b' = Some c' ↔ chunk_map r !! b' = Some c' ∨ group m b b' ∧ c' = k) →
  (∀ r2 c2 b1 y1 b2 y2, (r2, c2) ∈ ps → group m b b1 → group m r2 b2 →
     m !! b1 = Some y1 → m !! b2 = Some y2 →
     buffer_start y1 ≤ buffer_end y2 → buffer_start y2 ≤ buffer_end y1 →
     chunk_end k ≤ offset c2 ∨ chunk_end c2 ≤ offset k) →
  placed ((b, k) :: ps) r'.
Proof.
  intros [Hroot Hinj Hck Hsz Ht Hmap Hdis] Hr Hnew EN Ho Hd EH Hmap' Havoid.
  assert (Hnot : ∀ c, (b, c) ∉ ps).
  { intros c Hc. apply Hnew, list_elem_of_fmap. by exists (b, c). }
  pose proof Hr as [Hx _].
  destruct (GetMaxColocationSize_spec m Hf b x Hx) as (N & EN' & HN1 & b0 & y0 & Hb0 & Hy0 & HN0).
  rewrite EN in EN'. injection EN' as <-.
  assert (HNM : size k ≤ M) by (rewrite <- HN0; by eapply HMs).
  pose proof (f_size _ Hf b x Hx) as Hxs. pose proof (HN1 b x (rtc_refl _ _) Hx).
  pose proof (align_up_spec a (heap_size r) Ha) as [Hal _].
  assert (Hke : chunk_end k = offset k + size k) by done.
  constructor.
  - intros b' c [[= -> ->] | Hc]%elem_of_cons; [by exists x | by eapply Hroot].
  - intros b' c1 c2 [E1 | H1]%elem_of_cons [E2 | H2]%elem_of_cons.
    + congruence.
    + injection E1 as -> ->. by apply Hnot in H2.
    + injection E2 as -> ->. by apply Hnot in H1.
    + by eapply Hinj.
  - rewrite EH. intros b' c [[= -> ->] | Hc]%elem_of_cons.
    + split; [| done]. unfold valid_chunk. lia.
    + apply Hck in Hc as [(? & ? & ?) ?]. split; [| done]. unfold valid_chunk. lia.
  - rewrite EH, Hke. cbn [length]. lia.
  - rewrite EH. destruct (Z.max_spec (heap_size r) (chunk_end k)) as [[_ ->] | [_ ->]].
    + right. exists b, k. split; [by left | done].
    + destruct Ht as [? | (b' & c & ? & ?)]; [by left | right]. exists b', c. split; [by right | done].
  - intros b' c'. rewrite Hmap', Hmap. split.
    + intros [[? | (b1 & Hc & ?)] | [? ->]]; [by left | right; exists b1 | right; exists b];
        (split; [apply elem_of_cons; auto | done]).
    + intros [? | (b1 & [[= -> ->] | Hc]%elem_of_cons & ?)]; [by left; left | by right |].
      left. right. by exists b1.
  - intros r1 c1 r2 c2 b1 y1 b2 y2 [[= -> ->] | H1]%elem_of_cons [[= -> ->] | H2]%elem_of_cons
      Hne G1 G2 Y1 Y2 O1 O2; [done | by eapply Havoid | | by eapply Hdis].
    apply or_comm. eapply (Havoid r1 c1 b2 y2 b1 y1); done.
Qed.

(** ** Committing the chunk of a root and its group *)

Lemma CommitChunkOnly_spec h b x s e c N :
  buffer_intervals_ h = m → root m b x → size c = buffer_size x →
  GetMaxColocationSize m x = Ok N →
  (∀ b', group m b b' → chunk_map (result_ h) !! b' = None) →
  let k := MkChunk (offset c) N in
  ∃ r', CommitChunkOnly h (with_colocation_times x s e) c = Ok (with_result h r' (interval_tree_ h)) ∧
    heap_size r' = Z.max (heap_size (result_ h)) (chunk_end k) ∧
    (∀ b' c', chunk_map r' !! b' = Some c' ↔
       chunk_map (result_ h) !! b' = Some c' ∨ group m b b' ∧ c' = k).
Proof.
  intros Em [Hx Hn] Esz EN Hnone k.
  destruct (group_members m Hf b x Hx) as (cs & _ & Ecs & _ & Hcs & _).
  unfold CommitChunkOnly. rewrite Em.
  cbn [buffer buffer_size with_colocation_times]. rewrite Esz, Z.eqb_refl.
  cbn [guard_res mbind res_bind].
  rewrite !with_times_colocations, !with_times_max_size, EN. cbn [mbind res_bind]. rewrite Ecs.
  cbn [mbind res_bind]. change (FromOffsetSize (offset c) N) with k.
  set (r0 := MkHeapResult (chunk_map (result_ h)) (UpdatedHeapSize (result_ h) k)).
  destruct (add_chunks_spec (elements cs) k r0) as [Hsize Hmap].
  { unfold r0, UpdatedHeapSize. simpl. lia. }
  eexists. split; [done |]. split.
  - cbn [AddToChunkMap heap_size]. rewrite Hsize. done.
  - intros b' c'. cbn [AddToChunkMap chunk_map]. rewrite emplace_lookup, Hmap.
    rewrite (f_id _ Hf b x Hx). cbn [chunk_map r0].
    pose proof (group_below m b x b' Hx) as Hg.
    destruct (chunk_map (result_ h) !! b') as [c0 |] eqn:E.
    { split; [by left |]. intros [? | [Hb _]]; [done |]. by rewrite (Hnone b' Hb) in E. }
    destruct (decide (b' ∈ elements cs)) as [Hb | Hb]; rewrite elem_of_elements, Hcs in Hb.
    { split; [intros [= <-]; right | intros [? | [_ ->]]; done]. split; [| done]. apply Hg. by right. }
    case_decide as Hbr.
    + split; [intros [= <-]; right | intros [? | [_ ->]]; done]. split; [| done]. apply Hg. by left.
    + split; [done |]. intros [? | [Hg' _]]; [done |]. apply Hg in Hg' as [? | ?]; done.
Qed.

Lemma CommitChunkAndInterval_spec h b x s e c cs ys N :
  buffer_intervals_ h = m → root m b x → size c = buffer_size x →
  GetTransitiveColocations m x = Ok cs → intervals_at m cs = Ok ys →
  GetMaxColocationSize m x = Ok N → ok (interval_tree_ h) →
  (∀ b', group m b b' → chunk_map (result_ h) !! b' = None) →
  let k := MkChunk (offset c) N in
  ∃ r' t', CommitChunkAndInterval h (with_colocation_times x s e) c = Ok (with_result h r' t') ∧
    heap_size r' = Z.max (heap_size (result_ h)) (chunk_end k) ∧
    (∀ b' c', chunk_map r' !! b' = Some c' ↔
       chunk_map (result_ h) !! b' = Some c' ∨ group m b b' ∧ c' = k) ∧
    ok t' ∧
    (∀ d, d ∈ inorder t' ↔ d ∈ inorder (interval_tree_ h) ∨
       ∃ y, y ∈ x :: ys ∧ d = MkInterval (buffer_start y) (buffer_end y) k).
Proof.
  intros Em Hr Esz Ecs Eys EN Hok Hnone k.
  destruct (CommitChunkOnly_spec h b x s e c N Em Hr Esz EN Hnone) as (r' & EC & EH & Hmap).
  unfold CommitChunkAndInterval. rewrite EC. cbn [mbind res_bind with_result buffer_intervals_].
  rewrite Em, with_times_max_size, with_times_colocations, EN. cbn [mbind res_bind]. rewrite Ecs.
  cbn [mbind res_bind]. rewrite Eys. cbn [mbind res_bind interval_tree_ with_result].
  change (FromOffsetSize (offset c) N) with k.
  destruct (add_intervals_spec k ys (Add (interval_tree_ h)
    (MkInterval (buffer_start x) (buffer_end x) k))) as [Hok' Hin]; [by apply ok_Add |].
  eexists r', _. split; [done |]. split; [done |]. split; [done |]. split; [done |].
  intros d. cbn [buffer_start buffer_end with_colocation_times] in *.
  rewrite Hin, Add_perm, elem_of_cons. setoid_rewrite elem_of_cons. naive_solver.
Qed.

(** ** Placing a group where [FindChunkCandidate] finds room *)

(** The tree holds the intervals of the groups placed. *)
Record placed_inv (ps : list (Z * Chunk)) (h : Heap) : Prop := {
  pi_intervals : buffer_intervals_ h = m;
  pi_alignment : alignment h = a;
  pi_placed : placed ps (result_ h);
  pi_ok : ok (interval_tree_ h);
  pi_tree d : d ∈ inorder (interval_tree_ h) ↔
    ∃ r c b y, (r, c) ∈ ps ∧ group m r b ∧ m !! b = Some y ∧
      d = MkInterval (buffer_start y) (buffer_end y) c
}.

Lemma placed_empty r : heap_size r = 0 → chunk_map r = m0 → placed [] r.
Proof.
  intros EH Em. constructor; try (by intros * ?%elem_of_nil).
  - rewrite EH. simpl. lia.
  - by left.
  - intros b c. rewrite Em. split; [by left |]. by intros [? | (? & ?%elem_of_nil & _)].
Qed.

Lemma placed_inv_empty h :
  buffer_intervals_ h = m → alignment h = a → heap_size (result_ h) = 0 →
  chunk_map (result_ h) = m0 → interval_tree_ h = Leaf → placed_inv [] h.
Proof.
  intros Em Ea EH Ec Et. constructor; try done; [by apply placed_empty | by rewrite Et |].
  rewrite Et. intros d. rewrite elem_of_nil. split; [done |].
  by intros (? & ? & ? & ? & ?%elem_of_nil & _).
Qed.

Lemma place_root ps h b x s e :
  placed_inv ps h → root m b x → b ∉ ps.*1 →
  (Z.of_nat (length ps) + 1) * (M + a) ≤ int64_max →
  ∃ h' k, FindChunkCandidate h (with_colocation_times x s e) (-1) =
      Ok (MkChunk (offset k) (buffer_size x)) ∧
    CommitChunkAndInterval h (with_colocation_times x s e) (MkChunk (offset k) (buffer_size x)) =
      Ok h' ∧
    placed_inv ((b, k) :: ps) h' ∧ buffer_size x ≤ size k ∧
    0 ≤ offset k ≤ align a (heap_size (result_ h)) ∧
    heap_size (result_ h') = Z.max (heap_size (result_ h)) (chunk_end k).
Proof.
  intros Hp Hr Hnew Hb. pose proof Hr as [Hx _]. pose proof Hp as [Em Eal Hpl Hok Htr].
  pose proof (pl_size _ _ Hpl) as Hsz.
  destruct (group_members m Hf b x Hx) as (cs & ys & Ecs & Eys & Hcs & Hys).
  destruct (GetMaxColocationSize_spec m Hf b x Hx) as (N & EN & HN1 & b0 & y0 & Hb0 & Hy0 & HN0).
  assert (HNM : N ≤ M) by (rewrite <- HN0; by eapply HMs).
  pose proof (f_size _ Hf b x Hx) as Hxs. pose proof (HN1 b x (rtc_refl _ _) Hx) as HxN.
  set (x' := with_colocation_times x s e). set (H := heap_size (result_ h)) in *.
  pose proof (align_up_spec a H Ha) as [HalH _].
  destruct (FindChunkCandidate_spec h x' cs ys N H) as (fc & p & _ & _ & EF & Hp0 & Hpa & HpH & Hclear);
    try (rewrite Em; done).
  { by rewrite Eal. } { done. } { lia. } { rewrite Eal. nia. } { done. } { done. }
  { intros c (y & d & Hy & Hd & _ & <-). apply Htr in Hd as (r' & c & b' & z & Hrc & _ & _ & ->).
    simpl. by apply (pl_chunk _ _ Hpl) in Hrc as [? _]. }
  rewrite Eal in Hpa, HpH.
  destruct (CommitChunkAndInterval_spec h b x s e (MkChunk p.1 (buffer_size x)) cs ys N)
    as (r' & t' & EC & EH & Hmap' & Hok' & Htr'); try done.
  { intros b'. by apply (placed_fresh ps _ b x). }
  cbn [offset] in *. set (k := MkChunk p.1 N) in *. fold H in EH.
  exists (with_result h r' t'), k. split; [exact EF |]. split; [exact EC |].
  split; [| split; [done | split; [done | exact EH]]].
  constructor; cbn [with_result buffer_intervals_ alignment result_ interval_tree_]; try done.
  - apply (placed_add ps (result_ h) b x); try done.
    (* The new chunk avoids the older ones that are live together with it. *)
    intros r2 c2 b1 y1 b2 y2 H2 G1 G2 Y1 Y2 O1 O2.
    assert (Hin1 : y1 ∈ x :: ys) by (apply Hys; by exists b1).
    assert (Hcl : clear_of p.1 (p.1 + N) c2); [| destruct Hcl; auto].
    assert (Hd : MkInterval (buffer_start y2) (buffer_end y2) c2 ∈ inorder (interval_tree_ h)).
    { apply Htr. by exists r2, c2, b2, y2. }
    assert (Hov : overlaps (buffer_start y1) (buffer_end y1)
      (MkInterval (buffer_start y2) (buffer_end y2) c2) = true).
    { unfold overlaps. cbn [start end_]. lia. }
    apply Hclear. apply elem_of_cons in Hin1 as [-> | Hin1].
    + eexists x', _. split; [by left |]. split; [exact Hd |]. by split.
    + eexists y1, _. split; [by right |]. split; [exact Hd |]. by split.
  - intros d. rewrite Htr', Htr. split.
    + intros [(r2 & c & b' & y & Hc & ?) | (y & (b' & Hg & Hy)%Hys & ->)];
        [exists r2, c, b', y | exists b, k, b', y]; (split; [apply elem_of_cons; auto | done]).
    + intros (r2 & c & b' & y & [[= -> ->] | Hc]%elem_of_cons & Hg & Hy & ->); [right | left].
      * exists y. split; [apply Hys; by exists b' | done].
      * by exists r2, c, b', y.
Qed.
End Placed.
End HeapPlace.
