(* ===== verification/HeapCorrect.v ===== *)
(** * What the best-fit heap promises

    Every buffer is given an aligned chunk inside of the heap, colocated buffers
    are given the same one, and buffers that are live at a common time are given
    disjoint ones, whatever the order the buffers are placed in. *)
From stdpp Require Import relations.
From S2P Require Import Prelude WindowArith HeapTree HeapFinder HeapSim HeapColoc HeapFree HeapRun.
#[local] Open Scope Z_scope.

Module HeapCorrect.
Import HeapTree HeapFinder HeapSim HeapColoc HeapFree HeapRun HeapPlace.

(** What [GetSortedBufferIntervals] lists: an interval of the map, with times
    that span those of the buffers placed with it. *)
Definition timed (m : gmap Z BufferInterval) (x' : BufferInterval) : Prop :=
  ∃ x s e, m !! buffer x' = Some x ∧ x' = with_colocation_times x s e ∧
    ∀ b y, group m (buffer x') b → m !! b = Some y → s ≤ buffer_start y ∧ buffer_end y ≤ e.

Section Placed.
Context (m : gmap Z BufferInterval) (Hf : forest m) (a M : Z) (Ha : 0 < a) (HM : 0 ≤ M).
Context (HMs : ∀ b x, m !! b = Some x → buffer_size x ≤ M).
Context (m0 : gmap Z Chunk) (Hm0 : ∀ b c, m0 !! b = Some c → m !! b = None).

(** The loop places every root. *)
Lemma allocate_all_spec xs ps h :
  placed_inv m a M m0 ps h → NoDup (buffer <$> xs) →
  Forall (timed m) xs → (∀ x', x' ∈ xs → buffer x' ∉ ps.*1) →
  (Z.of_nat (length ps) + Z.of_nat (length xs)) * (M + a) ≤ int64_max →
  ∃ ps' h', allocate_all h xs = Ok h' ∧ placed_inv m a M m0 ps' h' ∧
    (∀ r, r ∈ ps.*1 → r ∈ ps'.*1) ∧
    (∀ x', x' ∈ xs → need_allocation x' = true → buffer x' ∈ ps'.*1).
Proof.
  revert ps h. induction xs as [| x' xs IH]; intros ps h Hp Hnd Hall Hnew Hb.
  { exists ps, h. split_and!; [done | done | done |]. by intros ? ?%elem_of_nil. }
  rewrite fmap_cons in Hnd. apply NoDup_cons in Hnd as [Hx' Hnd].
  apply Forall_cons in Hall as [(x & s & e & Hx & Ex & _) Hall]. cbn [allocate_all].
  assert (Hrest : ∀ y, y ∈ xs → buffer y ∉ ps.*1) by (intros; apply Hnew; by right).
  destruct (need_allocation x') eqn:En.
  - assert (Hroot : root m (buffer x') x) by (split; [done | by subst x']).
    destruct (place_root m Hf a M Ha HM HMs m0 Hm0 ps h (buffer x') x s e)
      as (h1 & k & EF & EC & Hp1 & _); try done.
    { apply Hnew. by left. }
    { cbn [length] in Hb. nia. }
    rewrite <- Ex in EF, EC. rewrite EF. cbn [mbind res_bind]. rewrite EC. cbn [mbind res_bind].
    destruct (IH ((buffer x', k) :: ps) h1) as (ps' & h' & E & Hp' & H1 & H2); try done.
    { intros y Hy. rewrite fmap_cons, not_elem_of_cons. split; [| by apply Hrest].
      cbn [fst]. intros E. apply Hx'. rewrite <- E. by apply list_elem_of_fmap_2. }
    { cbn [length] in *. lia. }
    exists ps', h'. split_and!; [done | done | |].
    + intros r Hr. apply H1. rewrite fmap_cons. by right.
    + intros y [-> | Hy]%elem_of_cons Hny; [| by apply H2]. apply H1. rewrite fmap_cons. by left.
  - destruct (IH ps h) as (ps' & h' & E & Hp' & H1 & H2); try done.
    { cbn [length] in Hb. nia. }
    exists ps', h'. split_and!; [done | done | done |].
    intros y [-> | Hy]%elem_of_cons Hny; [congruence | by apply H2].
Qed.
End Placed.

(** ** The sorted intervals *)

(** The least start and the greatest end. *)
Lemma fold_times ys x :
  let s := foldl (λ n y, Z.min n (buffer_start y)) (buffer_start x) ys in
  let e := foldl (λ n y, Z.max n (buffer_end y)) (buffer_end x) ys in
  ∀ y, y ∈ x :: ys → s ≤ buffer_start y ∧ buffer_end y ≤ e.
Proof.
  cbv zeta.
  assert (H : ∀ s0 e0, foldl (λ n y, Z.min n (buffer_start y)) s0 ys ≤ s0 ∧
    e0 ≤ foldl (λ n y, Z.max n (buffer_end y)) e0 ys ∧
    ∀ y, y ∈ ys → foldl (λ n y, Z.min n (buffer_start y)) s0 ys ≤ buffer_start y ∧
      buffer_end y ≤ foldl (λ n y, Z.max n (buffer_end y)) e0 ys).
  { induction ys as [| z ys IH]; intros s0 e0; cbn [foldl].
    - split_and!; [lia | lia |]. by intros y ?%elem_of_nil.
    - destruct (IH (Z.min s0 (buffer_start z)) (Z.max e0 (buffer_end z))) as (H1 & H2 & H3).
      split_and!; [lia | lia |]. intros y [-> | Hy]%elem_of_cons; [lia | by apply H3]. }
  intros y. destruct (H (buffer_start x) (buffer_end x)) as (H1 & H2 & H3).
  intros [-> | Hy]%elem_of_cons; [done | by apply H3].
Qed.

Lemma colocation_times_spec m b x :
  forest m → m !! b = Some x →
  ∃ x', colocation_times m x = Ok x' ∧ buffer x' = b ∧ timed m x' ∧
    ∃ s e, x' = with_colocation_times x s e.
Proof.
  intros Hf Hx. destruct (group_members m Hf b x Hx) as (cs & ys & Ecs & Eys & _ & Hys).
  pose proof (f_id _ Hf b x Hx) as Hb.
  unfold colocation_times. rewrite Ecs. cbn [mbind res_bind]. rewrite Eys. cbn [mbind res_bind].
  eexists. split; [done |]. split; [done |]. split; [| by eexists _, _].
  eexists x, _, _. cbn [buffer with_colocation_times]. rewrite Hb. split; [done |]. split; [done |].
  intros c y Hc Hy. apply fold_times. apply Hys. by exists c.
Qed.

Lemma GetSortedBufferIntervals_spec h :
  forest (buffer_intervals_ h) →
  ∃ xs, GetSortedBufferIntervals h = Ok xs ∧ NoDup (buffer <$> xs) ∧
    length xs = base.size (buffer_intervals_ h) ∧
    Forall (timed (buffer_intervals_ h)) xs ∧
    (∀ b x, buffer_intervals_ h !! b = Some x → ∃ s e, with_colocation_times x s e ∈ xs) ∧
    ∃ ys, xs = merge_sort (compare_le (buffer_interval_compare_ (packing_strategy_ h))) ys.
Proof.
  set (m := buffer_intervals_ h). intros Hf.
  assert (Hin : Forall (λ p, m !! p.1 = Some p.2) (map_to_list m)).
  { apply Forall_forall. by intros [b x] Hx%elem_of_map_to_list. }
  assert (∃ xs, mapM (colocation_times m) (snd <$> map_to_list m) = Ok xs ∧
    buffer <$> xs = (map_to_list m).*1 ∧ Forall (timed m) xs ∧
    ∀ b x, (b, x) ∈ map_to_list m → ∃ s e, with_colocation_times x s e ∈ xs)
    as (xs & E & Hbuf & Htimed & Hcov).
  { induction Hin as [| [b x] l Hx _ IH]; cbn [fst snd] in *.
    { exists []. split_and!; [done | done | done |]. by intros ? ? ?%elem_of_nil. }
    destruct IH as (xs & E & Hbuf & Htimed & Hcov).
    destruct (colocation_times_spec m b x Hf Hx) as (x' & Ex & Hb & Ht & s & e & Es).
    exists (x' :: xs). rewrite !fmap_cons. cbn [mapM snd fst]. rewrite Ex. cbn [mbind res_bind].
    rewrite E, Hb, Hbuf. split_and!; [done | done | by constructor |].
    intros c y [[= -> ->] | Hc]%elem_of_cons; [exists s, e; rewrite <- Es; by left |].
    destruct (Hcov c y Hc) as (s' & e' & Hy). exists s', e'. by right. }
  unfold GetSortedBufferIntervals. fold m. rewrite E. cbn [mbind res_bind]. eexists. split; [done |].
  set (cmp := compare_le _). pose proof (merge_sort_Permutation cmp xs) as Hperm.
  split_and!.
  - rewrite Hperm, Hbuf. apply NoDup_fst_map_to_list.
  - rewrite Hperm, <- (length_fmap buffer xs), Hbuf, length_fmap. apply length_map_to_list.
  - by rewrite Hperm.
  - intros b x Hx. destruct (Hcov b x) as (s & e & Hy); [by apply elem_of_map_to_list |].
    exists s, e. by rewrite Hperm.
  - by exists xs.
Qed.

(** ** What a result promises *)

(** The buffers share an allocation. *)
Definition colocated (m : gmap Z BufferInterval) (b1 b2 : Z) : Prop :=
  ∃ r x, root m r x ∧ group m r b1 ∧ group m r b2.

(** What holds of the buffers that are in a heap. *)
Record safe_heap (a : Z) (m : gmap Z BufferInterval) (r : HeapResult) : Prop := {
  sh_chunk b x c : m !! b = Some x → chunk_map r !! b = Some c →
    buffer_size x ≤ size c ∧ 0 ≤ offset c ∧ chunk_end c ≤ heap_size r ∧ (a | offset c);
  sh_colocated b1 b2 : colocated m b1 b2 → chunk_map r !! b1 = chunk_map r !! b2;
  sh_disjoint b1 x1 c1 b2 x2 c2 time :
    m !! b1 = Some x1 → m !! b2 = Some x2 → ¬ colocated m b1 b2 →
    chunk_map r !! b1 = Some c1 → chunk_map r !! b2 = Some c2 →
    buffer_start x1 ≤ time ≤ buffer_end x1 → buffer_start x2 ≤ time ≤ buffer_end x2 →
    chunk_end c1 ≤ offset c2 ∨ chunk_end c2 ≤ offset c1;
  sh_tight : heap_size r = 0 ∨ ∃ b c, chunk_map r !! b = Some c ∧ chunk_end c = heap_size r
}.

(** The heap holds every buffer. *)
Definition safe_result (a : Z) (m : gmap Z BufferInterval) (r : HeapResult) : Prop :=
  safe_heap a m r ∧ ∀ b, is_Some (m !! b) → is_Some (chunk_map r !! b).

Section Safe.
Context (m : gmap Z BufferInterval) (Hf : forest m) (a M : Z).
Context (m0 : gmap Z Chunk) (Hm0 : ∀ b c, m0 !! b = Some c → m !! b = None).

(** A buffer is in the heap when its root was placed. *)
Lemma placed_in ps r b b0 x :
  placed m a M m0 ps r → root m b0 x → group m b0 b →
  ∀ c, chunk_map r !! b = Some c ↔ (b0, c) ∈ ps.
Proof.
  intros Hp Hr Hg c. rewrite (pl_map _ _ _ _ _ _ Hp). split.
  - intros [E | (b1 & Hb1 & Hg1)].
    + apply Hm0 in E. destruct (group_dom m Hf b0 b) as [y Hy]; [| done | congruence].
      destruct Hr. by eexists.
    + destruct (pl_root _ _ _ _ _ _ Hp b1 c Hb1) as (x1 & Hx1 & _).
      by rewrite (group_unique m Hf b0 x b1 x1 b) by done.
  - intros Hc. right. by exists b0.
Qed.

Lemma placed_safe ps r : placed m a M m0 ps r → safe_heap a m r.
Proof.
  intros Hp. constructor.
  - intros b x c Hx Hc. destruct (group_exists m Hf b) as (b0 & y & Hr & Hg); [by eexists |].
    apply (placed_in ps r b b0 y) in Hc; [| done..].
    destruct (pl_chunk _ _ _ _ _ _ Hp b0 c Hc) as [(? & ? & ?) ?].
    destruct (pl_root _ _ _ _ _ _ Hp b0 c Hc) as (y' & Hr' & EN).
    destruct (GetMaxColocationSize_spec m Hf b0 y') as (N & EN' & HN & _); [apply Hr' |].
    rewrite EN in EN'. injection EN' as <-. split_and!; try done. by eapply HN.
  - intros b1 b2 (b0 & x & Hr & G1 & G2). apply option_eq. intros c.
    by rewrite (placed_in ps r b1 b0 x), (placed_in ps r b2 b0 x).
  - intros b1 x1 c1 b2 x2 c2 time X1 X2 Hne C1 C2 T1 T2.
    destruct (group_exists m Hf b1) as (r1 & y1 & R1 & G1); [by eexists |].
    destruct (group_exists m Hf b2) as (r2 & y2 & R2 & G2); [by eexists |].
    apply (placed_in ps r b1 r1 y1) in C1; [| done..]. apply (placed_in ps r b2 r2 y2) in C2; [| done..].
    eapply (pl_disjoint _ _ _ _ _ _ Hp r1 c1 r2 c2 b1 x1 b2 x2); try done; [| lia | lia].
    intros ->. apply Hne. by exists r2, y2.
  - destruct (pl_tight _ _ _ _ _ _ Hp) as [? | (b & c & Hc & He)]; [by left | right].
    exists b, c. split; [| done]. apply (pl_map _ _ _ _ _ _ Hp). right. exists b.
    split; [done | apply rtc_refl].
Qed.
End Safe.

Lemma run_sizes h es h' M :
  (∀ b x, buffer_intervals_ h !! b = Some x → buffer_size x ≤ M) →
  Forall (λ e, event_size e ≤ M) es → run h es = Ok h' →
  ∀ b x, buffer_intervals_ h' !! b = Some x → buffer_size x ≤ M.
Proof.
  revert h. induction es as [| e es IH]; intros h Hh Hes Hr; cbn [run] in Hr; [by res_inv |].
  apply Forall_cons in Hes as [He Hes]. apply bind_ok in Hr as (h1 & Hs & Hr).
  eapply (IH h1); [| done..]. clear IH Hr Hes.
  assert (Hins : ∀ (m : gmap Z BufferInterval) k x, (∀ b y, m !! b = Some y → buffer_size y ≤ M) → buffer_size x ≤ M →
    ∀ b y, <[k := x]> m !! b = Some y → buffer_size y ≤ M).
  { intros m k x Hm Hx b y. destruct (decide (b = k)) as [-> |]; intros; simplify_map_eq; eauto. }
  destruct e as [b n | b w n | b n]; cbn [step event_size] in *.
  - unfold Alloc in Hs. destruct (n =? 0); res_inv; [done |]. by apply Hins.
  - unfold ShareWith in Hs. destruct (n =? 0); [by res_inv |].
    destruct (buffer_intervals_ h !! w) as [y |] eqn:Hw; [| done]. cbn [mbind res_bind] in Hs. res_inv.
    apply Hins; [| done]. apply Hins; [done |]. exact (Hh w y Hw).
  - unfold Free in Hs. destruct (n =? 0); [by res_inv |].
    destruct (buffer_intervals_ h !! b) as [y |] eqn:Hw; [| done]. cbn [mbind res_bind] in Hs. res_inv.
    apply Hins; [done |]. exact (Hh b y Hw).
Qed.

(** What the heap and the calls it has served have to satisfy for [Finish]: no
    buffer is defined twice, the sizes are not negative, and the chunks cannot
    grow out of the 64 bits of an offset. *)
Definition simulated (a M : Z) (p : PackingStrategy) (ty : Ty) (es : list event) (h : Heap) : Prop :=
  (h0 ← new_heap a p ty; run h0 es) = Ok h ∧ NoDup (defined es) ∧
  Forall (λ e, 0 ≤ event_size e ≤ M) es ∧ 0 ≤ M ∧
  Z.of_nat (length es) * (M + a) ≤ int64_max.

Lemma simulated_collected a M p ty es h :
  simulated a M p ty es h →
  0 < a ∧ (∀ b x, buffer_intervals_ h !! b = Some x → buffer_size x ≤ M) ∧
  ∃ ids, collected a h ids ∧ (∀ b, b ∈ ids ↔ b ∈ defined es).
Proof.
  intros (Hr & Hnd & Hsz & _ & _). apply bind_ok in Hr as (h0 & H0 & Hr).
  destruct (new_heap_collected _ _ _ _ H0) as [Ha Hc]. split; [done |]. split.
  - eapply run_sizes; [| | done]; [| eapply Forall_impl; [done |]; simpl; tauto].
    unfold new_heap in H0. res_inv. intros b y. simpl. by rewrite lookup_empty.
  - destruct (run_collected a h0 [] es h) as (ids & Hc' & Hids); [done | done | | | done |].
    + by intros b _ ?%elem_of_nil.
    + eapply Forall_impl; [done |]. simpl; tauto.
    + exists ids. split; [done |]. intros b. rewrite Hids, elem_of_nil. tauto.
Qed.

Lemma defined_length es : (length (defined es) ≤ length es)%nat.
Proof.
  induction es as [| e es IH]; [done |]. rewrite defined_cons, length_app. destruct e; simpl; lia.
Qed.

Lemma map_size_le (m : gmap Z BufferInterval) (l : list Z) :
  (∀ b, is_Some (m !! b) → b ∈ l) → (base.size m ≤ length l)%nat.
Proof.
  intros H. rewrite <- (size_dom (D := gset Z)). unfold base.size, set_size. simpl.
  apply submseteq_length, NoDup_submseteq; [apply NoDup_elements |].
  intros b Hb%elem_of_elements%elem_of_dom. by apply H.
Qed.

Lemma Finish_spec a M p ty es h :
  simulated a M p ty es h →
  ∃ r, Finish h = Ok (MkResult [r] (heap_size r)) ∧ safe_result a (buffer_intervals_ h) r ∧
    ∀ b, b ∈ defined es → buffer_intervals_ h !! b = None → chunk_map r !! b = Some (MkChunk 0 0).
Proof.
  intros Hsim. destruct (simulated_collected _ _ _ _ _ _ Hsim) as (Ha & HM & ids & Hc & Hids).
  destruct Hsim as (_ & _ & _ & HM0 & Hb).
  destruct Hc as [Hf Eal _ _ Hap Hdom Hm0 Et Ehs Hmapped]. set (m := buffer_intervals_ h) in *.
  destruct (GetSortedBufferIntervals_spec h Hf) as (xs & Exs & Hnd & Hlen & Hall & Hin & _).
  change (buffer_intervals_ h) with m in Hlen, Hall, Hin.
  assert (Hsize : (base.size m ≤ length es)%nat).
  { etrans; [| apply defined_length]. apply map_size_le. intros b Hb'. by apply Hids, Hdom. }
  assert (Hm0' : ∀ b c, chunk_map (result_ h) !! b = Some c → m !! b = None).
  { intros b c Hbc. by apply (Hm0 b c). }
  assert (Hp : placed_inv m a M (chunk_map (result_ h)) [] h) by by apply placed_inv_empty.
  destruct (allocate_all_spec m Hf a M Ha HM0 HM (chunk_map (result_ h)) Hm0' xs [] h)
    as (ps & h' & E & Hp' & _ & Hroots); try done.
  { by intros ? _ ?%elem_of_nil. }
  { rewrite Hlen. cbn [length]. nia. }
  exists (result_ h'). unfold Finish. rewrite Exs. cbn [mbind res_bind]. rewrite E.
  split; [done |]. split.
  - apply pi_placed in Hp'. split; [by eapply placed_safe |].
    intros b Hb'. destruct (group_exists m Hf b) as (b0 & x & Hr & Hg); [done |].
    destruct Hr as [Hx Hn]. destruct (Hin b0 x Hx) as (s & e & Hx').
    specialize (Hroots _ Hx' Hn). cbn [buffer with_colocation_times] in Hroots.
    rewrite (f_id _ Hf b0 x Hx) in Hroots. apply list_elem_of_fmap in Hroots as ([b1 c] & -> & Hc).
    exists c. by apply (placed_in m Hf a M (chunk_map (result_ h)) Hm0' ps (result_ h') b b1 x).
  - intros b Hb' Hnone. apply (pl_map _ _ _ _ _ _ (pi_placed _ _ _ _ _ _ Hp')). left.
    destruct (Hmapped b) as [[? ?] | [c Hc]]; [by apply Hids | by simplify_eq |].
    rewrite Hc. by destruct (Hm0 b c Hc) as [-> _].
Qed.

(** ** The properties *)

(** C5: a simulation that defines no buffer twice, with sizes of at most [M]
    bytes and no more events than 64-bit offsets allow, always finishes.  For
    every packing strategy, even one with a comparison of the caller's own,
    [Finish] gives each buffer an aligned chunk of at least its size inside of
    the heap, colocated buffers the same one, buffers that are live at a common
    time and not colocated disjoint ones, and 0-sized buffers the empty chunk at
    0; the heap ends where its last chunk does. *)
Theorem Finish_safe a M p ty es h :
  simulated a M p ty es h →
  ∃ r, Finish h = Ok (MkResult [r] (heap_size r)) ∧ safe_result a (buffer_intervals_ h) r ∧
    ∀ b, b ∈ defined es → buffer_intervals_ h !! b = None → chunk_map r !! b = Some (MkChunk 0 0).
Proof. apply Finish_spec. Qed.

(** C8: the chunk found for a buffer starts where the smallest free chunk with
    room for the largest of its colocations starts, the first one of those of
    equal size, so that it is aligned and touches no chunk in use while any of
    the colocations is live; there always is one, at most one alignment above
    the highest chunk. *)
Theorem FindChunkCandidate_best_fit h x cs ys M B :
  0 < alignment h → 0 < buffer_size x → 0 ≤ B → B + alignment h + M ≤ int64_max →
  ok (interval_tree_ h) →
  GetTransitiveColocations (buffer_intervals_ h) x = Ok cs →
  intervals_at (buffer_intervals_ h) cs = Ok ys →
  GetMaxColocationSize (buffer_intervals_ h) x = Ok M → buffer_size x ≤ M →
  (∀ c, in_use (interval_tree_ h) (x :: ys) c → valid_chunk B c) →
  ∃ fc p, MakeFreeChunks h x M = Ok fc ∧ best_fit fc M p ∧
    FindChunkCandidate h x (-1) = Ok (MkChunk p.1 (buffer_size x)) ∧
    0 ≤ p.1 ∧ (alignment h | p.1) ∧ p.1 ≤ align (alignment h) B ∧
    ∀ c, in_use (interval_tree_ h) (x :: ys) c → clear_of p.1 (p.1 + M) c.
Proof. apply FindChunkCandidate_spec. Qed.

(** ** A simulation *)

(** Two groups, one of them with two buffers, a 0-sized buffer and one that
    comes after the others. *)
Definition demo_events : list event :=
  [EAlloc 1 10; EAlloc 2 20; EShareWith 3 1 15; EFree 1 10; EAlloc 4 0; EFree 2 20;
   EFree 3 15; EAlloc 5 8; EFree 5 8].

Definition demo_heap : Heap :=
  match h0 ← new_heap 4 kSpatial kAll; run h0 demo_events with
  | Ok h => h
  | Fail _ => MkHeap ∅ (MkHeapResult ∅ 0) Leaf 1 0 kSpatial kAll
  end.

Lemma demo_simulated : simulated 4 20 kSpatial kAll demo_events demo_heap.
Proof.
  split; [vm_compute; reflexivity |].
  split; [apply (bool_decide_eq_true_1 (NoDup (defined demo_events))); vm_compute; reflexivity |].
  split; [| split; [lia | vm_compute; discriminate]].
  unfold demo_events. repeat (constructor; [simpl; lia |]). constructor.
Qed.

(** The group of 1 and 3 is placed at 20, above 2 of the same size or more. *)
Example demo_result :
  (r ← Finish demo_heap; Ok (map_to_list ∘ chunk_map <$> heap_results r, result_heap_size r)) =
  Ok ([[(5, MkChunk 0 8); (3, MkChunk 20 15); (4, MkChunk 0 0); (2, MkChunk 0 20);
       (1, MkChunk 20 15)]], 35).
Proof. vm_compute. reflexivity. Qed.

Lemma Finish_safe_witness :
  simulated 4 20 kSpatial kAll demo_events demo_heap ∧
  ∃ r, Finish demo_heap = Ok (MkResult [r] (heap_size r)) ∧ safe_result 4 (buffer_intervals_ demo_heap) r ∧
    ∀ b, b ∈ defined demo_events → buffer_intervals_ demo_heap !! b = None →
      chunk_map r !! b = Some (MkChunk 0 0).
Proof.
  split; [apply demo_simulated |].
  apply (Finish_safe 4 20 kSpatial kAll demo_events demo_heap). apply demo_simulated.
Defined.

(** The intervals of the simulation, with chunks of other buffers in the tree. *)
Definition demo_placing : Heap := with_result demo_heap (MkHeapResult ∅ 32) demo_tree.

Definition demo_interval : BufferInterval := MkBufferInterval 1 10 0 2 [3] true (-1) (-1).

Lemma demo_in_use ys c : in_use demo_tree ys c → valid_chunk 32 c.
Proof.
  intros (y & d & _ & Hd & _ & <-). revert d Hd. apply Forall_forall. vm_compute.
  repeat constructor; discriminate.
Qed.

Lemma FindChunkCandidate_best_fit_witness :
  FindChunkCandidate demo_placing demo_interval (-1) = Ok (MkChunk 32 10) ∧
  ∃ fc p, MakeFreeChunks demo_placing demo_interval 15 = Ok fc ∧ best_fit fc 15 p ∧
    FindChunkCandidate demo_placing demo_interval (-1) = Ok (MkChunk p.1 10).
Proof.
  split; [vm_compute; reflexivity |].
  destruct (FindChunkCandidate_best_fit demo_placing demo_interval {[3]}
    [MkBufferInterval 3 15 2 5 [] false (-1) (-1)] 15 32) as (fc & p & H1 & H2 & H3 & _);
    [reflexivity | reflexivity | lia | vm_compute; discriminate |
     apply built_ok, demo_built | vm_compute; reflexivity | vm_compute; reflexivity |
     vm_compute; reflexivity | vm_compute; discriminate | intros c; apply demo_in_use |].
  exists fc, p. split; [exact H1 |]. split; [exact H2 | exact H3].
Defined.

End HeapCorrect.
