(* ===== verification/HeapChunks.v ===== *)
(** * The free chunks of a heap

    Models [FreeChunksManager] of
    [xla/service/heap_simulator/free_chunks_manager.h] and [.cc]: the free part of
    an address space, ordered by offset and, lazily, by size.  A [btree_set] is
    the list of its elements in order.  The theorem at the end shows that the
    manager is the set of its free addresses. *)
From S2P Require Import Prelude HeapTree HeapFinder HeapSim HeapFree.

Module HeapChunks.
Import HeapSim HeapFree.

(** ** Sets ordered by a tuple *)

Section OrderedSet.
Context {A : Type} (key : A → list Z).

Definition less (x y : A) : bool := tuple_lt (key x) (key y).

(** [insert]: an equivalent element stays. *)
Fixpoint set_insert (x : A) (l : list A) : list A :=
  match l with
  | [] => [x]
  | y :: l' => if less x y then x :: l else if less y x then y :: set_insert x l' else l
  end.

(** The elements before [lower_bound(x)], the last of them first, and those from
    it on. *)
Fixpoint set_lower_bound (x : A) (before l : list A) : list A * list A :=
  match l with
  | [] => (before, [])
  | y :: l' => if less y x then set_lower_bound x (y :: before) l' else (before, l)
  end.
End OrderedSet.

(** ** The manager *)

Record MemoryChunk := MkMemoryChunk {
  m_offset : Z;
  m_end : Z;
  aligned_chunk_offset : Z;
  m_id : Z
}.

(** The two-argument constructor. *)
Definition query (offset end_ : Z) : MemoryChunk := MkMemoryChunk offset end_ (-1) (-1).

Definition aligned_size (c : MemoryChunk) : Z := m_end c - aligned_chunk_offset c.

Definition offset_key (c : MemoryChunk) : list Z := [m_offset c; m_end c].
Definition size_key (c : MemoryChunk) : list Z := [aligned_size c; m_offset c; m_id c].

Record FreeChunksManager := MkManager {
  free_chunks_by_offset_ : list MemoryChunk;
  free_chunks_by_size_ : list MemoryChunk;
  free_chunks_to_be_removed_ : gset Z;
  next_free_chunk_id_ : Z
}.

Section Manager.
Context (chunk_alignment_ : Z → res Z).

Definition new_manager : res FreeChunksManager :=
  aligned ← chunk_alignment_ 0;
  let real_free_chunk := MkMemoryChunk 0 (int64_max - 3) aligned 2 in
  let by_offset := foldl (λ l c, set_insert offset_key c l) []
    [MkMemoryChunk (-2) (-1) (-1) 1; real_free_chunk;
     MkMemoryChunk (int64_max - 2) (int64_max - 1) (-1) 3] in
  Ok (MkManager by_offset [real_free_chunk] ∅ 4).

Definition AddNewFreeChunk (offset end_ : Z) (m : FreeChunksManager) : res FreeChunksManager :=
  aligned ← chunk_alignment_ offset;
  let id := next_free_chunk_id_ m in
  next ← s64 (id + 1);
  let chunk := MkMemoryChunk offset end_ aligned id in
  Ok (MkManager (set_insert offset_key chunk (free_chunks_by_offset_ m))
        (set_insert size_key chunk (free_chunks_by_size_ m))
        (free_chunks_to_be_removed_ m) next).

(** The chunk the iterator points at, and the chunks before and after it. *)
Definition RemoveFreeChunk (before : list MemoryChunk) (it : MemoryChunk)
    (after : list MemoryChunk) (m : FreeChunksManager) : FreeChunksManager :=
  MkManager (reverse before ++ after) (free_chunks_by_size_ m)
    ({[m_id it]} ∪ free_chunks_to_be_removed_ m) (next_free_chunk_id_ m).

(** [--it] on [begin()] is undefined. *)
Definition Allocate (offset end_ : Z) (m : FreeChunksManager) : res FreeChunksManager :=
  match set_lower_bound offset_key (query offset int64_max) [] (free_chunks_by_offset_ m) with
  | ([], _) => Fail Undefined
  | (free_chunk :: before, after) =>
      guard_res ((m_offset free_chunk <=? offset) && (end_ <=? m_end free_chunk)) CheckFailed;;
      let m := RemoveFreeChunk before free_chunk after m in
      m ← (if m_end free_chunk >? end_ then AddNewFreeChunk end_ (m_end free_chunk) m else Ok m);
      if m_offset free_chunk <? offset then AddNewFreeChunk (m_offset free_chunk) offset m
      else Ok m
  end.

Definition Deallocate (offset end_ : Z) (m : FreeChunksManager) : res FreeChunksManager :=
  end_1 ← s64 (end_ + 1);
  let '(right_, m) :=
    match set_lower_bound offset_key (query end_ end_1) [] (free_chunks_by_offset_ m) with
    | (before, free_chunk_above :: after) =>
        if m_offset free_chunk_above =? end_
        then (m_end free_chunk_above, RemoveFreeChunk before free_chunk_above after m)
        else (end_, m)
    | _ => (end_, m)
    end in
  offset_1 ← s64 (offset + 1);
  match set_lower_bound offset_key (query offset offset_1) [] (free_chunks_by_offset_ m) with
  | ([], _) => Fail Undefined
  | (free_chunk_below :: before, after) =>
      if m_end free_chunk_below >=? offset
      then AddNewFreeChunk (m_offset free_chunk_below) (Z.max right_ (m_end free_chunk_below))
             (RemoveFreeChunk before free_chunk_below after m)
      else AddNewFreeChunk offset right_ m
  end.

(** The removed chunks at the front erased. *)
Fixpoint skip_removed (removed : gset Z) (l : list MemoryChunk) : list MemoryChunk :=
  match l with
  | [] => []
  | c :: l' => if decide (m_id c ∈ removed) then skip_removed removed l' else l
  end.

Definition FindJustLargeEnough (size : Z) (m : FreeChunksManager)
    : option MemoryChunk * FreeChunksManager :=
  let '(before, from) := set_lower_bound size_key (MkMemoryChunk 0 0 (- size) (-1)) []
    (free_chunks_by_size_ m) in
  let rest := skip_removed (free_chunks_to_be_removed_ m) from in
  (head rest,
   MkManager (free_chunks_by_offset_ m) (reverse before ++ rest) (free_chunks_to_be_removed_ m)
     (next_free_chunk_id_ m)).

(** Without the two dummy chunks, as offset and end. *)
Definition GetFreeChunks (m : FreeChunksManager) : res (list (Z * Z)) :=
  match free_chunks_by_offset_ m with
  | _ :: c :: l =>
      Ok ((λ c, (m_offset c, m_end c)) <$> take (length l) (c :: l))
  | _ => Fail Undefined
  end.
End Manager.

(** ** Lemmas on ordered sets *)

Lemma tuple_lt_irrefl a : tuple_lt a a = false.
Proof. induction a as [| x a IH]; [done |]. cbn [tuple_lt]. by rewrite Z.ltb_irrefl. Qed.

Lemma tuple_lt_trans a b c : tuple_lt a b = true → tuple_lt b c = true → tuple_lt a c = true.
Proof.
  revert b c. induction a as [| x a IH]; intros [| y b] [| z c]; cbn [tuple_lt]; try done.
  destruct (Z.ltb_spec x y), (Z.ltb_spec y z), (Z.ltb_spec x z), (Z.ltb_spec y x),
    (Z.ltb_spec z y), (Z.ltb_spec z x); try done; try lia; intros; [].
  by eapply IH.
Qed.

Lemma tuple_lt_total a b :
  length a = length b → tuple_lt a b = false → tuple_lt b a = false → a = b.
Proof.
  revert b. induction a as [| x a IH]; intros [| y b]; cbn [tuple_lt length]; try done.
  intros Hl. destruct (Z.ltb_spec x y), (Z.ltb_spec y x); try done; intros H1 H2; [].
  rewrite (IH b) by (done || lia). f_equal. lia.
Qed.

Section OrderedSetProofs.
Context {A : Type} (key : A → list Z).

Lemma less_irrefl x : less key x x = false.
Proof. apply tuple_lt_irrefl. Qed.

Lemma less_trans x y z : less key x y = true → less key y z = true → less key x z = true.
Proof. apply tuple_lt_trans. Qed.

Lemma less_asym x y : less key x y = true → less key y x = false.
Proof.
  intros H. destruct (less key y x) eqn:E; [| done].
  by rewrite <- (less_irrefl x), (less_trans x y x).
Qed.

Lemma set_lower_bound_at x l1 l2 before :
  Forall (λ y, less key y x = true) l1 →
  match l2 with [] => True | y :: _ => less key y x = false end →
  set_lower_bound key x before (l1 ++ l2) = (reverse l1 ++ before, l2).
Proof.
  intros H1 H2. revert before. induction H1 as [| y l1 Hy _ IH]; intros before; cbn [app set_lower_bound].
  - destruct l2 as [| y l2]; [done |]. cbn [set_lower_bound]. by rewrite H2.
  - rewrite Hy, IH, reverse_cons, <- app_assoc. done.
Qed.

Lemma set_insert_at x l1 l2 :
  Forall (λ y, less key y x = true) l1 →
  match l2 with [] => True | y :: _ => less key x y = true end →
  set_insert key x (l1 ++ l2) = l1 ++ x :: l2.
Proof.
  intros H1 H2. induction H1 as [| y l1 Hy _ IH]; cbn [app set_insert].
  - destruct l2 as [| y l2]; [done |]. cbn [set_insert]. by rewrite H2.
  - by rewrite (less_asym y x), Hy, IH.
Qed.

(** Where [lower_bound] splits the set. *)
Lemma sorted_split x l :
  StronglySorted (λ y z, less key y z = true) l →
  ∃ l1 l2, l = l1 ++ l2 ∧ Forall (λ y, less key y x = true) l1 ∧
    Forall (λ y, less key y x = false) l2.
Proof.
  induction 1 as [| y l _ (l1 & l2 & -> & H1 & H2) Hy]; [by exists [], [] |].
  destruct (less key y x) eqn:E; [exists (y :: l1), l2; split_and!; [done | by constructor | done] |].
  exists [], (y :: l1 ++ l2). split_and!; [done | constructor |]. constructor; [done |].
  eapply Forall_impl; [exact Hy |]. simpl. intros z Hz. destruct (less key z x) eqn:E'; [| done].
  by rewrite <- E, (less_trans y z x).
Qed.

(** A new element leaves the set sorted. *)
Lemma set_insert_sorted x l :
  StronglySorted (λ y z, less key y z = true) l →
  (∀ y, y ∈ l → less key x y = true ∨ less key y x = true) →
  StronglySorted (λ y z, less key y z = true) (set_insert key x l) ∧
  ∀ y, y ∈ set_insert key x l ↔ y = x ∨ y ∈ l.
Proof.
  intros Hs Hx. induction Hs as [| y l Hs IH Hy]; cbn [set_insert].
  - split; [by repeat constructor |]. set_solver.
  - destruct (less key x y) eqn:E.
    + split; [| set_solver]. constructor; [by constructor |]. constructor; [done |].
      eapply Forall_impl; [exact Hy |]. simpl. intros z. by apply less_trans.
    + destruct (Hx y) as [? | E']; [by left | congruence |]. rewrite E'.
      destruct IH as [H1 H2]; [intros; apply Hx; by right |]. split; [| set_solver].
      constructor; [done |]. apply Forall_forall. intros z [-> | Hz]%H2; [done |].
      rewrite Forall_forall in Hy. by apply Hy.
Qed.
End OrderedSetProofs.

(** ** The invariant *)

Definition first_chunk : MemoryChunk := MkMemoryChunk (-2) (-1) (-1) 1.
Definition last_chunk : MemoryChunk :=
  MkMemoryChunk (int64_max - 2) (int64_max - 1) (-1) 3.

(** A gap lies between the chunks. *)
Definition sep (c d : MemoryChunk) : Prop := m_end c < m_offset d.

Definition free_at (real : list MemoryChunk) (z : Z) : Prop :=
  ∃ c, c ∈ real ∧ m_offset c ≤ z < m_end c.

Record managed (a : Z) (m : FreeChunksManager) (real : list MemoryChunk) : Prop := {
  g_offsets : free_chunks_by_offset_ m = first_chunk :: real ++ [last_chunk];
  g_sep : StronglySorted sep real;
  g_chunk c : c ∈ real → 0 ≤ m_offset c < m_end c ∧ m_end c ≤ int64_max - 3 ∧
    m_offset c + a ≤ int64_max ∧ aligned_chunk_offset c = align a (m_offset c) ∧ 0 ≤ m_id c;
  g_sizes : StronglySorted (λ c d, less size_key c d = true) (free_chunks_by_size_ m);
  g_live c : c ∈ real ↔ c ∈ free_chunks_by_size_ m ∧ m_id c ∉ free_chunks_to_be_removed_ m;
  g_ids c d : c ∈ free_chunks_by_size_ m → d ∈ free_chunks_by_size_ m → m_id c = m_id d → c = d;
  g_fresh c : c ∈ free_chunks_by_size_ m → m_id c < next_free_chunk_id_ m;
  g_removed i : i ∈ free_chunks_to_be_removed_ m → i < next_free_chunk_id_ m;
  g_next : 0 ≤ next_free_chunk_id_ m
}.

Lemma less_offset c d : m_offset c < m_offset d → less offset_key c d = true.
Proof. intros H. unfold less. simpl. by rewrite (proj2 (Z.ltb_lt _ _)). Qed.

Lemma not_less_offset c d : m_offset d < m_offset c → less offset_key c d = false.
Proof. intros H. by apply less_asym, less_offset. Qed.

Lemma sep_app r1 r2 :
  StronglySorted sep (r1 ++ r2) ↔
  StronglySorted sep r1 ∧ StronglySorted sep r2 ∧ (∀ c d, c ∈ r1 → d ∈ r2 → sep c d).
Proof. rewrite StronglySorted_app. naive_solver. Qed.

Section Managed.
Context (a : Z) (Ha : 0 < a) (chunk_alignment_ : Z → res Z).
Context (Halign : ∀ z, 0 ≤ z → z + a ≤ int64_max → chunk_alignment_ z = Ok (align a z)).

(** ** The two changes of the set *)

Lemma managed_remove m r1 c r2 :
  managed a m (r1 ++ c :: r2) →
  managed a (RemoveFreeChunk (reverse (first_chunk :: r1)) c (r2 ++ [last_chunk]) m) (r1 ++ r2).
Proof.
  intros [H1 H2 H3 H4 H5 H6 H7 H8 H9].
  assert (Hc : c ∈ free_chunks_by_size_ m) by (apply H5; set_solver).
  assert (Hother : ∀ d, d ∈ r1 ++ r2 → d ≠ c).
  { apply sep_app in H2 as (_ & H2 & H12). inversion H2 as [| ? ? _ Hc2]; subst.
    rewrite Forall_forall in Hc2.
    assert (m_offset c < m_end c) by (apply H3; set_solver). unfold sep in *.
    intros d Hd ->. apply elem_of_app in Hd as [Hd | Hd].
    - specialize (H12 c c Hd). ospecialize (H12 _); [by left | lia].
    - specialize (Hc2 c Hd). lia. }
  constructor; cbn [RemoveFreeChunk free_chunks_by_offset_ free_chunks_by_size_
    free_chunks_to_be_removed_ next_free_chunk_id_]; try done.
  - rewrite reverse_involutive. cbn [app]. by rewrite <- app_assoc.
  - apply sep_app in H2 as (Hs1 & H2 & H12). inversion H2; subst. apply sep_app.
    split_and!; [done | done |]. intros; apply H12; [done | by right].
  - intros d Hd. apply H3. set_solver.
  - intros d. split.
    + intros Hd. assert (d ∈ r1 ++ c :: r2) as [Hd1 Hd2]%H5 by set_solver.
      split; [done |]. intros [E%elem_of_singleton | ?]%elem_of_union; [| done].
      by apply (Hother d Hd), H6.
    + intros [Hd Hn]. assert (d ∈ r1 ++ c :: r2) by (apply H5; set_solver). set_solver.
  - intros i [->%elem_of_singleton | Hi]%elem_of_union; auto.
Qed.

Lemma AddNewFreeChunk_managed m r1 r2 o e :
  managed a m (r1 ++ r2) → 0 ≤ o < e → e ≤ int64_max - 3 → o + a ≤ int64_max →
  next_free_chunk_id_ m + 1 ≤ int64_max →
  Forall (λ c, m_end c < o) r1 → Forall (λ c, e < m_offset c) r2 →
  ∃ m' n, AddNewFreeChunk chunk_alignment_ o e m = Ok m' ∧ m_offset n = o ∧ m_end n = e ∧
    managed a m' (r1 ++ n :: r2) ∧ next_free_chunk_id_ m' = next_free_chunk_id_ m + 1.
Proof.
  intros Hm Ho He Hoa Hid Hr1 Hr2. pose proof Hm as [H1 H2 H3 H4 H5 H6 H7 H8 H9].
  unfold AddNewFreeChunk. rewrite Halign by lia. cbn [mbind res_bind].
  rewrite s64_in by int_lia. cbn [mbind res_bind].
  set (n := MkMemoryChunk o e (align a o) (next_free_chunk_id_ m)).
  eexists _, n. split; [done |]. split; [done |]. split; [done |]. split; [| done].
  destruct (set_insert_sorted size_key n (free_chunks_by_size_ m) H4) as [Hs Hin].
  { intros c Hc. destruct (less size_key n c) eqn:E1; [by left |].
    destruct (less size_key c n) eqn:E2; [by right |].
    pose proof (tuple_lt_total (size_key n) (size_key c) eq_refl E1 E2) as E. injection E as _ _ E. apply H7 in Hc.
    simpl in E. lia. }
  constructor; cbn [free_chunks_by_offset_ free_chunks_by_size_ free_chunks_to_be_removed_
    next_free_chunk_id_]; try done.
  - rewrite H1.
    replace (first_chunk :: (r1 ++ r2) ++ [last_chunk])
      with ((first_chunk :: r1) ++ (r2 ++ [last_chunk])) by (cbn [app]; by rewrite <- app_assoc).
    rewrite set_insert_at.
    + cbn [app]. by rewrite <- app_assoc.
    + constructor; [apply less_offset; simpl; lia |]. rewrite Forall_forall in Hr1 |- *.
      intros c Hc. apply less_offset. specialize (Hr1 c Hc). simpl in *.
      assert (m_offset c < m_end c) by (apply H3; set_solver). lia.
    + destruct r2 as [| c r2]; cbn [app].
      * apply less_offset. simpl. lia.
      * apply Forall_cons in Hr2 as [Hc _]. apply less_offset. simpl in *. lia.
  - apply sep_app in H2 as (S1 & S2 & S12). apply sep_app. rewrite !Forall_forall in Hr1, Hr2.
    split; [done |]. split.
    + constructor; [done |]. apply Forall_forall. intros c Hc. unfold sep. simpl. auto.
    + intros c d Hc [-> | Hd]%elem_of_cons; [unfold sep; simpl; auto | auto].
  - intros c Hc. assert (c ∈ r1 ++ r2 ∨ c = n) as [Hc' | ->] by set_solver; [auto |].
    simpl. split_and!; try done; lia.
  - intros c. rewrite Hin. split.
    + intros Hc. assert (c ∈ r1 ++ r2 ∨ c = n) as [Hc' | ->] by set_solver.
      * apply H5 in Hc' as [? ?]. split; [by right | done].
      * split; [by left |]. intros Hr%H8. simpl in Hr. lia.
    + intros [[-> | Hc] Hn]; [set_solver |]. assert (c ∈ r1 ++ r2) by by apply H5. set_solver.
  - intros c d [-> | Hc]%Hin [-> | Hd]%Hin; [done | | | by apply H6].
    + intros E. apply H7 in Hd. simpl in E. lia.
    + intros E. apply H7 in Hc. simpl in E. lia.
  - intros c [-> | Hc]%Hin; [simpl; lia |]. apply H7 in Hc. lia.
  - intros i Hi%H8. lia.
  - lia.
Qed.

(** ** The operations *)

(** The chunks at or below an offset, and those above it. *)
Lemma below_above real o :
  StronglySorted sep real → (∀ c, c ∈ real → m_offset c < m_end c) →
  ∃ r1 r2, real = r1 ++ r2 ∧ Forall (λ c, m_offset c ≤ o) r1 ∧ Forall (λ c, o < m_offset c) r2.
Proof.
  induction 1 as [| c real _ IH Hc]; intros Hpos; [by exists [], [] |].
  destruct IH as (r1 & r2 & -> & H1 & H2); [intros; apply Hpos; by right |].
  assert (m_offset c < m_end c) by (apply Hpos; by left).
  destruct (decide (m_offset c ≤ o)).
  - exists (c :: r1), r2. split; [done |]. split; [by constructor | done].
  - exists [], (c :: r1 ++ r2). split; [done |]. split; [constructor |]. constructor; [lia |].
    eapply Forall_impl; [exact Hc |]. unfold sep. simpl. intros; lia.
Qed.

Lemma lower_bound_at m r1 r2 o e :
  managed a m (r1 ++ r2) → 0 ≤ o < int64_max - 2 →
  Forall (λ c, m_offset c < o ∨ m_offset c = o ∧ m_end c < e) r1 →
  Forall (λ c, o < m_offset c ∨ o = m_offset c ∧ e ≤ m_end c) r2 →
  set_lower_bound offset_key (query o e) [] (free_chunks_by_offset_ m) =
    (reverse (first_chunk :: r1), r2 ++ [last_chunk]).
Proof.
  intros Hm Ho H1 H2. rewrite (g_offsets _ _ _ Hm).
  replace (first_chunk :: (r1 ++ r2) ++ [last_chunk])
    with ((first_chunk :: r1) ++ (r2 ++ [last_chunk])) by (cbn [app]; by rewrite <- app_assoc).
  rewrite set_lower_bound_at; [by rewrite app_nil_r | |].
  - constructor; [apply less_offset; simpl; lia |]. eapply Forall_impl; [exact H1 |].
    simpl. intros c [? | [E ?]]; [by apply less_offset |]. unfold less. simpl.
    by rewrite E, Z.ltb_irrefl, (proj2 (Z.ltb_lt _ _)).
  - destruct r2 as [| c r2]; cbn [app]; [apply not_less_offset; simpl; lia |].
    apply Forall_cons in H2 as [[? | [E ?]] _]; [by apply not_less_offset |]. unfold less. simpl.
    rewrite E, Z.ltb_irrefl. destruct (Z.ltb_spec (m_end c) e); [lia |]. by destruct (_ <? _).
Qed.

Lemma free_at_cons c l z : free_at (c :: l) z ↔ m_offset c ≤ z < m_end c ∨ free_at l z.
Proof. unfold free_at. setoid_rewrite elem_of_cons. naive_solver. Qed.

Lemma free_at_app l1 l2 z : free_at (l1 ++ l2) z ↔ free_at l1 z ∨ free_at l2 z.
Proof. unfold free_at. setoid_rewrite elem_of_app. naive_solver. Qed.

(** [Allocate] of a range inside a free chunk carves it out. *)
Lemma Allocate_spec m real o e c :
  managed a m real → c ∈ real → m_offset c ≤ o ≤ e → e ≤ m_end c → (o < e ∨ o = m_offset c) →
  e + a ≤ int64_max → next_free_chunk_id_ m + 2 ≤ int64_max →
  ∃ m' real', Allocate chunk_alignment_ o e m = Ok m' ∧ managed a m' real' ∧
    (∀ z, free_at real' z ↔ free_at real z ∧ ¬ (o ≤ z < e)) ∧
    next_free_chunk_id_ m' ≤ next_free_chunk_id_ m + 2.
Proof.
  intros Hm Hc Ho He Hoe Hea Hid. apply list_elem_of_split in Hc as (r1 & r2 & ->).
  pose proof (g_chunk _ _ _ Hm) as Hck. pose proof (g_sep _ _ _ Hm) as Hsep.
  apply sep_app in Hsep as (_ & Hsep & H12). inversion Hsep as [| ? ? _ Hc2]; subst.
  destruct (Hck c) as (Hc0 & HcM & Hca & _); [set_solver |]. unfold sep in *.
  rewrite Forall_forall in Hc2.
  assert (Hr1 : ∀ d, d ∈ r1 → m_offset d < m_end d ∧ m_end d < m_offset c).
  { intros d Hd. split; [apply Hck; set_solver |]. apply H12; [done | by left]. }
  assert (Hm' : managed a m ((r1 ++ [c]) ++ r2)) by (by rewrite <- app_assoc).
  unfold Allocate. rewrite (lower_bound_at m (r1 ++ [c]) r2) by (first [done | lia |
    apply Forall_app; split; [apply Forall_forall; intros d Hd; specialize (Hr1 d Hd); lia |
      apply Forall_singleton; lia] |
    apply Forall_forall; intros d Hd; specialize (Hc2 d Hd); lia]).
  rewrite app_comm_cons, reverse_snoc.
  rewrite (proj2 (Z.leb_le _ _)), (proj2 (Z.leb_le e _)) by lia. cbn [andb guard_res mbind res_bind].
  apply managed_remove in Hm. set (m1 := RemoveFreeChunk _ _ _ m) in *.
  assert (Hid1 : next_free_chunk_id_ m1 = next_free_chunk_id_ m) by done.
  (* The part above. *)
  assert (∃ m2 k, (if m_end c >? e then AddNewFreeChunk chunk_alignment_ e (m_end c) m1 else Ok m1) =
    Ok m2 ∧ managed a m2 (r1 ++ k ++ r2) ∧ (∀ z, free_at k z ↔ e ≤ z < m_end c) ∧
    Forall (λ d, e ≤ m_offset d) k ∧ next_free_chunk_id_ m2 ≤ next_free_chunk_id_ m + 1)
    as (m2 & k & -> & Hm2 & Hk & Hke & Hid2).
  { destruct (Z.gtb_spec (m_end c) e).
    - destruct (AddNewFreeChunk_managed m1 r1 r2 e (m_end c)) as (m2 & n & E & En1 & En2 & Hm2 & Hid2);
        [done | lia | done | done | lia | | |].
      + apply Forall_forall. intros d Hd. specialize (Hr1 d Hd). lia.
      + apply Forall_forall. intros d Hd. by apply Hc2.
      + exists m2, [n]. split; [done |]. split; [done |]. split; [| split; [| lia]].
        * intros z. rewrite free_at_cons. unfold free_at. setoid_rewrite elem_of_nil. naive_solver lia.
        * apply Forall_singleton. lia.
    - exists m1, []. split; [done |]. split; [done |]. split; [| split; [done | lia]].
      intros z. unfold free_at. setoid_rewrite elem_of_nil. split; [naive_solver | lia]. }
  cbn [mbind res_bind].
  assert (Hfree : ∀ z d, d ∈ r1 ∨ d ∈ r2 → m_offset d ≤ z < m_end d → ¬ (o ≤ z < e)).
  { intros z d [Hd | Hd] Hz; [specialize (Hr1 d Hd) | specialize (Hc2 d Hd)]; lia. }
  assert (Hrest : ∀ z, free_at r1 z ∨ free_at r2 z → ¬ (o ≤ z < e)).
  { intros z [(d & Hd & Hz) | (d & Hd & Hz)]; eauto. }
  destruct (Z.ltb_spec (m_offset c) o).
  - destruct (AddNewFreeChunk_managed m2 r1 (k ++ r2) (m_offset c) o)
      as (m3 & n & E & En1 & En2 & Hm3 & Hid3); [done | lia | lia | lia | lia | | |].
    + apply Forall_forall. intros d Hd. by apply Hr1.
    + apply Forall_app. split.
      * eapply Forall_impl; [exact Hke |]. simpl. intros; lia.
      * apply Forall_forall. intros d Hd. specialize (Hc2 d Hd). lia.
    + exists m3, (r1 ++ n :: k ++ r2). split; [done |]. split; [done |]. split; [| lia].
      intros z. specialize (Hrest z). repeat setoid_rewrite free_at_app. repeat setoid_rewrite free_at_cons.
      setoid_rewrite free_at_app. rewrite Hk, En1, En2. intuition lia.
  - exists m2, (r1 ++ k ++ r2). split; [done |]. split; [done |]. split; [| lia].
    intros z. specialize (Hrest z). repeat setoid_rewrite free_at_app. setoid_rewrite free_at_cons.
    rewrite Hk. intuition lia.
Qed.

(** [Allocate] of any other range aborts. *)
Lemma Allocate_aborts m real o e :
  managed a m real → 0 ≤ o ≤ e → o < int64_max - 2 →
  (∀ c, c ∈ real → ¬ (m_offset c ≤ o ∧ e ≤ m_end c)) →
  Allocate chunk_alignment_ o e m = Fail CheckFailed.
Proof.
  intros Hm Ho Hmax Hno. destruct (below_above real o) as (r1 & r2 & -> & H1 & H2);
    [by destruct Hm | intros c Hc; by apply (g_chunk _ _ _ Hm) |].
  unfold Allocate. rewrite (lower_bound_at m r1 r2); [| done | lia | |].
  - destruct r1 as [| c r1 _] using rev_ind.
    + change (reverse [first_chunk]) with [first_chunk]. cbn [m_offset m_end first_chunk].
      by rewrite (proj2 (Z.leb_gt e _)), andb_false_r by lia.
    + rewrite app_comm_cons, reverse_snoc.
      destruct (Z.leb_spec (m_offset c) o), (Z.leb_spec e (m_end c)); try done.
      exfalso. apply (Hno c); [set_solver | lia].
  - apply Forall_forall. intros c Hc. rewrite Forall_forall in H1. specialize (H1 c Hc).
    destruct (g_chunk _ _ _ Hm c) as (_ & ? & _); [set_solver | lia].
  - eapply Forall_impl; [exact H2 |]. simpl. auto.
Qed.

(** The chunks below and above a range that holds no free address. *)
Lemma split_around real o e :
  StronglySorted sep real → (∀ c, c ∈ real → m_offset c < m_end c) → o < e →
  (∀ z, o ≤ z < e → ¬ free_at real z) →
  ∃ r1 r2, real = r1 ++ r2 ∧ Forall (λ c, m_end c ≤ o) r1 ∧ Forall (λ c, e ≤ m_offset c) r2.
Proof.
  intros Hs Hpos Hoe Hno. destruct (below_above real o Hs Hpos) as (r1 & r2 & -> & H1 & H2).
  exists r1, r2. rewrite Forall_forall in H1, H2. split; [done |].
  split; apply Forall_forall; intros c Hc.
  - specialize (H1 c Hc). destruct (decide (m_end c ≤ o)); [done |].
    exfalso. apply (Hno o); [lia |]. exists c. split; [set_solver | lia].
  - specialize (H2 c Hc). destruct (decide (e ≤ m_offset c)); [done |].
    assert (m_offset c < m_end c) by (apply Hpos; set_solver).
    exfalso. apply (Hno (m_offset c)); [lia |]. exists c. split; [set_solver | lia].
Qed.

(** The chunk above the range taken out, when it is adjacent. *)
Lemma take_above m r1 r2 o e :
  managed a m (r1 ++ r2) → 0 ≤ o < e → e ≤ int64_max - 3 →
  Forall (λ c, m_end c ≤ o) r1 → Forall (λ c, e ≤ m_offset c) r2 →
  ∃ m' r2' right_,
    (match set_lower_bound offset_key (query e (e + 1)) [] (free_chunks_by_offset_ m) with
     | (before, free_chunk_above :: after) =>
        if m_offset free_chunk_above =? e
        then (m_end free_chunk_above, RemoveFreeChunk before free_chunk_above after m)
        else (e, m)
     | _ => (e, m)
     end) = (right_, m') ∧ managed a m' (r1 ++ r2') ∧ e ≤ right_ ≤ int64_max - 3 ∧
    Forall (λ c, right_ < m_offset c) r2' ∧
    (∀ z, free_at r2 z ↔ free_at r2' z ∨ e ≤ z < right_) ∧
    next_free_chunk_id_ m' = next_free_chunk_id_ m.
Proof.
  intros Hm Ho He H1 H2. pose proof (g_chunk _ _ _ Hm) as Hck.
  assert (Hno : ∀ z, ¬ e ≤ z < e) by lia.
  rewrite (lower_bound_at m r1 r2); [| done | lia | |].
  2: { apply Forall_forall. intros c Hc. rewrite Forall_forall in H1. specialize (H1 c Hc).
    destruct (Hck c); [set_solver | lia]. }
  2: { apply Forall_forall. intros c Hc. rewrite Forall_forall in H2. specialize (H2 c Hc).
    destruct (Hck c); [set_solver | lia]. }
  destruct r2 as [| c r2]; cbn [app].
  - assert (E : m_offset last_chunk =? e = false) by (apply Z.eqb_neq; simpl; lia).
    rewrite E. exists m, [], e. split_and!; [done | done | lia | lia | constructor | | done].
    intros z. specialize (Hno z). tauto.
  - apply Forall_cons in H2 as [Hc H2]. destruct (Hck c) as (Hc1 & Hc2 & _); [set_solver |].
    pose proof (g_sep _ _ _ Hm) as Hsep. apply sep_app in Hsep as (_ & Hsep & _).
    inversion Hsep as [| ? ? _ Hsc]; subst. unfold sep in Hsc.
    destruct (Z.eqb_spec (m_offset c) e) as [E | E].
    + eexists _, r2, (m_end c). split; [done |]. split; [by apply managed_remove |].
      split; [lia |]. split; [done |]. split; [| done].
      intros z. rewrite free_at_cons, E. tauto.
    + exists m, (c :: r2), e. split_and!; [done | done | lia | lia | | | done].
      * constructor; [lia |]. eapply Forall_impl; [exact Hsc |]. simpl. intros; lia.
      * intros z. specialize (Hno z). tauto.
Qed.

Lemma Deallocate_spec m real o e :
  managed a m real → 0 ≤ o < e → e ≤ int64_max - 3 → o + a ≤ int64_max →
  next_free_chunk_id_ m + 1 ≤ int64_max → (∀ z, o ≤ z < e → ¬ free_at real z) →
  ∃ m' real', Deallocate chunk_alignment_ o e m = Ok m' ∧ managed a m' real' ∧
    (∀ z, free_at real' z ↔ free_at real z ∨ o ≤ z < e) ∧
    next_free_chunk_id_ m' = next_free_chunk_id_ m + 1.
Proof.
  intros Hm Ho He Hoa Hid Hno.
  destruct (split_around real o e) as (r1 & r2 & -> & H1 & H2);
    [by destruct Hm | intros c Hc; by apply (g_chunk _ _ _ Hm) | lia | done |].
  unfold Deallocate. rewrite (s64_in (e + 1)) by int_lia. cbn [mbind res_bind].
  destruct (take_above m r1 r2 o e) as (m1 & r2' & r & E & Hm1 & Hr & Hr2 & Hfree & Hid1); try done.
  rewrite E, (s64_in (o + 1)) by int_lia. cbn [mbind res_bind].
  pose proof (g_chunk _ _ _ Hm1) as Hck.
  rewrite (lower_bound_at m1 r1 r2'); [| done | lia | |].
  2: { apply Forall_forall. intros c Hc. rewrite Forall_forall in H1. specialize (H1 c Hc).
    destruct (Hck c); [set_solver | lia]. }
  2: { eapply Forall_impl; [exact Hr2 |]. simpl. intros; lia. }
  destruct r1 as [| c r1 _] using rev_ind.
  - change (reverse [first_chunk]) with [first_chunk]. cbn [m_offset m_end first_chunk].
    destruct (Z.geb_spec (-1) o); [lia |].
    destruct (AddNewFreeChunk_managed m1 [] r2' o r) as (m' & n & EA & En1 & En2 & Hm' & Hid');
      [done | lia | lia | done | lia | constructor | done |].
    exists m', (n :: r2'). split; [done |]. split; [done |]. split; [| lia].
    intros z. specialize (Hfree z). rewrite free_at_cons, En1, En2. cbn [app]. destruct (Z_lt_le_dec z e); intuition lia.
  - rewrite app_comm_cons, reverse_snoc. apply Forall_app in H1 as [H1 Hc]. rewrite Forall_singleton in Hc.
    rewrite <- app_assoc in Hm1. cbn [app] in Hm1.
    pose proof (g_sep _ _ _ Hm1) as Hsep. apply sep_app in Hsep as (_ & _ & Hsep). unfold sep in Hsep.
    assert (Hc1 : ∀ d, d ∈ r1 → m_end d < m_offset c) by (intros; apply Hsep; [done | by left]).
    destruct (Hck c) as (Hc2 & Hc3 & Hc4 & _); [set_solver |].
    destruct (Z.geb_spec (m_end c) o).
    + assert (Ec : m_end c = o) by lia. rewrite Z.max_l by lia.
      apply managed_remove in Hm1.
      destruct (AddNewFreeChunk_managed (RemoveFreeChunk (reverse (first_chunk :: r1)) c
        (r2' ++ [last_chunk]) m1) r1 r2' (m_offset c) r) as (m' & n & EA & En1 & En2 & Hm' & Hid');
        [done | lia | lia | lia | by rewrite <- Hid1 in Hid | by apply Forall_forall | done |].
      exists m', (r1 ++ n :: r2'). split; [done |]. split; [done |]. split.
      * intros z. specialize (Hfree z). rewrite !free_at_app, !free_at_cons, En1, En2.
        assert (free_at [] z → False) by (intros (? & ?%elem_of_nil & _); done).
        destruct (Z_lt_le_dec z e); intuition lia.
      * rewrite Hid'. cbn [RemoveFreeChunk next_free_chunk_id_]. lia.
    + destruct (AddNewFreeChunk_managed m1 (r1 ++ [c]) r2' o r)
        as (m' & n & EA & En1 & En2 & Hm' & Hid');
        [by rewrite <- app_assoc | lia | lia | done | lia | | done |].
      { apply Forall_app. split; [| by apply Forall_singleton].
        apply Forall_forall. intros d Hd. specialize (Hc1 d Hd). lia. }
      exists m', ((r1 ++ [c]) ++ n :: r2'). split; [done |]. split; [done |]. split; [| lia].
      intros z. specialize (Hfree z). rewrite !(free_at_app (r1 ++ [c])), free_at_cons, En1, En2.
      destruct (Z_lt_le_dec z e); intuition lia.
Qed.

(** The smallest free chunk with room for an aligned block. *)
Lemma FindJustLargeEnough_spec m real n :
  managed a m real → 0 < n →
  ∃ m', (FindJustLargeEnough n m).2 = m' ∧ managed a m' real ∧
    next_free_chunk_id_ m' = next_free_chunk_id_ m ∧
    match (FindJustLargeEnough n m).1 with
    | Some c => c ∈ real ∧ n ≤ aligned_size c ∧
        ∀ d, d ∈ real → n ≤ aligned_size d → aligned_size c ≤ aligned_size d
    | None => ∀ d, d ∈ real → aligned_size d < n
    end.
Proof.
  intros Hm Hn. pose proof Hm as [H1 H2 H3 H4 H5 H6 H7 H8 H9]. unfold FindJustLargeEnough.
  set (q := MkMemoryChunk 0 0 (- n) (-1)).
  destruct (sorted_split size_key q _ H4) as (l1 & l2 & El & Hl1 & Hl2).
  rewrite El. rewrite set_lower_bound_at; [| done | destruct l2; [done | by apply Forall_cons in Hl2 as [? _]]].
  rewrite app_nil_r, reverse_involutive. cbn [fst snd].
  assert (Hskip : ∃ k, l2 = k ++ skip_removed (free_chunks_to_be_removed_ m) l2 ∧
    Forall (λ c, m_id c ∈ free_chunks_to_be_removed_ m) k ∧
    match skip_removed (free_chunks_to_be_removed_ m) l2 with
    | [] => True | c :: _ => m_id c ∉ free_chunks_to_be_removed_ m end).
  { clear. induction l2 as [| c l2 (k & E & Hk & Hr)]; [by exists [] |]. cbn [skip_removed].
    case_decide; [| by exists []]. exists (c :: k). rewrite E at 1. split; [done |].
    split; [by constructor | done]. }
  destruct Hskip as (k & Ek & Hk & Hr). set (rest := skip_removed _ l2) in *.
  assert (Hsub : ∀ c, c ∈ l1 ++ rest → c ∈ free_chunks_by_size_ m).
  { intros c Hc. rewrite El, Ek. set_solver. }
  assert (Hkeep : ∀ c, c ∈ real ↔ c ∈ l1 ++ rest ∧ m_id c ∉ free_chunks_to_be_removed_ m).
  { intros c. rewrite H5, El, Ek, !elem_of_app. rewrite Forall_forall in Hk. naive_solver. }
  assert (Hs : StronglySorted (λ c d, less size_key c d = true) (l1 ++ rest)).
  { rewrite El, Ek in H4. apply StronglySorted_app in H4 as (S12 & S1 & S2).
    apply StronglySorted_app in S2 as (_ & _ & S2). apply StronglySorted_app. set_solver. }
  eexists. split; [done |]. split; [| split; [done |]].
  { constructor; cbn [free_chunks_by_offset_ free_chunks_by_size_ free_chunks_to_be_removed_
      next_free_chunk_id_]; try done; auto. }
  (* What is before the query is too small. *)
  assert (Hsmall : ∀ d, d ∈ real → n ≤ aligned_size d → d ∈ rest).
  { intros d Hd Hdn. apply Hkeep in Hd as Hd'. destruct Hd' as [[Hd1 | Hd2]%elem_of_app _]; [| done].
    rewrite Forall_forall in Hl1. specialize (Hl1 d Hd1). destruct (H3 d Hd) as (? & _ & _ & _ & ?).
    unfold less, size_key in Hl1. cbn [tuple_lt q m_offset m_id] in Hl1.
    replace (aligned_size q) with n in Hl1 by (unfold aligned_size, q; simpl; lia).
    destruct (Z.ltb_spec (aligned_size d) n), (Z.ltb_spec n (aligned_size d)),
      (Z.ltb_spec (m_offset d) 0), (Z.ltb_spec 0 (m_offset d)), (Z.ltb_spec (m_id d) (-1)),
      (Z.ltb_spec (-1) (m_id d)); try done; lia. }
  destruct rest as [| c rest]; cbn [head].
  - intros d Hd. destruct (decide (n ≤ aligned_size d)); [| lia].
    specialize (Hsmall d Hd l). by apply elem_of_nil in Hsmall.
  - split; [apply Hkeep; set_solver |]. split.
    + rewrite Ek in Hl2. apply Forall_app in Hl2 as [_ Hl2]. apply Forall_cons in Hl2 as [Hc _].
      unfold less, size_key in Hc. cbn [tuple_lt] in Hc.
      replace (aligned_size q) with n in Hc by (unfold aligned_size, q; simpl; lia).
      by destruct (Z.ltb_spec (aligned_size c) n).
    + intros d Hd Hdn. apply Hsmall in Hd; [| done]. apply elem_of_cons in Hd as [-> | Hd]; [done |].
      apply StronglySorted_app in Hs as (_ & _ & Hs). inversion Hs as [| ? ? _ Hc]; subst.
      rewrite Forall_forall in Hc. specialize (Hc d Hd). unfold less, size_key in Hc.
      cbn [tuple_lt] in Hc. destruct (Z.ltb_spec (aligned_size c) (aligned_size d)); [lia |].
      by destruct (Z.ltb_spec (aligned_size d) (aligned_size c)).
Qed.

Lemma new_manager_spec :
  a ≤ int64_max - 3 →
  ∃ m real, new_manager chunk_alignment_ = Ok m ∧ managed a m real ∧
    (∀ z, free_at real z ↔ 0 ≤ z < int64_max - 3) ∧ next_free_chunk_id_ m = 4.
Proof.
  intros Hmax. unfold new_manager. rewrite Halign by lia. cbn [mbind res_bind].
  set (c := MkMemoryChunk 0 (int64_max - 3) (align a 0) 2).
  eexists _, [c]. split; [done |]. split; [| split; [| done]].
  - constructor; cbn [free_chunks_by_offset_ free_chunks_by_size_ free_chunks_to_be_removed_
      next_free_chunk_id_].
    + done.
    + by repeat constructor.
    + intros d ->%list_elem_of_singleton. unfold c. cbn [m_offset m_end aligned_chunk_offset m_id].
      split; [int_lia |]. split; [lia |]. split; [lia |]. split; [reflexivity | lia].
    + by repeat constructor.
    + intros d. set_solver.
    + intros d d' ->%list_elem_of_singleton ->%list_elem_of_singleton. done.
    + intros d ->%list_elem_of_singleton. simpl. lia.
    + by intros i ?%elem_of_empty.
    + lia.
  - intros z. rewrite free_at_cons. unfold free_at. setoid_rewrite elem_of_nil. simpl. naive_solver.
Qed.
(** ** The set of free addresses *)

(** A maximal range of free addresses. *)
Definition hole (F : Z → Prop) (o e : Z) : Prop :=
  o < e ∧ (∀ z, o ≤ z < e → F z) ∧ ¬ F (o - 1) ∧ ¬ F e.

(** The manager stands for the set. *)
Definition manages (m : FreeChunksManager) (F : Z → Prop) : Prop :=
  ∃ real, managed a m real ∧ ∀ z, F z ↔ free_at real z.

(** The only chunk that reaches an address next to a chunk is that chunk. *)
Lemma chunk_near m real c d z :
  managed a m real → c ∈ real → d ∈ real → m_offset c - 1 ≤ z ≤ m_end c →
  m_offset d ≤ z < m_end d → d = c.
Proof.
  intros Hm Hc Hd Hz Hz'. apply list_elem_of_split in Hc as (r1 & r2 & ->).
  pose proof (g_sep _ _ _ Hm) as Hsep. apply sep_app in Hsep as (_ & Hs & H12).
  inversion Hs as [| ? ? _ Hc2]; subst. rewrite Forall_forall in Hc2. unfold sep in *.
  apply elem_of_app in Hd as [Hd | [-> | Hd]%elem_of_cons]; [| done |].
  - specialize (H12 d c Hd). ospecialize (H12 _); [by left | lia].
  - specialize (Hc2 d Hd). lia.
Qed.

Lemma free_range m real o e :
  managed a m real → o < e → (∀ z, o ≤ z < e → free_at real z) →
  ∃ c, c ∈ real ∧ m_offset c ≤ o ∧ e ≤ m_end c.
Proof.
  intros Hm Hoe Hall. destruct (Hall o) as (c & Hc & Hco); [lia |].
  exists c. split; [done |]. split; [lia |]. destruct (decide (e ≤ m_end c)); [done |].
  destruct (Hall (m_end c)) as (d & Hd & Hdz); [lia |].
  rewrite (chunk_near m real c d (m_end c)) in Hdz by (done || lia). lia.
Qed.

Lemma hole_chunk m real F o e :
  managed a m real → (∀ z, F z ↔ free_at real z) →
  hole F o e ↔ ∃ c, c ∈ real ∧ m_offset c = o ∧ m_end c = e.
Proof.
  intros Hm HF. unfold hole. setoid_rewrite HF. split.
  - intros (Hoe & Hall & Hlo & Hhi). destruct (free_range m real o e) as (c & Hc & Hco & Hce); try done.
    exists c. split; [done |]. split.
    + destruct (decide (m_offset c = o)); [done |]. destruct Hlo. exists c. split; [done | lia].
    + destruct (decide (m_end c = e)); [done |]. destruct Hhi. exists c. split; [done | lia].
  - intros (c & Hc & <- & <-). destruct (g_chunk _ _ _ Hm c Hc) as [[_ ?] _]. split; [done |].
    split; [intros z Hz; by exists c |]. split; intros (d & Hd & Hz).
    + rewrite (chunk_near m real c d (m_offset c - 1)) in Hz by (done || lia). lia.
    + rewrite (chunk_near m real c d (m_end c)) in Hz by (done || lia). lia.
Qed.

Lemma GetFreeChunks_spec m real :
  managed a m real → GetFreeChunks m = Ok ((λ c, (m_offset c, m_end c)) <$> real).
Proof.
  intros Hm. unfold GetFreeChunks. rewrite (g_offsets _ _ _ Hm).
  destruct real as [| c real]; [done |]. cbn [app]. rewrite length_app. cbn [length].
  rewrite Nat.add_1_r. cbn [take]. by rewrite take_app_length.
Qed.

(** C19: the manager implements the set of its free addresses.  It starts with all
    addresses below the dummy chunk; [Allocate] takes a range of free addresses
    out and aborts when some address of the range is not free; [Deallocate] gives
    a range back and merges it with its neighbours; [FindJustLargeEnough] returns
    the maximal free range with the least room, from its first aligned address
    on, among those with enough of it, and nothing only when there is none, in
    spite of the removed chunks it still holds, and changes no address;
    [GetFreeChunks] lists the maximal free ranges. *)
Theorem FreeChunksManager_refines m F :
  a ≤ int64_max - 3 → manages m F → next_free_chunk_id_ m + 2 ≤ int64_max →
  (∃ m0, new_manager chunk_alignment_ = Ok m0 ∧ manages m0 (λ z, 0 ≤ z < int64_max - 3)) ∧
  (∀ o e, 0 ≤ o < e → e + a ≤ int64_max → (∀ z, o ≤ z < e → F z) →
     ∃ m', Allocate chunk_alignment_ o e m = Ok m' ∧ manages m' (λ z, F z ∧ ¬ o ≤ z < e)) ∧
  (∀ o e z, 0 ≤ o → o ≤ z < e → o < int64_max - 2 → ¬ F z →
     Allocate chunk_alignment_ o e m = Fail CheckFailed) ∧
  (∀ o e, 0 ≤ o < e → e ≤ int64_max - 3 → o + a ≤ int64_max → (∀ z, o ≤ z < e → ¬ F z) →
     ∃ m', Deallocate chunk_alignment_ o e m = Ok m' ∧ manages m' (λ z, F z ∨ o ≤ z < e)) ∧
  (∀ n, 0 < n → manages (FindJustLargeEnough n m).2 F ∧
     match (FindJustLargeEnough n m).1 with
     | Some c => hole F (m_offset c) (m_end c) ∧
         aligned_chunk_offset c = align a (m_offset c) ∧ n ≤ aligned_size c ∧
         ∀ o e, hole F o e → n ≤ e - align a o → aligned_size c ≤ e - align a o
     | None => ∀ o e, hole F o e → e - align a o < n
     end) ∧
  (∃ l, GetFreeChunks m = Ok l ∧ ∀ o e, (o, e) ∈ l ↔ hole F o e).
Proof.
  intros Hmax (real & Hm & HF) Hid. pose proof (g_chunk _ _ _ Hm) as Hck. split_and!.
  - destruct (new_manager_spec Hmax) as (m0 & r0 & E & Hm0 & Hr0 & _). exists m0. split; [done |].
    exists r0. split; [done |]. intros z. by rewrite Hr0.
  - intros o e Ho He Hall. setoid_rewrite HF in Hall.
    destruct (free_range m real o e) as (c & Hc & Hco & Hce); [done | lia | done |].
    destruct (Allocate_spec m real o e c) as (m' & real' & E & Hm' & Hf & _); try done; [lia | lia |].
    exists m'. split; [done |]. exists real'. split; [done |]. intros z. by rewrite Hf, HF.
  - intros o e z Ho Hz Hmx Hn. eapply (Allocate_aborts m real); [done | lia | done |].
    intros c Hc [Hco Hce]. apply Hn, HF. exists c. split; [done | lia].
  - intros o e Ho He Hoa Hno. setoid_rewrite HF in Hno.
    destruct (Deallocate_spec m real o e) as (m' & real' & E & Hm' & Hf & _); try done; [lia |].
    exists m'. split; [done |]. exists real'. split; [done |]. intros z. by rewrite Hf, HF.
  - intros n Hn. destruct (FindJustLargeEnough_spec m real n Hm Hn) as (m' & -> & Hm' & _ & Hfind).
    split; [by exists real |].
    assert (Hhole : ∀ c, c ∈ real → hole F (m_offset c) (m_end c) ∧
      aligned_size c = m_end c - align a (m_offset c)).
    { intros c Hc. split; [apply (hole_chunk m real); [done.. |]; by exists c |].
      destruct (Hck c Hc) as (_ & _ & _ & E & _). unfold aligned_size. by rewrite E. }
    destruct (FindJustLargeEnough n m).1 as [c |].
    + destruct Hfind as (Hc & Hcn & Hmin). destruct (Hhole c Hc) as [Hh E].
      split; [done |]. split; [by apply Hck |]. split; [done |].
      intros o e (d & Hd & <- & <-)%(hole_chunk m real F) Hdn; [| done..].
      destruct (Hhole d Hd) as [_ Ed]. rewrite <- Ed in *. by apply Hmin.
    + intros o e (d & Hd & <- & <-)%(hole_chunk m real F); [| done..].
      destruct (Hhole d Hd) as [_ Ed]. rewrite <- Ed. by apply Hfind.
  - eexists. split; [by apply GetFreeChunks_spec |]. intros o e.
    rewrite (hole_chunk m real F), list_elem_of_fmap by done. naive_solver.
Qed.
End Managed.

(** ** An instance *)

Definition demo_alignment : Z → res Z := ComputeAlignedChunkEnd 4.

Lemma demo_align z : 0 ≤ z → z + 4 ≤ int64_max → demo_alignment z = Ok (align 4 z).
Proof. intros Hz Hm. by apply ComputeAlignedChunkEnd_spec. Qed.

(** The addresses from 5 to 8 are taken. *)
Definition demo_manager : FreeChunksManager :=
  match m ← new_manager demo_alignment; Allocate demo_alignment 5 9 m with
  | Ok m => m
  | Fail _ => MkManager [] [] ∅ 0
  end.

Definition demo_free (z : Z) : Prop := 0 ≤ z < int64_max - 3 ∧ ¬ 5 ≤ z < 9.

Lemma demo_manages : manages 4 demo_manager demo_free.
Proof.
  destruct (new_manager_spec 4 ltac:(lia) demo_alignment demo_align) as (m & real & E & Hm & Hr & Hid);
    [int_lia |].
  destruct (free_range 4 m real 5 9) as (c & Hc & Hco & Hce);
    [done | lia | intros z Hz; apply Hr; int_lia |].
  destruct (Allocate_spec 4 ltac:(lia) demo_alignment demo_align m real 5 9 c)
    as (m' & real' & EA & Hm' & Hr' & _); [done | done | lia | lia | lia | int_lia | int_lia |].
  unfold demo_manager. rewrite E. cbn [mbind res_bind]. rewrite EA.
  exists real'. split; [done |]. intros z. unfold demo_free. rewrite Hr', Hr. done.
Qed.

Lemma FreeChunksManager_refines_witness :
  manages 4 demo_manager demo_free ∧
  (∃ m', Deallocate demo_alignment 5 9 demo_manager = Ok m' ∧
     manages 4 m' (λ z, demo_free z ∨ 5 ≤ z < 9)) ∧
  (∃ c, (FindJustLargeEnough 5 demo_manager).1 = Some c ∧ m_offset c = 0).
Proof.
  split; [apply demo_manages |]. split.
  - destruct (FreeChunksManager_refines 4 ltac:(lia) demo_alignment demo_align demo_manager demo_free)
      as (_ & _ & _ & Hfree & _); [int_lia | apply demo_manages | vm_compute; discriminate |].
    apply Hfree; [lia | int_lia | int_lia |]. intros z Hz [_ Hn]. lia.
  - eexists. split; [vm_compute; reflexivity | reflexivity].
Defined.

End HeapChunks.
