(* ===== verification/HeapLimit.v ===== *)
(** * Heaps of a limited size, and the choice of an algorithm

    Models [ConstrainedGlobalDecreasingSizeBestFitHeap], the interface
    [HeapAlgorithm] with its implementations, [ChooseBestHeapAlgorithm] and
    [HeapAlgorithmWithFallback], and [BreadthFirstMidpointIterator] of
    [xla/service/heap_simulator/heap_simulator.h] and [.cc]. *)
From S2P Require Import Prelude WindowArith HeapTree HeapFinder HeapSim HeapColoc HeapChunks.

Module HeapLimit.
Import HeapTree HeapFinder HeapSim HeapColoc HeapChunks.

(** ** The constrained heap *)

(** The limit is unsigned. *)
Record LimitedHeap := MkLimited { base_heap : Heap; size_limit_per_heap_ : Z }.

Definition RequiresAllocation (x : BufferInterval) : bool :=
  need_allocation x && negb (buffer_size x =? 0).

(** An interval that requires no allocation: a 0-sized one needs a mapping. *)
Definition map_trivial (h : Heap) (x : BufferInterval) : res Heap :=
  if buffer_size x =? 0 then CommitChunkOnly h x (FromOffsetSize 0 0) else Ok h.

(** The limit is soft: an empty heap takes any buffer. *)
Definition may_commit (limit : Z) (h : Heap) (end_ : Z) : bool :=
  (wrap_u64 end_ <=? limit) || (heap_size (result_ h) =? 0).

(** The heap, the intervals that did not fit, and [max_end]. *)
Fixpoint AllocateBuffersInSingleHeap (limit : Z) (h : Heap) (xs : list BufferInterval)
    (max_end : Z) : res (Heap * list BufferInterval * Z) :=
  match xs with
  | [] => Ok (h, [], max_end)
  | x :: xs =>
      if negb (RequiresAllocation x) then
        h ← map_trivial h x; AllocateBuffersInSingleHeap limit h xs max_end
      else
        c ← FindChunkCandidate h x (-1);
        if may_commit limit h (chunk_end c) then
          h ← CommitChunkAndInterval h x c;
          AllocateBuffersInSingleHeap limit h xs (Z.max max_end (chunk_end c))
        else
          '(h, rest, max_end) ← AllocateBuffersInSingleHeap limit h xs max_end;
          Ok (h, x :: rest, max_end)
  end.

(** The result of a heap collected, and the heap reset. *)
Definition collect_heap (h : Heap) (r : Result) : res (Result * Heap) :=
  total ← s64 (result_heap_size r + heap_size (result_ h));
  Ok (MkResult (heap_results r ++ [result_ h]) total, with_result h (MkHeapResult ∅ 0) Leaf).

Fixpoint best_of_loop (fuel : nat) (limit : Z) (h : Heap) (xs : list BufferInterval)
    (multi_heap_result : Result) : res Result :=
  match fuel with
  | O => Fail NoFuel
  | S fuel =>
      '(h, rest, _) ← AllocateBuffersInSingleHeap limit h xs 0;
      '(multi_heap_result, h) ← collect_heap h multi_heap_result;
      match rest with
      | [] => Ok multi_heap_result
      | _ => best_of_loop fuel limit h rest multi_heap_result
      end
  end.

(** Every heap takes at least one of the intervals. *)
Definition FinishBestOfSpatialTemporal (l : LimitedHeap) : res Result :=
  xs ← GetSortedBufferIntervals (base_heap l);
  best_of_loop (S (length xs)) (size_limit_per_heap_ l) (base_heap l) xs (MkResult [] 0).

(** ** Intervals in the order of their start times *)

(** A chunk in use, and the time from which on it is not. *)
Record ChunkToErase := MkChunkToErase { when : Z; erase_chunk : MemoryChunk }.

Definition erase_key (c : ChunkToErase) : list Z := [when c; m_offset (erase_chunk c)].

(** The chunks that are no longer valid given back. *)
Fixpoint remove_ended (align_end : Z → res Z) (min_time : Z) (chunks_to_remove : list ChunkToErase)
    (m : FreeChunksManager) : res (list ChunkToErase * FreeChunksManager) :=
  match chunks_to_remove with
  | [] => Ok ([], m)
  | c :: cs =>
      if when c <=? min_time then
        m ← Deallocate align_end (m_offset (erase_chunk c)) (m_end (erase_chunk c)) m;
        remove_ended align_end min_time cs m
      else Ok (chunks_to_remove, m)
  end.

(** The block of the colocations at the first aligned address of a free chunk. *)
Definition fit_chunk (c : MemoryChunk) (colocation_size : Z) : res MemoryChunk :=
  guard_res (m_end c - aligned_chunk_offset c >=? colocation_size) CheckFailed;;
  let chunk_end := aligned_chunk_offset c + colocation_size in
  guard_res (chunk_end <=? m_end c) CheckFailed;;
  Ok (MkMemoryChunk (m_offset c) chunk_end (aligned_chunk_offset c) (m_id c)).

Fixpoint sorted_by_time_loop (limit : Z) (h : Heap) (m : FreeChunksManager)
    (chunks_to_remove : list ChunkToErase) (xs : list BufferInterval)
    : res (Heap * list BufferInterval) :=
  match xs with
  | [] => Ok (h, [])
  | x :: xs =>
      if negb (RequiresAllocation x) then
        h ← map_trivial h x; sorted_by_time_loop limit h m chunks_to_remove xs
      else
        colocation_size ← GetMaxColocationSize (buffer_intervals_ h) x;
        '(chunks_to_remove, m) ← remove_ended (ComputeAlignedChunkEnd (alignment h))
          (min_colocation_start_time x) chunks_to_remove m;
        let '(found, m) := FindJustLargeEnough colocation_size m in
        c ← (match found with Some c => Ok c | None => Fail CheckFailed end);
        new_memory_chunk ← fit_chunk c colocation_size;
        if may_commit limit h (m_end new_memory_chunk) then
          m ← Allocate (ComputeAlignedChunkEnd (alignment h)) (m_offset new_memory_chunk)
                (m_end new_memory_chunk) m;
          let chunks_to_remove := set_insert erase_key
            (MkChunkToErase (max_colocation_end_time x) new_memory_chunk) chunks_to_remove in
          h ← CommitChunkOnly h x (FromOffsetEnd (aligned_chunk_offset new_memory_chunk)
                (m_end new_memory_chunk));
          sorted_by_time_loop limit h m chunks_to_remove xs
        else
          '(h, rest) ← sorted_by_time_loop limit h m chunks_to_remove xs;
          Ok (h, x :: rest)
  end.

Definition AllocateBuffersSortedByTimeInSingleHeap (limit : Z) (h : Heap)
    (chunks_manager : FreeChunksManager) (xs : list BufferInterval)
    : res (Heap * list BufferInterval) :=
  sorted_by_time_loop limit h chunks_manager [] xs.

Fixpoint fast_merge_loop (fuel : nat) (limit : Z) (h : Heap) (xs : list BufferInterval)
    (multi_heap_result : Result) : res Result :=
  match fuel with
  | O => Fail NoFuel
  | S fuel =>
      chunks_manager ← new_manager (ComputeAlignedChunkEnd (alignment h));
      '(h, rest) ← AllocateBuffersSortedByTimeInSingleHeap limit h chunks_manager xs;
      '(multi_heap_result, h) ← collect_heap h multi_heap_result;
      match rest with
      | [] => Ok multi_heap_result
      | _ => fast_merge_loop fuel limit h rest multi_heap_result
      end
  end.

Definition FinishFastMerge (l : LimitedHeap) : res Result :=
  xs ← GetSortedBufferIntervals (base_heap l);
  fast_merge_loop (S (length xs)) (size_limit_per_heap_ l) (base_heap l) xs (MkResult [] 0).

(** ** The expensive and the fast pass *)

Definition kMaxBuffersWithoutColocationsInExpensivePass : Z := 500.

(** The heap with the 0-sized buffers mapped, and the two groups; [n] buffers
    without colocations are in the expensive pass. *)
Fixpoint split_passes (h : Heap) (n : Z) (xs : list BufferInterval)
    : res (Heap * list BufferInterval * list BufferInterval) :=
  match xs with
  | [] => Ok (h, [], [])
  | x :: xs =>
      if negb (RequiresAllocation x) then h ← map_trivial h x; split_passes h n xs
      else
        colocations ← GetTransitiveColocations (buffer_intervals_ h) x;
        let empty := bool_decide (colocations = ∅) in
        if empty && (n >=? kMaxBuffersWithoutColocationsInExpensivePass) then
          '(h, expensive, fast) ← split_passes h n xs; Ok (h, expensive, x :: fast)
        else
          '(h, expensive, fast) ← split_passes h (n + (if empty then 1 else 0)) xs;
          Ok (h, x :: expensive, fast)
  end.

Fixpoint fast_split_loop (fuel : nat) (limit : Z) (h : Heap)
    (expensive fast : list BufferInterval) (multi_heap_result : Result) : res Result :=
  match fuel with
  | O => Fail NoFuel
  | S fuel =>
      chunks_manager ← new_manager (ComputeAlignedChunkEnd (alignment h));
      '(h, expensive, max_end_in_phase_one) ←
        AllocateBuffersInSingleHeap limit h expensive 0;
      chunks_manager ← Allocate (ComputeAlignedChunkEnd (alignment h)) 0 max_end_in_phase_one
        chunks_manager;
      '(h, fast) ← AllocateBuffersSortedByTimeInSingleHeap limit h chunks_manager fast;
      '(multi_heap_result, h) ← collect_heap h multi_heap_result;
      match expensive, fast with
      | [], [] => Ok multi_heap_result
      | _, _ => fast_split_loop fuel limit h expensive fast multi_heap_result
      end
  end.

Definition FinishFastSplit (l : LimitedHeap) : res Result :=
  xs ← GetSortedBufferIntervals (base_heap l);
  '(h, expensive, fast) ← split_passes (base_heap l) 0 xs;
  fast_split_loop (S (length xs)) (size_limit_per_heap_ l) h expensive
    (merge_sort (compare_le GetColocationStartTimeBufferIntervalCompare) fast) (MkResult [] 0).

Definition LimitedFinish (l : LimitedHeap) : res Result :=
  match packing_strategy_ (base_heap l) with
  | kSpatial | kTemporal | kCustom _ => FinishBestOfSpatialTemporal l
  | kFastMerge => FinishFastMerge l
  | kFastSplit => FinishFastSplit l
  end.

(** ** Heap algorithms *)

(** The virtual functions of [HeapAlgorithm], over the state of an
    implementation. *)
Class HeapAlgorithm (St : Type) := {
  alg_Alloc : St → Z → Z → res St;
  alg_ShareWith : St → Z → Z → Z → res St;
  alg_Free : St → Z → Z → res St;
  alg_Finish : St → res Result
}.

(** [ShareWith] is not overridden: it calls [Alloc]. *)
#[export] Instance stats_algorithm : HeapAlgorithm StatsHeap := {
  alg_Alloc h _ size := stats_Alloc h size;
  alg_ShareWith h _ _ size := stats_Alloc h size;
  alg_Free h _ size := stats_Free h size;
  alg_Finish h := Ok (stats_Finish h)
}.

#[export] Instance best_fit_algorithm : HeapAlgorithm Heap := {
  alg_Alloc := Alloc;
  alg_ShareWith := ShareWith;
  alg_Free := Free;
  alg_Finish := Finish
}.

#[export] Instance limited_algorithm : HeapAlgorithm LimitedHeap := {
  alg_Alloc l b size :=
    h ← Alloc (base_heap l) b size; Ok (MkLimited h (size_limit_per_heap_ l));
  alg_ShareWith l b share_with size :=
    h ← ShareWith (base_heap l) b share_with size; Ok (MkLimited h (size_limit_per_heap_ l));
  alg_Free l b size :=
    h ← Free (base_heap l) b size; Ok (MkLimited h (size_limit_per_heap_ l));
  alg_Finish := LimitedFinish
}.

Definition alg_step {St} `{HeapAlgorithm St} (s : St) (e : event) : res St :=
  match e with
  | EAlloc b size => alg_Alloc s b size
  | EShareWith b share_with size => alg_ShareWith s b share_with size
  | EFree b size => alg_Free s b size
  end.

Fixpoint alg_run {St} `{HeapAlgorithm St} (s : St) (es : list event) : res St :=
  match es with [] => Ok s | e :: es => s ← alg_step s e; alg_run s es end.

(** [unique_ptr<HeapAlgorithm>]: some implementation and its state. *)
Record Algorithm := MkAlgorithm {
  alg_state : Type;
  alg_ops : HeapAlgorithm alg_state;
  alg : alg_state
}.
Arguments MkAlgorithm {_ _} _.

Definition on_algorithm (a : Algorithm)
    (f : ∀ St, HeapAlgorithm St → St → res St) : res Algorithm :=
  s ← f (alg_state a) (alg_ops a) (alg a);
  Ok (@MkAlgorithm (alg_state a) (alg_ops a) s).

#[export] Instance any_algorithm : HeapAlgorithm Algorithm := {
  alg_Alloc a b size := on_algorithm a (λ St ops s, alg_Alloc s b size);
  alg_ShareWith a b share_with size := on_algorithm a (λ St ops s, alg_ShareWith s b share_with size);
  alg_Free a b size := on_algorithm a (λ St ops s, alg_Free s b size);
  alg_Finish a := @alg_Finish (alg_state a) (alg_ops a) (alg a)
}.

(** *** The best of several *)

Record ChooseBest := MkChooseBest { algorithms_ : list Algorithm }.

(** The loop over the results: the smallest one so far, and its size. *)
Fixpoint choose_best (min_size : Z) (best : option Result) (algorithms : list Algorithm)
    : res (option Result) :=
  match algorithms with
  | [] => Ok best
  | a :: algorithms =>
      r ← alg_Finish a;
      if result_heap_size r <? min_size
      then choose_best (result_heap_size r) (Some r) algorithms
      else choose_best min_size best algorithms
  end.

Definition ChooseBest_Finish (c : ChooseBest) : res Result :=
  best ← choose_best int64_max None (algorithms_ c);
  match best with Some r => Ok r | None => Fail Undefined end.

#[export] Instance choose_best_algorithm : HeapAlgorithm ChooseBest := {
  alg_Alloc c b size :=
    l ← mapM (λ a, alg_Alloc a b size) (algorithms_ c); Ok (MkChooseBest l);
  alg_ShareWith c b share_with size :=
    l ← mapM (λ a, alg_ShareWith a b share_with size) (algorithms_ c); Ok (MkChooseBest l);
  alg_Free c b size := l ← mapM (λ a, alg_Free a b size) (algorithms_ c); Ok (MkChooseBest l);
  alg_Finish := ChooseBest_Finish
}.

(** *** A primary algorithm and its fallback *)

Record WithFallback := MkWithFallback {
  primary_algorithm_ : Algorithm;
  fallback_factory_ : Algorithm;
  memory_limit_ : Z;
  calls_ : list event
}.

(** A call forwarded and recorded. *)
Definition record_call (w : WithFallback) (e : event) : res WithFallback :=
  a ← alg_step (primary_algorithm_ w) e;
  Ok (MkWithFallback a (fallback_factory_ w) (memory_limit_ w) (calls_ w ++ [e])).

Definition replay (w : WithFallback) : res Result :=
  fallback_algorithm ← alg_run (fallback_factory_ w) (calls_ w);
  alg_Finish fallback_algorithm.

Definition Fallback_Finish (w : WithFallback) : res Result :=
  match alg_Finish (primary_algorithm_ w) with
  | Fail ResourceExhausted => replay w
  | Ok r => if (memory_limit_ w >? 0) && (result_heap_size r >? memory_limit_ w)
            then replay w else Ok r
  | Fail e => Fail e
  end.

#[export] Instance fallback_algorithm : HeapAlgorithm WithFallback := {
  alg_Alloc w b size := record_call w (EAlloc b size);
  alg_ShareWith w b share_with size := record_call w (EShareWith b share_with size);
  alg_Free w b size := record_call w (EFree b size);
  alg_Finish := Fallback_Finish
}.

(** ** The midpoint iterator *)

(** [initial_work_item_], [value_] and [work_items_]; the items are ranges of
    [int]s, both ends included. *)
Record MidpointIterator := MkMidpointIterator {
  initial_work_item_ : Z * Z;
  value_ : option Z;
  work_items_ : list (Z * Z)
}.

Definition Next (i : MidpointIterator) : res MidpointIterator :=
  match work_items_ i with
  | [] => Ok (MkMidpointIterator (initial_work_item_ i) None [])
  | (s, e) :: items =>
      if s >? e then Ok (MkMidpointIterator (initial_work_item_ i) None items)
      else
        sum ← s32 (s + e);
        midpoint ← WindowArith.CeilOfRatio sum 2;
        Ok (MkMidpointIterator (initial_work_item_ i) (Some midpoint)
              (items ++ (if s <? midpoint then [(s, midpoint - 1)] else []) ++
               (if e >? midpoint then [(midpoint + 1, e)] else [])))
  end.

Definition Begin (i : MidpointIterator) : res MidpointIterator :=
  Next (MkMidpointIterator (initial_work_item_ i) None [initial_work_item_ i]).

Definition BreadthFirstMidpointIterator (s e : Z) : res MidpointIterator :=
  Begin (MkMidpointIterator (s, e) None []).

Definition End_ (i : MidpointIterator) : bool := bool_decide (value_ i = None).

(** [for (it.Begin(); !it.End(); it.Next())]: the values it yields. *)
Fixpoint iterate (fuel : nat) (i : MidpointIterator) : res (list Z) :=
  match value_ i with
  | None => Ok []
  | Some v =>
      match fuel with
      | O => Fail NoFuel
      | S fuel => i ← Next i; rest ← iterate fuel i; Ok (v :: rest)
      end
  end.

End HeapLimit.
