(* ===== verification/HeapMulti.v ===== *)
(** * Filling one of several heaps

    What the two ways to fill a heap of the constrained algorithm have in common,
    and the first of them: the best fit up to a limit. *)
From stdpp Require Import relations.
From S2P Require Import Prelude HeapTree HeapFinder HeapSim HeapColoc HeapFree HeapRun HeapCorrect HeapChunks HeapLimit.
#[local] Open Scope Z_scope.

Module HeapMulti.
Import HeapTree HeapFinder HeapSim HeapColoc HeapFree HeapRun HeapPlace HeapCorrect HeapLimit.

(** No buffer is larger than the one it shares the allocation of. *)
Definition roots_largest (m : gmap Z BufferInterval) : Prop :=
  ∀ r x b y, root m r x → group m r b → m !! b = Some y → buffer_size y ≤ buffer_size x.

(** The intervals that get a chunk of their own. *)
Definition needy (xs : list BufferInterval) : list BufferInterval :=
  filter (λ x, need_allocation x = true) xs.

(** The limit is met, or one chunk fills the heap. *)
Definition bounded (limit : Z) (ps : list (Z * Chunk)) (r : HeapResult) : Prop :=
  heap_size r ≤ limit ∨ ∃ b k, (b, k) ∈ ps ∧ heap_size r = size k.

(** From the chunks [ps] a heap came to the chunks [ps'], and of the intervals
    [xs] the intervals [rest] did not fit. *)
Record took (ps : list (Z * Chunk)) (xs : list BufferInterval) (ps' : list (Z * Chunk))
    (rest : list BufferInterval) : Prop := {
  tk_rest : rest `sublist_of` xs;
  tk_needy x : x ∈ rest → need_allocation x = true;
  tk_roots : ps'.*1 ++ (buffer <$> rest) ≡ₚ ps.*1 ++ (buffer <$> needy xs)
}.

Lemma needy_cons x xs :
  needy (x :: xs) = if need_allocation x then x :: needy xs else needy xs.
Proof. unfold needy. rewrite filter_cons. by destruct (need_allocation x). Qed.

Lemma took_nil ps : took ps [] ps [].
Proof. constructor; [done | by intros ? ?%elem_of_nil | done]. Qed.

Lemma took_skip ps x xs ps' rest :
  need_allocation x = false → took ps xs ps' rest → took ps (x :: xs) ps' rest.
Proof.
  intros Hn [H1 H2 H3]. constructor; [by apply sublist_cons | done |]. by rewrite needy_cons, Hn.
Qed.

Lemma took_place ps x k xs ps' rest :
  need_allocation x = true → took ((buffer x, k) :: ps) xs ps' rest → took ps (x :: xs) ps' rest.
Proof.
  intros Hn [H1 H2 H3]. constructor; [by apply sublist_cons | done |].
  rewrite needy_cons, Hn, H3, fmap_cons. cbn [fst fmap list_fmap app]. apply Permutation_middle.
Qed.

Lemma took_keep ps x xs ps' rest :
  need_allocation x = true → took ps xs ps' rest → took ps (x :: xs) ps' (x :: rest).
Proof.
  intros Hn [H1 H2 H3]. constructor.
  - by apply sublist_skip.
  - intros y [-> | Hy]%elem_of_cons; [done | by apply H2].
  - rewrite needy_cons, Hn. cbn [fmap list_fmap]. rewrite <- !Permutation_middle. by rewrite H3.
Qed.

Lemma took_length ps xs ps' rest : took ps xs ps' rest → (length rest ≤ length xs)%nat.
Proof. intros [H _ _]. by apply sublist_length. Qed.

Section Heap.
Context (m : gmap Z BufferInterval) (Hf : forest m) (a M : Z) (Ha : 0 < a) (HM : 0 ≤ M).
Context (HMs : ∀ b x, m !! b = Some x → buffer_size x ≤ M).

(** The intervals a loop has still to place. *)
Definition waiting (ps : list (Z * Chunk)) (xs : list BufferInterval) : Prop :=
  NoDup (buffer <$> xs) ∧ Forall (timed m) xs ∧ ∀ x, x ∈ xs → buffer x ∉ ps.*1.

Lemma waiting_cons ps x xs :
  waiting ps (x :: xs) →
  waiting ps xs ∧ ∀ k, waiting ((buffer x, k) :: ps) xs.
Proof.
  intros (Hnd & Hall & Hnew). rewrite fmap_cons in Hnd. apply NoDup_cons in Hnd as [Hx Hnd].
  apply Forall_cons in Hall as [_ Hall].
  split; [| intros k]; (split; [done |]; split; [done |]); intros y Hy.
  - apply Hnew. by right.
  - rewrite fmap_cons, not_elem_of_cons. split; [| apply Hnew; by right].
    cbn [fst]. intros E. apply Hx. rewrite <- E. by apply list_elem_of_fmap_2.
Qed.

Lemma waiting_rest ps xs ps' rest : waiting ps xs → took ps xs ps' rest → waiting [] rest.
Proof.
  intros (Hnd & Hall & _) [Hs _ _]. split; [| split].
  - eapply sublist_NoDup; [done |]. by apply (fmap_sublist buffer).
  - rewrite Forall_forall in Hall |- *. intros y Hy. eapply Hall, elem_of_sublist; done.
  - by intros ? _ ?%elem_of_nil.
Qed.

Lemma RequiresAllocation_timed x : timed m x → RequiresAllocation x = need_allocation x.
Proof.
  intros (y & s & e & Hy & -> & _). unfold RequiresAllocation. cbn [need_allocation buffer_size with_colocation_times].
  pose proof (f_size _ Hf _ _ Hy). destruct (Z.eqb_spec (buffer_size y) 0); [lia |]. apply andb_true_r.
Qed.

Lemma map_trivial_timed h x : timed m x → map_trivial h x = Ok h.
Proof.
  intros (y & s & e & Hy & -> & _). unfold map_trivial. cbn [buffer_size with_colocation_times].
  pose proof (f_size _ Hf _ _ Hy). by destruct (Z.eqb_spec (buffer_size y) 0); [lia |].
Qed.

(** The chunk of a group is that of its root. *)
Lemma largest_size r x N :
  roots_largest m → root m r x → GetMaxColocationSize m x = Ok N → N = buffer_size x.
Proof.
  intros Hl Hr EN. pose proof Hr as [Hx _].
  destruct (GetMaxColocationSize_spec m Hf r x Hx) as (N' & EN' & HN1 & b & y & Hb & Hy & HN).
  rewrite EN in EN'. injection EN' as <-. pose proof (Hl r x b y Hr Hb Hy).
  pose proof (HN1 r x (rtc_refl _ _) Hx). lia.
Qed.

Lemma may_commit_spec limit h e :
  0 ≤ e ≤ int64_max →
  may_commit limit h e = true ↔ e ≤ limit ∨ heap_size (result_ h) = 0.
Proof.
  intros He. unfold may_commit. rewrite wrap_u64_id by int_lia.
  rewrite orb_true_iff, Z.leb_le, Z.eqb_eq. done.
Qed.

(** A chunk the limit allows keeps the bound. *)
Lemma bounded_place limit ps r b k r' :
  bounded limit ps r → 0 ≤ heap_size r → 0 ≤ offset k ≤ align a (heap_size r) → 0 ≤ size k →
  heap_size r' = Z.max (heap_size r) (chunk_end k) →
  chunk_end k ≤ limit ∨ heap_size r = 0 → bounded limit ((b, k) :: ps) r'.
Proof.
  intros Hb HH Ho Hs E [Hk | H0].
  - unfold bounded in *. rewrite E. destruct (Z.max_spec (heap_size r) (chunk_end k)) as [[_ ->] | [_ ->]];
      [by left |]. destruct Hb as [? | (b' & k' & Hk' & ?)]; [by left |]. right. exists b', k'.
    split; [by right | done].
  - right. exists b, k. split; [by left |]. rewrite H0 in Ho. unfold align, chunk_end in *.
    rewrite Z.div_0_l in Ho by lia. rewrite E, H0. lia.
Qed.

(** ** The best fit up to a limit *)

Section First.
Context (m0 : gmap Z Chunk) (Hm0 : ∀ b c, m0 !! b = Some c → m !! b = None).

(** [max_end] is that of the candidates: it is the heap's size when the first
    buffer of every group is its largest. *)
Lemma AllocateBuffersInSingleHeap_spec limit xs ps h max_end :
  placed_inv m a M m0 ps h → waiting ps xs →
  (Z.of_nat (length ps) + Z.of_nat (length xs)) * (M + a) ≤ int64_max →
  ∃ ps' h' rest max_end',
    AllocateBuffersInSingleHeap limit h xs max_end = Ok (h', rest, max_end') ∧
    placed_inv m a M m0 ps' h' ∧ took ps xs ps' rest ∧
    (length ps' ≤ length ps + length xs)%nat ∧
    (ps = [] → xs ≠ [] → (length rest < length xs)%nat) ∧
    (roots_largest m → bounded limit ps (result_ h) → bounded limit ps' (result_ h')) ∧
    (roots_largest m → max_end = heap_size (result_ h) → max_end' = heap_size (result_ h')).
Proof.
  revert ps h max_end. induction xs as [| x xs IH]; intros ps h max_end Hp Hw Hb.
  { exists ps, h, [], max_end. cbn [AllocateBuffersInSingleHeap length].
    split_and!; try done; [apply took_nil | lia]. }
  pose proof Hw as (_ & Hx & Hnew). apply Forall_cons in Hx as [Hx _].
  destruct (waiting_cons ps x xs Hw) as [Hw1 Hw2].
  cbn [AllocateBuffersInSingleHeap length] in *. rewrite RequiresAllocation_timed by done.
  destruct (need_allocation x) eqn:Hn; cbn [negb].
  2: { rewrite map_trivial_timed by done. cbn [mbind res_bind].
    destruct (IH ps h max_end) as (ps' & h' & rest & me & E & H1 & H2 & H3 & _ & H5); [done | done | nia |].
    exists ps', h', rest, me. split; [done |]. split; [done |]. split; [by apply took_skip |].
    split; [lia |]. split; [| done]. intros _ _. apply took_length in H2. lia. }
  destruct Hx as (y & s & e & Hy & Ex & _). assert (Hr : root m (buffer x) y) by (split; [done | by subst x]).
  destruct (place_root m Hf a M Ha HM HMs m0 Hm0 ps h (buffer x) y s e)
    as (h1 & k & EF & EC & Hp1 & Hyk & Ho & EH); [done | done | apply Hnew; by left | nia |].
  rewrite <- Ex in EF, EC. rewrite EF. cbn [mbind res_bind].
  pose proof (pl_size _ _ _ _ _ _ (pi_placed _ _ _ _ _ _ Hp1)) as Hsz. cbn [length] in Hsz.
  pose proof (pl_size _ _ _ _ _ _ (pi_placed _ _ _ _ _ _ Hp)) as Hsz0.
  pose proof (f_size _ Hf _ _ Hy).
  assert (Hend : chunk_end (MkChunk (offset k) (buffer_size y)) ≤ chunk_end k)
    by (unfold chunk_end; simpl; lia).
  assert (Hlarge : roots_largest m → chunk_end (MkChunk (offset k) (buffer_size y)) = chunk_end k).
  { intros Hl. destruct (pl_root _ _ _ _ _ _ (pi_placed _ _ _ _ _ _ Hp1) (buffer x) k) as (y' & Hr' & EN);
      [by left |]. unfold chunk_end. cbn [offset size].
    rewrite (largest_size _ _ _ Hl Hr' EN). f_equal. destruct Hr, Hr'. congruence. }
  destruct (may_commit limit h _) eqn:Em.
  - apply may_commit_spec in Em; [| unfold chunk_end in *; simpl in *; nia].
    rewrite EC. cbn [mbind res_bind].
    destruct (IH ((buffer x, k) :: ps) h1 (Z.max max_end (chunk_end (MkChunk (offset k) (buffer_size y)))))
      as (ps' & h' & rest & me & E & H1 & H2 & H3 & _ & H5 & H6); [done | done | cbn [length]; nia |].
    exists ps', h', rest, me. split; [done |]. split; [done |]. split; [by eapply took_place |].
    cbn [length] in H3. split; [lia |]. split; [intros _ _; apply took_length in H2; lia |]. split.
    + intros Hl Hbd. apply H5; [done |]. eapply bounded_place; try done; [lia | lia |].
      by rewrite <- Hlarge.
    + intros Hl Eme. apply H6; [done |]. by rewrite Hlarge, EH, Eme.
  - destruct (IH ps h max_end) as (ps' & h' & rest & me & E & H1 & H2 & H3 & _ & H5); [done | done | nia |].
    rewrite E. cbn [mbind res_bind]. exists ps', h', (x :: rest), me.
    split; [done |]. split; [done |]. split; [by apply took_keep |]. split; [lia |]. split; [| done].
    intros -> _. exfalso. cbn [length] in Hsz0.
    assert (may_commit limit h (chunk_end (MkChunk (offset k) (buffer_size y))) = true); [| congruence].
    apply may_commit_spec; [unfold chunk_end in *; simpl in *; nia | right; lia].
Qed.
End First.

(** ** The loop over the heaps *)

(** The heap before anything of it is used. *)
Record fresh_heap (m0 : gmap Z Chunk) (h : Heap) : Prop := {
  fh_intervals : buffer_intervals_ h = m;
  fh_alignment : alignment h = a;
  fh_size : heap_size (result_ h) = 0;
  fh_map : chunk_map (result_ h) = m0;
  fh_tree : interval_tree_ h = Leaf
}.

Lemma fresh_placed m0 h : fresh_heap m0 h → placed_inv m a M m0 [] h.
Proof. intros []. by apply placed_inv_empty. Qed.

(** What one turn of a loop makes of the intervals [xs]. *)
Record filled (limit : Z) (m0 : gmap Z Chunk) (xs : list BufferInterval) (ps : list (Z * Chunk))
    (h : Heap) (rest : list BufferInterval) : Prop := {
  fl_intervals : buffer_intervals_ h = m;
  fl_alignment : alignment h = a;
  fl_placed : placed m a M m0 ps (result_ h);
  fl_took : took [] xs ps rest;
  fl_progress : xs ≠ [] → (length rest < length xs)%nat;
  fl_bounded : roots_largest m → bounded limit ps (result_ h)
}.

(** The heaps of a result, the first of which may hold 0-sized buffers. *)
Inductive heaps (limit : Z) :
    gmap Z Chunk → list (list (Z * Chunk)) → list HeapResult → Prop :=
  | heaps_nil m0 : heaps limit m0 [] []
  | heaps_cons m0 ps r pss rs :
      placed m a M m0 ps r → (roots_largest m → bounded limit ps r) →
      heaps limit ∅ pss rs → heaps limit m0 (ps :: pss) (r :: rs).

Definition total_size (rs : list HeapResult) : Z := foldr (λ r n, heap_size r + n) 0 rs.

Section Loop.
Context {St : Type} (left : St → list BufferInterval) (good : St → Prop).
Context (fill : Heap → St → res (Heap * St)).
Context (loop : nat → Heap → St → Result → res Result) (limit : Z).
Hypothesis loop_eq : ∀ fuel h st r,
  loop (S fuel) h st r =
    ('(h, st) ← fill h st;
     '(r, h) ← collect_heap h r;
     match left st with [] => Ok r | _ => loop fuel h st r end).
Hypothesis fill_spec : ∀ m0 h st,
  (∀ b c, m0 !! b = Some c → m !! b = None) → fresh_heap m0 h → good st →
  ∃ ps h' st', fill h st = Ok (h', st') ∧ filled limit m0 (left st) ps h' (left st') ∧ good st'.

Lemma loop_spec fuel m0 h st acc total :
  (∀ b c, m0 !! b = Some c → m !! b = None) → fresh_heap m0 h → good st →
  (length (left st) < fuel)%nat → 0 ≤ total →
  total + Z.of_nat (length (left st)) * (M + a) ≤ int64_max →
  ∃ pss rs, loop fuel h st (MkResult acc total) = Ok (MkResult (acc ++ rs) (total + total_size rs)) ∧
    heaps limit m0 pss rs ∧ rs ≠ [] ∧
    (concat pss).*1 ≡ₚ buffer <$> needy (left st).
Proof.
  revert m0 h st acc total. induction fuel as [| fuel IH]; intros m0 h st acc total Hm0 Hh Hg Hf' Ht Hb;
    [lia |].
  destruct (fill_spec m0 h st Hm0 Hh Hg) as (ps & h1 & st1 & E & [F1 F2 F3 F4 F5 F6] & Hg1).
  rewrite loop_eq, E. cbn [mbind res_bind].
  assert (Hcount : (length ps + length (left st1) ≤ length (left st))%nat).
  { pose proof (Permutation_length (tk_roots _ _ _ _ F4)) as H. revert H. cbn [fmap list_fmap app].
    rewrite length_app, !length_fmap. intros ->. apply length_filter. }
  pose proof (pl_size _ _ _ _ _ _ F3) as Hsz.
  assert (Hlen : Z.of_nat (length ps) + Z.of_nat (length (left st1)) ≤ Z.of_nat (length (left st))) by lia.
  unfold collect_heap. cbn [result_heap_size heap_results].
  rewrite s64_in by int_nia. cbn [mbind res_bind].
  assert (Hneedy : needy (left st1) = left st1).
  { apply list_filter_all, Forall_forall. apply (tk_needy _ _ _ _ F4). }
  pose proof (tk_roots _ _ _ _ F4) as Hroots. cbn [fmap list_fmap app] in Hroots.
  destruct (left st1) as [| y ys] eqn:El.
  - exists [ps], [result_ h1]. cbn [total_size foldr]. rewrite Z.add_0_r. split; [done |].
    split; [constructor; [done | done | constructor] |]. split; [done |]. cbn [concat]. rewrite app_nil_r.
    rewrite <- Hroots, app_nil_r. done.
  - destruct (IH ∅ (with_result h1 (MkHeapResult ∅ 0) Leaf) st1 (acc ++ [result_ h1])
      (total + heap_size (result_ h1))) as (pss & rs & E2 & H1 & H2 & H3); try done.
    { rewrite El. ospecialize (F5 _); [| lia]. intros E0. rewrite E0 in Hcount. simpl in *. lia. }
    { lia. }
    { rewrite El. nia. }
    exists (ps :: pss), (result_ h1 :: rs). rewrite E2, <- app_assoc. cbn [total_size foldr app].
    split; [by rewrite Z.add_assoc |]. split; [by constructor |]. split; [done |].
    cbn [concat]. rewrite fmap_app, H3, El, Hneedy. done.
Qed.
End Loop.

(** ** The result *)

Lemma heaps_lookup limit m0 pss rs :
  (∀ b c, m0 !! b = Some c → m !! b = None) → heaps limit m0 pss rs →
  length pss = length rs ∧
  ∀ i ps r, pss !! i = Some ps → rs !! i = Some r →
    ∃ m1, (∀ b c, m1 !! b = Some c → m !! b = None) ∧ placed m a M m1 ps r ∧
      (roots_largest m → bounded limit ps r).
Proof.
  intros Hm0 H. induction H as [| m0 ps r pss rs H1 H2 _ IH]; [done |].
  destruct IH as [IH1 IH2]; [done |]. cbn [length]. split; [lia |].
  intros [| i] ps' r'; [| apply IH2]. intros [= <-] [= <-]. by exists m0.
Qed.

End Heap.

(** Every buffer of a simulation is in one heap. *)
Record safe_results (a : Z) (m : gmap Z BufferInterval) (rs : list HeapResult) : Prop := {
  sr_heap r : r ∈ rs → safe_heap a m r;
  sr_in b : is_Some (m !! b) →
    ∃ i r, rs !! i = Some r ∧ is_Some (chunk_map r !! b) ∧
      ∀ j r', rs !! j = Some r' → is_Some (chunk_map r' !! b) → j = i
}.

(** No heap exceeds the limit, but for one that holds a buffer above the limit
    and is as large as it. *)
Definition within_limit (limit : Z) (m : gmap Z BufferInterval) (rs : list HeapResult) : Prop :=
  ∀ r, r ∈ rs → heap_size r ≤ limit ∨
    ∃ b x, m !! b = Some x ∧ is_Some (chunk_map r !! b) ∧ heap_size r = buffer_size x.

Lemma elem_of_concat {A} (pss : list (list A)) x : x ∈ concat pss ↔ ∃ ps, x ∈ ps ∧ ps ∈ pss.
Proof.
  rewrite list_elem_of_In, in_concat. setoid_rewrite <- list_elem_of_In. naive_solver.
Qed.

(** A key is in one of the parts of a list without duplicates. *)
Lemma concat_once {A B} (f : A → B) (pss : list (list A)) i j p q x y :
  NoDup (f <$> concat pss) → pss !! i = Some p → pss !! j = Some q →
  x ∈ p → y ∈ q → f x = f y → i = j.
Proof.
  revert i j. induction pss as [| ps pss IH]; intros i j Hnd Hi Hj Hx Hy E; [done |].
  cbn [concat] in Hnd. rewrite fmap_app in Hnd. apply NoDup_app in Hnd as (_ & Hdis & Hnd).
  assert (Hin : ∀ i q z, pss !! i = Some q → z ∈ q → f z ∈ f <$> concat pss).
  { intros k q' z Hk Hz. apply list_elem_of_fmap_2. apply list_elem_of_lookup_2 in Hk.
    apply elem_of_concat. by exists q'. }
  destruct i as [| i], j as [| j]; simplify_eq/=.
  - done.
  - exfalso. apply (Hdis (f x)); [by apply list_elem_of_fmap_2 |]. rewrite E. by eapply Hin.
  - exfalso. apply (Hdis (f y)); [by apply list_elem_of_fmap_2 |]. rewrite <- E. by eapply Hin.
  - f_equal. by eapply IH.
Qed.

Section Result.
Context (m : gmap Z BufferInterval) (Hf : forest m) (a M limit : Z).
Context (m0 : gmap Z Chunk) (Hm0 : ∀ b c, m0 !! b = Some c → m !! b = None).
Context (pss : list (list (Z * Chunk))) (rs : list HeapResult) (Hh : heaps m a M limit m0 pss rs).

Lemma heaps_safe xs :
  NoDup (buffer <$> xs) → (∀ b x, m !! b = Some x → ∃ s e, with_colocation_times x s e ∈ xs) →
  (concat pss).*1 ≡ₚ buffer <$> needy xs → safe_results a m rs.
Proof.
  intros Hnd Hcov Hperm. destruct (heaps_lookup m a M limit m0 pss rs Hm0 Hh) as [Hlen Hlook].
  assert (Hnd' : NoDup (concat pss).*1).
  { rewrite Hperm. eapply sublist_NoDup; [exact Hnd |]. apply (fmap_sublist buffer), sublist_filter. }
  assert (Hps : ∀ i r, rs !! i = Some r → ∃ ps, pss !! i = Some ps).
  { intros i r Hi. apply lookup_lt_is_Some_2. rewrite Hlen. by eapply lookup_lt_Some. }
  constructor.
  - intros r [i Hi]%list_elem_of_lookup. destruct (Hps i r Hi) as [ps Hp].
    destruct (Hlook i ps r Hp Hi) as (m1 & Hm1 & Hpl & _). by eapply placed_safe.
  - intros b Hb. destruct (group_exists m Hf b Hb) as (r0 & x & Hr & Hg). pose proof Hr as [Hx Hn].
    destruct (Hcov r0 x Hx) as (s & e & Hin).
    assert (r0 ∈ (concat pss).*1) as ([r1 c] & -> & Hc)%list_elem_of_fmap.
    { rewrite Hperm. apply list_elem_of_fmap. exists (with_colocation_times x s e).
      cbn [buffer with_colocation_times]. rewrite (f_id _ Hf r0 x Hx). split; [done |].
      by apply list_elem_of_filter. }
    cbn [fst] in *. apply elem_of_concat in Hc as (ps & Hc & Hps').
    apply list_elem_of_lookup in Hps' as [i Hi].
    destruct (lookup_lt_is_Some_2 rs i) as [r Hri]; [rewrite <- Hlen; by eapply lookup_lt_Some |].
    destruct (Hlook i ps r Hi Hri) as (m1 & Hm1 & Hpl & _). exists i, r. split; [done |]. split.
    + exists c. by apply (placed_in m Hf a M m1 Hm1 ps r b r1 x Hpl).
    + intros j r' Hj [c' Hc']. destruct (Hps j r' Hj) as [qs Hq].
      destruct (Hlook j qs r' Hq Hj) as (m2 & Hm2 & Hql & _).
      apply (placed_in m Hf a M m2 Hm2 qs r' b r1 x Hql) in Hc'; [| done..].
      by apply (concat_once fst pss j i qs ps (r1, c') (r1, c)).
Qed.

Lemma heaps_within_limit : roots_largest m → within_limit limit m rs.
Proof.
  intros Hl r [i Hi]%list_elem_of_lookup.
  destruct (heaps_lookup m a M limit m0 pss rs Hm0 Hh) as [Hlen Hlook].
  destruct (lookup_lt_is_Some_2 pss i) as [ps Hp]; [rewrite Hlen; by eapply lookup_lt_Some |].
  destruct (Hlook i ps r Hp Hi) as (m1 & Hm1 & Hpl & Hbd).
  destruct (Hbd Hl) as [? | (b & k & Hk & E)]; [by left | right].
  destruct (pl_root _ _ _ _ _ _ Hpl b k Hk) as (x & Hr & EN). exists b, x. split; [apply Hr |]. split.
  - exists k. apply (placed_in m Hf a M m1 Hm1 ps r b b x Hpl); [done | apply rtc_refl | done].
  - rewrite E. by eapply largest_size.
Qed.

(** What the heap before the allocations maps stays in the first heap. *)
Lemma heaps_first b c :
  rs ≠ [] → m0 !! b = Some c → ∃ r, head rs = Some r ∧ chunk_map r !! b = Some c.
Proof.
  intros Hne Hb. destruct Hh as [| ? ps r ? ? Hpl _ _]; [done |]. exists r. split; [done |].
  apply (pl_map _ _ _ _ _ _ Hpl). by left.
Qed.
End Result.

End HeapMulti.
