(* ===== verification/HeapTimes.v ===== *)
(** * Filling a heap in the order of the start times

    The chunks in use and the free chunks manager cover the heap, a chunk is free
    again when the last buffer of its group has ended, and the chunk of a new
    group avoids the others. *)
From stdpp Require Import relations.
From S2P Require Import Prelude HeapTree HeapFinder HeapSim HeapColoc HeapFree HeapRun HeapCorrect HeapChunks HeapLimit HeapMulti.
#[local] Open Scope Z_scope.

Module HeapTimes.
Import HeapTree HeapFinder HeapSim HeapColoc HeapFree HeapRun HeapPlace HeapCorrect HeapChunks
  HeapLimit HeapMulti.

(** ** The chunks in use *)

Definition in_chunk (c : ChunkToErase) (z : Z) : Prop :=
  m_offset (erase_chunk c) ≤ z < m_end (erase_chunk c).

(** The addresses from [base] on that no chunk of the list uses. *)
Definition unused (base : Z) (cr : list ChunkToErase) (z : Z) : Prop :=
  0 ≤ z < int64_max - 3 ∧ base ≤ z ∧ ∀ c, c ∈ cr → ¬ in_chunk c z.

(** The chunks in use lie between [base] and [H]. *)
Record slots (a base H : Z) (cr : list ChunkToErase) (m : FreeChunksManager) : Prop := {
  so_free : manages a m (unused base cr);
  so_sorted : StronglySorted (λ c d, less erase_key c d = true) cr;
  so_range c : c ∈ cr → base ≤ m_offset (erase_chunk c) < m_end (erase_chunk c) ∧
    m_end (erase_chunk c) ≤ H;
  so_disjoint c d z : c ∈ cr → d ∈ cr → in_chunk c z → in_chunk d z → c = d
}.

Lemma set_insert_length {A} (key : A → list Z) x l :
  (length (set_insert key x l) ≤ S (length l))%nat.
Proof.
  induction l as [| y l IH]; cbn [set_insert length]; [lia |].
  destruct (less key x y), (less key y x); cbn [length]; lia.
Qed.

Section Slots.
Context (a : Z) (Ha : 0 < a) (align_end : Z → res Z).
Context (Halign : ∀ z, 0 ≤ z → z + a ≤ int64_max → align_end z = Ok (align a z)).
Context (base H : Z) (Hbase : 0 ≤ base ≤ H).

(** The chunks that ended by [t] are given back, and no other one. *)
Lemma remove_ended_spec t cr m :
  slots a base H cr m → H + a ≤ int64_max - 3 →
  next_free_chunk_id_ m + Z.of_nat (length cr) ≤ int64_max →
  ∃ cr' m', remove_ended align_end t cr m = Ok (cr', m') ∧ slots a base H cr' m' ∧
    next_free_chunk_id_ m' + Z.of_nat (length cr') = next_free_chunk_id_ m + Z.of_nat (length cr) ∧
    ∀ c, c ∈ cr' ↔ c ∈ cr ∧ t < when c.
Proof.
  intros Hs Hb. revert m Hs. induction cr as [| c cr IH]; intros m Hs Hid.
  { exists [], m. split; [done |]. split; [done |]. split; [done |]. intros c. rewrite elem_of_nil. tauto. }
  pose proof Hs as [(real & Hm & HF) Hsort Hrange Hdis]. inversion Hsort as [| ? ? Hsort' Hc]; subst.
  cbn [remove_ended length] in *. destruct (Z.leb_spec (when c) t) as [Hw | Hw].
  - destruct (Hrange c) as [? ?]; [by left |].
    destruct (Deallocate_spec a Ha align_end Halign m real (m_offset (erase_chunk c)) (m_end (erase_chunk c)))
      as (m1 & real1 & E & Hm1 & Hr1 & Hid1); [done | lia | lia | lia | lia | |].
    { intros z Hz Hfree. apply HF in Hfree as (_ & _ & Hfree). apply (Hfree c); [by left | done]. }
    rewrite E. cbn [mbind res_bind]. destruct (IH m1) as (cr' & m' & E' & Hs' & Hid' & Hin).
    + constructor; [| done | |].
      * exists real1. split; [done |]. intros z. rewrite Hr1, <- HF. unfold unused. split.
        -- intros (Hz & Hbz & Hz'). destruct (decide (m_offset (erase_chunk c) ≤ z < m_end (erase_chunk c)));
             [by right | left]. split; [done |]. split; [done |].
           intros d [-> | Hd]%elem_of_cons; [done | by apply Hz'].
        -- intros [(Hz & Hbz & Hz') | Hz].
           ++ split; [done |]. split; [done |]. intros d Hd. apply Hz'. by right.
           ++ split; [lia |]. split; [lia |]. intros d Hd Hdz.
              assert (c = d) as <- by (eapply Hdis; [by left | by right | exact Hz | done]).
              rewrite Forall_forall in Hc. specialize (Hc c Hd). by rewrite less_irrefl in Hc.
      * intros d Hd. apply Hrange. by right.
      * intros d d' z Hd Hd'. apply Hdis; by right.
    + lia.
    + exists cr', m'. split; [done |]. split; [done |]. split; [lia |].
      intros d. rewrite Hin, elem_of_cons. split; [naive_solver |].
      intros [[-> | ?] ?]; [lia | done].
  - exists (c :: cr), m. split; [done |]. split; [done |]. split; [done |].
    intros d. split; [| tauto]. intros Hd. split; [done |].
    apply elem_of_cons in Hd as [-> | Hd]; [done |]. rewrite Forall_forall in Hc. specialize (Hc d Hd).
    unfold less, erase_key in Hc. cbn [tuple_lt] in Hc. destruct (Z.ltb_spec (when c) (when d)); [lia |].
    destruct (Z.ltb_spec (when d) (when c)); [done | lia].
Qed.

(** Above the chunks in use everything is free. *)
Lemma unused_above cr m z : slots a base H cr m → H ≤ z < int64_max - 3 → unused base cr z.
Proof.
  intros Hs Hz. split; [lia |]. split; [lia |]. intros c Hc Hcz. destruct (so_range _ _ _ _ _ Hs c Hc).
  unfold in_chunk in Hcz. lia.
Qed.

(** There is a free chunk for [n] bytes, not above the ones in use. *)
Lemma FindJustLargeEnough_fits cr m n :
  slots a base H cr m → 0 < n → H + a + n ≤ int64_max - 3 →
  ∃ c m', FindJustLargeEnough n m = (Some c, m') ∧ slots a base H cr m' ∧
    next_free_chunk_id_ m' = next_free_chunk_id_ m ∧ 0 ≤ m_offset c ≤ H ∧
    let o := align a (m_offset c) in
    fit_chunk c n = Ok (MkMemoryChunk (m_offset c) (o + n) o (m_id c)) ∧
    (∀ z, m_offset c ≤ z < o + n → unused base cr z).
Proof.
  intros Hs Hn Hb. pose proof Hs as [(real & Hm & HF) Hsort Hrange Hdis].
  destruct (FindJustLargeEnough_spec a Ha align_end Halign m real n Hm Hn) as (m' & Em & Hm' & Hid & Hfind).
  destruct (FindJustLargeEnough n m) as [[c |] m1]; cbn [fst snd] in *; subst m1.
  - destruct Hfind as (Hc & Hcn & _). destruct (g_chunk _ _ _ Hm c Hc) as (Hc1 & Hc2 & _ & Ec & _).
    exists c, m'. split; [done |]. split; [by constructor; [exists real | ..] |]. split; [done |].
    assert (HcH : m_offset c ≤ H).
    { destruct (decide (m_offset c ≤ H)); [done |]. exfalso.
      assert (free_at real (m_offset c - 1)) as (d & Hd & Hdz).
      { apply HF. eapply unused_above; [done | lia]. }
      rewrite (chunk_near a m real c d (m_offset c - 1)) in Hdz by (done || lia). lia. }
    split; [lia |]. cbv zeta. unfold aligned_size in Hcn. rewrite Ec in Hcn. split.
    + unfold fit_chunk. rewrite Ec. rewrite (proj2 (Z.geb_le _ _)) by lia. cbn [guard_res mbind res_bind].
      rewrite (proj2 (Z.leb_le _ _)) by lia. done.
    + intros z Hz. apply HF. exists c. split; [done | lia].
  - exfalso. destruct (free_range a m real H (int64_max - 3)) as (d & Hd & Hd1 & Hd2); [done | lia | |].
    { intros z Hz. apply HF. by eapply unused_above. }
    specialize (Hfind d Hd). destruct (g_chunk _ _ _ Hm d Hd) as (_ & _ & _ & Ed & _).
    unfold aligned_size in Hfind. rewrite Ed in Hfind.
    pose proof (align_mono a _ _ Ha Hd1). pose proof (align_up_spec a H Ha). lia.
Qed.

(** A free range is taken into use. *)
Lemma take_slot cr m w o e k i :
  slots a base H cr m → 0 ≤ o < e → e + a ≤ int64_max → next_free_chunk_id_ m + 2 ≤ int64_max →
  (∀ z, o ≤ z < e → unused base cr z) →
  let c := MkChunkToErase w (MkMemoryChunk o e k i) in
  ∃ m', Allocate align_end o e m = Ok m' ∧
    slots a base (Z.max H e) (set_insert erase_key c cr) m' ∧
    next_free_chunk_id_ m' ≤ next_free_chunk_id_ m + 2 ∧
    (∀ d, d ∈ set_insert erase_key c cr ↔ d = c ∨ d ∈ cr) ∧
    (length (set_insert erase_key c cr) ≤ S (length cr))%nat.
Proof.
  intros Hs Ho He Hid Hall c. pose proof Hs as [(real & Hm & HF) Hsort Hrange Hdis].
  destruct (free_range a m real o e) as (f & Hf & Hf1 & Hf2);
    [done | lia | intros z Hz; by apply HF, Hall |].
  destruct (Allocate_spec a Ha align_end Halign m real o e f) as (m' & real' & E & Hm' & Hr' & Hid');
    [done | done | lia | lia | lia | lia | lia |].
  exists m'. split; [done |].
  assert (Hnew : ∀ d z, d ∈ cr → o ≤ z < e → ¬ in_chunk d z).
  { intros d z Hd Hz. by destruct (Hall z Hz) as (_ & _ & Hz'); apply Hz'. }
  destruct (set_insert_sorted erase_key c cr Hsort) as [Hsort' Hin].
  { intros d Hd. destruct (less erase_key c d) eqn:E1; [by left |].
    destruct (less erase_key d c) eqn:E2; [by right |]. exfalso.
    pose proof (tuple_lt_total (erase_key c) (erase_key d) eq_refl E1 E2) as Ed.
    injection Ed as _ Ed. cbn [m_offset] in Ed. destruct (Hrange d Hd).
    apply (Hnew d o Hd); [lia |]. unfold in_chunk. lia. }
  split; [| split; [done | split; [done | apply set_insert_length]]]. constructor; [| done | |].
  - exists real'. split; [done |]. intros z. rewrite Hr', <- HF. unfold unused. setoid_rewrite Hin. split.
    + intros (Hz & Hbz & Hz'). split; [split; [done |]; split; [done |]; auto |].
      apply (Hz' c). by left.
    + intros [(Hz & Hbz & Hz') Hc]. split; [done |]. split; [done |]. intros d [-> | Hd]; auto.
  - intros d [-> | Hd]%Hin.
    + unfold c. cbn [erase_chunk m_offset m_end]. destruct (Hall o) as (_ & ? & _); lia.
    + destruct (Hrange d Hd). lia.
  - intros d d' z [-> | Hd]%Hin [-> | Hd']%Hin Hz Hz'; [done | | | by eapply Hdis].
    + by destruct (Hnew d' z Hd').
    + by destruct (Hnew d z Hd).
Qed.
End Slots.

(** ** The loop *)

Definition start_le (x y : BufferInterval) : Prop :=
  min_colocation_start_time x ≤ min_colocation_start_time y.

Lemma sorted_by_start l :
  StronglySorted start_le
    (merge_sort (compare_le GetColocationStartTimeBufferIntervalCompare) l).
Proof.
  set (R := compare_le _). set (key := λ x, [min_colocation_start_time x; - buffer_size x; buffer x]).
  assert (HR : ∀ x y, R x y ↔ ¬ less key y x = true).
  { intros x y. unfold R, compare_le. by rewrite not_true_iff_false. }
  assert (Transitive R).
  { intros x y z Hxy%HR Hyz%HR. apply HR. intros Hzx.
    destruct (less key x y) eqn:E.
    - apply Hyz. by eapply less_trans.
    - apply Hyz. apply not_true_is_false in Hxy. unfold less in *.
      by rewrite <- (tuple_lt_total (key x) (key y)). }
  assert (Total R).
  { intros x y. rewrite !HR.
    destruct (less key x y) eqn:E.
    - left. by rewrite (less_asym _ x y E).
    - by right. }
  rewrite <- (list_fmap_id (merge_sort R l)). apply (StronglySorted_fmap id R).
  2: by apply StronglySorted_merge_sort.
  intros x y Hxy%HR. unfold start_le. cbn [id].
  destruct (decide (min_colocation_start_time x ≤ min_colocation_start_time y)); [done |].
  destruct Hxy. unfold less, key. cbn [tuple_lt]. by rewrite (proj2 (Z.ltb_lt _ _)) by lia.
Qed.

Section Times.
Context (m : gmap Z BufferInterval) (Hf : forest m) (a M : Z) (Ha : 0 < a) (HM : 0 ≤ M).
Context (HMs : ∀ b x, m !! b = Some x → buffer_size x ≤ M).
Context (Hap : apart m) (Hl : roots_largest m).
Context (m0 : gmap Z Chunk) (Hm0 : ∀ b c, m0 !! b = Some c → m !! b = None).

(** Where the chunk of a group is: below [base], in a slot up to the group's
    end, or nowhere anymore. *)
Definition tracked (base t : Z) (cr : list ChunkToErase) (r : Z) (k : Chunk) : Prop :=
  chunk_end k ≤ base ∨
  (∃ c, c ∈ cr ∧ m_offset (erase_chunk c) ≤ offset k ∧ chunk_end k ≤ m_end (erase_chunk c) ∧
     ∀ b y, group m r b → m !! b = Some y → buffer_end y ≤ when c) ∨
  ∀ b y, group m r b → m !! b = Some y → buffer_end y ≤ t.

Lemma tracked_later base t t' cr cr' r k :
  t ≤ t' → (∀ c, c ∈ cr → t' < when c → c ∈ cr') → tracked base t cr r k → tracked base t' cr' r k.
Proof.
  intros Ht Hcr [H | [(c & Hc & H1 & H2 & H3) | H]].
  - by left.
  - right. destruct (decide (t' < when c)) as [Hw | Hw].
    + left. exists c. split; [by apply Hcr | done].
    + right. intros b y Hb Hy. specialize (H3 b y Hb Hy). lia.
  - right. right. intros b y Hb Hy. specialize (H b y Hb Hy). lia.
Qed.

(** A group that starts at [t] or later may use what no slot uses. *)
Lemma tracked_clear base t cr r k r2 b1 y1 b2 y2 o e :
  tracked base t cr r2 k → 0 < size k → base ≤ o < e → (∀ z, o ≤ z < e → unused base cr z) →
  group m r b1 → group m r2 b2 → m !! b1 = Some y1 → m !! b2 = Some y2 →
  t ≤ buffer_start y1 → buffer_start y1 ≤ buffer_end y2 →
  e ≤ offset k ∨ chunk_end k ≤ o.
Proof.
  intros [H | [(c & Hc & H1 & H2 & _) | H]] Hk Ho Hall G1 G2 Y1 Y2 Ht Hov.
  - right. lia.
  - destruct (decide (e ≤ offset k)) as [| He]; [by left | right].
    destruct (decide (chunk_end k ≤ o)) as [| Hke]; [done |]. exfalso.
    destruct (Hall (Z.max o (offset k))) as (_ & _ & Hz); [unfold chunk_end in *; lia |].
    apply (Hz c Hc). unfold in_chunk, chunk_end in *. lia.
  - specialize (H b2 y2 G2 Y2). destruct (Hap b1 y1 b2 y2 Y1 Y2). lia.
Qed.

(** The state of the loop over the intervals [xs]. *)
Record timed_inv (base t : Z) (ps : list (Z * Chunk)) (cr : list ChunkToErase)
    (mg : FreeChunksManager) (h : Heap) (xs : list BufferInterval) : Prop := {
  ti_intervals : buffer_intervals_ h = m;
  ti_alignment : alignment h = a;
  ti_placed : placed m a M m0 ps (result_ h);
  ti_waiting : waiting m ps xs;
  ti_sorted : StronglySorted start_le xs;
  ti_time x : x ∈ xs → t ≤ min_colocation_start_time x;
  ti_base : 0 ≤ base ≤ heap_size (result_ h);
  ti_slots : slots a base (heap_size (result_ h)) cr mg;
  ti_tracked r k : (r, k) ∈ ps → tracked base t cr r k;
  ti_room : (Z.of_nat (length ps) + Z.of_nat (length xs)) * (M + a) + a ≤ int64_max - 3;
  ti_ids : next_free_chunk_id_ mg + Z.of_nat (length cr) + 3 * Z.of_nat (length xs) ≤ int64_max
}.

(** The next interval leaves the list without a chunk. *)
Lemma timed_inv_skip base t ps cr mg h x xs cr' mg' :
  timed_inv base t ps cr mg h (x :: xs) →
  slots a base (heap_size (result_ h)) cr' mg' →
  (∀ c, c ∈ cr → min_colocation_start_time x < when c → c ∈ cr') →
  next_free_chunk_id_ mg' + Z.of_nat (length cr') ≤ next_free_chunk_id_ mg + Z.of_nat (length cr) →
  timed_inv base (min_colocation_start_time x) ps cr' mg' h xs.
Proof.
  intros [H1 H2 H3 H4 H5 H6 H7 H8 H9 H10 H11] Hs Hcr Hid. cbn [length] in *.
  apply waiting_cons in H4 as [H4 _]. inversion H5 as [| ? ? H5' Hx]; subst. constructor; try done.
  - intros y Hy. rewrite Forall_forall in Hx. by apply Hx.
  - intros r k Hrk. eapply tracked_later; [apply H6; by left | done | by apply H9].
  - nia.
  - lia.
Qed.
(** Placing the next interval: what the code computes, and the state it leaves
    whether or not the limit lets it commit. *)
Lemma place_timed base t ps cr mg h x xs :
  timed_inv base t ps cr mg h (x :: xs) → need_allocation x = true →
  ∃ N cr1 mg1 c mg2 o k mg3 h3,
    GetMaxColocationSize m x = Ok N ∧
    remove_ended (ComputeAlignedChunkEnd a) (min_colocation_start_time x) cr mg = Ok (cr1, mg1) ∧
    FindJustLargeEnough N mg1 = (Some c, mg2) ∧
    fit_chunk c N = Ok (MkMemoryChunk o (chunk_end k) (offset k) (m_id c)) ∧
    timed_inv base (min_colocation_start_time x) ps cr1 mg2 h xs ∧
    0 ≤ offset k ≤ align a (heap_size (result_ h)) ∧ 0 < size k ∧ chunk_end k ≤ int64_max ∧
    Allocate (ComputeAlignedChunkEnd a) o (chunk_end k) mg2 = Ok mg3 ∧
    CommitChunkOnly h x (FromOffsetEnd (offset k) (chunk_end k)) = Ok h3 ∧
    heap_size (result_ h3) = Z.max (heap_size (result_ h)) (chunk_end k) ∧
    timed_inv base (min_colocation_start_time x) ((buffer x, k) :: ps)
      (set_insert erase_key (MkChunkToErase (max_colocation_end_time x)
         (MkMemoryChunk o (chunk_end k) (offset k) (m_id c))) cr1) mg3 h3 xs.
Proof.
  intros Hi Hn. pose proof Hi as [H1 H2 H3 H4 H5 H6 H7 H8 H9 H10 H11]. cbn [length] in *.
  set (H := heap_size (result_ h)) in *. pose proof (pl_size _ _ _ _ _ _ H3) as Hsz. fold H in Hsz.
  pose proof H4 as (_ & Hx & Hnew). apply Forall_cons in Hx as [(y & s & e & Hy & Ex & Htimes) _].
  assert (Hr : root m (buffer x) y) by (split; [done | by subst x]).
  destruct (GetMaxColocationSize_spec m Hf (buffer x) y Hy) as (N & EN & _).
  assert (EyN : N = buffer_size y) by by eapply largest_size.
  pose proof (f_size _ Hf _ _ Hy) as Hpos. pose proof (HMs _ _ Hy) as HNM.
  assert (EN' : GetMaxColocationSize m x = Ok N) by (rewrite Ex; by rewrite with_times_max_size).
  set (t' := min_colocation_start_time x) in *.
  assert (Hal : ∀ z, 0 ≤ z → z + a ≤ int64_max → ComputeAlignedChunkEnd a z = Ok (align a z)).
  { intros z Hz Hza. by apply ComputeAlignedChunkEnd_spec. }
  destruct (remove_ended_spec a Ha _ Hal base H H7 t' cr mg H8) as (cr1 & mg1 & Erem & Hs1 & Hid1 & Hcr1);
    [nia | lia |].
  destruct (FindJustLargeEnough_fits a Ha _ Hal base H H7 cr1 mg1 N Hs1)
    as (c & mg2 & Efind & Hs2 & Hid2 & Hco & Efit & Hfree); [lia | nia |].
  cbv zeta in Efit, Hfree.
  assert (∃ k, k = MkChunk (align a (m_offset c)) N ∧ offset k = align a (m_offset c) ∧ size k = N ∧
    chunk_end k = align a (m_offset c) + N) as (k & Ek & Eo & Es & Ee) by by eexists.
  rewrite <- Ee, <- Eo in Efit. rewrite <- Ee in Hfree.
  assert (Hok : m_offset c ≤ offset k ≤ align a H).
  { rewrite Eo. split; [pose proof (align_up_spec a (m_offset c) Ha); lia | apply align_mono; lia]. }
  pose proof (align_up_spec a H Ha) as [HaH _].
  assert (Hke : chunk_end k = offset k + N) by lia.
  assert (Hkend : chunk_end k + a ≤ int64_max - 3) by nia.
  destruct (take_slot a Ha _ Hal base H cr1 mg2 (max_colocation_end_time x) (m_offset c)
    (chunk_end k) (offset k) (m_id c) Hs2) as (mg3 & Eal & Hs3 & Hid3 & Hin3 & Hlen3); [lia | lia | lia | done |].
  set (cr3 := set_insert erase_key _ cr1) in *.
  destruct (CommitChunkOnly_spec m Hf h (buffer x) y s e (FromOffsetEnd (offset k) (chunk_end k)) N)
    as (r' & EC & EH & Hmap); [done | done | simpl; lia | done | |].
  { intros b' Hb'. eapply placed_fresh; [done | done | exact H3 | exact Hr | apply Hnew; by left | done]. }
  rewrite <- Ex in EC. change (offset (FromOffsetEnd (offset k) (chunk_end k))) with (offset k) in *.
  assert (Ek' : MkChunk (offset k) N = k) by (rewrite Eo; done). rewrite Ek' in *.
  assert (Hskip : timed_inv base t' ps cr1 mg2 h xs).
  { eapply timed_inv_skip; [done | done | | lia]. intros d Hd Hw. by apply Hcr1. }
  exists N, cr1, mg1, c, mg2, (m_offset c), k, mg3, (with_result h r' (interval_tree_ h)).
  split; [done |]. split; [done |]. split; [done |]. split; [done |]. split; [done |].
  split; [lia |]. split; [lia |]. split; [lia |]. split; [done |]. split; [done |].
  split; [exact EH |].
  destruct Hskip as [_ _ _ _ H5' H6' _ _ H9' _ _].
  constructor; cbn [with_result buffer_intervals_ alignment result_ length]; try done.
  - apply (placed_add m Hf a M Ha HM HMs m0 ps (result_ h) (buffer x) y); try done; try (by rewrite Es).
    + apply Hnew. by left.
    + fold H. lia.
    + rewrite Eo. by apply align_up_spec.
    + intros r2 c2 b1 y1 b2 y2 Hr2 G1 G2 Y1 Y2 O1 O2.
      destruct (pl_root _ _ _ _ _ _ H3 r2 c2 Hr2) as (x2 & Hx2 & E2).
      assert (Hlow : base ≤ m_offset c).
      { destruct (Hfree (m_offset c)) as (_ & ? & _); lia. }
      assert (0 < size c2).
      { destruct Hx2 as [Hx2 _]. pose proof (f_size _ Hf _ _ Hx2).
        destruct (GetMaxColocationSize_spec m Hf r2 x2 Hx2) as (N2 & EN2 & HN2 & _).
        pose proof (HN2 r2 x2 (rtc_refl _ _) Hx2). rewrite E2 in EN2. injection EN2 as <-. lia. }
      assert (t' ≤ buffer_start y1).
      { unfold t'. rewrite Ex. cbn [min_colocation_start_time with_colocation_times].
        by apply (Htimes b1 y1). }
      assert (chunk_end k ≤ offset c2 ∨ chunk_end c2 ≤ m_offset c) as [? | ?]; [| by left | right; lia].
      apply (tracked_clear base t' cr1 (buffer x) c2 r2 b1 y1 b2 y2); try done; [by apply H9' | lia].
  - by apply waiting_cons in H4 as [_ H4].
  - rewrite EH. lia.
  - rewrite EH. done.
  - intros r k' [[= -> ->] | Hrk]%elem_of_cons; [right; left | ].
    + eexists. split; [apply Hin3; by left |]. cbn [erase_chunk m_offset m_end when].
      split; [lia |]. split; [lia |]. intros b' y' Hb' Hy'. rewrite Ex.
      by apply (Htimes b' y').
    + eapply tracked_later; [done | | by apply H9']. intros d Hd _. apply Hin3. by right.
  - lia.
  - unfold cr3 in Hlen3. lia.
Qed.
Lemma sorted_by_time_loop_spec limit base xs t ps cr mg h :
  timed_inv base t ps cr mg h xs →
  ∃ ps' h' rest, sorted_by_time_loop limit h mg cr xs = Ok (h', rest) ∧
    buffer_intervals_ h' = m ∧ alignment h' = a ∧ placed m a M m0 ps' (result_ h') ∧
    took ps xs ps' rest ∧
    (heap_size (result_ h) = 0 → xs ≠ [] → (length rest < length xs)%nat) ∧
    (bounded limit ps (result_ h) → bounded limit ps' (result_ h')).
Proof.
  revert t ps cr mg h. induction xs as [| x xs IH]; intros t ps cr mg h Hi.
  { destruct Hi. exists ps, h, []. cbn [sorted_by_time_loop]. split_and!; try done. apply took_nil. }
  pose proof (ti_waiting _ _ _ _ _ _ _ Hi) as (_ & Hx & _). apply Forall_cons in Hx as [Hx _].
  cbn [sorted_by_time_loop]. rewrite (RequiresAllocation_timed m Hf) by done.
  destruct (need_allocation x) eqn:Hn; cbn [negb].
  2: { rewrite (map_trivial_timed m Hf) by done. cbn [mbind res_bind].
    destruct (IH (min_colocation_start_time x) ps cr mg h) as (ps' & h' & rest & E & H1 & H2 & H3 & H4 & _ & H6).
    { eapply timed_inv_skip; [done | by destruct Hi | done | done]. }
    exists ps', h', rest. split_and!; try done; [by apply took_skip |].
    intros _ _. apply took_length in H4. cbn [length]. lia. }
  destruct (place_timed base t ps cr mg h x xs Hi Hn) as
    (N & cr1 & mg1 & c & mg2 & o & k & mg3 & h3 & EN & Erem & Efind & Efit & Hskip & Hk & Hks & Hke &
     Eal & EC & EH & Hplace).
  rewrite (ti_intervals _ _ _ _ _ _ _ Hi), (ti_alignment _ _ _ _ _ _ _ Hi), EN.
  cbn [mbind res_bind]. rewrite Erem. cbn [mbind res_bind]. rewrite Efind. cbn [mbind res_bind].
  rewrite Efit. cbn [mbind res_bind m_end m_offset aligned_chunk_offset].
  pose proof (pl_size _ _ _ _ _ _ (ti_placed _ _ _ _ _ _ _ Hi)) as Hsz.
  destruct (may_commit limit h (chunk_end k)) eqn:Em.
  - apply may_commit_spec in Em; [| unfold chunk_end in *; lia].
    rewrite Eal. cbn [mbind res_bind]. rewrite EC. cbn [mbind res_bind].
    destruct (IH _ _ _ _ _ Hplace) as (ps' & h' & rest & E & H1 & H2 & H3 & H4 & _ & H6).
    exists ps', h', rest. split_and!; try done; [by eapply took_place | |].
    + intros _ _. apply took_length in H4. cbn [length]. lia.
    + intros Hb. apply H6. eapply (bounded_place a Ha); try done; lia.
  - destruct (IH _ _ _ _ _ Hskip) as (ps' & h' & rest & E & H1 & H2 & H3 & H4 & _ & H6).
    rewrite E. cbn [mbind res_bind]. exists ps', h', (x :: rest).
    split_and!; try done; [by apply took_keep |].
    intros H0. exfalso. assert (may_commit limit h (chunk_end k) = true); [| congruence].
    apply may_commit_spec; [unfold chunk_end in *; lia | by right].
Qed.
End Times.

End HeapTimes.
