(* ===== verification/HeapLimitCorrect.v ===== *)
(** * What the constrained heap and the heap algorithms around it promise

    However the intervals are spread over the heaps, every buffer is in one of
    them, with the guarantees of a single heap there, and the limit is kept where
    it can be.  Choosing between algorithms gives the result of one of them. *)
From stdpp Require Import relations.
From S2P Require Import Prelude WindowArith HeapTree HeapFinder HeapSim HeapColoc HeapFree HeapRun HeapCorrect HeapChunks HeapLimit HeapMulti HeapTimes.
#[local] Open Scope Z_scope.

Module HeapLimitCorrect.
Import HeapTree HeapFinder HeapSim HeapColoc HeapFree HeapRun HeapPlace HeapCorrect HeapChunks
  HeapLimit HeapMulti HeapTimes.

(** ** The three ways to fill a heap *)

Section Fill.
Context (m : gmap Z BufferInterval) (Hf : forest m) (a M limit : Z) (Ha : 0 < a) (HM : 0 ≤ M).
Context (HMs : ∀ b x, m !! b = Some x → buffer_size x ≤ M) (Hlimit : 0 ≤ limit).

Definition best_of_good (xs : list BufferInterval) : Prop :=
  waiting m [] xs ∧ Z.of_nat (length xs) * (M + a) ≤ int64_max.

Definition best_of_fill (h : Heap) (xs : list BufferInterval) : res (Heap * list BufferInterval) :=
  '(h, rest, _) ← AllocateBuffersInSingleHeap limit h xs 0; Ok (h, rest).

Lemma best_of_loop_eq fuel h xs r :
  best_of_loop (S fuel) limit h xs r =
    ('(h, xs) ← best_of_fill h xs;
     '(r, h) ← collect_heap h r;
     match xs with [] => Ok r | _ => best_of_loop fuel limit h xs r end).
Proof. cbn [best_of_loop]. unfold best_of_fill. by destruct (AllocateBuffersInSingleHeap _ _ _ _) as [[[? ?] ?] |]. Qed.

Lemma best_of_fill_spec m0 h xs :
  (∀ b c, m0 !! b = Some c → m !! b = None) → fresh_heap m a m0 h → best_of_good xs →
  ∃ ps h' xs', best_of_fill h xs = Ok (h', xs') ∧ filled m a M limit m0 xs ps h' xs' ∧ best_of_good xs'.
Proof.
  intros Hm0 Hh [Hw Hb]. apply (fresh_placed m a M) in Hh as Hp.
  destruct (AllocateBuffersInSingleHeap_spec m Hf a M Ha HM HMs m0 Hm0 limit xs [] h 0 Hp Hw)
    as (ps & h' & rest & me & E & Hp' & Ht & Hlen & Hprog & Hbd & _); [done |].
  exists ps, h', rest. unfold best_of_fill. rewrite E. cbn [mbind res_bind]. split; [done |]. split.
  - constructor; [apply Hp' | apply Hp' | apply Hp' | done | auto |].
    intros Hl. apply Hbd; [done |]. left. destruct Hh. lia.
  - split; [by eapply waiting_rest |]. apply took_length in Ht. nia.
Qed.

(** The intervals in the order of their start times, when the root of every group
    is its largest buffer. *)
Context (Hap : apart m) (Hl : roots_largest m).

Lemma Halign z : 0 ≤ z → z + a ≤ int64_max → ComputeAlignedChunkEnd a z = Ok (align a z).
Proof. intros Hz Hza. by apply ComputeAlignedChunkEnd_spec. Qed.

Definition room (n : nat) : Prop := Z.of_nat n * (M + a + 4) + a + 8 ≤ int64_max.

Lemma room_le n n' : (n' ≤ n)%nat → room n → room n'.
Proof. unfold room. nia. Qed.

Lemma sorted_sublist (R : BufferInterval → BufferInterval → Prop) l k :
  k `sublist_of` l → StronglySorted R l → StronglySorted R k.
Proof.
  induction 1 as [| x k l Hs IH | x k l Hs IH]; intros H; [done | |].
  - inversion H as [| ? ? H1 H2]; subst. constructor; [by apply IH |].
    rewrite Forall_forall in H2 |- *. intros y Hy. by eapply H2, elem_of_sublist.
  - inversion H; subst. by apply IH.
Qed.

(** The slots of a phase that starts above [base]. *)
Lemma timed_inv_start m0 base ps mg h xs :
  buffer_intervals_ h = m → alignment h = a → placed m a M m0 ps (result_ h) →
  base = heap_size (result_ h) → manages a mg (unused base []) →
  next_free_chunk_id_ mg ≤ 6 → waiting m ps xs → StronglySorted start_le xs →
  room (length ps + length xs) → ∃ t, timed_inv m a M m0 base t ps [] mg h xs.
Proof.
  intros H1 H2 H3 Hb H4 H5 H6 H7 H8. pose proof (pl_size _ _ _ _ _ _ H3) as Hsz. unfold room in H8.
  exists (match xs with [] => 0 | x :: _ => min_colocation_start_time x end).
  constructor; try done; try (cbn [length]; nia).
  - intros x Hx. destruct xs as [| y xs]; [by apply elem_of_nil in Hx |].
    apply elem_of_cons in Hx as [-> | Hx]; [done |]. inversion H7 as [| ? ? _ Hy]; subst.
    rewrite Forall_forall in Hy. by apply Hy.
  - constructor; [done | constructor | |]; by intros ? * ?%elem_of_nil.
  - intros r k Hk. left. apply (pl_chunk _ _ _ _ _ _ H3) in Hk as [(_ & _ & ?) _]. lia.
Qed.

Definition fast_merge_good (xs : list BufferInterval) : Prop :=
  waiting m [] xs ∧ StronglySorted start_le xs ∧ room (length xs).

Definition fast_merge_fill (h : Heap) (xs : list BufferInterval) : res (Heap * list BufferInterval) :=
  chunks_manager ← new_manager (ComputeAlignedChunkEnd (alignment h));
  AllocateBuffersSortedByTimeInSingleHeap limit h chunks_manager xs.

Lemma fast_merge_loop_eq fuel h xs r :
  fast_merge_loop (S fuel) limit h xs r =
    ('(h, xs) ← fast_merge_fill h xs;
     '(r, h) ← collect_heap h r;
     match xs with [] => Ok r | _ => fast_merge_loop fuel limit h xs r end).
Proof.
  cbn [fast_merge_loop]. unfold fast_merge_fill. destruct (new_manager _) as [mg |]; [| done].
  cbn [mbind res_bind]. by destruct (AllocateBuffersSortedByTimeInSingleHeap _ _ _ _) as [[? ?] |].
Qed.

Lemma new_manager_manages :
  a ≤ int64_max - 3 →
  ∃ mg, new_manager (ComputeAlignedChunkEnd a) = Ok mg ∧ manages a mg (unused 0 []) ∧
    next_free_chunk_id_ mg = 4.
Proof.
  intros Hmax. destruct (new_manager_spec a Ha _ Halign Hmax) as (mg & real & E & Hm & HF & Hid).
  exists mg. split; [done |]. split; [| done]. exists real. split; [done |]. intros z. rewrite HF.
  unfold unused. split; [naive_solver |]. intros Hz. split; [done |]. split; [lia |].
  by intros c ?%elem_of_nil.
Qed.

Lemma fast_merge_fill_spec m0 h xs :
  (∀ b c, m0 !! b = Some c → m !! b = None) → fresh_heap m a m0 h → fast_merge_good xs →
  ∃ ps h' xs', fast_merge_fill h xs = Ok (h', xs') ∧ filled m a M limit m0 xs ps h' xs' ∧
    fast_merge_good xs'.
Proof.
  intros Hm0 Hh (Hw & Hs & Hb). apply (fresh_placed m a M) in Hh as Hp. pose proof Hh as [H1 H2 H3 H4 H5].
  unfold fast_merge_fill. rewrite H2.
  destruct new_manager_manages as (mg & E & Hmg & Hid); [unfold room in Hb; nia |].
  rewrite E. cbn [mbind res_bind].
  destruct (timed_inv_start m0 0 [] mg h xs) as [t Ht]; try done; [apply Hp | lia |].
  destruct (sorted_by_time_loop_spec m Hf a M Ha HM HMs Hap Hl m0 Hm0 limit 0 xs t [] [] mg h Ht)
    as (ps & h' & rest & E' & I1 & I2 & I3 & I4 & I5 & I6).
  exists ps, h', rest. unfold AllocateBuffersSortedByTimeInSingleHeap. rewrite E'. split; [done |]. split.
  - constructor; try done; [auto |]. intros _. apply I6. left. lia.
  - split; [by eapply waiting_rest |]. split; [eapply sorted_sublist; [apply I4 | done] |].
    eapply room_le; [by eapply took_length | done].
Qed.

(** The two phases of [FinishFastSplit]. *)
Definition fast_split_good (st : list BufferInterval * list BufferInterval) : Prop :=
  waiting m [] (st.1 ++ st.2) ∧ StronglySorted start_le st.2 ∧ room (length (st.1 ++ st.2)).

Definition fast_split_fill (h : Heap) (st : list BufferInterval * list BufferInterval)
    : res (Heap * (list BufferInterval * list BufferInterval)) :=
  chunks_manager ← new_manager (ComputeAlignedChunkEnd (alignment h));
  '(h, expensive, max_end_in_phase_one) ← AllocateBuffersInSingleHeap limit h st.1 0;
  chunks_manager ← Allocate (ComputeAlignedChunkEnd (alignment h)) 0 max_end_in_phase_one
    chunks_manager;
  '(h, fast) ← AllocateBuffersSortedByTimeInSingleHeap limit h chunks_manager st.2;
  Ok (h, (expensive, fast)).

Lemma fast_split_loop_eq fuel h st r :
  fast_split_loop (S fuel) limit h st.1 st.2 r =
    ('(h, st) ← fast_split_fill h st;
     '(r, h) ← collect_heap h r;
     match st.1 ++ st.2 with [] => Ok r | _ => fast_split_loop fuel limit h st.1 st.2 r end).
Proof.
  cbn [fast_split_loop]. unfold fast_split_fill. destruct (new_manager _) as [mg |]; [| done].
  cbn [mbind res_bind].
  destruct (AllocateBuffersInSingleHeap _ _ _ _) as [[[h1 e] me] |]; [| done]. cbn [mbind res_bind].
  destruct (Allocate _ _ _ _) as [mg1 |]; [| done]. cbn [mbind res_bind].
  destruct (AllocateBuffersSortedByTimeInSingleHeap _ _ _ _) as [[h2 f] |]; [| done].
  cbn [mbind res_bind fst snd]. destruct (collect_heap h2 r) as [[r1 h3] |]; [| done].
  cbn [mbind res_bind]. by destruct e, f.
Qed.

Lemma waiting_app_l e f : waiting m [] (e ++ f) → waiting m [] e.
Proof.
  intros (Hnd & Hall & _). rewrite fmap_app in Hnd. apply NoDup_app in Hnd as (H1 & _ & _).
  apply Forall_app in Hall as [A1 _]. split; [done |]. split; [done |]. by intros ? _ ?%elem_of_nil.
Qed.

(** The first phase leaves the intervals of the second one. *)
Lemma waiting_second e f ps e' :
  waiting m [] (e ++ f) → took [] e ps e' → waiting m ps f.
Proof.
  intros (Hnd & Hall & _) Ht. rewrite fmap_app in Hnd. apply NoDup_app in Hnd as (_ & Hdis & H2).
  apply Forall_app in Hall as [_ A2]. split; [done |]. split; [done |].
  intros x Hx Hin. apply (Hdis (buffer x)); [| by apply list_elem_of_fmap_2].
  assert (buffer x ∈ ps.*1 ++ (buffer <$> e')) as Hin' by set_solver.
  rewrite (tk_roots _ _ _ _ Ht) in Hin'. cbn [fmap list_fmap app] in Hin'.
  eapply elem_of_sublist; [exact Hin' |]. apply (fmap_sublist buffer), sublist_filter.
Qed.

Lemma took_app e f ps1 e' ps2 f' :
  took [] e ps1 e' → took ps1 f ps2 f' → took [] (e ++ f) ps2 (e' ++ f').
Proof.
  intros [A1 A2 A3] [B1 B2 B3]. constructor.
  - by apply sublist_app.
  - intros x [Hx | Hx]%elem_of_app; [by apply A2 | by apply B2].
  - unfold needy in *. rewrite filter_app, !fmap_app. cbn [fmap list_fmap app] in *.
    rewrite <- A3, <- (Permutation_app_comm (buffer <$> f')), app_assoc, B3.
    rewrite <- !app_assoc. f_equiv. apply Permutation_app_comm.
Qed.

(** What the first phase used is taken out of the manager. *)
Lemma first_phase_taken mg e :
  manages a mg (unused 0 []) → next_free_chunk_id_ mg = 4 → 0 ≤ e → e + a ≤ int64_max - 4 →
  ∃ mg', Allocate (ComputeAlignedChunkEnd a) 0 e mg = Ok mg' ∧ manages a mg' (unused e []) ∧
    next_free_chunk_id_ mg' ≤ 6.
Proof.
  intros (real & Hm & HF) Hid He Hea.
  destruct (free_range a mg real 0 (Z.max 1 e)) as (c & Hc & Hc0 & Hce); [done | lia | |].
  { intros z Hz. apply HF. split; [lia |]. split; [lia |]. by intros ? ?%elem_of_nil. }
  destruct (g_chunk _ _ _ Hm c Hc) as ((? & _) & _).
  destruct (Allocate_spec a Ha _ Halign mg real 0 e c) as (mg' & real' & E & Hm' & HF' & Hid');
    [done | done | lia | lia | lia | lia | int_lia |].
  exists mg'. split; [done |]. split; [| lia]. exists real'. split; [done |]. intros z.
  rewrite HF', <- HF. unfold unused. split.
  - intros (? & ? & ?). split; [split; [done |]; split; [lia | done] | lia].
  - intros ((? & _ & ?) & ?). split; [done |]. split; [lia | done].
Qed.

Lemma fast_split_fill_spec m0 h st :
  (∀ b c, m0 !! b = Some c → m !! b = None) → fresh_heap m a m0 h → fast_split_good st →
  ∃ ps h' st', fast_split_fill h st = Ok (h', st') ∧
    filled m a M limit m0 (st.1 ++ st.2) ps h' (st'.1 ++ st'.2) ∧ fast_split_good st'.
Proof.
  destruct st as [e f]. cbn [fst snd]. intros Hm0 Hh (Hw & Hs & Hb). cbn [fst snd] in *.
  apply (fresh_placed m a M) in Hh as Hp. pose proof Hh as [H1 H2 H3 H4 H5].
  rewrite length_app in Hb. pose proof Hb as Hb'. unfold room in Hb'.
  unfold fast_split_fill. rewrite H2. cbn [fst snd].
  destruct new_manager_manages as (mg & Emg & Hmg & Hid); [nia |].
  rewrite Emg. cbn [mbind res_bind].
  destruct (AllocateBuffersInSingleHeap_spec m Hf a M Ha HM HMs m0 Hm0 limit e [] h 0 Hp)
    as (ps1 & h1 & e' & me & E1 & Hp1 & Ht1 & Hlen1 & Hprog1 & Hbd1 & Hme);
    [by eapply waiting_app_l | cbn [length]; nia |].
  rewrite E1. cbn [mbind res_bind]. rewrite (pi_alignment _ _ _ _ _ _ Hp1).
  specialize (Hme Hl (eq_sym H3)). pose proof (pl_size _ _ _ _ _ _ (pi_placed _ _ _ _ _ _ Hp1)) as Hsz1.
  cbn [length] in Hlen1.
  destruct (first_phase_taken mg me Hmg Hid) as (mg1 & E2 & Hmg1 & Hid1); [lia | nia |].
  rewrite E2. cbn [mbind res_bind]. unfold AllocateBuffersSortedByTimeInSingleHeap.
  destruct (timed_inv_start m0 me ps1 mg1 h1 f) as [t Ht]; try done;
    [apply Hp1 | apply Hp1 | apply Hp1 | by eapply waiting_second | eapply room_le; [| done]; lia |].
  destruct (sorted_by_time_loop_spec m Hf a M Ha HM HMs Hap Hl m0 Hm0 limit me f t ps1 [] mg1 h1 Ht)
    as (ps & h' & f' & E3 & I1 & I2 & I3 & I4 & I5 & I6).
  rewrite E3. cbn [mbind res_bind]. exists ps, h', (e', f'). cbn [fst snd]. split; [done |].
  assert (Htook : took [] (e ++ f) ps (e' ++ f')) by by eapply took_app.
  pose proof (took_length _ _ _ _ Ht1). pose proof (took_length _ _ _ _ I4). split.
  - constructor; try done.
    + intros Hne. rewrite !length_app. destruct e as [| x e].
      * cbn [length app] in *. destruct ps1; [| simpl in Hlen1; lia].
        ospecialize (I5 _ Hne); [simpl in Hsz1; lia | lia].
      * ospecialize (Hprog1 eq_refl _); [done | lia].
    + intros _. apply I6, Hbd1; [done |]. left. lia.
  - split; [by eapply waiting_rest |]. split; [eapply sorted_sublist; [apply I4 | done] |].
    eapply room_le; [by eapply took_length |]. by rewrite length_app.
Qed.

Lemma split_passes_spec xs h n :
  buffer_intervals_ h = m → Forall (timed m) xs →
  ∃ e f, split_passes h n xs = Ok (h, e, f) ∧ e ++ f ≡ₚ needy xs.
Proof.
  intros Em Hall. revert n. induction Hall as [| x xs Hx _ IH]; intros n; [by exists [], [] |].
  cbn [split_passes]. rewrite needy_cons, (RequiresAllocation_timed m Hf) by done.
  destruct (need_allocation x) eqn:Hn; cbn [negb].
  2: { rewrite (map_trivial_timed m Hf) by done. apply IH. }
  destruct Hx as (y & s & e & Hy & Ex & _).
  destruct (group_members m Hf (buffer x) y Hy) as (cs & _ & Ecs & _).
  rewrite Em, Ex, with_times_colocations, Ecs, <- Ex. cbn [mbind res_bind].
  destruct (bool_decide (cs = ∅) && (n >=? _)).
  - destruct (IH n) as (e1 & f1 & E & Hp). rewrite E. exists e1, (x :: f1). split; [done |].
    by rewrite <- Permutation_middle, Hp.
  - destruct (IH (n + (if bool_decide (cs = ∅) then 1 else 0))) as (e1 & f1 & E & Hp). rewrite E.
    exists (x :: e1), f1. split; [done |]. cbn [app]. by rewrite Hp.
Qed.
End Fill.

(** ** The constrained heap *)

(** The bound on the events the fast strategies need: the manager numbers its
    chunks, and keeps some addresses of its own. *)
Definition roomy (a M : Z) (es : list event) : Prop :=
  Z.of_nat (length es) * (M + a + 4) + a + 8 ≤ int64_max.

Definition fast_strategy (h : Heap) : Prop :=
  packing_strategy_ h = kFastMerge ∨ packing_strategy_ h = kFastSplit.

(** Every strategy is a loop over heaps, on the sorted intervals. *)
Lemma LimitedFinish_heaps a M limit h n xs :
  let m := buffer_intervals_ h in let m0 := chunk_map (result_ h) in
  forest m → apart m → 0 < a → 0 ≤ M → 0 ≤ limit → (∀ b x, m !! b = Some x → buffer_size x ≤ M) →
  (fast_strategy h → roots_largest m) → (∀ b c, m0 !! b = Some c → m !! b = None) →
  fresh_heap m a m0 h → GetSortedBufferIntervals h = Ok xs → waiting m [] xs →
  (∃ ys, xs = merge_sort (compare_le (buffer_interval_compare_ (packing_strategy_ h))) ys) →
  (length xs ≤ n)%nat → Z.of_nat n * (M + a + 4) + a + 8 ≤ int64_max →
  ∃ pss rs, LimitedFinish (MkLimited h limit) = Ok (MkResult rs (total_size rs)) ∧
    heaps m a M limit m0 pss rs ∧ rs ≠ [] ∧ (concat pss).*1 ≡ₚ buffer <$> needy xs.
Proof.
  intros m m0 Hf Hap Ha HM Hlim HMs Hfast Hm0 Hh Exs Hw [ys Esort] Hlen Hb.
  pose proof (room_le a M Ha HM n (length xs) Hlen Hb) as Hroom. unfold room in Hroom.
  assert (Hbest : ∃ pss rs, FinishBestOfSpatialTemporal (MkLimited h limit) = Ok (MkResult rs (total_size rs)) ∧
    heaps m a M limit m0 pss rs ∧ rs ≠ [] ∧ (concat pss).*1 ≡ₚ buffer <$> needy xs).
  { unfold FinishBestOfSpatialTemporal. cbn [base_heap size_limit_per_heap_]. rewrite Exs.
    cbn [mbind res_bind].
    apply (loop_spec m a M Ha HM id (best_of_good m a M) (best_of_fill limit)
      (λ fuel h xs r, best_of_loop fuel limit h xs r) limit) with (acc := []) (total := 0); try done.
    - intros. apply best_of_loop_eq.
    - intros. by apply best_of_fill_spec.
    - split; [done | nia].
    - cbn [id]. lia.
    - cbn [id]. nia. }
  unfold LimitedFinish. cbn [base_heap]. destruct (packing_strategy_ h) eqn:Ep; try exact Hbest.
  - specialize (Hfast (or_introl Ep)). unfold FinishFastMerge. cbn [base_heap size_limit_per_heap_].
    rewrite Exs. cbn [mbind res_bind].
    apply (loop_spec m a M Ha HM id (fast_merge_good m a M) (fast_merge_fill limit)
      (λ fuel h xs r, fast_merge_loop fuel limit h xs r) limit) with (acc := []) (total := 0); try done.
    + intros. apply fast_merge_loop_eq.
    + intros. by apply fast_merge_fill_spec.
    + split; [done |]. split; [rewrite Esort; apply sorted_by_start | by apply (room_le a M Ha HM n)].
    + cbn [id]. lia.
    + cbn [id]. nia.
  - specialize (Hfast (or_intror Ep)). unfold FinishFastSplit. cbn [base_heap size_limit_per_heap_].
    rewrite Exs. cbn [mbind res_bind].
    destruct (split_passes_spec m Hf xs h 0 eq_refl) as (e & f & E & Hperm); [apply Hw |].
    rewrite E. cbn [mbind res_bind]. set (f' := merge_sort _ f).
    assert (Hperm' : e ++ f' ≡ₚ needy xs) by (by rewrite <- Hperm; unfold f'; rewrite merge_sort_Permutation).
    assert (Hneedy : needy (e ++ f') ≡ₚ needy xs).
    { unfold needy at 1. rewrite Hperm', list_filter_all; [done |]. apply Forall_forall.
      by intros x [? _]%list_elem_of_filter. }
    assert (Hcount : (length (e ++ f') ≤ length xs)%nat).
    { rewrite (Permutation_length Hperm'). apply length_filter. }
    setoid_rewrite <- Hneedy.
    apply (loop_spec m a M Ha HM (λ st : list BufferInterval * list BufferInterval, st.1 ++ st.2)
      (fast_split_good m a M) (fast_split_fill limit)
      (λ fuel h st r, fast_split_loop fuel limit h st.1 st.2 r) limit) with (st := (e, f')) (acc := []) (total := 0);
      cbn [fst snd]; try done.
    + intros. apply fast_split_loop_eq.
    + intros. by apply fast_split_fill_spec.
    + split; [| split]; cbn [fst snd]; [| apply sorted_by_start | by eapply (room_le a M Ha HM n); [lia |]].
      destruct Hw as (H1 & H2 & _). split; [| split]; [| | by intros ? _ ?%elem_of_nil].
      * rewrite Hperm'. eapply sublist_NoDup; [exact H1 |]. apply (fmap_sublist buffer), sublist_filter.
      * rewrite Hperm'. rewrite Forall_forall in H2 |- *. intros x [_ Hx]%list_elem_of_filter. by apply H2.
    + lia.
    + nia.
Qed.
(** [GetMaxColocationSize] decides whether the roots are the largest. *)
Lemma roots_largest_check m :
  forest m →
  Forall (λ x, need_allocation x = true → GetMaxColocationSize m x = Ok (buffer_size x))
    (snd <$> map_to_list m) →
  roots_largest m.
Proof.
  intros Hf H r x b y [Hx Hn] Hb Hy. rewrite Forall_forall in H.
  assert (E : GetMaxColocationSize m x = Ok (buffer_size x)).
  { apply H; [| done]. apply list_elem_of_fmap. exists (r, x). split; [done |]. by apply elem_of_map_to_list. }
  destruct (GetMaxColocationSize_spec m Hf r x Hx) as (N & EN & HN & _).
  rewrite E in EN. injection EN as <-. by eapply HN.
Qed.

Lemma LimitedFinish_spec a M p ty es h limit :
  let m := buffer_intervals_ h in
  simulated a M p ty es h → roomy a M es → 0 ≤ limit → (fast_strategy h → roots_largest m) →
  ∃ rs, LimitedFinish (MkLimited h limit) = Ok (MkResult rs (total_size rs)) ∧
    safe_results a m rs ∧ (roots_largest m → within_limit limit m rs) ∧
    ∀ b, b ∈ defined es → m !! b = None →
      ∃ r, head rs = Some r ∧ chunk_map r !! b = Some (MkChunk 0 0).
Proof.
  intros m Hsim Hroom Hlim Hfast.
  destruct (simulated_collected _ _ _ _ _ _ Hsim) as (Ha & HM & ids & Hc & Hids).
  destruct Hsim as (_ & _ & _ & HM0 & _).
  destruct Hc as [Hf Eal _ _ Hap Hdom Hm0 Et Ehs Hmapped].
  destruct (GetSortedBufferIntervals_spec h Hf) as (xs & Exs & Hnd & Hlen & Hall & Hin & Hsort).
  fold m in Hf, Hap, Hall, Hin.
  assert (Hm0' : ∀ b c, chunk_map (result_ h) !! b = Some c → m !! b = None).
  { intros b c Hbc. by apply (Hm0 b c). }
  destruct (LimitedFinish_heaps a M limit h (length es) xs) as (pss & rs & E & Hh & Hne & Hperm);
    try done.
  { split; [done |]. split; [done |]. by intros ? _ ?%elem_of_nil. }
  { rewrite Hlen. etrans; [| apply defined_length]. apply map_size_le. intros b Hb. by apply Hids, Hdom. }
  exists rs. split; [done |].
  split; [by apply (heaps_safe m Hf a M limit (chunk_map (result_ h)) Hm0' pss rs Hh xs) |].
  split; [by apply (heaps_within_limit m Hf a M limit (chunk_map (result_ h)) Hm0' pss rs Hh) |].
  intros b Hb Hnone. destruct (Hmapped b) as [[? ?] | [c Hbc]]; [by apply Hids | unfold m in Hnone; congruence |].
  destruct (Hm0 b c Hbc) as [-> _].
  by apply (heaps_first m a M limit (chunk_map (result_ h)) Hm0' pss rs Hh b).
Qed.

(** ** The properties *)

(** C6: [ConstrainedGlobalDecreasingSizeBestFitHeap::Finish] returns for every limit, with
    the default packing strategy on every simulation, and with the two fast strategies on
    those in which no buffer is larger than the root of the allocation it shares (without
    this they can abort or overlap chunks, see [fast_merge_aborts] and
    [fast_split_overlaps]).  The size of the result is the sum of those of its heaps; every
    buffer is in exactly one heap, with the guarantees of a single heap there: room,
    alignment, one chunk for colocated buffers and disjoint ones for others that are live
    together; and 0-sized buffers are in the first heap.  The offsets must fit into 64 bits. *)
Theorem LimitedFinish_safe a M p ty es h limit :
  let m := buffer_intervals_ h in
  simulated a M p ty es h → roomy a M es → 0 ≤ limit → (fast_strategy h → roots_largest m) →
  ∃ rs, LimitedFinish (MkLimited h limit) = Ok (MkResult rs (total_size rs)) ∧
    safe_results a m rs ∧
    ∀ b, b ∈ defined es → m !! b = None →
      ∃ r, head rs = Some r ∧ chunk_map r !! b = Some (MkChunk 0 0).
Proof.
  intros m Hsim Hroom Hlim Hfast.
  destruct (LimitedFinish_spec a M p ty es h limit Hsim Hroom Hlim Hfast) as (rs & H1 & H2 & _ & H4).
  by exists rs.
Qed.

(** C7: when no buffer is larger than the root of the allocation it shares, no heap of the
    result exceeds the limit, under every strategy, except one that a single buffer above
    the limit fills.  Otherwise a heap can exceed it, see [limit_exceeded]. *)
Theorem LimitedFinish_within_limit a M p ty es h limit :
  let m := buffer_intervals_ h in
  simulated a M p ty es h → roomy a M es → 0 ≤ limit → roots_largest m →
  ∃ rs, LimitedFinish (MkLimited h limit) = Ok (MkResult rs (total_size rs)) ∧ within_limit limit m rs.
Proof.
  intros m Hsim Hroom Hlim Hl.
  destruct (LimitedFinish_spec a M p ty es h limit Hsim Hroom Hlim (λ _, Hl)) as (rs & H1 & _ & H3 & _).
  exists rs. split; [done | by apply H3].
Qed.

(** ** A simulation *)

Definition demo_run (p : PackingStrategy) (es : list event) : Heap :=
  match h0 ← new_heap 4 p kAll; run h0 es with
  | Ok h => h
  | Fail _ => MkHeap ∅ (MkHeapResult ∅ 0) Leaf 1 0 p kAll
  end.

(** The buffers 1 and 3 share a chunk, 2 needs a heap of its own below a limit of
    20, and 5 comes after the others. *)
Definition demo_shared : list event :=
  [EAlloc 1 16; EAlloc 2 20; EShareWith 3 1 15; EFree 1 16; EAlloc 4 0; EFree 2 20;
   EFree 3 15; EAlloc 5 8; EFree 5 8].

Definition demo_limited : Heap := demo_run kFastMerge demo_shared.

Lemma demo_limited_simulated : simulated 4 20 kFastMerge kAll demo_shared demo_limited.
Proof.
  split; [vm_compute; reflexivity |].
  split; [apply (bool_decide_eq_true_1 (NoDup (defined demo_shared))); vm_compute; reflexivity |].
  split; [| split; [lia | vm_compute; discriminate]].
  unfold demo_shared. repeat (constructor; [simpl; lia |]). constructor.
Qed.

Lemma demo_largest : roots_largest (buffer_intervals_ demo_limited).
Proof.
  destruct (simulated_collected _ _ _ _ _ _ demo_limited_simulated) as (_ & _ & ids & Hc & _).
  apply roots_largest_check; [by destruct Hc |]. vm_compute. repeat constructor; try discriminate.
Qed.

Definition show (r : res Result) : res (list (list (Z * Chunk)) * Z) :=
  r ← r; Ok (map_to_list ∘ chunk_map <$> heap_results r, result_heap_size r).

Example demo_limited_result :
  show (LimitedFinish (MkLimited demo_limited 20)) =
  Ok ([[(5, MkChunk 0 8); (3, MkChunk 0 16); (4, MkChunk 0 0); (1, MkChunk 0 16)];
       [(2, MkChunk 0 20)]], 36).
Proof. vm_compute. reflexivity. Qed.

Lemma LimitedFinish_safe_witness :
  simulated 4 20 kFastMerge kAll demo_shared demo_limited ∧ roots_largest (buffer_intervals_ demo_limited) ∧
  ∃ rs, LimitedFinish (MkLimited demo_limited 20) = Ok (MkResult rs (total_size rs)) ∧
    safe_results 4 (buffer_intervals_ demo_limited) rs.
Proof.
  split; [apply demo_limited_simulated |]. split; [apply demo_largest |].
  destruct (LimitedFinish_safe 4 20 kFastMerge kAll demo_shared demo_limited 20
    demo_limited_simulated) as (rs & H1 & H2 & _);
    [vm_compute; discriminate | lia | intros _; apply demo_largest |].
  exists rs. split; [exact H1 | exact H2].
Defined.

Lemma LimitedFinish_within_limit_witness :
  simulated 4 20 kFastMerge kAll demo_shared demo_limited ∧ roots_largest (buffer_intervals_ demo_limited) ∧
  ∃ rs, LimitedFinish (MkLimited demo_limited 20) = Ok (MkResult rs (total_size rs)) ∧
    within_limit 20 (buffer_intervals_ demo_limited) rs.
Proof.
  split; [apply demo_limited_simulated |]. split; [apply demo_largest |].
  apply (LimitedFinish_within_limit 4 20 kFastMerge kAll demo_shared demo_limited 20
    demo_limited_simulated); [vm_compute; discriminate | lia | apply demo_largest].
Defined.

(** ** What goes wrong with a root that is not the largest *)

(** The chunk of the fast strategy has the size of the largest buffer, which
    [CommitChunkOnly] compares with that of the root. *)
Example fast_merge_aborts :
  LimitedFinish (MkLimited (demo_run kFastMerge [EAlloc 1 10; EShareWith 2 1 15; EFree 2 15; EFree 1 10]) 100) =
  Fail CheckFailed.
Proof. vm_compute. reflexivity. Qed.

(** The limit is compared with the end of the root, not with that of the largest
    buffer: the only heap is of 120 bytes. *)
Definition demo_exceeding : list event :=
  [EAlloc 1 20; EAlloc 2 10; EShareWith 3 2 100; EFree 3 100; EFree 2 10; EFree 1 20].

Example limit_exceeded :
  show (LimitedFinish (MkLimited (demo_run kSpatial demo_exceeding) 50)) =
  Ok ([[(3, MkChunk 20 100); (2, MkChunk 20 100); (1, MkChunk 0 20)]], 120).
Proof. vm_compute. reflexivity. Qed.

(** The expensive pass ends where the last root does: the buffer 1000 of the fast
    pass overlaps the buffer 1, which is live together with it. *)
Definition demo_split : list event :=
  [EAlloc 0 8; EShareWith 1 0 100] ++
  flat_map (λ i, [EAlloc i 12; EFree i 12]) (seqZ 2 500) ++
  [EAlloc 1000 4; EFree 1000 4; EFree 1 100; EFree 0 8].

Example fast_split_overlaps :
  (r ← LimitedFinish (MkLimited (demo_run kFastSplit demo_split) 1000);
   Ok ((λ r, (chunk_map r !! 1, chunk_map r !! 1000)) <$> heap_results r)) =
  Ok [(Some (MkChunk 12 100), Some (MkChunk 20 4))].
Proof. vm_compute. reflexivity. Qed.

End HeapLimitCorrect.

(** ** Choosing a heap algorithm

    The best of several algorithms gives the least of their results for the same
    events, an algorithm with a fallback gives the result of one of the two, and
    the midpoint iterator visits every value of a range once. *)
Module HeapAlgoCorrect.
Import HeapTree HeapFinder HeapSim HeapColoc HeapLimit.

(** ** The best of several *)

(** The algorithms as the events leave them. *)
Definition ran (es : list event) (l : list Algorithm) : res (list Algorithm) :=
  mapM (λ a, alg_run a es) l.

(** The first of the least results. *)
Definition first_least (rs : list Result) (r : Result) : Prop :=
  ∃ i, rs !! i = Some r ∧
    ∀ j r', rs !! j = Some r' → result_heap_size r ≤ result_heap_size r' ∧
      ((j < i)%nat → result_heap_size r < result_heap_size r').

Lemma mapM_bind {A B C} (f : A → res B) (g : B → res C) l ys :
  mapM f l = Ok ys → mapM (λ x, f x ≫= g) l = mapM g ys.
Proof.
  revert ys. induction l as [| x l IH]; intros ys; cbn [mapM].
  - intros H. by injection H as <-.
  - intros (y & Ey & H)%bind_ok. apply bind_ok in H as (zs & Ezs & H). injection H as <-.
    rewrite Ey. cbn [mbind res_bind mapM]. by rewrite (IH zs).
Qed.

Lemma mapM_bind_ok {A B C} (f : A → res B) (g : B → res C) l zs :
  mapM (λ x, f x ≫= g) l = Ok zs → ∃ ys, mapM f l = Ok ys ∧ mapM g ys = Ok zs.
Proof.
  revert zs. induction l as [| x l IH]; intros zs; cbn [mapM].
  - intros H. injection H as <-. by exists [].
  - intros (z & Ez & H)%bind_ok. apply bind_ok in Ez as (y & Ey & Ez).
    apply bind_ok in H as (zs' & Ezs & H). injection H as <-.
    destruct (IH zs' Ezs) as (ys & Eys & E). exists (y :: ys). rewrite Ey. cbn [mbind res_bind].
    rewrite Eys. split; [done |]. cbn [mapM]. rewrite Ez. cbn [mbind res_bind]. by rewrite E.
Qed.

Lemma choose_best_step c e : alg_step c e = (l ← mapM (λ a, alg_step a e) (algorithms_ c); Ok (MkChooseBest l)).
Proof. by destruct e. Qed.

Lemma choose_best_run c es l :
  ran es (algorithms_ c) = Ok l → alg_run c es = Ok (MkChooseBest l).
Proof.
  revert c. induction es as [| e es IH]; intros [l0] H; unfold ran in H; cbn [algorithms_] in H.
  - cbn [alg_run] in *. f_equal. f_equal.
    revert l H. induction l0 as [| a l0 IH]; intros l H; cbn [mapM] in H; [by injection H |].
    cbn [mbind res_bind] in H. apply bind_ok in H as (l' & E & H). injection H as <-. f_equal. by apply IH.
  - cbn [alg_run]. rewrite choose_best_step. cbn [algorithms_].
    apply (mapM_bind_ok (λ a, alg_step a e) (λ a, alg_run a es)) in H as (l1 & E1 & E2).
    rewrite E1. cbn [mbind res_bind]. by apply IH.
Qed.

Lemma choose_best_spec rs l min best :
  mapM alg_Finish l = Ok rs →
  (choose_best min best l = Ok best ∧ Forall (λ r, min ≤ result_heap_size r) rs) ∨
  ∃ r, choose_best min best l = Ok (Some r) ∧ result_heap_size r < min ∧ first_least rs r.
Proof.
  revert rs min best. induction l as [| a l IH]; intros rs min best H; cbn [mapM choose_best] in *.
  - injection H as <-. by left.
  - apply bind_ok in H as (r & Er & H). apply bind_ok in H as (rs' & Ers & H). injection H as <-.
    rewrite Er. cbn [mbind res_bind]. destruct (Z.ltb_spec (result_heap_size r) min).
    + right. destruct (IH rs' (result_heap_size r) (Some r) Ers) as [[E Hall] | (r' & E & Hr' & i & Hi & Hleast)].
      * exists r. split; [done |]. split; [done |]. exists 0%nat. split; [done |].
        intros [| j] r' Hj; [injection Hj as <-; split; [lia | lia] |].
        rewrite Forall_lookup in Hall. split; [by eapply Hall | lia].
      * exists r'. split; [done |]. split; [lia |]. exists (S i). split; [done |].
        intros [| j] r2 Hj; [injection Hj as <-; lia |]. destruct (Hleast j r2 Hj). split; [done |].
        intros; auto with lia.
    + destruct (IH rs' min best Ers) as [[E Hall] | (r' & E & Hr' & i & Hi & Hleast)].
      * left. split; [done |]. by constructor.
      * right. exists r'. split; [done |]. split; [done |]. exists (S i). split; [done |].
        intros [| j] r2 Hj; [injection Hj as <-; lia |]. destruct (Hleast j r2 Hj). split; [done |].
        intros; auto with lia.
Qed.

(** when every algorithm serves the events and finishes with a size that is
    not the greatest 64-bit integer, [ChooseBestHeapAlgorithm] serves them too,
    and finishes with the first of the results of least size. *)
Theorem ChooseBest_least es algorithms l rs :
  ran es algorithms = Ok l → mapM alg_Finish l = Ok rs → rs ≠ [] →
  Forall (λ r, result_heap_size r < int64_max) rs →
  ∃ r, (c ← alg_run (MkChooseBest algorithms) es; alg_Finish c) = Ok r ∧ first_least rs r.
Proof.
  intros Hrun Hfin Hne Hall. rewrite (choose_best_run (MkChooseBest algorithms) es l Hrun).
  cbn [mbind res_bind alg_Finish choose_best_algorithm]. unfold ChooseBest_Finish. cbn [algorithms_].
  destruct (choose_best_spec rs l int64_max None Hfin) as [[_ Hge] | (r & -> & _ & Hr)].
  - exfalso. destruct rs as [| r rs]; [done |]. apply Forall_cons in Hall as [? _].
    apply Forall_cons in Hge as [? _]. lia.
  - exists r. by split.
Qed.

(** ** An algorithm with a fallback *)

Lemma record_step w e : alg_step w e = record_call w e.
Proof. by destruct e. Qed.

Lemma record_run w es a :
  alg_run (primary_algorithm_ w) es = Ok a →
  alg_run w es = Ok (MkWithFallback a (fallback_factory_ w) (memory_limit_ w) (calls_ w ++ es)).
Proof.
  revert w. induction es as [| e es IH]; intros w H; cbn [alg_run] in *.
  - injection H as <-. rewrite app_nil_r. by destruct w.
  - apply bind_ok in H as (a1 & E1 & E2). rewrite record_step. unfold record_call.
    rewrite E1. cbn [mbind res_bind]. rewrite IH by done. cbn [fallback_factory_ memory_limit_ calls_].
    by rewrite <- app_assoc.
Qed.

(** [HeapAlgorithmWithFallback] finishes with the result the primary algorithm
    gives for the events, unless the primary algorithm is out of resources or its
    result is over the memory limit, if there is one; then with what the fallback
    algorithm gives for the same events, replayed in their order. *)
Theorem Fallback_replays primary factory memory_limit es a :
  alg_run primary es = Ok a →
  (w ← alg_run (MkWithFallback primary factory memory_limit []) es; alg_Finish w) =
    let fallback := (f ← alg_run factory es; alg_Finish f) in
    match alg_Finish a with
    | Fail ResourceExhausted => fallback
    | Fail e => Fail e
    | Ok r => if (0 <? memory_limit) && (memory_limit <? result_heap_size r) then fallback else Ok r
    end.
Proof.
  intros H. rewrite (record_run _ es a) by done. cbn [mbind res_bind calls_ app].
  cbn [alg_Finish fallback_algorithm primary_algorithm_ fallback_factory_ memory_limit_].
  unfold Fallback_Finish, replay. cbn [primary_algorithm_ fallback_factory_ memory_limit_ calls_].
  destruct (alg_Finish a) as [r | []]; by rewrite ?Z.gtb_ltb.
Qed.

(** ** The midpoint iterator *)

(** The values of a work item, and of all of them. *)
Definition item_values (i : Z * Z) : list Z := seqZ i.1 (i.2 - i.1 + 1).
Definition pending (items : list (Z * Z)) : list Z := flat_map item_values items.

Definition int30 (i : Z * Z) : Prop := - 2 ^ 30 ≤ i.1 ≤ i.2 ∧ i.2 < 2 ^ 30.

Lemma seqZ_split s m e : s ≤ m ≤ e → seqZ s (e - s + 1) = seqZ s (m - s) ++ m :: seqZ (m + 1) (e - m).
Proof.
  intros H. replace (e - s + 1) with ((m - s) + (1 + (e - m))) by lia. rewrite seqZ_app by lia.
  f_equal. replace (s + (m - s)) with m by lia. rewrite seqZ_cons by lia.
  f_equal. f_equal; lia.
Qed.

(** A turn takes the middle of the first item out. *)
Lemma Next_spec i0 v items :
  Forall int30 items →
  match items with
  | [] => Next (MkMidpointIterator i0 v items) = Ok (MkMidpointIterator i0 None [])
  | (s, e) :: _ => ∃ items', Next (MkMidpointIterator i0 v items) =
        Ok (MkMidpointIterator i0 (Some (- (- (s + e) / 2))) items') ∧
      Forall int30 items' ∧ pending items ≡ₚ - (- (s + e) / 2) :: pending items'
  end.
Proof.
  intros H. destruct items as [| [s e] items]; [done |]. apply Forall_cons in H as [Hse H].
  unfold int30 in Hse. cbn [fst snd] in Hse.
  set (mid := - (- (s + e) / 2)).
  assert (Hmid : s ≤ mid ≤ e).
  { unfold mid. pose proof (Z.div_mod (- (s + e)) 2 ltac:(lia)).
    pose proof (Z.mod_pos_bound (- (s + e)) 2 ltac:(lia)). lia. }
  unfold Next. cbn [work_items_ initial_work_item_]. rewrite Z.gtb_ltb, (proj2 (Z.ltb_ge _ _)) by lia.
  rewrite s32_in by lia. cbn [mbind res_bind].
  assert (Eq : WindowArith.CeilOfRatio (s + e) 2 = Ok mid).
  { apply (WindowArith.CeilOrFloorOfRatio_spec true); int_lia. }
  rewrite Eq. cbn [mbind res_bind].
  eexists. split; [done |]. split.
  - rewrite !Forall_app. split; [done |]. rewrite Z.gtb_ltb.
    destruct (Z.ltb_spec s mid), (Z.ltb_spec mid e); split; repeat constructor; simpl; lia.
  - unfold pending. rewrite !flat_map_app. cbn [flat_map].
    unfold item_values at 1. cbn [fst snd]. rewrite (seqZ_split s mid e) by lia.
    assert (E1 : flat_map item_values (if s <? mid then [(s, mid - 1)] else []) = seqZ s (mid - s)).
    { destruct (Z.ltb_spec s mid); cbn [flat_map]; [rewrite app_nil_r; unfold item_values; simpl; f_equal; lia |].
      by rewrite seqZ_nil by lia. }
    assert (E2 : flat_map item_values (if e >? mid then [(mid + 1, e)] else []) = seqZ (mid + 1) (e - mid)).
    { rewrite Z.gtb_ltb.
      destruct (Z.ltb_spec mid e); cbn [flat_map]; [rewrite app_nil_r; unfold item_values; simpl; f_equal; lia |].
      by rewrite seqZ_nil by lia. }
    rewrite E1, E2, <- Permutation_middle. cbn [app]. constructor. rewrite <- app_assoc. solve_Permutation.
Qed.

Lemma iterate_spec fuel i0 v items :
  Forall int30 items → (length (pending items) ≤ fuel)%nat →
  ∃ l, (i ← Next (MkMidpointIterator i0 v items); iterate fuel i) = Ok l ∧ l ≡ₚ pending items ∧
    match items with [] => True | (s, e) :: _ => head l = Some (- (- (s + e) / 2)) end.
Proof.
  revert v items. induction fuel as [| fuel IH]; intros v items H Hfuel;
    pose proof (Next_spec i0 v items H) as HN; destruct items as [| [s e] items].
  - rewrite HN. by exists [].
  - destruct HN as (items' & _ & _ & Hp). rewrite Hp in Hfuel. simpl in Hfuel. lia.
  - rewrite HN. by exists [].
  - destruct HN as (items' & E & H' & Hp). rewrite E. cbn [mbind res_bind iterate value_].
    destruct (IH (Some (- (- (s + e) / 2))) items' H') as (l & El & Hl & _).
    { rewrite Hp in Hfuel. simpl in Hfuel. lia. }
    exists (- (- (s + e) / 2) :: l). split; [| split; [by rewrite Hl, Hp | done]].
    apply bind_ok in El as (i & Ei & El). rewrite Ei. cbn [mbind res_bind]. by rewrite El.
Qed.

(** with [end - start + 1] turns or more, [BreadthFirstMidpointIterator]
    yields every value from [start] to [end] once and stops, beginning with the
    value in the middle, rounded up; a range that is empty yields nothing. *)
Theorem BreadthFirstMidpointIterator_visits s e fuel :
  - 2 ^ 30 ≤ s → e < 2 ^ 30 → e - s + 1 ≤ Z.of_nat fuel →
  ∃ l, (i ← BreadthFirstMidpointIterator s e; iterate fuel i) = Ok l ∧ l ≡ₚ seqZ s (e - s + 1) ∧
    (s ≤ e → ∃ mid, head l = Some mid ∧ s + e ≤ 2 * mid ≤ s + e + 1).
Proof.
  intros Hs He Hfuel. unfold BreadthFirstMidpointIterator, Begin. cbn [initial_work_item_].
  destruct (decide (s ≤ e)) as [Hse | Hse].
  - destruct (iterate_spec fuel (s, e) None [(s, e)]) as (l & El & Hl & Hh).
    { by repeat constructor. }
    { unfold pending, item_values. cbn [flat_map fst snd]. rewrite app_nil_r, length_seqZ. lia. }
    exists l. split; [done |]. unfold pending, item_values in Hl. cbn [flat_map fst snd] in Hl.
    rewrite app_nil_r in Hl. split; [done |]. intros _. eexists. split; [exact Hh |].
    pose proof (Z.div_mod (- (s + e)) 2 ltac:(lia)).
    pose proof (Z.mod_pos_bound (- (s + e)) 2 ltac:(lia)). lia.
  - exists []. unfold Next. cbn [work_items_]. rewrite Z.gtb_ltb, (proj2 (Z.ltb_lt _ _)) by lia.
    cbn [mbind res_bind]. split; [by destruct fuel |]. by rewrite seqZ_nil by lia.
Qed.

(** ** Instances *)

Example demo_visits :
  (i ← BreadthFirstMidpointIterator 0 6; iterate 7 i) = Ok [3; 1; 5; 0; 2; 4; 6].
Proof. vm_compute. reflexivity. Qed.

Lemma BreadthFirstMidpointIterator_visits_witness :
  ∃ l, (i ← BreadthFirstMidpointIterator (-2) 8; iterate 11 i) = Ok l ∧ l ≡ₚ seqZ (-2) 11.
Proof.
  destruct (BreadthFirstMidpointIterator_visits (-2) 8 11) as (l & H1 & H2 & _); [lia | lia | lia |].
  exists l. split; [exact H1 | exact H2].
Defined.

Definition demo_calls : list event := [EAlloc 1 10; EFree 1 10; EAlloc 2 30; EFree 2 30].

(** The statistics of the events, and a heap that packs them. *)
Definition demo_algorithms : list Algorithm :=
  [MkAlgorithm (MkStatsHeap 7 40);
   match new_heap 4 kSpatial kAll with
   | Ok h => MkAlgorithm h
   | Fail _ => MkAlgorithm (MkStatsHeap 0 0)
   end].

Definition value {A} (d : A) (r : res A) : A := match r with Ok a => a | Fail _ => d end.

Definition is_ok {A} (r : res A) : bool := match r with Ok _ => true | Fail _ => false end.

Lemma value_ok {A} (d : A) r : is_ok r = true → r = Ok (value d r).
Proof. by destruct r. Qed.

Definition demo_ran : list Algorithm := value [] (ran demo_calls demo_algorithms).
Definition demo_results : list Result := value [] (mapM alg_Finish demo_ran).

(** The statistics count what was in use before. *)
Example demo_sizes : result_heap_size <$> demo_results = [40; 30].
Proof. vm_compute. reflexivity. Qed.

Lemma ChooseBest_least_witness :
  ran demo_calls demo_algorithms = Ok demo_ran ∧ mapM alg_Finish demo_ran = Ok demo_results ∧
  ∃ r, (c ← alg_run (MkChooseBest demo_algorithms) demo_calls; alg_Finish c) = Ok r ∧
    first_least demo_results r.
Proof.
  assert (H1 : ran demo_calls demo_algorithms = Ok demo_ran) by (apply value_ok; vm_compute; reflexivity).
  assert (H2 : mapM alg_Finish demo_ran = Ok demo_results) by (apply value_ok; vm_compute; reflexivity).
  split; [exact H1 |]. split; [exact H2 |].
  apply (ChooseBest_least demo_calls demo_algorithms demo_ran demo_results); [exact H1 | exact H2 | |].
  - intros E. apply (f_equal length) in E. vm_compute in E. discriminate E.
  - apply (bool_decide_eq_true_1 (Forall _ _)). vm_compute. reflexivity.
Defined.

(** The memory limit of 35 rules the statistics out. *)
Definition demo_primary : Algorithm := MkAlgorithm (MkStatsHeap 7 40).
Definition demo_factory : Algorithm := MkAlgorithm (MkStatsHeap 0 0).

Definition demo_after : Algorithm := value demo_primary (alg_run demo_primary demo_calls).

Lemma Fallback_replays_witness :
  alg_run demo_primary demo_calls = Ok demo_after ∧ alg_Finish demo_after = Ok (MkResult [] 40) ∧
  (w ← alg_run (MkWithFallback demo_primary demo_factory 35 []) demo_calls; alg_Finish w) =
    Ok (MkResult [] 30).
Proof.
  assert (H : alg_run demo_primary demo_calls = Ok demo_after) by (apply value_ok; vm_compute; reflexivity).
  split; [exact H |]. split; [vm_compute; reflexivity |].
  rewrite (Fallback_replays demo_primary demo_factory 35 demo_calls demo_after H). vm_compute. reflexivity.
Defined.

End HeapAlgoCorrect.
