(* ===== verification/GraphCycles.v ===== *)
(** * Incremental cycle detection

    Models [xla/service/graphcycles/graphcycles.cc] and [ordered_set.h]: a graph
    with a rank per node that every edge increases, kept up to date by the
    algorithm of Pearce and Kelly.  Node ids and ranks are natural numbers; a
    vector access out of range is [Fail Undefined].  The scratch vectors of
    [Rep] ([deltaf_], [deltab_], [list_], [merged_], [stack_]) are results and
    arguments of the routines that fill and read them; a stack is a list with
    its top first. *)
From S2P Require Import Prelude.

Module OrderedSet.

(** ** [OrderedSet<int32_t>] *)

Record t := Mk {
  value_sequence_ : list nat;
  value_to_index_ : gmap nat nat
}.

Definition empty : t := Mk [] ∅.

(** [Insert]: also whether the value was new. *)
Definition Insert (value : nat) (s : t) : t * bool :=
  match value_to_index_ s !! value with
  | Some _ => (s, false)
  | None =>
      (Mk (value_sequence_ s ++ [value])
          (<[value := length (value_sequence_ s)]> (value_to_index_ s)), true)
  end.

(** [Erase]: the last value takes the place of the erased one.  Erasing a value
    that is not there dereferences [end()]. *)
Definition Erase (value : nat) (s : t) : res t :=
  match value_to_index_ s !! value, last (value_sequence_ s) with
  | Some i, Some back =>
      Ok (Mk (take (length (value_sequence_ s) - 1)
                (<[i := back]> (value_sequence_ s)))
             (delete value (<[back := i]> (value_to_index_ s))))
  | _, _ => Fail Undefined
  end.

Definition Contains (value : nat) (s : t) : bool :=
  bool_decide (is_Some (value_to_index_ s !! value)).

Definition Size (s : t) : nat := length (value_sequence_ s).

Definition GetSequence (s : t) : list nat := value_sequence_ s.

(** The index of a value is its position in the sequence. *)
Definition ok (s : t) : Prop :=
  ∀ v i, value_to_index_ s !! v = Some i ↔ value_sequence_ s !! i = Some v.

Lemma ok_nodup s : ok s → NoDup (value_sequence_ s).
Proof.
  intros H. apply NoDup_alt. intros i j x Hi%H Hj%H. congruence.
Qed.

Lemma Contains_in v s : ok s → Contains v s = true ↔ v ∈ GetSequence s.
Proof.
  intros H. unfold Contains, GetSequence. rewrite bool_decide_eq_true.
  rewrite list_elem_of_lookup. split.
  - intros [i Hi]. exists i. by apply H.
  - intros [i Hi]. exists i. by apply H.
Qed.

Lemma not_in_index v s : ok s → v ∉ GetSequence s → value_to_index_ s !! v = None.
Proof.
  intros H Hv. destruct (value_to_index_ s !! v) as [i |] eqn:E; [| done].
  apply H in E. destruct Hv. apply list_elem_of_lookup. eauto.
Qed.

Lemma empty_ok : ok empty.
Proof. intros v i. simpl. by rewrite lookup_empty, lookup_nil. Qed.

(** Insertion appends a new value and leaves a present one alone. *)
Lemma Insert_spec v s :
  ok s →
  ok (Insert v s).1 ∧ (Insert v s).2 = bool_decide (v ∉ GetSequence s) ∧
  GetSequence (Insert v s).1 =
    if decide (v ∈ GetSequence s) then GetSequence s else GetSequence s ++ [v].
Proof.
  intros H. unfold Insert. destruct (value_to_index_ s !! v) as [i |] eqn:E; simpl.
  - assert (Hv : v ∈ GetSequence s) by (apply list_elem_of_lookup; exists i; by apply H).
    rewrite decide_True by done. rewrite bool_decide_false by tauto. done.
  - assert (Hv : v ∉ GetSequence s).
    { intros [i Hi]%list_elem_of_lookup. apply H in Hi. congruence. }
    rewrite decide_False by done. rewrite bool_decide_true by done.
    split; [| done]. intros w j. simpl. rewrite lookup_insert_Some, (H w j).
    unfold GetSequence in *. rewrite lookup_app_Some. split.
    + intros [[<- <-] | [Hne Hj]]; [right | by left].
      by rewrite Nat.sub_diag.
    + intros [Hj | [Hge Hj]].
      * right. split; [| done]. intros ->. apply Hv, list_elem_of_lookup. eauto.
      * left. apply list_lookup_singleton_Some in Hj as [Hj ->]. split; [done | lia].
Qed.

Lemma lookup_take_insert (l : list nat) i b k :
  (i < length l)%nat →
  take (length l - 1) (<[i := b]> l) !! k =
    if decide (k < length l - 1)%nat
    then (if decide (k = i) then Some b else l !! k) else None.
Proof.
  intros Hi. case_decide as Hk.
  - rewrite lookup_take_lt by done. case_decide as Hki.
    + subst. by apply list_lookup_insert_eq.
    + by apply list_lookup_insert_ne.
  - apply lookup_take_ge. lia.
Qed.

(** Erasing a present value removes it and nothing else. *)
Lemma Erase_spec v s :
  ok s → v ∈ GetSequence s →
  ∃ s', Erase v s = Ok s' ∧ ok s' ∧ (∀ w, w ∈ GetSequence s' ↔ w ∈ GetSequence s ∧ w ≠ v).
Proof.
  intros H Hv. unfold Erase, GetSequence in *.
  pose proof Hv as [i Hi]%list_elem_of_lookup. pose proof Hi as Hx. apply H in Hx. rewrite Hx.
  pose proof (lookup_lt_Some _ _ _ Hi) as Hlt.
  destruct (last (value_sequence_ s)) as [b |] eqn:Hb;
    [| apply last_None in Hb; rewrite Hb in Hlt; simpl in Hlt; lia].
  rewrite last_lookup in Hb. replace (pred (length (value_sequence_ s)))
    with (length (value_sequence_ s) - 1)%nat in Hb by lia.
  set (n := length (value_sequence_ s)) in *.
  eexists. split; [done |].
  assert (Hok : ok (Mk (take (n - 1) (<[i:=b]> (value_sequence_ s)))
                      (delete v (<[b:=i]> (value_to_index_ s))))).
  { intros w j. simpl. rewrite lookup_delete_Some, lookup_insert_Some, (H w j).
    unfold n at 1. rewrite lookup_take_insert by done. fold n. split.
    - intros (Hne & [[<- <-] | [Hbw Hj]]).
      + rewrite decide_True; [by rewrite decide_True |].
        assert (i ≠ n - 1)%nat by congruence. lia.
      + pose proof (lookup_lt_Some _ _ _ Hj).
        rewrite decide_True; [rewrite decide_False; [done | congruence] |].
        assert (j ≠ n - 1)%nat by congruence. fold n in H0. lia.
    - case_decide as Hj; [| done]. case_decide as Hji; intros E.
      + simplify_eq. split; [| by left]. intros ->.
        apply H in Hb, Hi. assert (n - 1 = i)%nat by congruence. lia.
      + split; [intros ->; apply H in E; congruence |]. right. split; [| done].
        intros ->. apply H in E, Hb. assert (j = n - 1)%nat by congruence. lia. }
  split; [done |]. intros w. rewrite !list_elem_of_lookup. split.
  - intros [j Hj]. apply Hok in Hj. simpl in Hj.
    apply lookup_delete_Some in Hj as [Hne [[<- _] | [_ Hj]]%lookup_insert_Some]; [| split; [| done]].
    + split; [by exists (n - 1)%nat | done].
    + exists j. by apply H.
  - intros [[j Hj] Hne]. apply H in Hj. destruct (decide (w = b)) as [-> | Hwb].
    + exists i. apply Hok. simpl. rewrite lookup_delete_ne by done. apply lookup_insert_eq.
    + exists j. apply Hok. simpl. rewrite lookup_delete_ne by done.
      by rewrite lookup_insert_ne.
Qed.

End OrderedSet.

Module GraphCycles.

(** ** The representation *)

Record Node := MkNode { rank : nat; visited : bool }.

Record NodeIO := MkIO { in_ : OrderedSet.t; out_ : OrderedSet.t }.

Record Rep := MkRep {
  nodes_ : list Node;
  node_io_ : list NodeIO;
  free_nodes_ : list nat;
  (** [void*]; 0 is [nullptr]. *)
  node_data_ : list Z
}.

Definition new_graph : Rep := MkRep [] [] [] [].

Definition with_nodes (ns : list Node) (g : Rep) : Rep :=
  MkRep ns (node_io_ g) (free_nodes_ g) (node_data_ g).
Definition with_io (io : list NodeIO) (g : Rep) : Rep :=
  MkRep (nodes_ g) io (free_nodes_ g) (node_data_ g).
Definition with_free (l : list nat) (g : Rep) : Rep :=
  MkRep (nodes_ g) (node_io_ g) l (node_data_ g).

Definition out_of (g : Rep) (n : nat) : res (list nat) :=
  io ← at_res (node_io_ g) n; Ok (OrderedSet.GetSequence (out_ io)).
Definition in_of (g : Rep) (n : nat) : res (list nat) :=
  io ← at_res (node_io_ g) n; Ok (OrderedSet.GetSequence (in_ io)).

(** [node_io_[n].out.Erase(y)] and [node_io_[n].in.Erase(y)]. *)
Definition erase_out (n y : nat) (g : Rep) : res Rep :=
  io ← at_res (node_io_ g) n;
  s ← OrderedSet.Erase y (out_ io);
  Ok (with_io (<[n := MkIO (in_ io) s]> (node_io_ g)) g).
Definition erase_in (n y : nat) (g : Rep) : res Rep :=
  io ← at_res (node_io_ g) n;
  s ← OrderedSet.Erase y (in_ io);
  Ok (with_io (<[n := MkIO s (out_ io)]> (node_io_ g)) g).

(** The insertions, with whether the value was new. *)
Definition insert_out (n y : nat) (g : Rep) : res (bool * Rep) :=
  io ← at_res (node_io_ g) n;
  let '(s, fresh) := OrderedSet.Insert y (out_ io) in
  Ok (fresh, with_io (<[n := MkIO (in_ io) s]> (node_io_ g)) g).
Definition insert_in (n y : nat) (g : Rep) : res (bool * Rep) :=
  io ← at_res (node_io_ g) n;
  let '(s, fresh) := OrderedSet.Insert y (in_ io) in
  Ok (fresh, with_io (<[n := MkIO s (out_ io)]> (node_io_ g)) g).

(** ** Nodes *)

Definition NewNode (g : Rep) : res (nat * Rep) :=
  match last (free_nodes_ g) with
  | None =>
      let n := length (nodes_ g) in
      Ok (n, MkRep (nodes_ g ++ [MkNode n false])
               (node_io_ g ++ [MkIO OrderedSet.empty OrderedSet.empty])
               (free_nodes_ g) (node_data_ g ++ [0]))
  | Some r =>
      d ← at_res (node_data_ g) r;
      Ok (r, MkRep (nodes_ g) (node_io_ g)
               (take (length (free_nodes_ g) - 1) (free_nodes_ g))
               (<[r := 0]> (node_data_ g)))
  end.

(** The two loops of [RemoveNode] over copies of its neighbour lists: the lists
    they walk are not those they change. *)
Fixpoint erase_in_all (node : nat) (ys : list nat) (g : Rep) : res Rep :=
  match ys with
  | [] => Ok g
  | y :: ys' => g' ← erase_in y node g; erase_in_all node ys' g'
  end.
Fixpoint erase_out_all (node : nat) (ys : list nat) (g : Rep) : res Rep :=
  match ys with
  | [] => Ok g
  | y :: ys' => g' ← erase_out y node g; erase_out_all node ys' g'
  end.

Definition clear_io (node : nat) (g : Rep) : res Rep :=
  io ← at_res (node_io_ g) node;
  Ok (with_io (<[node := MkIO OrderedSet.empty OrderedSet.empty]> (node_io_ g)) g).

Definition RemoveNode (node : nat) (g : Rep) : res Rep :=
  out ← out_of g node;
  g ← erase_in_all node out g;
  in' ← in_of g node;
  g ← erase_out_all node in' g;
  g ← clear_io node g;
  Ok (with_free (free_nodes_ g ++ [node]) g).

Definition GetNodeData (g : Rep) (node : nat) : res Z := at_res (node_data_ g) node.

Definition SetNodeData (node : nat) (data : Z) (g : Rep) : res Rep :=
  if decide (node < length (node_data_ g))%nat
  then Ok (MkRep (nodes_ g) (node_io_ g) (free_nodes_ g) (<[node := data]> (node_data_ g)))
  else Fail Undefined.

(** ** Edges *)

Definition HasEdge (g : Rep) (x y : nat) : res bool :=
  io ← at_res (node_io_ g) x; Ok (OrderedSet.Contains y (out_ io)).

Definition RemoveEdge (x y : nat) (g : Rep) : res Rep :=
  g ← erase_out x y g; erase_in y x g.

Definition Successors (g : Rep) (node : nat) : res (list nat) := out_of g node.
Definition Predecessors (g : Rep) (node : nat) : res (list nat) := in_of g node.
Definition SuccessorsCopy (g : Rep) (node : nat) : res (list nat) := Successors g node.
Definition PredecessorsCopy (g : Rep) (node : nat) : res (list nat) := Predecessors g node.

(** ** The depth-first searches *)

(** The body of the loop over the neighbours [ws] of a node: [None] when one has
    a rank at which the search [stop]s, else the stack with the unvisited ones
    to [keep] pushed. *)
Fixpoint scan (stop keep : nat → bool) (nodes : list Node) (ws stack : list nat)
    : res (option (list nat)) :=
  match ws with
  | [] => Ok (Some stack)
  | w :: ws' =>
      nw ← at_res nodes w;
      if stop (rank nw) then Ok None
      else scan stop keep nodes ws'
             (if negb (visited nw) && keep (rank nw) then w :: stack else stack)
  end.

(** The loop of both searches: the outcome, the nodes with the markers set and
    the nodes visited, in order. *)
Fixpoint dfs (fuel : nat) (adj : nat → res (list nat)) (stop keep : nat → bool)
    (nodes : list Node) (stack delta : list nat)
    : res (bool * list Node * list nat) :=
  match stack with
  | [] => Ok (true, nodes, delta)
  | n :: stack =>
      match fuel with
      | O => Fail NoFuel
      | S fuel =>
          nn ← at_res nodes n;
          if visited nn then dfs fuel adj stop keep nodes stack delta
          else
            let nodes := <[n := MkNode (rank nn) true]> nodes in
            let delta := delta ++ [n] in
            ws ← adj n;
            r ← scan stop keep nodes ws stack;
            match r with
            | None => Ok (false, nodes, delta)
            | Some stack => dfs fuel adj stop keep nodes stack delta
            end
      end
  end.

(** Enough steps: every node is expanded at most once. *)
Definition total_out (g : Rep) : nat :=
  sum_list ((λ io, OrderedSet.Size (out_ io)) <$> node_io_ g).
Definition total_in (g : Rep) : nat :=
  sum_list ((λ io, OrderedSet.Size (in_ io)) <$> node_io_ g).

Definition ForwardDFS (g : Rep) (n upper_bound : nat) : res (bool * list Node * list nat) :=
  dfs (S (total_out g)) (out_of g) (λ r, r =? upper_bound)%nat (λ r, r <? upper_bound)%nat
    (nodes_ g) [n] [].

Definition BackwardDFS (g : Rep) (n lower_bound : nat) : res (list Node * list nat) :=
  '(_, ns, deltab) ← dfs (S (total_in g)) (in_of g) (λ _, false)
                       (λ r, lower_bound <? r)%nat (nodes_ g) [n] [];
  Ok (ns, deltab).

(** ** Reassigning ranks *)

Definition rank_of (ns : list Node) (n : nat) : nat :=
  match ns !! n with Some nd => rank nd | None => 0 end.

Definition rank_le (ns : list Node) (a b : nat) : Prop := (rank_of ns a ≤ rank_of ns b)%nat.
#[export] Instance rank_le_dec ns : RelDecision (rank_le ns).
Proof. intros a b. unfold rank_le. apply _. Defined.

(** [std::sort] by rank; the ranks are distinct. *)
Definition Sort (ns : list Node) (delta : list nat) : list nat :=
  merge_sort (rank_le ns) delta.

(** The ranks of the nodes of [src], in order, and the nodes unmarked. *)
Fixpoint MoveToList (ns : list Node) (src : list nat) : res (list Node * list nat) :=
  match src with
  | [] => Ok (ns, [])
  | w :: src' =>
      nw ← at_res ns w;
      '(ns', ranks) ← MoveToList (<[w := MkNode (rank nw) false]> ns) src';
      Ok (ns', rank nw :: ranks)
  end.

Fixpoint assign_ranks (ns : list Node) (l merged : list nat) : res (list Node) :=
  match l, merged with
  | [], _ => Ok ns
  | w :: l', r :: merged' =>
      nw ← at_res ns w;
      assign_ranks (<[w := MkNode r (visited nw)]> ns) l' merged'
  | _ :: _, [] => Fail Undefined
  end.

Definition Reorder (ns : list Node) (deltab deltaf : list nat) : res (list Node) :=
  let deltab := Sort ns deltab in
  let deltaf := Sort ns deltaf in
  '(ns, ranksb) ← MoveToList ns deltab;
  '(ns, ranksf) ← MoveToList ns deltaf;
  assign_ranks ns (deltab ++ deltaf) (list_merge (≤)%nat ranksb ranksf).

Fixpoint ClearVisitedBits (ns : list Node) (visited_indices : list nat) : res (list Node) :=
  match visited_indices with
  | [] => Ok ns
  | i :: l =>
      n ← at_res ns i;
      ClearVisitedBits (<[i := MkNode (rank n) false]> ns) l
  end.

Definition InsertEdge (x y : nat) (g : Rep) : res (bool * Rep) :=
  if (x =? y)%nat then Ok (false, g)
  else
    '(fresh, g) ← insert_out x y g;
    if negb fresh then Ok (true, g)
    else
      '(_, g) ← insert_in y x g;
      nx ← at_res (nodes_ g) x;
      ny ← at_res (nodes_ g) y;
      if (rank nx <=? rank ny)%nat then Ok (true, g)
      else
        '(acyclic, ns, deltaf) ← ForwardDFS g y (rank nx);
        if negb (acyclic : bool) then
          g ← erase_out x y (with_nodes ns g);
          g ← erase_in y x g;
          ns ← ClearVisitedBits (nodes_ g) deltaf;
          Ok (false, with_nodes ns g)
        else
          '(ns, deltab) ← BackwardDFS (with_nodes ns g) x (rank ny);
          ns ← Reorder ns deltab deltaf;
          Ok (true, with_nodes ns g).

(** ** Reachability *)

(** The stack holds nodes and, as [None], the markers that a node is left.
    [path] is the caller's array, of [max_path_len] elements. *)
Fixpoint push_unseen (ws : list nat) (seen : gset nat) (stack : list (option nat))
    : gset nat * list (option nat) :=
  match ws with
  | [] => (seen, stack)
  | w :: ws' =>
      if bool_decide (w ∈ seen) then push_unseen ws' seen stack
      else push_unseen ws' ({[w]} ∪ seen) (Some w :: stack)
  end.

Fixpoint find_path_loop (fuel : nat) (g : Rep) (y : nat) (seen : gset nat)
    (stack : list (option nat)) (path_len : nat) (path : list nat)
    : res (nat * list nat) :=
  match stack with
  | [] => Ok (0%nat, path)
  | None :: stack =>
      match fuel with
      | O => Fail NoFuel
      | S fuel => find_path_loop fuel g y seen stack (path_len - 1) path
      end
  | Some n :: stack =>
      match fuel with
      | O => Fail NoFuel
      | S fuel =>
          let path := <[path_len := n]> path in
          let path_len := S path_len in
          let stack := None :: stack in
          if (n =? y)%nat then Ok (path_len, path)
          else
            ws ← out_of g n;
            let '(seen, stack) := push_unseen ws seen stack in
            find_path_loop fuel g y seen stack path_len path
      end
  end.

Definition FindPath (g : Rep) (x y : nat) (path : list nat) : res (nat * list nat) :=
  find_path_loop (2 * length (node_io_ g) + 3) g y ∅ [Some x] 0 path.

Definition IsReachable (g : Rep) (x y : nat) : res bool :=
  '(len, _) ← FindPath g x y []; Ok (0 <? len)%nat.

Definition IsReachableNonConst (x y : nat) (g : Rep) : res (bool * Rep) :=
  if (x =? y)%nat then Ok (true, g)
  else
    nx ← at_res (nodes_ g) x;
    ny ← at_res (nodes_ g) y;
    if (rank ny <=? rank nx)%nat then Ok (false, g)
    else
      '(unreachable, ns, deltaf) ← ForwardDFS g x (rank ny);
      ns ← ClearVisitedBits ns deltaf;
      Ok (negb unreachable, with_nodes ns g).

(** ** Contraction *)

Definition CanContractEdge (a b : nat) (g : Rep) : res (bool * Rep) :=
  has ← HasEdge g a b;
  guard_res has CheckFailed;;
  g ← RemoveEdge a b g;
  '(reachable, g) ← IsReachableNonConst a b g;
  '(_, g) ← InsertEdge a b g;
  Ok (negb reachable, g).

Fixpoint insert_from (a : nat) (ys : list nat) (g : Rep) : res Rep :=
  match ys with
  | [] => Ok g
  | y :: ys' => '(_, g) ← InsertEdge a y g; insert_from a ys' g
  end.
Fixpoint insert_to (a : nat) (ys : list nat) (g : Rep) : res Rep :=
  match ys with
  | [] => Ok g
  | y :: ys' => '(_, g) ← InsertEdge y a g; insert_to a ys' g
  end.

Definition degree (g : Rep) (n : nat) : res nat :=
  io ← at_res (node_io_ g) n;
  Ok (OrderedSet.Size (in_ io) + OrderedSet.Size (out_ io))%nat.

(** The part of [ContractEdge] that moves the edges of [b] to [a]. *)
Definition absorb (a b : nat) (g : Rep) : res Rep :=
  out ← out_of g b;
  in' ← in_of g b;
  g ← clear_io b g;
  g ← erase_in_all b out g;
  g ← erase_out_all b in' g;
  let g := with_free (free_nodes_ g ++ [b]) g in
  g ← insert_from a out g;
  insert_to a in' g.

(** A moved-from [OrderedSet] is modelled as empty. *)
Definition ContractEdge (a b : nat) (g : Rep) : res (option nat * Rep) :=
  has ← HasEdge g a b;
  guard_res has CheckFailed;;
  g ← RemoveEdge a b g;
  '(reachable, g) ← IsReachableNonConst a b g;
  if reachable : bool then
    '(_, g) ← InsertEdge a b g;
    Ok (None, g)
  else
    db ← degree g b;
    da ← degree g a;
    let '(a, b) := if (da <? db)%nat then (b, a) else (a, b) in
    g ← absorb a b g;
    Ok (Some a, g).

(** ** Orders and checks *)

Definition SortInPostOrder (ns : list Node) (to_sort : list nat) : list nat :=
  merge_sort (flip (rank_le ns)) to_sort.

Definition AllNodesInPostOrder (g : Rep) : list nat :=
  SortInPostOrder (nodes_ g)
    (filter (λ i, i ∉ free_nodes_ g) (seq 0 (length (nodes_ g)))).

(** [CheckInvariants], as the condition under which no [LOG(FATAL)] is reached. *)
Definition CheckInvariants (g : Rep) : bool :=
  forallb (λ nd, negb (visited nd)) (nodes_ g) &&
  bool_decide (NoDup (rank <$> nodes_ g)) &&
  forallb (λ p : Node * NodeIO,
    forallb (λ y, bool_decide (y < length (nodes_ g))%nat
                  && (rank p.1 <? rank_of (nodes_ g) y)%nat)
      (OrderedSet.GetSequence (out_ p.2)))
    (zip (nodes_ g) (node_io_ g)).

End GraphCycles.
