(* ===== verification/GraphProofs.v ===== *)
(** * Correctness of incremental cycle detection *)
From S2P Require Import Prelude GraphCycles.

Module GraphProofs.
Import GraphCycles.

(** ** The graph a representation stands for *)

Definition edge (g : Rep) (u v : nat) : Prop :=
  ∃ io, node_io_ g !! u = Some io ∧ v ∈ OrderedSet.GetSequence (out_ io).
Definition back (g : Rep) (v u : nat) : Prop :=
  ∃ io, node_io_ g !! v = Some io ∧ u ∈ OrderedSet.GetSequence (in_ io).
Definition rk (g : Rep) (n : nat) : nat := rank_of (nodes_ g) n.
Definition node (g : Rep) (n : nat) : Prop := (n < length (nodes_ g))%nat.

#[export] Instance edge_dec g u v : Decision (edge g u v).
Proof.
  unfold edge. destruct (node_io_ g !! u) as [io |] eqn:E.
  - destruct (decide (v ∈ OrderedSet.GetSequence (out_ io))); [left; eauto | right; naive_solver].
  - right. naive_solver.
Defined.

(** The neighbour sets are well formed. *)
Definition sets_ok (g : Rep) : Prop :=
  ∀ n io, node_io_ g !! n = Some io → OrderedSet.ok (in_ io) ∧ OrderedSet.ok (out_ io).

(** Everything but the order of the ranks along the edges. *)
Record shape (g : Rep) : Prop := Shape {
  sh_len : length (node_io_ g) = length (nodes_ g);
  sh_data : length (node_data_ g) = length (nodes_ g);
  sh_sets : sets_ok g;
  sh_sym u v : edge g u v ↔ back g v u;
  sh_range u v : edge g u v → node g v;
  sh_rank : NoDup (rank <$> nodes_ g);
  sh_vis n nd : nodes_ g !! n = Some nd → visited nd = false;
  sh_free_nodup : NoDup (free_nodes_ g);
  sh_free n : n ∈ free_nodes_ g → node g n ∧ ∀ v, ¬ edge g n v ∧ ¬ edge g v n;
  (** The ranks in use are the numbers below the number of nodes. *)
  sh_bound n : node g n → (rk g n < length (nodes_ g))%nat
}.

(** The invariant: ranks increase along edges. *)
Definition wf (g : Rep) : Prop :=
  shape g ∧ ∀ u v, edge g u v → (rk g u < rk g v)%nat.

(** An id that [NewNode] returned and that has not been removed. *)
Definition live (g : Rep) (n : nat) : Prop := node g n ∧ n ∉ free_nodes_ g.

(** ** Updates of the neighbour sets *)

Definition same_rest (g g' : Rep) : Prop :=
  nodes_ g' = nodes_ g ∧ free_nodes_ g' = free_nodes_ g ∧ node_data_ g' = node_data_ g ∧
  length (node_io_ g') = length (node_io_ g).

Lemma edge_upd g n io io' u v :
  node_io_ g !! n = Some io →
  edge (with_io (<[n := io']> (node_io_ g)) g) u v ↔
  (u = n ∧ v ∈ OrderedSet.GetSequence (out_ io')) ∨ (u ≠ n ∧ edge g u v).
Proof.
  intros Hn. unfold edge. simpl. pose proof (lookup_lt_Some _ _ _ Hn). split.
  - intros (i & [(-> & <- & _) | [Hne Hi]]%list_lookup_insert_Some & Hv); [by left |].
    right. split; [done | eauto].
  - intros [[-> Hv] | [Hne (i & Hi & Hv)]].
    + exists io'. by rewrite list_lookup_insert_eq.
    + exists i. by rewrite list_lookup_insert_ne.
Qed.

Lemma back_upd g n io io' u v :
  node_io_ g !! n = Some io →
  back (with_io (<[n := io']> (node_io_ g)) g) u v ↔
  (u = n ∧ v ∈ OrderedSet.GetSequence (in_ io')) ∨ (u ≠ n ∧ back g u v).
Proof.
  intros Hn. unfold back. simpl. pose proof (lookup_lt_Some _ _ _ Hn). split.
  - intros (i & [(-> & <- & _) | [Hne Hi]]%list_lookup_insert_Some & Hv); [by left |].
    right. split; [done | eauto].
  - intros [[-> Hv] | [Hne (i & Hi & Hv)]].
    + exists io'. by rewrite list_lookup_insert_eq.
    + exists i. by rewrite list_lookup_insert_ne.
Qed.

Lemma edge_at g n io v :
  node_io_ g !! n = Some io → edge g n v ↔ v ∈ OrderedSet.GetSequence (out_ io).
Proof.
  intros Hn. unfold edge. split; [| eauto]. intros (i & Hi & ?). by simplify_eq.
Qed.

Lemma back_at g n io v :
  node_io_ g !! n = Some io → back g n v ↔ v ∈ OrderedSet.GetSequence (in_ io).
Proof.
  intros Hn. unfold back. split; [| eauto]. intros (i & Hi & ?). by simplify_eq.
Qed.

Lemma sets_ok_upd g n io io' :
  sets_ok g → node_io_ g !! n = Some io →
  OrderedSet.ok (in_ io') → OrderedSet.ok (out_ io') →
  sets_ok (with_io (<[n := io']> (node_io_ g)) g).
Proof.
  intros H Hn Hi Ho m i [(-> & <- & _) | [_ Hm]]%list_lookup_insert_Some; [done |].
  by apply (H m).
Qed.

Lemma same_rest_upd g n io' : same_rest g (with_io (<[n := io']> (node_io_ g)) g).
Proof. unfold same_rest. simpl. by rewrite length_insert. Qed.

Lemma same_rest_trans g1 g2 g3 : same_rest g1 g2 → same_rest g2 g3 → same_rest g1 g3.
Proof. unfold same_rest. intuition congruence. Qed.

(** The four primitive updates: each changes one relation at one pair. *)
Lemma erase_out_spec g n y :
  sets_ok g → edge g n y →
  ∃ g', erase_out n y g = Ok g' ∧ sets_ok g' ∧ same_rest g g' ∧
    (∀ u v, edge g' u v ↔ edge g u v ∧ ¬ (u = n ∧ v = y)) ∧
    (∀ u v, back g' u v ↔ back g u v).
Proof.
  intros H (io & Hn & Hy). destruct (H n io Hn) as [Hi Ho].
  destruct (OrderedSet.Erase_spec y (out_ io) Ho Hy) as (s & He & Hs & Hm).
  unfold erase_out, at_res. rewrite Hn. simpl. rewrite He. simpl. eexists. split; [done |].
  split; [by eapply sets_ok_upd |]. split; [apply same_rest_upd |]. split; intros u v.
  - rewrite (edge_upd _ _ io) by done. simpl. rewrite Hm, <- (edge_at g n io) by done.
    destruct (decide (u = n)) as [-> |]; naive_solver.
  - rewrite (back_upd _ _ io) by done. simpl. rewrite <- (back_at g n io) by done.
    destruct (decide (u = n)) as [-> |]; naive_solver.
Qed.

Lemma erase_in_spec g n y :
  sets_ok g → back g n y →
  ∃ g', erase_in n y g = Ok g' ∧ sets_ok g' ∧ same_rest g g' ∧
    (∀ u v, edge g' u v ↔ edge g u v) ∧
    (∀ u v, back g' u v ↔ back g u v ∧ ¬ (u = n ∧ v = y)).
Proof.
  intros H (io & Hn & Hy). destruct (H n io Hn) as [Hi Ho].
  destruct (OrderedSet.Erase_spec y (in_ io) Hi Hy) as (s & He & Hs & Hm).
  unfold erase_in, at_res. rewrite Hn. simpl. rewrite He. simpl. eexists. split; [done |].
  split; [by eapply sets_ok_upd |]. split; [apply same_rest_upd |]. split; intros u v.
  - rewrite (edge_upd _ _ io) by done. simpl. rewrite <- (edge_at g n io) by done.
    destruct (decide (u = n)) as [-> |]; naive_solver.
  - rewrite (back_upd _ _ io) by done. simpl. rewrite Hm, <- (back_at g n io) by done.
    destruct (decide (u = n)) as [-> |]; naive_solver.
Qed.

Lemma Insert_elem v s w :
  OrderedSet.ok s →
  w ∈ OrderedSet.GetSequence (OrderedSet.Insert v s).1 ↔
  w ∈ OrderedSet.GetSequence s ∨ w = v.
Proof.
  intros H. destruct (OrderedSet.Insert_spec v s H) as (_ & _ & ->).
  case_decide; set_solver.
Qed.

Lemma insert_out_spec g n y :
  sets_ok g → (n < length (node_io_ g))%nat →
  ∃ g', insert_out n y g = Ok (bool_decide (¬ edge g n y), g') ∧ sets_ok g' ∧
    same_rest g g' ∧
    (∀ u v, edge g' u v ↔ edge g u v ∨ (u = n ∧ v = y)) ∧
    (∀ u v, back g' u v ↔ back g u v).
Proof.
  intros H Hlt. destruct (lookup_lt_is_Some_2 _ _ Hlt) as [io Hn].
  destruct (H n io Hn) as [Hi Ho].
  destruct (OrderedSet.Insert_spec y (out_ io) Ho) as (Hs & Hf & _).
  pose proof (Insert_elem y (out_ io)) as Hm.
  unfold insert_out, at_res. rewrite Hn. simpl.
  destruct (OrderedSet.Insert y (out_ io)) as [s fresh]. simpl in *. subst fresh.
  eexists. split.
  { do 2 f_equal. apply bool_decide_ext. by rewrite (edge_at g n io). }
  split; [by eapply sets_ok_upd |]. split; [apply same_rest_upd |]. split; intros u v.
  - rewrite (edge_upd _ _ io) by done. simpl. rewrite Hm, <- (edge_at g n io) by done.
    destruct (decide (u = n)) as [-> |]; naive_solver.
  - rewrite (back_upd _ _ io) by done. simpl. rewrite <- (back_at g n io) by done.
    destruct (decide (u = n)) as [-> |]; naive_solver.
Qed.

Lemma insert_in_spec g n y :
  sets_ok g → (n < length (node_io_ g))%nat →
  ∃ f g', insert_in n y g = Ok (f, g') ∧ sets_ok g' ∧ same_rest g g' ∧
    (∀ u v, edge g' u v ↔ edge g u v) ∧
    (∀ u v, back g' u v ↔ back g u v ∨ (u = n ∧ v = y)).
Proof.
  intros H Hlt. destruct (lookup_lt_is_Some_2 _ _ Hlt) as [io Hn].
  destruct (H n io Hn) as [Hi Ho].
  destruct (OrderedSet.Insert_spec y (in_ io) Hi) as (Hs & Hf & _).
  pose proof (Insert_elem y (in_ io)) as Hm.
  unfold insert_in, at_res. rewrite Hn. simpl.
  destruct (OrderedSet.Insert y (in_ io)) as [s fresh]. simpl in *. subst fresh.
  eexists _, _. split; [done |].
  split; [by eapply sets_ok_upd |]. split; [apply same_rest_upd |]. split; intros u v.
  - rewrite (edge_upd _ _ io) by done. simpl. rewrite <- (edge_at g n io) by done.
    destruct (decide (u = n)) as [-> |]; naive_solver.
  - rewrite (back_upd _ _ io) by done. simpl. rewrite Hm, <- (back_at g n io) by done.
    destruct (decide (u = n)) as [-> |]; naive_solver.
Qed.

(** ** The searches *)

Definition vis (ns : list Node) (n : nat) : Prop :=
  ∃ nd, ns !! n = Some nd ∧ visited nd = true.

Lemma vis_set ns n nd m :
  ns !! n = Some nd →
  vis (<[n := MkNode (rank nd) true]> ns) m ↔ m = n ∨ vis ns m.
Proof.
  intros Hn. pose proof (lookup_lt_Some _ _ _ Hn). unfold vis. split.
  - intros (d & [(-> & _ & _) | [_ Hd]]%list_lookup_insert_Some & Hv); [by left | right; eauto].
  - intros [-> | (d & Hd & Hv)]; [eexists; by rewrite list_lookup_insert_eq |].
    destruct (decide (m = n)) as [-> |]; [eexists; by rewrite list_lookup_insert_eq |].
    exists d. by rewrite list_lookup_insert_ne.
Qed.

Lemma rank_set (ns : list Node) n nd b :
  ns !! n = Some nd → rank <$> <[n := MkNode (rank nd) b]> ns = rank <$> ns.
Proof.
  intros Hn. rewrite list_fmap_insert. simpl. apply list_insert_id.
  by rewrite list_lookup_fmap, Hn.
Qed.

Lemma rank_of_fmap (ns ns' : list Node) n : rank <$> ns = rank <$> ns' → rank_of ns n = rank_of ns' n.
Proof.
  intros E. unfold rank_of.
  assert (E' : (rank <$> ns) !! n = (rank <$> ns') !! n) by by rewrite E.
  rewrite !list_lookup_fmap in E'. destruct (ns !! n), (ns' !! n); by simplify_eq/=.
Qed.

Lemma fmap_length {A B} (f : A → B) l l' : f <$> l = f <$> l' → length l = length l'.
Proof. intros E. by rewrite <- (length_fmap f l), E, length_fmap. Qed.

Section Dfs.
Context (adj : nat → res (list nat)) (nb : nat → list nat) (stop keep : nat → bool).
Context (N : nat) (ns0 : list Node).
Hypothesis HN : length ns0 = N.
Hypothesis Hadj : ∀ n, (n < N)%nat → adj n = Ok (nb n).
Hypothesis Hnb : ∀ n w, (n < N)%nat → w ∈ nb n → (w < N)%nat.

Let rk0 (n : nat) : nat := rank_of ns0 n.

(** The scan of one neighbour list. *)
Lemma scan_spec ns ws stack :
  rank <$> ns = rank <$> ns0 → (∀ w, w ∈ ws → (w < N)%nat) →
  (scan stop keep ns ws stack = Ok None ∧ ∃ w, w ∈ ws ∧ stop (rk0 w) = true) ∨
  (∃ pushed, scan stop keep ns ws stack = Ok (Some (pushed ++ stack)) ∧
     (length pushed ≤ length ws)%nat ∧
     (∀ w, w ∈ ws → stop (rk0 w) = false) ∧
     (∀ w, w ∈ pushed → w ∈ ws ∧ keep (rk0 w) = true) ∧
     (∀ w, w ∈ ws → keep (rk0 w) = true → w ∈ pushed ∨ vis ns w)).
Proof.
  intros Hr. revert stack. induction ws as [| w ws IH]; intros stack Hw; simpl.
  { right. exists []. split_and!; try done; set_solver. }
  assert (Hlt : (w < length ns)%nat).
  { rewrite (fmap_length _ _ _ Hr), HN. apply Hw. set_solver. }
  destruct (lookup_lt_is_Some_2 _ _ Hlt) as [nw Hnw].
  unfold at_res. rewrite Hnw. simpl.
  assert (Erk : rank nw = rk0 w).
  { unfold rk0. rewrite <- (rank_of_fmap _ _ w Hr). unfold rank_of. by rewrite Hnw. }
  rewrite Erk. destruct (stop (rk0 w)) eqn:Es; [left; split; [done |]; exists w; set_solver |].
  destruct (IH (if negb (visited nw) && keep (rk0 w) then w :: stack else stack))
    as [[Hs (w' & ? & ?)] | (pushed & Hs & Hl & H1 & H2 & H3)]; [set_solver | |].
  - left. split; [done |]. exists w'. set_solver.
  - right. destruct (negb (visited nw) && keep (rk0 w)) eqn:Ek.
    + apply andb_true_iff in Ek as [Ev%negb_true_iff Ek].
      exists (pushed ++ [w]). rewrite <- app_assoc. split; [done |].
      rewrite length_app. simpl. split; [lia |]. split; [set_solver |].
      split; intros w'; set_solver.
    + exists pushed. split; [done |]. split; [lia |]. split; [set_solver |].
      split; [set_solver |]. intros w' [-> | Hw']%elem_of_cons Hk; [| auto].
      right. exists nw. split; [done |]. rewrite Hk, andb_true_r in Ek.
      by apply negb_false_iff.
Qed.

(** The state of a search from [src], when the nodes [V0] were marked before. *)
Record searching (src : nat) (V0 : nat → Prop) (ns : list Node) (stack delta : list nat)
    : Prop := Searching {
  se_rank : rank <$> ns = rank <$> ns0;
  se_vis n : vis ns n ↔ n ∈ delta ∨ V0 n;
  se_nodup : NoDup delta;
  se_new n : n ∈ delta → ¬ V0 n;
  se_reach n : n ∈ stack ∨ n ∈ delta →
    (n < N)%nat ∧ rtc (λ u v, v ∈ nb u) src n ∧ (n = src ∨ keep (rk0 n) = true);
  se_closed u v : u ∈ delta → v ∈ nb u →
    stop (rk0 v) = false ∧
    (keep (rk0 v) = true → v ∈ delta ∨ v ∈ stack ∨ V0 v);
  se_src : src ∈ delta ∨ src ∈ stack ∨ V0 src
}.

(** The steps that remain: each unmarked node pushes its neighbours once. *)
Fixpoint unmarked (ns : list Node) (i : nat) : nat :=
  match ns with
  | [] => 0
  | nd :: ns' => (if visited nd then 0 else length (nb i)) + unmarked ns' (S i)
  end.

Lemma unmarked_set ns i n nd :
  ns !! n = Some nd → visited nd = false →
  unmarked ns i = (length (nb (i + n)) + unmarked (<[n := MkNode (rank nd) true]> ns) i)%nat.
Proof.
  revert i n. induction ns as [| d ns IH]; intros i n Hn Hv; [done |].
  destruct n as [| n]; simpl in *.
  - simplify_eq. rewrite Hv, Nat.add_0_r. lia.
  - rewrite (IH (S i) n Hn Hv). replace (S i + n)%nat with (i + S n)%nat by lia. lia.
Qed.

(** One expansion. *)
Lemma searching_step src V0 ns stack delta n nd pushed :
  searching src V0 ns (n :: stack) delta → ns !! n = Some nd → visited nd = false →
  (∀ w, w ∈ nb n → stop (rk0 w) = false) →
  (∀ w, w ∈ pushed → w ∈ nb n ∧ keep (rk0 w) = true) →
  (∀ w, w ∈ nb n → keep (rk0 w) = true →
     w ∈ pushed ∨ vis (<[n := MkNode (rank nd) true]> ns) w) →
  searching src V0 (<[n := MkNode (rank nd) true]> ns) (pushed ++ stack) (delta ++ [n]).
Proof.
  intros [S1 S2 S3 S4 S5 S6 S7] Hnd Hv H1 H2 H3.
  assert (Hnv : ¬ vis ns n) by (intros (d & Hd & ?); congruence).
  assert (Hvis : ∀ m, vis (<[n := MkNode (rank nd) true]> ns) m ↔ m ∈ delta ++ [n] ∨ V0 m).
  { intros m. rewrite (vis_set _ _ _ _ Hnd), S2. set_solver. }
  destruct (S5 n) as (Hn1 & Hn2 & _); [set_solver |].
  split.
  - by rewrite rank_set.
  - done.
  - apply NoDup_app. split; [done |]. split; [| apply NoDup_singleton].
    intros m Hm ->%list_elem_of_singleton. apply Hnv, S2. by left.
  - intros m [Hm | ->%list_elem_of_singleton]%elem_of_app; [by apply S4 |].
    intros ?. apply Hnv, S2. by right.
  - intros m Hm. assert (Hm' : m ∈ pushed ∨ m ∈ n :: stack ∨ m ∈ delta) by set_solver.
    destruct Hm' as [Hp | Hm']; [| by apply S5].
    destruct (H2 m Hp) as [Hnm Hk]. split; [by apply (Hnb n) |]. split; [| by right].
    eapply rtc_r; [done |]. done.
  - intros u v [Hu | ->%list_elem_of_singleton]%elem_of_app Huv.
    + destruct (S6 u v Hu Huv) as [Hs Hk]. split; [done |]. intros Hkv.
      specialize (Hk Hkv). set_solver.
    + split; [by apply H1 |]. intros Hk. destruct (H3 v Huv Hk) as [Hp | Hv'].
      * right. left. set_solver.
      * apply Hvis in Hv'. set_solver.
  - set_solver.
Qed.

(** The whole search. *)
Lemma dfs_loop fuel src V0 ns stack delta :
  searching src V0 ns stack delta → (length stack + unmarked ns 0 ≤ fuel)%nat →
  (∃ ns' delta', dfs fuel adj stop keep ns stack delta = Ok (true, ns', delta') ∧
     searching src V0 ns' [] delta') ∨
  (∃ ns' delta' u v, dfs fuel adj stop keep ns stack delta = Ok (false, ns', delta') ∧
     rank <$> ns' = rank <$> ns0 ∧ (∀ n, vis ns' n ↔ n ∈ delta' ∨ V0 n) ∧
     (∀ n, n ∈ delta' → (n < N)%nat ∧ ¬ V0 n) ∧
     (u < N)%nat ∧ rtc (λ u v, v ∈ nb u) src u ∧ v ∈ nb u ∧ stop (rk0 v) = true).
Proof.
  revert ns stack delta. induction fuel as [| fuel IH]; intros ns stack delta Hs Hf;
    destruct stack as [| n stack]; simpl in *; try lia; [left; eauto .. |].
  destruct (se_reach _ _ _ _ _ Hs n) as (Hn & Hreach & _); [set_solver |].
  assert (Hlt : (n < length ns)%nat) by (by rewrite (fmap_length _ _ _ (se_rank _ _ _ _ _ Hs)), HN).
  destruct (lookup_lt_is_Some_2 _ _ Hlt) as [nd Hnd].
  unfold at_res. rewrite Hnd. simpl. destruct (visited nd) eqn:Ev.
  - apply IH; [| lia]. destruct Hs as [S1 S2 S3 S4 S5 S6 S7].
    assert (n ∈ delta ∨ V0 n) by (apply S2; by exists nd).
    split; try done; [set_solver | | ].
    + intros u v Hu Hv. destruct (S6 u v Hu Hv) as [? Hk]. split; [done |].
      intros Hkv. specialize (Hk Hkv). set_solver.
    + set_solver.
  - rewrite Hadj by done. simpl.
    assert (Hr' : rank <$> <[n := MkNode (rank nd) true]> ns = rank <$> ns0).
    { rewrite rank_set by done. apply (se_rank _ _ _ _ _ Hs). }
    destruct (scan_spec _ (nb n) stack Hr' (λ w, Hnb n w Hn))
      as [[Hsc (w & Hw & Hst)] | (pushed & Hsc & Hl & H1 & H2 & H3)]; rewrite Hsc; simpl.
    + right. eexists _, _, n, w. split; [done |]. split; [done |].
      assert (Hd : n ∉ delta ∧ ¬ V0 n).
      { assert (¬ vis ns n) by (intros (d & Hd & ?); congruence).
        rewrite (se_vis _ _ _ _ _ Hs) in H. tauto. }
      split; [| split; [| done]].
      * intros m. rewrite (vis_set _ _ _ _ Hnd), (se_vis _ _ _ _ _ Hs). set_solver.
      * intros m [Hm | ->%list_elem_of_singleton]%elem_of_app; [| tauto].
        split; [by apply (se_reach _ _ _ _ _ Hs); right | by apply (se_new _ _ _ _ _ Hs)].
    + apply IH; [by apply searching_step |].
      rewrite (unmarked_set ns 0 n nd Hnd Ev) in Hf. rewrite length_app. simpl in Hf. lia.
Qed.

(** From a state without markers on [src]'s side. *)
Lemma dfs_start src :
  (src < N)%nat → ¬ vis ns0 src →
  searching src (vis ns0) ns0 [src] [].
Proof.
  intros Hs Hv. split; try done; try set_solver.
  - constructor.
Qed.

(** What a search that ran to its end visited. *)
Lemma searching_closed src V0 ns delta u v :
  searching src V0 ns [] delta → u ∈ delta → v ∈ nb u → keep (rk0 v) = true →
  ¬ V0 v → v ∈ delta.
Proof.
  intros Hs Hu Hv Hk H0. destruct (se_closed _ _ _ _ _ Hs u v Hu Hv) as [_ Hc].
  destruct (Hc Hk) as [? | [?%elem_of_nil | ?]]; done.
Qed.
End Dfs.

(** ** Reassigning ranks *)

Abbreviation sorted := (StronglySorted le).

Lemma sorted_lookup l i j x y :
  sorted l → (i ≤ j)%nat → l !! i = Some x → l !! j = Some y → (x ≤ y)%nat.
Proof.
  intros Hs. revert i j. induction Hs as [| z l Hs IH Hz]; intros i j Hij Hi Hj; [done |].
  rewrite Forall_forall in Hz. destruct i as [| i], j as [| j]; simpl in *; simplify_eq; try lia.
  - apply Hz, list_elem_of_lookup. eauto.
  - by apply (IH i j); [lia | ..].
Qed.

Lemma sorted_lookup_lt l i j x y :
  sorted l → NoDup l → (i < j)%nat → l !! i = Some x → l !! j = Some y → (x < y)%nat.
Proof.
  intros Hs Hn Hij Hi Hj. pose proof (sorted_lookup l i j x y Hs ltac:(lia) Hi Hj).
  assert (x ≠ y); [| lia]. intros ->. pose proof (NoDup_lookup _ _ _ _ Hn Hi Hj). lia.
Qed.

(** Merging moves the elements of the first list down. *)
Lemma merge_left l1 l2 i m b :
  sorted l1 → list_merge le l1 l2 !! i = Some m → l1 !! i = Some b → (m ≤ b)%nat.
Proof.
  revert l2 i m b. induction l1 as [| x1 l1 IH1]; [done |].
  intros l2. induction l2 as [| x2 l2 IH2]; intros i m b Hs Hm Hb.
  - rewrite list_merge_nil_r in Hm. by simplify_eq.
  - rewrite list_merge_cons in Hm. apply StronglySorted_cons in Hs as Hs'.
    destruct Hs' as [_ Hs1]. case_decide as Hx.
    + destruct i as [| i]; simpl in *; [by simplify_eq |]. by apply (IH1 (x2 :: l2) i).
    + destruct i as [| i]; simpl in Hm.
      * simpl in Hb. simplify_eq. lia.
      * assert (Hlt : (i < length (x1 :: l1))%nat) by (apply lookup_lt_Some in Hb; lia).
        destruct (lookup_lt_is_Some_2 _ _ Hlt) as [b' Hb'].
        specialize (IH2 i m b' Hs Hm Hb').
        pose proof (sorted_lookup _ i (S i) _ _ Hs ltac:(lia) Hb' Hb). lia.
Qed.

(** It moves those of the second list up. *)
Lemma merge_right l1 l2 j m f :
  sorted l1 → sorted l2 → list_merge le l1 l2 !! (length l1 + j)%nat = Some m →
  l2 !! j = Some f → (f ≤ m)%nat.
Proof.
  revert l2 j m f. induction l1 as [| x1 l1 IH1]; intros l2.
  { intros j m f _ _ Hm Hf. rewrite list_merge_nil_l in Hm. simpl in Hm. by simplify_eq. }
  induction l2 as [| x2 l2 IH2]; intros j m f H1 H2 Hm Hf; [done |].
  rewrite list_merge_cons in Hm. apply StronglySorted_cons in H1 as H1'.
  destruct H1' as [Hx1 Hs1]. apply StronglySorted_cons in H2 as [Hx2 Hs2].
  case_decide as Hx; simpl in Hm.
  - apply (IH1 (x2 :: l2) j); [done | by apply StronglySorted_cons | done | done].
  - destruct j as [| j]; simpl in Hf.
    + simplify_eq. rewrite Nat.add_0_r in Hm. apply list_elem_of_lookup_2 in Hm.
      rewrite merge_Permutation in Hm. rewrite !Forall_forall in *.
      apply elem_of_app in Hm as [[-> | Hm]%elem_of_cons | Hm]; [lia | | by apply Hx2].
      specialize (Hx1 m Hm). lia.
    + apply (IH2 j); [done | done | | done].
      simpl. by replace (S (length l1 + j)) with (length l1 + S j)%nat by lia.
Qed.

Lemma merge_sorted l1 l2 : sorted l1 → sorted l2 → sorted (list_merge le l1 l2).
Proof.
  intros H1 H2. apply (Sorted_StronglySorted le). apply (Sorted_list_merge le);
    by apply StronglySorted_Sorted.
Qed.

(** *** Sorting, unmarking, assigning *)

Lemma Sort_spec ns delta :
  Sort ns delta ≡ₚ delta ∧ sorted (rank_of ns <$> Sort ns delta).
Proof.
  unfold Sort. split; [apply merge_sort_Permutation |].
  assert (H : StronglySorted (rank_le ns) (merge_sort (rank_le ns) delta)).
  { apply StronglySorted_merge_sort.
    - intros a b c. unfold rank_le. lia.
    - intros a b. unfold rank_le. lia. }
  induction H as [| x l Hl IH Hx]; simpl; constructor; [done |].
  rewrite Forall_forall in *. intros y (z & -> & Hz)%list_elem_of_fmap. by apply Hx.
Qed.

Lemma MoveToList_spec ns src :
  (∀ w, w ∈ src → (w < length ns)%nat) →
  ∃ ns', MoveToList ns src = Ok (ns', rank_of ns <$> src) ∧
    rank <$> ns' = rank <$> ns ∧ (∀ n, vis ns' n ↔ vis ns n ∧ n ∉ src).
Proof.
  revert ns. induction src as [| w src IH]; intros ns Hsrc; simpl.
  { exists ns. set_solver. }
  destruct (lookup_lt_is_Some_2 ns w) as [nw Hnw]; [apply Hsrc; set_solver |].
  unfold at_res. rewrite Hnw. simpl.
  set (ns1 := <[w := MkNode (rank nw) false]> ns).
  assert (Hr : rank <$> ns1 = rank <$> ns) by by apply rank_set.
  destruct (IH ns1) as (ns' & -> & Hr' & Hv).
  { intros n Hn. unfold ns1. rewrite length_insert. apply Hsrc. set_solver. }
  exists ns'. simpl. split; [| split; [congruence |]].
  - do 3 f_equal; [unfold rank_of; by rewrite Hnw |].
    apply list_fmap_ext. intros _ n _. by apply rank_of_fmap.
  - intros n. rewrite Hv. assert (vis ns1 n ↔ vis ns n ∧ n ≠ w) as ->; [| set_solver].
    pose proof (lookup_lt_Some _ _ _ Hnw). unfold vis, ns1. split.
    + intros (d & [(<- & <- & _) | [? Hd]]%list_lookup_insert_Some & Hvd); [done | eauto].
    + intros [(d & Hd & Hvd) Hne]. exists d. by rewrite list_lookup_insert_ne.
Qed.

Lemma assign_ranks_spec ns l merged :
  NoDup l → (∀ w, w ∈ l → (w < length ns)%nat) → (length l ≤ length merged)%nat →
  ∃ ns', assign_ranks ns l merged = Ok ns' ∧ length ns' = length ns ∧
    (∀ n, vis ns' n ↔ vis ns n) ∧
    (∀ i w r, l !! i = Some w → merged !! i = Some r → rank_of ns' w = r) ∧
    (∀ n, n ∉ l → rank_of ns' n = rank_of ns n).
Proof.
  revert ns merged. induction l as [| w l IH]; intros ns merged Hn Hl Hlen; simpl.
  { exists ns. done. }
  destruct merged as [| r merged]; [simpl in Hlen; lia |].
  apply NoDup_cons in Hn as [Hw Hn].
  destruct (lookup_lt_is_Some_2 ns w) as [nw Hnw]; [apply Hl; set_solver |].
  unfold at_res. rewrite Hnw. simpl.
  set (ns1 := <[w := MkNode r (visited nw)]> ns).
  pose proof (lookup_lt_Some _ _ _ Hnw) as Hlt.
  destruct (IH ns1 merged Hn) as (ns' & -> & Hlen' & Hv & Hr & Ho).
  { intros n Hnl. unfold ns1. rewrite length_insert. apply Hl. set_solver. }
  { simpl in Hlen. lia. }
  exists ns'. split; [done |]. split; [unfold ns1 in Hlen'; by rewrite length_insert in Hlen' |].
  split_and!.
  - intros n. rewrite Hv. unfold vis, ns1. destruct (decide (n = w)) as [-> |].
    + rewrite list_lookup_insert_eq by done. rewrite Hnw. naive_solver.
    + by rewrite list_lookup_insert_ne.
  - intros [| i] v x Hv' Hx; simpl in *; [simplify_eq | by apply (Hr i)].
    rewrite Ho by done. unfold rank_of, ns1. by rewrite list_lookup_insert_eq.
  - intros n [Hne Hnl]%not_elem_of_cons. rewrite Ho by done.
    unfold rank_of, ns1. by rewrite list_lookup_insert_ne.
Qed.

Lemma rank_inj (ns : list Node) n m :
  NoDup (rank <$> ns) → (n < length ns)%nat → (m < length ns)%nat →
  rank_of ns n = rank_of ns m → n = m.
Proof.
  intros Hd Hn Hm. destruct (lookup_lt_is_Some_2 _ _ Hn) as [dn Hdn].
  destruct (lookup_lt_is_Some_2 _ _ Hm) as [dm Hdm]. unfold rank_of. rewrite Hdn, Hdm.
  intros E. apply (NoDup_lookup (rank <$> ns) n m (rank dn) Hd);
    rewrite list_lookup_fmap; [by rewrite Hdn | by rewrite Hdm, E].
Qed.

Lemma rank_nodup (ns : list Node) :
  (∀ n m, (n < length ns)%nat → (m < length ns)%nat → rank_of ns n = rank_of ns m → n = m) →
  NoDup (rank <$> ns).
Proof.
  intros H. apply NoDup_alt. intros i j x. rewrite !list_lookup_fmap.
  intros (di & Hi & ->)%fmap_Some (dj & Hj & E)%fmap_Some.
  apply H; [by eapply lookup_lt_Some.. |]. unfold rank_of. by rewrite Hi, Hj.
Qed.

Lemma ranks_nodup (ns : list Node) l :
  NoDup (rank <$> ns) → NoDup l → (∀ w, w ∈ l → (w < length ns)%nat) →
  NoDup (rank_of ns <$> l).
Proof.
  intros Hd Hn Hl. apply NoDup_fmap_2_strong; [| done].
  intros n m Hnl Hml. apply rank_inj; auto.
Qed.

(** What [Reorder] does to the ranks: the nodes of [B] keep their order, move
    down and come before those of [F], which keep their order and move up; the
    ranks in use stay the same. *)
Record reordered (ns : list Node) (B F : list nat) (ns' : list Node) : Prop := Reordered {
  re_len : length ns' = length ns;
  re_vis n : vis ns' n ↔ vis ns n ∧ n ∉ B ∧ n ∉ F;
  re_inj : NoDup (rank <$> ns');
  re_other n : n ∉ B → n ∉ F → rank_of ns' n = rank_of ns n;
  re_down b : b ∈ B → (rank_of ns' b ≤ rank_of ns b)%nat;
  re_up f : f ∈ F → (rank_of ns f ≤ rank_of ns' f)%nat;
  re_orderB b c : b ∈ B → c ∈ B → (rank_of ns b < rank_of ns c)%nat →
    (rank_of ns' b < rank_of ns' c)%nat;
  re_orderF b c : b ∈ F → c ∈ F → (rank_of ns b < rank_of ns c)%nat →
    (rank_of ns' b < rank_of ns' c)%nat;
  re_between b f : b ∈ B → f ∈ F → (rank_of ns' b < rank_of ns' f)%nat;
  re_same n : n ∈ B ∨ n ∈ F → ∃ m, (m ∈ B ∨ m ∈ F) ∧ rank_of ns' n = rank_of ns m
}.

Section Reorder.
Context (ns ns' : list Node) (B F : list nat).
Let sB := Sort ns B.
Let sF := Sort ns F.
Let mr := list_merge le (rank_of ns <$> sB) (rank_of ns <$> sF).
Hypothesis Hdup : NoDup (rank <$> ns).
Hypothesis Hnd : NoDup (B ++ F).
Hypothesis Hin : ∀ w, w ∈ B ++ F → (w < length ns)%nat.
Hypothesis Hset : ∀ i w r, (sB ++ sF) !! i = Some w → mr !! i = Some r → rank_of ns' w = r.
Hypothesis Hout : ∀ n, n ∉ sB ++ sF → rank_of ns' n = rank_of ns n.

Lemma sB_elem w : w ∈ sB ↔ w ∈ B.
Proof. unfold sB. by rewrite (proj1 (Sort_spec ns B)). Qed.
Lemma sF_elem w : w ∈ sF ↔ w ∈ F.
Proof. unfold sF. by rewrite (proj1 (Sort_spec ns F)). Qed.

Lemma perm_BF : sB ++ sF ≡ₚ B ++ F.
Proof. unfold sB, sF. by rewrite !(proj1 (Sort_spec ns _)). Qed.

Lemma mr_perm : mr ≡ₚ rank_of ns <$> (sB ++ sF).
Proof. unfold mr. by rewrite merge_Permutation, fmap_app. Qed.

Lemma mr_sorted : sorted mr.
Proof. apply merge_sorted; apply Sort_spec. Qed.

Lemma mr_nodup : NoDup mr.
Proof.
  rewrite mr_perm. apply ranks_nodup; [done | by rewrite perm_BF |].
  intros w. rewrite perm_BF. apply Hin.
Qed.

Lemma mr_length : length mr = length (sB ++ sF).
Proof. by rewrite mr_perm, length_fmap. Qed.

(** Where a node of the list gets its rank from. *)
Lemma new_rank i w :
  (sB ++ sF) !! i = Some w → mr !! i = Some (rank_of ns' w).
Proof.
  intros Hi. pose proof (lookup_lt_Some _ _ _ Hi) as Hlt. rewrite <- mr_length in Hlt.
  destruct (lookup_lt_is_Some_2 _ _ Hlt) as [r Hr]. by rewrite (Hset i w r).
Qed.

Lemma idx_B b : b ∈ B → ∃ i, sB !! i = Some b ∧ (sB ++ sF) !! i = Some b ∧ (i < length sB)%nat.
Proof.
  intros [i Hi]%sB_elem%list_elem_of_lookup. exists i.
  pose proof (lookup_lt_Some _ _ _ Hi). rewrite lookup_app_l by done. done.
Qed.

Lemma idx_F f : f ∈ F → ∃ j, sF !! j = Some f ∧ (sB ++ sF) !! (length sB + j)%nat = Some f.
Proof.
  intros [j Hj]%sF_elem%list_elem_of_lookup. exists j. split; [done |].
  rewrite lookup_app_r by lia. by replace (length sB + j - length sB)%nat with j by lia.
Qed.

(** Later in the list is larger. *)
Lemma new_mono i j v w :
  (sB ++ sF) !! i = Some v → (sB ++ sF) !! j = Some w → (i < j)%nat →
  (rank_of ns' v < rank_of ns' w)%nat.
Proof.
  intros Hi%new_rank Hj%new_rank Hij.
  by apply (sorted_lookup_lt mr i j); [apply mr_sorted | apply mr_nodup | ..].
Qed.

(** In a sorted list, a smaller rank is at a smaller position. *)
Lemma idx_mono (D : list nat) i j v w :
  Sort ns D !! i = Some v → Sort ns D !! j = Some w → (rank_of ns v < rank_of ns w)%nat →
  (i < j)%nat.
Proof.
  intros Hi Hj Hlt. destruct (decide (i < j)%nat) as [| Hge]; [done |].
  assert ((rank_of ns w ≤ rank_of ns v)%nat); [| lia].
  apply (sorted_lookup (rank_of ns <$> Sort ns D) j i); [apply Sort_spec | lia | |];
    by rewrite list_lookup_fmap, ?Hi, ?Hj.
Qed.

Lemma reorder_ranks :
  length ns' = length ns → (∀ n, vis ns' n ↔ vis ns n ∧ n ∉ B ∧ n ∉ F) →
  reordered ns B F ns'.
Proof.
  intros Hlen Hvis.
  assert (Hother : ∀ n, n ∉ B → n ∉ F → rank_of ns' n = rank_of ns n).
  { intros n HnB HnF. apply Hout. rewrite elem_of_app, sB_elem, sF_elem. tauto. }
  assert (Hsame : ∀ n, n ∈ B ++ F → ∃ m, m ∈ B ++ F ∧ rank_of ns' n = rank_of ns m).
  { intros n Hn. rewrite <- perm_BF in Hn. apply list_elem_of_lookup in Hn as [i Hi].
    apply new_rank, list_elem_of_lookup_2 in Hi. rewrite mr_perm in Hi.
    apply list_elem_of_fmap in Hi as (m & E & Hm). rewrite perm_BF in Hm. by exists m. }
  split; try done.
  - apply rank_nodup. rewrite Hlen. intros n m Hn Hm E.
    assert (Hdec : ∀ k, k ∈ B ++ F ∨ (k ∉ B ∧ k ∉ F)).
    { intros k. destruct (decide (k ∈ B ++ F)); [by left | right].
      rewrite elem_of_app in n0. tauto. }
    destruct (Hdec n) as [Hn' | [N1 N2]], (Hdec m) as [Hm' | [M1 M2]].
    + rewrite <- perm_BF in Hn', Hm'. apply list_elem_of_lookup in Hn' as [i Hi].
      apply list_elem_of_lookup in Hm' as [j Hj].
      pose proof (new_rank _ _ Hi) as Ri. pose proof (new_rank _ _ Hj) as Rj. rewrite E in Ri.
      pose proof (NoDup_lookup _ _ _ _ mr_nodup Ri Rj). congruence.
    + rewrite (Hother m) in E by done. destruct (Hsame n Hn') as (k & Hk & Ek).
      assert (k = m) as -> by (apply (rank_inj ns); auto; congruence).
      apply elem_of_app in Hk. tauto.
    + rewrite (Hother n) in E by done. destruct (Hsame m Hm') as (k & Hk & Ek).
      assert (k = n) as -> by (apply (rank_inj ns); auto; congruence).
      apply elem_of_app in Hk. tauto.
    + rewrite !Hother in E by done. by apply (rank_inj ns).
  - intros b Hb. destruct (idx_B b Hb) as (i & Hi & Hl & _).
    apply (merge_left (rank_of ns <$> sB) (rank_of ns <$> sF) i); [apply Sort_spec | |].
    + by apply new_rank.
    + by rewrite list_lookup_fmap, Hi.
  - intros f Hf. destruct (idx_F f Hf) as (j & Hj & Hl).
    apply (merge_right (rank_of ns <$> sB) (rank_of ns <$> sF) j);
      [apply Sort_spec.. | |].
    + rewrite length_fmap. by apply new_rank.
    + by rewrite list_lookup_fmap, Hj.
  - intros b c Hb Hc Hlt. destruct (idx_B b Hb) as (i & Hi & Hli & _).
    destruct (idx_B c Hc) as (j & Hj & Hlj & _). apply (new_mono i j); [done.. |].
    by apply (idx_mono B i j b c).
  - intros b c Hb Hc Hlt. destruct (idx_F b Hb) as (i & Hi & Hli).
    destruct (idx_F c Hc) as (j & Hj & Hlj).
    apply (new_mono (length sB + i) (length sB + j)); [done.. |].
    pose proof (idx_mono F i j b c Hi Hj Hlt). lia.
  - intros b f Hb Hf. destruct (idx_B b Hb) as (i & _ & Hli & Hlt).
    destruct (idx_F f Hf) as (j & _ & Hlj). apply (new_mono i (length sB + j)); [done.. | lia].
  - intros n Hn. destruct (Hsame n) as (m & Hm & E); [by apply elem_of_app |].
    exists m. split; [by apply elem_of_app | done].
Qed.
End Reorder.

Lemma Reorder_spec ns B F :
  NoDup (rank <$> ns) → NoDup (B ++ F) → (∀ w, w ∈ B ++ F → (w < length ns)%nat) →
  ∃ ns', Reorder ns B F = Ok ns' ∧ reordered ns B F ns'.
Proof.
  intros Hdup Hnd Hin. unfold Reorder. cbv zeta.
  destruct (Sort_spec ns B) as [PB _]. destruct (Sort_spec ns F) as [PF _].
  destruct (MoveToList_spec ns (Sort ns B)) as (ns1 & -> & Hr1 & Hv1).
  { intros w. rewrite PB. intros ?. apply Hin, elem_of_app. by left. }
  simpl. destruct (MoveToList_spec ns1 (Sort ns F)) as (ns2 & -> & Hr2 & Hv2).
  { intros w. rewrite PF, (fmap_length _ _ _ Hr1). intros ?. apply Hin, elem_of_app. by right. }
  simpl. assert (E1 : rank_of ns1 <$> Sort ns F = rank_of ns <$> Sort ns F).
  { apply list_fmap_ext. intros _ n _. by apply rank_of_fmap. }
  rewrite E1. set (mr := list_merge le _ _).
  destruct (assign_ranks_spec ns2 (Sort ns B ++ Sort ns F) mr)
    as (ns' & -> & Hlen & Hv & Hset & Hout).
  - by rewrite PB, PF.
  - intros w. rewrite PB, PF, (fmap_length _ _ _ Hr2), (fmap_length _ _ _ Hr1). apply Hin.
  - unfold mr. by rewrite merge_Permutation, <- fmap_app, length_fmap.
  - exists ns'. split; [done |]. apply reorder_ranks; try done.
    + intros n Hn. rewrite Hout by done. apply rank_of_fmap. congruence.
    + by rewrite Hlen, (fmap_length _ _ _ Hr2), (fmap_length _ _ _ Hr1).
    + intros n. rewrite Hv, Hv2, Hv1, PB, PF. tauto.
Qed.

(** ** The two searches on a graph *)

Definition outs (g : Rep) (n : nat) : list nat :=
  match node_io_ g !! n with Some io => OrderedSet.GetSequence (out_ io) | None => [] end.
Definition ins (g : Rep) (n : nat) : list nat :=
  match node_io_ g !! n with Some io => OrderedSet.GetSequence (in_ io) | None => [] end.

Lemma outs_edge g u v : v ∈ outs g u ↔ edge g u v.
Proof.
  unfold outs, edge. destruct (node_io_ g !! u); [naive_solver |].
  split; [by intros ?%elem_of_nil | naive_solver].
Qed.
Lemma ins_back g u v : v ∈ ins g u ↔ back g u v.
Proof.
  unfold ins, back. destruct (node_io_ g !! u); [naive_solver |].
  split; [by intros ?%elem_of_nil | naive_solver].
Qed.

Lemma unmarked_le nb (f : NodeIO → nat) ios ns i :
  length ios = length ns →
  (∀ k io, ios !! k = Some io → length (nb (i + k)%nat) = f io) →
  (unmarked nb ns i ≤ sum_list (f <$> ios))%nat.
Proof.
  revert ns i. induction ios as [| io ios IH]; intros ns i Hl Hf;
    destruct ns as [| nd ns]; simpl in *; try lia.
  pose proof (Hf 0%nat io eq_refl) as H0. rewrite Nat.add_0_r in H0.
  specialize (IH ns (S i) ltac:(lia)).
  assert (unmarked nb ns (S i) ≤ sum_list (f <$> ios))%nat.
  { apply IH. intros k d Hk. rewrite <- (Hf (S k) d Hk). do 2 f_equal. lia. }
  change (list_fmap NodeIO nat f ios) with (f <$> ios). destruct (visited nd); lia.
Qed.

(** Enough of the invariant to search a graph. *)
Record searchable (g : Rep) : Prop := Searchable {
  sr_len : length (node_io_ g) = length (nodes_ g);
  sr_out u v : edge g u v → node g v;
  sr_in u v : back g u v → node g v
}.

Lemma at_res_lt {A} (l : list A) n : (n < length l)%nat → ∃ x, l !! n = Some x.
Proof. intros H. by destruct (lookup_lt_is_Some_2 _ _ H) as [x ?]; exists x. Qed.

Lemma out_of_run g n : searchable g → node g n → out_of g n = Ok (outs g n).
Proof.
  intros Hs Hn. unfold out_of, outs. destruct (at_res_lt (node_io_ g) n) as [io E].
  - by rewrite (sr_len _ Hs).
  - unfold at_res. by rewrite E.
Qed.
Lemma in_of_run g n : searchable g → node g n → in_of g n = Ok (ins g n).
Proof.
  intros Hs Hn. unfold in_of, ins. destruct (at_res_lt (node_io_ g) n) as [io E].
  - by rewrite (sr_len _ Hs).
  - unfold at_res. by rewrite E.
Qed.

(** The nodes a search from [src] along [E] visits. *)
Record visits (g : Rep) (E : nat → nat → Prop) (V0 : nat → Prop) (keep : nat → Prop)
    (src : nat) (ns' : list Node) (D : list nat) : Prop := Visits {
  vi_rank : rank <$> ns' = rank <$> nodes_ g;
  vi_vis n : vis ns' n ↔ n ∈ D ∨ V0 n;
  vi_nodup : NoDup D;
  vi_new n : n ∈ D → ¬ V0 n;
  vi_reach n : n ∈ D → node g n ∧ rtc E src n ∧ (n = src ∨ keep (rk g n));
  vi_closed u v : u ∈ D → E u v → keep (rk g v) → v ∈ D ∨ V0 v;
  vi_src : src ∈ D
}.

Lemma ForwardDFS_spec g y ub :
  searchable g → node g y → (∀ n, ¬ vis (nodes_ g) n) →
  (∃ ns' F, ForwardDFS g y ub = Ok (true, ns', F) ∧
     visits g (edge g) (λ _, False) (λ r, r < ub)%nat y ns' F ∧
     ∀ u v, u ∈ F → edge g u v → rk g v ≠ ub) ∨
  (∃ ns' F u v, ForwardDFS g y ub = Ok (false, ns', F) ∧
     rank <$> ns' = rank <$> nodes_ g ∧ (∀ n, vis ns' n ↔ n ∈ F) ∧
     (∀ n, n ∈ F → node g n) ∧ node g u ∧ rtc (edge g) y u ∧ edge g u v ∧ rk g v = ub).
Proof.
  intros Hs Hy Hv. unfold ForwardDFS.
  assert (Hb : (length [y] + unmarked (outs g) (nodes_ g) 0 ≤ S (total_out g))%nat).
  { simpl. apply le_n_S. unfold total_out. apply unmarked_le; [apply (sr_len _ Hs) |].
    intros k io Hk. simpl. unfold outs, OrderedSet.Size. by rewrite Hk. }
  assert (HE : ∀ a b, rtc (λ u v, v ∈ outs g u) a b → rtc (edge g) a b).
  { intros a b. apply rtc_subrel. intros u v. apply outs_edge. }
  destruct (dfs_loop (out_of g) (outs g) (λ r, r =? ub)%nat (λ r, r <? ub)%nat
    (length (nodes_ g)) (nodes_ g) eq_refl (λ n Hn, out_of_run g n Hs Hn)
    (λ n w _ Hw, sr_out g Hs n w (proj1 (outs_edge g n w) Hw))
    (S (total_out g)) y (vis (nodes_ g)) (nodes_ g) [y] [])
    as [(ns' & F & Hr & S) | (ns' & F & u & v & Hr & R1 & R2 & R3 & R4 & R5 & R6 & R7)].
  - apply (dfs_start (out_of g)); try done; [by intros; apply out_of_run |].
    intros n w _ Hw. by apply (sr_out g Hs n), outs_edge.
  - done.
  - left. exists ns', F. split; [done |]. destruct S as [S1 S2 S3 S4 S5 S6 S7]. split; [split |].
    + done.
    + intros n. rewrite S2. split; [intros [|]; [by left | by destruct (Hv n)] | tauto].
    + done.
    + tauto.
    + intros n Hn. destruct (S5 n (or_intror Hn)) as (? & Hp & Hk).
      split; [done |]. split; [by apply HE |]. by rewrite Nat.ltb_lt in Hk.
    + intros u v Hu Huv Hk. destruct (S6 u v Hu) as [_ Hc]; [by apply outs_edge |].
      destruct Hc as [| [?%elem_of_nil | ?]]; [by apply Nat.ltb_lt | by left | done |].
      by destruct (Hv v).
    + destruct S7 as [| [?%elem_of_nil | ?]]; [done | done | by destruct (Hv y)].
    + intros u v Hu Huv. destruct (S6 u v Hu) as [Hst _]; [by apply outs_edge |].
      by apply Nat.eqb_neq in Hst.
  - right. exists ns', F, u, v. split; [done |]. split; [done |]. split_and!.
    + intros n. rewrite R2. split; [intros [|]; [done | by destruct (Hv n)] | tauto].
    + intros n Hn. by apply R3.
    + done.
    + by apply HE.
    + by apply outs_edge.
    + by apply Nat.eqb_eq.
Qed.

Lemma BackwardDFS_spec g x lb :
  searchable g → node g x → ¬ vis (nodes_ g) x →
  ∃ ns' B, BackwardDFS g x lb = Ok (ns', B) ∧
    visits g (back g) (vis (nodes_ g)) (λ r, lb < r)%nat x ns' B.
Proof.
  intros Hs Hx Hv. unfold BackwardDFS.
  assert (Hb : (length [x] + unmarked (ins g) (nodes_ g) 0 ≤ S (total_in g))%nat).
  { simpl. apply le_n_S. unfold total_in. apply unmarked_le; [apply (sr_len _ Hs) |].
    intros k io Hk. simpl. unfold ins, OrderedSet.Size. by rewrite Hk. }
  destruct (dfs_loop (in_of g) (ins g) (λ _, false) (λ r, lb <? r)%nat
    (length (nodes_ g)) (nodes_ g) eq_refl (λ n Hn, in_of_run g n Hs Hn)
    (λ n w _ Hw, sr_in g Hs n w (proj1 (ins_back g n w) Hw))
    (S (total_in g)) x (vis (nodes_ g)) (nodes_ g) [x] [])
    as [(ns' & B & Hr & S) | (? & ? & ? & ? & ? & ? & ? & ? & ? & ? & ? & ?)]; [| done | |done].
  - apply (dfs_start (in_of g)); try done; [by intros; apply in_of_run |].
    intros n w _ Hw. by apply (sr_in g Hs n), ins_back.
  - exists ns', B. rewrite Hr. split; [done |].
    destruct S as [S1 S2 S3 S4 S5 S6 S7]. split; try done.
    + intros n Hn. destruct (S5 n (or_intror Hn)) as (? & Hp & Hk).
      split; [done |]. split; [| by rewrite Nat.ltb_lt in Hk].
      revert Hp. apply rtc_subrel. intros u v. apply ins_back.
    + intros u v Hu Huv Hk. destruct (S6 u v Hu) as [_ Hc]; [by apply ins_back |].
      destruct Hc as [| [?%elem_of_nil | ?]]; [by apply Nat.ltb_lt | by left | done | by right].
    + destruct S7 as [| [?%elem_of_nil | ?]]; done.
Qed.

(** ** Paths *)

Lemma wf_path g u v : wf g → tc (edge g) u v → (rk g u < rk g v)%nat.
Proof.
  intros [_ H]. induction 1 as [u v Huv | u w v Huw _ IH]; [by apply H |].
  specialize (H u w Huw). lia.
Qed.

Lemma wf_rtc g u v : wf g → rtc (edge g) u v → u = v ∨ (rk g u < rk g v)%nat.
Proof.
  intros H Hp. apply rtc_tc in Hp as [-> | Hp]; [by left | right; by apply wf_path].
Qed.

Lemma wf_acyclic g u : wf g → ¬ tc (edge g) u u.
Proof. intros H Hp. pose proof (wf_path g u u H Hp). lia. Qed.

Lemma node_rank_inj g n m : shape g → node g n → node g m → rk g n = rk g m → n = m.
Proof. intros S. apply rank_inj, (sh_rank _ S). Qed.

Lemma edge_src g u v : edge g u v → (u < length (node_io_ g))%nat.
Proof. intros (io & H & _). by eapply lookup_lt_Some. Qed.

Lemma shape_searchable g : shape g → searchable g.
Proof.
  intros S. split; [apply S | apply S |]. intros u v H.
  apply (sh_sym _ S) in H. apply edge_src in H. by rewrite (sh_len _ S) in H.
Qed.

Lemma no_vis g : shape g → ∀ n, ¬ vis (nodes_ g) n.
Proof. intros S n (nd & Hn & Hv). rewrite (sh_vis _ S n nd Hn) in Hv. done. Qed.

End GraphProofs.
