(* ===== verification/GraphInsert.v ===== *)
(** * Edge insertion keeps the ranks increasing

    [InsertEdge] decides whether the new edge closes a cycle, and re-ranks the
    affected nodes when it does not. *)
From S2P Require Import Prelude GraphCycles GraphProofs.

Module GraphInsert.
Import GraphCycles GraphProofs.

Lemma shape_nodes g ns :
  shape g → length ns = length (nodes_ g) → NoDup (rank <$> ns) → (∀ n, ¬ vis ns n) →
  (∀ n, (n < length ns)%nat → (rank_of ns n < length ns)%nat) →
  shape (with_nodes ns g).
Proof.
  intros [S1 S2 S3 S4 S5 S6 S7 S8 S9 S10] Hl Hd Hv Hb. split; simpl; rewrite ?Hl; try done.
  - intros u v He. unfold node. simpl. rewrite Hl. by apply (S5 u).
  - intros n nd Hn. destruct (visited nd) eqn:E; [| done]. destruct (Hv n). by exists nd.
  - intros n Hn. unfold node. simpl. rewrite Hl. by apply S9.
  - intros n. unfold node, rk. simpl. rewrite <- Hl. apply Hb.
Qed.

(** Fewer edges on the same nodes. *)
Lemma wf_sub g g' :
  wf g → same_rest g g' → sets_ok g' → (∀ u v, edge g' u v → edge g u v) →
  (∀ u v, edge g' u v ↔ back g' v u) → wf g'.
Proof.
  intros [[S1 S2 S3 S4 S5 S6 S7 S8 S9 S10] HW] (R1 & R2 & R3 & R4) K He Hb. split.
  - split; unfold node; rewrite ?R1, ?R2, ?R3, ?R4; try done.
    + intros u v Huv%He. by apply (S5 u).
    + intros n Hn. split; [by apply S9 |]. intros v.
      destruct (proj2 (S9 n Hn) v). by split; intros ?%He.
    + intros n. unfold rk. rewrite R1. apply S10.
  - intros u v Huv%He. unfold rk. rewrite R1. by apply HW.
Qed.

(** The same graph, with the neighbour sets in another order. *)
Lemma wf_same g g' :
  wf g → same_rest g g' → sets_ok g' → (∀ u v, edge g' u v ↔ edge g u v) →
  (∀ u v, back g' u v ↔ back g u v) → wf g'.
Proof.
  intros W Q K He Hb. apply (wf_sub g); try done; intros u v; rewrite He; [done |].
  by rewrite Hb, (sh_sym _ (proj1 W)).
Qed.

Lemma ClearVisitedBits_moves ns l :
  ClearVisitedBits ns l = ('(ns', _) ← MoveToList ns l; Ok ns').
Proof.
  revert ns. induction l as [| w l IH]; intros ns; simpl; [done |].
  destruct (at_res ns w) as [nw |]; simpl; [| done]. rewrite IH.
  by destruct (MoveToList _ l) as [[] |].
Qed.

Lemma ClearVisitedBits_spec ns l :
  (∀ w, w ∈ l → (w < length ns)%nat) →
  ∃ ns', ClearVisitedBits ns l = Ok ns' ∧
    rank <$> ns' = rank <$> ns ∧ (∀ n, vis ns' n ↔ vis ns n ∧ n ∉ l).
Proof.
  intros Hl. destruct (MoveToList_spec ns l Hl) as (ns' & H & ?).
  exists ns'. by rewrite ClearVisitedBits_moves, H.
Qed.

(** The graph [g2] with the edge from [x] to [y] added to the graph [g]. *)
Section Insert.
Context (g g2 : Rep) (x y : nat).
Hypothesis W : wf g.
Hypothesis Hx : live g x.
Hypothesis Hy : live g y.
Hypothesis Hrest : same_rest g g2.
Hypothesis Hsets : sets_ok g2.
Hypothesis Hedge : ∀ u v, edge g2 u v ↔ edge g u v ∨ (u = x ∧ v = y).
Hypothesis Hback : ∀ u v, back g2 u v ↔ back g u v ∨ (u = y ∧ v = x).

Lemma ins_nodes : nodes_ g2 = nodes_ g.
Proof. apply Hrest. Qed.
Lemma ins_rk n : rk g2 n = rk g n.
Proof. unfold rk. by rewrite ins_nodes. Qed.
Lemma ins_node n : node g2 n ↔ node g n.
Proof. unfold node. by rewrite ins_nodes. Qed.

Lemma ins_shape : shape g2.
Proof.
  destruct W as [[S1 S2 S3 S4 S5 S6 S7 S8 S9 S10] _]. destruct Hrest as (R1 & R2 & R3 & R4).
  split; rewrite ?R1, ?R2, ?R3, ?R4; try done.
  - intros u v. rewrite Hedge, Hback, S4. tauto.
  - intros u v. rewrite Hedge, ins_node. intros [He | [_ ->]]; [by apply (S5 u) | apply Hy].
  - intros n Hn. rewrite ins_node. destruct (S9 n Hn) as [Hnode He]. split; [done |].
    intros v. rewrite !Hedge. destruct (He v) as [E1 E2].
    split; intros [? | [-> ->]]; try done; [by apply Hx | by apply Hy].
  - intros n. rewrite ins_node, ins_rk. apply S10.
Qed.

(** A path to [x] or from [y] need not use the new edge. *)
Lemma path_to_x u : rtc (edge g2) u x → rtc (edge g) u x.
Proof.
  revert u. apply rtc_ind_l; [done |]. intros u w Huw _ IH.
  apply Hedge in Huw as [Huw | [-> ->]]; [| done]. by apply (rtc_l _ u w).
Qed.
Lemma path_from_y v : rtc (edge g2) y v → rtc (edge g) y v.
Proof.
  revert v. apply rtc_ind_r; [done |]. intros v w _ Hvw IH.
  apply Hedge in Hvw as [Hvw | [-> ->]]; [| done]. by apply (rtc_r _ v).
Qed.
Lemma back_path u : rtc (back g2) x u → rtc (edge g) u x.
Proof.
  intros Hp. apply path_to_x. revert u Hp. apply rtc_ind_r; [done |]. intros v u _ Huv IH.
  apply (sh_sym _ ins_shape) in Huv. by apply (rtc_l _ u v).
Qed.

Lemma path_rank u v : rtc (edge g) u v → (rk g u ≤ rk g v)%nat.
Proof. intros [-> | ?]%(wf_rtc g u v W); lia. Qed.
Lemma edge_rank u v : edge g u v → (rk g u < rk g v)%nat.
Proof. apply W. Qed.

(** The search of the case where the edge goes against the ranks. *)
Section Against.
Context (ns1 : list Node) (F : list nat).
Hypothesis Hlt : (rk g y < rk g x)%nat.
Hypothesis HF : visits g2 (edge g2) (λ _, False) (λ r, r < rk g x)%nat y ns1 F.
Hypothesis Hstop : ∀ u v, u ∈ F → edge g2 u v → rk g v ≠ rk g x.

Lemma F_path n : n ∈ F → rtc (edge g) y n.
Proof. intros Hn. apply path_from_y. by apply (vi_reach _ _ _ _ _ _ _ HF). Qed.
Lemma F_below n : n ∈ F → (rk g n < rk g x)%nat.
Proof.
  intros Hn. destruct (vi_reach _ _ _ _ _ _ _ HF n Hn) as (_ & _ & [-> | H]); [done |].
  by rewrite ins_rk in H.
Qed.
Lemma F_next u v : u ∈ F → edge g u v → v ∈ F ∨ (rk g x < rk g v)%nat.
Proof.
  intros Hu Huv. assert (He : edge g2 u v) by (apply Hedge; by left).
  destruct (decide (rk g v < rk g x)%nat) as [Hk |].
  - rewrite <- !ins_rk in Hk. left.
    destruct (vi_closed _ _ _ _ _ _ _ HF u v Hu He) as [| []]; [| done].
    by rewrite <- (ins_rk x).
  - right. pose proof (Hstop u v Hu He). lia.
Qed.

Lemma F_no_path n : n ∈ F → ¬ rtc (edge g) n x.
Proof.
  intros Hn Hp. revert n Hp Hn. apply (rtc_ind_l (λ n, n ∈ F → False) x).
  - intros Hn. pose proof (F_below _ Hn). lia.
  - intros n m Hnm Hp IH Hn. destruct (F_next _ _ Hn Hnm) as [Hm | Hm]; [by apply IH |].
    pose proof (path_rank _ _ Hp). lia.
Qed.

(** No path leads back from [y] to [x]. *)
Lemma no_cycle : ¬ rtc (edge g) y x.
Proof. apply F_no_path, HF. Qed.
Lemma x_not_F : x ∉ F.
Proof. intros H%F_no_path. by apply H. Qed.

Section Back.
Context (ns2 : list Node) (B : list nat).
Hypothesis HB : visits (with_nodes ns1 g2) (back g2) (λ n, n ∈ F) (λ r, rk g y < r)%nat x ns2 B.

Lemma rk1 n : rk (with_nodes ns1 g2) n = rk g n.
Proof. rewrite <- (ins_rk n). apply rank_of_fmap, HF. Qed.
Lemma B_path n : n ∈ B → rtc (edge g) n x.
Proof. intros Hn. apply back_path. by apply (vi_reach _ _ _ _ _ _ _ HB). Qed.
Lemma B_above n : n ∈ B → (rk g y < rk g n)%nat.
Proof.
  intros Hn. destruct (vi_reach _ _ _ _ _ _ _ HB n Hn) as (_ & _ & [-> | H]); [done |].
  by rewrite rk1 in H.
Qed.
Lemma B_not_F n : n ∈ B → n ∉ F.
Proof. apply HB. Qed.
Lemma B_prev u v : v ∈ B → edge g u v → u ∈ B ∨ (rk g u < rk g y)%nat ∨ u = y.
Proof.
  intros Hv Huv. assert (He : back g2 v u) by (apply (sh_sym _ ins_shape), Hedge; by left).
  destruct (decide (rk g y < rk g u)%nat) as [Hk |].
  - left. destruct (vi_closed _ _ _ _ _ _ _ HB v u Hv He) as [| Hu]; [by rewrite rk1 | done |].
    destruct (F_no_path u Hu). eapply rtc_l; [done | by apply B_path].
  - right. destruct (decide (rk g u = rk g y)) as [E |]; [right | left; lia].
    apply (node_rank_inj g); [apply W | | apply Hy | done].
    apply edge_src in Huv. unfold node. by rewrite <- (sh_len _ (proj1 W)).
Qed.

Lemma y_in_F : y ∈ F.
Proof. apply HF. Qed.

(** The new ranks increase along every edge. *)
Lemma reorder_edges ns3 u v :
  (∀ n, rank_of ns2 n = rk g n) → reordered ns2 B F ns3 → edge g2 u v →
  (rank_of ns3 u < rank_of ns3 v)%nat.
Proof.
  intros Hr R. assert (HnewB : ∀ n, n ∈ B ∨ n ∈ F → (rk g y ≤ rank_of ns3 n ≤ rk g x)%nat).
  { intros n (m & Hm & ->)%(re_same _ _ _ _ R). rewrite Hr. destruct Hm as [Hm | Hm].
    - pose proof (B_above _ Hm). pose proof (path_rank _ _ (B_path _ Hm)). lia.
    - pose proof (F_below _ Hm). pose proof (path_rank _ _ (F_path _ Hm)). lia. }
  rewrite Hedge. intros [Huv | [-> ->]].
  2: { apply (re_between _ _ _ _ R); [apply HB | apply HF]. }
  pose proof (edge_rank _ _ Huv) as Hk.
  destruct (decide (u ∈ B)) as [HuB |]; [| destruct (decide (u ∈ F)) as [HuF |]].
  - destruct (decide (v ∈ B)); [by apply (re_orderB _ _ _ _ R); rewrite ?Hr |].
    destruct (decide (v ∈ F)); [by apply (re_between _ _ _ _ R) |].
    rewrite (re_other _ _ _ _ R v) by done. pose proof (re_down _ _ _ _ R u HuB).
    rewrite !Hr in *. lia.
  - destruct (decide (v ∈ F)); [by apply (re_orderF _ _ _ _ R); rewrite ?Hr |].
    destruct (F_next _ _ HuF Huv) as [? | Hv]; [done |].
    assert (v ∉ B). { intros HvB. pose proof (path_rank _ _ (B_path _ HvB)). lia. }
    rewrite (re_other _ _ _ _ R v) by done. rewrite Hr.
    pose proof (HnewB u (or_intror HuF)). lia.
  - rewrite (re_other _ _ _ _ R u) by done. rewrite Hr.
    destruct (decide (v ∈ F)) as [HvF |].
    { pose proof (re_up _ _ _ _ R v HvF). rewrite Hr in *. lia. }
    destruct (decide (v ∈ B)) as [HvB |].
    2: { rewrite (re_other _ _ _ _ R v) by done. by rewrite Hr. }
    pose proof (HnewB v (or_introl HvB)).
    destruct (B_prev _ _ HvB Huv) as [? | [? | ->]]; [done | lia | by pose proof y_in_F].
Qed.
End Back.

(** The backward search and the reordering. *)
Lemma reorder_run :
  ∃ ns2 B ns3, BackwardDFS (with_nodes ns1 g2) x (rk g y) = Ok (ns2, B) ∧
    Reorder ns2 B F = Ok ns3 ∧ length ns3 = length (nodes_ g) ∧ wf (with_nodes ns3 g2).
Proof using All.
  assert (Hlen : length ns1 = length (nodes_ g)).
  { rewrite <- ins_nodes. apply (fmap_length rank). apply HF. }
  assert (Hv1 : ∀ n, vis (nodes_ (with_nodes ns1 g2)) n ↔ n ∈ F).
  { intros n. simpl. rewrite (vi_vis _ _ _ _ _ _ _ HF). tauto. }
  assert (Hs1 : searchable (with_nodes ns1 g2)).
  { destruct (shape_searchable g2 ins_shape) as [L1 L2 L3]. unfold node in *.
    split; unfold node; simpl; rewrite Hlen, <- ins_nodes; [done | apply L2 | apply L3]. }
  destruct (BackwardDFS_spec (with_nodes ns1 g2) x (rk g y)) as (ns2 & B & HBr & HB).
  { done. }
  { unfold node. simpl. rewrite Hlen. apply Hx. }
  { rewrite Hv1. apply x_not_F. }
  assert (HB' : visits (with_nodes ns1 g2) (back g2) (λ n, n ∈ F) (λ r, rk g y < r)%nat x ns2 B).
  { destruct HB as [B1 B2 B3 B4 B5 B6 B7]. simpl in *. split; try done.
    - intros n. rewrite B2. by rewrite Hv1.
    - intros n Hn. rewrite <- Hv1. by apply B4.
    - intros u v Hu Huv Hk. rewrite <- Hv1. by apply (B6 u). }
  clear HB. assert (Hr2 : ∀ n, rank_of ns2 n = rk g n).
  { intros n. rewrite <- (rk1 n). apply rank_of_fmap, HB'. }
  assert (Hlen2 : length ns2 = length (nodes_ g)).
  { rewrite (fmap_length _ _ _ (vi_rank _ _ _ _ _ _ _ HB')). done. }
  destruct (Reorder_spec ns2 B F) as (ns3 & HR & R).
  - rewrite (vi_rank _ _ _ _ _ _ _ HB'). simpl. rewrite (vi_rank _ _ _ _ _ _ _ HF).
    apply (sh_rank _ ins_shape).
  - apply NoDup_app. split; [apply HB' |]. split; [apply HB' | apply HF].
  - intros w [Hw | Hw]%elem_of_app; rewrite Hlen2.
    + destruct (vi_reach _ _ _ _ _ _ _ HB' w Hw) as [Hn _]. unfold node in Hn. simpl in Hn. lia.
    + destruct (vi_reach _ _ _ _ _ _ _ HF w Hw) as [Hn _]. unfold node in Hn.
      rewrite ins_nodes in Hn. lia.
  - exists ns2, B, ns3. split; [done |]. split; [done |].
    split; [rewrite (re_len _ _ _ _ R); lia |]. split.
    + apply shape_nodes; [apply ins_shape | | apply R | |].
      * rewrite (re_len _ _ _ _ R), Hlen2. by rewrite ins_nodes.
      * intros n. rewrite (re_vis _ _ _ _ R), (vi_vis _ _ _ _ _ _ _ HB'). tauto.
      * intros n. rewrite (re_len _ _ _ _ R), Hlen2. intros Hn.
        assert (HbB : ∀ m, m ∈ B ∨ m ∈ F → (rk g m < length (nodes_ g))%nat).
        { intros m Hm. apply (sh_bound _ (proj1 W)). unfold node. destruct Hm as [Hm | Hm].
          - rewrite <- Hlen. by apply (vi_reach _ _ _ _ _ _ _ HB' m Hm).
          - rewrite <- ins_nodes. by apply (vi_reach _ _ _ _ _ _ _ HF m Hm). }
        destruct (decide (n ∈ B ∨ n ∈ F)) as [Hd | Hd].
        { destruct (re_same _ _ _ _ R n Hd) as (m & Hm & ->). rewrite Hr2. by apply HbB. }
        rewrite (re_other _ _ _ _ R), Hr2 by tauto. by apply (sh_bound _ (proj1 W)).
    + intros u v Huv. by apply (reorder_edges ns2 B HB').
Qed.
End Against.

(** The undoing of the insertion. *)
Lemma undo_run ns1 F :
  ¬ edge g x y → rank <$> ns1 = rank <$> nodes_ g2 → (∀ n, vis ns1 n ↔ n ∈ F) →
  (∀ n, n ∈ F → node g2 n) →
  ∃ g3 g4 ns2, erase_out x y (with_nodes ns1 g2) = Ok g3 ∧ erase_in y x g3 = Ok g4 ∧
    ClearVisitedBits (nodes_ g4) F = Ok ns2 ∧ wf (with_nodes ns2 g4) ∧
    free_nodes_ g4 = free_nodes_ g ∧ node_data_ g4 = node_data_ g ∧
    length ns2 = length (nodes_ g) ∧
    (∀ n, rank_of ns2 n = rk g n) ∧ (∀ u v, edge (with_nodes ns2 g4) u v ↔ edge g u v).
Proof using All.
  intros Hne Hr Hv HF. destruct W as [S HW]. destruct Hrest as (R1 & R2 & R3 & R4).
  destruct (erase_out_spec (with_nodes ns1 g2) x y) as (g3 & E3 & K3 & Q3 & D3 & C3).
  { done. } { apply Hedge. by right. }
  destruct (erase_in_spec g3 y x) as (g4 & E4 & K4 & Q4 & D4 & C4).
  { done. } { apply C3, Hback. by right. }
  destruct (same_rest_trans _ _ _ Q3 Q4) as (P1 & P2 & P3 & P4). simpl in *.
  assert (Hlen : length ns1 = length (nodes_ g)) by (rewrite (fmap_length _ _ _ Hr); by rewrite R1).
  destruct (ClearVisitedBits_spec (nodes_ g4) F) as (ns2 & E5 & Hr2 & Hv2).
  { rewrite P1, Hlen. intros w Hw%HF. unfold node in Hw. by rewrite R1 in Hw. }
  rewrite P1 in Hr2, Hv2.
  assert (Hlen2 : length ns2 = length (nodes_ g)) by by rewrite (fmap_length _ _ _ Hr2).
  assert (He : ∀ u v, edge g4 u v ↔ edge g u v).
  { intros u v. rewrite D4, D3. change (edge (with_nodes ns1 g2) u v) with (edge g2 u v).
    rewrite Hedge. split; [tauto |]. intros H. split; [by left |]. intros [-> ->]. done. }
  assert (Hb : ∀ u v, back g4 u v ↔ back g u v).
  { intros u v. rewrite C4, C3. change (back (with_nodes ns1 g2) u v) with (back g2 u v).
    rewrite Hback, <- (sh_sym _ S v u). split; [tauto |]. intros H. split; [by left |].
    intros [-> ->]. done. }
  assert (Hrk : ∀ n, rank_of ns2 n = rk g n).
  { intros n. apply rank_of_fmap. by rewrite Hr2, Hr, R1. }
  exists g3, g4, ns2. split_and!; try done; try congruence.
  assert (Hg : ∃ k, k = MkRep (nodes_ g) (node_io_ g4) (free_nodes_ g4) (node_data_ g4)) by eauto.
  destruct Hg as [k Ek].
  assert (Wk : wf k).
  { subst k. apply (wf_same g); try done. unfold same_rest. simpl. split_and!; congruence. }
  replace (with_nodes ns2 g4) with (with_nodes ns2 k) by by subst k.
  split.
  - apply shape_nodes; [apply Wk | by subst k | by rewrite Hr2, Hr, R1; apply (sh_rank _ S) | |].
    + intros n. rewrite Hv2, Hv. tauto.
    + intros n. rewrite Hlen2, Hrk. apply (sh_bound _ S).
  - intros u v Huv. change (rank_of ns2 u < rank_of ns2 v)%nat. rewrite !Hrk.
    subst k. by apply HW, He.
Qed.
End Insert.

(** What [InsertEdge] promises. *)
Record inserted (g : Rep) (x y : nat) (b : bool) (g' : Rep) : Prop := Inserted {
  id_wf : wf g';
  id_free : free_nodes_ g' = free_nodes_ g;
  id_data : node_data_ g' = node_data_ g;
  id_len : length (nodes_ g') = length (nodes_ g);
  id_cycle : b = true ↔ ¬ rtc (edge g) y x;
  id_edge u v : edge g' u v ↔ edge g u v ∨ (b = true ∧ u = x ∧ v = y);
  id_rank : b = false → ∀ n, rk g' n = rk g n
}.

Lemma node_at g n : node g n → ∃ nd, at_res (nodes_ g) n = Ok nd ∧ rank nd = rk g n.
Proof.
  intros Hn. destruct (at_res_lt (nodes_ g) n Hn) as [nd E]. exists nd.
  unfold at_res, rk, rank_of. by rewrite E.
Qed.

Lemma InsertEdge_spec g x y :
  wf g → live g x → live g y → ∃ b g', InsertEdge x y g = Ok (b, g') ∧ inserted g x y b g'.
Proof.
  intros W Hx Hy. unfold InsertEdge. destruct (Nat.eqb_spec x y) as [<- | Hxy].
  { exists false, g. split; [done |]. split; naive_solver. }
  pose proof (proj1 W) as S.
  destruct (insert_out_spec g x y) as (g1 & -> & K1 & Q1 & D1 & C1);
    [apply S | rewrite (sh_len _ S); apply Hx |].
  simpl. case_bool_decide as He; simpl.
  2: { exists true, g1. split; [done |].
       assert (He1 : ∀ u v, edge g1 u v ↔ edge g u v) by (intros u v; rewrite D1; naive_solver).
       split; [by apply (wf_same g) | apply Q1 | apply Q1 | by rewrite (proj1 Q1) | | |  done].
       - split; [intros _ Hp | done]. by apply (wf_acyclic g x W), (tc_rtc_r _ y), Hp; apply tc_once.
       - intros u v. rewrite He1. naive_solver. }
  destruct (insert_in_spec g1 y x) as (f & g2 & -> & K2 & Q2 & D2 & C2).
  { done. }
  { destruct Q1 as (_ & _ & _ & ->). rewrite (sh_len _ S). apply Hy. }
  pose proof (same_rest_trans _ _ _ Q1 Q2) as Q.
  assert (Hedge : ∀ u v, edge g2 u v ↔ edge g u v ∨ (u = x ∧ v = y)) by (intros; by rewrite D2).
  assert (Hback : ∀ u v, back g2 u v ↔ back g u v ∨ (u = y ∧ v = x))
    by (intros; by rewrite C2, C1).
  pose proof (ins_shape g g2 x y W Hx Hy Q K2 Hedge Hback) as S2.
  pose proof (ins_nodes g g2 Q) as Hn2. simpl.
  destruct (node_at g x) as (nx & Ex & Rx); [apply Hx |].
  destruct (node_at g y) as (ny & Ey & Ry); [apply Hy |].
  rewrite Hn2, Ex, Ey. simpl. rewrite Rx, Ry.
  destruct (Nat.leb_spec (rk g x) (rk g y)) as [Hle | Hlt].
  { exists true, g2. split; [done |].
    assert (rk g x ≠ rk g y) by (intros E%node_rank_inj; [done | apply S | apply Hx | apply Hy]).
    split; [| apply Q | apply Q | by rewrite Hn2 | | | done].
    - split; [done |]. intros u v. unfold rk. rewrite Hn2, Hedge.
      intros [Huv | [-> ->]]; [by apply W | unfold rk in *; lia].
    - split; [intros _ Hp | done]. apply wf_rtc in Hp as [-> | ?]; [done | lia | done].
    - intros u v. rewrite Hedge. naive_solver. }
  destruct (ForwardDFS_spec g2 y (rk g x)) as [(ns1 & F & -> & HF & Hst) | Hcyc].
  - by apply shape_searchable.
  - unfold node. rewrite Hn2. apply Hy.
  - by apply no_vis.
  - simpl.
    assert (Hst' : ∀ u v, u ∈ F → edge g2 u v → rk g v ≠ rk g x).
    { intros u v Hu Huv. rewrite <- (ins_rk g g2 Q v). by apply (Hst u). }
    destruct (reorder_run g g2 x y W Hx Hy Q K2 Hedge Hback ns1 F Hlt HF Hst')
      as (ns2 & B & ns3 & -> & HR & Hlen & W3). simpl. rewrite HR. simpl.
    exists true, (with_nodes ns3 g2). split; [done |].
    split; [done | apply Q | apply Q | done | | | done].
    + split; [intros _ | done]. by apply (no_cycle g g2 x y W Q Hedge ns1 F).
    + intros u v. change (edge (with_nodes ns3 g2) u v) with (edge g2 u v).
      rewrite Hedge. naive_solver.
  - destruct Hcyc as (ns1 & F & u & v & -> & Hr & Hv & HF & Hu & Hp & Huv & Hk). simpl.
    destruct (undo_run g g2 x y W Hx Hy Q K2 Hedge Hback ns1 F)
      as (g3 & g4 & ns2 & E3 & E4 & E5 & W4 & ?); try done.
    rewrite E3. simpl. rewrite E4. simpl. rewrite E5. simpl.
    exists false, (with_nodes ns2 g4). split; [done |].
    split; [done | tauto | tauto | tauto | | | intros _; unfold rk; simpl; tauto].
    + split; [done |]. intros []. apply (path_from_y g g2 x y Hedge).
      rewrite (ins_rk g g2 Q) in Hk. apply node_rank_inj in Hk as <-; [| done | | apply Hx].
      * by eapply rtc_r.
      * rewrite <- (ins_node g g2 Q). by apply (sh_range _ S2 u).
    + intros a b. naive_solver.
Qed.

End GraphInsert.

(** ** The operations on nodes and edges other than insertion *)
Module GraphOps.
Import GraphCycles GraphProofs GraphInsert.

Lemma edge_live g u v : wf g → edge g u v → live g u ∧ live g v.
Proof.
  intros [S _] He. split.
  - split; [unfold node; rewrite <- (sh_len _ S); by eapply edge_src |].
    intros Hf. by destruct (sh_free _ S u Hf) as [_ [? _]%(λ H, H v)].
  - split; [by apply (sh_range _ S u) |].
    intros Hf. by destruct (sh_free _ S v Hf) as [_ [_ ?]%(λ H, H u)].
Qed.

Lemma edge_irrefl g u : wf g → ¬ edge g u u.
Proof. intros W He. by apply (wf_acyclic g u W), tc_once. Qed.

Lemma outs_nodup g n : sets_ok g → NoDup (outs g n).
Proof.
  intros H. unfold outs. destruct (node_io_ g !! n) as [io |] eqn:E; [| constructor].
  by apply OrderedSet.ok_nodup, (H n).
Qed.
Lemma ins_nodup g n : sets_ok g → NoDup (ins g n).
Proof.
  intros H. unfold ins. destruct (node_io_ g !! n) as [io |] eqn:E; [| constructor].
  by apply OrderedSet.ok_nodup, (H n).
Qed.

(** ** Removing edges and nodes *)

Lemma RemoveEdge_spec g x y :
  wf g → edge g x y →
  ∃ g', RemoveEdge x y g = Ok g' ∧ wf g' ∧ same_rest g g' ∧
    (∀ u v, edge g' u v ↔ edge g u v ∧ ¬ (u = x ∧ v = y)).
Proof.
  intros W He. pose proof (proj1 W) as S. unfold RemoveEdge.
  destruct (erase_out_spec g x y) as (g1 & -> & K1 & Q1 & D1 & C1); [apply S | done |].
  destruct (erase_in_spec g1 y x) as (g2 & E2 & K2 & Q2 & D2 & C2);
    [done | by apply C1, (sh_sym _ S) |].
  simpl. rewrite E2. exists g2. pose proof (same_rest_trans _ _ _ Q1 Q2) as Q.
  assert (Hed : ∀ u v, edge g2 u v ↔ edge g u v ∧ ¬ (u = x ∧ v = y)) by (intros; by rewrite D2).
  split; [done |]. split; [| done]. apply (wf_sub g); try done.
  - intros u v. rewrite Hed. tauto.
  - intros u v. rewrite Hed, C2, C1, (sh_sym _ S u v). tauto.
Qed.

Lemma erase_in_all_spec g n ys :
  sets_ok g → NoDup ys → (∀ y, y ∈ ys → back g y n) →
  ∃ g', erase_in_all n ys g = Ok g' ∧ sets_ok g' ∧ same_rest g g' ∧
    (∀ u v, edge g' u v ↔ edge g u v) ∧
    (∀ u v, back g' u v ↔ back g u v ∧ ¬ (u ∈ ys ∧ v = n)).
Proof.
  revert g. induction ys as [| y ys IH]; intros g K Hd Hy; simpl.
  { exists g. split_and!; try done. intros u v. set_solver. }
  apply NoDup_cons in Hd as [Hny Hd].
  destruct (erase_in_spec g y n) as (g1 & -> & K1 & Q1 & D1 & C1); [done | set_solver |].
  destruct (IH g1 K1 Hd) as (g' & E & K' & Q' & D' & C').
  { intros z Hz. apply C1. set_solver. }
  exists g'. split; [done |]. split; [done |]. split; [by apply (same_rest_trans _ g1) |].
  split; intros u v; [by rewrite D' |]. rewrite C', C1, elem_of_cons. tauto.
Qed.

Lemma erase_out_all_spec g n ys :
  sets_ok g → NoDup ys → (∀ y, y ∈ ys → edge g y n) →
  ∃ g', erase_out_all n ys g = Ok g' ∧ sets_ok g' ∧ same_rest g g' ∧
    (∀ u v, edge g' u v ↔ edge g u v ∧ ¬ (u ∈ ys ∧ v = n)) ∧
    (∀ u v, back g' u v ↔ back g u v).
Proof.
  revert g. induction ys as [| y ys IH]; intros g K Hd Hy; simpl.
  { exists g. split_and!; try done. intros u v. set_solver. }
  apply NoDup_cons in Hd as [Hny Hd].
  destruct (erase_out_spec g y n) as (g1 & -> & K1 & Q1 & D1 & C1); [done | set_solver |].
  destruct (IH g1 K1 Hd) as (g' & E & K' & Q' & D' & C').
  { intros z Hz. apply D1. set_solver. }
  exists g'. split; [done |]. split; [done |]. split; [by apply (same_rest_trans _ g1) |].
  split; intros u v; [| by rewrite C']. rewrite D', D1, elem_of_cons. tauto.
Qed.

Lemma clear_io_spec g n :
  sets_ok g → (n < length (node_io_ g))%nat →
  ∃ g', clear_io n g = Ok g' ∧ sets_ok g' ∧ same_rest g g' ∧
    (∀ u v, edge g' u v ↔ edge g u v ∧ u ≠ n) ∧
    (∀ u v, back g' u v ↔ back g u v ∧ u ≠ n).
Proof.
  intros K Hn. destruct (at_res_lt _ _ Hn) as [io E].
  unfold clear_io, at_res. rewrite E. simpl. eexists. split; [done |].
  split; [by eapply sets_ok_upd; [| done | apply OrderedSet.empty_ok..] |].
  split; [apply same_rest_upd |]. split; intros u v.
  - rewrite (edge_upd _ _ io) by done. simpl. set_solver.
  - rewrite (back_upd _ _ io) by done. simpl. set_solver.
Qed.

(** A node without edges joins the free list. *)
Lemma wf_free g n :
  wf g → live g n → (∀ v, ¬ edge g n v ∧ ¬ edge g v n) →
  wf (with_free (free_nodes_ g ++ [n]) g).
Proof.
  intros [[S1 S2 S3 S4 S5 S6 S7 S8 S9 S10] HW] [Hn Hf] He. split; [| done]. split; simpl; try done.
  - apply NoDup_app. split; [done |]. split; [| apply NoDup_singleton].
    intros m Hm ->%list_elem_of_singleton. done.
  - intros m [Hm | ->%list_elem_of_singleton]%elem_of_app; [by apply S9 | done].
Qed.

(** What is left of a graph without the edges at [n]. *)
Record isolated (g : Rep) (n : nat) (g' : Rep) : Prop := Isolated {
  is_wf : wf g';
  is_nodes : nodes_ g' = nodes_ g;
  is_free : free_nodes_ g' = free_nodes_ g ++ [n];
  is_data : node_data_ g' = node_data_ g;
  is_edge u v : edge g' u v ↔ edge g u v ∧ u ≠ n ∧ v ≠ n
}.

Lemma isolate g g' n :
  wf g → live g n → same_rest g g' → sets_ok g' →
  (∀ u v, edge g' u v ↔ edge g u v ∧ u ≠ n ∧ v ≠ n) →
  (∀ u v, back g' u v ↔ back g u v ∧ u ≠ n ∧ v ≠ n) →
  isolated g n (with_free (free_nodes_ g' ++ [n]) g').
Proof.
  intros W Hn Q K He Hb. pose proof Q as (R1 & R2 & R3 & R4).
  split; simpl; [| done | by rewrite R2 | done | done].
  apply wf_free.
  - apply (wf_sub g); try done; intros u v; rewrite He; [tauto |].
    rewrite Hb, (sh_sym _ (proj1 W)). tauto.
  - unfold live, node in *. by rewrite R1, R2.
  - intros v. rewrite !He. tauto.
Qed.

Lemma RemoveNode_spec g n :
  wf g → live g n → ∃ g', RemoveNode n g = Ok g' ∧ isolated g n g'.
Proof.
  intros W Hn. pose proof (proj1 W) as S. unfold RemoveNode.
  rewrite out_of_run by (by apply shape_searchable || apply Hn). simpl.
  destruct (erase_in_all_spec g n (outs g n)) as (g1 & -> & K1 & Q1 & D1 & C1).
  { apply S. } { apply outs_nodup, S. }
  { intros y Hy%outs_edge. by apply (sh_sym _ S). }
  simpl. assert (Hin : in_of g1 n = Ok (ins g1 n)).
  { unfold in_of, ins. destruct (at_res_lt (node_io_ g1) n) as [io E].
    - destruct Q1 as (_ & _ & _ & ->). rewrite (sh_len _ S). apply Hn.
    - unfold at_res. by rewrite E. }
  rewrite Hin. simpl.
  destruct (erase_out_all_spec g1 n (ins g1 n)) as (g2 & -> & K2 & Q2 & D2 & C2).
  { done. } { by apply ins_nodup. }
  { intros y Hy%ins_back. apply D1. apply C1 in Hy as [Hy _]. by apply (sh_sym _ S). }
  simpl. pose proof (same_rest_trans _ _ _ Q1 Q2) as Q12.
  destruct (clear_io_spec g2 n) as (g3 & -> & K3 & Q3 & D3 & C3).
  { done. } { destruct Q12 as (_ & _ & _ & ->). rewrite (sh_len _ S). apply Hn. }
  simpl. eexists. split; [done |]. apply isolate; try done.
  - by apply (same_rest_trans _ g2).
  - intros u v. rewrite D3, D2, D1, ins_back, C1, <- (sh_sym _ S), outs_edge.
    pose proof (edge_irrefl g n W). destruct (decide (v = n)) as [-> |]; naive_solver.
  - intros u v. rewrite C3, C2, C1, outs_edge, <- (sh_sym _ S).
    pose proof (edge_irrefl g n W). destruct (decide (v = n)) as [-> |]; naive_solver.
Qed.

(** ** New nodes *)

(** A fresh id, without edges. *)
Record created (g : Rep) (n : nat) (g' : Rep) : Prop := Created {
  cr_wf : wf g';
  cr_fresh : ¬ live g n;
  cr_live m : live g' m ↔ live g m ∨ m = n;
  cr_edge u v : edge g' u v ↔ edge g u v;
  cr_data : node_data_ g' !! n = Some 0
}.

Lemma NewNode_spec g : wf g → ∃ n g', NewNode g = Ok (n, g') ∧ created g n g'.
Proof.
  intros [[S1 S2 S3 S4 S5 S6 S7 S8 S9 S10] HW]. unfold NewNode.
  destruct (last (free_nodes_ g)) as [r |] eqn:El.
  - apply last_Some in El as [l El]. assert (Hin : ∀ n, n ∈ free_nodes_ g ↔ n ∈ l ∨ n = r).
    { intros n. by rewrite El, elem_of_app, list_elem_of_singleton. }
    destruct (S9 r) as [Hr Hre]; [apply Hin; by right |].
    destruct (at_res_lt (node_data_ g) r) as [d Ed]; [by rewrite S2 |].
    unfold at_res. rewrite Ed. simpl. eexists _, _. split; [done |].
    replace (take (length (free_nodes_ g) - 1) (free_nodes_ g)) with l.
    2: { rewrite El, length_app. simpl. rewrite Nat.add_sub. by rewrite take_app_length. }
    rewrite El in S8. apply NoDup_app in S8 as (S8 & Hd & _).
    split; try done.
    + split; [| done]. split; simpl; try done; [by rewrite length_insert |].
      intros n Hn. apply S9, Hin. by left.
    + intros [_ Hf]. apply Hf, Hin. by right.
    + intros m. unfold live, node. simpl. rewrite Hin. destruct (decide (m = r)) as [-> |]; [| tauto].
      split; [by right |]. intros _. split; [done |]. intros Hm.
      by apply (Hd r Hm), list_elem_of_singleton.
    + simpl. apply list_lookup_insert_eq. by rewrite S2.
  - apply last_None in El. eexists _, _. split; [done |].
    set (n := length (nodes_ g)) in *. set (g' := MkRep _ _ _ _).
    assert (He : ∀ u v, edge g' u v ↔ edge g u v).
    { intros u v. unfold edge, g'. simpl. setoid_rewrite lookup_app_Some. split.
      - intros (io & [? | [_ [_ <-]%list_lookup_singleton_Some]] & Hv); [eauto |].
        by apply elem_of_nil in Hv.
      - intros (io & ? & ?). exists io. tauto. }
    assert (Hb : ∀ u v, back g' u v ↔ back g u v).
    { intros u v. unfold back, g'. simpl. setoid_rewrite lookup_app_Some. split.
      - intros (io & [? | [_ [_ <-]%list_lookup_singleton_Some]] & Hv); [eauto |].
        by apply elem_of_nil in Hv.
      - intros (io & ? & ?). exists io. tauto. }
    assert (Hlen : length (nodes_ g') = S n) by (unfold g'; simpl; rewrite length_app; simpl; lia).
    assert (Hrk : ∀ m, (m < n)%nat → rk g' m = rk g m).
    { intros m Hm. unfold rk, rank_of, g'. simpl. by rewrite lookup_app_l. }
    assert (Hrn : rk g' n = n).
    { unfold rk, rank_of, g'. simpl. by rewrite lookup_app_r, Nat.sub_diag. }
    split; try done.
    + split; [split |]; unfold node; rewrite ?Hlen; try done.
      * unfold g'. simpl. rewrite length_app, S1. simpl. lia.
      * unfold g'. simpl. rewrite length_app, S2. simpl. lia.
      * intros m io. unfold g'. simpl. intros [Hm | [_ [_ <-]%list_lookup_singleton_Some]]%lookup_app_Some.
        { by apply (S3 m). } { split; apply OrderedSet.empty_ok. }
      * intros u v. by rewrite He, Hb.
      * intros u v Huv%He. apply S5 in Huv. unfold node in Huv. lia.
      * unfold g'. simpl. rewrite fmap_app. apply NoDup_app. split; [done |].
        split; [| apply NoDup_singleton].
        intros r (nd & -> & [i Hi]%list_elem_of_lookup)%list_elem_of_fmap Hr.
        apply list_elem_of_singleton in Hr. simpl in Hr.
        assert (Hlt : (i < n)%nat) by by eapply lookup_lt_Some.
        pose proof (S10 i Hlt) as Hb'. unfold rk, rank_of in Hb'. rewrite Hi in Hb'. fold n in Hb'. lia.
      * intros m nd. unfold g'. simpl.
        intros [Hm | [_ [_ <-]%list_lookup_singleton_Some]]%lookup_app_Some; [by apply (S7 m) | done].
      * unfold g'. simpl. rewrite El. intros m Hm%elem_of_nil. done.
      * intros m Hm. destruct (decide (m = n)) as [-> |]; [lia |].
        rewrite Hrk by lia. pose proof (S10 m). unfold node in *. fold n in H. lia.
      * intros u v Huv%He. pose proof (S5 _ _ Huv) as Hv. pose proof (edge_src _ _ _ Huv) as Hu.
        unfold node in Hv. rewrite S1 in Hu. rewrite !Hrk by done. by apply HW.
    + intros [Hn _]. unfold node in Hn. lia.
    + intros m. unfold live, node. rewrite Hlen. unfold g'. simpl. rewrite El. fold n.
      pose proof (not_elem_of_nil m). split; [| intuition lia].
      intros [Hm _]. destruct (decide (m = n)); [by right | left; split; [lia | done]].
    + unfold g'. simpl. rewrite lookup_app_r, S2 by lia. by rewrite Nat.sub_diag.
Qed.

End GraphOps.
