(* ===== verification/GraphContract.v ===== *)
(** * Reachability queries and edge contraction *)
From S2P Require Import Prelude GraphCycles GraphProofs GraphInsert.

Module GraphContract.
Import GraphCycles GraphProofs GraphInsert GraphOps.

(** ** The bounded query *)

Lemma nodes_same (ns ns' : list Node) :
  rank <$> ns' = rank <$> ns → (∀ n, ¬ vis ns' n) → (∀ n, ¬ vis ns n) → ns' = ns.
Proof.
  intros E H' H. apply list_eq. intros i.
  assert (Ei : (rank <$> ns') !! i = (rank <$> ns) !! i) by by rewrite E.
  rewrite !list_lookup_fmap in Ei.
  destruct (ns' !! i) as [[r' b'] |] eqn:E1, (ns !! i) as [[r b] |] eqn:E2; simplify_eq/=; [| done].
  destruct b'; [destruct (H' i); eexists; eauto |].
  by destruct b; [destruct (H i); eexists; eauto |].
Qed.

Lemma IsReachableNonConst_spec g x y :
  wf g → node g x → node g y →
  ∃ b, IsReachableNonConst x y g = Ok (b, g) ∧ (b = true ↔ rtc (edge g) x y).
Proof.
  intros W Hx Hy. pose proof (proj1 W) as S. unfold IsReachableNonConst.
  destruct (Nat.eqb_spec x y) as [<- | Hxy]; [by exists true |].
  destruct (node_at g x Hx) as (nx & Ex & Rx), (node_at g y Hy) as (ny & Ey & Ry).
  rewrite Ex, Ey. simpl. rewrite Rx, Ry.
  destruct (Nat.leb_spec (rk g y) (rk g x)) as [Hle | Hlt].
  { exists false. split; [done |]. split; [done |]. intros [-> | ?]%wf_rtc; [done | lia | done]. }
  assert (Hclear : ∀ ns F, rank <$> ns = rank <$> nodes_ g → (∀ n, vis ns n → n ∈ F) →
    (∀ n, n ∈ F → node g n) →
    ClearVisitedBits ns F = Ok (nodes_ g)).
  { intros ns F Hr Hv HF. destruct (ClearVisitedBits_spec ns F) as (ns' & E & Hr' & Hv').
    - intros w Hw. rewrite (fmap_length _ _ _ Hr). by apply HF.
    - rewrite E. f_equal. apply nodes_same; [congruence | | by apply no_vis].
      intros n [H1 H2]%Hv'. by apply H2, Hv. }
  assert (Hg : with_nodes (nodes_ g) g = g) by by destruct g.
  destruct (ForwardDFS_spec g x (rk g y)) as [(ns & F & -> & HF & Hst) | Hp];
    [by apply shape_searchable | done | by apply no_vis | |].
  - simpl. rewrite (Hclear ns F); [| apply HF | | ]; simpl.
    + exists false. rewrite Hg. split; [done |]. split; [done |]. intros Hp.
      exfalso.
      assert (H : ∀ n, rtc (edge g) n y → n ∈ F → (rk g n < rk g y)%nat → False).
      { apply (rtc_ind_l (λ n, n ∈ F → (rk g n < rk g y)%nat → False)); [intros; lia |].
        intros n m Hnm Hm IH Hn Hk. pose proof (Hst n m Hn Hnm).
        assert ((rk g m ≤ rk g y)%nat) by (apply wf_rtc in Hm as [-> | ?]; [lia | lia | done]).
        apply IH; [| lia].
        destruct (vi_closed _ _ _ _ _ _ _ HF n m Hn Hnm) as [? | []]; [lia | done]. }
      apply (H x Hp); [apply HF | done].
    + intros n Hn. apply (vi_vis _ _ _ _ _ _ _ HF) in Hn as [| []]. done.
    + intros n Hn. by apply (vi_reach _ _ _ _ _ _ _ HF).
  - destruct Hp as (ns & F & u & v & -> & Hr & Hv & HF & Hu & Hp & Huv & Hk). simpl.
    rewrite (Hclear ns F); [| done | naive_solver | done]. simpl. exists true. rewrite Hg.
    split; [done |]. split; [intros _ | done].
    apply node_rank_inj in Hk as <-; [by eapply rtc_r | done | by apply (sh_range _ S u) | done].
Qed.

(** ** The path search *)

(** The markers on the stack separate the untried successors of the nodes of
    the current path (its last node first). *)
Inductive stack_ok (g : Rep) (x : nat) : list (option nat) → list nat → Prop :=
  | so_done : stack_ok g x [] []
  | so_start : stack_ok g x [Some x] []
  | so_leave n st p :
      stack_ok g x st p → match p with [] => n = x | m :: _ => edge g m n end →
      stack_ok g x (None :: st) (n :: p)
  | so_try w st n p :
      stack_ok g x st (n :: p) → edge g n w → stack_ok g x (Some w :: st) (n :: p).

(** The path written to the caller's array, and cut off at its end. *)
Definition written (path arr arr0 : list nat) : Prop :=
  length arr = length arr0 ∧
  ∀ i n, (i < length arr0)%nat → path !! i = Some n → arr !! i = Some n.

(** The nodes expanded so far. *)
Record exploring (g : Rep) (x y : nat) (seen : gset nat) (st : list (option nat))
    (X : gset nat) : Prop := Exploring {
  ex_new w : w ∈ seen ∨ w = x → w ∈ X ∨ Some w ∈ st;
  ex_out n w : n ∈ X → edge g n w → w ∈ seen;
  ex_goal : y ∉ X;
  ex_seen w : w ∈ seen → node g w
}.

Lemma push_unseen_spec ws seen st :
  ∃ new, push_unseen ws seen st = (list_to_set new ∪ seen, (Some <$> new) ++ st) ∧
    NoDup new ∧ (∀ w, w ∈ new → w ∈ ws ∧ w ∉ seen) ∧ (∀ w, w ∈ ws → w ∈ new ∨ w ∈ seen).
Proof.
  revert seen st. induction ws as [| w ws IH]; intros seen st; simpl.
  { exists []. split; [f_equal; set_solver | split; [constructor | set_solver]]. }
  case_bool_decide as Hw.
  - destruct (IH seen st) as (new & -> & H1 & H2 & H3). exists new.
    split; [done |]. split; [done |]. split; [set_solver |].
    intros v [-> | Hv]%elem_of_cons; [by right | by apply H3].
  - destruct (IH ({[w]} ∪ seen) (Some w :: st)) as (new & -> & H1 & H2 & H3).
    exists (new ++ [w]). split.
    { f_equal; [rewrite list_to_set_app_L; set_solver |].
      by rewrite fmap_app, <- app_assoc. }
    split.
    { apply NoDup_app. split; [done |]. split; [| apply NoDup_singleton].
      intros v Hv ->%list_elem_of_singleton. destruct (H2 w Hv). set_solver. }
    split; [| set_solver]. intros v [Hv | ->%list_elem_of_singleton]%elem_of_app; [| set_solver].
    destruct (H2 v Hv). set_solver.
Qed.

Lemma stack_push g x n p new st :
  stack_ok g x st (n :: p) → (∀ w, w ∈ new → edge g n w) →
  stack_ok g x ((Some <$> new) ++ st) (n :: p).
Proof.
  intros Hs. induction new as [| w new IH]; intros Hn; simpl; [done |].
  constructor; [apply IH |]; set_solver.
Qed.

(** A path from [x] to [y], as the list of its nodes. *)
Definition is_path (g : Rep) (x y : nat) (P : list nat) : Prop :=
  head P = Some x ∧ last P = Some y ∧
  ∀ i u v, P !! i = Some u → P !! S i = Some v → edge g u v.

Lemma is_path_snoc g x m n P : is_path g x m P → edge g m n → is_path g x n (P ++ [n]).
Proof.
  intros (H1 & H2 & H3) He. destruct P as [| k P]; [done |]. split; [done |].
  split; [by rewrite last_snoc |]. intros i u v Hu Hv. rewrite lookup_app_Some in Hv.
  destruct Hv as [Hv | [Hi [Hi' <-]%list_lookup_singleton_Some]].
  - apply (H3 i); [| done]. rewrite lookup_app_l in Hu; [done |]. apply lookup_lt_Some in Hv. lia.
  - assert (Ei : i = pred (length (k :: P))) by lia.
    rewrite lookup_app_l, Ei, <- last_lookup, H2 in Hu by (simpl in *; lia). by simplify_eq.
Qed.

Lemma stack_path g x st n p : stack_ok g x st (n :: p) → is_path g x n (reverse (n :: p)).
Proof.
  remember (n :: p) as q eqn:Eq. intros H. revert n p Eq.
  induction H as [| | m st q Hs IH Hm | w st m q Hs IH Hw]; intros n p Eq; simplify_eq.
  - destruct p as [| k p].
    + subst. split; [done |]. split; [done |]. intros [|] ??; simpl; [by intros ? ?| done].
    + rewrite reverse_cons. eapply is_path_snoc; [by eapply IH | done].
  - by eapply IH.
Qed.

Lemma is_path_rtc g x y P : is_path g x y P → rtc (edge g) x y.
Proof.
  intros (H1 & H2 & H3). revert x H1. induction P as [| n P IH]; intros x H1; [done |].
  simplify_eq/=. destruct P as [| m P]; simpl in *; [by simplify_eq |].
  apply (rtc_l _ x m); [by apply (H3 0%nat) |]. apply IH; try done.
  intros i u v. apply (H3 (S i)).
Qed.

Fixpoint weight (st : list (option nat)) : nat :=
  match st with [] => 0 | None :: st => S (weight st) | Some _ :: st => S (S (weight st)) end.

Lemma weight_push new st : weight ((Some <$> new) ++ st) = (2 * length new + weight st)%nat.
Proof.
  induction new as [| w new IH]; [done |]. rewrite fmap_cons. cbn [app weight length].
  rewrite IH. lia.
Qed.

Lemma written_snoc p n arr arr0 :
  written (reverse p) arr arr0 → written (reverse (n :: p)) (<[length p := n]> arr) arr0.
Proof.
  intros [Hl H]. split; [by rewrite length_insert |]. intros i m Hi.
  rewrite reverse_cons, lookup_app_Some, length_reverse.
  intros [Hm | [Hge [Hi' ->]%list_lookup_singleton_Some]].
  - pose proof (lookup_lt_Some _ _ _ Hm) as Hlt. rewrite length_reverse in Hlt.
    rewrite list_lookup_insert_ne by lia. by apply H.
  - replace (length p) with i by lia. apply list_lookup_insert_eq. lia.
Qed.

Lemma written_pop p n arr arr0 : written (reverse (n :: p)) arr arr0 → written (reverse p) arr arr0.
Proof.
  intros [Hl H]. split; [done |]. intros i m Hi Hm. apply H; [done |].
  rewrite reverse_cons. by apply lookup_app_l_Some.
Qed.

Lemma find_path_loop_spec fuel g x y seen st p X arr arr0 :
  searchable g → node g x → stack_ok g x st p → exploring g x y seen st X →
  written (reverse p) arr arr0 →
  (weight st + 2 * (length (nodes_ g) - size seen) ≤ fuel)%nat →
  (∃ arr', find_path_loop fuel g y seen st (length p) arr = Ok (0%nat, arr') ∧
     length arr' = length arr0 ∧ ¬ rtc (edge g) x y) ∨
  (∃ P arr', find_path_loop fuel g y seen st (length p) arr = Ok (length P, arr') ∧
     is_path g x y P ∧ written P arr' arr0).
Proof.
  intros Hg Hx. revert seen st p X arr.
  induction fuel as [| fuel IH]; intros seen st p X arr Hs He Hw Hf;
    (destruct st as [| [n |] st]; simpl in Hf; [| lia..] || destruct st as [| [n |] st]); simpl.
  1, 2: left; exists arr; split; [done |]; split; [apply Hw |]; intros Hp;
    assert (Hc : ∀ n, rtc (edge g) x n → n ∈ X) by
      (apply rtc_ind_r; [destruct (ex_new _ _ _ _ _ _ He x) as [| ?%elem_of_nil]; auto; done |];
       intros m k _ Hmk Hm; destruct (ex_new _ _ _ _ _ _ He k) as [| ?%elem_of_nil]; [| done | done];
       left; by apply (ex_out _ _ _ _ _ _ He m));
    by apply (ex_goal _ _ _ _ _ _ He), Hc.
  - assert (Hn : node g n ∧ match p with [] => n = x | m :: _ => edge g m n end ∧ stack_ok g x st p).
    { inversion Hs; subst; [split; [done |]; split; [done | constructor] |].
      split; [by apply (sr_out _ Hg n0) | done]. }
    destruct Hn as (Hn & Hm & Hst).
    assert (Hs' : stack_ok g x (None :: st) (n :: p)) by by constructor.
    destruct (Nat.eqb_spec n y) as [-> | Hny].
    { right. exists (reverse (y :: p)). eexists. split; [by rewrite length_reverse |].
      split; [by eapply stack_path | by apply written_snoc]. }
    rewrite out_of_run by done. simpl.
    destruct (push_unseen_spec (outs g n) seen (None :: st)) as (new & -> & Hnd & Hnew & Hall).
    apply (IH _ _ (n :: p) ({[n]} ∪ X)); [| | by apply written_snoc |].
    + apply stack_push; [done |]. intros w Hw'. by apply outs_edge, Hnew.
    + destruct He as [E1 E2 E3 E4]. split.
      * intros w Hw'. assert (Hc : w ∈ new ∨ w ∈ seen ∨ w = x) by set_solver.
        destruct Hc as [Hc | Hc]; [right; set_solver |]. destruct (E1 w Hc); set_solver.
      * intros u w Hu Huw. apply elem_of_union in Hu as [->%elem_of_singleton | Hu].
        { apply outs_edge, Hall in Huw. set_solver. } { specialize (E2 u w Hu Huw). set_solver. }
      * set_solver.
      * intros w [Hw' | Hw']%elem_of_union; [| by apply E4].
        apply (sr_out _ Hg n), outs_edge, Hnew. set_solver.
    + rewrite weight_push. simpl. rewrite size_union, size_list_to_set by set_solver.
      assert (length new + size seen ≤ length (nodes_ g))%nat; [| simpl in *; lia].
      rewrite <- (size_list_to_set (C := gset nat) new), <- size_union by set_solver.
      rewrite <- (length_seq (length (nodes_ g)) 0), <- (size_list_to_set (C := gset nat)) by apply NoDup_seq.
      apply subseteq_size. intros w. rewrite elem_of_union, !elem_of_list_to_set, elem_of_seq.
      intros [Hw' | Hw'].
      * assert (node g w) by (apply (sr_out _ Hg n), outs_edge, Hnew, Hw'). unfold node in *. lia.
      * apply (ex_seen _ _ _ _ _ _ He) in Hw'. unfold node in *. lia.
  - inversion Hs as [| | n st' p' Hst Hm |]; subst. simpl. rewrite Nat.sub_0_r.
    apply (IH _ _ p' X); [done | | by eapply written_pop | simpl in *; lia].
    destruct He as [E1 E2 E3 E4]. split; try done. intros w Hw'. destruct (E1 w Hw'); set_solver.
Qed.

Lemma FindPath_spec g x y arr :
  wf g → node g x →
  (∃ arr', FindPath g x y arr = Ok (0%nat, arr') ∧ length arr' = length arr ∧
     ¬ rtc (edge g) x y) ∨
  (∃ P arr', FindPath g x y arr = Ok (length P, arr') ∧ is_path g x y P ∧ written P arr' arr).
Proof.
  intros [S _] Hx. apply (find_path_loop_spec _ g x y ∅ [Some x] [] ∅ arr arr).
  - by apply shape_searchable.
  - done.
  - constructor.
  - split; set_solver.
  - split; [done |]. set_solver.
  - rewrite (sh_len _ S), size_empty. simpl. lia.
Qed.

(** ** Moving the edges of one node to another *)

Lemma insert_from_spec (R : nat → nat → Prop) a ys g :
  wf g → live g a → (∀ y, y ∈ ys → live g y) → (∀ u v, edge g u v → R u v) →
  (∀ y, y ∈ ys → R a y ∧ ¬ rtc R y a) →
  ∃ g', insert_from a ys g = Ok g' ∧ wf g' ∧ free_nodes_ g' = free_nodes_ g ∧
    node_data_ g' = node_data_ g ∧ length (nodes_ g') = length (nodes_ g) ∧
    ∀ u v, edge g' u v ↔ edge g u v ∨ (u = a ∧ v ∈ ys).
Proof.
  revert g. induction ys as [| y ys IH]; intros g W Ha Hys HR Hy; simpl.
  { exists g. split_and!; try done. intros u v. rewrite elem_of_nil. tauto. }
  destruct (Hy y) as [Hay Hno]; [by left |].
  destruct (InsertEdge_spec g a y W Ha) as (b & g1 & -> & [I1 I2 I3 I4 I5 I6 _]);
    [apply Hys; by left |].
  assert (Hb : b = true) by (apply I5; contradict Hno; revert Hno; by apply rtc_subrel).
  simpl. assert (Hl : ∀ n, live g n → live g1 n).
  { intros n. unfold live, node. by rewrite I2, I4. }
  destruct (IH g1) as (g' & E & W' & F' & D' & L' & He); try done.
  - by apply Hl.
  - intros z Hz. apply Hl, Hys. by right.
  - intros u v [H | (_ & -> & ->)]%I6; [by apply HR | done].
  - intros z Hz. apply Hy. by right.
  - exists g'. split_and!; try done; try congruence.
    intros u v. rewrite He, I6, elem_of_cons. tauto.
Qed.

Lemma insert_to_spec (R : nat → nat → Prop) a ys g :
  wf g → live g a → (∀ y, y ∈ ys → live g y) → (∀ u v, edge g u v → R u v) →
  (∀ y, y ∈ ys → R y a ∧ ¬ rtc R a y) →
  ∃ g', insert_to a ys g = Ok g' ∧ wf g' ∧ free_nodes_ g' = free_nodes_ g ∧
    node_data_ g' = node_data_ g ∧ length (nodes_ g') = length (nodes_ g) ∧
    ∀ u v, edge g' u v ↔ edge g u v ∨ (u ∈ ys ∧ v = a).
Proof.
  revert g. induction ys as [| y ys IH]; intros g W Ha Hys HR Hy; simpl.
  { exists g. split_and!; try done. intros u v. rewrite elem_of_nil. tauto. }
  destruct (Hy y) as [Hay Hno]; [by left |].
  destruct (InsertEdge_spec g y a W) as (b & g1 & -> & [I1 I2 I3 I4 I5 I6 _]);
    [apply Hys; by left | done |].
  assert (Hb : b = true) by (apply I5; contradict Hno; revert Hno; by apply rtc_subrel).
  simpl. assert (Hl : ∀ n, live g n → live g1 n).
  { intros n. unfold live, node. by rewrite I2, I4. }
  destruct (IH g1) as (g' & E & W' & F' & D' & L' & He); try done.
  - by apply Hl.
  - intros z Hz. apply Hl, Hys. by right.
  - intros u v [H | (_ & -> & ->)]%I6; [by apply HR | done].
  - intros z Hz. apply Hy. by right.
  - exists g'. split_and!; try done; try congruence.
    intros u v. rewrite He, I6, elem_of_cons. tauto.
Qed.

(** [b] renamed to [a]. *)
Definition merge (a b n : nat) : nat := if decide (n = b) then a else n.

(** The quotient of a graph that identifies [b] with [a] and frees [b]. *)
Record merged (g : Rep) (a b : nat) (g' : Rep) : Prop := Merged {
  mg_wf : wf g';
  mg_free : free_nodes_ g' = free_nodes_ g ++ [b];
  mg_data : node_data_ g' = node_data_ g;
  mg_len : length (nodes_ g') = length (nodes_ g);
  mg_edge u v : edge g' u v ↔ ∃ u0 v0, edge g u0 v0 ∧ u = merge a b u0 ∧ v = merge a b v0
}.

Section Absorb.
Context (g : Rep) (a b : nat).
Hypothesis W : wf g.
Hypothesis Ha : live g a.
Hypothesis Hb : live g b.
Hypothesis Hab : a ≠ b.

(** The part of [absorb] before the insertions. *)
Lemma detach_run :
  ∃ g1 g2 g3, clear_io b g = Ok g1 ∧ erase_in_all b (outs g b) g1 = Ok g2 ∧
    erase_out_all b (ins g b) g2 = Ok g3 ∧
    isolated g b (with_free (free_nodes_ g3 ++ [b]) g3).
Proof.
  pose proof (proj1 W) as S. pose proof (edge_irrefl g b W) as Hbb.
  destruct (clear_io_spec g b) as (g1 & -> & K1 & Q1 & D1 & C1).
  { apply S. } { rewrite (sh_len _ S). apply Hb. }
  destruct (erase_in_all_spec g1 b (outs g b)) as (g2 & E2 & K2 & Q2 & D2 & C2).
  { done. } { apply outs_nodup, S. }
  { intros y Hy%outs_edge. apply C1. split; [by apply (sh_sym _ S) | by intros ->]. }
  destruct (erase_out_all_spec g2 b (ins g b)) as (g3 & E3 & K3 & Q3 & D3 & C3).
  { done. } { apply ins_nodup, S. }
  { intros y Hy%ins_back. apply (sh_sym _ S) in Hy. apply D2, D1. split; [done | by intros ->]. }
  exists g1, g2, g3. split_and!; try done. apply isolate; try done.
  - by apply (same_rest_trans _ g2), Q3; apply (same_rest_trans _ g1).
  - intros u v. rewrite D3, D2, D1, ins_back, <- (sh_sym _ S).
    destruct (decide (v = b)) as [-> |]; naive_solver.
  - intros u v. rewrite C3, C2, C1, outs_edge, (sh_sym _ S).
    destruct (decide (v = b)) as [-> |]; naive_solver.
Qed.

Hypothesis Hno1 : ¬ rtc (edge g) a b.
Hypothesis Hno2 : ¬ rtc (edge g) b a.

(** With the edges out of [b] added to [a], then those into it. *)
Let R1 (u v : nat) : Prop := (edge g u v ∧ u ≠ b ∧ v ≠ b) ∨ (u = a ∧ edge g b v).
Let R2 (u v : nat) : Prop := R1 u v ∨ (v = a ∧ edge g u b).

Lemma from_acyclic y : edge g b y → ¬ rtc R1 y a.
Proof.
  intros Hy Hp. apply Hno2, (rtc_l _ b y); [done |]. revert y Hy Hp.
  assert (H : ∀ z, rtc R1 z a → rtc (edge g) z a).
  { apply rtc_ind_l; [done |]. intros z w [(Hzw & _ & _) | [-> _]] _ IH; [| done].
    by apply (rtc_l _ z w). }
  intros y _. apply H.
Qed.

Lemma to_acyclic y : edge g y b → ¬ rtc R2 a y.
Proof.
  intros Hy Hp. assert (H : rtc (edge g) a y ∨ rtc (edge g) b y).
  { revert y Hy Hp. assert (H : ∀ z, rtc R2 a z → rtc (edge g) a z ∨ rtc (edge g) b z).
    { apply rtc_ind_r; [by left |].
      intros z w _ [[(Hzw & _ & _) | [-> Hw]] | [-> _]] IH; [| right | by left].
      - destruct IH; [left | right]; by eapply rtc_r.
      - by apply rtc_once. }
    intros y _. apply H. }
  destruct H as [H | H].
  - apply Hno1. by eapply rtc_r.
  - apply (wf_acyclic g b W). by eapply tc_rtc_l, tc_once.
Qed.

Lemma absorb_spec : ∃ g', absorb a b g = Ok g' ∧ merged g a b g'.
Proof.
  pose proof (proj1 W) as S. pose proof (edge_irrefl g b W) as Hbb.
  destruct detach_run as (g1 & g2 & g3 & E1 & E2 & E3 & [I1 I2 I3 I4 I5]).
  unfold absorb. rewrite out_of_run, in_of_run by (by apply shape_searchable || apply Hb).
  simpl. rewrite E1. simpl. rewrite E2. simpl. rewrite E3. simpl.
  set (g4 := with_free _ g3) in *.
  assert (Hl : ∀ n, live g n → n ≠ b → live g4 n).
  { intros n [Hn Hf] Hnb. unfold live, node in *. rewrite I2, I3. split; [done |].
    rewrite elem_of_app, list_elem_of_singleton. tauto. }
  destruct (insert_from_spec R1 a (outs g b) g4) as (g5 & -> & W5 & F5 & D5 & L5 & He5); try done.
  - by apply Hl.
  - intros y Hy%outs_edge. apply Hl; [by eapply edge_live | by intros ->].
  - intros u v Huv%I5. by left.
  - intros y Hy%outs_edge. split; [by right | by apply from_acyclic].
  - simpl. assert (H45 : ∀ n, live g4 n → live g5 n).
    { intros n. unfold live, node. by rewrite F5, L5. }
    destruct (insert_to_spec R2 a (ins g b) g5) as (g6 & -> & W6 & F6 & D6 & L6 & He6); try done.
    + by apply H45, Hl.
    + intros y Hy%ins_back%(sh_sym _ S). apply H45, Hl; [by apply (edge_live g y b) | by intros ->].
    + intros u v. rewrite He5, I5, outs_edge. unfold R2, R1. tauto.
    + intros y Hy%ins_back%(sh_sym _ S). split; [by right | by apply to_acyclic].
    + exists g6. split; [done |]. split; try congruence.
      intros u v. rewrite He6, He5, I5, outs_edge, ins_back, <- (sh_sym _ S).
      unfold merge. split.
      * intros [[(Huv & Hu & Hv) | [-> Hv]] | [Hu ->]].
        { exists u, v. by rewrite !decide_False. }
        { exists b, v. rewrite decide_True, decide_False; [done | by intros -> | done]. }
        { exists u, b. rewrite decide_False, decide_True; [done | done | by intros ->]. }
      * intros (u0 & v0 & H0 & -> & ->). repeat case_decide; subst; try done; tauto.
Qed.
End Absorb.

(** ** Contracting an edge *)

(** A path from [a] to [b] other than their edge. *)
Definition detour (g : Rep) (a b : nat) : Prop :=
  rtc (λ u v, edge g u v ∧ ¬ (u = a ∧ v = b)) a b.

(** The graph without the edge, asked for a path between its ends. *)
Lemma probe_spec g a b :
  wf g → edge g a b →
  ∃ g1 r, HasEdge g a b = Ok true ∧ RemoveEdge a b g = Ok g1 ∧
    IsReachableNonConst a b g1 = Ok (r, g1) ∧ wf g1 ∧ same_rest g g1 ∧
    (∀ u v, edge g1 u v ↔ edge g u v ∧ ¬ (u = a ∧ v = b)) ∧
    (r = true ↔ detour g a b) ∧ ¬ rtc (edge g1) b a.
Proof.
  intros W He. destruct (RemoveEdge_spec g a b W He) as (g1 & E1 & W1 & Q1 & D1).
  destruct (edge_live g a b W He) as [Ha Hb].
  assert (Hn : ∀ n, node g n → node g1 n) by (intros n; unfold node; by rewrite (proj1 Q1)).
  destruct (IsReachableNonConst_spec g1 a b W1) as (r & Er & Hr);
    [apply Hn, Ha | apply Hn, Hb |].
  exists g1, r. split_and!; try done.
  - destruct He as (io & Hio & Hin). unfold HasEdge, at_res. rewrite Hio. simpl. f_equal.
    apply OrderedSet.Contains_in; [| done]. by apply (sh_sets _ (proj1 W) a).
  - rewrite Hr. unfold detour. split; apply rtc_subrel; intros u v; apply D1.
  - intros Hp. assert (Hp' : rtc (edge g) b a) by (revert Hp; apply rtc_subrel; intros u v; apply D1).
    apply (wf_acyclic g a W). by apply (tc_rtc_r _ b); [apply tc_once |].
Qed.

(** The edge is put back as it was. *)
Lemma restore_run g g1 a b :
  wf g → edge g a b → wf g1 → same_rest g g1 →
  (∀ u v, edge g1 u v ↔ edge g u v ∧ ¬ (u = a ∧ v = b)) → ¬ rtc (edge g1) b a →
  ∃ g', InsertEdge a b g1 = Ok (true, g') ∧ wf g' ∧ free_nodes_ g' = free_nodes_ g ∧
    node_data_ g' = node_data_ g ∧ length (nodes_ g') = length (nodes_ g) ∧
    ∀ u v, edge g' u v ↔ edge g u v.
Proof.
  intros W He W1 Q1 D1 Hno. destruct (edge_live g a b W He) as [Ha Hb].
  pose proof Q1 as (R1 & R2 & R3 & _).
  assert (Hl : ∀ n, live g n → live g1 n) by (intros n; unfold live, node; by rewrite R1, R2).
  destruct (InsertEdge_spec g1 a b W1) as (r & g' & E & [I1 I2 I3 I4 I5 I6 _]); [by apply Hl.. |].
  apply I5 in Hno as ->. exists g'. split_and!; try done; try congruence.
  intros u v. rewrite I6, D1. destruct (decide (u = a ∧ v = b)) as [[-> ->] |]; tauto.
Qed.

End GraphContract.
