(* ===== verification/GraphCorrect.v ===== *)
(** * What [GraphCycles] guarantees its clients

    Every graph built through the public operations is acyclic, answers its
    queries exactly, and contracts edges to the quotient graph. *)
From S2P Require Import Prelude GraphCycles GraphProofs GraphInsert GraphContract.

Module GraphCorrect.
Import GraphCycles GraphProofs GraphInsert GraphOps GraphContract.

(** ** Use of the public operations *)

(** A call on ids and edges that are there. *)
Inductive step (g : Rep) : Rep → Prop :=
  | st_NewNode n g' : NewNode g = Ok (n, g') → step g g'
  | st_RemoveNode n g' : live g n → RemoveNode n g = Ok g' → step g g'
  | st_SetNodeData n d g' : live g n → SetNodeData n d g = Ok g' → step g g'
  | st_RemoveEdge x y g' : edge g x y → RemoveEdge x y g = Ok g' → step g g'
  | st_InsertEdge x y b g' :
      live g x → live g y → InsertEdge x y g = Ok (b, g') → step g g'
  | st_IsReachable x y b g' :
      live g x → live g y → IsReachableNonConst x y g = Ok (b, g') → step g g'
  | st_CanContractEdge a b r g' : edge g a b → CanContractEdge a b g = Ok (r, g') → step g g'
  | st_ContractEdge a b r g' : edge g a b → ContractEdge a b g = Ok (r, g') → step g g'.

Definition reachable (g : Rep) : Prop := rtc step new_graph g.

Definition succeeds {A} (m : res A) : Prop := ∃ a, m = Ok a.

Lemma wf_new : wf new_graph.
Proof.
  assert (Hn : ∀ n, ¬ node new_graph n) by (intros n Hn; unfold node in Hn; simpl in Hn; lia).
  assert (Ho : ∀ u v, ¬ edge new_graph u v) by by intros u v (io & ? & _).
  assert (Hb : ∀ u v, ¬ back new_graph u v) by by intros u v (io & ? & _).
  split; [split | by intros u v ?%Ho]; try done.
  - intros u v. by split; [intros ?%Ho | intros ?%Hb].
  - by intros u v ?%Ho.
  - constructor.
  - constructor.
  - by intros n ?%elem_of_nil.
  - by intros n ?%Hn.
Qed.

Lemma SetNodeData_spec g n d :
  wf g → live g n → ∃ g', SetNodeData n d g = Ok g' ∧ wf g' ∧
    (∀ u v, edge g' u v ↔ edge g u v) ∧ GetNodeData g' n = Ok d.
Proof.
  intros [[S1 S2 S3 S4 S5 S6 S7 S8 S9 S10] HW] [Hn _]. unfold SetNodeData.
  unfold node in Hn. rewrite decide_True by by rewrite S2. eexists. split; [done |].
  split; [| split; [done |]].
  - split; [| done]. split; simpl; try done. by rewrite length_insert.
  - unfold GetNodeData, at_res. simpl. by rewrite list_lookup_insert_eq by by rewrite S2.
Qed.

(** [CanContractEdge] leaves the graph as it is. *)
Lemma CanContractEdge_spec g a b :
  wf g → edge g a b →
  ∃ r g', CanContractEdge a b g = Ok (r, g') ∧ wf g' ∧ free_nodes_ g' = free_nodes_ g ∧
    node_data_ g' = node_data_ g ∧ length (nodes_ g') = length (nodes_ g) ∧
    (∀ u v, edge g' u v ↔ edge g u v) ∧ (r = true ↔ ¬ detour g a b).
Proof.
  intros W He. destruct (probe_spec g a b W He) as (g1 & r & Hh & E1 & Er & W1 & Q1 & D1 & Hr & Hno).
  destruct (restore_run g g1 a b W He W1 Q1 D1 Hno) as (g' & E & W' & F' & D' & L' & He').
  exists (negb r), g'. unfold CanContractEdge. rewrite Hh. simpl. rewrite E1. simpl.
  rewrite Er. simpl. rewrite E. simpl. split_and!; try done.
  rewrite <- Hr. by destruct r.
Qed.

(** The outcome of a contraction: nothing when it would close a cycle, else the
    end that was kept. *)
Definition contracted (g : Rep) (a b : nat) (r : option nat) (g' : Rep) : Prop :=
  match r with
  | None => detour g a b ∧ wf g' ∧ free_nodes_ g' = free_nodes_ g ∧
      node_data_ g' = node_data_ g ∧ ∀ u v, edge g' u v ↔ edge g u v
  | Some k => ¬ detour g a b ∧ ∃ gone, (k = a ∧ gone = b ∨ k = b ∧ gone = a) ∧
      wf g' ∧ free_nodes_ g' = free_nodes_ g ++ [gone] ∧ node_data_ g' = node_data_ g ∧
      ∀ u v, edge g' u v ↔
        ∃ u0 v0, edge g u0 v0 ∧ ¬ (u0 = a ∧ v0 = b) ∧
          u = merge k gone u0 ∧ v = merge k gone v0
  end.

Lemma degree_run g n : sets_ok g → (n < length (node_io_ g))%nat → succeeds (degree g n).
Proof.
  intros _ Hn. destruct (at_res_lt _ _ Hn) as [io E]. unfold degree, at_res. rewrite E.
  by eexists.
Qed.

Lemma ContractEdge_spec g a b :
  wf g → edge g a b → ∃ r g', ContractEdge a b g = Ok (r, g') ∧ contracted g a b r g'.
Proof.
  intros W He. destruct (probe_spec g a b W He) as (g1 & r & Hh & E1 & Er & W1 & Q1 & D1 & Hr & Hno).
  unfold ContractEdge. rewrite Hh. simpl. rewrite E1. simpl. rewrite Er. simpl. destruct r.
  - destruct (restore_run g g1 a b W He W1 Q1 D1 Hno) as (g' & -> & W' & F' & D' & _ & He').
    exists None, g'. split; [done |]. split_and!; try done. by apply Hr.
  - destruct (edge_live g a b W He) as [Ha Hb]. pose proof Q1 as (R1 & R2 & R3 & R4).
    assert (Hl : ∀ n, live g n → live g1 n) by (intros n; unfold live, node; by rewrite R1, R2).
    assert (Hlt : ∀ n, live g n → (n < length (node_io_ g1))%nat).
    { intros n [Hn _]. unfold node in Hn. by rewrite R4, (sh_len _ (proj1 W)). }
    destruct (degree_run g1 b) as [db ->]; [apply W1 | by apply Hlt |].
    destruct (degree_run g1 a) as [da ->]; [apply W1 | by apply Hlt |]. simpl.
    assert (Hab : a ≠ b) by (intros ->; by apply (edge_irrefl g b W)).
    assert (Hno1 : ¬ detour g a b) by by rewrite <- Hr.
    assert (Hd : ¬ rtc (edge g1) a b).
    { contradict Hno1. unfold detour. revert Hno1. apply rtc_subrel. intros u v. apply D1. }
    assert (Hk : ∀ k gone, (k = a ∧ gone = b ∨ k = b ∧ gone = a) →
      ∃ r g', ('(g') ← absorb k gone g1; Ok (Some k, g')) = Ok (r, g') ∧ contracted g a b r g').
    { intros k gone Hkg.
      destruct (absorb_spec g1 k gone) as (g' & -> & [M1 M2 M3 M4 M5]);
        [done | destruct Hkg as [[-> ->] | [-> ->]]; auto.. |].
      exists (Some k), g'. split; [done |]. split; [done |]. exists gone.
      split_and!; try done; try congruence.
      intros u v. rewrite M5. setoid_rewrite D1. naive_solver. }
    destruct (da <? db)%nat; apply Hk; tauto.
Qed.

Lemma step_wf g g' : wf g → step g g' → wf g'.
Proof.
  intros W H. destruct H as [n g' E | n g' Hn E | n d g' Hn E | x y g' Hx E | x y b g' Hx Hy E
    | x y b g' Hx Hy E | a b r g' He E | a b r g' He E].
  - destruct (NewNode_spec g W) as (? & ? & E' & []). congruence.
  - destruct (RemoveNode_spec g n W Hn) as (? & E' & []). congruence.
  - destruct (SetNodeData_spec g n d W Hn) as (? & E' & ? & _). congruence.
  - destruct (RemoveEdge_spec g x y W Hx) as (? & E' & ? & _). congruence.
  - destruct (InsertEdge_spec g x y W Hx Hy) as (? & ? & E' & []). congruence.
  - destruct (IsReachableNonConst_spec g x y W) as (? & E' & _); [apply Hx | apply Hy | congruence].
  - destruct (CanContractEdge_spec g a b W He) as (? & ? & E' & ? & _). congruence.
  - destruct (ContractEdge_spec g a b W He) as (r' & ? & E' & Hc).
    rewrite E' in E. injection E as -> ->. destruct r; [| apply Hc].
    by destruct Hc as (_ & ? & _ & ? & _).
Qed.

Lemma reachable_wf g : reachable g → wf g.
Proof.
  revert g. apply rtc_ind_r; [apply wf_new |]. intros g g' _ Hs W. by apply (step_wf g).
Qed.

Lemma CheckInvariants_wf g : wf g → CheckInvariants g = true.
Proof.
  intros [S HW]. unfold CheckInvariants. rewrite !andb_true_iff. split; [split |].
  - apply forallb_forall. intros nd [i Hi]%list_elem_of_In%list_elem_of_lookup.
    by rewrite (sh_vis _ S i).
  - apply bool_decide_eq_true, S.
  - apply forallb_forall. intros [nd io] [i Hi]%list_elem_of_In%list_elem_of_lookup.
    apply lookup_zip_Some in Hi as [Hn Hio]. apply forallb_forall.
    intros y Hy%list_elem_of_In. simpl in *.
    assert (He : edge g i y) by by exists io.
    apply andb_true_iff. split; [apply bool_decide_eq_true; by apply (sh_range _ S i) |].
    apply Nat.ltb_lt. specialize (HW i y He). unfold rk in HW.
    unfold rank_of at 1 in HW. by rewrite Hn in HW.
Qed.

Lemma sorted_by_rank g l i j u v :
  StronglySorted (flip (rank_le (nodes_ g))) l → (i ≤ j)%nat →
  l !! i = Some u → l !! j = Some v → (rk g v ≤ rk g u)%nat.
Proof.
  intros Hs. revert i j. induction Hs as [| w l Hs IH Hw]; intros i j Hij Hi Hj; [done |].
  rewrite Forall_forall in Hw. destruct i as [| i], j as [| j]; simpl in *; simplify_eq; try lia.
  - apply Hw, list_elem_of_lookup. eauto.
  - by apply (IH i j); [lia | ..].
Qed.

(** ** The properties *)

(** C15: A graph built by any sequence of the public operations passes
    [CheckInvariants] and has no cycle, and every further operation on ids and
    edges that are there completes without an abort, an out of range access or
    an endless loop. *)
Theorem graph_safe g :
  reachable g →
  CheckInvariants g = true ∧ (∀ u, ¬ tc (edge g) u u) ∧
  succeeds (NewNode g) ∧
  (∀ n, live g n → succeeds (RemoveNode n g) ∧ succeeds (GetNodeData g n) ∧
     ∀ d, succeeds (SetNodeData n d g)) ∧
  (∀ x y, live g x → live g y →
     succeeds (InsertEdge x y g) ∧ succeeds (IsReachable g x y) ∧
     succeeds (IsReachableNonConst x y g)) ∧
  (∀ a b, edge g a b →
     succeeds (RemoveEdge a b g) ∧ succeeds (CanContractEdge a b g) ∧
     succeeds (ContractEdge a b g)).
Proof.
  intros W%reachable_wf. split; [by apply CheckInvariants_wf |].
  split; [intros u; by apply wf_acyclic |]. split.
  { destruct (NewNode_spec g W) as (? & ? & -> & _). by eexists. }
  split; [| split].
  - intros n Hn. split; [| split].
    + destruct (RemoveNode_spec g n W Hn) as (? & -> & _). by eexists.
    + destruct (at_res_lt (node_data_ g) n) as [d E].
      { rewrite (sh_data _ (proj1 W)). apply Hn. }
      unfold GetNodeData, at_res. rewrite E. by eexists.
    + intros d. destruct (SetNodeData_spec g n d W Hn) as (? & -> & _). by eexists.
  - intros x y Hx Hy. split; [| split].
    + destruct (InsertEdge_spec g x y W Hx Hy) as (? & ? & -> & _). by eexists.
    + unfold IsReachable.
      destruct (FindPath_spec g x y [] W) as [(? & -> & _) | (? & ? & -> & _)];
        [apply Hx | by eexists..].
    + destruct (IsReachableNonConst_spec g x y W) as (? & -> & _);
        [apply Hx | apply Hy | by eexists].
  - intros a b He. split; [| split].
    + destruct (RemoveEdge_spec g a b W He) as (? & -> & _). by eexists.
    + destruct (CanContractEdge_spec g a b W He) as (? & ? & -> & _). by eexists.
    + destruct (ContractEdge_spec g a b W He) as (? & ? & -> & _). by eexists.
Qed.

(** C14: [InsertEdge x y] refuses exactly the edges that would close a cycle.
    A refused edge leaves the edges and the ranks as they were; an accepted one
    is added to the graph, which stays well formed. *)
Theorem InsertEdge_exact g x y :
  wf g → live g x → live g y →
  ∃ b g', InsertEdge x y g = Ok (b, g') ∧ wf g' ∧
    (b = true ↔ ¬ rtc (edge g) y x) ∧
    (∀ u v, edge g' u v ↔ edge g u v ∨ (b = true ∧ u = x ∧ v = y)) ∧
    (∀ n, live g' n ↔ live g n) ∧
    (b = false → ∀ n, rk g' n = rk g n).
Proof.
  intros W Hx Hy. destruct (InsertEdge_spec g x y W Hx Hy) as (b & g' & E & [I1 I2 I3 I4 I5 I6 I7]).
  exists b, g'. split_and!; try done. intros n. unfold live, node. by rewrite I2, I4.
Qed.

(** [FindPath] finds a path when there is one: it returns the number of nodes of a
    path from [x] to [y], or 0 when [y] cannot be reached, and fills the
    caller's array with as many nodes of the path as fit. *)
Theorem FindPath_finds g x y path :
  wf g → live g x →
  ∃ len path', FindPath g x y path = Ok (len, path') ∧ length path' = length path ∧
    (len = 0%nat ↔ ¬ rtc (edge g) x y) ∧
    (len ≠ 0%nat → ∃ P, length P = len ∧ is_path g x y P ∧
       ∀ i n, (i < length path)%nat → P !! i = Some n → path' !! i = Some n).
Proof.
  intros W [Hx _]. destruct (FindPath_spec g x y path W Hx)
    as [(p & E & Hl & Hno) | (P & p & E & HP & Hl & Hw)].
  - exists 0%nat, p. split_and!; try done.
  - exists (length P), p. split_and!; try done.
    + assert (Hne : P ≠ []) by (intros ->; by destruct HP).
      split; [by intros ->%nil_length_inv |].
      intros []. by apply (is_path_rtc g x y P).
    + intros _. by exists P.
Qed.

(** The two reachability queries agree and are exact, and the one that
    marks nodes as it goes leaves no trace. *)
Theorem IsReachable_exact g x y :
  wf g → live g x → live g y →
  ∃ b, IsReachable g x y = Ok b ∧ IsReachableNonConst x y g = Ok (b, g) ∧
    (b = true ↔ rtc (edge g) x y).
Proof.
  intros W Hx Hy. destruct (IsReachableNonConst_spec g x y W) as (b & E & Hb);
    [apply Hx | apply Hy |].
  exists b. split; [| done]. unfold IsReachable.
  destruct (FindPath_spec g x y [] W) as [(? & -> & _ & Hno) | (P & ? & -> & HP & _)];
    [apply Hx | |]; simpl; f_equal; symmetry.
  - destruct b; [| done]. destruct Hno. by apply Hb.
  - assert (P ≠ []) by (intros ->; by destruct HP). destruct P; [done |]. simpl.
    by apply Hb, (is_path_rtc _ _ _ _ HP).
Qed.

(** C16: [ContractEdge a b] on an edge of the graph returns nothing, and keeps
    the graph, exactly when there is another path from [a] to [b]; otherwise
    the graph becomes its quotient by [a = b], one of the two being kept and
    returned and the other freed, and it stays acyclic and well formed. *)
Theorem ContractEdge_quotient g a b :
  wf g → edge g a b →
  ∃ r g', ContractEdge a b g = Ok (r, g') ∧ contracted g a b r g'.
Proof. apply ContractEdge_spec. Qed.

(** [CanContractEdge] predicts the outcome of [ContractEdge] and does not
    change the graph. *)
Theorem CanContractEdge_predicts g a b :
  wf g → edge g a b →
  ∃ can g' r g'', CanContractEdge a b g = Ok (can, g') ∧ ContractEdge a b g = Ok (r, g'') ∧
    (can = true ↔ is_Some r) ∧ wf g' ∧ (∀ n, live g' n ↔ live g n) ∧
    (∀ u v, edge g' u v ↔ edge g u v).
Proof.
  intros W He. destruct (CanContractEdge_spec g a b W He) as (can & g' & E & W' & F & D & L & He' & Hc).
  destruct (ContractEdge_spec g a b W He) as (r & g'' & E' & Hr).
  exists can, g', r, g''. split_and!; try done.
  - rewrite Hc. destruct r as [k |].
    + destruct Hr as [Hno _]. split; [by eexists | done].
    + destruct Hr as [Hd _]. split; [done | by intros []].
  - intros n. unfold live, node. by rewrite F, L.
Qed.

(** [AllNodesInPostOrder] lists every node in use once, each after all the
    nodes it has an edge to. *)
Theorem AllNodesInPostOrder_postorder g :
  wf g →
  NoDup (AllNodesInPostOrder g) ∧ (∀ n, n ∈ AllNodesInPostOrder g ↔ live g n) ∧
  ∀ i j u v, AllNodesInPostOrder g !! i = Some u → AllNodesInPostOrder g !! j = Some v →
    edge g u v → (j < i)%nat.
Proof.
  intros W. set (S := merge_sort_Permutation (flip (rank_le (nodes_ g)))
    (filter (λ i, i ∉ free_nodes_ g) (seq 0 (length (nodes_ g))))).
  split; [| split].
  - unfold AllNodesInPostOrder, SortInPostOrder. rewrite S. apply NoDup_filter, NoDup_seq.
  - intros n. unfold AllNodesInPostOrder, SortInPostOrder. rewrite S.
    rewrite list_elem_of_filter, elem_of_seq. unfold live, node. intuition lia.
  - intros i j u v Hi Hj Huv. destruct (decide (j < i)%nat) as [| Hge]; [done |].
    pose proof (proj2 W u v Huv) as Hk.
    assert (H : (rk g v ≤ rk g u)%nat); [| lia].
    apply (sorted_by_rank g (AllNodesInPostOrder g) i j u v); [| lia | done | done].
    apply StronglySorted_merge_sort; intros a b; unfold flip, rank_le; lia.
Qed.

(** ** A graph *)

#[export] Instance live_dec g n : Decision (live g n).
Proof. unfold live, node. apply _. Defined.

(** Five nodes, inserted against their ranks: [2 -> 1 -> 0], [2 -> 0] and [3 -> 2]. *)
Definition build : res Rep :=
  '(_, g) ← NewNode new_graph;
  '(_, g) ← NewNode g;
  '(_, g) ← NewNode g;
  '(_, g) ← NewNode g;
  '(_, g) ← NewNode g;
  '(_, g) ← InsertEdge 2 1 g;
  '(_, g) ← InsertEdge 1 0 g;
  '(_, g) ← InsertEdge 2 0 g;
  '(_, g) ← InsertEdge 3 2 g;
  RemoveNode 4 g.

Definition demo : Rep := Eval vm_compute in
  match build with Ok g => g | Fail _ => new_graph end.

Ltac graph_decide := apply (bool_decide_unpack _); vm_compute; exact I.
Tactic Notation "graph_step" uconstr(c) :=
  eapply rtc_l; [eapply c; try graph_decide; vm_compute; reflexivity |].

Lemma demo_reachable : reachable demo.
Proof.
  unfold reachable.
  do 5 graph_step st_NewNode.
  graph_step (st_InsertEdge _ 2 1). graph_step (st_InsertEdge _ 1 0).
  graph_step (st_InsertEdge _ 2 0). graph_step (st_InsertEdge _ 3 2).
  graph_step (st_RemoveNode _ 4). apply rtc_refl.
Qed.

Lemma demo_wf : wf demo.
Proof. apply reachable_wf, demo_reachable. Qed.

Lemma graph_safe_witness : CheckInvariants demo = true ∧ ¬ tc (edge demo) 3%nat 3%nat.
Proof.
  destruct (graph_safe demo demo_reachable) as (H & Hc & _). split; [exact H | apply Hc].
Defined.

(** [0 -> 3] would close a cycle; [0] to a new node would not. *)
Lemma InsertEdge_exact_witness :
  ∃ b g', InsertEdge 0 3 demo = Ok (b, g') ∧ wf g' ∧ b = false.
Proof.
  destruct (InsertEdge_exact demo 0 3 demo_wf) as (b & g' & E & W & _); [graph_decide.. |].
  exists b, g'. split; [exact E |]. split; [exact W |].
  vm_compute in E. by injection E.
Defined.

Lemma FindPath_finds_witness :
  ∃ len p, FindPath demo 3 0 [9; 9]%nat = Ok (len, p) ∧ length p = 2%nat ∧ len = 3%nat.
Proof.
  destruct (FindPath_finds demo 3 0 [9; 9]%nat demo_wf) as (len & p & E & Hl & _);
    [graph_decide |].
  exists len, p. split; [exact E |]. split; [exact Hl |]. vm_compute in E. by injection E.
Defined.

Lemma IsReachable_exact_witness :
  ∃ b, IsReachable demo 3 0 = Ok b ∧ IsReachableNonConst 3 0 demo = Ok (b, demo) ∧ b = true.
Proof.
  destruct (IsReachable_exact demo 3 0 demo_wf) as (b & E & E' & _); [graph_decide.. |].
  exists b. split; [exact E |]. split; [exact E' |]. vm_compute in E. by injection E.
Defined.

(** [2 -> 0] has the detour through [1]; [2 -> 1] has none. *)
Lemma ContractEdge_quotient_witness :
  (∃ g', ContractEdge 2 0 demo = Ok (None, g') ∧ contracted demo 2 0 None g') ∧
  ∃ g', ContractEdge 2 1 demo = Ok (Some 2%nat, g') ∧ contracted demo 2 1 (Some 2%nat) g'.
Proof.
  split.
  - destruct (ContractEdge_quotient demo 2 0 demo_wf) as (r & g' & E & H); [graph_decide |].
    exists g'. vm_compute in E. injection E as <- <-. split; [reflexivity | exact H].
  - destruct (ContractEdge_quotient demo 2 1 demo_wf) as (r & g' & E & H); [graph_decide |].
    exists g'. vm_compute in E. injection E as <- <-. split; [reflexivity | exact H].
Defined.

Lemma CanContractEdge_predicts_witness :
  ∃ can g' r g'', CanContractEdge 2 1 demo = Ok (can, g') ∧
    ContractEdge 2 1 demo = Ok (r, g'') ∧ (can = true ↔ is_Some r).
Proof.
  destruct (CanContractEdge_predicts demo 2 1 demo_wf) as (can & g' & r & g'' & E & E' & H & _);
    [graph_decide |].
  exists can, g', r, g''. split; [exact E |]. split; [exact E' | exact H].
Defined.

Lemma AllNodesInPostOrder_postorder_witness :
  AllNodesInPostOrder demo = [0; 1; 2; 3]%nat ∧ NoDup (AllNodesInPostOrder demo).
Proof.
  split; [vm_compute; reflexivity |].
  apply (AllNodesInPostOrder_postorder demo demo_wf).
Defined.

End GraphCorrect.
