(* ===== verification/BfcState.v ===== *)
(** * The state of the best-fit-with-coalescing allocator

    Models the data of [xla/tsl/framework/bfc_allocator.h]: chunks and their
    physical neighbours, the bins of free chunks, the allocation regions with
    their array from addresses to chunk handles, and the accessors and region
    manager operations over them.  A [ChunkHandle] is an index into the vector
    of chunks; [kInvalidChunkHandle] and [kInvalidBinNum] are [None]. *)
From S2P Require Import Prelude.

Module Bfc.

Definition kMinAllocationBits : Z := 8.
Definition kMinAllocationSize : Z := 256.
Definition kNumBins : nat := 21.

Abbreviation ChunkHandle := nat.

Record Chunk := MkChunk {
  size : Z;
  requested_size : Z;
  allocation_id : Z;
  ptr : Z;
  prev : option ChunkHandle;
  next : option ChunkHandle;
  bin_num : option nat;
  freed_at_count : Z
}.

(** The default member initialisers of [struct Chunk]. *)
Definition new_chunk_record : Chunk := MkChunk 0 0 (-1) 0 None None None 0.

Definition in_use (c : Chunk) : bool := negb (allocation_id c =? -1).

Definition set_size (z : Z) (c : Chunk) : Chunk :=
  MkChunk z (requested_size c) (allocation_id c) (ptr c) (prev c) (next c)
    (bin_num c) (freed_at_count c).
Definition set_requested_size (z : Z) (c : Chunk) : Chunk :=
  MkChunk (size c) z (allocation_id c) (ptr c) (prev c) (next c) (bin_num c)
    (freed_at_count c).
Definition set_allocation_id (z : Z) (c : Chunk) : Chunk :=
  MkChunk (size c) (requested_size c) z (ptr c) (prev c) (next c) (bin_num c)
    (freed_at_count c).
Definition set_ptr (z : Z) (c : Chunk) : Chunk :=
  MkChunk (size c) (requested_size c) (allocation_id c) z (prev c) (next c)
    (bin_num c) (freed_at_count c).
Definition set_prev (h : option ChunkHandle) (c : Chunk) : Chunk :=
  MkChunk (size c) (requested_size c) (allocation_id c) (ptr c) h (next c)
    (bin_num c) (freed_at_count c).
Definition set_next (h : option ChunkHandle) (c : Chunk) : Chunk :=
  MkChunk (size c) (requested_size c) (allocation_id c) (ptr c) (prev c) h
    (bin_num c) (freed_at_count c).
Definition set_bin_num (b : option nat) (c : Chunk) : Chunk :=
  MkChunk (size c) (requested_size c) (allocation_id c) (ptr c) (prev c)
    (next c) b (freed_at_count c).
Definition set_freed_at_count (z : Z) (c : Chunk) : Chunk :=
  MkChunk (size c) (requested_size c) (allocation_id c) (ptr c) (prev c)
    (next c) (bin_num c) z.

(** ** Bins *)

Definition BinNumToSize (index : nat) : Z :=
  wrap_u64 (Z.shiftl 256 (Z.of_nat index)).

(** [min(kNumBins - 1, Log2Floor64(max(bytes, 256) >> kMinAllocationBits))]. *)
Definition BinNumForSize (bytes : Z) : nat :=
  let v := Z.shiftr (Z.max bytes 256) kMinAllocationBits in
  Z.to_nat (Z.min (Z.of_nat kNumBins - 1) (Z.log2 v)).

(** [ChunkComparator]: by size, then by address. *)
Definition chunk_lt (cs : list Chunk) (ha hb : ChunkHandle) : bool :=
  match cs !! ha, cs !! hb with
  | Some a, Some b =>
      if negb (size a =? size b) then size a <? size b else ptr a <? ptr b
  | _, _ => false
  end.

(** [FreeChunkSet] is an ordered set under [chunk_lt]; its iteration order is
    the list. *)
Fixpoint bin_insert (cs : list Chunk) (h : ChunkHandle) (l : list ChunkHandle)
    : list ChunkHandle :=
  match l with
  | [] => [h]
  | x :: l' =>
      if chunk_lt cs h x then h :: l
      else if chunk_lt cs x h then x :: bin_insert cs h l'
      else l
  end.

(** [erase(key)]: the element equivalent to the key, and whether there was one. *)
Fixpoint bin_erase (cs : list Chunk) (h : ChunkHandle) (l : list ChunkHandle)
    : option (list ChunkHandle) :=
  match l with
  | [] => None
  | x :: l' =>
      if chunk_lt cs x h then (x ::.) <$> bin_erase cs h l'
      else if chunk_lt cs h x then None
      else Some l'
  end.

(** ** Regions *)

Record AllocationRegion := MkRegion {
  r_ptr : Z;
  r_memory_size : Z;
  r_handles : list (option ChunkHandle)
}.

Definition r_end_ptr (r : AllocationRegion) : Z := r_ptr r + r_memory_size r.

Definition n_handles_for (memory_size : Z) : nat :=
  Z.to_nat (wrap_u64 (memory_size + kMinAllocationSize - 1) / kMinAllocationSize).

Definition new_region (p memory_size : Z) : AllocationRegion :=
  MkRegion p memory_size (replicate (n_handles_for memory_size) None).

(** [std::vector::resize(n, kInvalidChunkHandle)]. *)
Definition resize_handles (n : nat) (l : list (option ChunkHandle))
    : list (option ChunkHandle) :=
  take n l ++ replicate (n - length l) None.

Definition region_extend (r : AllocationRegion) (sz : Z) : AllocationRegion :=
  let m := wrap_u64 (r_memory_size r + sz) in
  MkRegion (r_ptr r) m (resize_handles (n_handles_for m) (r_handles r)).

Definition IndexFor (r : AllocationRegion) (p : Z) : nat :=
  Z.to_nat (Z.shiftr (wrap_u64 (p - r_ptr r)) kMinAllocationBits).

Definition region_get_handle (r : AllocationRegion) (p : Z)
    : res (option ChunkHandle) := at_res (r_handles r) (IndexFor r p).

Definition region_set_handle (r : AllocationRegion) (p : Z)
    (h : option ChunkHandle) : res AllocationRegion :=
  if decide (IndexFor r p < length (r_handles r))%nat
  then Ok (MkRegion (r_ptr r) (r_memory_size r)
             (<[IndexFor r p := h]> (r_handles r)))
  else Fail Undefined.

(** [std::upper_bound] with [Comparator]: the number of leading regions whose
    [end_ptr] is not above [p]. *)
Fixpoint upper_bound (rs : list AllocationRegion) (p : Z) : nat :=
  match rs with
  | [] => 0
  | r :: rs' => if p <? r_end_ptr r then 0 else S (upper_bound rs' p)
  end.

(** [RegionFor], with the [LOG(FATAL)] of a pointer past every region. *)
Definition RegionFor (rs : list AllocationRegion) (p : Z)
    : res (nat * AllocationRegion) :=
  let i := upper_bound rs p in
  match rs !! i with Some r => Ok (i, r) | None => Fail CheckFailed end.

Definition get_handle (rs : list AllocationRegion) (p : Z)
    : res (option ChunkHandle) :=
  '(_, r) ← RegionFor rs p; region_get_handle r p.

Definition set_handle (rs : list AllocationRegion) (p : Z)
    (h : option ChunkHandle) : res (list AllocationRegion) :=
  '(i, r) ← RegionFor rs p;
  r' ← region_set_handle r p h;
  Ok (<[i := r']> rs).

Definition insert_region (rs : list AllocationRegion) (i : nat)
    (r : AllocationRegion) : list AllocationRegion := take i rs ++ r :: drop i rs.

Definition AddAllocationRegion (rs : list AllocationRegion) (p memory_size : Z)
    : list AllocationRegion :=
  insert_region rs (upper_bound rs p) (new_region p memory_size).

(** Also returns the index of the region that was extended, if one was. *)
Definition AddOrExtendAllocationRegion (rs : list AllocationRegion)
    (p memory_size : Z) : list AllocationRegion * option nat :=
  let entry := upper_bound rs p in
  let fresh := (insert_region rs entry (new_region p memory_size), None) in
  match entry with
  | O => fresh
  | S i =>
      match rs !! i with
      | Some preceding =>
          if r_end_ptr preceding =? p
          then (<[i := region_extend preceding memory_size]> rs, Some i)
          else fresh
      | None => fresh
      end
  end.

(** ** The allocator *)

Record Options := MkOptions {
  allow_growth : bool;
  garbage_collection : bool;
  (** [fragmentation_fraction * memory_limit_] converted to [int64_t], when the
      fraction is positive. *)
  fragmentation_bytes : option Z
}.

Record Stats := MkStats {
  num_allocs : Z;
  bytes_in_use : Z;
  peak_bytes_in_use : Z;
  largest_alloc_size : Z;
  pool_bytes : Z;
  peak_pool_bytes : Z
}.

(** A [SubAllocator]: the interface [Alloc]/[Free] over a state of its own.
    [Alloc] returns the address and [bytes_received], or [None] for [nullptr]. *)
Class SubAllocator := {
  sub_state : Type;
  SubAlloc : sub_state → Z → Z → option (Z * Z) * sub_state;
  SubFree : sub_state → Z → Z → sub_state;
  SupportsCoalescing : bool
}.

Record Allocator `{SubAllocator} := MkAllocator {
  opts : Options;
  memory_limit : Z;
  curr_region_allocation_bytes : Z;
  sub : sub_state;
  regions : list AllocationRegion;
  chunks : list Chunk;
  free_chunks_list : option ChunkHandle;
  bins : list (list ChunkHandle);
  next_allocation_id : Z;
  stats : Stats;
  (** The value of [*timing_counter_], when a counter is set. *)
  timing_counter : option Z;
  timestamped_chunks : list ChunkHandle;
  safe_frontier : Z
}.

Section Setters.
Context `{SubAllocator}.

Definition with_regions (rs : list AllocationRegion) (a : Allocator) : Allocator :=
  MkAllocator _ (opts a) (memory_limit a) (curr_region_allocation_bytes a) (sub a)
    rs (chunks a) (free_chunks_list a) (bins a) (next_allocation_id a) (stats a)
    (timing_counter a) (timestamped_chunks a) (safe_frontier a).
Definition with_chunks (cs : list Chunk) (a : Allocator) : Allocator :=
  MkAllocator _ (opts a) (memory_limit a) (curr_region_allocation_bytes a) (sub a)
    (regions a) cs (free_chunks_list a) (bins a) (next_allocation_id a) (stats a)
    (timing_counter a) (timestamped_chunks a) (safe_frontier a).
Definition with_free_chunks_list (f : option ChunkHandle) (a : Allocator) : Allocator :=
  MkAllocator _ (opts a) (memory_limit a) (curr_region_allocation_bytes a) (sub a)
    (regions a) (chunks a) f (bins a) (next_allocation_id a) (stats a)
    (timing_counter a) (timestamped_chunks a) (safe_frontier a).
Definition with_bins (b : list (list ChunkHandle)) (a : Allocator) : Allocator :=
  MkAllocator _ (opts a) (memory_limit a) (curr_region_allocation_bytes a) (sub a)
    (regions a) (chunks a) (free_chunks_list a) b (next_allocation_id a) (stats a)
    (timing_counter a) (timestamped_chunks a) (safe_frontier a).
Definition with_stats (s : Stats) (a : Allocator) : Allocator :=
  MkAllocator _ (opts a) (memory_limit a) (curr_region_allocation_bytes a) (sub a)
    (regions a) (chunks a) (free_chunks_list a) (bins a) (next_allocation_id a) s
    (timing_counter a) (timestamped_chunks a) (safe_frontier a).
Definition with_next_allocation_id (n : Z) (a : Allocator) : Allocator :=
  MkAllocator _ (opts a) (memory_limit a) (curr_region_allocation_bytes a) (sub a)
    (regions a) (chunks a) (free_chunks_list a) (bins a) n (stats a)
    (timing_counter a) (timestamped_chunks a) (safe_frontier a).
Definition with_sub (s : sub_state) (a : Allocator) : Allocator :=
  MkAllocator _ (opts a) (memory_limit a) (curr_region_allocation_bytes a) s
    (regions a) (chunks a) (free_chunks_list a) (bins a) (next_allocation_id a)
    (stats a) (timing_counter a) (timestamped_chunks a) (safe_frontier a).
Definition with_curr_region_allocation_bytes (z : Z) (a : Allocator) : Allocator :=
  MkAllocator _ (opts a) (memory_limit a) z (sub a) (regions a) (chunks a)
    (free_chunks_list a) (bins a) (next_allocation_id a) (stats a)
    (timing_counter a) (timestamped_chunks a) (safe_frontier a).
Definition with_timing_counter (t : option Z) (a : Allocator) : Allocator :=
  MkAllocator _ (opts a) (memory_limit a) (curr_region_allocation_bytes a) (sub a)
    (regions a) (chunks a) (free_chunks_list a) (bins a) (next_allocation_id a)
    (stats a) t (timestamped_chunks a) (safe_frontier a).
Definition with_timestamped_chunks (l : list ChunkHandle) (a : Allocator) : Allocator :=
  MkAllocator _ (opts a) (memory_limit a) (curr_region_allocation_bytes a) (sub a)
    (regions a) (chunks a) (free_chunks_list a) (bins a) (next_allocation_id a)
    (stats a) (timing_counter a) l (safe_frontier a).
Definition with_safe_frontier (z : Z) (a : Allocator) : Allocator :=
  MkAllocator _ (opts a) (memory_limit a) (curr_region_allocation_bytes a) (sub a)
    (regions a) (chunks a) (free_chunks_list a) (bins a) (next_allocation_id a)
    (stats a) (timing_counter a) (timestamped_chunks a) z.
End Setters.

End Bfc.
