(* ===== verification/BfcOps.v ===== *)
(** * The operations of the best-fit-with-coalescing allocator

    Models [xla/tsl/framework/bfc_allocator.cc].  Every operation runs in a
    state and failure monad over [Allocator]: a [CHECK] or [LOG(FATAL)] that
    fires is [Fail CheckFailed], an out of range vector access is
    [Fail Undefined].  [alignment] is the caller's, [SubAllocator] is the
    interface of [allocator.h].  Logging, tracing and the mutex are left out;
    each operation is one critical section. *)
From S2P Require Import Prelude BfcState.
From Stdlib Require Import Floats.SpecFloat.

Module BfcOps.
Import Bfc.

Section Ops.
Context `{SA : SubAllocator}.

Definition M (A : Type) : Type := Allocator → res (A * Allocator).

#[global] Instance M_ret : MRet M := λ A x a, Ok (x, a).
#[global] Instance M_bind : MBind M := λ A B f m a,
  match m a with Ok (x, a') => f x a' | Fail e => Fail e end.

Definition get : M Allocator := λ a, Ok (a, a).
Definition gets {A} (f : Allocator → A) : M A := λ a, Ok (f a, a).
Definition modify (f : Allocator → Allocator) : M unit := λ a, Ok (tt, f a).
Definition lift {A} (r : res A) : M A := λ a,
  match r with Ok x => Ok (x, a) | Fail e => Fail e end.
(** [CHECK(b)]. *)
Definition check (b : bool) : M unit := lift (guard_res b CheckFailed).

(** ** Chunk storage *)

Definition ChunkFromHandle (h : ChunkHandle) : M Chunk :=
  cs ← gets chunks; lift (at_res cs h).

(** An assignment through the [Chunk*] of a handle. *)
Definition update_chunk (h : ChunkHandle) (f : Chunk → Chunk) : M unit :=
  c ← ChunkFromHandle h;
  modify (λ a, with_chunks (<[h := f c]> (chunks a)) a).

Definition AllocateChunk : M ChunkHandle :=
  fl ← gets free_chunks_list;
  match fl with
  | Some h =>
      c ← ChunkFromHandle h;
      modify (with_free_chunks_list (next c));;
      mret h
  | None =>
      h ← gets (λ a, length (chunks a));
      modify (λ a, with_chunks (chunks a ++ [new_chunk_record]) a);;
      mret h
  end.

Definition DeallocateChunk (h : ChunkHandle) : M unit :=
  fl ← gets free_chunks_list;
  update_chunk h (λ c, set_next fl (set_bin_num None (set_allocation_id (-1) c)));;
  modify (with_free_chunks_list (Some h)).

(** ** The region manager, on the allocator's state *)

Definition rm_get_handle (p : Z) : M (option ChunkHandle) :=
  rs ← gets regions; lift (get_handle rs p).

Definition rm_set_handle (p : Z) (h : option ChunkHandle) : M unit :=
  rs ← gets regions;
  rs' ← lift (set_handle rs p h);
  modify (with_regions rs').

Definition rm_erase (p : Z) : M unit := rm_set_handle p None.

Definition DeleteChunk (h : ChunkHandle) : M unit :=
  c ← ChunkFromHandle h;
  rm_erase (ptr c);;
  DeallocateChunk h.

(** ** Bins *)

Definition bin_at (b : nat) : M (list ChunkHandle) :=
  bs ← gets bins; lift (at_res bs b).

Definition set_bin (b : nat) (l : list ChunkHandle) : M unit :=
  modify (λ a, with_bins (<[b := l]> (bins a)) a).

Definition InsertFreeChunkIntoBin (h : ChunkHandle) : M unit :=
  c ← ChunkFromHandle h;
  check (negb (in_use c) && bool_decide (bin_num c = None));;
  let b := BinNumForSize (size c) in
  l ← bin_at b;
  update_chunk h (set_bin_num (Some b));;
  cs ← gets chunks;
  set_bin b (bin_insert cs h l).

(** [free_chunks->erase(citer)] for the iterator at [h] of bin [b]. *)
Definition RemoveFreeChunkIterFromBin (b : nat) (h : ChunkHandle) : M unit :=
  c ← ChunkFromHandle h;
  check (negb (in_use c) && bool_decide (bin_num c ≠ None));;
  l ← bin_at b;
  set_bin b (filter (λ x, x ≠ h) l);;
  update_chunk h (set_bin_num None).

Definition RemoveFreeChunkFromBin (h : ChunkHandle) : M unit :=
  c ← ChunkFromHandle h;
  check (negb (in_use c) && bool_decide (bin_num c ≠ None));;
  b ← lift (match bin_num c with Some b => Ok b | None => Fail CheckFailed end);
  l ← bin_at b;
  cs ← gets chunks;
  match bin_erase cs h l with
  | Some l' => set_bin b l'
  | None => check false
  end;;
  update_chunk h (set_bin_num None).

(** ** Splitting and merging *)

(** [RoundedBytes], in [size_t]. *)
Definition RoundedBytes (bytes : Z) : Z :=
  wrap_u64 (kMinAllocationSize *
            (wrap_u64 (bytes + kMinAllocationSize - 1) / kMinAllocationSize)).

Definition SplitChunk (h : ChunkHandle) (num_bytes : Z) : M unit :=
  h_new_chunk ← AllocateChunk;
  c ← ChunkFromHandle h;
  check (negb (in_use c) && bool_decide (bin_num c = None));;
  update_chunk h_new_chunk (set_ptr (ptr c + num_bytes));;
  rm_set_handle (ptr c + num_bytes) (Some h_new_chunk);;
  update_chunk h_new_chunk (set_size (wrap_u64 (size c - num_bytes)));;
  update_chunk h (set_size num_bytes);;
  update_chunk h_new_chunk (set_allocation_id (-1));;
  update_chunk h_new_chunk (set_freed_at_count (freed_at_count c));;
  let h_neighbor := next c in
  update_chunk h_new_chunk (set_prev (Some h));;
  update_chunk h_new_chunk (set_next h_neighbor);;
  update_chunk h (set_next (Some h_new_chunk));;
  match h_neighbor with
  | Some n => update_chunk n (set_prev (Some h_new_chunk))
  | None => mret tt
  end;;
  InsertFreeChunkIntoBin h_new_chunk.

Definition Merge (h1 h2 : ChunkHandle) : M unit :=
  c1 ← ChunkFromHandle h1;
  c2 ← ChunkFromHandle h2;
  check (negb (in_use c1) && negb (in_use c2));;
  let h3 := next c2 in
  update_chunk h1 (set_next h3);;
  c2' ← ChunkFromHandle h2;
  check (bool_decide (prev c2' = Some h1));;
  match h3 with
  | Some n => update_chunk n (set_prev (Some h1))
  | None => mret tt
  end;;
  update_chunk h1 (λ c, set_size (wrap_u64 (size c + size c2)) c);;
  update_chunk h1
    (λ c, set_freed_at_count (Z.max (freed_at_count c) (freed_at_count c2)) c);;
  DeleteChunk h2.

Definition TryToCoalesce (h : ChunkHandle) (ignore_freed_at : bool) : M ChunkHandle :=
  c ← ChunkFromHandle h;
  if negb ignore_freed_at && (freed_at_count c >? 0) then mret h
  else
    match next c with
    | Some hn =>
        n ← ChunkFromHandle hn;
        if negb (in_use n) && ((freed_at_count n =? 0) || ignore_freed_at)
        then RemoveFreeChunkFromBin hn;; Merge h hn
        else mret tt
    | None => mret tt
    end;;
    c ← ChunkFromHandle h;
    match prev c with
    | Some hp =>
        p ← ChunkFromHandle hp;
        if negb (in_use p) && ((freed_at_count p =? 0) || ignore_freed_at)
        then RemoveFreeChunkFromBin hp;; Merge hp h;; mret hp
        else mret h
    | None => mret h
    end.

(** ** Releasing memory *)

Definition add_bytes_in_use (d : Z) (s : Stats) : Stats :=
  MkStats (num_allocs s) (wrap_s64 (bytes_in_use s + d)) (peak_bytes_in_use s)
    (largest_alloc_size s) (pool_bytes s) (peak_pool_bytes s).

Definition MarkFree (h : ChunkHandle) : M unit :=
  c ← ChunkFromHandle h;
  check (in_use c && bool_decide (bin_num c = None));;
  update_chunk h (set_allocation_id (-1));;
  tc ← gets timing_counter;
  match tc with
  | Some v =>
      modify (with_timing_counter (Some (v + 1)));;
      update_chunk h (set_freed_at_count (v + 1))
  | None => mret tt
  end;;
  modify (λ a, with_stats (add_bytes_in_use (- size c) (stats a)) a).

(** [ptr = 0] is [nullptr]. *)
Definition DeallocateRawInternal (p : Z) : M unit :=
  if p =? 0 then mret tt
  else
    oh ← rm_get_handle p;
    h ← lift (match oh with Some h => Ok h | None => Fail CheckFailed end);
    ChunkFromHandle h;;
    MarkFree h;;
    tc ← gets timing_counter;
    match tc with
    | Some _ =>
        InsertFreeChunkIntoBin h;;
        modify (λ a, with_timestamped_chunks (timestamped_chunks a ++ [h]) a)
    | None =>
        h' ← TryToCoalesce h false;
        InsertFreeChunkIntoBin h'
    end.

(** ** Finding a chunk *)

Definition max_internal_fragmentation_bytes (a : Allocator) : Z :=
  match fragmentation_bytes (opts a) with
  | Some b => b
  | None => Z.shiftl 128 20
  end.

Definition stats_alloc (sz : Z) (s : Stats) : Stats :=
  let in_use := wrap_s64 (bytes_in_use s + sz) in
  MkStats (wrap_s64 (num_allocs s + 1)) in_use
    (Z.max (peak_bytes_in_use s) in_use)
    (wrap_s64 (Z.max (wrap_u64 (largest_alloc_size s)) sz))
    (pool_bytes s) (peak_pool_bytes s).

Definition align_padding_for (alignment p : Z) : Z :=
  RoundedBytes ((alignment - Z.land p (alignment - 1)) mod alignment).

(** Handing the carved chunk out. *)
Definition mark_used (h : ChunkHandle) (num_bytes : Z) : M Z :=
update_chunk h (set_requested_size num_bytes);;
  id ← gets next_allocation_id;
  update_chunk h (set_allocation_id id);;
  modify (with_next_allocation_id (id + 1));;
  c ← ChunkFromHandle h;
  modify (λ a, with_stats (stats_alloc (size c) (stats a)) a);;
  mret (ptr c).

(** The body of [FindChunkPtr] once a chunk is chosen: carve the aligned block
    out of it and hand it out. *)
Definition take_chunk (b : nat) (h : ChunkHandle)
    (align_padding rounded_bytes num_bytes : Z) : M Z :=
  RemoveFreeChunkIterFromBin b h;;
  h ← (if align_padding >? 0 then
         SplitChunk h align_padding;;
         c ← ChunkFromHandle h;
         InsertFreeChunkIntoBin h;;
         h' ← lift (match next c with Some n => Ok n | None => Fail Undefined end);
         RemoveFreeChunkFromBin h';;
         mret h'
       else mret h);
  c ← ChunkFromHandle h;
  a ← get;
  (if (size c >=? wrap_u64 (rounded_bytes * 2))
      || (wrap_u64 (size c - rounded_bytes)
          >=? wrap_u64 (max_internal_fragmentation_bytes a))
   then SplitChunk h rounded_bytes else mret tt);;
  mark_used h num_bytes.

(** The inner loop, over the free chunks of bin [b]. *)
Fixpoint find_in_bin (b : nat) (l : list ChunkHandle)
    (rounded_bytes num_bytes alignment freed_before : Z) : M (option Z) :=
  match l with
  | [] => mret None
  | h :: l' =>
      c ← ChunkFromHandle h;
      if (freed_before >? 0) && (freed_before <? freed_at_count c)
      then find_in_bin b l' rounded_bytes num_bytes alignment freed_before
      else
        let align_padding := align_padding_for alignment (ptr c) in
        if size c >=? wrap_u64 (rounded_bytes + align_padding)
        then
          p ← take_chunk b h align_padding rounded_bytes num_bytes;
          mret (Some p)
        else find_in_bin b l' rounded_bytes num_bytes alignment freed_before
  end.

(** The outer loop: [n] bins are left, starting at [bin_num]. *)
Fixpoint find_from_bin (n bin_num : nat)
    (rounded_bytes num_bytes alignment freed_before : Z) : M (option Z) :=
  match n with
  | O => mret None
  | S n' =>
      l ← bin_at bin_num;
      r ← find_in_bin bin_num l rounded_bytes num_bytes alignment freed_before;
      match r with
      | Some p => mret (Some p)
      | None =>
          find_from_bin n' (S bin_num) rounded_bytes num_bytes alignment freed_before
      end
  end.

Definition FindChunkPtr (bin_num : nat)
    (rounded_bytes num_bytes alignment freed_before : Z) : M (option Z) :=
  find_from_bin (kNumBins - bin_num) bin_num rounded_bytes num_bytes alignment
    freed_before.

(** ** Acquiring memory from the sub-allocator *)

(** [bytes * kBackpedalFactor] in single precision, truncated to [size_t]. *)
Definition kBackpedalFactor : spec_float := S754_finite false 15099494 (-24).

Definition float_trunc (f : spec_float) : Z :=
  match f with
  | S754_finite false m e => Z.shiftl (Z.pos m) e
  | _ => 0
  end.

Definition backpedal (bytes : Z) : Z :=
  RoundedBytes
    (float_trunc (SFmul 24 128 (binary_normalize 24 128 bytes 0 false)
                    kBackpedalFactor)).

Definition sub_Alloc (alignment bytes : Z) : M (option (Z * Z)) := λ a,
  let '(r, s) := SubAlloc (sub a) alignment bytes in Ok (r, with_sub s a).

(** [while (rounded_bytes > curr_region_allocation_bytes_)
     curr_region_allocation_bytes_ *= 2;] with whether it ran at all. *)
Fixpoint grow_region_bytes (fuel : nat) (rounded_bytes curr : Z) : res (Z * bool) :=
  if rounded_bytes >? curr then
    match fuel with
    | O => Fail NoFuel
    | S fuel' =>
        '(c, _) ← grow_region_bytes fuel' rounded_bytes (wrap_u64 (curr * 2));
        Ok (c, true)
    end
  else Ok (curr, false).

(** The loop that asks for less after [Alloc] returned [nullptr]; [None] is its
    [return false]. *)
Fixpoint backpedal_loop (fuel : nat) (alignment rounded_bytes bytes : Z)
    : M (option (Z * Z)) :=
  match fuel with
  | O => lift (Fail NoFuel)
  | S fuel' =>
      let bytes := backpedal bytes in
      if bytes <? rounded_bytes then mret None
      else
        r ← sub_Alloc alignment bytes;
        match r with
        | Some m => mret (Some m)
        | None => backpedal_loop fuel' alignment rounded_bytes bytes
        end
  end.

(** Walks [next] from [h] to the last chunk. *)
Fixpoint last_chunk (fuel : nat) (h : ChunkHandle) : M ChunkHandle :=
  match fuel with
  | O => lift (Fail NoFuel)
  | S fuel' =>
      c ← ChunkFromHandle h;
      match next c with
      | Some n => last_chunk fuel' n
      | None => mret h
      end
  end.

Definition stats_pool (d : Z) (s : Stats) : Stats :=
  let p := wrap_s64 (pool_bytes s + d) in
  MkStats (num_allocs s) (bytes_in_use s) (peak_bytes_in_use s)
    (largest_alloc_size s) p (Z.max p (peak_pool_bytes s)).

(** The part of [Extend] that creates the chunk of the new memory, and links it
    behind the last chunk of the region that was extended. *)
Definition link_memory (fuel : nat) (mem_addr bytes_received : Z)
    (maybe_extended_region : option nat) : M ChunkHandle :=
  h ← AllocateChunk;
  update_chunk h (λ c : Chunk, set_freed_at_count 0 (set_next None (set_prev None
    (set_allocation_id (-1) (set_size bytes_received (set_ptr mem_addr c))))));;
  rm_set_handle mem_addr (Some h);;
  match maybe_extended_region with
  | Some i =>
      rs ← gets regions;
      r ← lift (at_res rs i);
      oprev ← lift (region_get_handle r (r_ptr r));
      prev ← lift (match oprev with Some p => Ok p | None => Fail Undefined end);
      prev ← last_chunk fuel prev;
      update_chunk h (set_prev (Some prev));;
      update_chunk prev (set_next (Some h))
  | None => mret tt
  end;;
  mret h.

(** The part of [Extend] after the sub-allocator delivered
    [bytes_received] bytes at [mem_addr]. *)
Definition add_memory (fuel : nat) (mem_addr bytes_received : Z) : M unit :=
  check (Z.land mem_addr (kMinAllocationSize - 1) =? 0);;
  modify (λ a, with_stats (stats_pool bytes_received (stats a)) a);;
  rs ← gets regions;
  let '(rs', maybe_extended_region) :=
    if SupportsCoalescing then AddOrExtendAllocationRegion rs mem_addr bytes_received
    else (AddAllocationRegion rs mem_addr bytes_received, None) in
  modify (with_regions rs');;
  h ← link_memory fuel mem_addr bytes_received maybe_extended_region;
  h' ← TryToCoalesce h false;
  InsertFreeChunkIntoBin h'.

(** [fuel] bounds the three loops: doubling, backpedalling, walking a region. *)
Definition Extend (fuel : nat) (alignment rounded_bytes : Z) : M bool :=
  a ← get;
  let available_bytes := wrap_u64 (memory_limit a - pool_bytes (stats a)) in
  let available_bytes :=
    available_bytes / kMinAllocationSize * kMinAllocationSize in
  if rounded_bytes >? available_bytes then mret false
  else
    '(curr, increased_allocation) ←
      lift (grow_region_bytes fuel rounded_bytes (curr_region_allocation_bytes a));
    modify (with_curr_region_allocation_bytes curr);;
    let bytes := Z.min curr available_bytes in
    r ← sub_Alloc alignment bytes;
    r ← match r with
        | Some m => mret (Some m)
        | None => backpedal_loop fuel alignment rounded_bytes bytes
        end;
    match r with
    | None => mret false
    | Some (mem_addr, bytes_received) =>
        (if (increased_allocation : bool) then mret tt
         else modify (with_curr_region_allocation_bytes (wrap_u64 (curr * 2))));;
        add_memory fuel mem_addr bytes_received;;
        mret true
    end.

(** ** Timestamped chunks *)

(** The first loop of [MergeTimestampedChunks]: the addresses to merge and the
    handles to keep waiting, in order. *)
Fixpoint sort_timestamped (required_bytes : Z) (l : list ChunkHandle)
    (to_merge : list Z) (new_ts_queue : list ChunkHandle)
    : M (list Z * list ChunkHandle) :=
  match l with
  | [] => mret (to_merge, new_ts_queue)
  | h0 :: l' =>
      c ← ChunkFromHandle h0;
      oh ← rm_get_handle (ptr c);
      match oh with
      | None => sort_timestamped required_bytes l' to_merge new_ts_queue
      | Some h =>
          if in_use c || bool_decide (bin_num c = None)
          then sort_timestamped required_bytes l' to_merge new_ts_queue
          else if freed_at_count c =? 0
          then sort_timestamped required_bytes l' (to_merge ++ [ptr c]) new_ts_queue
          else
            frontier ← gets safe_frontier;
            if freed_at_count c <? frontier then
              update_chunk h0 (set_freed_at_count 0);;
              sort_timestamped required_bytes l' (to_merge ++ [ptr c]) new_ts_queue
            else if required_bytes >? 0 then
              sort_timestamped required_bytes l' (to_merge ++ [ptr c]) new_ts_queue
            else
              sort_timestamped required_bytes l' to_merge (new_ts_queue ++ [h])
      end
  end.

Definition push_timestamped (h : ChunkHandle) : M unit :=
  modify (λ a, with_timestamped_chunks (timestamped_chunks a ++ [h]) a).

(** The second loop. *)
Fixpoint merge_timestamped (required_bytes : Z) (to_merge : list Z)
    (satisfied : bool) : M bool :=
  match to_merge with
  | [] => mret satisfied
  | p :: to_merge' =>
      oh ← rm_get_handle p;
      match oh with
      | None => merge_timestamped required_bytes to_merge' satisfied
      | Some h =>
          if (required_bytes =? 0) || negb satisfied then
            RemoveFreeChunkFromBin h;;
            new_h ← TryToCoalesce h (required_bytes >? 0);
            InsertFreeChunkIntoBin new_h;;
            if required_bytes >? 0 then
              c ← ChunkFromHandle new_h;
              (if negb (Nat.eqb new_h h) && (freed_at_count c >? 0)
               then push_timestamped new_h else mret tt);;
              merge_timestamped required_bytes to_merge'
                (satisfied || (size c >=? required_bytes))
            else merge_timestamped required_bytes to_merge' satisfied
          else
            push_timestamped h;;
            merge_timestamped required_bytes to_merge' satisfied
      end
  end.

Definition MergeTimestampedChunks (required_bytes : Z) : M bool :=
  l ← gets timestamped_chunks;
  modify (with_timestamped_chunks []);;
  '(to_merge, new_ts_queue) ← sort_timestamped required_bytes l [] [];
  modify (with_timestamped_chunks new_ts_queue);;
  merge_timestamped required_bytes to_merge (required_bytes =? 0).

Definition SetSafeFrontier (count : Z) : M unit :=
  modify (λ a, if count >? safe_frontier a then with_safe_frontier count a else a).

(** ** Garbage collection of free regions *)

(** Whether some chunk from [h] on is in use. *)
Fixpoint any_use_from (fuel : nat) (oh : option ChunkHandle) : M bool :=
  match oh with
  | None => mret false
  | Some h =>
      match fuel with
      | O => lift (Fail NoFuel)
      | S fuel' =>
          c ← ChunkFromHandle h;
          if in_use c then mret true else any_use_from fuel' (next c)
      end
  end.

Fixpoint free_regions (fuel : nat) (rs : list AllocationRegion)
    (ptrs : list Z) (total : Z) : M (list Z * Z) :=
  match rs with
  | [] => mret (ptrs, total)
  | r :: rs' =>
      oh ← rm_get_handle (r_ptr r);
      any_use ← any_use_from fuel oh;
      if any_use : bool then free_regions fuel rs' ptrs total
      else free_regions fuel rs' (ptrs ++ [r_ptr r])
             (wrap_u64 (total + r_memory_size r))
  end.

(** Unbins and deletes the chunks of a region, from [oh] on. *)
Fixpoint delete_chunks_from (fuel : nat) (oh : option ChunkHandle) : M unit :=
  match oh with
  | None => mret tt
  | Some h =>
      match fuel with
      | O => lift (Fail NoFuel)
      | S fuel' =>
          c ← ChunkFromHandle h;
          (if bool_decide (bin_num c ≠ None) then RemoveFreeChunkFromBin h
           else mret tt);;
          c ← ChunkFromHandle h;
          DeleteChunk h;;
          delete_chunks_from fuel' (next c)
      end
  end.

(** The iterator [it] is the index [i]; [n] regions are left to visit. *)
Fixpoint deallocate_regions_loop (fuel n i : nat) (region_ptrs : list Z) : M unit :=
  match n with
  | O => mret tt
  | S n' =>
      rs ← gets regions;
      r ← lift (at_res rs i);
      if bool_decide (r_ptr r ∉ region_ptrs)
      then deallocate_regions_loop fuel n' (S i) region_ptrs
      else
        oh ← rm_get_handle (r_ptr r);
        delete_chunks_from fuel oh;;
        modify (λ a, with_sub (SubFree (sub a) (r_ptr r) (r_memory_size r)) a);;
        modify (λ a, with_stats
          (let s := stats a in
           MkStats (num_allocs s) (bytes_in_use s) (peak_bytes_in_use s)
             (largest_alloc_size s) (wrap_s64 (pool_bytes s - r_memory_size r))
             (peak_pool_bytes s)) a);;
        modify (λ a, with_regions (delete i (regions a)) a);;
        deallocate_regions_loop fuel n' i region_ptrs
  end.

Definition DeallocateRegions (fuel : nat) (region_ptrs : list Z) : M unit :=
  rs ← gets regions;
  deallocate_regions_loop fuel (length rs) 0 region_ptrs.

Definition DeallocateFreeRegions (fuel : nat) (rounded_bytes : Z) : M bool :=
  a ← get;
  if negb (garbage_collection (opts a)) then mret false
  else
    '(free_region_ptrs, total_free_bytes) ← free_regions fuel (regions a) [] 0;
    if total_free_bytes =? 0 then mret false
    else
      let available_bytes :=
        wrap_u64 (memory_limit a - pool_bytes (stats a) + total_free_bytes) in
      if rounded_bytes >? available_bytes then mret false
      else DeallocateRegions fuel free_region_ptrs;; mret true.

(** ** Allocation *)

(** The chunk read that [AddTraceMe] performs for a returned pointer. *)
Definition AddTraceMe (p : Z) : M unit :=
  oh ← rm_get_handle p;
  h ← lift (match oh with Some h => Ok h | None => Fail Undefined end);
  ChunkFromHandle h;; mret tt.

Definition traced (r : option Z) : M (option Z) :=
  match r with Some p => AddTraceMe p;; mret (Some p) | None => mret None end.

Definition AllocateRawInternal (fuel : nat) (alignment num_bytes freed_before : Z)
    : M (option Z) :=
  if num_bytes =? 0 then mret None
  else
    let rounded_bytes := RoundedBytes num_bytes in
    let alignment := Z.max alignment kMinAllocationSize in
    let bin_num := BinNumForSize rounded_bytes in
    let find :=
      r ← FindChunkPtr bin_num rounded_bytes num_bytes alignment freed_before;
      traced r in
    ts ← gets timestamped_chunks;
    (if bool_decide (ts ≠ []) then MergeTimestampedChunks 0;; mret tt else mret tt);;
    r ← find;
    match r with
    | Some p => mret (Some p)
    | None =>
        extended ← Extend fuel alignment rounded_bytes;
        r ← (if extended : bool then find else mret None);
        match r with
        | Some p => mret (Some p)
        | None =>
            ts ← gets timestamped_chunks;
            r ← (if (freed_before =? 0) && bool_decide (ts ≠ []) then
                   satisfied ← MergeTimestampedChunks rounded_bytes;
                   if satisfied : bool then find else mret None
                 else mret None);
            match r with
            | Some p => mret (Some p)
            | None =>
                freed ← DeallocateFreeRegions fuel rounded_bytes;
                if freed : bool then
                  extended ← Extend fuel alignment rounded_bytes;
                  if extended : bool then find else mret None
                else mret None
            end
        end
    end.

(** ** Queries and statistics *)

Definition chunk_of_ptr (p : Z) : M Chunk :=
  oh ← rm_get_handle p;
  h ← lift (match oh with Some h => Ok h | None => Fail CheckFailed end);
  ChunkFromHandle h.

Definition RequestedSize (p : Z) : M Z :=
  check (negb (p =? 0));; c ← chunk_of_ptr p; mret (requested_size c).
Definition AllocatedSize (p : Z) : M Z := c ← chunk_of_ptr p; mret (size c).
Definition AllocationId (p : Z) : M Z := c ← chunk_of_ptr p; mret (allocation_id c).

Definition ClearStats : M bool :=
  modify (λ a, with_stats
    (let s := stats a in
     MkStats 0 (bytes_in_use s) (bytes_in_use s) 0 (pool_bytes s)
       (peak_pool_bytes s)) a);;
  mret true.

(** Bins from the largest down; the last chunk of a bin is its largest. *)
Fixpoint largest_in (cs : list Chunk) (bs : list (list ChunkHandle)) : res Z :=
  match bs with
  | [] => Ok 0
  | l :: bs' =>
      match last l with
      | Some h => size <$> at_res cs h
      | None => largest_in cs bs'
      end
  end.

Definition LargestFreeChunk : M Z :=
  a ← get; lift (largest_in (chunks a) (reverse (bins a))).

(** The constructor, over a sub-allocator in state [s]. *)
Definition NewBFCAllocator (s : sub_state) (total_memory : Z) (o : Options)
    (counter : option Z) : Allocator :=
  MkAllocator _ o total_memory
    (if allow_growth o then RoundedBytes (Z.min total_memory (Z.shiftl 2 20))
     else RoundedBytes total_memory)
    s [] [] None (replicate kNumBins []) 1 (MkStats 0 0 0 0 0 0) counter [] 0.

End Ops.
End BfcOps.
