(* ===== verification/BfcInv.v ===== *)
(** * The invariant of the best-fit-with-coalescing allocator

    A well-formedness invariant of the allocator state, in three parts that
    depend on different fields: the geometry of the live chunks inside the
    regions, the list of recycled chunk records, and the bins.  [L] is the set
    of live handles and [fl] the recycled ones. *)
From S2P Require Import Prelude BfcState.

Module BfcInv.
Import Bfc.

(** ** Updates of the chunk vector *)

Lemma lookup_upd (cs : list Chunk) h c x j :
  cs !! h = Some c → <[h := x]> cs !! j = if decide (h = j) then Some x else cs !! j.
Proof.
  intros H. destruct (decide (h = j)) as [<- |].
  - apply list_lookup_insert_eq. by eapply lookup_lt_Some.
  - by apply list_lookup_insert_ne.
Qed.

Lemma lookup_upd_eq (cs : list Chunk) h c x :
  cs !! h = Some c → <[h := x]> cs !! h = Some x.
Proof. intros H. rewrite (lookup_upd _ _ _ _ _ H). by rewrite decide_True. Qed.

Lemma lookup_upd_ne (cs : list Chunk) h x j c :
  h ≠ j → cs !! j = Some c → <[h := x]> cs !! j = Some c.
Proof. intros H <-. by apply list_lookup_insert_ne. Qed.

(** ** Regions *)

Definition region_ok (r : AllocationRegion) : Prop :=
  0 < r_ptr r ∧ (256 | r_ptr r) ∧ 0 < r_memory_size r ∧ (256 | r_memory_size r) ∧
  r_end_ptr r < uint64_size ∧
  Z.of_nat (length (r_handles r)) = r_memory_size r / 256.

Definition regions_ok (rs : list AllocationRegion) : Prop :=
  (∀ i r, rs !! i = Some r → region_ok r) ∧
  (∀ i j r1 r2, (i < j)%nat → rs !! i = Some r1 → rs !! j = Some r2 →
     r_end_ptr r1 ≤ r_ptr r2).

(** The spans of memory the regions occupy; unchanged by [set_handle]. *)
Definition spans (rs : list AllocationRegion) : list (Z * Z) :=
  (λ r, (r_ptr r, r_end_ptr r)) <$> rs.

Definition in_span (s : Z * Z) (p sz : Z) : Prop := s.1 ≤ p ∧ p + sz ≤ s.2.

(** Addresses the region manager resolves. *)
Definition covered (sp : list (Z * Z)) (p : Z) : Prop :=
  ∃ s, s ∈ sp ∧ s.1 ≤ p < s.2.

Lemma spans_elem rs s :
  s ∈ spans rs ↔ ∃ i r, rs !! i = Some r ∧ s = (r_ptr r, r_end_ptr r).
Proof.
  unfold spans. rewrite list_elem_of_fmap. split.
  - intros (r & -> & [i Hi]%list_elem_of_lookup). eauto.
  - intros (i & r & Hi & ->). exists r. split; [done |].
    apply list_elem_of_lookup. eauto.
Qed.

Lemma upper_bound_spec rs i r p :
  regions_ok rs → rs !! i = Some r → r_ptr r ≤ p < r_end_ptr r →
  upper_bound rs p = i.
Proof.
  revert i. induction rs as [| r0 rs IH]; intros i [Hok Hs] Hi Hp; [done |].
  simpl. destruct i as [| i]; simpl in Hi.
  - injection Hi as ->. destruct (Z.ltb_spec p (r_end_ptr r)); [done | lia].
  - pose proof (Hs 0%nat (S i) r0 r ltac:(lia) eq_refl Hi).
    destruct (Z.ltb_spec p (r_end_ptr r0)); [lia |].
    f_equal. apply IH; [split | done | done].
    + intros j r' Hj. apply (Hok (S j)). done.
    + intros j k r1 r2 Hjk Hj Hk. apply (Hs (S j) (S k)); [lia | done | done].
Qed.

Lemma RegionFor_spec rs i r p :
  regions_ok rs → rs !! i = Some r → r_ptr r ≤ p < r_end_ptr r →
  RegionFor rs p = Ok (i, r).
Proof.
  intros Hok Hi Hp. unfold RegionFor. by rewrite (upper_bound_spec rs i r), Hi.
Qed.

Lemma IndexFor_spec r p :
  region_ok r → r_ptr r ≤ p < r_end_ptr r →
  IndexFor r p = Z.to_nat ((p - r_ptr r) / 256).
Proof.
  intros (? & ? & ? & ? & ? & ?) Hp. unfold IndexFor, r_end_ptr in *.
  rewrite wrap_u64_id by int_lia. by rewrite Z.shiftr_div_pow2.
Qed.

Lemma IndexFor_lt r p :
  region_ok r → r_ptr r ≤ p < r_end_ptr r → (IndexFor r p < length (r_handles r))%nat.
Proof.
  intros Hr Hp. rewrite IndexFor_spec by done.
  destruct Hr as (? & ? & ? & [k Hk] & ? & Hl). unfold r_end_ptr in *.
  assert ((p - r_ptr r) / 256 < r_memory_size r / 256);
    [| apply Nat2Z.inj_lt; rewrite Z2Nat.id, Hl; [done | apply Z.div_pos; lia]].
  rewrite Hk, Z.div_mul by lia. apply Z.div_lt_upper_bound; lia.
Qed.

(** Distinct aligned addresses have distinct slots. *)
Lemma IndexFor_inj r p q :
  region_ok r → r_ptr r ≤ p < r_end_ptr r → r_ptr r ≤ q < r_end_ptr r →
  (256 | p) → (256 | q) → IndexFor r p = IndexFor r q → p = q.
Proof.
  intros Hr Hp Hq [a ->] [b ->]. rewrite !IndexFor_spec by done.
  destruct Hr as (? & [c Hc] & _). rewrite Hc in *. intros E.
  replace (a * 256 - c * 256) with ((a - c) * 256) in E by lia.
  replace (b * 256 - c * 256) with ((b - c) * 256) in E by lia.
  rewrite !Z.div_mul in E by lia. lia.
Qed.

(** [set_handle] at a covered aligned address succeeds and changes what
    [get_handle] answers there and nowhere else. *)
Lemma set_handle_spec rs p o :
  regions_ok rs → covered (spans rs) p → (256 | p) →
  ∃ rs', set_handle rs p o = Ok rs' ∧ spans rs' = spans rs ∧ regions_ok rs' ∧
    get_handle rs' p = Ok o ∧
    (∀ q, covered (spans rs) q → (256 | q) → q ≠ p →
       get_handle rs' q = get_handle rs q).
Proof.
  intros Hok (s & (i & r & Hi & ->)%spans_elem & Hp) Ha. simpl in Hp.
  pose proof (proj1 Hok _ _ Hi) as Hr.
  unfold set_handle. rewrite (RegionFor_spec rs i r) by done. simpl.
  unfold region_set_handle. rewrite decide_True by (by apply IndexFor_lt). simpl.
  set (r' := MkRegion (r_ptr r) (r_memory_size r) (<[IndexFor r p:=o]> (r_handles r))).
  assert (Hlt : (i < length rs)%nat) by (by eapply lookup_lt_Some).
  assert (Hsp : spans (<[i:=r']> rs) = spans rs).
  { unfold spans. rewrite list_fmap_insert. apply list_insert_id.
    by rewrite list_lookup_fmap, Hi. }
  assert (Hr' : region_ok r').
  { destruct Hr as (? & ? & ? & ? & ? & Hl). unfold region_ok; simpl.
    by rewrite length_insert. }
  assert (Hok' : regions_ok (<[i:=r']> rs)).
  { assert (Hback : ∀ j x, <[i:=r']> rs !! j = Some x →
      ∃ y, rs !! j = Some y ∧ r_ptr y = r_ptr x ∧ r_end_ptr y = r_end_ptr x ∧
           (region_ok y → region_ok x)).
    { intros j x [(-> & <- & _) | [? ?]]%list_lookup_insert_Some; eauto 10. }
    split.
    - intros j x (y & Hy & _ & _ & Hyx)%Hback. by apply Hyx, (proj1 Hok j).
    - intros j k x1 x2 Hjk (y1 & Hy1 & _ & <- & _)%Hback (y2 & Hy2 & <- & _ & _)%Hback.
      by apply (proj2 Hok j k). }
  eexists. split; [done |]. split; [done |]. split; [done |].
  assert (Hi' : <[i:=r']> rs !! i = Some r') by (by apply list_lookup_insert_eq).
  split.
  - unfold get_handle. rewrite (RegionFor_spec _ i r') by done. simpl.
    unfold region_get_handle, at_res. simpl.
    rewrite list_lookup_insert_eq; [done |]. by apply IndexFor_lt.
  - intros q (s & (j & rj & Hj & ->)%spans_elem & Hq) Hqa Hne. simpl in Hq.
    unfold get_handle. rewrite (RegionFor_spec rs j rj) by done.
    destruct (decide (i = j)) as [<- | Hij].
    + assert (rj = r) as -> by congruence.
      rewrite (RegionFor_spec _ i r') by done. simpl.
      unfold region_get_handle, at_res. simpl.
      rewrite list_lookup_insert_ne; [done |].
      intros E. apply Hne. symmetry. by apply (IndexFor_inj r).
    + rewrite (RegionFor_spec _ j rj); [done | done | | done].
      by rewrite list_lookup_insert_ne.
Qed.

(** Two spans that share an address are the same. *)
Lemma spans_unique rs s1 s2 p :
  regions_ok rs → s1 ∈ spans rs → s2 ∈ spans rs →
  s1.1 ≤ p < s1.2 → s2.1 ≤ p < s2.2 → s1 = s2.
Proof.
  intros Hok (i & r1 & Hi & ->)%spans_elem (j & r2 & Hj & ->)%spans_elem H1 H2.
  simpl in *.
  pose proof (upper_bound_spec rs i r1 p Hok Hi H1).
  pose proof (upper_bound_spec rs j r2 p Hok Hj H2).
  assert (i = j) as <- by congruence. congruence.
Qed.

(** ** Geometry of the live chunks *)

Record geom (cs : list Chunk) (rs : list AllocationRegion) (L : gset ChunkHandle)
    : Prop := Geom {
  g_live h : h ∈ L → is_Some (cs !! h);
  g_chunk h c : h ∈ L → cs !! h = Some c →
    0 < size c ∧ (256 | size c) ∧ (256 | ptr c);
  g_where h c : h ∈ L → cs !! h = Some c →
    get_handle rs (ptr c) = Ok (Some h) ∧
    ∃ s, s ∈ spans rs ∧ in_span s (ptr c) (size c);
  g_handle p h : covered (spans rs) p → (256 | p) →
    get_handle rs p = Ok (Some h) → h ∈ L ∧ ∃ c, cs !! h = Some c ∧ ptr c = p;
  g_disj h1 h2 c1 c2 : h1 ∈ L → h2 ∈ L → h1 ≠ h2 →
    cs !! h1 = Some c1 → cs !! h2 = Some c2 →
    ptr c1 + size c1 ≤ ptr c2 ∨ ptr c2 + size c2 ≤ ptr c1;
  g_next h c n : h ∈ L → cs !! h = Some c → next c = Some n →
    n ∈ L ∧ ∃ cn, cs !! n = Some cn ∧ prev cn = Some h ∧
      ptr cn = ptr c + size c ∧
      (∀ s, s ∈ spans rs → in_span s (ptr c) (size c) → in_span s (ptr cn) (size cn));
  g_prev h c q : h ∈ L → cs !! h = Some c → prev c = Some q →
    q ∈ L ∧ ∃ cq, cs !! q = Some cq ∧ next cq = Some h;
  g_last h c s : h ∈ L → cs !! h = Some c → next c = None →
    s ∈ spans rs → in_span s (ptr c) (size c) → ptr c + size c = s.2;
  g_first h c s : h ∈ L → cs !! h = Some c → prev c = None →
    s ∈ spans rs → in_span s (ptr c) (size c) → ptr c = s.1;
  g_start s : s ∈ spans rs → ∃ h, get_handle rs s.1 = Ok (Some h)
}.

(** What the geometry sees of a chunk. *)
Definition geo (c : Chunk) : Z * Z * option ChunkHandle * option ChunkHandle :=
  (size c, ptr c, prev c, next c).

Lemma geo_eq c c' :
  geo c = geo c' →
  size c = size c' ∧ ptr c = ptr c' ∧ prev c = prev c' ∧ next c = next c'.
Proof. unfold geo. intros [= ? ? ? ?]. done. Qed.

(** The geometry does not depend on the other fields of the chunks. *)
Lemma geom_ext cs cs' rs L :
  (∀ h, h ∈ L → geo <$> cs' !! h = geo <$> cs !! h) →
  geom cs rs L → geom cs' rs L.
Proof.
  intros E G.
  assert (Hf : ∀ h c, h ∈ L → cs' !! h = Some c →
             ∃ d, cs !! h = Some d ∧ geo c = geo d).
  { intros h c Hh Hc. by apply (fmap_agree _ (cs' !! h)); [apply E |]. }
  assert (Hb : ∀ h c, h ∈ L → cs !! h = Some c →
             ∃ d, cs' !! h = Some d ∧ geo c = geo d).
  { intros h c Hh Hc. by apply (fmap_agree _ (cs !! h)); [symmetry; apply E |]. }
  split.
  - intros h Hh. destruct (g_live _ _ _ G h Hh) as [c Hc].
    destruct (Hb h c Hh Hc) as (d & ? & _). eauto.
  - intros h c Hh (d & Hd & (E1 & E2 & E3 & E4)%geo_eq)%Hf; [| done].
    rewrite E1, E2. by apply (g_chunk _ _ _ G h).
  - intros h c Hh (d & Hd & (E1 & E2 & E3 & E4)%geo_eq)%Hf; [| done].
    rewrite E1, E2. by apply (g_where _ _ _ G).
  - intros p h Hp Ha Hg. destruct (g_handle _ _ _ G p h Hp Ha Hg) as (Hh & c & Hc & <-).
    split; [done |]. destruct (Hb h c Hh Hc) as (d & ? & (_ & ? & _)%geo_eq). eauto.
  - intros h1 h2 c1 c2 H1 H2 Hne (d1 & Hd1 & (E1 & E2 & _)%geo_eq)%Hf
      (d2 & Hd2 & (E3 & E4 & _)%geo_eq)%Hf; [| done..].
    rewrite E1, E2, E3, E4. by apply (g_disj _ _ _ G h1 h2).
  - intros h c n Hh (d & Hd & (E1 & E2 & E3 & E4)%geo_eq)%Hf Hn; [| done].
    rewrite E4 in Hn. rewrite E1, E2.
    destruct (g_next _ _ _ G h d n Hh Hd Hn) as (? & cn & Hcn & Hp & Hq & Hs).
    split; [done |]. destruct (Hb n cn) as (dn & ? & (F1 & F2 & F3 & _)%geo_eq); [done..|].
    exists dn. rewrite <- F1, <- F2, <- F3. done.
  - intros h c q Hh (d & Hd & (E1 & E2 & E3 & E4)%geo_eq)%Hf Hq; [| done].
    rewrite E3 in Hq.
    destruct (g_prev _ _ _ G h d q Hh Hd Hq) as (? & cq & Hcq & Hp).
    split; [done |]. destruct (Hb q cq) as (dq & ? & (_ & _ & _ & F4)%geo_eq); [done..|].
    exists dq. rewrite <- F4. done.
  - intros h c s Hh (d & Hd & (E1 & E2 & E3 & E4)%geo_eq)%Hf; [| done].
    rewrite E1, E2, E4. by apply (g_last _ _ _ G h).
  - intros h c s Hh (d & Hd & (E1 & E2 & E3 & E4)%geo_eq)%Hf; [| done].
    rewrite E1, E2, E3. by apply (g_first _ _ _ G h).
  - apply (g_start _ _ _ G).
Qed.

(** ** Recycled chunk records *)

Fixpoint flist (cs : list Chunk) (o : option ChunkHandle) (fl : list ChunkHandle)
    : Prop :=
  match fl with
  | [] => o = None
  | h :: fl' =>
      o = Some h ∧
      ∃ c, cs !! h = Some c ∧ bin_num c = None ∧ allocation_id c = -1 ∧
           flist cs (next c) fl'
  end.

Lemma flist_ext cs cs' o fl :
  (∀ h, h ∈ fl → cs' !! h = cs !! h) → flist cs o fl → flist cs' o fl.
Proof.
  revert o. induction fl as [| h fl IH]; intros o E; simpl; [done |].
  intros (-> & c & Hc & Hb & Ha & Hr). split; [done |]. exists c.
  rewrite E by set_solver. split_and!; [done.. |]. apply IH; [set_solver | done].
Qed.

Lemma flist_lookup cs o fl h :
  flist cs o fl → h ∈ fl → ∃ c, cs !! h = Some c.
Proof.
  revert o. induction fl as [| x fl IH]; intros o; simpl; [set_solver |].
  intros (_ & c & Hc & _ & _ & Hr) [-> | Hh]%elem_of_cons; eauto.
Qed.

(** ** Bins *)

Record bins_ok (cs : list Chunk) (bs : list (list ChunkHandle))
    (L : gset ChunkHandle) : Prop := BinsOk {
  b_len : length bs = kNumBins;
  b_mem b l h : bs !! b = Some l →
    (h ∈ l ↔ h ∈ L ∧ ∃ c, cs !! h = Some c ∧ bin_num c = Some b);
  b_free h c b : h ∈ L → cs !! h = Some c → bin_num c = Some b →
    in_use c = false ∧ b = BinNumForSize (size c);
  b_sorted b l : bs !! b = Some l →
    StronglySorted (λ x y, chunk_lt cs x y = true) l
}.

(** What the bins see of a chunk. *)
Definition binned (c : Chunk) : Z * Z * option nat * bool :=
  (size c, ptr c, bin_num c, in_use c).

Lemma binned_eq c c' :
  binned c = binned c' →
  size c = size c' ∧ ptr c = ptr c' ∧ bin_num c = bin_num c' ∧ in_use c = in_use c'.
Proof. unfold binned. intros [= ? ? ? ?]. done. Qed.

Lemma chunk_lt_ext cs cs' x y :
  (λ c, (size c, ptr c)) <$> cs' !! x = (λ c, (size c, ptr c)) <$> cs !! x →
  (λ c, (size c, ptr c)) <$> cs' !! y = (λ c, (size c, ptr c)) <$> cs !! y →
  chunk_lt cs' x y = chunk_lt cs x y.
Proof.
  unfold chunk_lt. destruct (cs' !! x), (cs !! x); try done;
  destruct (cs' !! y), (cs !! y); try done.
  simpl. intros [= E1 E2] [= E3 E4]. by rewrite E1, E2, E3, E4.
Qed.

Lemma StronglySorted_ext {A} (R R' : A → A → Prop) l :
  (∀ x y, x ∈ l → y ∈ l → R x y → R' x y) →
  StronglySorted R l → StronglySorted R' l.
Proof.
  intros E H. induction H as [| x l Hs IH Hx]; [constructor |].
  constructor; [apply IH; set_solver |].
  rewrite Forall_forall in *. intros y Hy. apply E; [set_solver.. |]. by apply Hx.
Qed.

Definition unbinned (cs : list Chunk) (j : ChunkHandle) : Prop :=
  ∃ c, cs !! j = Some c ∧ bin_num c = None.

(** Chunks may change, appear and disappear as long as those that are in a bin
    stay as the bins see them. *)
Lemma bins_ok_change cs cs' bs L L' :
  (∀ j, (j ∈ L ∧ j ∈ L' ∧ binned <$> cs' !! j = binned <$> cs !! j) ∨
        ((j ∈ L → unbinned cs j) ∧ (j ∈ L' → unbinned cs' j))) →
  bins_ok cs bs L → bins_ok cs' bs L'.
Proof.
  intros E B.
  assert (Hin : ∀ b l x, bs !! b = Some l → x ∈ l →
            x ∈ L' ∧ binned <$> cs' !! x = binned <$> cs !! x).
  { intros b l x Hl Hx. apply (b_mem _ _ _ B b l x Hl) in Hx as (Hx & c & Hc & Hn).
    destruct (E x) as [(_ & ? & ?) | [H1 _]]; [done |].
    destruct (H1 Hx) as (d & ? & ?). congruence. }
  split.
  - apply B.
  - intros b l x Hl. split.
    + intros Hx. destruct (Hin b l x Hl Hx) as [? Eb]. split; [done |].
      apply (b_mem _ _ _ B b l x Hl) in Hx as (Hx & c & Hc & Hn).
      destruct (fmap_agree _ _ (cs' !! x) c (eq_sym Eb) Hc)
        as (d & Hd & (_ & _ & E3 & _)%binned_eq).
      exists d. by rewrite <- E3.
    + intros (Hx' & d & Hd & Hn). apply (b_mem _ _ _ B b l x Hl).
      destruct (E x) as [(Hx & _ & Eb) | [_ H2]].
      * split; [done |]. destruct (fmap_agree _ _ _ d Eb Hd)
          as (c & Hc & (_ & _ & E3 & _)%binned_eq).
        exists c. by rewrite <- E3.
      * destruct (H2 Hx') as (? & ? & ?). congruence.
  - intros x d b Hx' Hd Hn. destruct (E x) as [(Hx & _ & Eb) | [_ H2]].
    + destruct (fmap_agree _ _ _ d Eb Hd) as (c & Hc & (E1 & _ & E3 & E4)%binned_eq).
      rewrite E1, E4. apply (b_free _ _ _ B x c b); congruence.
    + destruct (H2 Hx') as (? & ? & ?). congruence.
  - intros b l Hl. eapply StronglySorted_ext; [| by apply (b_sorted _ _ _ B b)].
    intros x y Hx Hy. destruct (Hin b l x Hl Hx) as [_ Ex].
    destruct (Hin b l y Hl Hy) as [_ Ey]. simpl.
    rewrite (chunk_lt_ext cs cs'); [done | |];
      (eapply fmap_coarsen; [| eassumption]);
      intros u v (E1 & E2 & _)%binned_eq; by rewrite E1, E2.
Qed.

(** ** Bins as ordered sets *)

Lemma chunk_lt_spec cs x y cx cy :
  cs !! x = Some cx → cs !! y = Some cy →
  (chunk_lt cs x y = true ↔
   size cx < size cy ∨ size cx = size cy ∧ ptr cx < ptr cy).
Proof.
  intros Hx Hy. unfold chunk_lt. rewrite Hx, Hy.
  destruct (Z.eqb_spec (size cx) (size cy)); simpl; rewrite Z.ltb_lt; lia.
Qed.

Lemma chunk_lt_false cs x y cx cy :
  cs !! x = Some cx → cs !! y = Some cy →
  (chunk_lt cs x y = false ↔
   size cy < size cx ∨ size cx = size cy ∧ ptr cy ≤ ptr cx).
Proof.
  intros Hx Hy. rewrite <- not_true_iff_false, (chunk_lt_spec _ _ _ cx cy) by done. lia.
Qed.

(** The handles of [l] denote chunks at different addresses. *)
Definition separate (cs : list Chunk) (l : list ChunkHandle) : Prop :=
  (∀ x, x ∈ l → is_Some (cs !! x)) ∧
  (∀ x y cx cy, x ∈ l → y ∈ l → cs !! x = Some cx → cs !! y = Some cy →
     ptr cx = ptr cy → x = y).

Lemma separate_sub cs l l' : (∀ x, x ∈ l' → x ∈ l) → separate cs l → separate cs l'.
Proof. intros H [S1 S2]. split; eauto. Qed.

Lemma geom_separate cs rs L l :
  geom cs rs L → (∀ x, x ∈ l → x ∈ L) → separate cs l.
Proof.
  intros G H. split.
  - intros x Hx. apply (g_live _ _ _ G). auto.
  - intros x y cx cy Hx Hy Hcx Hcy E. destruct (decide (x = y)); [done | exfalso].
    pose proof (g_chunk _ _ _ G x cx (H x Hx) Hcx).
    pose proof (g_chunk _ _ _ G y cy (H y Hy) Hcy).
    destruct (g_disj _ _ _ G x y cx cy) as [? | ?]; auto; lia.
Qed.

Lemma bin_insert_elem cs h l :
  separate cs (h :: l) → h ∉ l → ∀ x, x ∈ bin_insert cs h l ↔ x = h ∨ x ∈ l.
Proof.
  induction l as [| y l IH]; intros S Hh x; simpl; [set_solver |].
  destruct (proj1 S h) as [ch Hch]; [set_solver |].
  destruct (proj1 S y) as [cy Hcy]; [set_solver |].
  destruct (chunk_lt cs h y) eqn:E1; [set_solver |].
  destruct (chunk_lt cs y h) eqn:E2.
  - rewrite elem_of_cons, IH, elem_of_cons; [tauto | | set_solver].
    eapply separate_sub; [| done]. set_solver.
  - rewrite (chunk_lt_false _ _ _ ch cy) in E1 by done.
    rewrite (chunk_lt_false _ _ _ cy ch) in E2 by done.
    assert (h = y) by (apply (proj2 S h y ch cy); set_solver || lia). set_solver.
Qed.

Lemma bin_insert_sorted cs h l :
  separate cs (h :: l) → h ∉ l →
  StronglySorted (λ x y, chunk_lt cs x y = true) l →
  StronglySorted (λ x y, chunk_lt cs x y = true) (bin_insert cs h l).
Proof.
  induction l as [| y l IH]; intros S Hh Hs; simpl; [repeat constructor |].
  destruct (proj1 S h) as [ch Hch]; [set_solver |].
  destruct (proj1 S y) as [cy Hcy]; [set_solver |].
  inversion Hs as [| ? ? Hs' Hy]; subst. rewrite Forall_forall in Hy.
  destruct (chunk_lt cs h y) eqn:E1.
  - constructor; [done |]. rewrite Forall_forall.
    intros z [-> | Hz]%elem_of_cons; [done |].
    destruct (proj1 S z) as [cz Hcz]; [set_solver |].
    specialize (Hy z Hz).
    rewrite (chunk_lt_spec _ _ _ ch cy) in E1 by done.
    rewrite (chunk_lt_spec _ _ _ cy cz) in Hy by done.
    apply (chunk_lt_spec _ _ _ ch cz); [done.. | lia].
  - destruct (chunk_lt cs y h) eqn:E2; [| done].
    assert (Sl : separate cs (h :: l)) by (eapply separate_sub; [| done]; set_solver).
    constructor; [apply IH; [done | set_solver | done] |].
    rewrite Forall_forall. intros z Hz.
    apply bin_insert_elem in Hz as [-> | Hz]; [done | by apply Hy | done | set_solver].
Qed.

Lemma bin_erase_spec cs h l :
  separate cs l → StronglySorted (λ x y, chunk_lt cs x y = true) l → h ∈ l →
  ∃ l', bin_erase cs h l = Some l' ∧
    StronglySorted (λ x y, chunk_lt cs x y = true) l' ∧
    (∀ x, x ∈ l' ↔ x ∈ l ∧ x ≠ h).
Proof.
  induction l as [| y l IH]; intros S Hs Hh; simpl; [set_solver |].
  destruct (proj1 S h) as [ch Hch]; [set_solver |].
  destruct (proj1 S y) as [cy Hcy]; [set_solver |].
  inversion Hs as [| ? ? Hs' Hy]; subst. rewrite Forall_forall in Hy.
  destruct (decide (h = y)) as [-> | Hne].
  - assert (E : chunk_lt cs y y = false) by (apply (chunk_lt_false _ _ _ cy cy); done || lia).
    rewrite E. exists l. split; [done |]. split; [done |]. intros x.
    assert (y ∉ l).
    { intros Hin. specialize (Hy y Hin). congruence. }
    set_solver.
  - assert (Hl : h ∈ l) by set_solver. pose proof (Hy h Hl) as E. simpl in E. rewrite E.
    destruct IH as (l' & -> & Hs1 & Hm); [| done | done |].
    { eapply separate_sub; [| done]. set_solver. }
    exists (y :: l'). split; [done |]. split.
    + constructor; [done |]. rewrite Forall_forall. intros z [Hz _]%Hm. by apply Hy.
    + intros x. rewrite !elem_of_cons, Hm. naive_solver.
Qed.

Lemma StronglySorted_filter {A} (R : A → A → Prop) (P : A → Prop)
    `{∀ x, Decision (P x)} l :
  StronglySorted R l → StronglySorted R (filter P l).
Proof.
  induction 1 as [| x l Hs IH Hx]; [constructor |].
  rewrite filter_cons. case_decide; [| done].
  constructor; [done |]. rewrite Forall_forall in *.
  intros y [_ Hy]%list_elem_of_filter. by apply Hx.
Qed.

Lemma bins_lookup cs bs L b :
  bins_ok cs bs L → (b < kNumBins)%nat → ∃ l, bs !! b = Some l.
Proof. intros B Hb. apply lookup_lt_is_Some. by rewrite (b_len _ _ _ B). Qed.

Lemma BinNumForSize_lt sz : (BinNumForSize sz < kNumBins)%nat.
Proof. unfold BinNumForSize, kNumBins. lia. Qed.

(** [InsertFreeChunkIntoBin] on the bins. *)
Lemma bins_ok_insert cs bs L rs h c l :
  geom cs rs L → bins_ok cs bs L → h ∈ L → cs !! h = Some c →
  in_use c = false → bin_num c = None → bs !! BinNumForSize (size c) = Some l →
  let cs' := <[h := set_bin_num (Some (BinNumForSize (size c))) c]> cs in
  bins_ok cs' (<[BinNumForSize (size c) := bin_insert cs' h l]> bs) L.
Proof.
  intros G B Hh Hc Hu Hn Hl cs'. set (b0 := BinNumForSize (size c)) in *.
  set (c' := set_bin_num (Some b0) c) in *.
  assert (Hlk : ∀ j, cs' !! j = if decide (h = j) then Some c' else cs !! j).
  { intros j. by apply (lookup_upd _ _ c). }
  assert (G' : geom cs' rs L).
  { eapply geom_ext; [| done]. intros j Hj. rewrite Hlk.
    case_decide; [subst; by rewrite Hc | done]. }
  assert (Hhl : h ∉ l).
  { rewrite (b_mem _ _ _ B b0 l h Hl). intros (_ & d & Hd & ?). congruence. }
  assert (HlL : ∀ x, x ∈ l → x ∈ L).
  { intros x Hx. by apply (b_mem _ _ _ B b0 l x Hl) in Hx as [? _]. }
  assert (S : separate cs' (h :: l)).
  { eapply geom_separate; [done |]. set_solver. }
  assert (Hext : ∀ x y, x ≠ h → y ≠ h → chunk_lt cs' x y = chunk_lt cs x y).
  { intros x y Hx Hy. apply chunk_lt_ext; by rewrite Hlk, decide_False by done. }
  split.
  - by rewrite length_insert, (b_len _ _ _ B).
  - intros b l' x. rewrite list_lookup_insert_Some. intros [(<- & <- & _) | [Hb Hl']].
    + rewrite bin_insert_elem by done. rewrite (b_mem _ _ _ B b0 l x Hl), Hlk.
      case_decide; [subst; naive_solver |]. naive_solver.
    + rewrite (b_mem _ _ _ B b l' x Hl'), Hlk. case_decide; [subst | naive_solver].
      split; [intros (_ & d & Hd & ?); congruence |].
      intros (_ & d & [= <-] & E). simpl in E. congruence.
  - intros x d b Hx. rewrite Hlk. case_decide.
    + intros [= <-]. simpl. intros [= <-]. done.
    + by apply (b_free _ _ _ B x).
  - intros b l'. rewrite list_lookup_insert_Some. intros [(<- & <- & _) | [Hb Hl']].
    + apply bin_insert_sorted; [done | done |].
      eapply StronglySorted_ext; [| by apply (b_sorted _ _ _ B b0)].
      intros x y Hx Hy. rewrite Hext; [done | congruence..].
    + eapply StronglySorted_ext; [| by apply (b_sorted _ _ _ B b)].
      intros x y Hx Hy. simpl.
      assert (Hnl : ∀ z, z ∈ l' → z ≠ h).
      { intros z Hz ->. apply (b_mem _ _ _ B b l' h Hl') in Hz as (_ & d & Hd & ?).
        congruence. }
      rewrite Hext by auto. done.
Qed.

(** Taking [h] out of its bin, whichever way the list is computed. *)
Lemma bins_ok_remove cs bs L h c b l l' :
  bins_ok cs bs L → cs !! h = Some c → bin_num c = Some b → bs !! b = Some l →
  StronglySorted (λ x y, chunk_lt cs x y = true) l' →
  (∀ x, x ∈ l' ↔ x ∈ l ∧ x ≠ h) →
  bins_ok (<[h := set_bin_num None c]> cs) (<[b := l']> bs) L.
Proof.
  intros B Hc Hn Hl Hs' Hm.
  set (c' := set_bin_num None c). set (cs' := <[h := c']> cs).
  assert (Hlk : ∀ j, cs' !! j = if decide (h = j) then Some c' else cs !! j).
  { intros j. by apply (lookup_upd _ _ c). }
  assert (Hext : ∀ x y, chunk_lt cs' x y = chunk_lt cs x y).
  { intros x y. apply chunk_lt_ext; rewrite Hlk; case_decide; subst;
      by rewrite ?Hc. }
  split.
  - by rewrite length_insert, (b_len _ _ _ B).
  - intros b1 l1 x. rewrite list_lookup_insert_Some. intros [(<- & <- & _) | [Hb Hl1]].
    + rewrite Hm, (b_mem _ _ _ B b l x Hl), Hlk. case_decide; [| naive_solver].
      subst. split; [tauto |]. intros (_ & d & [= <-] & [=]).
    + rewrite (b_mem _ _ _ B b1 l1 x Hl1), Hlk. case_decide; [subst | naive_solver].
      split; [intros (_ & d & Hd & ?); congruence |]. intros (_ & d & [= <-] & [=]).
  - intros x d b1 Hx. rewrite Hlk. case_decide.
    + by intros [= <-].
    + by apply (b_free _ _ _ B x).
  - intros b1 l1. rewrite list_lookup_insert_Some. intros [(<- & <- & _) | [Hb Hl1]].
    + eapply StronglySorted_ext; [| done]. intros x y _ _. by rewrite Hext.
    + eapply StronglySorted_ext; [| by apply (b_sorted _ _ _ B b1)].
      intros x y _ _. simpl. by rewrite Hext.
Qed.

(** ** Splitting and merging, geometrically *)

Lemma in_span_covered rs s p sz :
  s ∈ spans rs → in_span s p sz → 0 < sz → covered (spans rs) p.
Proof. intros Hs [H1 H2] ?. exists s. split; [done | lia]. Qed.

Lemma live_covered cs rs L h c :
  geom cs rs L → h ∈ L → cs !! h = Some c → covered (spans rs) (ptr c).
Proof.
  intros G Hh Hc. destruct (g_where _ _ _ G h c Hh Hc) as (_ & s & Hs & Hin).
  eapply in_span_covered; [done | done |]. by apply (g_chunk _ _ _ G h c).
Qed.

(** The chunk vector after [SplitChunk h n] gave the tail of [c] to [hn]. *)
Definition split_store (cs cs' : list Chunk) (L : gset ChunkHandle)
    (h hn : ChunkHandle) (c cn : Chunk) (n : Z) : Prop :=
  size cn = size c - n ∧ ptr cn = ptr c + n ∧ prev cn = Some h ∧ next cn = next c ∧
  cs' !! hn = Some cn ∧
  (∀ j, j ∈ L → cs' !! j =
     if decide (j = h) then Some (set_next (Some hn) (set_size n c))
     else if decide (next c = Some j) then set_prev (Some hn) <$> cs !! j
     else cs !! j).

Section Split.
Context (cs cs' : list Chunk) (rs rs' : list AllocationRegion) (L : gset ChunkHandle).
Context (h hn : ChunkHandle) (c cn : Chunk) (n : Z).
Hypothesis G : geom cs rs L.
Hypothesis Hok : regions_ok rs.
Hypothesis Hh : h ∈ L.
Hypothesis Hc : cs !! h = Some c.
Hypothesis Hhn : hn ∉ L.
Hypothesis Hn : 0 < n < size c.
Hypothesis Hna : (256 | n).
Hypothesis Hset : set_handle rs (ptr c + n) (Some hn) = Ok rs'.
Hypothesis HS : split_store cs cs' L h hn c cn n.

Lemma split_ptr : covered (spans rs) (ptr c + n) ∧ (256 | ptr c + n).
Proof using G Hh Hc Hn Hna. clear -G Hh Hc Hn Hna.
  destruct (g_where _ _ _ G h c Hh Hc) as (_ & s & Hs & Hin).
  destruct (g_chunk _ _ _ G h c Hh Hc) as (? & ? & ?).
  split; [| by apply Z.divide_add_r].
  exists s. split; [done |]. destruct Hin. lia.
Qed.

Lemma split_regions :
  spans rs' = spans rs ∧ regions_ok rs' ∧
  get_handle rs' (ptr c + n) = Ok (Some hn) ∧
  (∀ q, covered (spans rs) q → (256 | q) → q ≠ ptr c + n →
     get_handle rs' q = get_handle rs q).
Proof.
  destruct split_ptr as [H1 H2].
  destruct (set_handle_spec rs (ptr c + n) (Some hn) Hok H1 H2) as (r & E & ? & ? & ? & ?).
  assert (r = rs') as -> by congruence. done.
Qed.

(** A live chunk after the split: the tail, the head, or an old one with, at
    most, another predecessor. *)
Lemma split_lookup j d :
  j ∈ {[hn]} ∪ L → cs' !! j = Some d →
  (j = hn ∧ d = cn) ∨
  (j = h ∧ d = set_next (Some hn) (set_size n c)) ∨
  (j ≠ h ∧ j ≠ hn ∧ j ∈ L ∧ ∃ d0, cs !! j = Some d0 ∧ size d = size d0 ∧
     ptr d = ptr d0 ∧ next d = next d0 ∧
     ((next c = Some j ∧ prev d = Some hn) ∨ (next c ≠ Some j ∧ prev d = prev d0))).
Proof.
  destruct HS as (S1 & S2 & S3 & S4 & S5 & S6).
  intros [->%elem_of_singleton | Hj]%elem_of_union Hd; [left; split; congruence |].
  right. rewrite S6 in Hd by done. destruct (decide (j = h)) as [-> |]; [left; naive_solver |].
  right. split; [done |]. split; [by intros -> |]. split; [done |].
  destruct (g_live _ _ _ G j Hj) as [d0 Hd0]. rewrite Hd0 in Hd.
  exists d0. split; [done |].
  destruct (decide (next c = Some j)); simpl in Hd; simplify_eq; simpl; tauto.
Qed.

(** No other chunk starts inside the one that is split. *)
Lemma split_outside j d0 :
  j ∈ L → j ≠ h → cs !! j = Some d0 →
  ptr d0 + size d0 ≤ ptr c ∨ ptr c + size c ≤ ptr d0.
Proof. intros Hj Hne Hd. destruct (g_disj _ _ _ G j h d0 c); auto. Qed.

Lemma geom_split_where j d :
  j ∈ {[hn]} ∪ L → cs' !! j = Some d →
  get_handle rs' (ptr d) = Ok (Some j) ∧
  ∃ s, s ∈ spans rs' ∧ in_span s (ptr d) (size d).
Proof.
  intros Hj Hd. destruct split_regions as (R1 & R2 & R3 & R4).
  destruct HS as (S1 & S2 & S3 & S4 & S5 & S6). rewrite R1.
  destruct (g_where _ _ _ G h c Hh Hc) as (W1 & s & Ws & Wi1 & Wi2).
  destruct (g_chunk _ _ _ G h c Hh Hc) as (? & ? & ?).
  destruct (split_lookup j d Hj Hd)
    as [[-> ->] | [[-> ->] | (Hne & Hne' & HjL & d0 & Hd0 & E1 & E2 & E3 & _)]].
  - rewrite S2. split; [done |]. exists s. split; [done |]. split; lia.
  - simpl. split.
    + rewrite R4; [done | by eapply live_covered | done | lia].
    + exists s. split; [done |]. split; simpl in *; lia.
  - destruct (g_where _ _ _ G j d0 HjL Hd0) as (V1 & s' & Vs & Vi).
    destruct (g_chunk _ _ _ G j d0 HjL Hd0) as (? & ? & ?).
    rewrite E1, E2. split; [| eauto].
    rewrite R4; [done | by eapply live_covered | done |].
    destruct (split_outside j d0 HjL Hne Hd0); lia.
Qed.

Lemma geom_split_handle p j :
  covered (spans rs') p → (256 | p) → get_handle rs' p = Ok (Some j) →
  j ∈ {[hn]} ∪ L ∧ ∃ d, cs' !! j = Some d ∧ ptr d = p.
Proof.
  intros Hp Ha Hg. destruct split_regions as (R1 & R2 & R3 & R4).
  destruct HS as (S1 & S2 & S3 & S4 & S5 & S6). rewrite R1 in Hp.
  destruct (decide (p = ptr c + n)) as [-> | Hne].
  - assert (j = hn) as -> by congruence. split; [set_solver | eauto].
  - rewrite R4 in Hg by done.
    destruct (g_handle _ _ _ G p j Hp Ha Hg) as (Hj & d & Hd & <-).
    split; [set_solver |]. rewrite S6 by done.
    case_decide; [subst; assert (d = c) as -> by congruence; eauto |].
    rewrite Hd. case_decide; simpl; eauto.
Qed.

Lemma geom_split_disj h1 h2 c1 c2 :
  h1 ∈ {[hn]} ∪ L → h2 ∈ {[hn]} ∪ L → h1 ≠ h2 →
  cs' !! h1 = Some c1 → cs' !! h2 = Some c2 →
  ptr c1 + size c1 ≤ ptr c2 ∨ ptr c2 + size c2 ≤ ptr c1.
Proof.
  intros H1 H2 Hne L1 L2. destruct HS as (S1 & S2 & _).
  destruct (split_lookup _ _ H1 L1) as
    [[-> ->] | [[-> ->] | (N1 & N1' & M1 & d1 & D1 & E1 & F1 & _)]];
  destruct (split_lookup _ _ H2 L2) as
    [[-> ->] | [[-> ->] | (N2 & N2' & M2 & d2 & D2 & E2 & F2 & _)]];
  try done; simpl;
  try (pose proof (split_outside h1 d1 M1 N1 D1));
  try (pose proof (split_outside h2 d2 M2 N2 D2)); try lia.
  rewrite E1, E2, F1, F2. by apply (g_disj _ _ _ G h1 h2).
Qed.

(** The physical successor of the split chunk, after the split. *)
Lemma split_neighbor x :
  next c = Some x →
  x ∈ L ∧ x ≠ h ∧ x ≠ hn ∧ ∃ cx, cs !! x = Some cx ∧ ptr cx = ptr c + size c ∧
    cs' !! x = Some (set_prev (Some hn) cx) ∧
    (∀ s, s ∈ spans rs → in_span s (ptr c) (size c) → in_span s (ptr cx) (size cx)).
Proof.
  intros Hx. destruct (g_next _ _ _ G h c x Hh Hc Hx) as (Hl & cx & Hcx & Hp & Hq & Hs).
  assert (x ≠ h).
  { intros ->. destruct (g_chunk _ _ _ G h c Hh Hc). assert (cx = c) by congruence.
    subst. lia. }
  split; [done |]. split; [done |]. split; [by intros -> |]. exists cx.
  split_and!; try done. destruct HS as (_ & _ & _ & _ & _ & S6).
  rewrite S6 by done. rewrite decide_False, decide_True by done. by rewrite Hcx.
Qed.

Lemma geom_split_next j d x :
  j ∈ {[hn]} ∪ L → cs' !! j = Some d → next d = Some x →
  x ∈ {[hn]} ∪ L ∧ ∃ dx, cs' !! x = Some dx ∧ prev dx = Some j ∧
    ptr dx = ptr d + size d ∧
    (∀ s, s ∈ spans rs' → in_span s (ptr d) (size d) → in_span s (ptr dx) (size dx)).
Proof.
  intros Hj Hd Hx. destruct split_regions as (R1 & R2 & R3 & R4). rewrite R1.
  destruct HS as (S1 & S2 & S3 & S4 & S5 & S6).
  destruct (g_chunk _ _ _ G h c Hh Hc) as (? & ? & ?).
  destruct (g_where _ _ _ G h c Hh Hc) as (W1 & s0 & Ws & Wi).
  assert (Hspan : ∀ s p sz, s ∈ spans rs → in_span s p sz → 0 < sz →
            ptr c ≤ p → p + sz ≤ ptr c + size c → in_span s (ptr c) (size c)).
  { intros s p sz Hs [I1 I2] ? ? ?. destruct Wi as [I3 I4].
    rewrite (spans_unique rs s s0 p) by (done || lia). by split. }
  destruct (split_lookup j d Hj Hd)
    as [[-> ->] | [[-> ->] | (Hne & Hne' & HjL & d0 & Hd0 & E1 & E2 & E3 & _)]].
  - rewrite S4 in Hx. destruct (split_neighbor x Hx) as (? & ? & ? & cx & ? & Hp & Hcx & Hs).
    split; [set_solver |]. eexists. split; [exact Hcx |]. simpl.
    split; [done |]. split; [lia |]. intros s Hs1 Hs2. apply Hs; [done |].
    eapply Hspan; [done | done | lia..].
  - simpl in Hx. injection Hx as <-. split; [set_solver |].
    exists cn. split; [done |]. split; [done |]. simpl. split; [done |].
    intros s Hs1 Hs2. destruct (Hspan s (ptr c) n) as [I1 I2]; [done | done | lia.. |].
    split; lia.
  - rewrite E3 in Hx.
    destruct (g_next _ _ _ G j d0 x HjL Hd0 Hx) as (Hl & cx & Hcx & Hp & Hq & Hs).
    split; [set_solver |]. rewrite E1, E2.
    rewrite (S6 x Hl). destruct (decide (x = h)) as [-> | Hxh].
    + assert (cx = c) as -> by congruence. eexists. split; [done |]. simpl.
      split; [done |]. split; [done |]. intros s Hs1 Hs2.
      destruct (Hs s Hs1 Hs2) as [I1 I2]. split; lia.
    + destruct (decide (next c = Some x)) as [Hcx' |].
      * destruct (split_neighbor x Hcx') as (_ & _ & _ & cx' & ? & Hq' & _).
        destruct (g_next _ _ _ G h c x Hh Hc Hcx') as (_ & c3 & ? & ? & _).
        naive_solver.
      * rewrite Hcx. eauto 10.
Qed.

Lemma geom_split_prev j d q :
  j ∈ {[hn]} ∪ L → cs' !! j = Some d → prev d = Some q →
  q ∈ {[hn]} ∪ L ∧ ∃ dq, cs' !! q = Some dq ∧ next dq = Some j.
Proof.
  intros Hj Hd Hq. destruct HS as (S1 & S2 & S3 & S4 & S5 & S6).
  assert (Hold : ∀ x dx, x ∈ L → x ≠ h → cs !! x = Some dx →
            ∃ dx', cs' !! x = Some dx' ∧ next dx' = next dx).
  { intros x dx Hx Hxh Hdx. rewrite S6 by done. rewrite decide_False by done.
    rewrite Hdx. case_decide; simpl; eauto. }
  destruct (split_lookup j d Hj Hd)
    as [[-> ->] | [[-> ->] | (Hne & Hne' & HjL & d0 & Hd0 & E1 & E2 & E3 & E4)]].
  - assert (q = h) as -> by congruence. split; [set_solver |].
    rewrite S6, decide_True by done. eauto.
  - simpl in Hq. destruct (g_prev _ _ _ G h c q Hh Hc Hq) as (Hql & cq & Hcq & Hnq).
    split; [set_solver |]. destruct (decide (q = h)) as [-> | Hqh].
    + exfalso. destruct (g_next _ _ _ G h cq h Hh Hcq Hnq) as (_ & c2 & ? & _ & ? & _).
      destruct (g_chunk _ _ _ G h c Hh Hc). simplify_eq. lia.
    + destruct (Hold q cq Hql Hqh Hcq) as (dq & ? & E); exists dq; by rewrite E.
  - destruct E4 as [[Hcj Hp] | [Hcj Hp]].
    + assert (q = hn) as -> by congruence. split; [set_solver |].
      exists cn. split; [done |]. congruence.
    + rewrite Hp in Hq.
      destruct (g_prev _ _ _ G j d0 q HjL Hd0 Hq) as (Hql & cq & Hcq & Hnq).
      split; [set_solver |]. destruct (decide (q = h)) as [-> | Hqh]; [congruence |].
      destruct (Hold q cq Hql Hqh Hcq) as (dq & ? & E); exists dq; by rewrite E.
Qed.

Lemma geom_split : geom cs' rs' ({[hn]} ∪ L).
Proof.
  destruct split_regions as (R1 & R2 & R3 & R4).
  pose proof HS as (S1 & S2 & S3 & S4 & S5 & S6).
  destruct (g_chunk _ _ _ G h c Hh Hc) as (C1 & C2 & C3).
  destruct (g_where _ _ _ G h c Hh Hc) as (W1 & s0 & Ws & Wi1 & Wi2).
  assert (Huniq : ∀ s p sz, s ∈ spans rs → in_span s p sz → 0 < sz →
            ptr c ≤ p → p + sz ≤ ptr c + size c → s = s0).
  { intros s p sz Hs [I1 I2] ? ? ?. apply (spans_unique rs s s0 p); done || lia. }
  split.
  - intros j [->%elem_of_singleton | Hj]%elem_of_union; [by rewrite S5 |].
    rewrite S6 by done. destruct (g_live _ _ _ G j Hj) as [d Hd].
    rewrite Hd. repeat case_decide; by eexists.
  - intros j d Hj Hd.
    destruct (split_lookup j d Hj Hd)
      as [[-> ->] | [[-> ->] | (Hne & _ & HjL & d0 & Hd0 & E1 & E2 & _)]].
    + rewrite S1, S2. split; [lia |]. split; [by apply Z.divide_sub_r |].
      by apply Z.divide_add_r.
    + simpl. split; [lia | done].
    + rewrite E1, E2. by apply (g_chunk _ _ _ G j).
  - apply geom_split_where.
  - apply geom_split_handle.
  - apply geom_split_disj.
  - apply geom_split_next.
  - apply geom_split_prev.
  - intros j d s Hj Hd Hx. rewrite R1. intros Hs Hin.
    destruct (split_lookup j d Hj Hd)
      as [[-> ->] | [[-> ->] | (Hne & _ & HjL & d0 & Hd0 & E1 & E2 & E3 & _)]].
    + assert (s = s0) as -> by (eapply Huniq; [done | done | lia..]).
      rewrite <- (g_last _ _ _ G h c s0); [lia | congruence || done.. |].
      by split.
    + done.
    + rewrite E1, E2 in *. apply (g_last _ _ _ G j d0); congruence || done.
  - intros j d s Hj Hd Hx. rewrite R1. intros Hs Hin.
    destruct (split_lookup j d Hj Hd)
      as [[-> ->] | [[-> ->] | (Hne & _ & HjL & d0 & Hd0 & E1 & E2 & E3 & E4)]].
    + congruence.
    + simpl in *. assert (s = s0) as -> by (eapply Huniq; [done | done | lia..]).
      apply (g_first _ _ _ G h c s0); done.
    + rewrite E1, E2 in *. destruct E4 as [[_ ?] | [_ ?]]; [congruence |].
      apply (g_first _ _ _ G j d0); congruence || done.
  - rewrite R1. intros s Hs. destruct (g_start _ _ _ G s Hs) as [j Hj]. exists j.
    apply spans_elem in Hs as Hs'. destruct Hs' as (i & r & Hi & ->). simpl in *.
    destruct (proj1 Hok i r Hi) as (? & ? & ? & ? & ? & _).
    rewrite R4; [done | | done |].
    + eexists. split; [done |]. simpl. unfold r_end_ptr. lia.
    + intros E. assert ((r_ptr r, r_end_ptr r) = s0) as <-.
      { apply (spans_unique rs _ s0 (ptr c + n)); simpl in *; try done; unfold r_end_ptr; lia. }
      simpl in *. lia.
Qed.
End Split.

(** The chunk vector after [Merge h1 h2] turned [c1] into [cm]. *)
Definition merge_store (cs cs' : list Chunk) (L : gset ChunkHandle)
    (h1 h2 : ChunkHandle) (c1 c2 cm : Chunk) : Prop :=
  size cm = size c1 + size c2 ∧ ptr cm = ptr c1 ∧ prev cm = prev c1 ∧
  next cm = next c2 ∧
  (∀ j, j ∈ L → j ≠ h2 → cs' !! j =
     if decide (j = h1) then Some cm
     else if decide (next c2 = Some j) then set_prev (Some h1) <$> cs !! j
     else cs !! j).

Section Merge.
Context (cs cs' : list Chunk) (rs rs' : list AllocationRegion) (L : gset ChunkHandle).
Context (h1 h2 : ChunkHandle) (c1 c2 cm : Chunk).
Hypothesis G : geom cs rs L.
Hypothesis Hok : regions_ok rs.
Hypothesis Hh1 : h1 ∈ L.
Hypothesis Hc1 : cs !! h1 = Some c1.
Hypothesis Hnext : next c1 = Some h2.
Hypothesis Hc2 : cs !! h2 = Some c2.
Hypothesis Hset : set_handle rs (ptr c2) None = Ok rs'.
Hypothesis HS : merge_store cs cs' L h1 h2 c1 c2 cm.

Lemma merge_adjacent :
  h2 ∈ L ∧ h1 ≠ h2 ∧ prev c2 = Some h1 ∧ ptr c2 = ptr c1 + size c1 ∧
  (∀ s, s ∈ spans rs → in_span s (ptr c1) (size c1) → in_span s (ptr c2) (size c2)).
Proof using G Hh1 Hc1 Hnext Hc2. clear -G Hh1 Hc1 Hnext Hc2.
  destruct (g_next _ _ _ G h1 c1 h2 Hh1 Hc1 Hnext) as (H & d & Hd & Hp & Hq & Hs).
  assert (d = c2) as -> by congruence.
  split; [done |]. split; [| done]. intros <-.
  destruct (g_chunk _ _ _ G h1 c1 Hh1 Hc1). assert (c1 = c2) by congruence.
  subst. lia.
Qed.

Lemma merge_regions :
  spans rs' = spans rs ∧ regions_ok rs' ∧ get_handle rs' (ptr c2) = Ok None ∧
  (∀ q, covered (spans rs) q → (256 | q) → q ≠ ptr c2 →
     get_handle rs' q = get_handle rs q).
Proof.
  destruct merge_adjacent as (H2 & _).
  destruct (g_chunk _ _ _ G h2 c2 H2 Hc2) as (_ & _ & Ha).
  destruct (set_handle_spec rs (ptr c2) None Hok) as (r & E & ? & ? & ? & ?);
    [by eapply live_covered | done |].
  assert (r = rs') as -> by congruence. done.
Qed.

(** A surviving chunk: the merged one, or an old one with, at most, another
    predecessor. *)
Lemma merge_lookup j d :
  j ∈ L ∖ {[h2]} → cs' !! j = Some d →
  (j = h1 ∧ d = cm) ∨
  (j ≠ h1 ∧ j ≠ h2 ∧ j ∈ L ∧ ∃ d0, cs !! j = Some d0 ∧ size d = size d0 ∧
     ptr d = ptr d0 ∧ next d = next d0 ∧
     ((next c2 = Some j ∧ prev d = Some h1) ∨ (next c2 ≠ Some j ∧ prev d = prev d0))).
Proof.
  destruct HS as (_ & _ & _ & _ & S6).
  intros [Hj Hj2%not_elem_of_singleton]%elem_of_difference Hd.
  rewrite S6 in Hd by done. destruct (decide (j = h1)) as [-> |]; [left; naive_solver |].
  right. split_and!; [done.. |].
  destruct (g_live _ _ _ G j Hj) as [d0 Hd0]. rewrite Hd0 in Hd.
  exists d0. split; [done |].
  destruct (decide (next c2 = Some j)); simpl in Hd; simplify_eq; simpl; tauto.
Qed.

Lemma merge_outside j d0 :
  j ∈ L → j ≠ h1 → j ≠ h2 → cs !! j = Some d0 →
  ptr d0 + size d0 ≤ ptr c1 ∨ ptr c2 + size c2 ≤ ptr d0.
Proof.
  intros Hj N1 N2 Hd. destruct merge_adjacent as (H2 & _ & _ & Ha & _).
  destruct (g_chunk _ _ _ G h1 c1 Hh1 Hc1) as (? & ? & ?).
  destruct (g_chunk _ _ _ G h2 c2 H2 Hc2) as (? & ? & ?).
  destruct (g_chunk _ _ _ G j d0 Hj Hd) as (? & ? & ?).
  destruct (g_disj _ _ _ G j h1 d0 c1) as [? | ?]; auto.
  destruct (g_disj _ _ _ G j h2 d0 c2) as [? | ?]; auto; lia.
Qed.

Lemma merge_span :
  ∃ s, s ∈ spans rs ∧ in_span s (ptr c1) (size c1) ∧ in_span s (ptr c2) (size c2).
Proof using G Hh1 Hc1 Hnext Hc2. clear -G Hh1 Hc1 Hnext Hc2.
  destruct (g_where _ _ _ G h1 c1 Hh1 Hc1) as (_ & s & Hs & Hi).
  destruct merge_adjacent as (_ & _ & _ & _ & Ha). eauto.
Qed.

(** The chunk following the merged pair. *)
Lemma merge_neighbor x :
  next c2 = Some x →
  x ∈ L ∧ x ≠ h1 ∧ x ≠ h2 ∧ ∃ cx, cs !! x = Some cx ∧ ptr cx = ptr c2 + size c2 ∧
    cs' !! x = Some (set_prev (Some h1) cx) ∧
    (∀ s, s ∈ spans rs → in_span s (ptr c2) (size c2) → in_span s (ptr cx) (size cx)).
Proof.
  intros Hx. destruct merge_adjacent as (H2 & Hne & Hp2 & Ha & _).
  destruct (g_next _ _ _ G h2 c2 x H2 Hc2 Hx) as (Hl & cx & Hcx & Hp & Hq & Hs).
  destruct (g_chunk _ _ _ G h1 c1 Hh1 Hc1) as (? & ? & ?).
  destruct (g_chunk _ _ _ G h2 c2 H2 Hc2) as (? & ? & ?).
  assert (x ≠ h1) by (intros ->; assert (cx = c1) by congruence; subst; lia).
  assert (x ≠ h2) by (intros ->; assert (cx = c2) by congruence; subst; lia).
  split_and!; [done.. |]. exists cx. split_and!; try done.
  destruct HS as (_ & _ & _ & _ & S6).
  rewrite S6, decide_False, decide_True by done. by rewrite Hcx.
Qed.

Lemma geom_merge_handle p j :
  covered (spans rs') p → (256 | p) → get_handle rs' p = Ok (Some j) →
  j ∈ L ∖ {[h2]} ∧ ∃ d, cs' !! j = Some d ∧ ptr d = p.
Proof.
  intros Hp Ha Hg. destruct merge_regions as (R1 & R2 & R3 & R4).
  destruct HS as (S1 & S2 & S3 & S4 & S6). rewrite R1 in Hp.
  destruct (decide (p = ptr c2)) as [-> | Hne]; [congruence |].
  rewrite R4 in Hg by done.
  destruct (g_handle _ _ _ G p j Hp Ha Hg) as (Hj & d & Hd & <-).
  assert (j ≠ h2) by (intros ->; congruence).
  split; [set_solver |]. rewrite S6 by done.
  case_decide; [subst; assert (d = c1) as -> by congruence; eauto |].
  rewrite Hd. case_decide; simpl; eauto.
Qed.

Lemma geom_merge_next j d x :
  j ∈ L ∖ {[h2]} → cs' !! j = Some d → next d = Some x →
  x ∈ L ∖ {[h2]} ∧ ∃ dx, cs' !! x = Some dx ∧ prev dx = Some j ∧
    ptr dx = ptr d + size d ∧
    (∀ s, s ∈ spans rs' → in_span s (ptr d) (size d) → in_span s (ptr dx) (size dx)).
Proof.
  intros Hj Hd Hx. destruct merge_regions as (R1 & _). rewrite R1.
  pose proof HS as (S1 & S2 & S3 & S4 & S6).
  destruct merge_adjacent as (H2 & Hne & Hp2 & Ha & Has).
  destruct (g_chunk _ _ _ G h1 c1 Hh1 Hc1) as (? & ? & ?).
  destruct (g_chunk _ _ _ G h2 c2 H2 Hc2) as (? & ? & ?).
  destruct (merge_lookup j d Hj Hd)
    as [[-> ->] | (N1 & N2 & HjL & d0 & Hd0 & E1 & E2 & E3 & _)].
  - rewrite S4 in Hx.
    destruct (merge_neighbor x Hx) as (? & ? & ? & cx & ? & Hp & Hcx & Hs).
    split; [set_solver |]. eexists. split; [exact Hcx |]. simpl.
    split; [done |]. split; [lia |]. intros s Hs1 [I1 I2]. apply Hs; [done |].
    split; lia.
  - rewrite E3 in Hx.
    destruct (g_next _ _ _ G j d0 x HjL Hd0 Hx) as (Hl & cx & Hcx & Hp & Hq & Hs).
    assert (x ≠ h2) by (intros ->; congruence).
    split; [set_solver |]. rewrite E1, E2.
    rewrite (S6 x Hl) by done. destruct (decide (x = h1)) as [-> | Hxh].
    + assert (cx = c1) as -> by congruence. eexists. split; [done |].
      rewrite S1, S2, S3. split; [done |]. split; [done |]. intros s Hs1 Hs2.
      destruct (Hs s Hs1 Hs2) as [I1 I2].
      destruct (Has s Hs1 (Hs s Hs1 Hs2)) as [I3 I4]. split; lia.
    + destruct (decide (next c2 = Some x)) as [Hcx' |].
      * destruct (g_next _ _ _ G h2 c2 x H2 Hc2 Hcx') as (_ & c3 & ? & ? & _).
        exfalso. naive_solver.
      * rewrite Hcx. eauto 10.
Qed.

Lemma geom_merge_prev j d q :
  j ∈ L ∖ {[h2]} → cs' !! j = Some d → prev d = Some q →
  q ∈ L ∖ {[h2]} ∧ ∃ dq, cs' !! q = Some dq ∧ next dq = Some j.
Proof.
  intros Hj Hd Hq. pose proof HS as (S1 & S2 & S3 & S4 & S6).
  destruct merge_adjacent as (H2 & Hne & Hp2 & Ha & Has).
  assert (Hold : ∀ x dx, x ∈ L → x ≠ h1 → x ≠ h2 → cs !! x = Some dx →
            ∃ dx', cs' !! x = Some dx' ∧ next dx' = next dx).
  { intros x dx Hx Hx1 Hx2 Hdx. rewrite S6 by done. rewrite decide_False by done.
    rewrite Hdx. case_decide; simpl; eauto. }
  destruct (merge_lookup j d Hj Hd)
    as [[-> ->] | (N1 & N2 & HjL & d0 & Hd0 & E1 & E2 & E3 & E4)].
  - rewrite S3 in Hq. destruct (g_prev _ _ _ G h1 c1 q Hh1 Hc1 Hq) as (Hql & cq & Hcq & Hnq).
    destruct (g_next _ _ _ G q cq h1 Hql Hcq Hnq) as (_ & c' & Hc' & _ & Hp' & _).
    assert (c' = c1) as -> by congruence.
    destruct (g_chunk _ _ _ G h1 c1 Hh1 Hc1) as (? & ? & ?).
    destruct (g_chunk _ _ _ G q cq Hql Hcq) as (? & ? & ?).
    destruct (g_chunk _ _ _ G h2 c2 H2 Hc2) as (? & ? & ?).
    assert (q ≠ h1) by (intros ->; assert (cq = c1) by congruence; subst; lia).
    assert (q ≠ h2) by (intros ->; assert (cq = c2) by congruence; subst; lia).
    split; [set_solver |].
    destruct (Hold q cq) as (dq & ? & E); [done.. |]. exists dq. by rewrite E.
  - destruct E4 as [[Hcj Hp] | [Hcj Hp]].
    + assert (q = h1) as -> by congruence. split; [set_solver |].
      exists cm. rewrite S6, decide_True by done. split; [done |]. congruence.
    + rewrite Hp in Hq.
      destruct (g_prev _ _ _ G j d0 q HjL Hd0 Hq) as (Hql & cq & Hcq & Hnq).
      assert (q ≠ h2) by (intros ->; congruence).
      split; [set_solver |]. destruct (decide (q = h1)) as [-> | Hqh].
      * assert (cq = c1) as -> by congruence. congruence.
      * destruct (Hold q cq) as (dq & ? & E); [done.. |]. exists dq. by rewrite E.
Qed.

Lemma geom_merge_where j d :
  j ∈ L ∖ {[h2]} → cs' !! j = Some d →
  get_handle rs' (ptr d) = Ok (Some j) ∧
  ∃ s, s ∈ spans rs' ∧ in_span s (ptr d) (size d).
Proof.
  intros Hj Hd. destruct merge_regions as (R1 & R2 & R3 & R4).
  pose proof HS as (S1 & S2 & S3 & S4 & S6). rewrite R1.
  destruct merge_adjacent as (H2 & Hne & Hp2 & Ha & Has).
  destruct (g_chunk _ _ _ G h1 c1 Hh1 Hc1) as (? & ? & ?).
  destruct (g_chunk _ _ _ G h2 c2 H2 Hc2) as (? & ? & ?).
  destruct (merge_lookup j d Hj Hd)
    as [[-> ->] | (N1 & N2 & HjL & d0 & Hd0 & E1 & E2 & E3 & _)].
  - rewrite S1, S2. split.
    + destruct (g_where _ _ _ G h1 c1 Hh1 Hc1) as [W _].
      rewrite R4; [done | by apply (live_covered cs rs L h1) | done | lia].
    + destruct merge_span as (s & Hs & [I1 I2] & [I3 I4]). exists s.
      split; [done |]. split; lia.
  - destruct (g_where _ _ _ G j d0 HjL Hd0) as (V1 & s' & Vs & Vi).
    destruct (g_chunk _ _ _ G j d0 HjL Hd0) as (? & ? & ?).
    rewrite E1, E2. split; [| eauto].
    rewrite R4; [done | by eapply live_covered | done |].
    destruct (merge_outside j d0 HjL N1 N2 Hd0); lia.
Qed.

Lemma geom_merge : geom cs' rs' (L ∖ {[h2]}).
Proof.
  destruct merge_regions as (R1 & R2 & R3 & R4).
  pose proof HS as (S1 & S2 & S3 & S4 & S6).
  destruct merge_adjacent as (H2 & Hne & Hp2 & Ha & Has).
  destruct (g_chunk _ _ _ G h1 c1 Hh1 Hc1) as (? & ? & ?).
  destruct (g_chunk _ _ _ G h2 c2 H2 Hc2) as (? & ? & ?).
  destruct merge_span as (s0 & Ws & [Wi1 Wi2] & [Wi3 Wi4]).
  assert (Huniq : ∀ s, s ∈ spans rs → in_span s (ptr c1) (size c1 + size c2) → s = s0).
  { intros s Hs [I1 I2]. apply (spans_unique rs s s0 (ptr c1)); done || lia. }
  split.
  - intros j [Hj Hj2%not_elem_of_singleton]%elem_of_difference.
    rewrite S6 by done. destruct (g_live _ _ _ G j Hj) as [d Hd].
    rewrite Hd. repeat case_decide; by eexists.
  - intros j d Hj Hd.
    destruct (merge_lookup j d Hj Hd)
      as [[-> ->] | (N1 & N2 & HjL & d0 & Hd0 & E1 & E2 & _)].
    + rewrite S1, S2. split; [lia |]. split; [by apply Z.divide_add_r | done].
    + rewrite E1, E2. by apply (g_chunk _ _ _ G j).
  - apply geom_merge_where.
  - apply geom_merge_handle.
  - intros j1 j2 d1 d2 J1 J2 Hj L1 L2.
    destruct (merge_lookup _ _ J1 L1) as
      [[-> ->] | (N1 & N1' & M1 & e1 & D1 & E1 & F1 & _)];
    destruct (merge_lookup _ _ J2 L2) as
      [[-> ->] | (N2 & N2' & M2 & e2 & D2 & E2 & F2 & _)];
    try done;
    try (pose proof (merge_outside j1 e1 M1 N1 N1' D1));
    try (pose proof (merge_outside j2 e2 M2 N2 N2' D2)); try lia.
    rewrite E1, E2, F1, F2. by apply (g_disj _ _ _ G j1 j2).
  - apply geom_merge_next.
  - apply geom_merge_prev.
  - intros j d s Hj Hd Hx. rewrite R1. intros Hs Hin.
    destruct (merge_lookup j d Hj Hd)
      as [[-> ->] | (N1 & N2 & HjL & d0 & Hd0 & E1 & E2 & E3 & _)].
    + rewrite S1, S2 in *. assert (s = s0) as -> by by apply Huniq.
      rewrite <- (g_last _ _ _ G h2 c2 s0); [lia | congruence || done.. |]. by split.
    + rewrite E1, E2 in *. apply (g_last _ _ _ G j d0); congruence || done.
  - intros j d s Hj Hd Hx. rewrite R1. intros Hs Hin.
    destruct (merge_lookup j d Hj Hd)
      as [[-> ->] | (N1 & N2 & HjL & d0 & Hd0 & E1 & E2 & E3 & E4)].
    + rewrite S1, S2 in *. assert (s = s0) as -> by by apply Huniq.
      apply (g_first _ _ _ G h1 c1 s0); done || congruence.
    + rewrite E1, E2 in *. destruct E4 as [[_ ?] | [_ ?]]; [congruence |].
      apply (g_first _ _ _ G j d0); congruence || done.
  - rewrite R1. intros s Hs. destruct (g_start _ _ _ G s Hs) as [j Hj]. exists j.
    apply spans_elem in Hs as Hs'. destruct Hs' as (i & r & Hi & ->). simpl in *.
    destruct (proj1 Hok i r Hi) as (? & ? & ? & ? & ? & _).
    rewrite R4; [done | | done |].
    + eexists. split; [done |]. simpl. unfold r_end_ptr. lia.
    + intros E. assert ((r_ptr r, r_end_ptr r) = s0) as <-.
      { apply (spans_unique rs _ s0 (ptr c2)); simpl in *; try done; unfold r_end_ptr; lia. }
      simpl in *. lia.
Qed.
End Merge.

(** ** The client's view, and adjacent free chunks *)

(** What a client knows of an allocated block: address, size of the chunk,
    requested size and allocation id. *)
Definition block (c : Chunk) : Z * Z * Z * Z :=
  (ptr c, size c, requested_size c, allocation_id c).

Definition blocks (cs : list Chunk) (L : gset ChunkHandle) (b : Z * Z * Z * Z) : Prop :=
  ∃ h c, h ∈ L ∧ cs !! h = Some c ∧ in_use c = true ∧ b = block c.

(** [y] follows [x] and both are free. *)
Definition free_adjacent (cs : list Chunk) (L : gset ChunkHandle)
    (x y : ChunkHandle) : Prop :=
  x ∈ L ∧ ∃ cx cy, cs !! x = Some cx ∧ cs !! y = Some cy ∧ next cx = Some y ∧
    in_use cx = false ∧ in_use cy = false.

(** Every free live chunk is in a bin, except the handles satisfying [P]. *)
Definition binned_except (P : ChunkHandle → Prop) (cs : list Chunk)
    (L : gset ChunkHandle) : Prop :=
  ∀ h c, h ∈ L → ¬ P h → cs !! h = Some c → in_use c = false → bin_num c ≠ None.

(** No chunk carries a timestamp. *)
Definition untimed (cs : list Chunk) (L : gset ChunkHandle) : Prop :=
  ∀ h c, h ∈ L → cs !! h = Some c → freed_at_count c = 0.

Section MergeView.
Context (cs cs' : list Chunk) (L : gset ChunkHandle) (h1 h2 : ChunkHandle) (c1 c2 cm : Chunk).
Hypothesis Hh1 : h1 ∈ L.
Hypothesis Hh2 : h2 ∈ L.
Hypothesis Hne : h1 ≠ h2.
Hypothesis Hc1 : cs !! h1 = Some c1.
Hypothesis Hc2 : cs !! h2 = Some c2.
Hypothesis Hnext : next c1 = Some h2.
Hypothesis Hu1 : in_use c1 = false.
Hypothesis Hu2 : in_use c2 = false.
Hypothesis Hum : in_use cm = false.
Hypothesis HS : merge_store cs cs' L h1 h2 c1 c2 cm.

(** Chunks other than the merged pair keep everything but, at most, [prev]. *)
Lemma merge_other j :
  j ∈ L → j ≠ h1 → j ≠ h2 →
  cs' !! j = (λ d, set_prev (if decide (next c2 = Some j) then Some h1 else prev d) d)
               <$> cs !! j.
Proof.
  intros Hj N1 N2. destruct HS as (_ & _ & _ & _ & S6).
  rewrite S6, decide_False by done.
  destruct (cs !! j) as [[] |]; case_decide; done.
Qed.

Lemma merge_at : cs' !! h1 = Some cm.
Proof. destruct HS as (_ & _ & _ & _ & S6). by rewrite S6, decide_True. Qed.

Lemma merge_blocks b : blocks cs' (L ∖ {[h2]}) b ↔ blocks cs L b.
Proof.
  split.
  - intros (j & d & [Hj Hj2%not_elem_of_singleton]%elem_of_difference & Hd & Hu & ->).
    destruct (decide (j = h1)) as [-> | N1]; [rewrite merge_at in Hd; congruence |].
    rewrite merge_other in Hd by done. apply fmap_Some in Hd as (d0 & Hd0 & ->).
    exists j, d0. done.
  - intros (j & d & Hj & Hd & Hu & ->).
    assert (j ≠ h1) by congruence. assert (j ≠ h2) by congruence.
    eexists j, _. split; [set_solver |]. rewrite merge_other, Hd by done. done.
Qed.

Lemma merge_binned P :
  binned_except (λ j, j = h1 ∨ j = h2 ∨ P j) cs L →
  binned_except (λ j, j = h1 ∨ P j) cs' (L ∖ {[h2]}).
Proof.
  intros B j d [Hj Hj2%not_elem_of_singleton]%elem_of_difference HP Hd Hu.
  assert (N1 : j ≠ h1) by tauto.
  rewrite merge_other in Hd by done. apply fmap_Some in Hd as (d0 & Hd0 & ->).
  simpl. apply (B j d0); tauto.
Qed.

Lemma merge_untimed :
  freed_at_count cm = Z.max (freed_at_count c1) (freed_at_count c2) →
  untimed cs L → untimed cs' (L ∖ {[h2]}).
Proof.
  intros Hf U j d [Hj Hj2%not_elem_of_singleton]%elem_of_difference Hd.
  destruct (decide (j = h1)) as [-> | N1].
  - rewrite merge_at in Hd. simplify_eq. rewrite Hf.
    rewrite (U h1 c1), (U h2 c2) by done. done.
  - rewrite merge_other in Hd by done. apply fmap_Some in Hd as (d0 & Hd0 & ->).
    by apply (U j d0).
Qed.

Lemma merge_free_adjacent x y :
  (∀ j d, j ∈ L → cs !! j = Some d → next d = Some h2 → j = h1) →
  (∀ d, cs !! h2 = Some d → next d ≠ Some h1) →
  free_adjacent cs' (L ∖ {[h2]}) x y → y ∈ L ∖ {[h2]} →
  (x = h1 ∧ free_adjacent cs L h2 y) ∨ (y = h1 ∧ free_adjacent cs L x h1) ∨
  (x ≠ h1 ∧ y ≠ h1 ∧ free_adjacent cs L x y).
Proof.
  intros Huniq Hacyc ([Hx Hx2%not_elem_of_singleton]%elem_of_difference & cx & cy & Hcx &
    Hcy & Hn & Ux & Uy) [Hy Hy2%not_elem_of_singleton]%elem_of_difference.
  pose proof HS as (_ & _ & _ & S4 & _).
  destruct (decide (x = h1)) as [-> | N1].
  - left. split; [done |]. rewrite merge_at in Hcx. injection Hcx as <-. rewrite S4 in Hn.
    assert (y ≠ h1) by (intros ->; by apply (Hacyc c2)).
    rewrite merge_other in Hcy by done. apply fmap_Some in Hcy as (d0 & Hd0 & ->).
    split; [done |]. exists c2, d0. done.
  - right. rewrite merge_other in Hcx by done. apply fmap_Some in Hcx as (e & He & ->).
    simpl in *. destruct (decide (y = h1)) as [-> | N2]; [left | right].
    + split; [done |]. split; [done |]. exists e, c1. done.
    + split; [done |]. split; [done |].
      rewrite merge_other in Hcy by done. apply fmap_Some in Hcy as (d0 & Hd0 & ->).
      split; [done |]. exists e, d0. done.
Qed.
End MergeView.

Section SplitView.
Context (cs cs' : list Chunk) (L : gset ChunkHandle) (h hn : ChunkHandle).
Context (c cn : Chunk) (n : Z).
Hypothesis Hh : h ∈ L.
Hypothesis Hhn : hn ∉ L.
Hypothesis Hc : cs !! h = Some c.
Hypothesis Hu : in_use c = false.
Hypothesis Hun : in_use cn = false.
Hypothesis Hbn : bin_num cn ≠ None.
Hypothesis HS : split_store cs cs' L h hn c cn n.

Lemma split_head : cs' !! h = Some (set_next (Some hn) (set_size n c)).
Proof. destruct HS as (_ & _ & _ & _ & _ & S6). by rewrite S6, decide_True. Qed.

Lemma split_tail : cs' !! hn = Some cn.
Proof. by destruct HS as (_ & _ & _ & _ & S5 & _). Qed.

Lemma split_other j :
  j ∈ L → j ≠ h →
  cs' !! j = (λ d, set_prev (if decide (next c = Some j) then Some hn else prev d) d)
               <$> cs !! j.
Proof.
  intros Hj N1. destruct HS as (_ & _ & _ & _ & _ & S6).
  rewrite S6, decide_False by done.
  destruct (cs !! j) as [[] |]; case_decide; done.
Qed.

(** A live chunk after the split, by handle. *)
Lemma split_cases j d :
  j ∈ {[hn]} ∪ L → cs' !! j = Some d →
  (j = hn ∧ d = cn) ∨ (j = h ∧ d = set_next (Some hn) (set_size n c)) ∨
  (j ≠ h ∧ j ≠ hn ∧ j ∈ L ∧ ∃ d0, cs !! j = Some d0 ∧ block d = block d0 ∧
     in_use d = in_use d0 ∧ bin_num d = bin_num d0 ∧ next d = next d0 ∧
     freed_at_count d = freed_at_count d0).
Proof.
  intros Hj Hd. destruct (decide (j = hn)) as [-> | N2].
  { left. rewrite split_tail in Hd. split; congruence. }
  right. assert (j ∈ L) by set_solver. destruct (decide (j = h)) as [-> | N1].
  { left. rewrite split_head in Hd. split; congruence. }
  right. rewrite split_other in Hd by done. apply fmap_Some in Hd as (d0 & Hd0 & ->).
  split_and!; try done. exists d0. done.
Qed.

Lemma split_blocks b : blocks cs' ({[hn]} ∪ L) b ↔ blocks cs L b.
Proof.
  split.
  - intros (j & d & Hj & Hd & Hud & ->).
    destruct (split_cases j d Hj Hd) as
      [[_ ->] | [[_ ->] | (_ & _ & HjL & d0 & Hd0 & E1 & E2 & _)]].
    + congruence.
    + change (in_use c = true) in Hud. congruence.
    + exists j, d0. rewrite <- E1, <- E2. done.
  - intros (j & d & Hj & Hd & Hud & ->).
    assert (j ≠ h) by congruence.
    eexists j, _. split; [set_solver |]. rewrite split_other, Hd by done. done.
Qed.

Lemma split_binned P :
  binned_except P cs L → P h → binned_except P cs' ({[hn]} ∪ L).
Proof.
  intros B HPh j d Hj HP Hd Hud.
  destruct (split_cases j d Hj Hd) as
    [[_ ->] | [[-> _] | (_ & _ & HjL & d0 & Hd0 & _ & E2 & E3 & _)]]; [done.. |].
  rewrite E3. apply (B j d0); congruence.
Qed.

Lemma split_untimed :
  freed_at_count cn = freed_at_count c → untimed cs L → untimed cs' ({[hn]} ∪ L).
Proof.
  intros Ef U j d Hj Hd.
  destruct (split_cases j d Hj Hd) as
    [[_ ->] | [[_ ->] | (_ & _ & HjL & d0 & Hd0 & _ & _ & _ & _ & E5)]].
  - rewrite Ef. by apply (U h).
  - simpl. by apply (U h).
  - rewrite E5. by apply (U j).
Qed.

Lemma split_free_adjacent x y :
  (∀ j d, j ∈ L → cs !! j = Some d → next d ≠ Some hn) →
  y ∈ {[hn]} ∪ L →
  free_adjacent cs' ({[hn]} ∪ L) x y →
  (x = h ∧ y = hn) ∨ (x = hn ∧ y ≠ h ∧ free_adjacent cs L h y) ∨
  (x ≠ h ∧ x ≠ hn ∧ y ≠ hn ∧ free_adjacent cs L x y) ∨ (x = hn ∧ next c = Some h).
Proof.
  intros Hfresh Hy (Hx & cx & cy & Hcx & Hcy & Hn & Ux & Uy).
  pose proof HS as (_ & _ & _ & S4 & _).
  assert (Hy0 : y ≠ hn → y ≠ h → ∃ ey, cs !! y = Some ey ∧ in_use ey = false).
  { intros N1 N2. destruct (split_cases y cy Hy Hcy) as
      [[? _] | [[? _] | (_ & _ & _ & ey & Hey & _ & E2 & _)]]; [done.. |].
    exists ey. split; [done | congruence]. }
  destruct (split_cases x cx Hx Hcx) as
    [[-> ->] | [[-> ->] | (N1 & N2 & HxL & ex & Hex & _ & E2 & _ & E4 & _)]].
  - rewrite S4 in Hn. right.
    destruct (decide (y = h)) as [-> | Nyh]; [by right; right |]. left.
    destruct (decide (y = hn)) as [-> | Nyhn]; [by destruct (Hfresh h c) |].
    destruct (Hy0 Nyhn Nyh) as (ey & Hey & Uey).
    split; [done |]. split; [done |]. split; [done |]. eauto 10.
  - simpl in Hn. left. split; [done |]. congruence.
  - rewrite E4 in Hn. right. right. left.
    assert (Nyhn : y ≠ hn) by (intros ->; by destruct (Hfresh x ex)).
    split; [done |]. split; [done |]. split; [done |]. split; [done |].
    destruct (decide (y = h)) as [-> | Nyh].
    + exists ex, c. split_and!; congruence.
    + destruct (Hy0 Nyhn Nyh) as (ey & Hey & Uey). exists ex, ey. split_and!; congruence.
Qed.
End SplitView.

(** ** Bin numbers *)

Lemma BinNumForSize_mono x y : x ≤ y → (BinNumForSize x ≤ BinNumForSize y)%nat.
Proof.
  intros H. unfold BinNumForSize, kMinAllocationBits.
  rewrite !Z.shiftr_div_pow2 by lia.
  assert (Z.max x 256 / 2 ^ 8 ≤ Z.max y 256 / 2 ^ 8) by (apply Z.div_le_mono; lia).
  pose proof (Z.log2_le_mono _ _ H0). lia.
Qed.

Lemma BinNumForSize_lt_size x y :
  (BinNumForSize x < BinNumForSize y)%nat → x < y.
Proof.
  intros H. destruct (Z.lt_ge_cases x y) as [| Hge]; [done |].
  pose proof (BinNumForSize_mono _ _ Hge). lia.
Qed.
End BfcInv.
