(* ===== verification/BfcProofs.v ===== *)
(** * Correctness of the chunk operations of the BFC allocator *)
From S2P Require Import Prelude BfcState BfcOps BfcInv.

Module BfcProofs.
Import Bfc BfcOps BfcInv.

Section Proofs.
Context `{SA : SubAllocator}.

Record inv (a : Allocator) (L : gset ChunkHandle) (fl : list ChunkHandle)
    : Prop := Inv {
  i_regions : regions_ok (regions a);
  i_geom : geom (chunks a) (regions a) L;
  i_fl : flist (chunks a) (free_chunks_list a) fl;
  i_fl_nodup : NoDup fl;
  i_fl_dead h : h ∈ fl → h ∉ L;
  i_bins : bins_ok (chunks a) (bins a) L;
  i_ids : 0 < next_allocation_id a ∧
    ∀ h c, h ∈ L → chunks a !! h = Some c → in_use c = true →
      0 < allocation_id c < next_allocation_id a
}.

(** ** Running the monad *)

Lemma run_bind {A B} (m : M A) (f : A → M B) a x a1 :
  m a = Ok (x, a1) → (m ≫= f) a = f x a1.
Proof. unfold mbind, M_bind. by intros ->. Qed.

Lemma bind_assoc_run {A B C} (m : M A) (k : M B) (f : B → M C) a :
  ((m ;; k) ≫= f) a = (m ;; (k ≫= f)) a.
Proof. unfold mbind, M_bind. by destruct (m a) as [[] |]. Qed.

Lemma ChunkFromHandle_run a h c :
  chunks a !! h = Some c → ChunkFromHandle h a = Ok (c, a).
Proof.
  intros H. unfold ChunkFromHandle, gets, lift, at_res, mbind, M_bind. by rewrite H.
Qed.

Lemma update_chunk_run a h f c :
  chunks a !! h = Some c →
  update_chunk h f a = Ok (tt, with_chunks (<[h := f c]> (chunks a)) a).
Proof.
  intros H. unfold update_chunk.
  by rewrite (run_bind _ _ _ _ _ (ChunkFromHandle_run _ _ _ H)).
Qed.

Lemma check_run a b : b = true → check b a = Ok (tt, a).
Proof. by intros ->. Qed.

Lemma lift_run {A} (r : res A) (x : A) (a : Allocator) :
  r = Ok x → lift r a = Ok (x, a).
Proof. by intros ->. Qed.

End Proofs.

(** Reduce the fields of an updated allocator, and nothing else. *)
Ltac fields :=
  cbn [opts memory_limit curr_region_allocation_bytes sub regions chunks
       free_chunks_list bins next_allocation_id stats timing_counter
       timestamped_chunks safe_frontier
       with_regions with_chunks with_free_chunks_list with_bins with_stats
       with_next_allocation_id with_sub with_curr_region_allocation_bytes
       with_timing_counter with_timestamped_chunks with_safe_frontier].

(** Name the chunk vector a straight-line body ended with. *)
Ltac store_of :=
  match goal with |- ∃ _, ?f ?st = _ ∧ _ => exists (chunks st) end.

(** Discharge a lookup in a chain of updates. *)
Ltac lk :=
  fields; first
  [ eassumption
  | eapply lookup_upd_eq; lk
  | apply lookup_upd_ne; [done || congruence | lk] ].

(** Execute the next call of a monadic body. *)
Ltac mstep :=
  first
  [ erewrite run_bind; [| apply ChunkFromHandle_run; lk]
  | erewrite run_bind; [| apply update_chunk_run; lk]
  | erewrite run_bind; [| apply check_run; simpl; done]
  | erewrite run_bind; [| apply lift_run; simpl; (done || eassumption)]
  | erewrite run_bind; [| reflexivity] ].

Section Specs.
Context `{SA : SubAllocator}.

(** A chunk record for a new chunk: not live, not in a bin, and no longer on the
    list of recycled records. *)
Lemma AllocateChunk_raw a (L : gset ChunkHandle) fl :
  (∀ h, h ∈ L → is_Some (chunks a !! h)) →
  flist (chunks a) (free_chunks_list a) fl → NoDup fl → (∀ h, h ∈ fl → h ∉ L) →
  ∃ h cs o fl' c0,
    AllocateChunk a = Ok (h, with_free_chunks_list o (with_chunks cs a)) ∧
    h ∉ L ∧ h ∉ fl' ∧ cs !! h = Some c0 ∧ bin_num c0 = None ∧
    (∀ j, j ≠ h → cs !! j = chunks a !! j) ∧
    flist cs o fl' ∧ NoDup fl' ∧ (∀ j, j ∈ fl' → j ∈ fl).
Proof.
  intros HG HF HN HD. unfold AllocateChunk.
  destruct fl as [| h fl]; simpl in HF.
  - exists (length (chunks a)), (chunks a ++ [new_chunk_record]), None, [], new_chunk_record.
    mstep. rewrite HF. split.
    { mstep. mstep. destruct a. simpl in *. by subst. }
    split_and!; try done; try set_solver.
    + intros HL. destruct (HG _ HL) as [c Hc].
      apply lookup_lt_Some in Hc. lia.
    + rewrite lookup_app_r by lia. by rewrite Nat.sub_diag.
    + intros j Hj. destruct (decide (j < length (chunks a))%nat).
      * by rewrite lookup_app_l.
      * rewrite lookup_app_r by lia. rewrite (lookup_ge_None_2 (chunks a)) by lia.
        destruct (j - length (chunks a))%nat eqn:E; [lia | done].
  - destruct HF as (HF & c & Hc & Hb & Ha & Hr).
    exists h, (chunks a), (next c), fl, c.
    mstep. rewrite HF. apply NoDup_cons in HN as [HN1 HN2].
    split. { mstep. mstep. destruct a; done. }
    split_and!; try done; set_solver.
Qed.

Lemma AllocateChunk_spec a L fl :
  inv a L fl →
  ∃ h cs o fl' c0,
    AllocateChunk a = Ok (h, with_free_chunks_list o (with_chunks cs a)) ∧
    h ∉ L ∧ h ∉ fl' ∧ cs !! h = Some c0 ∧ bin_num c0 = None ∧
    (∀ j, j ≠ h → cs !! j = chunks a !! j) ∧
    flist cs o fl' ∧ NoDup fl' ∧ (∀ j, j ∈ fl' → j ∈ fl).
Proof.
  intros [_ HG HF HN HD _ _]. by apply AllocateChunk_raw; [apply HG | ..].
Qed.

(** Replacing the bin of one live chunk, together with the bins. *)
Lemma inv_rebin a L fl h c c' bs :
  inv a L fl → h ∈ L → chunks a !! h = Some c → geo c' = geo c →
  allocation_id c' = allocation_id c →
  bins_ok (<[h := c']> (chunks a)) bs L →
  inv (with_bins bs (with_chunks (<[h := c']> (chunks a)) a)) L fl.
Proof.
  intros [HR HG HF HN HD HB [Hi1 Hi2]] Hh Hc Hgeo Hid Hbins.
  split; simpl; try done.
  - eapply geom_ext; [| done]. intros j Hj. rewrite (lookup_upd _ _ _ _ _ Hc).
    case_decide; [subst; rewrite Hc; simpl; by rewrite Hgeo | done].
  - eapply flist_ext; [| done]. intros j Hj. rewrite (lookup_upd _ _ _ _ _ Hc).
    case_decide; [subst; by destruct (HD j) | done].
  - split; [done |]. intros j d Hj. rewrite (lookup_upd _ _ _ _ _ Hc).
    case_decide; [| by apply Hi2]. intros [= <-]. subst j. unfold in_use.
    rewrite Hid. by apply (Hi2 h).
Qed.

Definition bin_of (c : Chunk) : nat := BinNumForSize (size c).

Lemma InsertFreeChunkIntoBin_spec a L fl h c :
  inv a L fl → h ∈ L → chunks a !! h = Some c → in_use c = false →
  bin_num c = None →
  ∃ bs, let a' := with_bins bs (with_chunks
            (<[h := set_bin_num (Some (bin_of c)) c]> (chunks a)) a) in
    InsertFreeChunkIntoBin h a = Ok (tt, a') ∧ inv a' L fl.
Proof.
  intros I Hh Hc Hu Hn.
  destruct (bins_lookup _ _ _ (bin_of c) (i_bins _ _ _ I)) as [l Hl];
    [apply BinNumForSize_lt |].
  eexists. split.
  - unfold InsertFreeChunkIntoBin. mstep. rewrite Hu, Hn.
    mstep. unfold bin_at. erewrite run_bind.
    2:{ erewrite run_bind by reflexivity. apply lift_run.
        apply at_res_ok. exact Hl. }
    mstep. mstep. reflexivity.
  - simpl. eapply inv_rebin; [done.. |]. by eapply bins_ok_insert; [apply I.. | | | | |].
Qed.

Lemma sorted_bin a L fl b l :
  inv a L fl → bins a !! b = Some l →
  separate (chunks a) l ∧ StronglySorted (λ x y, chunk_lt (chunks a) x y = true) l.
Proof.
  intros I Hl. split; [| by apply (b_sorted _ _ _ (i_bins _ _ _ I) b)].
  eapply geom_separate; [apply I |].
  intros x Hx. by apply (b_mem _ _ _ (i_bins _ _ _ I) b l x Hl) in Hx as [? _].
Qed.

(** Both ways of removing a chunk from its bin succeed on a binned chunk. *)
Lemma RemoveFreeChunk_spec a L fl h c b :
  inv a L fl → h ∈ L → chunks a !! h = Some c → bin_num c = Some b →
  (∃ bs, let a' := with_bins bs (with_chunks
             (<[h := set_bin_num None c]> (chunks a)) a) in
     RemoveFreeChunkFromBin h a = Ok (tt, a') ∧ inv a' L fl) ∧
  (∃ bs, let a' := with_bins bs (with_chunks
             (<[h := set_bin_num None c]> (chunks a)) a) in
     RemoveFreeChunkIterFromBin b h a = Ok (tt, a') ∧ inv a' L fl).
Proof.
  intros I Hh Hc Hn. pose proof (i_bins _ _ _ I) as B.
  destruct (b_free _ _ _ B h c b Hh Hc Hn) as [Hu Hb].
  destruct (bins_lookup _ _ _ b B) as [l Hl]; [subst b; apply BinNumForSize_lt |].
  destruct (sorted_bin a L fl b l I Hl) as [S Hs].
  assert (Hin : h ∈ l) by (rewrite (b_mem _ _ _ B b l h Hl); eauto).
  assert (Hbin : bin_at b a = Ok (l, a)).
  { unfold bin_at. erewrite run_bind by reflexivity. apply lift_run. by apply at_res_ok. }
  split.
  - destruct (bin_erase_spec _ h l S Hs Hin) as (l' & He & Hs' & Hm).
    exists (<[b := l']> (bins a)). split.
    + unfold RemoveFreeChunkFromBin. mstep. rewrite Hu, Hn. mstep. mstep.
      erewrite run_bind by exact Hbin. mstep. rewrite He. mstep.
      by erewrite update_chunk_run by lk.
    + eapply inv_rebin; [done.. |]. by eapply bins_ok_remove.
  - exists (<[b := filter (λ x, x ≠ h) l]> (bins a)). split.
    + unfold RemoveFreeChunkIterFromBin. mstep. rewrite Hu, Hn. mstep.
      erewrite run_bind by exact Hbin. mstep. by erewrite update_chunk_run by lk.
    + eapply inv_rebin; [done.. |]. eapply bins_ok_remove; [done.. | |].
      * by apply StronglySorted_filter.
      * intros x. rewrite list_elem_of_filter. tauto.
Qed.

(** Everything the chunk operations leave alone. *)
Definition env (a : Allocator) :=
  (opts a, memory_limit a, curr_region_allocation_bytes a, sub a,
   next_allocation_id a, stats a, timing_counter a, timestamped_chunks a,
   safe_frontier a, spans (regions a)).

Lemma live_size a L fl h c :
  inv a L fl → h ∈ L → chunks a !! h = Some c → in_uint64 (size c).
Proof.
  intros I Hh Hc.
  destruct (g_where _ _ _ (i_geom _ _ _ I) h c Hh Hc) as (_ & s & Hs & H1 & H2).
  destruct (g_chunk _ _ _ (i_geom _ _ _ I) h c Hh Hc) as (? & _).
  apply spans_elem in Hs as (i & r & Hi & ->). simpl in *.
  destruct (proj1 (i_regions _ _ _ I) i r Hi) as (? & _ & _ & _ & ? & _). int_lia.
Qed.

(** The chunk that [SplitChunk h n] fills in for the tail of [c]. *)
Definition tail_chunk (c c0 : Chunk) (h : ChunkHandle) (n : Z) : Chunk :=
  MkChunk (size c - n) (requested_size c0) (-1) (ptr c + n) (Some h)
    (next c) (bin_num c0) (freed_at_count c).

(** [SplitChunk] up to its last call, given the record [c0] at [hn] that
    [AllocateChunk] found. *)
Lemma SplitChunk_run a L fl h c n hn cs0 o c0 rs' :
  inv a L fl → h ∈ L → chunks a !! h = Some c → in_use c = false →
  bin_num c = None → 0 < n < size c → hn ∉ L → cs0 !! hn = Some c0 →
  (∀ j, j ≠ hn → cs0 !! j = chunks a !! j) →
  AllocateChunk a = Ok (hn, with_free_chunks_list o (with_chunks cs0 a)) →
  set_handle (regions a) (ptr c + n) (Some hn) = Ok rs' →
  ∃ csF,
    SplitChunk h n a = InsertFreeChunkIntoBin hn
      (with_regions rs' (with_free_chunks_list o (with_chunks csF a))) ∧
    (∀ j, csF !! j = if decide (j = hn) then Some (tail_chunk c c0 h n)
       else if decide (j = h) then Some (set_next (Some hn) (set_size n c))
       else if decide (next c = Some j) then set_prev (Some hn) <$> cs0 !! j
       else cs0 !! j).
Proof.
  intros I Hh Hc Hu Hb Hn HnL Hc0 Hsame Hrun Hset.
  assert (Hne : h ≠ hn) by (by intros ->).
  assert (Hch : cs0 !! h = Some c) by (by rewrite Hsame).
  assert (Hlen1 := lookup_lt_Some _ _ _ Hc0). assert (Hlen2 := lookup_lt_Some _ _ _ Hch).
  assert (Hw : wrap_u64 (size c - n) = size c - n).
  { pose proof (live_size a L fl h c I Hh Hc). apply wrap_u64_id; int_lia. }
  unfold SplitChunk. erewrite run_bind by exact Hrun.
  mstep. rewrite Hu, Hb. mstep. mstep.
  erewrite run_bind.
  2:{ unfold rm_set_handle. mstep. fields. erewrite run_bind by (apply lift_run; exact Hset).
      reflexivity. }
  mstep. mstep. mstep. mstep. mstep. mstep. mstep.
  destruct (next c) as [nb |] eqn:Enb.
  - destruct (g_next _ _ _ (i_geom _ _ _ I) h c nb Hh Hc Enb)
      as (Hnb & cnb & Hcnb & _ & Hpnb & _).
    assert (nb ≠ hn) by (by intros ->).
    assert (nb ≠ h) by (intros ->; assert (cnb = c) by congruence; subst; lia).
    assert (Hcnb0 : cs0 !! nb = Some cnb) by (by rewrite Hsame).
    assert (Hlen3 := lookup_lt_Some _ _ _ Hcnb0).
    mstep. store_of. split; [reflexivity |]. fields. rewrite Hw. intros j.
    unfold tail_chunk. rewrite Enb, !list_lookup_insert, !length_insert.
    repeat case_decide; destruct_and?; simplify_eq; try lia; try tauto; try done.
    all: by rewrite Hcnb0.
  - mstep. store_of. split; [reflexivity |]. fields. rewrite Hw. intros j.
    unfold tail_chunk. rewrite Enb, !list_lookup_insert, !length_insert.
    repeat case_decide; simplify_eq; try lia; try tauto; try done.
Qed.

(** The invariant holds at that point, with the tail still outside its bin. *)
Lemma split_inv a L fl fl' h c n hn cs0 o c0 rs' csF :
  inv a L fl → h ∈ L → chunks a !! h = Some c → in_use c = false →
  bin_num c = None → 0 < n < size c → (256 | n) → hn ∉ L → hn ∉ fl' →
  bin_num c0 = None →
  (∀ j, j ≠ hn → cs0 !! j = chunks a !! j) →
  flist cs0 o fl' → NoDup fl' → (∀ j, j ∈ fl' → j ∈ fl) →
  set_handle (regions a) (ptr c + n) (Some hn) = Ok rs' →
  (∀ j, csF !! j = if decide (j = hn) then Some (tail_chunk c c0 h n)
       else if decide (j = h) then Some (set_next (Some hn) (set_size n c))
       else if decide (next c = Some j) then set_prev (Some hn) <$> cs0 !! j
       else cs0 !! j) →
  split_store (chunks a) csF L h hn c (tail_chunk c c0 h n) n ∧
  inv (with_regions rs' (with_free_chunks_list o (with_chunks csF a)))
    ({[hn]} ∪ L) fl'.
Proof.
  intros I Hh Hc Hu Hb Hn Hna HnL Hnfl Hb0 Hsame Hfl' Hnd' Hsub Hset HcsF.
  pose proof I as [HR HG HF HND HD HB [Hi1 Hi2]].
  assert (Hne : h ≠ hn) by (by intros ->).
  assert (HS2 : split_store (chunks a) csF L h hn c (tail_chunk c c0 h n) n).
  { split_and!; try done; [rewrite HcsF; by rewrite decide_True |].
    intros j Hj. assert (j ≠ hn) by (by intros ->).
    rewrite HcsF, decide_False by done. by rewrite Hsame. }
  split; [done |].
  destruct (split_regions (chunks a) (regions a) rs' L h hn c n)
    as (_ & HR' & _); [done.. |].
  split; fields; try done.
  - by eapply geom_split.
  - eapply flist_ext; [| done]. intros j Hj. rewrite HcsF.
    assert (j ∉ L) by (apply HD; auto).
    rewrite !decide_False; [done | | congruence | set_solver].
    intros Enb. destruct (g_next _ _ _ HG h c j Hh Hc Enb). done.
  - intros j Hj. assert (j ∉ L) by (apply HD; auto). set_solver.
  - eapply bins_ok_change; [| done]. intros j.
    destruct (decide (j = h)) as [-> |];
      [right; split; intros _; [by exists c | eexists;
         split; [by rewrite HcsF, decide_False, decide_True | done]] |].
    destruct (decide (j = hn)) as [-> |];
      [right; split; [done | intros _; eexists; split;
         [by rewrite HcsF, decide_True | done]] |].
    destruct (decide (j ∈ L)) as [Hj |]; [left | right; set_solver].
    split_and!; [done | set_solver |]. rewrite HcsF, !decide_False by done.
    rewrite Hsame by done. case_decide; [| done].
    by destruct (chunks a !! j).
  - split; [done |]. intros j d [->%elem_of_singleton | Hj]%elem_of_union Hd Huse.
    + rewrite HcsF, decide_True in Hd by done. by simplify_eq.
    + assert (j ≠ hn) by (by intros ->). rewrite HcsF, decide_False, Hsame in Hd by done.
      destruct (chunks a !! j) as [d0 |] eqn:Ed; [| by repeat case_decide; simplify_eq/=].
      specialize (Hi2 j d0 Hj Ed). repeat case_decide; simplify_eq/=; auto.
Qed.

Lemma SplitChunk_spec a L fl h c n :
  inv a L fl → h ∈ L → chunks a !! h = Some c → in_use c = false →
  bin_num c = None → 0 < n < size c → (256 | n) →
  ∃ a' hn fl' cn,
    SplitChunk h n a = Ok (tt, a') ∧ inv a' ({[hn]} ∪ L) fl' ∧ env a' = env a ∧
    hn ∉ L ∧ split_store (chunks a) (chunks a') L h hn c cn n ∧
    in_use cn = false ∧ bin_num cn = Some (bin_of cn) ∧
    freed_at_count cn = freed_at_count c.
Proof.
  intros I Hh Hc Hu Hb Hn Hna.
  destruct (AllocateChunk_spec a L fl I) as (hn & cs0 & o & fl' & c0 & Hrun & HnL &
    Hnfl & Hc0 & Hb0 & Hsame & Hfl' & Hnd' & Hsub).
  destruct (split_ptr (chunks a) (regions a) L h c n) as [Hcov Hal]; [by apply I | done.. |].
  destruct (set_handle_spec (regions a) (ptr c + n) (Some hn) (i_regions _ _ _ I) Hcov Hal)
    as (rs' & Hset & Hspans & _).
  destruct (SplitChunk_run a L fl h c n hn cs0 o c0 rs') as (csF & Hr2 & HcsF); try done.
  destruct (split_inv a L fl fl' h c n hn cs0 o c0 rs' csF) as [HS2 I2]; try done.
  set (cn0 := tail_chunk c c0 h n) in *.
  set (a2 := with_regions rs' (with_free_chunks_list o (with_chunks csF a))) in *.
  destruct (InsertFreeChunkIntoBin_spec a2 ({[hn]} ∪ L) fl' hn cn0) as (bs & Hr3 & I3);
    [done | set_solver | by fields; rewrite HcsF, decide_True | done | done |].
  eexists _, hn, fl', (set_bin_num (Some (bin_of cn0)) cn0).
  split; [rewrite Hr2; exact Hr3 |]. split; [exact I3 |].
  split; [unfold env, a2; fields; by rewrite Hspans |]. split; [done |].
  split; [| split; [| split; reflexivity]]; [| done].
  destruct HS2 as (S1 & S2 & S3 & S4 & S5 & S6). split_and!; try done.
  + fields. by apply (lookup_upd_eq _ _ cn0).
  + intros j Hj. fields. rewrite (lookup_upd _ _ cn0), decide_False by (done || by intros <-).
    by apply S6.
Qed.

(** What remains of [Merge h1 h2] once its body has run: the chunk vector, and
    [h2] at the head of the recycled records. *)
Lemma Merge_run a L fl h1 h2 c1 c2 :
  inv a L fl → h1 ∈ L → chunks a !! h1 = Some c1 → next c1 = Some h2 →
  chunks a !! h2 = Some c2 → in_use c1 = false → in_use c2 = false →
  let cm := set_freed_at_count (Z.max (freed_at_count c1) (freed_at_count c2))
      (set_size (size c1 + size c2) (set_next (next c2) c1)) in
  let dead := set_next (free_chunks_list a)
      (set_bin_num None (set_allocation_id (-1) c2)) in
  ∃ rs' cs', set_handle (regions a) (ptr c2) None = Ok rs' ∧
    Merge h1 h2 a = Ok (tt, with_free_chunks_list (Some h2)
                              (with_chunks cs' (with_regions rs' a))) ∧
    (∀ j, cs' !! j = if decide (j = h2) then Some dead
       else if decide (j = h1) then Some cm
       else if decide (next c2 = Some j) then set_prev (Some h1) <$> chunks a !! j
       else chunks a !! j).
Proof.
  intros I Hh1 Hc1 Hnext Hc2 Hu1 Hu2 cm dead.
  pose proof I as [HR HG HF HND HD HB _].
  destruct (merge_adjacent (chunks a) (regions a) L h1 h2 c1 c2)
    as (Hh2 & Hne & Hp2 & Hpt & _); [done.. |].
  destruct (merge_span (chunks a) (regions a) L h1 h2 c1 c2)
    as (s & (i & r & Hi & ->)%spans_elem & [I1 I2] & [I3 I4]); [done.. |].
  destruct (proj1 HR i r Hi) as (? & _ & _ & _ & ? & _).
  destruct (g_chunk _ _ _ HG h1 c1 Hh1 Hc1) as (? & ? & ?).
  destruct (g_chunk _ _ _ HG h2 c2 Hh2 Hc2) as (? & ? & Ha2).
  destruct (set_handle_spec (regions a) (ptr c2) None HR) as (rs' & Hset & _);
    [by apply (live_covered (chunks a) _ L h2) | done |].
  assert (Hw : wrap_u64 (size c1 + size c2) = size c1 + size c2).
  { apply wrap_u64_id. simpl in *. int_lia. }
  assert (Hl1 := lookup_lt_Some _ _ _ Hc1). assert (Hl2 := lookup_lt_Some _ _ _ Hc2).
  exists rs'. enough (∃ cs', Merge h1 h2 a = Ok (tt, with_free_chunks_list (Some h2)
                              (with_chunks cs' (with_regions rs' a))) ∧
    (∀ j, cs' !! j = if decide (j = h2) then Some dead
       else if decide (j = h1) then Some cm
       else if decide (next c2 = Some j) then set_prev (Some h1) <$> chunks a !! j
       else chunks a !! j)) as (cs' & ? & ?) by eauto.
  unfold Merge, DeleteChunk, rm_erase, rm_set_handle, DeallocateChunk.
  mstep. mstep. rewrite Hu1, Hu2. mstep. mstep. mstep.
  erewrite run_bind by (apply check_run; rewrite Hp2; apply bool_decide_true; done).
  destruct (next c2) as [nb |] eqn:Enb.
  - destruct (g_next _ _ _ HG h2 c2 nb Hh2 Hc2 Enb) as (Hnb & cnb & Hcnb & _ & Hpnb & _).
    assert (nb ≠ h1) by (intros ->; assert (cnb = c1) by congruence; subst; lia).
    assert (nb ≠ h2) by (intros ->; assert (cnb = c2) by congruence; subst; lia).
    assert (Hl3 := lookup_lt_Some _ _ _ Hcnb).
    mstep. mstep. mstep. mstep.
    erewrite run_bind; [| erewrite run_bind by reflexivity; fields;
      erewrite run_bind by (apply lift_run; exact Hset); reflexivity].
    mstep. mstep. store_of. split; [reflexivity |]. fields.
    change (size (set_next (Some nb) c1)) with (size c1). rewrite Hw. intros j.
    rewrite !list_lookup_insert, !length_insert.
    repeat case_decide; destruct_and?; simplify_eq; try lia; try tauto; try done.
    all: by rewrite Hcnb.
  - mstep. mstep. mstep. mstep.
    erewrite run_bind; [| erewrite run_bind by reflexivity; fields;
      erewrite run_bind by (apply lift_run; exact Hset); reflexivity].
    mstep. mstep. store_of. split; [reflexivity |]. fields.
    change (size (set_next None c1)) with (size c1). rewrite Hw. intros j.
    rewrite !list_lookup_insert, !length_insert.
    repeat case_decide; destruct_and?; simplify_eq; try lia; try tauto; try done.
Qed.

Lemma Merge_spec a L fl h1 h2 c1 c2 :
  inv a L fl → h1 ∈ L → chunks a !! h1 = Some c1 → next c1 = Some h2 →
  chunks a !! h2 = Some c2 → in_use c1 = false → in_use c2 = false →
  bin_num c1 = None → bin_num c2 = None →
  ∃ a' fl' cm,
    Merge h1 h2 a = Ok (tt, a') ∧ inv a' (L ∖ {[h2]}) fl' ∧ env a' = env a ∧
    merge_store (chunks a) (chunks a') L h1 h2 c1 c2 cm ∧
    in_use cm = false ∧ bin_num cm = None ∧
    freed_at_count cm = Z.max (freed_at_count c1) (freed_at_count c2).
Proof.
  intros I Hh1 Hc1 Hnext Hc2 Hu1 Hu2 Hb1 Hb2.
  destruct (Merge_run a L fl h1 h2 c1 c2 I) as (rs' & cs' & Hset & Hrun & Hlk);
    [done.. |].
  pose proof I as [HR HG HF HND HD HB [Hi1 Hi2]].
  destruct (merge_adjacent (chunks a) (regions a) L h1 h2 c1 c2)
    as (Hh2 & Hne & Hp2 & Hpt & _); [done.. |].
  destruct (g_chunk _ _ _ HG h2 c2 Hh2 Hc2) as (? & ? & Ha2).
  destruct (set_handle_spec (regions a) (ptr c2) None HR) as (r & E & Hsp & HR' & _);
    [by apply (live_covered (chunks a) _ L h2) | done |].
  assert (r = rs') as -> by congruence. clear E.
  set (cm := set_freed_at_count (Z.max (freed_at_count c1) (freed_at_count c2))
      (set_size (size c1 + size c2) (set_next (next c2) c1))) in *.
  assert (HS : merge_store (chunks a) cs' L h1 h2 c1 c2 cm).
  { split_and!; try done. intros j Hj Hj2. by rewrite Hlk, decide_False. }
  assert (Hh2fl : h2 ∉ fl) by (intros ?; by destruct (HD h2)).
  eexists _, (h2 :: fl), cm. split; [exact Hrun |].
  split; [| split; [unfold env; fields; by rewrite Hsp | done]].
  split; fields; try done.
  - by apply (geom_merge (chunks a) cs' (regions a) rs' L h1 h2 c1 c2 cm).
  - simpl. split; [done |]. eexists. rewrite Hlk, decide_True by done.
    split_and!; try done. eapply flist_ext; [| exact HF]. intros j Hj.
    assert (j ∉ L) by by apply HD.
    rewrite Hlk, !decide_False; [done | | congruence | congruence].
    intros Enb. by destruct (g_next _ _ _ HG h2 c2 j Hh2 Hc2 Enb).
  - by constructor.
  - intros j [-> | Hj]%elem_of_cons; [set_solver |]. pose proof (HD j Hj). set_solver.
  - eapply bins_ok_change; [| done]. intros j.
    destruct (decide (j = h2)) as [-> |];
      [right; split; [by exists c2 | set_solver] |].
    destruct (decide (j = h1)) as [-> |];
      [right; split; [by exists c1 | exists cm; by rewrite Hlk, decide_False, decide_True] |].
    destruct (decide (j ∈ L)) as [Hj |]; [left | right; set_solver].
    split_and!; [done | set_solver |]. rewrite Hlk, !decide_False by done.
    case_decide; [| done]. by destruct (chunks a !! j).
  - split; [done |].
    intros j d [Hj Hj2%not_elem_of_singleton]%elem_of_difference Hd Huse.
    rewrite Hlk, decide_False in Hd by done.
    destruct (decide (j = h1)) as [-> |]; [simplify_eq; change (in_use c1 = true) in Huse; congruence |].
    destruct (chunks a !! j) as [d0 |] eqn:Hd0;
      [| by case_decide; simplify_eq/=].
    specialize (Hi2 j d0 Hj Hd0). case_decide; simplify_eq/=; auto.
Qed.

(** ** Coalescing *)

(** Rebinning a chunk does not change the client's view. *)
Lemma rebin_lookup (cs : list Chunk) h c j d x :
  cs !! h = Some c → <[h := set_bin_num x c]> cs !! j = Some d →
  ∃ d0, cs !! j = Some d0 ∧ block d = block d0 ∧ in_use d = in_use d0 ∧
    geo d = geo d0 ∧ freed_at_count d = freed_at_count d0 ∧
    bin_num d = if decide (h = j) then x else bin_num d0.
Proof.
  intros Hc. rewrite (lookup_upd _ _ _ _ _ Hc). case_decide; intros Hd; simplify_eq; eauto 10.
Qed.

Lemma rebin_lookup_inv (cs : list Chunk) h c j d0 x :
  cs !! h = Some c → cs !! j = Some d0 →
  ∃ d, <[h := set_bin_num x c]> cs !! j = Some d ∧ block d = block d0 ∧
    in_use d = in_use d0 ∧ geo d = geo d0 ∧ freed_at_count d = freed_at_count d0.
Proof.
  intros Hc Hd. rewrite (lookup_upd _ _ _ _ _ Hc). case_decide; simplify_eq; eauto 10.
Qed.

Lemma rebin_blocks (cs : list Chunk) L h c x b :
  cs !! h = Some c → blocks (<[h := set_bin_num x c]> cs) L b ↔ blocks cs L b.
Proof.
  intros Hc. split.
  - intros (j & d & Hj & Hd & Hu & ->).
    destruct (rebin_lookup _ _ _ _ _ _ Hc Hd) as (d0 & Hd0 & E1 & E2 & _).
    exists j, d0. split_and!; congruence.
  - intros (j & d0 & Hj & Hd0 & Hu & ->).
    destruct (rebin_lookup_inv _ _ _ _ _ x Hc Hd0) as (d & Hd & E1 & E2 & _).
    exists j, d. split_and!; congruence.
Qed.

Lemma rebin_free_adjacent (cs : list Chunk) L h c b x y :
  cs !! h = Some c →
  free_adjacent (<[h := set_bin_num b c]> cs) L x y → free_adjacent cs L x y.
Proof.
  intros Hc (Hx & cx & cy & Hcx & Hcy & Hn & Ux & Uy).
  destruct (rebin_lookup _ _ _ _ _ _ Hc Hcx) as (dx & Hdx & _ & E1 & E2 & _).
  destruct (rebin_lookup _ _ _ _ _ _ Hc Hcy) as (dy & Hdy & _ & E3 & _).
  apply geo_eq in E2 as (_ & _ & _ & E2).
  split; [done |]. exists dx, dy. split_and!; congruence.
Qed.

Lemma rebin_untimed (cs : list Chunk) L h c b :
  cs !! h = Some c → untimed cs L → untimed (<[h := set_bin_num b c]> cs) L.
Proof.
  intros Hc U j d Hj Hd.
  destruct (rebin_lookup _ _ _ _ _ _ Hc Hd) as (d0 & Hd0 & _ & _ & _ & E & _).
  rewrite E. by apply (U j).
Qed.

(** What merging two neighbours, one of them taken out of its bin first, does. *)
Record merged (a a' : Allocator) (L L' : gset ChunkHandle) (fl' : list ChunkHandle)
    (h1 h2 : ChunkHandle) (c1 c2 cm : Chunk) : Prop := Merged {
  m_live : L' = L ∖ {[h2]};
  m_inv : inv a' L' fl';
  m_env : env a' = env a;
  m_at : chunks a' !! h1 = Some cm;
  m_free : in_use cm = false ∧ bin_num cm = None;
  m_geo : ptr cm = ptr c1 ∧ size cm = size c1 + size c2 ∧ prev cm = prev c1 ∧
          next cm = next c2;
  m_freed : freed_at_count cm = Z.max (freed_at_count c1) (freed_at_count c2);
  m_binned : binned_except (λ j, j = h1) (chunks a') L';
  m_blocks b : blocks (chunks a') L' b ↔ blocks (chunks a) L b;
  m_untimed : untimed (chunks a) L → untimed (chunks a') L';
  m_adjacent x y : free_adjacent (chunks a') L' x y →
    (x = h1 ∧ free_adjacent (chunks a) L h2 y) ∨
    (y = h1 ∧ free_adjacent (chunks a) L x h1) ∨
    (x ≠ h1 ∧ y ≠ h1 ∧ free_adjacent (chunks a) L x y)
}.

Lemma remove_merge_spec a L fl h1 h2 c1 c2 x :
  inv a L fl → h1 ∈ L → chunks a !! h1 = Some c1 → next c1 = Some h2 →
  chunks a !! h2 = Some c2 → in_use c1 = false → in_use c2 = false →
  (x = h1 ∧ bin_num c1 ≠ None ∧ bin_num c2 = None) ∨
  (x = h2 ∧ bin_num c2 ≠ None ∧ bin_num c1 = None) →
  binned_except (λ j, j = h1 ∨ j = h2) (chunks a) L →
  ∃ a' fl' cm,
    (RemoveFreeChunkFromBin x;; Merge h1 h2) a = Ok (tt, a') ∧
    merged a a' L (L ∖ {[h2]}) fl' h1 h2 c1 c2 cm.
Proof.
  intros I Hh1 Hc1 Hnext Hc2 Hu1 Hu2 Hx Hbe. pose proof (i_geom _ _ _ I) as HG.
  destruct (merge_adjacent (chunks a) (regions a) L h1 h2 c1 c2)
    as (Hh2 & Hne & Hp2 & Hpt & _); [done.. |].
  assert (∃ cx b, x ∈ L ∧ chunks a !! x = Some cx ∧ bin_num cx = Some b ∧
            (x = h1 ∨ x = h2)) as (cx & b & HxL & Hcx & Hbx & Hx12).
  { destruct Hx as [(-> & Hb & _) | (-> & Hb & _)];
      [destruct (bin_num c1) eqn:E | destruct (bin_num c2) eqn:E]; naive_solver. }
  destruct (proj1 (RemoveFreeChunk_spec a L fl x cx b I HxL Hcx Hbx)) as (bs & Hr1 & I1).
  set (cs1 := <[x := set_bin_num None cx]> (chunks a)) in *.
  assert (∃ d1, cs1 !! h1 = Some d1 ∧ geo d1 = geo c1 ∧ in_use d1 = false ∧
            bin_num d1 = None ∧ freed_at_count d1 = freed_at_count c1)
    as (d1 & Hd1 & Eg1 & Hv1 & Hn1 & Hf1).
  { unfold cs1. rewrite (lookup_upd _ _ _ _ _ Hcx).
    case_decide; subst; simplify_eq; [by eexists |]. exists c1. naive_solver. }
  assert (∃ d2, cs1 !! h2 = Some d2 ∧ geo d2 = geo c2 ∧ in_use d2 = false ∧
            bin_num d2 = None ∧ freed_at_count d2 = freed_at_count c2)
    as (d2 & Hd2 & Eg2 & Hv2 & Hn2 & Hf2).
  { unfold cs1. rewrite (lookup_upd _ _ _ _ _ Hcx).
    case_decide; subst; simplify_eq; [by eexists |]. exists c2. naive_solver. }
  apply geo_eq in Eg1 as (G1 & G2 & G3 & G4). apply geo_eq in Eg2 as (K1 & K2 & K3 & K4).
  destruct (Merge_spec _ L fl h1 h2 d1 d2 I1) as (a2 & fl2 & cm & Hr2 & I2 & E2 & HS & Um &
    Bm & Fm); fields; try done; [congruence |].
  exists a2, fl2, cm. split; [by erewrite run_bind |].
  fields. pose proof (i_geom _ _ _ I1) as HG1. simpl in HG1, HS. fold cs1 in HG1, HS.
  pose proof HS as (S1 & S2 & S3 & S4 & _).
  split; try done.
  - by apply (merge_at cs1 (chunks a2) L h1 h2 d1 d2 cm).
  - split_and!; congruence.
  - congruence.
  - assert (binned_except (λ j, j = h1 ∨ j = h2 ∨ False) cs1 L) as B1.
    { intros j d Hj HP Hd Hud.
      destruct (rebin_lookup _ _ _ _ _ _ Hcx Hd) as (d0 & Hd0 & _ & Eu & _ & _ & Eb).
      rewrite Eb. rewrite decide_False by naive_solver. apply (Hbe j d0); naive_solver. }
    intros j d Hj HP. apply (merge_binned cs1 (chunks a2) L h1 h2 d1 d2 cm) with (P := λ _, False);
      naive_solver.
  - intros b'. rewrite (merge_blocks cs1 (chunks a2) L h1 h2 d1 d2 cm) by (done || congruence).
    by apply rebin_blocks.
  - intros U. apply (merge_untimed cs1 (chunks a2) L h1 h2 d1 d2 cm); try done.
    by apply rebin_untimed.
  - intros y z Hyz.
    assert (z ∈ L ∖ {[h2]}).
    { destruct Hyz as (Hy & cy & cz & Hcy & Hcz & Hn & _).
      by destruct (g_next _ _ _ (i_geom _ _ _ I2) y cy z Hy Hcy Hn). }
    destruct (merge_free_adjacent cs1 (chunks a2) L h1 h2 d1 d2 cm) with (x := y) (y := z)
      as [[-> Hyz'] | [[-> Hyz'] | (? & ? & Hyz')]]; try done; try congruence.
    + intros j d Hj Hd Hnj. destruct (g_next _ _ _ HG1 j d h2 Hj Hd Hnj) as (_ & e & He & Hp & _).
      congruence.
    + intros d Hd Hnd. destruct (g_next _ _ _ HG1 h2 d h1 Hh2 Hd Hnd) as (_ & e & He & Hp & Hq & _).
      destruct (g_chunk _ _ _ HG h1 c1 Hh1 Hc1). destruct (g_chunk _ _ _ HG h2 c2 Hh2 Hc2).
      simplify_eq. lia.
    + left. split; [done |]. by eapply rebin_free_adjacent.
    + right. left. split; [done |]. by eapply rebin_free_adjacent.
    + right. right. split; [done |]. split; [done |]. by eapply rebin_free_adjacent.
Qed.

(** The outcome of a coalescing phase: a free chunk [h'], outside its bin, that
    covers the free chunk [h] of the state before. *)
Record coalesced (a : Allocator) (L : gset ChunkHandle) (c : Chunk)
    (a' : Allocator) (L' : gset ChunkHandle) (fl' : list ChunkHandle)
    (h' : ChunkHandle) (c' : Chunk) : Prop := Coalesced {
  q_inv : inv a' L' fl';
  q_env : env a' = env a;
  q_live : h' ∈ L';
  q_at : chunks a' !! h' = Some c';
  q_free : in_use c' = false ∧ bin_num c' = None;
  q_binned : binned_except (λ j, j = h') (chunks a') L';
  q_blocks b : blocks (chunks a') L' b ↔ blocks (chunks a) L b;
  q_untimed : untimed (chunks a) L → untimed (chunks a') L';
  q_covers : ptr c' ≤ ptr c ∧ ptr c + size c ≤ ptr c' + size c'
}.

Lemma coalesced_refl a L fl h c :
  inv a L fl → h ∈ L → chunks a !! h = Some c → in_use c = false →
  bin_num c = None → binned_except (λ j, j = h) (chunks a) L →
  coalesced a L c a L fl h c.
Proof. intros. split; done. Qed.

(** Joining the chunk with its successor. *)
Lemma coalesce_next a L fl h c ign :
  inv a L fl → h ∈ L → chunks a !! h = Some c → in_use c = false →
  bin_num c = None → binned_except (λ j, j = h) (chunks a) L →
  ∃ a1 L1 fl1 c1,
    (match next c with
     | Some hn =>
         n ← ChunkFromHandle hn;
         if negb (in_use n) && ((freed_at_count n =? 0) || ign)
         then RemoveFreeChunkFromBin hn;; Merge h hn
         else mret tt
     | None => mret tt
     end) a = Ok (tt, a1) ∧
    coalesced a L c a1 L1 fl1 h c1 ∧
    (ign = true ∨ untimed (chunks a) L →
     (∀ x y, free_adjacent (chunks a) L x y → x = h ∨ y = h) →
     ∀ x y, free_adjacent (chunks a1) L1 x y → y = h).
Proof.
  intros I Hh Hc Hu Hb Hbe.
  destruct (next c) as [hn |] eqn:En.
  - destruct (g_next _ _ _ (i_geom _ _ _ I) h c hn Hh Hc En)
      as (HnL & n & Hn & Hp & Hpt & _).
    destruct (g_chunk _ _ _ (i_geom _ _ _ I) h c Hh Hc).
    destruct (g_chunk _ _ _ (i_geom _ _ _ I) hn n HnL Hn).
    assert (hn ≠ h) by (intros ->; simplify_eq; lia).
    destruct (negb (in_use n) && ((freed_at_count n =? 0) || ign)) eqn:Ec.
    + apply andb_true_iff in Ec as [Hun%negb_true_iff Hfr].
      destruct (remove_merge_spec a L fl h hn c n hn) as (a1 & fl1 & cm & Hr & Hm); try done.
      { right. split; [done |]. split; [by apply (Hbe hn n) | done]. }
      { intros j d ? ? ? ?. apply (Hbe j d); tauto. }
      destruct Hm as [_ M1 M2 M3 M4 M5 M6 M7 M8 M9 M10].
      exists a1, (L ∖ {[hn]}), fl1, cm. split; [mstep; by rewrite Hun, Hfr |].
      split; [split; try done; [set_solver | lia] |].
      intros _ Hadj x y Hxy. destruct (M10 x y Hxy) as [[-> F] | [[-> F] | (? & ? & F)]].
      * exfalso. destruct (Hadj _ _ F) as [? | ->]; [done |].
        destruct F as (_ & cx & cy & F1 & F2 & F3 & _).
        destruct (g_next _ _ _ (i_geom _ _ _ I) hn cx h HnL F1 F3) as (_ & e & E1 & _ & E2 & _).
        simplify_eq. lia.
      * done.
      * destruct (Hadj _ _ F); congruence.
    + exists a, L, fl, c. split; [mstep; by rewrite Ec |].
      split; [by apply coalesced_refl |].
      intros Hcond Hadj x y Hxy. destruct (Hadj x y Hxy) as [-> | ->]; [exfalso | done].
      destruct Hxy as (_ & cx & cy & F1 & F2 & F3 & F4 & F5). simplify_eq.
      rewrite F5 in Ec. simpl in Ec. apply orb_false_iff in Ec as [Ef ->].
      destruct Hcond as [| U]; [done |]. rewrite (U hn n) in Ef by done. done.
  - exists a, L, fl, c. split; [done |]. split; [by apply coalesced_refl |].
    intros _ Hadj x y Hxy. destruct (Hadj x y Hxy) as [-> | ->]; [exfalso | done].
    destruct Hxy as (_ & cx & cy & F1 & F2 & F3 & _). congruence.
Qed.

(** Joining it with its predecessor. *)
Lemma coalesce_prev a L fl h c ign :
  inv a L fl → h ∈ L → chunks a !! h = Some c → in_use c = false →
  bin_num c = None → binned_except (λ j, j = h) (chunks a) L →
  ∃ a1 L1 fl1 h1 c1,
    (match prev c with
     | Some hp =>
         p ← ChunkFromHandle hp;
         if negb (in_use p) && ((freed_at_count p =? 0) || ign)
         then RemoveFreeChunkFromBin hp;; Merge hp h;; mret hp
         else mret h
     | None => mret h
     end) a = Ok (h1, a1) ∧
    coalesced a L c a1 L1 fl1 h1 c1 ∧
    (ign = true ∨ untimed (chunks a) L →
     (∀ x y, free_adjacent (chunks a) L x y → y = h) →
     ∀ x y, ¬ free_adjacent (chunks a1) L1 x y).
Proof.
  intros I Hh Hc Hu Hb Hbe. pose proof (i_geom _ _ _ I) as HG.
  destruct (prev c) as [hp |] eqn:Ep.
  - destruct (g_prev _ _ _ HG h c hp Hh Hc Ep) as (HpL & p & Hp & Hnp).
    destruct (g_next _ _ _ HG hp p h HpL Hp Hnp) as (_ & c' & Hc' & _ & Hpt & _).
    assert (c' = c) as -> by congruence.
    destruct (g_chunk _ _ _ HG h c Hh Hc). destruct (g_chunk _ _ _ HG hp p HpL Hp).
    assert (hp ≠ h) by (intros ->; simplify_eq; lia).
    destruct (negb (in_use p) && ((freed_at_count p =? 0) || ign)) eqn:Ec.
    + apply andb_true_iff in Ec as [Hup%negb_true_iff Hfr].
      destruct (remove_merge_spec a L fl hp h p c hp) as (a1 & fl1 & cm & Hr & Hm); try done.
      { left. split; [done |]. split; [by apply (Hbe hp p) | done]. }
      { intros j d ? ? ? ?. apply (Hbe j d); tauto. }
      destruct Hm as [_ M1 M2 M3 M4 M5 M6 M7 M8 M9 M10].
      exists a1, (L ∖ {[h]}), fl1, hp, cm.
      split.
      { mstep. rewrite Hup, Hfr. simpl. rewrite <- bind_assoc_run.
        by erewrite run_bind by exact Hr. }
      split; [split; try done; [set_solver | lia] |].
      intros _ Hadj x y Hxy. destruct (M10 x y Hxy) as [[-> F] | [[-> F] | (? & ? & F)]].
      * apply Hadj in F as ->. destruct Hxy as (Hx & cx & cy & F1 & F2 & F3 & _).
        destruct (g_next _ _ _ (i_geom _ _ _ M1) hp cx h Hx F1 F3). set_solver.
      * by apply Hadj in F.
      * apply Hadj in F as ->. destruct Hxy as (Hx & cx & cy & F1 & F2 & F3 & _).
        destruct (g_next _ _ _ (i_geom _ _ _ M1) x cx h Hx F1 F3). set_solver.
    + exists a, L, fl, h, c. split; [mstep; by rewrite Ec |].
      split; [by apply coalesced_refl |].
      intros Hcond Hadj x y Hxy. pose proof (Hadj x y Hxy) as ->.
      destruct Hxy as (Hx & cx & cy & F1 & F2 & F3 & F4 & F5). simplify_eq.
      destruct (g_next _ _ _ HG x cx h Hx F1 F3) as (_ & e & E1 & E2 & _).
      assert (x = hp) as -> by congruence. assert (cx = p) as -> by congruence.
      rewrite F4 in Ec. simpl in Ec. apply orb_false_iff in Ec as [Ef ->].
      destruct Hcond as [| U]; [done |]. by rewrite (U hp p) in Ef.
  - exists a, L, fl, h, c. split; [done |]. split; [by apply coalesced_refl |].
    intros _ Hadj x y Hxy. pose proof (Hadj x y Hxy) as ->.
    destruct Hxy as (Hx & cx & cy & F1 & F2 & F3 & _).
    destruct (g_next _ _ _ HG x cx h Hx F1 F3) as (_ & e & E1 & E2 & _). congruence.
Qed.

Lemma TryToCoalesce_spec a L fl h c ign :
  inv a L fl → h ∈ L → chunks a !! h = Some c → in_use c = false →
  bin_num c = None → binned_except (λ j, j = h) (chunks a) L →
  ∃ a' L' fl' h' c',
    TryToCoalesce h ign a = Ok (h', a') ∧ coalesced a L c a' L' fl' h' c' ∧
    (ign = true ∨ untimed (chunks a) L →
     (∀ x y, free_adjacent (chunks a) L x y → x = h ∨ y = h) →
     ∀ x y, ¬ free_adjacent (chunks a') L' x y).
Proof.
  intros I Hh Hc Hu Hb Hbe. unfold TryToCoalesce.
  destruct (negb ign && (freed_at_count c >? 0)) eqn:Eg.
  - exists a, L, fl, h, c. split; [mstep; by rewrite Eg |].
    split; [by apply coalesced_refl |]. apply andb_true_iff in Eg as [Ei Ef].
    intros [-> | U]; [done |]. rewrite (U h c) in Ef; done.
  - destruct (coalesce_next a L fl h c ign) as (a1 & L1 & fl1 & c1 & Hr1 & Q1 & Ha1); try done.
    destruct Q1 as [Qi Qe Ql Qa [Qf1 Qf2] Qb Qbl Qu Qc].
    destruct (coalesce_prev a1 L1 fl1 h c1 ign) as (a2 & L2 & fl2 & h2 & c2 & Hr2 & Q2 & Ha2);
      try done.
    exists a2, L2, fl2, h2, c2. split.
    { mstep. rewrite Eg. erewrite run_bind by exact Hr1. by mstep. }
    split.
    + destruct Q2 as [Ri Re Rl Ra Rf Rb Rbl Ru Rc].
      split; try done; [congruence | intros b; by rewrite Rbl | auto | lia].
    + intros Hcond Hadj. apply Ha2; [destruct Hcond; auto |]. by apply Ha1.
Qed.

(** ** Releasing a block *)

(** The allocator between two calls: every free chunk is binned and, when no
    timing counter is set, there are no timestamps and no two adjacent free
    chunks. *)
Record steady (a : Allocator) (L : gset ChunkHandle) (fl : list ChunkHandle)
    : Prop := Steady {
  st_inv : inv a L fl;
  st_binned : binned_except (λ _, False) (chunks a) L;
  st_untimed : timing_counter a = None →
    timestamped_chunks a = [] ∧ untimed (chunks a) L ∧
    ∀ x y, ¬ free_adjacent (chunks a) L x y
}.

(** Putting a coalesced chunk back into a bin. *)
Lemma bin_coalesced a L fl h c :
  inv a L fl → h ∈ L → chunks a !! h = Some c → in_use c = false →
  bin_num c = None → binned_except (λ j, j = h) (chunks a) L →
  ∃ a', InsertFreeChunkIntoBin h a = Ok (tt, a') ∧ inv a' L fl ∧ env a' = env a ∧
    binned_except (λ _, False) (chunks a') L ∧
    (∀ b, blocks (chunks a') L b ↔ blocks (chunks a) L b) ∧
    (untimed (chunks a) L → untimed (chunks a') L) ∧
    (∀ x y, free_adjacent (chunks a') L x y → free_adjacent (chunks a) L x y) ∧
    chunks a' = <[h := set_bin_num (Some (bin_of c)) c]> (chunks a).
Proof.
  intros I Hh Hc Hu Hb Hbe.
  destruct (InsertFreeChunkIntoBin_spec a L fl h c) as (bs & Hr & I'); try done.
  eexists. split; [exact Hr |]. split; [exact I' |]. fields. split_and!.
  - done.
  - intros j d Hj _ Hd Hud.
    destruct (rebin_lookup _ _ _ _ _ _ Hc Hd) as (d0 & Hd0 & _ & E & _ & _ & Eb).
    rewrite Eb. case_decide; [done |]. apply (Hbe j d0); try congruence; auto.
  - intros b. by apply rebin_blocks.
  - by apply rebin_untimed.
  - intros x y. by apply rebin_free_adjacent.
  - done.
Qed.

(** The chunk of a client's block. *)
Lemma block_chunk a L fl p sz req id :
  inv a L fl → blocks (chunks a) L (p, sz, req, id) →
  ∃ h c, h ∈ L ∧ chunks a !! h = Some c ∧ in_use c = true ∧ bin_num c = None ∧
    (p, sz, req, id) = block c ∧ rm_get_handle p a = Ok (Some h, a) ∧ p ≠ 0.
Proof.
  intros I (h & c & Hh & Hc & Hu & E). exists h, c. pose proof E as E0.
  injection E as -> -> -> ->.
  destruct (g_where _ _ _ (i_geom _ _ _ I) h c Hh Hc) as (Hg & s & Hs & H1 & _).
  apply spans_elem in Hs as (i & r & Hi & ->). simpl in *.
  destruct (proj1 (i_regions _ _ _ I) i r Hi) as (? & _).
  split_and!; try done; [| | lia].
  - destruct (bin_num c) eqn:Eb; [| done].
    destruct (b_free _ _ _ (i_bins _ _ _ I) h c _ Hh Hc Eb). congruence.
  - unfold rm_get_handle. erewrite run_bind by reflexivity. by apply lift_run.
Qed.

(** [MarkFree] without a timing counter. *)
Lemma MarkFree_spec a L fl h c :
  inv a L fl → h ∈ L → chunks a !! h = Some c → in_use c = true →
  bin_num c = None → timing_counter a = None →
  let cs' := <[h := set_allocation_id (-1) c]> (chunks a) in
  ∃ a', MarkFree h a = Ok (tt, a') ∧
    a' = with_stats (add_bytes_in_use (- size c) (stats a)) (with_chunks cs' a) ∧
    inv a' L fl ∧
    (∀ b, blocks cs' L b ↔ blocks (chunks a) L b ∧ b ≠ block c) ∧
    (untimed (chunks a) L → untimed cs' L) ∧
    (∀ x y, free_adjacent cs' L x y →
       x = h ∨ y = h ∨ free_adjacent (chunks a) L x y) ∧
    (binned_except (λ _, False) (chunks a) L → binned_except (λ j, j = h) cs' L).
Proof.
  intros I Hh Hc Hu Hb Ht cs'.
  assert (Hlk : ∀ j, cs' !! j = if decide (h = j) then Some (set_allocation_id (-1) c)
                               else chunks a !! j) by (intros; by apply (lookup_upd _ _ c)).
  eexists. split; [| split; [reflexivity |]].
  { unfold MarkFree. mstep. rewrite Hu, Hb. mstep. mstep. mstep. fields. rewrite Ht. by mstep. }
  pose proof I as [HR HG HF HND HD HB [Hi1 Hi2]]. split_and!.
  - split; fields; try done.
    + eapply geom_ext; [| done]. intros j Hj. rewrite Hlk.
      case_decide; [subst; by rewrite Hc | done].
    + eapply flist_ext; [| done]. intros j Hj. rewrite Hlk, decide_False; [done |].
      intros <-. by destruct (HD h).
    + eapply bins_ok_change; [| done]. intros j. rewrite Hlk.
      destruct (decide (j ∈ L)); [| right; tauto].
      case_decide; [subst; right | by left].
      split; intros _; [by exists c |]. eexists. by rewrite Hlk, decide_True.
    + split; [done |]. intros j d Hj. rewrite Hlk. case_decide; [naive_solver |].
      by apply Hi2.
  - intros b. split.
    + intros (j & d & Hj & Hd & Hud & ->). rewrite Hlk in Hd. case_decide; simplify_eq/=.
      split; [by exists j, d |]. intros E. injection E as E1 E2 E3 E4.
      destruct (g_chunk _ _ _ HG h c Hh Hc). destruct (g_chunk _ _ _ HG j d Hj Hd).
      destruct (g_disj _ _ _ HG h j c d) as [|]; try done; lia.
    + intros [(j & d & Hj & Hd & Hud & ->) Hne]. exists j, d.
      rewrite Hlk. case_decide; [subst; congruence | done].
  - intros U j d Hj. rewrite Hlk. case_decide; [| by apply U].
    intros [= <-]. simpl. by apply (U h).
  - intros x y (Hx & cx & cy & Hcx & Hcy & Hn & Ux & Uy).
    rewrite Hlk in Hcx, Hcy. do 2 case_decide; auto. right. right. split; eauto 10.
  - intros B j d Hj Hne. rewrite Hlk, decide_False by congruence. by apply (B j); auto.
Qed.

(** Releasing a block, without a timing counter. *)
Lemma DeallocateRaw_spec a L fl p sz req id :
  steady a L fl → timing_counter a = None →
  blocks (chunks a) L (p, sz, req, id) →
  ∃ a' L' fl',
    DeallocateRawInternal p a = Ok (tt, a') ∧ steady a' L' fl' ∧
    (∀ b, blocks (chunks a') L' b ↔
          blocks (chunks a) L b ∧ b ≠ (p, sz, req, id)) ∧
    bytes_in_use (stats a') = wrap_s64 (bytes_in_use (stats a) - sz) ∧
    spans (regions a') = spans (regions a) ∧ opts a' = opts a ∧
    timing_counter a' = None ∧ sub a' = sub a ∧
    curr_region_allocation_bytes a' = curr_region_allocation_bytes a.
Proof.
  intros [I Hbe Hut] Ht Hblk. destruct (Hut Ht) as (Hts & Hun & Hadj).
  destruct (block_chunk a L fl p sz req id I Hblk)
    as (h & c & Hh & Hc & Hu & Hb & Eb & Hg & Hp0).
  destruct (MarkFree_spec a L fl h c) as (a1 & Hr1 & Ea1 & I1 & B1 & U1 & A1 & N1); try done.
  assert (Hc1 : chunks a1 !! h = Some (set_allocation_id (-1) c)).
  { subst a1. fields. by apply (lookup_upd_eq _ _ c). }
  destruct (TryToCoalesce_spec a1 L fl h _ false I1 Hh Hc1)
    as (a2 & L2 & fl2 & h2 & c2 & Hr2 & Q & A2); try done.
  { subst a1. fields. auto. }
  destruct Q as [Qi Qe Ql Qa [Qf1 Qf2] Qb Qbl Qu _].
  destruct (bin_coalesced a2 L2 fl2 h2 c2) as (a3 & Hr3 & I3 & E3 & N3 & B3 & U3 & A3 & _);
    try done.
  assert (Ee : env a3 = env a1) by congruence.
  assert (Hc1s : chunks a1 = <[h := set_allocation_id (-1) c]> (chunks a)) by by subst a1.
  exists a3, L2, fl2. split.
  { unfold DeallocateRawInternal. destruct (Z.eqb_spec p 0); [done |].
    erewrite run_bind by exact Hg. mstep. mstep. erewrite run_bind by exact Hr1.
    mstep. subst a1. fields. rewrite Ht. by erewrite run_bind by exact Hr2. }
  unfold env in Ee. injection Ee as Eop ? Ecr Esb ? Est Etc Ets ? Esp.
  split; [split; try done | split_and!].
  - intros _. rewrite Ets. subst a1. fields. split_and!; [done | auto |].
    intros x y Hxy. apply (A2 (or_intror (U1 Hun))) with x y; [| by apply A3].
    intros x' y' F. destruct (A1 x' y' F) as [|[|]]; auto. by destruct (Hadj x' y').
  - intros b. rewrite B3, Qbl, Hc1s, B1, Eb. done.
  - rewrite Est. subst a1. fields. simpl. injection Eb as -> -> -> ->. by f_equal.
  - rewrite Esp. by subst a1.
  - rewrite Eop. by subst a1.
  - rewrite Etc. by subst a1.
  - rewrite Esb. by subst a1.
  - rewrite Ecr. by subst a1.
Qed.

End Specs.
End BfcProofs.
