(* ===== verification/BfcFind.v ===== *)
(** * Best fit: [FindChunkPtr] *)
From S2P Require Import Prelude BfcState BfcOps BfcInv BfcProofs.

Module BfcFind.
Import Bfc BfcOps BfcInv BfcProofs.

(** ** Rounding and alignment *)

Lemma RoundedBytes_eq b :
  0 ≤ b ≤ 2 ^ 64 - 256 → RoundedBytes b = 256 * ((b + 255) / 256).
Proof.
  intros Hb. unfold RoundedBytes, kMinAllocationSize.
  assert (0 ≤ (b + 255) / 256) by (apply Z.div_pos; lia).
  assert (256 * ((b + 255) / 256) ≤ b + 255) by (apply Z.mul_div_le; lia).
  replace (b + 256 - 1) with (b + 255) by lia.
  rewrite (wrap_u64_id (b + 255)) by int_lia. apply wrap_u64_id. int_lia.
Qed.

Lemma RoundedBytes_least b :
  0 ≤ b ≤ 2 ^ 64 - 256 →
  (256 | RoundedBytes b) ∧ b ≤ RoundedBytes b < b + 256.
Proof.
  intros Hb. rewrite RoundedBytes_eq by done.
  pose proof (Z.div_mod (b + 255) 256 ltac:(lia)).
  pose proof (Z.mod_pos_bound (b + 255) 256 ltac:(lia)).
  split; [by eexists; rewrite Z.mul_comm | lia].
Qed.

Lemma RoundedBytes_id b : 0 ≤ b ≤ 2 ^ 64 - 256 → (256 | b) → RoundedBytes b = b.
Proof.
  intros Hb [q ->]. rewrite RoundedBytes_eq by done.
  replace (q * 256 + 255) with (255 + q * 256) by lia.
  rewrite Z.div_add by lia. change (255 / 256) with 0. lia.
Qed.

(** The padding in front of a chunk at [p] is the least one that aligns it. *)
Lemma align_padding_spec k p :
  8 ≤ k < 63 → 0 ≤ p → (256 | p) →
  let pad := align_padding_for (2 ^ k) p in
  0 ≤ pad < 2 ^ k ∧ (256 | pad) ∧ (2 ^ k | p + pad).
Proof.
  intros Hk Hp Ha. unfold align_padding_for.
  assert (H256 : (256 | 2 ^ k)).
  { exists (2 ^ (k - 8)). change 256 with (2 ^ 8). rewrite <- Z.pow_add_r by lia.
    f_equal. lia. }
  assert (Hpow : 0 < 2 ^ k) by (apply Z.pow_pos_nonneg; lia).
  assert (2 ^ k ≤ 2 ^ 62) by (apply Z.pow_le_mono_r; lia).
  replace (2 ^ k - 1) with (Z.ones k) by (rewrite Z.ones_equiv; lia).
  rewrite Z.land_ones by lia.
  assert (E : (2 ^ k - p mod 2 ^ k) mod 2 ^ k = (- p) mod 2 ^ k).
  { rewrite Zminus_mod, Z_mod_same_full, Zmod_mod, <- Zminus_mod_idemp_r, Zmod_mod.
    rewrite Zminus_mod_idemp_r. f_equal. }
  rewrite E. pose proof (Z.mod_pos_bound (- p) (2 ^ k) Hpow).
  assert (Hd : (256 | (- p) mod 2 ^ k)).
  { apply Z.mod_divide; [lia |]. rewrite <- Z.mod_divide in H256 by lia.
    apply Z.mod_divide; [lia |]. rewrite Z.mod_eq by lia.
    apply Z.divide_sub_r; [by apply Z.divide_opp_r |].
    apply Z.divide_mul_l. by apply Z.mod_divide. }
  rewrite RoundedBytes_id; [| lia | done]. split; [lia |]. split; [done |].
  apply Z.mod_divide; [lia |]. rewrite Zplus_mod_idemp_r.
  by replace (p + - p) with 0 by lia.
Qed.

Section Find.
Context `{SA : SubAllocator}.

(** ** Carving a block out of the chosen chunk *)

(** Part way through: [h'] is the free chunk, outside its bin, that the block
    will be taken from. *)
Record located (a : Allocator) (L : gset ChunkHandle) (a' : Allocator)
    (L' : gset ChunkHandle) (fl' : list ChunkHandle) (h' : ChunkHandle)
    (c' : Chunk) : Prop := Located {
  l_inv : inv a' L' fl';
  l_env : env a' = env a;
  l_live : h' ∈ L';
  l_at : chunks a' !! h' = Some c';
  l_free : in_use c' = false ∧ bin_num c' = None;
  l_binned : binned_except (λ j, j = h') (chunks a') L';
  l_blocks b : blocks (chunks a') L' b ↔ blocks (chunks a) L b;
  l_untimed : untimed (chunks a) L → untimed (chunks a') L';
}.

(** A free chunk taken out of its bin. *)
Lemma take_out a L fl h c b :
  inv a L fl → binned_except (λ _, False) (chunks a) L → h ∈ L →
  chunks a !! h = Some c → bin_num c = Some b →
  ∃ a1 c1, RemoveFreeChunkIterFromBin b h a = Ok (tt, a1) ∧
    located a L a1 L fl h c1 ∧ size c1 = size c ∧ ptr c1 = ptr c ∧
    (∀ x y, free_adjacent (chunks a1) L x y → free_adjacent (chunks a) L x y).
Proof.
  intros I Hbe Hh Hc Hb.
  destruct (proj2 (RemoveFreeChunk_spec a L fl h c b I Hh Hc Hb)) as (bs & Hr & I1).
  destruct (b_free _ _ _ (i_bins _ _ _ I) h c b Hh Hc Hb) as [Hu _].
  eexists _, (set_bin_num None c). split; [exact Hr |]. fields. split; [split; try done |].
  - fields. by apply (lookup_upd_eq _ _ c).
  - fields. intros j d Hj HP Hd Hud.
    destruct (rebin_lookup _ _ _ _ _ _ Hc Hd) as (d0 & Hd0 & _ & E & _ & _ & Eb).
    rewrite Eb, decide_False by congruence. apply (Hbe j d0); congruence || auto.
  - intros b'. by apply rebin_blocks.
  - by apply rebin_untimed.
  - split_and!; try done. intros x y. by apply rebin_free_adjacent.
Qed.

(** [SplitChunk] as the client and the coalescing rules see it. *)
Lemma SplitChunk_view a L fl h c n :
  inv a L fl → h ∈ L → chunks a !! h = Some c → in_use c = false →
  bin_num c = None → binned_except (λ j, j = h) (chunks a) L →
  0 < n < size c → (256 | n) →
  ∃ a1 hn fl1 cn, SplitChunk h n a = Ok (tt, a1) ∧
    inv a1 ({[hn]} ∪ L) fl1 ∧ env a1 = env a ∧ hn ≠ h ∧
    chunks a1 !! h = Some (set_next (Some hn) (set_size n c)) ∧
    chunks a1 !! hn = Some cn ∧ in_use cn = false ∧ bin_num cn = Some (bin_of cn) ∧
    size cn = size c - n ∧ ptr cn = ptr c + n ∧
    binned_except (λ j, j = h) (chunks a1) ({[hn]} ∪ L) ∧
    (∀ b, blocks (chunks a1) ({[hn]} ∪ L) b ↔ blocks (chunks a) L b) ∧
    (untimed (chunks a) L → untimed (chunks a1) ({[hn]} ∪ L)) ∧
    (∀ x y, free_adjacent (chunks a1) ({[hn]} ∪ L) x y →
       (x = h ∧ y = hn) ∨ (x = hn ∧ y ≠ h ∧ free_adjacent (chunks a) L h y) ∨
       free_adjacent (chunks a) L x y).
Proof.
  intros I Hh Hc Hu Hb Hbe Hn Hna.
  destruct (SplitChunk_spec a L fl h c n) as (a1 & hn & fl1 & cn & Hr & I1 & E1 & HnL &
    HS & Un & Bn & Fn); try done.
  assert (Hbn : bin_num cn ≠ None) by congruence.
  pose proof HS as (S1 & S2 & _).
  exists a1, hn, fl1, cn. split_and!; try done.
  - by intros ->.
  - by apply (split_head _ _ _ _ _ _ _ _ Hh HS).
  - by apply (split_tail _ _ _ _ _ _ _ _ HS).
  - by apply (split_binned (chunks a) (chunks a1) L h hn c cn n).
  - intros b. by apply (split_blocks (chunks a) (chunks a1) L h hn c cn n).
  - intros U. by apply (split_untimed (chunks a) (chunks a1) L h hn c cn n).
  - intros x y Hxy. assert (Hy : y ∈ {[hn]} ∪ L).
    { destruct Hxy as (Hx & cx & cy & Hcx & _ & Hnx & _).
      by destruct (g_next _ _ _ (i_geom _ _ _ I1) x cx y Hx Hcx Hnx). }
    destruct (split_free_adjacent (chunks a) (chunks a1) L h hn c cn n Hh HnL Hc Hu Un Hbn
      HS x y) as [? | [? | [(_ & _ & _ & ?) | (_ & F)]]]; auto.
    + intros j d Hj Hd Hnj. by destruct (g_next _ _ _ (i_geom _ _ _ I) j d hn Hj Hd Hnj).
    + destruct (g_next _ _ _ (i_geom _ _ _ I) h c h Hh Hc F) as (_ & d & Hd & _ & Hp & _).
      simplify_eq. lia.
Qed.

(** Keeping the head of a split: the tail is left in its bin. *)
Lemma split_keep_head a0 L0 a L fl h c n :
  located a0 L0 a L fl h c → 0 < n < size c → (256 | n) →
  ∃ a1 L1 fl1 c1, SplitChunk h n a = Ok (tt, a1) ∧
    located a0 L0 a1 L1 fl1 h c1 ∧ size c1 = n ∧ ptr c1 = ptr c ∧
    ((∀ x y, free_adjacent (chunks a) L x y → y = h) →
     ∀ x y, free_adjacent (chunks a1) L1 x y → x = h ∨ y = h).
Proof.
  intros [I Ee Hh Hc [Hu Hb] Hbe Hbl Hut] Hn Hna.
  destruct (SplitChunk_view a L fl h c n) as (a1 & hn & fl1 & cn & Hr & I1 & E1 & HnL &
    Hc1 & Hcn & Un & Bn & Sn & Pn & Be1 & Bl1 & Ut1 & Fa1); try done.
  eexists a1, ({[hn]} ∪ L), fl1, _. split; [done |].
  split; [split; try exact Hc1; try done | split_and!; try done].
  - congruence.
  - set_solver.
  - intros b. by rewrite Bl1.
  - auto.
  - intros Hadj x y Hxy.
    destruct (Fa1 x y Hxy) as [[-> ->] | [(-> & ? & F) | F]]; auto.
    + by apply Hadj in F.
    + right. by apply Hadj in F.
Qed.

(** Keeping the tail: the padding in front goes to a bin, and the tail, which
    [SplitChunk] binned, is taken out again. *)
Lemma split_keep_tail a0 L0 a L fl h c n :
  located a0 L0 a L fl h c → 0 < n < size c → (256 | n) →
  ∃ a1 L1 fl1 h1 c1,
    (SplitChunk h n;;
     c ← ChunkFromHandle h;
     InsertFreeChunkIntoBin h;;
     h' ← lift (match next c with Some n => Ok n | None => Fail Undefined end);
     RemoveFreeChunkFromBin h';;
     mret h') a = Ok (h1, a1) ∧
    located a0 L0 a1 L1 fl1 h1 c1 ∧ size c1 = size c - n ∧ ptr c1 = ptr c + n ∧
    ((∀ x y, ¬ free_adjacent (chunks a) L x y) →
     ∀ x y, free_adjacent (chunks a1) L1 x y → y = h1).
Proof.
  intros [I Ee Hh Hc [Hu Hb] Hbe Hbl Hut] Hn Hna.
  destruct (SplitChunk_view a L fl h c n) as (a1 & hn & fl1 & cn & Hr & I1 & E1 & HnL &
    Hc1 & Hcn & Un & Bn & Sn & Pn & Be1 & Bl1 & Ut1 & Fa1); try done.
  destruct (bin_coalesced a1 ({[hn]} ∪ L) fl1 h _ I1 ltac:(set_solver) Hc1)
    as (a2 & Hr2 & I2 & E2 & Be2 & Bl2 & Ut2 & Fa2 & Ec2); try done.
  assert (Hcn2 : chunks a2 !! hn = Some cn) by (rewrite Ec2; by apply lookup_upd_ne).
  destruct (proj1 (RemoveFreeChunk_spec a2 ({[hn]} ∪ L) fl1 hn cn (bin_of cn) I2
    ltac:(set_solver) Hcn2 Bn)) as (bs & Hr3 & I3).
  eexists _, ({[hn]} ∪ L), fl1, hn, (set_bin_num None cn). split.
  { erewrite run_bind by exact Hr. erewrite run_bind by (by apply ChunkFromHandle_run).
    erewrite run_bind by exact Hr2. erewrite run_bind by reflexivity.
    erewrite run_bind by exact Hr3. reflexivity. }
  split; [split; fields; try done | split_and!; try done].
  - unfold env in *. fields. congruence.
  - set_solver.
  - by apply (lookup_upd_eq _ _ cn).
  - intros j d Hj HP Hd Hud.
    destruct (rebin_lookup _ _ _ _ _ _ Hcn2 Hd) as (d0 & Hd0 & _ & E & _ & _ & Eb).
    rewrite Eb, decide_False by congruence. apply (Be2 j d0); congruence || auto.
  - intros b. by rewrite rebin_blocks, Bl2, Bl1.
  - intros U. apply rebin_untimed; auto.
  - intros Hadj x y Hxy. fields. apply rebin_free_adjacent in Hxy; [| done].
    destruct (Fa1 x y (Fa2 x y Hxy)) as [[-> ->] | [(-> & ? & F) | F]]; [done | |];
      by apply Hadj in F.
Qed.

(** Handing the located chunk out. *)
Lemma mark_used_spec a L fl h c num_bytes :
  inv a L fl → h ∈ L → chunks a !! h = Some c → in_use c = false →
  bin_num c = None → binned_except (λ j, j = h) (chunks a) L →
  let id := next_allocation_id a in
  let c' := set_allocation_id id (set_requested_size num_bytes c) in
  let cs' := <[h := c']> (chunks a) in
  ∃ a', mark_used h num_bytes a = Ok (ptr c, a') ∧
    a' = with_stats (stats_alloc (size c) (stats a))
           (with_next_allocation_id (id + 1) (with_chunks cs' a)) ∧
    inv a' L fl ∧
    binned_except (λ _, False) cs' L ∧
    (∀ b, blocks cs' L b ↔ blocks (chunks a) L b ∨ b = (ptr c, size c, num_bytes, id)) ∧
    (untimed (chunks a) L → untimed cs' L) ∧
    (∀ x y, free_adjacent cs' L x y → x ≠ h ∧ y ≠ h ∧ free_adjacent (chunks a) L x y).
Proof.
  intros I Hh Hc Hu Hb Hbe id c' cs'.
  pose proof I as [HR HG HF HND HD HB [Hi1 Hi2]].
  assert (Huse : in_use c' = true).
  { unfold in_use, c'. simpl. apply negb_true_iff, Z.eqb_neq. unfold id. lia. }
  assert (Hlk : ∀ j, cs' !! j = if decide (h = j) then Some c' else chunks a !! j)
    by (intros; by apply (lookup_upd _ _ c)).
  eexists. split; [| split; [reflexivity |]].
  { unfold mark_used. mstep. mstep. mstep. mstep. mstep. mstep.
    unfold mret, M_ret. fields. by rewrite list_insert_insert_eq. }
  split_and!.
  - split; fields; try done.
    + eapply geom_ext; [| done]. intros j Hj. rewrite Hlk.
      case_decide; [subst; by rewrite Hc | done].
    + eapply flist_ext; [| done]. intros j Hj. rewrite Hlk, decide_False; [done |].
      intros <-. by destruct (HD h).
    + eapply bins_ok_change; [| done]. intros j. rewrite Hlk.
      destruct (decide (j ∈ L)); [| right; tauto].
      case_decide; [subst; right | by left].
      split; intros _; [by exists c |]. exists c'. by rewrite Hlk, decide_True.
    + split; [lia |]. intros j d Hj. rewrite Hlk. case_decide.
      * intros [= <-] _. simpl. unfold id. lia.
      * intros Hd Hud. specialize (Hi2 j d Hj Hd Hud). unfold id. lia.
  - intros j d Hj _. rewrite Hlk. case_decide; [intros [= <-]; congruence |].
    intros Hd Hud. by apply (Hbe j d).
  - intros b. split.
    + intros (j & d & Hj & Hd & Hud & ->). rewrite Hlk in Hd.
      case_decide; simplify_eq; [by right | left; by exists j, d].
    + intros [(j & d & Hj & Hd & Hud & ->) | ->].
      * exists j, d. rewrite Hlk, decide_False; [done | congruence].
      * exists h, c'. by rewrite Hlk, decide_True.
  - intros U j d Hj. rewrite Hlk. case_decide; [| by apply U].
    intros [= <-]. simpl. by apply (U h).
  - intros x y (Hx & cx & cy & Hcx & Hcy & Hn & Ux & Uy). rewrite Hlk in Hcx, Hcy.
    do 2 case_decide; simplify_eq; try congruence.
    split_and!; try congruence. split; [done |]. by exists cx, cy.
Qed.

(** The fragmentation limit is a positive amount of bytes. *)
Definition frag_ok (a : Allocator) : Prop :=
  0 < wrap_u64 (max_internal_fragmentation_bytes a).

(** A request: the rounded size, the caller's size and the alignment. *)
Definition request_ok (rounded num_bytes k : Z) : Prop :=
  0 < num_bytes ≤ rounded ∧ rounded < 2 ^ 62 ∧ (256 | rounded) ∧ 8 ≤ k < 62.

Definition fits (alignment rounded : Z) (c : Chunk) : bool :=
  size c >=? wrap_u64 (rounded + align_padding_for alignment (ptr c)).

(** The state after handing out a block [(p, sz)] at the head of a request. *)
Record handed (a : Allocator) (L : gset ChunkHandle) (a' : Allocator)
    (L' : gset ChunkHandle) (fl' : list ChunkHandle) (p sz num_bytes : Z)
    : Prop := Handed {
  hd_steady : steady a' L' fl';
  hd_blocks b : blocks (chunks a') L' b ↔
    blocks (chunks a) L b ∨ b = (p, sz, num_bytes, next_allocation_id a);
  hd_id : next_allocation_id a' = next_allocation_id a + 1;
  hd_stats : stats a' = stats_alloc sz (stats a);
  hd_same : opts a' = opts a ∧ memory_limit a' = memory_limit a ∧
    timing_counter a' = timing_counter a ∧ spans (regions a') = spans (regions a) ∧
    sub a' = sub a ∧ curr_region_allocation_bytes a' = curr_region_allocation_bytes a
}.

Lemma fits_spec k rounded num_bytes c :
  request_ok rounded num_bytes k → 0 ≤ ptr c → (256 | ptr c) →
  let pad := align_padding_for (2 ^ k) (ptr c) in
  0 ≤ pad < 2 ^ 62 ∧ (256 | pad) ∧ (2 ^ k | ptr c + pad) ∧
  (fits (2 ^ k) rounded c = true ↔ rounded + pad ≤ size c).
Proof.
  intros (Hn & Hr & Ha & Hk) Hp Hpa pad.
  destruct (align_padding_spec k (ptr c)) as (H1 & H2 & H3); [lia | done.. |].
  fold pad in H1, H2, H3. assert (2 ^ k ≤ 2 ^ 61) by (apply Z.pow_le_mono_r; lia).
  split; [lia |]. split; [done |]. split; [done |].
  unfold fits. fold pad. rewrite wrap_u64_id by int_lia. rewrite Z.geb_le. done.
Qed.

(** The optional split that gives the unused tail back. *)
Lemma trim_spec a0 L0 a L fl h c rounded num_bytes k :
  located a0 L0 a L fl h c → frag_ok a → request_ok rounded num_bytes k →
  rounded ≤ size c →
  ∃ a1 L1 fl1 c1,
    (if (size c >=? wrap_u64 (rounded * 2))
        || (wrap_u64 (size c - rounded)
            >=? wrap_u64 (max_internal_fragmentation_bytes a))
     then SplitChunk h rounded else mret tt) a = Ok (tt, a1) ∧
    located a0 L0 a1 L1 fl1 h c1 ∧ ptr c1 = ptr c ∧
    rounded ≤ size c1 < 2 * rounded ∧
    size c1 - rounded < wrap_u64 (max_internal_fragmentation_bytes a) ∧
    ((∀ x y, free_adjacent (chunks a) L x y → y = h) →
     ∀ x y, free_adjacent (chunks a1) L1 x y → x = h ∨ y = h).
Proof.
  intros Hl Hf (Hn & Hr & Ha & Hk) Hs.
  pose proof (live_size a L fl h c (l_inv _ _ _ _ _ _ _ Hl) (l_live _ _ _ _ _ _ _ Hl)
    (l_at _ _ _ _ _ _ _ Hl)) as Hu64.
  rewrite (wrap_u64_id (rounded * 2)), (wrap_u64_id (size c - rounded)) by int_lia.
  unfold frag_ok in Hf. rewrite !Z.geb_leb.
  destruct (Z.leb_spec (rounded * 2) (size c)) as [H1 | H1]; simpl;
  [| destruct (Z.leb_spec (wrap_u64 (max_internal_fragmentation_bytes a))
       (size c - rounded)) as [H2 | H2]].
  1,2: destruct (split_keep_head a0 L0 a L fl h c rounded)
      as (a1 & L1 & fl1 & c1 & Hr1 & Hl1 & S1 & P1 & F1); [done | lia | done |];
    exists a1, L1, fl1, c1; split_and!; done || lia.
  exists a, L, fl, c. split_and!; try done; try lia. intros F x y Hxy. right. by apply (F x y).
Qed.

(** The optional split that skips the padding. *)
Lemma align_spec a0 L0 a L fl h c pad :
  located a0 L0 a L fl h c → 0 ≤ pad < size c → (256 | pad) →
  ∃ a1 L1 fl1 h1 c1,
    (if pad >? 0 then
       SplitChunk h pad;;
       c ← ChunkFromHandle h;
       InsertFreeChunkIntoBin h;;
       h' ← lift (match next c with Some n => Ok n | None => Fail Undefined end);
       RemoveFreeChunkFromBin h';;
       mret h'
     else mret h) a = Ok (h1, a1) ∧
    located a0 L0 a1 L1 fl1 h1 c1 ∧ size c1 = size c - pad ∧ ptr c1 = ptr c + pad ∧
    ((∀ x y, ¬ free_adjacent (chunks a) L x y) →
     ∀ x y, free_adjacent (chunks a1) L1 x y → y = h1).
Proof.
  intros Hl Hp Ha. rewrite Z.gtb_ltb. destruct (Z.ltb_spec 0 pad) as [H1 | H1].
  - apply (split_keep_tail a0 L0 a L fl); [done | lia | done].
  - exists a, L, fl, h, c. split_and!; try done; try lia.
    intros F x y Hxy. by destruct (F x y).
Qed.

Lemma take_chunk_spec a L fl h c b rounded num_bytes k :
  steady a L fl → frag_ok a → request_ok rounded num_bytes k → h ∈ L →
  chunks a !! h = Some c → bin_num c = Some b → fits (2 ^ k) rounded c = true →
  let pad := align_padding_for (2 ^ k) (ptr c) in
  ∃ a' L' fl' sz,
    take_chunk b h pad rounded num_bytes a = Ok (ptr c + pad, a') ∧
    handed a L a' L' fl' (ptr c + pad) sz num_bytes ∧
    rounded ≤ sz < 2 * rounded ∧
    sz - rounded < wrap_u64 (max_internal_fragmentation_bytes a).
Proof.
  intros [I Hbe Hut] Hf Hreq Hh Hc Hb Hfit pad.
  assert (Hp : 0 ≤ ptr c ∧ (256 | ptr c)).
  { split; [| by apply (g_chunk _ _ _ (i_geom _ _ _ I) h c)].
    destruct (g_where _ _ _ (i_geom _ _ _ I) h c Hh Hc)
      as (_ & s & (i & r & Hi & ->)%spans_elem & H1 & _).
    destruct (proj1 (i_regions _ _ _ I) i r Hi). simpl in *. lia. }
  destruct (fits_spec k rounded num_bytes c Hreq (proj1 Hp) (proj2 Hp))
    as (Hpad & Hpada & _ & Hfit'). fold pad in Hpad, Hpada, Hfit'.
  apply Hfit' in Hfit. pose proof Hreq as (Hnb & _).
  destruct (take_out a L fl h c b) as (a1 & c1 & R1 & Q1 & S1 & P1 & F1); try done.
  destruct (align_spec a L a1 L fl h c1 pad Q1) as (a2 & L2 & fl2 & h2 & c2 & R2 & Q2 & S2 &
    P2 & F2); [lia | done |].
  assert (Eopts : opts a2 = opts a).
  { pose proof (l_env _ _ _ _ _ _ _ Q2) as E. by injection E. }
  assert (Hf2 : max_internal_fragmentation_bytes a2 = max_internal_fragmentation_bytes a).
  { unfold max_internal_fragmentation_bytes. by rewrite Eopts. }
  destruct (trim_spec a L a2 L2 fl2 h2 c2 rounded num_bytes k Q2)
    as (a3 & L3 & fl3 & c3 & R3 & Q3 & P3 & Z3 & Z3' & F3);
    [unfold frag_ok; by rewrite Hf2 | done | lia |].
  destruct Q3 as [I3 E3 Hh3 Hc3 [Hu3 Hb3] Hbe3 Hbl3 Hut3].
  destruct (mark_used_spec a3 L3 fl3 h2 c3 num_bytes) as (a4 & R4 & E4 & I4 & Hbe4 & Hbl4 &
    Hut4 & F4); try done.
  unfold env in E3. injection E3 as Eo Em Ec Es En Est Etc Ets Esf Esp.
  exists a4, L3, fl3, (size c3). split; [| split; [| rewrite <- Hf2; done]].
  { unfold take_chunk. erewrite run_bind by exact R1. erewrite run_bind by exact R2.
    erewrite run_bind by (by apply ChunkFromHandle_run; apply Q2).
    erewrite run_bind by reflexivity. erewrite run_bind by exact R3.
    rewrite R4.
    do 2 f_equal. lia. }
  subst a4. fields. split; fields; try done; try (split_and!; congruence).
  - split; try done. fields. rewrite Etc, Ets. intros Ht.
    destruct (Hut Ht) as (? & Hun & Hadj). split_and!; [done | auto |].
    intros x y Hxy. destruct (F4 x y Hxy) as (N1 & N2 & Hxy').
    destruct (F3 (F2 (λ x y F, Hadj x y (F1 x y F))) x y Hxy'); done.
  - intros b'. rewrite Hbl4, Hbl3, En. by replace (ptr c3) with (ptr c + pad) by lia.
  - by rewrite En.
  - by rewrite Est.
Qed.

(** ** The search *)

(** A free chunk the search accepts. *)
Definition acceptable (alignment rounded freed_before : Z) (c : Chunk) : bool :=
  negb ((freed_before >? 0) && (freed_before <? freed_at_count c))
  && fits alignment rounded c.

(** The search, without the carving. *)
Fixpoint pick (cs : list Chunk) (P : Chunk → bool) (l : list ChunkHandle)
    : option ChunkHandle :=
  match l with
  | [] => None
  | h :: l' =>
      match cs !! h with
      | Some c => if P c then Some h else pick cs P l'
      | None => None
      end
  end.

Lemma pick_spec cs P l :
  (∀ h, h ∈ l → is_Some (cs !! h)) →
  match pick cs P l with
  | None => ∀ h c, h ∈ l → cs !! h = Some c → P c = false
  | Some h => ∃ c l1 l2, l = l1 ++ h :: l2 ∧ cs !! h = Some c ∧ P c = true ∧
      ∀ j d, j ∈ l1 → cs !! j = Some d → P d = false
  end.
Proof.
  induction l as [| h l IH]; intros Hl; simpl; [set_solver |].
  destruct (Hl h) as [c Hc]; [set_solver |]. rewrite Hc.
  destruct (P c) eqn:EP; [exists c, [], l; set_solver |].
  specialize (IH ltac:(set_solver)). destruct (pick cs P l) as [h' |].
  - destruct IH as (c' & l1 & l2 & -> & Hc' & HP & Hl1).
    exists c', (h :: l1), l2. split_and!; try done.
    intros j d [-> | Hj]%elem_of_cons Hd; [congruence | eauto].
  - intros j d [-> | Hj]%elem_of_cons Hd; [congruence | eauto].
Qed.

Lemma find_in_bin_run a b l rounded num_bytes alignment fb :
  (∀ h, h ∈ l → is_Some (chunks a !! h)) →
  find_in_bin b l rounded num_bytes alignment fb a =
  match pick (chunks a) (acceptable alignment rounded fb) l with
  | None => Ok (None, a)
  | Some h =>
      (c ← ChunkFromHandle h;
       p ← take_chunk b h (align_padding_for alignment (ptr c)) rounded num_bytes;
       mret (Some p)) a
  end.
Proof.
  induction l as [| h l IH]; intros Hl; simpl; [done |].
  destruct (Hl h) as [c Hc]; [set_solver |]. rewrite Hc.
  erewrite run_bind by (by apply ChunkFromHandle_run).
  unfold acceptable at 1, fits.
  destruct ((fb >? 0) && (fb <? freed_at_count c)); simpl; [apply IH; set_solver |].
  destruct (_ >=? _); [| apply IH; set_solver].
  by erewrite (run_bind (ChunkFromHandle h)) by (by apply ChunkFromHandle_run).
Qed.

(** [b] is the best of the acceptable free chunks: no smaller one, and none of
    the same size at a lower address. *)
Definition best_fit (cs : list Chunk) (L : gset ChunkHandle) (P : Chunk → bool)
    (h : ChunkHandle) : Prop :=
  ∃ c, h ∈ L ∧ cs !! h = Some c ∧ in_use c = false ∧ P c = true ∧
    ∀ j d, j ∈ L → cs !! j = Some d → in_use d = false → P d = true →
      size c < size d ∨ size c = size d ∧ ptr c ≤ ptr d.

(** What a bin holds between two calls. *)
Lemma bin_content a L fl b l :
  inv a L fl → binned_except (λ _, False) (chunks a) L → bins a !! b = Some l →
  (∀ h, h ∈ l → is_Some (chunks a !! h)) ∧
  (∀ h c, chunks a !! h = Some c →
     (h ∈ l ↔ h ∈ L ∧ in_use c = false ∧ BinNumForSize (size c) = b)) ∧
  (∀ h c, h ∈ l → chunks a !! h = Some c → bin_num c = Some b).
Proof.
  intros I Hbe Hl. pose proof (i_bins _ _ _ I) as B.
  pose proof (λ h, b_mem _ _ _ B b l h Hl) as Hmem. split_and!.
  - intros h (_ & c & Hc & _)%Hmem. eauto.
  - intros h c Hc. rewrite Hmem. split.
    + intros (Hh & d & Hd & Hb). simplify_eq.
      by destruct (b_free _ _ _ B h c b Hh Hc Hb).
    + intros (Hh & Hu & Hb). split; [done |]. exists c. split; [done |].
      destruct (bin_num c) as [b' |] eqn:Eb.
      * destruct (b_free _ _ _ B h c b' Hh Hc Eb). congruence.
      * by destruct (Hbe h c Hh (λ F, F) Hc Hu).
  - intros h c (_ & d & Hd & Hb)%Hmem Hc. congruence.
Qed.

(** The first acceptable chunk of a bin is the best one of the bin. *)
Lemma pick_best a L fl b l P h :
  inv a L fl → binned_except (λ _, False) (chunks a) L → bins a !! b = Some l →
  pick (chunks a) P l = Some h →
  ∃ c, h ∈ L ∧ chunks a !! h = Some c ∧ in_use c = false ∧ bin_num c = Some b ∧
    P c = true ∧ BinNumForSize (size c) = b ∧
    ∀ j d, j ∈ l → chunks a !! j = Some d → P d = true →
      size c < size d ∨ size c = size d ∧ ptr c ≤ ptr d.
Proof.
  intros I Hbe Hl Hp. destruct (bin_content a L fl b l I Hbe Hl) as (Hs & Hc & Hb).
  pose proof (pick_spec (chunks a) P l Hs) as Hpick. rewrite Hp in Hpick.
  destruct Hpick as (c & l1 & l2 & El & Hhc & HP & Hl1).
  assert (Hhl : h ∈ l) by (rewrite El; set_solver).
  pose proof (proj1 (Hc h c Hhc) Hhl) as (HhL & Hu & Hbn).
  exists c. split_and!; try done; [by apply (Hb h) |].
  intros j d Hjl Hd HPd. rewrite El in Hjl.
  apply elem_of_app in Hjl as [Hj1 | [-> | Hj2]%elem_of_cons].
  - rewrite (Hl1 j d) in HPd; done.
  - simplify_eq. lia.
  - pose proof (b_sorted _ _ _ (i_bins _ _ _ I) b l Hl) as Hsort. rewrite El in Hsort.
    apply StronglySorted_app_1_r in Hsort. inversion Hsort as [| ? ? _ Hall]; subst.
    rewrite Forall_forall in Hall. specialize (Hall j Hj2). simpl in Hall.
    rewrite (chunk_lt_spec _ _ _ c d) in Hall by done. lia.
Qed.

(** The search from bin [b] on: nothing acceptable there, or the best of what
    is, which is then carved. *)
Lemma find_from_bin_run n b a L fl rounded num_bytes alignment fb :
  inv a L fl → binned_except (λ _, False) (chunks a) L → (n + b = kNumBins)%nat →
  let P := acceptable alignment rounded fb in
  let cand j d := j ∈ L ∧ chunks a !! j = Some d ∧ in_use d = false ∧
     (b ≤ BinNumForSize (size d))%nat ∧ P d = true in
  (find_from_bin n b rounded num_bytes alignment fb a = Ok (None, a) ∧
   ∀ h c, ¬ cand h c) ∨
  (∃ h c b', cand h c ∧ bin_num c = Some b' ∧
     (∀ j d, cand j d → size c < size d ∨ size c = size d ∧ ptr c ≤ ptr d) ∧
     ∀ p a', take_chunk b' h (align_padding_for alignment (ptr c)) rounded num_bytes a
               = Ok (p, a') →
       find_from_bin n b rounded num_bytes alignment fb a = Ok (Some p, a')).
Proof.
  intros I Hbe. revert b. induction n as [| n IH]; intros b Hb P cand; simpl.
  { left. split; [done |]. intros h c (_ & _ & _ & Hge & _).
    pose proof (BinNumForSize_lt (size c)). lia. }
  destruct (bins_lookup _ _ _ b (i_bins _ _ _ I)) as [l Hl]; [lia |].
  destruct (bin_content a L fl b l I Hbe Hl) as (Hsome & Hin & _).
  erewrite (run_bind (bin_at b)).
  2:{ unfold bin_at. erewrite run_bind by reflexivity. apply lift_run, at_res_ok, Hl. }
  pose proof (find_in_bin_run a b l rounded num_bytes alignment fb Hsome) as Hrun0.
  fold P in Hrun0. destruct (pick (chunks a) P l) as [h |] eqn:Hp.
  - right. destruct (pick_best a L fl b l P h I Hbe Hl Hp)
      as (c & HhL & Hc & Hu & Hbn & HP & Hbc & Hbest).
    exists h, c, b. split; [split_and!; done || lia |]. split; [done |]. split.
    + intros j d (Hj & Hd & Hud & Hge & HPd).
      destruct (decide (BinNumForSize (size d) = b)) as [E | E].
      * apply (Hbest j); [by apply (Hin j d) | done..].
      * left. apply BinNumForSize_lt_size. lia.
    + intros p a' Hrun.
      rewrite (run_bind (ChunkFromHandle h) _ a c a) in Hrun0
        by (by apply ChunkFromHandle_run).
      rewrite (run_bind _ _ a p a' Hrun) in Hrun0.
      by rewrite (run_bind _ _ _ _ _ Hrun0).
  - rewrite !(run_bind _ _ _ _ _ Hrun0).
    assert (Hnone : ∀ j d, cand j d → (S b ≤ BinNumForSize (size d))%nat).
    { intros j d (Hj & Hd & Hud & Hge & HPd).
      pose proof (pick_spec (chunks a) P l Hsome) as Hpick. rewrite Hp in Hpick.
      destruct (decide (BinNumForSize (size d) = b)); [| lia].
      rewrite (Hpick j d) in HPd; [done | by apply (Hin j d) | done]. }
    destruct (IH (S b)) as [[Hr Hno] | (h & c & b' & Hcand & Hbn & Hbest & Hr)];
      [lia | left | right].
    + split; [done |]. intros h c Hcand. apply (Hno h c).
      pose proof (Hnone h c Hcand). unfold cand in Hcand. tauto.
    + exists h, c, b'. destruct Hcand as (? & ? & ? & ? & ?).
      split; [split_and!; done || lia |]. split; [done |]. split; [| done].
      intros j d Hcand. apply (Hbest j d).
      pose proof (Hnone j d Hcand). unfold cand in Hcand. tauto.
Qed.

(** A chunk that fits is in the bin of the request or a later one. *)
Lemma fits_bin rounded num_bytes k c :
  request_ok rounded num_bytes k → 0 ≤ ptr c → (256 | ptr c) →
  fits (2 ^ k) rounded c = true →
  (BinNumForSize rounded ≤ BinNumForSize (size c))%nat.
Proof.
  intros Hreq Hp Ha Hf. apply BinNumForSize_mono.
  destruct (fits_spec k rounded num_bytes c Hreq Hp Ha) as (? & _ & _ & Hiff).
  apply Hiff in Hf. lia.
Qed.

Lemma live_ptr a L fl h c :
  inv a L fl → h ∈ L → chunks a !! h = Some c → 0 < ptr c ∧ (256 | ptr c).
Proof.
  intros I Hh Hc. split; [| by apply (g_chunk _ _ _ (i_geom _ _ _ I) h c)].
  destruct (g_where _ _ _ (i_geom _ _ _ I) h c Hh Hc)
    as (_ & s & (i & r & Hi & ->)%spans_elem & H1 & _).
  destruct (proj1 (i_regions _ _ _ I) i r Hi). simpl in *. lia.
Qed.

(** The search in full: it never fails. *)
Lemma FindChunkPtr_spec a L fl rounded num_bytes k fb :
  steady a L fl → frag_ok a → request_ok rounded num_bytes k →
  let P := acceptable (2 ^ k) rounded fb in
  let free j d := j ∈ L ∧ chunks a !! j = Some d ∧ in_use d = false ∧ P d = true in
  let run := FindChunkPtr (BinNumForSize rounded) rounded num_bytes (2 ^ k) fb a in
  (run = Ok (None, a) ∧ ∀ j d, ¬ free j d) ∨
  (∃ h c a' L' fl' sz,
     let p := ptr c + align_padding_for (2 ^ k) (ptr c) in
     free h c ∧
     (∀ j d, free j d → size c < size d ∨ size c = size d ∧ ptr c ≤ ptr d) ∧
     run = Ok (Some p, a') ∧ handed a L a' L' fl' p sz num_bytes ∧
     (2 ^ k | p) ∧ ptr c ≤ p ∧ p + rounded ≤ ptr c + size c ∧
     rounded ≤ sz < 2 * rounded ∧
     sz - rounded < wrap_u64 (max_internal_fragmentation_bytes a)).
Proof.
  intros St Hf Hreq P free run. pose proof (st_inv _ _ _ St) as I.
  assert (Hge : ∀ j d, free j d → (BinNumForSize rounded ≤ BinNumForSize (size d))%nat).
  { intros j d (Hj & Hd & _ & HP). destruct (live_ptr a L fl j d I Hj Hd).
    apply (fits_bin rounded num_bytes k); [done | lia | done |].
    by apply andb_true_iff in HP as [_ ?]. }
  destruct (find_from_bin_run (kNumBins - BinNumForSize rounded) (BinNumForSize rounded)
    a L fl rounded num_bytes (2 ^ k) fb I (st_binned _ _ _ St))
    as [[Hr Hno] | (h & c & b & Hcand & Hbn & Hbest & Hr)].
  { pose proof (BinNumForSize_lt rounded). lia. }
  - left. split; [done |]. intros j d Hfr. apply (Hno j d).
    pose proof (Hge j d Hfr). unfold free in Hfr. tauto.
  - right. destruct Hcand as (Hh & Hc & Hu & _ & HP).
    pose proof HP as [_ Hfit]%andb_true_iff.
    destruct (live_ptr a L fl h c I Hh Hc) as [Hp1 Hp2].
    destruct (fits_spec k rounded num_bytes c Hreq ltac:(lia) Hp2) as (? & _ & ? & Hiff).
    pose proof Hfit as Hfit'. apply Hiff in Hfit'.
    destruct (take_chunk_spec a L fl h c b rounded num_bytes k)
      as (a' & L' & fl' & sz & Hrun & Hh' & ? & ?); try done.
    exists h, c, a', L', fl', sz. split_and!; try done; try lia.
    + intros j d Hfr. apply (Hbest j d). pose proof (Hge j d Hfr). unfold free in Hfr. tauto.
    + by apply Hr.
Qed.

End Find.
End BfcFind.
