(* ===== verification/BfcExtend.v ===== *)
(** * Growing the allocator: [AddAllocationRegion] and [Extend] *)
From S2P Require Import Prelude BfcState BfcOps BfcInv BfcProofs BfcFind.

Module BfcExtend.
Import Bfc BfcOps BfcInv BfcProofs BfcFind.

(** ** Regions that acquire the memory [m, m + sz) *)

(** [rs'] is [rs] with the memory [m, m + sz) added, either as a region of its
    own or, for [ext = Some s0], at the end of the region with span [s0]; the
    handle of [m] is [h] and no other new address has one. *)
Record grown (rs rs' : list AllocationRegion) (m sz : Z) (h : option ChunkHandle)
    (ext : option (Z * Z)) : Prop := Grown {
  gr_ok : regions_ok rs';
  gr_old q : covered (spans rs) q → (256 | q) → get_handle rs' q = get_handle rs q;
  gr_new q : m ≤ q < m + sz → (256 | q) →
    get_handle rs' q = Ok (if decide (q = m) then h else None);
  gr_spans s : s ∈ spans rs' ↔
    match ext with
    | None => s = (m, m + sz) ∨ s ∈ spans rs
    | Some s0 => s = (s0.1, m + sz) ∨ (s ∈ spans rs ∧ s ≠ s0)
    end;
  gr_ext s0 : ext = Some s0 → s0 ∈ spans rs ∧ s0.2 = m;
  gr_fresh s : s ∈ spans rs → s.2 ≤ m ∨ m + sz ≤ s.1
}.

Lemma span_pos rs s : regions_ok rs → s ∈ spans rs →
  0 < s.1 < s.2 ∧ (256 | s.1) ∧ (256 | s.2) ∧ s.2 < uint64_size.
Proof.
  intros [Hok _] (i & r & Hi & ->)%spans_elem. destruct (Hok i r Hi) as (? & ? & ? & ? & ? & _).
  unfold r_end_ptr in *. simpl. split_and!; try lia; try done. by apply Z.divide_add_r.
Qed.

(** Every old span lies inside a new one with the same start. *)
Lemma grown_span rs rs' m sz h ext s :
  grown rs rs' m sz h ext → 0 < sz → s ∈ spans rs →
  ∃ s', s' ∈ spans rs' ∧ s'.1 = s.1 ∧ s.2 ≤ s'.2 ∧ (Some s ≠ ext → s' = s).
Proof.
  intros G Hsz Hs. destruct (decide (ext = Some s)) as [-> | Hne].
  - destruct (gr_ext _ _ _ _ _ _ G s eq_refl) as [_ <-].
    exists (s.1, s.2 + sz). split; [apply (gr_spans _ _ _ _ _ _ G); by left |].
    simpl. split; [done |]. split; [lia | done].
  - exists s. split; [| done]. apply (gr_spans _ _ _ _ _ _ G).
    destruct ext as [s0 |]; [| by right]. right. split; [done |]. congruence.
Qed.

(** The new span that holds the new memory. *)
Definition new_span (m sz : Z) (ext : option (Z * Z)) : Z * Z :=
  match ext with Some s0 => (s0.1, m + sz) | None => (m, m + sz) end.

Lemma grown_new_span rs rs' m sz h ext :
  grown rs rs' m sz h ext → regions_ok rs → 0 < sz →
  new_span m sz ext ∈ spans rs' ∧ in_span (new_span m sz ext) m sz.
Proof.
  intros G Hok Hsz. split.
  - apply (gr_spans _ _ _ _ _ _ G). destruct ext; by left.
  - unfold in_span, new_span. destruct ext as [s0 |]; simpl; [| lia].
    destruct (gr_ext _ _ _ _ _ _ G s0 eq_refl) as [H1 H2].
    pose proof (span_pos _ _ Hok H1). lia.
Qed.

Lemma grown_covered rs rs' m sz h ext q :
  grown rs rs' m sz h ext → regions_ok rs → 0 < sz → covered (spans rs') q →
  covered (spans rs) q ∨ m ≤ q < m + sz.
Proof.
  intros G Hok Hsz (s & Hs & Hq). apply (gr_spans _ _ _ _ _ _ G) in Hs.
  destruct ext as [s0 |].
  - destruct Hs as [-> | [Hs _]]; [| left; by exists s].
    destruct (gr_ext _ _ _ _ _ _ G s0 eq_refl) as [H1 H2]. simpl in *.
    destruct (Z.lt_ge_cases q m); [left; exists s0; split; [done | lia] | right; lia].
  - destruct Hs as [-> | Hs]; [right; simpl in *; lia | left; by exists s].
Qed.

(** The chunk vector after the new chunk [cn], at [hn], is linked behind [lc],
    the last chunk of the region that was extended. *)
Definition grow_store (cs cs' : list Chunk) (L : gset ChunkHandle) (hn : ChunkHandle)
    (cn : Chunk) (m sz : Z) (lc : option ChunkHandle) : Prop :=
  size cn = sz ∧ ptr cn = m ∧ prev cn = lc ∧ next cn = None ∧ cs' !! hn = Some cn ∧
  (∀ j, j ∈ L → cs' !! j =
     if decide (lc = Some j) then set_next (Some hn) <$> cs !! j else cs !! j).

(** [lc] is the last chunk of the span [ext]. *)
Definition last_of (cs : list Chunk) (L : gset ChunkHandle) (lc : option ChunkHandle)
    (ext : option (Z * Z)) : Prop :=
  match lc, ext with
  | None, None => True
  | Some l, Some s0 => l ∈ L ∧ ∃ c, cs !! l = Some c ∧ next c = None ∧
      in_span s0 (ptr c) (size c)
  | _, _ => False
  end.

Section Grow.
Context (cs cs' : list Chunk) (rs rs' : list AllocationRegion) (L : gset ChunkHandle).
Context (hn : ChunkHandle) (cn : Chunk) (m sz : Z).
Context (lc : option ChunkHandle) (ext : option (Z * Z)).
Hypothesis G : geom cs rs L.
Hypothesis Hok : regions_ok rs.
Hypothesis Hhn : hn ∉ L.
Hypothesis Hsz : 0 < sz.
Hypothesis Hm : (256 | m).
Hypothesis Hsza : (256 | sz).
Hypothesis Hgr : grown rs rs' m sz (Some hn) ext.
Hypothesis HS : grow_store cs cs' L hn cn m sz lc.
Hypothesis Hlast : last_of cs L lc ext.

Lemma grow_lookup j d :
  j ∈ {[hn]} ∪ L → cs' !! j = Some d →
  (j = hn ∧ d = cn) ∨
  (j ≠ hn ∧ j ∈ L ∧ ∃ d0, cs !! j = Some d0 ∧ size d = size d0 ∧ ptr d = ptr d0 ∧
     prev d = prev d0 ∧
     ((lc = Some j ∧ next d = Some hn) ∨ (lc ≠ Some j ∧ next d = next d0))).
Proof.
  destruct HS as (S1 & S2 & S3 & S4 & S5 & S6).
  intros [->%elem_of_singleton | Hj]%elem_of_union Hd; [left; split; congruence |].
  right. split; [by intros -> |]. split; [done |]. rewrite S6 in Hd by done.
  destruct (g_live _ _ _ G j Hj) as [d0 Hd0]. rewrite Hd0 in Hd.
  exists d0. split; [done |]. case_decide; simplify_eq/=; tauto.
Qed.

Lemma grow_last_of l :
  lc = Some l →
  ∃ s0 e, ext = Some s0 ∧ l ∈ L ∧ cs !! l = Some e ∧ next e = None ∧
    in_span s0 (ptr e) (size e) ∧ s0 ∈ spans rs ∧ ptr e + size e = m.
Proof.
  intros El. pose proof Hlast as Hl. rewrite El in Hl. unfold last_of in Hl.
  pose proof (gr_ext _ _ _ _ _ _ Hgr) as Hx.
  destruct ext as [s0 |]; [| done]. destruct Hl as (Hl & e & He & Hn & Hin).
  destruct (Hx s0 eq_refl) as [Hs <-]. exists s0, e. split_and!; try done.
  by apply (g_last _ _ _ G l).
Qed.

Lemma grow_ext_last s0 : ext = Some s0 → ∃ l, lc = Some l.
Proof.
  intros E. pose proof Hlast as Hl. rewrite E in Hl. unfold last_of in Hl.
  destruct lc as [l |]; [by exists l | done].
Qed.

(** An old chunk lies in an old span, away from the new memory. *)
Lemma grow_old j d0 :
  j ∈ L → cs !! j = Some d0 →
  ∃ s s', s ∈ spans rs ∧ in_span s (ptr d0) (size d0) ∧
    s' ∈ spans rs' ∧ in_span s' (ptr d0) (size d0) ∧ s'.1 = s.1 ∧ s.2 ≤ s'.2 ∧
    (Some s ≠ ext → s' = s) ∧
    (ptr d0 + size d0 ≤ m ∨ m + sz ≤ ptr d0).
Proof.
  intros Hj Hd. destruct (g_where _ _ _ G j d0 Hj Hd) as (_ & s & Hs & I1 & I2).
  destruct (grown_span _ _ _ _ _ _ s Hgr Hsz Hs) as (s' & Hs' & E1 & E2 & E3).
  exists s, s'. split_and!; try done; try (split; lia).
  destruct (gr_fresh _ _ _ _ _ _ Hgr s Hs); [left | right]; lia.
Qed.

(** The span of [rs'] around an old chunk. *)
Lemma grow_span_of j d0 s' :
  j ∈ L → cs !! j = Some d0 → s' ∈ spans rs' → in_span s' (ptr d0) (size d0) →
  ∃ s, s ∈ spans rs ∧ in_span s (ptr d0) (size d0) ∧ s'.1 = s.1 ∧ s.2 ≤ s'.2 ∧
    (Some s ≠ ext → s' = s).
Proof.
  intros Hj Hd Hs' [I1 I2]. destruct (grow_old j d0 Hj Hd)
    as (s & s1 & Hs & Hin & Hs1 & [J1 J2] & E1 & E2 & E3 & _).
  destruct (g_chunk _ _ _ G j d0 Hj Hd).
  assert (s' = s1) as ->.
  { apply (spans_unique rs' s' s1 (ptr d0) (gr_ok _ _ _ _ _ _ Hgr)); done || lia. }
  eauto 10.
Qed.

Lemma geom_grow_next j d n :
  j ∈ {[hn]} ∪ L → cs' !! j = Some d → next d = Some n →
  n ∈ {[hn]} ∪ L ∧ ∃ dn, cs' !! n = Some dn ∧ prev dn = Some j ∧
    ptr dn = ptr d + size d ∧
    (∀ s, s ∈ spans rs' → in_span s (ptr d) (size d) → in_span s (ptr dn) (size dn)).
Proof.
  intros Hj Hd Hn. pose proof HS as (S1 & S2 & S3 & S4 & S5 & S6).
  destruct (grow_lookup j d Hj Hd)
    as [[-> ->] | (Nj & HjL & d0 & Hd0 & E1 & E2 & E3 & [[El E4] | [El E4]])].
  - congruence.
  - assert (n = hn) as -> by congruence. split; [set_solver |]. exists cn.
    destruct (grow_last_of j El) as (s0 & e & Eext & _ & He & _ & Hin & Hs0 & Hend).
    assert (e = d0) as -> by congruence. destruct Hin as [I1 I2].
    split; [done |]. split; [congruence |]. split; [lia |].
    intros s Hs. rewrite E1, E2. intros Hins.
    destruct (grown_new_span _ _ _ _ _ _ Hgr Hok Hsz) as [Hnew [Hn1 Hn2]].
    assert (new_span m sz ext = (s0.1, m + sz)) as En by by rewrite Eext.
    destruct (g_chunk _ _ _ G j d0 HjL Hd0).
    assert (s = new_span m sz ext) as ->.
    { apply (spans_unique rs' _ _ (ptr d0) (gr_ok _ _ _ _ _ _ Hgr)); try done.
      - destruct Hins. lia.
      - rewrite En. simpl. lia. }
    split; lia.
  - rewrite E4 in Hn. destruct (g_next _ _ _ G j d0 n HjL Hd0 Hn)
      as (HnL & e & He & Hp & Hq & Hsp).
    split; [set_solver |].
    assert (∃ e', cs' !! n = Some e' ∧ prev e' = prev e ∧ ptr e' = ptr e ∧ size e' = size e)
      as (e' & He' & F1 & F2 & F3).
    { rewrite S6 by done. rewrite He. case_decide; simpl; eauto. }
    exists e'. rewrite F1, F2, F3, E1, E2. split_and!; try done.
    intros s Hs Hin. destruct (grow_span_of j d0 s HjL Hd0 Hs Hin) as
      (s1 & Hs1 & Hin1 & K1 & K2 & _).
    destruct (Hsp s1 Hs1 Hin1). split; lia.
Qed.

Lemma geom_grow_prev j d q :
  j ∈ {[hn]} ∪ L → cs' !! j = Some d → prev d = Some q →
  q ∈ {[hn]} ∪ L ∧ ∃ dq, cs' !! q = Some dq ∧ next dq = Some j.
Proof.
  intros Hj Hd Hq. pose proof HS as (S1 & S2 & S3 & S4 & S5 & S6).
  destruct (grow_lookup j d Hj Hd) as [[-> ->] | (Nj & HjL & d0 & Hd0 & E1 & E2 & E3 & _)].
  - rewrite S3 in Hq. destruct (grow_last_of q Hq) as (s0 & e & _ & HqL & He & _).
    split; [set_solver |]. rewrite S6, decide_True, He by done. by eexists.
  - rewrite E3 in Hq. destruct (g_prev _ _ _ G j d0 q HjL Hd0 Hq) as (HqL & e & He & Hn).
    split; [set_solver |]. rewrite S6 by done. case_decide as Elc.
    + exfalso. destruct (grow_last_of q Elc) as (s0 & e' & _ & _ & He' & Hnx & _).
      congruence.
    + by exists e.
Qed.

Lemma geom_grow_last j d s :
  j ∈ {[hn]} ∪ L → cs' !! j = Some d → next d = None →
  s ∈ spans rs' → in_span s (ptr d) (size d) → ptr d + size d = s.2.
Proof.
  intros Hj Hd Hnx Hs Hin. pose proof HS as (S1 & S2 & S3 & S4 & S5 & S6).
  destruct (grown_new_span _ _ _ _ _ _ Hgr Hok Hsz) as [Hnew [Hn1 Hn2]].
  destruct (grow_lookup j d Hj Hd)
    as [[-> ->] | (Nj & HjL & d0 & Hd0 & E1 & E2 & E3 & [[_ ?] | [El E4]])]; [| congruence |].
  - rewrite S1, S2 in *. destruct Hin.
    rewrite (spans_unique rs' s (new_span m sz ext) m (gr_ok _ _ _ _ _ _ Hgr)); try done;
      [by destruct ext | lia..].
  - rewrite E1, E2 in *. rewrite E4 in Hnx.
    destruct (grow_span_of j d0 s HjL Hd0 Hs Hin) as (s1 & Hs1 & Hin1 & K1 & K2 & K3).
    pose proof (g_last _ _ _ G j d0 s1 HjL Hd0 Hnx Hs1 Hin1) as Hend.
    destruct (decide (Some s1 = ext)) as [Ee | Ne]; [| by rewrite K3].
    exfalso. destruct (grow_ext_last s1 (eq_sym Ee)) as [l El'].
    destruct (grow_last_of l El') as (s0 & e & Es0 & HlL & He & Hne & Hine & Hs0 & _).
    assert (s0 = s1) as -> by congruence.
    pose proof (g_last _ _ _ G l e s1 HlL He Hne Hs1 Hine) as Hende.
    assert (l ≠ j) as Hlj by congruence.
    destruct (g_chunk _ _ _ G l e HlL He). destruct (g_chunk _ _ _ G j d0 HjL Hd0).
    destruct (g_disj _ _ _ G l j e d0 HlL HjL Hlj He Hd0); lia.
Qed.

Lemma geom_grow : geom cs' rs' ({[hn]} ∪ L).
Proof.
  pose proof HS as (S1 & S2 & S3 & S4 & S5 & S6).
  destruct (grown_new_span _ _ _ _ _ _ Hgr Hok Hsz) as [Hnew Hin].
  split.
  - intros j [->%elem_of_singleton | Hj]%elem_of_union; [by eexists |].
    rewrite S6 by done. destruct (g_live _ _ _ G j Hj) as [d ->].
    case_decide; by eexists.
  - intros j d Hj Hd. destruct (grow_lookup j d Hj Hd)
      as [[-> ->] | (_ & HjL & d0 & Hd0 & -> & -> & _)]; [by rewrite S1, S2 |].
    by apply (g_chunk _ _ _ G j).
  - intros j d Hj Hd. destruct (grow_lookup j d Hj Hd)
      as [[-> ->] | (_ & HjL & d0 & Hd0 & -> & -> & _)].
    + rewrite S1, S2. split; [| eauto].
      rewrite (gr_new _ _ _ _ _ _ Hgr) by (done || lia). by rewrite decide_True.
    + destruct (g_where _ _ _ G j d0 HjL Hd0) as (W1 & _).
      destruct (grow_old j d0 HjL Hd0) as (s & s' & _ & _ & Hs' & Hin' & _).
      split; [| eauto]. rewrite (gr_old _ _ _ _ _ _ Hgr); [done | |].
      * by eapply live_covered.
      * by apply (g_chunk _ _ _ G j).
  - intros p j Hp Ha Hg.
    destruct (grown_covered _ _ _ _ _ _ p Hgr Hok Hsz Hp) as [Hc | Hc].
    + rewrite (gr_old _ _ _ _ _ _ Hgr) in Hg by done.
      destruct (g_handle _ _ _ G p j Hc Ha Hg) as (HjL & d & Hd & <-).
      split; [set_solver |]. rewrite S6, Hd by done. case_decide; by eexists.
    + rewrite (gr_new _ _ _ _ _ _ Hgr) in Hg by done. case_decide; simplify_eq.
      split; [set_solver |]. by exists cn.
  - intros j1 j2 d1 d2 J1 J2 Hj L1 L2.
    destruct (grow_lookup _ _ J1 L1) as [[-> ->] | (N1 & M1 & e1 & D1 & E1 & F1 & _)];
    destruct (grow_lookup _ _ J2 L2) as [[-> ->] | (N2 & M2 & e2 & D2 & E2 & F2 & _)];
    try done.
    + destruct (grow_old j2 e2 M2 D2) as (? & ? & _ & _ & _ & _ & _ & _ & _ & ?). lia.
    + destruct (grow_old j1 e1 M1 D1) as (? & ? & _ & _ & _ & _ & _ & _ & _ & ?). lia.
    + rewrite E1, E2, F1, F2. by apply (g_disj _ _ _ G j1 j2).
  - apply geom_grow_next.
  - apply geom_grow_prev.
  - apply geom_grow_last.
  - intros j d s Hj Hd Hpv Hs Hins. destruct (grow_lookup j d Hj Hd)
      as [[-> ->] | (_ & HjL & d0 & Hd0 & E1 & E2 & E3 & _)].
    + rewrite S3 in Hpv. rewrite S1, S2 in *. destruct Hins, Hin.
      assert (new_span m sz ext = (m, m + sz)) as En.
      { pose proof grow_ext_last as Hx. clear -Hx Hpv. unfold new_span.
        destruct ext as [s0 |]; [| done]. destruct (Hx s0 eq_refl). congruence. }
      rewrite (spans_unique rs' s (new_span m sz ext) m (gr_ok _ _ _ _ _ _ Hgr));
        try done; try lia. by rewrite En.
    + rewrite E1, E2 in *. rewrite E3 in Hpv.
      destruct (grow_span_of j d0 s HjL Hd0 Hs Hins) as (s1 & Hs1 & Hin1 & -> & _).
      by apply (g_first _ _ _ G j d0 s1).
  - intros s Hs. apply (gr_spans _ _ _ _ _ _ Hgr) in Hs as Hs'.
    assert (Hold : ∀ s1, s1 ∈ spans rs → ∃ k, get_handle rs' s1.1 = Ok (Some k)).
    { intros s1 Hs1. destruct (g_start _ _ _ G s1 Hs1) as [k Hk]. exists k.
      destruct (span_pos _ _ Hok Hs1) as (? & ? & _).
      rewrite (gr_old _ _ _ _ _ _ Hgr); [done | exists s1; split; [done | lia] | done]. }
    assert (Hnew1 : get_handle rs' m = Ok (Some hn)).
    { rewrite (gr_new _ _ _ _ _ _ Hgr) by (done || lia). by rewrite decide_True. }
    pose proof (λ s0 E, proj1 (gr_ext _ _ _ _ _ _ Hgr s0 E)) as Hx.
    destruct ext as [s0 |].
    + destruct Hs' as [-> | [Hs' _]]; [| by apply Hold].
      apply (Hold s0). by apply Hx.
    + destruct Hs' as [-> | Hs']; [by exists hn | by apply Hold].
Qed.
End Grow.

(** ** The region manager *)

(** Memory the allocator may be given: aligned and outside every region. *)
Definition fresh_memory (rs : list AllocationRegion) (m sz : Z) : Prop :=
  0 < m ∧ (256 | m) ∧ 0 < sz ∧ (256 | sz) ∧ m + sz < uint64_size ∧
  ∀ s, s ∈ spans rs → s.2 ≤ m ∨ m + sz ≤ s.1.

Lemma n_handles_for_spec sz :
  0 < sz < uint64_size → (256 | sz) → Z.of_nat (n_handles_for sz) = sz / 256.
Proof.
  intros Hsz [q Hq]. unfold n_handles_for, kMinAllocationSize. subst sz.
  replace (q * 256 + 256 - 1) with (255 + q * 256) by lia.
  rewrite wrap_u64_id by int_lia. rewrite Z.div_add, Z.div_mul by lia.
  change (255 / 256) with 0. lia.
Qed.

Lemma new_region_ok rs m sz : fresh_memory rs m sz → region_ok (new_region m sz).
Proof.
  intros (? & ? & ? & ? & ? & _). unfold region_ok, r_end_ptr. simpl.
  rewrite length_replicate, n_handles_for_spec by int_lia || done. split_and!; done.
Qed.

Lemma get_handle_in rs i r q :
  regions_ok rs → rs !! i = Some r → r_ptr r ≤ q < r_end_ptr r →
  get_handle rs q = region_get_handle r q.
Proof. intros Hok Hi Hq. unfold get_handle. by rewrite (RegionFor_spec rs i r). Qed.

Lemma upper_bound_below rs p i r :
  (i < upper_bound rs p)%nat → rs !! i = Some r → r_end_ptr r ≤ p.
Proof.
  revert i. induction rs as [| r0 rs IH]; intros i; simpl; [lia |].
  destruct (Z.ltb_spec p (r_end_ptr r0)); [lia |]. destruct i as [| i]; simpl.
  - by intros _ [= <-].
  - intros ?. apply IH. lia.
Qed.

Lemma upper_bound_above rs p i r :
  regions_ok rs → (upper_bound rs p ≤ i)%nat → rs !! i = Some r → p < r_end_ptr r.
Proof.
  revert i. induction rs as [| r0 rs IH]; intros i Hok; simpl; [done |].
  destruct (Z.ltb_spec p (r_end_ptr r0)) as [Hp | Hp].
  - intros _ Hi. destruct i as [| i]; simpl in Hi; [congruence |].
    pose proof (proj2 Hok 0%nat (S i) r0 r ltac:(lia) eq_refl Hi).
    destruct (proj1 Hok (S i) r Hi) as (_ & _ & ? & _). unfold r_end_ptr in *. lia.
  - destruct i as [| i]; [lia |]. simpl. intros Hi. apply IH; [| lia]. split.
    + intros j x Hj. by apply (proj1 Hok (S j)).
    + intros j k x y ? Hj Hk. apply (proj2 Hok (S j) (S k)); [lia | done | done].
Qed.

Lemma upper_bound_le rs p : (upper_bound rs p ≤ length rs)%nat.
Proof. induction rs as [| r rs IH]; simpl; [done |]. case_match; lia. Qed.

(** The list with a region inserted at its place. *)
Lemma insert_region_lookup rs i r j :
  (i ≤ length rs)%nat →
  insert_region rs i r !! j =
    if decide (j < i)%nat then rs !! j
    else if decide (j = i) then Some r else rs !! (j - 1)%nat.
Proof.
  intros Hi. unfold insert_region. pose proof (length_take_le rs i Hi) as Hl.
  repeat case_decide.
  - rewrite lookup_app_l by lia. by apply lookup_take_lt.
  - subst. rewrite lookup_app_r by lia. by rewrite Hl, Nat.sub_diag.
  - rewrite lookup_app_r by lia. rewrite Hl.
    replace (j - i)%nat with (S (j - i - 1)) by lia. simpl. rewrite lookup_drop.
    f_equal. lia.
Qed.

Lemma fresh_index rs m sz j r :
  regions_ok rs → fresh_memory rs m sz → rs !! j = Some r →
  ((j < upper_bound rs m)%nat ∧ r_end_ptr r ≤ m) ∨
  ((upper_bound rs m ≤ j)%nat ∧ m + sz ≤ r_ptr r).
Proof.
  intros Hok (_ & _ & Hsz & _ & _ & Hf) Hj.
  destruct (decide (j < upper_bound rs m)%nat) as [Hlt | Hge].
  - left. split; [done |]. by eapply upper_bound_below.
  - right. split; [lia |]. pose proof (upper_bound_above rs m j r Hok ltac:(lia) Hj).
    destruct (Hf (r_ptr r, r_end_ptr r)) as [H1 | H1]; [| simpl in H1; lia | done].
    apply spans_elem. eauto.
Qed.

Lemma insert_region_ok rs m sz :
  regions_ok rs → fresh_memory rs m sz → regions_ok (AddAllocationRegion rs m sz).
Proof.
  intros Hok Hf. pose proof (upper_bound_le rs m) as Hub.
  assert (Hnew : r_end_ptr (new_region m sz) = m + sz) by done.
  unfold AddAllocationRegion. split.
  - intros j r. rewrite insert_region_lookup by done. repeat case_decide.
    + apply (proj1 Hok).
    + intros [= <-]. by eapply new_region_ok.
    + apply (proj1 Hok).
  - intros j k r1 r2 Hjk. rewrite !insert_region_lookup by done.
    repeat case_decide; try lia; intros Hj Hk; simplify_eq.
    + by apply (proj2 Hok j k).
    + destruct (fresh_index rs m sz j r1) as [[]|[]]; done || simpl; lia.
    + by apply (proj2 Hok j (k - 1)%nat r1 r2 ltac:(lia)).
    + destruct (fresh_index rs m sz (k - 1) r2) as [[]|[]]; done || simpl; lia.
    + by apply (proj2 Hok (j - 1)%nat (k - 1)%nat r1 r2 ltac:(lia)).
Qed.

Lemma insert_region_elem rs i r x :
  x ∈ insert_region rs i r ↔ x = r ∨ x ∈ rs.
Proof.
  unfold insert_region. rewrite elem_of_app, elem_of_cons.
  rewrite <- (take_drop i rs) at 3. rewrite elem_of_app. tauto.
Qed.

Lemma spans_elem' rs s : s ∈ spans rs ↔ ∃ r, r ∈ rs ∧ s = (r_ptr r, r_end_ptr r).
Proof.
  unfold spans. rewrite list_elem_of_fmap. split; intros (r & ? & ?); eauto.
Qed.

Lemma get_handle_elem rs r q :
  regions_ok rs → r ∈ rs → r_ptr r ≤ q < r_end_ptr r →
  get_handle rs q = region_get_handle r q.
Proof. intros Hok [i Hi]%list_elem_of_lookup Hq. by eapply get_handle_in. Qed.

Lemma AddAllocationRegion_grown rs m sz :
  regions_ok rs → fresh_memory rs m sz →
  grown rs (AddAllocationRegion rs m sz) m sz None None.
Proof.
  intros Hok Hf. pose proof (insert_region_ok rs m sz Hok Hf) as Hok'.
  pose proof (new_region_ok rs m sz Hf) as Hr.
  assert (Helem : ∀ x, x ∈ AddAllocationRegion rs m sz ↔ x = new_region m sz ∨ x ∈ rs)
    by (intros; apply insert_region_elem).
  split; try done.
  - intros q (s & (r & Hr' & ->)%spans_elem' & Hq) _. simpl in Hq.
    rewrite (get_handle_elem rs r), (get_handle_elem _ r); [done.. | | done | done | done | done].
    apply Helem. by right.
  - intros q Hq Ha. rewrite (get_handle_elem _ (new_region m sz)); [| done | | ].
    + pose proof (IndexFor_lt _ _ Hr Hq) as Hlt. simpl in Hlt.
      unfold region_get_handle, at_res. simpl. rewrite length_replicate in Hlt.
      rewrite lookup_replicate_2 by done. by case_decide.
    + apply Helem. by left.
    + done.
  - intros s. rewrite !spans_elem'. setoid_rewrite Helem. split.
    + intros (r & [-> | Hr'] & ->); [by left | right; eauto].
    + intros [-> | (r & ? & ->)]; [exists (new_region m sz) | exists r]; auto.
  - apply Hf.
Qed.

(** *** Extending the region that ends where the memory starts *)

Lemma region_extend_ok rs i r m sz :
  regions_ok rs → fresh_memory rs m sz → rs !! i = Some r → r_end_ptr r = m →
  region_ok (region_extend r sz) ∧ r_ptr (region_extend r sz) = r_ptr r ∧
  r_end_ptr (region_extend r sz) = m + sz.
Proof.
  intros Hok (H1 & H2 & H3 & H4 & H5 & _) Hi He.
  destruct (proj1 Hok i r Hi) as (R1 & R2 & R3 & R4 & R5 & R6). unfold r_end_ptr in *.
  assert (Hw : wrap_u64 (r_memory_size r + sz) = r_memory_size r + sz)
    by (apply wrap_u64_id; int_lia).
  assert (Hd : (256 | r_memory_size r + sz)) by by apply Z.divide_add_r.
  unfold region_ok, region_extend, r_end_ptr. simpl. rewrite Hw.
  split; [| split; [done | lia]]. split_and!; try done; try lia.
  unfold resize_handles. rewrite length_app, length_take, length_replicate.
  pose proof (n_handles_for_spec (r_memory_size r + sz) ltac:(int_lia) Hd).
  pose proof (Z.div_le_mono (r_memory_size r) (r_memory_size r + sz) 256 ltac:(lia)
    ltac:(lia)). lia.
Qed.

(** The handles of an extended region: the old ones, then none. *)
Lemma region_extend_handle rs i r m sz q :
  regions_ok rs → fresh_memory rs m sz → rs !! i = Some r → r_end_ptr r = m →
  r_ptr r ≤ q < m + sz → (256 | q) →
  region_get_handle (region_extend r sz) q =
    if decide (q < m) then region_get_handle r q else Ok None.
Proof.
  intros Hok Hf Hi He Hq Ha.
  destruct (region_extend_ok rs i r m sz Hok Hf Hi He) as (Hr' & Ep & Ee).
  pose proof (proj1 Hok i r Hi) as Hr.
  assert (Hlt : (IndexFor (region_extend r sz) q < length (r_handles (region_extend r sz)))%nat)
    by (apply IndexFor_lt; [done | lia]).
  assert (Hidx : IndexFor (region_extend r sz) q = Z.to_nat ((q - r_ptr r) / 256))
    by (rewrite IndexFor_spec, Ep; done || lia).
  unfold region_get_handle. rewrite Hidx in *. simpl in *. unfold at_res.
  unfold resize_handles in *. rewrite length_app, length_take, length_replicate in Hlt.
  destruct Hf as (_ & _ & Hsz & _). unfold region_ok, r_end_ptr in *.
  destruct Hr as (R1 & R2 & R3 & [k Hk] & R5 & R6).
  assert (Hlen : Z.of_nat (length (r_handles r)) = k) by (rewrite R6, Hk; by apply Z.div_mul).
  assert (Hn : (length (r_handles r) ≤ n_handles_for (wrap_u64 (r_memory_size r + sz)))%nat).
  { destruct Hr' as (_ & _ & _ & _ & _ & R'). simpl in R'. unfold resize_handles in R'.
    simpl in Ee. assert (Hw : wrap_u64 (r_memory_size r + sz) = r_memory_size r + sz) by lia.
    rewrite length_app, length_take, length_replicate, Hw in R'. rewrite Hw.
    pose proof (Z.div_le_mono (r_memory_size r) (r_memory_size r + sz) 256 ltac:(lia)
      ltac:(lia)). lia. }
  rewrite take_ge by done. case_decide.
  - assert (Hio : IndexFor r q = Z.to_nat ((q - r_ptr r) / 256)).
    { apply IndexFor_spec; unfold region_ok, r_end_ptr; [| lia].
      split_and!; try done. by exists k. }
    rewrite Hio, lookup_app_l; [done |].
    assert ((q - r_ptr r) / 256 < k) by (apply Z.div_lt_upper_bound; lia). lia.
  - assert (k ≤ (q - r_ptr r) / 256) by (apply Z.div_le_lower_bound; lia).
    rewrite lookup_app_r by lia. rewrite lookup_replicate_2 by lia. done.
Qed.

Lemma region_extend_grown rs i r m sz :
  regions_ok rs → fresh_memory rs m sz → rs !! i = Some r → r_end_ptr r = m →
  grown rs (<[i := region_extend r sz]> rs) m sz None (Some (r_ptr r, m)).
Proof.
  intros Hok Hf Hi He.
  destruct (region_extend_ok rs i r m sz Hok Hf Hi He) as (Hr' & Ep & Ee).
  set (r' := region_extend r sz) in *.
  pose proof (lookup_lt_Some _ _ _ Hi) as Hlt.
  assert (Hlk : ∀ j x, <[i := r']> rs !! j = Some x →
            (j = i ∧ x = r') ∨ (j ≠ i ∧ rs !! j = Some x)).
  { intros j x [(-> & <- & _) | [? ?]]%list_lookup_insert_Some; auto. }
  assert (Hother : ∀ j x, j ≠ i → rs !! j = Some x → r_end_ptr x ≤ r_ptr r ∨ m + sz ≤ r_ptr x).
  { intros j x Hne Hj. destruct (decide (j < i)%nat).
    - left. by apply (proj2 Hok j i).
    - right. pose proof (proj2 Hok i j r x ltac:(lia) Hi Hj).
      destruct (proj1 Hok j x Hj) as (_ & _ & ? & _). unfold r_end_ptr in *.
      destruct Hf as (_ & _ & ? & _ & _ & Hf).
      destruct (Hf (r_ptr x, r_end_ptr x)) as [F1 | F1];
        [apply spans_elem; eauto | unfold r_end_ptr in F1; simpl in F1; lia | done]. }
  assert (Hok' : regions_ok (<[i := r']> rs)).
  { split.
    - intros j x [[_ ->] | [_ Hj]]%Hlk; [done | by apply (proj1 Hok j)].
    - intros j k x y Hjk [[-> ->] | [Nj Hj]]%Hlk [[-> ->] | [Nk Hk]]%Hlk; try lia.
      + pose proof (proj2 Hok i k r y Hjk Hi Hk).
        destruct (proj1 Hok k y Hk) as (_ & _ & ? & _). unfold r_end_ptr in *.
        destruct (Hother k y Nk Hk); unfold r_end_ptr in *; [| lia].
        destruct (proj1 Hok i r Hi) as (_ & _ & ? & _). lia.
      + rewrite Ep. by apply (proj2 Hok j i).
      + by apply (proj2 Hok j k). }
  assert (Hi' : <[i := r']> rs !! i = Some r') by by apply list_lookup_insert_eq.
  split; try done.
  - intros q (s & (j & x & Hj & ->)%spans_elem & Hq) Ha. simpl in Hq.
    rewrite (get_handle_in rs j x) by done. destruct (decide (j = i)) as [-> | Hne].
    + assert (x = r) as -> by congruence. pose proof Hf as (_ & _ & ? & _).
      rewrite (get_handle_in _ i r') by (done || lia).
      unfold r'. rewrite (region_extend_handle rs i r m sz) by (done || lia).
      by rewrite decide_True by lia.
    + rewrite (get_handle_in _ j x); [done | done | | done].
      by rewrite list_lookup_insert_ne.
  - intros q Hq Ha. destruct (proj1 Hok i r Hi) as (_ & _ & ? & _).
    unfold r_end_ptr in *.
    rewrite (get_handle_in _ i r') by (done || unfold r_end_ptr in *; lia).
    unfold r'. rewrite (region_extend_handle rs i r m sz) by (done || lia).
    rewrite decide_False by lia. by case_decide.
  - intros s. rewrite !spans_elem. split.
    + intros (j & x & [[-> ->] | [Nj Hj]]%Hlk & ->); [left; by rewrite Ep, Ee |].
      right. split; [eauto |]. intros [= E1 E2].
      destruct (proj1 Hok j x Hj) as (_ & _ & ? & _).
      destruct (proj1 Hok i r Hi) as (_ & _ & ? & _).
      destruct (Hother j x Nj Hj); destruct Hf as (_ & _ & ? & _); unfold r_end_ptr in *; lia.
    + intros [-> | [(j & x & Hj & ->) Hne]].
      * exists i, r'. split; [done |]. by rewrite Ep, Ee.
      * exists j, x. split; [| done]. rewrite list_lookup_insert_ne; [done |].
        intros <-. apply Hne. assert (x = r) as -> by congruence. by rewrite He.
  - intros s0 [= <-]. split; [| done]. apply spans_elem. exists i, r. by rewrite He.
  - apply Hf.
Qed.

(** Recording the handle of the new memory. *)
Lemma grown_set rs rs' m sz ext h :
  regions_ok rs → fresh_memory rs m sz → grown rs rs' m sz None ext →
  ∃ rs'', set_handle rs' m (Some h) = Ok rs'' ∧ spans rs'' = spans rs' ∧
    grown rs rs'' m sz (Some h) ext.
Proof.
  intros Hok (H1 & H2 & H3 & H4 & H5 & H6) G.
  destruct (grown_new_span _ _ _ _ _ _ G Hok H3) as [Hs [I1 I2]].
  assert (Hcov : ∀ q, m ≤ q < m + sz → covered (spans rs') q).
  { intros q Hq. exists (new_span m sz ext). split; [done | lia]. }
  destruct (set_handle_spec rs' m (Some h)) as (rs'' & Hset & Hsp & Hok'' & Hm & Ho);
    [apply G | apply Hcov; lia | done |].
  exists rs''. split; [done |]. split; [done |]. destruct G as [G1 G2 G3 G4 G5 G6].
  split; try done.
  - intros q Hq Ha. destruct Hq as (s & Hs' & Hq). rewrite Ho.
    + apply G2; [by exists s | done].
    + destruct (grown_span rs rs' m sz None ext s) as (s' & ? & ? & ? & _); [done.. |].
      exists s'. split; [done | lia].
    + done.
    + intros ->. destruct (H6 s Hs'); lia.
  - intros q Hq Ha. case_decide; [by subst |].
    rewrite Ho by auto. rewrite G3 by done. by case_decide.
  - intros s. by rewrite Hsp.
Qed.

(** The two ways the region manager takes new memory in. *)
Lemma AddOrExtend_grown rs m sz :
  regions_ok rs → fresh_memory rs m sz →
  let '(rs', o) := AddOrExtendAllocationRegion rs m sz in
  match o with
  | None => grown rs rs' m sz None None
  | Some i => ∃ r, rs !! i = Some r ∧ rs' !! i = Some (region_extend r sz) ∧
      grown rs rs' m sz None (Some (r_ptr r, m))
  end.
Proof.
  intros Hok Hf. pose proof (AddAllocationRegion_grown rs m sz Hok Hf) as Hnew.
  unfold AddAllocationRegion in Hnew. unfold AddOrExtendAllocationRegion.
  destruct (upper_bound rs m) as [| i]; [done |].
  destruct (rs !! i) as [r |] eqn:Hi; [| done].
  destruct (Z.eqb_spec (r_end_ptr r) m) as [He |]; [| done].
  exists r. split; [done |]. split; [| by apply region_extend_grown].
  apply list_lookup_insert_eq. by eapply lookup_lt_Some.
Qed.

(** ** [Extend] *)

Section Extend.
Context `{SA : SubAllocator}.

(** Following [next] reaches the end of the region: every step moves at least
    256 bytes on. *)
Lemma last_chunk_run cs rs L a s fuel h c :
  geom cs rs L → (∀ j, j ∈ L → chunks a !! j = cs !! j) → s ∈ spans rs →
  h ∈ L → cs !! h = Some c → in_span s (ptr c) (size c) →
  s.2 - ptr c ≤ 256 * Z.of_nat fuel →
  ∃ l e, last_chunk fuel h a = Ok (l, a) ∧ l ∈ L ∧ cs !! l = Some e ∧ next e = None ∧
    in_span s (ptr e) (size e).
Proof.
  intros G Hsame Hs. revert h c. induction fuel as [| fuel IH]; intros h c Hh Hc Hin Hf.
  { destruct (g_chunk _ _ _ G h c Hh Hc). destruct Hin. lia. }
  simpl. erewrite run_bind by (apply ChunkFromHandle_run; by rewrite Hsame).
  destruct (next c) as [n |] eqn:En; [| by exists h, c].
  destruct (g_next _ _ _ G h c n Hh Hc En) as (Hn & cn & Hcn & _ & Hp & Hsp).
  destruct (g_chunk _ _ _ G h c Hh Hc) as (Hs1 & [k Hk] & _).
  apply (IH n cn); auto. lia.
Qed.

(** The record [Extend] fills in for the new memory. *)
Definition memory_chunk (c0 : Chunk) (m sz : Z) (lc : option ChunkHandle) : Chunk :=
  MkChunk sz (requested_size c0) (-1) m lc None (bin_num c0) 0.

(** Finding the last chunk of the extended region. *)
Lemma link_last a L fl fuel m sz rs' rs'' i r hn ext a1 :
  inv a L fl → fresh_memory (regions a) m sz → regions a !! i = Some r →
  rs' !! i = Some (region_extend r sz) → ext = Some (r_ptr r, m) →
  m - r_ptr r ≤ 256 * Z.of_nat fuel → spans rs'' = spans rs' →
  grown (regions a) rs'' m sz (Some hn) ext →
  regions a1 = rs'' → (∀ j, j ∈ L → chunks a1 !! j = chunks a !! j) →
  ∃ p l e r'', rs'' !! i = Some r'' ∧ region_get_handle r'' (r_ptr r'') = Ok (Some p) ∧
    last_chunk fuel p a1 = Ok (l, a1) ∧ l ∈ L ∧ chunks a !! l = Some e ∧
    next e = None ∧ in_span (r_ptr r, m) (ptr e) (size e).
Proof.
  intros I Hf Hi Hi' -> Hfuel Hsp Hg Hregs Hsame. pose proof (i_geom _ _ _ I) as HG.
  pose proof (i_regions _ _ _ I) as HR. destruct (gr_ext _ _ _ _ _ _ Hg _ eq_refl) as [Hs0 _].
  destruct (g_start _ _ _ HG _ Hs0) as [p Hp]. simpl in Hp.
  destruct (span_pos _ _ HR Hs0) as ([? ?] & ? & ? & _). simpl in *.
  assert (Hcov : covered (spans (regions a)) (r_ptr r)) by (eexists; split; [done | simpl; lia]).
  destruct (g_handle _ _ _ HG (r_ptr r) p Hcov ltac:(done) Hp) as (HpL & c & Hc & Epc).
  assert (∃ r'', rs'' !! i = Some r'' ∧ r_ptr r'' = r_ptr r ∧ r_ptr r < r_end_ptr r'')
    as (r'' & Hr'' & Er & Hlt).
  { assert (E : spans rs'' !! i = spans rs' !! i) by by rewrite Hsp.
    unfold spans in E. rewrite !list_lookup_fmap, Hi' in E. simpl in E.
    apply fmap_Some in E as (r'' & Hr'' & [= E1 E2]). exists r''.
    split; [done |]. split; [done |].
    assert (Hx : (r_ptr r'', r_end_ptr r'') ∈ spans rs'')
      by (apply spans_elem; by exists i, r'').
    destruct (span_pos _ _ (gr_ok _ _ _ _ _ _ Hg) Hx) as ([? ?] & _). simpl in *. lia. }
  destruct (g_where _ _ _ HG p c HpL Hc) as (_ & s & Hs & [I1 I2]).
  destruct (g_chunk _ _ _ HG p c HpL Hc) as (? & _).
  assert (s = (r_ptr r, m)) as -> by (apply (spans_unique (regions a) _ _ (ptr c)); done || simpl; lia).
  destruct (last_chunk_run (chunks a) (regions a) L a1 (r_ptr r, m) fuel p c)
    as (l & e & Hl & HlL & He & Hn & Hin); try done; [simpl; lia |].
  exists p, l, e, r''. split_and!; try done.
  rewrite <- (get_handle_in rs'' i r'' (r_ptr r'')); [| apply Hg | done | lia].
  rewrite Er, (gr_old _ _ _ _ _ _ Hg); done.
Qed.

(** The new chunk is linked behind the last one of the extended region. *)
Lemma link_memory_run a L fl fuel m sz rs' o ext :
  inv a L fl → fresh_memory (regions a) m sz →
  grown (regions a) rs' m sz None ext →
  match o with
  | None => ext = None
  | Some i => ∃ r, regions a !! i = Some r ∧ rs' !! i = Some (region_extend r sz) ∧
      ext = Some (r_ptr r, m) ∧ m - r_ptr r ≤ 256 * Z.of_nat fuel
  end →
  ∃ hn csF fo rs'' fl' lc cn,
    link_memory fuel m sz o (with_regions rs' a) =
      Ok (hn, with_regions rs'' (with_free_chunks_list fo (with_chunks csF a))) ∧
    hn ∉ L ∧ hn ∉ fl' ∧ flist csF fo fl' ∧ NoDup fl' ∧ (∀ j, j ∈ fl' → j ∈ fl) ∧
    grown (regions a) rs'' m sz (Some hn) ext ∧
    grow_store (chunks a) csF L hn cn m sz lc ∧ last_of (chunks a) L lc ext ∧
    in_use cn = false ∧ bin_num cn = None ∧ freed_at_count cn = 0.
Proof.
  intros I Hf Hg Ho. pose proof I as [HR HG HF HND HD _ _].
  destruct (AllocateChunk_raw (with_regions rs' a) L fl (g_live _ _ _ HG) HF HND HD)
    as (hn & cs0 & fo & fl' & c0 & Hrun & HnL & Hnfl & Hc0 & Hb0 & Hsame & Hfl & Hnd & Hsub).
  fields. destruct (grown_set _ _ m sz ext hn HR Hf Hg) as (rs'' & Hset & Hsp & Hg').
  set (cs1 := <[hn := memory_chunk c0 m sz None]> cs0).
  set (a1 := with_regions rs'' (with_free_chunks_list fo (with_chunks cs1 a))).
  assert (Hold : ∀ j, j ∈ L → cs1 !! j = chunks a !! j).
  { intros j Hj. assert (hn ≠ j) by (by intros ->). unfold cs1.
    rewrite list_lookup_insert_ne by done. by apply Hsame. }
  assert (Hn1 : cs1 !! hn = Some (memory_chunk c0 m sz None)) by by apply (lookup_upd_eq _ _ c0).
  assert (Hfl1 : flist cs1 fo fl').
  { eapply flist_ext; [| done]. intros j Hj. apply list_lookup_insert_ne. by intros ->. }
  assert (Hpre : link_memory fuel m sz o (with_regions rs' a) =
    (match o with
     | Some i =>
         rs ← gets regions;
         r ← lift (at_res rs i);
         oprev ← lift (region_get_handle r (r_ptr r));
         prev ← lift (match oprev with Some p => Ok p | None => Fail Undefined end);
         prev ← last_chunk fuel prev;
         update_chunk hn (set_prev (Some prev));;
         update_chunk prev (set_next (Some hn))
     | None => mret tt
     end;; mret hn) a1).
  { unfold link_memory. erewrite run_bind by exact Hrun. mstep.
    erewrite run_bind; [reflexivity |]. unfold rm_set_handle. erewrite run_bind by reflexivity.
    fields. erewrite run_bind by (apply lift_run; exact Hset). reflexivity. }
  rewrite Hpre. destruct o as [i |].
  - destruct Ho as (r & Hi & Hi' & Eext & Hfuel).
    destruct (link_last a L fl fuel m sz rs' rs'' i r hn ext a1)
      as (p & l & e & r'' & Hr'' & Hp & Hl & HlL & He & Hnx & Hin); try done.
    assert (Hll : cs1 !! l = Some e) by by rewrite Hold.
    assert (l ≠ hn) by (by intros ->).
    exists hn, (<[l := set_next (Some hn) e]>
      (<[hn := memory_chunk c0 m sz (Some l)]> cs1)), fo, rs'', fl', (Some l),
      (memory_chunk c0 m sz (Some l)).
    split.
    { erewrite run_bind; [reflexivity |]. erewrite run_bind by reflexivity.
      erewrite run_bind by (apply lift_run, at_res_ok; exact Hr'').
      erewrite run_bind by (apply lift_run; exact Hp). erewrite run_bind by reflexivity.
      erewrite run_bind by exact Hl. mstep.
      erewrite update_chunk_run by lk. reflexivity. }
    unfold grow_store. split_and!; try done.
    + eapply flist_ext; [| done]. intros j Hj.
      rewrite !list_lookup_insert_ne; [done | by intros -> |].
      intros ->. by destruct (HD j); auto.
    + apply lookup_upd_ne; [done |]. by eapply lookup_upd_eq.
    + intros j Hj. assert (hn ≠ j) by (by intros ->).
      rewrite (lookup_upd _ _ e) by by apply lookup_upd_ne.
      destruct (decide (l = j)) as [-> |];
        [by rewrite decide_True, <- Hold, Hll |].
      rewrite decide_False by congruence. rewrite list_lookup_insert_ne by done. by apply Hold.
    + subst ext. simpl. split; [done |]. exists e. done.
  - exists hn, cs1, fo, rs'', fl', None, (memory_chunk c0 m sz None).
    split; [reflexivity |]. subst ext. unfold grow_store. split_and!; try done.
Qed.

(** A live chunk after the growth. *)
Lemma grow_cases cs cs' L hn cn m sz lc j d :
  grow_store cs cs' L hn cn m sz lc → hn ∉ L → j ∈ {[hn]} ∪ L → cs' !! j = Some d →
  (j = hn ∧ d = cn) ∨
  (j ≠ hn ∧ j ∈ L ∧ ∃ d0, cs !! j = Some d0 ∧ block d = block d0 ∧
     allocation_id d = allocation_id d0 ∧ binned d = binned d0 ∧
     freed_at_count d = freed_at_count d0 ∧ (next d = Some hn ∨ next d = next d0)).
Proof.
  intros (S1 & S2 & S3 & S4 & S5 & S6) Hhn [->%elem_of_singleton | Hj]%elem_of_union Hd.
  - left. split; congruence.
  - right. split; [by intros -> |]. split; [done |]. rewrite S6 in Hd by done.
    case_decide; [| by exists d; auto 10]. apply fmap_Some in Hd as (d0 & Hd0 & ->).
    exists d0. split_and!; try done. by left.
Qed.

Lemma grow_inv a L fl hn csF fo rs'' fl' lc cn m sz ext :
  inv a L fl → fresh_memory (regions a) m sz → hn ∉ L → hn ∉ fl' →
  flist csF fo fl' → NoDup fl' → (∀ j, j ∈ fl' → j ∈ fl) →
  grown (regions a) rs'' m sz (Some hn) ext →
  grow_store (chunks a) csF L hn cn m sz lc → last_of (chunks a) L lc ext →
  in_use cn = false → bin_num cn = None →
  inv (with_regions rs'' (with_free_chunks_list fo (with_chunks csF a)))
    ({[hn]} ∪ L) fl'.
Proof.
  intros I (H1 & H2 & H3 & H4 & _) HnL Hnfl Hfl Hnd Hsub Hg HS Hlast Hu Hb.
  pose proof I as [HR HG HF HND HD HB [Hi1 Hi2]]. split; fields; try done.
  - apply Hg.
  - by apply (geom_grow (chunks a) csF (regions a) rs'' L hn cn m sz lc ext).
  - intros j Hj. pose proof (HD j (Hsub j Hj)). set_solver.
  - eapply bins_ok_change; [| done]. intros j. destruct (decide (j = hn)) as [-> |].
    + right. split; [done |]. intros _. exists cn. split; [by apply HS | done].
    + destruct (decide (j ∈ L)) as [Hj |]; [left | right; set_solver].
      split; [done |]. split; [set_solver |].
      destruct HS as (_ & _ & _ & _ & _ & S6). rewrite S6 by done.
      case_decide; [| done]. by destruct (chunks a !! j).
  - split; [done |]. intros j d Hj Hd Hud.
    destruct (grow_cases _ _ _ _ _ _ _ _ j d HS HnL Hj Hd)
      as [[-> ->] | (_ & HjL & d0 & Hd0 & _ & Ei & _)]; [congruence |].
    unfold in_use in *. rewrite Ei in *. by apply (Hi2 j d0).
Qed.

Lemma grow_view cs cs' L hn cn m sz lc :
  grow_store cs cs' L hn cn m sz lc → hn ∉ L → in_use cn = false →
  freed_at_count cn = 0 →
  (binned_except (λ _, False) cs L → binned_except (λ j, j = hn) cs' ({[hn]} ∪ L)) ∧
  (∀ b, blocks cs' ({[hn]} ∪ L) b ↔ blocks cs L b) ∧
  (untimed cs L → untimed cs' ({[hn]} ∪ L)) ∧
  (∀ x y, free_adjacent cs' ({[hn]} ∪ L) x y →
     y = hn ∨ ∃ d e, x ∈ L ∧ cs !! x = Some d ∧ next d = Some y ∧ in_use d = false ∧
                     cs' !! y = Some e ∧ in_use e = false).
Proof.
  intros HS HnL Hu Hf. pose proof HS as (S1 & S2 & S3 & S4 & S5 & S6).
  pose proof (λ j d, grow_cases _ _ _ _ _ _ _ _ j d HS HnL) as Hc. split_and!.
  - intros B j d Hj Hne Hd Hud.
    destruct (Hc j d Hj Hd) as [[-> _] | (_ & HjL & d0 & Hd0 & _ & _ & Eb & _)]; [done |].
    apply binned_eq in Eb as (_ & _ & -> & Eu). apply (B j d0); congruence || auto.
  - intros b. split.
    + intros (j & d & Hj & Hd & Hud & ->).
      destruct (Hc j d Hj Hd) as [[-> ->] | (_ & HjL & d0 & Hd0 & Eb & Ei & _)]; [congruence |].
      exists j, d0. unfold in_use in *. rewrite <- Ei. done.
    + intros (j & d & Hj & Hd & Hud & ->). specialize (S6 j Hj). rewrite Hd in S6.
      case_decide; eexists j, _; (split; [set_solver |]); (split; [exact S6 | done]).
  - intros U j d Hj Hd.
    destruct (Hc j d Hj Hd) as [[-> ->] | (_ & HjL & d0 & Hd0 & _ & _ & _ & -> & _)]; [done |].
    by apply (U j).
  - intros x y (Hx & cx & cy & Hcx & Hcy & Hn & Ux & Uy).
    destruct (Hc x cx Hx Hcx) as [[-> ->] | (_ & HxL & d0 & Hd0 & _ & Ei & _ & _ & [E | E])];
      [congruence | left; congruence | right].
    exists d0, cy. unfold in_use in *. rewrite <- Ei, <- E. done.
Qed.

Lemma land_255 m : (256 | m) → Z.land m (kMinAllocationSize - 1) = 0.
Proof.
  intros Hm. change (kMinAllocationSize - 1) with (Z.ones 8).
  rewrite Z.land_ones by lia. by apply Z.mod_divide.
Qed.

Lemma regions_taken a L fl fuel m sz rs' o :
  inv a L fl → fresh_memory (regions a) m sz →
  (∀ s, s ∈ spans (regions a) → s.2 - s.1 ≤ 256 * Z.of_nat fuel) →
  (if SupportsCoalescing then AddOrExtendAllocationRegion (regions a) m sz
   else (AddAllocationRegion (regions a) m sz, None)) = (rs', o) →
  ∃ ext, grown (regions a) rs' m sz None ext ∧
    match o with
    | None => ext = None
    | Some i => ∃ r, regions a !! i = Some r ∧ rs' !! i = Some (region_extend r sz) ∧
        ext = Some (r_ptr r, m) ∧ m - r_ptr r ≤ 256 * Z.of_nat fuel
    end.
Proof.
  intros I Hf Hfuel E. pose proof (i_regions _ _ _ I) as HR.
  destruct SupportsCoalescing.
  - pose proof (AddOrExtend_grown (regions a) m sz HR Hf) as H. rewrite E in H.
    destruct o as [i |]; [| by exists None].
    destruct H as (r & Hi & Hi' & Hg). exists (Some (r_ptr r, m)). split; [done |].
    exists r. split_and!; try done.
    destruct (gr_ext _ _ _ _ _ _ Hg _ eq_refl) as [Hs _]. apply (Hfuel _ Hs).
  - injection E as <- <-. exists None. split; [| done]. by apply AddAllocationRegion_grown.
Qed.

(** Taking in memory that the sub-allocator delivered. *)
Lemma add_memory_spec a L fl fuel m sz :
  steady a L fl → fresh_memory (regions a) m sz →
  (∀ s, s ∈ spans (regions a) → s.2 - s.1 ≤ 256 * Z.of_nat fuel) →
  ∃ a' L' fl', add_memory fuel m sz a = Ok (tt, a') ∧ steady a' L' fl' ∧
    (∀ b, blocks (chunks a') L' b ↔ blocks (chunks a) L b) ∧
    stats a' = stats_pool sz (stats a) ∧
    opts a' = opts a ∧ memory_limit a' = memory_limit a ∧ sub a' = sub a ∧
    curr_region_allocation_bytes a' = curr_region_allocation_bytes a ∧
    next_allocation_id a' = next_allocation_id a ∧
    timing_counter a' = timing_counter a ∧
    (∀ p, covered (spans (regions a')) p ↔ covered (spans (regions a)) p ∨ m ≤ p < m + sz).
Proof.
  intros St Hf Hfuel. pose proof St as [I Hbe Hut].
  set (a0 := with_stats (stats_pool sz (stats a)) a).
  assert (I0 : inv a0 L fl) by (destruct I; by split).
  destruct (if SupportsCoalescing then AddOrExtendAllocationRegion (regions a) m sz
            else (AddAllocationRegion (regions a) m sz, None)) as [rs' o] eqn:Eadd.
  destruct (regions_taken a L fl fuel m sz rs' o I Hf Hfuel Eadd) as (ext & Hg & Ho).
  destruct (link_memory_run a0 L fl fuel m sz rs' o ext I0 Hf Hg Ho)
    as (hn & csF & fo & rs'' & fl' & lc & cn & Hrun & HnL & Hnfl & Hfl & Hnd & Hsub & Hg' &
        HS & Hlast & Hu & Hb & Hfr).
  set (a2 := with_regions rs'' (with_free_chunks_list fo (with_chunks csF a0))) in *.
  assert (I2 : inv a2 ({[hn]} ∪ L) fl') by by apply (grow_inv a0 L fl hn csF fo rs'' fl' lc cn m sz ext).
  destruct (grow_view _ _ _ _ _ _ _ _ HS HnL Hu Hfr) as (V1 & V2 & V3 & V4).
  assert (Hcn : chunks a2 !! hn = Some cn) by apply HS.
  destruct (TryToCoalesce_spec a2 ({[hn]} ∪ L) fl' hn cn false I2)
    as (a3 & L3 & fl3 & h3 & c3 & R3 & Q3 & F3); try done; [set_solver | by apply V1 |].
  destruct Q3 as [I3 E3 Hh3 Hc3 [Hu3 Hb3] Hbe3 Hbl3 Hut3 _].
  destruct (bin_coalesced a3 L3 fl3 h3 c3) as (a4 & R4 & I4 & E4 & Hbe4 & Hbl4 & Hut4 & F4 & _);
    try done.
  assert (Ee : env a4 = env a2) by congruence.
  injection Ee as Eo Em Ec Es En Est Etc Ets Esf Esp.
  exists a4, L3, fl3. split.
  { unfold add_memory. destruct Hf as (_ & Hm & _).
    erewrite run_bind by (by apply check_run, Z.eqb_eq, land_255). mstep. mstep. fields.
    rewrite Eadd. mstep. rewrite (run_bind _ _ _ _ _ Hrun).
    by rewrite (run_bind _ _ _ _ _ R3). }
  split; [| split_and!; try done].
  - split; try done. rewrite Etc, Ets. intros Ht. destruct (Hut Ht) as (? & Hun & Hadj).
    split_and!; [done | auto |]. intros x y Hxy.
    apply (F3 (or_intror (V3 Hun))) with x y; [| by apply F4].
    intros x' y' F. right. destruct (V4 x' y' F) as [| (d & e & G1 & G2 & G3 & G4 & G5 & G6)];
      [done | exfalso].
    destruct (g_next _ _ _ (i_geom _ _ _ I) x' d y' G1 G2 G3) as (HyL & dy & Hdy & _).
    apply (Hadj x' y'). split; [done |]. exists d, dy. split_and!; try done.
    destruct (grow_cases _ _ _ _ _ _ _ _ y' e HS HnL ltac:(set_solver) G5)
      as [[-> _] | (_ & _ & d0 & Hd0 & _ & Ei & _)]; [done |].
    unfold in_use in *. rewrite Ei in G6. change (chunks a0) with (chunks a) in Hd0.
    by simplify_eq.
  - intros b. rewrite Hbl4, Hbl3. apply V2.
  - intros p. rewrite Esp. destruct Hf as (_ & _ & Hsz & _). fields.
    pose proof (i_regions _ _ _ I) as HR. split.
    + by apply (grown_covered _ _ _ _ _ _ p Hg').
    + intros [(s & Hs & Hp) | Hp].
      * destruct (grown_span _ _ _ _ _ _ s Hg' Hsz Hs) as (s' & ? & ? & ? & _).
        exists s'. split; [done | lia].
      * destruct (grown_new_span _ _ _ _ _ _ Hg' HR Hsz) as [? [? ?]].
        eexists. split; [done | lia].
Qed.

End Extend.
End BfcExtend.
