(* ===== verification/BfcAlloc.v ===== *)
(** * Allocation end to end

    [Extend] over a sub-allocator that keeps its promises, [AllocateRawInternal]
    for an allocator without timing counter and without garbage collection, and
    runs of allocation and release requests from the initial state. *)
From S2P Require Import Prelude BfcState BfcOps BfcInv BfcProofs BfcFind BfcExtend.
From Stdlib Require Import Floats.SpecFloat.

Module BfcAlloc.
Import Bfc BfcOps BfcInv BfcProofs BfcFind BfcExtend.

(** ** What a sub-allocator promises *)

(** [held s q]: the sub-allocator has delivered the address [q] and has not
    taken it back. *)
Class SubAllocatorOk (SA : SubAllocator) := {
  held : sub_state → Z → Prop;
  alloc_null s al n s' : SubAlloc s al n = (None, s') → ∀ q, held s' q ↔ held s q;
  alloc_some s al n m sz s' : SubAlloc s al n = (Some (m, sz), s') →
    0 < n → (256 | n) → (256 | al) →
    0 < m ∧ (256 | m) ∧ n ≤ sz ∧ (256 | sz) ∧ m + sz < uint64_size ∧
    (∀ q, m ≤ q < m + sz → ¬ held s q) ∧
    (∀ q, held s' q ↔ held s q ∨ m ≤ q < m + sz)
}.

(** ** Backing off by a tenth *)

Lemma digits_spec p : 2 ^ (Z.pos (digits2_pos p) - 1) ≤ Z.pos p < 2 ^ Z.pos (digits2_pos p).
Proof.
  induction p as [p IH | p IH |]; cbn [digits2_pos]; [| | done].
  all: rewrite Pos2Z.inj_succ; replace (Z.succ (Z.pos (digits2_pos p)) - 1) with (Z.succ (Z.pos (digits2_pos p) - 1)) by lia.
  all: rewrite !Z.pow_succ_r by lia; lia.
Qed.

Lemma shr_1_half r : 0 ≤ shr_m r → shr_m (shr_1 r) = shr_m r / 2.
Proof.
  destruct r as [[| p | p] b s]; cbn [shr_m]; [done | | done]. intros _.
  destruct p as [p | p |]; cbn [shr_1 shr_m]; [| | done].
  - apply (Z.div_unique _ 2 _ 1); lia.
  - apply (Z.div_unique _ 2 _ 0); lia.
Qed.

Lemma shr_divides p r : 0 ≤ shr_m r → shr_m (iter_pos shr_1 p r) = shr_m r / 2 ^ Z.pos p.
Proof.
  revert r. induction p as [p IH | p IH |]; intros r Hr; cbn [iter_pos]; [| | by rewrite shr_1_half].
  - assert (H1 : 0 ≤ shr_m (shr_1 r)) by (rewrite shr_1_half by done; apply Z.div_pos; lia).
    assert (H2 : 0 ≤ shr_m (iter_pos shr_1 p (shr_1 r))) by (rewrite IH by done; apply Z.div_pos; lia).
    rewrite !IH, shr_1_half, !Zdiv.Zdiv_Zdiv by lia. f_equal. rewrite (Pos2Z.inj_xI p).
    replace (2 * Z.pos p + 1) with (1 + (Z.pos p + Z.pos p)) by lia. rewrite !Z.pow_add_r by lia. ring.
  - assert (H2 : 0 ≤ shr_m (iter_pos shr_1 p r)) by (rewrite IH by done; apply Z.div_pos; lia).
    rewrite !IH, !Zdiv.Zdiv_Zdiv by lia. f_equal. rewrite (Pos2Z.inj_xO p).
    replace (2 * Z.pos p) with (Z.pos p + Z.pos p) by lia. by rewrite Z.pow_add_r by lia.
Qed.

Lemma shr_at_most r e n r' e' : 0 ≤ shr_m r → shr r e n = (r', e') →
  e ≤ e' ∧ 0 ≤ shr_m r' ∧ ∀ k, - k ≤ e → shr_m r' * 2 ^ (e' + k) ≤ shr_m r * 2 ^ (e + k).
Proof.
  intros Hr. unfold shr. destruct n as [| p | p]; [by intros [= <- <-]; auto with lia | | by intros [= <- <-]; auto with lia].
  intros [= <- <-]. rewrite shr_divides by done. split; [lia |]. split; [apply Z.div_pos; lia |]. intros k Hk.
  replace (e + Z.pos p + k) with (Z.pos p + (e + k)) by lia. rewrite Z.pow_add_r, Z.mul_assoc by lia.
  apply Z.mul_le_mono_nonneg_r; [lia |]. rewrite Z.mul_comm. apply Z.mul_div_le. lia.
Qed.

Lemma round_up m l : round_nearest_even m l ≤ m + 1 ∧ m ≤ round_nearest_even m l.
Proof. destruct l as [| []]; cbn [round_nearest_even]; try lia. destruct (Z.even m); lia. Qed.

(** Rounding adds at most 2^-23. *)
Lemma binary_round_aux_le m e k :
  - k ≤ e → -149 ≤ e - 24 →
  match binary_round_aux 24 128 false (Z.pos m) e loc_Exact with
  | S754_finite s m' e' => s = false ∧ e ≤ e' ∧ Z.pos m' * 2 ^ (e' + k) * 2 ^ 23 ≤ Z.pos m * 2 ^ (e + k) * (2 ^ 23 + 1)
  | _ => True
  end.
Proof.
  intros Hk He. unfold binary_round_aux. pose proof (digits_spec m) as Hd. set (d := Z.pos (digits2_pos m)) in *.
  assert (Hf : shr_fexp 24 128 (Z.pos m) e loc_Exact = shr (Build_shr_record (Z.pos m) false false) e (d - 24)).
  { unfold shr_fexp. cbn [shr_record_of_loc Zdigits2]. fold d. f_equal. unfold fexp, emin. assert (1 ≤ d) by (unfold d; lia). lia. }
  rewrite Hf. destruct (shr _ e (d - 24)) as [r1 e1] eqn:E1.
  assert (H1 : e ≤ e1 ∧ 0 ≤ shr_m r1 ∧
    (round_nearest_even (shr_m r1) (loc_of_shr_record r1)) * 2 ^ (e1 + k) * 2 ^ 23 ≤ Z.pos m * 2 ^ (e + k) * (2 ^ 23 + 1)).
  { unfold shr in E1. destruct (d - 24) as [| n | n] eqn:En.
    - injection E1 as <- <-. cbn [shr_m loc_of_shr_record round_nearest_even]. split; [lia |]. split; [lia |]. nia.
    - injection E1 as <- <-. rewrite shr_divides by (cbn; lia). cbn [shr_m]. split; [lia |]. split; [apply Z.div_pos; lia |].
      match goal with |- round_nearest_even ?x ?l * _ * _ ≤ _ => pose proof (round_up x l) as [Hu _]; set (u := round_nearest_even x l) in * end.
      assert (Hm : 2 ^ 23 * 2 ^ Z.pos n ≤ Z.pos m) by (rewrite <- Z.pow_add_r by lia; replace (23 + Z.pos n) with (d - 1) by lia; lia).
      pose proof (Z.mul_div_le (Z.pos m) (2 ^ Z.pos n) ltac:(lia)).
      replace (e + Z.pos n + k) with (Z.pos n + (e + k)) by lia. rewrite Z.pow_add_r by lia.
      assert (0 < 2 ^ (e + k)) by lia. set (x := 2 ^ (e + k)) in *. set (y := 2 ^ Z.pos n) in *.
      assert (u * y * 2 ^ 23 ≤ Z.pos m * (2 ^ 23 + 1)) by nia. nia.
    - injection E1 as <- <-. cbn [shr_m loc_of_shr_record round_nearest_even]. split; [lia |]. split; [lia |]. nia. }
  destruct H1 as (He1 & Hr1 & Hle). unfold shr_fexp. destruct (shr _ e1 _) as [r2 e2] eqn:E2.
  pose proof (round_up (shr_m r1) (loc_of_shr_record r1)) as [_ Hlow].
  apply shr_at_most in E2 as (He2 & Hr2 & H2); [| cbn [shr_record_of_loc shr_m]; lia].
  destruct (shr_m r2) as [| m' |]; [done | | done]. destruct (e2 <=? 128 - 24); [| done]. split; [done |]. split; [lia |].
  specialize (H2 k ltac:(lia)). cbn [shr_record_of_loc shr_m] in H2. nia.
Qed.

(** The [float] of a byte count is at most 2^-23 too large. *)
Lemma byte_count_le m :
  match binary_normalize 24 128 (Z.pos m) 0 false with
  | S754_finite s m' e' => s = false ∧ -24 ≤ e' ∧ Z.pos m' * 2 ^ (e' + 24) * 2 ^ 23 ≤ Z.pos m * 2 ^ 24 * (2 ^ 23 + 1)
  | _ => True
  end.
Proof.
  unfold binary_normalize, binary_round. pose proof (digits_spec m) as Hd. set (d := Z.pos (digits2_pos m)) in *.
  assert (Hf : fexp 24 128 (d + 0) = d - 24) by (unfold fexp, emin; assert (1 ≤ d) by (unfold d; lia); lia). rewrite Hf.
  unfold shl_align. destruct (d - 24 - 0) as [| n | n] eqn:En.
  1, 2: pose proof (binary_round_aux_le m 0 24 ltac:(lia) ltac:(lia)) as H;
    destruct (binary_round_aux _ _ _ _ _ _); try done; destruct H as (-> & ? & ?); split_and!; (done || lia).
  assert (En' : d - 24 = Z.neg n) by lia. rewrite En'.
  pose proof (binary_round_aux_le (Pos.iter xO m n) (Z.neg n) 24) as H. assert (1 ≤ d) by (unfold d; lia).
  specialize (H ltac:(lia) ltac:(lia)). destruct (binary_round_aux _ _ _ _ _ _) as [| | | s m' e']; try done.
  destruct H as (-> & H1 & H2). split; [done |]. split; [lia |].
  assert (Ei : Z.pos (Pos.iter xO m n) = Z.pos m * 2 ^ Z.pos n).
  { clear. induction n as [| n IH] using Pos.peano_ind; [cbn; lia |].
    rewrite Pos.iter_succ, (Pos2Z.inj_xO _), IH, Pos2Z.inj_succ, Z.pow_succ_r by lia. ring. }
  rewrite Ei in H2. replace (2 ^ 24) with (2 ^ Z.pos n * 2 ^ (Z.neg n + 24)) by (rewrite <- Z.pow_add_r by lia; f_equal; lia). nia.
Qed.

Lemma float_product_le m :
  match SFmul 24 128 (binary_normalize 24 128 (Z.pos m) 0 false) kBackpedalFactor with
  | S754_finite s m' e' => s = false ∧ -48 ≤ e' ∧ Z.pos m' * 2 ^ (e' + 48) * 2 ^ 22 ≤ Z.pos m * 15099494 * (2 ^ 23 + 1) * (2 ^ 23 + 1)
  | _ => True
  end.
Proof.
  pose proof (byte_count_le m) as H. destruct (binary_normalize _ _ _ _ _) as [| | | s m' e']; try done.
  destruct H as (-> & He & Hm). unfold SFmul, kBackpedalFactor. cbn [xorb].
  pose proof (binary_round_aux_le (m' * 15099494) (e' + -24) 48 ltac:(lia) ltac:(lia)) as H.
  destruct (binary_round_aux _ _ _ _ _ _) as [| | | s2 m2 e2]; try done. destruct H as (-> & He2 & Hm2). split; [done |]. split; [lia |].
  rewrite Pos2Z.inj_mul in Hm2. replace (e' + -24 + 48) with (e' + 24) in Hm2 by lia.
  set (x := Z.pos m2 * 2 ^ (e2 + 48)) in *. set (y := Z.pos m' * 2 ^ (e' + 24)) in *.
  replace (Z.pos m' * 15099494 * 2 ^ (e' + 24)) with (y * 15099494) in Hm2 by (unfold y; ring). set (z := Z.pos m) in *.
  clearbody x y z. lia.
Qed.

Lemma float_trunc_le m e : -48 ≤ e → float_trunc (S754_finite false m e) * 2 ^ 48 ≤ Z.pos m * 2 ^ (e + 48) ∧ 0 ≤ float_trunc (S754_finite false m e).
Proof.
  intros He. cbn [float_trunc]. destruct (decide (0 ≤ e)) as [H | H].
  - rewrite Z.shiftl_mul_pow2, Z.pow_add_r by lia. lia.
  - rewrite <- (Z.opp_involutive e), Z.shiftl_opp_r, Z.shiftr_div_pow2 by lia. split; [| apply Z.div_pos; lia].
    replace (2 ^ 48) with (2 ^ (- e) * 2 ^ (- - e + 48)) by (rewrite <- Z.pow_add_r by lia; f_equal; lia).
    rewrite Z.mul_assoc. apply Z.mul_le_mono_nonneg_r; [lia |]. rewrite Z.mul_comm. apply Z.mul_div_le. lia.
Qed.

(** Backing off makes a size of ten slots or more smaller; nine slots stay nine slots. *)
Lemma backpedal_smaller b :
  2304 < b < uint64_size → (256 | b) → 0 ≤ backpedal b ≤ b - 256.
Proof.
  intros Hb [k Ek]. destruct b as [| m | m]; [lia | | lia]. unfold backpedal. pose proof (float_product_le m) as H.
  assert (Ht : 0 ≤ float_trunc (SFmul 24 128 (binary_normalize 24 128 (Z.pos m) 0 false) kBackpedalFactor) ≤ Z.pos m - 256).
  { destruct (SFmul _ _ _ _) as [| | | s m' e']; [cbn; lia .. |]. destruct H as (-> & He & H).
    destruct (float_trunc_le m' e' He) as [H1 H2]. set (t := float_trunc _) in *. set (x := Z.pos m' * _) in *. clearbody t x.
    split; [done |]. rewrite Ek in *. assert (10 ≤ k) by lia. clear Ek Hb.
    assert (t * 2 ^ 70 ≤ k * 256 * 15099494 * (2 ^ 23 + 1) * (2 ^ 23 + 1)) by lia. lia. }
  set (t := float_trunc _) in *. clearbody t. destruct (RoundedBytes_least t ltac:(int_lia)) as ([j Ej] & H1). lia.
Qed.

Lemma backpedal_rests : backpedal 2304 = 2304.
Proof. vm_compute. reflexivity. Qed.

Section Alloc.
Context `{SO : SubAllocatorOk}.

(** The outcome of a call: a value satisfying [Q], or running out of fuel when
    [T] does not hold; never a failed check or undefined behaviour. *)
Definition ends {X} (T : Prop) (Q : X → Prop) (m : res X) : Prop :=
  match m with Ok x => Q x | Fail NoFuel => ¬ T | Fail _ => False end.

Lemma ends_bind {X Y} T (Q : X * Allocator → Prop) (R : Y * Allocator → Prop)
    (m : M X) (f : X → M Y) a :
  ends T Q (m a) → (∀ x a', Q (x, a') → ends T R (f x a')) → ends T R ((m ≫= f) a).
Proof.
  unfold mbind, M_bind. destruct (m a) as [[x a'] | e]; simpl; [auto | done].
Qed.

Lemma ends_weaken {X} (T T' : Prop) (Q Q' : X → Prop) m :
  ends T Q m → (T' → T) → (∀ x, Q x → Q' x) → ends T' Q' m.
Proof. destruct m as [x | []]; simpl; auto. Qed.

(** ** The loops of [Extend] *)

(** Doubling reaches the request unless the byte count has wrapped to 0. *)
Lemma grow_region_bytes_spec fuel rounded curr :
  rounded < 2 ^ 62 → in_uint64 curr → (256 | curr) →
  ends (0 < curr ∧ rounded ≤ curr * 2 ^ Z.of_nat fuel)
    (λ r, rounded ≤ r.1 ∧ in_uint64 r.1 ∧ (256 | r.1) ∧ (0 < curr → 0 < r.1) ∧
          (r.2 = false → r.1 = curr) ∧ (r.2 = true → r.1 < 2 * rounded))
    (grow_region_bytes fuel rounded curr).
Proof.
  intros Hr. revert curr. induction fuel as [| fuel IH]; intros curr Hc Ha; simpl;
    rewrite Z.gtb_ltb; destruct (Z.ltb_spec curr rounded) as [Hlt | Hge]; simpl;
    try (split_and!; done || lia).
  { change (2 ^ 0) with 1. lia. }
  assert (Hw : wrap_u64 (curr * 2) = curr * 2) by (apply wrap_u64_id; int_lia).
  rewrite Hw. specialize (IH (curr * 2) ltac:(int_lia) ltac:(by apply Z.divide_mul_l)).
  destruct (grow_region_bytes fuel rounded (curr * 2)) as [[c i] | e]; simpl in *.
  - destruct IH as (H1 & H2 & H3 & H4 & H5 & H6). split_and!; try done; [lia |].
    intros _. destruct i; [by apply H6 | rewrite H5 by done; lia].
  - destruct e; try done. intros [Hp Hf]. apply IH. split; [lia |].
    rewrite Nat2Z.inj_succ, Z.pow_succ_r in Hf by lia. lia.
Qed.

Lemma RoundedBytes_divide b : (256 | RoundedBytes b).
Proof.
  unfold RoundedBytes, wrap_u64, kMinAllocationSize.
  apply Z.mod_divide; [lia |]. rewrite <- Znumtheory.Zmod_div_mod; [| lia | int_lia |].
  - rewrite Z.mul_comm. apply Z.mod_mul. lia.
  - by exists (2 ^ 56).
Qed.

(** Memory that the sub-allocator delivered and the allocator has not recorded
    yet. *)
Definition delivered (a : Allocator) (bound : Z) (r : option (Z * Z) * Allocator) : Prop :=
  let '(o, a') := r in
  ∃ s, a' = with_sub s a ∧
  match o with
  | None => ∀ q, held s q ↔ held (sub a) q
  | Some (m, sz) =>
      0 < m ∧ (256 | m) ∧ bound ≤ sz ∧ (256 | sz) ∧ m + sz < uint64_size ∧
      (∀ q, m ≤ q < m + sz → ¬ held (sub a) q) ∧
      (∀ q, held s q ↔ held (sub a) q ∨ m ≤ q < m + sz)
  end.

Lemma sub_Alloc_spec al n rounded a :
  0 < rounded ≤ n → (256 | n) → (256 | al) →
  ∃ o a', sub_Alloc al n a = Ok (o, a') ∧ delivered a rounded (o, a') ∧
    o = (SubAlloc (sub a) al n).1.
Proof.
  intros Hn Ha Hal. unfold sub_Alloc.
  destruct (SubAlloc (sub a) al n) as [[[m sz] |] s] eqn:E.
  - eexists _, _. split; [done |]. split; [| done]. exists s. split; [done |].
    destruct (alloc_some _ _ _ _ _ _ E) as (? & ? & ? & ? & ? & ? & ?); [lia | done.. |].
    split_and!; done || lia.
  - eexists _, _. split; [done |]. split; [| done]. exists s. split; [done |].
    intros q. by apply (alloc_null _ _ _ _ E).
Qed.

(** The sub-allocator has memory for requests of up to nine slots, also after it has
    refused others. *)
Definition grants (al : Z) (a : Allocator) : Prop :=
  ∀ s n, (∀ q, held s q ↔ held (sub a) q) → (256 | n) → 0 < n ≤ 2304 → (SubAlloc s al n).1 ≠ None.

Lemma grants_held al a s : (∀ q, held s q ↔ held (sub a) q) → grants al a → grants al (with_sub s a).
Proof. intros Hs H s' n Hs'. apply H. intros q. by rewrite Hs', <- Hs. Qed.

(** The loop ends: it asks for less each time until nine slots are left, and asks for
    these only when the request needs no more. *)
Lemma backpedal_loop_spec fuel al rounded bytes a :
  0 < rounded → (256 | al) →
  ends ((2304 < rounded ∨ grants al a) ∧ 2304 < bytes < uint64_size ∧ bytes ≤ 256 * Z.of_nat fuel ∧ (256 | bytes))
    (delivered a rounded) (backpedal_loop fuel al rounded bytes a).
Proof.
  intros Hr Hal. revert bytes a. induction fuel as [| fuel IH]; intros bytes a; simpl; [lia |].
  destruct (Z.ltb_spec (backpedal bytes) rounded) as [Hlt | Hge].
  - exists (sub a). split; [by destruct a | done].
  - destruct (sub_Alloc_spec al (backpedal bytes) rounded a) as (o & a' & Hrun & Hd & Eo);
      [lia | apply RoundedBytes_divide | done |].
    rewrite (run_bind _ _ _ _ _ Hrun). destruct o as [m |]; [done |].
    destruct Hd as (s0 & -> & Hs0).
    eapply ends_weaken; [apply IH | |].
    + intros (HT & Hb & Hf & Hd). destruct (backpedal_smaller bytes Hb Hd) as [H1 H2].
      assert (Hb' : 2304 < backpedal bytes).
      { destruct HT as [| HT]; [lia |]. destruct (decide (2304 < backpedal bytes)) as [| Hn]; [done |].
        destruct (HT (sub a) (backpedal bytes)); [done | apply RoundedBytes_divide | lia | done]. }
      split_and!; try (done || lia); [| apply RoundedBytes_divide].
      destruct HT as [| HT]; [by left | right]. by apply grants_held.
    + intros [o a''] (s & -> & Ho). exists s. split; [done |]. fields.
      destruct o as [[m sz] |].
      * destruct Ho as (? & ? & ? & ? & ? & Hf & Hh). fields. setoid_rewrite Hs0 in Hf.
        setoid_rewrite Hs0 in Hh. done.
      * intros q. by rewrite Ho, Hs0.
Qed.

(** ** [Extend] *)

(** The allocator's memory comes from the sub-allocator, and the size of the
    next region is a multiple of 256. *)
Record hosted (a : Allocator) : Prop := Hosted {
  ho_curr : in_uint64 (curr_region_allocation_bytes a) ∧
            (256 | curr_region_allocation_bytes a);
  ho_held q : covered (spans (regions a)) q → held (sub a) q
}.

(** A client cannot tell [a'] from [a]. *)
Definition same_client (a : Allocator) (L : gset ChunkHandle) (a' : Allocator)
    (L' : gset ChunkHandle) : Prop :=
  (∀ b, blocks (chunks a') L' b ↔ blocks (chunks a) L b) ∧
  opts a' = opts a ∧ memory_limit a' = memory_limit a ∧
  next_allocation_id a' = next_allocation_id a ∧
  timing_counter a' = timing_counter a ∧
  bytes_in_use (stats a') = bytes_in_use (stats a) ∧
  num_allocs (stats a') = num_allocs (stats a).

Lemma same_client_refl a L : same_client a L a L.
Proof. done. Qed.

Definition big_fuel (fuel : nat) : Prop := uint64_size ≤ 256 * Z.of_nat fuel.

Lemma fuel_spans a L fl fuel s :
  inv a L fl → big_fuel fuel → s ∈ spans (regions a) → s.2 - s.1 ≤ 256 * Z.of_nat fuel.
Proof.
  intros I Hf Hs. destruct (span_pos _ _ (i_regions _ _ _ I) Hs) as (? & _ & _ & ?).
  unfold big_fuel in Hf. lia.
Qed.

(** Delivered memory is fresh. *)
Lemma delivered_fresh a rounded s m sz :
  hosted a → regions_ok (regions a) → 0 < rounded →
  delivered a rounded (Some (m, sz), with_sub s a) → fresh_memory (regions a) m sz.
Proof.
  intros [_ Hh] Hok Hr (s' & _ & H1 & H2 & H3 & H4 & H5 & H6 & _).
  split_and!; try done; [lia |]. intros s0 Hs.
  destruct (span_pos _ _ Hok Hs) as ([? ?] & _).
  destruct (Z.le_gt_cases s0.2 m); [by left |].
  destruct (Z.le_gt_cases (m + sz) s0.1); [by right |]. exfalso.
  apply (H6 (Z.max m s0.1)); [lia |]. apply Hh. exists s0. split; [done | lia].
Qed.

(** A region length that is not zero is at least one slot. *)
Lemma curr_double c : in_uint64 c → (256 | c) →
  in_uint64 (wrap_u64 (c * 2)) ∧ (256 | wrap_u64 (c * 2)).
Proof.
  intros Hc Ha. split; [apply wrap_u64_range |]. unfold wrap_u64.
  apply Z.mod_divide; [lia |]. rewrite <- Znumtheory.Zmod_div_mod; [| lia | int_lia |].
  - apply Z.mod_divide; [lia |]. by apply Z.divide_mul_l.
  - by exists (2 ^ 56).
Qed.

(** The end of [Extend], once the size of the request is settled. *)
Lemma take_memory_spec a L fl fuel al rounded c (increased : bool) bytes T :
  steady a L fl → hosted a → big_fuel fuel → 0 < rounded ≤ bytes → (256 | bytes) →
  bytes < uint64_size → (256 | al) → c = curr_region_allocation_bytes a → (T → 2304 < rounded ∨ grants al a) →
  ends T (λ '(b, a'), ∃ L' fl', steady a' L' fl' ∧ hosted a' ∧ same_client a L a' L')
    ((r ← sub_Alloc al bytes;
      r ← match r with
          | Some m => mret (Some m)
          | None => backpedal_loop fuel al rounded bytes
          end;
      match r with
      | None => mret false
      | Some (mem_addr, bytes_received) =>
          (if (increased : bool) then mret tt
           else modify (with_curr_region_allocation_bytes (wrap_u64 (c * 2))));;
          add_memory fuel mem_addr bytes_received;;
          mret true
      end) a).
Proof.
  intros St Ho Hf Hb Ha Hmax Hal -> HT. pose proof (st_inv _ _ _ St) as I.
  destruct (sub_Alloc_spec al bytes rounded a Hb Ha Hal) as (o & a1 & Hrun & Hd & Eo).
  rewrite (run_bind _ _ _ _ _ Hrun).
  apply ends_bind with (Q := delivered a rounded).
  { destruct o as [m |]; [done |]. destruct Hd as (s & -> & Hs).
    eapply ends_weaken; [apply backpedal_loop_spec; lia || done | |].
    - intros HTT. specialize (HT HTT). unfold big_fuel in Hf. split; [| split; [| by split; [lia |]]].
      + destruct HT as [| HT]; [by left | right]. by apply grants_held.
      + split; [| done]. destruct HT as [| HT]; [lia |]. destruct (decide (2304 < bytes)) as [| Hn]; [done |].
        destruct (HT (sub a) bytes); [done | done | lia | done].
    - intros [o' a'] (s' & -> & Ho'). exists s'. split; [done |]. fields.
      destruct o' as [[m sz] |]; [| intros q; by rewrite Ho', Hs].
      destruct Ho' as (? & ? & ? & ? & ? & H6 & H7). fields. setoid_rewrite Hs in H6.
      setoid_rewrite Hs in H7. done. }
  intros r a2 Hd2. destruct r as [[m sz] |]; simpl.
  - pose proof Hd2 as (s & -> & _).
    pose proof (delivered_fresh a rounded s m sz Ho (i_regions _ _ _ I) ltac:(lia) Hd2) as Hfr.
    set (c' := if increased then curr_region_allocation_bytes a
               else wrap_u64 (curr_region_allocation_bytes a * 2)).
    assert (Hc' : in_uint64 c' ∧ (256 | c')).
    { unfold c'. destruct increased; [apply Ho | apply curr_double; apply Ho]. }
    set (a3 := with_curr_region_allocation_bytes c' (with_sub s a)).
    assert (Hrun3 : (if increased then mret tt
        else modify (with_curr_region_allocation_bytes
               (wrap_u64 (curr_region_allocation_bytes a * 2)))) (with_sub s a)
        = Ok (tt, a3)) by by destruct increased.
    rewrite (run_bind _ _ _ _ _ Hrun3).
    assert (St3 : steady a3 L fl) by (destruct St as [[]]; by split).
    destruct (add_memory_spec a3 L fl fuel m sz St3 Hfr)
      as (a4 & L4 & fl4 & R4 & St4 & B4 & S4 & O4 & M4 & U4 & C4 & N4 & T4 & P4).
    { intros s0. by apply (fuel_spans a L fl). }
    rewrite (run_bind _ _ _ _ _ R4). exists L4, fl4. split; [done |]. split.
    + split; [by rewrite C4 |]. intros q. rewrite P4, U4. unfold a3. fields.
      destruct Hd2 as (s' & Es & _ & _ & _ & _ & _ & _ & Hh).
      assert (s = s') as -> by by injection Es. rewrite Hh.
      intros [Hq | Hq]; [left; by apply Ho | by right].
    + split; [done |]. rewrite S4. done.
  - destruct Hd2 as (s & -> & Hs). exists L, fl. split; [destruct St as [[]]; by split |].
    split; [| done]. destruct Ho. split; [done |]. intros q Hq. fields. apply Hs. auto.
Qed.

Lemma Extend_spec a L fl fuel al rounded :
  steady a L fl → hosted a → big_fuel fuel → 0 < rounded < 2 ^ 62 → (256 | rounded) →
  (256 | al) →
  ends (0 < curr_region_allocation_bytes a ∧ (2304 < rounded ∨ grants al a))
    (λ '(b, a'), ∃ L' fl', steady a' L' fl' ∧ hosted a' ∧ same_client a L a' L')
    (Extend fuel al rounded a).
Proof.
  intros St Ho Hf Hr Hra Hal. unfold Extend. erewrite run_bind by reflexivity.
  set (av := wrap_u64 (memory_limit a - pool_bytes (stats a)) / kMinAllocationSize
             * kMinAllocationSize).
  cbv zeta. rewrite Z.gtb_ltb.
  destruct (Z.ltb_spec av rounded) as [Hav | Hav]; [by exists L, fl |].
  destruct (ho_curr _ Ho) as [Hc1 Hc2].
  apply ends_bind with (Q := λ '(r, a'), a' = a ∧
    rounded ≤ r.1 ∧ in_uint64 r.1 ∧ (256 | r.1)).
  { pose proof (grow_region_bytes_spec fuel rounded (curr_region_allocation_bytes a)
      ltac:(lia) Hc1 Hc2) as Hg. unfold lift.
    destruct (grow_region_bytes fuel rounded _) as [r | e]; simpl in *; [tauto |].
    destruct e; try done. intros [Hp _]. apply Hg. split; [done |].
    unfold big_fuel in Hf. assert (62 ≤ Z.of_nat fuel) by int_lia.
    assert (2 ^ 62 ≤ 2 ^ Z.of_nat fuel) by (apply Z.pow_le_mono_r; lia). nia. }
  intros [c inc] a' (-> & H1 & H2 & H3). simpl in *.
  erewrite run_bind by reflexivity.
  eapply ends_weaken; [apply (take_memory_spec
    (with_curr_region_allocation_bytes c a) L fl fuel al rounded c inc
    (Z.min c av) (2304 < rounded ∨ grants al a)); try done | |].
  - destruct St as [[]]; by split.
  - destruct Ho. by split.
  - lia.
  - destruct (Z.min_spec c av) as [[_ ->] | [_ ->]]; [done |]. by eexists.
  - int_lia.
  - tauto.
  - done.
Qed.

(** ** [AllocateRawInternal] *)

(** What the client gets from an allocation. *)
Definition allocated (a : Allocator) (L : gset ChunkHandle) (rounded num_bytes k : Z)
    (r : option Z) (a' : Allocator) (L' : gset ChunkHandle) : Prop :=
  opts a' = opts a ∧ memory_limit a' = memory_limit a ∧
  timing_counter a' = timing_counter a ∧
  match r with
  | None => (∀ b, blocks (chunks a') L' b ↔ blocks (chunks a) L b) ∧
      bytes_in_use (stats a') = bytes_in_use (stats a)
  | Some p => (2 ^ k | p) ∧ ∃ sz, rounded ≤ sz < 2 * rounded ∧
      sz - rounded < wrap_u64 (max_internal_fragmentation_bytes a) ∧
      (∀ b, blocks (chunks a') L' b ↔
         blocks (chunks a) L b ∨ b = (p, sz, num_bytes, next_allocation_id a)) ∧
      next_allocation_id a' = next_allocation_id a + 1 ∧
      bytes_in_use (stats a') = wrap_s64 (bytes_in_use (stats a) + sz)
  end.

Lemma same_client_allocated a L a1 L1 a2 L2 rounded num_bytes k r :
  same_client a L a1 L1 → allocated a1 L1 rounded num_bytes k r a2 L2 →
  allocated a L rounded num_bytes k r a2 L2.
Proof.
  intros (E1 & E2 & E3 & E4 & E5 & E6 & E7) (F1 & F2 & F3 & Hr).
  split_and!; try congruence. destruct r as [p |].
  - destruct Hr as (Hp & sz & Hs & Hfr & Hb & Hid & Hst). split; [done |]. exists sz.
    unfold max_internal_fragmentation_bytes in *. rewrite E2 in Hfr. rewrite <- E4, <- E6.
    split_and!; try done; try lia. intros b. by rewrite Hb, E1.
  - destruct Hr as [Hr Hb]. split; [| congruence]. intros b. by rewrite Hr, E1.
Qed.

Lemma AddTraceMe_run a L fl p sz n id :
  inv a L fl → blocks (chunks a) L (p, sz, n, id) → AddTraceMe p a = Ok (tt, a).
Proof.
  intros I Hb. destruct (block_chunk a L fl p sz n id I Hb) as (h & c & _ & Hc & _ & _ & _ & Hg & _).
  unfold AddTraceMe. rewrite (run_bind _ _ _ _ _ Hg). erewrite run_bind by reflexivity.
  by rewrite (run_bind _ _ _ _ _ (ChunkFromHandle_run _ _ _ Hc)).
Qed.

(** The search, followed by the read of the tracing code. *)
Definition find_traced (rounded num_bytes alignment freed_before : Z) : M (option Z) :=
  r ← FindChunkPtr (BinNumForSize rounded) rounded num_bytes alignment freed_before;
  traced r.

Lemma find_traced_spec a L fl rounded num_bytes k fb :
  steady a L fl → hosted a → frag_ok a → request_ok rounded num_bytes k →
  ∃ r a' L' fl', find_traced rounded num_bytes (2 ^ k) fb a = Ok (r, a') ∧
    steady a' L' fl' ∧ hosted a' ∧ allocated a L rounded num_bytes k r a' L' ∧
    (r = None → a' = a ∧ L' = L ∧ fl' = fl).
Proof.
  intros St Ho Hf Hreq. unfold find_traced.
  destruct (FindChunkPtr_spec a L fl rounded num_bytes k fb St Hf Hreq)
    as [[Hr _] | (h & c & a' & L' & fl' & sz & _ & _ & Hr & Hh & Hal & _ & _ & Hs & Hfr)].
  - rewrite (run_bind _ _ _ _ _ Hr). by exists None, a, L, fl.
  - rewrite (run_bind _ _ _ _ _ Hr).
    set (p := ptr c + align_padding_for (2 ^ k) (ptr c)) in *.
    destruct Hh as [St' Hb Hid Hst (E1 & E2 & E3 & E4 & E5 & E6)].
    exists (Some p), a', L', fl'. split.
    { unfold traced. erewrite run_bind; [done |].
      apply (AddTraceMe_run a' L' fl' p sz num_bytes (next_allocation_id a)); [apply St' |].
      apply Hb. by right. }
    split; [done |]. split.
    { destruct Ho as [H1 H2]. split; [by rewrite E6 |]. intros q. rewrite E4, E5. auto. }
    split; [| done]. split_and!; try done. exists sz. split_and!; try done; try lia.
    by rewrite Hst.
Qed.

(** Without timing counter and garbage collection, a request is a search, and a
    second one once the allocator has grown. *)
Lemma AllocateRawInternal_run fuel alignment num_bytes a :
  num_bytes ≠ 0 → timestamped_chunks a = [] → timing_counter a = None →
  garbage_collection (opts a) = false →
  AllocateRawInternal fuel alignment num_bytes 0 a =
  (let rounded := RoundedBytes num_bytes in
   let al := Z.max alignment kMinAllocationSize in
   r ← find_traced rounded num_bytes al 0;
   match r with
   | Some p => mret (Some p)
   | None =>
       extended ← Extend fuel al rounded;
       r ← (if extended : bool then find_traced rounded num_bytes al 0 else mret None);
       match r with
       | Some p => mret (Some p)
       | None =>
           ts ← gets timestamped_chunks;
           r ← (if (0 =? 0) && bool_decide (ts ≠ []) then
                  satisfied ← MergeTimestampedChunks rounded;
                  if satisfied : bool then find_traced rounded num_bytes al 0 else mret None
                else mret None);
           match r with
           | Some p => mret (Some p)
           | None =>
               freed ← DeallocateFreeRegions fuel rounded;
               if freed : bool then
                 extended ← Extend fuel al rounded;
                 if extended : bool then find_traced rounded num_bytes al 0 else mret None
               else mret None
           end
       end
   end) a.
Proof.
  intros Hn Hts Htc Hgc. unfold AllocateRawInternal.
  destruct (Z.eqb_spec num_bytes 0) as [| _]; [done |]. cbv zeta.
  erewrite run_bind by reflexivity. rewrite Hts. rewrite bool_decide_false by auto.
  erewrite run_bind by reflexivity. done.
Qed.

Definition log_alignment (k : Z) : Z := Z.max k 8.

Lemma alignment_max k : 0 ≤ k → Z.max (2 ^ k) kMinAllocationSize = 2 ^ log_alignment k.
Proof.
  intros Hk. unfold log_alignment, kMinAllocationSize. change 256 with (2 ^ 8).
  destruct (Z.max_spec k 8) as [[H ->] | [H ->]].
  - apply Z.max_r. apply Z.pow_le_mono_r; lia.
  - apply Z.max_l. apply Z.pow_le_mono_r; lia.
Qed.

Lemma pow_divide_256 k : 8 ≤ k → (256 | 2 ^ k).
Proof.
  intros Hk. exists (2 ^ (k - 8)). change 256 with (2 ^ 8). rewrite <- Z.pow_add_r by lia.
  f_equal. lia.
Qed.

Lemma AllocateRawInternal_spec a L fl fuel k num_bytes :
  steady a L fl → hosted a → frag_ok a → timing_counter a = None →
  garbage_collection (opts a) = false → big_fuel fuel →
  0 ≤ k < 62 → 0 < num_bytes < 2 ^ 61 →
  ends (0 < curr_region_allocation_bytes a ∧ (2304 < num_bytes ∨ grants (2 ^ log_alignment k) a))
    (λ '(r, a'), ∃ L' fl', steady a' L' fl' ∧ hosted a' ∧
       allocated a L (RoundedBytes num_bytes) num_bytes (log_alignment k) r a' L')
    (AllocateRawInternal fuel (2 ^ k) num_bytes 0 a).
Proof.
  intros St Ho Hfr Htc Hgc Hf Hk Hn.
  destruct (st_untimed _ _ _ St Htc) as (Hts & _).
  rewrite AllocateRawInternal_run by (done || lia). cbv zeta.
  rewrite alignment_max by lia.
  destruct (RoundedBytes_least num_bytes ltac:(lia)) as [Hra Hrb].
  set (rounded := RoundedBytes num_bytes) in *. set (kk := log_alignment k).
  assert (Hreq : request_ok rounded num_bytes kk).
  { unfold request_ok, kk, log_alignment. split_and!; done || lia. }
  destruct (find_traced_spec a L fl rounded num_bytes kk 0 St Ho Hfr Hreq)
    as (r & a1 & L1 & fl1 & R1 & St1 & Ho1 & A1 & N1).
  rewrite (run_bind _ _ _ _ _ R1).
  destruct r as [p |]; [by exists L1, fl1 |].
  destruct (N1 eq_refl) as (-> & -> & ->). clear R1 N1 A1 St1 Ho1.
  assert (Hal : (256 | 2 ^ kk)) by (apply pow_divide_256; unfold kk, log_alignment; lia).
  pose proof (Extend_spec a L fl fuel (2 ^ kk) rounded St Ho Hf ltac:(lia) Hra Hal) as HE.
  eapply ends_bind; [eapply (ends_weaken _ _ _ _ _ HE); [| intros x Hx; exact Hx] |].
  { intros [Hc HT]. split; [done |]. destruct HT; [left; lia | by right]. }
  intros ext a1 (L1 & fl1 & St1 & Ho1 & S1).
  pose proof S1 as (E1 & E2 & E3 & E4 & E5 & _).
  assert (Hfr1 : frag_ok a1).
  { unfold frag_ok, max_internal_fragmentation_bytes. by rewrite E2. }
  destruct (find_traced_spec a1 L1 fl1 rounded num_bytes kk 0 St1 Ho1 Hfr1 Hreq)
    as (r & a2 & L2 & fl2 & R2 & St2 & Ho2 & A2 & N2).
  assert (∃ r' a3 L3 fl3, (if ext : bool then find_traced rounded num_bytes (2 ^ kk) 0
             else mret None) a1 = Ok (r', a3) ∧ steady a3 L3 fl3 ∧ hosted a3 ∧
            allocated a1 L1 rounded num_bytes kk r' a3 L3 ∧ (r' = None → a3 = a1))
    as (r' & a3 & L3 & fl3 & R3 & St3 & Ho3 & A3 & N3).
  { destruct ext; [| by exists None, a1, L1, fl1].
    exists r, a2, L2, fl2. split_and!; try done. intros HN. by apply N2. }
  rewrite (run_bind _ _ _ _ _ R3).
  pose proof (same_client_allocated _ _ _ _ _ _ _ _ _ _ S1 A3) as A.
  destruct r' as [p |]; [by exists L3, fl3 |].
  rewrite (N3 eq_refl) in *. clear R3 N3 a3.
  assert (Htc1 : timing_counter a1 = None) by congruence.
  destruct (st_untimed _ _ _ St1 Htc1) as (Hts1 & _).
  erewrite run_bind by reflexivity. rewrite Hts1, bool_decide_false by auto. simpl.
  erewrite run_bind by reflexivity. cbv iota.
  assert (Hd : DeallocateFreeRegions fuel rounded a1 = Ok (false, a1)).
  { unfold DeallocateFreeRegions. erewrite run_bind by reflexivity. by rewrite E2, Hgc. }
  rewrite (run_bind _ _ _ _ _ Hd). by exists L3, fl3.
Qed.

End Alloc.
End BfcAlloc.
