(* ===== verification/BfcCorrect.v ===== *)
(** * The contract of the BFC allocator

    The specification a client sees, a finite map from addresses to blocks (their
    sizes and the number of the allocation), and the refinement theorem: every request the allocator serves is a
    step of the specification, from the initial state on. *)
From S2P Require Import Prelude BfcState BfcOps BfcInv BfcProofs BfcFind BfcExtend BfcAlloc.

Module BfcCorrect.
Import Bfc BfcOps BfcInv BfcProofs BfcFind BfcExtend BfcAlloc.

(** ** The specification *)

(** What a client may ask: [num_bytes] bytes at an address that is a multiple of
    [2 ^ k], or to take a block back. *)
Inductive request :=
  | Alloc (k num_bytes : Z)
  | Free (p : Z).

(** What the client knows of a block it holds: the size it got, the size it asked for,
    and the number of the allocation. *)
Record Block := MkBlock { blk_size : Z; blk_requested : Z; blk_id : Z }.

(** The blocks the client holds, by address. *)
Abbreviation heap := (gmap Z Block).

Inductive spec_step : heap → request → option Z → heap → Prop :=
  | step_fail m k n : spec_step m (Alloc k n) None m
  | step_alloc m k n p sz id :
      n ≤ sz < 2 * (n + 256) → (2 ^ k | p) → 0 < p →
      (∀ q b, m !! q = Some b → q + blk_size b ≤ p ∨ p + sz ≤ q) →
      (∀ q b, m !! q = Some b → blk_id b < id) →
      spec_step m (Alloc k n) (Some p) (<[p := MkBlock sz n id]> m)
  | step_free m p : spec_step m (Free p) None (delete p m).

(** Requests the specification covers: sizes and alignments far from the end of
    the address space, and the release of blocks that are held. *)
Definition well_used (m : heap) (r : request) : Prop :=
  match r with
  | Alloc k n => 0 ≤ k < 62 ∧ 0 < n < 2 ^ 61
  | Free p => is_Some (m !! p)
  end.

Definition disjoint_heap (m : heap) : Prop :=
  ∀ p q b c, m !! p = Some b → m !! q = Some c → p ≠ q →
    blk_id b ≠ blk_id c ∧ (p + blk_size b ≤ q ∨ q + blk_size c ≤ p).

Definition total (m : heap) : Z := map_fold (λ _ b acc, blk_size b + acc) 0 m.

Lemma spec_step_disjoint m r o m' :
  disjoint_heap m → spec_step m r o m' → disjoint_heap m'.
Proof.
  intros D H. revert D. destruct H as [| ? ? ? p sz id _ _ _ Hf Hid | ? p]; intros D; [done | |].
  - intros x y s t. rewrite !lookup_insert_Some.
    intros [[<- <-] | [? Hx]] [[<- <-] | [? Hy]] Hne; try done; cbn [blk_size blk_id].
    + pose proof (Hid y t Hy). destruct (Hf y t Hy); lia.
    + pose proof (Hid x s Hx). destruct (Hf x s Hx); lia.
    + by apply (D x y).
  - intros x y s t [? Hx]%lookup_delete_Some [? Hy]%lookup_delete_Some. by apply D.
Qed.

Lemma total_insert m p b : m !! p = None → total (<[p := b]> m) = blk_size b + total m.
Proof. intros H. unfold total. rewrite map_fold_insert_L; [done | intros; lia | done]. Qed.

Lemma total_delete m p b : m !! p = Some b → total (delete p m) = total m - blk_size b.
Proof.
  intros H. unfold total. rewrite (map_fold_delete_L _ _ p b m); [lia | intros; lia | done].
Qed.

Lemma wrap_s64_mod x y : x mod uint64_size = y mod uint64_size → wrap_s64 x = wrap_s64 y.
Proof. intros E. unfold wrap_s64, wrap_u64. by rewrite E. Qed.

Lemma wrap_s64_cong x : wrap_s64 x mod uint64_size = x mod uint64_size.
Proof.
  unfold wrap_s64, wrap_u64. pose proof (Z.mod_pos_bound x uint64_size ltac:(int_lia)).
  destruct (_ <? _); [apply Z.mod_mod; int_lia |].
  rewrite <- (Z.mod_add _ 1) by int_lia. rewrite Z.mul_1_l, Z.sub_add.
  apply Z.mod_mod. int_lia.
Qed.

Lemma wrap_s64_add x y : wrap_s64 (wrap_s64 x + y) = wrap_s64 (x + y).
Proof.
  apply wrap_s64_mod. rewrite Z.add_mod, wrap_s64_cong, <- Z.add_mod; int_lia.
Qed.

Section Contract.
Context `{SO : SubAllocatorOk}.

(** ** The implementation refines it *)

(** One request, as the public entry points serve it. *)
Definition serve (fuel : nat) (r : request) : M (option Z) :=
  match r with
  | Alloc k n => AllocateRawInternal fuel (2 ^ k) n 0
  | Free p => DeallocateRawInternal p;; mret None
  end.

(** The blocks in use, as the specification sees them. *)
Definition represents (a : Allocator) (L : gset ChunkHandle) (m : heap) : Prop :=
  ∀ p b, m !! p = Some b ↔ blocks (chunks a) L (p, blk_size b, blk_requested b, blk_id b).

(** The allocator between two calls, in the configuration without timing counter
    and garbage collection. *)
Record good (a : Allocator) (m : heap) : Prop := Good {
  gd_state : ∃ L fl, steady a L fl ∧ represents a L m;
  gd_hosted : hosted a;
  gd_frag : frag_ok a;
  gd_config : timing_counter a = None ∧ garbage_collection (opts a) = false;
  gd_stats : bytes_in_use (stats a) = wrap_s64 (total m)
}.

Lemma blocks_addr a L fl p sz n id sz' n' id' :
  inv a L fl → blocks (chunks a) L (p, sz, n, id) →
  blocks (chunks a) L (p, sz', n', id') → (sz, n, id) = (sz', n', id').
Proof.
  intros I (h & c & Hh & Hc & _ & [= -> -> -> ->]) (h' & c' & Hh' & Hc' & _ & [= E -> -> ->]).
  pose proof (i_geom _ _ _ I) as G. destruct (decide (h = h')) as [<- | Hne].
  - by simplify_eq.
  - destruct (g_chunk _ _ _ G h c Hh Hc). destruct (g_chunk _ _ _ G h' c' Hh' Hc').
    destruct (g_disj _ _ _ G h h' c c'); try done; lia.
Qed.

Lemma blocks_disjoint a L fl p sz n id p' sz' n' id' :
  inv a L fl → blocks (chunks a) L (p, sz, n, id) →
  blocks (chunks a) L (p', sz', n', id') → p ≠ p' → p + sz ≤ p' ∨ p' + sz' ≤ p.
Proof.
  intros I (h & c & Hh & Hc & _ & [= -> -> -> ->]) (h' & c' & Hh' & Hc' & _ & [= -> -> -> ->]) Hne.
  apply (g_disj _ _ _ (i_geom _ _ _ I) h h'); try done. by intros ->; simplify_eq.
Qed.

Lemma blocks_held a L fl p sz n id q :
  inv a L fl → hosted a → blocks (chunks a) L (p, sz, n, id) → p ≤ q < p + sz →
  held (sub a) q.
Proof.
  intros I Ho (h & c & Hh & Hc & _ & [= -> -> -> ->]) Hq. apply Ho.
  destruct (g_where _ _ _ (i_geom _ _ _ I) h c Hh Hc) as (_ & s & Hs & ? & ?).
  exists s. split; [done | lia].
Qed.

Lemma good_free a m p :
  good a m → is_Some (m !! p) →
  ∃ a', serve 0 (Free p) a = Ok (None, a') ∧ good a' (delete p m).
Proof.
  intros [(L & fl & St & Hr) Ho Hf [Ht Hg] Hs] [b Hm].
  pose proof (proj1 (Hr p b) Hm) as Hb.
  destruct (DeallocateRaw_spec a L fl p _ _ _ St Ht Hb)
    as (a' & L' & fl' & Hrun & St' & Hb' & Hst & Hsp & Hop & Htc & Hsub & Hcr).
  exists a'. split; [simpl; by rewrite (run_bind _ _ _ _ _ Hrun) |]. split.
  - exists L', fl'. split; [done |]. intros q c. rewrite lookup_delete_Some, (Hr q c), Hb'. split.
    + intros [Hne Hc]. split; [done | congruence].
    + intros [Hc Hne]. split; [| done]. intros <-. apply Hne.
      pose proof (blocks_addr a L fl p _ _ _ _ _ _ (st_inv _ _ _ St) Hb Hc). congruence.
  - destruct Ho as [H1 H2]. split; [by rewrite Hcr |]. intros q. rewrite Hsp, Hsub. auto.
  - unfold frag_ok, max_internal_fragmentation_bytes. rewrite Hop. apply Hf.
  - by rewrite Hop.
  - rewrite Hst, Hs, (total_delete m p b Hm). unfold Z.sub. apply wrap_s64_add.
Qed.

(** What lets an allocation return: the size of the next region has not wrapped to 0, and
    when the request fits in nine slots, backing off reaches a size that is granted. *)
Definition returns (a : Allocator) (k n : Z) : Prop :=
  0 < curr_region_allocation_bytes a ∧ (2304 < n ∨ grants (2 ^ log_alignment k) a).

Lemma good_alloc fuel a m k n :
  good a m → big_fuel fuel → 0 ≤ k < 62 → 0 < n < 2 ^ 61 →
  ends (returns a k n)
    (λ '(r, a'), ∃ m', spec_step m (Alloc k n) r m' ∧ good a' m')
    (serve fuel (Alloc k n) a).
Proof.
  intros [(L & fl & St & Hr) Ho Hf [Ht Hg] Hs] Hfuel Hk Hn.
  eapply ends_weaken; [by apply (AllocateRawInternal_spec a L fl fuel k n) | done |].
  intros [r a'] (L' & fl' & St' & Ho' & E1 & E2 & E3 & Hres). unfold represents in Hr.
  assert (Hf' : frag_ok a').
  { unfold frag_ok, max_internal_fragmentation_bytes. by rewrite E1. }
  destruct r as [p |].
  - destruct Hres as (Hp & sz & Hsz & _ & Hb & _ & Hst).
    destruct (RoundedBytes_least n ltac:(lia)) as [_ Hrn]. set (id := next_allocation_id a) in *.
    assert (Hnew : blocks (chunks a') L' (p, sz, n, id)) by (apply Hb; by right).
    assert (Hother : ∀ q b, m !! q = Some b →
      q ≠ p ∧ blk_id b < id ∧ (q + blk_size b ≤ p ∨ p + sz ≤ q)).
    { intros q b Hq%Hr. assert (Hq' : blocks (chunks a') L' (q, blk_size b, blk_requested b, blk_id b)) by (apply Hb; by left).
      assert (Hid : blk_id b < id).
      { destruct Hq as (h & c & Hh & Hc & Hu & [= _ _ _ Eid]).
        pose proof (proj2 (i_ids _ _ _ (st_inv _ _ _ St)) h c Hh Hc Hu). lia. }
      assert (q ≠ p).
      { intros ->. pose proof (blocks_addr a' L' fl' p _ _ _ _ _ _ (st_inv _ _ _ St') Hq' Hnew). simplify_eq. lia. }
      split; [done |]. split; [done |]. by apply (blocks_disjoint a' L' fl' q _ _ _ p sz n _ (st_inv _ _ _ St') Hq' Hnew). }
    assert (Hnone : m !! p = None).
    { destruct (m !! p) as [b |] eqn:E; [| done]. by destruct (Hother p b E). }
    exists (<[p := MkBlock sz n id]> m). split.
    + constructor; [lia | | | intros q b Hq; by apply (Hother q b) ..].
      * etransitivity; [| done]. unfold log_alignment. exists (2 ^ (Z.max k 8 - k)).
        rewrite <- Z.pow_add_r by lia. f_equal. lia.
      * destruct Hnew as (h & c & Hh & Hc & _ & [= -> _ _ _]).
        by destruct (live_ptr a' L' fl' h c (st_inv _ _ _ St') Hh Hc).
    + split; try done; [| by rewrite E1, E3 |].
      * exists L', fl'. split; [done |]. intros q b. rewrite lookup_insert_Some, (Hr q b), Hb. split.
        -- intros [[<- <-] | [Hne Hb']]; [by right | by left].
        -- intros [Hb' | [= -> E4 E5 E6]]; [right | left].
           ++ split; [| done]. intros <-. by apply Hr in Hb'; destruct (Hother p b Hb').
           ++ split; [done |]. destruct b. cbn in *. congruence.
      * rewrite Hst, Hs, total_insert by done. rewrite wrap_s64_add. f_equal. cbn [blk_size]. lia.
  - exists m. split; [constructor |]. split; try done; [| by rewrite E1, E3 |].
    + exists L', fl'. split; [done |]. intros q b. by rewrite (Hr q b), (proj1 Hres).
    + by rewrite (proj2 Hres).
Qed.

(** ** Queries *)

Lemma chunk_of_ptr_run a L fl p sz n id :
  inv a L fl → blocks (chunks a) L (p, sz, n, id) →
  ∃ c, chunk_of_ptr p a = Ok (c, a) ∧ block c = (p, sz, n, id) ∧ p ≠ 0.
Proof.
  intros I Hb. destruct (block_chunk a L fl p sz n id I Hb)
    as (h & c & _ & Hc & _ & _ & E & Hg & Hp).
  exists c. split; [| done]. unfold chunk_of_ptr. rewrite (run_bind _ _ _ _ _ Hg).
  erewrite run_bind by reflexivity. by apply ChunkFromHandle_run.
Qed.

Lemma queries_run a L fl p sz n id :
  inv a L fl → blocks (chunks a) L (p, sz, n, id) →
  RequestedSize p a = Ok (n, a) ∧ AllocatedSize p a = Ok (sz, a) ∧
  AllocationId p a = Ok (id, a).
Proof.
  intros I Hb. destruct (chunk_of_ptr_run a L fl p sz n id I Hb) as (c & Hr & [= E1 E2 E3 E4] & Hp).
  unfold RequestedSize, AllocatedSize, AllocationId.
  rewrite !(run_bind _ _ _ _ _ Hr). split_and!; [| by rewrite <- E2 | by rewrite <- E4].
  erewrite run_bind by (apply check_run; by apply negb_true_iff, Z.eqb_neq).
  rewrite (run_bind _ _ _ _ _ Hr). by rewrite <- E3.
Qed.

(** ** Reachable states *)

(** The client's record of its blocks after a request: the size of a new block and the
    number of its allocation are what [AllocatedSize] and [AllocationId] report, the
    requested size is the client's own. *)
Definition observe (m : heap) (req : request) (r : option Z) (a' : Allocator) : heap :=
  match req, r with
  | Free p, _ => delete p m
  | Alloc _ n, Some p =>
      match AllocatedSize p a', AllocationId p a' with
      | Ok (sz, _), Ok (id, _) => <[p := MkBlock sz n id]> m
      | _, _ => m
      end
  | Alloc _ _, None => m
  end.

Inductive reachable (fuel : nat) (a0 : Allocator) : Allocator → heap → Prop :=
  | reachable_init : reachable fuel a0 a0 ∅
  | reachable_step a m req r a' :
      reachable fuel a0 a m → well_used m req → serve fuel req a = Ok (r, a') →
      reachable fuel a0 a' (observe m req r a').

(** Initial states in the configuration considered. *)
Definition initial (a0 : Allocator) : Prop :=
  ∃ s total_memory o, a0 = NewBFCAllocator s total_memory o None ∧
    garbage_collection o = false ∧
    match fragmentation_bytes o with Some b => 0 < wrap_u64 b | None => True end.

(** With no regions and no chunks everything holds. *)
Lemma empty_inv a :
  regions a = [] → chunks a = [] → free_chunks_list a = None →
  bins a = replicate kNumBins [] → 0 < next_allocation_id a → inv a ∅ [].
Proof.
  intros Er Ec Ef Eb Hid. split; rewrite ?Er, ?Ec, ?Ef, ?Eb.
  - split; intros i; intros; by rewrite lookup_nil in *.
  - split; try (intros; exfalso; set_solver).
  - done.
  - constructor.
  - intros h Hh. by apply elem_of_nil in Hh.
  - split; [done | | intros; exfalso; set_solver |].
    + intros b l h [-> _]%lookup_replicate. set_solver.
    + intros b l [-> _]%lookup_replicate. constructor.
  - split; [done |]. intros h c Hh. by apply elem_of_empty in Hh.
Qed.

Lemma empty_steady a :
  regions a = [] → chunks a = [] → free_chunks_list a = None →
  bins a = replicate kNumBins [] → 0 < next_allocation_id a →
  timestamped_chunks a = [] → steady a ∅ [].
Proof.
  intros. split; [by apply empty_inv | |].
  - intros h c Hh. by apply elem_of_empty in Hh.
  - intros _. split_and!; [done | |].
    + intros h c Hh. by apply elem_of_empty in Hh.
    + intros x y [Hx _]. by apply elem_of_empty in Hx.
Qed.

Lemma initial_good a0 : initial a0 → good a0 ∅.
Proof.
  intros (s & tm & o & -> & Hg & Hf). split; try done.
  - exists ∅, []. split.
    + apply empty_steady; done.
    + intros p b. rewrite lookup_empty. split; [done |].
      by intros (h & c & Hh%elem_of_empty & _).
  - split.
    + simpl. split; [| destruct (allow_growth o); apply RoundedBytes_divide].
      destruct (allow_growth o); apply wrap_u64_range.
    + intros q (x & Hx & _). unfold spans in Hx. simpl in Hx. set_solver.
  - unfold frag_ok, max_internal_fragmentation_bytes. simpl.
    destruct (fragmentation_bytes o); done.
Qed.

Lemma serve_free_fuel fuel p : serve fuel (Free p) = serve 0 (Free p).
Proof. done. Qed.

(** The client's record is what the specification steps to. *)
Lemma observe_spec a' m req r m' :
  spec_step m req r m' → good a' m' → observe m req r a' = m'.
Proof.
  intros Hstep Hg. revert Hg. destruct Hstep as [| m k n p sz id _ _ _ _ _ | m p]; intros Hg; [done | | done].
  destruct Hg as [(L & fl & St & Hr) _ _ _ _]. simpl.
  pose proof (proj1 (Hr p (MkBlock sz n id)) ltac:(by rewrite lookup_insert_eq)) as Hb.
  destruct (queries_run a' L fl p sz n id (st_inv _ _ _ St) Hb) as (_ & -> & ->). done.
Qed.

Lemma good_serve fuel a m req :
  good a m → big_fuel fuel → well_used m req →
  ends (match req with
        | Alloc k n => returns a k n
        | Free _ => True
        end)
    (λ '(r, a'), spec_step m req r (observe m req r a') ∧ good a' (observe m req r a'))
    (serve fuel req a).
Proof.
  intros Hg Hf Hw. destruct req as [k n | p].
  - destruct Hw as [Hk Hn].
    eapply ends_weaken; [by apply (good_alloc fuel a m k n) | done |].
    intros [r a'] (m' & Hs & Hg'). by rewrite (observe_spec _ _ _ _ _ Hs Hg').
  - destruct (good_free a m p Hg Hw) as (a' & Hr & Hg').
    rewrite serve_free_fuel, Hr. split; [constructor | done].
Qed.

Lemma reachable_good fuel a0 a m :
  initial a0 → big_fuel fuel → reachable fuel a0 a m → good a m.
Proof.
  intros Hi Hf. induction 1 as [| a m req r a' _ IH Hw Hr]; [by apply initial_good |].
  pose proof (good_serve fuel a m req IH Hf Hw) as H. rewrite Hr in H. apply H.
Qed.

Lemma reachable_disjoint fuel a0 a m :
  initial a0 → big_fuel fuel → reachable fuel a0 a m → disjoint_heap m.
Proof.
  intros Hi Hf. induction 1 as [| a m req r a' Hreach IH Hw Hr].
  - intros p q s t Hp. by rewrite lookup_empty in Hp.
  - pose proof (good_serve fuel a m req (reachable_good _ _ _ _ Hi Hf Hreach) Hf Hw) as H.
    rewrite Hr in H. destruct H as [Hs _]. by apply (spec_step_disjoint _ _ _ _ IH Hs).
Qed.

(** C1: the allocator implements its contract: from the initial state on, every request it
    serves is a step of an abstract heap of blocks, no check fires and no index is out of
    range.  It always returns, with two exceptions at most: the size of the next region
    has wrapped to 0, or the request is for at most 2304 bytes and the sub-allocator
    refuses requests of that size. *)
Theorem serve_refines fuel a0 a m req :
  initial a0 → big_fuel fuel → reachable fuel a0 a m → well_used m req →
  match serve fuel req a with
  | Ok (r, a') => spec_step m req r (observe m req r a')
  | Fail e => e = NoFuel ∧ ∃ k n, req = Alloc k n ∧ ¬ returns a k n
  end.
Proof.
  intros Hi Hf Hr Hw.
  pose proof (good_serve fuel a m req (reachable_good _ _ _ _ Hi Hf Hr) Hf Hw) as H.
  destruct (serve fuel req a) as [[r a'] | e]; simpl in H; [apply H |].
  destruct e; try done. split; [done |]. destruct req as [k n |]; [eauto | tauto].
Qed.

(** C2: the blocks a client holds never overlap, have allocation numbers of their own and
    lie in memory the sub-allocator delivered; their sizes add up to the in-use statistics,
    and the queries answer with the size the client asked for, and with the size and the
    number that it was told when it got the block. *)
Theorem reachable_safe fuel a0 a m :
  initial a0 → big_fuel fuel → reachable fuel a0 a m →
  (∀ p q b c, m !! p = Some b → m !! q = Some c → p ≠ q →
     blk_id b ≠ blk_id c ∧ (p + blk_size b ≤ q ∨ q + blk_size c ≤ p)) ∧
  (∀ p b q, m !! p = Some b → p ≤ q < p + blk_size b → held (sub a) q) ∧
  bytes_in_use (stats a) = wrap_s64 (total m) ∧
  (∀ p b, m !! p = Some b → RequestedSize p a = Ok (blk_requested b, a) ∧
     AllocatedSize p a = Ok (blk_size b, a) ∧ AllocationId p a = Ok (blk_id b, a)).
Proof.
  intros Hi Hf Hr. split; [by apply (reachable_disjoint fuel a0 a m) |].
  destruct (reachable_good fuel a0 a m Hi Hf Hr) as [(L & fl & St & Hrep) Ho _ _ Hs].
  split; [| split; [done |]].
  - intros p b q Hb%Hrep Hq. by apply (blocks_held a L fl p _ _ _ q (st_inv _ _ _ St) Ho Hb).
  - intros p b Hb%Hrep. by apply (queries_run a L fl p _ _ _ (st_inv _ _ _ St)).
Qed.

(** C3: Best fit. *)
Theorem FindChunkPtr_best_fit a L fl rounded num_bytes k fb :
  steady a L fl → frag_ok a → request_ok rounded num_bytes k →
  let P := acceptable (2 ^ k) rounded fb in
  let free j d := j ∈ L ∧ chunks a !! j = Some d ∧ in_use d = false ∧ P d = true in
  match FindChunkPtr (BinNumForSize rounded) rounded num_bytes (2 ^ k) fb a with
  | Ok (None, a') => a' = a ∧ ∀ j d, ¬ free j d
  | Ok (Some p, a') =>
      (2 ^ k | p) ∧
      ∃ h c, free h c ∧ ptr c ≤ p ∧ p + rounded ≤ ptr c + size c ∧
        (∀ j d, free j d → size c < size d ∨ size c = size d ∧ ptr c ≤ ptr d)
  | Fail _ => False
  end.
Proof.
  intros St Hf Hreq P free.
  destruct (FindChunkPtr_spec a L fl rounded num_bytes k fb St Hf Hreq)
    as [[-> Hno] | (h & c & a' & L' & fl' & sz & Hfree & Hbest & -> & _ & Hal & H1 & H2 & _)];
    [done |].
  split; [done |]. exists h, c. done.
Qed.

(** C4: Releasing a block succeeds and coalesces. *)
Theorem DeallocateRaw_coalesces a L fl p sz n id :
  steady a L fl → timing_counter a = None → blocks (chunks a) L (p, sz, n, id) →
  ∃ a' L' fl', DeallocateRawInternal p a = Ok (tt, a') ∧ steady a' L' fl' ∧
    (∀ b, blocks (chunks a') L' b ↔ blocks (chunks a) L b ∧ b ≠ (p, sz, n, id)) ∧
    (∀ x y, ¬ free_adjacent (chunks a') L' x y) ∧
    bytes_in_use (stats a') = wrap_s64 (bytes_in_use (stats a) - sz).
Proof.
  intros St Ht Hb.
  destruct (DeallocateRaw_spec a L fl p sz n id St Ht Hb)
    as (a' & L' & fl' & Hr & St' & Hb' & Hs & _ & _ & Ht' & _).
  exists a', L', fl'. split_and!; try done. by apply (st_untimed _ _ _ St' Ht').
Qed.

End Contract.

(** Rounding to the allocation granularity. *)
Theorem RoundedBytes_rounds b :
  in_uint64 b →
  if b <=? uint64_max - 255
  then (256 | RoundedBytes b) ∧ b ≤ RoundedBytes b ∧
       ∀ r, (256 | r) → b ≤ r → RoundedBytes b ≤ r
  else RoundedBytes b = 0.
Proof.
  intros Hb. destruct (Z.leb_spec b (uint64_max - 255)).
  - destruct (RoundedBytes_least b ltac:(int_lia)) as [[q Hq] H2].
    split; [by exists q |]. split; [lia |]. intros r [x ->] Hr. lia.
  - unfold RoundedBytes, kMinAllocationSize.
    assert (E : wrap_u64 (b + 256 - 1) = b + 255 - uint64_size).
    { unfold wrap_u64. rewrite <- (Z.mod_add _ (-1)) by int_lia.
      rewrite Z.mod_small; int_lia. }
    rewrite E. rewrite Z.div_small by int_lia. done.
Qed.

Lemma BinNumToSize_eq b : (b ≤ kNumBins)%nat → BinNumToSize b = 2 ^ (8 + Z.of_nat b).
Proof.
  intros Hb. unfold BinNumToSize, kNumBins in *. rewrite Z.shiftl_mul_pow2 by lia.
  rewrite Z.pow_add_r by lia. change (2 ^ 8) with 256.
  assert (2 ^ Z.of_nat b ≤ 2 ^ 21) by (apply Z.pow_le_mono_r; lia).
  assert (0 < 2 ^ Z.of_nat b) by (apply Z.pow_pos_nonneg; lia).
  apply wrap_u64_id. int_lia.
Qed.

(** The bins partition the chunk sizes: a size from 256 bytes on goes to the
    bin whose nominal size is the greatest not above it, the last bin taking
    everything larger; this is what the constructor of the allocator checks. *)
Theorem BinNumForSize_partition sz b :
  256 ≤ sz → (b < kNumBins)%nat →
  BinNumForSize sz = b ↔
  BinNumToSize b ≤ sz ∧ (S b = kNumBins ∨ sz < BinNumToSize (S b)).
Proof.
  intros Hs Hb. rewrite !BinNumToSize_eq by lia. unfold BinNumForSize, kMinAllocationBits.
  rewrite Z.max_l by lia. rewrite Z.shiftr_div_pow2 by lia. change (2 ^ 8) with 256.
  assert (Hq : 1 ≤ sz / 256) by (apply Z.div_le_lower_bound; lia).
  pose proof (Z.log2_spec (sz / 256) ltac:(lia)) as [L1 L2].
  pose proof (Z.log2_nonneg (sz / 256)) as L0. set (l := Z.log2 (sz / 256)) in *.
  pose proof (Z.div_mod sz 256 ltac:(lia)). pose proof (Z.mod_pos_bound sz 256 ltac:(lia)).
  assert (Hlo : ∀ e, 0 ≤ e → (2 ^ (8 + e) ≤ sz ↔ e ≤ l)).
  { intros e He. rewrite Z.pow_add_r by lia. change (2 ^ 8) with 256. split; intros Hx.
    - apply Z.log2_le_pow2; [lia |]. apply Z.div_le_lower_bound; lia.
    - assert (2 ^ e ≤ 2 ^ l) by (apply Z.pow_le_mono_r; lia). lia. }
  pose proof (Hlo (Z.of_nat b) ltac:(lia)) as H1.
  pose proof (Hlo (Z.of_nat (S b)) ltac:(lia)) as H2.
  unfold kNumBins in *. lia.
Qed.

Lemma BinNumForSize_partition_witness :
  BinNumForSize 700 = 1%nat ↔
  BinNumToSize 1 ≤ 700 ∧ (2%nat = kNumBins ∨ 700 < BinNumToSize 2).
Proof. apply (BinNumForSize_partition 700 1); [lia | unfold kNumBins; lia]. Defined.

Lemma RoundedBytes_rounds_witness :
  if 1000 <=? uint64_max - 255
  then (256 | RoundedBytes 1000) ∧ 1000 ≤ RoundedBytes 1000 ∧
       ∀ r, (256 | r) → 1000 ≤ r → RoundedBytes 1000 ≤ r
  else RoundedBytes 1000 = 0.
Proof. apply (RoundedBytes_rounds 1000). int_lia. Defined.

(** ** A concrete sub-allocator *)

(** Memory is handed out upwards from 4096; the state counts 256-byte units. *)
Definition bump_base (s : Z) : Z := 256 * (16 + Z.max 0 s).

#[export] Instance bump : SubAllocator := {|
  sub_state := Z;
  SubAlloc s al n :=
    if (n <=? 2 ^ 40) && (s <=? 2 ^ 40)
    then (Some (bump_base s, n), Z.max 0 s + n / 256) else (None, s);
  SubFree s _ _ := s;
  SupportsCoalescing := true
|}.

#[export] Program Instance bump_ok : SubAllocatorOk bump := {|
  held s q := 4096 ≤ q < bump_base s
|}.
Next Obligation.
  intros s al n s'. simpl. case_match; intros [=]. by subst.
Qed.
Next Obligation.
  intros s al n m sz s' E Hn [k ->] _. simpl in *.
  destruct (Z.leb_spec (k * 256) (2 ^ 40)); simpl in *; [| done].
  destruct (Z.leb_spec s (2 ^ 40)); simpl in *; [| done].
  injection E as <- <- <-. unfold bump_base. rewrite Z.div_mul by lia.
  split_and!; try lia; [by eexists; rewrite Z.mul_comm | by exists k | int_lia].
Qed.

Definition demo0 : Allocator :=
  NewBFCAllocator (SA := bump) 0 (2 ^ 20) (MkOptions true false None) None.

Lemma demo0_initial : initial demo0.
Proof. by exists 0, (2 ^ 20), (MkOptions true false None). Qed.

(** After one region of 2560 bytes arrived. *)
Definition demo1 : Allocator :=
  match add_memory (SA := bump) 64 4096 2560 demo0 with Ok (_, a) => a | Fail _ => demo0 end.

(** After a block of 200 bytes was taken from it. *)
Definition demo2 : Allocator :=
  match FindChunkPtr (SA := bump) (BinNumForSize 256) 256 200 (2 ^ 8) 0 demo1 with
  | Ok (_, a) => a | Fail _ => demo1
  end.

Lemma demo1_steady : ∃ L fl, steady demo1 L fl.
Proof.
  destruct (add_memory_spec demo0 ∅ [] 64 4096 2560) as (a' & L & fl & Hr & St & _).
  - by apply empty_steady.
  - split_and!; try done; [by exists 16 | by exists 10 |].
    intros s Hs. by apply elem_of_nil in Hs.
  - intros s Hs. by apply elem_of_nil in Hs.
  - exists L, fl. unfold demo1. by rewrite Hr.
Qed.

Lemma demo_request : request_ok 256 200 8.
Proof. split_and!; try lia. by exists 1. Qed.

(** The address the search of [demo2] returns. *)
Lemma demo2_address r a' :
  FindChunkPtr (SA := bump) (BinNumForSize 256) 256 200 (2 ^ 8) 0 demo1 = Ok (r, a') →
  r = Some 4096 ∧ demo2 = a'.
Proof.
  intros Hr. split; [| unfold demo2; by rewrite Hr].
  transitivity (match FindChunkPtr (SA := bump) (BinNumForSize 256) 256 200 (2 ^ 8) 0 demo1
    with Ok (r, _) => r | Fail _ => None end); [by rewrite Hr | by vm_compute].
Qed.

Lemma demo2_block :
  ∃ L fl sz id, steady demo2 L fl ∧ blocks (chunks demo2) L (4096, sz, 200, id).
Proof.
  destruct demo1_steady as (L & fl & St).
  destruct (FindChunkPtr_spec demo1 L fl 256 200 8 0 St)
    as [[Hr _] | (h & c & a' & L' & fl' & sz & _ & _ & Hr & Hh & _)];
    [by vm_compute | apply demo_request | |].
  - by destruct (demo2_address _ _ Hr) as [? _].
  - destruct (demo2_address _ _ Hr) as [[= Ep] E2]. rewrite Ep in *.
    exists L', fl', sz, (next_allocation_id demo1). rewrite E2. split; [apply Hh |].
    apply (hd_blocks _ _ _ _ _ _ _ _ Hh). by right.
Qed.

(** ** Witnesses *)

(** The concrete sub-allocator grants requests while less than 2 ^ 40 slots are taken. *)
Lemma bump_grants al (a : Allocator) : 0 ≤ sub a ≤ 2 ^ 40 → grants al a.
Proof.
  intros Ha s n Hs _ Hn. simpl in *. assert (Hss : s ≤ 2 ^ 40).
  { destruct (decide (s ≤ 2 ^ 40)) as [| Hgt]; [done |]. destruct (proj1 (Hs (bump_base (sub a)))); unfold bump_base; lia. }
  by rewrite !(proj2 (Z.leb_le _ _)) by lia.
Qed.

(** Serving a request of 1000 bytes, with any fuel: the block and the client's record. *)
Lemma demo_serves fuel :
  match serve (SA := bump) (S fuel) (Alloc 4 1000) demo0 with
  | Ok (r, a) => r = Some 4096 ∧ observe ∅ (Alloc 4 1000) r a = {[4096 := MkBlock 1024 1000 1]}
  | Fail _ => False
  end.
Proof. lazy. split; reflexivity. Qed.

Definition demo_fuel : nat := S (Z.to_nat uint64_size).

Lemma demo_fuel_big : big_fuel demo_fuel.
Proof. unfold big_fuel, demo_fuel. rewrite Nat2Z.inj_succ, Z2Nat.id; int_lia. Qed.

(** A request of the initial allocator returns and is a step of the specification, and so
    does the release of the block it yields. *)
Lemma serve_refines_witness :
  ∃ a, serve (SA := bump) demo_fuel (Alloc 4 1000) demo0 = Ok (Some 4096, a) ∧
    spec_step ∅ (Alloc 4 1000) (Some 4096) {[4096 := MkBlock 1024 1000 1]} ∧
    match serve demo_fuel (Free 4096) a with
    | Ok (r, _) => spec_step {[4096 := MkBlock 1024 1000 1]} (Free 4096) r ∅
    | Fail _ => False
    end.
Proof.
  pose proof (serve_refines demo_fuel demo0 demo0 ∅ (Alloc 4 1000) demo0_initial demo_fuel_big
    (reachable_init _ _) ltac:(simpl; lia)) as H.
  pose proof (demo_serves (Z.to_nat uint64_size)) as Hd. fold demo_fuel in Hd.
  destruct (serve demo_fuel (Alloc 4 1000) demo0) as [[r a] | e] eqn:E; [| contradiction].
  destruct Hd as [-> Hm]. rewrite Hm in H. exists a. split; [reflexivity |]. split; [exact H |].
  pose proof (reachable_step demo_fuel demo0 demo0 ∅ (Alloc 4 1000) _ a (reachable_init _ _) ltac:(simpl; lia) E) as Hr.
  rewrite Hm in Hr.
  pose proof (serve_refines demo_fuel demo0 a _ (Free 4096) demo0_initial demo_fuel_big Hr
    ltac:(simpl; rewrite lookup_singleton_eq; eauto)) as Hf.
  destruct (serve demo_fuel (Free 4096) a) as [[r' a'] | e].
  - simpl in Hf. rewrite delete_singleton_eq in Hf. exact Hf.
  - destruct Hf as (_ & k & n & [=] & _).
Defined.

(** After the request the queries answer with its sizes and its number. *)
Lemma reachable_safe_witness :
  ∃ a, serve (SA := bump) demo_fuel (Alloc 4 1000) demo0 = Ok (Some 4096, a) ∧
    RequestedSize 4096 a = Ok (1000, a) ∧ AllocatedSize 4096 a = Ok (1024, a) ∧
    AllocationId 4096 a = Ok (1, a) ∧ held (sub a) 4500.
Proof.
  pose proof (demo_serves (Z.to_nat uint64_size)) as Hd. fold demo_fuel in Hd.
  destruct (serve demo_fuel (Alloc 4 1000) demo0) as [[r a] | e] eqn:E; [| contradiction].
  destruct Hd as [-> Hm]. exists a. split; [reflexivity |].
  pose proof (reachable_step demo_fuel demo0 demo0 ∅ (Alloc 4 1000) _ a (reachable_init _ _) ltac:(simpl; lia) E) as Hr.
  rewrite Hm in Hr.
  destruct (reachable_safe demo_fuel demo0 a _ demo0_initial demo_fuel_big Hr) as (_ & Hh & _ & Hq).
  destruct (Hq 4096 (MkBlock 1024 1000 1)) as (H1 & H2 & H3); [apply lookup_singleton_eq |].
  split; [exact H1 |]. split; [exact H2 |]. split; [exact H3 |].
  apply (Hh 4096 (MkBlock 1024 1000 1)); [apply lookup_singleton_eq | simpl; lia].
Defined.

(** The condition on the sub-allocator is met in the initial state. *)
Lemma demo_returns : returns demo0 4 1000.
Proof. split; [vm_compute; reflexivity |]. right. apply bump_grants. simpl. lia. Qed.

Lemma FindChunkPtr_best_fit_witness :
  ∃ L : gset ChunkHandle,
  match FindChunkPtr (SA := bump) (BinNumForSize 256) 256 200 (2 ^ 8) 0 demo1 with
  | Ok (None, a') => a' = demo1 ∧ ∀ j d, ¬ (j ∈ L ∧ chunks demo1 !! j = Some d ∧
      in_use d = false ∧ acceptable (2 ^ 8) 256 0 d = true)
  | Ok (Some p, a') => (2 ^ 8 | p) ∧
      ∃ h c, (h ∈ L ∧ chunks demo1 !! h = Some c ∧ in_use c = false ∧
        acceptable (2 ^ 8) 256 0 c = true) ∧ ptr c ≤ p ∧ p + 256 ≤ ptr c + size c ∧
        (∀ j d, j ∈ L ∧ chunks demo1 !! j = Some d ∧ in_use d = false ∧
           acceptable (2 ^ 8) 256 0 d = true →
           size c < size d ∨ size c = size d ∧ ptr c ≤ ptr d)
  | Fail _ => False
  end.
Proof.
  destruct demo1_steady as (L & fl & St). exists L.
  apply (FindChunkPtr_best_fit demo1 L fl 256 200 8 0 St); [by vm_compute | apply demo_request].
Defined.

Lemma DeallocateRaw_coalesces_witness :
  ∃ a' L', DeallocateRawInternal (SA := bump) 4096 demo2 = Ok (tt, a') ∧
    ∀ x y, ¬ free_adjacent (chunks a') L' x y.
Proof.
  destruct demo2_block as (L & fl & sz & id & St & Hb).
  destruct (DeallocateRaw_coalesces demo2 L fl 4096 sz 200 id St eq_refl Hb)
    as (a' & L' & fl' & Hr & _ & _ & Hc & _).
  exists a', L'. split; assumption.
Defined.

(** ** Running out of memory *)

(** A sub-allocator that has nothing left. *)
#[local] Instance exhausted : SubAllocator := {|
  sub_state := unit; SubAlloc s _ _ := (None, s); SubFree s _ _ := s;
  SupportsCoalescing := false
|}.

(** Backing off from [bytes] comes to rest at 2304 within [n] steps. *)
Fixpoint rests (n : nat) (bytes : Z) : bool :=
  match n with
  | O => bytes =? 2304
  | S n' => (2304 <=? backpedal bytes) && rests n' (backpedal bytes)
  end.

Lemma backpedal_loop_hangs n fuel al rounded bytes a :
  rests n bytes = true → rounded ≤ 2304 →
  backpedal_loop (SA := exhausted) fuel al rounded bytes a = Fail NoFuel.
Proof.
  intros Hn Hr. revert n bytes a Hn. induction fuel as [| fuel IH]; intros n bytes a Hn; [done |].
  assert (Hb : ∃ n', 2304 ≤ backpedal bytes ∧ rests n' (backpedal bytes) = true).
  { destruct n as [| n]; simpl in Hn.
    - apply Z.eqb_eq in Hn as ->. exists 0%nat. by vm_compute.
    - apply andb_true_iff in Hn as [H1 H2]. exists n. split; [by apply Z.leb_le | done]. }
  destruct Hb as (n' & H1 & H2). simpl.
  destruct (Z.ltb_spec (backpedal bytes) rounded); [lia |].
  unfold mbind, M_bind. simpl. by apply (IH n').
Qed.

(** When the sub-allocator has no memory left, [Extend] may not return: from
    the 2 MiB of a growing allocator, backing off by a tenth and rounding up to
    256 bytes comes to rest at 2304 bytes, so for a request of at most 2304
    bytes the loop never reaches the size at which it would give up, whatever
    the number of steps. *)
Theorem Extend_hangs fuel al rounded a :
  0 < rounded ≤ 2304 → curr_region_allocation_bytes a = 2 ^ 21 →
  2 ^ 21 ≤ wrap_u64 (memory_limit a - pool_bytes (stats a)) →
  Extend (SA := exhausted) fuel al rounded a = Fail NoFuel.
Proof.
  intros Hr Hc Hm. unfold Extend. erewrite run_bind by reflexivity. cbv zeta.
  assert (Hav : 2 ^ 21 ≤ wrap_u64 (memory_limit a - pool_bytes (stats a)) / kMinAllocationSize
                       * kMinAllocationSize).
  { unfold kMinAllocationSize. pose proof (Z.div_le_mono (2 ^ 21) _ 256 ltac:(lia) Hm).
    change (2 ^ 21 / 256) with 8192 in *. lia. }
  set (av := _ / _ * _) in *. rewrite Z.gtb_ltb.
  destruct (Z.ltb_spec av rounded); [lia |].
  assert (Hg : grow_region_bytes fuel rounded (curr_region_allocation_bytes a)
               = Ok (2 ^ 21, false)).
  { rewrite Hc. destruct fuel; simpl; rewrite Z.gtb_ltb;
      by destruct (Z.ltb_spec (2 ^ 21) rounded); [lia |]. }
  rewrite Hg. erewrite run_bind by reflexivity. cbv iota beta.
  erewrite run_bind by reflexivity.
  rewrite Z.min_l by lia. erewrite run_bind by reflexivity.
  unfold mbind at 1, M_bind at 1.
  by rewrite (backpedal_loop_hangs 75) by (lia || by vm_compute).
Qed.

Lemma Extend_hangs_witness :
  Extend (SA := exhausted) 1000 256 256
    (NewBFCAllocator (SA := exhausted) tt (2 ^ 30) (MkOptions true false None) None)
  = Fail NoFuel.
Proof.
  apply (Extend_hangs 1000 256 256); [lia | vm_compute; reflexivity | vm_compute; discriminate].
Defined.

End BfcCorrect.
